(* ===== verification/_CoqProject ===== *)
-Q . S2P
Prelude.v
RpcApi.v
RpcNet.v
RpcNetFacts.v
KvModel.v
KvSpec.v
KvStore.v
KvSrv.v
ShardCfg.v
Persister.v
TestGroup.v
TestClnt.v
Transport.v
Demux.v
DemuxFacts.v
SockRpc.v
TestConfig.v
Cluster.v
ClusterFacts.v
ClusterMembers.v
ClusterSetup.v
Raft.v
RaftFacts.v
RaftNet.v
RaftLocal.v
RaftWide.v
RaftSafety.v
RaftVolatile.v
RaftQuorum.v
RaftCommit.v
RaftSources.v
RaftApply.v
RaftRuns.v
Rsm.v
RsmFacts.v
Replicas.v
KvRaft.v
KvRaftFacts.v
RsmRuns.v
ReplicaRuns.v
ShardGrp.v
ShardGrpFacts.v
ShardEquiv.v
ShardClerk.v
Migration.v
ShardCtrler.v
ShardKvClient.v
Observe.v
Sse.v
Web.v
WebAdmin.v
Daemon.v
KvTest.v
Annotate.v
Labgob.v
RaftTest.v
RaftTestNet.v
RaftTestRuns.v
ShardTest.v
Linear.v
KvLin.v
ClerkLin.v
KvRaftLin.v
ShardMoves.v
ShardLin.v
ShardSystem.v
