(* ===== verification/Prelude.v ===== *)
(** * A verification of the sharded, replicated key/value store

    The repository is a Go implementation of a fault-tolerant key/value service
    in layers.  [Raft] peers ([src/src/raft]) agree on a log; a replicated
    state machine ([src/src/kvraft/rsm]) feeds the log to a service and wakes
    the clients that wait for it; a key/value server ([src/src/kvraft]) and a
    shard group server ([src/src/shardkv/shardgrp]) are such services; a shard
    controller ([src/src/shardkv/shardctrler]) keeps configurations
    ([src/src/shardkv/shardcfg]) in a small unreplicated key/value server
    ([src/src/kvsrv]) and moves shards between groups; clerks retry until a
    server answers.  Servers talk over a simulated network ([src/src/rpc]) that
    a tester ([src/src/tester]) partitions and slows down; it runs every server
    in a process of its own and reaches it over multiplexed sockets.  A
    demonstration ([src/shardkv-demo]) manages such a cluster.  Every layer is
    translated to executable definitions, from the Go source, and proved about.

    ** Files

    - [Prelude]: this file.  Outcomes of Go code (a value, or a fault that ends
      the process) with their monad, slices and arrays by [Z] index, 64-bit
      unsigned arithmetic, bytes, the class [Codec] of labgob encodings, the
      fact that two majorities meet.
    - [RpcApi]: errors, requests and replies ([kvsrv/rpcapi/rpcapi.go]).
    - [KvModel]: the linearizability checker's model ([models/kv.go]).
    - [KvSpec]: what a versioned map promises, and that the checker's [Step]
      agrees; the abstract specification of every server below.
    - [KvStore]: maps that may be nil, the conditional put and the table of
      last puts that [kvraft] and [shardgrp] share.
    - [KvSrv]: the single server and its clerk ([kvsrv/server.go],
      [kvsrv/client.go]).  [Linear]: linearizability as Porcupine defines it and
      for a sequential store, the log of the tests ([kvtest/porcupine.go]), and how
      an order is built while a history is recorded; [KvLin]: the tests' threads on the single server, and
      their check at the end.
    - [ShardCfg]: configurations and rebalancing ([shardcfg.go]).
    - [Persister]: stable storage ([tester/persister.go]).
    - [Raft]: a peer ([raft/raft.go]): one definition per function and per
      stretch of a function that runs under the mutex.  [RaftFacts]: their
      contracts.  [RaftNet]: the goroutines and the network as steps of a
      cluster.  [RaftLocal], [RaftSafety], [RaftRuns]: theorems about a peer,
      about all reachable clusters, and about concrete executions.  [RaftWide]: the
      handlers again, on 64-bit indices.
      [RaftVolatile], [RaftQuorum], [RaftCommit]: what is committed and applied,
      with the history of each term as ghost state.  [RaftSources]: snapshots and
      commands come from the services only.  [RaftApply]: what a reader of
      [applyCh] can rely on.
    - [RaftTest]: the servers, the records and the checks of Raft's own tests
      ([raft/server.go], [proxy.go], [test.go]).  [RaftTestNet]: these servers
      around the peers of [RaftNet].  [RaftTestRuns]: their executions.
    - [Rsm]: [rsm.go] with its threads, mutex and channels, over the interfaces
      [StateMachine] (what a service promises) and [RaftApi].  [RsmFacts]: its
      theorems, for any service.  [RsmRuns]: concrete executions.
    - [Replicas]: service, [Rsm] and the peers of [RaftNet] composed into a cluster
      of servers, as [MakeRSM] wires them.  [ReplicaRuns]: its executions.
    - [KvRaft], [KvRaftFacts]: the replicated server and its clerk
      ([kvraft/server.go], [kvraft/client.go]), an instance of [StateMachine].
    - [ClerkLin]: the tests' threads and their clerks ([kvtest/porcupine.go]) on any
      service that keeps the promises of [ServiceLaws]; [KvRaftLin] and
      [ShardLin]: the replicated and the sharded service keep them.
    - [ShardGrp], [ShardGrpFacts]: the shard group server
      ([shardgrp/server.go], [shardrpc.go]), another instance.  [ShardClerk]:
      its clerk ([shardgrp/client.go]).  [ShardEquiv]: a group that owns every
      shard against the unsharded server.
    - [Migration]: the per-shard worker of [migrateShards], any number of them
      at the same time, against two groups.  [ShardMoves]: all groups, with any
      number of moves of every shard.  [ShardSystem]: groups, moves, controllers
      and the configuration store in one system.
    - [ShardCtrler]: controllers as threads on the configuration store.
    - [ShardKvClient]: the sharded client ([shardkv/client.go]), its retry loop
      and its configuration cache.
    - [RpcNet], [RpcNetFacts]: the simulated network ([rpc/rpc.go]): ends,
      servers, services, and the goroutines of a request as steps.
    - [TestGroup], [TestClnt], [TestConfig]: the tester's groups, clients and
      configuration ([tester/group.go], [srv.go], [clnts.go], [config.go]).
    - [Transport], [Demux], [DemuxFacts], [SockRpc]: messages on a byte stream,
      many calls on one connection, and RPC on top ([tester/demux],
      [tester/sockrpc]).
    - [Cluster], [ClusterFacts], [ClusterMembers], [ClusterSetup]: the manager of
      the demonstration cluster and its parameters ([shardkv-demo/cluster],
      [shardkv-demo/config]).
    - [Observe]: the log lines the demonstration shows, in a ring buffer, with
      their toggles and filters ([debug/observe.go]).  [Sse]: the broker that
      fans events out to the connected browsers ([shardkv-demo/web/sse.go]).
    - [Web]: the handlers of the key/value requests of the demonstration and the
      tasks they start ([web/kv_handler.go]); [WebAdmin]: the handlers that
      change and show the cluster.
    - [Daemon]: a server's own process as the tester starts it, with its command
      line, its two goroutines and its shutdown ([tester/daemonsrv.go],
      [tester/daemonclnt.go], [tester/srv.go]).
    - [KvTest]: the clients of the tests and their checks ([kvtest/kvtest.go]).
      [Annotate]: the annotations of a test run ([tester/annotation.go],
      [kvtest/porcupine.go]).
    - [Labgob]: the checks around the encoder ([labgob/gob.go]).
    - [ShardTest]: how the tests of the sharded service make groups join and leave
      and judge a recovered controller ([shardkv/test.go]).

    ** How code becomes definitions

    State is a record with the fields of the Go struct; setters follow the
    record.  A function that can stop the process (index or slice out of range,
    write to a nil map, failed type assertion, [log.Fatal], [panic]) returns
    [outcome].  Go's int is [Z] without a width; [RaftWide] shows when this makes
    no difference for Raft's handlers, whose arguments come from the network, and
    an execution in which it does.  uint64 counters and versions wrap ([u64_add]), and so do the tags of calls
    ([Transport.u32]), the int32 parameters of the network ([i32]) and the
    durations computed from user input ([i64]).  A map that may be nil is an
    [option gmap].  Code between two acquisitions of a mutex is atomic; a
    function that releases it is split there ([replicateToFollower_send],
    [onEntriesReply], [submitStart], [submitFinish], ...), and the pieces are
    composed as steps of threads, so that every interleaving is an execution.
    Time, random numbers and what the network does are arguments of the
    definitions or labels of the steps.  Debug output is dropped, and so are
    the pauses of the clerks' loops, which change nothing ([backoff_returns]
    shows that they cannot panic).

    encoding/gob and encoding/json are not part of the model: [Codec] and
    [ConfigText] say that decoding an encoding gives the value back, and
    [countable_codec] and [ShardCtrler.digits] are concrete instances.

    ** What is proved

    - Raft ([RaftSafety]): election safety, log matching and crash recovery in
      every execution of a cluster of any size, with messages lost, delayed and
      reordered, crashes, restarts and snapshots, by invariants on the reachable
      states.  [RaftLocal]: the contract of each handler, of the backtracking
      of [nextIndex] and of [advanceCommitIndex].
    - [RaftCommit]: state machine safety and leader completeness in every
      execution in which no reply of an older term is processed.  [RaftRuns]: a
      cluster of five servers that applies different commands at the same index
      because such a reply is counted; so the condition is needed for the code
      as it is.
    - [RaftWide]: the handlers return on every request that leaves the log's end
      below the largest index; a snapshot at the largest index crashes a peer later.
    - Tests of Raft ([RaftTestNet]): if no reply of an older term is processed and
      the tester answers every call of its servers, no test server ever reports an
      error, what [one] found committed is final, and [checkOneLeader] never finds
      two leaders.
    - Replication ([RsmFacts]): a replica that is handed a log in order is in
      the state of executing it, whatever clients do; what an OK of [Submit]
      means.  [RsmRuns]: operations of different servers can be confused, and a
      snapshot can deadlock a server.
    - The whole cluster ([Replicas]): on top of [RaftCommit], one growing list of
      operations explains the state of every service and every reply OK, services
      at the same index are in the same state, and a message that was received can
      be applied, for any service that keeps the laws of [StateMachine];
      [readApply] returns to its loop unless a call of [Submit] has given up with a
      result in its channel.  If operation ids are unique, [Submit] is
      linearizable; [ReplicaRuns] loses an acknowledged put because operations of
      different servers are confused.
    - Linearizability: the histories that concurrent clients record of the single
      server ([KvLin]), of the replicated one ([KvRaftLin]) and of the sharded one
      while its shards move ([ShardLin], and [ShardSystem] with the controllers
      that move them) have, for every key, an order that a sequential store could
      have answered and that respects real time, whatever requests and replies are
      lost, repeated or late; without the puts refused with [ErrNoKey], which the
      checker's model cannot explain, it accepts them too.  The replicated services
      are ideal there: one executor for each group, and a [Submit] that never takes
      another operation's result ([own_result]; [KvRaftLin] shows what happens if it
      does).  For the single server a put left under way by a failed call asks for a
      version its key has reached ([informed]).  Of the conditional puts that race
      for one version of a key at most one succeeds ([ShardSystem.race_one_winner]).
    - Services: each client's put is executed exactly once and a retry gets the
      same reply ([KvRaftFacts]); a shard group never panics, answers only for
      shards it serves, and moves shards through their life cycle
      ([ShardGrpFacts]); snapshots restore an equivalent state; sharding is
      invisible as long as no shard moves ([ShardEquiv]).
    - Sharding: no shard is ever served by two groups and no put is lost or
      invented by a migration ([Migration]); configuration numbers only go up
      and configurations with the same number agree ([ShardCtrler]); a recovery
      that reads the two configurations at different moments can stop its
      controller ([ShardSystem]); rebalancing terminates and balances
      ([ShardCfg]).
    - Clerks: answers are errors that a server replied, with bounded or
      necessary retries ([KvSrv], [KvRaftFacts], [ShardClerk],
      [ShardKvClient]); the configuration cache loses no wake-up.
    - Network ([RpcNetFacts]): an acknowledged call was handled once by a server
      that was still registered; calls return; parameters stay in range.  Sockets: a stream cut anywhere gives the messages
      that arrived ([Transport]); a multiplexed call gets the answer to its own
      request or fails, and none waits for ever ([DemuxFacts]); an RPC on top is
      a call of the method, and a request runs the registered handler it names
      ([SockRpc]).
    - Tester: partitions separate ([TestGroup]); clients reach what they may
      ([TestClnt]).  Manager: isolation, membership, group numbers, quorum under
      chaos, start-up parameters ([ClusterFacts], [ClusterMembers],
      [ClusterSetup]), and where these files show the code to differ from its
      comments.
    - Demonstration: the ring buffer is a window on the log ([Observe]); a
      client that stays connected gets the end of its task, and publishing waits
      for nobody unless a queue for priority events is full ([Sse]); the racers
      of a race of conditional puts are counted once each and return their clerks
      ([Web]); the administration handlers keep the manager's
      books and answer what the network really does ([WebAdmin]).
    - Daemons: a process that is stopped hands over the state on which every
      message depends that the network has delivered for it (replies to the
      tester's direct calls are not covered); changes of leader reach the manager, not
      always in order ([Daemon]).
    - Tests: on a correct store the tests' clients never fail and their checks
      accept what they leave, whatever the network loses ([KvTest]); the
      annotations show the faults in force and tile the time ([Annotate]); with
      one controller, groups that join and leave bring the cluster back, and a
      second controller finishes what the first has stored ([ShardTest]).
    - Encoder: the search for fields that would be lost ends on recursive types and
      finds each once ([Labgob]).

    ** Bounds and fuel

    [balance_loop] recurses on [balance_fuel]; [Rebalance_correct] proves that
    it is never used up.  Backward scans of the log recurse on its length.
    Retry loops recurse on what the network does in each round; the loops that
    are bounded in the code recurse on their bound.  [skipGids] has one unit of
    fuel more than there are groups, which [NewGid_unique] shows to be enough;
    [readCalls] needs one unit more than there are messages, [ShardTest.runAlone]
    the five steps of a controller ([changeAlone_settled]), and
    [Labgob.checkType] one more than there are types.  The loops of
    [JoinGroup] and [LeaveGroup], which the code repeats until the controller
    succeeds, recurse on the controller's answers.

    ** Not modelled

    encoding/gob (an interface, [Codec]); operating-system processes and the entry
    points of the server programs; the visualiser and its files; Porcupine itself
    (a parameter of [KvLin.CheckPorcupine] that rejects only what has no
    linearization); HTTP and JSON, which carry the requests and events
    modelled here, and the wording of printed lines; of the
    manager the polling goroutines and the per-group locks (its operations are
    atomic here).

    ** Further work

    Liveness of Raft under fairness; the clients of [ClerkLin] on the replicas of
    [Replicas] instead of an ideal state machine. *)

From Stdlib Require Export Strings.Byte.
From stdpp Require Export base gmap strings list fin_maps sets.
From Stdlib Require Export ZArith Lia.

#[global] Open Scope Z_scope.

(** ** Outcomes of Go code

    A Go function either returns or stops the process: a run-time panic
    (index or slice bounds, a write to a nil map), an explicit [panic(...)] or
    a [log.Fatal].  All of these end the server process, so they share one
    constructor; the fault says which one it was. *)

Inductive fault :=
| IndexRange                  (* index out of range *)
| SliceRange                  (* slice bounds out of range *)
| NilMapWrite                 (* assignment to an entry of a nil map *)
| NilDeref                    (* use of a nil pointer *)
| TypeAssertion               (* x.(T) on a value of another type *)
| GobError                    (* labgob Encode/Decode failed, log.Fatal follows *)
| Fatal (msg : string)        (* log.Fatal(msg) *)
| GoPanic (msg : string).     (* panic(msg) *)

#[global] Instance fault_eq_dec : EqDecision fault.
Proof. solve_decision. Defined.

Inductive outcome (A : Type) :=
| Ret (a : A)
| Panic (f : fault).
Arguments Ret {A} a.
Arguments Panic {A} f.

#[global] Instance outcome_ret : MRet outcome := λ A a, Ret a.
#[global] Instance outcome_bind : MBind outcome := λ A B k m,
  match m with Ret a => k a | Panic f => Panic f end.

#[global] Instance outcome_eq_dec `{EqDecision A} : EqDecision (outcome A).
Proof. solve_decision. Defined.

(** [returns m]: the code did not stop the process. *)
Definition returns {A} (m : outcome A) : Prop := ∃ a, m = Ret a.

#[global] Instance returns_dec {A} (m : outcome A) : Decision (returns m).
Proof.
  destruct m as [a|f]; [left; by exists a | right; by intros [? ?]].
Defined.

Section outcome_facts.
Context {A B : Type}.
Implicit Types (m : outcome A) (k : A → outcome B).

Lemma bind_ret_inv m k b :
  m ≫= k = Ret b → ∃ a, m = Ret a ∧ k a = Ret b.
Proof. destruct m as [a|f]; cbn; [eauto | done]. Qed.

Lemma returns_ret (a : A) : returns (Ret a).
Proof. by exists a. Qed.

Lemma returns_bind m k :
  returns m → (∀ a, m = Ret a → returns (k a)) → returns (m ≫= k).
Proof. intros [a ->] H. cbn. by apply H. Qed.
End outcome_facts.

Create HintDb go.
#[export] Hint Resolve returns_ret : go.

(** Takes apart a hypothesis saying that a sequence of outcomes returned. *)
Ltac inv_bind H :=
  repeat match type of H with
  | _ ≫= _ = Ret _ =>
      let a := fresh "a" in let E := fresh "E" in
      apply bind_ret_inv in H; destruct H as (a & E & H);
      try (destruct a as [? ?])
  end.

(** ** Slices indexed by a Go [int] *)

Section slices.
Context {A : Type}.
Implicit Types (l : list A) (i : Z).

Definition zlen l : Z := Z.of_nat (length l).

(** [l[i]] *)
Definition index l i : outcome A :=
  if decide (0 ≤ i) then
    match l !! Z.to_nat i with Some x => Ret x | None => Panic IndexRange end
  else Panic IndexRange.

(** [l[i:]] *)
Definition slice_from l i : outcome (list A) :=
  if decide (0 ≤ i ≤ zlen l) then Ret (drop (Z.to_nat i) l) else Panic SliceRange.

(** [l[:i]].  The upper bound Go checks is the capacity, at least the
    length, so this definition stops the process in more cases than Go does;
    the in-range lemmas show the cases where it matters do not occur. *)
Definition slice_to l i : outcome (list A) :=
  if decide (0 ≤ i ≤ zlen l) then Ret (take (Z.to_nat i) l) else Panic SliceRange.

(** [l[i] = x] *)
Definition store l i (x : A) : outcome (list A) :=
  if decide (0 ≤ i < zlen l) then Ret (<[Z.to_nat i := x]> l) else Panic IndexRange.

Lemma index_Ret l i x : index l i = Ret x ↔ 0 ≤ i ∧ l !! Z.to_nat i = Some x.
Proof.
  unfold index. case_decide; [|naive_solver].
  destruct (l !! Z.to_nat i); naive_solver.
Qed.

Lemma index_returns l i : 0 ≤ i < zlen l → returns (index l i).
Proof.
  intros [H0 H1]. unfold zlen in H1.
  destruct (lookup_lt_is_Some_2 l (Z.to_nat i)) as [x Hx]; [lia|].
  exists x. by apply index_Ret.
Qed.

Lemma index_bound l i x : index l i = Ret x → 0 ≤ i < zlen l.
Proof.
  intros [H0 H%lookup_lt_Some]%index_Ret. unfold zlen. lia.
Qed.

Lemma slice_from_Ret l i r :
  slice_from l i = Ret r ↔ 0 ≤ i ≤ zlen l ∧ r = drop (Z.to_nat i) l.
Proof. unfold slice_from. case_decide; naive_solver. Qed.

Lemma slice_to_Ret l i r :
  slice_to l i = Ret r ↔ 0 ≤ i ≤ zlen l ∧ r = take (Z.to_nat i) l.
Proof. unfold slice_to. case_decide; naive_solver. Qed.

Lemma slice_from_returns l i : 0 ≤ i ≤ zlen l → returns (slice_from l i).
Proof. intros H. eexists. by apply slice_from_Ret. Qed.

Lemma slice_to_returns l i : 0 ≤ i ≤ zlen l → returns (slice_to l i).
Proof. intros H. eexists. by apply slice_to_Ret. Qed.

Lemma store_Ret l i x r :
  store l i x = Ret r ↔ 0 ≤ i < zlen l ∧ r = <[Z.to_nat i := x]> l.
Proof. unfold store. case_decide; naive_solver. Qed.

Lemma store_returns l i x : 0 ≤ i < zlen l → returns (store l i x).
Proof. intros H. eexists. by apply store_Ret. Qed.

Lemma store_zlen l i x r : store l i x = Ret r → zlen r = zlen l.
Proof. intros [_ ->]%store_Ret. unfold zlen. by rewrite length_insert. Qed.

Lemma zlen_app l1 l2 : zlen (l1 ++ l2) = zlen l1 + zlen l2.
Proof. unfold zlen. rewrite length_app. lia. Qed.

Lemma zlen_nonneg l : 0 ≤ zlen l.
Proof. unfold zlen. lia. Qed.

Lemma zlen_cons x l : zlen (x :: l) = zlen l + 1.
Proof. unfold zlen. cbn. lia. Qed.
End slices.

#[export] Hint Resolve zlen_nonneg index_returns slice_from_returns
  slice_to_returns store_returns : go.

(** ** Unsigned 64-bit arithmetic (Go's [uint64]) *)

Definition u64_mod : Z := 2 ^ 64.
Definition u64_add (x y : Z) : Z := (x + y) mod u64_mod.
Definition is_u64 (x : Z) : Prop := 0 ≤ x < u64_mod.

Lemma u64_add_range x y : is_u64 (u64_add x y).
Proof. apply Z.mod_pos_bound. reflexivity. Qed.

Lemma u64_add_small x y : 0 ≤ x + y < u64_mod → u64_add x y = x + y.
Proof. apply Z.mod_small. Qed.

(** ** Signed 32-bit conversion (Go's [int32(x)]) *)

Definition i32 (x : Z) : Z := (x + 2 ^ 31) mod 2 ^ 32 - 2 ^ 31.

Lemma i32_small x : - 2 ^ 31 ≤ x < 2 ^ 31 → i32 x = x.
Proof. intros H. unfold i32. rewrite Z.mod_small; lia. Qed.

Lemma i32_range x : - 2 ^ 31 ≤ i32 x < 2 ^ 31.
Proof. unfold i32. pose proof (Z.mod_pos_bound (x + 2 ^ 31) (2 ^ 32)). lia. Qed.

(** ** Signed 64-bit wrap-around (Go's [int64]) *)

Definition i64 (x : Z) : Z := (x + 2 ^ 63) mod 2 ^ 64 - 2 ^ 63.

Lemma i64_small x : - 2 ^ 63 ≤ x < 2 ^ 63 → i64 x = x.
Proof. intros H. unfold i64. rewrite Z.mod_small; lia. Qed.

(** ** Serialised values

    labgob is a thin wrapper around [encoding/gob].  What the code relies on
    is that a value of a registered struct type is encoded to a non-empty byte
    string that decodes to the same value. *)

Abbreviation bytes := (list Byte.byte).

#[global] Instance byte_eq_dec : EqDecision Byte.byte := Byte.byte_eq_dec.

Class Codec (A : Type) := {
  enc : A → bytes;
  dec : bytes → option A;
  dec_enc a : dec (enc a) = Some a;
  enc_nonempty a : enc a ≠ [];
}.

(** A concrete codec for every countable type: the bits of its number. *)
Section countable_codec.
Context {A : Type} `{Countable A}.

Fixpoint bytes_of_pos (p : positive) : bytes :=
  match p with
  | xH => [x02]
  | xO p => x00 :: bytes_of_pos p
  | xI p => x01 :: bytes_of_pos p
  end.

Fixpoint pos_of_bytes (b : bytes) : option positive :=
  match b with
  | [x02] => Some xH
  | x00 :: b => xO <$> pos_of_bytes b
  | x01 :: b => xI <$> pos_of_bytes b
  | _ => None
  end.

Lemma pos_of_bytes_of_pos p : pos_of_bytes (bytes_of_pos p) = Some p.
Proof. induction p as [p IH|p IH|]; cbn; rewrite ?IH; done. Qed.

Program Definition countable_codec : Codec A := {|
  enc a := bytes_of_pos (encode a);
  dec b := pos_of_bytes b ≫= decode;
|}.
Next Obligation. intros a. cbn. rewrite pos_of_bytes_of_pos. apply decode_encode. Qed.
Next Obligation. intros a. cbn. by destruct (encode a). Qed.
End countable_codec.

(** ** Majorities *)

(** Two sets of servers out of [n], each larger than half of them, meet. *)
Lemma majorities_meet (n : Z) (P Q : gset nat) :
  (∀ x, x ∈ P ∪ Q → (x < Z.to_nat n)%nat) →
  0 ≤ n →
  n `div` 2 < Z.of_nat (size P) → n `div` 2 < Z.of_nat (size Q) →
  ∃ x, x ∈ P ∧ x ∈ Q.
Proof.
  intros Hb Hn HP HQ.
  destruct (decide (P ∩ Q = ∅)) as [He|Hne].
  - exfalso.
    assert (size (P ∪ Q) = (size P + size Q)%nat) as Hs by (apply size_union; set_solver).
    assert (P ∪ Q ⊆ set_seq 0 (Z.to_nat n)) as Hsub.
    { intros x Hx. apply elem_of_set_seq. split; [lia|]. cbn. by apply Hb. }
    apply subseteq_size in Hsub.
    rewrite size_set_seq in Hsub. 
    pose proof (Z.div_mod n 2). pose proof (Z.mod_pos_bound n 2). lia.
  - apply set_choose_L in Hne as [x Hx]. exists x. set_solver.
Qed.

(** ** Prefixes of lists *)

Section prefixes.
Context {A : Type}.
Implicit Types (l : list A).

Lemma take_take_eq l1 l2 n m :
  (m ≤ n)%nat → take n l1 = take n l2 → take m l1 = take m l2.
Proof.
  intros Hle H. replace m with (m `min` n)%nat by lia.
  by rewrite <-!take_take, H.
Qed.

Lemma drop_S_tail l n : drop (S n) l = drop n (tail l).
Proof. destruct l; cbn; [by rewrite drop_nil|done]. Qed.

Lemma lookup_take_eq l1 l2 n k :
  (k < n)%nat → take n l1 = take n l2 → l1 !! k = l2 !! k.
Proof.
  intros Hk H. rewrite <-(lookup_take_lt l1 n k), <-(lookup_take_lt l2 n k) by lia.
  by rewrite H.
Qed.
End prefixes.

(** ** Filters, and counting after an update *)

Lemma filter_keep {A} (P : A → Prop) `{!∀ x, Decision (P x)} (l : list A) :
  (∀ x, x ∈ l → P x) → filter P l = l.
Proof.
  induction l as [|x l IH]; intros Hl; cbn; [done|]. rewrite decide_True by (apply Hl; left).
  f_equal. apply IH. intros y Hy. apply Hl. by right.
Qed.

Lemma filter_drop {A} (P : A → Prop) `{!∀ x, Decision (P x)} (l : list A) :
  (∀ x, x ∈ l → ¬ P x) → filter P l = [].
Proof.
  induction l as [|x l IH]; intros Hl; cbn; [done|]. rewrite decide_False by (apply Hl; left).
  apply IH. intros y Hy. apply Hl. by right.
Qed.

Lemma filter_insert_length {A} (P : A → Prop) `{!∀ x, Decision (P x)} (l : list A) i x y :
  l !! i = Some x →
  (length (filter P (<[i := y]> l)) + (if decide (P x) then 1 else 0) =
   length (filter P l) + (if decide (P y) then 1 else 0))%nat.
Proof.
  intros Hl. rewrite insert_take_drop by (by eapply lookup_lt_Some).
  replace (filter P l) with (filter P (take i l ++ x :: drop (S i) l)) by (by rewrite take_drop_middle).
  rewrite !filter_app, !filter_cons, !length_app.
  repeat case_decide; cbn; lia.
Qed.
