(* ===== verification/RpcApi.v ===== *)
(** * RpcApi: the error codes and messages of the key/value services

    Models [src/src/kvsrv/rpcapi/rpcapi.go] and the [VersionedValue] record
    that [kvsrv], [kvraft] and [shardgrp] each declare with the same fields. *)

From S2P Require Import Prelude.

(** [type Err string].  The code only ever stores the declared constants or
    leaves a reply at its zero value, the empty string ([ErrUnset]). *)
Inductive Err :=
| OK | ErrNoKey | ErrVersion | ErrMaybe | ErrWrongLeader | ErrWrongGroup
| ErrRetryExhausted | ErrIllegalOperation | ErrUnset.

#[global] Instance Err_eq_dec : EqDecision Err.
Proof. solve_decision. Defined.

#[global] Instance Err_countable : Countable Err.
Proof.
  refine (inj_countable' (λ e, match e with
    | OK => 0%nat | ErrNoKey => 1%nat | ErrVersion => 2%nat | ErrMaybe => 3%nat
    | ErrWrongLeader => 4%nat | ErrWrongGroup => 5%nat | ErrRetryExhausted => 6%nat
    | ErrIllegalOperation => 7%nat | ErrUnset => 8%nat end)
   (λ n, match n with
    | 0%nat => OK | 1%nat => ErrNoKey | 2%nat => ErrVersion | 3%nat => ErrMaybe
    | 4%nat => ErrWrongLeader | 5%nat => ErrWrongGroup | 6%nat => ErrRetryExhausted
    | 7%nat => ErrIllegalOperation | _ => ErrUnset end) _). by intros [].
Defined.

(** The string each constant stands for. *)
Definition err_string (e : Err) : string :=
  match e with
  | OK => "OK" | ErrNoKey => "ErrNoKey" | ErrVersion => "ErrVersion"
  | ErrMaybe => "ErrMaybe" | ErrWrongLeader => "ErrWrongLeader"
  | ErrWrongGroup => "ErrWrongGroup" | ErrRetryExhausted => "ErrRetryExhausted"
  | ErrIllegalOperation => "ErrIllegalOperation" | ErrUnset => ""
  end.

#[global] Instance err_string_inj : Inj (=) (=) err_string.
Proof. by intros [] []. Qed.

(** [type Tversion uint64] *)
Abbreviation Tversion := Z.

Record RequestInfo := mkRequestInfo { ClientId : Z; RequestId : Z }.

Record PutArgs := mkPutArgs {
  put_info : RequestInfo;
  put_Key : string;
  put_Value : string;
  put_Version : Tversion;
}.

Record PutReply := mkPutReply { put_Err : Err }.

Record GetArgs := mkGetArgs { get_Key : string }.

Record GetReply := mkGetReply {
  get_Value : string;
  get_Version : Tversion;
  get_Err : Err;
}.

(** The zero value of a reply struct. *)
Definition zeroGetReply : GetReply := mkGetReply "" 0 ErrUnset.
Definition zeroPutReply : PutReply := mkPutReply ErrUnset.

Record VersionedValue := mkVV { Value : string; Version : Tversion }.

#[global] Instance PutReply_eq_dec : EqDecision PutReply.
Proof. solve_decision. Defined.
#[global] Instance GetReply_eq_dec : EqDecision GetReply.
Proof. solve_decision. Defined.
#[global] Instance VersionedValue_eq_dec : EqDecision VersionedValue.
Proof. solve_decision. Defined.
#[global] Instance RequestInfo_eq_dec : EqDecision RequestInfo.
Proof. solve_decision. Defined.
#[global] Instance PutArgs_eq_dec : EqDecision PutArgs.
Proof. solve_decision. Defined.
#[global] Instance GetArgs_eq_dec : EqDecision GetArgs.
Proof. solve_decision. Defined.

#[global] Instance VersionedValue_countable : Countable VersionedValue.
Proof.
  by refine (inj_countable' (λ v, (Value v, Version v)) (λ p, mkVV p.1 p.2) _); intros [].
Defined.
#[global] Instance PutReply_countable : Countable PutReply.
Proof. by refine (inj_countable' put_Err mkPutReply _); intros []. Defined.
