(* ===== verification/RpcNet.v ===== *)
(** * RpcNet: the network simulator

    Models [src/src/rpc/rpc.go]: the administration of the network (ends,
    servers, connections, parameters), the dispatch of a request to a service
    and a method, and [processReq], the goroutine that carries one request to
    its server and one reply back, or loses either.

    A request in flight is a thread: where its [processReq] is, and what its
    dispatch goroutine has done.  The steps of all threads and of the test that
    reconfigures the network interleave freely; random numbers are part of the
    labels.  The state of the receivers (the peers, the services) is one value
    of type [W], on which a handler is a function.  Servers are pointers into a
    heap, because [isServerDead] compares pointers. *)

From S2P Require Import Prelude.
From Stdlib Require Import Ascii.

(** ** The split of [Raft.AppendEntries] into service and method *)

(** [strings.LastIndex(s, c)] *)
Fixpoint LastIndex (c : ascii) (s : list ascii) : Z :=
  match s with
  | [] => -1
  | x :: s =>
      let r := LastIndex c s in
      if decide (0 ≤ r) then r + 1 else if decide (x = c) then 0 else -1
  end.

Definition dot : ascii := ".".

Definition splitMethod (svcMeth : string) : outcome (string * string) :=
  let s := String.list_ascii_of_string svcMeth in
  let d := LastIndex dot s in
  serviceName ← slice_to s d;
  methodName ← slice_from s (d + 1);
  Ret (String.string_of_list_ascii serviceName, String.string_of_list_ascii methodName).

Lemma LastIndex_none c s : c ∉ s → LastIndex c s = -1.
Proof.
  induction s as [|x s IH]; intros Hc; [done|]. cbn. apply not_elem_of_cons in Hc as [Hx Hs].
  rewrite IH by done. rewrite decide_False by lia. by rewrite decide_False by congruence.
Qed.

Lemma LastIndex_app c s1 s2 : c ∉ s2 → LastIndex c (s1 ++ c :: s2) = zlen s1.
Proof.
  intros Hc. induction s1 as [|x s1 IH]; cbn.
  - rewrite LastIndex_none by done. rewrite decide_False by lia. by rewrite decide_True.
  - rewrite IH. rewrite decide_True by apply zlen_nonneg. by rewrite zlen_cons.
Qed.

(** The method is what follows the last dot. *)
Lemma splitMethod_spec svc meth :
  dot ∉ String.list_ascii_of_string meth →
  splitMethod (svc ++ "." ++ meth) = Ret (svc, meth).
Proof.
  intros Hd. unfold splitMethod.
  assert (String.list_ascii_of_string (svc ++ "." ++ meth) =
          String.list_ascii_of_string svc ++ dot :: String.list_ascii_of_string meth) as ->.
  { induction svc as [|c svc IH]; [done|]. exact (f_equal (cons c) IH). }
  rewrite LastIndex_app by done. set (l1 := String.list_ascii_of_string svc).
  set (l2 := String.list_ascii_of_string meth).
  assert (slice_to (l1 ++ dot :: l2) (zlen l1) = Ret l1) as ->.
  { apply slice_to_Ret. rewrite zlen_app. unfold zlen. split; [cbn; lia|].
    by rewrite Nat2Z.id, take_app_length. }
  cbn. assert (slice_from (l1 ++ dot :: l2) (zlen l1 + 1) = Ret l2) as ->.
  { apply slice_from_Ret. rewrite zlen_app, zlen_cons. unfold zlen. split; [lia|].
    replace (Z.to_nat (Z.of_nat (length l1) + 1)) with (S (length l1)) by lia.
    by rewrite drop_app_ge, Nat.sub_succ_l, Nat.sub_diag by lia. }
  cbn. unfold l1, l2. by rewrite !String.string_of_list_ascii_of_string.
Qed.

Record reqMsg := mkReqMsg { endname : string; svcMeth : string; args : bytes }.
Record replyMsg := mkReplyMsg { rp_ok : bool; rp_reply : bytes }.

Definition failed : replyMsg := mkReplyMsg false [].

Definition SHORTDELAY : Z := 27.
Definition LONGDELAY : Z := 7000.
Definition MAXDELAY : Z := LONGDELAY + 100.
Definition DROPRATE : Z := 100.

(** ** Services and servers *)

Section rpc.
Context {W : Type}.

(** A method with the types of its argument and reply, and what it does. *)
Record Handler := mkHandler {
  hd_arg : Type;
  hd_reply : Type;
  hd_argCodec : Codec hd_arg;
  hd_replyCodec : Codec hd_reply;
  hd_run : hd_arg → W → W * hd_reply;
}.

Inductive Kind := KPtr | KOther.

#[global] Instance Kind_eq_dec : EqDecision Kind.
Proof. solve_decision. Defined.

(** What reflection tells about a method: [In] includes the receiver. *)
Record Method := mkMethod {
  m_Name : string; m_PkgPath : string; m_In : list Kind; m_NumOut : Z; m_Func : Handler }.

Record Service := mkService { svc_name : string; methods : gmap string Method }.

(** [a || b] does not evaluate [b] when [a] holds: [In(2)] is only asked of a
    method with three parameters. *)
Definition unsuitable (m : Method) : outcome bool :=
  if decide (m_PkgPath m ≠ "" ∨ zlen (m_In m) ≠ 3) then Ret true
  else k ← index (m_In m) 2;
       Ret (bool_decide (k ≠ KPtr ∨ m_NumOut m ≠ 0)).

Fixpoint collectMethods (ms : list Method) (acc : gmap string Method) : outcome (gmap string Method) :=
  match ms with
  | [] => Ret acc
  | m :: ms =>
      bad ← unsuitable m;
      collectMethods ms (if bad : bool then acc else <[m_Name m := m]> acc)
  end.

Definition MakeService (name : string) (ms : list Method) : outcome Service :=
  methods ← collectMethods ms ∅; Ret (mkService name methods).

Definition Fcall : Type := string → string → bytes → bytes * bool.
Definition Fdispatch : Type := string → bytes → bytes * bool.

Record Server := mkServer {
  services : gmap string Service; srv_count : Z; dispatchf : option Fdispatch }.

Definition MakeServer : Server := mkServer ∅ 0 None.

Definition SetDispatch (f : Fdispatch) (rs : Server) : Server :=
  mkServer (services rs) (srv_count rs) (Some f).

Definition AddService (svc : Service) (rs : Server) : Server :=
  mkServer (<[svc_name svc := svc]> (services rs)) (srv_count rs) (dispatchf rs).

Definition Server_GetCount (rs : Server) : Z := srv_count rs.

(** [Service.dispatch]: decode the argument, call the method, encode the
    reply.  An argument that does not decode ends the process in [Unmarshall]. *)
Definition Service_dispatch (methname : string) (req : reqMsg) (svc : Service) (w : W)
    : outcome (W * replyMsg) :=
  match methods svc !! methname with
  | None => Panic (Fatal "labrpc.Service.dispatch(): unknown method")
  | Some m =>
      let h := m_Func m in
      match @dec _ (hd_argCodec h) (args req) with
      | None => Panic GobError
      | Some a =>
          let '(w', r) := hd_run h a w in
          Ret (w', mkReplyMsg true (@enc _ (hd_replyCodec h) r))
      end
  end.

Definition Server_dispatch (req : reqMsg) (rs : Server) (w : W) : outcome (Server * W * replyMsg) :=
  let rs := mkServer (services rs) (srv_count rs + 1) (dispatchf rs) in
  names ← splitMethod (svcMeth req);
  match dispatchf rs with
  | Some f =>
      let '(rep, ok) := f (svcMeth req) (args req) in Ret (rs, w, mkReplyMsg ok rep)
  | None =>
      match services rs !! names.1 with
      | Some svc => r ← Service_dispatch names.2 req svc w; Ret (rs, r.1, r.2)
      | None => Panic (Fatal "labrpc.Server.dispatch(): unknown service")
      end
  end.

(** [Dispatch], for a daemon that received the request over a socket. *)
Definition Dispatch (meth clnt : string) (a : bytes) (rs : Server) (w : W)
    : outcome (Server * W * (bytes * bool)) :=
  r ← Server_dispatch (mkReqMsg clnt meth a) rs w;
  Ret (r.1, (rp_reply r.2, rp_ok r.2)).

(** ** The network's state *)

Record ClientEnd := mkClientEnd { ce_endname : string; callf : option Fcall }.

Definition SetCall (f : Fcall) (e : ClientEnd) : ClientEnd := mkClientEnd (ce_endname e) (Some f).

(** [servers] holds pointers into the heap; nil pointers and nil server names
    are [None].  [loop]: the goroutine that accepts requests still runs. *)
Record Network := mkNetwork {
  reliable : bool;
  longDelays : bool;
  longReordering : bool;
  ends : gmap string ClientEnd;
  enabled : gmap string bool;
  servers : gmap string (option nat);
  connections : gmap string (option string);
  done : bool;
  loop : bool;
  count : Z;
  nbytes : Z;
  dropRate : Z;
  shortDelayMs : Z;
  longDelayMs : Z;
}.

Definition MakeNetwork : Network :=
  mkNetwork true false false ∅ ∅ ∅ ∅ false true 0 0 DROPRATE SHORTDELAY LONGDELAY.

Definition set_flags (r ld lr : bool) (rn : Network) : Network :=
  mkNetwork r ld lr (ends rn) (enabled rn) (servers rn) (connections rn) (done rn) (loop rn)
    (count rn) (nbytes rn) (dropRate rn) (shortDelayMs rn) (longDelayMs rn).
Definition set_maps (es : gmap string ClientEnd) (en : gmap string bool)
    (sv : gmap string (option nat)) (cn : gmap string (option string)) (rn : Network) : Network :=
  mkNetwork (reliable rn) (longDelays rn) (longReordering rn) es en sv cn (done rn) (loop rn)
    (count rn) (nbytes rn) (dropRate rn) (shortDelayMs rn) (longDelayMs rn).
Definition set_running (d l : bool) (rn : Network) : Network :=
  mkNetwork (reliable rn) (longDelays rn) (longReordering rn) (ends rn) (enabled rn) (servers rn)
    (connections rn) d l (count rn) (nbytes rn) (dropRate rn) (shortDelayMs rn) (longDelayMs rn).
Definition set_totals (c b : Z) (rn : Network) : Network :=
  mkNetwork (reliable rn) (longDelays rn) (longReordering rn) (ends rn) (enabled rn) (servers rn)
    (connections rn) (done rn) (loop rn) c b (dropRate rn) (shortDelayMs rn) (longDelayMs rn).
Definition set_params (d sd ld : Z) (rn : Network) : Network :=
  mkNetwork (reliable rn) (longDelays rn) (longReordering rn) (ends rn) (enabled rn) (servers rn)
    (connections rn) (done rn) (loop rn) (count rn) (nbytes rn) d sd ld.

(** ** Administration *)

Definition Cleanup (rn : Network) : outcome Network :=
  if done rn then Panic (GoPanic "close of closed channel") else Ret (set_running true (loop rn) rn).

Definition Reliable (yes : bool) (rn : Network) : Network :=
  set_flags yes (longDelays rn) (longReordering rn) rn.
Definition IsReliable (rn : Network) : bool := reliable rn.
Definition LongReordering (yes : bool) (rn : Network) : Network :=
  set_flags (reliable rn) (longDelays rn) yes rn.
Definition IsLongReordering (rn : Network) : bool := longReordering rn.
Definition LongDelays (yes : bool) (rn : Network) : Network :=
  set_flags (reliable rn) yes (longReordering rn) rn.
Definition IsLongDelays (rn : Network) : bool := longDelays rn.

Definition SetDropRate (rate : Z) (rn : Network) : Network :=
  let rate := if decide (rate < 0) then 0 else rate in
  let rate := if decide (1000 < rate) then 1000 else rate in
  set_params (i32 rate) (shortDelayMs rn) (longDelayMs rn) rn.
Definition GetDropRate (rn : Network) : Z := dropRate rn.

Definition SetShortDelayMs (ms : Z) (rn : Network) : Network :=
  let ms := if decide (ms < 0) then 0 else ms in
  set_params (dropRate rn) (i32 ms) (longDelayMs rn) rn.
Definition GetShortDelayMs (rn : Network) : Z := shortDelayMs rn.

Definition SetLongDelayMs (ms : Z) (rn : Network) : Network :=
  let ms := if decide (ms < 0) then 0 else ms in
  set_params (dropRate rn) (shortDelayMs rn) (i32 ms) rn.
Definition GetLongDelayMs (rn : Network) : Z := longDelayMs rn.

Definition MakeEnd (name : string) (rn : Network) : outcome Network :=
  match ends rn !! name with
  | Some _ => Panic (Fatal "MakeEnd: already exists")
  | None => Ret (set_maps (<[name := mkClientEnd name None]> (ends rn)) (<[name := false]> (enabled rn))
                   (servers rn) (<[name := None]> (connections rn)) rn)
  end.

Definition LookupEnd (name : string) (rn : Network) : outcome ClientEnd :=
  match ends rn !! name with
  | Some e => Ret e
  | None => Panic (Fatal "MakeEnd: doesn't exists")
  end.

Definition DeleteEnd (name : string) (rn : Network) : outcome Network :=
  match ends rn !! name with
  | None => Panic (Fatal "MakeEnd: doesn't exists")
  | Some _ => Ret (set_maps (delete name (ends rn)) (delete name (enabled rn)) (servers rn)
                     (delete name (connections rn)) rn)
  end.

Definition AddServer (name : string) (rs : nat) (rn : Network) : Network :=
  set_maps (ends rn) (enabled rn) (<[name := Some rs]> (servers rn)) (connections rn) rn.
Definition DeleteServer (name : string) (rn : Network) : Network :=
  set_maps (ends rn) (enabled rn) (<[name := None]> (servers rn)) (connections rn) rn.
Definition Connect (name sname : string) (rn : Network) : Network :=
  set_maps (ends rn) (enabled rn) (servers rn) (<[name := Some sname]> (connections rn)) rn.
Definition Enable (name : string) (yes : bool) (rn : Network) : Network :=
  set_maps (ends rn) (<[name := yes]> (enabled rn)) (servers rn) (connections rn) rn.

(** [m[k]] of a Go map: the zero value when absent. *)
Definition isEnabled (name : string) (rn : Network) : bool := default false (enabled rn !! name).
Definition serverOf (sname : string) (rn : Network) : option nat := servers rn !! sname ≫= id.

(** A server that was deleted is a nil pointer, whose [GetCount] panics. *)
Definition GetCount (sname : string) (heap : list Server) (rn : Network) : outcome Z :=
  match serverOf sname rn ≫= (heap !!.) with
  | Some rs => Ret (Server_GetCount rs)
  | None => Panic NilDeref
  end.
Definition GetTotalCount (rn : Network) : Z := count rn.
Definition GetTotalBytes (rn : Network) : Z := nbytes rn.

(** ** One request *)

Record EndInfo := mkEndInfo {
  ei_enabled : bool; ei_servername : option string; ei_server : option nat;
  ei_reliable : bool; ei_longreordering : bool }.

Definition readEndnameInfo (name : string) (rn : Network) : EndInfo :=
  let servername := connections rn !! name ≫= id in
  mkEndInfo (isEnabled name rn) servername (servername ≫= λ sn, serverOf sn rn)
    (reliable rn) (longReordering rn).

Definition isServerDead (name sname : string) (server : nat) (rn : Network) : bool :=
  bool_decide (isEnabled name rn = false ∨ serverOf sname rn ≠ Some server).

(** [rand.Int() % d] in the two places that guard [d > 0]. *)
Definition shortDelay (info : EndInfo) (rnd : Z) (rn : Network) : Z :=
  if decide (ei_reliable info = false ∧ 0 < shortDelayMs rn) then rnd mod shortDelayMs rn else 0.

Definition timeoutDelay (rnd : Z) (rn : Network) : Z :=
  if longDelays rn then if decide (0 < longDelayMs rn) then rnd mod longDelayMs rn else 0
  else rnd mod 100.

(** [200 + rand.Intn(1+rand.Intn(2000))] *)
Definition reorderDelay (rnd1 rnd2 : Z) : Z := 200 + rnd2 mod (1 + rnd1 mod 2000).

(** Where [processReq] is. *)
Inductive Pc :=
| Arrived
| Slowed (sname : string) (server : nat) (rel reord : bool) (ms : Z)
| Waiting (sname : string) (server : nat) (rel reord : bool) (drop : Z)
| Waited (sname : string) (server : nat) (rel reord : bool) (drop : Z) (reply : option replyMsg)
| Reordered (ms : Z) (reply : replyMsg)
| TimingOut (ms : Z)
| Replied (reply : replyMsg).

(** The dispatch goroutine: not started, running the handler, offering its
    result on [ech], over. *)
Inductive Exec :=
| NotStarted
| Running (server : nat)
| Offering (server : nat) (reply : replyMsg)
| Over (server : nat) (reply : replyMsg).

Record Thread := mkThread { th_req : reqMsg; th_pc : Pc; th_exec : Exec }.

Record System := mkSystem {
  net : Network; heap : list Server; world : W; threads : list Thread; exited : option fault }.

Definition set_net (rn : Network) (s : System) : System :=
  mkSystem rn (heap s) (world s) (threads s) (exited s).
Definition set_thread (t : nat) (th : Thread) (s : System) : System :=
  mkSystem (net s) (heap s) (world s) (<[t := th]> (threads s)) (exited s).
Definition set_pc (t : nat) (th : Thread) (pc : Pc) (s : System) : System :=
  set_thread t (mkThread (th_req th) pc (th_exec th)) s.
Definition exit_with (f : fault) (s : System) : System :=
  mkSystem (net s) (heap s) (world s) (threads s) (Some f).

Definition addBytes (n : Z) (rn : Network) : Network := set_totals (count rn) (nbytes rn + n) rn.

(** The request reaches the network goroutine, which counts it and starts
    [processReq]. *)
Definition accept (req : reqMsg) (s : System) : option System :=
  guard (loop (net s) = true);;
  let rn := set_totals (i32 (count (net s) + 1)) (nbytes (net s) + zlen (args req)) (net s) in
  Some (mkSystem rn (heap s) (world s) (threads s ++ [mkThread req Arrived NotStarted]) (exited s)).

(** [processReq] up to the short delay, or to the timeout of a request that
    reaches nobody. *)
Definition begin (t : nat) (rnd : Z) (s : System) : option System :=
  th ← threads s !! t;
  match th_pc th with
  | Arrived =>
      let info := readEndnameInfo (endname (th_req th)) (net s) in
      match ei_enabled info, ei_servername info, ei_server info with
      | true, Some sn, Some sv =>
          Some (set_pc t th (Slowed sn sv (ei_reliable info) (ei_longreordering info)
                               (shortDelay info rnd (net s))) s)
      | _, _, _ => Some (set_pc t th (TimingOut (timeoutDelay rnd (net s))) s)
      end
  | _ => None
  end.

(** Drop the request, or start the handler in a goroutine of its own. *)
Definition launch (t : nat) (rnd : Z) (s : System) : option System :=
  th ← threads s !! t;
  match th_pc th with
  | Slowed sn sv rel reord _ =>
      let drop := GetDropRate (net s) in
      if decide (rel = false ∧ rnd mod 1000 < drop) then Some (set_pc t th (Replied failed) s)
      else Some (set_thread t (mkThread (th_req th) (Waiting sn sv rel reord drop) (Running sv)) s)
  | _ => None
  end.

(** The handler runs and returns, or ends the process. *)
Definition handle (t : nat) (s : System) : option System :=
  th ← threads s !! t;
  match th_exec th with
  | Running sv =>
      rs ← heap s !! sv;
      Some match Server_dispatch (th_req th) rs (world s) with
           | Ret (rs, w, r) =>
               mkSystem (net s) (<[sv := rs]> (heap s)) w
                 (<[t := mkThread (th_req th) (th_pc th) (Offering sv r)]> (threads s)) (exited s)
           | Panic f => exit_with f s
           end
  | _ => None
  end.

(** [reply = <-ech] *)
Definition receive (t : nat) (s : System) : option System :=
  th ← threads s !! t;
  match th_pc th, th_exec th with
  | Waiting sn sv rel reord drop, Offering sv' r =>
      Some (set_thread t (mkThread (th_req th) (Waited sn sv rel reord drop (Some r)) (Over sv' r)) s)
  | _, _ => None
  end.

(** 100 ms without a reply: stop waiting if the server is dead. *)
Definition poll (t : nat) (s : System) : option System :=
  th ← threads s !! t;
  match th_pc th with
  | Waiting sn sv rel reord drop =>
      Some (if isServerDead (endname (th_req th)) sn sv (net s)
            then set_pc t th (Waited sn sv rel reord drop None) s else s)
  | _ => None
  end.

(** The end of [processReq]. *)
Definition finish (t : nat) (r1 r2 r3 r4 : Z) (s : System) : option System :=
  th ← threads s !! t;
  match th_pc th with
  | Waited sn sv rel reord drop reply =>
      let serverDead := isServerDead (endname (th_req th)) sn sv (net s) in
      Some match reply, serverDead with
           | Some r, false =>
               if decide (rel = false ∧ r1 mod 1000 < drop) then set_pc t th (Replied failed) s
               else if decide (reord = true ∧ r2 mod 900 < 600) then
                 set_pc t th (Reordered (reorderDelay r3 r4) r) s
               else set_net (addBytes (zlen (rp_reply r)) (net s)) (set_pc t th (Replied r) s)
           | _, _ => set_pc t th (Replied failed) s
           end
  | _ => None
  end.

(** A timer of [time.AfterFunc] fires. *)
Definition fire (t : nat) (s : System) : option System :=
  th ← threads s !! t;
  match th_pc th with
  | Reordered _ r => Some (set_net (addBytes (zlen (rp_reply r)) (net s)) (set_pc t th (Replied r) s))
  | TimingOut _ => Some (set_pc t th (Replied failed) s)
  | _ => None
  end.

(** What the test does to the network meanwhile. *)
Inductive Admin :=
| OpCleanup
| OpReliable (yes : bool) | OpLongReordering (yes : bool) | OpLongDelays (yes : bool)
| OpSetDropRate (r : Z) | OpSetShortDelayMs (ms : Z) | OpSetLongDelayMs (ms : Z)
| OpMakeEnd (name : string) | OpDeleteEnd (name : string)
| OpAddServer (sname : string) (rs : nat) | OpDeleteServer (sname : string)
| OpConnect (name sname : string) | OpEnable (name : string) (yes : bool).

Definition admin (op : Admin) (rn : Network) : outcome Network :=
  match op with
  | OpCleanup => Cleanup rn
  | OpReliable b => Ret (Reliable b rn)
  | OpLongReordering b => Ret (LongReordering b rn)
  | OpLongDelays b => Ret (LongDelays b rn)
  | OpSetDropRate r => Ret (SetDropRate r rn)
  | OpSetShortDelayMs ms => Ret (SetShortDelayMs ms rn)
  | OpSetLongDelayMs ms => Ret (SetLongDelayMs ms rn)
  | OpMakeEnd n => MakeEnd n rn
  | OpDeleteEnd n => DeleteEnd n rn
  | OpAddServer sn rs => Ret (AddServer sn rs rn)
  | OpDeleteServer sn => Ret (DeleteServer sn rn)
  | OpConnect n sn => Ret (Connect n sn rn)
  | OpEnable n b => Ret (Enable n b rn)
  end.

Inductive Label :=
| LAccept (req : reqMsg)
| LBegin (t : nat) (rnd : Z)
| LLaunch (t : nat) (rnd : Z)
| LHandle (t : nat)
| LReceive (t : nat)
| LPoll (t : nat)
| LFinish (t : nat) (r1 r2 r3 r4 : Z)
| LFire (t : nat)
| LAdmin (op : Admin)
| LNewServer (rs : Server)
| LWorld (w : W)                   (* the receivers do something of their own *)
| LExit.                           (* the network goroutine sees [done] *)

Definition act (l : Label) (s : System) : option System :=
  match l with
  | LAccept req => accept req s
  | LBegin t rnd => begin t rnd s
  | LLaunch t rnd => launch t rnd s
  | LHandle t => handle t s
  | LReceive t => receive t s
  | LPoll t => poll t s
  | LFinish t r1 r2 r3 r4 => finish t r1 r2 r3 r4 s
  | LFire t => fire t s
  | LAdmin op => Some match admin op (net s) with Ret rn => set_net rn s | Panic f => exit_with f s end
  | LNewServer rs => Some (mkSystem (net s) (heap s ++ [rs]) (world s) (threads s) (exited s))
  | LWorld w => Some (mkSystem (net s) (heap s) w (threads s) (exited s))
  | LExit => guard (done (net s) = true);; Some (set_net (set_running true false (net s)) s)
  end.

Definition net_step (l : Label) (s : System) : option System := guard (exited s = None);; act l s.

Fixpoint run_net (ls : list Label) (s : System) : option System :=
  match ls with
  | [] => Some s
  | l :: ls => s ← net_step l s; run_net ls s
  end.

(** ** [ClientEnd.Call] around it *)

Definition Marshall {A} `{!Codec A} (a : A) : bytes := enc a.

Definition Unmarshall {R} `{!Codec R} (b : bytes) : outcome R :=
  match dec b with Some r => Ret r | None => Panic GobError end.

Definition callRequest {A} `{!Codec A} (e : ClientEnd) (meth : string) (a : A) : reqMsg :=
  mkReqMsg (ce_endname e) meth (Marshall a).

(** What [Call] returns once the reply is there: the decoded reply, if it is
    to return true. *)
Definition callResult {R} `{!Codec R} (rep : replyMsg) : outcome (option R) :=
  if rp_ok rep then r ← Unmarshall (rp_reply rep); Ret (Some r) else Ret None.

(** [Call] of an end whose calls go through a socket. *)
Definition callVia {A R} `{!Codec A, !Codec R} (f : Fcall) (e : ClientEnd) (meth : string) (a : A)
    : outcome (option R) :=
  let '(rep, ok) := f (ce_endname e) meth (Marshall a) in
  if ok : bool then r ← Unmarshall rep; Ret (Some r) else Ret None.

(** [Forward]: the reply as it is. *)
Definition forwardResult (rep : replyMsg) : bytes * bool := (rp_reply rep, rp_ok rep).
End rpc.
