(* ===== verification/RpcNetFacts.v ===== *)
(** * RpcNetFacts: what a call through the simulated network means

    Theorems about [RpcNet]: what a positive reply proves, that a call always
    can return, that a reliable call is a round trip, that the parameters stay
    in range, and which methods a service registers. *)

From S2P Require Import Prelude RpcNet.

Section facts.
Context {W : Type}.
Implicit Types (s : @System W) (l : @Label W) (ls : list (@Label W)) (th : Thread) (t sv : nat)
  (rn : Network).

Lemma run_net_snoc ls l s s' :
  run_net (ls ++ [l]) s = Some s' ↔ ∃ s1, run_net ls s = Some s1 ∧ net_step l s1 = Some s'.
Proof.
  revert s. induction ls as [|l0 ls IH]; intros s; cbn.
  - split; [|intros (s1 & [= <-] & ->); done].
    intros (s1 & Hs & [= <-])%bind_Some. eauto.
  - split.
    + intros (s1 & Hs & H)%bind_Some. apply IH in H as (s2 & ? & ?). exists s2.
      split; [|done]. by rewrite Hs.
    + intros (s1 & (s2 & Hs & H)%bind_Some & Hl). rewrite Hs. cbn. apply IH. eauto.
Qed.

(** ** What a positive reply proves *)

(** In the run [ls], the handler of request [t] ran once, on server [sv], and
    returned [r]. *)
Definition handled s0 ls t (req : reqMsg) sv (r : replyMsg) : Prop :=
  ∃ ls1 ls2 s1 rs rs' w, ls = ls1 ++ LHandle t :: ls2 ∧ LHandle t ∉ ls1 ∧ LHandle t ∉ ls2 ∧
    run_net ls1 s0 = Some s1 ∧ heap s1 !! sv = Some rs ∧
    Server_dispatch req rs (world s1) = Ret (rs', w, r).

(** After that, there was a moment at which the sending end was enabled and the
    same server still registered. *)
Definition confirmed s0 ls t (req : reqMsg) (r : replyMsg) : Prop :=
  ∃ ls1 r1 r2 r3 r4 ls2 s1 sn sv, ls = ls1 ++ LFinish t r1 r2 r3 r4 :: ls2 ∧
    handled s0 ls1 t req sv r ∧ LHandle t ∉ ls2 ∧ run_net ls1 s0 = Some s1 ∧
    isEnabled (endname req) (net s1) = true ∧ serverOf sn (net s1) = Some sv.

Definition exec_ok s0 ls (x : option fault) t th : Prop :=
  match th_exec th with
  | NotStarted => LHandle t ∉ ls
  | Running _ => x = None → LHandle t ∉ ls
  | Offering sv r | Over sv r => handled s0 ls t (th_req th) sv r
  end.

Definition pc_ok s0 ls t th : Prop :=
  match th_pc th with
  | Arrived | Slowed _ _ _ _ _ | TimingOut _ => th_exec th = NotStarted
  | Waiting _ sv _ _ _ => th_exec th = Running sv ∨ ∃ r, th_exec th = Offering sv r
  | Waited _ sv _ _ _ (Some r) => th_exec th = Over sv r
  | Waited _ sv _ _ _ None => True
  | Reordered _ r => (∃ sv, th_exec th = Over sv r) ∧ confirmed s0 ls t (th_req th) r
  | Replied r => rp_ok r = true → (∃ sv, th_exec th = Over sv r) ∧ confirmed s0 ls t (th_req th) r
  end.

Definition thread_ok s0 ls x t th : Prop := exec_ok s0 ls x t th ∧ pc_ok s0 ls t th.

Lemma handled_snoc s0 ls t req sv r l :
  handled s0 ls t req sv r → l ≠ LHandle t → handled s0 (ls ++ [l]) t req sv r.
Proof.
  intros (ls1 & ls2 & s1 & rs & rs' & w & -> & H1 & H2 & ? & ? & ?) Hl.
  exists ls1, (ls2 ++ [l]), s1, rs, rs', w. rewrite <-app_assoc. split_and!; try done.
  intros [?|?%list_elem_of_singleton]%elem_of_app; [done|congruence].
Qed.

Lemma confirmed_snoc s0 ls t req r l :
  confirmed s0 ls t req r → l ≠ LHandle t → confirmed s0 (ls ++ [l]) t req r.
Proof.
  intros (ls1 & r1 & r2 & r3 & r4 & ls2 & s1 & sn & sv & -> & Hh & Hn & ? & ? & ?) Hl.
  exists ls1, r1, r2, r3, r4, (ls2 ++ [l]), s1, sn, sv. rewrite <-app_assoc. split_and!; try done.
  intros [?|?%list_elem_of_singleton]%elem_of_app; [done|congruence].
Qed.

Lemma unhandled_snoc ls t l : LHandle t ∉ ls → l ≠ LHandle t → LHandle t ∉ ls ++ [l].
Proof. intros H Hl [?|?%list_elem_of_singleton]%elem_of_app; [done|congruence]. Qed.

Lemma exec_ok_snoc s0 ls x t th l :
  exec_ok s0 ls None t th → l ≠ LHandle t → exec_ok s0 (ls ++ [l]) x t th.
Proof.
  unfold exec_ok. destruct (th_exec th); intros; auto using handled_snoc, unhandled_snoc.
Qed.

Lemma pc_ok_snoc s0 ls t th l : pc_ok s0 ls t th → l ≠ LHandle t → pc_ok s0 (ls ++ [l]) t th.
Proof.
  unfold pc_ok. destruct (th_pc th) as [| | |? ? ? ? ? [r|]| | |]; try done.
  - intros [? ?] ?. auto using confirmed_snoc.
  - intros H ? Hok. destruct (H Hok). auto using confirmed_snoc.
Qed.

Lemma thread_ok_snoc s0 ls x t th l :
  thread_ok s0 ls None t th → l ≠ LHandle t → thread_ok s0 (ls ++ [l]) x t th.
Proof. intros [? ?] ?. split; auto using exec_ok_snoc, pc_ok_snoc. Qed.

Record run_ok s0 ls s : Prop := {
  ro_run : run_net ls s0 = Some s;
  ro_threads t th : threads s !! t = Some th → thread_ok s0 ls (exited s) t th;
  ro_fresh t : (length (threads s) ≤ t)%nat → LHandle t ∉ ls;
}.

Lemma step_running l s s' : net_step l s = Some s' → exited s = None.
Proof. by intros (? & _ & _)%bind_Some. Qed.

(** A step that changes thread [t] only, and does not run its handler. *)
Lemma run_ok_thread s0 ls s l s' t th' :
  run_ok s0 ls s → net_step l s = Some s' → (∀ t', l ≠ LHandle t') →
  threads s' = <[t := th']> (threads s) →
  thread_ok s0 (ls ++ [l]) (exited s') t th' → run_ok s0 (ls ++ [l]) s'.
Proof.
  intros [Hrun Hth Hfr] Hstep Hl Heq Hok. rewrite (step_running _ _ _ Hstep) in Hth. split.
  - apply run_net_snoc. eauto.
  - intros t' th. rewrite Heq. intros [(<- & <- & _)|[Hne H]]%list_lookup_insert_Some; [done|].
    apply thread_ok_snoc; auto.
  - intros t' Ht'. rewrite Heq, length_insert in Ht'. apply unhandled_snoc; auto.
Qed.

Lemma run_ok_same s0 ls s l s' :
  run_ok s0 ls s → net_step l s = Some s' → (∀ t', l ≠ LHandle t') →
  threads s' = threads s → run_ok s0 (ls ++ [l]) s'.
Proof.
  intros [Hrun Hth Hfr] Hstep Hl Heq. rewrite (step_running _ _ _ Hstep) in Hth. split.
  - apply run_net_snoc. eauto.
  - intros t' th. rewrite Heq. intros H. apply thread_ok_snoc; auto.
  - intros t' Ht'. rewrite Heq in Ht'. apply unhandled_snoc; auto.
Qed.

Lemma run_ok_accept s0 ls s req s' :
  run_ok s0 ls s → net_step (LAccept req) s = Some s' → run_ok s0 (ls ++ [LAccept req]) s'.
Proof.
  intros [Hrun Hth Hfr] Hstep. rewrite (step_running _ _ _ Hstep) in Hth.
  split; [apply run_net_snoc; eauto|..];
    apply bind_Some in Hstep as (_ & _ & Hstep);
    apply bind_Some in Hstep as (_ & _ & [= <-]); cbn.
  - intros t th [H|[Hle H]]%lookup_app_Some; [by apply thread_ok_snoc; auto|].
    apply list_lookup_singleton_Some in H as [_ <-]. split; [|done]. cbn. apply unhandled_snoc; auto.
  - intros t. rewrite length_app. cbn. intros Ht. apply unhandled_snoc; [|done]. apply Hfr. lia.
Qed.

(** The thread whose handler ran. *)
Lemma thread_ok_handled s0 ls s t th sv rs rs' w r x :
  thread_ok s0 ls None t th → th_exec th = Running sv → run_net ls s0 = Some s →
  heap s !! sv = Some rs → Server_dispatch (th_req th) rs (world s) = Ret (rs', w, r) →
  thread_ok s0 (ls ++ [LHandle t]) x t (mkThread (th_req th) (th_pc th) (Offering sv r)).
Proof.
  intros [Hex Hpc] He Hrun Hrs Hd. unfold exec_ok in Hex. rewrite He in Hex.
  split.
  - exists ls, [], s, rs, rs', w. split_and!; try done; [by apply Hex|apply not_elem_of_nil].
  - unfold pc_ok in *. cbn. rewrite He in Hpc.
    destruct (th_pc th) as [| | |? ? ? ? ? [r'|]| | |]; try done.
    + right. destruct Hpc as [[= ->]|(? & [=])]. eauto.
    + by destruct Hpc as [(? & [=]) _].
    + intros Hok. by destruct (Hpc Hok) as [(? & [=]) _].
Qed.

Lemma run_ok_handle s0 ls s t s' :
  run_ok s0 ls s → net_step (LHandle t) s = Some s' → run_ok s0 (ls ++ [LHandle t]) s'.
Proof.
  intros [Hrun Hth Hfr] Hstep. pose proof Hstep as H.
  rewrite (step_running _ _ _ Hstep) in Hth.
  apply bind_Some in H as (_ & _ & H). unfold handle in H. apply bind_Some in H as (th & Ht & H).
  destruct (th_exec th) as [|sv| |] eqn:He; try done. apply bind_Some in H as (rs & Hrs & H).
  assert (∀ t', t' ≠ t → @LHandle W t ≠ LHandle t') as Hother by congruence.
  pose proof (lookup_lt_Some _ _ _ Ht) as Hlt.
  split; [apply run_net_snoc; eauto|..]; destruct (Server_dispatch (th_req th) rs (world s))
    as [[[rs' w] r]|f] eqn:Hd; injection H as <-; cbn.
  - intros t' th' [(<- & <- & _)|[Hne Ht']]%list_lookup_insert_Some.
    + by eapply thread_ok_handled; auto.
    + apply thread_ok_snoc; auto.
  - intros t' th' Ht'. destruct (decide (t' = t)) as [->|]; [|by apply thread_ok_snoc; auto].
    rewrite Ht in Ht'. injection Ht' as <-. destruct (Hth _ _ Ht) as [Hex Hpc].
    split; [by unfold exec_ok; rewrite He|]. unfold pc_ok in *. rewrite He in *.
    destruct (th_pc th) as [| | |? ? ? ? ? [r'|]| | |]; try done.
    + by destruct Hpc as [(? & [=]) _].
    + intros Hok. by destruct (Hpc Hok) as [(? & [=]) _].
  - intros t' Ht'. rewrite length_insert in Ht'. apply unhandled_snoc; [by apply Hfr|apply Hother; lia].
  - intros t' Ht'. apply unhandled_snoc; [by apply Hfr|apply Hother; lia].
Qed.

(** [finish] confirms what it replies with, or replies with a failure. *)
Lemma run_ok_finish s0 ls s t r1 r2 r3 r4 s' :
  run_ok s0 ls s → net_step (LFinish t r1 r2 r3 r4) s = Some s' →
  run_ok s0 (ls ++ [LFinish t r1 r2 r3 r4]) s'.
Proof.
  intros Hok Hstep. pose proof Hstep as H.
  pose proof (ro_threads _ _ _ Hok) as Hth. rewrite (step_running _ _ _ Hstep) in Hth.
  apply bind_Some in H as (_ & _ & H). unfold finish in H. apply bind_Some in H as (th & Ht & H).
  destruct (th_pc th) as [| | |sn sv rel reord drop reply| | |] eqn:Hpc; try done. injection H as <-.
  destruct (Hth _ _ Ht) as [Hex Hp]. unfold pc_ok in Hp. rewrite Hpc in Hp.
  assert (∀ pc, pc_ok s0 (ls ++ [LFinish t r1 r2 r3 r4]) t (mkThread (th_req th) pc (th_exec th)) →
    thread_ok s0 (ls ++ [LFinish t r1 r2 r3 r4]) (exited s) t (mkThread (th_req th) pc (th_exec th)))
    as Hpcok.
  { intros pc ?. split; [|done]. unfold exec_ok. cbn.
    apply (exec_ok_snoc s0 ls (exited s) t th); done. }
  assert (pc_ok s0 (ls ++ [LFinish t r1 r2 r3 r4]) t
            (mkThread (th_req th) (Replied failed) (th_exec th))) as Hfail by done.
  destruct reply as [r|].
  2: { eapply run_ok_thread; [done|exact Hstep|done|reflexivity|]. by apply Hpcok. }
  destruct (isServerDead (endname (th_req th)) sn sv (net s)) eqn:Hdead.
  { eapply run_ok_thread; [done|exact Hstep|done|reflexivity|]. by apply Hpcok. }
  apply bool_decide_eq_false in Hdead.
  assert ((∃ sv, th_exec th = Over sv r) ∧
          confirmed s0 (ls ++ [LFinish t r1 r2 r3 r4]) t (th_req th) r) as Hc.
  { split; [by eexists|]. exists ls, r1, r2, r3, r4, [], s, sn, sv. unfold exec_ok in Hex.
    rewrite Hp in Hex. split_and!; try done; [apply not_elem_of_nil|apply Hok|..].
    - destruct (isEnabled _ (net s)); [done|tauto].
    - destruct (decide (serverOf sn (net s) = Some sv)); [done|tauto]. }
  repeat case_decide.
  - eapply run_ok_thread; [done|exact Hstep|done|reflexivity|]. by apply Hpcok.
  - eapply run_ok_thread; [done|exact Hstep|done|reflexivity|]. by apply Hpcok.
  - eapply run_ok_thread; [done|exact Hstep|done|reflexivity|]. apply Hpcok. by intros _.
Qed.

(** The other moves of a thread keep its dispatch goroutine's record. *)
Lemma run_ok_pc s0 ls s l s' t th pc ex :
  run_ok s0 ls s → net_step l s = Some s' → (∀ t', l ≠ LHandle t') →
  threads s !! t = Some th → threads s' = <[t := mkThread (th_req th) pc ex]> (threads s) →
  (ex = th_exec th ∨ (th_exec th = NotStarted ∧ ∃ sv, ex = Running sv) ∨
   ∃ sv r, th_exec th = Offering sv r ∧ ex = Over sv r) →
  pc_ok s0 (ls ++ [l]) t (mkThread (th_req th) pc ex) → run_ok s0 (ls ++ [l]) s'.
Proof.
  intros Hok Hstep Hl Ht Heq Hex Hpc. eapply run_ok_thread; try done. split; [|done].
  pose proof (ro_threads _ _ _ Hok _ _ Ht) as [He _]. rewrite (step_running _ _ _ Hstep) in He.
  apply (exec_ok_snoc _ _ (exited s') _ _ l) in He; [|done]. unfold exec_ok in *. cbn.
  destruct Hex as [->|[[H [sv ->]]|(sv & r & H & ->)]]; [done|by rewrite H in He..].
Qed.

Lemma run_ok_step s0 ls s l s' :
  run_ok s0 ls s → net_step l s = Some s' → run_ok s0 (ls ++ [l]) s'.
Proof.
  intros Hok Hstep. pose proof Hstep as H. apply bind_Some in H as (_ & _ & H).
  destruct l as [req|t rnd|t rnd|t|t|t|t r1 r2 r3 r4|t|op|rs|w|].
  1: by apply run_ok_accept with s. 3: by apply run_ok_handle with s. 5: by apply run_ok_finish with s.
  - apply bind_Some in H as (th & Ht & H). pose proof (ro_threads _ _ _ Hok _ _ Ht) as [_ Hp].
    unfold pc_ok in Hp. destruct (th_pc th) eqn:Hpc; try done.
    cbn zeta in H. repeat case_match; injection H as <-;
      (eapply run_ok_pc; [done|exact Hstep|done|exact Ht|reflexivity|by left|exact Hp]).
  - apply bind_Some in H as (th & Ht & H). pose proof (ro_threads _ _ _ Hok _ _ Ht) as [_ Hp].
    unfold pc_ok in Hp. destruct (th_pc th) eqn:Hpc; try done. cbn zeta in H. case_decide as Hdr; injection H as <-.
    + eapply run_ok_pc; [done|exact Hstep|done|exact Ht|reflexivity|by left|done].
    + eapply run_ok_pc; [done|exact Hstep|done|exact Ht|reflexivity|eauto|by left].
  - apply bind_Some in H as (th & Ht & H). pose proof (ro_threads _ _ _ Hok _ _ Ht) as [_ Hp].
    unfold pc_ok in Hp. destruct (th_pc th) eqn:Hpc; try done.
    destruct (th_exec th) as [| |sv' r|] eqn:He; try done. injection H as <-.
    eapply run_ok_pc; [done|exact Hstep|done|exact Ht|reflexivity|right; right; eauto|].
    cbn. destruct Hp as [?|(? & [= -> _])]; done.
  - apply bind_Some in H as (th & Ht & H). pose proof (ro_threads _ _ _ Hok _ _ Ht) as [_ Hp].
    unfold pc_ok in Hp. destruct (th_pc th) eqn:Hpc; try done.
    destruct (isServerDead _ _ _ _); injection H as <-; [|by eapply run_ok_same].
    eapply run_ok_pc; [done|exact Hstep|done|exact Ht|reflexivity|by left|done].
  - apply bind_Some in H as (th & Ht & H). pose proof (ro_threads _ _ _ Hok _ _ Ht) as [_ Hp].
    destruct (th_pc th) eqn:Hpc; try done; injection H as <-;
      (eapply run_ok_pc; [done|exact Hstep|done|exact Ht|reflexivity|by left|]); [|done].
    unfold pc_ok in *. rewrite Hpc in Hp. destruct Hp. cbn. auto using confirmed_snoc.
  - injection H as <-. eapply run_ok_same; [done|exact Hstep|done|].
    by destruct (admin op (net s)).
  - injection H as <-. by eapply run_ok_same.
  - injection H as <-. by eapply run_ok_same.
  - apply bind_Some in H as (_ & _ & [= <-]). by eapply run_ok_same.
Qed.

Lemma run_run_ok s0 ls s : threads s0 = [] → run_net ls s0 = Some s → run_ok s0 ls s.
Proof.
  intros H0. revert s. induction ls as [|l ls IH] using rev_ind; intros s Hrun.
  - injection Hrun as <-. split; [done|intros t th; by rewrite H0|].
    intros t _. apply not_elem_of_nil.
  - apply run_net_snoc in Hrun as (s1 & Hrun & Hl). eapply run_ok_step; [by apply IH|done].
Qed.

(** C22: What a call that returns true means.  However the requests interleave
    with each other and with the reconfiguration of the network: if a request
    is answered with [ok], its handler ran exactly once, the reply is what the
    handler returned, and after that there was a moment at which the caller's
    end was enabled and the server that ran it was still the registered one (so
    a handler that finishes after [DeleteServer] is never acknowledged). *)
Theorem rpc_reply_sound s0 ls s t th r :
  threads s0 = [] → run_net ls s0 = Some s → threads s !! t = Some th → th_pc th = Replied r →
  rp_ok r = true →
  ∃ ls1 ls2 ls3 r1 r2 r3 r4 s1 s2 sn sv rs rs' w,
    ls = (ls1 ++ LHandle t :: ls2) ++ LFinish t r1 r2 r3 r4 :: ls3 ∧
    LHandle t ∉ ls1 ∧ LHandle t ∉ ls2 ∧ LHandle t ∉ ls3 ∧
    run_net ls1 s0 = Some s1 ∧ heap s1 !! sv = Some rs ∧
    Server_dispatch (th_req th) rs (world s1) = Ret (rs', w, r) ∧
    run_net (ls1 ++ LHandle t :: ls2) s0 = Some s2 ∧
    isEnabled (endname (th_req th)) (net s2) = true ∧ serverOf sn (net s2) = Some sv.
Proof.
  intros H0 Hrun Ht Hpc Hr. pose proof (run_run_ok _ _ _ H0 Hrun) as Hok.
  destruct (ro_threads _ _ _ Hok _ _ Ht) as [_ Hp]. unfold pc_ok in Hp. rewrite Hpc in Hp.
  destruct (Hp Hr) as [_ (ls' & r1 & r2 & r3 & r4 & ls3 & s2 & sn & sv & -> & Hh & Hn & H2 & He & Hs)].
  destruct Hh as (ls1 & ls2 & s1 & rs & rs' & w & -> & ? & ? & ? & ? & ?).
  exists ls1, ls2, ls3, r1, r2, r3, r4, s1, s2, sn, sv, rs, rs', w. split_and!; done.
Qed.

(** At most once.  No request is handled twice, whatever its reply. *)
Theorem rpc_at_most_once s0 ls s ls1 ls2 ls3 t :
  threads s0 = [] → run_net ls s0 = Some s → ls ≠ ls1 ++ LHandle t :: ls2 ++ LHandle t :: ls3.
Proof.
  intros H0 Hrun ->.
  assert (∃ s1, run_net ((ls1 ++ LHandle t :: ls2) ++ [LHandle t]) s0 = Some s1) as [s1 H1].
  { revert Hrun. clear H0. replace (ls1 ++ LHandle t :: ls2 ++ LHandle t :: ls3)
      with (((ls1 ++ LHandle t :: ls2) ++ [LHandle t]) ++ ls3) by (by rewrite <-!app_assoc).
    generalize ((ls1 ++ LHandle t :: ls2) ++ [LHandle t]). intros l. revert s0.
    induction l as [|x l IH]; intros s0; cbn; [eauto|].
    intros (s1 & -> & H)%bind_Some. cbn. by apply IH. }
  apply run_net_snoc in H1 as (s2 & H2 & H1).
  destruct (run_run_ok _ _ _ H0 H2) as [_ Hth _]. rewrite (step_running _ _ _ H1) in Hth.
  apply bind_Some in H1 as (_ & _ & H1). apply bind_Some in H1 as (th & Ht & H1).
  destruct (Hth _ _ Ht) as [He _]. unfold exec_ok in He.
  destruct (th_exec th); try done. apply (He eq_refl). apply elem_of_app. right. left.
Qed.

(** ** A call returns *)

Lemma step_act l s : exited s = None → net_step l s = act l s.
Proof. intros Hx. unfold net_step. by rewrite Hx. Qed.

(** The steps of [processReq] for request [t], with random numbers [rnd]. *)
Definition own (rnd : Z) t : list (@Label W) :=
  [LBegin t rnd; LLaunch t rnd; LHandle t; LReceive t; LFinish t rnd rnd rnd rnd; LFire t].

(** Request [t] is answered by at most [k] steps of its own. *)
Definition returns_in (k : nat) (rnd : Z) s t : Prop :=
  ∃ ls s' th r, (length ls ≤ k)%nat ∧ ls ⊆ own rnd t ∧ run_net ls s = Some s' ∧
    threads s' !! t = Some th ∧ th_pc th = Replied r.

Lemma returns_in_step k rnd l s s1 t :
  exited s = None → l ∈ own rnd t → act l s = Some s1 →
  returns_in k rnd s1 t → returns_in (S k) rnd s t.
Proof.
  intros Hx Hl Ha (ls & s' & th & r & Hk & Hown & H & ?). exists (l :: ls), s', th, r.
  split_and!; [cbn; lia| |cbn; rewrite step_act by done; by rewrite Ha|tauto..].
  intros x [->|?]%elem_of_cons; [done|by apply Hown].
Qed.

Lemma returns_in_now k rnd s t th r :
  threads s !! t = Some th → th_pc th = Replied r → returns_in k rnd s t.
Proof.
  intros. exists [], s, th, r. split_and!; try done; [cbn; lia|by intros x ?%elem_of_nil].
Qed.

Lemma lookup_moved t th s s' :
  (t < length (threads s))%nat → threads s' = <[t := th]> (threads s) → threads s' !! t = Some th.
Proof. intros Ht ->. by apply list_lookup_insert_eq. Qed.

Ltac own_label := unfold own; repeat (apply elem_of_cons; first [by left|right]).

Lemma returns_fire k rnd s t th :
  exited s = None → threads s !! t = Some th →
  match th_pc th with Reordered _ _ | TimingOut _ => True | _ => False end →
  returns_in (S k) rnd s t.
Proof.
  intros Hx Ht Hpc. pose proof (lookup_lt_Some _ _ _ Ht).
  destruct (th_pc th) eqn:E; try done;
    (eapply (returns_in_step _ _ (LFire t)); [done|own_label
      |cbn; unfold fire; rewrite Ht; cbn; rewrite E; reflexivity
      |eapply returns_in_now; [by eapply lookup_moved|done]]).
Qed.

Lemma returns_finish k rnd s t th :
  exited s = None → threads s !! t = Some th →
  match th_pc th with Waited _ _ _ _ _ _ => True | _ => False end → returns_in (S (S k)) rnd s t.
Proof.
  intros Hx Ht Hpc. pose proof (lookup_lt_Some _ _ _ Ht).
  destruct (th_pc th) as [| | |sn sv rel reord drop reply| | |] eqn:E; try done.
  eapply (returns_in_step _ _ (LFinish t rnd rnd rnd rnd)); [done|own_label| |].
  { cbn. unfold finish. rewrite Ht. cbn. by rewrite E. }
  destruct reply as [r|]; [|by eapply returns_in_now; [by eapply lookup_moved|]].
  destruct (isServerDead _ _ _ _); [by eapply returns_in_now; [by eapply lookup_moved|]|].
  case_decide; [by eapply returns_in_now; [by eapply lookup_moved|]|].
  case_decide; [|by eapply returns_in_now; [by eapply lookup_moved|]].
  eapply returns_fire; [done|by eapply lookup_moved|done].
Qed.

Lemma returns_receive k rnd s t th :
  exited s = None → threads s !! t = Some th →
  match th_pc th, th_exec th with Waiting _ _ _ _ _, Offering _ _ => True | _, _ => False end →
  returns_in (S (S (S k))) rnd s t.
Proof.
  intros Hx Ht Hpc. pose proof (lookup_lt_Some _ _ _ Ht).
  destruct (th_pc th) eqn:E, (th_exec th) eqn:E'; try done.
  eapply (returns_in_step _ _ (LReceive t)); [done|own_label| |].
  { cbn. unfold receive. rewrite Ht. cbn. by rewrite E, E'. }
  eapply returns_finish; [done|by eapply lookup_moved|done].
Qed.

(** The server a request goes to exists, and its handler returns. *)
Definition handler_returns s (req : reqMsg) sv : Prop :=
  ∃ rs, heap s !! sv = Some rs ∧ returns (Server_dispatch req rs (world s)).

Lemma returns_handle k rnd s t th sv :
  exited s = None → threads s !! t = Some th →
  match th_pc th with Waiting _ _ _ _ _ => True | _ => False end → th_exec th = Running sv →
  handler_returns s (th_req th) sv → returns_in (S (S (S (S k)))) rnd s t.
Proof.
  intros Hx Ht Hpc He (rs & Hrs & [[[rs' w] r] Hd]). pose proof (lookup_lt_Some _ _ _ Ht).
  eapply (returns_in_step _ _ (LHandle t)); [done|own_label| |].
  { cbn. unfold handle. rewrite Ht. cbn. rewrite He, Hrs. cbn. by rewrite Hd. }
  eapply returns_receive; [done|by eapply lookup_moved|]. cbn. by destruct (th_pc th).
Qed.

Lemma returns_launch k rnd s t th sn sv rel reord ms :
  exited s = None → threads s !! t = Some th → th_pc th = Slowed sn sv rel reord ms →
  handler_returns s (th_req th) sv → returns_in (S (S (S (S (S k))))) rnd s t.
Proof.
  intros Hx Ht Hpc Hh. pose proof (lookup_lt_Some _ _ _ Ht).
  destruct (decide (rel = false ∧ rnd mod 1000 < GetDropRate (net s))) as [Hd|Hd];
    (eapply (returns_in_step _ _ (LLaunch t rnd)); [done|own_label| |]).
  - cbn. unfold launch. rewrite Ht. cbn. rewrite Hpc, decide_True by done. reflexivity.
  - eapply returns_in_now; [by eapply lookup_moved|done].
  - cbn. unfold launch. rewrite Ht. cbn. rewrite Hpc, decide_False by done. reflexivity.
  - eapply returns_handle; [done|by eapply lookup_moved|done|reflexivity|exact Hh].
Qed.

Lemma returns_begin rnd s t th :
  exited s = None → threads s !! t = Some th → th_pc th = Arrived →
  (∀ sn sv, serverOf sn (net s) = Some sv → handler_returns s (th_req th) sv) →
  returns_in 6 rnd s t.
Proof.
  intros Hx Ht Hpc Hh. pose proof (lookup_lt_Some _ _ _ Ht).
  destruct (begin t rnd s) as [s1|] eqn:Hb; pose proof Hb as Hb'; unfold begin in Hb';
    rewrite Ht in Hb'; cbn -[readEndnameInfo] in Hb'; rewrite Hpc in Hb'; [|by repeat case_match].
  eapply (returns_in_step _ _ (LBegin t rnd)); [done|own_label|exact Hb|].
  set (info := readEndnameInfo (endname (th_req th)) (net s)) in *.
  destruct (ei_enabled info), (ei_servername info) as [sn|] eqn:Hsn, (ei_server info) as [sv|] eqn:Hse;
    injection Hb' as <-; try (by eapply returns_fire; [done|by eapply lookup_moved|]).
  eapply returns_launch; [done|by eapply lookup_moved|done|]. cbn in Hse, Hsn.
  rewrite Hsn in Hse. by apply (Hh sn).
Qed.

(** C30: Call always returns, unless the handler does not.  In every reachable
    state and whatever the random numbers are, at most six steps of its own
    answer a request whose handler returns; and a request whose server was
    deleted or whose end was disabled while it was waiting is answered, with a
    failure, even if its handler never returns. *)
Theorem rpc_call_returns s0 ls s t th (rnd : Z) :
  threads s0 = [] → run_net ls s0 = Some s → exited s = None → threads s !! t = Some th →
  ((∀ sv, match th_pc th, th_exec th with
          | Arrived, _ => ∃ sn, serverOf sn (net s) = Some sv
          | Slowed _ sv' _ _ _, _ => sv = sv'
          | _, Running sv' => sv = sv'
          | _, _ => False
          end → handler_returns s (th_req th) sv) →
   returns_in 6 rnd s t) ∧
  (∀ sn sv rel reord drop, th_pc th = Waiting sn sv rel reord drop →
     isServerDead (endname (th_req th)) sn sv (net s) = true →
     ∃ s' th', run_net [LPoll t; LFinish t rnd rnd rnd rnd] s = Some s' ∧
       threads s' !! t = Some th' ∧ th_pc th' = Replied failed).
Proof.
  intros H0 Hrun Hx Ht. destruct (run_run_ok _ _ _ H0 Hrun) as [_ Hth _].
  destruct (Hth _ _ Ht) as [_ Hp]. pose proof (lookup_lt_Some _ _ _ Ht) as Hlt. split.
  - intros Hret. unfold pc_ok in Hp.
    destruct (th_pc th) as [|sn sv rel reord ms|sn sv rel reord drop|? ? ? ? ? reply| | |r] eqn:Hpc.
    + eapply returns_begin; try done. intros sn sv Hsv. apply Hret. by exists sn.
    + eapply returns_launch; try done. by apply Hret.
    + destruct Hp as [He|[r He]].
      * eapply returns_handle; [done..|by rewrite Hpc|done|]. apply Hret. by rewrite He.
      * eapply returns_receive; [done..|]. by rewrite Hpc, He.
    + eapply returns_finish; [done..|]. by rewrite Hpc.
    + eapply returns_fire; [done..|]. by rewrite Hpc.
    + eapply returns_fire; [done..|]. by rewrite Hpc.
    + by eapply returns_in_now.
  - intros sn sv rel reord drop Hpc Hd. eexists _, _. split; [|split].
    + cbn [run_net]. rewrite step_act by done. cbn. unfold poll. rewrite Ht. cbn. rewrite Hpc, Hd.
      cbn. rewrite step_act by done. cbn. unfold finish. cbn.
      rewrite list_lookup_insert_eq by done. cbn. reflexivity.
    + cbn. rewrite list_lookup_insert_eq by (by rewrite length_insert). reflexivity.
    + done.
Qed.

(** ** The reliable network *)

(** The dispatch of a request to the method it names. *)
Lemma Server_dispatch_method (e : ClientEnd) svc meth (S : @Service W) m rs w (a : hd_arg (m_Func m)) :
  dot ∉ String.list_ascii_of_string meth → dispatchf rs = None →
  services rs !! svc = Some S → methods S !! meth = Some m →
  Server_dispatch (@callRequest _ (hd_argCodec (m_Func m)) e (svc ++ "." ++ meth) a) rs w =
  Ret (mkServer (services rs) (srv_count rs + 1) None, (hd_run (m_Func m) a w).1,
       mkReplyMsg true (@enc _ (hd_replyCodec (m_Func m)) (hd_run (m_Func m) a w).2)).
Proof.
  intros Hd Hf HS Hm. unfold Server_dispatch. cbn [svcMeth callRequest].
  rewrite splitMethod_spec by done. cbn. rewrite Hf, HS. unfold Service_dispatch. rewrite Hm.
  cbn. unfold Marshall. rewrite dec_enc. by destruct (hd_run (m_Func m) a w).
Qed.

(** A call on a reliable network is a procedure call.  When the network is
    reliable and does not reorder, and the end is enabled and connected to a
    registered server that has the method, the steps of the request run the
    method once on the decoded argument and [Call] returns true with exactly
    the method's reply, whatever the random numbers; the call and the bytes of
    both messages are counted. *)
Theorem rpc_round_trip s (e : ClientEnd) sn sv rs svc meth (S : @Service W) m
    (a : hd_arg (m_Func m)) r0 r1 r2 r3 r4 r5 :
  let t := length (threads s) in
  let req := @callRequest _ (hd_argCodec (m_Func m)) e (svc ++ "." ++ meth) a in
  let h := m_Func m in
  exited s = None → loop (net s) = true → reliable (net s) = true → longReordering (net s) = false →
  isEnabled (ce_endname e) (net s) = true → connections (net s) !! ce_endname e = Some (Some sn) →
  serverOf sn (net s) = Some sv → heap s !! sv = Some rs → dispatchf rs = None →
  services rs !! svc = Some S → methods S !! meth = Some m →
  dot ∉ String.list_ascii_of_string meth →
  ∃ s' th rep,
    run_net [LAccept req; LBegin t r0; LLaunch t r1; LHandle t; LReceive t; LFinish t r2 r3 r4 r5] s
      = Some s' ∧
    threads s' !! t = Some th ∧ th_pc th = Replied rep ∧
    @callResult _ (hd_replyCodec h) rep = Ret (Some (hd_run h a (world s)).2) ∧
    world s' = (hd_run h a (world s)).1 ∧
    GetTotalCount (net s') = i32 (GetTotalCount (net s) + 1) ∧
    GetTotalBytes (net s') = GetTotalBytes (net s) + zlen (args req) + zlen (rp_reply rep).
Proof.
  cbn zeta. intros Hx Hloop Hrel Hre Hen Hcn Hsv Hrs Hf HS Hm Hd.
  set (t := length (threads s)). set (req := callRequest _ _ _).
  pose proof (Server_dispatch_method e svc meth S m rs (world s) a Hd Hf HS Hm) as Hdisp. fold req in Hdisp.
  set (s1 := mkSystem (set_totals (i32 (count (net s) + 1)) (nbytes (net s) + zlen (args req)) (net s))
    (heap s) (world s) (threads s ++ [mkThread req Arrived NotStarted]) (exited s)).
  assert (net_step (LAccept req) s = Some s1) as H1.
  { rewrite step_act by done. cbn. unfold accept. by rewrite Hloop. }
  assert (∀ th, (threads s ++ [th]) !! t = Some th) as Hlk.
  { intros th. rewrite lookup_app_r by done. unfold t. by rewrite Nat.sub_diag. }
  assert (∀ th th', <[t := th']> (threads s ++ [th]) = threads s ++ [th']) as Hins.
  { intros th th'. rewrite insert_app_r_alt by done. unfold t. by rewrite Nat.sub_diag. }
  assert (net_step (LBegin t r0) s1 = Some (mkSystem (net s1) (heap s) (world s)
    (threads s ++ [mkThread req (Slowed sn sv true false 0) NotStarted]) (exited s))) as H2.
  { rewrite step_act by done. cbn. unfold begin. cbn. rewrite Hlk. cbn.
    unfold set_pc, set_thread. cbn. rewrite Hins. unfold isEnabled, serverOf, shortDelay in *. cbn.
    rewrite Hen, Hcn. cbn. rewrite Hsv, Hrel, Hre.
    rewrite decide_False by (by intros [? ?]). by rewrite Hins. }
  set (s2 := mkSystem _ _ _ _ _) in H2.
  assert (net_step (LLaunch t r1) s2 = Some (mkSystem (net s1) (heap s) (world s)
    (threads s ++ [mkThread req (Waiting sn sv true false (dropRate (net s))) (Running sv)])
    (exited s))) as H3.
  { rewrite step_act by done. cbn. unfold launch. cbn. rewrite Hlk. cbn.
    unfold set_pc, set_thread. cbn. by rewrite !Hins. }
  set (s3 := mkSystem _ _ _ _ _) in H3. set (rep := mkReplyMsg _ _) in Hdisp.
  set (rs' := mkServer _ _ _) in Hdisp. set (w' := (hd_run (m_Func m) a (world s)).1) in *.
  assert (net_step (LHandle t) s3 = Some (mkSystem (net s1) (<[sv := rs']> (heap s)) w'
    (threads s ++ [mkThread req (Waiting sn sv true false (dropRate (net s))) (Offering sv rep)])
    (exited s))) as H4.
  { rewrite step_act by done. cbn. unfold handle. cbn. rewrite Hlk. cbn. rewrite Hrs. cbn.
    by rewrite Hdisp, Hins. }
  set (s4 := mkSystem _ _ _ _ _) in H4.
  assert (net_step (LReceive t) s4 = Some (mkSystem (net s1) (<[sv := rs']> (heap s)) w'
    (threads s ++ [mkThread req (Waited sn sv true false (dropRate (net s)) (Some rep)) (Over sv rep)])
    (exited s))) as H5.
  { rewrite step_act by done. cbn. unfold receive. cbn. rewrite Hlk. cbn.
    unfold set_thread. cbn. by rewrite Hins. }
  set (s5 := mkSystem _ _ _ _ _) in H5.
  assert (isServerDead (endname req) sn sv (net s5) = false) as Hdead.
  { apply bool_decide_eq_false. unfold isEnabled, serverOf in *. cbn. rewrite Hen, Hsv.
    by intros [?|?]. }
  assert (net_step (LFinish t r2 r3 r4 r5) s5 = Some (mkSystem (addBytes (zlen (rp_reply rep)) (net s1))
    (<[sv := rs']> (heap s)) w' (threads s ++ [mkThread req (Replied rep) (Over sv rep)])
    (exited s))) as H6.
  { rewrite step_act by done. cbn. unfold finish. cbn. rewrite Hlk. cbn. fold rep.
    cbn in Hdead. rewrite Hdead. unfold set_pc, set_thread. cbn. by rewrite !Hins. }
  set (s6 := mkSystem _ _ _ _ _) in H6.
  exists s6, (mkThread req (Replied rep) (Over sv rep)), rep.
  split_and!; try done.
  - cbn [run_net]. rewrite H1. cbn. rewrite H2. cbn. rewrite H3. cbn. rewrite H4. cbn. rewrite H5. cbn.
    by rewrite H6.
  - unfold s6. cbn. apply Hlk.
  - unfold callResult, rep. cbn. unfold Unmarshall. by rewrite dec_enc.
Qed.

(** ** Parameters *)

(** The drop rate is always between 0 and 1000 per mille, whatever it is
    set to; a delay below 2^31 is kept as it was set, negative ones are zero;
    and the delays a request waits are never negative and below the configured
    one. *)
Theorem network_params_clamped rn (x : Z) info rnd :
  0 ≤ GetDropRate (SetDropRate x rn) ≤ 1000 ∧
  (0 ≤ x ≤ 1000 → GetDropRate (SetDropRate x rn) = x) ∧
  (x < 2 ^ 31 → GetShortDelayMs (SetShortDelayMs x rn) = Z.max 0 x ∧
                GetLongDelayMs (SetLongDelayMs x rn) = Z.max 0 x) ∧
  0 ≤ shortDelay info rnd rn ≤ Z.max 0 (GetShortDelayMs rn) ∧
  0 ≤ timeoutDelay rnd rn ≤ Z.max 100 (GetLongDelayMs rn) ∧
  200 ≤ reorderDelay rnd x < 2200.
Proof.
  unfold SetDropRate, SetShortDelayMs, SetLongDelayMs, GetDropRate, GetShortDelayMs, GetLongDelayMs.
  cbn. split_and!.
  1-3: repeat case_decide; rewrite ?i32_small; lia.
  - intros Hx. case_decide; rewrite i32_small; lia.
  - unfold shortDelay. case_decide as H; [apply Z.mod_pos_bound; lia|lia].
  - unfold shortDelay. case_decide as H; [pose proof (Z.mod_pos_bound rnd (shortDelayMs rn)); lia|lia].
  - unfold timeoutDelay. destruct (longDelays rn); [case_decide|]; [|lia|];
      apply Z.mod_pos_bound; lia.
  - unfold timeoutDelay. destruct (longDelays rn); [case_decide|]; [|lia|].
    + pose proof (Z.mod_pos_bound rnd (longDelayMs rn)). lia.
    + pose proof (Z.mod_pos_bound rnd 100). lia.
  - unfold reorderDelay. pose proof (Z.mod_pos_bound rnd 2000).
    pose proof (Z.mod_pos_bound x (1 + rnd mod 2000)). lia.
  - unfold reorderDelay. pose proof (Z.mod_pos_bound rnd 2000).
    pose proof (Z.mod_pos_bound x (1 + rnd mod 2000)). lia.
Qed.

(** ** Which methods are handlers *)

(** The signature of a handler: exported, a receiver and two parameters of
    which the second is a pointer, no results. *)
Definition handler_type (m : @Method W) : Prop :=
  m_PkgPath m = "" ∧ length (m_In m) = 3%nat ∧ m_In m !! 2%nat = Some KPtr ∧ m_NumOut m = 0.

Lemma unsuitable_spec (m : @Method W) :
  ∃ b, unsuitable m = Ret b ∧ (b = false ↔ handler_type m).
Proof.
  unfold unsuitable, handler_type, zlen. case_decide as Hd.
  - exists true. split; [done|]. split; [done|]. intros (? & ? & _). destruct Hd; [done|lia].
  - assert (m_PkgPath m = "") by (destruct (decide (m_PkgPath m = "")); tauto).
    assert (length (m_In m) = 3%nat) by lia.
    destruct (lookup_lt_is_Some_2 (m_In m) 2) as [k Hk]; [lia|].
    assert (index (m_In m) 2 = Ret k) as -> by (by apply index_Ret).
    eexists. split; [done|]. rewrite bool_decide_eq_false. rewrite Hk. split.
    + intros Hn. split_and!; try done.
      * destruct (decide (k = KPtr)) as [->|]; [done|tauto].
      * destruct (decide (m_NumOut m = 0)); [done|tauto].
    + intros (_ & _ & [= ->] & ->) [?|?]; done.
Qed.

Lemma collectMethods_spec (ms : list (@Method W)) acc :
  NoDup (m_Name <$> ms) → (∀ m, m ∈ ms → acc !! m_Name m = None) →
  ∃ res, collectMethods ms acc = Ret res ∧
    ∀ n m, res !! n = Some m ↔ acc !! n = Some m ∨ (m ∈ ms ∧ m_Name m = n ∧ handler_type m).
Proof.
  revert acc. induction ms as [|x ms IH]; intros acc Hnd Hacc; cbn.
  { exists acc. split; [done|]. intros n m. split; [by left|].
    by intros [?|(?%elem_of_nil & _)]. }
  apply NoDup_cons in Hnd as [Hx Hnd]. destruct (unsuitable_spec x) as (b & -> & Hb). cbn.
  assert (∀ m, m ∈ ms → m_Name m ≠ m_Name x) as Hne.
  { intros m Hm Heq. apply Hx. rewrite <-Heq. by apply list_elem_of_fmap_2. }
  destruct (IH (if b then acc else <[m_Name x := x]> acc) Hnd) as (res & Hres & Hspec).
  { intros m Hm. destruct b; [|rewrite lookup_insert_ne by (by apply not_eq_sym, Hne)];
      apply Hacc; by right. }
  exists res. split; [done|]. intros n m. rewrite Hspec. destruct b.
  - split; [intros [?|(? & ? & ?)]; [by left|right; split_and!; [by right|done..]]|].
    intros [?|([->|?]%elem_of_cons & ? & ?)]; [by left| |by right; split_and!].
    exfalso. destruct Hb as [_ Hb]. by apply Hb in H0.
  - rewrite lookup_insert_Some. split.
    + intros [[[<- <-]|[_ ?]]|(? & ? & ?)]; [|by left|by right; split_and!; [right|..]].
      right. split_and!; [by left|done|by apply Hb].
    + intros [Hn|([->|Hm]%elem_of_cons & <- & Ht)].
      * left. right. split; [|done]. intros <-. rewrite Hacc in Hn by left. done.
      * left. by left.
      * right. by split_and!.
Qed.

(** MakeService looks at no parameter that a method lacks, and registers the
    methods with the signature of a handler under their names. *)
Lemma MakeService_methods (name : string) (ms : list (@Method W)) :
  NoDup (m_Name <$> ms) →
  ∃ svc, MakeService name ms = Ret svc ∧ svc_name svc = name ∧
    ∀ n m, methods svc !! n = Some m ↔ m ∈ ms ∧ m_Name m = n ∧ handler_type m.
Proof.
  intros Hnd. destruct (collectMethods_spec ms ∅ Hnd) as (res & Hres & Hspec); [done|].
  unfold MakeService. rewrite Hres. cbn. eexists. split_and!; try done. cbn. intros n m.
  rewrite Hspec, lookup_empty. naive_solver.
Qed.
End facts.

(** ** A counter behind the network *)

#[local] Instance nat_codec : Codec nat := countable_codec.

(** [Counter.Add(n)] adds to the counter and replies with its new value. *)
Definition addHandler : @Handler nat :=
  mkHandler nat nat nat_codec nat_codec (λ a w, ((w + a)%nat, (w + a)%nat)).
Definition addMethod : @Method nat := mkMethod "Add" "" [KPtr; KOther; KPtr] 0 addHandler.
Definition helperMethod : @Method nat := mkMethod "Value" "" [KPtr] 1 addHandler.
Definition counterService : Service := mkService "Counter" {[ "Add" := addMethod ]}.

(** One server named [s0], one enabled end connected to it. *)
Definition counterEnd : ClientEnd := mkClientEnd "e0" None.
Definition counterNet : Network :=
  Enable "e0" true (Connect "e0" "s0" (AddServer "s0" 0 (default MakeNetwork
    match MakeEnd "e0" MakeNetwork with Ret rn => Some rn | Panic _ => None end))).
Definition counterSys : @System nat :=
  mkSystem counterNet [AddService counterService MakeServer] 5%nat [] None.

Definition counterCall : list (@Label nat) :=
  [LAccept (callRequest counterEnd "Counter.Add" 2%nat); LBegin 0 0; LLaunch 0 0; LHandle 0; LReceive 0;
   LFinish 0 0 0 0 0].

Lemma counterCall_run :
  (s ← run_net counterCall counterSys; th ← threads s !! 0%nat;
   Some (th_pc th, world s)) = Some (Replied (mkReplyMsg true (enc 7%nat)), 7%nat).
Proof. vm_compute. reflexivity. Qed.

Lemma rpc_reply_sound_witness : ∃ s th,
  run_net counterCall counterSys = Some s ∧ threads s !! 0%nat = Some th ∧
  th_pc th = Replied (mkReplyMsg true (enc 7%nat)) ∧
  ∃ ls1 ls2 ls3 r1 r2 r3 r4, counterCall = (ls1 ++ LHandle 0 :: ls2) ++ LFinish 0 r1 r2 r3 r4 :: ls3.
Proof.
  pose proof counterCall_run as H. apply bind_Some in H as (s & Hs & H).
  apply bind_Some in H as (th & Ht & [= Hpc _]). exists s, th. do 3 (split; [assumption|]).
  destruct (rpc_reply_sound counterSys counterCall s 0 th _ eq_refl Hs Ht Hpc eq_refl)
    as (ls1 & ls2 & ls3 & r1 & r2 & r3 & r4 & _ & _ & _ & _ & _ & _ & _ & H & _).
  exists ls1, ls2, ls3, r1, r2, r3, r4. exact H.
Defined.

Lemma rpc_at_most_once_witness :
  counterCall ≠ [] ++ LHandle 0 :: [] ++ LHandle 0 :: [].
Proof.
  destruct (run_net counterCall counterSys) as [s|] eqn:Hs; [|discriminate Hs].
  exact (rpc_at_most_once counterSys counterCall s [] [] [] 0 eq_refl Hs).
Defined.

Lemma counter_waiting_run :
  (s ← run_net (take 3 counterCall ++ [LAdmin (OpDeleteServer "s0")]) counterSys;
   th ← threads s !! 0%nat; Some (exited s, th_pc th, isServerDead (endname (th_req th)) "s0" 0 (net s)))
  = Some (None, Waiting "s0" 0 true false 100, true).
Proof. vm_compute. reflexivity. Qed.

(** The server is deleted while its handler runs: the call fails. *)
Lemma rpc_call_returns_witness : ∃ s s' th,
  run_net (take 3 counterCall ++ [LAdmin (OpDeleteServer "s0")]) counterSys = Some s ∧
  run_net [LPoll 0; LFinish 0 0 0 0 0] s = Some s' ∧ threads s' !! 0%nat = Some th ∧
  th_pc th = Replied failed.
Proof.
  pose proof counter_waiting_run as H. apply bind_Some in H as (s & Hs & H).
  apply bind_Some in H as (th & Ht & [= Hx Hpc Hd]).
  destruct (rpc_call_returns counterSys _ s 0 th 0 eq_refl Hs Hx Ht) as [_ H].
  destruct (H _ _ _ _ _ Hpc Hd) as (s' & th' & Hr & Ht' & Hp).
  exists s, s', th'. exact (conj Hs (conj Hr (conj Ht' Hp))).
Defined.

Lemma rpc_round_trip_witness : ∃ s' th rep,
  run_net counterCall counterSys = Some s' ∧ threads s' !! 0%nat = Some th ∧
  th_pc th = Replied rep ∧ callResult rep = Ret (Some 7%nat) ∧ world s' = 7%nat.
Proof.
  destruct (rpc_round_trip counterSys counterEnd "s0" 0 (AddService counterService MakeServer)
    "Counter" "Add" counterService addMethod 2%nat 0 0 0 0 0 0) as (s' & th & rep & H1 & H2 & H3 & H4 & H5 & _);
    try (vm_compute; reflexivity).
  { apply (bool_decide_unpack (dot ∉ _)). vm_compute. exact I. }
  exists s', th, rep. exact (conj H1 (conj H2 (conj H3 (conj H4 H5)))).
Defined.
