(* ===== verification/KvModel.v ===== *)
(** * KvModel: the sequential specification used by the linearizability checker

    Models [src/src/models/kv.go]: the [Partition], [Init] and [Step] functions
    of [KvModel].  The histories handed to Porcupine are lists of operations,
    each with the times at which it was called and returned. *)

From stdpp Require Import sorting.
From S2P Require Import Prelude RpcApi.

Record KvInput := mkKvInput {
  in_Op : Z; in_Key : string; in_Value : string; in_Version : Z }.
Record KvOutput := mkKvOutput {
  out_Value : string; out_Version : Z; out_Err : string }.
Record KvState := mkKvState { st_Value : string; st_Version : Z }.

#[global] Instance KvState_eq_dec : EqDecision KvState.
Proof. solve_decision. Defined.

(** Porcupine's [Operation], as [kvtest] fills it in. *)
Record Operation := mkOperation {
  op_ClientId : Z; op_Input : KvInput; op_Call : Z; op_Output : KvOutput; op_Return : Z }.

Definition Init : KvState := mkKvState "" 0.

(** [Step]: whether the output is legal in the state, and the next state.  The
    default branch returns the string "<invalid>" as the state with [false];
    the state of a rejected step is never used, so it is left unchanged. *)
Definition Step (st : KvState) (inp : KvInput) (out : KvOutput) : bool * KvState :=
  match in_Op inp with
  | 0 => (bool_decide (out_Value out = st_Value st), st)
  | 1 =>
      if decide (st_Version st = in_Version inp) then
        (bool_decide (out_Err out = "OK"%string) || bool_decide (out_Err out = "ErrMaybe"%string),
         mkKvState (in_Value inp) (u64_add (st_Version st) 1))
      else
        (bool_decide (out_Err out = "ErrVersion"%string) || bool_decide (out_Err out = "ErrMaybe"%string),
         st)
  | _ => (false, st)
  end.

(** Running the checker over a sequence of operations on one key. *)
Fixpoint accepts (st : KvState) (ops : list Operation) : bool :=
  match ops with
  | [] => true
  | op :: ops =>
      let '(ok, st') := Step st (op_Input op) (op_Output op) in ok && accepts st' ops
  end.

(** [Partition]: the map [m] from keys to their operations, then the keys
    sorted, then one list per key. *)
Definition op_key (op : Operation) : string := in_Key (op_Input op).

Definition partition_map (history : list Operation) : gmap string (list Operation) :=
  foldl (λ m v, <[op_key v := default [] (m !! op_key v) ++ [v]]> m) ∅ history.

Definition Partition (history : list Operation) : list (list Operation) :=
  let m := partition_map history in
  let keys := merge_sort String.le (elements (dom m)) in
  (λ k, default [] (m !! k)) <$> keys.

(** What the map holds for a key: the operations on it, in history order. *)
Lemma partition_map_lookup history k :
  default [] (partition_map history !! k) = filter (λ op, op_key op = k) history.
Proof.
  unfold partition_map.
  induction history as [|v history IH] using rev_ind; [done|].
  rewrite foldl_app, filter_app, filter_cons, filter_nil. cbn.
  destruct (decide (op_key v = k)) as [<-|Hne].
  - by rewrite lookup_insert_eq, IH.
  - by rewrite lookup_insert_ne, IH, app_nil_r by done.
Qed.

Lemma partition_map_dom history k :
  k ∈ dom (partition_map history) ↔ ∃ op, op ∈ history ∧ op_key op = k.
Proof.
  unfold partition_map.
  induction history as [|v history IH] using rev_ind; [cbn; set_solver|].
  rewrite foldl_app. cbn. rewrite dom_insert_L, elem_of_union, IH. set_solver.
Qed.

(** Grouping a list by the value of a function, over a duplicate-free list of
    keys that covers it, only reorders it. *)
Lemma group_by_Permutation (keys : list string) (history : list Operation) :
  NoDup keys → (∀ op, op ∈ history → op_key op ∈ keys) →
  concat ((λ k, filter (λ op, op_key op = k) history) <$> keys) ≡ₚ history.
Proof.
  revert history. induction keys as [|k keys IH]; intros history Hnd Hcov.
  - destruct history as [|op ?]; [done|].
    exfalso. specialize (Hcov op). set_solver.
  - apply NoDup_cons in Hnd as [Hk Hnd]. cbn.
    set (rest := filter (λ op, op_key op ≠ k) history).
    assert (concat ((λ k, filter (λ op, op_key op = k) history) <$> keys) ≡ₚ rest) as ->.
    { rewrite <-(IH rest Hnd).
      - apply Permutation_refl'. f_equal. apply list_fmap_ext. intros i k' Hi.
        apply list_elem_of_lookup_2 in Hi. unfold rest.
        rewrite list_filter_filter. apply list_filter_iff. intros op. set_solver.
      - intros op [Hne Hop]%list_elem_of_filter. specialize (Hcov op Hop). set_solver. }
    unfold rest. clear. induction history as [|op history IH]; [done|].
    rewrite !filter_cons. destruct (decide (op_key op = k)) as [E|E].
    + rewrite decide_False by auto. cbn. by rewrite IH.
    + rewrite decide_True by auto. by rewrite <-Permutation_middle, IH.
Qed.

Lemma Partition_unfold history :
  Partition history =
    (λ k, filter (λ op, op_key op = k) history) <$>
      merge_sort String.le (elements (dom (partition_map history))).
Proof.
  unfold Partition. apply list_fmap_ext. intros i k _. apply partition_map_lookup.
Qed.

Lemma Partition_part history part :
  part ∈ Partition history → ∃ k, part = filter (λ op, op_key op = k) history ∧ part ≠ [].
Proof.
  rewrite Partition_unfold. intros (k & -> & Hk)%list_elem_of_fmap. exists k. split; [done|].
  rewrite merge_sort_Permutation, elem_of_elements in Hk.
  apply partition_map_dom in Hk as (op & Hop & Hkey).
  intros Hnil. assert (op ∈ filter (λ op, op_key op = k) history) as Hin
    by (by apply list_elem_of_filter).
  rewrite Hnil in Hin. set_solver.
Qed.

(** splitting a history by key loses nothing. *)
Theorem Partition_spec history :
  concat (Partition history) ≡ₚ history ∧
  (∀ part, part ∈ Partition history →
     ∃ k, part = filter (λ op, op_key op = k) history ∧ part ≠ []).
Proof.
  split; [|apply Partition_part]. rewrite Partition_unfold. apply group_by_Permutation.
  - rewrite merge_sort_Permutation. apply NoDup_elements.
  - intros op Hop. rewrite merge_sort_Permutation, elem_of_elements.
    apply partition_map_dom. eauto.
Qed.
