(* ===== verification/KvSpec.v ===== *)
(** * KvSpec: the versioned key/value map the three services promise

    The reference definition of a conditional put and of a get on a finite
    map, against which [KvSrv], [KvRaft] and [ShardGrp] are proved, and the
    link between that reference and the checker's model of [KvModel]. *)

From S2P Require Import Prelude RpcApi KvModel.

Abbreviation kvmap := (gmap string VersionedValue).

Definition kv_get (m : kvmap) (k : string) : GetReply :=
  match m !! k with
  | None => mkGetReply "" 0 ErrNoKey
  | Some v => mkGetReply (Value v) (Version v) OK
  end.

(** The reply of a conditional put, and the map after it. *)
Definition kv_put_err (m : kvmap) (k : string) (ver : Tversion) : Err :=
  match m !! k with
  | Some v => if decide (Version v = ver) then OK else ErrVersion
  | None => if decide (ver = 0) then OK else ErrNoKey
  end.

Definition kv_put (m : kvmap) (k v : string) (ver : Tversion) : kvmap * Err :=
  let e := kv_put_err m k ver in
  (if decide (e = OK) then <[k := mkVV v (u64_add ver 1)]> m else m, e).

(** The version a key is at, 0 when it is absent. *)
Definition kv_version (m : kvmap) (k : string) : Tversion :=
  match m !! k with Some v => Version v | None => 0 end.

Definition kv_value (m : kvmap) (k : string) : string :=
  match m !! k with Some v => Value v | None => ""%string end.

Lemma kv_put_cases m k v ver :
  (kv_put m k v ver = (<[k := mkVV v (u64_add ver 1)]> m, OK) ∧ kv_version m k = ver) ∨
  (kv_put m k v ver = (m, ErrVersion) ∧ kv_version m k ≠ ver ∧ is_Some (m !! k)) ∨
  (kv_put m k v ver = (m, ErrNoKey) ∧ m !! k = None ∧ ver ≠ 0).
Proof.
  unfold kv_put, kv_put_err, kv_version. destruct (m !! k) as [w|]; repeat case_decide;
    try done; naive_solver.
Qed.

Lemma kv_put_OK m k v ver m' :
  kv_put m k v ver = (m', OK) →
  m' = <[k := mkVV v (u64_add ver 1)]> m ∧ kv_version m k = ver.
Proof. destruct (kv_put_cases m k v ver) as [[-> ?]|[[-> ?]|[-> ?]]]; naive_solver. Qed.

Lemma kv_put_fail m k v ver m' e :
  kv_put m k v ver = (m', e) → e ≠ OK → m' = m.
Proof. destruct (kv_put_cases m k v ver) as [[-> ?]|[[-> ?]|[-> ?]]]; naive_solver. Qed.

Lemma kv_put_other m k v ver k' :
  k ≠ k' → (kv_put m k v ver).1 !! k' = m !! k'.
Proof.
  intros Hne. destruct (kv_put_cases m k v ver) as [[-> ?]|[[-> ?]|[-> ?]]]; cbn; [|done..].
  by apply lookup_insert_ne.
Qed.

(** A put that succeeds leaves the key one version further. *)
Lemma kv_put_version m k v ver :
  kv_version (kv_put m k v ver).1 k =
    if decide ((kv_put m k v ver).2 = OK) then u64_add (kv_version m k) 1 else kv_version m k.
Proof.
  destruct (kv_put_cases m k v ver) as [[-> E]|[[-> ?]|[-> ?]]]; cbn; [|done..].
  rewrite E. unfold kv_version. by rewrite lookup_insert_eq.
Qed.

(** A repeated conditional put cannot succeed again: the first success moved
    the version away from the one both of them ask for. *)
Lemma kv_put_twice m k v ver :
  is_u64 ver →
  (kv_put m k v ver).2 = OK → (kv_put (kv_put m k v ver).1 k v ver).2 = ErrVersion.
Proof.
  intros Hu H. destruct (kv_put_cases m k v ver) as [[-> E]|[[E ?]|[E ?]]];
    [|by rewrite E in H..].
  cbn. unfold kv_put, kv_put_err. cbn. rewrite lookup_insert_eq. cbn.
  rewrite decide_False; [done|].
  unfold u64_add, is_u64, u64_mod in *. intros Heq.
  destruct (decide (ver + 1 = 2 ^ 64)) as [E1|E1].
  - rewrite E1, Z_mod_same_full in Heq. lia.
  - rewrite Z.mod_small in Heq; lia.
Qed.

(** ** The map seen by the checker *)

(** The state the checker's model gives to one key. *)
Definition proj (m : kvmap) (k : string) : KvState := mkKvState (kv_value m k) (kv_version m k).

Lemma proj_empty k : proj ∅ k = Init.
Proof. reflexivity. Qed.

Definition get_input (k : string) : KvInput := mkKvInput 0 k "" 0.
Definition put_input (k v : string) (ver : Tversion) : KvInput := mkKvInput 1 k v ver.

Definition get_output (r : GetReply) : KvOutput :=
  mkKvOutput (get_Value r) (get_Version r) (err_string (get_Err r)).
Definition put_output (e : Err) : KvOutput := mkKvOutput "" 0 (err_string e).

Lemma step_get m k :
  Step (proj m k) (get_input k) (get_output (kv_get m k)) = (true, proj m k).
Proof.
  unfold Step, kv_get, proj, kv_value, kv_version. cbn.
  destruct (m !! k); cbn; by rewrite bool_decide_eq_true_2.
Qed.

(** A put that the server answers with [OK] or [ErrVersion] is a step of the
    model; [ErrNoKey] is not (see [step_put_NoKey]). *)
Lemma step_put m k v ver :
  (kv_put m k v ver).2 ≠ ErrNoKey →
  Step (proj m k) (put_input k v ver) (put_output (kv_put m k v ver).2)
    = (true, proj (kv_put m k v ver).1 k).
Proof.
  intros Hn. unfold Step.
  destruct (kv_put_cases m k v ver) as [[-> E]|[[-> [Hv ?]]|[E ?]]];
    cbn -[kv_version kv_value].
  - rewrite decide_True by done. unfold proj, kv_value, kv_version at 2.
    rewrite lookup_insert_eq. cbn. by rewrite E.
  - by rewrite decide_False.
  - by rewrite E in Hn.
Qed.

Lemma step_put_NoKey m k v ver :
  (kv_put m k v ver).2 = ErrNoKey →
  Step (proj m k) (put_input k v ver) (put_output (kv_put m k v ver).2) = (false, proj m k).
Proof.
  intros Hn.
  destruct (kv_put_cases m k v ver) as [[E ?]|[[E ?]|[E [Hk Hv]]]]; rewrite E in Hn; try done.
  rewrite E. unfold Step. cbn -[kv_version kv_value]. unfold kv_version. rewrite Hk.
  rewrite decide_False by (intros H; by symmetry in H). done.
Qed.

(** The operation is not a put rejected with [ErrNoKey]. *)
Definition not_NoKey_put (op : Operation) : Prop :=
  in_Op (op_Input op) = 1 → out_Err (op_Output op) ≠ err_string ErrNoKey.

#[global] Instance not_NoKey_put_dec op : Decision (not_NoKey_put op).
Proof. unfold not_NoKey_put. apply _. Defined.

(** ** Requests *)

Inductive Request := RGet (a : GetArgs) | RPut (a : PutArgs).

Definition req_key (r : Request) : string :=
  match r with RGet a => get_Key a | RPut a => put_Key a end.

(** What the tests record as the input of an operation. *)
Definition req_input (r : Request) : KvInput :=
  match r with
  | RGet a => get_input (get_Key a)
  | RPut a => put_input (put_Key a) (put_Value a) (put_Version a)
  end.
