(* ===== verification/KvStore.v ===== *)
(** * KvStore: what the two replicated key/value servers share

    [src/src/kvraft/server.go] and [src/src/shardkv/shardgrp/server.go] declare
    the same records for the last put of a client and execute a put on a map
    with the same statements; both handle maps that may be nil.  A nil map is
    [None]: reading it finds nothing, writing to it panics. *)

From S2P Require Import Prelude RpcApi KvModel KvSpec.

Record LastPut := mkLastPut { lp_RequestId : Z; lp_Reply : PutReply }.

Abbreviation putTable := (gmap Z LastPut).

#[global] Instance LastPut_eq_dec : EqDecision LastPut.
Proof. solve_decision. Defined.
#[global] Instance LastPut_countable : Countable LastPut.
Proof.
  by refine (inj_countable' (λ l, (lp_RequestId l, lp_Reply l)) (λ p, mkLastPut p.1 p.2) _);
    intros [].
Defined.
(** ** Maps that may be nil *)

Section nilmaps.
Context {K V : Type} `{Countable K}.

(** [m[k]] on a possibly nil map. *)
Definition map_get (m : option (gmap K V)) (k : K) : option V := m ≫= λ m, m !! k.

(** [m[k] = v]. *)
Definition map_set (m : option (gmap K V)) (k : K) (v : V) : outcome (option (gmap K V)) :=
  match m with Some m => Ret (Some (<[k := v]> m)) | None => Panic NilMapWrite end.

(** [make(map)] filled by a range over [m]. *)
Definition map_copy (m : option (gmap K V)) : option (gmap K V) := Some (default ∅ m).
End nilmaps.

(** ** The put itself *)

Definition putMap (args : PutArgs) (m : option kvmap) : outcome (option kvmap * PutReply) :=
  match map_get m (put_Key args) with
  | Some v =>
      if decide (Version v = put_Version args) then
        m ← map_set m (put_Key args) (mkVV (put_Value args) (u64_add (Version v) 1));
        Ret (m, mkPutReply OK)
      else Ret (m, mkPutReply ErrVersion)
  | None =>
      if decide (put_Version args = 0) then
        m ← map_set m (put_Key args) (mkVV (put_Value args) 1); Ret (m, mkPutReply OK)
      else Ret (m, mkPutReply ErrNoKey)
  end.

Lemma map_copy_made {K V} `{Countable K} (m : option (gmap K V)) : is_Some m → map_copy m = m.
Proof. by intros [? ->]. Qed.

Lemma putMap_spec (m : kvmap) args :
  putMap args (Some m) =
  let '(m', e) := kv_put m (put_Key args) (put_Value args) (put_Version args) in
  Ret (Some m', mkPutReply e).
Proof.
  unfold putMap, kv_put, kv_put_err. cbn. destruct (m !! put_Key args) as [v|] eqn:E; cbn.
  - destruct (decide (Version v = put_Version args)) as [Hv|Hv]; cbn; [|done]. by rewrite Hv.
  - destruct (decide (put_Version args = 0)) as [Hv|Hv]; cbn; [|done]. by rewrite Hv.
Qed.

