(* ===== verification/KvSrv.v ===== *)
(** * KvSrv: the single-node key/value server and its clerk

    Models [src/src/kvsrv/server.go] and [src/src/kvsrv/client.go].  The
    handlers run under one mutex, so each of them is one atomic step on the
    server's map.  The clerk runs against a network that may lose a request
    before it reaches the server or the reply after it was executed, while
    other clients' puts reach the server in between. *)

From S2P Require Import Prelude RpcApi KvModel KvSpec.

Record KVServer := mkKVServer { kvm : kvmap }.

Definition MakeKVServer : KVServer := mkKVServer ∅.

(** [Get]: the handler overwrites the reply struct. *)
Definition Get (kv : KVServer) (args : GetArgs) : GetReply :=
  let reply := zeroGetReply in
  match kvm kv !! get_Key args with
  | None => mkGetReply (get_Value reply) (get_Version reply) ErrNoKey
  | Some v => mkGetReply (Value v) (Version v) OK
  end.

(** [Put]: the map after the handler and the reply. *)
Definition Put (kv : KVServer) (args : PutArgs) : KVServer * PutReply :=
  match kvm kv !! put_Key args with
  | Some v =>
      if decide (Version v = put_Version args) then
        (mkKVServer (<[put_Key args := mkVV (put_Value args) (u64_add (Version v) 1)]> (kvm kv)),
         mkPutReply OK)
      else (kv, mkPutReply ErrVersion)
  | None =>
      if decide (put_Version args = 0) then
        (mkKVServer (<[put_Key args := mkVV (put_Value args) 1]> (kvm kv)), mkPutReply OK)
      else (kv, mkPutReply ErrNoKey)
  end.

(** ** The clerk *)

(** What happens to one [Call], or in between two of them. *)
Inductive NetEvent :=
| ReqLost                      (* the request never reached the server: Call returns false *)
| ReplyLost                    (* the server executed it, the reply was lost: false *)
| Delivered                    (* executed, and the reply arrived: true *)
| OtherPut (a : PutArgs).      (* another client's put is executed in between *)

(** [Clerk.Get]: calls until a reply with [OK] or [ErrNoKey] arrives.  [None]:
    the events ran out before it returned. *)
Fixpoint Clerk_Get (kv : KVServer) (key : string) (evs : list NetEvent) : option GetReply :=
  match evs with
  | [] => None
  | OtherPut a :: evs => Clerk_Get (Put kv a).1 key evs
  | (ReqLost | ReplyLost) :: evs => Clerk_Get kv key evs
  | Delivered :: evs =>
      let reply := Get kv (mkGetArgs key) in
      match get_Err reply with
      | ErrNoKey => Some reply
      | OK => Some reply
      | _ => Clerk_Get kv key evs
      end
  end.

(** The result of [Clerk.Put]: the server, the error it returns and the
    replies the server computed for its requests, oldest first. *)
Record PutRun := mkPutRun { pr_server : KVServer; pr_result : option Err; pr_replies : list Err }.

Definition kv_args (key value : string) (version : Tversion) : PutArgs :=
  mkPutArgs (mkRequestInfo 0 0) key value version.

(** [Clerk.Put].  [resend] is false for the first [Call] and true inside the
    [for putOK == false] loop, whose last statement overwrites [reply.Err]
    with [ErrMaybe] after every call. *)
Fixpoint Clerk_Put_loop (kv : KVServer) (args : PutArgs) (resend : bool) (replies : list Err)
    (evs : list NetEvent) : PutRun :=
  match evs with
  | [] => mkPutRun kv None replies
  | OtherPut a :: evs => Clerk_Put_loop (Put kv a).1 args resend replies evs
  | ReqLost :: evs => Clerk_Put_loop kv args true replies evs
  | ReplyLost :: evs =>
      let '(kv', r) := Put kv args in
      Clerk_Put_loop kv' args true (replies ++ [put_Err r]) evs
  | Delivered :: _ =>
      let '(kv', r) := Put kv args in
      mkPutRun kv' (Some (if resend then ErrMaybe else put_Err r)) (replies ++ [put_Err r])
  end.

Definition Clerk_Put (kv : KVServer) (key value : string) (version : Tversion)
    (evs : list NetEvent) : PutRun :=
  Clerk_Put_loop kv (kv_args key value version) false [] evs.

(** ** The handlers implement the reference map *)

Lemma Get_spec kv args : Get kv args = kv_get (kvm kv) (get_Key args).
Proof. unfold Get, kv_get. by destruct (_ !! _). Qed.

Lemma Put_spec kv args :
  Put kv args =
    let '(m, e) := kv_put (kvm kv) (put_Key args) (put_Value args) (put_Version args) in
    (mkKVServer m, mkPutReply e).
Proof.
  unfold Put, kv_put, kv_put_err. destruct kv as [m]. cbn.
  destruct (m !! put_Key args) as [v|] eqn:E; repeat case_decide; try done;
    try congruence.
  by replace (put_Version args) with 0.
Qed.

Lemma Put_kvm kv args :
  kvm (Put kv args).1 = (kv_put (kvm kv) (put_Key args) (put_Value args) (put_Version args)).1.
Proof. rewrite Put_spec. by destruct (kv_put _ _ _ _). Qed.

Lemma Put_err kv args :
  put_Err (Put kv args).2 = (kv_put (kvm kv) (put_Key args) (put_Value args) (put_Version args)).2.
Proof. rewrite Put_spec. by destruct (kv_put _ _ _ _). Qed.

(** ** Sequential histories are accepted by the checker *)

(** One request, and the operation the test harness would log for it when it
    is called and returns at the time [now]. *)
Definition handle (now : Z) (kv : KVServer) (r : Request) : KVServer * Operation :=
  match r with
  | RGet a => (kv, mkOperation 0 (get_input (get_Key a)) now (get_output (Get kv a)) now)
  | RPut a =>
      let '(kv', rep) := Put kv a in
      (kv', mkOperation 0 (put_input (put_Key a) (put_Value a) (put_Version a)) now
              (put_output (put_Err rep)) now)
  end.

Fixpoint run (now : Z) (kv : KVServer) (rs : list Request) : KVServer * list Operation :=
  match rs with
  | [] => (kv, [])
  | r :: rs =>
      let '(kv1, op) := handle now kv r in
      let '(kv2, ops) := run (now + 1) kv1 rs in (kv2, op :: ops)
  end.

Lemma handle_key now kv r : op_key (handle now kv r).2 = req_key r.
Proof. destruct r as [a|a]; cbn; [done|]. by destruct (Put kv a). Qed.

Lemma handle_step now kv r :
  not_NoKey_put (handle now kv r).2 →
  Step (proj (kvm kv) (req_key r)) (op_Input (handle now kv r).2) (op_Output (handle now kv r).2)
    = (true, proj (kvm (handle now kv r).1) (req_key r)).
Proof.
  destruct r as [a|a]; unfold handle, not_NoKey_put.
  - intros _. cbn [fst snd op_Input op_Output req_key]. rewrite Get_spec. apply step_get.
  - rewrite (surjective_pairing (Put kv a)). cbn [fst snd op_Input op_Output req_key].
    rewrite Put_kvm, Put_err. intros Hn. apply step_put.
    intros E. rewrite E in Hn. by apply Hn.
Qed.

Lemma handle_other now kv r k :
  k ≠ req_key r → proj (kvm (handle now kv r).1) k = proj (kvm kv) k.
Proof.
  intros Hne. destruct r as [a|a]; cbn; [done|].
  rewrite (surjective_pairing (Put kv a)). cbn. rewrite Put_kvm.
  unfold proj, kv_value, kv_version. by rewrite kv_put_other.
Qed.

Lemma run_accepted_from now kv rs k :
  Forall not_NoKey_put (run now kv rs).2 →
  accepts (proj (kvm kv) k) (filter (λ op, op_key op = k) (run now kv rs).2) = true.
Proof.
  revert now kv. induction rs as [|r rs IH]; intros now kv; [done|].
  cbn [run]. pose proof (handle_step now kv r) as Hst. pose proof (handle_other now kv r k) as Hot.
  pose proof (handle_key now kv r) as Hk.
  destruct (handle now kv r) as [kv1 op]. specialize (IH (now + 1) kv1).
  destruct (run (now + 1) kv1 rs) as [kv2 ops]. cbn [fst snd] in *.
  intros [Hop Hops]%Forall_cons. rewrite filter_cons.
  destruct (decide (op_key op = k)) as [E|E]; cbn [accepts].
  - rewrite <-E, Hk, (Hst Hop), <-Hk, E. cbn. by apply IH.
  - rewrite <-Hot by congruence. by apply IH.
Qed.

(** Every sequential run of the server, split by key as [Partition] does,
    is accepted by the checker's model, except that the model has no
    transition for a put rejected with [ErrNoKey]. *)
Theorem run_accepted rs :
  Forall not_NoKey_put (run 0 MakeKVServer rs).2 →
  ∀ part, part ∈ Partition (run 0 MakeKVServer rs).2 → accepts Init part = true.
Proof.
  intros Hn part Hpart. apply Partition_part in Hpart as (k & -> & _).
  rewrite <-(proj_empty k). by apply (run_accepted_from 0 MakeKVServer).
Qed.

(** Two puts of one key, a stale one and a read. *)
Definition sample_run : list Request :=
  [RPut (kv_args "k" "a" 0); RPut (kv_args "k" "b" 1); RPut (kv_args "k" "c" 1);
   RGet (mkGetArgs "k"); RPut (kv_args "l" "d" 0)].

Lemma sample_run_puts : Forall not_NoKey_put (run 0 MakeKVServer sample_run).2.
Proof. repeat (constructor; [by intros _|]). constructor. Qed.

Lemma run_accepted_witness :
  Forall (λ part, accepts Init part = true) (Partition (run 0 MakeKVServer sample_run).2) ∧
  length (Partition (run 0 MakeKVServer sample_run).2) = 2%nat.
Proof.
  split; [|vm_compute; reflexivity]. apply Forall_forall. intros part Hpart.
  apply (run_accepted sample_run); [exact sample_run_puts|exact Hpart].
Defined.

(** ** What the clerk's answer means *)

(** The answer in terms of the replies the server gave to this clerk. *)
Lemma Clerk_Put_loop_result kv args resend replies evs :
  (resend = false → replies = []) →
  let r := Clerk_Put_loop kv args resend replies evs in
  match pr_result r with
  | None => True
  | Some ErrMaybe => True
  | Some e => resend = false ∧ pr_replies r = [e]
  end.
Proof.
  revert kv resend replies. induction evs as [|ev evs IH]; intros kv resend replies Hr; [done|].
  destruct ev as [| | |a]; cbn [Clerk_Put_loop].
  - specialize (IH kv true replies ltac:(done)). cbn in *.
    destruct (pr_result _) as [[]|]; naive_solver.
  - destruct (Put kv args) as [kv' r]. specialize (IH kv' true (replies ++ [put_Err r]) ltac:(done)).
    cbn in *. destruct (pr_result _) as [[]|]; naive_solver.
  - destruct (Put kv args) as [kv' r]. cbn. destruct resend; [done|].
    rewrite Hr by done. cbn. by destruct (put_Err r).
  - apply IH. done.
Qed.

(** How often a put was executed successfully. *)
Definition successes (replies : list Err) : nat := length (filter (λ e, e = OK) replies).

Lemma successes_app r1 r2 : successes (r1 ++ r2) = (successes r1 + successes r2)%nat.
Proof. unfold successes. by rewrite filter_app, length_app. Qed.

(** How often other clients' puts and this clerk's requests reach the server. *)
Definition kv_budget (kv : KVServer) (key : string) (evs : list NetEvent) : Prop :=
  0 ≤ kv_version (kvm kv) key ∧ kv_version (kvm kv) key + zlen evs < u64_mod.

Lemma Put_version_mono kv a k :
  0 ≤ kv_version (kvm kv) k → kv_version (kvm kv) k + 1 < u64_mod →
  kv_version (kvm kv) k ≤ kv_version (kvm (Put kv a).1) k ≤ kv_version (kvm kv) k + 1 ∧
  (put_Err (Put kv a).2 = OK → put_Key a = k →
     put_Version a = kv_version (kvm kv) k ∧
     kv_version (kvm (Put kv a).1) k = kv_version (kvm kv) k + 1).
Proof.
  intros H0 H1. rewrite Put_kvm, Put_err.
  destruct (decide (put_Key a = k)) as [<-|Hne].
  - rewrite kv_put_version. case_decide as Hd.
    + rewrite u64_add_small by lia. split; [lia|]. intros _ _. split; [|lia].
      destruct (kv_put_cases (kvm kv) (put_Key a) (put_Value a) (put_Version a))
        as [[E ?]|[[E ?]|[E ?]]]; [done|by rewrite E in Hd..].
    + split; [lia|done].
  - split; [|done]. unfold kv_version. rewrite kv_put_other by done. lia.
Qed.

Lemma Clerk_Put_loop_successes kv args resend replies evs :
  kv_budget kv (put_Key args) evs →
  (successes replies ≤ 1)%nat →
  (successes replies = 1%nat → put_Version args < kv_version (kvm kv) (put_Key args)) →
  (successes (pr_replies (Clerk_Put_loop kv args resend replies evs)) ≤ 1)%nat.
Proof.
  revert kv resend replies. induction evs as [|ev evs IH];
    intros kv resend replies [Hb0 Hb] H1 Hv; [done|].
  rewrite zlen_cons in Hb. pose proof (zlen_nonneg evs) as Hl.
  set (k := put_Key args) in *.
  assert (∀ a, kv_budget (Put kv a).1 k evs) as Hbud.
  { intros a. destruct (Put_version_mono kv a k) as [? _]; [lia..|]. unfold kv_budget. lia. }
  assert (successes (replies ++ [put_Err (Put kv args).2]) ≤ 1 ∧
          (successes (replies ++ [put_Err (Put kv args).2]) = 1 →
             (put_Version args < kv_version (kvm (Put kv args).1) k)%Z))%nat as [Hs Hs'].
  { rewrite successes_app. unfold successes at 2 4. rewrite filter_cons, filter_nil.
    destruct (Put_version_mono kv args k) as [Hm HOK]; [lia..|].
    destruct (decide (put_Err (Put kv args).2 = OK)) as [E|E]; cbn [length].
    - destruct (HOK E eq_refl) as [HV ?]. split; [|lia].
      destruct (decide (successes replies = 1%nat)) as [Hone|]; [|lia].
      specialize (Hv Hone). lia.
    - split; [lia|]. intros Hone. specialize (Hv ltac:(lia)). lia. }
  destruct ev as [| | |a]; cbn [Clerk_Put_loop].
  - apply IH; [|done..]. split; [done|lia].
  - destruct (Put kv args) as [kv' r] eqn:E. cbn [fst snd] in *.
    apply IH; [|done..]. specialize (Hbud args). by rewrite E in Hbud.
  - destruct (Put kv args) as [kv' r]. done.
  - apply IH; [apply Hbud|done|]. intros Hone. specialize (Hv Hone).
    destruct (Put_version_mono kv a k) as [? _]; [lia..|]. lia.
Qed.

(** The clerk's answer is truthful and a put takes effect at most once.  An
    answer other than [ErrMaybe] is exactly the server's only reply to this
    put, so [OK] means performed once and any other error means not performed;
    whatever the network does, the server executes the put successfully at
    most once, as long as the key's version cannot wrap around 64 bits. *)
Theorem Clerk_Put_correct kv key value version evs :
  kv_budget kv key evs →
  let r := Clerk_Put kv key value version evs in
  (successes (pr_replies r) ≤ 1)%nat ∧
  match pr_result r with
  | None | Some ErrMaybe => True
  | Some OK => pr_replies r = [OK]
  | Some e => pr_replies r = [e] ∧ successes (pr_replies r) = 0%nat
  end.
Proof.
  intros Hb r. split.
  - apply Clerk_Put_loop_successes; [done|cbn; lia|done].
  - pose proof (Clerk_Put_loop_result kv (kv_args key value version) false [] evs
      ltac:(done)) as Hr. cbn zeta in Hr. fold (Clerk_Put kv key value version evs) in Hr.
    fold r in Hr. destruct (pr_result r) as [[]|]; try done; destruct Hr as [_ ->]; done.
Qed.

Lemma Clerk_Put_correct_witness :
  let evs := [ReplyLost; OtherPut (kv_args "k" "w" 1); Delivered] in
  (successes (pr_replies (Clerk_Put MakeKVServer "k" "v" 0 evs)) ≤ 1)%nat ∧
  pr_result (Clerk_Put MakeKVServer "k" "v" 0 evs) = Some ErrMaybe.
Proof.
  split; [|vm_compute; reflexivity].
  refine (proj1 (Clerk_Put_correct MakeKVServer "k" "v" 0
    [ReplyLost; OtherPut (kv_args "k" "w" 1); Delivered] _)).
  split; vm_compute; congruence.
Defined.
