(* ===== verification/ShardCfg.v ===== *)
(** * ShardCfg: shard configurations

    Models [src/src/shardkv/shardcfg/shardcfg.go]: the hash from keys to
    shards, configurations, [Join]/[Leave] and the rebalancing of shards over
    groups.  The array [Shards] is a list whose length [NShards] is part of the
    well-formedness predicate; [Groups] is a finite map from group ids to
    server names. *)

From stdpp Require Import sorting.
From Stdlib Require Import Ascii.
From S2P Require Import Prelude.

Abbreviation Tshid := Z.
Abbreviation Tnum := Z.
Abbreviation Tgid := Z.

Definition NShards : Z := 12.
Definition NumFirst : Tnum := 1.
Definition Gid1 : Tgid := 1.

(** ** Keys to shards: 32-bit FNV-1a, modulo the number of shards *)

Definition u32_mod : Z := 2 ^ 32.
Definition fnv32a_offset : Z := 2166136261.
Definition fnv32a_prime : Z := 16777619.

Definition byte_values (s : string) : list Z :=
  (λ c, Z.of_N (N_of_ascii c)) <$> String.list_ascii_of_string s.

Definition fnv32a (s : string) : Z :=
  foldl (λ h b, (Z.lxor h b * fnv32a_prime) mod u32_mod) fnv32a_offset (byte_values s).

Definition Key2Shard (key : string) : Tshid := fnv32a key mod NShards.

(** ** Configurations *)

Record ShardConfig := mkShardConfig {
  Num : Tnum;
  Shards : list Tgid;
  Groups : gmap Tgid (list string);
}.

#[global] Instance ShardConfig_eq_dec : EqDecision ShardConfig.
Proof. solve_decision. Defined.

Definition set_Shards (sh : list Tgid) (c : ShardConfig) : ShardConfig :=
  mkShardConfig (Num c) sh (Groups c).

Definition MakeShardConfig : ShardConfig :=
  mkShardConfig 0 (replicate (Z.to_nat NShards) 0) ∅.

Definition EqualTo (cfg other : ShardConfig) : bool :=
  if decide (Num cfg = Num other) then bool_decide (Shards cfg = Shards other) else false.

(** [Copy] builds a fresh map and fresh slices with the same contents. *)
Definition Copy (cfg : ShardConfig) : ShardConfig :=
  let c := MakeShardConfig in
  mkShardConfig (Num cfg) (Shards cfg)
    (map_fold (λ k srvs acc, <[k := srvs]> acc) (Groups c) (Groups cfg)).

(** [counts[g] += 1] for every shard. *)
Definition counts (sh : list Tgid) : gmap Tgid Z :=
  foldl (λ m g, <[g := default 0 (m !! g) + 1]> m) ∅ sh.

Definition count_of (sh : list Tgid) (g : Tgid) : Z := default 0 (counts sh !! g).

(** The group ids in increasing order ([slices.Sort(groups)]). *)
Definition sorted_gids (c : ShardConfig) : list Tgid :=
  merge_sort Z.le (elements (dom (Groups c))).

(** (mg, mn, lg, ln): the most and the least loaded group. *)
Definition analyze_step (cnt : Tgid → Z) (acc : Tgid * Z * Tgid * Z) (g : Tgid)
    : Tgid * Z * Tgid * Z :=
  let '(mg, mn, lg, ln) := acc in
  let '(lg, ln) := if decide (cnt g < ln) then (g, cnt g) else (lg, ln) in
  let '(mg, mn) := if decide (mn < cnt g) then (g, cnt g) else (mg, mn) in
  (mg, mn, lg, ln).

Definition analyze (c : ShardConfig) : Tgid * Z * Tgid * Z :=
  foldl (analyze_step (count_of (Shards c))) (-1, -1, -1, 257) (sorted_gids c).

Definition least (c : ShardConfig) : Tgid :=
  let '(_, _, lg, _) := analyze c in lg.

(** [for s, g := range cfg.Shards]: shards of groups that are not (or no
    longer) in the configuration go, one by one, to the least loaded group. *)
Fixpoint assign_from (c : ShardConfig) (s n : nat) : ShardConfig :=
  match n with
  | O => c
  | S n =>
      let c' :=
        match Shards c !! s with
        | Some g =>
            if decide (g ∈ dom (Groups c)) then c
            else set_Shards (<[s := least c]> (Shards c)) c
        | None => c
        end in
      assign_from c' (S s) n
  end.

(** [if g == mg { cfg.Shards[s] = lg; break }] *)
Fixpoint move_first (mg lg : Tgid) (sh : list Tgid) : list Tgid :=
  match sh with
  | [] => []
  | g :: sh => if decide (g = mg) then lg :: sh else g :: move_first mg lg sh
  end.

(** The endless [for] loop; [None]: out of fuel. *)
Fixpoint balance_loop (fuel : nat) (c : ShardConfig) : option ShardConfig :=
  match fuel with
  | O => None
  | S fuel =>
      let '(mg, mn, lg, ln) := analyze c in
      if decide (mn < ln + 2) then Some c
      else balance_loop fuel (set_Shards (move_first mg lg (Shards c)) c)
  end.

(** Enough iterations for any assignment of [NShards] shards: see
    [balance_loop_terminates]. *)
Definition balance_fuel : nat := 150.

Definition Rebalance (cfg : ShardConfig) : option ShardConfig :=
  if decide (Groups cfg = ∅) then
    Some (set_Shards ((λ _, 0) <$> Shards cfg) cfg)
  else balance_loop balance_fuel (assign_from cfg 0 (length (Shards cfg))).

(** [Join] and [Leave] mutate the configuration as they go: when they return
    false the groups handled before stay added or deleted and [Num] is
    unchanged.  Go iterates the map of joining groups in an unspecified order;
    the model takes them as a list in some order. *)
Definition clashes (servers : list string) (groups : gmap Tgid (list string)) : bool :=
  bool_decide (map_Exists (λ _ xs, Exists (λ s1, s1 ∈ servers) xs) groups).

Fixpoint Join_loop (cfg : ShardConfig) (changed : bool) (servers : list (Tgid * list string))
    : outcome (ShardConfig * bool) :=
  match servers with
  | [] =>
      if changed then Ret (mkShardConfig (Num cfg + 1) (Shards cfg) (Groups cfg), true)
      else Panic (Fatal "Join but no change")
  | (gid, srvs) :: rest =>
      match Groups cfg !! gid with
      | Some _ => Ret (cfg, false)
      | None =>
          if clashes srvs (Groups cfg) then Panic (Fatal "Join puts server in two groups")
          else Join_loop (mkShardConfig (Num cfg) (Shards cfg) (<[gid := srvs]> (Groups cfg)))
                 true rest
      end
  end.

Definition Join (cfg : ShardConfig) (servers : list (Tgid * list string)) :=
  Join_loop cfg false servers.

Fixpoint Leave_loop (cfg : ShardConfig) (changed : bool) (gids : list Tgid)
    : outcome (ShardConfig * bool) :=
  match gids with
  | [] =>
      if changed then Ret (mkShardConfig (Num cfg + 1) (Shards cfg) (Groups cfg), true)
      else Panic (Fatal "Leave but no change")
  | gid :: rest =>
      match Groups cfg !! gid with
      | None => Ret (cfg, false)
      | Some _ =>
          Leave_loop (mkShardConfig (Num cfg) (Shards cfg) (delete gid (Groups cfg))) true rest
      end
  end.

Definition Leave (cfg : ShardConfig) (gids : list Tgid) := Leave_loop cfg false gids.

(** [None] inside: the rebalancing did not end within its fuel. *)
Definition JoinBalance (cfg : ShardConfig) (servers : list (Tgid * list string))
    : outcome (option ShardConfig * bool) :=
  '(c, ok) ← Join cfg servers;
  if ok : bool then Ret (Rebalance c, true) else Ret (Some c, false).

Definition LeaveBalance (cfg : ShardConfig) (gids : list Tgid)
    : outcome (option ShardConfig * bool) :=
  '(c, ok) ← Leave cfg gids;
  if ok : bool then Ret (Rebalance c, true) else Ret (Some c, false).

Definition GidServers (cfg : ShardConfig) (sh : Tshid) : outcome (Tgid * list string * bool) :=
  gid ← index (Shards cfg) sh;
  Ret (match Groups cfg !! gid with
       | Some srvs => (gid, srvs, true)
       | None => (gid, [], false)
       end).

Definition IsMember (cfg : ShardConfig) (gid : Tgid) : bool := bool_decide (gid ∈ Shards cfg).

(** [CheckConfig]: [true] when none of its [fatalf] calls is reached. *)
Definition CheckConfig (cfg : ShardConfig) (groups : list Tgid) : bool :=
  let cnt := count_of (Shards cfg) in
  let mx := map_fold (λ g _ m, if decide (m < cnt g) then cnt g else m) 0 (Groups cfg) in
  let mn := map_fold (λ g _ m, if decide (cnt g < m) then cnt g else m) 257 (Groups cfg) in
  bool_decide (length (elements (dom (Groups cfg))) = length groups) &&
  bool_decide (Forall (λ g, g ∈ dom (Groups cfg)) groups) &&
  (if decide (groups = []) then true
   else bool_decide (Forall (λ g, g ∈ dom (Groups cfg)) (Shards cfg))) &&
  bool_decide (mx ≤ mn + 1).

Example fnv_a : fnv32a "a" = 3826002220. Proof. reflexivity. Qed.
Example fnv_foobar : fnv32a "foobar" = 3214735720. Proof. reflexivity. Qed.

(** ** Facts about the hash *)

Lemma fnv32a_range key : 0 ≤ fnv32a key < u32_mod.
Proof.
  unfold fnv32a. destruct (byte_values key) as [|b bs] using rev_ind; [done|].
  rewrite foldl_app. cbn. by apply Z.mod_pos_bound.
Qed.

Lemma Key2Shard_range key : 0 ≤ Key2Shard key < NShards.
Proof. by apply Z.mod_pos_bound. Qed.

(** ** Counting shards *)

Lemma count_of_filter sh g : count_of sh g = zlen (filter (λ x, x = g) sh).
Proof.
  unfold count_of, counts. induction sh as [|x sh IH] using rev_ind; [done|].
  rewrite foldl_app, filter_app, zlen_app, filter_cons, filter_nil. cbn [foldl].
  destruct (decide (x = g)) as [->|Hne].
  - rewrite lookup_insert_eq. cbn -[zlen]. by rewrite IH.
  - rewrite lookup_insert_ne, IH by done. unfold zlen. cbn. lia.
Qed.

Lemma count_of_nonneg sh g : 0 ≤ count_of sh g.
Proof. rewrite count_of_filter. apply zlen_nonneg. Qed.

Lemma count_of_le sh g : count_of sh g ≤ zlen sh.
Proof.
  rewrite count_of_filter. unfold zlen. pose proof (length_filter (λ x, x = g) sh). lia.
Qed.

Lemma count_of_cons x sh g :
  count_of (x :: sh) g = (if decide (x = g) then 1 else 0) + count_of sh g.
Proof.
  rewrite !count_of_filter, filter_cons. case_decide; [rewrite zlen_cons|]; lia.
Qed.

Lemma count_of_pos sh g : 0 < count_of sh g → g ∈ sh.
Proof.
  rewrite count_of_filter. unfold zlen. intros H.
  destruct (filter (λ x, x = g) sh) as [|x l] eqn:E; [cbn in H; lia|].
  assert (x ∈ filter (λ x, x = g) sh) as Hx by (rewrite E; set_solver).
  apply list_elem_of_filter in Hx as [-> ?]. done.
Qed.

#[export] Hint Resolve count_of_nonneg count_of_le : go.

Lemma count_move_first mg lg sh g :
  mg ∈ sh → mg ≠ lg →
  count_of (move_first mg lg sh) g =
    count_of sh g - (if decide (mg = g) then 1 else 0) + (if decide (lg = g) then 1 else 0).
Proof.
  intros Hin Hne. induction sh as [|x sh IH]; [set_solver|].
  cbn. destruct (decide (x = mg)) as [->|Hx]; rewrite !count_of_cons; [lia|].
  rewrite IH by set_solver. lia.
Qed.

Lemma length_move_first mg lg sh : length (move_first mg lg sh) = length sh.
Proof. induction sh as [|x sh IH]; [done|]. cbn. case_decide; cbn; congruence. Qed.

Lemma elem_of_move_first mg lg sh x : x ∈ move_first mg lg sh → x = lg ∨ x ∈ sh.
Proof. induction sh as [|y sh IH]; cbn; [set_solver|]. case_decide; set_solver. Qed.

(** ** The most and least loaded groups *)

Lemma elem_of_sorted_gids c g : g ∈ sorted_gids c ↔ g ∈ dom (Groups c).
Proof. unfold sorted_gids. rewrite merge_sort_Permutation. apply elem_of_elements. Qed.

Lemma NoDup_sorted_gids c : NoDup (sorted_gids c).
Proof. unfold sorted_gids. rewrite merge_sort_Permutation. apply NoDup_elements. Qed.

Lemma sorted_gids_nil c : sorted_gids c = [] ↔ Groups c = ∅.
Proof.
  split.
  - intros H. apply dom_empty_inv_L. apply set_eq. intros g.
    rewrite <-elem_of_sorted_gids, H. set_solver.
  - intros H. destruct (sorted_gids c) as [|g l] eqn:E; [done|].
    assert (g ∈ dom (Groups c)) as Hg by (apply elem_of_sorted_gids; rewrite E; set_solver).
    rewrite H in Hg. set_solver.
Qed.

(** What [analyze] knows after the groups [seen]. *)
Definition analyzed (cnt : Tgid → Z) (seen : list Tgid) (acc : Tgid * Z * Tgid * Z) : Prop :=
  let '(mg, mn, lg, ln) := acc in
  (seen = [] → acc = (-1, -1, -1, 257)) ∧
  (seen ≠ [] → mg ∈ seen ∧ mn = cnt mg ∧ lg ∈ seen ∧ ln = cnt lg) ∧
  (∀ g, g ∈ seen → ln ≤ cnt g ≤ mn).

Lemma analyze_step_spec cnt seen acc g :
  0 ≤ cnt g < 257 → analyzed cnt seen acc →
  analyzed cnt (seen ++ [g]) (analyze_step cnt acc g).
Proof.
  intros Hg. destruct acc as [[[mg mn] lg] ln]. unfold analyzed, analyze_step.
  intros (H1 & H2 & H3).
  assert (seen = [] ∨ seen ≠ []) as [->|Hs] by (destruct seen; auto).
  - specialize (H1 eq_refl). simplify_eq. rewrite !decide_True by lia. cbn.
    split; [done|]. split; [set_solver|]. intros g' ->%list_elem_of_singleton. lia.
  - specialize (H2 Hs) as (Hmg & -> & Hlg & ->).
    repeat case_decide; (split; [by destruct seen|]); (split; [set_solver|]);
      intros g' [Hin%H3| ->%list_elem_of_singleton]%elem_of_app; lia.
Qed.

Lemma analyze_foldl cnt gs :
  (∀ g, 0 ≤ cnt g < 257) → analyzed cnt gs (foldl (analyze_step cnt) (-1, -1, -1, 257) gs).
Proof.
  intros Hc. induction gs as [|g gs IH] using rev_ind.
  - cbn. split; [done|]. split; [done|]. set_solver.
  - rewrite foldl_app. cbn. by apply analyze_step_spec.
Qed.

(** At most 256 shards, as the constant 257 in [analyze] assumes. *)
Lemma analyze_spec c mg mn lg ln :
  zlen (Shards c) ≤ 256 → Groups c ≠ ∅ → analyze c = (mg, mn, lg, ln) →
  mg ∈ dom (Groups c) ∧ mn = count_of (Shards c) mg ∧
  lg ∈ dom (Groups c) ∧ ln = count_of (Shards c) lg ∧
  (∀ g, g ∈ dom (Groups c) → ln ≤ count_of (Shards c) g ≤ mn).
Proof.
  intros Hlen Hne E. unfold analyze in E.
  pose proof (analyze_foldl (count_of (Shards c)) (sorted_gids c)) as H.
  rewrite E in H. destruct H as (_ & H2 & H3).
  - intros g. pose proof (count_of_nonneg (Shards c) g).
    pose proof (count_of_le (Shards c) g). lia.
  - destruct H2 as (Hm & -> & Hl & ->); [by rewrite sorted_gids_nil|].
    rewrite elem_of_sorted_gids in Hm, Hl. split_and!; try done.
    intros g Hg. apply H3. by apply elem_of_sorted_gids.
Qed.

(** ** Termination of the balancing loop *)

Fixpoint sumZ (f : Tgid → Z) (l : list Tgid) : Z :=
  match l with [] => 0 | g :: l => f g + sumZ f l end.

#[global] Instance sumZ_Permutation f : Proper ((≡ₚ) ==> (=)) (sumZ f).
Proof. intros l1 l2 H. induction H; cbn; lia. Qed.

Lemma sumZ_ext f f' l : (∀ g, g ∈ l → f g = f' g) → sumZ f l = sumZ f' l.
Proof. induction l as [|g l IH]; cbn; intros H; [done|]. rewrite (H g), IH by set_solver. done. Qed.

Lemma sumZ_nonneg f l : (∀ g, 0 ≤ f g) → 0 ≤ sumZ f l.
Proof. intros H. induction l as [|g l IH]; cbn; [lia|]. specialize (H g). lia. Qed.

(** The sum of the squared loads falls with every move. *)
Definition potential (c : ShardConfig) : Z :=
  sumZ (λ g, count_of (Shards c) g * count_of (Shards c) g) (sorted_gids c).

Lemma sorted_gids_split c mg lg :
  mg ∈ dom (Groups c) → lg ∈ dom (Groups c) → mg ≠ lg →
  ∃ rest, sorted_gids c ≡ₚ mg :: lg :: rest ∧ mg ∉ rest ∧ lg ∉ rest.
Proof.
  rewrite <-!elem_of_sorted_gids. intros Hm Hl Hne.
  pose proof (NoDup_sorted_gids c) as Hnd.
  apply elem_of_Permutation in Hm as [l1 H1]. rewrite H1 in Hnd, Hl.
  apply NoDup_cons in Hnd as [Hm1 Hnd].
  assert (lg ∈ l1) as Hl1 by set_solver.
  apply elem_of_Permutation in Hl1 as [rest H2]. rewrite H2 in Hnd, Hm1.
  apply NoDup_cons in Hnd as [Hl2 _]. exists rest. rewrite H1, H2. set_solver.
Qed.

Lemma potential_decreases c mg mn lg ln :
  zlen (Shards c) ≤ 256 → Groups c ≠ ∅ → analyze c = (mg, mn, lg, ln) → ¬ mn < ln + 2 →
  potential (set_Shards (move_first mg lg (Shards c)) c) ≤ potential c - 2.
Proof.
  intros Hlen Hne E Hgap.
  destruct (analyze_spec c mg mn lg ln Hlen Hne E) as (Hmg & -> & Hlg & -> & _).
  assert (mg ≠ lg) as Hml by (intros ->; lia).
  assert (mg ∈ Shards c) as Hin.
  { apply count_of_pos. pose proof (count_of_nonneg (Shards c) lg). lia. }
  destruct (sorted_gids_split c mg lg Hmg Hlg Hml) as (rest & HP & Hm & Hl).
  unfold potential.
  assert (sorted_gids (set_Shards (move_first mg lg (Shards c)) c) ≡ₚ mg :: lg :: rest) as ->
    by done.
  rewrite HP. cbn -[count_of].
  rewrite (sumZ_ext _ (λ g, count_of (Shards c) g * count_of (Shards c) g) rest).
  - rewrite !count_move_first by done.
    rewrite (decide_True (P := mg = mg)), (decide_True (P := lg = lg)),
      (decide_False (P := mg = lg)), (decide_False (P := lg = mg)) by done.
    nia.
  - intros g Hg. rewrite count_move_first by done. rewrite !decide_False by set_solver.
    f_equal; lia.
Qed.

Lemma balance_loop_terminates fuel c :
  zlen (Shards c) ≤ 256 → Groups c ≠ ∅ → potential c < Z.of_nat fuel →
  is_Some (balance_loop fuel c).
Proof.
  revert c. induction fuel as [|fuel IH]; intros c Hlen Hne Hpot.
  - exfalso. assert (0 ≤ potential c); [|lia].
    apply sumZ_nonneg. intros g. pose proof (count_of_nonneg (Shards c) g). nia.
  - cbn. destruct (analyze c) as [[[mg mn] lg] ln] eqn:E.
    case_decide as Hgap; [by eexists|]. apply IH.
    + unfold zlen in *. cbn. by rewrite length_move_first.
    + done.
    + pose proof (potential_decreases c mg mn lg ln Hlen Hne E Hgap). lia.
Qed.

(** ** The result of [Rebalance] *)

(** A configuration as the code builds them: the array has [NShards] slots. *)
Definition cfg_wf (c : ShardConfig) : Prop := zlen (Shards c) = NShards.

(** Every shard belongs to a group of the configuration. *)
Definition assigned (c : ShardConfig) : Prop := Forall (λ g, g ∈ dom (Groups c)) (Shards c).

(** No two groups differ by more than one shard. *)
Definition balanced (c : ShardConfig) : Prop :=
  ∀ g1 g2, g1 ∈ dom (Groups c) → g2 ∈ dom (Groups c) →
    count_of (Shards c) g1 ≤ count_of (Shards c) g2 + 1.

Lemma least_in c :
  zlen (Shards c) ≤ 256 → Groups c ≠ ∅ → least c ∈ dom (Groups c).
Proof.
  intros Hlen Hne. unfold least. destruct (analyze c) as [[[mg mn] lg] ln] eqn:E.
  by destruct (analyze_spec c mg mn lg ln Hlen Hne E) as (_ & _ & ? & _).
Qed.

Lemma assign_from_spec c s n :
  zlen (Shards c) ≤ 256 → Groups c ≠ ∅ → (s + n = length (Shards c))%nat →
  (∀ i g, (i < s)%nat → Shards c !! i = Some g → g ∈ dom (Groups c)) →
  let c' := assign_from c s n in
  Num c' = Num c ∧ Groups c' = Groups c ∧ length (Shards c') = length (Shards c) ∧ assigned c'.
Proof.
  revert c s. induction n as [|n IH]; intros c s Hlen Hne Hn Hdone; cbn [assign_from].
  - split_and!; try done. apply Forall_lookup. intros i g Hi.
    eapply Hdone; [|done]. apply lookup_lt_Some in Hi. lia.
  - destruct (lookup_lt_is_Some_2 (Shards c) s) as [g Hg]; [lia|]. rewrite Hg.
    case_decide as Hin.
    + apply IH; [done..|lia|]. intros i g' Hi Hg'.
      destruct (decide (i = s)) as [->|]; [by simplify_eq|]. eapply Hdone; [|done]. lia.
    + set (c' := set_Shards _ c). assert (length (Shards c') = length (Shards c)) as Hl
        by apply length_insert.
      destruct (IH c' (S s)) as (? & ? & ? & ?).
      * unfold zlen in *. by rewrite Hl.
      * done.
      * rewrite Hl. lia.
      * intros i g' Hi Hg'. change (g' ∈ dom (Groups c)). cbn in Hg'. destruct (decide (i = s)) as [->|].
        -- rewrite list_lookup_insert_eq in Hg' by lia. simplify_eq. by apply least_in.
        -- rewrite list_lookup_insert_ne in Hg' by done. eapply Hdone; [|done]. lia.
      * by rewrite Hl in *.
Qed.

Lemma balance_loop_spec fuel c c' :
  zlen (Shards c) ≤ 256 → Groups c ≠ ∅ → assigned c → balance_loop fuel c = Some c' →
  Num c' = Num c ∧ Groups c' = Groups c ∧ length (Shards c') = length (Shards c) ∧
  assigned c' ∧ balanced c'.
Proof.
  revert c. induction fuel as [|fuel IH]; intros c Hlen Hne Has; [done|].
  cbn. destruct (analyze c) as [[[mg mn] lg] ln] eqn:E.
  destruct (analyze_spec c mg mn lg ln Hlen Hne E) as (Hmg & -> & Hlg & -> & Hb).
  case_decide as Hgap.
  - intros [= ->]. split_and!; try done. intros g1 g2 H1%Hb H2%Hb. lia.
  - intros Hloop. apply IH in Hloop as (? & ? & Hl & ? & ?); [|unfold zlen in *; cbn..].
    + split_and!; try done. rewrite Hl. apply length_move_first.
    + by rewrite length_move_first.
    + done.
    + apply Forall_forall. intros g Hg%elem_of_move_first.
      destruct Hg as [->|Hg]; [done|]. unfold assigned in Has.
      rewrite Forall_forall in Has. by apply Has.
Qed.

Lemma potential_bound c : potential c ≤ zlen (Shards c) * zlen (Shards c).
Proof.
  unfold potential.
  assert (∀ gs, NoDup gs → sumZ (count_of (Shards c)) gs ≤ zlen (Shards c)) as Hsum.
  { intros gs Hnd. induction (Shards c) as [|x sh IH].
    - clear. induction gs as [|g gs IH]; cbn in *; [done|]. unfold count_of at 1. cbn. done.
    - rewrite zlen_cons.
      assert (sumZ (count_of (x :: sh)) gs ≤ sumZ (count_of sh) gs + 1) as Hone.
      { clear IH. induction gs as [|g gs IH]; cbn; [lia|].
        apply NoDup_cons in Hnd as [Hg Hnd]. rewrite count_of_cons. case_decide as Hx; [|].
        - subst g. rewrite (sumZ_ext (count_of (x :: sh)) (count_of sh) gs); [lia|].
          intros g' Hg'. rewrite count_of_cons, decide_False; [lia|]. by intros ->.
        - specialize (IH Hnd). lia. }
      lia. }
  assert (∀ gs, sumZ (λ g, count_of (Shards c) g * count_of (Shards c) g) gs
            ≤ zlen (Shards c) * sumZ (count_of (Shards c)) gs) as Hsq.
  { induction gs as [|g gs IH]; cbn; [lia|].
    pose proof (count_of_nonneg (Shards c) g). pose proof (count_of_le (Shards c) g). nia. }
  specialize (Hsum (sorted_gids c) (NoDup_sorted_gids c)). specialize (Hsq (sorted_gids c)).
  pose proof (zlen_nonneg (Shards c)). nia.
Qed.

Lemma Rebalance_spec cfg :
  cfg_wf cfg → Groups cfg ≠ ∅ →
  ∃ c, Rebalance cfg = Some c ∧ Num c = Num cfg ∧ Groups c = Groups cfg ∧
       cfg_wf c ∧ assigned c ∧ balanced c.
Proof.
  unfold cfg_wf, NShards. intros Hwf Hne. unfold Rebalance. rewrite decide_False by done.
  destruct (assign_from_spec cfg 0 (length (Shards cfg))) as (Hn & Hg & Hl & Has);
    [lia|done|done|intros; lia|].
  set (c1 := assign_from _ _ _) in *.
  assert (zlen (Shards c1) = 12) as Hl1 by (unfold zlen in *; lia).
  destruct (balance_loop_terminates balance_fuel c1) as [c2 Hc2]; [lia|by rewrite Hg| |].
  { pose proof (potential_bound c1). unfold balance_fuel. lia. }
  destruct (balance_loop_spec balance_fuel c1 c2 ltac:(lia) ltac:(by rewrite Hg) Has Hc2)
    as (? & ? & Hl2 & ? & ?).
  exists c2. split_and!; try done; [congruence..|]. unfold zlen in *. lia.
Qed.

(** A configuration that needs no change keeps its assignment. *)
Lemma Rebalance_stable_lemma cfg :
  cfg_wf cfg → Groups cfg ≠ ∅ → assigned cfg → balanced cfg → Rebalance cfg = Some cfg.
Proof.
  unfold cfg_wf, NShards. intros Hwf Hne Has Hb. unfold Rebalance. rewrite decide_False by done.
  assert (∀ n s, assign_from cfg s n = cfg) as ->.
  { induction n as [|n IH]; intros s; cbn; [done|].
    destruct (Shards cfg !! s) as [g|] eqn:Hg; [|apply IH].
    rewrite decide_True; [apply IH|]. by eapply (Forall_lookup_1 _ _ _ _ Has). }
  assert (∃ n, balance_fuel = S n) as [n ->] by (by exists 149%nat).
  cbn. destruct (analyze cfg) as [[[mg mn] lg] ln] eqn:E.
  destruct (analyze_spec cfg mg mn lg ln ltac:(lia) Hne E) as (Hmg & -> & Hlg & -> & _).
  rewrite decide_True; [done|]. specialize (Hb mg lg Hmg Hlg). lia.
Qed.

(** ** Joining and leaving *)

Lemma Join_loop_spec cfg changed servers c ok :
  Join_loop cfg changed servers = Ret (c, ok) →
  Shards c = Shards cfg ∧
  (ok = true → Num c = Num cfg + 1 ∧
     dom (Groups c) = dom (Groups cfg) ∪ list_to_set servers.*1 ∧
     (servers ≠ [] ∨ changed = true)) ∧
  (ok = false → Num c = Num cfg).
Proof.
  revert cfg changed. induction servers as [|[gid srvs] servers IH]; intros cfg changed; cbn.
  - destruct changed; [|done]. intros [= <- <-]. cbn. split_and!; try done. intros _.
    split_and!; [done|set_solver|auto].
  - destruct (Groups cfg !! gid) as [xs|] eqn:E; [by intros [= <- <-]|].
    destruct (clashes _ _); [done|].
    intros (H1 & H2 & H3)%IH. cbn in *. split_and!; try done.
    intros Hok. destruct (H2 Hok) as (-> & Hd & _). rewrite dom_insert_L in Hd.
    split_and!; [done|rewrite Hd; set_solver|by left].
Qed.

Lemma Leave_loop_spec cfg changed gids c ok :
  Leave_loop cfg changed gids = Ret (c, ok) →
  Shards c = Shards cfg ∧
  (ok = true → Num c = Num cfg + 1 ∧ dom (Groups c) = dom (Groups cfg) ∖ list_to_set gids) ∧
  (ok = false → Num c = Num cfg).
Proof.
  revert cfg changed. induction gids as [|gid gids IH]; intros cfg changed; cbn.
  - destruct changed; [|done]. intros [= <- <-]. cbn. split_and!; try done. intros _.
    split_and!; [done|set_solver].
  - destruct (Groups cfg !! gid) as [xs|] eqn:E; [|by intros [= <- <-]].
    intros (H1 & H2 & H3)%IH. cbn in *. split_and!; try done.
    intros Hok. destruct (H2 Hok) as (-> & Hd). rewrite dom_delete_L in Hd.
    split_and!; [done|rewrite Hd; set_solver].
Qed.

(** [CheckConfig] accepts exactly what the balancing establishes. *)
Lemma map_fold_max_cases (cnt : Tgid → Z) (m : gmap Tgid (list string)) :
  let mx := map_fold (λ g _ m, if decide (m < cnt g) then cnt g else m) 0 m in
  mx = 0 ∨ ∃ g, g ∈ dom m ∧ mx = cnt g.
Proof.
  cbn zeta. induction m as [|g xs m Hg Hf IH] using map_first_key_ind.
  - left. apply map_fold_empty.
  - rewrite map_fold_insert_first_key by done. case_decide.
    + right. exists g. set_solver.
    + destruct IH as [?|(g' & ? & ?)]; [by left|right; exists g'; set_solver].
Qed.

Lemma map_fold_min_cases (cnt : Tgid → Z) (m : gmap Tgid (list string)) :
  let mn := map_fold (λ g _ m, if decide (cnt g < m) then cnt g else m) 257 m in
  mn = 257 ∨ ∃ g, g ∈ dom m ∧ mn = cnt g.
Proof.
  cbn zeta. induction m as [|g xs m Hg Hf IH] using map_first_key_ind.
  - left. apply map_fold_empty.
  - rewrite map_fold_insert_first_key by done. case_decide.
    + right. exists g. set_solver.
    + destruct IH as [?|(g' & ? & ?)]; [by left|right; exists g'; set_solver].
Qed.

Lemma CheckConfig_ok c groups :
  cfg_wf c → NoDup groups → dom (Groups c) = list_to_set groups →
  assigned c → balanced c → CheckConfig c groups = true.
Proof.
  unfold cfg_wf, NShards. intros Hwf Hnd Hdom Has Hb. unfold CheckConfig.
  rewrite !andb_true_iff, !bool_decide_eq_true. split_and!.
  - rewrite Hdom. rewrite elements_list_to_set by done. done.
  - rewrite Forall_forall, Hdom. set_solver.
  - case_decide; [done|]. by rewrite bool_decide_eq_true.
  - pose proof (map_fold_max_cases (count_of (Shards c)) (Groups c)) as Hmx.
    pose proof (map_fold_min_cases (count_of (Shards c)) (Groups c)) as Hmn. cbn zeta in *.
    destruct Hmx as [->|(g1 & H1 & ->)], Hmn as [->|(g2 & H2 & ->)].
    + lia.
    + pose proof (count_of_nonneg (Shards c) g2). lia.
    + pose proof (count_of_le (Shards c) g1). lia.
    + by apply Hb.
Qed.

Lemma Groups_nonempty (c : ShardConfig) g : g ∈ dom (Groups c) → Groups c ≠ ∅.
Proof. intros Hg E. rewrite E in Hg. set_solver. Qed.

Lemma Rebalance_checked cfg :
  cfg_wf cfg →
  ∃ c, Rebalance cfg = Some c ∧ Num c = Num cfg ∧ Groups c = Groups cfg ∧ cfg_wf c ∧
       CheckConfig c (sorted_gids c) = true.
Proof.
  intros Hwf. destruct (decide (Groups cfg = ∅)) as [He|Hne].
  - unfold Rebalance. rewrite decide_True by done. eexists. split; [done|]. cbn.
    split_and!; try done.
    + unfold cfg_wf, zlen in *. cbn. by rewrite length_fmap.
    + assert (sorted_gids (set_Shards ((λ _, 0) <$> Shards cfg) cfg) = []) as ->
        by (by apply sorted_gids_nil).
      unfold CheckConfig. cbn. by rewrite He.
  - destruct (Rebalance_spec cfg Hwf Hne) as (c & HR & Hn & Hg & Hwf' & Has & Hb).
    exists c. split_and!; try done. apply CheckConfig_ok; try done.
    + apply NoDup_sorted_gids.
    + apply set_eq. intros g. by rewrite elem_of_list_to_set, elem_of_sorted_gids.
Qed.

(** C23: rebalancing terminates; with at least one group every shard ends in a
    group of the configuration, no two groups differ by more than one shard,
    the number and the groups are unchanged, and a configuration that already
    satisfies this is returned unchanged, so no shard moves without need. *)
Theorem Rebalance_correct cfg :
  cfg_wf cfg →
  ∃ c, Rebalance cfg = Some c ∧ Num c = Num cfg ∧ Groups c = Groups cfg ∧ cfg_wf c ∧
    (Groups cfg ≠ ∅ → assigned c ∧ balanced c) ∧
    (Groups cfg ≠ ∅ → assigned cfg → balanced cfg → c = cfg) ∧
    (Groups cfg = ∅ → ∀ s g, Shards c !! s = Some g → g = 0).
Proof.
  intros Hwf. destruct (decide (Groups cfg = ∅)) as [He|Hne].
  - destruct (Rebalance_checked cfg Hwf) as (c & HR & Hn & Hg & Hw & _).
    exists c. split_and!; try done. intros _ s g. revert HR. unfold Rebalance.
    rewrite decide_True by done. intros [= <-]. cbn. rewrite list_lookup_fmap.
    by destruct (Shards cfg !! s); intros [= <-].
  - destruct (Rebalance_spec cfg Hwf Hne) as (c & HR & Hn & Hg & Hw & Has & Hb).
    exists c. split_and!; try done. intros _ Has' Hb'.
    rewrite (Rebalance_stable_lemma cfg) in HR by done. by simplify_eq.
Qed.

Lemma Rebalance_correct_witness :
  ∃ c, Rebalance (mkShardConfig 3 (replicate 12 1) {[1 := ["x"]; 2 := ["a"]; 3 := ["b"]]}) = Some c ∧
       balanced c.
Proof.
  destruct (Rebalance_correct
    (mkShardConfig 3 (replicate 12 1) {[1 := ["x"]; 2 := ["a"]; 3 := ["b"]]}) eq_refl)
    as (c & HR & _ & _ & _ & Hb & _).
  exists c. split; [exact HR|]. apply Hb. by vm_compute.
Defined.

(** when [JoinBalance] or [LeaveBalance] report a change, the new
    configuration has the next number, exactly the expected groups, and passes
    [CheckConfig]. *)
Theorem JoinLeaveBalance_checked cfg :
  cfg_wf cfg →
  (∀ servers r, JoinBalance cfg servers = Ret (r, true) →
     ∃ c, r = Some c ∧ cfg_wf c ∧ Num c = Num cfg + 1 ∧
          dom (Groups c) = dom (Groups cfg) ∪ list_to_set servers.*1 ∧
          CheckConfig c (sorted_gids c) = true) ∧
  (∀ gids r, LeaveBalance cfg gids = Ret (r, true) →
     ∃ c, r = Some c ∧ cfg_wf c ∧ Num c = Num cfg + 1 ∧
          dom (Groups c) = dom (Groups cfg) ∖ list_to_set gids ∧
          CheckConfig c (sorted_gids c) = true).
Proof.
  intros Hwf. split.
  - intros servers r H. unfold JoinBalance in H.
    apply bind_ret_inv in H as ([c ok] & HJ & H). destruct ok; [|done]. simplify_eq.
    apply Join_loop_spec in HJ as (Hs & Ht & _). destruct (Ht eq_refl) as (HN & HG & _).
    destruct (Rebalance_checked c) as (c' & -> & Hn & Hg & Hw & Hc).
    { unfold cfg_wf. by rewrite Hs. }
    exists c'. rewrite Hn, Hg, HN, HG. done.
  - intros gids r H. unfold LeaveBalance in H.
    apply bind_ret_inv in H as ([c ok] & HL & H). destruct ok; [|done]. simplify_eq.
    apply Leave_loop_spec in HL as (Hs & Ht & _). destruct (Ht eq_refl) as (HN & HG).
    destruct (Rebalance_checked c) as (c' & -> & Hn & Hg & Hw & Hc).
    { unfold cfg_wf. by rewrite Hs. }
    exists c'. rewrite Hn, Hg, HN, HG. done.
Qed.

Lemma JoinLeaveBalance_checked_witness :
  ∃ c, JoinBalance MakeShardConfig [(1, ["x"; "y"]); (2, ["a"])] = Ret (Some c, true) ∧
       CheckConfig c (sorted_gids c) = true ∧ Num c = 1.
Proof.
  destruct (proj1 (JoinLeaveBalance_checked MakeShardConfig eq_refl)
    [(1, ["x"; "y"]); (2, ["a"])] _ eq_refl) as (c & E & _ & Hn & _ & Hc).
  exists c. split; [rewrite <-E; vm_compute; reflexivity|]. split; [exact Hc|].
  rewrite Hn. reflexivity.
Defined.

(** every key belongs to one of the [NShards] shards, so indexing the
    shard array with it never panics and finds the group of the key. *)
Theorem Key2Shard_valid cfg key :
  cfg_wf cfg →
  0 ≤ Key2Shard key < NShards ∧
  ∃ gid, Shards cfg !! Z.to_nat (Key2Shard key) = Some gid ∧
         GidServers cfg (Key2Shard key) =
           Ret (gid, default [] (Groups cfg !! gid), bool_decide (gid ∈ dom (Groups cfg))).
Proof.
  intros Hwf. pose proof (Key2Shard_range key) as Hr. split; [done|].
  destruct (index_returns (Shards cfg) (Key2Shard key)) as [gid Hg]; [by rewrite Hwf|].
  exists gid. split; [by apply index_Ret in Hg as [_ ?]|].
  unfold GidServers. rewrite Hg. cbn.
  destruct (Groups cfg !! gid) as [srvs|] eqn:E; cbn.
  - rewrite bool_decide_eq_true_2; [done|]. apply elem_of_dom. eauto.
  - rewrite bool_decide_eq_false_2; [done|]. by apply not_elem_of_dom.
Qed.

Lemma Key2Shard_valid_witness :
  ∃ gid, Shards MakeShardConfig !! Z.to_nat (Key2Shard "a") = Some gid ∧ gid = 0.
Proof.
  destruct (Key2Shard_valid MakeShardConfig "a" eq_refl) as (_ & gid & H & _).
  exists gid. split; [exact H|]. vm_compute in H. congruence.
Defined.
