(* ===== verification/Persister.v ===== *)
(** * Persister: stable storage of one server

    Models [src/src/tester/persister.go].  [clone] copies a byte slice, so the
    stored values never alias the caller's; as values they are equal, and a
    nil slice reads back as an empty one. *)

From S2P Require Import Prelude.

Record Persister := mkPersister { raftstate : bytes; snapshot : bytes }.

#[global] Instance Persister_eq_dec : EqDecision Persister.
Proof. solve_decision. Defined.

Definition MakePersister : Persister := mkPersister [] [].

Definition clone (orig : bytes) : bytes := take (length orig) orig.

Definition Checkpoint (ps : Persister) : Persister :=
  mkPersister (clone (raftstate ps)) (clone (snapshot ps)).

Definition ReadRaftState (ps : Persister) : bytes := clone (raftstate ps).
Definition RaftStateSize (ps : Persister) : Z := zlen (raftstate ps).

(** Both values are replaced in one step, under the persister's lock. *)
Definition Save (rs snap : bytes) (ps : Persister) : Persister :=
  mkPersister (clone rs) (clone snap).

Definition ReadSnapshot (ps : Persister) : bytes := clone (snapshot ps).
Definition SnapshotSize (ps : Persister) : Z := zlen (snapshot ps).

Lemma clone_id orig : clone orig = orig.
Proof. unfold clone. by rewrite firstn_all. Qed.

Lemma Save_read rs snap ps :
  ReadRaftState (Save rs snap ps) = rs ∧ ReadSnapshot (Save rs snap ps) = snap.
Proof. unfold ReadRaftState, ReadSnapshot, Save. cbn [raftstate snapshot]. by rewrite !clone_id. Qed.

Lemma Checkpoint_id ps : Checkpoint ps = ps.
Proof. unfold Checkpoint. rewrite !clone_id. by destruct ps. Qed.
