(* ===== verification/TestGroup.v ===== *)
(** * TestGroup: server groups of the test network

    Models [src/src/tester/group.go] and [srv.go]: how the tester connects,
    disconnects, partitions, starts and stops the servers of a group by
    enabling and disabling the ends of the simulated network ([RpcNet]).

    Random end names and what the daemon process does are arguments: a list of
    names drawn by [Randstring], and the results of [runDaemon] and of the
    checkpoint of a persister. *)

From S2P Require Import Prelude RpcNet Persister.

Section group.
Context (ServerName : Z → nat → string).   (* strconv.Itoa inside *)

(** A server as the tester sees it.  [alive]: its daemon runs ([dc ≠ nil]). *)
Record TServer := mkTServer { endNames : list string; saved : option Persister; alive : bool }.

Record ServerGrp := mkServerGrp {
  sg_net : Network; gid : Z; srvs : list TServer; connected : list bool; servernames : list string }.

Definition with_net (rn : Network) (sg : ServerGrp) : ServerGrp :=
  mkServerGrp rn (gid sg) (srvs sg) (connected sg) (servernames sg).
Definition with_srv (i : nat) (s : TServer) (sg : ServerGrp) : ServerGrp :=
  mkServerGrp (sg_net sg) (gid sg) (<[i := s]> (srvs sg)) (connected sg) (servernames sg).

Definition grpN (sg : ServerGrp) : nat := length (srvs sg).
Definition all (sg : ServerGrp) : list nat := seq 0 (grpN sg).

(** [make([]string, n)] and the loop of [makeServer] over the other servers. *)
Fixpoint makeEnds (g : Z) (j : nat) (names : list string) (rn : Network) : outcome Network :=
  match names with
  | [] => Ret rn
  | name :: names =>
      rn ← MakeEnd name rn;
      makeEnds g (S j) names (Connect name (ServerName g j) rn)
  end.

Definition makeServer (g : Z) (names : list string) (rn : Network) : outcome (Network * TServer) :=
  rn ← makeEnds g 0 names rn; Ret (rn, mkTServer names None false).

(** The loop of [makeSrvGrp], with the names of each server. *)
Fixpoint makeServers (g : Z) (namess : list (list string)) (rn : Network)
    : outcome (Network * list TServer) :=
  match namess with
  | [] => Ret (rn, [])
  | names :: namess =>
      r ← makeServer g names rn;
      rs ← makeServers g namess r.1;
      Ret (rs.1, r.2 :: rs.2)
  end.

Definition makeSrvGrp (g : Z) (n : nat) (namess : list (list string)) (rn : Network)
    : outcome ServerGrp :=
  r ← makeServers g namess rn;
  Ret (mkServerGrp r.1 g r.2 (replicate n false) (ServerName g <$> seq 0 n)).

Definition IsConnected (i : nat) (sg : ServerGrp) : outcome bool := index (connected sg) (Z.of_nat i).

(** The name of the end of server [i] to server [j]. *)
Definition endTo (i j : nat) (sg : ServerGrp) : outcome string :=
  s ← index (srvs sg) (Z.of_nat i); index (endNames s) (Z.of_nat j).

Definition enableEnd (i j : nat) (yes : bool) (sg : ServerGrp) : outcome ServerGrp :=
  name ← endTo i j sg; Ret (with_net (Enable name yes (sg_net sg)) sg).

Definition set_connected (i : nat) (yes : bool) (sg : ServerGrp) : outcome ServerGrp :=
  c ← store (connected sg) (Z.of_nat i) yes;
  Ret (mkServerGrp (sg_net sg) (gid sg) (srvs sg) c (servernames sg)).

(** [Server.connect]: the outgoing ends of [i] to the connected servers of [to]. *)
Fixpoint connectOut (i : nat) (to : list nat) (sg : ServerGrp) : outcome ServerGrp :=
  match to with
  | [] => Ret sg
  | j :: to =>
      c ← IsConnected j sg;
      sg ← (if c : bool then enableEnd i j true sg else Ret sg);
      connectOut i to sg
  end.

(** The incoming ends. *)
Fixpoint connectIn (i : nat) (to : list nat) (sg : ServerGrp) : outcome ServerGrp :=
  match to with
  | [] => Ret sg
  | j :: to =>
      c ← IsConnected j sg;
      sg ← (if c : bool then enableEnd j i true sg else Ret sg);
      connectIn i to sg
  end.

Definition connect (i : nat) (to : list nat) (sg : ServerGrp) : outcome ServerGrp :=
  sg ← set_connected i true sg; sg ← connectOut i to sg; connectIn i to sg.

(** [endNames] is never nil once a server was made. *)
Fixpoint disconnectOut (i : nat) (from : list nat) (sg : ServerGrp) : outcome ServerGrp :=
  match from with
  | [] => Ret sg
  | j :: from => sg ← enableEnd i j false sg; disconnectOut i from sg
  end.

Fixpoint disconnectIn (i : nat) (from : list nat) (sg : ServerGrp) : outcome ServerGrp :=
  match from with
  | [] => Ret sg
  | j :: from => sg ← enableEnd j i false sg; disconnectIn i from sg
  end.

Definition disconnect (i : nat) (from : list nat) (sg : ServerGrp) : outcome ServerGrp :=
  sg ← set_connected i false sg; sg ← disconnectOut i from sg; disconnectIn i from sg.

Definition ConnectOne (i : nat) (sg : ServerGrp) : outcome ServerGrp := connect i (all sg) sg.
Definition DisconnectAll (i : nat) (sg : ServerGrp) : outcome ServerGrp := disconnect i (all sg) sg.

Fixpoint foldGrp (f : nat → ServerGrp → outcome ServerGrp) (ids : list nat) (sg : ServerGrp)
    : outcome ServerGrp :=
  match ids with
  | [] => Ret sg
  | i :: ids => sg ← f i sg; foldGrp f ids sg
  end.

Definition ConnectAll (sg : ServerGrp) : outcome ServerGrp := foldGrp ConnectOne (all sg) sg.

(** [StartServer]: nothing if the daemon runs; otherwise fresh ends, and the
    server is registered if the daemon process started. *)
Definition StartServer (i : nat) (names : list string) (daemonStarts : bool) (ptr : nat)
    (sg : ServerGrp) : outcome (ServerGrp * bool) :=
  s ← index (srvs sg) (Z.of_nat i);
  if alive s then Ret (sg, true)
  else
    r ← makeServer (gid sg) names (sg_net sg);
    let s' := mkTServer names (Some (default MakePersister (saved s))) false in
    let sg := with_srv i s' (with_net r.1 sg) in
    if daemonStarts then
      Ret (with_net (AddServer (ServerName (gid sg) i) ptr (sg_net sg))
             (with_srv i (mkTServer names (saved s') true) sg), true)
    else Ret (sg, false).

(** [Server.shutdownServer], where the daemon's persister is [p]. *)
Definition shutdownServer (p : Persister) (s : TServer) : TServer :=
  if alive s then mkTServer (endNames s) (Some p) false else s.

Definition ShutdownServer (p : nat → Persister) (i : nat) (sg : ServerGrp) : outcome ServerGrp :=
  sg ← disconnect i (all sg) sg;
  let sg := with_net (DeleteServer (ServerName (gid sg) i) (sg_net sg)) sg in
  s ← index (srvs sg) (Z.of_nat i);
  Ret (with_srv i (shutdownServer (p i) s) sg).

Definition Kill (p : nat → Persister) (ids : list nat) (sg : ServerGrp) : outcome ServerGrp :=
  foldGrp (ShutdownServer p) ids sg.
Definition Shutdown (p : nat → Persister) (sg : ServerGrp) : outcome ServerGrp := Kill p (all sg) sg.

(** [MakePartition]: the loop over the servers other than [l], then [l] last. *)
Fixpoint splitServers (l : Z) (ids : list nat) (j : Z) (p1 p2 : list Z) : outcome (list Z * list Z) :=
  match ids with
  | [] => Ret (p1, p2)
  | i :: ids =>
      if decide (Z.of_nat i ≠ l) then
        if decide (j < zlen p1) then
          p1 ← store p1 j (Z.of_nat i); splitServers l ids (j + 1) p1 p2
        else
          p2 ← store p2 (j - zlen p1) (Z.of_nat i); splitServers l ids (j + 1) p1 p2
      else splitServers l ids j p1 p2
  end.

Definition MakePartition (n : nat) (l : Z) : outcome (list Z * list Z) :=
  r ← splitServers l (seq 0 n) 0 (replicate (n / 2 + 1) 0) (replicate (n / 2) 0);
  p2 ← store r.2 (zlen r.2 - 1) l;
  Ret (r.1, p2).

Definition partitionSide (p q : list nat) (sg : ServerGrp) : outcome ServerGrp :=
  foldGrp (λ i sg, sg ← disconnect i q sg; connect i p sg) p sg.

Definition Partition (p1 p2 : list nat) (sg : ServerGrp) : outcome ServerGrp :=
  sg ← partitionSide p1 p2 sg; partitionSide p2 p1 sg.

(** ** The groups of a test *)

Abbreviation Groups := (gmap Z ServerGrp).

Definition MakeGroup (g : Z) (n : nat) (namess : list (list string)) (rn : Network) (gs : Groups)
    : outcome Groups :=
  sg ← makeSrvGrp g n namess rn; Ret (<[g := sg]> gs).
Definition lookupGroup (g : Z) (gs : Groups) : option ServerGrp := gs !! g.
Definition deleteGroup (g : Z) (gs : Groups) : Groups := delete g gs.
End group.

(** ** Partitions *)

Section partition.
Implicit Types (sg : ServerGrp) (i j a b : nat).

(** A group of [n] servers, whose ends all have different names. *)
Record grp_ok (n : nat) sg : Prop := {
  gk_srvs : length (srvs sg) = n;
  gk_connected : length (connected sg) = n;
  gk_ends i s : srvs sg !! i = Some s → length (endNames s) = n;
  gk_names : NoDup (concat (endNames <$> srvs sg));
}.

Lemma index_nat {A} (l : list A) i x : index l (Z.of_nat i) = Ret x ↔ l !! i = Some x.
Proof. rewrite index_Ret, Nat2Z.id. split; [tauto|]. split; [lia|done]. Qed.

Lemma endTo_ok n sg i j :
  grp_ok n sg → (i < n)%nat → (j < n)%nat → ∃ name, endTo i j sg = Ret name.
Proof.
  intros [] Hi Hj. destruct (lookup_lt_is_Some_2 (srvs sg) i) as [s Hs]; [lia|].
  pose proof (gk_ends0 _ _ Hs) as Hlen.
  destruct (lookup_lt_is_Some_2 (endNames s) j) as [name Hn]; [lia|]. exists name.
  unfold endTo. apply index_nat in Hs. rewrite Hs. cbn. by apply index_nat.
Qed.

Lemma concat_lookup_inj {A} (ls : list (list A)) i j l1 l2 a b x :
  NoDup (concat ls) → ls !! i = Some l1 → ls !! j = Some l2 → l1 !! a = Some x → l2 !! b = Some x →
  i = j ∧ a = b.
Proof.
  revert i j. induction ls as [|l ls IH]; intros i j Hnd Hi Hj Ha Hb; [done|].
  cbn in Hnd. apply NoDup_app in Hnd as (Hl & Hd & Hnd).
  assert (∀ k l' c, ls !! k = Some l' → l' !! c = Some x → l !! a = Some x ∨ l !! b = Some x → False)
    as Hout.
  { intros k l' c Hk Hc Hx. apply (Hd x); [destruct Hx; by eapply list_elem_of_lookup_2|].
    apply list_elem_of_In, in_concat. exists l'.
    split; apply list_elem_of_In; by eapply list_elem_of_lookup_2. }
  destruct i as [|i], j as [|j]; cbn in Hi, Hj; simplify_eq.
  - split; [done|]. by eapply NoDup_lookup; [exact Hl| |].
  - exfalso. by eapply Hout; [exact Hj|exact Hb|left].
  - exfalso. by eapply Hout; [exact Hi|exact Ha|right].
  - destruct (IH i j) as [-> ->]; done.
Qed.

Lemma endTo_inj n sg i j i' j' name :
  grp_ok n sg → endTo i j sg = Ret name → endTo i' j' sg = Ret name → i = i' ∧ j = j'.
Proof.
  intros [] (s & Hs%index_nat & Hn%index_nat)%bind_ret_inv
    (s' & Hs'%index_nat & Hn'%index_nat)%bind_ret_inv.
  eapply (concat_lookup_inj (endNames <$> srvs sg) i i'); [done|..];
    rewrite ?list_lookup_fmap, ?Hs, ?Hs'; done.
Qed.

(** Whether server [i] can send to server [j]. *)
Definition linked i j sg : bool :=
  match endTo i j sg with Ret name => isEnabled name (sg_net sg) | Panic _ => false end.

Definition up i sg : bool := default false (connected sg !! i).

(** [sg'] is [sg] with other links and connections. *)
Record relinked (n : nat) sg sg' (links : nat → nat → bool) (ups : nat → bool) : Prop := {
  rl_ok : grp_ok n sg';
  rl_srvs : srvs sg' = srvs sg;
  rl_links i j : (i < n)%nat → (j < n)%nat → linked i j sg' = links i j;
  rl_ups i : (i < n)%nat → up i sg' = ups i;
}.

Lemma relinked_refl n sg : grp_ok n sg → relinked n sg sg (λ i j, linked i j sg) (λ i, up i sg).
Proof. by split. Qed.

Lemma relinked_trans n sg1 sg2 sg3 l2 l3 l4 u2 u3 u4 :
  relinked n sg1 sg2 l2 u2 → relinked n sg2 sg3 l3 u3 →
  (∀ i j, (i < n)%nat → (j < n)%nat →
     (∀ i j, (i < n)%nat → (j < n)%nat → linked i j sg2 = l2 i j) →
     (∀ i, (i < n)%nat → up i sg2 = u2 i) → l3 i j = l4 i j) →
  (∀ i, (i < n)%nat → (∀ i, (i < n)%nat → up i sg2 = u2 i) → u3 i = u4 i) →
  relinked n sg1 sg3 l4 u4.
Proof.
  intros [] [] Hl Hu. split; [done|congruence|..].
  - intros i j Hi Hj. rewrite rl_links1 by done. by apply Hl.
  - intros i Hi. rewrite rl_ups1 by done. by apply Hu.
Qed.

Lemma enableEnd_spec n i j yes sg :
  grp_ok n sg → (i < n)%nat → (j < n)%nat →
  ∃ sg', enableEnd i j yes sg = Ret sg' ∧
    relinked n sg sg' (λ a b, if decide (a = i ∧ b = j) then yes else linked a b sg) (λ a, up a sg).
Proof.
  intros Hok Hi Hj. destruct (endTo_ok n sg i j Hok Hi Hj) as [name Hn].
  unfold enableEnd. rewrite Hn. cbn. eexists. split; [done|].
  assert (∀ a b, endTo a b (with_net (Enable name yes (sg_net sg)) sg) = endTo a b sg) as He by done.
  split; [by destruct Hok|done| |done]. intros a b Ha Hb. unfold linked. rewrite He.
  destruct (endTo_ok n sg a b Hok Ha Hb) as [name' Hn']. rewrite Hn'. unfold isEnabled. cbn.
  case_decide as Hd.
  - destruct Hd as [-> ->]. rewrite Hn in Hn'. injection Hn' as <-. by rewrite lookup_insert_eq.
  - rewrite lookup_insert_ne; [done|]. intros <-. apply Hd.
    by destruct (endTo_inj _ _ _ _ _ _ _ Hok Hn' Hn) as [-> ->].
Qed.

Lemma set_connected_spec n i yes sg :
  grp_ok n sg → (i < n)%nat →
  ∃ sg', set_connected i yes sg = Ret sg' ∧
    relinked n sg sg' (λ a b, linked a b sg) (λ a, if decide (a = i) then yes else up a sg).
Proof.
  intros Hok Hi. pose proof (gk_connected _ _ Hok) as Hc. unfold set_connected, store, zlen.
  rewrite decide_True by lia. cbn. rewrite Nat2Z.id. eexists. split; [done|].
  split; [destruct Hok; split; cbn; rewrite ?length_insert; done|done|done|].
  intros a Ha. unfold up. cbn. case_decide as Hd.
  - subst. rewrite list_lookup_insert_eq by lia. done.
  - by rewrite list_lookup_insert_ne by done.
Qed.

Lemma IsConnected_spec n i sg : grp_ok n sg → (i < n)%nat → IsConnected i sg = Ret (up i sg).
Proof.
  intros Hok Hi. pose proof (gk_connected _ _ Hok) as Hc.
  destruct (lookup_lt_is_Some_2 (connected sg) i) as [b Hb]; [lia|].
  unfold IsConnected, up. rewrite Hb. cbn. by apply index_nat.
Qed.

(** Case analysis on who is linked to whom. *)
Ltac links := repeat case_decide; try done; exfalso; rewrite ?elem_of_cons in *; naive_solver congruence.

(** A sequence of two changes. *)
Ltac relink H1 H2 :=
  split; [apply H2|by rewrite (rl_srvs _ _ _ _ _ H2), (rl_srvs _ _ _ _ _ H1)
         |intros ?a ?b ?Ha ?Hb; rewrite (rl_links _ _ _ _ _ H2) by done;
          rewrite ?(rl_links _ _ _ _ _ H1), ?(rl_ups _ _ _ _ _ H1) by done
         |intros ?a ?Ha; rewrite (rl_ups _ _ _ _ _ H2) by done;
          rewrite ?(rl_ups _ _ _ _ _ H1) by done].

Lemma connectOut_spec n i to sg :
  grp_ok n sg → (i < n)%nat → (∀ j, j ∈ to → (j < n)%nat) →
  ∃ sg', connectOut i to sg = Ret sg' ∧
    relinked n sg sg' (λ a b, if decide (a = i ∧ b ∈ to ∧ up b sg = true) then true else linked a b sg)
      (λ a, up a sg).
Proof.
  intros Hok Hi. revert sg Hok. induction to as [|j to IH]; intros sg Hok Hto; cbn [connectOut].
  { exists sg. split; [done|]. split; try done. intros a b _ _.
    rewrite decide_False; [done|]. by intros (_ & ?%elem_of_nil & _). }
  assert (j < n)%nat as Hj by (apply Hto; by left).
  rewrite (IsConnected_spec n) by done. cbn [mbind outcome_bind].
  destruct (up j sg) eqn:Hup.
  - destruct (enableEnd_spec n i j true sg Hok Hi Hj) as (sg1 & -> & H1). cbn [mbind outcome_bind].
    destruct (IH sg1 (rl_ok _ _ _ _ _ H1)) as (sg2 & Hrun & H2); [intros; apply Hto; by right|].
    exists sg2. split; [done|]. relink H1 H2; [|done]. links.
  - destruct (IH sg Hok) as (sg2 & Hrun & H2); [intros; apply Hto; by right|].
    exists sg2. split; [done|]. split; try apply H2. intros a b Ha Hb.
    rewrite (rl_links _ _ _ _ _ H2) by done. links.
Qed.

Lemma connectIn_spec n i to sg :
  grp_ok n sg → (i < n)%nat → (∀ j, j ∈ to → (j < n)%nat) →
  ∃ sg', connectIn i to sg = Ret sg' ∧
    relinked n sg sg' (λ a b, if decide (b = i ∧ a ∈ to ∧ up a sg = true) then true else linked a b sg)
      (λ a, up a sg).
Proof.
  intros Hok Hi. revert sg Hok. induction to as [|j to IH]; intros sg Hok Hto; cbn [connectIn].
  { exists sg. split; [done|]. split; try done. intros a b _ _.
    rewrite decide_False; [done|]. by intros (_ & ?%elem_of_nil & _). }
  assert (j < n)%nat as Hj by (apply Hto; by left).
  rewrite (IsConnected_spec n) by done. cbn [mbind outcome_bind].
  destruct (up j sg) eqn:Hup.
  - destruct (enableEnd_spec n j i true sg Hok Hj Hi) as (sg1 & -> & H1). cbn [mbind outcome_bind].
    destruct (IH sg1 (rl_ok _ _ _ _ _ H1)) as (sg2 & Hrun & H2); [intros; apply Hto; by right|].
    exists sg2. split; [done|]. relink H1 H2; [|done]. links.
  - destruct (IH sg Hok) as (sg2 & Hrun & H2); [intros; apply Hto; by right|].
    exists sg2. split; [done|]. split; try apply H2. intros a b Ha Hb.
    rewrite (rl_links _ _ _ _ _ H2) by done. links.
Qed.

Lemma disconnectOut_spec n i from sg :
  grp_ok n sg → (i < n)%nat → (∀ j, j ∈ from → (j < n)%nat) →
  ∃ sg', disconnectOut i from sg = Ret sg' ∧
    relinked n sg sg' (λ a b, if decide (a = i ∧ b ∈ from) then false else linked a b sg)
      (λ a, up a sg).
Proof.
  intros Hok Hi. revert sg Hok. induction from as [|j from IH]; intros sg Hok Hto; cbn [disconnectOut].
  { exists sg. split; [done|]. split; try done. intros a b _ _.
    rewrite decide_False; [done|]. by intros (_ & ?%elem_of_nil). }
  assert (j < n)%nat as Hj by (apply Hto; by left).
  destruct (enableEnd_spec n i j false sg Hok Hi Hj) as (sg1 & -> & H1). cbn [mbind outcome_bind].
  destruct (IH sg1 (rl_ok _ _ _ _ _ H1)) as (sg2 & Hrun & H2); [intros; apply Hto; by right|].
  exists sg2. split; [done|]. relink H1 H2; [|done]. links.
Qed.

Lemma disconnectIn_spec n i from sg :
  grp_ok n sg → (i < n)%nat → (∀ j, j ∈ from → (j < n)%nat) →
  ∃ sg', disconnectIn i from sg = Ret sg' ∧
    relinked n sg sg' (λ a b, if decide (b = i ∧ a ∈ from) then false else linked a b sg)
      (λ a, up a sg).
Proof.
  intros Hok Hi. revert sg Hok. induction from as [|j from IH]; intros sg Hok Hto; cbn [disconnectIn].
  { exists sg. split; [done|]. split; try done. intros a b _ _.
    rewrite decide_False; [done|]. by intros (_ & ?%elem_of_nil). }
  assert (j < n)%nat as Hj by (apply Hto; by left).
  destruct (enableEnd_spec n j i false sg Hok Hj Hi) as (sg1 & -> & H1). cbn [mbind outcome_bind].
  destruct (IH sg1 (rl_ok _ _ _ _ _ H1)) as (sg2 & Hrun & H2); [intros; apply Hto; by right|].
  exists sg2. split; [done|]. relink H1 H2; [|done]. links.
Qed.

Lemma connect_spec n i to sg :
  grp_ok n sg → (i < n)%nat → (∀ j, j ∈ to → (j < n)%nat) →
  let up' a := if decide (a = i) then true else up a sg in
  ∃ sg', connect i to sg = Ret sg' ∧
    relinked n sg sg' (λ a b, if decide ((a = i ∧ b ∈ to ∧ up' b = true) ∨
                                         (b = i ∧ a ∈ to ∧ up' a = true))
                              then true else linked a b sg) up'.
Proof.
  cbn zeta. intros Hok Hi Hto. unfold connect.
  destruct (set_connected_spec n i true sg Hok Hi) as (sg1 & -> & H1). cbn [mbind outcome_bind].
  destruct (connectOut_spec n i to sg1 (rl_ok _ _ _ _ _ H1) Hi Hto) as (sg2 & -> & H2).
  cbn [mbind outcome_bind].
  destruct (connectIn_spec n i to sg2 (rl_ok _ _ _ _ _ H2) Hi Hto) as (sg3 & Hrun & H3).
  exists sg3. split; [done|]. split.
  - apply H3.
  - by rewrite (rl_srvs _ _ _ _ _ H3), (rl_srvs _ _ _ _ _ H2), (rl_srvs _ _ _ _ _ H1).
  - intros a b Ha Hb. rewrite (rl_links _ _ _ _ _ H3), (rl_links _ _ _ _ _ H2),
      (rl_links _ _ _ _ _ H1), !(rl_ups _ _ _ _ _ H2), !(rl_ups _ _ _ _ _ H1) by done.
    links.
  - intros a Ha. by rewrite (rl_ups _ _ _ _ _ H3), (rl_ups _ _ _ _ _ H2), (rl_ups _ _ _ _ _ H1).
Qed.

Lemma disconnect_spec n i from sg :
  grp_ok n sg → (i < n)%nat → (∀ j, j ∈ from → (j < n)%nat) →
  ∃ sg', disconnect i from sg = Ret sg' ∧
    relinked n sg sg' (λ a b, if decide ((a = i ∧ b ∈ from) ∨ (b = i ∧ a ∈ from))
                              then false else linked a b sg)
      (λ a, if decide (a = i) then false else up a sg).
Proof.
  intros Hok Hi Hto. unfold disconnect.
  destruct (set_connected_spec n i false sg Hok Hi) as (sg1 & -> & H1). cbn [mbind outcome_bind].
  destruct (disconnectOut_spec n i from sg1 (rl_ok _ _ _ _ _ H1) Hi Hto) as (sg2 & -> & H2).
  cbn [mbind outcome_bind].
  destruct (disconnectIn_spec n i from sg2 (rl_ok _ _ _ _ _ H2) Hi Hto) as (sg3 & Hrun & H3).
  exists sg3. split; [done|]. split.
  - apply H3.
  - by rewrite (rl_srvs _ _ _ _ _ H3), (rl_srvs _ _ _ _ _ H2), (rl_srvs _ _ _ _ _ H1).
  - intros a b Ha Hb. rewrite (rl_links _ _ _ _ _ H3), (rl_links _ _ _ _ _ H2),
      (rl_links _ _ _ _ _ H1) by done.
    links.
  - intros a Ha. by rewrite (rl_ups _ _ _ _ _ H3), (rl_ups _ _ _ _ _ H2), (rl_ups _ _ _ _ _ H1).
Qed.

(** One server changes sides. *)
Lemma side_step n i p q sg :
  grp_ok n sg → i ∈ p → (∀ j, j ∈ p ∨ j ∈ q → (j < n)%nat) → (∀ j, j ∈ p → j ∉ q) →
  let up' a := if decide (a = i) then true else up a sg in
  ∃ sg', (sg ← disconnect i q sg; connect i p sg) = Ret sg' ∧
    relinked n sg sg'
      (λ a b, if decide ((a = i ∧ b ∈ q) ∨ (b = i ∧ a ∈ q)) then false
              else if decide ((a = i ∧ b ∈ p ∧ up' b = true) ∨ (b = i ∧ a ∈ p ∧ up' a = true))
              then true else linked a b sg) up'.
Proof.
  cbn zeta. intros Hok Hip Hb Hd. assert (i < n)%nat as Hi by auto.
  destruct (disconnect_spec n i q sg Hok Hi) as (sg1 & -> & H1); [auto|]. cbn [mbind outcome_bind].
  destruct (connect_spec n i p sg1 (rl_ok _ _ _ _ _ H1) Hi) as (sg2 & Hrun & H2); [auto|].
  exists sg2. split; [done|]. split.
  - apply H2.
  - by rewrite (rl_srvs _ _ _ _ _ H2), (rl_srvs _ _ _ _ _ H1).
  - intros a b Ha Hbn. rewrite (rl_links _ _ _ _ _ H2), (rl_links _ _ _ _ _ H1) by done.
    rewrite !(rl_ups _ _ _ _ _ H1) by done. repeat case_decide; naive_solver.
  - intros a Ha. rewrite (rl_ups _ _ _ _ _ H2), (rl_ups _ _ _ _ _ H1) by done. links.
Qed.

(** What moving the servers [ids] to the side of [p], away from [q], does. *)
Record sided n (ids p q : list nat) sg sg' : Prop := {
  sd_ok : grp_ok n sg';
  sd_srvs : srvs sg' = srvs sg;
  sd_up a : a ∈ ids → up a sg' = true;
  sd_up_other a : (a < n)%nat → a ∉ ids → up a sg' = up a sg;
  sd_in a b : a ∈ ids → b ∈ p → up b sg' = true → linked a b sg' = true ∧ linked b a sg' = true;
  sd_out a b : a ∈ ids → b ∈ q → linked a b sg' = false ∧ linked b a sg' = false;
  sd_other a b : (a < n)%nat → (b < n)%nat →
    (a ∉ ids ∧ b ∉ ids) ∨ (a ∉ p ∧ a ∉ q) ∨ (b ∉ p ∧ b ∉ q) → linked a b sg' = linked a b sg;
}.

Lemma side_fold n ids p q sg :
  grp_ok n sg → (∀ j, j ∈ ids → j ∈ p) → (∀ j, j ∈ p ∨ j ∈ q → (j < n)%nat) →
  (∀ j, j ∈ p → j ∉ q) → NoDup ids →
  ∃ sg', foldGrp (λ i sg, sg ← disconnect i q sg; connect i p sg) ids sg = Ret sg' ∧
    sided n ids p q sg sg'.
Proof.
  intros Hok Hsub Hb Hd. revert sg Hok. induction ids as [|i ids IH]; intros sg Hok Hnd; cbn [foldGrp].
  { exists sg. split; [done|]. split; try done; by intros ??%elem_of_nil || by intros ?? ?%elem_of_nil. }
  apply NoDup_cons in Hnd as [Hni Hnd].
  destruct (side_step n i p q sg Hok) as (sg1 & -> & H1); [apply Hsub; by left|done..|].
  cbn [mbind outcome_bind].
  destruct (IH ltac:(intros; apply Hsub; by right) sg1 (rl_ok _ _ _ _ _ H1) Hnd) as (sg2 & Hrun & H2).
  exists sg2. split; [done|].
  assert (i ∈ p) as Hip by (apply Hsub; by left). assert (i < n)%nat as Hin by auto.
  assert (up i sg2 = true) as Hupi.
  { rewrite (sd_up_other _ _ _ _ _ _ H2), (rl_ups _ _ _ _ _ H1) by done. by rewrite decide_True. }
  split.
  - apply H2.
  - by rewrite (sd_srvs _ _ _ _ _ _ H2), (rl_srvs _ _ _ _ _ H1).
  - intros a [->|Ha]%elem_of_cons; [done|by apply H2].
  - intros a Ha [Hai Hai']%not_elem_of_cons.
    rewrite (sd_up_other _ _ _ _ _ _ H2), (rl_ups _ _ _ _ _ H1) by done. by rewrite decide_False.
  - intros a b [->|Ha]%elem_of_cons Hbp Hup; [|by apply H2].
    assert (b < n)%nat as Hbn by auto.
    destruct (decide (b ∈ ids)) as [Hbi|Hbi].
    { destruct (sd_in _ _ _ _ _ _ H2 b i Hbi Hip Hupi). done. }
    rewrite (sd_up_other _ _ _ _ _ _ H2), (rl_ups _ _ _ _ _ H1) in Hup by done.
    assert (b ∉ q) by auto. assert (i ∉ q) by auto.
    rewrite !(sd_other _ _ _ _ _ _ H2), !(rl_links _ _ _ _ _ H1) by auto.
    split; (rewrite decide_False by naive_solver; rewrite decide_True; [done|naive_solver]).
  - intros a b [->|Ha]%elem_of_cons Hbq; [|by apply H2]. assert (b < n)%nat as Hbn by auto.
    assert (b ∉ ids) by (intros ?; apply (Hd b); [apply Hsub; by right|done]).
    rewrite !(sd_other _ _ _ _ _ _ H2), !(rl_links _ _ _ _ _ H1) by auto.
    split; (rewrite decide_True; [done|naive_solver]).
  - intros a b Ha Hbn Hc. rewrite (sd_other _ _ _ _ _ _ H2) by
      (try done; destruct Hc as [[?%not_elem_of_cons ?%not_elem_of_cons]|?]; naive_solver).
    rewrite (rl_links _ _ _ _ _ H1) by done.
    rewrite decide_False by (destruct Hc as [[?%not_elem_of_cons ?%not_elem_of_cons]|?]; naive_solver).
    rewrite decide_False by (destruct Hc as [[?%not_elem_of_cons ?%not_elem_of_cons]|?]; naive_solver).
    done.
Qed.

(** A partition is a partition: every server can send to every server of its
    own side (whether or not it was connected before) and to none of the other
    side; the servers of both sides are connected; ends to and from servers of
    neither side are as before. *)
Record parted n (p1 p2 : list nat) sg sg' : Prop := {
  pt_ok : grp_ok n sg';
  pt_srvs : srvs sg' = srvs sg;
  pt_up a : a ∈ p1 ∨ a ∈ p2 → up a sg' = true;
  pt_up_other a : (a < n)%nat → a ∉ p1 → a ∉ p2 → up a sg' = up a sg;
  pt_in1 a b : a ∈ p1 → b ∈ p1 → linked a b sg' = true;
  pt_in2 a b : a ∈ p2 → b ∈ p2 → linked a b sg' = true;
  pt_out a b : a ∈ p1 → b ∈ p2 → linked a b sg' = false ∧ linked b a sg' = false;
  pt_other a b : (a < n)%nat → (b < n)%nat → (a ∉ p1 ∧ a ∉ p2) ∨ (b ∉ p1 ∧ b ∉ p2) →
    linked a b sg' = linked a b sg;
}.

Lemma Partition_separates n p1 p2 sg :
  grp_ok n sg → (∀ j, j ∈ p1 ∨ j ∈ p2 → (j < n)%nat) → (∀ j, j ∈ p1 → j ∉ p2) →
  NoDup p1 → NoDup p2 →
  ∃ sg', Partition p1 p2 sg = Ret sg' ∧ parted n p1 p2 sg sg'.
Proof.
  intros Hok Hb Hd Hn1 Hn2. unfold Partition, partitionSide.
  destruct (side_fold n p1 p1 p2 sg Hok) as (sg1 & -> & H1); [done..|]. cbn [mbind outcome_bind].
  destruct (side_fold n p2 p2 p1 sg1 (sd_ok _ _ _ _ _ _ H1)) as (sg2 & Hrun & H2); [naive_solver..|].
  exists sg2. split; [done|]. split.
  - apply H2.
  - by rewrite (sd_srvs _ _ _ _ _ _ H2), (sd_srvs _ _ _ _ _ _ H1).
  - intros a Ha. destruct (decide (a ∈ p2)) as [Ha2|Ha2]; [by apply H2|].
    rewrite (sd_up_other _ _ _ _ _ _ H2) by auto. apply H1. tauto.
  - intros a Ha Ha1 Ha2. by rewrite (sd_up_other _ _ _ _ _ _ H2), (sd_up_other _ _ _ _ _ _ H1).
  - intros a b Ha Hb'. rewrite (sd_other _ _ _ _ _ _ H2) by auto.
    apply (sd_in _ _ _ _ _ _ H1); [done..|]. by apply (sd_up _ _ _ _ _ _ H1).
  - intros a b Ha Hb'. apply (sd_in _ _ _ _ _ _ H2); [done..|]. by apply (sd_up _ _ _ _ _ _ H2).
  - intros a b Ha Hb'. destruct (sd_out _ _ _ _ _ _ H2 b a Hb' Ha). done.
  - intros a b Ha Hbn Hc. rewrite (sd_other _ _ _ _ _ _ H2), (sd_other _ _ _ _ _ _ H1) by naive_solver.
    done.
Qed.

(** A group of three servers just made, whose ends have different names. *)
Definition three : ServerGrp :=
  default (mkServerGrp MakeNetwork 0 [] [] [])
    (match makeSrvGrp (λ _ _, "server"%string) 0 3
             [["00"; "01"; "02"]; ["10"; "11"; "12"]; ["20"; "21"; "22"]]%string MakeNetwork with
     | Ret sg => Some sg | Panic _ => None end).

Lemma three_ok : grp_ok 3 three.
Proof.
  split; [done|done| |].
  - apply Forall_lookup. vm_compute. repeat constructor.
  - apply (bool_decide_eq_true_1 (NoDup (concat (endNames <$> srvs three)))). vm_compute. reflexivity.
Qed.

(** ** The leader in the minority *)

(** The servers other than [l], in order. *)
Definition others (l : nat) (ids : list nat) : list nat := filter (λ i, i ≠ l) ids.

Lemma splitServers_spec (l : nat) ids (j : nat) (p1 p2 : list Z) :
  (j + length (others l ids) ≤ length p1 + length p2)%nat →
  ∃ r1 r2, splitServers (Z.of_nat l) ids (Z.of_nat j) p1 p2 = Ret (r1, r2) ∧
    length r1 = length p1 ∧ length r2 = length p2 ∧
    r1 ++ r2 = take j (p1 ++ p2) ++ (Z.of_nat <$> others l ids) ++
               drop (j + length (others l ids)) (p1 ++ p2).
Proof.
  revert j p1 p2. induction ids as [|i ids IH]; intros j p1 p2 Hlen; cbn [splitServers].
  { exists p1, p2. split_and!; try done. cbn. by rewrite Nat.add_0_r, take_drop. }
  unfold others in *. rewrite filter_cons in Hlen |- *.
  destruct (decide (i ≠ l)) as [Hi|Hi].
  2: { rewrite decide_False by lia. by apply IH. }
  rewrite decide_True by lia. cbn [length] in Hlen.
  assert (∀ r : list Z, length r = (length p1 + length p2)%nat → r = <[j := Z.of_nat i]> (p1 ++ p2) →
    take (S j) r ++ (Z.of_nat <$> filter (λ i, i ≠ l) ids) ++
      drop (S j + length (filter (λ i, i ≠ l) ids)) r =
    take j (p1 ++ p2) ++ (Z.of_nat <$> i :: filter (λ i, i ≠ l) ids) ++
      drop (j + length (i :: filter (λ i, i ≠ l) ids)) (p1 ++ p2)) as Happ.
  { intros r Hr ->.
    rewrite (take_S_r _ j (Z.of_nat i)) by (apply list_lookup_insert_eq; rewrite length_app; lia).
    rewrite take_insert_ge by lia. rewrite drop_insert_lt by lia. rewrite <-app_assoc. cbn. do 4 f_equal. lia. }
  case_decide as Hj.
  - unfold zlen in Hj. assert (store p1 (Z.of_nat j) (Z.of_nat i) = Ret (<[j := Z.of_nat i]> p1)) as ->.
    { apply store_Ret. unfold zlen. rewrite Nat2Z.id. split; [lia|done]. }
    cbn [mbind outcome_bind]. replace (Z.of_nat j + 1) with (Z.of_nat (S j)) by lia.
    destruct (IH (S j) (<[j := Z.of_nat i]> p1) p2) as (r1 & r2 & -> & L1 & L2 & Hr);
      [rewrite length_insert; lia|]. exists r1, r2. rewrite length_insert in L1. split_and!; try done.
    rewrite Hr. apply Happ; [by rewrite length_app, length_insert|]. by rewrite insert_app_l by lia.
  - unfold zlen in *. assert (store p2 (Z.of_nat j - Z.of_nat (length p1)) (Z.of_nat i) =
      Ret (<[(j - length p1)%nat := Z.of_nat i]> p2)) as ->.
    { apply store_Ret. unfold zlen. split; [lia|]. f_equal. lia. }
    cbn [mbind outcome_bind]. replace (Z.of_nat j + 1) with (Z.of_nat (S j)) by lia.
    destruct (IH (S j) p1 (<[(j - length p1)%nat := Z.of_nat i]> p2)) as (r1 & r2 & -> & L1 & L2 & Hr);
      [rewrite length_insert; lia|]. exists r1, r2. rewrite length_insert in L2. split_and!; try done.
    rewrite Hr. apply Happ; [by rewrite length_app, length_insert|]. by rewrite insert_app_r_alt by lia.
Qed.

Lemma others_id l xs : l ∉ xs → others l xs = xs.
Proof.
  intros H. induction xs as [|x xs IH]; [done|]. apply not_elem_of_cons in H as [Hx H].
  unfold others. rewrite filter_cons_True by congruence. f_equal. by apply IH.
Qed.

Lemma others_seq l n : (l < n)%nat → others l (seq 0 n) = seq 0 l ++ seq (S l) (n - S l).
Proof.
  intros Hl. replace n with (l + S (n - S l))%nat at 1 by lia. rewrite seq_app. unfold others.
  rewrite filter_app. cbn [Nat.add seq]. rewrite filter_cons_False by tauto. f_equal.
  - apply others_id. intros [? ?]%elem_of_seq. lia.
  - apply others_id. intros [? ?]%elem_of_seq. lia.
Qed.

Lemma others_length l n : (l < n)%nat → length (others l (seq 0 n)) = (n - 1)%nat.
Proof. intros Hl. rewrite others_seq, length_app, !length_seq by done. lia. Qed.

(** What [MakePartition] returns: with an even number of servers the minority
    has one slot too many, which keeps its initial value 0. *)
Lemma MakePartition_spec n l :
  (2 ≤ n)%nat → (l < n)%nat →
  ∃ p1 p2, MakePartition n (Z.of_nat l) = Ret (p1, p2) ∧
    length p1 = (n / 2 + 1)%nat ∧ length p2 = (n / 2)%nat ∧
    p1 ++ p2 = (Z.of_nat <$> others l (seq 0 n)) ++ (if Nat.even n then [0] else []) ++ [Z.of_nat l].
Proof.
  intros Hn Hl. pose proof (others_length l n Hl) as Hlen. unfold MakePartition.
  assert (n = 2 * (n / 2) + n mod 2)%nat as Hdiv by (apply Nat.div_mod_eq).
  assert (n mod 2 = if Nat.even n then 0 else 1)%nat as Hmod.
  { pose proof (Nat.even_spec n) as He. pose proof (Nat.mod_upper_bound n 2).
    destruct (Nat.even n) eqn:E.
    - destruct (proj1 He eq_refl) as [k ->]. rewrite Nat.mul_comm. by apply Nat.Div0.mod_mul.
    - rewrite <-Nat.negb_odd, negb_false_iff in E. apply Nat.odd_spec in E as [k ->].
      rewrite Nat.mul_comm, Nat.Div0.add_mod, Nat.Div0.mod_mul. done. }
  assert (n = 2 * (n / 2) + if Nat.even n then 0 else 1)%nat as Hn2 by (rewrite <-Hmod; exact Hdiv).
  clear Hdiv Hmod. generalize dependent (n / 2)%nat. intros h Hn2. change 0 with (Z.of_nat 0) at 1.
  destruct (splitServers_spec l (seq 0 n) 0 (replicate (h + 1) 0) (replicate h 0))
    as (r1 & r2 & -> & L1 & L2 & Hr).
  { rewrite Hlen, !length_replicate. destruct (Nat.even n); lia. }
  rewrite length_replicate in L1, L2. cbn [mbind outcome_bind fst snd].
  rewrite take_0, Nat.add_0_l, Hlen, <-replicate_add, drop_replicate in Hr. cbn in Hr.
  assert (1 ≤ h)%nat as Hh by (destruct (Nat.even n); lia).
  assert (store r2 (zlen r2 - 1) (Z.of_nat l) = Ret (<[(h - 1)%nat := Z.of_nat l]> r2)) as ->.
  { apply store_Ret. unfold zlen. rewrite L2. split; [lia|]. f_equal. lia. }
  cbn [mbind outcome_bind]. eexists _, _. split; [done|]. rewrite length_insert.
  split; [done|]. split; [done|].
  replace (h - 1)%nat with (h + (h + 1) - 1 - length r1)%nat by lia.
  rewrite <-insert_app_r_alt by lia. rewrite Hr.
  assert (length (Z.of_nat <$> others l (seq 0 n)) = (n - 1)%nat) as Hlz by (by rewrite length_fmap).
  rewrite insert_app_r_alt by (rewrite Hlz; destruct (Nat.even n); lia). f_equal. rewrite Hlz.
  destruct (Nat.even n).
  - replace (h + 1 + h - (n - 1))%nat with 2%nat by lia.
    by replace (h + (h + 1) - 1 - (n - 1))%nat with 1%nat by lia.
  - replace (h + 1 + h - (n - 1))%nat with 1%nat by lia.
    by replace (h + (h + 1) - 1 - (n - 1))%nat with 0%nat by lia.
Qed.

(** The sides as server numbers. *)
Definition sides (r : list Z * list Z) : list nat * list nat := (Z.to_nat <$> r.1, Z.to_nat <$> r.2).

(** The leader is cut off with a minority.  With an odd number of servers,
    at least three, [MakePartition(l)] splits all servers into a majority
    without [l] and a minority with [l]; after [Partition] of these sides the
    majority's servers can all reach each other and nobody reaches across. *)
Theorem leader_cut_off n l sg :
  grp_ok n sg → (3 ≤ n)%nat → Nat.odd n = true → (l < n)%nat →
  ∃ r sg', MakePartition n (Z.of_nat l) = Ret r ∧ Partition (sides r).1 (sides r).2 sg = Ret sg' ∧
    (sides r).1 ++ (sides r).2 = others l (seq 0 n) ++ [l] ∧
    length (sides r).1 = (n / 2 + 1)%nat ∧ l ∈ (sides r).2 ∧
    (∀ a b, a ∈ (sides r).1 → b ∈ (sides r).1 → linked a b sg' = true) ∧
    (∀ a b, a ∈ (sides r).1 → b ∈ (sides r).2 → linked a b sg' = false ∧ linked b a sg' = false).
Proof.
  intros Hok Hn Hodd Hl. destruct (MakePartition_spec n l) as (p1 & p2 & Hmk & L1 & L2 & Happ); [lia|done|].
  rewrite <-Nat.negb_odd, Hodd in Happ. cbn in Happ.
  assert (length p2 ≠ 0)%nat as Hp2.
  { rewrite L2. assert (2 / 2 ≤ n / 2)%nat as H2 by (apply Nat.Div0.div_le_mono; lia).
    change (2 / 2)%nat with 1%nat in H2. lia. }
  assert ((sides (p1, p2)).1 ++ (sides (p1, p2)).2 = others l (seq 0 n) ++ [l]) as Hall.
  { cbn. rewrite <-fmap_app, Happ, fmap_app. cbn. rewrite Nat2Z.id, <-list_fmap_compose. f_equal.
    rewrite <-(list_fmap_id (others l (seq 0 n))) at 2. apply list_fmap_ext. intros. cbn. lia. }
  assert (NoDup (others l (seq 0 n) ++ [l])) as Hnd.
  { apply NoDup_app. split_and!; [apply NoDup_filter, NoDup_seq| |apply NoDup_singleton].
    by intros x [? _]%list_elem_of_filter ->%list_elem_of_singleton. }
  pose proof Hnd as Hnd'. rewrite <-Hall in Hnd'. apply NoDup_app in Hnd' as (N1 & Hdis & N2).
  destruct (Partition_separates n (sides (p1, p2)).1 (sides (p1, p2)).2 sg Hok) as
    (sg' & Hrun & Hparted); [|done..|].
  { intros j Hj%elem_of_app. rewrite Hall in Hj.
    apply elem_of_app in Hj as [[_ Hj]%list_elem_of_filter| ->%list_elem_of_singleton]; [|done].
    apply elem_of_seq in Hj. lia. }
  exists (p1, p2), sg'. split_and!; try done; try apply Hparted.
  - cbn. by rewrite length_fmap.
  - assert (last ((sides (p1, p2)).1 ++ (sides (p1, p2)).2) = Some l) as Hlast.
    { rewrite Hall. apply last_snoc. }
    destruct (last (sides (p1, p2)).2) as [x|] eqn:E.
    + rewrite last_app, E in Hlast. injection Hlast as ->. by apply last_Some_elem_of in E.
    + apply last_None in E. cbn in E. by destruct p2.
Qed.

Lemma leader_cut_off_witness :
  ∃ r sg', MakePartition 3 1 = Ret r ∧ Partition (sides r).1 (sides r).2 three = Ret sg' ∧
    sides r = ([0; 2], [1])%nat ∧ linked 0 2 sg' = true ∧ linked 2 1 sg' = false.
Proof.
  destruct (leader_cut_off 3 1 three three_ok) as (r & sg' & Hmk & Hp & _ & _ & _ & Hin & Hout); [lia|done|lia|].
  assert (r = ([0; 2], [1])) as -> by (vm_compute in Hmk; congruence).
  exists ([0; 2], [1]), sg'. split_and!;
    [reflexivity|exact Hp|reflexivity|apply Hin; first [by left|right; by left]|].
  apply (Hout 2%nat 1%nat); first [by left|right; by left].
Defined.

(** With an even number of servers the sides overlap.  Of four servers with
    leader 1, [MakePartition] puts server 0 on both sides, and after
    [Partition] it can reach every server of both; of a single server it
    panics. *)
Theorem MakePartition_even_overlaps :
  MakePartition 4 1 = Ret ([0; 2; 3], [0; 1]) ∧ MakePartition 1 0 = Panic IndexRange.
Proof. split; reflexivity. Qed.
End partition.
