(* ===== verification/TestClnt.v ===== *)
(** * TestClnt: the clients of the test network

    Models [src/src/tester/clnts.go]: the clients the tester gives to clerks,
    each with its own ends of the simulated network ([RpcNet]), made when a
    server is first called and enabled for the servers the client may reach.

    Go visits a map in any order: the loops take the order of their visits as
    an argument, a list of the map's entries. *)

From S2P Require Import Prelude RpcNet.

(** The [net] of a client is the one state of the network, passed along; the
    [end] of a client is known by its name. *)
Record Clnt := mkClnt { clnt_ends : gmap string string; clnt_srvs : option (list string) }.

Definition makeClntTo (srvs : option (list string)) : Clnt := mkClnt ∅ srvs.

Fixpoint listed (server : string) (srvs : list string) : bool :=
  match srvs with
  | [] => false
  | n :: srvs => if decide (n = server) then true else listed server srvs
  end.

Definition allowedL (server : string) (clnt : Clnt) : bool :=
  match clnt_srvs clnt with None => true | Some srvs => listed server srvs end.

(** [name] is the random string drawn for a new end. *)
Definition makeEnd (server name : string) (clnt : Clnt) (rn : Network)
    : outcome (Clnt * Network * string) :=
  match clnt_ends clnt !! server with
  | Some e => Ret (clnt, rn, e)
  | None =>
      rn ← MakeEnd name rn;
      let rn := Connect name server rn in
      let rn := if allowedL server clnt then Enable name true rn else Enable name false rn in
      Ret (mkClnt (<[server := name]> (clnt_ends clnt)) (clnt_srvs clnt), rn, name)
  end.

(** A loop over the ends that enables or disables those with [f srv = Some yes]. *)
Fixpoint enableEach (f : string → option bool) (order : list (string * string)) (rn : Network) : Network :=
  match order with
  | [] => rn
  | (srv, e) :: order =>
      enableEach f order (match f srv with Some yes => Enable e yes rn | None => rn end)
  end.

Definition ClntConnectAll (order : list (string * string)) (clnt : Clnt) (rn : Network) : Clnt * Network :=
  (mkClnt (clnt_ends clnt) None, enableEach (λ _, Some true) order rn).

Definition ConnectTo (srvs : option (list string)) (order : list (string * string)) (clnt : Clnt)
    (rn : Network) : Clnt * Network :=
  let clnt := mkClnt (clnt_ends clnt) srvs in
  (clnt, enableEach (λ srv, if allowedL srv clnt then Some true else None) order rn).

Definition Disconnect (server : string) (order : list (string * string)) (clnt : Clnt) (rn : Network)
    : Clnt * Network :=
  (clnt, enableEach (λ srv, if decide (srv = server) then Some false else None) order rn).

Definition ClntDisconnectAll (order : list (string * string)) (clnt : Clnt) (rn : Network)
    : Clnt * Network :=
  (mkClnt (clnt_ends clnt) (Some []), enableEach (λ _, Some false) order rn).

Fixpoint removeEnds (order : list (string * string)) (rn : Network) : outcome Network :=
  match order with
  | [] => Ret rn
  | (_, e) :: order => rn ← DeleteEnd e rn; removeEnds order rn
  end.

(** ** The clients of a test: the allocated ones, and the set of live ones. *)
Record Clnts := mkClnts { clnt_heap : list Clnt; clerks : option (gset nat) }.

Definition makeClnts : Clnts := mkClnts [] (Some ∅).

Definition MakeClientTo (srvs : option (list string)) (cs : Clnts) : outcome (Clnts * nat) :=
  match clerks cs with
  | None => Panic NilMapWrite
  | Some live =>
      let p := length (clnt_heap cs) in
      Ret (mkClnts (clnt_heap cs ++ [makeClntTo srvs]) (Some ({[p]} ∪ live)), p)
  end.

Definition MakeClient (cs : Clnts) : outcome (Clnts * nat) := MakeClientTo None cs.

Definition remove (order : nat → list (string * string)) (p : nat) (rn : Network) : outcome Network :=
  removeEnds (order p) rn.

Definition DeleteClient (order : nat → list (string * string)) (p : nat) (cs : Clnts) (rn : Network)
    : outcome (Clnts * Network) :=
  match clerks cs with
  | None => Ret (cs, rn)
  | Some live =>
      if decide (p ∈ live) then
        rn ← remove order p rn; Ret (mkClnts (clnt_heap cs) (Some (live ∖ {[p]})), rn)
      else Ret (cs, rn)
  end.

Fixpoint removeAll (order : nat → list (string * string)) (ps : list nat) (rn : Network) : outcome Network :=
  match ps with
  | [] => Ret rn
  | p :: ps => rn ← remove order p rn; removeAll order ps rn
  end.

(** [cleanup]; the [DeleteEnd] of the network aborts on an end that is gone. *)
Definition cleanup (order : nat → list (string * string)) (ps : list nat) (cs : Clnts) (rn : Network)
    : outcome (Clnts * Network) :=
  rn ← removeAll order ps rn; Ret (mkClnts (clnt_heap cs) None, rn).

(** ** A client reaches exactly the servers it may *)

(** What a client does to the network; [CCall] is the part of [Call] before the
    request is sent. *)
Inductive ClntOp :=
| CCall (server name : string)
| CConnectAll (order : list (string * string))
| CConnectTo (srvs : option (list string)) (order : list (string * string))
| CDisconnectAll (order : list (string * string)).

Definition clntOp (op : ClntOp) (c : Clnt * Network) : outcome (Clnt * Network) :=
  match op with
  | CCall server name => r ← makeEnd server name c.1 c.2; Ret r.1
  | CConnectAll order => Ret (ClntConnectAll order c.1 c.2)
  | CConnectTo srvs order => Ret (ConnectTo srvs order c.1 c.2)
  | CDisconnectAll order => Ret (ClntDisconnectAll order c.1 c.2)
  end.

(** The order of a loop visits every end once. *)
Definition op_order (op : ClntOp) (c : Clnt * Network) : Prop :=
  match op with
  | CCall _ _ => True
  | CConnectAll order | CConnectTo _ order | CDisconnectAll order => order ≡ₚ map_to_list (clnt_ends c.1)
  end.

(** Histories of one client. *)
Inductive clnt_run (srvs : option (list string)) (rn : Network) : list ClntOp → Clnt * Network → Prop :=
| clnt_start : clnt_run srvs rn [] (makeClntTo srvs, rn)
| clnt_next ops op c c' :
    clnt_run srvs rn ops c → op_order op c → clntOp op c = Ret c' →
    clnt_run srvs rn (ops ++ [op]) c'.

Definition narrows (op : ClntOp) : bool := match op with CConnectTo _ _ => true | _ => false end.

(** The ends of a client belong to it and lead to their servers. *)
Record clnt_wf (c : Clnt * Network) : Prop := {
  cw_end srv e : clnt_ends c.1 !! srv = Some e → is_Some (ends c.2 !! e);
  cw_conn srv e : clnt_ends c.1 !! srv = Some e → connections c.2 !! e = Some (Some srv);
}.

Lemma enableEach_ends f order rn : ends (enableEach f order rn) = ends rn.
Proof.
  revert rn. induction order as [|[srv e] order IH]; intros rn; [done|]. cbn. rewrite IH. by destruct (f srv).
Qed.

Lemma enableEach_connections f order rn : connections (enableEach f order rn) = connections rn.
Proof.
  revert rn. induction order as [|[srv e] order IH]; intros rn; [done|]. cbn. rewrite IH. by destruct (f srv).
Qed.

Lemma enableEach_other f order rn e :
  e ∉ order.*2 → isEnabled e (enableEach f order rn) = isEnabled e rn.
Proof.
  revert rn. induction order as [|[srv e'] order IH]; intros rn; [done|]. cbn.
  intros [Hne Hin]%not_elem_of_cons. rewrite IH by done. destruct (f srv); [|done].
  unfold isEnabled, Enable. cbn. by rewrite lookup_insert_ne.
Qed.

Lemma enableEach_spec f order rn srv e :
  NoDup order.*2 → (srv, e) ∈ order →
  isEnabled e (enableEach f order rn) = default (isEnabled e rn) (f srv).
Proof.
  revert rn. induction order as [|[s e'] order IH]; intros rn; [by intros _ ?%elem_of_nil|].
  cbn. intros [Hnin Hnd]%NoDup_cons [[= -> ->]|Hin]%elem_of_cons.
  - rewrite enableEach_other by done. destruct (f s); [|done].
    unfold isEnabled, Enable. cbn. by rewrite lookup_insert_eq.
  - rewrite IH by done. destruct (f srv); [done|]. cbn. destruct (f s); [|done].
    unfold isEnabled, Enable. cbn. rewrite lookup_insert_ne; [done|]. intros ->.
    apply Hnin. apply list_elem_of_fmap. by exists (srv, e).
Qed.

(** Two servers of a client have different ends: an end leads to one server. *)
Lemma order_names c order :
  clnt_wf c → order ≡ₚ map_to_list (clnt_ends c.1) → NoDup order.*2.
Proof.
  intros Hwf Hperm. rewrite Hperm. apply NoDup_fmap_2_strong; [|apply NoDup_map_to_list].
  intros [s1 e1] [s2 e2] H1%elem_of_map_to_list H2%elem_of_map_to_list Heq. cbn in Heq. subst.
  pose proof (cw_conn _ Hwf _ _ H1) as C1. pose proof (cw_conn _ Hwf _ _ H2) as C2. congruence.
Qed.

Lemma loop_enabled c f order srv e :
  clnt_wf c → order ≡ₚ map_to_list (clnt_ends c.1) → clnt_ends c.1 !! srv = Some e →
  isEnabled e (enableEach f order c.2) = default (isEnabled e c.2) (f srv).
Proof.
  intros Hwf Hperm Hend. apply enableEach_spec; [by eapply order_names|].
  rewrite Hperm. by apply elem_of_map_to_list.
Qed.

Lemma makeEnd_cases server name clnt rn r :
  makeEnd server name clnt rn = Ret r →
  (clnt_ends clnt !! server = Some r.2 ∧ r.1 = (clnt, rn)) ∨
  (clnt_ends clnt !! server = None ∧ ends rn !! name = None ∧ r.2 = name ∧
   clnt_ends r.1.1 = <[server := name]> (clnt_ends clnt) ∧ clnt_srvs r.1.1 = clnt_srvs clnt ∧
   ends r.1.2 = <[name := mkClientEnd name None]> (ends rn) ∧
   connections r.1.2 = <[name := Some server]> (connections rn) ∧
   enabled r.1.2 = <[name := allowedL server clnt]> (enabled rn)).
Proof.
  unfold makeEnd. destruct (clnt_ends clnt !! server) as [e|].
  { intros [= <-]. by left. }
  intros (rn' & Hmk & [= <-])%bind_ret_inv. right. unfold MakeEnd in Hmk.
  destruct (ends rn !! name) eqn:He; [done|]. injection Hmk as <-.
  split_and!; try done; destruct (allowedL server clnt); try done; cbn; by rewrite insert_insert_eq.
Qed.

(** The invariant: with [exact], a server's end is enabled iff it is allowed;
    without, the ends of allowed servers are enabled. *)
Record clnt_inv (exact : bool) (c : Clnt * Network) : Prop := {
  ci_wf : clnt_wf c;
  ci_allowed srv e : clnt_ends c.1 !! srv = Some e → allowedL srv c.1 = true → isEnabled e c.2 = true;
  ci_exact srv e : exact = true → clnt_ends c.1 !! srv = Some e → allowedL srv c.1 = false →
    isEnabled e c.2 = false;
}.

Lemma clntOp_inv exact op c c' :
  clnt_inv exact c → op_order op c → (exact = true → narrows op = false) → clntOp op c = Ret c' →
  clnt_inv exact c'.
Proof.
  intros [Hwf Hall Hex] Hord Hnar Hop. destruct op as [server name|order|srvs order|order]; cbn in Hop.
  - apply bind_ret_inv in Hop as (r & Hr & [= <-]).
    destruct (makeEnd_cases _ _ _ _ _ Hr) as [[_ ->]|(Hnone & Hfresh & _ & He & Hs & Hen & Hco & Hena)];
      [by destruct c; split|].
    assert (∀ srv e, clnt_ends r.1.1 !! srv = Some e →
      (srv = server ∧ e = name) ∨ (srv ≠ server ∧ e ≠ name ∧ clnt_ends c.1 !! srv = Some e)) as Hcases.
    { intros srv e. rewrite He. destruct (decide (srv = server)) as [->|Hne].
      - rewrite lookup_insert_eq. intros [= <-]. by left.
      - rewrite lookup_insert_ne by done. intros Hl. right. split_and!; [done| |done]. intros ->.
        destruct (cw_end _ Hwf _ _ Hl) as [? Hl']. congruence. }
    assert (∀ srv, allowedL srv r.1.1 = allowedL srv c.1) as Ha.
    { intros srv. unfold allowedL. by rewrite Hs. }
    split; [split|..].
    + intros srv e [[-> ->]|(_ & Hne & Hl)]%Hcases; rewrite Hen.
      * by rewrite lookup_insert_eq.
      * rewrite lookup_insert_ne by done. by eapply cw_end.
    + intros srv e [[-> ->]|(_ & Hne & Hl)]%Hcases; rewrite Hco.
      * by rewrite lookup_insert_eq.
      * rewrite lookup_insert_ne by done. by eapply cw_conn.
    + intros srv e Hc. rewrite Ha. unfold isEnabled. rewrite Hena.
      destruct (Hcases _ _ Hc) as [[-> ->]|(_ & Hne & Hl)].
      * by rewrite lookup_insert_eq.
      * rewrite lookup_insert_ne by done. by apply Hall.
    + intros srv e Hx Hc. rewrite Ha. unfold isEnabled. rewrite Hena.
      destruct (Hcases _ _ Hc) as [[-> ->]|(_ & Hne & Hl)].
      * by rewrite lookup_insert_eq.
      * rewrite lookup_insert_ne by done. by apply Hex.
  - injection Hop as <-. split; [split|..]; cbn; rewrite ?enableEach_ends, ?enableEach_connections; try apply Hwf.
    + intros srv e He _. by rewrite (loop_enabled c _ _ srv) by done.
    + done.
  - injection Hop as <-. split; [split|..]; cbn; rewrite ?enableEach_ends, ?enableEach_connections; try apply Hwf.
    + intros srv e He Ha. rewrite (loop_enabled c _ _ srv) by done. by rewrite Ha.
    + intros srv e Hx. by specialize (Hnar Hx).
  - injection Hop as <-. split; [split|..]; cbn; rewrite ?enableEach_ends, ?enableEach_connections; try apply Hwf.
    + done.
    + intros srv e _ He _. by rewrite (loop_enabled c _ _ srv) by done.
Qed.

Lemma clnt_run_inv srvs rn ops c :
  clnt_run srvs rn ops c →
  clnt_inv (forallb (λ op, negb (narrows op)) ops) c.
Proof.
  induction 1 as [|ops op c c' Hrun IH Hord Hop].
  { split; [split|..]; cbn; intros; by rewrite lookup_empty in *. }
  eapply clntOp_inv; [|done| |done].
  - destruct IH as [Hwf Hall Hex]. split; [done|done|]. intros srv e Hx. apply Hex.
    rewrite forallb_app in Hx. by apply andb_true_iff in Hx as [? _].
  - rewrite forallb_app. intros [_ Hx]%andb_true_iff. cbn in Hx. by destruct (narrows op).
Qed.

(** A client reaches the servers it may reach.  In every history of a
    client, each of its ends leads to its own server and is enabled when the
    server is allowed; as long as [ConnectTo] was not used, it is enabled only
    then. *)
Theorem clnt_reaches_allowed srvs rn ops c srv e :
  clnt_run srvs rn ops c → clnt_ends c.1 !! srv = Some e →
  connections c.2 !! e = Some (Some srv) ∧
  (allowedL srv c.1 = true → isEnabled e c.2 = true) ∧
  (Forall (λ op, narrows op = false) ops → isEnabled e c.2 = allowedL srv c.1).
Proof.
  intros Hrun He. destruct (clnt_run_inv _ _ _ _ Hrun) as [Hwf Hall Hex].
  split; [by apply Hwf|]. split; [by apply Hall|]. intros Hnar.
  destruct (allowedL srv c.1) eqn:Ha; [by eapply Hall|]. eapply Hex; [|done..].
  apply forallb_forall. intros op Hin%list_elem_of_In. rewrite Forall_forall in Hnar. by rewrite Hnar.
Qed.

(** A client allowed to reach only ["a"] that calls ["a"] and ["b"]. *)
Definition two_calls : Clnt * Network :=
  match (c ← clntOp (CCall "a" "1") (makeClntTo (Some ["a"%string]), MakeNetwork);
         clntOp (CCall "b" "2") c) with
  | Ret c => c
  | Panic _ => (makeClntTo None, MakeNetwork)
  end.

Lemma clnt_reaches_allowed_witness :
  isEnabled "1" two_calls.2 = true ∧ isEnabled "2" two_calls.2 = false ∧
  connections two_calls.2 !! "2"%string = Some (Some "b"%string).
Proof.
  assert (clnt_run (Some ["a"%string]) MakeNetwork [CCall "a" "1"; CCall "b" "2"] two_calls) as Hrun.
  { eapply (clnt_next _ _ [_]); [eapply (clnt_next _ _ []); [constructor|done|reflexivity]|done|reflexivity]. }
  destruct (clnt_reaches_allowed _ _ _ _ "a" "1" Hrun) as (_ & Ha & _); [reflexivity|].
  destruct (clnt_reaches_allowed _ _ _ _ "b" "2" Hrun) as (Hc & _ & Hb); [reflexivity|].
  split; [by apply Ha|]. split; [|done]. rewrite Hb by (repeat constructor). reflexivity.
Defined.

(** [ConnectTo] does not disconnect.  A client that may reach every server
    and has called ["a"] is told to connect to no server at all; its end to
    ["a"] stays enabled. *)
Theorem ConnectTo_keeps_old_ends :
  ∃ c, clnt_run None MakeNetwork [CCall "a" "1"; CConnectTo (Some []) [("a", "1")%string]] c ∧
    clnt_ends c.1 !! "a"%string = Some "1"%string ∧ allowedL "a" c.1 = false ∧ isEnabled "1" c.2 = true.
Proof.
  eexists. split.
  - eapply (clnt_next _ _ [_]); [eapply (clnt_next _ _ []); [constructor|done|reflexivity]| |reflexivity].
    by vm_compute.
  - vm_compute. done.
Qed.
