(* ===== verification/Transport.v ===== *)
(** * Transport: messages over a byte stream

    Models [src/src/tester/demux/transport.go]: a message is written as its
    length, a little-endian [uint32], followed by its labgob encoding, and read
    back with [binary.Read] and [io.ReadFull].  A connection is the bytes that
    still arrive, after which reads report the end of the file. *)

From S2P Require Import Prelude.

(** ** Little-endian [uint32] (package [encoding/binary]) *)

Definition u32_mod : Z := 2 ^ 32.
Definition u32 (x : Z) : Z := x mod u32_mod.

Definition byte_of (z : Z) : Byte.byte := default x00 (Byte.of_N (Z.to_N (z mod 256))).
Definition byte_val (b : Byte.byte) : Z := Z.of_N (Byte.to_N b).

Definition le32 (x : Z) : bytes :=
  [byte_of x; byte_of (x / 256); byte_of (x / 65536); byte_of (x / 16777216)].

Definition of_le32 (b : bytes) : Z :=
  foldr (λ x acc, byte_val x + 256 * acc) 0 b.

Lemma byte_val_of z : byte_val (byte_of z) = z mod 256.
Proof.
  unfold byte_val, byte_of. pose proof (Z.mod_pos_bound z 256).
  destruct (Byte.of_N (Z.to_N (z mod 256))) as [b|] eqn:E; cbn.
  - apply Byte.to_of_N in E. lia.
  - apply Byte.of_N_None_iff in E. lia.
Qed.

Lemma of_le32_le32 x : 0 ≤ x < u32_mod → of_le32 (le32 x) = x.
Proof.
  intros Hx. unfold of_le32, le32, u32_mod in *. cbn [foldr]. rewrite !byte_val_of.
  pose proof (Z.div_mod x 256). pose proof (Z.div_mod (x / 256) 256). pose proof (Z.div_mod (x / 65536) 256).
  rewrite (Z.mod_small (x / 16777216)).
  - replace (x / 65536) with (x / 256 / 256) in * by (rewrite Z.div_div; done).
    replace (x / 16777216) with (x / 256 / 256 / 256) in * by (rewrite !Z.div_div; done). lia.
  - split; [apply Z.div_pos; lia|]. apply Z.div_lt_upper_bound; lia.
Qed.

(** ** Reading from a stream *)

Inductive ioErr := EOF | ErrUnexpectedEOF | ErrShortRead.

#[global] Instance ioErr_eq_dec : EqDecision ioErr.
Proof. solve_decision. Defined.

(** [io.ReadFull] of [n] bytes: what it read or its error, and the rest. *)
Definition ReadFull (n : nat) (s : bytes) : (bytes + ioErr) * bytes :=
  if decide (n ≤ length s)%nat then (inl (take n s), drop n s)
  else (inr (if decide (s = []) then EOF else ErrUnexpectedEOF), []).

(** ** The transport *)

Record msg := mkMsg { Tag : Z; Data : bytes; Ok : bool }.

Section transport.
Context `{!Codec msg}.

(** What [WriteCall] puts on the stream; [Flush] sends it at once. *)
Definition WriteCall (m : msg) : bytes :=
  let b := enc m in le32 (u32 (zlen b)) ++ b.

Definition ReadCall (s : bytes) : outcome ((msg + ioErr) * bytes) :=
  match ReadFull 4 s with
  | (inr e, s) => Ret (inr e, s)
  | (inl hdr, s) =>
      let nbyte := of_le32 hdr in
      match ReadFull (Z.to_nat nbyte) s with
      | (inr e, s) => Ret (inr e, s)
      | (inl b, s) =>
          if decide (zlen b ≠ nbyte) then Ret (inr ErrShortRead, s)
          else match dec b with
               | Some m => Ret (inl m, s)
               | None => Panic GobError
               end
      end
  end.

(** The loop of a reader: [ReadCall] until it reports an error. *)
Fixpoint readCalls (fuel : nat) (s : bytes) : option (outcome (list msg * ioErr)) :=
  match fuel with
  | O => None
  | S fuel =>
      match ReadCall s with
      | Panic f => Some (Panic f)
      | Ret (inr e, _) => Some (Ret ([], e))
      | Ret (inl m, s) =>
          match readCalls fuel s with
          | Some (Ret (ms, e)) => Some (Ret (m :: ms, e))
          | r => r
          end
      end
  end.

(** Messages whose length fits the header. *)
Definition sendable (m : msg) : Prop := zlen (enc m) < u32_mod.

Lemma ReadFull_app n s r : length s = n → ReadFull n (s ++ r) = (inl s, r).
Proof.
  intros <-. unfold ReadFull. rewrite decide_True by (rewrite length_app; lia).
  by rewrite take_app_length, drop_app_length.
Qed.

Lemma ReadFull_short n s :
  (length s < n)%nat → ∃ e, ReadFull n s = (inr e, []) ∧ e ≠ ErrShortRead.
Proof.
  intros Hlt. unfold ReadFull. rewrite decide_False by lia. eexists. split; [done|]. by case_decide.
Qed.

Lemma WriteCall_hdr m : sendable m → of_le32 (le32 (u32 (zlen (enc m)))) = zlen (enc m).
Proof.
  intros Hs. pose proof (zlen_nonneg (enc m)). unfold sendable, u32 in *.
  rewrite Z.mod_small by done. by apply of_le32_le32.
Qed.

Lemma ReadCall_WriteCall m s : sendable m → ReadCall (WriteCall m ++ s) = Ret (inl m, s).
Proof.
  intros Hs. unfold ReadCall, WriteCall. rewrite <-app_assoc, ReadFull_app by done.
  rewrite WriteCall_hdr by done. rewrite ReadFull_app by (unfold zlen; lia).
  rewrite decide_False by tauto. by rewrite dec_enc.
Qed.

(** A message of which only a part arrives is reported as an error. *)
Lemma ReadCall_cut m k :
  sendable m → (k < length (WriteCall m))%nat →
  ∃ e s, ReadCall (take k (WriteCall m)) = Ret (inr e, s) ∧ e ≠ ErrShortRead.
Proof.
  intros Hs Hk. unfold ReadCall. unfold WriteCall in *. rewrite length_app in Hk. cbn [length] in Hk.
  destruct (decide (k < 4)%nat) as [Hlt|Hge].
  - destruct (ReadFull_short 4 (take k (le32 (u32 (zlen (enc m))) ++ enc m))) as (e & -> & He);
      [rewrite length_take; lia|]. eauto.
  - rewrite take_app_ge by (cbn; lia). rewrite ReadFull_app by done. rewrite WriteCall_hdr by done.
    destruct (ReadFull_short (Z.to_nat (zlen (enc m))) (take (k - length (le32 (u32 (zlen (enc m))))) (enc m)))
      as (e & -> & He); [rewrite length_take; unfold zlen; cbn in *; lia|]. eauto.
Qed.

Definition writes (ms : list msg) : bytes := concat (WriteCall <$> ms).

(** C38: Framing.  If the bytes of a sequence of [WriteCall]s arrive up to any
    point and the connection then ends, a reader gets the messages that arrived
    in full, in order and unchanged, and then an error; it never stops the
    process, and it is the end of the file if every byte arrived. *)
Theorem transport_round_trip ms k :
  Forall sendable ms →
  ∃ n e, readCalls (S (length ms)) (take k (writes ms)) = Some (Ret (take n ms, e)) ∧
    (n ≤ length ms)%nat ∧ (length (writes (take n ms)) ≤ k)%nat ∧
    ((n < length ms)%nat → (k < length (writes (take (S n) ms)))%nat) ∧
    (n = length ms → e = EOF).
Proof.
  intros Hs. revert k. induction Hs as [|m ms Hm Hs IH]; intros k.
  { exists 0%nat, EOF. cbn. rewrite take_nil. cbn. split_and!; try done; lia. }
  set (fuel := S (length ms)) in *. cbn [length]. change (S (length ms)) with fuel.
  assert (writes (m :: ms) = WriteCall m ++ writes ms) as -> by done. cbn [readCalls].
  destruct (decide (k < length (WriteCall m))%nat) as [Hlt|Hge].
  - rewrite take_app_le by lia. destruct (ReadCall_cut m k Hm Hlt) as (e & s & -> & _).
    exists 0%nat, e. unfold writes. cbn [take fmap list_fmap concat length]. rewrite app_nil_r.
    split_and!; try done; lia.
  - rewrite take_app_ge, ReadCall_WriteCall by (done || lia).
    destruct (IH (k - length (WriteCall m))%nat) as (n & e & -> & Hn & Hlen & Hnext & He).
    exists (S n), e. cbn [take]. unfold writes in *. cbn [fmap list_fmap concat].
    rewrite !length_app. unfold fuel in *. cbn [length] in *.
    split_and!; try done; try lia. intros. apply He. lia.
Qed.
End transport.

#[global] Instance msg_eq_dec : EqDecision msg.
Proof. solve_decision. Defined.

#[global] Instance byte_countable : Countable Byte.byte.
Proof.
  refine (inj_countable Byte.to_N (λ n, Byte.of_N n) _). apply Byte.of_to_N.
Defined.

#[global] Instance msg_countable : Countable msg.
Proof.
  refine (inj_countable' (λ m, (Tag m, Data m, Ok m)) (λ '(t, d, o), mkMsg t d o) _). by intros [].
Defined.

Definition sent : list msg := [mkMsg 1 [x07] true; mkMsg 2 [] false].

Lemma transport_round_trip_witness :
  ∃ n e, @readCalls countable_codec 3 (take 10 (@writes countable_codec sent)) = Some (Ret (take n sent, e)).
Proof.
  destruct (@transport_round_trip countable_codec sent 10) as (n & e & H & _);
    [repeat constructor; vm_compute; reflexivity|by exists n, e].
Defined.
