(* ===== verification/Demux.v ===== *)
(** * Demux: many calls over one connection

    Models [src/src/tester/demux]: [callmap.go], [dmxclnt.go] and [dmxsrv.go].
    A client gives every call a tag, remembers in a map which channel waits for
    the tag, and sends the request; one goroutine reads the replies and hands
    each to the channel of its tag.  The server runs a goroutine per request.
    When the client's reader fails it closes the map and fails the calls that
    are still in it.

    Every goroutine is a program counter and every step between two lock
    operations is a label.  The two directions of the connection are queues of
    messages ([Transport] shows that a byte stream is one); a read may fail and
    a write may be lost at any moment. *)

From S2P Require Import Prelude Transport.

(** What the reader hands to a caller ([type reply]). *)
Record reply := mkReply { rep : bytes; oks : bool; err : option string }.

(** ** A call: [SendReceive] *)

Inductive CallPc :=
| CTag                       (* before [dmx.tag()] *)
| CPut (t : Z)               (* before [callmap.put] *)
| CWrite (t : Z)             (* before [trans.WriteCall] *)
| CWait (t : Z)              (* at [<-ch] *)
| CRet (t : Z) (r : reply).  (* returned *)

Record Call := mkCall { c_req : bytes; c_pc : CallPc }.

(** ** [callMap]: the channel of a call is known by the number of the call *)

Record callMap := mkCallMap { cm_closed : bool; calls : gmap Z nat }.

Definition newCallMap : callMap := mkCallMap false ∅.
Definition cm_close (cm : callMap) : callMap := mkCallMap true (calls cm).
Definition isClosed (cm : callMap) : bool := cm_closed cm.
Definition put (tag : Z) (ch : nat) (cm : callMap) : option string * callMap :=
  if cm_closed cm then (Some "conn closed"%string, cm)
  else (None, mkCallMap (cm_closed cm) (<[tag := ch]> (calls cm))).
Definition remove (tag : Z) (cm : callMap) : option nat * callMap :=
  match calls cm !! tag with
  | Some ch => (Some ch, mkCallMap (cm_closed cm) (delete tag (calls cm)))
  | None => (None, cm)
  end.
(** [outstanding] lists the tags in some order. *)
Definition is_outstanding (order : list Z) (cm : callMap) : Prop :=
  NoDup order ∧ list_to_set order = dom (calls cm).

(** ** The readers *)

(** The client's: [RSend ch r ts] is blocked at [ch <- reply]; [ts] are the tags
    it still has to fail, [None] while it reads. *)
Inductive Reader :=
| RReading
| RSend (ch : nat) (r : reply) (ts : option (list Z))
| RClosed                    (* left the loop, before [outstanding] *)
| RDrain (ts : list Z)
| RDone
| RFatal.                    (* log.Fatalf *)

(** The server's: [SInit] before the first message. *)
Inductive SReader := SInit | SReading | SBroken | SFatal.

(** A goroutine of the server for one request. *)
Inductive ServePc := SServe | SWrite (rep : bytes) (ok : bool) | SSent (rep : bytes) (ok : bool).
Record Serve := mkServe { s_tag : Z; s_req : bytes; s_pc : ServePc }.

Record Dmx := mkDmx {
  threads : list Call;
  nextTag : Z;
  callmap : callMap;
  rdr : Reader;
  closing : nat;             (* [Close] calls between the transport and the map *)
  cOpen : bool;              (* the client's end of the connection *)
  c2s : list msg;
  s2c : list msg;
  srdr : SReader;
  clntEnd : string;
  serves : list Serve;
  sClosed : bool;
  sOpen : bool;
}.

Definition set_threads x s := mkDmx x (nextTag s) (callmap s) (rdr s) (closing s) (cOpen s) (c2s s) (s2c s) (srdr s) (clntEnd s) (serves s) (sClosed s) (sOpen s).
Definition set_tag x s := mkDmx (threads s) x (callmap s) (rdr s) (closing s) (cOpen s) (c2s s) (s2c s) (srdr s) (clntEnd s) (serves s) (sClosed s) (sOpen s).
Definition set_callmap x s := mkDmx (threads s) (nextTag s) x (rdr s) (closing s) (cOpen s) (c2s s) (s2c s) (srdr s) (clntEnd s) (serves s) (sClosed s) (sOpen s).
Definition set_rdr x s := mkDmx (threads s) (nextTag s) (callmap s) x (closing s) (cOpen s) (c2s s) (s2c s) (srdr s) (clntEnd s) (serves s) (sClosed s) (sOpen s).
Definition set_closing x o s := mkDmx (threads s) (nextTag s) (callmap s) (rdr s) x o (c2s s) (s2c s) (srdr s) (clntEnd s) (serves s) (sClosed s) (sOpen s).
Definition set_c2s x s := mkDmx (threads s) (nextTag s) (callmap s) (rdr s) (closing s) (cOpen s) x (s2c s) (srdr s) (clntEnd s) (serves s) (sClosed s) (sOpen s).
Definition set_s2c x s := mkDmx (threads s) (nextTag s) (callmap s) (rdr s) (closing s) (cOpen s) (c2s s) x (srdr s) (clntEnd s) (serves s) (sClosed s) (sOpen s).
Definition set_srdr x s := mkDmx (threads s) (nextTag s) (callmap s) (rdr s) (closing s) (cOpen s) (c2s s) (s2c s) x (clntEnd s) (serves s) (sClosed s) (sOpen s).
Definition set_clntEnd x s := mkDmx (threads s) (nextTag s) (callmap s) (rdr s) (closing s) (cOpen s) (c2s s) (s2c s) (srdr s) x (serves s) (sClosed s) (sOpen s).
Definition set_serves x s := mkDmx (threads s) (nextTag s) (callmap s) (rdr s) (closing s) (cOpen s) (c2s s) (s2c s) (srdr s) (clntEnd s) x (sClosed s) (sOpen s).
Definition set_sclosed x o s := mkDmx (threads s) (nextTag s) (callmap s) (rdr s) (closing s) (cOpen s) (c2s s) (s2c s) (srdr s) (clntEnd s) (serves s) x o.

Definition set_cpc (i : nat) (b : bytes) (pc : CallPc) (s : Dmx) : Dmx :=
  set_threads (<[i := mkCall b pc]> (threads s)) s.
Definition set_spc (j : nat) (t : Z) (b : bytes) (pc : ServePc) (s : Dmx) : Dmx :=
  set_serves (<[j := mkServe t b pc]> (serves s)) s.

Section demux.
(** [type InitMsg struct { Clnt string }] *)
Context `{!Codec string}.

(** ** The client *)

Definition tag (s : Dmx) : Z * Dmx := (nextTag s, set_tag (u32 (nextTag s + 1)) s).

(** [NewDemuxClnt] with the server end that accepted the connection. *)
Definition NewDemuxClnt (clnt : string) : Dmx :=
  let '(t, s) := tag (mkDmx [] 0 newCallMap RReading 0 true [] [] SInit "" [] false true) in
  set_c2s [mkMsg t (enc clnt) true] s.

(** [DemuxClnt.reply], up to the blocking send; [ts] is where the reader goes on. *)
Definition reply_ (tag : Z) (r : reply) (ts : option (list Z)) (s : Dmx) : Dmx :=
  let '(ch, cm) := remove tag (callmap s) in
  match ch with
  | Some ch => set_rdr (RSend ch r ts) (set_callmap cm s)
  | None => set_rdr RFatal s
  end.

Definition resume (ts : option (list Z)) : Reader :=
  match ts with None => RReading | Some ts => RDrain ts end.

Inductive Label :=
| LCall (b : bytes)                      (* a new call of [SendReceive] *)
| LTag (i : nat) | LPut (i : nat) | LWrite (i : nat) (ok : bool)
| LRead | LReadErr | LOutstanding (order : list Z) | LDrain | LDeliver
| LClose | LCloseMap
| LSInit | LSInitErr
| LSRead | LSReadErr (eof : bool)
| LServe (j : nat) (rep : bytes) (ok : bool) | LSWrite (j : nat) (ok : bool)
| LSClose.

Definition callStep (l : Label) (s : Dmx) : option Dmx :=
  match l with
  | LCall b => Some (set_threads (threads s ++ [mkCall b CTag]) s)
  | LTag i =>
      c ← threads s !! i;
      match c_pc c with
      | CTag => let '(t, s) := tag s in Some (set_cpc i (c_req c) (CPut t) s)
      | _ => None
      end
  | LPut i =>
      c ← threads s !! i;
      match c_pc c with
      | CPut t =>
          let '(e, cm) := put t i (callmap s) in
          match e with
          | Some e => Some (set_cpc i (c_req c) (CRet t (mkReply [] false (Some e))) s)
          | None => Some (set_cpc i (c_req c) (CWrite t) (set_callmap cm s))
          end
      | _ => None
      end
  | LWrite i ok =>
      c ← threads s !! i;
      match c_pc c with
      | CWrite t =>
          let s := set_cpc i (c_req c) (CWait t) s in
          Some (if ok : bool then set_c2s (c2s s ++ [mkMsg t (c_req c) true]) s else s)
      | _ => None
      end
  | _ => None
  end.

Definition readStep (l : Label) (s : Dmx) : option Dmx :=
  match l, rdr s with
  | LRead, RReading =>
      match s2c s with
      | m :: rest => Some (reply_ (Tag m) (mkReply (Data m) (Ok m) None) None (set_s2c rest s))
      | [] => None
      end
  | LReadErr, RReading => Some (set_rdr RClosed (set_callmap (cm_close (callmap s)) s))
  | LOutstanding order, RClosed =>
      if decide (NoDup order ∧ list_to_set order = dom (calls (callmap s)))
      then Some (set_rdr (RDrain order) s) else None
  | LDrain, RDrain [] => Some (set_rdr RDone s)
  | LDrain, RDrain (t :: ts) =>
      Some (reply_ t (mkReply [] false (Some "reader reply fail"%string)) (Some ts) s)
  | LDeliver, RSend ch r ts =>
      c ← threads s !! ch;
      match c_pc c with
      | CWait t => Some (set_rdr (resume ts) (set_cpc ch (c_req c) (CRet t r) s))
      | _ => None
      end
  | _, _ => None
  end.

(** [Close]: the transport, then the map; nothing when the map is closed. *)
Definition closeStep (l : Label) (s : Dmx) : option Dmx :=
  match l with
  | LClose => if isClosed (callmap s) then Some s else Some (set_closing (S (closing s)) false s)
  | LCloseMap =>
      match closing s with
      | O => None
      | S n => Some (set_closing n (cOpen s) (set_callmap (cm_close (callmap s)) s))
      end
  | _ => None
  end.

(** ** The server *)

Definition setClosed (s : Dmx) : bool * Dmx := (sClosed s, set_sclosed true (sOpen s) s).

Definition srvStep (l : Label) (s : Dmx) : option Dmx :=
  match l, srdr s with
  | LSInit, SInit =>
      match c2s s with
      | m :: rest =>
          match dec (Data m) with
          | Some clnt => Some (set_srdr SReading (set_clntEnd clnt (set_c2s rest s)))
          | None => Some (set_srdr SFatal s)
          end
      | [] => None
      end
  | LSInitErr, SInit => Some (set_srdr SFatal s)
  | LSRead, SReading =>
      match c2s s with
      | m :: rest => Some (set_serves (serves s ++ [mkServe (Tag m) (Data m) SServe]) (set_c2s rest s))
      | [] => None
      end
  | LSReadErr eof, SReading =>
      let s := if eof : bool then (setClosed s).2 else s in Some (set_srdr SBroken s)
  | LServe j rep ok, _ =>
      v ← serves s !! j;
      match s_pc v with
      | SServe => Some (set_spc j (s_tag v) (s_req v) (SWrite rep ok) s)
      | _ => None
      end
  | LSWrite j sent, _ =>
      v ← serves s !! j;
      match s_pc v with
      | SWrite rep ok =>
          let s := set_spc j (s_tag v) (s_req v) (SSent rep ok) s in
          Some (if sent : bool then set_s2c (s2c s ++ [mkMsg (s_tag v) rep ok]) s else s)
      | _ => None
      end
  | LSClose, _ =>
      let '(c, s) := setClosed s in
      if c : bool then Some s else Some (set_sclosed true false s)
  | _, _ => None
  end.

Definition dstep (l : Label) (s : Dmx) : option Dmx :=
  match l with
  | LCall _ | LTag _ | LPut _ | LWrite _ _ => callStep l s
  | LRead | LReadErr | LOutstanding _ | LDrain | LDeliver => readStep l s
  | LClose | LCloseMap => closeStep l s
  | _ => srvStep l s
  end.

(** [handles clnt req (rep, ok)]: what [srv.ServeRequest] may answer. *)
Context (handles : string → bytes → bytes * bool → Prop).

(** The answers of a label are answers of the server. *)
Definition served (l : Label) (s : Dmx) : Prop :=
  match l with
  | LServe j rep ok => ∀ v, serves s !! j = Some v → handles (clntEnd s) (s_req v) (rep, ok)
  | _ => True
  end.

Inductive dmx_run (clnt : string) : Dmx → Prop :=
| dmx_start : dmx_run clnt (NewDemuxClnt clnt)
| dmx_next l s s' : dmx_run clnt s → served l s → dstep l s = Some s' → dmx_run clnt s'.
End demux.
