(* ===== verification/DemuxFacts.v ===== *)
(** * DemuxFacts: replies reach the calls they answer

    The invariant of a multiplexed connection ([Demux]), in four parts: the
    tags of the calls, the map of outstanding calls against the program counters
    of the callers and the reader, the messages under way, and the answers. *)

From S2P Require Import Prelude Transport Demux.

Section facts.
Context `{!Codec string}.
Context (handles : string → bytes → bytes * bool → Prop) (clnt : string).
Implicit Types (s : Dmx) (th : list Call) (cm : callMap) (c : Call) (v : Serve) (m : msg) (i j : nat) (t : Z).

(** ** Program counters *)

Definition tagged (pc : CallPc) (t : Z) : Prop :=
  match pc with CTag => False | CPut t' | CWrite t' | CWait t' | CRet t' _ => t' = t end.
Definition waiting (pc : CallPc) (t : Z) : Prop := pc = CWrite t ∨ pc = CWait t.
(** The request may be on the wire. *)
Definition posted (pc : CallPc) (t : Z) : Prop :=
  match pc with CWait t' | CRet t' _ => t' = t | _ => False end.

Lemma waiting_tagged pc t : waiting pc t → tagged pc t.
Proof. by intros [-> | ->]. Qed.
Lemma posted_tagged pc t : posted pc t → tagged pc t.
Proof. by destruct pc. Qed.

Definition has_tag (c : Call) : Prop := c_pc c ≠ CTag.
#[local] Instance has_tag_dec c : Decision (has_tag c).
Proof. unfold has_tag. destruct (c_pc c); (right; tauto) || (left; done). Defined.

(** ** 1. Tags *)

Record tags_ok th (next : Z) : Prop := {
  tg_next : next = 1 + Z.of_nat (length (filter has_tag th));
  tg_range i c t : th !! i = Some c → tagged (c_pc c) t → 1 ≤ t < next;
  tg_inj i j c d t : th !! i = Some c → th !! j = Some d → tagged (c_pc c) t → tagged (c_pc d) t → i = j;
}.

(** A step that keeps the tag of a call. *)
Lemma tags_step th next i c pc :
  tags_ok th next → th !! i = Some c → has_tag c → (∀ t, tagged pc t → tagged (c_pc c) t) → pc ≠ CTag →
  tags_ok (<[i := mkCall (c_req c) pc]> th) next.
Proof.
  intros [Hn Hr Hi] Hc Ht Hpc Hne.
  assert (∀ k d, <[i := mkCall (c_req c) pc]> th !! k = Some d →
    ∃ d', th !! k = Some d' ∧ ∀ t, tagged (c_pc d) t → tagged (c_pc d') t) as Hold.
  { intros k d [(<- & <- & _)|[_ Hk]]%list_lookup_insert_Some; eauto. }
  split.
  - pose proof (filter_insert_length has_tag th i c (mkCall (c_req c) pc) Hc) as Hf.
    rewrite !decide_True in Hf by done. lia.
  - intros k d t (d' & Hk & Ht')%Hold. eauto.
  - intros k k' d d' t (e & Hk & He)%Hold (e' & Hk' & He')%Hold. eauto.
Qed.

Lemma tags_new th next i c :
  tags_ok th next → th !! i = Some c → c_pc c = CTag →
  tags_ok (<[i := mkCall (c_req c) (CPut next)]> th) (next + 1).
Proof.
  intros [Hn Hr Hi] Hc Hpc.
  assert (∀ k d t, <[i := mkCall (c_req c) (CPut next)]> th !! k = Some d → tagged (c_pc d) t →
    (k = i ∧ t = next) ∨ (k ≠ i ∧ t ≠ next ∧ ∃ d', th !! k = Some d' ∧ tagged (c_pc d') t)) as Hold.
  { intros k d t [(<- & <- & _)|[Hne Hk]]%list_lookup_insert_Some Ht; [cbn in Ht; by left|]. right.
    split_and!; [done| |eauto]. pose proof (Hr _ _ _ Hk Ht). lia. }
  split.
  - pose proof (filter_insert_length has_tag th i c (mkCall (c_req c) (CPut next)) Hc) as Hf.
    rewrite decide_False in Hf by (unfold has_tag; tauto). rewrite decide_True in Hf by done. lia.
  - intros k d t Hk Ht. destruct (Hold k d t Hk Ht) as [[_ ->]|(_ & _ & d' & Hk' & Ht')]; [lia|].
    pose proof (Hr _ _ _ Hk' Ht'). lia.
  - intros k k' d d' t Hk Hk' Ht Ht'. destruct (Hold k d t Hk Ht) as [[-> ?]|(? & ? & e & ? & ?)],
      (Hold k' d' t Hk' Ht') as [[-> ?]|(? & ? & e' & ? & ?)]; eauto; done.
Qed.

Lemma tags_call th next b : tags_ok th next → tags_ok (th ++ [mkCall b CTag]) next.
Proof.
  intros [Hn Hr Hi].
  assert (∀ k d t, (th ++ [mkCall b CTag]) !! k = Some d → tagged (c_pc d) t → th !! k = Some d) as Hold.
  { intros k d t [Hk|[_ [_ <-]%list_lookup_singleton_Some]]%lookup_app_Some Ht; done. }
  split; eauto. rewrite filter_app. rewrite filter_cons_False by (unfold has_tag; tauto).
  by rewrite filter_nil, app_nil_r.
Qed.

(** ** 2. The map of calls, the callers and the reader *)

Record map_ok th cm (rd : Reader) : Prop := {
  mp_calls t i : calls cm !! t = Some i →
    (∃ c, th !! i = Some c ∧ waiting (c_pc c) t) ∧ ∀ r ts, rd ≠ RSend i r ts;
  mp_wait i c t : th !! i = Some c → waiting (c_pc c) t →
    calls cm !! t = Some i ∨ ∃ r ts, rd = RSend i r ts;
  mp_send i r ts : rd = RSend i r ts → ∃ c t, th !! i = Some c ∧ waiting (c_pc c) t;
  mp_sent i r : rd = RSend i r None → ∃ c t, th !! i = Some c ∧ c_pc c = CWait t;
  mp_state : match rd with
    | RReading | RSend _ _ None => True
    | RClosed => cm_closed cm = true
    | RDrain ts | RSend _ _ (Some ts) =>
        cm_closed cm = true ∧ NoDup ts ∧ list_to_set ts = dom (calls cm)
    | RDone => cm_closed cm = true ∧ calls cm = ∅
    | RFatal => False
    end;
}.

(** A step of a caller that does not wait before or after. *)
Lemma map_step th cm rd i c pc :
  map_ok th cm rd → th !! i = Some c → (∀ t, waiting (c_pc c) t ↔ waiting pc t) →
  (∀ t, c_pc c = CWait t → pc = CWait t) →
  map_ok (<[i := mkCall (c_req c) pc]> th) cm rd.
Proof.
  intros [Hc Hw Hs Hd' Hst] Hi Hpc Hkeep.
  assert (∀ k d t, th !! k = Some d → waiting (c_pc d) t →
    ∃ d', <[i := mkCall (c_req c) pc]> th !! k = Some d' ∧ waiting (c_pc d') t) as Hnew.
  { intros k d t Hk Hd. destruct (decide (k = i)) as [->|Hne].
    - exists (mkCall (c_req c) pc). rewrite list_lookup_insert_eq by (by eapply lookup_lt_Some).
      split; [done|]. apply Hpc. congruence.
    - exists d. by rewrite list_lookup_insert_ne. }
  split; [| | | |done].
  - intros t k Hk. destruct (Hc _ _ Hk) as [(d & Hd & Hwd) Hno]. split; [|done].
    destruct (Hnew _ _ _ Hd Hwd) as (d' & ? & ?). eauto.
  - intros k d t [(<- & <- & _)|[_ Hk]]%list_lookup_insert_Some Hd; [|by eapply Hw].
    eapply Hw; [exact Hi|]. by apply Hpc.
  - intros k r ts Hk. destruct (Hs _ _ _ Hk) as (d & t & Hd & Hwd).
    destruct (Hnew _ _ _ Hd Hwd) as (d' & ? & ?). eauto.
  - intros k r Hk. destruct (Hd' _ _ Hk) as (d & t & Hd & Hwd). destruct (decide (k = i)) as [->|Hne].
    + rewrite list_lookup_insert_eq by (by eapply lookup_lt_Some). rewrite Hi in Hd. injection Hd as <-. eauto.
    + rewrite list_lookup_insert_ne by done. eauto.
Qed.

Lemma map_call th cm rd b : map_ok th cm rd → map_ok (th ++ [mkCall b CTag]) cm rd.
Proof.
  intros [Hc Hw Hs Hd' Hst].
  assert (∀ k d, th !! k = Some d → (th ++ [mkCall b CTag]) !! k = Some d) as Hnew.
  { intros k d Hk. by apply lookup_app_l_Some. }
  split; [| | | |done].
  - intros t i Hi. destruct (Hc _ _ Hi) as [(c & ? & ?) ?]. eauto.
  - intros i c t [Hk|[_ [_ <-]%list_lookup_singleton_Some]]%lookup_app_Some Ht; [eauto|by destruct Ht].
  - intros i r ts Hi. destruct (Hs _ _ _ Hi) as (c & t & ? & ?). eauto.
  - intros i r Hi. destruct (Hd' _ _ Hi) as (c & t & ? & ?). eauto.
Qed.

(** [put] of a new tag. *)
Lemma map_put th cm rd next i c t :
  tags_ok th next → map_ok th cm rd → th !! i = Some c → c_pc c = CPut t → cm_closed cm = false →
  map_ok (<[i := mkCall (c_req c) (CWrite t)]> th) (mkCallMap false (<[t := i]> (calls cm))) rd.
Proof.
  intros Htags [Hc Hw Hs Hd' Hst] Hi Hpc Hcl.
  assert (∀ k d t', th !! k = Some d → waiting (c_pc d) t' → k ≠ i ∧ t' ≠ t) as Hne.
  { intros k d t' Hk Hd. split.
    - intros ->. rewrite Hi in Hk. injection Hk as <-. rewrite Hpc in Hd. by destruct Hd.
    - intros ->. assert (k = i) as -> by (eapply (tg_inj _ _ Htags); [exact Hk|exact Hi|by apply waiting_tagged|by rewrite Hpc]).
      rewrite Hi in Hk. injection Hk as <-. rewrite Hpc in Hd. by destruct Hd. }
  assert (∀ r ts, rd ≠ RSend i r ts) as Hnos.
  { intros r ts Hrd. destruct (Hs _ _ _ Hrd) as (d & t' & Hd & Hwd). by destruct (Hne _ _ _ Hd Hwd). }
  split; cbn [calls cm_closed].
  - intros t' k [[<- <-]|[Hn Hk]]%lookup_insert_Some.
    + split; [|done]. exists (mkCall (c_req c) (CWrite t)). split; [|by left].
      apply list_lookup_insert_eq. by eapply lookup_lt_Some.
    + destruct (Hc _ _ Hk) as [(d & Hd & Hwd) Hno]. split; [|done]. exists d.
      rewrite list_lookup_insert_ne; [done|]. intros <-. by destruct (Hne _ _ _ Hd Hwd).
  - intros k d t' [(<- & <- & _)|[Hn Hk]]%list_lookup_insert_Some Hd.
    + destruct Hd as [[= <-]|[=]]. left. apply lookup_insert_eq.
    + destruct (Hne _ _ _ Hk Hd) as [_ Ht']. rewrite lookup_insert_ne by done. by eapply Hw.
  - intros k r ts Hk. destruct (Hs _ _ _ Hk) as (d & t' & Hd & Hwd). exists d, t'.
    rewrite list_lookup_insert_ne; [done|]. intros <-. by destruct (Hne _ _ _ Hd Hwd).
  - intros k r Hk. destruct (Hd' _ _ Hk) as (d & t' & Hd & Hwd). exists d, t'.
    rewrite list_lookup_insert_ne; [done|]. intros <-. by eapply Hnos.
  - cbn. destruct rd as [|? ? [|]| | | |]; try done; destruct Hst; congruence.
Qed.

(** [remove] of an outstanding tag, by the reader, which then sends. *)
Lemma map_remove th cm rd t i r ts :
  map_ok th cm rd → calls cm !! t = Some i → (∀ k r ts, rd ≠ RSend k r ts) →
  match ts with None => True
  | Some ts => cm_closed cm = true ∧ NoDup (t :: ts) ∧ list_to_set (t :: ts) = dom (calls cm) end →
  (ts = None → ∃ c, th !! i = Some c ∧ c_pc c = CWait t) →
  map_ok th (mkCallMap (cm_closed cm) (delete t (calls cm))) (RSend i r ts).
Proof.
  intros [Hc Hw Hs Hd' Hst] Ht Hnos Hts Hsent. destruct (Hc _ _ Ht) as [(c & Hi & Hwc) _]. split; cbn.
  - intros t' k [Hn Hk]%lookup_delete_Some. destruct (Hc _ _ Hk) as [(d & Hd & Hwd) _].
    split; [eauto|]. intros r' ts' [= -> -> ->]. rewrite Hi in Hd. injection Hd as <-.
    destruct Hwc, Hwd; congruence.
  - intros k d t' Hk Hd. destruct (Hw _ _ _ Hk Hd) as [Hl|(? & ? & ->)]; [|by edestruct Hnos].
    destruct (decide (t' = t)) as [->|Hne].
    + right. exists r, ts. congruence.
    + left. by rewrite lookup_delete_ne.
  - intros k r' ts' [= <- <- <-]. eauto.
  - intros k r' [= <- <- ->]. destruct Hsent as (d & ? & ?); eauto.
  - destruct ts as [ts|]; [|done]. destruct Hts as (? & [Hnin Hnd]%NoDup_cons & Heq).
    split_and!; [done|done|]. rewrite dom_delete_L, <-Heq. cbn. set_solver.
Qed.

(** The reader goes on without sending. *)
Lemma map_reader th cm cm' rd rd' :
  map_ok th cm rd → (∀ k r ts, rd ≠ RSend k r ts) → (∀ k r ts, rd' ≠ RSend k r ts) →
  calls cm' = calls cm →
  match rd' with
  | RClosed => cm_closed cm' = true
  | RDrain ts => cm_closed cm' = true ∧ NoDup ts ∧ list_to_set ts = dom (calls cm')
  | RDone => cm_closed cm' = true ∧ calls cm' = ∅
  | RFatal => False
  | _ => True
  end → map_ok th cm' rd'.
Proof.
  intros [Hc Hw Hs Hd' Hst] Hno Hno' Heq Hst'. split; rewrite ?Heq.
  - intros t i Hi. by destruct (Hc _ _ Hi).
  - intros i c t Hi Hwc. destruct (Hw _ _ _ Hi Hwc) as [?|(? & ? & ?)]; [by left|by edestruct Hno].
  - intros i r ts Hr. by edestruct Hno'.
  - intros i r Hr. by edestruct Hno'.
  - destruct rd'; rewrite ?Heq in *; try done. by edestruct Hno'.
Qed.

(** The reply is handed over. *)
Lemma map_deliver th cm i r ts c t :
  map_ok th cm (RSend i r ts) → th !! i = Some c → c_pc c = CWait t →
  map_ok (<[i := mkCall (c_req c) (CRet t r)]> th) cm (resume ts).
Proof.
  intros [Hc Hw Hs Hd' Hst] Hi Hpc. split.
  - intros t' k Hk. destruct (Hc _ _ Hk) as [(d & Hd & Hwd) Hno]. split; [|by destruct ts].
    exists d. rewrite list_lookup_insert_ne; [done|]. intros <-. by eapply Hno.
  - intros k d t' [(<- & <- & _)|[Hn Hk]]%list_lookup_insert_Some Hd; [by destruct Hd|].
    destruct (Hw _ _ _ Hk Hd) as [?|(? & ? & [=])]; [by left|done].
  - by destruct ts.
  - by destruct ts.
  - destruct ts; [exact Hst|done].
Qed.

(** ** 3. The messages under way *)

Definition posted_by th t (b : bytes) : Prop :=
  ∃ i c, th !! i = Some c ∧ posted (c_pc c) t ∧ c_req c = b.
Definition answered (sv : list Serve) t (b r : bytes) (ok : bool) : Prop :=
  mkServe t b (SSent r ok) ∈ sv.
Definition unsent (pc : ServePc) : Prop := match pc with SSent _ _ => False | _ => True end.

(** The requests on the wire: the first message is the client's name. *)
Definition reqs s : list msg :=
  match srdr s with SInit | SFatal => tail (c2s s) | _ => c2s s end.

Definition reading (rd : Reader) : Prop :=
  match rd with RReading | RSend _ _ None => True | _ => False end.

Definition onwire (rq : list msg) (sv : list Serve) (sc : list msg) t : Prop :=
  t ∈ Tag <$> rq ∨ (∃ v, v ∈ sv ∧ s_tag v = t ∧ unsent (s_pc v)) ∨ t ∈ Tag <$> sc.

Record wire_ok th (cs : gmap Z nat) (rd : Reader) (rq : list msg) (sv : list Serve) (sc : list msg) : Prop := {
  w_reqs m : m ∈ rq → posted_by th (Tag m) (Data m);
  w_serves v : v ∈ sv → posted_by th (s_tag v) (s_req v);
  w_s2c m : m ∈ sc → ∃ b, answered sv (Tag m) b (Data m) (Ok m);
  w_once : NoDup ((Tag <$> rq) ++ (s_tag <$> sv));
  w_once_back : NoDup (Tag <$> sc);
  w_live t : reading rd → onwire rq sv sc t → is_Some (cs !! t);
}.

Lemma NoDup_fmap_eq {A B} (f : A → B) (l : list A) (x y : A) :
  NoDup (f <$> l) → x ∈ l → y ∈ l → f x = f y → x = y.
Proof.
  intros Hnd [i Hi]%list_elem_of_lookup [j Hj]%list_elem_of_lookup Heq.
  assert (i = j) as -> by (eapply (NoDup_lookup (f <$> l)); [done|rewrite list_lookup_fmap, Hi; done|
    rewrite list_lookup_fmap, Hj, Heq; done]). congruence.
Qed.

Lemma posted_step th i c pc t b :
  th !! i = Some c → (∀ t, posted (c_pc c) t → posted pc t) →
  posted_by th t b → posted_by (<[i := mkCall (c_req c) pc]> th) t b.
Proof.
  intros Hi Hpc (k & d & Hk & Hp & Hb). destruct (decide (k = i)) as [->|Hne].
  - exists i, (mkCall (c_req c) pc). rewrite list_lookup_insert_eq by (by eapply lookup_lt_Some).
    rewrite Hi in Hk. injection Hk as <-. split_and!; [done|by apply Hpc|done].
  - exists k, d. by rewrite list_lookup_insert_ne.
Qed.

(** Only the callers, the map and the reader change. *)
Lemma wire_mono th th' cs cs' rd rd' rq sv sc :
  wire_ok th cs rd rq sv sc → (∀ t b, posted_by th t b → posted_by th' t b) →
  (reading rd' → reading rd) → (∀ t, reading rd' → onwire rq sv sc t → is_Some (cs !! t) → is_Some (cs' !! t)) →
  wire_ok th' cs' rd' rq sv sc.
Proof. intros [] ???. split; eauto. Qed.

(** A request is written. *)
Lemma wire_write th cs rd rq sv sc next i c t :
  tags_ok th next → wire_ok th cs rd rq sv sc →
  th !! i = Some c → c_pc c = CWrite t → (reading rd → is_Some (cs !! t)) →
  wire_ok (<[i := mkCall (c_req c) (CWait t)]> th) cs rd (rq ++ [mkMsg t (c_req c) true]) sv sc.
Proof.
  intros Htags [Hrq Hsv Hsc Hnd Hnb Hlive] Hi Hpc Ht.
  assert (∀ b, posted_by th t b → False) as Hnew.
  { intros b (k & d & Hk & Hp & _). assert (k = i) as ->.
    { eapply (tg_inj _ _ Htags); [exact Hk|exact Hi|by apply posted_tagged|by rewrite Hpc]. }
    rewrite Hi in Hk. injection Hk as <-. by rewrite Hpc in Hp. }
  assert (∀ t' b, posted_by th t' b → posted_by (<[i := mkCall (c_req c) (CWait t)]> th) t' b) as Hmono.
  { intros t' b. apply posted_step; [done|]. by rewrite Hpc. }
  split; eauto.
  - intros m [Hm| ->%list_elem_of_singleton]%elem_of_app; [eauto|]. exists i, (mkCall (c_req c) (CWait t)).
    split_and!; [|done|done]. apply list_lookup_insert_eq. by eapply lookup_lt_Some.
  - rewrite fmap_app. cbn. rewrite <-app_assoc, (Permutation_app_comm [t]), app_assoc.
    apply NoDup_app. split_and!; [done| |apply NoDup_singleton].
    intros t' Ht' ->%list_elem_of_singleton. apply elem_of_app in Ht' as [Hin|Hin];
      apply list_elem_of_fmap in Hin as (x & -> & Hx); eauto.
  - intros t' Hr Hon. unfold onwire in Hon. rewrite fmap_app in Hon. cbn in Hon.
    destruct Hon as [[Hin| ->%list_elem_of_singleton]%elem_of_app|Hon]; [|by apply Ht|].
    + apply Hlive; [done|by left].
    + apply Hlive; [done|by right].
Qed.

(** A request is read by the server, which starts to serve it. *)
Lemma wire_sread th cs rd m rq sv sc :
  wire_ok th cs rd (m :: rq) sv sc →
  wire_ok th cs rd rq (sv ++ [mkServe (Tag m) (Data m) SServe]) sc.
Proof.
  intros [Hrq Hsv Hsc Hnd Hnb Hlive]. split; eauto.
  - intros m' Hm'. apply Hrq. by right.
  - intros v [Hv| ->%list_elem_of_singleton]%elem_of_app; [eauto|]. apply Hrq. by left.
  - intros m' Hm'. destruct (Hsc _ Hm') as [b Hb]. exists b. apply elem_of_app. by left.
  - rewrite fmap_app. cbn. by rewrite app_assoc, <-Permutation_cons_append.
  - intros t Hr Hon. apply Hlive; [done|]. unfold onwire in *. cbn. rewrite elem_of_cons.
    setoid_rewrite elem_of_app in Hon. setoid_rewrite list_elem_of_singleton in Hon.
    destruct Hon as [?|[(v & [Hv| ->] & Ht & Hu)|?]]; eauto 6.
Qed.

(** The server goroutine [j] goes on. *)
Lemma wire_serve th cs rd rq sv sc j v pc :
  wire_ok th cs rd rq sv sc → sv !! j = Some v → unsent (s_pc v) →
  wire_ok th cs rd rq (<[j := mkServe (s_tag v) (s_req v) pc]> sv) sc.
Proof.
  intros [Hrq Hsv Hsc Hnd Hnb Hlive] Hj Hu. set (v' := mkServe (s_tag v) (s_req v) pc).
  assert (v ∈ sv) as Hv by (by eapply list_elem_of_lookup_2).
  assert (∀ w, w ∈ <[j := v']> sv → w = v' ∨ w ∈ sv) as Hold.
  { intros w [k [(_ & <- & _)|[_ Hk]]%list_lookup_insert_Some]%list_elem_of_lookup; [by left|].
    right. by eapply list_elem_of_lookup_2. }
  assert (∀ w, w ∈ sv → ¬ unsent (s_pc w) → w ∈ <[j := v']> sv) as Hnew.
  { intros w [k Hk]%list_elem_of_lookup Hw. eapply (list_elem_of_lookup_2 _ k).
    rewrite list_lookup_insert_ne; [done|]. intros ->. congruence. }
  split; eauto.
  - intros w [-> |Hw]%Hold; [by apply (Hsv v)|eauto].
  - intros m Hm. destruct (Hsc _ Hm) as [b Hb]. exists b. apply Hnew; [done|]. cbn. tauto.
  - rewrite list_fmap_insert. cbn. rewrite list_insert_id; [done|]. by rewrite list_lookup_fmap, Hj.
  - intros t Hr Hon. apply Hlive; [done|]. destruct Hon as [?|[(w & [-> |Hw]%Hold & <- & Hu')|?]].
    + by left.
    + right. left. eauto.
    + right. left. eauto.
    + by right; right.
Qed.

(** Its answer is written. *)
Lemma wire_swrite th cs rd rq sv sc j v r ok :
  wire_ok th cs rd rq sv sc → sv !! j = Some v → s_pc v = SWrite r ok →
  wire_ok th cs rd rq (<[j := mkServe (s_tag v) (s_req v) (SSent r ok)]> sv) (sc ++ [mkMsg (s_tag v) r ok]).
Proof.
  intros Hw Hj Hpc. assert (v ∈ sv) as Hv by (by eapply list_elem_of_lookup_2).
  destruct (wire_serve _ _ _ _ _ _ _ _ (SSent r ok) Hw Hj) as [Hrq Hsv Hsc Hnd Hnb Hlive]; [by rewrite Hpc|].
  split; eauto.
  - intros m [Hm| ->%list_elem_of_singleton]%elem_of_app; [eauto|]. exists (s_req v).
    eapply (list_elem_of_lookup_2 _ j). apply list_lookup_insert_eq. by eapply lookup_lt_Some.
  - rewrite fmap_app. cbn. apply NoDup_app. split_and!; [done| |apply NoDup_singleton].
    intros t (m & -> & Hm)%list_elem_of_fmap Heq%list_elem_of_singleton.
    destruct (w_s2c _ _ _ _ _ _ Hw _ Hm) as [b Hb].
    pose proof (w_once _ _ _ _ _ _ Hw) as (_ & _ & Hnd')%NoDup_app.
    assert (mkServe (Tag m) b (SSent (Data m) (Ok m)) = v) as <- by (by eapply (NoDup_fmap_eq s_tag)).
    done.
  - intros t Hr Hon. unfold onwire in Hon. rewrite fmap_app in Hon. cbn in Hon.
    destruct Hon as [?|[?|[?| ->%list_elem_of_singleton]%elem_of_app]].
    + apply Hlive; [done|by left].
    + apply Hlive; [done|by right; left].
    + apply Hlive; [done|by right; right].
    + apply (w_live _ _ _ _ _ _ Hw); [done|]. right. left. exists v. by rewrite Hpc.
Qed.

(** An answer is read by the client. *)
Lemma wire_read th cs rd rd' rq sv m sc :
  wire_ok th cs rd rq sv (m :: sc) → reading rd →
  wire_ok th (delete (Tag m) cs) rd' rq sv sc.
Proof.
  intros Hw Hrd. destruct Hw as [Hrq Hsv Hsc Hnd Hnb Hlive]. cbn in Hnb.
  apply NoDup_cons in Hnb as [Hnin Hnb]. split; eauto.
  - intros m' Hm'. apply Hsc. by right.
  - intros t _ Hon. destruct (Hsc m) as [b Hb]; [by left|].
    assert (t ≠ Tag m) as Hne.
    { intros ->. apply NoDup_app in Hnd as (_ & Hdis & Hnd). destruct Hon as [Hin|[(v & Hv & Ht & Hu)|Hin]].
      - apply (Hdis _ Hin). apply list_elem_of_fmap. eexists. by split; [|exact Hb].
      - assert (v = mkServe (Tag m) b (SSent (Data m) (Ok m))) as -> by (by eapply (NoDup_fmap_eq s_tag)).
        done.
      - done. }
    rewrite lookup_delete_ne by done. apply Hlive; [done|]. unfold onwire in *. cbn. rewrite elem_of_cons.
    naive_solver.
Qed.

(** ** 4. The answers *)

Definition answer (sv : list Serve) t (b : bytes) (r : reply) : Prop :=
  err r = None → answered sv t b (rep r) (oks r).

Record answers_ok th (rd : Reader) (sv : list Serve) : Prop := {
  an_ret i c t r : th !! i = Some c → c_pc c = CRet t r → answer sv t (c_req c) r;
  an_send i r ts c t : rd = RSend i r ts → th !! i = Some c → waiting (c_pc c) t → answer sv t (c_req c) r;
}.

Lemma answers_step th rd sv i c pc :
  answers_ok th rd sv → th !! i = Some c →
  (∀ t r ts, waiting pc t → rd = RSend i r ts → waiting (c_pc c) t) →
  (∀ t r, pc = CRet t r → answer sv t (c_req c) r) →
  answers_ok (<[i := mkCall (c_req c) pc]> th) rd sv.
Proof.
  intros [Hr Hs] Hi Hw Hret. split.
  - intros k d t r [(<- & <- & _)|[_ Hk]]%list_lookup_insert_Some Hpc; [by apply Hret|eauto].
  - intros k r ts d t Hrd [(<- & <- & _)|[_ Hk]]%list_lookup_insert_Some Hd; [|eauto].
    exact (Hs i r ts c t Hrd Hi (Hw _ _ _ Hd Hrd)).
Qed.

Lemma answers_serves th rd sv sv' :
  answers_ok th rd sv → (∀ t b r ok, answered sv t b r ok → answered sv' t b r ok) →
  answers_ok th rd sv'.
Proof. intros [Hr Hs] Hm. split; unfold answer in *; eauto. Qed.

Lemma answers_reader th rd rd' sv :
  answers_ok th rd sv →
  (∀ i r ts c t, rd' = RSend i r ts → th !! i = Some c → waiting (c_pc c) t → answer sv t (c_req c) r) →
  answers_ok th rd' sv.
Proof. intros [Hr Hs] Hn. split; eauto. Qed.

(** ** The server's end *)

Record srv_ok s : Prop := {
  so_init : match srdr s with
    | SInit | SFatal => (∃ rest, c2s s = mkMsg 0 (enc clnt) true :: rest) ∧ serves s = []
    | _ => clntEnd s = clnt
    end;
  so_handled v : v ∈ serves s →
    match s_pc v with SServe => True | SWrite r ok | SSent r ok => handles clnt (s_req v) (r, ok) end;
}.

(** ** The invariant *)

Record inv s : Prop := {
  in_tags : tags_ok (threads s) (nextTag s);
  in_map : map_ok (threads s) (callmap s) (rdr s);
  in_wire : wire_ok (threads s) (calls (callmap s)) (rdr s) (reqs s) (serves s) (s2c s);
  in_answers : answers_ok (threads s) (rdr s) (serves s);
  in_srv : srv_ok s;
}.

(** Fewer calls than tags. *)
Definition few_calls s : Prop := Z.of_nat (length (threads s)) + 1 < u32_mod.

Lemma inv_init : inv (NewDemuxClnt clnt).
Proof.
  split.
  - split; [done|by intros i c t H..].
  - split; cbn; [intros t i H; by rewrite lookup_empty in H|by intros i c t H|done..].
  - split; cbn; try (by intros ? ?%elem_of_nil); try apply NoDup_nil_2.
    intros t _ [[]%elem_of_nil|[(v & []%elem_of_nil & _)|[]%elem_of_nil]].
  - split; [by intros i c t r H|done].
  - split; cbn; [by split; [exists []|]|by intros ? ?%elem_of_nil].
Qed.

Lemma waiting_CWrite t t' : waiting (CWrite t) t' ↔ t' = t.
Proof. split; [by intros [[= ->]|[=]]|intros ->; by left]. Qed.
Lemma waiting_CWait t t' : waiting (CWait t) t' ↔ t' = t.
Proof. split; [by intros [[=]|[= ->]]|intros ->; by right]. Qed.

Lemma inv_callStep l s s' : inv s → few_calls s → callStep l s = Some s' → inv s'.
Proof.
  intros [Ht Hm Hw Ha [Hsi Hsh]] Hfew Hstep. destruct l as [b|i|i|i ok| | | | | | | | | | | | | |]; try done; cbn in Hstep.
  - injection Hstep as <-. split; cbn; [by apply tags_call|by apply map_call| | |done].
    + eapply wire_mono; [exact Hw| |done|done]. intros t b' (k & c & Hk & ?). exists k, c.
      by rewrite lookup_app_l by (by eapply lookup_lt_Some).
    + destruct Ha as [Hr Hs]. split.
      * intros k c t r [Hk|[_ [_ <-]%list_lookup_singleton_Some]]%lookup_app_Some; [eauto|done].
      * intros k r ts c t Hrd [Hk|[_ [_ <-]%list_lookup_singleton_Some]]%lookup_app_Some Hwc; [eauto|].
        by destruct Hwc.
  - apply bind_Some in Hstep as (c & Hi & Hstep). destruct (c_pc c) eqn:Hpc; try done. injection Hstep as <-.
    assert (u32 (nextTag s + 1) = nextTag s + 1) as Hu.
    { apply Z.mod_small. rewrite (tg_next _ _ Ht). pose proof (length_filter_lt has_tag (threads s) c) as Hlt.
      assert (c ∈ threads s) as Hin by (by eapply list_elem_of_lookup_2).
      assert (¬ has_tag c) as Hno by (unfold has_tag; tauto). specialize (Hlt Hin Hno).
      unfold few_calls in Hfew. lia. }
    split; cbn; rewrite ?Hu; [by apply tags_new| | | |done].
    + apply map_step; [done|done|rewrite Hpc; by intros t; split; intros [|]|by rewrite Hpc].
    + eapply wire_mono; [exact Hw| |done|done]. intros t b. apply posted_step; [done|]. by rewrite Hpc.
    + apply answers_step; [done|done|by intros t r ts [|]|done].
  - apply bind_Some in Hstep as (c & Hi & Hstep). destruct (c_pc c) as [|t| | |] eqn:Hpc; try done.
    unfold put in Hstep. assert (has_tag c) as Hhas by (unfold has_tag; by rewrite Hpc).
    destruct (cm_closed (callmap s)) eqn:Hcl; injection Hstep as <-.
    + split; cbn; [| | | |done].
      * eapply tags_step; [done|done|done|by rewrite Hpc|done].
      * apply map_step; [done|done|rewrite Hpc; by intros t'; split; intros [|]|by rewrite Hpc].
      * eapply wire_mono; [exact Hw| |done|done]. intros t' b. apply posted_step; [done|]. by rewrite Hpc.
      * apply answers_step; [done|done|by intros t' r ts [|]|]. by intros t' r [= <- <-].
    + split; cbn; [| | | |done].
      * eapply tags_step; [done|done|done|by rewrite Hpc|done].
      * by eapply map_put.
      * eapply wire_mono; [exact Hw| |done|].
        -- intros t' b. apply posted_step; [done|]. by rewrite Hpc.
        -- intros t' _ _ [x Hx]. destruct (decide (t' = t)) as [->|Hne].
           ++ by rewrite lookup_insert_eq.
           ++ by rewrite lookup_insert_ne.
      * apply answers_step; [done|done| |done]. intros t' r ts _ Hrd.
        destruct (mp_send _ _ _ Hm _ _ _ Hrd) as (d & t'' & Hd & Hwd). rewrite Hi in Hd. injection Hd as <-.
        rewrite Hpc in Hwd. by destruct Hwd.
  - apply bind_Some in Hstep as (c & Hi & Hstep). destruct (c_pc c) as [| |t| |] eqn:Hpc; try done.
    assert (has_tag c) as Hhas by (unfold has_tag; by rewrite Hpc).
    assert (tags_ok (<[i := mkCall (c_req c) (CWait t)]> (threads s)) (nextTag s)) as Ht'.
    { eapply tags_step; [done|done|done|by rewrite Hpc|done]. }
    assert (map_ok (<[i := mkCall (c_req c) (CWait t)]> (threads s)) (callmap s) (rdr s)) as Hm'.
    { apply map_step; [done|done|intros t'; by rewrite Hpc, waiting_CWrite, waiting_CWait|by rewrite Hpc]. }
    assert (answers_ok (<[i := mkCall (c_req c) (CWait t)]> (threads s)) (rdr s) (serves s)) as Ha'.
    { apply answers_step; [done|done| |done]. intros t' r ts. by rewrite Hpc, waiting_CWrite, waiting_CWait. }
    destruct ok; injection Hstep as <-.
    + split; cbn; [done|done| |done|].
      * assert (reqs (set_c2s (c2s s ++ [mkMsg t (c_req c) true]) (set_cpc i (c_req c) (CWait t) s)) =
          reqs s ++ [mkMsg t (c_req c) true]) as ->.
        { unfold reqs. cbn. destruct (srdr s); try done; by destruct Hsi as [[rest ->] _]. }
        eapply wire_write; [exact Ht|done|done|done|]. intros Hrd.
        destruct (mp_wait _ _ _ Hm i c t Hi) as [?|(r & [ts|] & Hsend)]; [rewrite Hpc; by left|done|by rewrite Hsend in Hrd|].
        destruct (mp_sent _ _ _ Hm _ _ Hsend) as (d & t' & Hd & Hpc'). congruence.
      * split; [|exact Hsh]. cbn. destruct (srdr s); try done; destruct Hsi as [[rest ->] ?]; eauto.
    + split; cbn; [done|done| |done|done]. eapply wire_mono; [exact Hw| |done|done]. intros t' b.
      apply posted_step; [done|]. by rewrite Hpc.
Qed.

(** The reader removes a tag that is outstanding and blocks at the channel. *)
Lemma reply_spec s t i r ts :
  calls (callmap s) !! t = Some i →
  reply_ t r ts s =
    set_rdr (RSend i r ts) (set_callmap (mkCallMap (cm_closed (callmap s)) (delete t (calls (callmap s)))) s).
Proof. intros Ht. unfold reply_, remove. by rewrite Ht. Qed.

Lemma inv_read s m rest :
  inv s → rdr s = RReading → s2c s = m :: rest →
  inv (reply_ (Tag m) (mkReply (Data m) (Ok m) None) None (set_s2c rest s)).
Proof.
  intros [Ht Hm Hw Ha Hso] Hrd Hs2c. rewrite Hrd, Hs2c in *.
  destruct (w_live _ _ _ _ _ _ Hw (Tag m)) as [i Hi]; [done|right; right; by left|].
  destruct (mp_calls _ _ _ Hm _ _ Hi) as [(c & Hc & Hwc) _].
  destruct (w_s2c _ _ _ _ _ _ Hw m) as [b Hb]; [by left|].
  destruct (w_serves _ _ _ _ _ _ Hw _ Hb) as (k & d & Hk & Hp & Hreq). cbn in Hp, Hreq.
  assert (k = i) as -> by (eapply (tg_inj _ _ Ht); [done|done|by apply posted_tagged|by apply waiting_tagged]).
  rewrite Hc in Hk. injection Hk as <-.
  assert (c_pc c = CWait (Tag m)) as Hpc by (by destruct Hwc as [Hpc|Hpc]; rewrite Hpc in Hp).
  rewrite (reply_spec _ _ i) by done. split; cbn; [done| | | |by destruct Hso].
  - eapply map_remove; eauto.
  - by eapply wire_read.
  - eapply answers_reader; [done|]. intros k r ts d t [= <- <- <-] Hd Hwd _. cbn.
    rewrite Hc in Hd. injection Hd as <-. rewrite Hpc, waiting_CWait in Hwd. by subst.
Qed.

Lemma inv_drain s t ts :
  inv s → rdr s = RDrain (t :: ts) →
  inv (reply_ t (mkReply [] false (Some "reader reply fail"%string)) (Some ts) s).
Proof.
  intros [Ht Hm Hw Ha Hso] Hrd. rewrite Hrd in *. destruct (mp_state _ _ _ Hm) as (Hcl & Hnd & Hdom).
  assert (is_Some (calls (callmap s) !! t)) as [i Hi].
  { apply elem_of_dom. rewrite <-Hdom. set_solver. }
  rewrite (reply_spec _ _ i) by done. split; cbn; [done| | | |by destruct Hso].
  - eapply map_remove; eauto. done.
  - by eapply wire_mono.
  - eapply answers_reader; [done|]. by intros k r ts' d t' [= <- <- <-].
Qed.

Lemma inv_readStep l s s' : inv s → readStep l s = Some s' → inv s'.
Proof.
  intros Hinv Hstep. destruct l as [| | | | | |order| | | | | | | | | | |]; try done;
    unfold readStep in Hstep; destruct (rdr s) as [|ch r ts| |[|t ts]| |] eqn:Hrd; try done.
  - destruct (s2c s) as [|m rest] eqn:Hs2c; [done|]. injection Hstep as <-. by apply inv_read.
  - injection Hstep as <-. destruct Hinv as [Ht Hm Hw Ha Hso]. rewrite Hrd in *.
    split; cbn; [done| | | |by destruct Hso].
    + by eapply map_reader.
    + by eapply wire_mono.
    + by eapply answers_reader.
  - case_decide as Hd; [|done]. injection Hstep as <-. destruct Hinv as [Ht Hm Hw Ha Hso]. rewrite Hrd in *.
    split; cbn; [done| | | |by destruct Hso].
    + pose proof (mp_state _ _ _ Hm). by eapply map_reader.
    + by eapply wire_mono.
    + by eapply answers_reader.
  - injection Hstep as <-. destruct Hinv as [Ht Hm Hw Ha Hso]. rewrite Hrd in *.
    split; cbn; [done| | | |by destruct Hso].
    + destruct (mp_state _ _ _ Hm) as (? & _ & Hst). eapply map_reader; try done. split; [done|].
      apply dom_empty_inv_L. by rewrite <-Hst.
    + by eapply wire_mono.
    + by eapply answers_reader.
  - injection Hstep as <-. by apply inv_drain.
  - apply bind_Some in Hstep as (c & Hi & Hstep). destruct (c_pc c) as [| | |t|] eqn:Hpc; try done.
    injection Hstep as <-. destruct Hinv as [Ht Hm Hw Ha Hso]. rewrite Hrd in *.
    assert (reading (resume ts) → reading (RSend ch r ts)) as Hrs by (by destruct ts).
    split; cbn; [| | | |by destruct Hso].
    + eapply tags_step; [done|done|unfold has_tag; by rewrite Hpc|by rewrite Hpc|done].
    + by eapply map_deliver.
    + eapply wire_mono; [exact Hw| |done|done]. intros t' b. apply posted_step; [done|]. by rewrite Hpc.
    + eapply answers_reader; [|by destruct ts].
      apply answers_step; [exact Ha|done|by intros t' r' ts' [|]|]. intros t' r' [= <- <-].
      eapply (an_send _ _ _ Ha); [done|done|]. rewrite Hpc. by right.
Qed.

Lemma inv_closeStep l s s' : inv s → closeStep l s = Some s' → inv s'.
Proof.
  intros Hinv Hstep. destruct l; try done; cbn in Hstep.
  - destruct (isClosed (callmap s)); injection Hstep as <-; [done|]. destruct Hinv as [? ? ? ? []]. by split.
  - destruct (closing s) as [|n]; [done|]. injection Hstep as <-. destruct Hinv as [Ht Hm Hw Ha Hso].
    split; cbn; [done| |done|done|by destruct Hso]. destruct Hm as [? ? ? ? Hst]. split; try done. cbn.
    by destruct (rdr s) as [|? ? []| | | |]; destruct_and?.
Qed.

Lemma inv_srvStep l s s' : inv s → served handles l s → srvStep l s = Some s' → inv s'.
Proof.
  intros [Ht Hm Hw Ha [Hsi Hsh]] Hserved Hstep. unfold srvStep in Hstep. unfold reqs in Hw.
  destruct l as [| | | | | | | | | | | | | |eof|j rp ok|j sent|]; try done.
  - destruct (srdr s) eqn:Hr; try done. destruct Hsi as [[rest Hc2s] Hnil]. rewrite Hc2s in *. cbn in Hstep.
    rewrite dec_enc in Hstep. injection Hstep as <-. by split.
  - destruct (srdr s) eqn:Hr; try done. injection Hstep as <-. by split.
  - destruct (srdr s) eqn:Hr; try done. destruct (c2s s) as [|m rest] eqn:Hc; [done|]. injection Hstep as <-.
    split; cbn; [done|done| | |].
    + unfold reqs. cbn. rewrite Hr. by apply wire_sread.
    + eapply answers_serves; [done|]. intros. apply elem_of_app. by left.
    + split; cbn; [by rewrite Hr|]. by intros v [?| ->%list_elem_of_singleton]%elem_of_app; [apply Hsh|].
  - destruct (srdr s) eqn:Hr; try done. destruct eof; injection Hstep as <-; by split.
  - apply bind_Some in Hstep as (v & Hj & Hstep). destruct (s_pc v) eqn:Hpc; try done. injection Hstep as <-.
    assert (v ∈ serves s) as Hv by (by eapply list_elem_of_lookup_2).
    assert (clntEnd s = clnt) as Hcl.
    { destruct (srdr s); try done; destruct Hsi as [_ Hnil]; rewrite Hnil in Hv; by apply elem_of_nil in Hv. }
    split; cbn; [done|done| | |].
    + apply wire_serve; [done|done|by rewrite Hpc].
    + eapply answers_serves; [done|]. intros t b r ok' [k Hk]%list_elem_of_lookup.
      eapply (list_elem_of_lookup_2 _ k). rewrite list_lookup_insert_ne; [done|]. intros ->.
      rewrite Hj in Hk. injection Hk as ->. done.
    + split; cbn.
      * destruct (srdr s); try done; destruct Hsi as [_ Hnil]; rewrite Hnil in Hv; by apply elem_of_nil in Hv.
      * intros w [k [(_ & <- & _)|[_ Hk]]%list_lookup_insert_Some]%list_elem_of_lookup; cbn.
        -- rewrite <-Hcl. by apply Hserved.
        -- apply Hsh. by eapply list_elem_of_lookup_2.
  - apply bind_Some in Hstep as (v & Hj & Hstep). destruct (s_pc v) as [|r ok|] eqn:Hpc; try done.
    assert (v ∈ serves s) as Hv by (by eapply list_elem_of_lookup_2).
    assert (answers_ok (threads s) (rdr s) (<[j := mkServe (s_tag v) (s_req v) (SSent r ok)]> (serves s))) as Ha'.
    { eapply answers_serves; [done|]. intros t b r' ok' [k Hk]%list_elem_of_lookup.
      eapply (list_elem_of_lookup_2 _ k). rewrite list_lookup_insert_ne; [done|]. intros ->.
      rewrite Hj in Hk. injection Hk as ->. done. }
    assert (srv_ok (set_spc j (s_tag v) (s_req v) (SSent r ok) s)) as Hso.
    { split; cbn.
      - destruct (srdr s); try done; destruct Hsi as [_ Hnil]; rewrite Hnil in Hv; by apply elem_of_nil in Hv.
      - intros w [k [(_ & <- & _)|[_ Hk]]%list_lookup_insert_Some]%list_elem_of_lookup; cbn.
        + specialize (Hsh v Hv). by rewrite Hpc in Hsh.
        + apply Hsh. by eapply list_elem_of_lookup_2. }
    destruct sent; injection Hstep as <-; (split; cbn; [done|done| |done|by destruct Hso]).
    + by apply wire_swrite.
    + apply wire_serve; [done|done|by rewrite Hpc].
  - cbn in Hstep. destruct (sClosed s); injection Hstep as <-; by split.
Qed.

Lemma inv_step l s s' : inv s → few_calls s → served handles l s → dstep l s = Some s' → inv s'.
Proof.
  intros Hinv Hfew Hserved Hstep.
  by destruct l; cbn [dstep] in Hstep;
    eauto using inv_callStep, inv_readStep, inv_closeStep, inv_srvStep.
Qed.

Lemma reply_threads t r ts s : threads (reply_ t r ts s) = threads s.
Proof. unfold reply_, remove. by destruct (calls (callmap s) !! t). Qed.

(** Takes apart the executed steps: what each does to the list of calls. *)
Ltac step_cases H :=
  repeat match type of H with
  | (_ ← _; _) = Some _ => let x := fresh "x" in let E := fresh "E" in apply bind_Some in H as (x & E & H)
  | context [match ?x with _ => _ end] => destruct x
  end.

Lemma dstep_threads l s s' :
  dstep l s = Some s' →
  length (threads s') = (length (threads s) + match l with LCall _ => 1 | _ => 0 end)%nat.
Proof.
  intros Hstep. destruct l; cbn in Hstep; unfold put in Hstep; step_cases Hstep; try done;
    injection Hstep as <-; rewrite ?reply_threads; cbn; rewrite ?length_app, ?length_insert; cbn; lia.
Qed.

Lemma dmx_run_inv s : dmx_run handles clnt s → few_calls s → inv s.
Proof.
  induction 1 as [|l s s' Hrun IH Hserved Hstep]; intros Hfew; [apply inv_init|].
  assert (few_calls s) as Hfew'.
  { unfold few_calls in *. rewrite (dstep_threads _ _ _ Hstep) in Hfew. lia. }
  by eapply inv_step; [apply IH| | |].
Qed.

Lemma returned_answer s i c t r :
  inv s → threads s !! i = Some c → c_pc c = CRet t r → err r = None →
  mkServe t (c_req c) (SSent (rep r) (oks r)) ∈ serves s ∧ handles clnt (c_req c) (rep r, oks r).
Proof.
  intros Hinv Hi Hpc He. pose proof (an_ret _ _ _ (in_answers _ Hinv) _ _ _ _ Hi Hpc He) as Hans.
  split; [done|]. exact (so_handled _ (in_srv _ Hinv) _ Hans).
Qed.

(** C21: Replies reach the calls they answer.  However the calls, the reader,
    the server's goroutines and [Close] interleave, and whichever reads fail and
    writes are lost, as long as fewer than 2^32 - 1 calls are made: the reader
    never finds a reply without a matching call ([log.Fatalf]); no request is
    served twice; and a call that returns without an error returns what the
    server answered to its own request. *)
Theorem demux_matches_replies s :
  dmx_run handles clnt s → few_calls s →
  rdr s ≠ RFatal ∧ NoDup (s_tag <$> serves s) ∧
  ∀ i c t r, threads s !! i = Some c → c_pc c = CRet t r → err r = None →
    mkServe t (c_req c) (SSent (rep r) (oks r)) ∈ serves s ∧ handles clnt (c_req c) (rep r, oks r).
Proof.
  intros Hrun Hfew. pose proof (dmx_run_inv s Hrun Hfew) as Hinv. split_and!.
  - intros Hrd. pose proof (mp_state _ _ _ (in_map _ Hinv)) as Hst. by rewrite Hrd in Hst.
  - by pose proof (w_once _ _ _ _ _ _ (in_wire _ Hinv)) as (_ & _ & ?)%NoDup_app.
  - intros i c t r. by apply returned_answer.
Qed.

(** ** Failing the outstanding calls *)

(** Steps of the client alone: a write that is lost, and the reader's. *)
Definition client_label (l : Label) : Prop :=
  match l with LWrite _ false | LReadErr | LOutstanding _ | LDrain | LDeliver => True | _ => False end.
Definition cstep s s' : Prop := ∃ l, client_label l ∧ dstep l s = Some s'.

Lemma cstep_inv s s' : cstep s s' → inv s ∧ few_calls s → inv s' ∧ few_calls s'.
Proof.
  intros (l & Hl & Hstep) [Hinv Hfew]. split.
  - eapply inv_step; [done|done| |done]. by destruct l.
  - unfold few_calls in *. rewrite (dstep_threads _ _ _ Hstep). destruct l; try done; lia.
Qed.

Lemma csteps_inv s s' : rtc cstep s s' → inv s ∧ few_calls s → inv s' ∧ few_calls s'.
Proof. induction 1; eauto using cstep_inv. Qed.

(** A reply that is ready is taken. *)
Lemma send_completes s ch r ts :
  inv s → rdr s = RSend ch r ts → ∃ s', rtc cstep s s' ∧ rdr s' = resume ts.
Proof.
  intros Hinv Hrd. destruct (mp_send _ _ _ (in_map _ Hinv) _ _ _ Hrd) as (c & t & Hc & [Hpc|Hpc]).
  - eexists. split.
    + eapply rtc_l.
      { exists (LWrite ch false). split; [done|]. cbn. rewrite Hc. cbn. by rewrite Hpc. }
      apply rtc_once. exists LDeliver. split; [done|]. cbn. rewrite Hrd. cbn.
      by rewrite list_lookup_insert_eq by (by eapply lookup_lt_Some).
    + done.
  - eexists. split.
    + apply rtc_once. exists LDeliver. split; [done|]. cbn. rewrite Hrd. cbn.
      rewrite Hc. cbn. by rewrite Hpc.
    + done.
Qed.

Lemma drain_completes ts s :
  inv s → few_calls s → rdr s = RDrain ts → ∃ s', rtc cstep s s' ∧ rdr s' = RDone.
Proof.
  revert s. induction ts as [|t ts IH]; intros s Hinv Hfew Hrd.
  { eexists. split; [apply rtc_once; exists LDrain; split; [done|]; cbn; by rewrite Hrd|done]. }
  pose proof (inv_drain _ _ _ Hinv Hrd) as Hinv1. set (s1 := reply_ _ _ _ s) in *.
  assert (cstep s s1) as Hs1 by (exists LDrain; split; [done|]; cbn; by rewrite Hrd).
  assert (∃ ch r, rdr s1 = RSend ch r (Some ts)) as (ch & r & Hrd1).
  { pose proof (mp_state _ _ _ (in_map _ Hinv1)) as Hst. unfold s1, reply_, remove in *.
    destruct (calls (callmap s) !! t); cbn in *; [eauto|done]. }
  destruct (send_completes _ _ _ _ Hinv1 Hrd1) as (s2 & Hs2 & Hrd2).
  destruct (csteps_inv s s2) as [Hinv2 Hfew2]; [by eapply rtc_l|done|].
  destruct (IH s2 Hinv2 Hfew2 Hrd2) as (s3 & Hs3 & Hrd3). exists s3. split; [|done].
  eapply rtc_l; [done|]. by etrans.
Qed.

Lemma closed_completes s :
  inv s → few_calls s → rdr s = RClosed → ∃ s', rtc cstep s s' ∧ rdr s' = RDone.
Proof.
  intros Hinv Hfew Hrd. set (order := elements (dom (calls (callmap s)))).
  assert (cstep s (set_rdr (RDrain order) s)) as Hs1.
  { exists (LOutstanding order). split; [done|]. cbn. rewrite Hrd. rewrite decide_True; [done|].
    split; [apply NoDup_elements|apply list_to_set_elements_L]. }
  destruct (cstep_inv _ _ Hs1) as [Hinv1 Hfew1]; [done|].
  destruct (drain_completes order _ Hinv1 Hfew1) as (s2 & ? & ?); [done|]. exists s2.
  split; [by eapply rtc_l|done].
Qed.

Lemma reading_completes s :
  inv s → few_calls s → rdr s = RReading → ∃ s', rtc cstep s s' ∧ rdr s' = RDone.
Proof.
  intros Hinv Hfew Hrd.
  assert (cstep s (set_rdr RClosed (set_callmap (cm_close (callmap s)) s))) as Hs1.
  { exists LReadErr. split; [done|]. cbn. by rewrite Hrd. }
  destruct (cstep_inv _ _ Hs1) as [Hinv1 Hfew1]; [done|].
  destruct (closed_completes _ Hinv1 Hfew1) as (s2 & ? & ?); [done|]. exists s2.
  split; [by eapply rtc_l|done].
Qed.

(** C31: No call waits for ever.  From every state that can be reached, once the
    connection fails the client's own goroutines can finish: the reader closes
    the map, fails what is outstanding and ends.  Whenever it has ended, the map
    is closed and no call waits: each has returned or has yet to register
    itself, which then fails. *)
Theorem demux_fails_outstanding s :
  dmx_run handles clnt s → few_calls s →
  (∃ s', rtc cstep s s' ∧ rdr s' = RDone) ∧
  (rdr s = RDone → isClosed (callmap s) = true ∧
   ∀ i c, threads s !! i = Some c →
     match c_pc c with CTag | CRet _ _ => True | CPut t => (put t i (callmap s)).1 ≠ None | _ => False end).
Proof.
  intros Hrun Hfew. pose proof (dmx_run_inv s Hrun Hfew) as Hinv. split.
  - pose proof (mp_state _ _ _ (in_map _ Hinv)) as Hst.
    destruct (rdr s) as [|ch r ts| |ts| |] eqn:Hrd; [by apply reading_completes| |
      by apply closed_completes|by eapply drain_completes|by exists s|done].
    destruct (send_completes _ _ _ _ Hinv Hrd) as (s1 & Hs1 & Hrd1).
    destruct (csteps_inv _ _ Hs1) as [Hinv1 Hfew1]; [done|].
    assert (∃ s', rtc cstep s1 s' ∧ rdr s' = RDone) as (s2 & ? & ?).
    { destruct ts; [by eapply drain_completes|by apply reading_completes]. }
    exists s2. split; [by etrans|done].
  - intros Hrd. pose proof (mp_state _ _ _ (in_map _ Hinv)) as Hst. rewrite Hrd in Hst.
    destruct Hst as [Hcl Hempty]. split; [done|]. intros i c Hi.
    assert (∀ t, ¬ waiting (c_pc c) t) as Hno.
    { intros t Hwt. destruct (mp_wait _ _ _ (in_map _ Hinv) _ _ _ Hi Hwt) as [Hl|(? & ? & ?)]; [|congruence].
      by rewrite Hempty, lookup_empty in Hl. }
    destruct (c_pc c) as [|t|t|t|] eqn:Hpc; try done.
    + unfold put. by rewrite Hcl.
    + apply (Hno t). by left.
    + apply (Hno t). by right.
Qed.
End facts.

(** ** Runs from lists of labels *)

Section runs.
Context `{!Codec string}.

Fixpoint dsteps (ls : list Label) (s : Dmx) : option Dmx :=
  match ls with [] => Some s | l :: ls => s' ← dstep l s; dsteps ls s' end.

(** The same, checking with [f] that the answers in the labels are the server's. *)
Definition checks (f : bytes → bytes * bool → bool) (l : Label) (s : Dmx) : bool :=
  match l with
  | LServe j rep ok => match serves s !! j with Some v => f (s_req v) (rep, ok) | None => true end
  | _ => true
  end.

Fixpoint checked_run (f : bytes → bytes * bool → bool) (ls : list Label) (s : Dmx) : option Dmx :=
  match ls with
  | [] => Some s
  | l :: ls => if checks f l s then s' ← dstep l s; checked_run f ls s' else None
  end.

Lemma checked_run_sound f handles clnt ls s s' :
  (∀ cl b res, f b res = true → handles cl b res : Prop) →
  dmx_run handles clnt s → checked_run f ls s = Some s' → dmx_run handles clnt s'.
Proof.
  intros Hf. revert s. induction ls as [|l ls IH]; intros s Hrun Hls; cbn in Hls; [by injection Hls as <-|].
  destruct (checks f l s) eqn:He; [|done]. apply bind_Some in Hls as (s1 & Hstep & Hls).
  eapply IH; [|done]. eapply dmx_next; [done| |done]. destruct l; try done. cbn in *.
  intros v Hv. rewrite Hv in He. by apply Hf.
Qed.
End runs.

(** ** A run: two calls whose answers come back in the other order *)

Section example.
#[local] Instance string_codec : Codec string := countable_codec.

Definition echo (_ : string) (req : bytes) (res : bytes * bool) : Prop := res = (req, true).
Definition echo_b (req : bytes) (res : bytes * bool) : bool := bool_decide (res = (req, true)).

Definition two_calls_labels : list Label :=
  [LCall [x01]; LCall [x02]; LTag 1; LTag 0; LPut 0; LPut 1; LWrite 0 true; LSInit; LSRead; LWrite 1 true;
   LSRead; LServe 1 [x02] true; LSWrite 1 true; LServe 0 [x01] true; LRead; LDeliver; LReadErr;
   LOutstanding [2]; LDrain; LDeliver; LDrain].

Definition two_calls_state : Dmx := default (NewDemuxClnt "c") (dsteps two_calls_labels (NewDemuxClnt "c")).

Lemma two_calls_run : dmx_run echo "c" two_calls_state.
Proof.
  refine (checked_run_sound echo_b _ _ two_calls_labels (NewDemuxClnt "c") _ _ _ _); [|constructor|].
  - intros cl b res. apply bool_decide_eq_true_1.
  - vm_compute. reflexivity.
Qed.

(** The first call is failed by the reader, the second got its answer. *)
Lemma demux_matches_replies_witness :
  (threads two_calls_state) !! 1%nat = Some (mkCall [x02] (CRet 1 (mkReply [x02] true None))) ∧
  mkServe 1 [x02] (SSent [x02] true) ∈ serves two_calls_state.
Proof.
  destruct (demux_matches_replies echo "c" two_calls_state two_calls_run) as (_ & _ & H);
    [vm_compute; reflexivity|].
  split; [vm_compute; reflexivity|].
  apply (H 1%nat (mkCall [x02] (CRet 1 (mkReply [x02] true None))) 1 (mkReply [x02] true None));
    [vm_compute|..]; reflexivity.
Defined.

Lemma demux_fails_outstanding_witness :
  rdr two_calls_state = RDone ∧ isClosed (callmap two_calls_state) = true.
Proof.
  destruct (demux_fails_outstanding echo "c" two_calls_state two_calls_run) as (_ & H);
    [vm_compute; reflexivity|].
  assert (rdr two_calls_state = RDone) as Hd by (vm_compute; reflexivity). split; [done|]. by apply H.
Defined.

(** A connection that failed is never closed.  Once a reader has met an
    error (on the server: the end of the file), [Close] of that side returns
    without closing the transport. *)
Theorem failed_connection_stays_open (s s1 s2 : Dmx) :
  (dstep LReadErr s = Some s1 → dstep LClose s1 = Some s2 → cOpen s2 = cOpen s) ∧
  (dstep (LSReadErr true) s = Some s1 → dstep LSClose s1 = Some s2 → sOpen s2 = sOpen s).
Proof.
  split; cbn.
  - destruct (rdr s); try done. intros [= <-]. cbn. by intros [= <-].
  - destruct (srdr s); try done. intros [= <-]. cbn. by intros [= <-].
Qed.
End example.
