(* ===== verification/SockRpc.v ===== *)
(** * SockRpc: RPC between the tester and its daemons

    Models [src/src/tester/sockrpc]: a call marshals the method's name and its
    arguments, sends them over a multiplexed connection ([Demux]) and unmarshals
    the answer; the server dispatches the request to a registered service
    ([RpcNet.Dispatch]). *)

From S2P Require Import Prelude RpcNet RpcNetFacts Transport Demux DemuxFacts.

Record RPCArgs := mkRPCArgs { Method_ : string; Args : bytes }.

(** ** Connecting: up to [MAXRETRY] attempts; [results i] is the error of [net.Dial]. *)
Definition MAXRETRY : nat := 100.

Fixpoint dialFrom (results : nat → option string) (i n : nat) (r : option string) : nat + option string :=
  match n with
  | O => inr r
  | S n => match results i with
           | None => inl i
           | Some e => dialFrom results (S i) n (Some e)
           end
  end.

Definition dial (results : nat → option string) : nat + option string :=
  dialFrom results 0 MAXRETRY None.

Section sockrpc.
Context {W : Type} `{!Codec string, !Codec RPCArgs}.

(** [getDmx]; [sent] says whether the first message could be written. *)
Definition getDmx (results : nat → option string) (sent : bool) (clntEnd : string) : outcome Dmx :=
  match dial results with
  | inr _ => Panic (Fatal "Dial")
  | inl _ => if sent then Ret (NewDemuxClnt clntEnd) else Panic (Fatal "NewDemuxClnt")
  end.

(** [RPC]: the request it passes to [SendReceive] and what it makes of the reply. *)
Definition RPC_request (method : string) (args : bytes) : bytes := enc (mkRPCArgs method args).
Definition RPC_result (r : reply) : bytes * bool :=
  match err r with Some _ => ([], false) | None => (rep r, oks r) end.

(** [RPCMarshall]: the reply is set only if the call succeeded. *)
Definition RPCMarshall_request {A} `{!Codec A} (method : string) (a : A) : bytes :=
  RPC_request method (enc a).
Definition RPCMarshall_result {R} `{!Codec R} (r : reply) : outcome (option R * bool) :=
  let '(b, ok) := RPC_result r in
  if ok then match dec b with Some x => Ret (Some x, ok) | None => Panic GobError end
  else Ret (None, ok).

(** ** The server *)

Definition RPCSrv_AddService (name : string) (ms : list (@Method W)) (rs : Server) : outcome Server :=
  svc ← MakeService name ms; Ret (AddService svc rs).

(** The services of a process, each an object with its type's name and methods. *)
Fixpoint RPCSrv_AddServices (objs : list (string * list (@Method W))) (rs : Server) : outcome Server :=
  match objs with
  | [] => Ret rs
  | (name, ms) :: objs => rs ← RPCSrv_AddService name ms rs; RPCSrv_AddServices objs rs
  end.

Definition ServeRequest (clntEnd : string) (b : bytes) (rs : Server) (w : W)
    : outcome (@Server W * W * (bytes * bool)) :=
  match dec b with
  | None => Panic GobError
  | Some req => Dispatch (Method_ req) clntEnd (Args req) rs w
  end.

(** The server offers the method [meth] of the service [svc], run by [h]. *)
Definition offers (svc meth : string) (h : Handler) (rs : @Server W) : Prop :=
  dispatchf rs = None ∧
  ∃ s m, services rs !! svc = Some s ∧ methods s !! meth = Some m ∧ m_Func m = h.

(** What a server that offers the method may answer, in any of its states. *)
Definition answers (svc meth : string) (h : Handler) (clnt : string) (req : bytes) (res : bytes * bool) : Prop :=
  ∃ rs w rs' w', offers svc meth h rs ∧ ServeRequest clnt req rs w = Ret (rs', w', res).

Lemma ServeRequest_spec svc meth h clnt (a : hd_arg h) rs w :
  offers svc meth h rs → dot ∉ String.list_ascii_of_string meth →
  ∃ rs', ServeRequest clnt (RPC_request (svc ++ "." ++ meth) (@enc _ (hd_argCodec h) a)) rs w =
    Ret (rs', (hd_run h a w).1, (@enc _ (hd_replyCodec h) (hd_run h a w).2, true)) ∧
    services rs' = services rs.
Proof.
  intros (Hf & s & m & Hs & Hm & <-) Hdot. unfold ServeRequest, RPC_request. rewrite dec_enc.
  unfold Dispatch, Server_dispatch. cbn [Method_ Args svcMeth]. rewrite splitMethod_spec by done.
  cbn [mbind outcome_bind fst snd services dispatchf]. rewrite Hf, Hs. cbn [mbind outcome_bind].
  unfold Service_dispatch. rewrite Hm. cbn [args]. rewrite dec_enc.
  destruct (hd_run (m_Func m) a w) as [w' x]. cbn. by eexists.
Qed.

(** C37: An RPC over a socket is a call of the method.  Of a server that offers a
    method: whenever [RPCMarshall] of that method, one of many concurrent calls
    on the connection, has got a reply, it does not stop the process, and if it
    reports success the value it returns is what the method returned for the
    argument of this very call. *)
Theorem sockrpc_round_trip svc meth h clnt s i t r (a : hd_arg h) :
  dmx_run (answers svc meth h) clnt s → few_calls s → dot ∉ String.list_ascii_of_string meth →
  threads s !! i = Some (mkCall (@RPCMarshall_request _ (hd_argCodec h) (svc ++ "." ++ meth) a) (CRet t r)) →
  (∃ w, @RPCMarshall_result _ (hd_replyCodec h) r = Ret (Some (hd_run h a w).2, true)) ∨
  @RPCMarshall_result _ (hd_replyCodec h) r = Ret (None, false).
Proof.
  intros Hrun Hfew Hdot Hi. unfold RPCMarshall_result, RPC_result.
  destruct (err r) eqn:He; [by right|]. left.
  destruct (returned_answer _ _ _ _ _ _ _ (dmx_run_inv _ _ _ Hrun Hfew) Hi eq_refl He) as [_ Hans].
  destruct Hans as (rs & w & rs' & w' & Hoff & Hserve). cbn in Hserve.
  destruct (ServeRequest_spec svc meth h clnt a rs w Hoff Hdot) as (rs2 & Hserve2 & _).
  unfold RPCMarshall_request in Hserve. rewrite Hserve2 in Hserve. injection Hserve as _ _ Hrep Hok.
  exists w. rewrite <-Hok, <-Hrep. by rewrite dec_enc.
Qed.

(** ** Dispatching to registered services *)

Lemma RPCSrv_AddServices_spec objs (rs0 : @Server W) :
  NoDup objs.*1 → (∀ o, o ∈ objs → NoDup (m_Name <$> o.2)) →
  ∃ rs, RPCSrv_AddServices objs rs0 = Ret rs ∧ dispatchf rs = dispatchf rs0 ∧ srv_count rs = srv_count rs0 ∧
    (∀ n, n ∉ objs.*1 → services rs !! n = services rs0 !! n) ∧
    ∀ n ms, (n, ms) ∈ objs → ∃ svc, services rs !! n = Some svc ∧
      ∀ k m, methods svc !! k = Some m ↔ m ∈ ms ∧ m_Name m = k ∧ handler_type m.
Proof.
  revert rs0. induction objs as [|[n0 ms0] objs IH]; intros rs0 Hnd Hms; cbn.
  { exists rs0. split_and!; try done. by intros n ms ?%elem_of_nil. }
  apply NoDup_cons in Hnd as [Hn0 Hnd].
  destruct (MakeService_methods n0 ms0) as (svc0 & Hmk & Hnm & Hm0); [apply (Hms (n0, ms0)); by left|].
  unfold RPCSrv_AddService. rewrite Hmk. cbn.
  destruct (IH (AddService svc0 rs0)) as (rs & Hrs & Hd & Hc & Hout & Hin); [done|set_solver|].
  exists rs. split_and!; try done.
  - intros n [? ?]%not_elem_of_cons. rewrite Hout by done. cbn. by rewrite lookup_insert_ne by congruence.
  - intros n ms [[= -> ->]|Hn]%elem_of_cons; [|by apply Hin].
    exists svc0. split; [|done]. rewrite Hout by done. cbn. by rewrite Hnm, lookup_insert_eq.
Qed.

(** C39: A request is served by the method it names.  Registering a process's
    objects returns whatever methods they have, also ones without parameters.
    A request for ["T.M"] then counts one more call, and if the object of type
    [T] has a method [M] with the signature of a handler, runs just that
    method, once, on the decoded argument and answers with its encoded reply;
    an argument that does not decode, a method without this signature, a name
    that is no method of [T] and a type that is not registered each end the
    process in the way the source says. *)
Theorem dispatch_registered objs :
  NoDup objs.*1 → (∀ o, o ∈ objs → NoDup (m_Name <$> o.2)) →
  ∃ rs, RPCSrv_AddServices objs MakeServer = Ret rs ∧
  ∀ svc meth clnt a (w : W), dot ∉ String.list_ascii_of_string meth →
    let answer := Dispatch (svc ++ "." ++ meth) clnt a rs w in
    (∀ ms m, (svc, ms) ∈ objs → m ∈ ms → m_Name m = meth → handler_type m →
       answer = match @dec _ (hd_argCodec (m_Func m)) a with
                | None => Panic GobError
                | Some x =>
                    let '(w', y) := hd_run (m_Func m) x w in
                    Ret (mkServer (services rs) 1 None, w', (@enc _ (hd_replyCodec (m_Func m)) y, true))
                end) ∧
    (∀ ms, (svc, ms) ∈ objs → (∀ m, m ∈ ms → m_Name m = meth → ¬ handler_type m) →
       answer = Panic (Fatal "labrpc.Service.dispatch(): unknown method")) ∧
    (svc ∉ objs.*1 → answer = Panic (Fatal "labrpc.Server.dispatch(): unknown service")).
Proof.
  intros Hnd Hms. destruct (RPCSrv_AddServices_spec objs MakeServer Hnd Hms) as (rs & Hrs & Hd & Hc & Hout & Hin).
  exists rs. split; [done|]. intros svc meth clnt a w Hdot. cbn zeta.
  unfold Dispatch, Server_dispatch. cbn [svcMeth]. rewrite splitMethod_spec by done.
  cbn [mbind outcome_bind fst snd services dispatchf]. rewrite Hd, Hc. cbn [dispatchf srv_count MakeServer].
  split_and!.
  - intros ms m Hs Hm Hn Ht. destruct (Hin svc ms Hs) as (s & -> & Hmeth).
    unfold Service_dispatch. rewrite (proj2 (Hmeth meth m)) by done. cbn [args].
    destruct (dec a) as [x|]; [|done]. cbn. by destruct (hd_run (m_Func m) x w).
  - intros ms Hs Hno. destruct (Hin svc ms Hs) as (s & -> & Hmeth). unfold Service_dispatch.
    destruct (methods s !! meth) as [m|] eqn:E; [|done]. apply Hmeth in E as (? & ? & ?). by destruct (Hno m).
  - intros Hs. by rewrite Hout by done.
Qed.

(** [dial] gives up only after [MAXRETRY] failures. *)
Lemma dial_gives_up results :
  match dial results with
  | inl i => (i < MAXRETRY)%nat ∧ results i = None ∧ ∀ j, (j < i)%nat → results j ≠ None
  | inr _ => ∀ j, (j < MAXRETRY)%nat → results j ≠ None
  end.
Proof.
  assert (∀ n i r, (∀ j, (j < i)%nat → results j ≠ None) →
    match dialFrom results i n r with
    | inl k => (k < i + n)%nat ∧ results k = None ∧ ∀ j, (j < k)%nat → results j ≠ None
    | inr _ => ∀ j, (j < i + n)%nat → results j ≠ None
    end) as H.
  { induction n as [|n IH]; intros i r Hi; cbn [dialFrom].
    { intros j Hj. apply Hi. lia. }
    destruct (results i) eqn:E; [|split_and!; [lia|done|done]].
    assert (∀ j, (j < S i)%nat → results j ≠ None) as Hi'.
    { intros j Hj. destruct (decide (j = i)) as [->|]; [by rewrite E|apply Hi; lia]. }
    specialize (IH (S i) (Some s) Hi'). destruct (dialFrom results (S i) n (Some s)).
    - destruct_and!. split_and!; [lia|done|done].
    - intros j Hj. apply IH. lia. }
  apply (H MAXRETRY 0%nat None). lia.
Qed.
End sockrpc.

(** ** A server with one method, which counts its calls *)

#[global] Instance RPCArgs_eq_dec : EqDecision RPCArgs.
Proof. solve_decision. Defined.
#[global] Instance RPCArgs_countable : Countable RPCArgs.
Proof.
  refine (inj_countable' (λ a, (Method_ a, Args a)) (λ '(m, b), mkRPCArgs m b) _). by intros [].
Defined.

Section example.
#[local] Instance rpcargs_codec : Codec RPCArgs := countable_codec.
#[local] Instance name_codec : Codec string := countable_codec.

Definition bump : @Handler nat :=
  mkHandler nat nat countable_codec countable_codec (λ a w, (w + a, w + a)%nat).
Definition addValue : @Method nat := mkMethod "Add" "" [KPtr; KOther; KPtr] 0 bump.
Definition noHandler : @Method nat := mkMethod "Value" "" [KPtr] 1 bump.
Definition counter_srv : @Server nat :=
  AddService (mkService "C" {[ "Add"%string := mkMethod "Add" "" [KPtr; KOther; KPtr] 0 bump ]}) MakeServer.

Definition add_req : bytes := @RPCMarshall_request _ nat countable_codec "C.Add" 2%nat.
Definition add_ans : bytes := @enc nat countable_codec 5%nat.

Definition add_labels : list Label :=
  [LCall add_req; LTag 0; LSInit; LPut 0; LWrite 0 true; LSRead; LServe 0 add_ans true; LSWrite 0 true;
   LRead; LDeliver].
Definition add_state : Dmx := default (NewDemuxClnt "c") (dsteps add_labels (NewDemuxClnt "c")).

Definition add_b (req : bytes) (res : bytes * bool) : bool :=
  bool_decide (req = add_req ∧ res = (add_ans, true)).

Lemma counter_offers : offers "C" "Add" bump counter_srv.
Proof. split; [done|]. do 2 eexists. split_and!; reflexivity. Qed.

Lemma Add_dotless : dot ∉ String.list_ascii_of_string "Add".
Proof. apply (bool_decide_eq_true_1 (dot ∉ String.list_ascii_of_string "Add")). reflexivity. Qed.

Lemma add_answers clnt : answers "C" "Add" bump clnt add_req (add_ans, true).
Proof.
  exists counter_srv, 3%nat.
  destruct (ServeRequest_spec "C" "Add" bump clnt 2%nat counter_srv 3%nat counter_offers Add_dotless)
    as (rs' & Hs & _).
  exists rs', 5%nat. split; [apply counter_offers|exact Hs].
Qed.

Lemma add_run : dmx_run (answers "C" "Add" bump) "c" add_state.
Proof.
  refine (checked_run_sound add_b _ _ add_labels (NewDemuxClnt "c") _ _ _ _); [|constructor|].
  - intros cl b res [-> ->]%bool_decide_eq_true_1. apply add_answers.
  - vm_compute. reflexivity.
Qed.

Lemma sockrpc_round_trip_witness :
  ∃ w, @RPCMarshall_result _ countable_codec (mkReply add_ans true None) = Ret (Some (w + 2)%nat, true).
Proof.
  destruct (sockrpc_round_trip "C" "Add" bump "c" add_state 0 1 (mkReply add_ans true None) 2%nat add_run)
    as [[w Hw]|H].
  - vm_compute. reflexivity.
  - exact Add_dotless.
  - vm_compute. reflexivity.
  - by exists w.
  - exfalso. vm_compute in H. discriminate H.
Defined.
(** A method that takes its argument by value is served like one that takes a
    pointer; one that is not a handler is unknown. *)
Lemma dispatch_registered_witness : ∃ rs,
  RPCSrv_AddServices [("D"%string, []); ("C"%string, [addValue; noHandler])] MakeServer = Ret rs ∧
  Dispatch "C.Add" "c" (@enc nat countable_codec 2%nat) rs 3%nat =
    Ret (mkServer (services rs) 1 None, 5%nat, (@enc nat countable_codec 5%nat, true)) ∧
  Dispatch "C.Value" "c" [] rs 3%nat = Panic (Fatal "labrpc.Service.dispatch(): unknown method").
Proof.
  destruct (dispatch_registered [("D"%string, []); ("C"%string, [addValue; noHandler])]) as (rs & H & Hd).
  - apply (bool_decide_unpack (NoDup _)). vm_compute. exact I.
  - intros o Ho. apply (bool_decide_unpack (NoDup _)). repeat (apply elem_of_cons in Ho as [->|Ho]; [vm_compute; exact I|]).
    by apply elem_of_nil in Ho.
  - exists rs. split; [exact H|]. split.
    + destruct (Hd "C"%string "Add"%string "c"%string (@enc nat countable_codec 2%nat) 3%nat Add_dotless) as (Hm & _ & _).
      refine (eq_trans (Hm [addValue; noHandler] addValue _ _ eq_refl _) _); [right; left|left|by split_and!|].
      vm_compute. reflexivity.
    + destruct (Hd "C"%string "Value"%string "c"%string [] 3%nat) as (_ & Hm & _).
      { apply (bool_decide_unpack (dot ∉ _)). vm_compute. exact I. }
      apply (Hm [addValue; noHandler]); [right; left|].
      intros m [->|[->|?%elem_of_nil]%elem_of_cons]%elem_of_cons; [done| |done]. intros _ (_ & ? & _). done.
Defined.
End example.
