(* ===== verification/TestConfig.v ===== *)
(** * TestConfig: a test's network, groups and clients together

    Models [src/src/tester/config.go]: the configuration owns the one simulated
    network ([RpcNet]) that all groups ([TestGroup]) share.  A group taken out of
    the configuration is given the current network, and what an operation did to
    the network is written back.

    Random end names and the results of starting daemons are arguments. *)

From S2P Require Import Prelude RpcNet Persister TestGroup.

Section config.
Context (ServerName : Z → nat → string).

Definition GRP0 : Z := 0.

Record Config := mkConfig { cfg_net : Network; cfg_groups : gmap Z ServerGrp }.

(** What the start of one server draws: its end names, whether the daemon
    process comes up, and the [rpc.Server] made for it. *)
Record StartEnv := mkStartEnv { se_names : list string; se_up : bool; se_ptr : nat }.

Definition Group (g : Z) (cfg : Config) : option ServerGrp :=
  with_net (cfg_net cfg) <$> lookupGroup g (cfg_groups cfg).

(** The group [g] is now [sg], and the network what [sg] made of it. *)
Definition putGroup (g : Z) (sg : ServerGrp) (cfg : Config) : Config :=
  mkConfig (sg_net sg) (<[g := sg]> (cfg_groups cfg)).

(** [StartSrvs] ignores the error of a server that does not come up. *)
Definition StartSrvs (env : nat → StartEnv) (ids : list nat) (sg : ServerGrp) : outcome ServerGrp :=
  foldGrp (λ i sg,
    r ← StartServer ServerName i (se_names (env i)) (se_up (env i)) (se_ptr (env i)) sg; Ret r.1) ids sg.

Definition StartServers (env : nat → StartEnv) (sg : ServerGrp) : outcome ServerGrp :=
  sg ← StartSrvs env (all sg) sg; ConnectAll sg.

Definition MakeGroupStart (g : Z) (n : nat) (namess : list (list string)) (env : nat → StartEnv)
    (cfg : Config) : outcome Config :=
  sg ← makeSrvGrp ServerName g n namess (cfg_net cfg);
  sg ← StartServers env sg;
  Ret (putGroup g sg cfg).

Definition ExitGroup (p : nat → Persister) (g : Z) (cfg : Config) : outcome Config :=
  match Group g cfg with
  | None => Ret (mkConfig (cfg_net cfg) (deleteGroup g (cfg_groups cfg)))
  | Some sg =>
      sg ← Shutdown ServerName p sg;
      Ret (mkConfig (sg_net sg) (deleteGroup g (cfg_groups cfg)))
  end.

Definition MakeDemoConfig (n : nat) (namess : list (list string)) (env : nat → StartEnv) : outcome Config :=
  cfg ← MakeGroupStart GRP0 n namess env (mkConfig MakeNetwork ∅);
  Ret (mkConfig (Reliable true (cfg_net cfg)) (cfg_groups cfg)).

Definition onNet (f : Network → Network) (cfg : Config) : Config :=
  mkConfig (f (cfg_net cfg)) (cfg_groups cfg).

Definition Config_SetReliable (yes : bool) : Config → Config := onNet (Reliable yes).
Definition Config_SetLongReordering (yes : bool) : Config → Config := onNet (LongReordering yes).
Definition Config_SetLongDelays (yes : bool) : Config → Config := onNet (LongDelays yes).
Definition Config_SetDropRate (rate : Z) : Config → Config := onNet (SetDropRate rate).
Definition Config_SetShortDelayMs (ms : Z) : Config → Config := onNet (SetShortDelayMs ms).
Definition Config_SetLongDelayMs (ms : Z) : Config → Config := onNet (SetLongDelayMs ms).

Lemma Group_put g sg cfg : Group g (putGroup g sg cfg) = Some sg.
Proof.
  unfold Group, putGroup, lookupGroup. cbn. rewrite lookup_insert_eq. cbn. by destruct sg.
Qed.

Lemma Group_put_ne g g' sg cfg :
  g ≠ g' → Group g (putGroup g' sg cfg) = with_net (sg_net sg) <$> Group g cfg.
Proof.
  intros Hne. unfold Group, putGroup, lookupGroup. cbn. rewrite lookup_insert_ne by done.
  by destruct (cfg_groups cfg !! g).
Qed.
End config.

(** Zero is not the default.  The documentation of the configuration says
    that 0 resets the drop rate and the delays to their default values; they
    become 0, and the defaults are not 0. *)
Theorem zero_is_not_default (cfg : Config) :
  GetDropRate (cfg_net (Config_SetDropRate 0 cfg)) = 0 ∧
  GetShortDelayMs (cfg_net (Config_SetShortDelayMs 0 cfg)) = 0 ∧
  GetLongDelayMs (cfg_net (Config_SetLongDelayMs 0 cfg)) = 0 ∧
  DROPRATE ≠ 0 ∧ SHORTDELAY ≠ 0 ∧ LONGDELAY ≠ 0.
Proof. split_and!; done. Qed.
