(* ===== verification/Cluster.v ===== *)
(** * Cluster: the manager of the demonstration cluster

    Models [src/shardkv-demo/cluster] ([manager.go], [chaosmonkey.go],
    [clerkpool.go], [types.go]) and [src/shardkv-demo/config/config.go]: the
    membership of groups, faults injected into their networks, the cached
    configurations, the chaos monkeys and the status page's data.

    The manager drives the test infrastructure ([TestConfig]) and the shard
    controller.  What the controller answers (the configuration it reads, whether
    a change completed) is an argument of the operations that ask it; its own
    behaviour is the subject of [ShardCtrler].  Time is a number of seconds. *)

From S2P Require Import Prelude RpcNet ShardCfg Persister TestGroup TestConfig.

(** ** Start-up parameters ([config.go]) *)

Record GroupConfig := mkGroupConfig { gc_Gid : Z; gc_Servers : Z }.

Record DemoConfig := mkDemoConfig {
  MaxRaftState : Z; Nsrv : Z; dc_Reliable : bool; ClerkPoolSize : Z;
  ClusterGroups : list GroupConfig; dc_Groups : list GroupConfig }.

Definition DefaultConfig : DemoConfig := mkDemoConfig 100000 3 true 500 [] [mkGroupConfig 1 3].

(** What [os.ReadFile] gives: the file's contents, no file, or an error. *)
Inductive FileRead := FileData (b : bytes) | FileMissing | FileError.

(** [yaml.Unmarshal(data, &cfg)] overwrites the fields that the file sets. *)
Definition Load (unmarshal : bytes → DemoConfig → option DemoConfig) (file : FileRead) : option DemoConfig :=
  let cfg := DefaultConfig in
  match file with
  | FileMissing => Some cfg
  | FileError => None
  | FileData data =>
      cfg ← unmarshal data cfg;
      let groups := if decide (dc_Groups cfg = [] ∧ ClusterGroups cfg ≠ []) then ClusterGroups cfg
                    else dc_Groups cfg in
      let groups := if decide (groups = []) then [mkGroupConfig 1 (Nsrv cfg)] else groups in
      let groups := (λ g, if decide (gc_Servers g ≤ 0) then mkGroupConfig (gc_Gid g) (Nsrv cfg) else g)
                      <$> groups in
      let nsrv := if decide (Nsrv cfg ≤ 0) then 3 else Nsrv cfg in
      let pool := if decide (ClerkPoolSize cfg ≤ 0) then 500 else ClerkPoolSize cfg in
      Some (mkDemoConfig (MaxRaftState cfg) nsrv (dc_Reliable cfg) pool (ClusterGroups cfg) groups)
  end.

(** ** The manager's state *)

(** The monkeys that run; a stopped one is removed. *)
Record ChaosMonkey := mkChaosMonkey { mk_gid : Z; pendingRestart : gset nat }.

Record ClusterManager := mkManager {
  dcfg : DemoConfig;
  infra : Config;
  nextGid : Z;
  cgroups : gset Z;
  isolated : gmap Z (gset nat);
  chaosMonkeys : list ChaosMonkey;
  leaders : gmap Z (gset Z);
  cachedConfig : option ShardConfig;
  cachedNextConfig : option ShardConfig;
  lastConfigOk : Z;
  cm_done : bool;
}.

Definition set_infra x cm := mkManager (dcfg cm) x (nextGid cm) (cgroups cm) (isolated cm) (chaosMonkeys cm) (leaders cm) (cachedConfig cm) (cachedNextConfig cm) (lastConfigOk cm) (cm_done cm).
Definition set_nextGid x cm := mkManager (dcfg cm) (infra cm) x (cgroups cm) (isolated cm) (chaosMonkeys cm) (leaders cm) (cachedConfig cm) (cachedNextConfig cm) (lastConfigOk cm) (cm_done cm).
Definition set_cgroups x cm := mkManager (dcfg cm) (infra cm) (nextGid cm) x (isolated cm) (chaosMonkeys cm) (leaders cm) (cachedConfig cm) (cachedNextConfig cm) (lastConfigOk cm) (cm_done cm).
Definition set_isolated x cm := mkManager (dcfg cm) (infra cm) (nextGid cm) (cgroups cm) x (chaosMonkeys cm) (leaders cm) (cachedConfig cm) (cachedNextConfig cm) (lastConfigOk cm) (cm_done cm).
Definition set_monkeys x cm := mkManager (dcfg cm) (infra cm) (nextGid cm) (cgroups cm) (isolated cm) x (leaders cm) (cachedConfig cm) (cachedNextConfig cm) (lastConfigOk cm) (cm_done cm).
Definition set_leaders x cm := mkManager (dcfg cm) (infra cm) (nextGid cm) (cgroups cm) (isolated cm) (chaosMonkeys cm) x (cachedConfig cm) (cachedNextConfig cm) (lastConfigOk cm) (cm_done cm).
Definition set_cached c n ok cm := mkManager (dcfg cm) (infra cm) (nextGid cm) (cgroups cm) (isolated cm) (chaosMonkeys cm) (leaders cm) c n ok (cm_done cm).
Definition set_done x cm := mkManager (dcfg cm) (infra cm) (nextGid cm) (cgroups cm) (isolated cm) (chaosMonkeys cm) (leaders cm) (cachedConfig cm) (cachedNextConfig cm) (lastConfigOk cm) x.

Definition NewClusterManager (d : DemoConfig) : ClusterManager :=
  mkManager d (mkConfig MakeNetwork ∅) (Gid1 + 1) ∅ ∅ [] ∅ None None 0 false.

Section manager.
Context (ServerName : Z → nat → string).
Implicit Types (cm : ClusterManager) (gid srv : Z).

(** ** Leaders: the listener that [Init] registers *)
Definition leaderChange gid srv (isLeader : bool) cm : ClusterManager :=
  let ls := default ∅ (leaders cm !! gid) in
  set_leaders (<[gid := if isLeader then {[srv]} ∪ ls else ls ∖ {[srv]}]> (leaders cm)) cm.

(** ** Initialisation: the configuration that [Init] stores first, given the
    servers of the groups it started *)
Definition initialConfig (servers : gmap Z (list string)) : outcome (option ShardConfig) :=
  r ← Join MakeShardConfig [(Gid1, default [] (servers !! Gid1))];
  Ret (Rebalance r.1).

(** ** Cached configurations *)

(** A nil [cachedConfig] is dereferenced. *)
Definition updateCachedCfg (now : Z) (newcfg : ShardConfig) cm : outcome ClusterManager :=
  match cachedConfig cm with
  | None => Panic NilDeref
  | Some c =>
      if decide (Num c ≤ Num newcfg) then
        let c' := if decide (Num c < Num newcfg) then newcfg else c in
        Ret (set_cached (Some c') (cachedNextConfig cm) now cm)
      else Ret cm
  end.

Definition updateCachedNextCfg (newcfg : ShardConfig) cm : outcome ClusterManager :=
  match cachedNextConfig cm with
  | None => Panic NilDeref
  | Some c =>
      if decide (Num c < Num newcfg) then Ret (set_cached (cachedConfig cm) (Some newcfg) (lastConfigOk cm) cm)
      else Ret cm
  end.

(** The two queries that [initConfigCache] makes; [None] is a nil answer. *)
Definition initConfigCache (now : Z) (cfg nextCfg : option ShardConfig) cm : ClusterManager * bool :=
  match cfg, nextCfg with
  | Some c, Some n => (set_cached (Some c) (Some n) now cm, true)
  | _, _ => (cm, false)
  end.

Definition hasPendingMigration cm : bool :=
  match cachedConfig cm, cachedNextConfig cm with
  | Some c, Some n => bool_decide (Num c ≠ Num n)
  | _, _ => false
  end.

(** ** Status *)

Record ServerState := mkServerState {
  Index : nat; Name : string; IsLeader : bool; IsAlive : bool; IsIsolated : bool }.
Record GroupState := mkGroupState {
  GID : Z; Servers : list ServerState; gs_NShards : Z; SrvNames : list string }.
Record ClusterState := mkClusterState {
  st_Groups : list GroupState; st_Config : ShardConfig; HasPending : bool;
  PendingConfigNum : Z; ConfigCached : bool }.

Definition staleConfigTimeout : Z := 5.

Definition isAlive (sg : ServerGrp) (i : nat) : bool := default false (connected sg !! i).

Definition serverState gid cm (sg : ServerGrp) (i : nat) : outcome ServerState :=
  name ← index (servernames sg) (Z.of_nat i);
  Ret (mkServerState i name
    (bool_decide (Z.of_nat i ∈ default ∅ (leaders cm !! gid)))
    (isAlive sg i)
    (bool_decide (i ∈ default ∅ (isolated cm !! gid)))).

Fixpoint serverStates gid cm (sg : ServerGrp) (ids : list nat) : outcome (list ServerState) :=
  match ids with
  | [] => Ret []
  | i :: ids => x ← serverState gid cm sg i; xs ← serverStates gid cm sg ids; Ret (x :: xs)
  end.

Definition countShards (cfg : ShardConfig) gid : Z :=
  foldr (λ g n, if decide (g = gid) then n + 1 else n) 0 (Shards cfg).

(** The loop over [cm.groups], in the order [order]. *)
Fixpoint groupStates (order : list Z) (cfg : ShardConfig) cm : outcome (list GroupState) :=
  match order with
  | [] => Ret []
  | gid :: order =>
      match Group gid (infra cm) with
      | None => groupStates order cfg cm
      | Some sg =>
          ss ← serverStates gid cm sg (seq 0 (grpN sg));
          rest ← groupStates order cfg cm;
          Ret (mkGroupState gid ss (countShards cfg gid) (servernames sg) :: rest)
      end
  end.

Definition Status (now : Z) (order : list Z) cm : outcome ClusterState :=
  let cfg := default MakeShardConfig (cachedConfig cm) in
  let configCached :=
    match cachedConfig cm with
    | None => false
    | Some _ => bool_decide (staleConfigTimeout < now - lastConfigOk cm)
    end in
  match cachedNextConfig cm with
  | None => Panic NilDeref
  | Some nextCfg =>
      gs ← groupStates order cfg cm;
      Ret (mkClusterState gs cfg (hasPendingMigration cm) (Num nextCfg) configCached)
  end.

(** ** Faults *)

Definition outOfRange srv (sg : ServerGrp) : bool := bool_decide (srv < 0 ∨ Z.of_nat (grpN sg) ≤ srv).

(** The loop [for i := 0; i < sg.N(); i++] that keeps the connected servers. *)
Definition aliveIds (sg : ServerGrp) : list nat := filter (λ i, isAlive sg i = true) (seq 0 (grpN sg)).

Definition KillServer (p : nat → Persister) gid srv cm : outcome ClusterManager :=
  match Group gid (infra cm) with
  | None => Ret cm
  | Some sg =>
      if outOfRange srv sg then Ret cm
      else sg ← ShutdownServer ServerName p (Z.to_nat srv) sg; Ret (set_infra (putGroup gid sg (infra cm)) cm)
  end.

Definition IsolateNode gid srv cm : outcome ClusterManager :=
  match Group gid (infra cm) with
  | None => Ret cm
  | Some sg =>
      if outOfRange srv sg then Ret cm
      else
        let s := Z.to_nat srv in
        let rest := filter (λ i, i ≠ s) (aliveIds sg) in
        sg ← Partition rest [s] sg;
        Ret (set_isolated (<[gid := {[s]}]> (isolated cm)) (set_infra (putGroup gid sg (infra cm)) cm))
  end.

Definition unmark gid (s : nat) (iso : gmap Z (gset nat)) : gmap Z (gset nat) :=
  match iso !! gid with
  | Some m => let m := m ∖ {[s]} in if decide (m = ∅) then delete gid iso else <[gid := m]> iso
  | None => iso
  end.

Definition RecoverNode gid srv cm : outcome ClusterManager :=
  match Group gid (infra cm) with
  | None => Ret cm
  | Some sg =>
      if outOfRange srv sg then Ret cm
      else
        let s := Z.to_nat srv in
        let alive := filter (λ i, i ≠ s) (aliveIds sg) in
        sg ← Partition (alive ++ [s]) [] sg;
        Ret (set_isolated (unmark gid s (isolated cm)) (set_infra (putGroup gid sg (infra cm)) cm))
  end.

Definition reapplyIsolation gid cm : outcome ClusterManager :=
  let isoMap := default ∅ (isolated cm !! gid) in
  if decide (isoMap = ∅) then Ret cm
  else
    match Group gid (infra cm) with
    | None => Ret cm
    | Some sg =>
        let iso := filter (λ i, i ∈ isoMap) (aliveIds sg) in
        let rest := filter (λ i, i ∉ isoMap) (aliveIds sg) in
        if decide (iso ≠ [] ∧ rest ≠ []) then
          sg ← Partition rest iso sg; Ret (set_infra (putGroup gid sg (infra cm)) cm)
        else Ret cm
    end.

(** The health check looks up to twenty times. *)
Fixpoint healthCheck (tries : nat) (i : nat) (sg : ServerGrp) : bool :=
  match tries with
  | O => false
  | S tries => if isAlive sg i then true else healthCheck tries i sg
  end.

(** [StartServer]: [true] when it returns nil. *)
Definition cmStartServer (env : StartEnv) gid srv cm : outcome (ClusterManager * bool) :=
  match Group gid (infra cm) with
  | None => Ret (cm, false)
  | Some sg =>
      if outOfRange srv sg then Ret (cm, false)
      else
        let i := Z.to_nat srv in
        r ← StartServer ServerName i (se_names env) (se_up env) (se_ptr env) sg;
        if r.2 : bool then
          sg ← ConnectOne i r.1;
          cm ← reapplyIsolation gid (set_infra (putGroup gid sg (infra cm)) cm);
          match Group gid (infra cm) with
          | Some sg => Ret (cm, healthCheck 20 i sg)
          | None => Ret (cm, false)
          end
        else Ret (set_infra (putGroup gid r.1 (infra cm)) cm, false)
  end.

Definition KillGroup (p : nat → Persister) gid cm : outcome ClusterManager :=
  match Group gid (infra cm) with
  | None => Ret cm
  | Some sg => sg ← Shutdown ServerName p sg; Ret (set_infra (putGroup gid sg (infra cm)) cm)
  end.

Definition StartGroup (env : nat → StartEnv) gid cm : outcome (ClusterManager * bool) :=
  match Group gid (infra cm) with
  | None => Ret (cm, false)
  | Some sg => sg ← StartServers ServerName env sg; Ret (set_infra (putGroup gid sg (infra cm)) cm, true)
  end.

(** ** The network's switches *)

Definition cmSetReliable (yes : bool) cm : ClusterManager :=
  let cfg := Config_SetReliable yes (infra cm) in
  set_infra (if yes then Config_SetLongReordering false (Config_SetLongDelays false cfg)
             else Config_SetLongDelays true cfg) cm.
Definition cmSetLongDelays (yes : bool) cm : ClusterManager :=
  set_infra (Config_SetLongDelays yes (infra cm)) cm.
Definition cmSetLongReordering (yes : bool) cm : ClusterManager :=
  let cfg := Config_SetLongReordering yes (infra cm) in
  set_infra (if yes then Config_SetLongDelays true (Config_SetReliable false cfg) else cfg) cm.

Definition cmSetDropRate (rate : Z) cm : ClusterManager := set_infra (Config_SetDropRate rate (infra cm)) cm.
Definition cmSetShortDelayMs (ms : Z) cm : ClusterManager := set_infra (Config_SetShortDelayMs ms (infra cm)) cm.
Definition cmSetLongDelayMs (ms : Z) cm : ClusterManager := set_infra (Config_SetLongDelayMs ms (infra cm)) cm.

(** ** New groups *)

(** [for cm.groups[cm.nextGid] { cm.nextGid++ }] *)
Fixpoint skipGids (fuel : nat) (groups : gset Z) gid : option Z :=
  match fuel with
  | O => None
  | S fuel => if decide (gid ∈ groups) then skipGids fuel groups (gid + 1) else Some gid
  end.

Definition NewGid cm : option (ClusterManager * Z) :=
  gid ← skipGids (S (size (cgroups cm))) (cgroups cm) (nextGid cm);
  Some (set_nextGid (gid + 1) cm, gid).

(** One round of the loops of [JoinGroup] and [LeaveGroup]: the configuration
    that [Query] returns after [InitController], and whether [ChangeConfigTo]
    completed. *)
Record Round := mkRound { rd_cfg : ShardConfig; rd_changed : bool }.

(** [None]: the rounds ended before the loop did. *)
Fixpoint joinRounds (now : Z) (rounds : list Round) gid (srvNames : list string) cm
    : outcome (option (ClusterManager * bool)) :=
  match rounds with
  | [] => Ret None
  | r :: rounds =>
      j ← JoinBalance (Copy (rd_cfg r)) [(gid, srvNames)];
      if j.2 : bool then
        if rd_changed r then
          match j.1 with
          | None => Ret None
          | Some newcfg =>
              cm ← updateCachedCfg now newcfg cm;
              cm ← updateCachedNextCfg newcfg cm;
              Ret (Some (cm, true))
          end
        else joinRounds now rounds gid srvNames cm
      else Ret (Some (cm, true))
  end.

Definition JoinGroup (now : Z) (namess : list (list string)) (env : nat → StartEnv) (rounds : list Round)
    gid cm : outcome (option (ClusterManager * bool)) :=
  cm ← match Group gid (infra cm) with
       | Some _ => Ret cm
       | None =>
           cfg ← MakeGroupStart ServerName gid (Z.to_nat (Nsrv (dcfg cm))) namess env (infra cm);
           Ret (set_cgroups ({[gid]} ∪ cgroups cm) (set_infra cfg cm))
       end;
  match Group gid (infra cm) with
  | None => Panic NilDeref
  | Some sg => joinRounds now rounds gid (servernames sg) cm
  end.

(** The loop of [LeaveGroup]: [Some (inl _)] leaves the loop, [Some (inr _)]
    returns that answer. *)
Fixpoint leaveRounds (now : Z) (rounds : list Round) gid cm
    : outcome (option (ClusterManager + ClusterManager * bool)) :=
  match rounds with
  | [] => Ret None
  | r :: rounds =>
      let newcfg := Copy (rd_cfg r) in
      match Groups newcfg !! gid with
      | None => Ret (Some (inl cm))
      | Some _ =>
          if decide (size (Groups newcfg) ≤ 1)%nat then Ret (Some (inr (cm, false)))
          else
            l ← LeaveBalance newcfg [gid];
            if l.2 : bool then
              if rd_changed r then
                match l.1 with
                | None => Ret None
                | Some newcfg =>
                    cm ← updateCachedCfg now newcfg cm;
                    cm ← updateCachedNextCfg newcfg cm;
                    Ret (Some (inl cm))
                end
              else leaveRounds now rounds gid cm
            else Ret (Some (inr (cm, false)))
      end
  end.

(** ** Chaos monkeys *)

Definition StartChaos gid cm : ClusterManager * bool :=
  match Group gid (infra cm) with
  | None => (cm, false)
  | Some _ =>
      if decide (Exists (λ m, mk_gid m = gid) (chaosMonkeys cm)) then (cm, true)
      else (set_monkeys (chaosMonkeys cm ++ [mkChaosMonkey gid ∅]) cm, true)
  end.

(** The first monkey of the group is stopped and removed. *)
Fixpoint dropMonkey gid (ms : list ChaosMonkey) : list ChaosMonkey :=
  match ms with
  | [] => []
  | m :: ms => if decide (mk_gid m = gid) then ms else m :: dropMonkey gid ms
  end.

Definition StopChaos gid cm : ClusterManager := set_monkeys (dropMonkey gid (chaosMonkeys cm)) cm.

(** The groups that [ChaosStatus] shows: those listed and those of the cached
    configuration. *)
Definition allGids cm : gset Z :=
  cgroups cm ∪ match cachedConfig cm with Some cfg => dom (Groups cfg) | None => ∅ end.

(** The text of the summary gives the connected servers and all of them. *)
Record ChaosState := mkChaosState { cs_Active : bool; cs_GID : Z; cs_alive : nat; cs_total : nat }.

Definition ChaosStatus (order : list Z) cm : list ChaosState :=
  omap (λ gid, sg ← Group gid (infra cm);
    Some (mkChaosState (bool_decide (Exists (λ m, mk_gid m = gid) (chaosMonkeys cm))) gid
      (length (aliveIds sg)) (grpN sg))) order.

(** ** [LeaveGroup] and [Stop] *)

Definition LeaveGroup (now : Z) (p : nat → Persister) (rounds : list Round) gid cm
    : outcome (option (ClusterManager * bool)) :=
  if decide (gid = 0) then Ret (Some (cm, false))
  else
    match Group gid (infra cm) with
    | None =>
        if decide (gid ∈ cgroups cm) then Panic (GoPanic "LeaveGroup") else Ret (Some (cm, true))
    | Some _ =>
        if decide (size (cfg_groups (infra cm)) ≤ 1)%nat then Ret (Some (cm, false))
        else
          r ← leaveRounds now rounds gid cm;
          match r with
          | None => Ret None
          | Some (inr r) => Ret (Some r)
          | Some (inl cm) =>
              cfg ← match Group gid (infra cm) with
                    | None => Ret (infra cm)
                    | Some sg =>
                        sg ← Shutdown ServerName p sg;
                        ExitGroup ServerName p gid (putGroup gid sg (infra cm))
                    end;
              Ret (Some (StopChaos gid (set_cgroups (cgroups cm ∖ {[gid]}) (set_infra cfg cm)), true))
          end
    end.

(** [Stop] exits every registered group, in the order [order]. *)
Fixpoint exitGroups (p : nat → Persister) (order : list Z) (cfg : Config) : outcome Config :=
  match order with
  | [] => Ret cfg
  | gid :: order => cfg ← ExitGroup ServerName p gid cfg; exitGroups p order cfg
  end.

Definition Stop (p : nat → Persister) (order : list Z) cm : outcome ClusterManager :=
  cfg ← exitGroups p order (infra cm);
  Ret (set_done true (set_monkeys [] (set_infra cfg cm))).
End manager.

(** ** One chaos monkey and its group ([chaosmonkey.go])

    A tick only chooses a victim and marks it; goroutines shut the victim down
    and restart it later.  [victims] are chosen but not yet shut down. *)

Record Chaos := mkChaos { ch_up : list bool; pending : gset nat; victims : list nat; downs : list nat }.

Definition ch_connected (c : Chaos) (i : nat) : bool := default false (ch_up c !! i).

(** Marks of servers that are connected again are removed. *)
Definition cleanPending (c : Chaos) : gset nat := filter (λ i, ch_connected c i = false) (pending c).

Definition eligible (c : Chaos) : list nat :=
  filter (λ i, ch_connected c i = true ∧ i ∉ cleanPending c) (seq 0 (length (ch_up c))).

Definition quorum (c : Chaos) : nat := length (ch_up c) / 2 + 1.

(** [tick]; [k] is [rand.Intn(len(eligible))]. *)
Definition tick (k : nat) (c : Chaos) : option Chaos :=
  let p := cleanPending c in
  let es := eligible c in
  if decide (quorum c < length es)%nat then
    idx ← es !! k;
    Some (mkChaos (ch_up c) ({[idx]} ∪ p) (victims c ++ [idx]) (downs c))
  else Some (mkChaos (ch_up c) p (victims c) (downs c)).

(** [killNode] up to the shutdown of the [v]th victim. *)
Definition killNode (v : nat) (c : Chaos) : option Chaos :=
  idx ← victims c !! v;
  Some (mkChaos (<[idx := false]> (ch_up c)) (pending c) (delete v (victims c)) (downs c ++ [idx])).

(** [restartNode] of a server that was shut down, when the daemon comes up. *)
Definition restartNode (v : nat) (c : Chaos) : option Chaos :=
  idx ← downs c !! v;
  Some (mkChaos (<[idx := true]> (ch_up c)) (pending c ∖ {[idx]}) (victims c) (delete v (downs c))).

(** ** The pool of clerks ([clerkpool.go]): a channel of capacity [size] *)

Record ClerkPool := mkClerkPool { pool : list nat; cap : nat }.

Definition NewClerkPool (size : nat) : ClerkPool := mkClerkPool (seq 0 size) size.
(** [None]: the call blocks. *)
Definition Borrow (p : ClerkPool) : option (ClerkPool * nat) :=
  match pool p with [] => None | ck :: rest => Some (mkClerkPool rest (cap p), ck) end.
Definition Return (ck : nat) (p : ClerkPool) : option ClerkPool :=
  if decide (length (pool p) < cap p)%nat then Some (mkClerkPool (pool p ++ [ck]) (cap p)) else None.
