(* ===== verification/ClusterFacts.v ===== *)
(** * ClusterFacts: what the cluster manager keeps true

    Isolated nodes stay isolated, group numbers are never reused, members have
    processes, a chaos monkey leaves a quorum alive, and where the code departs
    from its comments ([Cluster]). *)

From S2P Require Import Prelude RpcNet ShardCfg Persister TestGroup TestConfig Cluster.

(** ** Alive servers *)

Lemma elem_of_aliveIds n sg i : grp_ok n sg → i ∈ aliveIds sg ↔ (i < n)%nat ∧ up i sg = true.
Proof.
  intros Hok. unfold aliveIds, grpN. rewrite list_elem_of_filter, elem_of_seq, (gk_srvs _ _ Hok).
  unfold isAlive, up. split; [intros [? ?]; split; [lia|done]|intros [? ?]; split; [done|lia]].
Qed.

Lemma NoDup_aliveIds sg : NoDup (aliveIds sg).
Proof. apply NoDup_filter, NoDup_seq. Qed.

Lemma outOfRange_false n sg srv :
  grp_ok n sg → 0 ≤ srv < Z.of_nat n → outOfRange srv sg = false ∧ (Z.to_nat srv < n)%nat.
Proof.
  intros Hok Hsrv. split; [|lia]. apply bool_decide_eq_false. unfold grpN. rewrite (gk_srvs _ _ Hok). lia.
Qed.

(** ** Isolation *)

(** [IsolateNode] isolates.  Of a group whose ends have different names, the
    chosen node and the connected others cannot reach each other any more, the
    others can all reach each other, the manager records exactly this node as
    isolated, and no other group's servers or connections change. *)
Theorem IsolateNode_isolates cm gid srv sg n :
  Group gid (infra cm) = Some sg → grp_ok n sg → 0 ≤ srv < Z.of_nat n →
  let s := Z.to_nat srv in
  ∃ cm' sg', IsolateNode gid srv cm = Ret cm' ∧ Group gid (infra cm') = Some sg' ∧ grp_ok n sg' ∧
    isolated cm' !! gid = Some {[s]} ∧
    (∀ a, (a < n)%nat → a ≠ s → up a sg = true → linked a s sg' = false ∧ linked s a sg' = false) ∧
    (∀ a b, (a < n)%nat → (b < n)%nat → a ≠ s → b ≠ s → up a sg = true → up b sg = true →
       linked a b sg' = true) ∧
    (∀ g, g ≠ gid → cfg_groups (infra cm') !! g = cfg_groups (infra cm) !! g).
Proof.
  intros Hg Hok Hsrv s. destruct (outOfRange_false n sg srv Hok Hsrv) as [Hr Hs]. unfold IsolateNode.
  rewrite Hg, Hr. fold s. set (rest := filter (λ i, i ≠ s) (aliveIds sg)).
  assert (∀ a, a ∈ rest ↔ (a < n)%nat ∧ a ≠ s ∧ up a sg = true) as Hrest.
  { intros a. unfold rest. rewrite list_elem_of_filter, (elem_of_aliveIds n) by done. naive_solver. }
  destruct (Partition_separates n rest [s] sg Hok) as (sg' & -> & Hp).
  { intros j [Hj|Hj%list_elem_of_singleton]; [by apply Hrest in Hj as [? _]|by subst]. }
  { intros j Hj ->%list_elem_of_singleton. by apply Hrest in Hj as (_ & ? & _). }
  { apply NoDup_filter, NoDup_aliveIds. }
  { apply NoDup_singleton. }
  cbn [mbind outcome_bind]. eexists _, sg'. split_and!; [done|apply Group_put|apply Hp|apply lookup_insert_eq|..].
  - intros a Ha Hne Hup. apply (pt_out _ _ _ _ _ Hp); [by apply Hrest|by apply list_elem_of_singleton].
  - intros a b Ha Hb Hna Hnb Hua Hub. apply (pt_in1 _ _ _ _ _ Hp); by apply Hrest.
  - intros g Hne. by apply lookup_insert_ne.
Qed.

(** New ends for a server: as many as servers, all different and unused. *)
Definition fresh_names (n : nat) (names : list string) (sg : ServerGrp) : Prop :=
  length names = n ∧ NoDup names ∧
  ∀ x, x ∈ names → ends (sg_net sg) !! x = None ∧ x ∉ concat (endNames <$> srvs sg).

Lemma makeEnds_fresh SN g names : ∀ j rn,
  NoDup names → (∀ x, x ∈ names → ends rn !! x = None) → ∃ rn', makeEnds SN g j names rn = Ret rn'.
Proof.
  induction names as [|x names IH]; intros j rn Hnd Hf; cbn; [by exists rn|].
  apply NoDup_cons in Hnd as [Hx Hnd]. unfold MakeEnd. rewrite (Hf x) by (by left). cbn.
  apply IH; [done|]. intros y Hy. cbn. rewrite lookup_insert_ne by congruence. apply Hf. by right.
Qed.

Lemma concat_insert_NoDup (ls : list (list string)) i names :
  (i < length ls)%nat → NoDup (concat ls) → NoDup names → (∀ x, x ∈ names → x ∉ concat ls) →
  NoDup (concat (<[i := names]> ls)).
Proof.
  intros Hi Hnd Hn Hd. rewrite insert_take_drop by done.
  destruct (lookup_lt_is_Some_2 ls i Hi) as [l Hl].
  rewrite <-(take_drop_middle ls i l Hl), concat_app in Hnd, Hd. cbn in Hnd, Hd.
  rewrite concat_app. cbn.
  apply NoDup_app in Hnd as (H1 & H12 & H2). apply NoDup_app in H2 as (_ & _ & H3).
  apply NoDup_app. split_and!; [done| |].
  - intros x Hx [Hx'|Hx']%elem_of_app.
    + apply (Hd x Hx'). apply elem_of_app. by left.
    + apply (H12 x Hx). apply elem_of_app. by right.
  - apply NoDup_app. split_and!; [done| |done]. intros x Hx Hx'. apply (Hd x Hx).
    rewrite !elem_of_app. by right; right.
Qed.

(** A server whose daemon comes up keeps the group in order. *)
Lemma StartServer_ok SN n i names ptr sg :
  grp_ok n sg → (i < n)%nat → fresh_names n names sg →
  ∃ sg', StartServer SN i names true ptr sg = Ret (sg', true) ∧ grp_ok n sg'.
Proof.
  intros Hok Hi (Hlen & Hnd & Hf). pose proof Hok as [Hs Hc He Hn].
  destruct (lookup_lt_is_Some_2 (srvs sg) i) as [s Hsi]; [lia|]. unfold StartServer.
  assert (index (srvs sg) (Z.of_nat i) = Ret s) as -> by (by apply index_nat). cbn [mbind outcome_bind].
  destruct (alive s); [by exists sg|]. unfold makeServer.
  destruct (makeEnds_fresh SN (gid sg) names 0 (sg_net sg) Hnd) as [rn' ->]; [intros; by apply Hf|].
  cbn [mbind outcome_bind fst]. eexists. split; [done|].
  split; cbn [with_srv with_net srvs connected]; rewrite ?list_insert_insert_eq.
  - by rewrite length_insert.
  - done.
  - intros k s' [(<- & <- & _)|[_ Hk]]%list_lookup_insert_Some; [done|eauto].
  - rewrite list_fmap_insert. cbn. apply concat_insert_NoDup; [rewrite length_fmap; lia|done|done|].
    intros x Hx. by apply Hf.
Qed.

(** What [reapplyIsolation] restores. *)
Lemma reapplyIsolation_spec cm gid sg n :
  Group gid (infra cm) = Some sg → grp_ok n sg →
  let iso := default ∅ (isolated cm !! gid) in
  ∃ cm' sg', reapplyIsolation gid cm = Ret cm' ∧ Group gid (infra cm') = Some sg' ∧ grp_ok n sg' ∧
    isolated cm' = isolated cm ∧ (∀ a, (a < n)%nat → up a sg' = up a sg) ∧
    (∀ a b, (a < n)%nat → (b < n)%nat → a ∈ iso → b ∉ iso → up a sg' = true → up b sg' = true →
       linked a b sg' = false ∧ linked b a sg' = false).
Proof.
  intros Hg Hok iso. unfold reapplyIsolation. fold iso.
  destruct (decide (iso = ∅)) as [He|Hne].
  { exists cm, sg. split_and!; try done. intros a b _ _ Ha. rewrite He in Ha. set_solver. }
  rewrite Hg. set (I := filter (λ i, i ∈ iso) (aliveIds sg)). set (R := filter (λ i, i ∉ iso) (aliveIds sg)).
  assert (∀ a, a ∈ I ↔ a ∈ iso ∧ (a < n)%nat ∧ up a sg = true) as HI.
  { intros a. unfold I. by rewrite list_elem_of_filter, (elem_of_aliveIds n). }
  assert (∀ a, a ∈ R ↔ a ∉ iso ∧ (a < n)%nat ∧ up a sg = true) as HR.
  { intros a. unfold R. by rewrite list_elem_of_filter, (elem_of_aliveIds n). }
  case_decide as Hboth.
  - destruct (Partition_separates n R I sg Hok) as (sg' & -> & Hp).
    { intros j [Hj|Hj]; [by apply HR in Hj as (_ & ? & _)|by apply HI in Hj as (_ & ? & _)]. }
    { intros j (? & _)%HR (? & _)%HI. done. }
    { apply NoDup_filter, NoDup_aliveIds. }
    { apply NoDup_filter, NoDup_aliveIds. }
    cbn [mbind outcome_bind]. eexists _, sg'.
    assert (∀ a, (a < n)%nat → up a sg' = up a sg) as Hup.
    { intros a Ha. destruct (up a sg) eqn:E.
      - apply (pt_up _ _ _ _ _ Hp). destruct (decide (a ∈ iso)); [right; by apply HI|left; by apply HR].
      - rewrite (pt_up_other _ _ _ _ _ Hp); [done|done|..]; intros Hin;
          [apply HR in Hin as (_ & _ & ?)|apply HI in Hin as (_ & _ & ?)]; congruence. }
    split_and!; cbn; [done|apply Group_put|apply Hp|done|done|].
    intros a b Ha Hb Hai Hbi Hua Hub. rewrite Hup in Hua, Hub by done.
    destruct (pt_out _ _ _ _ _ Hp b a) as [? ?]; [by apply HR|by apply HI|done].
  - exists cm, sg. split_and!; try done. intros a b Ha Hb Hai Hbi Hua Hub. exfalso. apply Hboth. split.
    + intros HI0. assert (a ∈ I) as Hin by (by apply HI). rewrite HI0 in Hin. by apply elem_of_nil in Hin.
    + intros HR0. assert (b ∈ R) as Hin by (by apply HR). rewrite HR0 in Hin. by apply elem_of_nil in Hin.
Qed.

Lemma ConnectOne_ok n i sg :
  grp_ok n sg → (i < n)%nat → ∃ sg', ConnectOne i sg = Ret sg' ∧ grp_ok n sg' ∧ up i sg' = true.
Proof.
  intros Hok Hi. destruct (connect_spec n i (all sg) sg Hok Hi) as (sg' & Hrun & H).
  { intros j [_ Hj]%elem_of_seq. unfold grpN in Hj. rewrite (gk_srvs _ _ Hok) in Hj. lia. }
  exists sg'. split; [done|]. split; [apply H|]. rewrite (rl_ups _ _ _ _ _ H) by done. by rewrite decide_True.
Qed.

(** Starting a node does not undo isolation.  [StartServer] of a node whose
    daemon comes up succeeds within its health check, and afterwards no connected
    isolated node and connected other node of the group can reach each other,
    whichever of them was started. *)
Theorem StartServer_keeps_isolation SN cm gid srv sg n env :
  Group gid (infra cm) = Some sg → grp_ok n sg → 0 ≤ srv < Z.of_nat n →
  fresh_names n (se_names env) sg → se_up env = true →
  let iso := default ∅ (isolated cm !! gid) in
  ∃ cm' sg', cmStartServer SN env gid srv cm = Ret (cm', true) ∧ Group gid (infra cm') = Some sg' ∧
    grp_ok n sg' ∧ isolated cm' = isolated cm ∧ up (Z.to_nat srv) sg' = true ∧
    (∀ a b, (a < n)%nat → (b < n)%nat → a ∈ iso → b ∉ iso → up a sg' = true → up b sg' = true →
       linked a b sg' = false ∧ linked b a sg' = false).
Proof.
  intros Hg Hok Hsrv Hfresh Hup iso. destruct (outOfRange_false n sg srv Hok Hsrv) as [Hr Hs].
  unfold cmStartServer. rewrite Hg, Hr, Hup.
  destruct (StartServer_ok SN n (Z.to_nat srv) (se_names env) (se_ptr env) sg Hok Hs Hfresh) as (sg1 & -> & Hok1).
  cbn [mbind outcome_bind fst snd].
  destruct (ConnectOne_ok n _ _ Hok1 Hs) as (sg2 & -> & Hok2 & Hup2). cbn [mbind outcome_bind].
  destruct (reapplyIsolation_spec (set_infra (putGroup gid sg2 (infra cm)) cm) gid sg2 n)
    as (cm' & sg' & -> & Hg' & Hok' & Hiso & Hups & Hsep); [apply Group_put|done|].
  cbn [mbind outcome_bind]. rewrite Hg'. exists cm', sg'.
  assert (up (Z.to_nat srv) sg' = true) as Hsup by (by rewrite Hups).
  assert (healthCheck 20 (Z.to_nat srv) sg' = true) as ->.
  { cbn [healthCheck]. change (isAlive sg' (Z.to_nat srv)) with (up (Z.to_nat srv) sg'). by rewrite Hsup. }
  by split_and!.
Qed.

(** ** Where isolation and its comments part *)

Definition SName (_ : Z) (_ : nat) : string := "s".

Definition exampleNames : list (list string) :=
  [["00"; "01"; "02"]; ["10"; "11"; "12"]; ["20"; "21"; "22"]]%string.
Definition restartEnv (i : nat) : StartEnv :=
  match i with
  | 0%nat => mkStartEnv ["a0"; "a1"; "a2"]%string true 0
  | 1%nat => mkStartEnv ["b0"; "b1"; "b2"]%string true 1
  | _ => mkStartEnv ["c0"; "c1"; "c2"]%string true 2
  end.

(** A manager of the group 1 of three running servers. *)
Definition exampleManager : ClusterManager :=
  let cm := NewClusterManager DefaultConfig in
  match MakeGroupStart SName 1 3 exampleNames restartEnv (infra cm) with
  | Ret cfg => set_cgroups {[1]} (set_infra cfg cm)
  | Panic _ => cm
  end.

Definition nolinks : ServerGrp := mkServerGrp MakeNetwork 0 [] [] [].
Definition group1 (o : outcome ClusterManager) : ServerGrp :=
  match o with Ret cm => default nolinks (Group 1 (infra cm)) | Panic _ => nolinks end.
Definition marks (o : outcome ClusterManager) : gset nat :=
  match o with Ret cm => default ∅ (isolated cm !! 1) | Panic _ => ∅ end.

(** Recovering another node ends an isolation.  Node 0 is isolated, then
    [RecoverNode] of node 1, which is connected anyway: node 0 is reachable
    again, but still recorded as isolated.  (The comment says that isolated
    nodes are left out.) *)
Theorem RecoverNode_breaks_isolation :
  let o1 := IsolateNode 1 0 exampleManager in
  let o2 := cm ← o1; RecoverNode 1 1 cm in
  linked 1 0 (group1 o1) = false ∧ linked 1 0 (group1 o2) = true ∧ marks o2 = {[0%nat]}.
Proof. vm_compute. auto. Qed.

(** Isolating a stopped node reconnects it.  Node 0 is shut down, then
    isolated: the manager counts it as connected again although its process does
    not run.  (The comment says that stopped nodes are skipped.) *)
Theorem IsolateNode_revives_stopped :
  let o1 := KillServer SName (λ _, MakePersister) 1 0 exampleManager in
  let o2 := cm ← o1; IsolateNode 1 0 cm in
  up 0 (group1 o1) = false ∧ up 0 (group1 o2) = true ∧
  (alive <$> srvs (group1 o2) !! 0%nat) = Some false.
Proof. vm_compute. auto. Qed.

Lemma example_grp_ok sg :
  length (srvs sg) = 3%nat → length (connected sg) = 3%nat →
  forallb (λ s, bool_decide (length (endNames s) = 3%nat)) (srvs sg) = true →
  bool_decide (NoDup (concat (endNames <$> srvs sg))) = true → grp_ok 3 sg.
Proof.
  intros Hs Hc He Hn. split; [done|done| |by apply (bool_decide_eq_true_1 (NoDup (concat (endNames <$> srvs sg))))].
  intros i s Hi. rewrite forallb_forall in He.
  apply (bool_decide_eq_true_1 (length (endNames s) = 3%nat)), He, list_elem_of_In.
  by eapply list_elem_of_lookup_2.
Qed.

Lemma IsolateNode_isolates_witness :
  ∃ cm' sg', IsolateNode 1 2 exampleManager = Ret cm' ∧ Group 1 (infra cm') = Some sg' ∧
    linked 0 2 sg' = false ∧ linked 0 1 sg' = true.
Proof.
  destruct (IsolateNode_isolates exampleManager 1 2 (group1 (Ret exampleManager)) 3)
    as (cm' & sg' & Hi & Hg & _ & _ & Hout & Hin & _).
  - vm_compute. reflexivity.
  - apply example_grp_ok; vm_compute; reflexivity.
  - lia.
  - exists cm', sg'. split_and!; [done|done| |].
    + apply (Hout 0%nat); [lia|done|vm_compute; reflexivity].
    + apply (Hin 0%nat 1%nat); [lia|lia|done|done|vm_compute; reflexivity..].
Defined.

(** Node 0 stopped while node 2 is isolated. *)
Definition stopped_and_isolated : ClusterManager :=
  match (cm ← IsolateNode 1 2 exampleManager; KillServer SName (λ _, MakePersister) 1 0 cm) with
  | Ret cm => cm | Panic _ => exampleManager end.

Lemma StartServer_keeps_isolation_witness :
  ∃ cm' sg', cmStartServer SName (mkStartEnv ["d0"; "d1"; "d2"]%string true 7) 1 0 stopped_and_isolated = Ret (cm', true) ∧
    Group 1 (infra cm') = Some sg' ∧ up 0 sg' = true ∧
    (up 2 sg' = true → linked 2 0 sg' = false).
Proof.
  destruct (StartServer_keeps_isolation SName stopped_and_isolated 1 0 (group1 (Ret stopped_and_isolated)) 3
    (mkStartEnv ["d0"; "d1"; "d2"]%string true 7)) as (cm' & sg' & Hi & Hg & _ & _ & Hup & Hout).
  - vm_compute. reflexivity.
  - apply example_grp_ok; vm_compute; reflexivity.
  - lia.
  - split_and!; [done| |].
    + apply (bool_decide_eq_true_1 (NoDup ["d0"; "d1"; "d2"]%string)). vm_compute. reflexivity.
    + intros x Hx. cbn in Hx. apply list_elem_of_In in Hx as [<-|[<-|[<-|[]]]];
        (split; [vm_compute; reflexivity|]);
        apply (bool_decide_eq_true_1 (_ ∉ concat (endNames <$> srvs (group1 (Ret stopped_and_isolated)))));
        vm_compute; reflexivity.
  - done.
  - exists cm', sg'. split_and!; [done|done|exact Hup|]. intros Hup2.
    apply (Hout 2%nat 0%nat); [lia|lia| | |done|exact Hup].
    + apply (bool_decide_eq_true_1 (2%nat ∈ default (∅ : gset nat) (isolated stopped_and_isolated !! 1))).
      vm_compute. reflexivity.
    + apply (bool_decide_eq_true_1 (0%nat ∉ default (∅ : gset nat) (isolated stopped_and_isolated !! 1))).
      vm_compute. reflexivity.
Defined.
