(* ===== verification/ClusterMembers.v ===== *)
(** * ClusterMembers: membership, chaos and start-up of the demonstration cluster

    Group numbers, the chaos monkeys' quorum, the invariant of the manager under
    all its operations, and the start-up parameters ([Cluster]). *)

From S2P Require Import Prelude RpcNet ShardCfg Persister TestGroup TestConfig Cluster ClusterFacts.

(** ** Group numbers *)

Lemma skipGids_None fuel gs g : skipGids fuel gs g = None → ∀ i, 0 ≤ i < Z.of_nat fuel → g + i ∈ gs.
Proof.
  revert g. induction fuel as [|fuel IH]; intros g H i Hi; [lia|]. cbn in H.
  case_decide as Hg; [|done]. destruct (decide (i = 0)) as [->|Hne]; [by rewrite Z.add_0_r|].
  replace (g + i) with (g + 1 + (i - 1)) by lia. apply IH; [done|lia].
Qed.

Lemma skipGids_Some fuel gs g r : skipGids fuel gs g = Some r → r ∉ gs ∧ g ≤ r.
Proof.
  revert g. induction fuel as [|fuel IH]; intros g H; [done|]. cbn in H.
  case_decide as Hg; [apply IH in H as [? ?]; split; [done|lia]|]. injection H as <-. by split.
Qed.

(** The loop ends: the groups are finitely many. *)
Lemma skipGids_terminates gs g : ∃ r, skipGids (S (size gs)) gs g = Some r.
Proof.
  destruct (skipGids (S (size gs)) gs g) as [r|] eqn:E; [by exists r|]. exfalso.
  pose proof (skipGids_None _ _ _ E) as H.
  assert (list_to_set (seqZ g (Z.of_nat (S (size gs)))) ⊆ gs) as Hsub.
  { intros x Hx%elem_of_list_to_set. apply elem_of_seqZ in Hx.
    replace x with (g + (x - g)) by lia. apply H. lia. }
  apply subseteq_size in Hsub. rewrite size_list_to_set in Hsub by apply NoDup_seqZ.
  rewrite length_seqZ in Hsub. lia.
Qed.

(** Calls of [NewGid] while other operations change the groups. *)
Fixpoint newGids (gss : list (gset Z)) (cm : ClusterManager) : option (list Z) :=
  match gss with
  | [] => Some []
  | gs :: gss => r ← NewGid (set_cgroups gs cm); ids ← newGids gss r.1; Some (r.2 :: ids)
  end.

(** [NewGid] returns, and never the same number twice.  Whatever the groups
    are at each call, its loop ends, the numbers it returns are not the number of
    a current group, and they increase from call to call. *)
Theorem NewGid_unique gss cm :
  ∃ ids, newGids gss cm = Some ids ∧ Forall2 (λ g gs, g ∉ gs) ids gss ∧
    Sorted.StronglySorted Z.lt ids ∧ Forall (λ g, nextGid cm ≤ g) ids.
Proof.
  revert cm. induction gss as [|gs gss IH]; intros cm; [exists []; repeat constructor|]. cbn [newGids].
  unfold NewGid. cbn [cgroups set_cgroups nextGid].
  destruct (skipGids_terminates gs (nextGid cm)) as [r Hr]. rewrite Hr. cbn [mbind option_bind fst snd].
  destruct (skipGids_Some _ _ _ _ Hr) as [Hnin Hle].
  destruct (IH (set_nextGid (r + 1) (set_cgroups gs cm))) as (ids & -> & Hf & Hs & Hge). cbn in Hge |- *.
  exists (r :: ids). split_and!; [done|by constructor| |].
  - constructor; [done|]. eapply Forall_impl; [exact Hge|]. intros x Hx. cbn in Hx. lia.
  - constructor; [done|]. eapply Forall_impl; [exact Hge|]. intros x Hx. cbn in Hx. lia.
Qed.

(** ** The chaos monkey *)

Definition aliveCount (c : Chaos) : nat := length (filter (λ b : bool, b = true) (ch_up c)).

Inductive ChaosStep := ChTick (k : nat) | ChKill (v : nat) | ChRestart (v : nat).

Definition chaosStep (l : ChaosStep) (c : Chaos) : option Chaos :=
  match l with ChTick k => tick k c | ChKill v => killNode v c | ChRestart v => restartNode v c end.

Fixpoint chaosRun (ls : list ChaosStep) (c : Chaos) : option Chaos :=
  match ls with [] => Some c | l :: ls => c' ← chaosStep l c; chaosRun ls c' end.

(** The victim of a tick is shut down before the next tick. *)
Fixpoint promptRun (ls : list ChaosStep) (c : Chaos) : option Chaos :=
  match ls with
  | [] => Some c
  | l :: ls =>
      match l, victims c with
      | ChTick _, _ :: _ => None
      | _, _ => c' ← chaosStep l c; promptRun ls c'
      end
  end.

Definition startChaos (n : nat) : Chaos := mkChaos (replicate n true) ∅ [] [].

Lemma aliveCount_insert (ups : list bool) (i : nat) (b : bool) :
  (length (filter (λ b : bool, b = true) ups) ≤
   (if b then 0 else 1) + length (filter (λ b : bool, b = true) (<[i := b]> ups)))%nat.
Proof.
  destruct (ups !! i) as [x|] eqn:E.
  - pose proof (filter_insert_length (λ b : bool, b = true) ups i x b E). destruct b, x; repeat case_decide; try done; lia.
  - rewrite list_insert_ge by (by apply lookup_ge_None). lia.
Qed.

(** The eligible servers are connected. *)
Lemma eligible_alive c : (length (eligible c) ≤ aliveCount c)%nat.
Proof.
  unfold eligible, aliveCount. set (P := cleanPending c). clearbody P.
  assert (∀ (f : nat → bool) ups off, (∀ i, (i < length ups)%nat → f (off + i)%nat = default false (ups !! i)) →
    (length (filter (λ i, f i = true ∧ i ∉ P) (seq off (length ups))) ≤
     length (filter (λ b : bool, b = true) ups))%nat) as H.
  { intros f. induction ups as [|b ups IH]; intros off Hf; [done|]. cbn [length seq]. rewrite !filter_cons.
    assert (f off = b) as Hb by (specialize (Hf 0%nat); cbn in Hf; rewrite Nat.add_0_r in Hf; apply Hf; lia).
    assert (∀ i, (i < length ups)%nat → f (S off + i)%nat = default false (ups !! i)) as Hf'.
    { intros i Hi. specialize (Hf (S i)). cbn in Hf. rewrite Nat.add_succ_r in Hf. apply Hf. lia. }
    specialize (IH _ Hf'). repeat case_decide; cbn [length]; try lia. naive_solver congruence. }
  apply H. done.
Qed.

Definition chaos_ok (c : Chaos) : Prop :=
  (quorum c + length (victims c) ≤ aliveCount c)%nat.

Lemma chaosStep_ok l c c' :
  chaos_ok c → (∀ k, l = ChTick k → victims c = []) → chaosStep l c = Some c' →
  chaos_ok c' ∧ quorum c' = quorum c.
Proof.
  unfold chaos_ok. intros Hok Hprompt Hstep. destruct l as [k|v|v]; cbn in Hstep.
  - unfold tick in Hstep. pose proof (eligible_alive c) as He. rewrite (Hprompt k eq_refl) in *.
    case_decide as Hq; [|by injection Hstep as <-].
    apply bind_Some in Hstep as (idx & _ & [= <-]). split; [|done].
    change (quorum c + 1 ≤ aliveCount c)%nat. lia.
  - apply bind_Some in Hstep as (idx & Hv & [= <-]). unfold quorum, aliveCount in *. cbn.
    rewrite length_insert. split; [|done].
    pose proof (lookup_lt_Some _ _ _ Hv). rewrite length_delete by eauto.
    pose proof (aliveCount_insert (ch_up c) idx false). cbn in *. lia.
  - apply bind_Some in Hstep as (idx & Hv & [= <-]). unfold quorum, aliveCount in *. cbn.
    rewrite length_insert. split; [|done]. pose proof (aliveCount_insert (ch_up c) idx true). cbn in *. lia.
Qed.

(** A chaos monkey leaves a quorum.  From a group of servers that are all
    up, if every victim is shut down before the next tick, then at every moment a
    majority of the servers is connected, whichever victims are drawn and
    whenever they are restarted. *)
Theorem chaos_keeps_quorum n ls c :
  (1 ≤ n)%nat → promptRun ls (startChaos n) = Some c → (n / 2 + 1 ≤ aliveCount c)%nat.
Proof.
  intros Hn Hrun. cut (chaos_ok c ∧ quorum c = n / 2 + 1)%nat.
  { unfold chaos_ok. intros [? Hq]. rewrite Hq in *. lia. }
  assert (chaos_ok (startChaos n) ∧ quorum (startChaos n) = n / 2 + 1)%nat as H0.
  { unfold chaos_ok, quorum, aliveCount. cbn [startChaos ch_up victims length]. rewrite length_replicate. split; [|done].
    assert (filter (λ b : bool, b = true) (replicate n true) = replicate n true) as ->.
    { clear. induction n as [|n IH]; [done|]. cbn [replicate].
      rewrite filter_cons_True by done. by rewrite IH. }
    rewrite length_replicate. pose proof (Nat.div_lt n 2). lia. }
  revert H0 Hrun. generalize (startChaos n). induction ls as [|l ls IH]; intros c0 H0 Hrun; cbn in Hrun.
  { by injection Hrun as <-. }
  assert ((∀ k, l = ChTick k → victims c0 = []) ∧ ∃ c1, chaosStep l c0 = Some c1 ∧ promptRun ls c1 = Some c)
    as [Hp (c1 & Hs & Hr)].
  { destruct l, (victims c0); try done; apply bind_Some in Hrun as (c1 & ? & ?); split; eauto; done. }
  destruct (chaosStep_ok _ _ _ (proj1 H0) Hp Hs) as [Hok Hq]. eapply IH; [|exact Hr].
  split; [done|]. rewrite Hq. apply H0.
Qed.

Lemma chaos_keeps_quorum_witness :
  (2 ≤ aliveCount (default (startChaos 3) (promptRun [ChTick 1; ChKill 0; ChTick 0; ChRestart 0; ChTick 2] (startChaos 3))))%nat.
Proof.
  apply (chaos_keeps_quorum 3 [ChTick 1; ChKill 0; ChTick 0; ChRestart 0; ChTick 2]); [lia|].
  vm_compute. reflexivity.
Defined.

(** Slow shutdowns lose the quorum.  A victim that is still connected at the
    next tick loses its mark and counts as alive: of five servers three are
    chosen before the first is shut down, and two are left. *)
Theorem chaos_quorum_race :
  ∃ c, chaosRun [ChTick 0; ChTick 1; ChTick 2; ChKill 0; ChKill 0; ChKill 0] (startChaos 5) = Some c ∧
    aliveCount c = 2%nat ∧ quorum c = 3%nat.
Proof. eexists. split; [vm_compute; reflexivity|]. by vm_compute. Qed.

(** ** The switches of the network survive what is done to groups *)

Definition flags (rn : Network) : bool * bool * bool := (reliable rn, longDelays rn, longReordering rn).

(** Operations on a group that leave the switches alone. *)
Definition keeps (f : ServerGrp → outcome ServerGrp) : Prop :=
  ∀ sg sg', f sg = Ret sg' → flags (sg_net sg') = flags (sg_net sg).

Create HintDb keeps.

Lemma keeps_ret : keeps (λ sg, Ret sg).
Proof. by intros sg sg' [= <-]. Qed.

Lemma keeps_bind f g : keeps f → keeps g → keeps (λ sg, f sg ≫= g).
Proof. intros Hf Hg sg sg' (sg1 & H1 & H2)%bind_ret_inv. rewrite (Hg _ _ H2). by apply Hf. Qed.

Lemma keeps_fold f ids : (∀ i, keeps (f i)) → keeps (foldGrp f ids).
Proof.
  intros Hf. induction ids as [|i ids IH]; [apply keeps_ret|].
  change (keeps (λ sg, f i sg ≫= foldGrp f ids)). by apply keeps_bind.
Qed.

Lemma keeps_enableEnd i j b : keeps (enableEnd i j b).
Proof. by intros sg sg' (name & _ & [= <-])%bind_ret_inv. Qed.

Lemma keeps_set_connected i b : keeps (set_connected i b).
Proof. by intros sg sg' (c & _ & [= <-])%bind_ret_inv. Qed.

#[export] Hint Resolve keeps_ret keeps_bind keeps_fold keeps_enableEnd keeps_set_connected : keeps.

Lemma keeps_connectOut i to : keeps (connectOut i to).
Proof.
  induction to as [|j to IH]; [apply keeps_ret|].
  intros sg sg' (c & _ & (sg1 & H1 & H2)%bind_ret_inv)%bind_ret_inv. rewrite (IH _ _ H2).
  destruct c; [by eapply keeps_enableEnd|by injection H1 as <-].
Qed.

Lemma keeps_connectIn i to : keeps (connectIn i to).
Proof.
  induction to as [|j to IH]; [apply keeps_ret|].
  intros sg sg' (c & _ & (sg1 & H1 & H2)%bind_ret_inv)%bind_ret_inv. rewrite (IH _ _ H2).
  destruct c; [by eapply keeps_enableEnd|by injection H1 as <-].
Qed.

Lemma keeps_disconnectOut i from : keeps (disconnectOut i from).
Proof.
  induction from as [|j from IH]; [apply keeps_ret|].
  change (keeps (λ sg, enableEnd i j false sg ≫= disconnectOut i from)). auto with keeps.
Qed.

Lemma keeps_disconnectIn i from : keeps (disconnectIn i from).
Proof.
  induction from as [|j from IH]; [apply keeps_ret|].
  change (keeps (λ sg, enableEnd j i false sg ≫= disconnectIn i from)). auto with keeps.
Qed.

#[export] Hint Resolve keeps_connectOut keeps_connectIn keeps_disconnectOut keeps_disconnectIn : keeps.

Lemma keeps_connect i to : keeps (connect i to).
Proof.
  change (keeps (λ sg, set_connected i true sg ≫= (λ sg, connectOut i to sg ≫= connectIn i to))).
  auto with keeps.
Qed.

Lemma keeps_disconnect i from : keeps (disconnect i from).
Proof.
  change (keeps (λ sg, set_connected i false sg ≫= (λ sg, disconnectOut i from sg ≫= disconnectIn i from))).
  auto with keeps.
Qed.

#[export] Hint Resolve keeps_connect keeps_disconnect : keeps.

Lemma keeps_Partition p1 p2 : keeps (Partition p1 p2).
Proof.
  assert (∀ p q, keeps (partitionSide p q)) as Hside.
  { intros p q. apply keeps_fold. intros i. change (keeps (λ sg, disconnect i q sg ≫= connect i p)).
    auto with keeps. }
  change (keeps (λ sg, partitionSide p1 p2 sg ≫= partitionSide p2 p1)). auto with keeps.
Qed.

Lemma keeps_ConnectAll : keeps ConnectAll.
Proof. intros sg sg' H. eapply keeps_fold; [|exact H]. intros i sg1 sg2. apply keeps_connect. Qed.

Section starts.
Context (SN : Z → nat → string).

Lemma keeps_ShutdownServer p i : keeps (ShutdownServer SN p i).
Proof.
  intros sg sg' (sg1 & H1 & (s & _ & [= <-])%bind_ret_inv)%bind_ret_inv. cbn.
  transitivity (flags (sg_net sg1)); [done|]. by eapply keeps_disconnect.
Qed.

Lemma keeps_Shutdown p : keeps (Shutdown SN p).
Proof. intros sg sg' H. eapply keeps_fold; [|exact H]. intros i. apply keeps_ShutdownServer. Qed.

Lemma makeEnds_flags g names : ∀ j rn rn', makeEnds SN g j names rn = Ret rn' → flags rn' = flags rn.
Proof.
  induction names as [|x names IH]; intros j rn rn' H; cbn in H; [by injection H as <-|].
  apply bind_ret_inv in H as (rn1 & H1 & H2). rewrite (IH _ _ _ H2). unfold MakeEnd in H1.
  destruct (ends rn !! x); [done|]. by injection H1 as <-.
Qed.

Lemma makeServer_flags g names rn r : makeServer SN g names rn = Ret r → flags r.1 = flags rn.
Proof. intros (rn1 & H1 & [= <-])%bind_ret_inv. by eapply makeEnds_flags. Qed.

Lemma makeServers_flags g namess : ∀ rn r, makeServers SN g namess rn = Ret r → flags r.1 = flags rn.
Proof.
  induction namess as [|names namess IH]; intros rn r H; cbn in H; [by injection H as <-|].
  apply bind_ret_inv in H as (r1 & H1 & (r2 & H2 & [= <-])%bind_ret_inv). cbn.
  rewrite (IH _ _ H2). by eapply makeServer_flags.
Qed.

Lemma StartServer_flags i names b ptr sg r :
  StartServer SN i names b ptr sg = Ret r → flags (sg_net r.1) = flags (sg_net sg).
Proof.
  intros (s & _ & H)%bind_ret_inv. destruct (alive s); [by injection H as <-|].
  apply bind_ret_inv in H as (r1 & H1%makeServer_flags & H2). by destruct b; injection H2 as <-.
Qed.

Lemma keeps_StartServers env : keeps (StartServers SN env).
Proof.
  change (keeps (λ sg, StartSrvs SN env (all sg) sg ≫= ConnectAll)). apply keeps_bind; [|apply keeps_ConnectAll].
  intros sg sg' H. eapply keeps_fold; [|exact H]. intros i sg1 sg2 (r & H1 & [= <-])%bind_ret_inv.
  by eapply StartServer_flags.
Qed.

Lemma MakeGroupStart_spec g n namess env cfg cfg' :
  MakeGroupStart SN g n namess env cfg = Ret cfg' →
  flags (cfg_net cfg') = flags (cfg_net cfg) ∧ ∃ sg, cfg_groups cfg' = <[g := sg]> (cfg_groups cfg).
Proof.
  intros (sg & (r & Hr & [= <-])%bind_ret_inv & (sg' & Hs & [= <-])%bind_ret_inv)%bind_ret_inv.
  split; [|by eexists]. cbn. rewrite (keeps_StartServers _ _ _ Hs). cbn. by eapply makeServers_flags.
Qed.

Lemma ExitGroup_spec p g cfg cfg' :
  ExitGroup SN p g cfg = Ret cfg' →
  flags (cfg_net cfg') = flags (cfg_net cfg) ∧ cfg_groups cfg' = delete g (cfg_groups cfg).
Proof.
  unfold ExitGroup, Group, lookupGroup. destruct (cfg_groups cfg !! g) as [sg|] eqn:E; cbn.
  - intros (sg' & Hs & [= <-])%bind_ret_inv. split; [exact (keeps_Shutdown p _ _ Hs)|done].
  - by intros [= <-].
Qed.
End starts.

(** ** The manager's invariant *)

Record cm_inv (cm : ClusterManager) : Prop := {
  mi_members g : g ∈ cgroups cm → is_Some (Group g (infra cm));
  mi_monkeys : NoDup (mk_gid <$> chaosMonkeys cm);
  mi_flags : longReordering (cfg_net (infra cm)) = true → reliable (cfg_net (infra cm)) = false;
}.

(** What an operation may do to the manager without breaking it. *)
Record gentle (cm cm' : ClusterManager) : Prop := {
  ge_groups : cgroups cm' = cgroups cm;
  ge_procs : dom (cfg_groups (infra cm)) ⊆ dom (cfg_groups (infra cm'));
  ge_monkeys : chaosMonkeys cm' = chaosMonkeys cm;
  ge_flags : flags (cfg_net (infra cm')) = flags (cfg_net (infra cm));
}.

Lemma is_Some_Group g cfg : is_Some (Group g cfg) ↔ g ∈ dom (cfg_groups cfg).
Proof. unfold Group, lookupGroup. by rewrite fmap_is_Some, elem_of_dom. Qed.

Lemma gentle_inv cm cm' : gentle cm cm' → cm_inv cm → cm_inv cm'.
Proof.
  intros [Hg Hp Hm Hf] [Hmem Hmk Hfl]. injection Hf as Hr _ Ho. split.
  - intros g. rewrite Hg. intros Hin%Hmem%is_Some_Group. apply is_Some_Group. set_solver.
  - by rewrite Hm.
  - by rewrite Ho, Hr.
Qed.

Lemma gentle_refl cm : gentle cm cm.
Proof. by split. Qed.

Lemma gentle_trans cm1 cm2 cm3 : gentle cm1 cm2 → gentle cm2 cm3 → gentle cm1 cm3.
Proof. intros [] []. split; [congruence|set_solver|congruence|congruence]. Qed.

(** The manager replaces a group by what a gentle operation made of it. *)
Lemma gentle_put cm g sg sg' :
  Group g (infra cm) = Some sg → flags (sg_net sg') = flags (sg_net sg) →
  gentle cm (set_infra (putGroup g sg' (infra cm)) cm).
Proof.
  intros Hg Hf. split; [done| |done|].
  - cbn. rewrite dom_insert_L. set_solver.
  - cbn. rewrite Hf. unfold Group in Hg. apply fmap_Some in Hg as (sg0 & _ & ->). done.
Qed.

Lemma gentle_isolated cm x : gentle cm (set_isolated x cm).
Proof. by split. Qed.

Lemma gentle_cached cm c n ok : gentle cm (set_cached c n ok cm).
Proof. by split. Qed.

Lemma updateCachedCfg_gentle now c cm cm' : updateCachedCfg now c cm = Ret cm' → gentle cm cm'.
Proof.
  unfold updateCachedCfg. destruct (cachedConfig cm); [|done]. case_decide; intros [= <-];
    [apply gentle_cached|apply gentle_refl].
Qed.

Lemma updateCachedNextCfg_gentle c cm cm' : updateCachedNextCfg c cm = Ret cm' → gentle cm cm'.
Proof.
  unfold updateCachedNextCfg. destruct (cachedNextConfig cm); [|done]. case_decide; intros [= <-];
    [apply gentle_cached|apply gentle_refl].
Qed.

#[local] Hint Resolve gentle_refl gentle_trans gentle_isolated updateCachedCfg_gentle
  updateCachedNextCfg_gentle : core.

Lemma reapplyIsolation_gentle g cm cm' : reapplyIsolation g cm = Ret cm' → gentle cm cm'.
Proof.
  unfold reapplyIsolation. case_decide; [by intros [= <-]|].
  destruct (Group g (infra cm)) as [sg|] eqn:Hg; [|by intros [= <-]].
  case_decide; [|by intros [= <-]]. intros (sg' & Hp & [= <-])%bind_ret_inv.
  eapply gentle_put; [done|]. by eapply keeps_Partition.
Qed.

Lemma joinRounds_gentle now g names : ∀ rounds cm cm' b,
  joinRounds now rounds g names cm = Ret (Some (cm', b)) → gentle cm cm'.
Proof.
  induction rounds as [|r rounds IH]; intros cm cm' b H; cbn [joinRounds] in H; [done|].
  apply bind_ret_inv in H as (j & _ & H). destruct j.2; [|by injection H as <- <-].
  destruct (rd_changed r); [|by eapply IH]. destruct j.1 as [c|]; [|done].
  apply bind_ret_inv in H as (cm1 & H1 & (cm2 & H2 & [= <- <-])%bind_ret_inv). eauto.
Qed.

Lemma leaveRounds_gentle now g : ∀ rounds cm x,
  leaveRounds now rounds g cm = Ret (Some x) →
  match x with inl cm' => gentle cm cm' | inr (cm', b) => cm' = cm ∧ b = false end.
Proof.
  induction rounds as [|r rounds IH]; intros cm x H; cbn [leaveRounds] in H; [done|]. cbv zeta in H.
  destruct (Groups (Copy (rd_cfg r)) !! g); [|by injection H as <-].
  case_decide; [by injection H as <-|]. apply bind_ret_inv in H as (lv & _ & H).
  destruct lv.2; [|by injection H as <-]. destruct (rd_changed r); [|by apply IH].
  destruct lv.1 as [c|]; [|done].
  apply bind_ret_inv in H as (cm1 & H1 & (cm2 & H2 & [= <-])%bind_ret_inv). eauto.
Qed.

Lemma dropMonkey_NoDup g ms : NoDup (mk_gid <$> ms) → NoDup (mk_gid <$> dropMonkey g ms) ∧ g ∉ (mk_gid <$> dropMonkey g ms).
Proof.
  induction ms as [|m ms IH]; cbn; [split; [done|apply not_elem_of_nil]|].
  intros [Hnin Hnd]%NoDup_cons. destruct (IH Hnd) as [IH1 IH2]. case_decide as Hg; [by subst|].
  cbn. rewrite not_elem_of_cons. split; [|done]. constructor; [|done]. intros Hin. apply Hnin.
  clear -Hin. induction ms as [|m' ms IH]; [done|]. cbn in *.
  case_decide; [by right|]. cbn in Hin. apply elem_of_cons in Hin as [?|?]; [rewrite elem_of_cons; by left|right; auto].
Qed.

(** ** Runs of the manager *)

Section runs.
Context (SN : Z → nat → string).

Inductive CmOp :=
| OJoin (now : Z) (namess : list (list string)) (env : nat → StartEnv) (rounds : list Round) (gid : Z)
| OLeave (now : Z) (p : nat → Persister) (rounds : list Round) (gid : Z)
| OKill (p : nat → Persister) (gid srv : Z) | OIsolate (gid srv : Z) | ORecover (gid srv : Z)
| OStart (env : StartEnv) (gid srv : Z)
| OKillGroup (p : nat → Persister) (gid : Z) | OStartGroup (env : nat → StartEnv) (gid : Z)
| ODropRate (rate : Z) | OShortDelayMs (ms : Z) | OLongDelayMs (ms : Z)
| OReliable (yes : bool) | OLongDelays (yes : bool) | OLongReordering (yes : bool)
| OStartChaos (gid : Z) | OStopChaos (gid : Z)
| ONewGid | OLeader (gid srv : Z) (isLeader : bool)
| OInitCache (now : Z) (cfg nextCfg : option ShardConfig)
| OPoll (now : Z) (cfg : ShardConfig) | OPollNext (cfg : ShardConfig).

Definition outcome_map {A B} (f : A → B) (o : outcome A) : outcome B :=
  match o with Ret a => Ret (f a) | Panic e => Panic e end.

Lemma outcome_map_Ret {A B} (f : A → B) o b : outcome_map f o = Ret b → ∃ a, o = Ret a ∧ f a = b.
Proof. destruct o; [intros [= <-]; eauto|done]. Qed.

Definition part (r : option (ClusterManager * bool)) : option ClusterManager := fst <$> r.

(** [None] inside: the operation has not returned. *)
Definition cmOp (op : CmOp) (cm : ClusterManager) : outcome (option ClusterManager) :=
  match op with
  | OJoin now namess env rounds g => outcome_map part (JoinGroup SN now namess env rounds g cm)
  | OLeave now p rounds g => outcome_map part (LeaveGroup SN now p rounds g cm)
  | OKill p g srv => outcome_map Some (KillServer SN p g srv cm)
  | OIsolate g srv => outcome_map Some (IsolateNode g srv cm)
  | ORecover g srv => outcome_map Some (RecoverNode g srv cm)
  | OStart env g srv => outcome_map (λ r, Some r.1) (cmStartServer SN env g srv cm)
  | OKillGroup p g => outcome_map Some (KillGroup SN p g cm)
  | OStartGroup env g => outcome_map (λ r, Some r.1) (StartGroup SN env g cm)
  | ODropRate r => Ret (Some (cmSetDropRate r cm))
  | OShortDelayMs ms => Ret (Some (cmSetShortDelayMs ms cm))
  | OLongDelayMs ms => Ret (Some (cmSetLongDelayMs ms cm))
  | OReliable b => Ret (Some (cmSetReliable b cm))
  | OLongDelays b => Ret (Some (cmSetLongDelays b cm))
  | OLongReordering b => Ret (Some (cmSetLongReordering b cm))
  | OStartChaos g => Ret (Some (StartChaos g cm).1)
  | OStopChaos g => Ret (Some (StopChaos g cm))
  | ONewGid => Ret (fst <$> NewGid cm)
  | OLeader g srv b => Ret (Some (leaderChange g srv b cm))
  | OInitCache now c n => Ret (Some (initConfigCache now c n cm).1)
  | OPoll now c => outcome_map Some (updateCachedCfg now c cm)
  | OPollNext c => outcome_map Some (updateCachedNextCfg c cm)
  end.

Inductive cm_run (d : DemoConfig) : ClusterManager → Prop :=
| cm_start : cm_run d (NewClusterManager d)
| cm_next op cm cm' : cm_run d cm → cmOp op cm = Ret (Some cm') → cm_run d cm'.

(** A group operation of the manager: nothing, or the group replaced. *)
Ltac group_op H :=
  match type of H with context [Group ?g (infra ?cm)] =>
    destruct (Group g (infra cm)) as [sg|] eqn:Hg; [|by injection H as <-]
  end.

Lemma KillServer_gentle p g srv cm cm' : KillServer SN p g srv cm = Ret cm' → gentle cm cm'.
Proof.
  unfold KillServer. intros H. group_op H. destruct (outOfRange srv sg); [by injection H as <-|].
  apply bind_ret_inv in H as (sg' & Hs & [= <-]). eapply gentle_put; [done|]. by eapply keeps_ShutdownServer.
Qed.

Lemma IsolateNode_gentle g srv cm cm' : IsolateNode g srv cm = Ret cm' → gentle cm cm'.
Proof.
  unfold IsolateNode. intros H. group_op H. destruct (outOfRange srv sg); [by injection H as <-|].
  apply bind_ret_inv in H as (sg' & Hs & [= <-]).
  eapply gentle_trans; [|apply gentle_isolated]. eapply gentle_put; [done|]. by eapply keeps_Partition.
Qed.

Lemma RecoverNode_gentle g srv cm cm' : RecoverNode g srv cm = Ret cm' → gentle cm cm'.
Proof.
  unfold RecoverNode. intros H. group_op H. destruct (outOfRange srv sg); [by injection H as <-|].
  apply bind_ret_inv in H as (sg' & Hs & [= <-]).
  eapply gentle_trans; [|apply gentle_isolated]. eapply gentle_put; [done|]. by eapply keeps_Partition.
Qed.

Lemma cmStartServer_gentle env g srv cm r : cmStartServer SN env g srv cm = Ret r → gentle cm r.1.
Proof.
  unfold cmStartServer. intros H. group_op H. destruct (outOfRange srv sg); [by injection H as <-|].
  apply bind_ret_inv in H as (r1 & Hs & H). destruct r1.2.
  - apply bind_ret_inv in H as (sg2 & Hc & (cm2 & Hr & H)%bind_ret_inv).
    assert (gentle cm cm2) as Hgen.
    { eapply gentle_trans; [|by eapply reapplyIsolation_gentle]. eapply gentle_put; [done|].
      rewrite (keeps_connect _ _ _ _ Hc). by eapply StartServer_flags. }
    destruct (Group g (infra cm2)); by injection H as <-.
  - injection H as <-. eapply gentle_put; [done|]. by eapply StartServer_flags.
Qed.

Lemma KillGroup_gentle p g cm cm' : KillGroup SN p g cm = Ret cm' → gentle cm cm'.
Proof.
  unfold KillGroup. intros H. group_op H. apply bind_ret_inv in H as (sg' & Hs & [= <-]).
  eapply gentle_put; [done|]. by eapply keeps_Shutdown.
Qed.

Lemma StartGroup_gentle env g cm r : StartGroup SN env g cm = Ret r → gentle cm r.1.
Proof.
  unfold StartGroup. intros H. group_op H. apply bind_ret_inv in H as (sg' & Hs & [= <-]).
  eapply gentle_put; [done|]. by eapply keeps_StartServers.
Qed.

Lemma StartChaos_inv g cm : cm_inv cm → cm_inv (StartChaos g cm).1.
Proof.
  intros [Hmem Hmk Hfl]. unfold StartChaos. destruct (Group g (infra cm)); [|by split].
  case_decide as Hex; [by split|]. split; cbn; [done| |done]. rewrite fmap_app. cbn.
  apply NoDup_app. split_and!; [done| |apply NoDup_singleton]. intros x Hx ->%list_elem_of_singleton.
  apply Hex. apply list_elem_of_fmap in Hx as (m & Heq & Hm). apply Exists_exists. by exists m.
Qed.

Lemma StopChaos_inv g cm : cm_inv cm → cm_inv (StopChaos g cm).
Proof. intros [Hmem Hmk Hfl]. split; cbn; [done|by apply dropMonkey_NoDup|done]. Qed.

Lemma JoinGroup_inv now namess env rounds g cm cm' b :
  cm_inv cm → JoinGroup SN now namess env rounds g cm = Ret (Some (cm', b)) → cm_inv cm'.
Proof.
  intros Hinv (cm1 & H1 & H2)%bind_ret_inv. assert (cm_inv cm1) as Hinv1.
  { destruct (Group g (infra cm)); [by injection H1 as <-|].
    apply bind_ret_inv in H1 as (cfg & [Hf [sg Hg]]%MakeGroupStart_spec & [= <-]).
    destruct Hinv as [Hmem Hmk Hfl]. injection Hf as Hr _ Ho. split; cbn; [|done|by rewrite Ho, Hr].
    intros g'. rewrite is_Some_Group, Hg, dom_insert_L.
    intros [->%elem_of_singleton|Hin%Hmem%is_Some_Group]%elem_of_union; set_solver. }
  destruct (Group g (infra cm1)); [|done]. eapply gentle_inv; [|done]. by eapply joinRounds_gentle.
Qed.

(** What [LeaveGroup] leaves behind. *)
Lemma LeaveGroup_inv now p rounds g cm cm' b :
  cm_inv cm → LeaveGroup SN now p rounds g cm = Ret (Some (cm', b)) → cm_inv cm'.
Proof.
  intros Hinv H. unfold LeaveGroup in H. case_decide; [by injection H as <- <-|].
  destruct (Group g (infra cm)); [|case_decide; [done|by injection H as <- <-]].
  case_decide; [by injection H as <- <-|]. apply bind_ret_inv in H as (x & Hx & H).
  destruct x as [[cm1|[cm1 b1]]|]; [| |done]; apply leaveRounds_gentle in Hx.
  2: { destruct Hx as [-> _]. by injection H as <- <-. }
  apply bind_ret_inv in H as (cfg & Hcfg & [= <- <-]). apply StopChaos_inv.
  destruct (gentle_inv _ _ Hx Hinv) as [Hmem Hmk Hfl].
  assert (flags (cfg_net cfg) = flags (cfg_net (infra cm1)) ∧
    dom (cfg_groups (infra cm1)) ∖ {[g]} ⊆ dom (cfg_groups cfg)) as [Hf Hdom].
  { destruct (Group g (infra cm1)) as [sg|] eqn:Hg; [|injection Hcfg as <-; set_solver].
    apply bind_ret_inv in Hcfg as (sg' & Hs & [Hf Hd]%ExitGroup_spec). rewrite Hf, Hd. cbn. split.
    - rewrite (keeps_Shutdown _ _ _ _ Hs). by apply fmap_Some in Hg as (? & _ & ->).
    - rewrite dom_delete_L, dom_insert_L. set_solver. }
  injection Hf as Hr _ Ho. split; cbn; [|done|by rewrite Ho, Hr].
  intros g' [Hin Hne]%elem_of_difference. apply is_Some_Group, Hdom.
  apply Hmem, is_Some_Group in Hin. set_solver.
Qed.

Lemma set_infra_inv cm cfg :
  cm_inv cm → cfg_groups cfg = cfg_groups (infra cm) →
  (longReordering (cfg_net cfg) = true → reliable (cfg_net cfg) = false) → cm_inv (set_infra cfg cm).
Proof.
  intros [Hmem Hmk Hfl] Hg Hf. split; [|done|done]. intros g Hin%Hmem%is_Some_Group. apply is_Some_Group.
  cbn. by rewrite Hg.
Qed.

Lemma cmOp_inv op cm cm' : cm_inv cm → cmOp op cm = Ret (Some cm') → cm_inv cm'.
Proof.
  intros Hinv Hop. destruct op; cbn [cmOp] in Hop.
  all: try (apply outcome_map_Ret in Hop as (r & Hr & Heq)).
  - apply fmap_Some in Heq as ([cm1 b] & -> & ->). by eapply JoinGroup_inv.
  - apply fmap_Some in Heq as ([cm1 b] & -> & ->). by eapply LeaveGroup_inv.
  - injection Heq as <-. eapply gentle_inv; [by eapply KillServer_gentle|done].
  - injection Heq as <-. eapply gentle_inv; [by eapply IsolateNode_gentle|done].
  - injection Heq as <-. eapply gentle_inv; [by eapply RecoverNode_gentle|done].
  - injection Heq as <-. eapply gentle_inv; [by eapply cmStartServer_gentle|done].
  - injection Heq as <-. eapply gentle_inv; [by eapply KillGroup_gentle|done].
  - injection Heq as <-. eapply gentle_inv; [by eapply StartGroup_gentle|done].
  - injection Hop as <-. apply set_infra_inv; [done|done|apply Hinv].
  - injection Hop as <-. apply set_infra_inv; [done|done|apply Hinv].
  - injection Hop as <-. apply set_infra_inv; [done|done|apply Hinv].
  - injection Hop as <-. by destruct yes; apply set_infra_inv.
  - injection Hop as <-. apply set_infra_inv; [done|done|apply Hinv].
  - injection Hop as <-. by destruct yes; apply set_infra_inv.
  - injection Hop as <-. by apply StartChaos_inv.
  - injection Hop as <-. by apply StopChaos_inv.
  - unfold NewGid in Hop. destruct (skipGids _ _ _); [|done]. cbn in Hop. injection Hop as <-.
    destruct Hinv. by split.
  - injection Hop as <-. destruct Hinv. by split.
  - injection Hop as <-. unfold initConfigCache. destruct cfg, nextCfg; try done. by destruct Hinv; split.
  - injection Heq as <-. eapply gentle_inv; [by eapply updateCachedCfg_gentle|done].
  - injection Heq as <-. eapply gentle_inv; [by eapply updateCachedNextCfg_gentle|done].
Qed.

Lemma cm_run_inv d cm : cm_run d cm → cm_inv cm.
Proof.
  induction 1 as [|op cm cm' _ IH Hop]; [|by eapply cmOp_inv].
  split; cbn; [set_solver|apply NoDup_nil_2|done].
Qed.

(** The manager's books agree with the system.  After any sequence of the
    manager's operations: every group it lists has its processes, so that
    [LeaveGroup] of a group without processes answers that it has left and does
    not panic; no group has two chaos monkeys, so that no stop channel is closed
    twice; and replies are only reordered on an unreliable network. *)
Theorem manager_invariant d cm :
  cm_run d cm →
  (∀ g, g ∈ cgroups cm → is_Some (Group g (infra cm))) ∧
  (∀ now p rounds g, g ≠ 0 → Group g (infra cm) = None →
     LeaveGroup SN now p rounds g cm = Ret (Some (cm, true))) ∧
  NoDup (mk_gid <$> chaosMonkeys cm) ∧
  (IsLongReordering (cfg_net (infra cm)) = true → IsReliable (cfg_net (infra cm)) = false).
Proof.
  intros Hrun. destruct (cm_run_inv d cm Hrun) as [Hmem Hmk Hfl]. split_and!; try done.
  intros now p rounds g Hg Hnone. unfold LeaveGroup. rewrite decide_False by done. rewrite Hnone.
  rewrite decide_False; [done|]. intros Hin. apply Hmem in Hin. rewrite Hnone in Hin. by destruct Hin.
Qed.

(** Leaving.  [LeaveGroup] refuses the group of the configuration store; when
    it answers false nothing has changed; when it answers true the group is
    neither listed nor has processes, and no chaos monkey is left for it. *)
Theorem LeaveGroup_leaves d cm now p rounds g cm' b :
  cm_run d cm → LeaveGroup SN now p rounds g cm = Ret (Some (cm', b)) →
  if b then g ≠ 0 ∧ g ∉ cgroups cm' ∧ Group g (infra cm') = None ∧
            (is_Some (Group g (infra cm)) → g ∉ (mk_gid <$> chaosMonkeys cm'))
  else cm' = cm.
Proof.
  intros Hrun H. destruct (cm_run_inv d cm Hrun) as [Hmem Hmk Hfl]. unfold LeaveGroup in H.
  case_decide as H0; [by injection H as <- <-|]. destruct (Group g (infra cm)) as [sg|] eqn:Hg.
  2: { case_decide as Hin; [done|]. injection H as <- <-. by split_and!; [..|intros []]. }
  case_decide; [by injection H as <- <-|]. apply bind_ret_inv in H as (x & Hx & H).
  destruct x as [[cm1|[cm1 b1]]|]; [| |done]; apply leaveRounds_gentle in Hx.
  2: { destruct Hx as [-> ->]. by injection H as <- <-. }
  apply bind_ret_inv in H as (cfg & Hcfg & [= <- <-]). cbn. split_and!; [done|set_solver| |].
  - destruct (Group g (infra cm1)) as [sg1|] eqn:Hg1; [|by injection Hcfg as <-].
    apply bind_ret_inv in Hcfg as (sg' & _ & [_ Hd]%ExitGroup_spec). unfold Group, lookupGroup.
    by rewrite Hd, lookup_delete_eq.
  - intros _. rewrite (ge_monkeys _ _ Hx). by apply dropMonkey_NoDup.
Qed.
End runs.

(** ** Runs for the witnesses *)

Definition SN0 (_ : Z) (_ : nat) : string := "s".
Definition noNames : list (list string) := [].

(** A manager that joined the groups 1 and 2 (which the configuration already
    has) of no servers each and started a chaos monkey for the second. *)
Definition twoGroups : ShardConfig := mkShardConfig 2 (replicate 12 1) {[ 1 := ["a"%string]; 2 := ["b"%string] ]}.
Definition small : DemoConfig := mkDemoConfig 0 0 true 0 [] [].
Definition joinOps : list CmOp :=
  [OJoin 0 noNames restartEnv [mkRound twoGroups true] 1; OJoin 0 noNames restartEnv [mkRound twoGroups true] 2;
   OInitCache 0 (Some twoGroups) (Some twoGroups); OStartChaos 2; OLongReordering true; OIsolate 2 0].

Fixpoint cmOps (ops : list CmOp) (cm : ClusterManager) : option ClusterManager :=
  match ops with
  | [] => Some cm
  | op :: ops => match cmOp SN0 op cm with Ret (Some cm) => cmOps ops cm | _ => None end
  end.

Lemma cmOps_run d ops : ∀ cm cm', cm_run SN0 d cm → cmOps ops cm = Some cm' → cm_run SN0 d cm'.
Proof.
  induction ops as [|op ops IH]; intros cm cm' Hrun H; cbn [cmOps] in H; [by injection H as <-|].
  destruct (cmOp SN0 op cm) as [[cm1|]|] eqn:Hop; try done. eapply IH; [|done]. by eapply cm_next.
Qed.

Definition joined : ClusterManager := default (NewClusterManager small) (cmOps joinOps (NewClusterManager small)).

Lemma joined_run : cm_run SN0 small joined.
Proof.
  refine (cmOps_run small joinOps (NewClusterManager small) _ _ _); [constructor|]. vm_compute. reflexivity.
Qed.

Lemma manager_invariant_witness :
  cgroups joined = {[1; 2]} ∧ is_Some (Group 2 (infra joined)) ∧ IsReliable (cfg_net (infra joined)) = false.
Proof.
  destruct (manager_invariant SN0 small joined joined_run) as (H & _ & _ & Hf).
  assert (cgroups joined = {[1; 2]}) as Hg by (vm_compute; reflexivity). split; [done|]. split.
  - apply H. rewrite Hg. set_solver.
  - apply Hf. vm_compute. reflexivity.
Defined.

Definition leaveRounds2 : list Round := [mkRound twoGroups false; mkRound twoGroups true].

Lemma LeaveGroup_leaves_witness :
  ∃ cm', LeaveGroup SN0 5 (λ _, MakePersister) leaveRounds2 2 joined = Ret (Some (cm', true)) ∧
    2 ∉ cgroups cm' ∧ Group 2 (infra cm') = None.
Proof.
  destruct (LeaveGroup SN0 5 (λ _, MakePersister) leaveRounds2 2 joined) as [[[cm' b]|]|] eqn:E;
    [|vm_compute in E; discriminate E..].
  pose proof (LeaveGroup_leaves SN0 small joined 5 (λ _, MakePersister) leaveRounds2 2 cm' b joined_run E) as H.
  destruct b.
  - exists cm'. split; [done|]. split; apply H.
  - exfalso. vm_compute in E. discriminate E.
Defined.
