(* ===== verification/ClusterSetup.v ===== *)
(** * ClusterSetup: parameters, first configuration and status page

    What [Load] guarantees of the start-up parameters, what [Init] stores first,
    what the status page shows, and where these depart from their comments
    ([Cluster]). *)

From S2P Require Import Prelude RpcNet ShardCfg Persister TestGroup TestConfig Cluster ClusterFacts ClusterMembers.

(** ** Parameters *)

Section load.
Context (unmarshal : bytes → DemoConfig → option DemoConfig).

(** Loaded parameters are usable.  Whatever the file holds, [Load] either
    fails or gives a positive number of servers and of clerks and at least one
    group; every group has servers if the file's default number is positive. *)
Theorem Load_normalises file cfg :
  Load unmarshal file = Some cfg →
  0 < Nsrv cfg ∧ 0 < ClerkPoolSize cfg ∧ dc_Groups cfg ≠ [] ∧
  (∀ data c, file = FileData data → unmarshal data DefaultConfig = Some c → 0 < Nsrv c →
     Nsrv cfg = Nsrv c ∧ Forall (λ g, 0 < gc_Servers g) (dc_Groups cfg)).
Proof.
  unfold Load. destruct file as [data| |]; [|by intros [= <-]|done].
  intros (c & Hc & [= <-])%bind_Some. cbn [Nsrv ClerkPoolSize dc_Groups]. split_and!.
  - case_decide; lia.
  - case_decide; lia.
  - intros Hnil%fmap_nil_inv. by case_decide.
  - intros data' c' [= <-] Hc' Hpos. rewrite Hc in Hc'. injection Hc' as <-. split; [by case_decide; [lia|]|].
    apply Forall_fmap, Forall_forall. intros g _. cbn. case_decide; [done|lia].
Qed.

(** The fallback to [cluster.groups] is dead.  A file that sets only
    [cluster.groups] leaves the default [groups] in place, and these are used. *)
Theorem Load_ignores_cluster_groups data c cfg :
  unmarshal data DefaultConfig = Some c → dc_Groups c = dc_Groups DefaultConfig →
  Load unmarshal (FileData data) = Some cfg → dc_Groups cfg = [mkGroupConfig 1 3].
Proof.
  intros Hc Hg (c' & Hc' & [= <-])%bind_Some. rewrite Hc in Hc'. injection Hc' as <-.
  cbn [dc_Groups]. by rewrite Hg.
Qed.
End load.

(** A file that sets [cluster.groups] and zero servers. *)
Definition cluster_only (_ : bytes) (c : DemoConfig) : option DemoConfig :=
  Some (mkDemoConfig (MaxRaftState c) (Nsrv c) (dc_Reliable c) (ClerkPoolSize c)
          [mkGroupConfig 1 5; mkGroupConfig 2 5] (dc_Groups c)).
Definition no_servers (_ : bytes) (c : DemoConfig) : option DemoConfig :=
  Some (mkDemoConfig (MaxRaftState c) 0 (dc_Reliable c) (ClerkPoolSize c) [] [mkGroupConfig 1 0]).

Lemma Load_normalises_witness :
  ∃ cfg, Load cluster_only (FileData []) = Some cfg ∧ 0 < Nsrv cfg ∧ Forall (λ g, 0 < gc_Servers g) (dc_Groups cfg).
Proof.
  destruct (Load cluster_only (FileData [])) as [cfg|] eqn:E; [|discriminate E].
  destruct (Load_normalises cluster_only (FileData []) cfg E) as (Hn & _ & _ & H).
  exists cfg. split; [done|]. split; [done|].
  eapply (H [] _ eq_refl); [reflexivity|reflexivity].
Defined.

Lemma Load_ignores_cluster_groups_witness :
  ∃ cfg, Load cluster_only (FileData []) = Some cfg ∧ dc_Groups cfg = [mkGroupConfig 1 3].
Proof.
  destruct (Load cluster_only (FileData [])) as [cfg|] eqn:E; [|discriminate E].
  exists cfg. split; [done|]. eapply (Load_ignores_cluster_groups cluster_only []); [reflexivity|reflexivity|exact E].
Defined.

(** A group without servers.  The number of servers of a group is filled in
    from [nsrv] before [nsrv] itself is corrected: with [nsrv: 0] a group without
    [servers] keeps zero of them. *)
Theorem Load_leaves_empty_group :
  ∃ cfg, Load no_servers (FileData []) = Some cfg ∧ dc_Groups cfg = [mkGroupConfig 1 0] ∧ Nsrv cfg = 3.
Proof. eexists. split; [reflexivity|]. by vm_compute. Qed.

(** ** The first configuration *)

(** [Init] gives every shard to group 1, whether or not it was started: if
    the parameters do not list it, all shards belong to a group of no servers. *)
Theorem Init_assumes_group1 servers c :
  servers !! Gid1 = None → initialConfig servers = Ret (Some c) →
  Shards c = replicate 12 1 ∧ Groups c = {[ Gid1 := [] ]}.
Proof.
  intros Hs H. unfold initialConfig in H. rewrite Hs in H. cbn [default] in H. vm_compute in H.
  injection H as <-. by split.
Qed.

Lemma Init_assumes_group1_witness :
  ∃ c, initialConfig {[ 2 := ["x"%string] ]} = Ret (Some c) ∧ Groups c = {[ Gid1 := [] ]}.
Proof.
  destruct (initialConfig {[ 2 := ["x"%string] ]}) as [[c|]|] eqn:E; [|vm_compute in E; discriminate E..].
  exists c. split; [done|]. apply (Init_assumes_group1 {[ 2 := ["x"%string] ]} c); [reflexivity|exact E].
Defined.

(** ** Status *)

Lemma serverStates_spec g cm sg : ∀ ids ss,
  serverStates g cm sg ids = Ret ss → Index <$> ss = ids ∧ IsAlive <$> ss = isAlive sg <$> ids.
Proof.
  induction ids as [|i ids IH]; intros ss H; cbn in H; [by injection H as <-|].
  apply bind_ret_inv in H as (x & (name & _ & [= <-])%bind_ret_inv & (xs & Hxs & [= <-])%bind_ret_inv).
  destruct (IH _ Hxs) as [H1 H2]. cbn. by rewrite H1, H2.
Qed.

(** The shards of different groups are different shards. *)
Lemma countShards_total cfg order : NoDup order → foldr (λ g n, countShards cfg g + n) 0 order ≤ zlen (Shards cfg).
Proof.
  intros Hnd. unfold countShards. induction (Shards cfg) as [|x l IH].
  { cbn. assert (foldr (λ _ n : Z, 0 + n) 0 order = 0) as ->; [|by unfold zlen].
    clear. induction order; cbn; [done|lia]. }
  rewrite zlen_cons. cbn [foldr].
  assert (foldr (λ g n, (if decide (x = g) then
      foldr (λ g0 n0, if decide (g0 = g) then n0 + 1 else n0) 0 l + 1
      else foldr (λ g0 n0, if decide (g0 = g) then n0 + 1 else n0) 0 l) + n) 0 order =
    foldr (λ g n, foldr (λ g0 n0, if decide (g0 = g) then n0 + 1 else n0) 0 l + n) 0 order +
    if decide (x ∈ order) then 1 else 0) as ->; [|case_decide; lia].
  clear IH. induction order as [|g order IH]; [done|]. apply NoDup_cons in Hnd as [Hg Hnd]. cbn [foldr].
  rewrite IH by done. repeat case_decide; subst; try done; try lia; set_solver.
Qed.

(** The status page.  If there are cached configurations, [Status] shows for
    every group it visits the servers in order with whether each is connected,
    and the shards it counts for the groups are at most all shards. *)
Theorem Status_faithful now order cm st :
  NoDup order → Status now order cm = Ret st →
  (∀ gs, gs ∈ st_Groups st → ∃ sg, Group (GID gs) (infra cm) = Some sg ∧
     IsAlive <$> Servers gs = isAlive sg <$> seq 0 (grpN sg) ∧ gs_NShards gs = countShards (st_Config st) (GID gs)) ∧
  foldr (λ gs n, gs_NShards gs + n) 0 (st_Groups st) ≤ zlen (Shards (st_Config st)) ∧
  HasPending st = hasPendingMigration cm.
Proof.
  intros Hnd H. unfold Status in H. destruct (cachedNextConfig cm) as [nx|]; [|done].
  apply bind_ret_inv in H as (gss & Hgs & [= <-]). cbn.
  set (cfg := default MakeShardConfig (cachedConfig cm)) in *. clearbody cfg.
  assert ((∀ gs, gs ∈ gss → ∃ sg, Group (GID gs) (infra cm) = Some sg ∧
     IsAlive <$> Servers gs = isAlive sg <$> seq 0 (grpN sg) ∧ gs_NShards gs = countShards cfg (GID gs)) ∧
     sublist (GID <$> gss) order) as [Hall Hsub].
  { clear Hnd. revert gss Hgs. induction order as [|g order IH]; intros gss H; cbn in H.
    { injection H as <-. split; [by intros gs ?%elem_of_nil|constructor]. }
    destruct (Group g (infra cm)) as [sg|] eqn:Hg; [|destruct (IH _ H); split; [done|by constructor]].
    apply bind_ret_inv in H as (ss & [_ Hss]%serverStates_spec & (rest & Hrest & [= <-])%bind_ret_inv).
    destruct (IH _ Hrest) as [IH1 IH2]. split; [|by constructor].
    intros gs [->|Hin]%elem_of_cons; [|by apply IH1]. by exists sg. }
  split; [done|]. split; [|done].
  assert (foldr (λ gs n, gs_NShards gs + n) 0 gss = foldr (λ g n, countShards cfg g + n) 0 (GID <$> gss)) as ->.
  { clear Hsub Hgs. induction gss as [|gs gss IH]; [done|]. cbn. rewrite IH by (intros; apply Hall; by right).
    destruct (Hall gs) as (_ & _ & _ & ->); [by left|done]. }
  apply countShards_total. by eapply sublist_NoDup.
Qed.

(** The status page needs the next configuration.  [Status] handles a
    missing current configuration ("degrade to showing the nodes only"), but both
    are filled in together, and a missing next configuration is dereferenced; the
    poller, which may run first, dereferences the missing one too. *)
Theorem Status_needs_next_config d now order cfg :
  Status now order (NewClusterManager d) = Panic NilDeref ∧
  updateCachedCfg now cfg (NewClusterManager d) = Panic NilDeref.
Proof. done. Qed.

(** A group that joins again is shown isolated.  Node 0 of group 2 is isolated
    and the group leaves; the record of the isolation stays, so the new node 0 of
    the group that joins again is shown as isolated. *)
Theorem LeaveGroup_keeps_isolation SN d cm now p rounds g cm' b :
  cm_run SN d cm → LeaveGroup SN now p rounds g cm = Ret (Some (cm', b)) → isolated cm' = isolated cm.
Proof.
  intros Hrun H. unfold LeaveGroup in H. case_decide; [by injection H as <- <-|].
  destruct (Group g (infra cm)); [|case_decide; [done|by injection H as <- <-]].
  case_decide; [by injection H as <- <-|]. apply bind_ret_inv in H as (x & Hx & H).
  assert (match x with Some (inl c) | Some (inr (c, _)) => isolated c = isolated cm | None => True end) as Hiso.
  { clear -Hx. revert cm x Hx. induction rounds as [|r rounds IH]; intros cm x H; cbn [leaveRounds] in H;
      [by injection H as <-|]. cbv zeta in H. destruct (Groups (Copy (rd_cfg r)) !! g); [|by injection H as <-].
    case_decide; [by injection H as <-|]. apply bind_ret_inv in H as (lv & _ & H).
    destruct lv.2; [|by injection H as <-]. destruct (rd_changed r); [|by apply IH].
    destruct lv.1 as [c|]; [|by injection H as <-].
    apply bind_ret_inv in H as (cm1 & H1 & (cm2 & H2 & [= <-])%bind_ret_inv).
    unfold updateCachedCfg, updateCachedNextCfg in *.
    destruct (cachedConfig cm); [|done]. destruct (cachedNextConfig cm1); [|done].
    repeat case_decide; by injection H1 as <-; injection H2 as <-. }
  destruct x as [[cm1|[cm1 b1]]|]; [| |done].
  - by apply bind_ret_inv in H as (cfg & _ & [= <- <-]).
  - by injection H as <- <-.
Qed.
