(* ===== verification/Raft.v ===== *)
(** * Raft: one Raft peer

    Models [src/src/raft/raft.go].  Every block of the source that runs with
    [rf.mu] held is one definition on the peer's state: the RPC handlers, the
    service interface, the two critical sections of [replicateToFollower] and
    of [applier] (before and after the call or channel send they make without
    the lock), the start of an election and the handling of one vote.

    Terms, indices and times are unbounded integers: a 64-bit counter
    incremented once per election or command does not overflow in practice,
    and no property below is about that.  Run-time panics are outcomes.  The
    signalling channels have capacity one and are only written by [notify], so
    each is a boolean: a signal is pending or not. *)

From S2P Require Import Prelude Persister.

Definition heartbeatInterval : Z := 100.
Definition minElectionTimeout : Z := 300.
Definition variationLimit : Z := 300.

Record LogEntry (Cmd : Type) := mkEntry { Term : Z; Command : option Cmd }.
Arguments mkEntry {Cmd}.
Arguments Term {Cmd}.
Arguments Command {Cmd}.

Record PersistedState (Cmd : Type) := mkPersistedState {
  ps_CurrentTerm : Z;
  ps_VotedFor : Z;
  ps_Log : list (LogEntry Cmd);
  ps_SnapshotIndex : Z;
}.
Arguments mkPersistedState {Cmd}.
Arguments ps_CurrentTerm {Cmd}.
Arguments ps_VotedFor {Cmd}.
Arguments ps_Log {Cmd}.
Arguments ps_SnapshotIndex {Cmd}.

Inductive State := follower | candidate | leader.

#[global] Instance State_eq_dec : EqDecision State.
Proof. solve_decision. Defined.
#[global] Instance LogEntry_eq_dec `{EqDecision Cmd} : EqDecision (LogEntry Cmd).
Proof. solve_decision. Defined.
#[global] Instance LogEntry_countable `{Countable Cmd} : Countable (LogEntry Cmd).
Proof.
  by refine (inj_countable' (λ e, (Term e, Command e)) (λ p, mkEntry p.1 p.2) _); intros [].
Defined.
#[global] Instance PersistedState_eq_dec `{EqDecision Cmd} : EqDecision (PersistedState Cmd).
Proof. solve_decision. Defined.
#[global] Instance PersistedState_countable `{Countable Cmd} : Countable (PersistedState Cmd).
Proof.
  by refine (inj_countable'
    (λ p, (ps_CurrentTerm p, ps_VotedFor p, ps_Log p, ps_SnapshotIndex p))
    (λ '(t, v, l, i), mkPersistedState t v l i) _); intros [].
Defined.

Record Raft (Cmd : Type) := mkRaft {
  npeers : Z;
  me : Z;
  persister : Persister;
  CurrentTerm : Z;
  VotedFor : Z;
  Log : list (LogEntry Cmd);
  SnapshotData : bytes;
  LastIncludedIndex : Z;
  commitIndex : Z;
  lastApplied : Z;
  state : State;
  nextIndex : list Z;
  matchIndex : list Z;
  lastHeardTime : Z;
  logAppendedCh : bool;
  applyReadyCh : bool;
  replicateReadyChs : list bool;
  snapshotPending : bool;
}.
Arguments mkRaft {Cmd}.
Arguments npeers {Cmd}.
Arguments me {Cmd}.
Arguments persister {Cmd}.
Arguments CurrentTerm {Cmd}.
Arguments VotedFor {Cmd}.
Arguments Log {Cmd}.
Arguments SnapshotData {Cmd}.
Arguments LastIncludedIndex {Cmd}.
Arguments commitIndex {Cmd}.
Arguments lastApplied {Cmd}.
Arguments state {Cmd}.
Arguments nextIndex {Cmd}.
Arguments matchIndex {Cmd}.
Arguments lastHeardTime {Cmd}.
Arguments logAppendedCh {Cmd}.
Arguments applyReadyCh {Cmd}.
Arguments replicateReadyChs {Cmd}.
Arguments snapshotPending {Cmd}.

(** What the service reads from [applyCh] ([raftapi.ApplyMsg]): exactly one of
    the two kinds. *)
Inductive ApplyMsg (Cmd : Type) :=
| CommandMsg (cmd : option Cmd) (idx : Z)
| SnapshotMsg (data : bytes) (term idx : Z).
Arguments CommandMsg {Cmd}.
Arguments SnapshotMsg {Cmd}.

Record AppendEntriesArgs (Cmd : Type) := mkAEArgs {
  ae_Term : Z; ae_LeaderId : Z; ae_PrevLogIndex : Z; ae_PrevLogTerm : Z;
  ae_Entries : list (LogEntry Cmd); ae_LeaderCommit : Z }.
Arguments mkAEArgs {Cmd}.
Arguments ae_Term {Cmd}.
Arguments ae_LeaderId {Cmd}.
Arguments ae_PrevLogIndex {Cmd}.
Arguments ae_PrevLogTerm {Cmd}.
Arguments ae_Entries {Cmd}.
Arguments ae_LeaderCommit {Cmd}.

Record AppendEntriesReply := mkAEReply {
  aer_Term : Z; aer_Success : bool; aer_ConflictTerm : Z; aer_ConflictIndex : Z }.

Record InstallSnapshotArgs := mkISArgs {
  is_Term : Z; is_LeaderId : Z; is_LastIncludedIndex : Z; is_LastIncludedTerm : Z;
  is_Data : bytes }.

Record InstallSnapshotReply := mkISReply { isr_Term : Z }.

Record RequestVoteArgs := mkRVArgs {
  rv_Term : Z; rv_CandidateId : Z; rv_LastLogIndex : Z; rv_LastLogTerm : Z }.

Record RequestVoteReply := mkRVReply { rvr_Term : Z; rvr_VoteGranted : bool }.

Section raft.
Context {Cmd : Type} `{!Codec (PersistedState Cmd)}.
Implicit Types (rf : Raft Cmd).

(** ** Field updates *)

Definition set_persister (p : Persister) rf : Raft Cmd :=
  mkRaft (npeers rf) (me rf) p (CurrentTerm rf) (VotedFor rf) (Log rf) (SnapshotData rf)
    (LastIncludedIndex rf) (commitIndex rf) (lastApplied rf) (state rf) (nextIndex rf)
    (matchIndex rf) (lastHeardTime rf) (logAppendedCh rf) (applyReadyCh rf)
    (replicateReadyChs rf) (snapshotPending rf) .
Definition set_CurrentTerm (x : Z) rf : Raft Cmd :=
  mkRaft (npeers rf) (me rf) (persister rf) x (VotedFor rf) (Log rf) (SnapshotData rf)
    (LastIncludedIndex rf) (commitIndex rf) (lastApplied rf) (state rf) (nextIndex rf)
    (matchIndex rf) (lastHeardTime rf) (logAppendedCh rf) (applyReadyCh rf)
    (replicateReadyChs rf) (snapshotPending rf) .
Definition set_VotedFor (x : Z) rf : Raft Cmd :=
  mkRaft (npeers rf) (me rf) (persister rf) (CurrentTerm rf) x (Log rf) (SnapshotData rf)
    (LastIncludedIndex rf) (commitIndex rf) (lastApplied rf) (state rf) (nextIndex rf)
    (matchIndex rf) (lastHeardTime rf) (logAppendedCh rf) (applyReadyCh rf)
    (replicateReadyChs rf) (snapshotPending rf) .
Definition set_Log (l : list (LogEntry Cmd)) rf : Raft Cmd :=
  mkRaft (npeers rf) (me rf) (persister rf) (CurrentTerm rf) (VotedFor rf) l
    (SnapshotData rf) (LastIncludedIndex rf) (commitIndex rf) (lastApplied rf) (state rf)
    (nextIndex rf) (matchIndex rf) (lastHeardTime rf) (logAppendedCh rf) (applyReadyCh rf)
    (replicateReadyChs rf) (snapshotPending rf) .
Definition set_SnapshotData (x : bytes) rf : Raft Cmd :=
  mkRaft (npeers rf) (me rf) (persister rf) (CurrentTerm rf) (VotedFor rf) (Log rf) x
    (LastIncludedIndex rf) (commitIndex rf) (lastApplied rf) (state rf) (nextIndex rf)
    (matchIndex rf) (lastHeardTime rf) (logAppendedCh rf) (applyReadyCh rf)
    (replicateReadyChs rf) (snapshotPending rf) .
Definition set_LastIncludedIndex (x : Z) rf : Raft Cmd :=
  mkRaft (npeers rf) (me rf) (persister rf) (CurrentTerm rf) (VotedFor rf) (Log rf)
    (SnapshotData rf) x (commitIndex rf) (lastApplied rf) (state rf) (nextIndex rf)
    (matchIndex rf) (lastHeardTime rf) (logAppendedCh rf) (applyReadyCh rf)
    (replicateReadyChs rf) (snapshotPending rf) .
Definition set_commitIndex (x : Z) rf : Raft Cmd :=
  mkRaft (npeers rf) (me rf) (persister rf) (CurrentTerm rf) (VotedFor rf) (Log rf)
    (SnapshotData rf) (LastIncludedIndex rf) x (lastApplied rf) (state rf) (nextIndex rf)
    (matchIndex rf) (lastHeardTime rf) (logAppendedCh rf) (applyReadyCh rf)
    (replicateReadyChs rf) (snapshotPending rf) .
Definition set_lastApplied (x : Z) rf : Raft Cmd :=
  mkRaft (npeers rf) (me rf) (persister rf) (CurrentTerm rf) (VotedFor rf) (Log rf)
    (SnapshotData rf) (LastIncludedIndex rf) (commitIndex rf) x (state rf) (nextIndex rf)
    (matchIndex rf) (lastHeardTime rf) (logAppendedCh rf) (applyReadyCh rf)
    (replicateReadyChs rf) (snapshotPending rf) .
Definition set_state (st : State) rf : Raft Cmd :=
  mkRaft (npeers rf) (me rf) (persister rf) (CurrentTerm rf) (VotedFor rf) (Log rf)
    (SnapshotData rf) (LastIncludedIndex rf) (commitIndex rf) (lastApplied rf) st
    (nextIndex rf) (matchIndex rf) (lastHeardTime rf) (logAppendedCh rf) (applyReadyCh rf)
    (replicateReadyChs rf) (snapshotPending rf) .
Definition set_nextIndex (x : list Z) rf : Raft Cmd :=
  mkRaft (npeers rf) (me rf) (persister rf) (CurrentTerm rf) (VotedFor rf) (Log rf)
    (SnapshotData rf) (LastIncludedIndex rf) (commitIndex rf) (lastApplied rf) (state rf) x
    (matchIndex rf) (lastHeardTime rf) (logAppendedCh rf) (applyReadyCh rf)
    (replicateReadyChs rf) (snapshotPending rf) .
Definition set_matchIndex (x : list Z) rf : Raft Cmd :=
  mkRaft (npeers rf) (me rf) (persister rf) (CurrentTerm rf) (VotedFor rf) (Log rf)
    (SnapshotData rf) (LastIncludedIndex rf) (commitIndex rf) (lastApplied rf) (state rf)
    (nextIndex rf) x (lastHeardTime rf) (logAppendedCh rf) (applyReadyCh rf)
    (replicateReadyChs rf) (snapshotPending rf) .
Definition set_lastHeardTime (x : Z) rf : Raft Cmd :=
  mkRaft (npeers rf) (me rf) (persister rf) (CurrentTerm rf) (VotedFor rf) (Log rf)
    (SnapshotData rf) (LastIncludedIndex rf) (commitIndex rf) (lastApplied rf) (state rf)
    (nextIndex rf) (matchIndex rf) x (logAppendedCh rf) (applyReadyCh rf)
    (replicateReadyChs rf) (snapshotPending rf) .
Definition set_logAppendedCh (x : bool) rf : Raft Cmd :=
  mkRaft (npeers rf) (me rf) (persister rf) (CurrentTerm rf) (VotedFor rf) (Log rf)
    (SnapshotData rf) (LastIncludedIndex rf) (commitIndex rf) (lastApplied rf) (state rf)
    (nextIndex rf) (matchIndex rf) (lastHeardTime rf) x (applyReadyCh rf)
    (replicateReadyChs rf) (snapshotPending rf) .
Definition set_applyReadyCh (x : bool) rf : Raft Cmd :=
  mkRaft (npeers rf) (me rf) (persister rf) (CurrentTerm rf) (VotedFor rf) (Log rf)
    (SnapshotData rf) (LastIncludedIndex rf) (commitIndex rf) (lastApplied rf) (state rf)
    (nextIndex rf) (matchIndex rf) (lastHeardTime rf) (logAppendedCh rf) x
    (replicateReadyChs rf) (snapshotPending rf) .
Definition set_replicateReadyChs (x : list bool) rf : Raft Cmd :=
  mkRaft (npeers rf) (me rf) (persister rf) (CurrentTerm rf) (VotedFor rf) (Log rf)
    (SnapshotData rf) (LastIncludedIndex rf) (commitIndex rf) (lastApplied rf) (state rf)
    (nextIndex rf) (matchIndex rf) (lastHeardTime rf) (logAppendedCh rf) (applyReadyCh rf) x
    (snapshotPending rf) .
Definition set_snapshotPending (x : bool) rf : Raft Cmd :=
  mkRaft (npeers rf) (me rf) (persister rf) (CurrentTerm rf) (VotedFor rf) (Log rf)
    (SnapshotData rf) (LastIncludedIndex rf) (commitIndex rf) (lastApplied rf) (state rf)
    (nextIndex rf) (matchIndex rf) (lastHeardTime rf) (logAppendedCh rf) (applyReadyCh rf)
    (replicateReadyChs rf) x.

(** ** Persistence *)

(** [persist]: encode the persistent fields and save them with the snapshot.
    Encoding never fails, so the [log.Fatal] branch is not reached. *)
Definition persistedState rf : PersistedState Cmd :=
  mkPersistedState (CurrentTerm rf) (VotedFor rf) (Log rf) (LastIncludedIndex rf).

Definition persist rf : Raft Cmd :=
  set_persister (Save (enc (persistedState rf)) (SnapshotData rf) (persister rf)) rf.

Definition readPersist (raftStateData snapshotData : bytes) rf : outcome (Raft Cmd) :=
  if decide (raftStateData = []) then Ret rf
  else match dec raftStateData with
       | None => Panic GobError
       | Some rs =>
           let rf := set_CurrentTerm (ps_CurrentTerm rs) rf in
           let rf := set_VotedFor (ps_VotedFor rs) rf in
           let rf := set_Log (ps_Log rs) rf in
           let rf := set_LastIncludedIndex (ps_SnapshotIndex rs) rf in
           let rf := set_lastApplied (LastIncludedIndex rf) rf in
           let rf := set_commitIndex (LastIncludedIndex rf) rf in
           Ret (set_SnapshotData snapshotData rf)
       end.

Definition PersistBytes rf : Z := RaftStateSize (persister rf).

Definition GetState rf : Z * bool := (CurrentTerm rf, bool_decide (state rf = leader)).

(** [notify] on a channel of capacity one. *)
Definition notify (pending : bool) : bool := true.

(** ** The log *)

Definition sliceIndex rf (i : Z) : Z := i - LastIncludedIndex rf.
Definition lastLogIndex rf : Z := zlen (Log rf) - 1 + LastIncludedIndex rf.
Definition lastLogTerm rf : outcome Z :=
  e ← index (Log rf) (zlen (Log rf) - 1); Ret (Term e).

(** [rf.Log[rf.sliceIndex(i)].Term] *)
Definition termAt rf (i : Z) : outcome Z :=
  e ← index (Log rf) (sliceIndex rf i); Ret (Term e).

Definition Snapshot (idx : Z) (snap : bytes) rf : outcome (Raft Cmd) :=
  if decide (idx ≤ LastIncludedIndex rf) then Ret rf
  else
    truncatedLog ← slice_from (Log rf) (sliceIndex rf idx);
    let rf := set_Log truncatedLog rf in
    let rf := set_LastIncludedIndex idx rf in
    let rf := set_SnapshotData snap rf in
    Ret (persist rf).

Definition becomeFollowerWithTerm (now term : Z) rf : Raft Cmd :=
  let rf := set_lastHeardTime now rf in
  let rf := set_state follower rf in
  let rf := set_CurrentTerm term rf in
  let rf := set_VotedFor (-1) rf in
  persist rf.

(** ** AppendEntries *)

(** [for i > rf.LastIncludedIndex && rf.Log[rf.sliceIndex(i)].Term == conflictTerm { i-- }]
    with [n = i - LastIncludedIndex]. *)
Fixpoint firstOfTerm rf (conflictTerm : Z) (n : nat) : outcome Z :=
  match n with
  | O => Ret (LastIncludedIndex rf)
  | S n' =>
      t ← termAt rf (LastIncludedIndex rf + Z.of_nat n);
      if decide (t = conflictTerm) then firstOfTerm rf conflictTerm n'
      else Ret (LastIncludedIndex rf + Z.of_nat n)
  end.

(** (success, conflictTerm, conflictIndex) *)
Definition checkPrev rf (args : AppendEntriesArgs Cmd) : outcome (bool * Z * Z) :=
  if decide (ae_PrevLogIndex args < LastIncludedIndex rf) then
    Ret (false, -1, LastIncludedIndex rf + 1)
  else if decide (lastLogIndex rf < ae_PrevLogIndex args) then
    Ret (false, -1, lastLogIndex rf + 1)
  else
    t ← termAt rf (ae_PrevLogIndex args);
    if decide (ae_PrevLogTerm args ≠ t) then
      i ← firstOfTerm rf t (Z.to_nat (ae_PrevLogIndex args - LastIncludedIndex rf));
      Ret (false, t, i + 1)
    else Ret (true, 0, 0).

(** The loop over [args.Entries] from position [j] of the log: the entries
    that remain to be appended and the log, cut at the first conflict. *)
Fixpoint scanEntries rf (j : Z) (entries : list (LogEntry Cmd))
    : outcome (list (LogEntry Cmd) * list (LogEntry Cmd)) :=
  match entries with
  | [] => Ret ([], Log rf)
  | e :: es =>
      if decide (lastLogIndex rf < j) then Ret (entries, Log rf)
      else
        t ← termAt rf j;
        if decide (Term e ≠ t) then
          l ← slice_to (Log rf) (sliceIndex rf j);
          Ret (entries, l)
        else scanEntries rf (j + 1) es
  end.

(** The part of the handler after a successful consistency check. *)
Definition acceptEntries (args : AppendEntriesArgs Cmd) rf : outcome (Raft Cmd) :=
  '(remaining, l) ← scanEntries rf (ae_PrevLogIndex args + 1) (ae_Entries args);
  let rf := set_Log l rf in
  let rf := match remaining with
            | [] => rf
            | _ => persist (set_Log (l ++ remaining) rf)
            end in
  let rf := if decide (commitIndex rf < ae_LeaderCommit args)
            then set_commitIndex (Z.min (ae_LeaderCommit args) (lastLogIndex rf)) rf else rf in
  Ret (set_applyReadyCh (notify (applyReadyCh rf)) rf).

(** The term and role changes at the start of the handler. *)
Definition observeLeader (now : Z) (args : AppendEntriesArgs Cmd) rf : Raft Cmd :=
  let rf := if decide (CurrentTerm rf ≤ ae_Term args) then set_lastHeardTime now rf else rf in
  if decide (CurrentTerm rf < ae_Term args) then becomeFollowerWithTerm now (ae_Term args) rf
  else if decide (CurrentTerm rf = ae_Term args) then
    if decide (state rf = candidate) then set_state follower (set_lastHeardTime now rf) else rf
  else rf.

Definition AppendEntries (now : Z) (args : AppendEntriesArgs Cmd) rf
    : outcome (Raft Cmd * AppendEntriesReply) :=
  let rf' := observeLeader now args rf in
  if decide (ae_Term args < CurrentTerm rf) then
    Ret (rf', mkAEReply (CurrentTerm rf') false 0 0)
  else
    '(success, conflictTerm, conflictIndex) ← checkPrev rf' args;
    let reply := mkAEReply (CurrentTerm rf') success conflictTerm conflictIndex in
    if decide (success = false) then Ret (rf', reply)
    else rf'' ← acceptEntries args rf'; Ret (rf'', reply).

(** ** InstallSnapshot *)

(** [lastLogIndex() >= LastIncludedIndex && Log[...].Term == LastIncludedTerm] *)
Definition hasSnapshotPoint rf (args : InstallSnapshotArgs) : outcome bool :=
  if decide (is_LastIncludedIndex args ≤ lastLogIndex rf) then
    t ← termAt rf (is_LastIncludedIndex args);
    Ret (bool_decide (t = is_LastIncludedTerm args))
  else Ret false.

Definition adoptSnapshot (args : InstallSnapshotArgs) rf : outcome (Raft Cmd) :=
  let rf := set_SnapshotData (is_Data args) rf in
  keep ← hasSnapshotPoint rf args;
  rf ← (if keep : bool then
          l ← slice_from (Log rf) (sliceIndex rf (is_LastIncludedIndex args));
          Ret (set_LastIncludedIndex (is_LastIncludedIndex args) (set_Log l rf))
        else
          Ret (set_LastIncludedIndex (is_LastIncludedIndex args)
                 (set_Log [mkEntry (is_LastIncludedTerm args) None] rf)));
  let rf :=
    if decide (lastApplied rf < is_LastIncludedIndex args) then
      let rf := set_commitIndex (Z.max (is_LastIncludedIndex args) (commitIndex rf)) rf in
      let rf := set_snapshotPending true rf in
      set_applyReadyCh (notify (applyReadyCh rf)) rf
    else rf in
  Ret (persist rf).

Definition InstallSnapshot (now : Z) (args : InstallSnapshotArgs) rf
    : outcome (Raft Cmd * InstallSnapshotReply) :=
  if decide (is_Term args < CurrentTerm rf) then Ret (rf, mkISReply (CurrentTerm rf))
  else
    let rf := set_lastHeardTime now rf in
    let rf := if decide (CurrentTerm rf < is_Term args)
              then becomeFollowerWithTerm now (is_Term args) rf else rf in
    let reply := mkISReply (CurrentTerm rf) in
    if decide (LastIncludedIndex rf < is_LastIncludedIndex args) then
      rf ← adoptSnapshot args rf; Ret (rf, reply)
    else Ret (rf, reply).

(** ** Elections *)

(** [lastLogTerm()], then the comparison of the candidate's last entry. *)
Definition upToDate rf (args : RequestVoteArgs) : outcome bool :=
  t ← lastLogTerm rf;
  Ret (bool_decide (t < rv_LastLogTerm args) ||
       (bool_decide (rv_LastLogTerm args = t) &&
        bool_decide (lastLogIndex rf ≤ rv_LastLogIndex args))).

(** The handler.  When the vote is still free but the candidate's log is not
    up to date, the source leaves the reply at its zero value. *)
Definition RequestVote (now : Z) (args : RequestVoteArgs) rf
    : outcome (Raft Cmd * RequestVoteReply) :=
  let rf := if decide (CurrentTerm rf < rv_Term args)
            then becomeFollowerWithTerm now (rv_Term args) rf else rf in
  if decide (CurrentTerm rf ≤ rv_Term args ∧
             (VotedFor rf = rv_CandidateId args ∨ VotedFor rf = -1)) then
    ok ← upToDate rf args;
    if ok : bool then
      let rf := set_lastHeardTime now rf in
      let rf := set_VotedFor (rv_CandidateId args) rf in
      let rf := set_state follower rf in
      let rf := persist rf in
      Ret (rf, mkRVReply (CurrentTerm rf) true)
    else Ret (rf, mkRVReply 0 false)
  else Ret (rf, mkRVReply (CurrentTerm rf) false).

(** The ticker's test: not leader and nothing heard for [ms] milliseconds,
    where [ms] is drawn from [minElectionTimeout, +variationLimit). *)
Definition electionTimeout (rnd : Z) : Z := minElectionTimeout + rnd mod variationLimit.

Definition needElection (now ms : Z) rf : bool :=
  bool_decide (state rf ≠ leader) && bool_decide (ms < now - lastHeardTime rf).

(** [startElection] up to the point where the vote requests are sent. *)
Definition startElection (now : Z) rf : outcome (Raft Cmd * RequestVoteArgs) :=
  let rf := set_CurrentTerm (CurrentTerm rf + 1) rf in
  let rf := set_state candidate rf in
  let rf := set_VotedFor (me rf) rf in
  let rf := set_lastHeardTime now rf in
  let rf := persist rf in
  t ← lastLogTerm rf;
  Ret (rf, mkRVArgs (CurrentTerm rf) (me rf) (lastLogIndex rf) t).

(** The variables the vote goroutines of one election share. *)
Record Election := mkElection { voteCount : Z; won : bool }.

Definition newElection : Election := mkElection 1 false.

(** The leader's volatile state, reinitialised. *)
Definition becomeLeader rf : Raft Cmd :=
  let rf := set_state leader rf in
  let rf := set_nextIndex ((λ _, lastLogIndex rf + 1) <$> nextIndex rf) rf in
  set_matchIndex ((λ _, 0) <$> matchIndex rf) rf.

(** One vote goroutine, once the RPC has returned a reply. *)
Definition handleVote (now : Z) (reply : RequestVoteReply) (el : Election) rf
    : Election * Raft Cmd :=
  if decide (CurrentTerm rf < rvr_Term reply) then
    (el, set_lastHeardTime now (becomeFollowerWithTerm now (rvr_Term reply) rf))
  else if rvr_VoteGranted reply then
    if decide (state rf ≠ candidate ∨ rvr_Term reply ≠ CurrentTerm rf) then (el, rf)
    else
      let el := mkElection (voteCount el + 1) (won el) in
      if decide (npeers rf `quot` 2 < voteCount el ∧ won el = false) then
        (mkElection (voteCount el) true, becomeLeader rf)
      else (el, rf)
  else (el, rf).

(** ** Replication *)

Definition Start (cmd : Cmd) rf : Raft Cmd * (Z * Z * bool) :=
  if decide (state rf = leader) then
    let rf := set_Log (Log rf ++ [mkEntry (CurrentTerm rf) (Some cmd)]) rf in
    let rf := persist rf in
    (set_logAppendedCh (notify (logAppendedCh rf)) rf, (lastLogIndex rf, CurrentTerm rf, true))
  else (rf, (-1, -1, false)).

(** One round of [replicationDispatcher] after a signal: wake the workers of
    the followers that are behind, for the peers [js]. *)
Fixpoint wakeWorkers rf (js : list nat) (chs : list bool) : outcome (list bool) :=
  match js with
  | [] => Ret chs
  | j :: js =>
      if decide (Z.of_nat j = me rf) then wakeWorkers rf js chs
      else
        ni ← index (nextIndex rf) (Z.of_nat j);
        if decide (ni ≤ lastLogIndex rf) then
          ready ← index chs (Z.of_nat j);
          chs ← store chs (Z.of_nat j) (notify ready);
          wakeWorkers rf js chs
        else wakeWorkers rf js chs
  end.

Definition replicationDispatcher rf : outcome (Raft Cmd) :=
  let rf := set_logAppendedCh false rf in
  if decide (state rf ≠ leader) then Ret rf
  else
    chs ← wakeWorkers rf (seq 0 (Z.to_nat (npeers rf))) (replicateReadyChs rf);
    Ret (set_replicateReadyChs chs rf).

Definition newAppendEntriesArgsFor rf (svr : Z) : outcome (AppendEntriesArgs Cmd) :=
  ni ← index (nextIndex rf) svr;
  entries ← slice_from (Log rf) (sliceIndex rf ni);
  prevTerm ← termAt rf (ni - 1);
  Ret (mkAEArgs (CurrentTerm rf) (me rf) (ni - 1) prevTerm entries (commitIndex rf)).

Definition newInstallSnapshotArgs rf : outcome InstallSnapshotArgs :=
  t ← termAt rf (LastIncludedIndex rf);
  Ret (mkISArgs (CurrentTerm rf) (me rf) (LastIncludedIndex rf) t (SnapshotData rf)).

(** [count]: this server and the peers among [js] whose [matchIndex] is at
    least [N]. *)
Fixpoint countFrom rf (N : Z) (js : list nat) : outcome Z :=
  match js with
  | [] => Ret 1
  | j :: js =>
      c ← countFrom rf N js;
      if decide (Z.of_nat j = me rf) then Ret c
      else m ← index (matchIndex rf) (Z.of_nat j);
           Ret (if decide (N ≤ m) then c + 1 else c)
  end.

Definition countMatching rf (N : Z) : outcome Z :=
  countFrom rf N (seq 0 (Z.to_nat (npeers rf))).

(** [for N := rf.lastLogIndex(); N > rf.commitIndex; N--] with [n = N - commitIndex]. *)
Fixpoint advanceFrom rf (n : nat) : outcome (Raft Cmd) :=
  match n with
  | O => Ret rf
  | S n' =>
      let N := commitIndex rf + Z.of_nat n in
      t ← termAt rf N;
      if decide (t ≠ CurrentTerm rf) then Ret rf
      else
        c ← countMatching rf N;
        if decide (npeers rf `quot` 2 < c) then
        Ret (set_applyReadyCh (notify (applyReadyCh rf)) (set_commitIndex N rf))
      else advanceFrom rf n'
  end.

Definition advanceCommitIndex rf : outcome (Raft Cmd) :=
  advanceFrom rf (Z.to_nat (lastLogIndex rf - commitIndex rf)).

(** What [replicateToFollower] sends, decided under the lock. *)
Inductive Outgoing :=
| NotLeader
| SendSnapshot (args : InstallSnapshotArgs)
| SendEntries (args : AppendEntriesArgs Cmd).

Definition replicateToFollower_send rf (i : Z) : outcome Outgoing :=
  if decide (state rf ≠ leader) then Ret NotLeader
  else
    ni ← index (nextIndex rf) i;
    if decide (ni ≤ LastIncludedIndex rf) then
      args ← newInstallSnapshotArgs rf; Ret (SendSnapshot args)
    else
      args ← newAppendEntriesArgsFor rf i; Ret (SendEntries args).

(** [replicateToFollower] after the InstallSnapshot call returned true. *)
Definition onSnapshotReply (now i : Z) (args : InstallSnapshotArgs) (reply : InstallSnapshotReply)
    rf : outcome (Raft Cmd) :=
  if decide (CurrentTerm rf < isr_Term reply) then
    Ret (becomeFollowerWithTerm now (isr_Term reply) rf)
  else
    mi ← index (matchIndex rf) i;
    if decide (mi < is_LastIncludedIndex args) then
      mis ← store (matchIndex rf) i (is_LastIncludedIndex args);
      nis ← store (nextIndex rf) i (is_LastIncludedIndex args + 1);
      advanceCommitIndex (set_nextIndex nis (set_matchIndex mis rf))
    else Ret rf.

(** [for j := args.PrevLogIndex; j >= rf.LastIncludedIndex && j >= reply.ConflictIndex; j--]:
    the position after the last entry of [ConflictTerm], if there is one.  [n]
    counts the iterations left. *)
Fixpoint findConflictTerm rf (t j : Z) (n : nat) : outcome (option Z) :=
  match n with
  | O => Ret None
  | S n' =>
      tj ← termAt rf j;
      if decide (tj = t) then Ret (Some (j + 1)) else findConflictTerm rf t (j - 1) n'
  end.

Definition backtrack rf (args : AppendEntriesArgs Cmd) (reply : AppendEntriesReply) : outcome Z :=
  if decide (aer_ConflictTerm reply ≠ -1) then
    found ← findConflictTerm rf (aer_ConflictTerm reply) (ae_PrevLogIndex args)
      (Z.to_nat (ae_PrevLogIndex args -
                 Z.max (LastIncludedIndex rf) (aer_ConflictIndex reply) + 1));
    Ret (default (aer_ConflictIndex reply) found)
  else Ret (aer_ConflictIndex reply).

(** [replicateToFollower] after the AppendEntries call returned true. *)
Definition onEntriesReply (now i : Z) (args : AppendEntriesArgs Cmd) (reply : AppendEntriesReply)
    rf : outcome (Raft Cmd) :=
  if decide (CurrentTerm rf < aer_Term reply) then
    Ret (becomeFollowerWithTerm now (aer_Term reply) rf)
  else
    mi ← index (matchIndex rf) i;
    if aer_Success reply then
      let m := ae_PrevLogIndex args + zlen (ae_Entries args) in
      if decide (m ≤ mi) then Ret rf
      else
        mis ← store (matchIndex rf) i m;
        nis ← store (nextIndex rf) i (m + 1);
        advanceCommitIndex (set_nextIndex nis (set_matchIndex mis rf))
    else if decide (ae_PrevLogIndex args ≤ mi) then Ret rf
    else
      ni ← backtrack rf args reply;
      nis ← store (nextIndex rf) i (Z.max ni (mi + 1));
      Ret (set_nextIndex nis rf).

(** [synchroniseFollower]: whether another round is needed, and the backoff in
    milliseconds before it. *)
Definition needReplicate rf (i : Z) : outcome bool :=
  if decide (state rf = leader) then
    ni ← index (nextIndex rf) i; Ret (bool_decide (ni ≤ lastLogIndex rf))
  else Ret false.

Definition nextBackoff (backoff : Z) (rpcOK : bool) : Z :=
  if rpcOK then 100 else Z.min 2000 (backoff * 2).

(** ** Applying *)

(** First critical section of [applier]: the message to send, if any. *)
Definition applier_take rf : outcome (Raft Cmd * option (ApplyMsg Cmd)) :=
  if decide (snapshotPending rf = true) then
    t ← termAt rf (LastIncludedIndex rf);
    Ret (set_snapshotPending false rf,
         Some (SnapshotMsg (SnapshotData rf) t (LastIncludedIndex rf)))
  else if decide (lastApplied rf < commitIndex rf) then
    e ← index (Log rf) (sliceIndex rf (lastApplied rf + 1));
    Ret (rf, Some (CommandMsg (Command e) (lastApplied rf + 1)))
  else Ret (rf, None).

(** Second one, after the message went through [applyCh]. *)
Definition applier_done (msg : ApplyMsg Cmd) rf : Raft Cmd :=
  match msg with
  | SnapshotMsg _ _ idx => set_lastApplied idx rf
  | CommandMsg _ _ => set_lastApplied (lastApplied rf + 1) rf
  end.

(** ** Starting a peer *)

(** The peer before [readPersist]. *)
Definition freshRaft (n i now : Z) (ps : Persister) : Raft Cmd :=
  mkRaft n i ps 0 (-1) [mkEntry 0 None] [] 0 0 0 follower
    (replicate (Z.to_nat n) 0) (replicate (Z.to_nat n) 0) now false false
    (replicate (Z.to_nat n) false) false.

Definition Make (n i now : Z) (ps : Persister) : outcome (Raft Cmd) :=
  readPersist (ReadRaftState ps) (ReadSnapshot ps) (freshRaft n i now ps).

End raft.
