(* ===== verification/RaftFacts.v ===== *)
(** * RaftFacts: what one peer does on its own

    Contracts of the definitions of [Raft], each in terms of the fields a
    client of the peer can rely on: the persistent fields, the role, and what
    stable storage holds.  [RaftSafety] builds the cluster invariant on them. *)

From S2P Require Import Prelude Persister Raft.

Section facts.
Context {Cmd : Type} `{!Codec (PersistedState Cmd)}.
Implicit Types (rf : Raft Cmd) (L : list (LogEntry Cmd)).

(** ** Durability *)

Definition never_saved rf : Prop :=
  persister rf = MakePersister ∧ SnapshotData rf = [] ∧
  persistedState rf = mkPersistedState 0 (-1) [mkEntry 0 None] 0.

Definition saved rf : Prop :=
  raftstate (persister rf) = enc (persistedState rf) ∧
  snapshot (persister rf) = SnapshotData rf.

(** Stable storage agrees with the persistent fields in memory. *)
Definition durable rf : Prop := never_saved rf ∨ saved rf.

(** The fields that survive a restart. *)
Definition core rf := (npeers rf, me rf, CurrentTerm rf, VotedFor rf, Log rf, SnapshotData rf,
                       LastIncludedIndex rf).

Lemma persist_saved rf : saved (persist rf).
Proof. unfold saved, persist. cbn [persister set_persister Save raftstate snapshot].
  rewrite !clone_id. done. Qed.

Lemma persist_durable rf : durable (persist rf).
Proof. right. apply persist_saved. Qed.

Lemma durable_core rf rf' :
  core rf' = core rf → persister rf' = persister rf → durable rf → durable rf'.
Proof.
  unfold core. intros Hc Hp. simplify_eq.
  unfold durable, never_saved, saved, persistedState. rewrite Hp. by repeat f_equal; congruence.
Qed.

(** Restarting from what was saved restores every persistent field. *)
Lemma Make_durable rf now n i :
  durable rf → npeers rf = n → me rf = i →
  ∃ rf', Make n i now (persister rf) = Ret rf' ∧ core rf' = core rf ∧ durable rf' ∧
         persister rf' = persister rf ∧
         state rf' = follower ∧ commitIndex rf' = LastIncludedIndex rf ∧
         lastApplied rf' = LastIncludedIndex rf ∧ snapshotPending rf' = false.
Proof.
  intros Hd Hn Hi. unfold Make, readPersist, ReadRaftState, ReadSnapshot. rewrite !clone_id.
  destruct Hd as [(Hp & Hsd & Hps)|[Hr Hs]].
  - rewrite Hp. cbn. eexists. split; [done|]. unfold persistedState in Hps. simplify_eq.
    unfold core. cbn. split_and!; try congruence.
    left. split_and!; cbn; done.
  - rewrite Hr, decide_False by apply enc_nonempty. rewrite dec_enc. eexists. split; [done|].
    unfold core. cbn. rewrite Hs. split_and!; try congruence.
    right. unfold saved. cbn. rewrite Hr, Hs. done.
Qed.

(** ** AppendEntries *)

(** The entry of [L] at position [i] has the term of entry [k] of [es]. *)
Definition same_term L (i : nat) (es : list (LogEntry Cmd)) (k : nat) : Prop :=
  ∃ e e', es !! k = Some e ∧ L !! i = Some e' ∧ Term e' = Term e.

(** The log after a successful AppendEntries: the first [k] entries were
    already there (same terms); if that was all of them the log is unchanged,
    otherwise it is cut before the first conflict and the rest appended. *)
Definition merged L (b : Z) (args : AppendEntriesArgs Cmd) L' : Prop :=
  b ≤ ae_PrevLogIndex args ∧ ae_PrevLogIndex args - b < zlen L ∧
  (∃ e, L !! Z.to_nat (ae_PrevLogIndex args - b) = Some e ∧ Term e = ae_PrevLogTerm args) ∧
  ∃ k, (k ≤ length (ae_Entries args))%nat ∧
    (∀ m e, (m < k)%nat → ae_Entries args !! m = Some e →
       ∃ e', L !! (Z.to_nat (ae_PrevLogIndex args - b) + 1 + m)%nat = Some e' ∧ Term e' = Term e) ∧
    ((k = length (ae_Entries args) ∧ L' = L) ∨
     ((k < length (ae_Entries args))%nat ∧
      (Z.to_nat (ae_PrevLogIndex args - b) + 1 + k ≤ length L)%nat ∧
      ¬ same_term L (Z.to_nat (ae_PrevLogIndex args - b) + 1 + k) (ae_Entries args) k ∧
      L' = take (Z.to_nat (ae_PrevLogIndex args - b) + 1 + k) L ++ drop k (ae_Entries args))).

Lemma scanEntries_spec rf j entries rem l :
  LastIncludedIndex rf < j ≤ lastLogIndex rf + 1 →
  scanEntries rf j entries = Ret (rem, l) →
  ∃ k, (k ≤ length entries)%nat ∧ rem = drop k entries ∧
    (∀ m e, (m < k)%nat → entries !! m = Some e →
       ∃ e', Log rf !! (Z.to_nat (sliceIndex rf j) + m)%nat = Some e' ∧ Term e' = Term e) ∧
    ((k = length entries ∧ l = Log rf) ∨
     ((k < length entries)%nat ∧ (Z.to_nat (sliceIndex rf j) + k ≤ length (Log rf))%nat ∧
      ¬ same_term (Log rf) (Z.to_nat (sliceIndex rf j) + k) entries k ∧
      l = take (Z.to_nat (sliceIndex rf j) + k) (Log rf))).
Proof.
  unfold lastLogIndex, sliceIndex.
  revert j. induction entries as [|e es IH]; intros j Hj; cbn [scanEntries].
  - intros [= <- <-]. exists 0%nat. split_and!; try done; [cbn; lia..|by left].
  - case_decide as Hlast.
    + intros [= <- <-]. unfold lastLogIndex in Hlast. exists 0%nat.
      split_and!; [lia|done|lia|]. right. unfold zlen in *. split_and!; [cbn; lia..| |].
      * intros (? & ? & _ & Hlk%lookup_lt_Some & _). lia.
      * by rewrite take_ge by lia.
    + intros (t & Ht & H)%bind_ret_inv.
      apply bind_ret_inv in Ht as (x & Hx & [= <-]).
      apply index_Ret in Hx as [Hpos Hx]. unfold sliceIndex, lastLogIndex in *.
      case_decide as Hte.
      * apply bind_ret_inv in H as (l' & Hl & [= <- <-]).
        apply slice_to_Ret in Hl as [Hb ->]. exists 0%nat. unfold zlen in *.
        split_and!; [lia|done|lia|]. right. rewrite Nat.add_0_r.
        split_and!; [cbn; lia|lia| |done]. intros (? & ? & [= <-] & Hlk & ?). congruence.
      * apply IH in H as (k & Hk & -> & Hm & Hl); [|lia].
        replace (Z.to_nat (j + 1 - LastIncludedIndex rf))
          with (S (Z.to_nat (j - LastIncludedIndex rf))) in * by lia.
        exists (S k). split_and!.
        -- cbn. lia.
        -- done.
        -- intros [|m] e' Hlt He'; cbn in He'.
           ++ simplify_eq. exists x. rewrite Nat.add_0_r. split; [done|].
              destruct (decide (Term e' = Term x)); [done|]. by exfalso.
           ++ destruct (Hm m e' ltac:(lia) He') as (y & Hy & ?). exists y.
              split; [|done]. rewrite <-Hy. f_equal. lia.
        -- destruct Hl as [[-> ->]|(? & ? & Hd & ->)]; [by left|]. right.
           rewrite <-Nat.add_succ_comm. split_and!; [cbn; lia|lia|exact Hd|done].
Qed.

Lemma checkPrev_success rf args t i :
  checkPrev rf args = Ret (true, t, i) →
  LastIncludedIndex rf ≤ ae_PrevLogIndex args ≤ lastLogIndex rf ∧
  ∃ e, Log rf !! Z.to_nat (sliceIndex rf (ae_PrevLogIndex args)) = Some e ∧
       Term e = ae_PrevLogTerm args.
Proof.
  unfold checkPrev. case_decide as Hlo; [done|]. case_decide as Hhi; [done|].
  intros (u & Hu & H)%bind_ret_inv. apply bind_ret_inv in Hu as (e & He & [= <-]).
  apply index_Ret in He as [_ He]. case_decide as Ht.
  - by apply bind_ret_inv in H as (? & ? & [=]).
  - split; [lia|]. exists e. split; [done|]. destruct (decide (ae_PrevLogTerm args = Term e)); [done|].
    by exfalso.
Qed.

Lemma acceptEntries_spec args rf rf' :
  LastIncludedIndex rf ≤ ae_PrevLogIndex args ≤ lastLogIndex rf →
  (∃ e, Log rf !! Z.to_nat (sliceIndex rf (ae_PrevLogIndex args)) = Some e ∧
        Term e = ae_PrevLogTerm args) →
  acceptEntries args rf = Ret rf' →
  merged (Log rf) (LastIncludedIndex rf) args (Log rf') ∧
  (durable rf → durable rf') ∧
  (npeers rf', me rf', CurrentTerm rf', VotedFor rf', SnapshotData rf', LastIncludedIndex rf',
   state rf', lastApplied rf', snapshotPending rf') =
  (npeers rf, me rf, CurrentTerm rf, VotedFor rf, SnapshotData rf, LastIncludedIndex rf,
   state rf, lastApplied rf, snapshotPending rf) ∧
  commitIndex rf' = (if decide (commitIndex rf < ae_LeaderCommit args)
                     then Z.min (ae_LeaderCommit args) (lastLogIndex rf') else commitIndex rf).
Proof.
  intros Hprev He H. unfold acceptEntries in H.
  apply bind_ret_inv in H as ([rem l] & Hscan & [= <-]).
  apply scanEntries_spec in Hscan as (k & Hk & -> & Hm & Hl); [|lia].
  unfold sliceIndex in *.
  replace (Z.to_nat (ae_PrevLogIndex args + 1 - LastIncludedIndex rf))
    with (Z.to_nat (ae_PrevLogIndex args - LastIncludedIndex rf) + 1)%nat in * by lia.
  assert (merged (Log rf) (LastIncludedIndex rf) args
            (match drop k (ae_Entries args) with [] => l | r => l ++ r end)) as HM.
  { unfold lastLogIndex in Hprev. split_and!; [lia..|done|].
    exists k. split_and!; try done. destruct Hl as [[-> ->]|(Hlt & Hle & Hd & ->)].
    - left. rewrite drop_ge by lia. done.
    - right. split_and!; try done.
      destruct (drop k (ae_Entries args)) as [|x xs] eqn:E; [|done].
      apply (f_equal length) in E. rewrite length_drop in E. cbn in E. lia. }
  set (r := drop k (ae_Entries args)) in *.
  destruct Hl as [[-> ->]|(Hlt & Hle & Hd & ->)].
  - assert (r = []) as -> by (by apply drop_ge).
    repeat case_decide; cbn; (split_and!; [exact HM| |done|done]);
      apply durable_core; done.
  - destruct r as [|x xs] eqn:E.
    + exfalso. apply (f_equal length) in E. unfold r in E. rewrite length_drop in E. cbn in E. lia.
    + repeat case_decide; cbn; (split_and!; [exact HM| |done|done]); intros _;
        (eapply durable_core; [| |apply persist_durable]; done).
Qed.
Lemma observeLeader_spec now args rf :
  let rf' := observeLeader now args rf in
  (npeers rf', me rf', Log rf', SnapshotData rf', LastIncludedIndex rf', lastApplied rf',
   commitIndex rf') =
  (npeers rf, me rf, Log rf, SnapshotData rf, LastIncludedIndex rf, lastApplied rf,
   commitIndex rf) ∧
  (durable rf → durable rf') ∧
  CurrentTerm rf' = Z.max (CurrentTerm rf) (ae_Term args) ∧
  VotedFor rf' = (if decide (CurrentTerm rf < ae_Term args) then -1 else VotedFor rf) ∧
  state rf' = (if decide (CurrentTerm rf < ae_Term args ∨
                          (CurrentTerm rf = ae_Term args ∧ state rf = candidate))
               then follower else state rf).
Proof.
  unfold observeLeader. cbn zeta.
  destruct (decide (CurrentTerm rf ≤ ae_Term args)) as [Hle|Hle];
    cbn [CurrentTerm state set_lastHeardTime];
    destruct (decide (CurrentTerm rf < ae_Term args)) as [Hlt|Hlt]; try lia.
  - rewrite decide_True by auto. cbn. split_and!; try done; [|lia].
    intros _. apply persist_durable.
  - rewrite decide_True by lia.
    destruct (decide (state rf = candidate)) as [Hc|Hc].
    + rewrite decide_True by (right; split; [lia|done]). cbn.
      split_and!; try done; lia.
    + rewrite decide_False by (intros [?|[? ?]]; [lia|done]). cbn.
      split_and!; try done; lia.
  - rewrite decide_False by lia. rewrite decide_False by (intros [?|[? ?]]; lia).
    split_and!; try done. lia.
Qed.

Lemma AppendEntries_spec now args rf rf' reply :
  AppendEntries now args rf = Ret (rf', reply) →
  npeers rf' = npeers rf ∧ me rf' = me rf ∧ LastIncludedIndex rf' = LastIncludedIndex rf ∧
  (durable rf → durable rf') ∧ aer_Term reply = CurrentTerm rf' ∧
  CurrentTerm rf' = Z.max (CurrentTerm rf) (ae_Term args) ∧
  VotedFor rf' = (if decide (CurrentTerm rf < ae_Term args) then -1 else VotedFor rf) ∧
  state rf' = (if decide (CurrentTerm rf < ae_Term args ∨
                          (CurrentTerm rf = ae_Term args ∧ state rf = candidate))
               then follower else state rf) ∧
  (if aer_Success reply
   then CurrentTerm rf ≤ ae_Term args ∧ merged (Log rf) (LastIncludedIndex rf) args (Log rf')
   else Log rf' = Log rf).
Proof.
  unfold AppendEntries. destruct (observeLeader_spec now args rf) as (Hf & Hd & Ht & Hv & Hs).
  set (rf1 := observeLeader now args rf) in *. clearbody rf1.
  injection Hf as Hn Hm Hlg _ Hli _ _.
  destruct (decide (ae_Term args < CurrentTerm rf)) as [Hstale|Hstale].
  - intros [= <- <-]. cbn. split_and!; done.
  - intros ([[su ct] ci] & Hc & Hrest)%bind_ret_inv. destruct su.
    + rewrite decide_False in Hrest by done.
      apply bind_ret_inv in Hrest as (rf2 & Hacc & [= <- <-]).
      apply checkPrev_success in Hc as [Hp He].
      apply acceptEntries_spec in Hacc as (HM & Hd2 & Hf & _); [|done..].
      injection Hf as Hn2 Hm2 Ht2 Hv2 _ Hli2 Hs2 _ _. rewrite Hlg, Hli in HM.
      cbn. split_and!; try congruence; [tauto|lia].
    + rewrite decide_True in Hrest by done. simplify_eq. cbn. split_and!; done.
Qed.

(** The start of the other two handlers: a higher term makes a follower. *)
Lemma bumpTerm_spec now term rf0 rf rf1 :
  rf1 = (if decide (CurrentTerm rf < term) then becomeFollowerWithTerm now term rf0 else rf0) →
  core rf0 = core rf → persister rf0 = persister rf → state rf0 = state rf →
  (npeers rf1, me rf1, Log rf1, LastIncludedIndex rf1) =
  (npeers rf, me rf, Log rf, LastIncludedIndex rf) ∧
  (durable rf → durable rf1) ∧ CurrentTerm rf1 = Z.max (CurrentTerm rf) term ∧
  VotedFor rf1 = (if decide (CurrentTerm rf < term) then -1 else VotedFor rf) ∧
  state rf1 = (if decide (CurrentTerm rf < term) then follower else state rf).
Proof.
  intros -> Hc Hp Hs. pose proof (durable_core rf rf0 Hc Hp) as Hd. unfold core in Hc.
  injection Hc as Hn Hm Ht Hv Hl _ Hli.
  case_decide; cbn; split_and!; try congruence; try lia; try done.
  intros _. apply persist_durable.
Qed.

(** ** InstallSnapshot *)

(** The log after a snapshot at [L]: the tail of the old log if it contains
    the snapshot point with the right term, a single dummy entry otherwise. *)
Definition rebased L (b : Z) (args : InstallSnapshotArgs) L' : Prop :=
  let i := Z.to_nat (is_LastIncludedIndex args - b) in
  (∃ e, L !! i = Some e ∧ Term e = is_LastIncludedTerm args ∧ L' = drop i L) ∨
  ((∀ e, L !! i = Some e → Term e ≠ is_LastIncludedTerm args) ∧
   L' = [mkEntry (is_LastIncludedTerm args) None]).

Lemma adoptSnapshot_spec args rf rf' :
  LastIncludedIndex rf < is_LastIncludedIndex args →
  adoptSnapshot args rf = Ret rf' →
  (npeers rf', me rf', CurrentTerm rf', VotedFor rf', state rf') =
  (npeers rf, me rf, CurrentTerm rf, VotedFor rf, state rf) ∧
  durable rf' ∧ LastIncludedIndex rf' = is_LastIncludedIndex args ∧
  rebased (Log rf) (LastIncludedIndex rf) args (Log rf').
Proof.
  intros Hlt H. unfold adoptSnapshot in H.
  apply bind_ret_inv in H as (keep & Hkeep & H).
  apply bind_ret_inv in H as (rf1 & Hrf1 & [= <-]).
  assert ((npeers rf1, me rf1, CurrentTerm rf1, VotedFor rf1, state rf1) =
          (npeers rf, me rf, CurrentTerm rf, VotedFor rf, state rf) ∧
          LastIncludedIndex rf1 = is_LastIncludedIndex args ∧
          rebased (Log rf) (LastIncludedIndex rf) args (Log rf1)) as (Hf & HL & HR).
  { destruct keep.
    - apply bind_ret_inv in Hrf1 as (l & Hl & [= <-]). cbn. split_and!; try done.
      apply slice_from_Ret in Hl as [Hb ->]. cbn in *. left.
      unfold hasSnapshotPoint in Hkeep. case_decide; [|done].
      apply bind_ret_inv in Hkeep as (t & Ht & [= Hdec]).
      apply bool_decide_eq_true in Hdec as <-.
      apply bind_ret_inv in Ht as (e & He & [= <-]). apply index_Ret in He as [_ He].
      exists e. split_and!; done.
    - simplify_eq. cbn. split_and!; try done. right. split; [|done]. intros e He HeT.
      unfold hasSnapshotPoint in Hkeep. case_decide as Hlast.
      + apply bind_ret_inv in Hkeep as (t & Ht & [= Hdec]).
        apply bool_decide_eq_false in Hdec. apply bind_ret_inv in Ht as (e' & He' & [= <-]).
        apply index_Ret in He' as [_ He']. unfold sliceIndex in He'. cbn in He'.
        rewrite He in He'. congruence.
      + apply lookup_lt_Some in He. unfold lastLogIndex, zlen in Hlast. cbn in Hlast. lia. }
  simplify_eq. case_decide; cbn; (split_and!; try congruence; apply persist_durable).
Qed.

Lemma InstallSnapshot_spec now args rf rf' reply :
  InstallSnapshot now args rf = Ret (rf', reply) →
  npeers rf' = npeers rf ∧ me rf' = me rf ∧ (durable rf → durable rf') ∧
  isr_Term reply = CurrentTerm rf' ∧
  CurrentTerm rf' = Z.max (CurrentTerm rf) (is_Term args) ∧
  VotedFor rf' = (if decide (CurrentTerm rf < is_Term args) then -1 else VotedFor rf) ∧
  state rf' = (if decide (CurrentTerm rf < is_Term args) then follower else state rf) ∧
  ((Log rf' = Log rf ∧ LastIncludedIndex rf' = LastIncludedIndex rf) ∨
   (CurrentTerm rf ≤ is_Term args ∧ LastIncludedIndex rf < is_LastIncludedIndex args ∧
    LastIncludedIndex rf' = is_LastIncludedIndex args ∧
    rebased (Log rf) (LastIncludedIndex rf) args (Log rf'))).
Proof.
  unfold InstallSnapshot.
  destruct (decide (is_Term args < CurrentTerm rf)) as [Hstale|Hstale].
  - intros [= <- <-]. rewrite !decide_False by lia. split_and!; try done; [cbn; lia|by left].
  - cbn [CurrentTerm set_lastHeardTime].
    remember (if decide (CurrentTerm rf < is_Term args) then _ else _) as rf1 eqn:Erf1.
    apply bumpTerm_spec in Erf1 as (Hf & Hd & Ht & Hv & Hs); [|done..].
    injection Hf as Hn Hm Hlg Hli.
    destruct (decide (LastIncludedIndex rf1 < is_LastIncludedIndex args)) as [HL|HL].
    + intros (rf2 & Hadopt & [= <- <-])%bind_ret_inv.
      apply adoptSnapshot_spec in Hadopt as (Hf & Hd2 & HL2 & HR); [|done].
      injection Hf as Hn2 Hm2 Ht2 Hv2 Hs2. rewrite Hlg, Hli in HR.
      cbn. split_and!; try congruence; try done; []. right. split_and!; try done; lia.
    + intros [= <- <-]. cbn. split_and!; try congruence; try done; []. by left.
Qed.

(** ** Votes and elections *)

Lemma RequestVote_spec now args rf rf' reply :
  RequestVote now args rf = Ret (rf', reply) →
  npeers rf' = npeers rf ∧ me rf' = me rf ∧ Log rf' = Log rf ∧
  LastIncludedIndex rf' = LastIncludedIndex rf ∧ (durable rf → durable rf') ∧
  CurrentTerm rf' = Z.max (CurrentTerm rf) (rv_Term args) ∧
  (if rvr_VoteGranted reply
   then CurrentTerm rf' = rv_Term args ∧ rvr_Term reply = rv_Term args ∧
        VotedFor rf' = rv_CandidateId args ∧ state rf' = follower ∧
        (CurrentTerm rf < rv_Term args ∨ VotedFor rf = rv_CandidateId args ∨ VotedFor rf = -1) ∧
        upToDate rf args = Ret true
   else VotedFor rf' = (if decide (CurrentTerm rf < rv_Term args) then -1 else VotedFor rf) ∧
        state rf' = (if decide (CurrentTerm rf < rv_Term args) then follower else state rf)).
Proof.
  unfold RequestVote.
  remember (if decide (CurrentTerm rf < rv_Term args) then _ else _) as rf1 eqn:Erf1.
  apply bumpTerm_spec in Erf1 as (Hf & Hd & Ht & Hv & Hs); [|done..].
  injection Hf as Hn Hm Hlg Hli.
  assert (upToDate rf1 args = upToDate rf args) as Hup.
  { unfold upToDate, lastLogTerm, lastLogIndex. by rewrite Hlg, Hli. }
  destruct (decide (CurrentTerm rf1 ≤ rv_Term args ∧
    (VotedFor rf1 = rv_CandidateId args ∨ VotedFor rf1 = -1))) as [Hfree|Hfree].
  - rewrite Hup. intros (up & Hup1 & Hrest)%bind_ret_inv. destruct up; simplify_eq; cbn.
    + split_and!; try congruence; [intros _; apply persist_durable|lia..|].
      destruct (decide (CurrentTerm rf < rv_Term args)); [by left|]. right.
      rewrite <-Hv. tauto.
    + split_and!; done.
  - intros [= <- <-]. cbn. split_and!; done.
Qed.

Lemma startElection_spec now rf rf' args :
  startElection now rf = Ret (rf', args) →
  npeers rf' = npeers rf ∧ me rf' = me rf ∧ Log rf' = Log rf ∧
  LastIncludedIndex rf' = LastIncludedIndex rf ∧ durable rf' ∧
  CurrentTerm rf' = CurrentTerm rf + 1 ∧ VotedFor rf' = me rf ∧ state rf' = candidate ∧
  rv_Term args = CurrentTerm rf + 1 ∧ rv_CandidateId args = me rf.
Proof.
  unfold startElection. intros (t & _ & [= <- <-])%bind_ret_inv. cbn.
  split_and!; try done. apply persist_durable.
Qed.

Lemma handleVote_spec now reply el rf el' rf' :
  handleVote now reply el rf = (el', rf') →
  npeers rf' = npeers rf ∧ me rf' = me rf ∧ Log rf' = Log rf ∧
  LastIncludedIndex rf' = LastIncludedIndex rf ∧ (durable rf → durable rf') ∧
  ((CurrentTerm rf < CurrentTerm rf' ∧ VotedFor rf' = -1 ∧ state rf' = follower ∧ el' = el) ∨
   (CurrentTerm rf' = CurrentTerm rf ∧ VotedFor rf' = VotedFor rf ∧ state rf' = state rf ∧
    (el' = el ∨ (rvr_VoteGranted reply = true ∧ rvr_Term reply = CurrentTerm rf ∧
                 voteCount el' = voteCount el + 1))) ∨
   (CurrentTerm rf' = CurrentTerm rf ∧ VotedFor rf' = VotedFor rf ∧
    state rf = candidate ∧ state rf' = leader ∧
    rvr_VoteGranted reply = true ∧ rvr_Term reply = CurrentTerm rf ∧
    voteCount el' = voteCount el + 1 ∧ npeers rf `quot` 2 < voteCount el')).
Proof.
  unfold handleVote. case_decide as Hlt.
  { intros [= <- <-]. cbn. split_and!; try done.
    - intros _. eapply durable_core; [| |apply persist_durable]; done.
    - left. done. }
  destruct (rvr_VoteGranted reply) eqn:Hg; [|intros [= <- <-]; split_and!; try done; right; left; auto].
  case_decide as Hst; [intros [= <- <-]; split_and!; try done; right; left; auto|].
  assert (state rf = candidate ∧ rvr_Term reply = CurrentTerm rf) as [Hc Ht].
  { split; [destruct (decide (state rf = candidate))|
            destruct (decide (rvr_Term reply = CurrentTerm rf))]; tauto. }
  cbn [voteCount won]. case_decide as Hwin; intros [= <- <-]; cbn.
  - split_and!; try done; []. right. right. by destruct Hwin.
  - split_and!; try done; []. right. left. split_and!; try done. by right.
Qed.

(** ** The leader *)

Lemma Start_spec cmd rf rf' r :
  Start cmd rf = (rf', r) →
  npeers rf' = npeers rf ∧ me rf' = me rf ∧ CurrentTerm rf' = CurrentTerm rf ∧
  VotedFor rf' = VotedFor rf ∧ state rf' = state rf ∧
  LastIncludedIndex rf' = LastIncludedIndex rf ∧ (durable rf → durable rf') ∧
  ((state rf = leader ∧ Log rf' = Log rf ++ [mkEntry (CurrentTerm rf) (Some cmd)] ∧
    r = (lastLogIndex rf + 1, CurrentTerm rf, true)) ∨
   (state rf ≠ leader ∧ rf' = rf ∧ r = (-1, -1, false))).
Proof.
  unfold Start. destruct (decide (state rf = leader)) as [Hl|Hl]; intros [= <- <-]; cbn.
  - split_and!; try done.
    + intros _. eapply durable_core; [| |apply persist_durable]; done.
    + left. split_and!; try done. unfold lastLogIndex. cbn. rewrite zlen_app.
      change (zlen [_]) with 1. do 2 f_equal. lia.
  - split_and!; try done. by right.
Qed.

Lemma termAt_Ret rf i t :
  termAt rf i = Ret t ↔
  LastIncludedIndex rf ≤ i ∧ ∃ e, Log rf !! Z.to_nat (i - LastIncludedIndex rf) = Some e ∧ Term e = t.
Proof.
  unfold termAt, sliceIndex. split.
  - intros (e & He & [= <-])%bind_ret_inv. apply index_Ret in He as [? He].
    split; [lia|]. eauto.
  - intros (Hi & e & He & <-).
    assert (index (Log rf) (i - LastIncludedIndex rf) = Ret e) as ->; [|done].
    apply index_Ret. split; [lia|done].
Qed.

Lemma send_spec rf j out :
  replicateToFollower_send rf j = Ret out →
  match out with
  | NotLeader => state rf ≠ leader
  | SendSnapshot a =>
      state rf = leader ∧ is_Term a = CurrentTerm rf ∧ is_LeaderId a = me rf ∧
      is_LastIncludedIndex a = LastIncludedIndex rf ∧ is_Data a = SnapshotData rf ∧
      ∃ e, Log rf !! 0%nat = Some e ∧ is_LastIncludedTerm a = Term e
  | SendEntries a =>
      state rf = leader ∧ ae_Term a = CurrentTerm rf ∧ ae_LeaderId a = me rf ∧
      LastIncludedIndex rf ≤ ae_PrevLogIndex a ∧ ae_LeaderCommit a = commitIndex rf ∧
      (∃ e, Log rf !! Z.to_nat (ae_PrevLogIndex a - LastIncludedIndex rf) = Some e ∧
            ae_PrevLogTerm a = Term e) ∧
      ae_Entries a = drop (S (Z.to_nat (ae_PrevLogIndex a - LastIncludedIndex rf))) (Log rf)
  end.
Proof.
  unfold replicateToFollower_send. destruct (decide (state rf ≠ leader)) as [Hl|Hl].
  { by intros [= <-]. }
  assert (state rf = leader) as Hlead by (destruct (decide (state rf = leader)); tauto).
  intros (ni & Hni & H)%bind_ret_inv. case_decide as Hsnap.
  - apply bind_ret_inv in H as (a & Ha & [= <-]).
    apply bind_ret_inv in Ha as (t & Ht & [= <-]). cbn.
    apply termAt_Ret in Ht as (_ & e & He & <-). rewrite Z.sub_diag in He.
    split_and!; try done. by exists e.
  - apply bind_ret_inv in H as (a & Ha & [= <-]).
    apply bind_ret_inv in Ha as (ni' & Hni' & Ha). rewrite Hni in Hni'. simplify_eq.
    apply bind_ret_inv in Ha as (es & Hes & Ha).
    apply slice_from_Ret in Hes as [Hb ->]. unfold sliceIndex in *.
    apply bind_ret_inv in Ha as (t & Ht & [= <-]).
    apply termAt_Ret in Ht as (Hlo & e & He & <-). cbn. split_and!; try done.
    + by exists e.
    + f_equal. lia.
Qed.

(** What the reply handlers and the applier leave alone. *)
Definition keeps rf rf' : Prop :=
  core rf' = core rf ∧ persister rf' = persister rf ∧ state rf' = state rf.

Lemma keeps_refl rf : keeps rf rf.
Proof. done. Qed.

Lemma advanceFrom_spec rf n rf' :
  advanceFrom rf n = Ret rf' →
  keeps rf rf' ∧ lastApplied rf' = lastApplied rf ∧ nextIndex rf' = nextIndex rf ∧
  matchIndex rf' = matchIndex rf ∧
  (commitIndex rf' = commitIndex rf ∨
   commitIndex rf < commitIndex rf' ≤ commitIndex rf + Z.of_nat n ∧
   termAt rf (commitIndex rf') = Ret (CurrentTerm rf) ∧
   ∃ c, countMatching rf (commitIndex rf') = Ret c ∧ npeers rf `quot` 2 < c).
Proof.
  induction n as [|n IH]; cbn [advanceFrom].
  - intros [= <-]. split_and!; try done. by left.
  - intros (t & Ht & H)%bind_ret_inv. case_decide as Hte.
    { simplify_eq. split_and!; try done. by left. }
    assert (t = CurrentTerm rf) as -> by (destruct (decide (t = CurrentTerm rf)); tauto).
    apply bind_ret_inv in H as (c & Hc & H). case_decide as Hmaj.
    + simplify_eq. split_and!; try done. right. split; [cbn; lia|]. split; [done|].
      exists c. done.
    + apply IH in H as (? & ? & ? & ? & [?|(? & ? & ?)]); split_and!; try done.
      * by left.
      * right. split_and!; try done; lia.
Qed.

Lemma onEntriesReply_spec now i args reply rf rf' :
  onEntriesReply now i args reply rf = Ret rf' →
  (CurrentTerm rf < aer_Term reply ∧ rf' = becomeFollowerWithTerm now (aer_Term reply) rf) ∨
  keeps rf rf'.
Proof.
  unfold onEntriesReply. case_decide as Hlt.
  { intros [= <-]. by left. }
  intros (mi & _ & H)%bind_ret_inv. right. destruct (aer_Success reply).
  - case_decide; [by simplify_eq|].
    apply bind_ret_inv in H as (mis & _ & H). apply bind_ret_inv in H as (nis & _ & H).
    apply advanceFrom_spec in H as (H & _). done.
  - case_decide; [by simplify_eq|].
    apply bind_ret_inv in H as (ni & _ & H). apply bind_ret_inv in H as (nis & _ & [= <-]). done.
Qed.

Lemma onSnapshotReply_spec now i args reply rf rf' :
  onSnapshotReply now i args reply rf = Ret rf' →
  (CurrentTerm rf < isr_Term reply ∧ rf' = becomeFollowerWithTerm now (isr_Term reply) rf) ∨
  keeps rf rf'.
Proof.
  unfold onSnapshotReply. case_decide as Hlt.
  { intros [= <-]. by left. }
  intros (mi & _ & H)%bind_ret_inv. right. case_decide; [|by simplify_eq].
  apply bind_ret_inv in H as (mis & _ & H). apply bind_ret_inv in H as (nis & _ & H).
  apply advanceFrom_spec in H as (H & _). done.
Qed.

Lemma applier_take_keeps rf rf' msg : applier_take rf = Ret (rf', msg) → keeps rf rf'.
Proof.
  unfold applier_take. case_decide.
  { by intros (t & _ & [= <- <-])%bind_ret_inv. }
  case_decide; [by intros (t & _ & [= <- <-])%bind_ret_inv|]. by intros [= <- <-].
Qed.

Lemma applier_done_keeps rf msg : keeps rf (applier_done msg rf).
Proof. by destruct msg. Qed.

Lemma Snapshot_spec idx data rf rf' :
  Snapshot idx data rf = Ret rf' →
  (npeers rf', me rf', CurrentTerm rf', VotedFor rf', state rf', commitIndex rf', lastApplied rf') =
  (npeers rf, me rf, CurrentTerm rf, VotedFor rf, state rf, commitIndex rf, lastApplied rf) ∧
  (durable rf → durable rf') ∧
  ((idx ≤ LastIncludedIndex rf ∧ rf' = rf) ∨
   (LastIncludedIndex rf < idx ∧ LastIncludedIndex rf' = idx ∧ SnapshotData rf' = data ∧
    idx - LastIncludedIndex rf ≤ zlen (Log rf) ∧
    Log rf' = drop (Z.to_nat (idx - LastIncludedIndex rf)) (Log rf))).
Proof.
  unfold Snapshot. case_decide as Hold.
  - intros [= <-]. split_and!; try done. by left.
  - intros (l & Hl & [= <-])%bind_ret_inv. apply slice_from_Ret in Hl as [Hb ->].
    unfold sliceIndex in *. cbn. split_and!; try done.
    + intros _. apply persist_durable.
    + right. split_and!; try done; lia.
Qed.

End facts.
