(* ===== verification/RaftNet.v ===== *)
(** * RaftNet: a cluster of Raft peers on an unreliable network

    The peers of [Raft] composed the way the goroutines of [raft.go] compose
    them.  A call to [ClientEnd.Call] is a record: it is pending until its
    handler has run on the target, answered until the caller's continuation
    has run, and finished after that.  Requests and replies are delivered in
    any order or never; a peer restarts at any moment from its persister, which
    forgets its goroutines: the continuations of its calls (they are no longer
    live), its running elections and the message its applier was sending.  A
    handler that panics ends the process, which is the same restart.

    Every step is executable ([sys_step]), so executions are computed. *)

From S2P Require Import Prelude Persister Raft.

Section net.
Context {Cmd : Type} `{!Codec (PersistedState Cmd)}.

Record Node := mkNode {
  nd_raft : Raft Cmd;
  nd_elections : gmap Z Election;     (* running elections, by their term *)
  nd_inflight : option (ApplyMsg Cmd) (* what applier is sending on applyCh *)
}.

Inductive Request :=
| RqVote (a : RequestVoteArgs)
| RqAppend (a : AppendEntriesArgs Cmd)
| RqSnap (a : InstallSnapshotArgs).

Inductive Response :=
| RsVote (r : RequestVoteReply)
| RsAppend (r : AppendEntriesReply)
| RsSnap (r : InstallSnapshotReply).

Inductive CallStatus := Pending | Answered (r : Response) | Finished.

Record Call := mkCall {
  c_from : nat; c_to : nat; c_req : Request; c_status : CallStatus; c_live : bool }.

Record Sys := mkSys { nodes : list Node; calls : list Call }.

Inductive Label :=
| LElect (i : nat) (now : Z)                      (* ticker starts an election *)
| LClient (i : nat) (cmd : Cmd)                   (* the service calls Start *)
| LReplicate (i j : nat)                          (* replicateToFollower(j) sends *)
| LDeliver (c : nat) (now : Z)                    (* a request reaches its target *)
| LReply (c : nat) (now : Z)                      (* a reply reaches the caller *)
| LApplyTake (i : nat)                            (* applier picks a message *)
| LApplyDone (i : nat)                            (* ... which went through applyCh *)
| LSnapshot (i : nat) (idx : Z) (data : bytes)    (* the service calls Snapshot *)
| LRestart (i : nat) (now : Z).                   (* crash and Make *)

Definition set_node (i : nat) (nd : Node) (s : Sys) : Sys :=
  mkSys (<[i := nd]> (nodes s)) (calls s).

Definition set_raft (rf : Raft Cmd) (nd : Node) : Node :=
  mkNode rf (nd_elections nd) (nd_inflight nd).

Definition add_calls (cs : list Call) (s : Sys) : Sys := mkSys (nodes s) (calls s ++ cs).

Definition set_status (c : nat) (st : CallStatus) (s : Sys) : Sys :=
  mkSys (nodes s)
    (alter (λ cl, mkCall (c_from cl) (c_to cl) (c_req cl) st (c_live cl)) c (calls s)).

Definition ok {A} (m : outcome A) : option A :=
  match m with Ret a => Some a | Panic _ => None end.

(** The vote requests of one election, to every other peer. *)
Definition voteCalls (n i : nat) (args : RequestVoteArgs) : list Call :=
  (λ j, mkCall i j (RqVote args) Pending true) <$> filter (λ j, j ≠ i) (seq 0 n).

Definition elect (i : nat) (now : Z) (s : Sys) : option Sys :=
  nd ← nodes s !! i;
  '(rf, args) ← ok (startElection now (nd_raft nd));
  Some (add_calls (voteCalls (length (nodes s)) i args)
    (set_node i (mkNode rf (<[rv_Term args := newElection]> (nd_elections nd)) (nd_inflight nd)) s)).

Definition client (i : nat) (cmd : Cmd) (s : Sys) : option Sys :=
  nd ← nodes s !! i;
  Some (set_node i (set_raft (Start cmd (nd_raft nd)).1 nd) s).

Definition replicateTo (i j : nat) (s : Sys) : option Sys :=
  guard (i ≠ j ∧ (j < length (nodes s))%nat);;
  nd ← nodes s !! i;
  out ← ok (replicateToFollower_send (nd_raft nd) (Z.of_nat j));
  match out with
  | NotLeader => Some s
  | SendSnapshot a => Some (add_calls [mkCall i j (RqSnap a) Pending true] s)
  | SendEntries a => Some (add_calls [mkCall i j (RqAppend a) Pending true] s)
  end.

(** The handler of a request on the target's state. *)
Definition handleRequest (now : Z) (rq : Request) (rf : Raft Cmd) : outcome (Raft Cmd * Response) :=
  match rq with
  | RqVote a => '(rf, r) ← RequestVote now a rf; Ret (rf, RsVote r)
  | RqAppend a => '(rf, r) ← AppendEntries now a rf; Ret (rf, RsAppend r)
  | RqSnap a => '(rf, r) ← InstallSnapshot now a rf; Ret (rf, RsSnap r)
  end.

Definition deliver (c : nat) (now : Z) (s : Sys) : option Sys :=
  cl ← calls s !! c;
  match c_status cl with
  | Pending =>
      nd ← nodes s !! c_to cl;
      '(rf, r) ← ok (handleRequest now (c_req cl) (nd_raft nd));
      Some (set_status c (Answered r) (set_node (c_to cl) (set_raft rf nd) s))
  | _ => None
  end.

(** The continuation of a call on the caller's node. *)
Definition handleResponse (now : Z) (j : nat) (rq : Request) (rs : Response) (nd : Node)
    : option Node :=
  match rq, rs with
  | RqVote a, RsVote r =>
      el ← nd_elections nd !! rv_Term a;
      let '(el, rf) := handleVote now r el (nd_raft nd) in
      Some (mkNode rf (<[rv_Term a := el]> (nd_elections nd)) (nd_inflight nd))
  | RqAppend a, RsAppend r =>
      rf ← ok (onEntriesReply now (Z.of_nat j) a r (nd_raft nd)); Some (set_raft rf nd)
  | RqSnap a, RsSnap r =>
      rf ← ok (onSnapshotReply now (Z.of_nat j) a r (nd_raft nd)); Some (set_raft rf nd)
  | _, _ => None
  end.

Definition replyTo (c : nat) (now : Z) (s : Sys) : option Sys :=
  cl ← calls s !! c;
  match c_status cl with
  | Answered r =>
      guard (c_live cl = true);;
      nd ← nodes s !! c_from cl;
      nd ← handleResponse now (c_to cl) (c_req cl) r nd;
      Some (set_status c Finished (set_node (c_from cl) nd s))
  | _ => None
  end.

Definition applyTake (i : nat) (s : Sys) : option Sys :=
  nd ← nodes s !! i;
  guard (nd_inflight nd = None);;
  '(rf, msg) ← ok (applier_take (nd_raft nd));
  Some (set_node i (mkNode rf (nd_elections nd) msg) s).

Definition applyDone (i : nat) (s : Sys) : option Sys :=
  nd ← nodes s !! i;
  msg ← nd_inflight nd;
  Some (set_node i (mkNode (applier_done msg (nd_raft nd)) (nd_elections nd) None) s).

(** The service only snapshots at the index of a command it has received. *)
Definition may_snapshot (nd : Node) (idx : Z) : Prop :=
  idx ≤ lastApplied (nd_raft nd) ∨
  match nd_inflight nd with Some (CommandMsg _ k) => k = idx | _ => False end.

#[global] Instance may_snapshot_dec nd idx : Decision (may_snapshot nd idx).
Proof. unfold may_snapshot. destruct (nd_inflight nd) as [[]|]; apply _. Defined.

Definition takeSnapshot (i : nat) (idx : Z) (data : bytes) (s : Sys) : option Sys :=
  nd ← nodes s !! i;
  guard (may_snapshot nd idx);;
  rf ← ok (Snapshot idx data (nd_raft nd));
  Some (set_node i (set_raft rf nd) s).

Definition orphan (i : nat) (cl : Call) : Call :=
  if decide (c_from cl = i) then mkCall (c_from cl) (c_to cl) (c_req cl) (c_status cl) false
  else cl.

Definition restart (i : nat) (now : Z) (s : Sys) : option Sys :=
  nd ← nodes s !! i;
  rf ← ok (Make (Z.of_nat (length (nodes s))) (Z.of_nat i) now (persister (nd_raft nd)));
  Some (mkSys (<[i := mkNode rf ∅ None]> (nodes s)) (orphan i <$> calls s)).

Definition sys_step (l : Label) (s : Sys) : option Sys :=
  match l with
  | LElect i now => elect i now s
  | LClient i cmd => client i cmd s
  | LReplicate i j => replicateTo i j s
  | LDeliver c now => deliver c now s
  | LReply c now => replyTo c now s
  | LApplyTake i => applyTake i s
  | LApplyDone i => applyDone i s
  | LSnapshot i idx data => takeSnapshot i idx data s
  | LRestart i now => restart i now s
  end.

(** A cluster of [n] peers that have never run. *)
Definition sys_init (n : nat) : Sys :=
  mkSys ((λ i, mkNode (freshRaft (Z.of_nat n) (Z.of_nat i) 0 MakePersister) ∅ None) <$> seq 0 n) [].

Fixpoint run_labels (ls : list Label) (s : Sys) : option Sys :=
  match ls with
  | [] => Some s
  | l :: ls => s ← sys_step l s; run_labels ls s
  end.

Definition step (s s' : Sys) : Prop := ∃ l, sys_step l s = Some s'.
Definition reachable (n : nat) (s : Sys) : Prop := rtc step (sys_init n) s.

Lemma run_labels_rtc ls s s' : run_labels ls s = Some s' → rtc step s s'.
Proof.
  revert s. induction ls as [|l ls IH]; intros s; cbn.
  - intros [= ->]. done.
  - intros (s1 & Hs & H)%bind_Some. eapply rtc_l; [by exists l|]. by apply IH.
Qed.

(** ** What a step that happened did *)

Definition with_status (st : CallStatus) (cl : Call) : Call :=
  mkCall (c_from cl) (c_to cl) (c_req cl) st (c_live cl).

Lemma ok_Some {A} (m : outcome A) a : ok m = Some a → m = Ret a.
Proof. destruct m; [by intros [= ->]|done]. Qed.

Lemma elect_Some i now s s' :
  elect i now s = Some s' → ∃ nd rf a,
    nodes s !! i = Some nd ∧ startElection now (nd_raft nd) = Ret (rf, a) ∧
    s' = mkSys (<[i := mkNode rf (<[rv_Term a := newElection]> (nd_elections nd)) (nd_inflight nd)]>
                  (nodes s)) (calls s ++ voteCalls (length (nodes s)) i a).
Proof.
  unfold elect. intros (nd & Hnd & H)%bind_Some.
  apply bind_Some in H as ([rf a] & Hse%ok_Some & [= <-]). by exists nd, rf, a.
Qed.

Lemma client_Some i cmd s s' :
  client i cmd s = Some s' → ∃ nd rf r,
    nodes s !! i = Some nd ∧ Start cmd (nd_raft nd) = (rf, r) ∧
    s' = mkSys (<[i := set_raft rf nd]> (nodes s)) (calls s).
Proof.
  unfold client. intros (nd & Hnd & [= <-])%bind_Some.
  destruct (Start cmd (nd_raft nd)) as [rf r] eqn:E. by exists nd, rf, r.
Qed.

Lemma replicateTo_Some i j s s' :
  replicateTo i j s = Some s' → i ≠ j ∧ (j < length (nodes s))%nat ∧ ∃ nd out,
    nodes s !! i = Some nd ∧ replicateToFollower_send (nd_raft nd) (Z.of_nat j) = Ret out ∧
    s' = match out with
         | NotLeader => s
         | SendSnapshot a => mkSys (nodes s) (calls s ++ [mkCall i j (RqSnap a) Pending true])
         | SendEntries a => mkSys (nodes s) (calls s ++ [mkCall i j (RqAppend a) Pending true])
         end.
Proof.
  unfold replicateTo. intros ([Hne Hj] & _ & H)%bind_Some.
  apply bind_Some in H as (nd & Hnd & H). apply bind_Some in H as (out & Hout%ok_Some & H).
  split_and!; try done. exists nd, out. split_and!; try done. by destruct out; simplify_eq.
Qed.

Lemma deliver_Some c now s s' :
  deliver c now s = Some s' → ∃ cl nd rf r,
    calls s !! c = Some cl ∧ c_status cl = Pending ∧ nodes s !! c_to cl = Some nd ∧
    handleRequest now (c_req cl) (nd_raft nd) = Ret (rf, r) ∧
    s' = mkSys (<[c_to cl := set_raft rf nd]> (nodes s))
               (alter (with_status (Answered r)) c (calls s)).
Proof.
  unfold deliver. intros (cl & Hc & H)%bind_Some. destruct (c_status cl) eqn:Hst; try done.
  apply bind_Some in H as (nd & Hnd & H).
  apply bind_Some in H as ([rf r] & Hh%ok_Some & [= <-]). by exists cl, nd, rf, r.
Qed.

Lemma replyTo_Some c now s s' :
  replyTo c now s = Some s' → ∃ cl nd nd' r,
    calls s !! c = Some cl ∧ c_status cl = Answered r ∧ c_live cl = true ∧
    nodes s !! c_from cl = Some nd ∧
    handleResponse now (c_to cl) (c_req cl) r nd = Some nd' ∧
    s' = mkSys (<[c_from cl := nd']> (nodes s)) (alter (with_status Finished) c (calls s)).
Proof.
  unfold replyTo. intros (cl & Hc & H)%bind_Some. destruct (c_status cl) as [|r|] eqn:Hst; try done.
  apply bind_Some in H as (Hlive & _ & H). apply bind_Some in H as (nd & Hnd & H).
  apply bind_Some in H as (nd' & Hh & [= <-]). by exists cl, nd, nd', r.
Qed.

Lemma applyTake_Some i s s' :
  applyTake i s = Some s' → ∃ nd rf msg,
    nodes s !! i = Some nd ∧ nd_inflight nd = None ∧ applier_take (nd_raft nd) = Ret (rf, msg) ∧
    s' = mkSys (<[i := mkNode rf (nd_elections nd) msg]> (nodes s)) (calls s).
Proof.
  unfold applyTake. intros (nd & Hnd & H)%bind_Some. apply bind_Some in H as (Hi & _ & H).
  apply bind_Some in H as ([rf msg] & Hm%ok_Some & [= <-]). by exists nd, rf, msg.
Qed.

Lemma applyDone_Some i s s' :
  applyDone i s = Some s' → ∃ nd msg,
    nodes s !! i = Some nd ∧ nd_inflight nd = Some msg ∧
    s' = mkSys (<[i := mkNode (applier_done msg (nd_raft nd)) (nd_elections nd) None]> (nodes s))
               (calls s).
Proof.
  unfold applyDone. intros (nd & Hnd & H)%bind_Some. apply bind_Some in H as (msg & Hm & [= <-]).
  by exists nd, msg.
Qed.

Lemma takeSnapshot_Some i idx data s s' :
  takeSnapshot i idx data s = Some s' → ∃ nd rf,
    nodes s !! i = Some nd ∧ may_snapshot nd idx ∧ Snapshot idx data (nd_raft nd) = Ret rf ∧
    s' = mkSys (<[i := set_raft rf nd]> (nodes s)) (calls s).
Proof.
  unfold takeSnapshot. intros (nd & Hnd & H)%bind_Some. apply bind_Some in H as (Hm & _ & H).
  apply bind_Some in H as (rf & Hrf%ok_Some & [= <-]). by exists nd, rf.
Qed.

Lemma restart_Some i now s s' :
  restart i now s = Some s' → ∃ nd rf,
    nodes s !! i = Some nd ∧
    Make (Z.of_nat (length (nodes s))) (Z.of_nat i) now (persister (nd_raft nd)) = Ret rf ∧
    s' = mkSys (<[i := mkNode rf ∅ None]> (nodes s)) (orphan i <$> calls s).
Proof.
  unfold restart. intros (nd & Hnd & H)%bind_Some.
  apply bind_Some in H as (rf & Hrf%ok_Some & [= <-]). by exists nd, rf.
Qed.
End net.
