(* ===== verification/RaftLocal.v ===== *)
(** * RaftLocal: the promises of one Raft peer

    Theorems about single operations of [raft.go], for every state of the peer
    and every argument: the RPC handlers never panic, AppendEntries and its
    conflict hint, the leader's reaction to the hint, votes and commitment. *)

From S2P Require Import Prelude Persister Raft RaftFacts RaftNet.

Section local.
Context {Cmd : Type} `{!Codec (PersistedState Cmd)}.
Implicit Types (rf : Raft Cmd) (args : AppendEntriesArgs Cmd).

(** ** Panic freedom of the handlers *)

Lemma termAt_returns rf i : LastIncludedIndex rf ≤ i ≤ lastLogIndex rf → returns (termAt rf i).
Proof.
  intros Hi. unfold termAt. apply returns_bind; [|eauto with go].
  apply index_returns. unfold sliceIndex, lastLogIndex in *. lia.
Qed.
#[local] Hint Resolve termAt_returns : go.

Lemma firstOfTerm_returns rf t n :
  LastIncludedIndex rf + Z.of_nat n ≤ lastLogIndex rf → returns (firstOfTerm rf t n).
Proof.
  induction n as [|n IH]; intros Hn; cbn [firstOfTerm]; [eauto with go|].
  apply returns_bind; [apply termAt_returns; lia|]. intros u _.
  case_decide; [apply IH; lia|eauto with go].
Qed.

Lemma checkPrev_returns rf args : returns (checkPrev rf args).
Proof.
  unfold checkPrev. case_decide; [eauto with go|]. case_decide; [eauto with go|].
  apply returns_bind; [apply termAt_returns; lia|]. intros t _. case_decide; [|eauto with go].
  apply returns_bind; [|eauto with go]. apply firstOfTerm_returns. lia.
Qed.

Lemma scanEntries_returns rf j es : LastIncludedIndex rf < j → returns (scanEntries rf j es).
Proof.
  revert j. induction es as [|e es IH]; intros j Hj; cbn [scanEntries]; [eauto with go|].
  case_decide; [eauto with go|].
  apply returns_bind; [apply termAt_returns; lia|]. intros t _. case_decide; [|apply IH; lia].
  apply returns_bind; [|eauto with go]. apply slice_to_returns.
  unfold sliceIndex, lastLogIndex in *. lia.
Qed.

Lemma AppendEntries_returns now args rf : returns (AppendEntries now args rf).
Proof.
  unfold AppendEntries. case_decide; [eauto with go|].
  set (rf1 := observeLeader now args rf).
  apply returns_bind; [apply checkPrev_returns|]. intros [[su t] i] Hc. destruct su.
  - rewrite decide_False by done. apply checkPrev_success in Hc as [Hp _].
    apply returns_bind; [|eauto with go]. apply returns_bind; [|intros [? ?] _; eauto with go].
    apply scanEntries_returns. lia.
  - rewrite decide_True by done. eauto with go.
Qed.

Lemma InstallSnapshot_returns now (args : InstallSnapshotArgs) rf :
  returns (InstallSnapshot now args rf).
Proof.
  unfold InstallSnapshot. destruct (decide (is_Term args < CurrentTerm rf)); [eauto with go|].
  set (rf1 := if decide (_ < is_Term args) then _ else _). clearbody rf1. case_decide as HL; [|eauto with go].
  apply returns_bind; [|eauto with go].
  unfold adoptSnapshot. apply returns_bind.
  - unfold hasSnapshotPoint. case_decide; [|eauto with go].
    apply returns_bind; [|eauto with go]. apply termAt_returns. cbn in *. lia.
  - intros keep Hkeep. apply returns_bind; [|eauto with go]. destruct keep; [|eauto with go].
    unfold hasSnapshotPoint in Hkeep. case_decide as Hin; [|done].
    apply returns_bind; [|eauto with go]. apply slice_from_returns.
    unfold lastLogIndex, sliceIndex in *. cbn in *. lia.
Qed.

Lemma upToDate_returns rf (args : RequestVoteArgs) : Log rf ≠ [] → returns (upToDate rf args).
Proof.
  intros Hl. assert (0 < zlen (Log rf)). { destruct (Log rf); [done|]. unfold zlen. cbn. lia. }
  unfold upToDate, lastLogTerm. repeat apply returns_bind; eauto with go.
  apply index_returns. lia.
Qed.

Lemma RequestVote_returns now (args : RequestVoteArgs) rf :
  Log rf ≠ [] → returns (RequestVote now args rf).
Proof.
  intros Hl. unfold RequestVote.
  set (rf1 := if decide (CurrentTerm rf < rv_Term args) then _ else _).
  assert (Log rf1 = Log rf) as Hl1 by (unfold rf1; by case_decide).
  case_decide; [|eauto with go]. apply returns_bind; [by apply upToDate_returns; rewrite Hl1|].
  intros [] _; eauto with go.
Qed.

Lemma merged_nonempty L b args L' : merged L b args L' → L' ≠ [].
Proof.
  intros (_ & _ & (e & He & _) & k & _ & _ & [[_ ->]|(Hk & _ & _ & ->)]).
  - by intros ->.
  - intros H%(f_equal length). rewrite length_app, length_drop in H. cbn in H. lia.
Qed.

(** On indices without a width the RPC handlers return on any peer whose log has
    its dummy entry, and keep a dummy entry; [RaftWide] has the handlers with
    Go's 64-bit indices. *)
Lemma handlers_return now (rq : @Request Cmd) rf :
  Log rf ≠ [] → ∃ rf' rs, handleRequest now rq rf = Ret (rf', rs) ∧ Log rf' ≠ [].
Proof.
  intros Hl. destruct rq as [a|a|a]; cbn.
  - destruct (RequestVote_returns now a rf Hl) as [[rf' r] H]. rewrite H. cbn.
    exists rf', (RsVote r). split; [done|].
    apply RequestVote_spec in H as (_ & _ & -> & _). done.
  - destruct (AppendEntries_returns now a rf) as [[rf' r] H]. rewrite H. cbn.
    exists rf', (RsAppend r). split; [done|].
    apply AppendEntries_spec in H as (_ & _ & _ & _ & _ & _ & _ & _ & HL).
    destruct (aer_Success r); [|by rewrite HL]. destruct HL as [_ HL]. by eapply merged_nonempty.
  - destruct (InstallSnapshot_returns now a rf) as [[rf' r] H]. rewrite H. cbn.
    exists rf', (RsSnap r). split; [done|].
    apply InstallSnapshot_spec in H as (_ & _ & _ & _ & _ & _ & _ & [[-> _]|(_ & _ & _ & HR)]); [done|].
    destruct HR as [(e & He & _ & ->)|[_ ->]]; [|done].
    intros H%(f_equal length). rewrite length_drop in H. apply lookup_lt_Some in He. cbn in H. lia.
Qed.

(** ** AppendEntries *)

Lemma take_eq_lookup {A} n (l l' : list A) :
  (∀ m, (m < n)%nat → l !! m = l' !! m) → take n l = take n l'.
Proof.
  intros H. apply list_eq. intros i. destruct (decide (i < n)%nat).
  - rewrite !lookup_take_lt by done. auto.
  - by rewrite !lookup_take_ge by lia.
Qed.

(** C24: What AppendEntries does to the log.  An unsuccessful one leaves the log
    as it was.  A successful one comes from a term that is not behind, and the
    follower's entry at PrevLogIndex has PrevLogTerm.  Everything up to
    PrevLogIndex is untouched.  Let [k] be the number of leading entries of the
    request whose terms the log already has at their places.  If these are all
    of them the log is unchanged (a delayed duplicate of an old request
    truncates nothing); otherwise the follower has no entry of that term at
    place [k], the log is cut there, with everything after it, and ends with
    the request's own remaining entries, commands included.  If an entry of the
    same index and term carries the same command (Log Matching, [log_matching]),
    the log then holds the request's entries at their indices. *)
Theorem AppendEntries_agrees now args rf rf' reply :
  AppendEntries now args rf = Ret (rf', reply) →
  let p := Z.to_nat (ae_PrevLogIndex args - LastIncludedIndex rf) in
  let es := ae_Entries args in
  if aer_Success reply then
    CurrentTerm rf ≤ ae_Term args ∧ LastIncludedIndex rf ≤ ae_PrevLogIndex args ∧
    (∃ e, Log rf !! p = Some e ∧ Term e = ae_PrevLogTerm args) ∧
    take (S p) (Log rf') = take (S p) (Log rf) ∧
    (∃ k, (k ≤ length es)%nat ∧ (∀ m, (m < k)%nat → same_term (Log rf) (S p + m) es m) ∧
       if decide (k = length es) then Log rf' = Log rf
       else ¬ same_term (Log rf) (S p + k) es k ∧ Log rf' = take (S p + k) (Log rf) ++ drop k es ∧
            length (Log rf') = (S p + length es)%nat) ∧
    ((∀ m e e', Log rf !! (S p + m)%nat = Some e → es !! m = Some e' → Term e = Term e' → e = e') →
       take (length es) (drop (S p) (Log rf')) = es)
  else Log rf' = Log rf.
Proof.
  intros (_ & _ & _ & _ & _ & _ & _ & _ & HL)%AppendEntries_spec. cbn zeta.
  destruct (aer_Success reply); [|done].
  destruct HL as (Hle & Hlo & Hhi & Hprev & k & Hk & Hm & HL).
  set (p := Z.to_nat (ae_PrevLogIndex args - LastIncludedIndex rf)) in *.
  replace (p + 1)%nat with (S p) in * by lia.
  assert (∀ m, (m < k)%nat → same_term (Log rf) (S p + m) (ae_Entries args) m) as Hsame.
  { intros m Hmk. destruct (lookup_lt_is_Some_2 (ae_Entries args) m) as [x Hx]; [lia|].
    destruct (Hm m x Hmk Hx) as (x' & ? & ?). by exists x, x'. }
  assert (∀ m, (m < k)%nat →
    (∀ m e e', Log rf !! (S p + m)%nat = Some e → ae_Entries args !! m = Some e' → Term e = Term e' → e = e') →
    drop (S p) (Log rf) !! m = ae_Entries args !! m) as Heq.
  { intros m Hmk Hdet. destruct (Hsame m Hmk) as (x & x' & Hx & Hx' & Ht).
    by rewrite lookup_drop, Hx', Hx, (Hdet m x' x Hx' Hx Ht). }
  split_and!; try done.
  - destruct HL as [[_ ->]|(_ & _ & _ & ->)]; [done|].
    destruct Hprev as (e & He%lookup_lt_Some & _).
    rewrite take_app_le by (rewrite length_take; lia). rewrite take_take. f_equal. lia.
  - exists k. split; [done|]. split; [done|].
    destruct HL as [[-> ->]|(Hlt & Hlen & Hdiff & HL)]; [by rewrite decide_True|].
    rewrite decide_False by lia. split_and!; try done.
    rewrite HL, length_app, length_take, length_drop. lia.
  - intros Hdet. destruct HL as [[-> ->]|(Hlt & Hlen & _ & ->)].
    + rewrite (take_eq_lookup _ _ (ae_Entries args)) by auto. by rewrite take_ge.
    + rewrite drop_app_le by (rewrite length_take; lia).
      rewrite <-take_drop_commute, (take_eq_lookup k _ (ae_Entries args)) by auto.
      by rewrite take_drop, take_ge.
Qed.

(** The loop that looks for the first index of the conflicting term. *)
Lemma firstOfTerm_spec rf t n i :
  firstOfTerm rf t n = Ret i →
  LastIncludedIndex rf ≤ i ≤ LastIncludedIndex rf + Z.of_nat n ∧
  (∀ m, i < m ≤ LastIncludedIndex rf + Z.of_nat n → termAt rf m = Ret t) ∧
  (LastIncludedIndex rf < i → ∃ t', termAt rf i = Ret t' ∧ t' ≠ t).
Proof.
  induction n as [|n IH]; cbn [firstOfTerm].
  - intros [= <-]. split_and!; [lia..| |lia]. intros m ?. lia.
  - intros (u & Hu & H)%bind_ret_inv. case_decide as Hut.
    + apply IH in H as (? & Hin & ?). split_and!; [lia..| |done]. intros m ?.
      destruct (decide (m = LastIncludedIndex rf + Z.of_nat (S n))) as [->|]; [congruence|].
      apply Hin. lia.
    + simplify_eq. split_and!; [lia..| |eauto]. intros m ?. lia.
Qed.

(** The conflict hint, branch by branch. *)
Lemma AppendEntries_hint now args rf rf' reply :
  AppendEntries now args rf = Ret (rf', reply) → aer_Success reply = false →
  CurrentTerm rf ≤ ae_Term args →
  let ci := aer_ConflictIndex reply in let prev := ae_PrevLogIndex args in
  (prev < LastIncludedIndex rf ∧ aer_ConflictTerm reply = -1 ∧ ci = LastIncludedIndex rf + 1) ∨
  (lastLogIndex rf < prev ∧ aer_ConflictTerm reply = -1 ∧ ci = lastLogIndex rf + 1) ∨
  (LastIncludedIndex rf ≤ prev ≤ lastLogIndex rf ∧
   termAt rf prev = Ret (aer_ConflictTerm reply) ∧ aer_ConflictTerm reply ≠ ae_PrevLogTerm args ∧
   LastIncludedIndex rf + 1 ≤ ci ≤ Z.max prev (LastIncludedIndex rf + 1) ∧
   (∀ m, ci ≤ m ≤ prev → termAt rf m = Ret (aer_ConflictTerm reply)) ∧
   (LastIncludedIndex rf + 1 < ci →
      ∃ t', termAt rf (ci - 1) = Ret t' ∧ t' ≠ aer_ConflictTerm reply)).
Proof.
  intros H Hfail Hterm. cbn zeta. unfold AppendEntries in H. rewrite decide_False in H by lia.
  destruct (observeLeader_spec now args rf) as (Hf & _).
  set (rf1 := observeLeader now args rf) in *. clearbody rf1.
  injection Hf as _ _ Hl _ Hi _ _.
  assert (lastLogIndex rf1 = lastLogIndex rf) as Hlast by (unfold lastLogIndex; congruence).
  assert (∀ m, termAt rf1 m = termAt rf m) as Hterms.
  { intros m. unfold termAt, sliceIndex. by rewrite Hl, Hi. }
  apply bind_ret_inv in H as ([[su t] i] & Hc & H). destruct su.
  { rewrite decide_False in H by done. apply bind_ret_inv in H as (? & _ & [= <- <-]). done. }
  rewrite decide_True in H by done. injection H as <- <-. cbn. unfold checkPrev in Hc.
  rewrite Hi, Hlast in Hc. case_decide as Hlo; [simplify_eq; by left|].
  case_decide as Hhi; [simplify_eq; right; by left|]. right. right.
  apply bind_ret_inv in Hc as (u & Hu & Hc). case_decide as Hne; [|done].
  apply bind_ret_inv in Hc as (j & Hj & [= <- <-]).
  apply firstOfTerm_spec in Hj as (Hj & Hin & Hbefore). rewrite Hi in *.
  assert (j < ae_PrevLogIndex args ∨ j = LastIncludedIndex rf) as Hjp.
  { destruct (decide (j = LastIncludedIndex rf)); [by right|left].
    destruct (decide (j = ae_PrevLogIndex args)) as [->|]; [|lia].
    destruct Hbefore as (t' & Ht' & ?); [lia|]. congruence. }
  split_and!; try lia; try congruence.
  - intros m Hm. rewrite <-Hterms. apply Hin. lia.
  - intros Hc. replace (j + 1 - 1) with j by lia. rewrite <-Hterms. apply Hbefore. lia.
Qed.

(** The conflict hint of a rejected AppendEntries.  If the follower's log
    does not reach back to PrevLogIndex or ends before it, the hint is the
    index after its snapshot or after its log; otherwise ConflictTerm is the
    term of its entry at PrevLogIndex, which differs from PrevLogTerm, and
    ConflictIndex the first index it holds of that term. *)
Theorem AppendEntries_conflict_hint now args rf rf' reply :
  AppendEntries now args rf = Ret (rf', reply) → aer_Success reply = false →
  CurrentTerm rf ≤ ae_Term args →
  let ci := aer_ConflictIndex reply in let prev := ae_PrevLogIndex args in
  (prev < LastIncludedIndex rf ∧ aer_ConflictTerm reply = -1 ∧ ci = LastIncludedIndex rf + 1) ∨
  (lastLogIndex rf < prev ∧ aer_ConflictTerm reply = -1 ∧ ci = lastLogIndex rf + 1) ∨
  (LastIncludedIndex rf ≤ prev ≤ lastLogIndex rf ∧
   termAt rf prev = Ret (aer_ConflictTerm reply) ∧ aer_ConflictTerm reply ≠ ae_PrevLogTerm args ∧
   LastIncludedIndex rf + 1 ≤ ci ≤ Z.max prev (LastIncludedIndex rf + 1) ∧
   (∀ m, ci ≤ m ≤ prev → termAt rf m = Ret (aer_ConflictTerm reply)) ∧
   (LastIncludedIndex rf + 1 < ci →
      ∃ t', termAt rf (ci - 1) = Ret t' ∧ t' ≠ aer_ConflictTerm reply)).
Proof. apply AppendEntries_hint. Qed.

(** ** The leader's reaction to a rejection *)

Lemma findConflictTerm_spec rf t j n :
  LastIncludedIndex rf ≤ j + 1 - Z.of_nat n → j ≤ lastLogIndex rf →
  ∃ r, findConflictTerm rf t j n = Ret r ∧
    match r with
    | Some i => j + 1 - Z.of_nat n < i ≤ j + 1 ∧ termAt rf (i - 1) = Ret t
    | None => ∀ m, j - Z.of_nat n < m ≤ j → termAt rf m ≠ Ret t
    end.
Proof.
  revert j. induction n as [|n IH]; intros j Hlo Hhi; cbn [findConflictTerm].
  - eexists. split; [done|]. cbn. intros m ?. lia.
  - destruct (termAt_returns rf j) as [u Hu]; [lia|]. rewrite Hu. cbn. case_decide as Hut.
    + eexists. split; [done|]. cbn. split; [lia|]. replace (j + 1 - 1) with j by lia. congruence.
    + destruct (IH (j - 1)) as (r & -> & Hr); [lia..|]. exists r. split; [done|].
      destruct r as [i|].
      * destruct Hr. split; [lia|done].
      * intros m Hm. destruct (decide (m = j)) as [->|]; [congruence|]. apply Hr. lia.
Qed.

Lemma backtrack_spec rf args reply :
  termAt rf (ae_PrevLogIndex args) = Ret (ae_PrevLogTerm args) →
  aer_ConflictTerm reply ≠ ae_PrevLogTerm args →
  aer_ConflictIndex reply ≤ ae_PrevLogIndex args →
  ∃ ni, backtrack rf args reply = Ret ni ∧ ni ≤ ae_PrevLogIndex args.
Proof.
  intros Hprev Hne Hci. unfold backtrack. case_decide; [|by eexists].
  assert (LastIncludedIndex rf ≤ ae_PrevLogIndex args ≤ lastLogIndex rf) as [Hlo Hhi].
  { apply termAt_Ret in Hprev as (? & e & He%lookup_lt_Some & _).
    unfold lastLogIndex, zlen. lia. }
  destruct (findConflictTerm_spec rf (aer_ConflictTerm reply) (ae_PrevLogIndex args)
    (Z.to_nat (ae_PrevLogIndex args - Z.max (LastIncludedIndex rf) (aer_ConflictIndex reply) + 1)))
    as (r & -> & Hr); [lia..|]. eexists. split; [done|].
  destruct r as [i|]; cbn; [|done]. destruct Hr as [? Ht].
  destruct (decide (i = ae_PrevLogIndex args + 1)) as [->|]; [|lia].
  replace (ae_PrevLogIndex args + 1 - 1) with (ae_PrevLogIndex args) in Ht by lia. congruence.
Qed.

(** Log catch-up makes progress.  When a follower that is not ahead of the
    request rejects an AppendEntries of the current term, the leader's
    continuation returns and moves nextIndex strictly below the one the
    request was made with, but not below what the follower is known to hold.
    As nextIndex is bounded below, the leader reaches a common entry after
    finitely many rejections. *)
Theorem rejected_append_backs_off now now' i args rff rff' reply rf mi :
  AppendEntries now args rff = Ret (rff', reply) → aer_Success reply = false →
  LastIncludedIndex rff < ae_PrevLogIndex args → CurrentTerm rff ≤ ae_Term args →
  CurrentTerm rf = ae_Term args →
  termAt rf (ae_PrevLogIndex args) = Ret (ae_PrevLogTerm args) → 0 ≤ ae_PrevLogTerm args →
  index (matchIndex rf) i = Ret mi → mi < ae_PrevLogIndex args →
  0 ≤ i < zlen (nextIndex rf) →
  ∃ rf' ni, onEntriesReply now' i args reply rf = Ret rf' ∧
    index (nextIndex rf') i = Ret ni ∧ mi < ni ≤ ae_PrevLogIndex args.
Proof.
  intros Hae Hfail Hbase Hterm HT Hprev Hpt Hmi Hlt Hi.
  pose proof (AppendEntries_hint _ _ _ _ _ Hae Hfail Hterm) as Hhint. cbn zeta in Hhint.
  apply AppendEntries_spec in Hae as (_ & _ & _ & _ & HrT & HcT & _).
  unfold onEntriesReply. rewrite decide_False by lia. rewrite Hmi, Hfail. cbn -[backtrack store].
  rewrite decide_False by lia.
  destruct (backtrack_spec rf args reply Hprev) as (ni & -> & Hni); [lia..|]. cbn -[store].
  destruct (store_returns (nextIndex rf) i (Z.max ni (mi + 1)) Hi) as [nis Hst]. rewrite Hst. cbn.
  apply store_Ret in Hst as [_ ->]. eexists _, (Z.max ni (mi + 1)). split; [done|]. cbn.
  split; [|lia]. apply index_Ret. split; [lia|]. apply list_lookup_insert_eq. unfold zlen in Hi. lia.
Qed.

(** ** Commitment *)

(** Peer [j] is another peer known to hold index [N]. *)
Definition holds rf (N : Z) (j : nat) : Prop :=
  Z.of_nat j ≠ me rf ∧ match matchIndex rf !! j with Some m => N ≤ m | None => False end.

#[local] Instance holds_dec rf N j : Decision (holds rf N j).
Proof. unfold holds. destruct (matchIndex rf !! j); apply _. Defined.

(** The number of servers, this one included, known to hold index [N]. *)
Definition held rf (N : Z) : Z :=
  1 + zlen (filter (holds rf N) (seq 0 (Z.to_nat (npeers rf)))).

Lemma countFrom_spec rf N js :
  (∀ j, j ∈ js → (j < length (matchIndex rf))%nat) →
  countFrom rf N js = Ret (1 + zlen (filter (holds rf N) js)).
Proof.
  induction js as [|j js IH]; intros Hb; cbn [countFrom]; [done|].
  rewrite IH by set_solver. cbn -[filter index zlen].
  destruct (lookup_lt_is_Some_2 (matchIndex rf) j) as [m Hm]; [set_solver|].
  rewrite filter_cons. destruct (decide (Z.of_nat j = me rf)) as [Hme|Hme].
  - rewrite decide_False by (unfold holds; tauto). done.
  - assert (index (matchIndex rf) (Z.of_nat j) = Ret m) as ->.
    { apply index_Ret. rewrite Nat2Z.id. split; [lia|done]. }
    cbn -[filter zlen]. destruct (decide (N ≤ m)) as [Hle|Hle].
    + rewrite decide_True by (unfold holds; by rewrite Hm). rewrite zlen_cons. f_equal. lia.
    + rewrite decide_False; [done|]. unfold holds. rewrite Hm. tauto.
Qed.

Lemma countMatching_held rf N :
  length (matchIndex rf) = Z.to_nat (npeers rf) → countMatching rf N = Ret (held rf N).
Proof. intros Hlen. apply countFrom_spec. intros j Hj%elem_of_seq. lia. Qed.

(** What the loop does on the [n] indices above commitIndex. *)
Definition advanced rf (last : Z) rf' : Prop :=
  Log rf' = Log rf ∧ CurrentTerm rf' = CurrentTerm rf ∧
  (commitIndex rf' = commitIndex rf ∨
   commitIndex rf < commitIndex rf' ≤ last ∧
   termAt rf (commitIndex rf') = Ret (CurrentTerm rf) ∧
   npeers rf `quot` 2 < held rf (commitIndex rf')) ∧
  (∀ M, commitIndex rf' < M ≤ last →
     (∀ K, M ≤ K ≤ last → termAt rf K = Ret (CurrentTerm rf)) →
     held rf M ≤ npeers rf `quot` 2).

Lemma advanceFrom_total rf n :
  LastIncludedIndex rf ≤ commitIndex rf + 1 → length (matchIndex rf) = Z.to_nat (npeers rf) →
  commitIndex rf + Z.of_nat n ≤ lastLogIndex rf →
  ∃ rf', advanceFrom rf n = Ret rf' ∧ advanced rf (commitIndex rf + Z.of_nat n) rf'.
Proof.
  intros Hlo Hlen. induction n as [|n IH]; intros Hn; cbn [advanceFrom].
  - eexists. split; [done|]. split_and!; try done; [by left|]. intros M HM. lia.
  - destruct (termAt_returns rf (commitIndex rf + Z.of_nat (S n))) as [t Ht]; [lia|].
    rewrite Ht. cbn -[countMatching Z.of_nat]. destruct (decide (t ≠ CurrentTerm rf)) as [Hne|Hne].
    { eexists. split; [done|]. split_and!; try done; [by left|]. intros M HM HK. exfalso.
      rewrite HK in Ht by lia. congruence. }
    assert (t = CurrentTerm rf) as -> by (destruct (decide (t = CurrentTerm rf)); tauto).
    rewrite countMatching_held by done. cbn -[held Z.of_nat].
    destruct (decide (npeers rf `quot` 2 < held rf (commitIndex rf + Z.of_nat (S n)))) as [Hmaj|Hmaj].
    + eexists. split; [done|]. split_and!; try done; cbn -[Z.of_nat held]; [|lia].
      right. split_and!; try done; lia.
    + destruct IH as (rf' & -> & ? & ? & Hc & Hmax); [lia|]. exists rf'. split; [done|].
      split_and!; try done.
      * destruct Hc as [?|(? & ? & ?)]; [by left|right]. split_and!; try done; lia.
      * intros M HM HK. destruct (decide (M = commitIndex rf + Z.of_nat (S n))) as [->|]; [lia|].
        apply Hmax; [lia|]. intros K ?. apply HK. lia.
Qed.

(** The leader commits the largest index it may.  advanceCommitIndex
    returns; it never lowers commitIndex; a new commitIndex is an index of the
    log whose entry has the current term and which, counting the leader, more
    than half of the servers hold; and no larger index above which the log is
    of the current term is held by a majority. *)
Theorem advanceCommitIndex_correct rf :
  LastIncludedIndex rf ≤ commitIndex rf + 1 → length (matchIndex rf) = Z.to_nat (npeers rf) →
  ∃ rf', advanceCommitIndex rf = Ret rf' ∧
    Log rf' = Log rf ∧ CurrentTerm rf' = CurrentTerm rf ∧
    (commitIndex rf' = commitIndex rf ∨
     commitIndex rf < commitIndex rf' ≤ lastLogIndex rf ∧
     termAt rf (commitIndex rf') = Ret (CurrentTerm rf) ∧
     npeers rf `quot` 2 < held rf (commitIndex rf')) ∧
    (∀ M, commitIndex rf' < M ≤ lastLogIndex rf →
       (∀ K, M ≤ K ≤ lastLogIndex rf → termAt rf K = Ret (CurrentTerm rf)) →
       held rf M ≤ npeers rf `quot` 2).
Proof.
  intros Hlo Hlen. unfold advanceCommitIndex.
  destruct (decide (commitIndex rf ≤ lastLogIndex rf)) as [Hle|Hle].
  - destruct (advanceFrom_total rf (Z.to_nat (lastLogIndex rf - commitIndex rf)) Hlo Hlen)
      as (rf' & ? & H); [lia|]. exists rf'. split; [done|]. unfold advanced in H.
    by replace (commitIndex rf + Z.of_nat (Z.to_nat (lastLogIndex rf - commitIndex rf)))
      with (lastLogIndex rf) in H by lia.
  - replace (Z.to_nat (lastLogIndex rf - commitIndex rf)) with 0%nat by lia. cbn.
    exists rf. split_and!; try done; [by left|]. intros M ?. lia.
Qed.

(** ** Votes *)

Definition logUpToDate rf (args : RequestVoteArgs) (t : Z) : Prop :=
  t < rv_LastLogTerm args ∨ (rv_LastLogTerm args = t ∧ lastLogIndex rf ≤ rv_LastLogIndex args).

Lemma upToDate_spec rf (args : RequestVoteArgs) t :
  lastLogTerm rf = Ret t → ∃ b, upToDate rf args = Ret b ∧ (b = true ↔ logUpToDate rf args t).
Proof.
  intros Ht. unfold upToDate. rewrite Ht. eexists. split; [done|]. unfold logUpToDate.
  rewrite orb_true_iff, andb_true_iff, !bool_decide_eq_true. done.
Qed.

(** The voting rule.  RequestVote grants its vote exactly when the
    candidate's term is not behind, the peer has not voted for another
    candidate in that term, and the candidate's log is at least as up to date;
    a granted vote is on stable storage before the reply leaves.  A refusal
    reports the peer's term, except that a refusal for an outdated log reports
    term 0. *)
Theorem RequestVote_rule now (args : RequestVoteArgs) rf t :
  lastLogTerm rf = Ret t →
  ∃ rf' reply, RequestVote now args rf = Ret (rf', reply) ∧
    let free := CurrentTerm rf < rv_Term args ∨ (CurrentTerm rf = rv_Term args ∧
                  (VotedFor rf = rv_CandidateId args ∨ VotedFor rf = -1)) in
    (rvr_VoteGranted reply = true ↔ free ∧ logUpToDate rf args t) ∧
    (rvr_VoteGranted reply = true →
       CurrentTerm rf' = rv_Term args ∧ VotedFor rf' = rv_CandidateId args ∧
       rvr_Term reply = rv_Term args ∧ state rf' = follower ∧ saved rf') ∧
    (free → ¬ logUpToDate rf args t → rvr_Term reply = 0) ∧
    (¬ free → rvr_Term reply = CurrentTerm rf').
Proof.
  intros Ht. cbn zeta. unfold RequestVote.
  remember (if decide (CurrentTerm rf < rv_Term args) then _ else _) as rf1 eqn:Erf1.
  apply bumpTerm_spec in Erf1 as (Hf & _ & HcT & Hv & _); [|done..].
  injection Hf as _ _ Hl Hi.
  assert (CurrentTerm rf1 ≤ rv_Term args ∧ (VotedFor rf1 = rv_CandidateId args ∨ VotedFor rf1 = -1) ↔
    CurrentTerm rf < rv_Term args ∨ (CurrentTerm rf = rv_Term args ∧
      (VotedFor rf = rv_CandidateId args ∨ VotedFor rf = -1))) as Hfree.
  { rewrite Hv, HcT. case_decide; split; intros; try tauto; lia. }
  destruct (upToDate_spec rf args t Ht) as (b & Hb & Hup).
  assert (upToDate rf1 args = Ret b) as Hb1.
  { rewrite <-Hb. unfold upToDate, lastLogTerm, lastLogIndex. by rewrite Hl, Hi. }
  destruct (decide (CurrentTerm rf1 ≤ rv_Term args ∧
    (VotedFor rf1 = rv_CandidateId args ∨ VotedFor rf1 = -1))) as [Hd|Hd]; rewrite Hfree in Hd.
  - rewrite Hb1. cbn. destruct b; eexists _, _; (split; [done|]); cbn.
    + split_and!; try tauto. intros _. split_and!; try done; [lia..|]. apply persist_saved.
    + split_and!; try tauto; try done.
  - eexists _, _. split; [done|]. cbn. split_and!; try tauto; try done.
    split; [done|tauto].
Qed.
End local.

(** ** The theorems on concrete peers *)

Section examples.
#[local] Instance nat_log_codec : Codec (PersistedState nat) := countable_codec.

(** Server 1 of three, in term 3 with entries of terms 1, 2, 2. *)
Definition peer1 : Raft nat :=
  set_CurrentTerm 3 (set_Log
    [mkEntry 0 None; mkEntry 1 (Some 10%nat); mkEntry 2 (Some 20%nat); mkEntry 2 (Some 21%nat)]
    (freshRaft 3 1 0 MakePersister)).

(** Server 0 leads term 3 with entries of terms 1, 1, 3; server 2 holds them all. *)
Definition leader0 : Raft nat :=
  set_state leader (set_CurrentTerm 3 (set_matchIndex [0; 0; 3] (set_nextIndex [4; 4; 4] (set_Log
    [mkEntry 0 None; mkEntry 1 (Some 10%nat); mkEntry 1 (Some 11%nat); mkEntry 3 (Some 30%nat)]
    (freshRaft 3 0 0 MakePersister))))).

Definition conflicting : AppendEntriesArgs nat := mkAEArgs 3 0 2 1 [mkEntry 3 (Some 30%nat)] 0.
Definition matching : AppendEntriesArgs nat :=
  mkAEArgs 3 0 1 1 [mkEntry 2 (Some 20%nat); mkEntry 3 (Some 30%nat)] 1.

(** The request's first entry is in the log, the second conflicts: the stale
    tail goes and the request's entry takes its place. *)
Lemma AppendEntries_agrees_witness : ∃ rf' reply,
  AppendEntries 0 matching peer1 = Ret (rf', reply) ∧ aer_Success reply = true ∧
  take 2 (Log rf') = take 2 (Log peer1) ∧ take 2 (drop 2 (Log rf')) = ae_Entries matching.
Proof.
  destruct (AppendEntries 0 matching peer1) as [[rf' reply]|] eqn:E; [|discriminate E].
  pose proof (AppendEntries_agrees 0 matching peer1 rf' reply E) as H.
  assert (aer_Success reply = true) as Hs by (vm_compute in E; by injection E as <- <-).
  exists rf', reply. rewrite Hs in H. destruct H as (_ & _ & _ & H & _ & Hes). split_and!; try done.
  apply Hes. intros [|[|m]] e e' He He'; [..|discriminate He']; injection He as <-; injection He' as <-; done.
Defined.

Lemma AppendEntries_conflict_hint_witness : ∃ rf' reply,
  AppendEntries 0 conflicting peer1 = Ret (rf', reply) ∧
  termAt peer1 2 = Ret (aer_ConflictTerm reply) ∧ aer_ConflictIndex reply = 2.
Proof.
  destruct (AppendEntries 0 conflicting peer1) as [[rf' reply]|] eqn:E; [|discriminate E].
  assert (reply = mkAEReply 3 false 2 2) as Hs by (vm_compute in E; by injection E as <- <-).
  assert (aer_Success reply = false) as Hf by (by rewrite Hs).
  destruct (AppendEntries_conflict_hint 0 conflicting peer1 rf' reply E Hf (Z.le_refl 3)) as
    [[Hlt _]|[[Hlt _]|(_ & Ht & _)]]; [discriminate Hlt..|].
  exists rf', reply. split; [reflexivity|]. split; [exact Ht|]. by rewrite Hs.
Defined.

Lemma rejected_append_backs_off_witness : ∃ rff' reply rf' ni,
  AppendEntries 0 conflicting peer1 = Ret (rff', reply) ∧
  onEntriesReply 0 1 conflicting reply leader0 = Ret rf' ∧
  index (nextIndex rf') 1 = Ret ni ∧ 0 < ni ≤ 2.
Proof.
  destruct (AppendEntries 0 conflicting peer1) as [[rff' reply]|] eqn:E; [|discriminate E].
  assert (reply = mkAEReply 3 false 2 2) as Hs by (vm_compute in E; by injection E as <- <-).
  destruct (rejected_append_backs_off 0 0 1 conflicting peer1 rff' reply leader0 0 E)
    as (rf' & ni & H1 & H2 & H3); try reflexivity; try (vm_compute; intuition congruence).
  - by rewrite Hs.
  - by exists rff', reply, rf', ni.
Defined.

Lemma advanceCommitIndex_correct_witness : ∃ rf',
  advanceCommitIndex leader0 = Ret rf' ∧ Log rf' = Log leader0.
Proof.
  destruct (advanceCommitIndex_correct leader0) as (rf' & H & Hl & _); [vm_compute; congruence|done|].
  by exists rf'.
Defined.

Lemma RequestVote_rule_witness : ∃ rf' reply,
  RequestVote 0 (mkRVArgs 4 2 5 1) peer1 = Ret (rf', reply) ∧ rvr_Term reply = 0.
Proof.
  destruct (RequestVote_rule 0 (mkRVArgs 4 2 5 1) peer1 2 eq_refl) as (rf' & reply & H & _ & _ & Hz & _).
  exists rf', reply. split; [done|]. apply Hz; [by left|]. intros [?|[? _]]; cbn in *; lia.
Defined.
End examples.
