(* ===== verification/RaftWide.v ===== *)
(** * RaftWide: the Raft handlers on 64-bit indices

    [Raft] computes with indices that have no width.  Go's [int] has 64 bits,
    and a request may carry any of them.  This file translates the handlers of
    [src/src/raft/raft.go] a second time with every sum and difference of
    indices wrapped to [int64].

    [handlers_never_panic]: as long as the log ends below the largest index and
    so does what the request would put there, the handlers do exactly what
    [Raft]'s do, return, and leave a log that ends below the largest index.
    [snapshot_index_wraps]: without this a request can crash a peer. *)

From S2P Require Import Prelude Persister Raft RaftFacts RaftNet RaftLocal.

Section wide.
Context {Cmd : Type} `{!Codec (PersistedState Cmd)}.
Implicit Types (rf : Raft Cmd) (args : AppendEntriesArgs Cmd).

(** ** The handlers *)

Definition sliceIndex64 rf (i : Z) : Z := i64 (i - LastIncludedIndex rf).
Definition lastLogIndex64 rf : Z := i64 (zlen (Log rf) - 1 + LastIncludedIndex rf).

Definition termAt64 rf (i : Z) : outcome Z :=
  e ← index (Log rf) (sliceIndex64 rf i); Ret (Term e).

(** [for i > rf.LastIncludedIndex && ...Term == conflictTerm { i-- }], for at
    most [n] rounds. *)
Fixpoint firstOfTerm64 rf (conflictTerm i : Z) (n : nat) : outcome Z :=
  match n with
  | O => Ret i
  | S n =>
      if decide (LastIncludedIndex rf < i) then
        t ← termAt64 rf i;
        if decide (t = conflictTerm) then firstOfTerm64 rf conflictTerm (i64 (i - 1)) n else Ret i
      else Ret i
  end.

Definition checkPrev64 rf args : outcome (bool * Z * Z) :=
  if decide (ae_PrevLogIndex args < LastIncludedIndex rf) then
    Ret (false, -1, i64 (LastIncludedIndex rf + 1))
  else if decide (lastLogIndex64 rf < ae_PrevLogIndex args) then
    Ret (false, -1, i64 (lastLogIndex64 rf + 1))
  else
    t ← termAt64 rf (ae_PrevLogIndex args);
    if decide (ae_PrevLogTerm args ≠ t) then
      i ← firstOfTerm64 rf t (ae_PrevLogIndex args)
            (S (Z.to_nat (ae_PrevLogIndex args - LastIncludedIndex rf)));
      Ret (false, t, i64 (i + 1))
    else Ret (true, 0, 0).

(** The loop over [args.Entries] from entry [i]. *)
Fixpoint scanEntries64 rf (prev i : Z) (entries : list (LogEntry Cmd))
    : outcome (list (LogEntry Cmd) * list (LogEntry Cmd)) :=
  match entries with
  | [] => Ret ([], Log rf)
  | e :: es =>
      let j := i64 (i64 (prev + 1) + i) in
      if decide (lastLogIndex64 rf < j) then Ret (entries, Log rf)
      else
        t ← termAt64 rf j;
        if decide (Term e ≠ t) then
          l ← slice_to (Log rf) (sliceIndex64 rf j);
          Ret (entries, l)
        else scanEntries64 rf prev (i + 1) es
  end.

Definition acceptEntries64 args rf : outcome (Raft Cmd) :=
  '(remaining, l) ← scanEntries64 rf (ae_PrevLogIndex args) 0 (ae_Entries args);
  let rf := set_Log l rf in
  let rf := match remaining with
            | [] => rf
            | _ => persist (set_Log (l ++ remaining) rf)
            end in
  let rf := if decide (commitIndex rf < ae_LeaderCommit args)
            then set_commitIndex (Z.min (ae_LeaderCommit args) (lastLogIndex64 rf)) rf else rf in
  Ret (set_applyReadyCh (notify (applyReadyCh rf)) rf).

Definition AppendEntries64 (now : Z) args rf : outcome (Raft Cmd * AppendEntriesReply) :=
  let rf' := observeLeader now args rf in
  if decide (ae_Term args < CurrentTerm rf) then
    Ret (rf', mkAEReply (CurrentTerm rf') false 0 0)
  else
    '(success, conflictTerm, conflictIndex) ← checkPrev64 rf' args;
    let reply := mkAEReply (CurrentTerm rf') success conflictTerm conflictIndex in
    if decide (success = false) then Ret (rf', reply)
    else rf'' ← acceptEntries64 args rf'; Ret (rf'', reply).

Definition hasSnapshotPoint64 rf (args : InstallSnapshotArgs) : outcome bool :=
  if decide (is_LastIncludedIndex args ≤ lastLogIndex64 rf) then
    t ← termAt64 rf (is_LastIncludedIndex args);
    Ret (bool_decide (t = is_LastIncludedTerm args))
  else Ret false.

Definition adoptSnapshot64 (args : InstallSnapshotArgs) rf : outcome (Raft Cmd) :=
  let rf := set_SnapshotData (is_Data args) rf in
  keep ← hasSnapshotPoint64 rf args;
  rf ← (if keep : bool then
          l ← slice_from (Log rf) (sliceIndex64 rf (is_LastIncludedIndex args));
          Ret (set_LastIncludedIndex (is_LastIncludedIndex args) (set_Log l rf))
        else
          Ret (set_LastIncludedIndex (is_LastIncludedIndex args)
                 (set_Log [mkEntry (is_LastIncludedTerm args) None] rf)));
  let rf :=
    if decide (lastApplied rf < is_LastIncludedIndex args) then
      let rf := set_commitIndex (Z.max (is_LastIncludedIndex args) (commitIndex rf)) rf in
      let rf := set_snapshotPending true rf in
      set_applyReadyCh (notify (applyReadyCh rf)) rf
    else rf in
  Ret (persist rf).

Definition InstallSnapshot64 (now : Z) (args : InstallSnapshotArgs) rf
    : outcome (Raft Cmd * InstallSnapshotReply) :=
  if decide (is_Term args < CurrentTerm rf) then Ret (rf, mkISReply (CurrentTerm rf))
  else
    let rf := set_lastHeardTime now rf in
    let rf := if decide (CurrentTerm rf < is_Term args)
              then becomeFollowerWithTerm now (is_Term args) rf else rf in
    let reply := mkISReply (CurrentTerm rf) in
    if decide (LastIncludedIndex rf < is_LastIncludedIndex args) then
      rf ← adoptSnapshot64 args rf; Ret (rf, reply)
    else Ret (rf, reply).

Definition upToDate64 rf (args : RequestVoteArgs) : outcome bool :=
  t ← lastLogTerm rf;
  Ret (bool_decide (t < rv_LastLogTerm args) ||
       (bool_decide (rv_LastLogTerm args = t) &&
        bool_decide (lastLogIndex64 rf ≤ rv_LastLogIndex args))).

Definition RequestVote64 (now : Z) (args : RequestVoteArgs) rf
    : outcome (Raft Cmd * RequestVoteReply) :=
  let rf := if decide (CurrentTerm rf < rv_Term args)
            then becomeFollowerWithTerm now (rv_Term args) rf else rf in
  if decide (CurrentTerm rf ≤ rv_Term args ∧
             (VotedFor rf = rv_CandidateId args ∨ VotedFor rf = -1)) then
    ok ← upToDate64 rf args;
    if ok : bool then
      let rf := set_lastHeardTime now rf in
      let rf := set_VotedFor (rv_CandidateId args) rf in
      let rf := set_state follower rf in
      let rf := persist rf in
      Ret (rf, mkRVReply (CurrentTerm rf) true)
    else Ret (rf, mkRVReply 0 false)
  else Ret (rf, mkRVReply (CurrentTerm rf) false).

Definition handleRequest64 (now : Z) (rq : @Request Cmd) rf : outcome (Raft Cmd * Response) :=
  match rq with
  | RqVote a => '(rf, r) ← RequestVote64 now a rf; Ret (rf, RsVote r)
  | RqAppend a => '(rf, r) ← AppendEntries64 now a rf; Ret (rf, RsAppend r)
  | RqSnap a => '(rf, r) ← InstallSnapshot64 now a rf; Ret (rf, RsSnap r)
  end.

(** ** Where nothing wraps *)

(** The log has its dummy entry, and the index after it is an [int]. *)
Definition room rf : Prop :=
  0 < zlen (Log rf) ∧ 0 ≤ LastIncludedIndex rf ∧ LastIncludedIndex rf + zlen (Log rf) < 2 ^ 63.

(** So is the index after what the request would put in the log. *)
Definition fits (rq : @Request Cmd) : Prop :=
  match rq with
  | RqVote _ => True
  | RqAppend a => ae_PrevLogIndex a + 1 + zlen (ae_Entries a) < 2 ^ 63
  | RqSnap a => is_LastIncludedIndex a + 1 < 2 ^ 63
  end.

Lemma zlen_pos {A} (l : list A) : l ≠ [] ↔ 0 < zlen l.
Proof. destruct l; unfold zlen; cbn; [split; [done|lia]|]. split; [lia|done]. Qed.

Lemma lastLogIndex64_eq rf : room rf → lastLogIndex64 rf = lastLogIndex rf.
Proof.
  intros (Hd & H0 & H1). unfold lastLogIndex64, lastLogIndex. pose proof (zlen_nonneg (Log rf)).
  rewrite i64_small; lia.
Qed.

Lemma sliceIndex64_eq rf i :
  room rf → LastIncludedIndex rf ≤ i < 2 ^ 63 → sliceIndex64 rf i = sliceIndex rf i.
Proof. intros (Hd & H0 & H1) Hi. unfold sliceIndex64, sliceIndex. rewrite i64_small; lia. Qed.

Lemma termAt64_eq rf i : room rf → LastIncludedIndex rf ≤ i < 2 ^ 63 → termAt64 rf i = termAt rf i.
Proof. intros Hr Hi. unfold termAt64, termAt. by rewrite sliceIndex64_eq. Qed.

Lemma firstOfTerm64_S rf t i n :
  firstOfTerm64 rf t i (S n) =
    if decide (LastIncludedIndex rf < i) then
      u ← termAt64 rf i; if decide (u = t) then firstOfTerm64 rf t (i64 (i - 1)) n else Ret i
    else Ret i.
Proof. done. Qed.

Lemma firstOfTerm64_eq rf t n :
  room rf → LastIncludedIndex rf + Z.of_nat n < 2 ^ 63 →
  firstOfTerm64 rf t (LastIncludedIndex rf + Z.of_nat n) (S n) = firstOfTerm rf t n.
Proof.
  intros Hr. pose proof Hr as (_ & H0 & _). induction n as [|n IH]; intros Hn; rewrite firstOfTerm64_S.
  - rewrite decide_False by lia. cbn. f_equal. lia.
  - rewrite decide_True by lia. rewrite termAt64_eq by (done || lia). cbn [firstOfTerm].
    destruct (termAt rf _) as [u|]; [cbn -[firstOfTerm64 Z.of_nat]|done]. case_decide; [|done].
    rewrite <-IH by lia. f_equal. rewrite i64_small; lia.
Qed.

Lemma checkPrev64_eq rf args : room rf → checkPrev64 rf args = checkPrev rf args.
Proof.
  intros Hr. pose proof Hr as (Hd & H0 & H1). unfold checkPrev64, checkPrev. rewrite lastLogIndex64_eq by done.
  assert (lastLogIndex rf + 1 < 2 ^ 63) as Hlast by (unfold lastLogIndex; lia).
  pose proof (zlen_nonneg (Log rf)).
  case_decide; [by rewrite i64_small by lia|]. case_decide.
  { rewrite i64_small; [done|]. unfold lastLogIndex in *. lia. }
  rewrite termAt64_eq by (done || lia). destruct (termAt rf _) as [t|]; [cbn -[firstOfTerm64]|done].
  case_decide; [|done].
  replace (ae_PrevLogIndex args) with
    (LastIncludedIndex rf + Z.of_nat (Z.to_nat (ae_PrevLogIndex args - LastIncludedIndex rf))) at 1 by lia.
  rewrite firstOfTerm64_eq by (done || lia).
  destruct (firstOfTerm rf t _) as [i|] eqn:E; [cbn|done].
  apply firstOfTerm_spec in E as [? _]. by rewrite i64_small by lia.
Qed.

Lemma scanEntries64_eq rf prev i es :
  room rf → LastIncludedIndex rf ≤ prev → 0 ≤ i → prev + 1 + i + zlen es < 2 ^ 63 →
  scanEntries64 rf prev i es = scanEntries rf (prev + 1 + i) es.
Proof.
  intros Hr Hp. pose proof Hr as (Hd & H0 & H1).
  revert i. induction es as [|e es IH]; intros i Hi Hb; cbn [scanEntries64 scanEntries]; [done|].
  rewrite zlen_cons in Hb. pose proof (zlen_nonneg es).
  rewrite (i64_small (prev + 1)), i64_small by lia. rewrite lastLogIndex64_eq by done. case_decide; [done|].
  rewrite termAt64_eq by (done || lia). destruct (termAt rf _) as [t|]; [cbn|done]. case_decide.
  - by rewrite sliceIndex64_eq by (done || lia).
  - rewrite IH by lia. f_equal. lia.
Qed.

Lemma observeLeader_log now args rf :
  Log (observeLeader now args rf) = Log rf ∧ LastIncludedIndex (observeLeader now args rf) = LastIncludedIndex rf.
Proof. destruct (observeLeader_spec now args rf) as (Hf & _). by injection Hf. Qed.

(** A log that holds what it held, or that and the request's entries, or that and the snapshot. *)
Lemma merged_zlen L b args L' :
  merged L b args L' → zlen L' ≤ Z.max (zlen L) (ae_PrevLogIndex args - b + 1 + zlen (ae_Entries args)).
Proof.
  intros (Hb & _ & _ & k & Hk & _ & [[_ ->]|(_ & _ & _ & ->)]); [lia|].
  unfold zlen. rewrite length_app, length_take, length_drop. lia.
Qed.

Lemma AppendEntries64_eq now args rf :
  room rf → fits (RqAppend args) → AppendEntries64 now args rf = AppendEntries now args rf.
Proof.
  intros Hr Hf. cbn in Hf. destruct (observeLeader_log now args rf) as [HL HI].
  unfold AppendEntries64, AppendEntries. case_decide; [done|].
  set (rf1 := observeLeader now args rf) in *. clearbody rf1.
  assert (room rf1) as Hr1 by (unfold room in *; by rewrite HL, HI).
  rewrite checkPrev64_eq by done. destruct (checkPrev rf1 args) as [[[su t] i]|] eqn:Hc; [cbn|done].
  destruct su; [|done]. rewrite !decide_False by done. apply checkPrev_success in Hc as [Hp _].
  f_equal. unfold acceptEntries64, acceptEntries. rewrite scanEntries64_eq by (done || lia).
  rewrite Z.add_0_r. destruct (scanEntries rf1 _ _) as [[rem l]|] eqn:Hs; [cbn -[set_Log persist]|done].
  assert (room (match rem with [] => set_Log l rf1 | _ => persist (set_Log (l ++ rem) (set_Log l rf1)) end)) as Hr2.
  { apply scanEntries_spec in Hs; [|unfold lastLogIndex in *; lia].
    destruct Hs as (k & Hk & -> & _ & Hl). unfold room in *.
    assert (0 < zlen (l ++ drop k (ae_Entries args)) ≤
      Z.max (zlen (Log rf1)) (ae_PrevLogIndex args - LastIncludedIndex rf1 + 1 + zlen (ae_Entries args))) as Hz.
    { destruct Hl as [[-> ->]|(? & ? & _ & ->)]; [rewrite drop_all, app_nil_r; lia|].
      unfold zlen. rewrite length_app, length_take, length_drop. unfold sliceIndex in *. lia. }
    destruct (drop k (ae_Entries args)) eqn:E; cbn; [rewrite app_nil_r in Hz|]; lia. }
  case_decide; [|done]. by rewrite lastLogIndex64_eq.
Qed.

Lemma InstallSnapshot64_eq now (args : InstallSnapshotArgs) rf :
  room rf → fits (RqSnap args) → InstallSnapshot64 now args rf = InstallSnapshot now args rf.
Proof.
  intros Hr Hf. unfold InstallSnapshot64, InstallSnapshot. case_decide; [done|].
  set (rf1 := if decide (_ < is_Term args) then _ else _).
  assert (room rf1) as Hr1 by (unfold rf1; by case_decide). clearbody rf1.
  case_decide as HL; [|done]. f_equal. unfold adoptSnapshot64, adoptSnapshot.
  set (rf2 := set_SnapshotData _ rf1). assert (room rf2) as Hr2 by done.
  unfold hasSnapshotPoint64, hasSnapshotPoint. rewrite lastLogIndex64_eq by done. cbn in Hf.
  case_decide; [|done]. rewrite termAt64_eq by (done || (cbn; lia)).
  destruct (termAt rf2 _); [cbn|done]. case_bool_decide; [|done]. by rewrite sliceIndex64_eq by (done || (cbn; lia)).
Qed.

Lemma RequestVote64_eq now (args : RequestVoteArgs) rf :
  room rf → RequestVote64 now args rf = RequestVote now args rf.
Proof.
  intros Hr. unfold RequestVote64, RequestVote.
  set (rf1 := if decide (CurrentTerm rf < rv_Term args) then _ else _).
  assert (room rf1) as Hr1 by (unfold rf1; by case_decide). clearbody rf1.
  case_decide; [|done]. unfold upToDate64, upToDate. by rewrite lastLogIndex64_eq.
Qed.

Lemma handleRequest64_eq now rq rf :
  room rf → fits rq → handleRequest64 now rq rf = handleRequest now rq rf.
Proof.
  intros Hr Hf. destruct rq as [a|a|a]; cbn.
  - by rewrite RequestVote64_eq.
  - by rewrite AppendEntries64_eq.
  - by rewrite InstallSnapshot64_eq.
Qed.

(** The handlers keep the room. *)
Lemma handleRequest_room now rq rf rf' rs :
  room rf → fits rq → handleRequest now rq rf = Ret (rf', rs) → room rf'.
Proof.
  unfold room. intros (Hd & H0 & H1) Hf H. destruct rq as [a|a|a]; cbn in *; apply bind_ret_inv in H as ([rf1 r] & H & [= <- <-]).
  - apply RequestVote_spec in H as (_ & _ & -> & -> & _). lia.
  - apply AppendEntries_spec in H as (_ & _ & -> & _ & _ & _ & _ & _ & HL).
    destruct (aer_Success r); [|rewrite HL; lia]. destruct HL as [_ HL]. pose proof (merged_zlen _ _ _ _ HL).
    apply merged_nonempty, zlen_pos in HL. lia.
  - apply InstallSnapshot_spec in H as (_ & _ & _ & _ & _ & _ & _ & [[-> ->]|(? & ? & -> & HR)]); [lia|].
    destruct HR as [(e & He%lookup_lt_Some & _ & ->)|[_ ->]]; [|unfold zlen; cbn; lia].
    unfold zlen in *. rewrite length_drop. lia.
Qed.

(** ** The theorem *)

(** C26: The RPC handlers never panic while indices fit their type.  On any
    peer whose log has its dummy entry and ends below the largest [int], and
    for any request (also one no correct peer sends) whose entries or snapshot
    end below it too, AppendEntries, InstallSnapshot and RequestVote, computed
    on 64-bit indices, do the same as on unbounded ones, return, and leave a log
    that has its dummy entry and ends below the largest [int] again. *)
Theorem handlers_never_panic now rq rf :
  room rf → fits rq →
  ∃ rf' rs, handleRequest64 now rq rf = Ret (rf', rs) ∧ handleRequest now rq rf = Ret (rf', rs) ∧ room rf'.
Proof.
  intros Hr Hf. destruct (handlers_return now rq rf) as (rf' & rs & H & _); [by apply zlen_pos, Hr|].
  exists rf', rs. rewrite handleRequest64_eq by done. split_and!; try done. by eapply handleRequest_room.
Qed.
End wide.

(** ** The theorem on concrete peers *)

Section examples.
#[local] Instance nat_wide_codec : Codec (PersistedState nat) := countable_codec.

Lemma handlers_never_panic_witness : ∃ rf' rs,
  handleRequest64 0 (RqSnap (mkISArgs 5 2 9 4 [x01])) peer1 = Ret (rf', rs) ∧
  handleRequest 0 (RqSnap (mkISArgs 5 2 9 4 [x01])) peer1 = Ret (rf', rs) ∧ room rf'.
Proof.
  apply (handlers_never_panic 0 (RqSnap (mkISArgs 5 2 9 4 [x01])) peer1); [split_and!; vm_compute|vm_compute]; congruence.
Defined.

(** The largest [int]. *)
Definition maxInt : Z := 2 ^ 63 - 1.

(** A peer accepts a snapshot at the largest index.  An AppendEntries that
    follows it with one entry passes the consistency check; the entry's index
    wraps to the smallest [int], which is not after the log, and the peer
    indexes its log out of range. *)
Theorem snapshot_index_wraps :
  returns (InstallSnapshot64 0 (mkISArgs 5 2 maxInt 4 [x01]) peer1) ∧
  ('(rf', _) ← InstallSnapshot64 0 (mkISArgs 5 2 maxInt 4 [x01]) peer1;
   AppendEntries64 0 (mkAEArgs 5 2 maxInt 4 [mkEntry 5 (Some 50%nat)] 0) rf') = Panic IndexRange.
Proof. split; [apply (bool_decide_unpack _)|]; vm_compute; done. Qed.
End examples.
