(* ===== verification/RaftSafety.v ===== *)
(** * RaftSafety: election safety and log matching

    For every cluster reachable in [RaftNet], with lost, delayed and reordered
    messages, crashes, restarts and snapshots: at most one peer leads in a
    term, and logs that agree on the term of an index agree on everything
    before it.

    The proof carries history next to the state: every vote ever cast, the log
    of the leader of every term, and for every peer its full log, of which the
    peer holds the part after its snapshot.  None of it is in the model; the
    invariant says that such a history exists. *)

From stdpp Require Import functions.
From S2P Require Import Prelude Persister Raft RaftFacts RaftNet.

Section logs.
Context {Cmd : Type}.
Implicit Types (fl tl L : list (LogEntry Cmd)) (t : gmap Z (nat * list (LogEntry Cmd))).

Definition dummy : LogEntry Cmd := mkEntry 0 None.

(** Every entry of the log was put there by the leader of its term, after the
    same entries. *)
Definition valid t fl : Prop :=
  fl !! 0%nat = Some dummy ∧
  ∀ k e, fl !! k = Some e →
    k = 0%nat ∨ ∃ l tl, t !! Term e = Some (l, tl) ∧ take (S k) fl = take (S k) tl.

(** Leaders' logs only grow. *)
Definition tlog_ext t t' : Prop :=
  ∀ T l tl, t !! T = Some (l, tl) → ∃ ext, t' !! T = Some (l, tl ++ ext).

(** The log a peer holds: [L] is the part of the full log [fl] from index [b]
    on, except that the entry at [b] may have lost its command. *)
Definition log_rel L (b : nat) fl : Prop :=
  (b ≤ length fl)%nat ∧ Term <$> L = Term <$> drop b fl ∧ tail L = tail (drop b fl).

Lemma tlog_ext_refl t : tlog_ext t t.
Proof. intros T l tl H. exists []. by rewrite app_nil_r. Qed.

Lemma valid_match t fl1 fl2 k e1 e2 :
  valid t fl1 → valid t fl2 → fl1 !! k = Some e1 → fl2 !! k = Some e2 → Term e1 = Term e2 →
  take (S k) fl1 = take (S k) fl2.
Proof.
  intros [Hz1 H1] [Hz2 H2] He1 He2 HT. destruct k as [|k].
  - destruct fl1, fl2; try done. cbn in *. by simplify_eq.
  - destruct (H1 _ e1 He1) as [?|(l1 & tl1 & Ht1 & ->)]; [done|].
    destruct (H2 _ e2 He2) as [?|(l2 & tl2 & Ht2 & ->)]; [done|].
    rewrite HT, Ht2 in Ht1. by simplify_eq.
Qed.

Lemma valid_mono t t' fl : tlog_ext t t' → valid t fl → valid t' fl.
Proof.
  intros Hext [Hz H]. split; [done|]. intros k e He.
  destruct (H k e He) as [->|(l & tl & Ht & Htk)]; [by left|right].
  destruct (Hext _ _ _ Ht) as [ext Ht']. exists l, (tl ++ ext). split; [done|].
  rewrite Htk. apply (f_equal length) in Htk. apply lookup_lt_Some in He.
  rewrite !length_take in Htk. by rewrite take_app_le by lia.
Qed.

Lemma valid_take t fl m : (0 < m)%nat → valid t fl → valid t (take m fl).
Proof.
  intros Hm [Hz H]. split; [by rewrite lookup_take_lt|].
  intros k e [He Hk]%lookup_take_Some. destruct (H k e He) as [->|(l & tl & Ht & Htk)]; [by left|].
  right. exists l, tl. split; [done|]. rewrite take_take. by replace (S k `min` m)%nat with (S k) by lia.
Qed.

Lemma valid_snoc t l fl T cmd :
  valid t fl → t !! T = Some (l, fl ++ [mkEntry T cmd]) → valid t (fl ++ [mkEntry T cmd]).
Proof.
  intros [Hz H] Ht. split; [by rewrite lookup_app_l by by eapply lookup_lt_Some|].
  intros k e He. destruct (decide (k < length fl)%nat) as [Hk|Hk].
  - rewrite lookup_app_l in He by done. destruct (H k e He) as [->|(l' & tl & Ht' & Htk)]; [by left|].
    right. exists l', tl. split; [done|]. by rewrite take_app_le by lia.
  - rewrite lookup_app_r in He by lia. apply list_lookup_singleton_Some in He as [_ <-].
    right. exists l, (fl ++ [mkEntry T cmd]). done.
Qed.

Lemma log_rel_lookup L b fl k e :
  log_rel L b fl → L !! k = Some e → ∃ e', fl !! (b + k)%nat = Some e' ∧ Term e' = Term e.
Proof.
  intros (_ & HT & _) He. assert ((Term <$> L) !! k = Some (Term e)) as H.
  { by rewrite list_lookup_fmap, He. }
  rewrite HT, list_lookup_fmap, lookup_drop in H.
  destruct (fl !! (b + k)%nat) as [e'|]; [|done]. exists e'. split; [done|]. by injection H.
Qed.

Lemma log_rel_tail L b fl k :
  log_rel L b fl → (0 < k)%nat → L !! k = fl !! (b + k)%nat.
Proof.
  intros (_ & _ & Htl) Hk. destruct k as [|k]; [lia|].
  rewrite <-lookup_drop. by rewrite <-!lookup_tail, Htl.
Qed.

Lemma log_rel_drop L b fl k : log_rel L b fl → drop (S k) L = drop (b + S k) fl.
Proof.
  intros (_ & _ & Htl). rewrite <-drop_drop.
  by rewrite !drop_S_tail, Htl.
Qed.

Lemma log_rel_length L b fl : log_rel L b fl → length fl = (b + length L)%nat.
Proof.
  intros (Hb & HT & _). apply (f_equal length) in HT. rewrite !length_fmap, length_drop in HT. lia.
Qed.

(** Snapshots drop a prefix. *)
Lemma log_rel_rebase L b fl k :
  log_rel L b fl → (k ≤ length L)%nat → log_rel (drop k L) (b + k) fl.
Proof.
  intros Hr Hk. pose proof (log_rel_length _ _ _ Hr). destruct Hr as (Hb & HT & Htl).
  split_and!; [lia| |].
  - rewrite !fmap_drop, HT, fmap_drop, drop_drop. done.
  - rewrite <-drop_drop. destruct k as [|k]; [by rewrite !drop_0|].
    by rewrite !drop_S_tail, Htl.
Qed.

Lemma log_rel_app L b fl es : log_rel L b fl → log_rel (L ++ es) b (fl ++ es).
Proof.
  intros Hr. pose proof (log_rel_length _ _ _ Hr) as Hlen. destruct Hr as (Hb & HT & Htl).
  split_and!.
  - rewrite length_app. lia.
  - rewrite drop_app_le by lia. by rewrite !fmap_app, HT.
  - rewrite drop_app_le by lia. destruct L as [|x L], (drop b fl) as [|y r] eqn:E; try done.
    cbn in *. by subst.
Qed.

Lemma log_rel_take L b fl m :
  log_rel L b fl → (0 < m)%nat → log_rel (take m L) b (take (b + m) fl).
Proof.
  intros (Hb & HT & Htl) Hm.
  assert (drop b (take (b + m) fl) = take m (drop b fl)) as Hdt.
  { by rewrite <-take_drop_commute. }
  split_and!.
  - rewrite length_take. lia.
  - by rewrite Hdt, !fmap_take, HT.
  - rewrite Hdt. destruct m as [|m]; [lia|].
    destruct L as [|x L], (drop b fl) as [|y r]; try done. cbn in *. by subst.
Qed.

(** Two logs are the same up to index [k], which both have. *)
Definition agree (k : nat) L1 L2 : Prop :=
  (k < length L1)%nat ∧ take (S k) L1 = take (S k) L2.

(** What taking entries from the leader's log [tl] does to a full log: nothing,
    or it becomes a prefix of [tl] that covers a position where they differed. *)
Definition follows tl fl fl' : Prop :=
  fl' = fl ∨ ∃ N q, fl' = take N tl ∧ (q < N ≤ length tl)%nat ∧ fl !! q ≠ tl !! q.

Lemma agree_refl k L : (k < length L)%nat → agree k L L.
Proof. done. Qed.

Lemma agree_length k L1 L2 : agree k L1 L2 → (k < length L2)%nat.
Proof. intros [H He]. apply (f_equal length) in He. rewrite !length_take in He. lia. Qed.

Lemma agree_sym k L1 L2 : agree k L1 L2 → agree k L2 L1.
Proof. intros H. split; [by eapply agree_length|]. by destruct H. Qed.

Lemma agree_trans k L1 L2 L3 : agree k L1 L2 → agree k L2 L3 → agree k L1 L3.
Proof. intros [? ?] [? ?]. split; congruence. Qed.

Lemma agree_le j k L1 L2 : agree k L1 L2 → (j ≤ k)%nat → agree j L1 L2.
Proof.
  intros [Hk He] Hj. split; [lia|]. apply (f_equal (take (S j))) in He.
  rewrite !take_take in He. by replace (S j `min` S k)%nat with (S j) in He by lia.
Qed.

Lemma agree_lookup j k L1 L2 : agree k L1 L2 → (j ≤ k)%nat → L1 !! j = L2 !! j.
Proof. intros [_ He] Hj. apply (lookup_take_eq _ _ (S k)); [lia|done]. Qed.

Lemma agree_take k N L : (k < N)%nat → (k < length L)%nat → agree k (take N L) L.
Proof.
  intros HN Hk. split; [rewrite length_take; lia|]. rewrite take_take.
  by replace (S k `min` N)%nat with (S k) by lia.
Qed.

Lemma agree_app k L ext : (k < length L)%nat → agree k (L ++ ext) L.
Proof. intros Hk. split; [rewrite length_app; lia|]. by rewrite take_app_le by lia. Qed.

Lemma valid_agree t fl1 fl2 k e1 e2 :
  valid t fl1 → valid t fl2 → fl1 !! k = Some e1 → fl2 !! k = Some e2 → Term e1 = Term e2 →
  agree k fl1 fl2.
Proof. intros. split; [by eapply lookup_lt_Some|by eapply valid_match]. Qed.

(** A leader's log that starts with what the peer already has: the entries are
    merged into a prefix of it. *)
Lemma merged_valid t L b fl args L' pre e rest :
  let tl := pre ++ e :: ae_Entries args ++ rest in
  valid t fl → log_rel L b fl → merged L (Z.of_nat b) args L' → valid t tl →
  ae_PrevLogIndex args = Z.of_nat (length pre) → ae_PrevLogTerm args = Term e →
  ∃ fl', valid t fl' ∧ log_rel L' b fl' ∧ follows tl fl fl' ∧
         agree (length pre + length (ae_Entries args)) fl' tl.
Proof.
  cbn zeta. intros Hv Hr (Hlo & Hhi & (x & Hx & HxT) & k & Hk & Hm & HL') Htl Hp HpT.
  set (tl := pre ++ e :: ae_Entries args ++ rest) in *.
  rewrite Hp in *. replace (Z.to_nat (Z.of_nat (length pre) - Z.of_nat b))
    with (length pre - b)%nat in * by lia.
  assert (∀ j, tl !! (length pre + 1 + j)%nat = (ae_Entries args ++ rest) !! j) as Htlk.
  { intros j. unfold tl. rewrite lookup_app_r by lia.
    by replace (length pre + 1 + j - length pre)%nat with (S j) by lia. }
  assert (agree (length pre + k) fl tl) as Hpre.
  { destruct k as [|k].
    - destruct (log_rel_lookup _ _ _ _ _ Hr Hx) as (x' & Hx' & HxT').
      replace (b + (length pre - b))%nat with (length pre) in Hx' by lia. rewrite Nat.add_0_r.
      eapply valid_agree; [exact Hv|exact Htl|exact Hx'|by apply list_lookup_middle|congruence].
    - destruct (lookup_lt_is_Some_2 (ae_Entries args) k) as [y Hy]; [lia|].
      destruct (Hm k y ltac:(lia) Hy) as (y' & Hy' & HyT).
      destruct (log_rel_lookup _ _ _ _ _ Hr Hy') as (z & Hz & HzT).
      replace (b + (length pre - b + 1 + k))%nat with (length pre + 1 + k)%nat in Hz by lia.
      replace (length pre + S k)%nat with (length pre + 1 + k)%nat by lia.
      apply (valid_agree t fl tl _ z y Hv Htl Hz); [|congruence].
      by rewrite Htlk, lookup_app_l by lia. }
  destruct HL' as [[-> ->]|(Hlt & Hle & Hd & ->)]; [exists fl; split_and!; try done; by left|].
  set (N := (length pre + 1 + length (ae_Entries args))%nat).
  assert (take (length pre + 1 + k) fl ++ drop k (ae_Entries args) = take N tl) as HN.
  { replace (length pre + 1 + k)%nat with (S (length pre + k)) by lia.
    destruct Hpre as [_ ->]. unfold N, tl. rewrite !take_app_ge by lia.
    rewrite <-app_assoc. f_equal.
    replace (length pre + 1 + length (ae_Entries args) - length pre)%nat
      with (S (length (ae_Entries args))) by lia.
    replace (S (length pre + k) - length pre)%nat with (S k) by lia. cbn. f_equal.
    rewrite take_app_length. rewrite take_app_le by lia. by rewrite take_drop. }
  assert (N ≤ length tl)%nat as HNl.
  { unfold N, tl. rewrite !length_app. cbn. rewrite length_app. lia. }
  exists (take N tl). split_and!.
  - apply valid_take; [lia|done].
  - rewrite <-HN. apply log_rel_app.
    replace (length pre + 1 + k)%nat with (b + (length pre - b + 1 + k))%nat by lia.
    apply log_rel_take; [done|lia].
  - right. exists N, (length pre + 1 + k)%nat. split_and!; [done|lia..|].
    destruct (lookup_lt_is_Some_2 (ae_Entries args) k) as [y Hy]; [lia|].
    rewrite Htlk, lookup_app_l, Hy by lia. intros Hfl. apply Hd. exists y, y.
    split_and!; try done. rewrite (log_rel_tail _ _ _ _ Hr) by lia. rewrite <-Hfl. f_equal. lia.
  - apply agree_take; lia.
Qed.

(** Likewise for a snapshot. *)
Lemma rebased_valid t L b fl args L' tl e (m : nat) :
  valid t fl → log_rel L b fl → rebased L (Z.of_nat b) args L' → valid t tl →
  is_LastIncludedIndex args = Z.of_nat m → (b < m)%nat →
  tl !! m = Some e → Term e = is_LastIncludedTerm args →
  ∃ fl', valid t fl' ∧ log_rel L' m fl' ∧ follows tl fl fl' ∧ agree m fl' tl.
Proof.
  intros Hv Hr HR Htl HI Hbm He HT. unfold rebased in HR. rewrite HI in HR.
  replace (Z.to_nat (Z.of_nat m - Z.of_nat b)) with (m - b)%nat in HR by lia.
  pose proof (lookup_lt_Some _ _ _ He).
  destruct HR as [(x & Hx & HxT & ->)|[Hx ->]].
  - exists fl. split_and!; [done| |by left|].
    + replace m with (b + (m - b))%nat at 2 by lia.
      apply log_rel_rebase; [done|]. apply lookup_lt_Some in Hx. lia.
    + destruct (log_rel_lookup _ _ _ _ _ Hr Hx) as (y & Hy & HyT).
      replace (b + (m - b))%nat with m in Hy by lia.
      eapply valid_agree; [exact Hv|exact Htl|exact Hy|exact He|congruence].
  - exists (take (S m) tl).
    assert (drop m (take (S m) tl) = [e]) as Hd.
    { rewrite (take_S_r _ _ _ He). rewrite drop_app_ge; rewrite length_take; [|lia].
      by replace (m - m `min` length tl)%nat with 0%nat by lia. }
    split_and!; [apply valid_take; [lia|done]| | |apply agree_take; lia].
    + split_and!; [rewrite length_take; lia| |]; rewrite Hd; cbn; [by rewrite HT|done].
    + right. exists (S m), m. split_and!; [done|lia..|]. rewrite He. intros Hfl.
      apply (Hx e); [|done]. rewrite (log_rel_tail _ _ _ _ Hr) by lia. rewrite <-Hfl. f_equal. lia.
Qed.
End logs.

Section safety.
Context {Cmd : Type} `{!Codec (PersistedState Cmd)}.
Implicit Types (rf : Raft Cmd) (nd : @Node Cmd) (cl : @Call Cmd) (cs : list (@Call Cmd))
  (s : @Sys Cmd) (fl tl : list (LogEntry Cmd)) (n i : nat) (T : Z).

(** ** The history *)

Record History := mkHistory {
  h_votes : gmap (nat * Z) nat;                       (* voter, term: candidate *)
  h_tlog : gmap Z (nat * list (LogEntry Cmd));        (* term: leader and its log *)
  h_flog : nat → list (LogEntry Cmd)                  (* peer: its full log *)
}.
Implicit Types (h : History).

Definition majority n (Q : gset nat) : Prop :=
  (∀ v, v ∈ Q → (v < n)%nat) ∧ Z.of_nat n `quot` 2 < Z.of_nat (size Q).

Definition votedAll h T i (Q : gset nat) : Prop :=
  ∀ v, v ∈ Q → h_votes h !! (v, T) = Some i.

Definition vote_key cl : option (nat * nat * Z) :=
  match c_req cl with RqVote a => Some (c_from cl, c_to cl, rv_Term a) | _ => None end.

(** Voter [v]'s reply to [i] in term [T] has been processed. *)
Definition counted cs i v T : Prop :=
  ∃ cl, cl ∈ cs ∧ vote_key cl = Some (i, v, T) ∧ c_status cl = Finished.

Definition election_ok n h cs i T (el : Election) : Prop :=
  ∃ Q, voteCount el = Z.of_nat (size Q) ∧ i ∈ Q ∧ votedAll h T i Q ∧
       (∀ v, v ∈ Q → (v < n)%nat) ∧ (∀ v, v ∈ Q → v = i ∨ counted cs i v T).

Record node_ok n h cs i nd fl : Prop := {
  nk_npeers : npeers (nd_raft nd) = Z.of_nat n;
  nk_me : me (nd_raft nd) = Z.of_nat i;
  nk_durable : durable (nd_raft nd);
  nk_vote c : h_votes h !! (i, CurrentTerm (nd_raft nd)) = Some c ↔
              VotedFor (nd_raft nd) = Z.of_nat c;
  nk_past T c : h_votes h !! (i, T) = Some c → T ≤ CurrentTerm (nd_raft nd);
  nk_log : ∃ b, LastIncludedIndex (nd_raft nd) = Z.of_nat b ∧ log_rel (Log (nd_raft nd)) b fl;
  nk_valid : valid (h_tlog h) fl;
  nk_leader : state (nd_raft nd) = leader →
              h_tlog h !! CurrentTerm (nd_raft nd) = Some (i, fl);
  nk_cand : state (nd_raft nd) = candidate → ∀ l tl,
            h_tlog h !! CurrentTerm (nd_raft nd) = Some (l, tl) → l ≠ i;
  nk_elections T el : nd_elections nd !! T = Some el → election_ok n h cs i T el;
}.

Definition request_ok h (from to : nat) (rq : @Request Cmd) : Prop :=
  match rq with
  | RqVote a => rv_CandidateId a = Z.of_nat from ∧ h_votes h !! (from, rv_Term a) = Some from
  | RqAppend a => ∃ pre e rest,
      h_tlog h !! ae_Term a = Some (from, pre ++ e :: ae_Entries a ++ rest) ∧
      ae_PrevLogIndex a = Z.of_nat (length pre) ∧ ae_PrevLogTerm a = Term e
  | RqSnap a => ∃ tl m e, h_tlog h !! is_Term a = Some (from, tl) ∧
      is_LastIncludedIndex a = Z.of_nat m ∧ tl !! m = Some e ∧ Term e = is_LastIncludedTerm a
  end.

Definition response_ok h (from to : nat) (rq : @Request Cmd) (st : CallStatus) : Prop :=
  match rq, st with
  | RqVote a, Answered (RsVote r) =>
      rvr_VoteGranted r = true →
      rvr_Term r = rv_Term a ∧ h_votes h !! (to, rv_Term a) = Some from
  | _, _ => True
  end.

Definition call_ok n h cl : Prop :=
  c_from cl ≠ c_to cl ∧ (c_to cl < n)%nat ∧ request_ok h (c_from cl) (c_to cl) (c_req cl) ∧
  response_ok h (c_from cl) (c_to cl) (c_req cl) (c_status cl).

Definition votes_unique cs : Prop := ∀ c1 c2 cl1 cl2 k,
  cs !! c1 = Some cl1 → cs !! c2 = Some cl2 →
  vote_key cl1 = Some k → vote_key cl2 = Some k → c1 = c2.

Definition calls_ok n h cs : Prop := (∀ cl, cl ∈ cs → call_ok n h cl) ∧ votes_unique cs.

Definition tlog_ok n h : Prop := ∀ T l tl, h_tlog h !! T = Some (l, tl) →
  valid (h_tlog h) tl ∧ h_votes h !! (l, T) = Some l ∧ ∃ Q, majority n Q ∧ votedAll h T l Q.

Record inv n s h : Prop := {
  inv_length : length (nodes s) = n;
  inv_nodes i nd : nodes s !! i = Some nd → node_ok n h (calls s) i nd (h_flog h i);
  inv_calls : calls_ok n h (calls s);
  inv_tlog : tlog_ok n h;
}.

(** ** Monotonicity *)

(** The history grows, and only peer [i]'s part of it does. *)
Record grows i h h' : Prop := {
  gr_votes : h_votes h ⊆ h_votes h';
  gr_votes_other j T : j ≠ i → h_votes h' !! (j, T) = h_votes h !! (j, T);
  gr_tlog : tlog_ext (h_tlog h) (h_tlog h');
  gr_tlog_other T l tl : l ≠ i → h_tlog h' !! T = Some (l, tl) ↔ h_tlog h !! T = Some (l, tl);
  gr_flog j : j ≠ i → h_flog h' j = h_flog h j;
}.

Definition counted_mono cs cs' : Prop := ∀ i v T, counted cs i v T → counted cs' i v T.

Lemma votedAll_mono h h' T i Q :
  h_votes h ⊆ h_votes h' → votedAll h T i Q → votedAll h' T i Q.
Proof. intros Hs H v Hv. eapply lookup_weaken; eauto. Qed.

Lemma election_ok_mono n h h' cs cs' i T el :
  h_votes h ⊆ h_votes h' → counted_mono cs cs' →
  election_ok n h cs i T el → election_ok n h' cs' i T el.
Proof.
  intros Hv Hc (Q & ? & ? & ? & ? & HQ). exists Q. split_and!; try done.
  - by eapply votedAll_mono.
  - intros v [->|?]%HQ; [by left|right; by apply Hc].
Qed.

Lemma node_ok_other n h h' cs cs' i j nd fl :
  grows i h h' → counted_mono cs cs' → j ≠ i →
  node_ok n h cs j nd fl → node_ok n h' cs' j nd fl.
Proof.
  intros Hg Hc Hj []. split; try done.
  - intros c. by rewrite (gr_votes_other _ _ _ Hg).
  - intros T c. rewrite (gr_votes_other _ _ _ Hg) by done. eauto.
  - by eapply valid_mono; [apply Hg|].
  - intros Hl. by apply (gr_tlog_other _ _ _ Hg); auto.
  - intros Hl l tl Ht ->. apply (gr_tlog_other _ _ _ Hg) in Ht; [|done]. by eapply nk_cand0.
  - intros T el Hel. eapply election_ok_mono; [apply Hg|exact Hc|eauto].
Qed.

Lemma node_ok_counted n h cs cs' i nd fl :
  counted_mono cs cs' → node_ok n h cs i nd fl → node_ok n h cs' i nd fl.
Proof.
  intros Hc []. split; try done. intros T el Hel. eapply election_ok_mono; eauto.
Qed.

Lemma call_ok_mono n i h h' cl : grows i h h' → call_ok n h cl → call_ok n h' cl.
Proof.
  intros Hg (Hne & Hto & Hrq & Hrs).
  assert (∀ k c, h_votes h !! k = Some c → h_votes h' !! k = Some c) as Hv.
  { intros k c Hk. eapply lookup_weaken; [exact Hk|apply Hg]. }
  split_and!; try done.
  - unfold request_ok in *. destruct (c_req cl) as [a|a|a].
    + destruct Hrq. eauto.
    + destruct Hrq as (pre & e & rest & Ht & ?).
      destruct (gr_tlog _ _ _ Hg _ _ _ Ht) as [ext Ht']. exists pre, e, (rest ++ ext).
      split; [|done]. by rewrite Ht', <-app_assoc, <-app_comm_cons, <-app_assoc.
    + destruct Hrq as (tl & m & e & Ht & ? & He & ?).
      destruct (gr_tlog _ _ _ Hg _ _ _ Ht) as [ext Ht']. exists (tl ++ ext), m, e.
      split_and!; try done. by apply lookup_app_l_Some.
  - unfold response_ok in *. destruct (c_req cl), (c_status cl) as [|[]|]; try done.
    intros Hgr. destruct (Hrs Hgr). eauto.
Qed.

(** Peer [i]'s log is now [fl]. *)
Definition with_flog i fl h : History :=
  mkHistory (h_votes h) (h_tlog h) (<[i := fl]> (h_flog h)).

Lemma grows_flog i h fl : grows i h (with_flog i fl h).
Proof. split; cbn; try done; [apply tlog_ext_refl|]. intros j ?. by rewrite fn_lookup_insert_ne. Qed.

(** The frame of every step: peer [i] moved, the history grew by its part. *)
Lemma inv_frame n s h h' i nd cs :
  inv n s h → grows i h h' → counted_mono (calls s) cs →
  node_ok n h' cs i nd (h_flog h' i) → calls_ok n h' cs → tlog_ok n h' →
  inv n (mkSys (<[i := nd]> (nodes s)) cs) h'.
Proof.
  intros [] Hg Hc Hnd Hcs Htl. split; cbn; try done.
  - by rewrite length_insert.
  - intros j nd' [(-> & -> & _)|[Hne Hj]]%list_lookup_insert_Some; [done|].
    rewrite (gr_flog _ _ _ Hg) by done. eapply node_ok_other; eauto.
Qed.

(** ** The calls *)

Lemma calls_ok_mono n i h h' cs : grows i h h' → calls_ok n h cs → calls_ok n h' cs.
Proof. intros Hg [H ?]. split; [|done]. intros cl Hcl. eapply call_ok_mono; eauto. Qed.

(** Changes of status and liveness leave requests alone. *)
Lemma votes_unique_eq cs cs' :
  vote_key <$> cs' = vote_key <$> cs → votes_unique cs → votes_unique cs'.
Proof.
  intros Heq H c1 c2 cl1 cl2 k H1 H2 K1 K2.
  assert (∀ c cl, cs' !! c = Some cl → vote_key cl = Some k →
            ∃ cl0, cs !! c = Some cl0 ∧ vote_key cl0 = Some k) as Hb.
  { intros c cl Hc Hk. assert ((vote_key <$> cs') !! c = Some (Some k)) as Hx.
    { by rewrite list_lookup_fmap, Hc, <-Hk. }
    rewrite Heq, list_lookup_fmap in Hx. destruct (cs !! c) as [cl0|]; [|done].
    exists cl0. split; [done|]. by injection Hx. }
  destruct (Hb _ _ H1 K1) as (? & ? & ?), (Hb _ _ H2 K2) as (? & ? & ?). eauto.
Qed.

Lemma calls_ok_status n h cs c cl st :
  calls_ok n h cs → cs !! c = Some cl →
  response_ok h (c_from cl) (c_to cl) (c_req cl) st →
  calls_ok n h (alter (with_status st) c cs).
Proof.
  intros [H Hu] Hc Hst. split.
  - intros cl' (k & Hk)%list_elem_of_lookup. destruct (decide (c = k)) as [<-|Hne].
    + rewrite list_lookup_alter_eq, Hc in Hk. injection Hk as <-.
      destruct (H cl) as (? & ? & ? & _); [by eapply list_elem_of_lookup_2|]. by split_and!.
    + rewrite list_lookup_alter_ne in Hk by done. apply H. by eapply list_elem_of_lookup_2.
  - eapply votes_unique_eq; [|exact Hu]. apply list_eq. intros k. rewrite !list_lookup_fmap.
    destruct (decide (c = k)) as [<-|Hne].
    + by rewrite list_lookup_alter_eq; destruct (cs !! c).
    + by rewrite list_lookup_alter_ne.
Qed.

Lemma counted_status cs c cl st :
  cs !! c = Some cl → c_status cl ≠ Finished → counted_mono cs (alter (with_status st) c cs).
Proof.
  intros Hc Hst i v T (cl' & (k & Hk)%list_elem_of_lookup & Hkey & Hfin).
  exists cl'. split_and!; try done. apply list_elem_of_lookup_2 with k.
  destruct (decide (c = k)) as [<-|]; [congruence|]. by rewrite list_lookup_alter_ne.
Qed.

Lemma calls_ok_app n h cs cs' :
  calls_ok n h cs → (∀ cl, cl ∈ cs' → call_ok n h cl) → votes_unique cs' →
  (∀ cl cl' k, cl ∈ cs → cl' ∈ cs' → vote_key cl = Some k → vote_key cl' = Some k → False) →
  calls_ok n h (cs ++ cs').
Proof.
  intros [H Hu] H' Hu' Hd. split.
  - intros cl [?|?]%elem_of_app; auto.
  - intros c1 c2 cl1 cl2 k [H1|[Hl1 H1]]%lookup_app_Some [H2|[Hl2 H2]]%lookup_app_Some K1 K2.
    + eauto.
    + exfalso. eapply Hd; eauto using list_elem_of_lookup_2.
    + exfalso. eapply Hd; eauto using list_elem_of_lookup_2.
    + assert (c1 - length cs = c2 - length cs)%nat by eauto. lia.
Qed.

Lemma calls_ok_snoc n h cs cl :
  calls_ok n h cs → call_ok n h cl → vote_key cl = None → calls_ok n h (cs ++ [cl]).
Proof.
  intros H Hcl Hk. apply calls_ok_app; [done| | |].
  - by intros ? ->%list_elem_of_singleton.
  - intros c1 c2 cl1 cl2 k [_ <-]%list_lookup_singleton_Some. congruence.
  - intros ? cl' k _ ->%list_elem_of_singleton. congruence.
Qed.

Lemma counted_app cs cs' : counted_mono cs (cs ++ cs').
Proof. intros i v T (cl & ? & ?). exists cl. split; [|done]. apply elem_of_app. by left. Qed.

Lemma counted_refl cs : counted_mono cs cs.
Proof. by intros ???. Qed.

Lemma calls_ok_orphan n h cs i : calls_ok n h cs → calls_ok n h (orphan i <$> cs).
Proof.
  intros [H Hu]. split.
  - intros cl (cl0 & -> & Hin)%list_elem_of_fmap. destruct (H _ Hin) as (?&?&?&?).
    unfold orphan. case_decide; by split_and!.
  - eapply votes_unique_eq; [|exact Hu]. rewrite <-list_fmap_compose. apply list_fmap_ext.
    intros k cl _. cbn. unfold orphan. by case_decide.
Qed.

Lemma counted_orphan cs i : counted_mono cs (orphan i <$> cs).
Proof.
  intros j v T (cl & Hin & ? & ?). exists (orphan i cl). split; [by apply list_elem_of_fmap_2|].
  unfold orphan. by case_decide.
Qed.

(** ** One peer moves without making history *)

Record moves rf rf' : Prop := {
  mv_npeers : npeers rf' = npeers rf;
  mv_me : me rf' = me rf;
  mv_durable : durable rf → durable rf';
  mv_term : (CurrentTerm rf' = CurrentTerm rf ∧ VotedFor rf' = VotedFor rf) ∨
            (CurrentTerm rf < CurrentTerm rf' ∧ VotedFor rf' = -1);
  mv_state : state rf' = follower ∨ (CurrentTerm rf' = CurrentTerm rf ∧ state rf' = state rf);
}.

Lemma node_ok_moves n h cs i nd nd' fl fl' :
  node_ok n h cs i nd fl → moves (nd_raft nd) (nd_raft nd') →
  nd_elections nd' ⊆ nd_elections nd →
  (∃ b, LastIncludedIndex (nd_raft nd') = Z.of_nat b ∧ log_rel (Log (nd_raft nd')) b fl') →
  valid (h_tlog h) fl' → (state (nd_raft nd') = leader → fl' = fl) →
  node_ok n h cs i nd' fl'.
Proof.
  intros [] [Hn Hm Hd Ht Hs] Hel Hlog Hv Hlead. split; try done; try congruence.
  - by apply Hd.
  - intros c. destruct Ht as [[-> ->]|[Hlt ->]]; [done|]. split; [|lia].
    intros H%nk_past0. lia.
  - intros T c H%nk_past0. lia.
  - intros Hl. rewrite (Hlead Hl). destruct Hs as [Hs|[-> Hs]]; [congruence|].
    apply nk_leader0. congruence.
  - intros Hl. destruct Hs as [Hs|[-> Hs]]; [congruence|]. apply nk_cand0. congruence.
  - intros T el H. eapply nk_elections0, lookup_weaken; eauto.
Qed.

Lemma inv_moves n s h i nd nd' fl' cs :
  inv n s h → nodes s !! i = Some nd → moves (nd_raft nd) (nd_raft nd') →
  nd_elections nd' ⊆ nd_elections nd →
  (∃ b, LastIncludedIndex (nd_raft nd') = Z.of_nat b ∧ log_rel (Log (nd_raft nd')) b fl') →
  valid (h_tlog h) fl' → (state (nd_raft nd') = leader → fl' = h_flog h i) →
  counted_mono (calls s) cs → calls_ok n h cs →
  inv n (mkSys (<[i := nd']> (nodes s)) cs) (with_flog i fl' h).
Proof.
  intros Hinv Hnd Hm Hel Hlog Hv Hlead Hc Hcs.
  pose proof (grows_flog i h fl') as Hg.
  apply (inv_frame n s h); try done.
  - cbn. rewrite fn_lookup_insert.
    assert (node_ok n h cs i nd' fl') as [].
    { eapply node_ok_moves; [|done..]. eapply node_ok_counted; [exact Hc|]. by apply Hinv. }
    by split.
  - by apply Hinv.
Qed.

Lemma inv_same_log n s h i nd nd' cs :
  inv n s h → nodes s !! i = Some nd → moves (nd_raft nd) (nd_raft nd') →
  nd_elections nd' ⊆ nd_elections nd →
  Log (nd_raft nd') = Log (nd_raft nd) →
  LastIncludedIndex (nd_raft nd') = LastIncludedIndex (nd_raft nd) →
  counted_mono (calls s) cs → calls_ok n h cs →
  inv n (mkSys (<[i := nd']> (nodes s)) cs) (with_flog i (h_flog h i) h).
Proof.
  intros Hinv Hnd Hm Hel Hl Hi Hc Hcs.
  destruct (inv_nodes _ _ _ Hinv _ _ Hnd). rewrite <-Hl, <-Hi in nk_log0.
  eapply inv_moves; eauto.
Qed.

Lemma keeps_moves rf rf' :
  keeps rf rf' → moves rf rf' ∧ Log rf' = Log rf ∧ LastIncludedIndex rf' = LastIncludedIndex rf.
Proof.
  intros (Hc & Hp & Hs). pose proof (durable_core _ _ Hc Hp). unfold core in Hc.
  injection Hc as Hn Hm Ht Hv Hl _ Hi. split; [split; auto|done].
Qed.

Lemma stepDown_moves now T rf :
  CurrentTerm rf < T → let rf' := becomeFollowerWithTerm now T rf in
  moves rf rf' ∧ Log rf' = Log rf ∧ LastIncludedIndex rf' = LastIncludedIndex rf.
Proof.
  intros Hlt. split; [|done]. split; cbn; try done; auto.
  intros _. apply persist_durable.
Qed.

(** ** The steps *)

(** A peer that takes its log from the leader of a term cannot be that leader. *)
Lemma not_own_leader n h cs i nd fl T l tl :
  node_ok n h cs i nd fl → h_tlog h !! T = Some (l, tl) → l ≠ i →
  CurrentTerm (nd_raft nd) = T → state (nd_raft nd) ≠ leader.
Proof. intros [] Ht Hne <- Hl. apply nk_leader0 in Hl. congruence. Qed.

Lemma append_moves now a rf rf' r :
  AppendEntries now a rf = Ret (rf', r) → moves rf rf'.
Proof.
  intros (? & ? & ? & ? & _ & Ht & Hv & Hs & _)%AppendEntries_spec. split; try done.
  - destruct (decide (CurrentTerm rf < ae_Term a)); [right|left]; split; try done; lia.
  - rewrite Ht, Hs. case_decide as Hd; [by left|right]. split; [|done].
    destruct (decide (CurrentTerm rf < ae_Term a)); [tauto|lia].
Qed.

Lemma deliver_append n s h now i nd rf a r from cs pre e rest :
  let tl := pre ++ e :: ae_Entries a ++ rest in
  inv n s h → nodes s !! i = Some nd → from ≠ i → h_tlog h !! ae_Term a = Some (from, tl) →
  ae_PrevLogIndex a = Z.of_nat (length pre) → ae_PrevLogTerm a = Term e →
  AppendEntries now a (nd_raft nd) = Ret (rf, r) →
  counted_mono (calls s) cs → calls_ok n h cs →
  ∃ fl', inv n (mkSys (<[i := set_raft rf nd]> (nodes s)) cs) (with_flog i fl' h) ∧
    if aer_Success r
    then CurrentTerm (nd_raft nd) ≤ ae_Term a ∧ follows tl (h_flog h i) fl' ∧
         agree (length pre + length (ae_Entries a)) fl' tl
    else fl' = h_flog h i.
Proof.
  cbn zeta. intros Hinv Hnd Hne Ht Hp HpT Hae Hc Hcs.
  pose proof (append_moves _ _ _ _ _ Hae) as Hm.
  pose proof (inv_nodes _ _ _ Hinv _ _ Hnd) as Hok.
  apply AppendEntries_spec in Hae as (_ & _ & Hli & _ & _ & _ & _ & Hs & Hlog).
  destruct (aer_Success r).
  - destruct Hlog as [Hle Hmg]. destruct (nk_log _ _ _ _ _ _ Hok) as (b & Hb & Hr).
    rewrite Hb in Hmg. destruct (inv_tlog _ _ _ Hinv _ _ _ Ht) as [Htv _].
    destruct (merged_valid _ _ _ _ _ _ _ _ _ (nk_valid _ _ _ _ _ _ Hok) Hr Hmg Htv Hp HpT)
      as (fl' & Hv' & Hr' & Hfo & Hag).
    exists fl'. split; [|done]. eapply inv_moves; try done.
    + exists b. cbn. by rewrite Hli.
    + cbn. rewrite Hs. case_decide as Hd; [done|]. intros Hlead. exfalso.
      eapply not_own_leader; [exact Hok|exact Ht|done| |done].
      destruct (decide (CurrentTerm (nd_raft nd) < ae_Term a)); [tauto|lia].
  - exists (h_flog h i). split; [|done]. by eapply inv_same_log.
Qed.

Lemma snap_moves now a rf rf' r :
  InstallSnapshot now a rf = Ret (rf', r) → moves rf rf'.
Proof.
  intros (? & ? & ? & _ & Ht & Hv & Hs & _)%InstallSnapshot_spec. split; try done.
  - destruct (decide (CurrentTerm rf < is_Term a)); [right|left]; split; try done; lia.
  - rewrite Ht, Hs. case_decide as Hd; [by left|right]. split; [lia|done].
Qed.

Lemma deliver_snap n s h now i nd rf a r from cs tl (m : nat) e :
  inv n s h → nodes s !! i = Some nd → from ≠ i → h_tlog h !! is_Term a = Some (from, tl) →
  is_LastIncludedIndex a = Z.of_nat m → tl !! m = Some e → Term e = is_LastIncludedTerm a →
  InstallSnapshot now a (nd_raft nd) = Ret (rf, r) →
  counted_mono (calls s) cs → calls_ok n h cs →
  ∃ fl', inv n (mkSys (<[i := set_raft rf nd]> (nodes s)) cs) (with_flog i fl' h) ∧
    ((fl' = h_flog h i ∧ LastIncludedIndex rf = LastIncludedIndex (nd_raft nd)) ∨
     (CurrentTerm (nd_raft nd) ≤ is_Term a ∧
      LastIncludedIndex (nd_raft nd) < is_LastIncludedIndex a ∧
      LastIncludedIndex rf = is_LastIncludedIndex a ∧
      follows tl (h_flog h i) fl' ∧ agree m fl' tl)).
Proof.
  intros Hinv Hnd Hne Ht HI He HeT His Hc Hcs.
  pose proof (snap_moves _ _ _ _ _ His) as Hm.
  pose proof (inv_nodes _ _ _ Hinv _ _ Hnd) as Hok.
  apply InstallSnapshot_spec in His as (_ & _ & _ & _ & _ & _ & Hs & [[Hlog Hli]|Hlog]).
  { exists (h_flog h i). split; [by eapply inv_same_log|by left]. }
  destruct Hlog as (Hle & Hlt & Hli & Hrb). destruct (nk_log _ _ _ _ _ _ Hok) as (b & Hb & Hr).
  rewrite Hb in Hrb, Hlt |- *. destruct (inv_tlog _ _ _ Hinv _ _ _ Ht) as [Htv _].
  destruct (rebased_valid _ _ _ _ _ _ _ _ m (nk_valid _ _ _ _ _ _ Hok) Hr Hrb Htv HI
              ltac:(lia) He HeT) as (fl' & Hv' & Hr' & Hfo & Hag).
  exists fl'. split; [|by right]. eapply inv_moves; try done.
  - exists m. cbn. by rewrite Hli.
  - cbn. rewrite Hs. case_decide as Hd; [done|]. intros Hlead. exfalso.
    eapply not_own_leader; [exact Hok|exact Ht|done|lia|done].
Qed.

(** A vote that is new, or repeated. *)
Definition with_vote i T (c : nat) h : History :=
  mkHistory (<[(i, T) := c]> (h_votes h)) (h_tlog h) (h_flog h).

Lemma grows_vote i T (c : nat) h :
  (∀ c', h_votes h !! (i, T) = Some c' → c' = c) → grows i h (with_vote i T c h).
Proof.
  intros Hold. split; cbn; try done.
  - apply map_subseteq_spec. intros k c' Hk. destruct (decide (k = (i, T))) as [->|Hne].
    + rewrite lookup_insert_eq. f_equal. symmetry. by apply Hold.
    + by rewrite lookup_insert_ne.
  - intros j T' Hj. apply lookup_insert_ne. congruence.
  - apply tlog_ext_refl.
Qed.

Lemma tlog_ok_votes n i h h' :
  grows i h h' → h_tlog h' = h_tlog h → tlog_ok n h → tlog_ok n h'.
Proof.
  intros Hg Heq H T l tl. rewrite Heq. intros (? & Hl & Q & ? & ?)%H. split_and!; [done| |].
  - eapply lookup_weaken; [exact Hl|apply Hg].
  - exists Q. split; [done|]. by eapply votedAll_mono; [apply Hg|].
Qed.

(** The vote that a peer records is consistent with what it recorded before. *)
Lemma vote_free n h cs i nd fl T (c : nat) :
  node_ok n h cs i nd fl → CurrentTerm (nd_raft nd) ≤ T →
  CurrentTerm (nd_raft nd) < T ∨ VotedFor (nd_raft nd) = Z.of_nat c ∨ VotedFor (nd_raft nd) = -1 →
  ∀ c', h_votes h !! (i, T) = Some c' → c' = c.
Proof.
  intros [] Hle Hfree c' Hc'. pose proof (nk_past0 _ _ Hc').
  assert (T = CurrentTerm (nd_raft nd)) as -> by lia. apply nk_vote0 in Hc'. lia.
Qed.

Lemma node_ok_votes n h cs i nd nd' fl T (c : nat) :
  node_ok n h cs i nd fl → grows i h (with_vote i T c h) →
  npeers (nd_raft nd') = npeers (nd_raft nd) → me (nd_raft nd') = me (nd_raft nd) →
  Log (nd_raft nd') = Log (nd_raft nd) →
  LastIncludedIndex (nd_raft nd') = LastIncludedIndex (nd_raft nd) →
  durable (nd_raft nd') → CurrentTerm (nd_raft nd) ≤ T → CurrentTerm (nd_raft nd') = T →
  VotedFor (nd_raft nd') = Z.of_nat c → state (nd_raft nd') ≠ leader →
  (state (nd_raft nd') = candidate → CurrentTerm (nd_raft nd) < T ∧ c = i) →
  (∀ T' el, nd_elections nd' !! T' = Some el →
     nd_elections nd !! T' = Some el ∨ (T' = T ∧ c = i ∧ el = newElection)) →
  tlog_ok n h → (i < n)%nat →
  node_ok n (with_vote i T c h) cs i nd' fl.
Proof.
  intros [] Hg Hn Hm Hl Hi Hd Hle <- Hv Hs Hcand Hel Htl Hin.
  split; cbn; try done; try congruence.
  - intros c'. rewrite lookup_insert_eq, Hv. split; [intros [= <-]; done|].
    intros ?. f_equal. lia.
  - intros T c'. rewrite lookup_insert_Some. intros [[[= <-] _]|[_ H]]; [done|].
    apply nk_past0 in H. lia.
  - destruct nk_log0 as (b & ? & ?). exists b. by rewrite Hl, Hi.
  - intros Hc l tl Ht ->. destruct (Hcand Hc) as [Hlt ->].
    apply Htl in Ht as (_ & Hvote & _). apply nk_past0 in Hvote. lia.
  - intros T' el [H|(-> & -> & ->)]%Hel.
    + eapply election_ok_mono; [apply Hg|apply counted_refl|eauto].
    + exists {[i]}. rewrite size_singleton. split_and!; try done; [set_solver|..].
      * intros v ->%elem_of_singleton. apply lookup_insert_eq.
      * by intros v ->%elem_of_singleton.
      * intros v ->%elem_of_singleton. by left.
Qed.

Lemma deliver_vote n s h now c cl nd rf a r :
  inv n s h → calls s !! c = Some cl → c_req cl = RqVote a → c_status cl = Pending →
  nodes s !! c_to cl = Some nd → RequestVote now a (nd_raft nd) = Ret (rf, r) →
  inv n (mkSys (<[c_to cl := set_raft rf nd]> (nodes s))
               (alter (with_status (Answered (RsVote r))) c (calls s)))
    (if rvr_VoteGranted r then with_vote (c_to cl) (rv_Term a) (c_from cl) h
     else with_flog (c_to cl) (h_flog h (c_to cl)) h).
Proof.
  intros Hinv Hc Hrq Hst Hnd Hrv.
  pose proof (inv_nodes _ _ _ Hinv _ _ Hnd) as Hok.
  destruct (inv_calls _ _ _ Hinv) as [Hcalls _].
  destruct (Hcalls cl) as (Hne & Hto & Hreq & _); [by eapply list_elem_of_lookup_2|].
  rewrite Hrq in Hreq. destruct Hreq as [Hcand Hself].
  assert (∀ st, counted_mono (calls s) (alter (with_status st) c (calls s))) as Hmono.
  { intros st. eapply counted_status; [done|]. by rewrite Hst. }
  apply RequestVote_spec in Hrv as (Hn & Hm & Hl & Hi & Hd & Ht & Hr).
  destruct (rvr_VoteGranted r) eqn:Hg.
  - destruct Hr as (Ht' & Hrt & Hv & Hs & Hfree & _). rewrite Hcand in *.
    assert (CurrentTerm (nd_raft nd) ≤ rv_Term a) as Hle by lia.
    pose proof (grows_vote _ _ _ _ (vote_free _ _ _ _ _ _ _ _ Hok Hle Hfree)) as Hgr.
    apply (inv_frame n s h); try done.
    + eapply node_ok_counted; [apply Hmono|].
      eapply node_ok_votes; try done; [by apply Hd, Hok|by cbn; rewrite Hs..|by auto|by apply Hinv].
    + eapply calls_ok_status; [by eapply calls_ok_mono; [exact Hgr|apply Hinv]|done|].
      rewrite Hrq. intros _. split; [done|]. apply lookup_insert_eq.
    + eapply tlog_ok_votes; [exact Hgr|done|]. by apply Hinv.
  - destruct Hr as [Hv Hs]. eapply inv_same_log; try done.
    + split; try done; cbn.
      * destruct (decide (CurrentTerm (nd_raft nd) < rv_Term a)); [right|left]; split; try done; lia.
      * destruct (decide (CurrentTerm (nd_raft nd) < rv_Term a)); [by left|right]. split; [lia|done].
    + eapply calls_ok_status; [by apply Hinv|done|]. rewrite Hrq. cbn. by rewrite Hg.
Qed.

Lemma deliver_inv n s h c now s' :
  inv n s h → deliver c now s = Some s' → ∃ h', inv n s' h'.
Proof.
  intros Hinv (cl & nd & rf & r & Hc & Hst & Hnd & Hrun & ->)%deliver_Some.
  destruct (inv_calls _ _ _ Hinv) as [Hcalls _].
  destruct (Hcalls cl) as (Hne & _ & Hreq & _); [by eapply list_elem_of_lookup_2|].
  assert (counted_mono (calls s) (alter (with_status (Answered r)) c (calls s))) as Hmono.
  { eapply counted_status; [done|]. by rewrite Hst. }
  assert (vote_key cl = None → calls_ok n h (alter (with_status (Answered r)) c (calls s))) as Hok.
  { intros Hk. eapply calls_ok_status; [by apply Hinv|done|]. unfold vote_key in Hk.
    by destruct (c_req cl). }
  unfold vote_key in Hok. destruct (c_req cl) as [a|a|a] eqn:Hrq; cbn in Hrun;
    apply bind_ret_inv in Hrun as ([rf1 r1] & Hrun & [= <- <-]).
  - eexists. by eapply deliver_vote.
  - destruct Hreq as (pre & e & rest & Ht & Hp & HpT).
    destruct (deliver_append n s h now (c_to cl) nd rf1 a r1 (c_from cl) _ pre e rest Hinv Hnd Hne
                Ht Hp HpT Hrun Hmono (Hok eq_refl)) as (fl' & ? & _). by eexists.
  - destruct Hreq as (tl & m & e & Ht & HI & He & HeT).
    destruct (deliver_snap n s h now (c_to cl) nd rf1 a r1 (c_from cl) _ tl m e Hinv Hnd Hne
                Ht HI He HeT Hrun Hmono (Hok eq_refl)) as (fl' & ? & _). by eexists.
Qed.

Lemma voteCalls_elem n i a cl :
  cl ∈ voteCalls n i a → ∃ j, cl = mkCall i j (RqVote a) Pending true ∧ j ≠ i ∧ (j < n)%nat.
Proof.
  intros (j & -> & [? Hj%elem_of_seq]%list_elem_of_filter)%list_elem_of_fmap. exists j.
  split_and!; [done..|lia].
Qed.

Lemma voteCalls_unique n i a : votes_unique (voteCalls n i a).
Proof.
  intros c1 c2 cl1 cl2 k. unfold voteCalls. rewrite !list_lookup_fmap.
  intros (j1 & H1 & ->)%fmap_Some (j2 & H2 & ->)%fmap_Some. cbn. intros [= <-] [= ->].
  eapply NoDup_lookup; [|exact H1|exact H2]. apply NoDup_filter, NoDup_seq.
Qed.

Lemma elect_inv n s h i nd now rf args :
  inv n s h → nodes s !! i = Some nd → startElection now (nd_raft nd) = Ret (rf, args) →
  inv n (mkSys (<[i := mkNode rf (<[rv_Term args := newElection]> (nd_elections nd))
                         (nd_inflight nd)]> (nodes s)) (calls s ++ voteCalls n i args))
    (with_vote i (rv_Term args) i h).
Proof.
  intros Hinv Hnd Hrun.
  pose proof (inv_nodes _ _ _ Hinv _ _ Hnd) as Hok.
  apply startElection_spec in Hrun as (Hn & Hm & Hl & Hi & Hd & Ht & Hv & Hs & Hat & Hac).
  rewrite (nk_me _ _ _ _ _ _ Hok) in Hv, Hac. rewrite <-Hat in Ht.
  assert (∀ c', h_votes h !! (i, rv_Term args) = Some c' → False) as Hnew.
  { intros c' Hc'%(nk_past _ _ _ _ _ _ Hok). lia. }
  assert (grows i h (with_vote i (rv_Term args) i h)) as Hgr.
  { apply grows_vote. intros c' Hc'. by apply Hnew in Hc'. }
  assert (i < n)%nat as Hin.
  { rewrite <-(inv_length _ _ _ Hinv). by eapply lookup_lt_Some. }
  apply (inv_frame n s h); try done.
  - apply counted_app.
  - eapply node_ok_counted; [apply counted_app|].
    eapply node_ok_votes; try done; cbn; try lia; [by rewrite Hs| |by apply Hinv].
    + intros T' el [[<- <-]|[_ ?]]%lookup_insert_Some; auto.
  - apply calls_ok_app.
    + eapply calls_ok_mono; [exact Hgr|apply Hinv].
    + intros cl (j & -> & Hj & Hjn)%voteCalls_elem. split_and!; cbn; try done.
      split; [done|]. apply lookup_insert_eq.
    + apply voteCalls_unique.
    + intros cl cl' k Hcl (j & -> & _)%voteCalls_elem Hk [= <-]. unfold vote_key in Hk.
      destruct (inv_calls _ _ _ Hinv) as [Hcalls _]. destruct (Hcalls _ Hcl) as (_ & _ & Hrq & _).
      destruct (c_req cl) as [a|a|a]; try done. injection Hk as Hf Hto HT.
      destruct Hrq as [_ Hrq]. rewrite Hf, HT in Hrq. by apply Hnew in Hrq.
  - eapply tlog_ok_votes; [exact Hgr|done|]. by apply Hinv.
Qed.

(** The leader [i] of term [T] now has the log [fl]. *)
Definition with_tlog i T fl h : History :=
  mkHistory (h_votes h) (<[T := (i, fl)]> (h_tlog h)) (<[i := fl]> (h_flog h)).

Lemma grows_tlog i T fl h :
  (∀ l tl, h_tlog h !! T = Some (l, tl) → l = i ∧ ∃ ext, fl = tl ++ ext) →
  grows i h (with_tlog i T fl h).
Proof.
  intros Hold. split; cbn; try done.
  - intros T' l tl Ht. destruct (decide (T' = T)) as [->|Hne].
    + destruct (Hold _ _ Ht) as (-> & ext & ->). exists ext. apply lookup_insert_eq.
    + exists []. by rewrite lookup_insert_ne, app_nil_r.
  - intros T' l tl Hl. destruct (decide (T' = T)) as [->|Hne].
    + rewrite lookup_insert_eq. split; [congruence|]. intros Ht. by destruct (Hold _ _ Ht).
    + by rewrite lookup_insert_ne.
  - intros j Hj. by rewrite fn_lookup_insert_ne.
Qed.

Lemma tlog_ok_insert n i T fl h :
  grows i h (with_tlog i T fl h) → tlog_ok n h →
  valid (<[T := (i, fl)]> (h_tlog h)) fl → h_votes h !! (i, T) = Some i →
  (∃ Q, majority n Q ∧ votedAll h T i Q) → tlog_ok n (with_tlog i T fl h).
Proof.
  intros Hg H Hv Hi HQ T' l tl. cbn. rewrite lookup_insert_Some.
  intros [[<- [= <- <-]]|[Hne (? & ? & ?)%H]]; [by split_and!|]. split_and!; try done.
  eapply valid_mono; [apply Hg|done].
Qed.

Lemma client_inv n s h i nd cmd rf r :
  inv n s h → nodes s !! i = Some nd → Start cmd (nd_raft nd) = (rf, r) →
  inv n (mkSys (<[i := set_raft rf nd]> (nodes s)) (calls s))
    (if decide (state (nd_raft nd) = leader)
     then with_tlog i (CurrentTerm (nd_raft nd))
            (h_flog h i ++ [mkEntry (CurrentTerm (nd_raft nd)) (Some cmd)]) h
     else with_flog i (h_flog h i) h).
Proof.
  intros Hinv Hnd Hst. pose proof (inv_nodes _ _ _ Hinv _ _ Hnd) as Hok.
  apply Start_spec in Hst as (Hn & Hm & Ht & Hv & Hs & Hi & Hd & [(Hlead & Hl & _)|(Hlead & -> & _)]).
  2: { rewrite decide_False by done.
       eapply inv_same_log; try done; [|apply counted_refl|by apply Hinv].
       split; auto. }
  rewrite decide_True by done.
  set (fl := h_flog h i ++ [mkEntry (CurrentTerm (nd_raft nd)) (Some cmd)]).
  pose proof (nk_leader _ _ _ _ _ _ Hok Hlead) as Htl.
  set (T := CurrentTerm (nd_raft nd)) in *.
  assert (grows i h (with_tlog i T fl h)) as Hgr.
  { apply grows_tlog. intros l tl Hlt. rewrite Htl in Hlt. injection Hlt as <- <-. eauto. }
  assert (valid (<[T := (i, fl)]> (h_tlog h)) fl) as Hvalid.
  { apply (valid_snoc _ i); [|apply lookup_insert_eq].
    eapply valid_mono; [apply Hgr|apply Hok]. }
  apply (inv_frame n s h); try done; [| |by eapply calls_ok_mono; [|apply Hinv]|].
  - apply counted_refl.
  - cbn. rewrite fn_lookup_insert. destruct Hok. split; cbn; try done; try congruence.
    + by apply Hd.
    + intros c. rewrite Ht, Hv. apply nk_vote0.
    + intros T' c. rewrite Ht. apply nk_past0.
    + destruct nk_log0 as (b & Hb & Hr). exists b. split; [congruence|]. rewrite Hl.
      by apply log_rel_app.
    + intros _. rewrite Ht. apply lookup_insert_eq.
  - destruct (inv_tlog _ _ _ Hinv _ _ _ Htl) as (_ & ? & ?). apply tlog_ok_insert; try done.
    by apply Hinv.
Qed.

Lemma inv_add_call n s h cl :
  inv n s h → call_ok n h cl → vote_key cl = None → inv n (add_calls [cl] s) h.
Proof.
  intros Hinv Hcl Hk. split; cbn; try apply Hinv.
  - intros i nd Hnd. eapply node_ok_counted; [apply counted_app|]. by apply Hinv.
  - apply calls_ok_snoc; try done. by apply Hinv.
Qed.

Lemma replicate_inv n s h i j s' :
  inv n s h → replicateTo i j s = Some s' → inv n s' h.
Proof.
  intros Hinv (Hne & Hj & nd & out & Hnd & Hrun%send_spec & ->)%replicateTo_Some.
  rewrite (inv_length _ _ _ Hinv) in Hj.
  destruct (inv_nodes _ _ _ Hinv _ _ Hnd). destruct nk_log0 as (b & Hb & Hr).
  destruct out as [|a|a]; [done| |].
  - destruct Hrun as (Hl & HT & _ & HI & _ & e & He & HeT).
    apply inv_add_call; [done| |done]. split_and!; cbn; try done.
    destruct (log_rel_lookup _ _ _ _ _ Hr He) as (e' & He' & HeT').
    exists (h_flog h i), b, e'. rewrite HT, HI, HeT. rewrite Nat.add_0_r in He'.
    split_and!; try done. by apply nk_leader0.
  - destruct Hrun as (Hl & HT & _ & Hlo & _ & (e & He & HeT) & Hes).
    apply inv_add_call; [done| |done]. split_and!; cbn; try done.
    destruct (log_rel_lookup _ _ _ _ _ Hr He) as (e' & He' & HeT').
    rewrite (log_rel_drop _ _ _ _ Hr) in Hes. rewrite Hb in *.
    set (k := Z.to_nat (ae_PrevLogIndex a - Z.of_nat b)) in *.
    pose proof (lookup_lt_Some _ _ _ He').
    exists (take (b + k) (h_flog h i)), e', []. rewrite HT, HeT, Hes, app_nil_r.
    rewrite length_take. split_and!; try done; [|lia].
    rewrite (nk_leader0 Hl). do 2 f_equal.
    rewrite <-(take_drop (b + k) (h_flog h i)) at 1. f_equal.
    rewrite (drop_S _ _ _ He'). do 2 f_equal. lia.
Qed.

Lemma election_count n h cs c cl i v T r el el' :
  calls_ok n h cs → cs !! c = Some cl → vote_key cl = Some (i, v, T) →
  c_status cl = Answered (RsVote r) → rvr_VoteGranted r = true →
  election_ok n h cs i T el → voteCount el' = voteCount el + 1 →
  election_ok n h (alter (with_status Finished) c cs) i T el'.
Proof.
  intros [Hcalls Hu] Hc Hk Hst Hgr (Q & Hsize & Hi & Hvoted & Hbound & Hcount) Hel'.
  destruct (Hcalls cl) as (Hne & Hto & _ & Hrs); [by eapply list_elem_of_lookup_2|].
  assert (v ≠ i ∧ (v < n)%nat ∧ h_votes h !! (v, T) = Some i) as (Hvi & Hvn & Hv).
  { unfold vote_key in Hk. destruct (c_req cl) as [a|a|a]; try done. rewrite Hst in Hrs.
    injection Hk as <- <- <-. destruct (Hrs Hgr). auto. }
  assert (v ∉ Q) as HvQ.
  { intros [?|(cl' & (c' & Hc')%list_elem_of_lookup & Hk' & Hst')]%Hcount; [done|].
    assert (c = c') as <- by (by eapply Hu). congruence. }
  assert (counted_mono cs (alter (with_status Finished) c cs)) as Hmono.
  { eapply counted_status; [done|]. by rewrite Hst. }
  exists ({[v]} ∪ Q). split_and!.
  - rewrite size_union by set_solver. rewrite size_singleton. lia.
  - set_solver.
  - intros u [->%elem_of_singleton|?]%elem_of_union; [done|by apply Hvoted].
  - intros u [->%elem_of_singleton|?]%elem_of_union; [done|by apply Hbound].
  - intros u [->%elem_of_singleton|Hu']%elem_of_union.
    + right. exists (with_status Finished cl). split_and!; try done.
      apply list_elem_of_lookup_2 with c. by rewrite list_lookup_alter_eq, Hc.
    + destruct (Hcount u Hu'); [by left|right; by apply Hmono].
Qed.

(** Two candidates cannot both have a majority. *)
Lemma votes_one_winner n h T i j P Q :
  majority n P → majority n Q → votedAll h T i P → votedAll h T j Q → i = j.
Proof.
  intros [HP1 HP2] [HQ1 HQ2] HPi HQj.
  rewrite Z.quot_div_nonneg in HP2, HQ2 by lia.
  destruct (majorities_meet (Z.of_nat n) P Q) as (v & HvP & HvQ); [|lia|done..|].
  - intros v [?|?]%elem_of_union; rewrite Nat2Z.id; auto.
  - apply HPi in HvP. apply HQj in HvQ. congruence.
Qed.

(** The candidate with a majority becomes the leader of its term. *)
Lemma win_inv n s h i nd nd' cs Q :
  inv n s h → nodes s !! i = Some nd → calls_ok n h cs → counted_mono (calls s) cs →
  npeers (nd_raft nd') = npeers (nd_raft nd) → me (nd_raft nd') = me (nd_raft nd) →
  Log (nd_raft nd') = Log (nd_raft nd) →
  LastIncludedIndex (nd_raft nd') = LastIncludedIndex (nd_raft nd) →
  (durable (nd_raft nd) → durable (nd_raft nd')) →
  CurrentTerm (nd_raft nd') = CurrentTerm (nd_raft nd) →
  VotedFor (nd_raft nd') = VotedFor (nd_raft nd) →
  state (nd_raft nd) = candidate → state (nd_raft nd') = leader →
  majority n Q → votedAll h (CurrentTerm (nd_raft nd)) i Q → i ∈ Q →
  (∀ T el, nd_elections nd' !! T = Some el → election_ok n h cs i T el) →
  h_tlog h !! CurrentTerm (nd_raft nd) = None ∧
  inv n (mkSys (<[i := nd']> (nodes s)) cs)
    (with_tlog i (CurrentTerm (nd_raft nd)) (h_flog h i) h).
Proof.
  intros Hinv Hnd Hcs Hmono Hn Hm Hl Hi Hd Ht Hv Hcand Hs HQ Hvoted HiQ Hel.
  destruct (inv_nodes _ _ _ Hinv _ _ Hnd).
  set (T := CurrentTerm (nd_raft nd)) in *.
  assert (h_tlog h !! T = None) as Hnew.
  { destruct (h_tlog h !! T) as [[l tl]|] eqn:E; [|done]. exfalso.
    apply (nk_cand0 Hcand l tl); [done|].
    destruct (inv_tlog _ _ _ Hinv _ _ _ E) as (_ & _ & P & HP & HvP).
    exact (votes_one_winner n h T l i P Q HP HQ HvP Hvoted). }
  assert (grows i h (with_tlog i T (h_flog h i) h)) as Hgr.
  { apply grows_tlog. intros l tl. congruence. }
  split; [done|].
  apply (inv_frame n s h); try done; [|by eapply calls_ok_mono|].
  - cbn. rewrite fn_lookup_insert. split; cbn; try done; try congruence.
    + by apply Hd.
    + intros c. rewrite Ht, Hv. apply nk_vote0.
    + intros T' c. rewrite Ht. apply nk_past0.
    + rewrite Hl, Hi. done.
    + eapply valid_mono; [apply Hgr|done].
    + intros _. rewrite Ht. apply lookup_insert_eq.
  - apply tlog_ok_insert; [done|by apply Hinv| | |by eauto].
    + eapply valid_mono; [apply Hgr|done].
    + by apply Hvoted.
Qed.

Lemma reply_vote n s h now c cl nd a r el el' rf :
  inv n s h → calls s !! c = Some cl → c_req cl = RqVote a → c_status cl = Answered (RsVote r) →
  nodes s !! c_from cl = Some nd → nd_elections nd !! rv_Term a = Some el →
  handleVote now r el (nd_raft nd) = (el', rf) →
  let i := c_from cl in let T := CurrentTerm (nd_raft nd) in
  let s' := mkSys (<[i := mkNode rf (<[rv_Term a := el']> (nd_elections nd)) (nd_inflight nd)]>
                     (nodes s)) (alter (with_status Finished) c (calls s)) in
  (state rf ≠ leader ∨ (state (nd_raft nd) = leader ∧ CurrentTerm rf = T)) ∧
    inv n s' (with_flog i (h_flog h i) h) ∨
  (state (nd_raft nd) = candidate ∧ state rf = leader ∧ CurrentTerm rf = T ∧
   h_tlog h !! T = None ∧ (∃ Q, majority n Q ∧ votedAll h T i Q) ∧
   inv n s' (with_tlog i T (h_flog h i) h)).
Proof.
  cbn zeta. intros Hinv Hc Hrq Hst Hnd Hel Hhv.
  pose proof (inv_nodes _ _ _ Hinv _ _ Hnd) as Hok.
  assert (counted_mono (calls s) (alter (with_status Finished) c (calls s))) as Hmono.
  { eapply counted_status; [done|]. by rewrite Hst. }
  assert (calls_ok n h (alter (with_status Finished) c (calls s))) as Hcs.
  { eapply calls_ok_status; [by apply Hinv|done|]. by rewrite Hrq. }
  assert (rvr_VoteGranted r = true → voteCount el' = voteCount el + 1 →
    ∀ T el0, <[rv_Term a := el']> (nd_elections nd) !! T = Some el0 →
      election_ok n h (alter (with_status Finished) c (calls s)) (c_from cl) T el0) as Hcount.
  { intros Hgr Hone T el0 [[<- <-]|[_ H]]%lookup_insert_Some.
    - eapply election_count; [by apply Hinv|done| |done|done|by eapply nk_elections|done].
      unfold vote_key. by rewrite Hrq.
    - eapply election_ok_mono; [reflexivity|exact Hmono|by eapply nk_elections]. }
  assert (rvr_VoteGranted r = true → rvr_Term r = rv_Term a) as Hterm.
  { destruct (inv_calls _ _ _ Hinv) as [Hcalls _].
    destruct (Hcalls cl) as (_ & _ & _ & Hrs); [by eapply list_elem_of_lookup_2|].
    rewrite Hrq, Hst in Hrs. intros Hgr. by apply Hrs. }
  apply handleVote_spec in Hhv as (Hn & Hm & Hl & Hi & Hd & [Hdown|[Hsame|Hwin]]).
  - left. destruct Hdown as (Hlt & Hv & Hs & ->). rewrite insert_id by done.
    split; [left; by rewrite Hs|]. eapply inv_same_log; try done. split; cbn; auto.
  - left. destruct Hsame as (Ht & Hv & Hs & Hsame).
    split; [rewrite Hs; destruct (state (nd_raft nd)); auto|].
    destruct Hsame as [->|(Hgr & _ & Hone)].
    + rewrite insert_id by done. eapply inv_same_log; try done. split; cbn; auto.
    + apply (inv_frame n s h); try done; [apply grows_flog| |by apply Hinv].
      eapply node_ok_counted in Hok; [|exact Hmono]. destruct Hok.
      cbn. rewrite fn_lookup_insert. split; cbn; try done; rewrite ?Ht, ?Hv, ?Hs, ?Hl, ?Hi; try done; try congruence; auto.
      exact (Hcount Hgr Hone).
  - right. destruct Hwin as (Ht & Hv & Hcand & Hs & Hgr & HrT & Hone & Hmaj).
    specialize (Hcount Hgr Hone). specialize (Hterm Hgr).
    destruct (Hcount (rv_Term a) el') as (Q & HQ & HiQ & Hvoted & Hb & _); [apply lookup_insert_eq|].
    rewrite (nk_npeers _ _ _ _ _ _ Hok), HQ in Hmaj.
    rewrite <-Hterm, HrT in Hvoted.
    destruct (win_inv n s h (c_from cl) nd
      (mkNode rf (<[rv_Term a := el']> (nd_elections nd)) (nd_inflight nd))
      (alter (with_status Finished) c (calls s)) Q) as [Hnone Hinv']; try done.
    split_and!; try done. by exists Q.
Qed.

Lemma reply_inv n s h c now s' :
  inv n s h → replyTo c now s = Some s' → ∃ h', inv n s' h'.
Proof.
  intros Hinv (cl & nd & nd' & r & Hc & Hst & _ & Hnd & Hh & ->)%replyTo_Some.
  assert (counted_mono (calls s) (alter (with_status Finished) c (calls s))) as Hmono.
  { eapply counted_status; [done|]. by rewrite Hst. }
  assert (calls_ok n h (alter (with_status Finished) c (calls s))) as Hcs.
  { eapply calls_ok_status; [by apply Hinv|done|]. by destruct (c_req cl). }
  assert (∀ rf, moves (nd_raft nd) rf ∧ Log rf = Log (nd_raft nd) ∧
                LastIncludedIndex rf = LastIncludedIndex (nd_raft nd) → nd' = set_raft rf nd →
    ∃ h', inv n (mkSys (<[c_from cl := nd']> (nodes s))
                       (alter (with_status Finished) c (calls s))) h') as Hquiet.
  { intros rf (? & ? & ?) ->. eexists. by eapply inv_same_log. }
  unfold handleResponse in Hh. destruct (c_req cl) as [a|a|a] eqn:Hrq, r as [r|r|r]; try done.
  - apply bind_Some in Hh as (el & Hel & Hh).
    destruct (handleVote now r el (nd_raft nd)) as [el' rf] eqn:Hhv. injection Hh as <-.
    destruct (reply_vote n s h now c cl nd a r el el' rf) as [[_ ?]|(_ & _ & _ & _ & _ & ?)];
      try done; by eexists.
  - apply bind_Some in Hh as (rf & Hrun%ok_Some & [= <-]). apply (Hquiet rf); [|done].
    apply onEntriesReply_spec in Hrun as [[Hlt ->]|Hk]; [by apply stepDown_moves|by apply keeps_moves].
  - apply bind_Some in Hh as (rf & Hrun%ok_Some & [= <-]). apply (Hquiet rf); [|done].
    apply onSnapshotReply_spec in Hrun as [[Hlt ->]|Hk]; [by apply stepDown_moves|by apply keeps_moves].
Qed.

Lemma keeps_inv n s h i nd nd' :
  inv n s h → nodes s !! i = Some nd → keeps (nd_raft nd) (nd_raft nd') →
  nd_elections nd' = nd_elections nd →
  inv n (mkSys (<[i := nd']> (nodes s)) (calls s)) (with_flog i (h_flog h i) h).
Proof.
  intros Hinv Hnd (Hm & Hl & Hi)%keeps_moves Hel.
  eapply inv_same_log; try done; [by rewrite Hel|apply counted_refl|by apply Hinv].
Qed.

Lemma snapshot_inv n s h i nd idx data rf :
  inv n s h → nodes s !! i = Some nd → Snapshot idx data (nd_raft nd) = Ret rf →
  inv n (mkSys (<[i := set_raft rf nd]> (nodes s)) (calls s)) (with_flog i (h_flog h i) h).
Proof.
  intros Hinv Hnd Hrun.
  apply Snapshot_spec in Hrun as (Hf & Hd & Hlog). injection Hf as Hn Hm Ht Hv Hs _ _.
  pose proof (inv_nodes _ _ _ Hinv _ _ Hnd) as [].
  assert (moves (nd_raft nd) rf) as Hmv by (split; auto).
  destruct Hlog as [[_ ->]|(Hlt & Hi & _ & Hle & Hl)].
  { eapply inv_same_log; try done; [apply counted_refl|by apply Hinv]. }
  destruct nk_log0 as (b & Hb & Hr).
  eapply inv_moves; try done; [|apply counted_refl|by apply Hinv].
  exists (b + (Z.to_nat idx - b))%nat. cbn. split; [lia|]. rewrite Hl, Hb.
  replace (Z.to_nat (idx - Z.of_nat b)) with (Z.to_nat idx - b)%nat by lia.
  apply log_rel_rebase; [done|]. unfold zlen in Hle. lia.
Qed.

Lemma restart_inv n s h i nd now rf :
  inv n s h → nodes s !! i = Some nd →
  Make (Z.of_nat n) (Z.of_nat i) now (persister (nd_raft nd)) = Ret rf →
  inv n (mkSys (<[i := mkNode rf ∅ None]> (nodes s)) (orphan i <$> calls s))
    (with_flog i (h_flog h i) h).
Proof.
  intros Hinv Hnd Hrf. pose proof (inv_nodes _ _ _ Hinv _ _ Hnd) as [].
  destruct (Make_durable (nd_raft nd) now (Z.of_nat n) (Z.of_nat i) nk_durable0 nk_npeers0 nk_me0)
    as (rf' & Hmk & Hc & Hd & _ & Hs & _).
  rewrite Hmk in Hrf. injection Hrf as ->. unfold core in Hc.
  injection Hc as Hn Hm Ht Hv Hl _ Hi.
  eapply inv_same_log; try done; [split; auto|apply map_empty_subseteq|apply counted_orphan|].
  by apply calls_ok_orphan, Hinv.
Qed.

Lemma step_inv n s h s' : inv n s h → step s s' → ∃ h', inv n s' h'.
Proof.
  intros Hinv [l Hl]. destruct l as [i now|i cmd|i j|c now|c now|i|i|i idx data|i now]; cbn in Hl.
  - apply elect_Some in Hl as (nd & rf & a & Hnd & Hrun & ->). rewrite (inv_length _ _ _ Hinv).
    eexists. by eapply elect_inv.
  - apply client_Some in Hl as (nd & rf & r & Hnd & Hrun & ->). eexists. by eapply client_inv.
  - eexists. by eapply replicate_inv.
  - by eapply deliver_inv.
  - by eapply reply_inv.
  - apply applyTake_Some in Hl as (nd & rf & msg & Hnd & _ & Hrun & ->). eexists.
    eapply keeps_inv; try done. by eapply applier_take_keeps.
  - apply applyDone_Some in Hl as (nd & msg & Hnd & _ & ->). eexists.
    eapply keeps_inv; try done. apply applier_done_keeps.
  - apply takeSnapshot_Some in Hl as (nd & rf & Hnd & _ & Hrun & ->). eexists.
    by eapply snapshot_inv.
  - apply restart_Some in Hl as (nd & rf & Hnd & Hrun & ->). rewrite (inv_length _ _ _ Hinv) in Hrun.
    eexists. by eapply restart_inv.
Qed.

Lemma init_inv n : inv n (sys_init n) (mkHistory ∅ ∅ (λ _, [dummy])).
Proof.
  split.
  - cbn. by rewrite length_fmap, length_seq.
  - intros i nd. cbn. rewrite list_lookup_fmap.
    intros (j & [-> Hj]%lookup_seq & ->)%fmap_Some. cbn. split; cbn; try done.
    + by left.
    + intros c. split; [done|lia].
    + exists 0%nat. split; [done|]. split_and!; cbn; [lia|done..].
    + split; [done|]. intros [|k] e; [by left|done].
  - split; [intros cl; cbn; set_solver|]. by intros c1 c2 cl1 cl2 k.
  - intros T l tl. cbn. by rewrite lookup_empty.
Qed.

Lemma reachable_inv n s : reachable n s → ∃ h, inv n s h.
Proof.
  unfold reachable. intros H. apply (rtc_ind_r (λ s, ∃ h, inv n s h)) in H; [done| |].
  - exists (mkHistory ∅ ∅ (λ _, [dummy])). apply init_inv.
  - intros x y _ Hstep [h Hinv]. by eapply step_inv.
Qed.

(** C5: Election Safety.  In every cluster reachable with lost, delayed and
    reordered messages, crashes, restarts, snapshots and any number of servers,
    two peers that are leader of the same term are the same peer. *)
Theorem election_safety n s i j nd1 nd2 :
  reachable n s → nodes s !! i = Some nd1 → nodes s !! j = Some nd2 →
  state (nd_raft nd1) = leader → state (nd_raft nd2) = leader →
  CurrentTerm (nd_raft nd1) = CurrentTerm (nd_raft nd2) → i = j.
Proof.
  intros [h Hinv]%reachable_inv H1 H2 L1 L2 HT.
  pose proof (nk_leader _ _ _ _ _ _ (inv_nodes _ _ _ Hinv _ _ H1) L1) as T1.
  pose proof (nk_leader _ _ _ _ _ _ (inv_nodes _ _ _ Hinv _ _ H2) L2) as T2.
  rewrite HT, T2 in T1. by injection T1.
Qed.

(** C6: Log Matching.  If the logs of two peers hold entries of the same term
    at index [k], then they hold the same entries (term and command) at every
    index up to [k] that neither has compacted into a snapshot. *)
Theorem log_matching n s i j nd1 nd2 k e1 e2 :
  let rf1 := nd_raft nd1 in let rf2 := nd_raft nd2 in
  reachable n s → nodes s !! i = Some nd1 → nodes s !! j = Some nd2 →
  LastIncludedIndex rf1 ≤ k → LastIncludedIndex rf2 ≤ k →
  index (Log rf1) (sliceIndex rf1 k) = Ret e1 → index (Log rf2) (sliceIndex rf2 k) = Ret e2 →
  Term e1 = Term e2 →
  ∀ m, LastIncludedIndex rf1 < m → LastIncludedIndex rf2 < m → m ≤ k →
    index (Log rf1) (sliceIndex rf1 m) = index (Log rf2) (sliceIndex rf2 m).
Proof.
  cbn zeta. intros [h Hinv]%reachable_inv H1 H2 K1 K2 E1 E2 HT m M1 M2 Mk.
  destruct (inv_nodes _ _ _ Hinv _ _ H1). destruct (inv_nodes _ _ _ Hinv _ _ H2).
  destruct nk_log0 as (b1 & B1 & R1), nk_log1 as (b2 & B2 & R2).
  unfold sliceIndex in *. rewrite B1, B2 in *.
  apply index_Ret in E1 as [_ E1], E2 as [_ E2].
  destruct (log_rel_lookup _ _ _ _ _ R1 E1) as (x1 & X1 & T1).
  destruct (log_rel_lookup _ _ _ _ _ R2 E2) as (x2 & X2 & T2).
  replace (b1 + Z.to_nat (k - Z.of_nat b1))%nat with (Z.to_nat k) in X1 by lia.
  replace (b2 + Z.to_nat (k - Z.of_nat b2))%nat with (Z.to_nat k) in X2 by lia.
  assert (take (S (Z.to_nat k)) (h_flog h i) = take (S (Z.to_nat k)) (h_flog h j)) as Htk.
  { eapply valid_match; [exact nk_valid0|exact nk_valid1|exact X1|exact X2|congruence]. }
  unfold index. rewrite !decide_True by lia.
  rewrite (log_rel_tail _ _ _ _ R1), (log_rel_tail _ _ _ _ R2) by lia.
  replace (b1 + Z.to_nat (m - Z.of_nat b1))%nat with (Z.to_nat m) by lia.
  replace (b2 + Z.to_nat (m - Z.of_nat b2))%nat with (Z.to_nat m) by lia.
  rewrite (lookup_take_eq _ _ (S (Z.to_nat k)) (Z.to_nat m)) with (2 := Htk) by lia. done.
Qed.

(** C8: Crash recovery.  At every moment of every execution, a peer that
    crashes can be restarted from its persister: [Make] returns, and the peer
    comes back as a follower with the term, the vote, the log and the snapshot
    it had, the committed and applied indices at the snapshot. *)
Theorem crash_recovery n s i nd now :
  reachable n s → nodes s !! i = Some nd →
  ∃ rf, Make (Z.of_nat n) (Z.of_nat i) now (persister (nd_raft nd)) = Ret rf ∧
    CurrentTerm rf = CurrentTerm (nd_raft nd) ∧ VotedFor rf = VotedFor (nd_raft nd) ∧
    Log rf = Log (nd_raft nd) ∧ LastIncludedIndex rf = LastIncludedIndex (nd_raft nd) ∧
    SnapshotData rf = SnapshotData (nd_raft nd) ∧ state rf = follower ∧
    commitIndex rf = LastIncludedIndex rf ∧ lastApplied rf = LastIncludedIndex rf.
Proof.
  intros [h Hinv]%reachable_inv Hnd. destruct (inv_nodes _ _ _ Hinv _ _ Hnd).
  destruct (Make_durable (nd_raft nd) now (Z.of_nat n) (Z.of_nat i)) as
    (rf & Hmk & Hc & _ & _ & Hs & Hci & Hla & _); [done..|].
  unfold core in Hc. injection Hc as Hn Hm Ht Hv Hl Hsd Hi.
  exists rf. split_and!; congruence.
Qed.
End safety.

(** ** The theorems at work: three servers, one election, one command *)

Section runs.
#[local] Instance nat_state_codec : Codec (PersistedState nat) := countable_codec.

Definition demo_run : list (@Label nat) :=
  [LElect 0 0; LDeliver 0 0; LReply 0 0; LClient 0 7%nat; LClient 0 8%nat; LReplicate 0 1; LDeliver 2 0;
   LReply 2 0; LApplyTake 0; LApplyDone 0; LSnapshot 0 1 [x01]].

Definition demo_view (s : @Sys nat) : option (Node * Node * State * list Z * list (outcome (LogEntry nat))) :=
  nd1 ← nodes s !! 0%nat; nd2 ← nodes s !! 1%nat;
  let rf1 := nd_raft nd1 in let rf2 := nd_raft nd2 in
  Some (nd1, nd2, state rf1, [LastIncludedIndex rf1; LastIncludedIndex rf2],
        [index (Log rf1) (sliceIndex rf1 2); index (Log rf2) (sliceIndex rf2 2)]).

Lemma demo_view_run :
  (s ← run_labels demo_run (sys_init 3); '(_, _, st, bs, es) ← demo_view s; Some (st, bs, es)) =
  Some (leader, [1; 0], [Ret (mkEntry 1 (Some 8%nat)); Ret (mkEntry 1 (Some 8%nat))]).
Proof. vm_compute. reflexivity. Qed.

(** Server 0 leads and has compacted index 1, server 1 still holds it. *)
Lemma demo_facts : ∃ s nd1 nd2,
  reachable 3 s ∧ nodes s !! 0%nat = Some nd1 ∧ nodes s !! 1%nat = Some nd2 ∧
  state (nd_raft nd1) = leader ∧
  LastIncludedIndex (nd_raft nd1) = 1 ∧ LastIncludedIndex (nd_raft nd2) = 0 ∧
  index (Log (nd_raft nd1)) (sliceIndex (nd_raft nd1) 2) = Ret (mkEntry 1 (Some 8%nat)) ∧
  index (Log (nd_raft nd2)) (sliceIndex (nd_raft nd2) 2) = Ret (mkEntry 1 (Some 8%nat)).
Proof.
  pose proof demo_view_run as H. apply bind_Some in H as (s & Hs & H).
  apply run_labels_rtc in Hs. unfold demo_view in H.
  destruct (nodes s !! 0%nat) as [nd1|] eqn:E1; [|discriminate H].
  destruct (nodes s !! 1%nat) as [nd2|] eqn:E2; [|discriminate H].
  injection H as H1 H2 H3 H4 H5. exists s, nd1, nd2. split_and!; assumption.
Qed.

Lemma election_safety_witness : ∃ s nd,
  reachable 3 s ∧ nodes s !! 0%nat = Some nd ∧ state (nd_raft nd) = leader ∧ 0%nat = 0%nat.
Proof.
  destruct demo_facts as (s & nd & _ & Hr & H0 & _ & Hl & _).
  exists s, nd. do 3 (split; [assumption|]).
  exact (election_safety 3 s 0 0 nd nd Hr H0 H0 Hl Hl eq_refl).
Defined.

Lemma log_matching_witness : ∃ s nd1 nd2,
  reachable 3 s ∧ nodes s !! 0%nat = Some nd1 ∧ nodes s !! 1%nat = Some nd2 ∧
  LastIncludedIndex (nd_raft nd1) = 1 ∧ LastIncludedIndex (nd_raft nd2) = 0 ∧
  index (Log (nd_raft nd1)) (sliceIndex (nd_raft nd1) 2) =
  index (Log (nd_raft nd2)) (sliceIndex (nd_raft nd2) 2).
Proof.
  destruct demo_facts as (s & nd1 & nd2 & Hr & E1 & E2 & _ & L1 & L2 & K1 & K2).
  exists s, nd1, nd2. do 5 (split; [assumption|]).
  refine (log_matching 3 s 0 1 nd1 nd2 2 _ _ Hr E1 E2 _ _ K1 K2 eq_refl 2 _ _ _); lia.
Defined.

Lemma crash_recovery_witness : ∃ s nd rf,
  reachable 3 s ∧ nodes s !! 0%nat = Some nd ∧
  Make 3 0 5 (persister (nd_raft nd)) = Ret rf ∧ VotedFor rf = VotedFor (nd_raft nd).
Proof.
  destruct demo_facts as (s & nd & _ & Hr & H0 & _).
  destruct (crash_recovery 3 s 0 nd 5 Hr H0) as (rf & Hm & _ & Hv & _).
  exists s, nd, rf. split_and!; assumption.
Defined.
End runs.
