(* ===== verification/RaftVolatile.v ===== *)
(** * RaftVolatile: the volatile fields of a peer

    What the operations of [Raft] do to [commitIndex], [lastApplied],
    [snapshotPending] and [matchIndex], and the last entry of the log that
    elections compare.  [RaftFacts] has the persistent fields. *)

From S2P Require Import Prelude Persister Raft RaftFacts.

Section volatile.
Context {Cmd : Type} `{!Codec (PersistedState Cmd)}.
Implicit Types (rf : Raft Cmd).

(** What the applier and the leader's bookkeeping work on. *)
Definition vol rf := (commitIndex rf, lastApplied rf, snapshotPending rf, matchIndex rf).

Lemma bumpTerm_vol now term rf0 rf rf1 :
  rf1 = (if decide (CurrentTerm rf < term) then becomeFollowerWithTerm now term rf0 else rf0) →
  vol rf0 = vol rf → vol rf1 = vol rf.
Proof. intros -> Hv. by case_decide. Qed.

Lemma AppendEntries_vol now args rf rf' reply :
  AppendEntries now args rf = Ret (rf', reply) →
  vol rf' = ((if aer_Success reply
              then if decide (commitIndex rf < ae_LeaderCommit args)
                   then Z.min (ae_LeaderCommit args) (lastLogIndex rf') else commitIndex rf
              else commitIndex rf),
             lastApplied rf, snapshotPending rf, matchIndex rf).
Proof.
  unfold AppendEntries.
  assert (vol (observeLeader now args rf) = vol rf) as Ho.
  { unfold observeLeader. cbn zeta. repeat case_decide; done. }
  set (rf1 := observeLeader now args rf) in *. clearbody rf1. unfold vol in *. injection Ho as <- <- <- <-.
  case_decide as Hst; [by intros [= <- <-]|].
  intros ([[su ct] ci] & Hc & H)%bind_ret_inv. destruct su.
  - rewrite decide_False in H by done. apply bind_ret_inv in H as (rf2 & Hacc & [= <- <-]). cbn.
    unfold acceptEntries in Hacc. apply bind_ret_inv in Hacc as ([rem l] & _ & [= <-]).
    set (r1 := match rem with [] => _ | _ => _ end).
    assert (vol r1 = vol rf1) as Hr1 by (unfold r1; by destruct rem).
    clearbody r1. unfold vol in Hr1. injection Hr1 as Hci Hla Hsp Hmi. rewrite Hci.
    case_decide; cbn; rewrite ?Hci, Hla, Hsp, Hmi; done.
  - rewrite decide_True in H by done. by injection H as <- <-.
Qed.

Lemma InstallSnapshot_vol now args rf rf' reply :
  InstallSnapshot now args rf = Ret (rf', reply) →
  matchIndex rf' = matchIndex rf ∧ lastApplied rf' = lastApplied rf ∧
  ((vol rf' = vol rf ∧ LastIncludedIndex rf' = LastIncludedIndex rf ∧ Log rf' = Log rf ∧
    (is_Term args < CurrentTerm rf ∨ is_LastIncludedIndex args ≤ LastIncludedIndex rf)) ∨
   (CurrentTerm rf ≤ is_Term args ∧ LastIncludedIndex rf < is_LastIncludedIndex args ∧
    LastIncludedIndex rf' = is_LastIncludedIndex args ∧
    (if decide (lastApplied rf < is_LastIncludedIndex args)
     then commitIndex rf' = Z.max (is_LastIncludedIndex args) (commitIndex rf) ∧
          snapshotPending rf' = true
     else commitIndex rf' = commitIndex rf ∧ snapshotPending rf' = snapshotPending rf))).
Proof.
  unfold InstallSnapshot.
  destruct (decide (is_Term args < CurrentTerm rf)) as [Hstale|Hstale].
  { intros [= <- <-]. split_and!; try done. left. auto. }
  cbn [CurrentTerm set_lastHeardTime].
  remember (if decide (CurrentTerm rf < is_Term args) then _ else _) as rf1 eqn:Erf1.
  pose proof (bumpTerm_vol _ _ _ _ _ Erf1 eq_refl) as Hv.
  apply bumpTerm_spec in Erf1 as (Hf & _); [|done..]. injection Hf as _ _ Hlg Hli.
  unfold vol in Hv. injection Hv as Hci Hla Hsp Hmi.
  destruct (decide (LastIncludedIndex rf1 < is_LastIncludedIndex args)) as [HL|HL].
  - intros (rf2 & Had & [= <- <-])%bind_ret_inv. unfold adoptSnapshot in Had.
    apply bind_ret_inv in Had as (keep & _ & Had). apply bind_ret_inv in Had as (rf3 & Hrf3 & [= <-]).
    assert (vol rf3 = vol rf1 ∧ LastIncludedIndex rf3 = is_LastIncludedIndex args) as [Hv HL3].
    { destruct keep; [apply bind_ret_inv in Hrf3 as (l & _ & [= <-])|injection Hrf3 as <-]; done. }
    unfold vol in Hv. injection Hv as Hci3 Hla3 Hsp3 Hmi3. rewrite Hla3, Hla.
    case_decide; cbn; (split_and!; [congruence..|right]); split_and!; try congruence; lia.
  - intros [= <- <-]. split_and!; try done. left. unfold vol. split_and!; try congruence. right. lia.
Qed.

Lemma RequestVote_vol now args rf rf' reply :
  RequestVote now args rf = Ret (rf', reply) → vol rf' = vol rf.
Proof.
  unfold RequestVote.
  remember (if decide (CurrentTerm rf < rv_Term args) then _ else _) as rf1 eqn:Erf1.
  pose proof (bumpTerm_vol _ _ _ _ _ Erf1 eq_refl) as <-. clear Erf1.
  case_decide as Hfree; [|by intros [= <- <-]].
  intros (up & _ & H)%bind_ret_inv. destruct up; by injection H as <- <-.
Qed.

Lemma startElection_vol now rf rf' args :
  startElection now rf = Ret (rf', args) →
  vol rf' = vol rf ∧ rv_LastLogIndex args = lastLogIndex rf ∧ lastLogTerm rf = Ret (rv_LastLogTerm args).
Proof. unfold startElection. by intros (t & Ht & [= <- <-])%bind_ret_inv. Qed.

Lemma handleVote_vol now reply el rf el' rf' :
  handleVote now reply el rf = (el', rf') →
  (vol rf' = vol rf ∧ (state rf' = state rf ∨ state rf' = follower)) ∨
  (state rf = candidate ∧ state rf' = leader ∧ commitIndex rf' = commitIndex rf ∧
   lastApplied rf' = lastApplied rf ∧ snapshotPending rf' = snapshotPending rf ∧
   matchIndex rf' = (λ _, 0) <$> matchIndex rf).
Proof.
  unfold handleVote. case_decide; [intros [= <- <-]; left; by auto|].
  destruct (rvr_VoteGranted reply); [|intros [= <- <-]; left; by auto].
  case_decide as Hst; [intros [= <- <-]; left; by auto|].
  assert (state rf = candidate) by (destruct (decide (state rf = candidate)); tauto).
  case_decide; intros [= <- <-]; [by right|left; by auto].
Qed.

Lemma Start_vol cmd rf rf' r : Start cmd rf = (rf', r) → vol rf' = vol rf.
Proof. unfold Start. case_decide; by intros [= <- <-]. Qed.

Lemma Snapshot_vol idx data rf rf' : Snapshot idx data rf = Ret rf' → vol rf' = vol rf.
Proof.
  unfold Snapshot. case_decide; [by intros [= <-]|]. by intros (l & _ & [= <-])%bind_ret_inv.
Qed.

(** ** The leader's bookkeeping *)

Lemma advanceFrom_pending rf n rf' :
  advanceFrom rf n = Ret rf' → snapshotPending rf' = snapshotPending rf.
Proof.
  induction n as [|n IH]; cbn [advanceFrom]; [by intros [= <-]|].
  intros (t & _ & H)%bind_ret_inv. case_decide as Ht; [by injection H as <-|].
  apply bind_ret_inv in H as (c & _ & H). case_decide as Hc; [by injection H as <-|]. by apply IH.
Qed.

(** A reply was counted: [matchIndex[i]] is now [m], and the commit index
    stayed or moved to an entry of the current term on a majority. *)
Definition counts (i : nat) (m : Z) rf rf' : Prop :=
  keeps rf rf' ∧ lastApplied rf' = lastApplied rf ∧ snapshotPending rf' = snapshotPending rf ∧
  (i < length (matchIndex rf))%nat ∧ matchIndex rf' = <[i := m]> (matchIndex rf) ∧
  (commitIndex rf' = commitIndex rf ∨
   commitIndex rf < commitIndex rf' ∧ termAt rf (commitIndex rf') = Ret (CurrentTerm rf) ∧
   ∃ c, countMatching rf' (commitIndex rf') = Ret c ∧ npeers rf `quot` 2 < c).

Lemma countMatching_eq rf rf' N :
  npeers rf' = npeers rf → me rf' = me rf → matchIndex rf' = matchIndex rf →
  countMatching rf' N = countMatching rf N.
Proof.
  intros Hn Hm Hmi. unfold countMatching. rewrite Hn. generalize (seq 0 (Z.to_nat (npeers rf))).
  intros js. induction js as [|j js IH]; [done|]. cbn. by rewrite IH, Hm, Hmi.
Qed.

Lemma counts_intro (i : nat) m mis nis rf rf' :
  store (matchIndex rf) (Z.of_nat i) m = Ret mis →
  advanceCommitIndex (set_nextIndex nis (set_matchIndex mis rf)) = Ret rf' →
  counts i m rf rf'.
Proof.
  unfold store. case_decide as Hi; [|done]. rewrite Nat2Z.id. intros [= <-] H.
  pose proof (advanceFrom_pending _ _ _ H) as Hsp.
  apply advanceFrom_spec in H as (Hk & Hla & _ & Hmi & Hci). unfold zlen in Hi.
  split_and!; try done; [lia|]. destruct Hci as [Hci|([Hlt _] & Ht & c & Hc & Hmaj)]; [by left|].
  right. split_and!; try done. exists c. split; [|done]. rewrite <-Hc.
  destruct Hk as (Hcore & _). unfold core in Hcore. injection Hcore as Hn Hm _ _ _ _ _.
  by apply countMatching_eq.
Qed.

Lemma onEntriesReply_vol now (i : nat) args reply rf rf' :
  onEntriesReply now (Z.of_nat i) args reply rf = Ret rf' → aer_Term reply ≤ CurrentTerm rf →
  (keeps rf rf' ∧ vol rf' = vol rf) ∨
  (aer_Success reply = true ∧ counts i (ae_PrevLogIndex args + zlen (ae_Entries args)) rf rf').
Proof.
  unfold onEntriesReply. intros H Hle. rewrite decide_False in H by lia.
  apply bind_ret_inv in H as (mi & _ & H). destruct (aer_Success reply).
  - case_decide; [injection H as <-; by left|].
    apply bind_ret_inv in H as (mis & Hst & H). apply bind_ret_inv in H as (nis & _ & H).
    right. split; [done|]. by eapply counts_intro.
  - left. case_decide; [by injection H as <-|].
    apply bind_ret_inv in H as (ni & _ & H). by apply bind_ret_inv in H as (nis & _ & [= <-]).
Qed.

Lemma onSnapshotReply_vol now (i : nat) args reply rf rf' :
  onSnapshotReply now (Z.of_nat i) args reply rf = Ret rf' → isr_Term reply ≤ CurrentTerm rf →
  (keeps rf rf' ∧ vol rf' = vol rf) ∨ counts i (is_LastIncludedIndex args) rf rf'.
Proof.
  unfold onSnapshotReply. intros H Hle. rewrite decide_False in H by lia.
  apply bind_ret_inv in H as (mi & _ & H). case_decide; [|injection H as <-; by left].
  apply bind_ret_inv in H as (mis & Hst & H). apply bind_ret_inv in H as (nis & _ & H).
  right. by eapply counts_intro.
Qed.

(** The servers counted: the leader and those whose [matchIndex] is at least [N]. *)
Lemma countFrom_set rf N (i : nat) js c :
  me rf = Z.of_nat i → NoDup js → countFrom rf N js = Ret c →
  ∃ Q : gset nat, c = 1 + Z.of_nat (size Q) ∧ i ∉ Q ∧
    (∀ j, j ∈ Q → j ∈ js ∧ ∃ m, matchIndex rf !! j = Some m ∧ N ≤ m).
Proof.
  intros Hme. revert c. induction js as [|j js IH]; intros c Hnd; cbn [countFrom].
  { intros [= <-]. exists ∅. rewrite size_empty. split_and!; [done|set_solver..]. }
  apply NoDup_cons in Hnd as [Hj Hnd]. intros (c0 & (Q & -> & Hi & HQ)%IH & H)%bind_ret_inv; [|done].
  case_decide as Hjm.
  { injection H as <-. exists Q. split_and!; [done..|]. intros v [? ?]%HQ. split; [set_solver|done]. }
  apply bind_ret_inv in H as (m & Hm & [= <-]). apply index_Ret in Hm as [_ Hm]. rewrite Nat2Z.id in Hm.
  case_decide as HN.
  - exists ({[j]} ∪ Q). rewrite size_union by (intros ?; set_solver). rewrite size_singleton.
    split_and!; [lia| |].
    + intros [->%elem_of_singleton|?]%elem_of_union; [congruence|done].
    + intros v [->%elem_of_singleton|[? ?]%HQ]%elem_of_union; (split; [set_solver|]); eauto.
  - exists Q. split_and!; [done..|]. intros v [? ?]%HQ. split; [set_solver|done].
Qed.

(** ** The applier *)

Lemma applier_take_spec rf rf' msg :
  applier_take rf = Ret (rf', msg) →
  keeps rf rf' ∧ commitIndex rf' = commitIndex rf ∧ lastApplied rf' = lastApplied rf ∧
  matchIndex rf' = matchIndex rf ∧ snapshotPending rf' = false ∧
  ((snapshotPending rf = true ∧ ∃ t, msg = Some (SnapshotMsg (SnapshotData rf) t (LastIncludedIndex rf))) ∨
   (snapshotPending rf = false ∧ lastApplied rf < commitIndex rf ∧
    ∃ e, index (Log rf) (sliceIndex rf (lastApplied rf + 1)) = Ret e ∧
         msg = Some (CommandMsg (Command e) (lastApplied rf + 1))) ∨
   (snapshotPending rf = false ∧ msg = None)).
Proof.
  unfold applier_take. case_decide as Hp.
  { intros (t & _ & [= <- <-])%bind_ret_inv. split_and!; try done. left. eauto. }
  assert (snapshotPending rf = false) as Hf by (by destruct (snapshotPending rf)).
  case_decide.
  - intros (e & He & [= <- <-])%bind_ret_inv. split_and!; try done. right. left. eauto.
  - intros [= <- <-]. split_and!; try done. right. by right.
Qed.
End volatile.
