(* ===== verification/RaftQuorum.v ===== *)
(** * RaftQuorum: what a majority has acknowledged stays

    The history of [RaftSafety] extended with what the argument for committed
    entries needs: which prefix of the log of a term's leader each peer has
    acknowledged, and the full log each voter had when it voted.  On that
    history alone, without the state of the cluster, this file proves leader
    completeness: an entry of its own term that a majority acknowledged to a
    leader is in the log of every later leader. *)

From stdpp Require Import functions.
From S2P Require Import Prelude Persister Raft RaftFacts RaftNet RaftSafety.

Section quorum.
Context {Cmd : Type}.
Implicit Types (L fl tl : list (LogEntry Cmd)) (h : @History Cmd) (n v l k : nat) (T B : Z).

Record Ghost := mkGhost {
  g_h : @History Cmd;
  g_acks : gmap (nat * Z) nat;                  (* peer, term: last acknowledged index *)
  g_vlog : gmap (nat * Z) (list (LogEntry Cmd)) (* voter, term: its log at the vote *)
}.
Implicit Types (g : Ghost).

Definition acked g v T k : Prop := ∃ m, g_acks g !! (v, T) = Some m ∧ (k ≤ m)%nat.

(** The leader of [T1] was elected without the entry [k] of the leader of [T0]. *)
Definition broken g T1 T0 k : Prop :=
  ∃ l1 tl1 L1 l0 tl0, h_tlog (g_h g) !! T1 = Some (l1, tl1) ∧ g_vlog g !! (l1, T1) = Some L1 ∧
    h_tlog (g_h g) !! T0 = Some (l0, tl0) ∧ (k < length tl0)%nat ∧ ¬ agree k L1 tl0.

(** A log keeps what its peer acknowledged in terms up to [B0], unless the
    leader of a term up to [B1] lacked it. *)
Definition locked g v L B0 B1 : Prop :=
  ∀ T0 k l tl, T0 ≤ B0 → acked g v T0 k → h_tlog (g_h g) !! T0 = Some (l, tl) →
    agree k L tl ∨ ∃ T1, T0 < T1 ≤ B1 ∧ broken g T1 T0 k.

(** [Lc] is at least as up to date as [Lv]. *)
Definition newer (Lc Lv : list (LogEntry Cmd)) : Prop :=
  ∃ ec ev, last Lc = Some ec ∧ last Lv = Some ev ∧
    (Term ev < Term ec ∨ (Term ev = Term ec ∧ (length Lv ≤ length Lc)%nat)).

(** Entry [k] of the leader's log [tl] of term [T] is of that term and on a
    majority. *)
Definition chosen n g T k tl : Prop :=
  ∃ l e Q, h_tlog (g_h g) !! T = Some (l, tl) ∧ tl !! k = Some e ∧ Term e = T ∧
    majority n Q ∧ ∀ v, v ∈ Q → acked g v T k.

(** The entries of [L] up to [c] are before a chosen entry of a term up to [B]. *)
Definition committed n g L (c : nat) B : Prop :=
  c = 0%nat ∨ ∃ T k tl, T ≤ B ∧ chosen n g T k tl ∧ (c ≤ k)%nat ∧ agree c L tl.

(** Command [c] is the one of index [k], once and for all. *)
Definition decided n g k (c : option Cmd) : Prop :=
  ∃ T k' tl e, chosen n g T k' tl ∧ (k ≤ k')%nat ∧ tl !! k = Some e ∧ Command e = c.

Record hist_cm n g : Prop := {
  hc_ack v T k : acked g v T k →
    ∃ l tl, h_tlog (g_h g) !! T = Some (l, tl) ∧ (k < length tl)%nat;
  hc_vlog v T L : g_vlog g !! (v, T) = Some L →
    valid (h_tlog (g_h g)) L ∧ is_Some (h_votes (g_h g) !! (v, T));
  hc_self v T L : h_votes (g_h g) !! (v, T) = Some v → g_vlog g !! (v, T) = Some L →
    ∀ e, e ∈ L → Term e < T;
  hc_vote v T c : h_votes (g_h g) !! (v, T) = Some c →
    ∃ Lv Lc, g_vlog g !! (v, T) = Some Lv ∧ g_vlog g !! (c, T) = Some Lc ∧ newer Lc Lv ∧
             locked g v Lv (T - 1) T;
  hc_tlog T l tl : h_tlog (g_h g) !! T = Some (l, tl) →
    ∃ L ext, g_vlog g !! (l, T) = Some L ∧ tl = L ++ ext ∧ (∀ e, e ∈ ext → Term e = T) ∧
      ∃ Q, majority n Q ∧ ∀ v, v ∈ Q → h_votes (g_h g) !! (v, T) = Some l ∧
        ∃ Lv, g_vlog g !! (v, T) = Some Lv ∧ locked g v Lv (T - 1) (T - 1);
}.

Lemma majorities_meet_in n P Q : majority n P → majority n Q → ∃ v, v ∈ P ∧ v ∈ Q.
Proof.
  intros [HP1 HP2] [HQ1 HQ2]. rewrite Z.quot_div_nonneg in HP2, HQ2 by lia.
  apply (majorities_meet (Z.of_nat n)); [|lia|done..].
  intros v [?|?]%elem_of_union; rewrite Nat2Z.id; auto.
Qed.

Lemma acked_le g v T j k : acked g v T k → (j ≤ k)%nat → acked g v T j.
Proof. intros (m & ? & ?) ?. exists m. split; [done|lia]. Qed.

Lemma locked_weaken g v L B0 B1 B0' B1' :
  locked g v L B0 B1 → B0' ≤ B0 → B1 ≤ B1' → locked g v L B0' B1'.
Proof.
  intros H H0 H1 T0 k l tl HT Hk Ht. destruct (H T0 k l tl) as [?|(T1 & ? & ?)]; try done; [lia|by left|].
  right. exists T1. split; [lia|done].
Qed.

(** Logs of which every entry came from its leader: the term of the entry at
    [k] decides whether they agree up to it. *)
Lemma agree_dec t L1 L2 k : valid t L1 → valid t L2 → agree k L1 L2 ∨ ¬ agree k L1 L2.
Proof.
  intros H1 H2. destruct (L1 !! k) as [e1|] eqn:E1.
  2: { right. intros [Hk _]. apply lookup_ge_None in E1. lia. }
  destruct (L2 !! k) as [e2|] eqn:E2.
  2: { right. intros Hk%agree_length. apply lookup_ge_None in E2. lia. }
  destruct (decide (Term e1 = Term e2)); [left; by eapply valid_agree|].
  right. intros Ha. rewrite (agree_lookup k k _ _ Ha) in E1 by lia. congruence.
Qed.

(** Positions where two logs differ are beyond what they agree on. *)
Lemma agree_follows k tl fl fl' : follows tl fl fl' → agree k fl tl → agree k fl' tl.
Proof.
  intros [->|(N & q & -> & [Hq HN] & Hne)] Ha; [done|].
  destruct (decide (q ≤ k)%nat); [by destruct Hne; eapply agree_lookup|].
  apply agree_take; [lia|by eapply agree_length].
Qed.

(** The log of a leader starts with the log it was elected with. *)
Lemma agree_elected k L ext : agree k (L ++ ext) L ↔ (k < length L)%nat.
Proof.
  split; [intros H; by eapply agree_length|by apply agree_app].
Qed.

Section static.
Context (n : nat) (g : Ghost).
Hypothesis Hok : tlog_ok n (g_h g).
Hypothesis Hh : hist_cm n g.

Lemma tlog_elected T l tl :
  h_tlog (g_h g) !! T = Some (l, tl) →
  ∃ L ext, g_vlog g !! (l, T) = Some L ∧ tl = L ++ ext ∧ valid (h_tlog (g_h g)) L ∧
    valid (h_tlog (g_h g)) tl ∧ (∀ e, e ∈ L → Term e < T) ∧ (∀ e, e ∈ ext → Term e = T).
Proof.
  intros Ht. destruct (hc_tlog _ _ Hh _ _ _ Ht) as (L & ext & HL & -> & Hext & _).
  destruct (Hok _ _ _ Ht) as (Hv & Hself & _).
  exists L, ext. split_and!; try done; [by eapply hc_vlog|by eapply hc_self].
Qed.

Lemma tlog_terms T l tl e : h_tlog (g_h g) !! T = Some (l, tl) → e ∈ tl → Term e ≤ T.
Proof.
  intros (L & ext & _ & -> & _ & _ & HL & Hext)%tlog_elected [?%HL|?%Hext]%elem_of_app; lia.
Qed.

Lemma valid_sorted L i j ei ej :
  valid (h_tlog (g_h g)) L → (i ≤ j)%nat → L !! i = Some ei → L !! j = Some ej → Term ei ≤ Term ej.
Proof.
  intros [_ Hv] Hij Hi Hj. destruct (Hv _ _ Hj) as [->|(l & tl & Ht & Htk)].
  { assert (i = 0%nat) as -> by lia. rewrite Hi in Hj. by simplify_eq. }
  eapply tlog_terms; [exact Ht|].
  apply list_elem_of_lookup_2 with i. rewrite <-Hi. symmetry. apply (lookup_take_eq _ _ (S j)); [lia|done].
Qed.

(** A log ends like the log of the leader of its last entry. *)
Lemma valid_last L e k :
  valid (h_tlog (g_h g)) L → last L = Some e → (0 < k < length L)%nat →
  ∃ l tl, h_tlog (g_h g) !! Term e = Some (l, tl) ∧ agree (length L - 1) L tl.
Proof.
  intros [_ Hv] Hl Hk. rewrite last_lookup in Hl. replace (pred (length L)) with (length L - 1)%nat in Hl by lia.
  destruct (Hv _ _ Hl) as [?|(l & tl & Ht & Htk)]; [lia|]. exists l, tl. split; [done|]. split; [lia|done].
Qed.

Lemma locked_follows v fl fl' Ta l tl :
  h_tlog (g_h g) !! Ta = Some (l, tl) → follows tl fl fl' →
  locked g v fl Ta Ta → locked g v fl' Ta Ta.
Proof.
  intros Ht Hfo H T0 k l0 tl0 HT0 Hk Ht0.
  destruct (H _ _ _ _ HT0 Hk Ht0) as [Hag|?]; [|by right].
  destruct (tlog_elected _ _ _ Ht) as (L & ext & HL & -> & HvL & _).
  destruct (tlog_elected _ _ _ Ht0) as (_ & _ & _ & _ & _ & Hv0 & _).
  assert (agree k (L ++ ext) tl0 → agree k fl' tl0) as Hgoal.
  { intros Hx. eapply agree_trans; [|exact Hx]. eapply agree_follows; [exact Hfo|].
    eapply agree_trans; [exact Hag|by apply agree_sym]. }
  destruct (decide (T0 = Ta)) as [->|Hlt].
  { rewrite Ht in Ht0. injection Ht0 as <- <-. left. apply Hgoal, agree_refl.
    by eapply agree_length. }
  destruct (agree_dec _ L tl0 k HvL Hv0) as [Ha|Hna].
  - left. apply Hgoal. eapply agree_trans; [|exact Ha]. apply agree_app, Ha.
  - right. exists Ta. split; [lia|]. exists l, (L ++ ext), L, l0, tl0. split_and!; try done.
    by eapply agree_length.
Qed.

(** ** Leader completeness *)

(** One election: the voter [v] has the entry, so has the candidate. *)
Lemma completeness_step T k tl T' l' Lc Lv v :
  chosen n g T k tl → (0 < k)%nat →
  (∀ T1 l1 tl1 L1, T < T1 < T' → h_tlog (g_h g) !! T1 = Some (l1, tl1) →
     g_vlog g !! (l1, T1) = Some L1 → agree k L1 tl) →
  g_vlog g !! (l', T') = Some Lc → h_votes (g_h g) !! (l', T') = Some l' →
  g_vlog g !! (v, T') = Some Lv → newer Lc Lv → agree k Lv tl → agree k Lc tl.
Proof.
  intros (l & e & Q & Ht & He & HeT & _) Hk IH HLc Hself HLv (ec & ev & Hec & Hev & Hnew) Hag.
  destruct (hc_vlog _ _ Hh _ _ _ HLc) as [HvC _]. destruct (hc_vlog _ _ Hh _ _ _ HLv) as [HvV _].
  pose proof Hag as [HkV _].
  assert (Lv !! k = Some e) as HeV by (rewrite (agree_lookup k k _ _ Hag); [done|lia]).
  pose proof Hev as HevL. rewrite last_lookup in HevL.
  assert (T ≤ Term ev) as HTv.
  { rewrite <-HeT. eapply (valid_sorted Lv k (pred (length Lv))); [done|lia|done..]. }
  assert (0 ≤ Term ev) as H0v.
  { destruct HvV as [Hz HvV']. change 0 with (Term (dummy (Cmd := Cmd))).
    eapply (valid_sorted Lv 0 (pred (length Lv))); [done|lia|done..]. }
  destruct (valid_last Lv ev k HvV Hev) as (lv & tlv & Htv & Hagv); [lia|].
  assert (1 < length Lc)%nat as HlenC.
  { destruct Hnew as [Hlt|[_ ?]]; [|lia]. destruct HvC as [Hz _].
    destruct Lc as [|x [|y Lc]]; [done| |cbn; lia]. cbn in Hec, Hz. simplify_eq. cbn in Hlt. lia. }
  destruct (valid_last Lc ec 1 HvC Hec) as (lc & tlc & Htc & Hagc); [lia|].
  destruct Hnew as [Hlt|[Heq Hle]].
  - destruct (tlog_elected _ _ _ Htc) as (LE & ext & HLE & -> & _ & _ & HLEt & _).
    assert (Term ec < T') as HecT.
    { eapply (hc_self _ _ Hh); [exact Hself|exact HLc|]. apply last_Some in Hec as [l0 ->]. set_solver. }
    assert (agree k LE tl) as HagE by (eapply IH; [|exact Htc|exact HLE]; lia).
    assert (length LE ≤ length Lc - 1)%nat as Hlen.
    { destruct (decide (length LE ≤ length Lc - 1)%nat) as [?|Hn]; [done|].
      rewrite last_lookup in Hec. replace (pred (length Lc)) with (length Lc - 1)%nat in Hec by lia.
      rewrite (agree_lookup _ _ _ _ Hagc) in Hec by lia. rewrite lookup_app_l in Hec by lia.
      apply list_elem_of_lookup_2 in Hec. apply HLEt in Hec. lia. }
    destruct HagE as [HkE HE]. eapply agree_trans; [|by split].
    eapply agree_trans; [eapply agree_le; [exact Hagc|lia]|]. by apply agree_app.
  - rewrite Heq, Htc in Htv. injection Htv as <- <-.
    eapply agree_trans; [|exact Hag].
    eapply agree_trans; [eapply agree_le; [exact Hagc|lia]|].
    apply agree_sym. eapply agree_le; [exact Hagv|lia].
Qed.

Lemma agree_zero L1 L2 : valid (h_tlog (g_h g)) L1 → valid (h_tlog (g_h g)) L2 → agree 0 L1 L2.
Proof. intros [H1 ?] [H2 ?]. eapply valid_agree; [by split|by split|exact H1|exact H2|done]. Qed.

Lemma elected_complete T k tl :
  chosen n g T k tl → ∀ T' l' tl' L', T < T' → h_tlog (g_h g) !! T' = Some (l', tl') →
    g_vlog g !! (l', T') = Some L' → agree k L' tl.
Proof.
  intros Hch T'. induction (Z.lt_wf T T') as [T' _ IH]. intros l' tl' L' HT' Ht' HL'.
  pose proof Hch as (l & e & Q & Ht & He & HeT & HQ & Hacks).
  destruct (Hok _ _ _ Ht) as (Hvt & _). destruct (Hok _ _ _ Ht') as (_ & Hself & _).
  destruct (decide (k = 0)%nat) as [->|Hk].
  { apply agree_zero; [by eapply hc_vlog|done]. }
  destruct (hc_tlog _ _ Hh _ _ _ Ht') as (L & ext & HL & -> & _ & Q' & HQ' & Hvoters).
  destruct (majorities_meet_in n Q Q' HQ HQ') as (v & HvQ & HvQ').
  destruct (Hvoters v HvQ') as (Hvote & Lv & HLv & Hlock).
  destruct (hc_vote _ _ Hh _ _ _ Hvote) as (Lv' & Lc & HLv' & HLc & Hnew & _).
  rewrite HLv in HLv'. rewrite HL' in HLc. injection HLv' as <-. injection HLc as <-.
  assert (∀ T1 l1 tl1 L1, T < T1 < T' → h_tlog (g_h g) !! T1 = Some (l1, tl1) →
            g_vlog g !! (l1, T1) = Some L1 → agree k L1 tl) as IH'.
  { intros T1 l1 tl1 L1 HT1. apply IH; lia. }
  eapply completeness_step; try done; [lia|].
  destruct (Hlock T k l tl) as [?|(T1 & HT1 & Hbr)]; [lia|by apply Hacks|done|done|].
  destruct Hbr as (l1 & tl1 & L1 & l0 & tl0 & Ht1 & HL1 & Ht0 & _ & Hna).
  rewrite Ht in Ht0. injection Ht0 as <- <-. destruct Hna. eapply IH'; [|done..]. lia.
Qed.

(** Every leader of a later term has a chosen entry and all before it. *)
Lemma chosen_agree T k tl T' l' tl' :
  chosen n g T k tl → T ≤ T' → h_tlog (g_h g) !! T' = Some (l', tl') → agree k tl' tl.
Proof.
  intros Hch HT Ht'. destruct (decide (T = T')) as [<-|Hne].
  - destruct Hch as (l & e & Q & Ht & He & _). rewrite Ht in Ht'. injection Ht' as <- <-.
    apply agree_refl. by eapply lookup_lt_Some.
  - destruct (tlog_elected _ _ _ Ht') as (L & ext & HL & -> & _).
    assert (agree k L tl) as Ha by (eapply elected_complete; [done| |done..]; lia).
    eapply agree_trans; [|exact Ha]. apply agree_app, Ha.
Qed.

Lemma committed_leader L c B T l tl :
  valid (h_tlog (g_h g)) L → committed n g L c B → B ≤ T → h_tlog (g_h g) !! T = Some (l, tl) →
  agree c L tl.
Proof.
  intros Hv Hc HB Ht. destruct Hc as [->|(T0 & k & tl0 & HT0 & Hch & Hck & Ha)].
  - apply agree_zero; [done|]. by destruct (Hok _ _ _ Ht).
  - eapply agree_trans; [exact Ha|]. apply agree_sym. eapply agree_le; [|exact Hck].
    eapply chosen_agree; [exact Hch| |exact Ht]. lia.
Qed.

Lemma committed_follows fl fl' c B T l tl :
  valid (h_tlog (g_h g)) fl → committed n g fl c B → B ≤ T → h_tlog (g_h g) !! T = Some (l, tl) →
  follows tl fl fl' → committed n g fl' c T.
Proof.
  intros Hv Hc HB Ht Hfo. pose proof (committed_leader _ _ _ _ _ _ Hv Hc HB Ht) as Ha.
  destruct Hc as [->|(T0 & k & tl0 & HT0 & Hch & Hck & Ha0)]; [by left|].
  right. exists T0, k, tl0. split_and!; try done; [lia|].
  eapply agree_trans; [eapply agree_follows; [exact Hfo|exact Ha]|].
  eapply agree_trans; [by apply agree_sym|done].
Qed.

Lemma decided_unique k c c' : decided n g k c → decided n g k c' → c = c'.
Proof.
  intros (T1 & k1 & tl1 & e1 & H1 & Hk1 & He1 & <-) (T2 & k2 & tl2 & e2 & H2 & Hk2 & He2 & <-).
  assert (tl1 !! k = tl2 !! k) as Heq; [|congruence].
  pose proof H1 as (l1 & _ & _ & Ht1 & _). pose proof H2 as (l2 & _ & _ & Ht2 & _).
  destruct (decide (T1 ≤ T2)).
  - symmetry. eapply agree_lookup; [eapply chosen_agree; [exact H1|done|exact Ht2]|lia].
  - eapply agree_lookup; [eapply chosen_agree; [exact H2| |exact Ht1]|]; lia.
Qed.
End static.

(** ** Growing histories *)

Record gext g g' : Prop := {
  ge_votes : h_votes (g_h g) ⊆ h_votes (g_h g');
  ge_tlog : tlog_ext (h_tlog (g_h g)) (h_tlog (g_h g'));
  ge_vlog : g_vlog g ⊆ g_vlog g';
  ge_acks v T k : acked g v T k → acked g' v T k;
}.

Lemma gext_refl g : gext g g.
Proof. split; try done. apply tlog_ext_refl. Qed.

Lemma tlog_ext_trans (t1 t2 t3 : gmap Z (nat * list (LogEntry Cmd))) :
  tlog_ext t1 t2 → tlog_ext t2 t3 → tlog_ext t1 t3.
Proof.
  intros H1 H2 T l tl Ht. destruct (H1 _ _ _ Ht) as [x Hx]. destruct (H2 _ _ _ Hx) as [y Hy].
  exists (x ++ y). by rewrite app_assoc.
Qed.

Lemma gext_trans g1 g2 g3 : gext g1 g2 → gext g2 g3 → gext g1 g3.
Proof.
  intros [] []. split; [by etrans|by eapply tlog_ext_trans|by etrans|auto].
Qed.

Lemma agree_grow k L tl ext : agree k L tl → agree k L (tl ++ ext).
Proof.
  intros Ha. eapply agree_trans; [exact Ha|]. apply agree_sym, agree_app. by eapply agree_length.
Qed.

Lemma broken_mono g g' T1 T0 k : gext g g' → broken g T1 T0 k → broken g' T1 T0 k.
Proof.
  intros Hg (l1 & tl1 & L1 & l0 & tl0 & Ht1 & HL1 & Ht0 & Hk & Hna).
  destruct (ge_tlog _ _ Hg _ _ _ Ht1) as [x1 Ht1']. destruct (ge_tlog _ _ Hg _ _ _ Ht0) as [x0 Ht0'].
  exists l1, (tl1 ++ x1), L1, l0, (tl0 ++ x0). split_and!; try done.
  - eapply lookup_weaken; [exact HL1|apply Hg].
  - rewrite length_app. lia.
  - intros Ha. apply Hna. eapply agree_trans; [exact Ha|]. by apply agree_app.
Qed.

Lemma locked_mono n g g' v L B0 B1 :
  hist_cm n g → gext g g' → (∀ T0 k, T0 ≤ B0 → acked g' v T0 k → acked g v T0 k) →
  locked g v L B0 B1 → locked g' v L B0 B1.
Proof.
  intros Hh Hg Hacks H T0 k l tl HT0 Hk Ht. apply Hacks in Hk; [|done].
  destruct (hc_ack _ _ Hh _ _ _ Hk) as (l0 & tl0 & Ht0 & Hlen).
  destruct (ge_tlog _ _ Hg _ _ _ Ht0) as [x Ht']. rewrite Ht in Ht'. injection Ht' as -> ->.
  destruct (H _ _ _ _ HT0 Hk Ht0) as [Ha|(T1 & HT1 & Hb)].
  - left. by apply agree_grow.
  - right. exists T1. split; [done|]. by eapply broken_mono.
Qed.

Lemma chosen_mono n g g' T k tl :
  gext g g' → chosen n g T k tl → ∃ ext, chosen n g' T k (tl ++ ext).
Proof.
  intros Hg (l & e & Q & Ht & He & HT & HQ & Hacks).
  destruct (ge_tlog _ _ Hg _ _ _ Ht) as [x Ht']. exists x, l, e, Q. split_and!; try done.
  - by apply lookup_app_l_Some.
  - intros v Hv. apply Hg. auto.
Qed.

Lemma committed_mono n g g' L c B B' :
  gext g g' → B ≤ B' → committed n g L c B → committed n g' L c B'.
Proof.
  intros Hg HB [->|(T & k & tl & HT & Hch & Hck & Ha)]; [by left|].
  destruct (chosen_mono _ _ _ _ _ _ Hg Hch) as [x Hch']. right. exists T, k, (tl ++ x).
  split_and!; try done; [lia|by apply agree_grow].
Qed.

Lemma committed_agree n g L L' c B : agree c L' L → committed n g L c B → committed n g L' c B.
Proof.
  intros Ha [->|(T & k & tl & HT & Hch & Hck & Ha0)]; [by left|]. right. exists T, k, tl.
  split_and!; try done. by eapply agree_trans.
Qed.

Lemma committed_le n g L c c' B : committed n g L c B → (c' ≤ c)%nat → committed n g L c' B.
Proof.
  intros [->|(T & k & tl & HT & Hch & Hck & Ha0)] Hle; [left; lia|]. right. exists T, k, tl.
  split_and!; try done; [lia|by eapply agree_le].
Qed.

Lemma decided_mono n g g' k c : gext g g' → decided n g k c → decided n g' k c.
Proof.
  intros Hg (T & k' & tl & e & Hch & Hk & He & Hc).
  destruct (chosen_mono _ _ _ _ _ _ Hg Hch) as [x Hch']. exists T, k', (tl ++ x), e.
  split_and!; try done. by apply lookup_app_l_Some.
Qed.

Lemma committed_decided n g L c B k e :
  committed n g L c B → (0 < k ≤ c)%nat → L !! k = Some e → decided n g k (Command e).
Proof.
  intros [->|(T & k' & tl & HT & Hch & Hck & Ha)] Hk He; [lia|]. exists T, k', tl, e.
  split_and!; try done; [lia|]. rewrite <-He. symmetry. eapply agree_lookup; [exact Ha|lia].
Qed.

(** ** The ways a history grows *)

(** Peer [i] acknowledges index [k] to the leader of [T]. *)
Definition add_ack (i : nat) T k g : Ghost :=
  mkGhost (g_h g) (<[(i, T) := Nat.max k (default k (g_acks g !! (i, T)))]> (g_acks g)) (g_vlog g).

Lemma add_ack_acked i T k g v T' k' :
  acked (add_ack i T k g) v T' k' ↔ acked g v T' k' ∨ (v = i ∧ T' = T ∧ (k' ≤ k)%nat).
Proof.
  unfold acked. cbn. destruct (decide ((v, T') = (i, T))) as [[= -> ->]|Hne].
  - rewrite lookup_insert_eq. destruct (g_acks g !! (i, T)) as [m|]; cbn.
    + split; [intros (? & [= <-] & ?)|intros [(? & [= <-] & ?)|(_ & _ & ?)]].
      * destruct (decide (k' ≤ k)%nat); [right; auto|left; exists m; split; [done|lia]].
      * eexists. split; [done|lia].
      * eexists. split; [done|lia].
    + split; [intros (? & [= <-] & ?)|intros [(? & [=] & ?)|(_ & _ & ?)]].
      * right. split_and!; [done..|lia].
      * eexists. split; [done|lia].
  - rewrite lookup_insert_ne by done. split; [by left|]. intros [?|(-> & -> & _)]; done.
Qed.

Lemma gext_ack i T k g : gext g (add_ack i T k g).
Proof. split; try done; [apply tlog_ext_refl|]. intros. apply add_ack_acked. by left. Qed.

Lemma hist_ack n i T k l tl g :
  hist_cm n g → h_tlog (g_h g) !! T = Some (l, tl) → (k < length tl)%nat →
  (∀ T' c, h_votes (g_h g) !! (i, T') = Some c → T' ≤ T) → hist_cm n (add_ack i T k g).
Proof.
  intros Hh Ht Hk Hpast. pose proof (gext_ack i T k g) as Hg.
  assert (∀ v T' L B1, is_Some (h_votes (g_h g) !! (v, T')) →
    locked g v L (T' - 1) B1 → locked (add_ack i T k g) v L (T' - 1) B1) as Hl.
  { intros v T' L B1 [c Hv]. eapply locked_mono; [done|done|].
    intros T0 k0 HT0 [?|(-> & -> & _)]%add_ack_acked; [done|]. apply Hpast in Hv. lia. }
  destruct Hh as [Ha Hv Hs Hvo Htl]. split; try done.
  - intros v T' k' [?%Ha|(-> & -> & ?)]%add_ack_acked; [done|]. exists l, tl. split; [done|lia].
  - intros v T' c Hvote. destruct (Hvo _ _ _ Hvote) as (Lv & Lc & ? & ? & ? & ?).
    exists Lv, Lc. split_and!; try done. by apply Hl.
  - intros T' l' tl' Ht'. destruct (Htl _ _ _ Ht') as (L & ext & ? & ? & ? & Q & ? & HQ).
    exists L, ext. split_and!; try done. exists Q. split; [done|]. intros v Hq.
    destruct (HQ _ Hq) as (Hvote & Lv & ? & ?). split; [done|]. exists Lv. split; [done|]. by apply Hl.
Qed.

(** Peer [i], whose log is [L], votes for [c] in term [T]. *)
Definition cast_vote (i : nat) T (c : nat) L g : Ghost :=
  mkGhost (with_vote i T c (g_h g)) (g_acks g) (<[(i, T) := L]> (g_vlog g)).

Lemma gext_cast n i T c L g :
  hist_cm n g → h_votes (g_h g) !! (i, T) = None → gext g (cast_vote i T c L g).
Proof.
  intros Hh Hn. split; cbn; try done.
  - by apply insert_subseteq.
  - apply tlog_ext_refl.
  - apply insert_subseteq. destruct (g_vlog g !! (i, T)) as [L'|] eqn:E; [|done].
    destruct (hc_vlog _ _ Hh _ _ _ E) as [_ [? ?]]. congruence.
Qed.

Lemma newer_refl t L : valid t L → newer L L.
Proof.
  intros [Hz _]. destruct (last L) as [e|] eqn:E; [|apply last_None in E; by subst].
  exists e, e. split_and!; try done. right. done.
Qed.

Lemma hist_cast n i T c L Lc g :
  hist_cm n g → h_votes (g_h g) !! (i, T) = None → valid (h_tlog (g_h g)) L →
  locked g i L (T - 1) T →
  (c = i ∧ Lc = L ∧ (∀ e, e ∈ L → Term e < T)) ∨ (c ≠ i ∧ g_vlog g !! (c, T) = Some Lc) →
  newer Lc L → hist_cm n (cast_vote i T c L g).
Proof.
  intros Hh Hn HvL Hlock Hc Hnew. pose proof (gext_cast n i T c L g Hh Hn) as Hg.
  assert (∀ v L' B0 B1, locked g v L' B0 B1 → locked (cast_vote i T c L g) v L' B0 B1) as Hl.
  { intros v L' B0 B1. by apply (locked_mono n). }
  assert (∀ v T' L', g_vlog g !! (v, T') = Some L' → (v, T') ≠ (i, T)) as Hne.
  { intros v T' L' HL [= -> ->]. destruct (hc_vlog _ _ Hh _ _ _ HL) as [_ [? ?]]. congruence. }
  destruct Hh as [Ha Hv Hs Hvo Htl]. split; cbn; try done.
  - intros v T' L'. rewrite lookup_insert_Some.
    intros [[[= <- <-] <-]|[? HL']]; [split; [done|by rewrite lookup_insert_eq]|].
    rewrite lookup_insert_ne by done. by eapply Hv.
  - intros v T' L'. rewrite !lookup_insert_Some.
    intros [[Hx ->]|[? Hvote]] [[Hy ?]|[? HL']]; try congruence.
    + injection Hx as -> ->. destruct Hc as [(_ & -> & Hlt)|[? _]]; [|done]. by subst.
    + by eapply Hs.
  - intros v T' c'. rewrite lookup_insert_Some. intros [[[= <- <-] <-]|[? Hvote]].
    + exists L, Lc. split_and!; try done; [apply lookup_insert_eq| |by apply Hl].
      destruct Hc as [(-> & -> & _)|[Hci HLc]]; [apply lookup_insert_eq|].
      by rewrite lookup_insert_ne by congruence.
    + destruct (Hvo _ _ _ Hvote) as (Lv & Lc' & HLv & HLc & ? & ?). exists Lv, Lc'.
      rewrite !lookup_insert_ne by (apply not_eq_sym; eauto). split_and!; try done. by apply Hl.
  - intros T' l tl Ht. destruct (Htl _ _ _ Ht) as (L' & ext & HL' & ? & ? & Q & ? & HQ).
    exists L', ext. rewrite lookup_insert_ne by (apply not_eq_sym; eauto). split_and!; try done.
    exists Q. split; [done|]. intros v Hq. destruct (HQ _ Hq) as (Hvote & Lv & HLv & ?).
    rewrite !lookup_insert_ne by (apply not_eq_sym; eauto).
    split; [done|]. exists Lv. split; [done|]. by apply Hl.
Qed.

(** The leader [i] of term [T], elected with the log [L], now has the log [fl]. *)
Definition lead (i : nat) T fl g : Ghost := mkGhost (with_tlog i T fl (g_h g)) (g_acks g) (g_vlog g).

Lemma gext_lead i T fl g :
  (∀ l tl, h_tlog (g_h g) !! T = Some (l, tl) → l = i ∧ ∃ ext, fl = tl ++ ext) →
  gext g (lead i T fl g).
Proof. intros Hold. split; cbn; try done. by apply grows_tlog. Qed.

Lemma hist_lead n i T fl L ext Q g :
  hist_cm n g →
  (∀ l tl, h_tlog (g_h g) !! T = Some (l, tl) → l = i ∧ ∃ ext, fl = tl ++ ext) →
  g_vlog g !! (i, T) = Some L → fl = L ++ ext → (∀ e, e ∈ ext → Term e = T) →
  majority n Q →
  (∀ v, v ∈ Q → h_votes (g_h g) !! (v, T) = Some i ∧
     ∃ Lv, g_vlog g !! (v, T) = Some Lv ∧ locked g v Lv (T - 1) (T - 1)) →
  hist_cm n (lead i T fl g).
Proof.
  intros Hh Hold HL -> Hext HQ Hvoters. pose proof (gext_lead i T _ g Hold) as Hg.
  assert (∀ v L' B0 B1, locked g v L' B0 B1 → locked (lead i T (L ++ ext) g) v L' B0 B1) as Hl.
  { intros v L' B0 B1. by apply (locked_mono n). }
  assert (∀ P T' (l : nat), (∀ v, v ∈ P → h_votes (g_h g) !! (v, T') = Some l ∧
     ∃ Lv, g_vlog g !! (v, T') = Some Lv ∧ locked g v Lv (T' - 1) (T' - 1)) →
    ∀ v : nat, v ∈ (P : gset nat) → h_votes (g_h g) !! (v, T') = Some l ∧ ∃ Lv,
      g_vlog g !! (v, T') = Some Lv ∧ locked (lead i T (L ++ ext) g) v Lv (T' - 1) (T' - 1)) as HlQ.
  { intros P T' l HP v Hv. destruct (HP v Hv) as (? & Lv & ? & ?). split; [done|]. exists Lv. auto. }
  destruct Hh as [Ha Hv Hs Hvo Htl]. split; cbn; try done.
  - intros v T' k (l & tl & Ht & Hk)%Ha. destruct (ge_tlog _ _ Hg _ _ _ Ht) as [x Ht'].
    exists l, (tl ++ x). split; [done|]. rewrite length_app. lia.
  - intros v T' L' [Hval ?]%Hv. split; [|done]. eapply valid_mono; [apply Hg|done].
  - intros v T' c Hvote. destruct (Hvo _ _ _ Hvote) as (Lv & Lc & ? & ? & ? & ?).
    exists Lv, Lc. split_and!; try done. by apply Hl.
  - intros T' l tl. rewrite lookup_insert_Some. intros [[<- [= <- <-]]|[Hne Ht]].
    + exists L, ext. split_and!; try done. exists Q. split; [done|]. by apply HlQ.
    + destruct (Htl _ _ _ Ht) as (L' & ext' & ? & ? & ? & P & ? & HP).
      exists L', ext'. split_and!; try done. exists P. split; [done|]. by apply HlQ.
Qed.

(** Peer [i]'s log is now [fl]. *)
Definition move_log (i : nat) fl g : Ghost := mkGhost (with_flog i fl (g_h g)) (g_acks g) (g_vlog g).

Lemma gext_move i fl g : gext g (move_log i fl g).
Proof. split; try done. apply tlog_ext_refl. Qed.

Lemma hist_move n i fl g : hist_cm n g → hist_cm n (move_log i fl g).
Proof. intros []. by split. Qed.
End quorum.
