(* ===== verification/RaftCommit.v ===== *)
(** * RaftCommit: state machine safety without stale replies

    [RaftRuns] shows that the peer of [raft.go] can hand two commands to the
    services as the command of one index, because the continuation of an
    AppendEntries or InstallSnapshot call does not check that the term of the
    request is still the current one.  This file proves that nothing else is
    needed to lose safety: in every execution in which no such reply is
    processed ([fresh_step]), with lost, delayed and reordered messages,
    crashes, restarts and snapshots, no two services are ever handed different
    commands for one index, at any two moments of the execution. *)

From stdpp Require Import functions.
From S2P Require Import Prelude Persister Raft RaftFacts RaftVolatile RaftNet RaftSafety RaftQuorum.

Section commit.
Context {Cmd : Type} `{!Codec (PersistedState Cmd)}.
Implicit Types (rf : Raft Cmd) (nd : @Node Cmd) (cl : @Call Cmd) (cs : list (@Call Cmd))
  (s : @Sys Cmd) (fl tl : list (LogEntry Cmd)) (n i j : nat) (T : Z) (g : @Ghost Cmd).

(** ** Executions without stale replies *)

(** The term under which a leader's request was sent. *)
Definition leaderTerm (rq : @Request Cmd) : option Z :=
  match rq with
  | RqVote _ => None
  | RqAppend a => Some (ae_Term a)
  | RqSnap a => Some (is_Term a)
  end.

Definition replyTerm (rs : Response) : Z :=
  match rs with
  | RsVote r => rvr_Term r
  | RsAppend r => aer_Term r
  | RsSnap r => isr_Term r
  end.

(** A reply to a leader's request is fresh when the caller steps down on it, or
    is still in the term of the request. *)
Definition fresh_reply (cl : @Call Cmd) (s : @Sys Cmd) : bool :=
  match c_status cl, leaderTerm (c_req cl), nodes s !! c_from cl with
  | Answered r, Some T, Some nd =>
      bool_decide (CurrentTerm (nd_raft nd) < replyTerm r ∨ CurrentTerm (nd_raft nd) = T)
  | _, _, _ => true
  end.

Definition fresh_label (l : @Label Cmd) (s : @Sys Cmd) : bool :=
  match l with
  | LReply c _ => match calls s !! c with Some cl => fresh_reply cl s | None => true end
  | _ => true
  end.

Definition fresh_step s s' : Prop := ∃ l, fresh_label l s = true ∧ sys_step l s = Some s'.

(** ** The invariant *)

(** What the applier has handed over, is handing over and will. *)
Definition applier_ok n g nd : Prop :=
  let rf := nd_raft nd in
  LastIncludedIndex rf ≤ commitIndex rf ∧ 0 ≤ lastApplied rf ≤ commitIndex rf ∧
  (snapshotPending rf = true → lastApplied rf ≤ LastIncludedIndex rf) ∧
  match nd_inflight nd with
  | None => snapshotPending rf = true ∨ LastIncludedIndex rf ≤ lastApplied rf
  | Some (CommandMsg c k) =>
      k = lastApplied rf + 1 ∧ k ≤ commitIndex rf ∧ decided n g (Z.to_nat k) c ∧
      (snapshotPending rf = true ∧ k ≤ LastIncludedIndex rf ∨
       snapshotPending rf = false ∧ LastIncludedIndex rf ≤ k)
  | Some (SnapshotMsg _ _ idx) =>
      lastApplied rf ≤ idx ≤ commitIndex rf ∧ idx ≤ LastIncludedIndex rf ∧
      (snapshotPending rf = true ∨ LastIncludedIndex rf = idx)
  end.

Record node_cm n g i nd fl : Prop := {
  nc_acks T k : acked g i T k → T ≤ CurrentTerm (nd_raft nd);
  nc_lock : locked g i fl (CurrentTerm (nd_raft nd)) (CurrentTerm (nd_raft nd));
  nc_terms e : e ∈ fl → Term e ≤ CurrentTerm (nd_raft nd);
  nc_cand : state (nd_raft nd) = candidate →
            g_vlog g !! (i, CurrentTerm (nd_raft nd)) = Some fl ∨
            is_Some (h_tlog (g_h g) !! CurrentTerm (nd_raft nd));
  nc_own : state (nd_raft nd) = leader → acked g i (CurrentTerm (nd_raft nd)) (length fl - 1);
  nc_match j m : state (nd_raft nd) = leader → matchIndex (nd_raft nd) !! j = Some m → 0 < m →
                 acked g j (CurrentTerm (nd_raft nd)) (Z.to_nat m);
  nc_commit : committed n g fl (Z.to_nat (commitIndex (nd_raft nd))) (CurrentTerm (nd_raft nd));
  nc_applier : applier_ok n g nd;
}.

Definition call_cm n g cl : Prop :=
  match c_req cl with
  | RqVote a => ∃ L e, g_vlog g !! (c_from cl, rv_Term a) = Some L ∧
      rv_LastLogIndex a = zlen L - 1 ∧ last L = Some e ∧ rv_LastLogTerm a = Term e
  | RqAppend a =>
      0 ≤ ae_LeaderCommit a ≤ ae_PrevLogIndex a + zlen (ae_Entries a) ∧
      (∃ l tl, h_tlog (g_h g) !! ae_Term a = Some (l, tl) ∧
               committed n g tl (Z.to_nat (ae_LeaderCommit a)) (ae_Term a)) ∧
      match c_status cl with
      | Answered (RsAppend r) => aer_Success r = true →
          acked g (c_to cl) (ae_Term a) (Z.to_nat (ae_PrevLogIndex a + zlen (ae_Entries a)))
      | _ => True
      end
  | RqSnap a =>
      (∃ l tl, h_tlog (g_h g) !! is_Term a = Some (l, tl) ∧
               committed n g tl (Z.to_nat (is_LastIncludedIndex a)) (is_Term a)) ∧
      match c_status cl with
      | Answered (RsSnap r) => isr_Term r ≤ is_Term a →
          acked g (c_to cl) (is_Term a) (Z.to_nat (is_LastIncludedIndex a))
      | _ => True
      end
  end.

(** The goroutine that waits for a call is the leader's, or its term is over. *)
Definition live_ok (nds : list Node) cl : Prop :=
  c_live cl = true → ∀ T nd, leaderTerm (c_req cl) = Some T → nds !! c_from cl = Some nd →
  T < CurrentTerm (nd_raft nd) ∨
  (T = CurrentTerm (nd_raft nd) ∧ state (nd_raft nd) = leader).

Record cm n s g : Prop := {
  cm_inv : inv n s (g_h g);
  cm_hist : hist_cm n g;
  cm_nodes i nd : nodes s !! i = Some nd → node_cm n g i nd (h_flog (g_h g) i);
  cm_calls cl : cl ∈ calls s → call_cm n g cl ∧ live_ok (nodes s) cl;
}.

(** ** Frames *)

(** Only peer [i]'s part of the history changes. *)
Record only i g g' : Prop := {
  on_ext : gext g g';
  on_acks v T k : v ≠ i → acked g' v T k → acked g v T k;
  on_flog v : v ≠ i → h_flog (g_h g') v = h_flog (g_h g) v;
}.

Lemma applier_ok_mono n g g' nd : gext g g' → applier_ok n g nd → applier_ok n g' nd.
Proof.
  intros Hg (? & ? & ? & H). split_and!; try done; [lia..|]. destruct (nd_inflight nd) as [[c k|]|]; [|done..].
  destruct H as (? & ? & Hd & ?). split_and!; try done. by eapply decided_mono.
Qed.

Lemma node_cm_other n g g' i j nd fl :
  hist_cm n g → only i g g' → j ≠ i → node_cm n g j nd fl → node_cm n g' j nd fl.
Proof.
  intros Hh [Hg Ha _] Hj []. split; try done.
  - intros T k Hk. eapply nc_acks0, Ha; done.
  - eapply locked_mono; [done|done| |done]. intros. by apply Ha.
  - intros [Hv|[[l tl] Ht]]%nc_cand0.
    + left. eapply lookup_weaken; [exact Hv|apply Hg].
    + right. destruct (ge_tlog _ _ Hg _ _ _ Ht) as [x ->]. done.
  - intros. apply Hg. auto.
  - intros. apply Hg. eauto.
  - eapply committed_mono; [done| |done]. lia.
  - by eapply applier_ok_mono.
Qed.

Lemma call_cm_mono n g g' cl : gext g g' → call_cm n g cl → call_cm n g' cl.
Proof.
  intros Hg. pose proof (ge_acks _ _ Hg) as Ha.
  assert (∀ T c, (∃ l tl, h_tlog (g_h g) !! T = Some (l, tl) ∧ committed n g tl c T) →
                 ∃ l tl, h_tlog (g_h g') !! T = Some (l, tl) ∧ committed n g' tl c T) as Hc.
  { intros T c (l & tl & Ht & Hcm). destruct (ge_tlog _ _ Hg _ _ _ Ht) as [x Ht'].
    exists l, (tl ++ x). split; [done|]. eapply committed_mono; [done|reflexivity|].
    destruct Hcm as [->|(T0 & k & tl0 & ? & ? & ? & Hag)]; [by left|]. right. exists T0, k, tl0.
    split_and!; try done. eapply agree_trans; [|exact Hag]. apply agree_app, Hag. }
  unfold call_cm. destruct (c_req cl) as [a|a|a].
  - intros (L & e & HL & ?). exists L, e. split; [|done]. eapply lookup_weaken; [exact HL|apply Hg].
  - intros (? & ? & Hst). split_and!; [lia..|auto|]. destruct (c_status cl) as [|[]|]; auto.
  - intros (? & Hst). split; [auto|]. destruct (c_status cl) as [|[]|]; auto.
Qed.

(** A peer's term and leadership only end by a new term. *)
Definition onward rf rf' : Prop :=
  CurrentTerm rf < CurrentTerm rf' ∨
  (CurrentTerm rf' = CurrentTerm rf ∧ (state rf = leader → state rf' = leader)).

Lemma live_ok_onward nds i nd nd' cl :
  nds !! i = Some nd → onward (nd_raft nd) (nd_raft nd') → live_ok nds cl →
  live_ok (<[i := nd']> nds) cl.
Proof.
  intros Hi Hon H Hl T nd0 HT Hnd0. destruct (decide (c_from cl = i)) as [Heq|Hne].
  - rewrite Heq in *. rewrite list_lookup_insert_eq in Hnd0 by (by eapply lookup_lt_Some).
    injection Hnd0 as <-. destruct (H Hl T nd HT) as [?|[? ?]]; [congruence| |];
      destruct Hon as [?|[? Hs]]; [left; lia..| |].
    + left. lia.
    + right. split; [lia|auto].
  - rewrite list_lookup_insert_ne in Hnd0 by done. by apply (H Hl).
Qed.

(** The frame of every step: peer [i] moved and calls were answered or added. *)
Lemma cm_frame_calls n s g g' i nd' cs :
  cm n s g → only i g g' →
  inv n (mkSys (<[i := nd']> (nodes s)) cs) (g_h g') → hist_cm n g' →
  node_cm n g' i nd' (h_flog (g_h g') i) →
  (∀ cl, cl ∈ cs → call_cm n g' cl ∧ live_ok (<[i := nd']> (nodes s)) cl) →
  cm n (mkSys (<[i := nd']> (nodes s)) cs) g'.
Proof.
  intros [Hinv Hh Hnds Hcs] Ho Hinv' Hh' Hnd' Hcs'. split; cbn; try done.
  intros j ndj [(-> & -> & _)|[Hne Hj]]%list_lookup_insert_Some; [done|].
  rewrite (on_flog _ _ _ Ho) by done. eapply node_cm_other; [exact Hh|exact Ho|done|]. by apply Hnds.
Qed.

Lemma cm_frame n s g g' i nd nd' cs :
  cm n s g → only i g g' → nodes s !! i = Some nd → onward (nd_raft nd) (nd_raft nd') →
  inv n (mkSys (<[i := nd']> (nodes s)) cs) (g_h g') → hist_cm n g' →
  node_cm n g' i nd' (h_flog (g_h g') i) →
  (∀ cl, cl ∈ cs → cl ∈ calls s ∨
     (call_cm n g' cl ∧ live_ok (<[i := nd']> (nodes s)) cl)) →
  cm n (mkSys (<[i := nd']> (nodes s)) cs) g'.
Proof.
  intros Hcm Ho Hi Hon Hinv' Hh' Hnd' Hcs'. eapply cm_frame_calls; try done.
  intros cl [Hin|?]%Hcs'; [|done]. destruct (cm_calls _ _ _ Hcm _ Hin). split.
  - eapply call_cm_mono; [apply Ho|done].
  - by eapply live_ok_onward.
Qed.

Lemma alter_status_elem cs c cl st cl' :
  cs !! c = Some cl → cl' ∈ alter (with_status st) c cs → cl' ∈ cs ∨ cl' = with_status st cl.
Proof.
  intros Hc (k & Hk)%list_elem_of_lookup. destruct (decide (c = k)) as [<-|Hne].
  - rewrite list_lookup_alter_eq, Hc in Hk. injection Hk as <-. by right.
  - rewrite list_lookup_alter_ne in Hk by done. left. by eapply list_elem_of_lookup_2.
Qed.

Lemma only_move i fl g : only i g (move_log i fl g).
Proof. split; [apply gext_move|done|]. intros v Hv. cbn. by rewrite fn_lookup_insert_ne. Qed.

(** ** A peer that keeps its log *)

Lemma locked_raise g v L B0 B1 B0' B1' :
  (∀ T k, acked g v T k → T ≤ B0) → locked g v L B0 B1 → B1 ≤ B1' → locked g v L B0' B1'.
Proof.
  intros Ha H HB T0 k l tl _ Hk Ht. eapply locked_weaken; [exact H|reflexivity|exact HB| |done..].
  by eapply Ha.
Qed.

Lemma applier_ok_vol n g nd nd' :
  vol (nd_raft nd') = vol (nd_raft nd) →
  LastIncludedIndex (nd_raft nd') = LastIncludedIndex (nd_raft nd) →
  nd_inflight nd' = nd_inflight nd → applier_ok n g nd → applier_ok n g nd'.
Proof.
  unfold vol, applier_ok. intros Hv Hi Hf. injection Hv as Hci Hla Hsp _.
  by rewrite Hf, Hi, Hci, Hla, Hsp.
Qed.

Lemma node_cm_moves n g i nd nd' fl :
  node_cm n g i nd fl → CurrentTerm (nd_raft nd) ≤ CurrentTerm (nd_raft nd') →
  state (nd_raft nd') = follower ∨
    (CurrentTerm (nd_raft nd') = CurrentTerm (nd_raft nd) ∧ state (nd_raft nd') = state (nd_raft nd)) →
  vol (nd_raft nd') = vol (nd_raft nd) →
  LastIncludedIndex (nd_raft nd') = LastIncludedIndex (nd_raft nd) →
  nd_inflight nd' = nd_inflight nd → node_cm n g i nd' fl.
Proof.
  intros [] Hle Hs Hv Hi Hf. pose proof Hv as Hv'. unfold vol in Hv'. injection Hv' as Hci _ _ Hmi.
  assert (∀ st, st ≠ follower → state (nd_raft nd') = st →
    CurrentTerm (nd_raft nd') = CurrentTerm (nd_raft nd) ∧ state (nd_raft nd) = st) as Hst.
  { intros st Hne <-. destruct Hs as [?|[? ->]]; done. }
  split.
  - intros T k ?%nc_acks0. lia.
  - by eapply locked_raise.
  - intros e ?%nc_terms0. lia.
  - intros Hc. apply Hst in Hc as [-> Hc]; [|done]. by apply nc_cand0.
  - intros Hc. apply Hst in Hc as [-> Hc]; [|done]. by apply nc_own0.
  - intros j m Hc. apply Hst in Hc as [-> Hc]; [|done]. rewrite Hmi. by apply nc_match0.
  - rewrite Hci. eapply committed_mono; [apply gext_refl|exact Hle|done].
  - by eapply applier_ok_vol.
Qed.

Lemma node_cm_move n g i j fl' nd fl : node_cm n g i nd fl → node_cm n (move_log j fl' g) i nd fl.
Proof. intros []. by split. Qed.

(** Its history is the same but for the log it keeps. *)
Lemma cm_quiet n s g i nd nd' cs :
  cm n s g → nodes s !! i = Some nd → onward (nd_raft nd) (nd_raft nd') →
  inv n (mkSys (<[i := nd']> (nodes s)) cs) (with_flog i (h_flog (g_h g) i) (g_h g)) →
  node_cm n g i nd' (h_flog (g_h g) i) →
  (∀ cl, cl ∈ cs → cl ∈ calls s ∨
     (call_cm n g cl ∧ live_ok (<[i := nd']> (nodes s)) cl)) →
  cm n (mkSys (<[i := nd']> (nodes s)) cs) (move_log i (h_flog (g_h g) i) g).
Proof.
  intros Hcm Hi Hon Hinv Hnd Hcs. apply (cm_frame n s g _ i nd); try done.
  - apply only_move.
  - by apply hist_move, Hcm.
  - cbn. rewrite fn_lookup_insert. by apply node_cm_move.
Qed.

(** A call that keeps its request and its caller. *)
Lemma live_ok_status nds st cl : live_ok nds cl → live_ok nds (with_status st cl).
Proof. done. Qed.

(** The calls after one has been answered or finished. *)
Lemma status_calls n s g i nd nd' c cl st :
  cm n s g → calls s !! c = Some cl → nodes s !! i = Some nd →
  onward (nd_raft nd) (nd_raft nd') → call_cm n g (with_status st cl) →
  ∀ cl', cl' ∈ alter (with_status st) c (calls s) → cl' ∈ calls s ∨
    (call_cm n g cl' ∧ live_ok (<[i := nd']> (nodes s)) cl').
Proof.
  intros Hcm Hc Hi Hon Hcl cl' [?| ->]%(alter_status_elem _ _ cl); [by left|right|done].
  split; [done|]. apply live_ok_status. eapply live_ok_onward; [done..|].
  eapply cm_calls; [done|]. by eapply list_elem_of_lookup_2.
Qed.

Lemma call_cm_finished n g cl : call_cm n g cl → call_cm n g (with_status Finished cl).
Proof.
  unfold call_cm. cbn. destruct (c_req cl); [done| |]; intros H; decompose [and] H; by split_and!.
Qed.

(** ** Elections *)

(** The end of the log as elections compare it. *)
Lemma last_log n h cs i nd fl :
  node_ok n h cs i nd fl →
  lastLogIndex (nd_raft nd) = zlen fl - 1 ∧
  ∀ t, lastLogTerm (nd_raft nd) = Ret t → ∃ e, last fl = Some e ∧ Term e = t.
Proof.
  intros Hok. destruct (nk_log _ _ _ _ _ _ Hok) as (b & Hb & Hr).
  pose proof (log_rel_length _ _ _ Hr) as Hlen. unfold lastLogIndex, lastLogTerm, zlen. split; [lia|].
  intros t (e & He & [= <-])%bind_ret_inv. apply index_Ret in He as [? He].
  destruct (log_rel_lookup _ _ _ _ _ Hr He) as (e' & He' & HT).
  exists e'. split; [|done]. rewrite last_lookup, <-He'. f_equal.
  apply lookup_lt_Some in He. unfold zlen in *. lia.
Qed.

Lemma elect_cm n s g i nd now rf a :
  cm n s g → nodes s !! i = Some nd → startElection now (nd_raft nd) = Ret (rf, a) →
  ∃ g', cm n (mkSys (<[i := mkNode rf (<[rv_Term a := newElection]> (nd_elections nd))
                         (nd_inflight nd)]> (nodes s)) (calls s ++ voteCalls n i a)) g' ∧ gext g g'.
Proof.
  intros Hcm Hi Hrun. pose proof (elect_inv _ _ _ _ _ _ _ _ (cm_inv _ _ _ Hcm) Hi Hrun) as Hinv.
  pose proof (inv_nodes _ _ _ (cm_inv _ _ _ Hcm) _ _ Hi) as Hok.
  destruct (last_log _ _ _ _ _ _ Hok) as [Hlast HlastT].
  pose proof (cm_nodes _ _ _ Hcm _ _ Hi) as Hnc. pose proof (cm_hist _ _ _ Hcm) as Hh.
  destruct (startElection_vol _ _ _ _ Hrun) as (Hvol & HLI & HLT).
  destruct (HlastT _ HLT) as (e & He & HeT).
  apply startElection_spec in Hrun as (_ & _ & _ & Hli & _ & Ht & _ & Hs & Hat & _).
  set (fl := h_flog (g_h g) i) in *. set (T := CurrentTerm (nd_raft nd)) in *.
  assert (h_votes (g_h g) !! (i, rv_Term a) = None) as Hnew.
  { destruct (h_votes (g_h g) !! (i, rv_Term a)) eqn:E; [|done].
    apply (nk_past _ _ _ _ _ _ Hok) in E. lia. }
  exists (cast_vote i (rv_Term a) i fl g).
  assert (gext g (cast_vote i (rv_Term a) i fl g)) as Hg by (by eapply gext_cast).
  split; [|done]. apply (cm_frame n s g _ i nd); try done.
  - left. cbn. lia.
  - apply (hist_cast n _ _ _ _ fl); [done..|apply Hok| | |].
    + eapply locked_raise; [apply Hnc|apply Hnc|]. lia.
    + left. split_and!; [done..|]. intros x Hx%(nc_terms _ _ _ _ _ Hnc). lia.
    + by eapply newer_refl, Hok.
  - assert (node_cm n g i nd fl) as [] by done. cbn. split; cbn; try done.
    + intros T' k Hk%nc_acks0. lia.
    + rewrite Ht. eapply (locked_mono n g); [done|done|done|]. eapply locked_raise; [done..|]. lia.
    + intros x Hx%nc_terms0. lia.
    + left. rewrite Ht, <-Hat. apply lookup_insert_eq.
    + by rewrite Hs.
    + by rewrite Hs.
    + unfold vol in Hvol. injection Hvol as -> _ _ _. eapply committed_mono; [done| |done]. lia.
    + eapply applier_ok_vol; [| | |eapply applier_ok_mono; done]; done.
  - intros cl [?|(j & -> & _)%voteCalls_elem]%elem_of_app; [by left|right].
    split; [|by intros _]. exists fl, e. cbn. split_and!; [apply lookup_insert_eq|congruence|done..].
Qed.

(** The leader of a term voted for itself in it. *)
Lemma leader_vote n h cs i nd fl :
  node_ok n h cs i nd fl → tlog_ok n h → state (nd_raft nd) = leader →
  VotedFor (nd_raft nd) = Z.of_nat i.
Proof.
  intros Hok Htl Hl. apply (nk_vote _ _ _ _ _ _ Hok).
  by destruct (Htl _ _ _ (nk_leader _ _ _ _ _ _ Hok Hl)) as (_ & ? & _).
Qed.

(** A vote goes to a log that is at least as up to date. *)
Lemma upToDate_newer n h cs i nd fl a L e :
  node_ok n h cs i nd fl → upToDate (nd_raft nd) a = Ret true →
  rv_LastLogIndex a = zlen L - 1 → last L = Some e → rv_LastLogTerm a = Term e → newer L fl.
Proof.
  intros Hok Hup HI He HT. destruct (last_log _ _ _ _ _ _ Hok) as [Hi Hlt].
  apply bind_ret_inv in Hup as (t & Ht & [= Hup]). destruct (Hlt _ Ht) as (x & Hx & HxT).
  exists e, x. split_and!; try done. rewrite Hi, HI, HT in Hup. unfold zlen in Hup.
  apply orb_true_iff in Hup as [H%bool_decide_eq_true|Hup]; [left; lia|].
  apply andb_true_iff in Hup as [H1%bool_decide_eq_true H2%bool_decide_eq_true]. right. lia.
Qed.

Lemma RequestVote_onward n h cs i nd fl now a rf r (from : nat) :
  node_ok n h cs i nd fl → tlog_ok n h → RequestVote now a (nd_raft nd) = Ret (rf, r) →
  rv_CandidateId a = Z.of_nat from → from ≠ i → onward (nd_raft nd) rf.
Proof.
  intros Hok Htl Hrv Hc Hne. apply RequestVote_spec in Hrv as (_ & _ & _ & _ & _ & Ht & Hr).
  destruct (decide (CurrentTerm (nd_raft nd) < rv_Term a)) as [|Hnlt]; [left; lia|right].
  split; [lia|]. intros Hl. destruct (rvr_VoteGranted r).
  - destruct Hr as (_ & _ & _ & _ & Hfree & _). pose proof (leader_vote _ _ _ _ _ _ Hok Htl Hl). lia.
  - destruct Hr as [_ ->]. done.
Qed.

Lemma with_vote_same i T (c : nat) (h : @History Cmd) :
  h_votes h !! (i, T) = Some c → with_vote i T c h = h.
Proof. intros H. unfold with_vote. rewrite insert_id by done. by destruct h. Qed.

Lemma only_refl i g : only i g g.
Proof. split; [apply gext_refl|done..]. Qed.

Lemma deliver_vote_cm n s g now c cl nd rf a r :
  cm n s g → calls s !! c = Some cl → c_req cl = RqVote a → c_status cl = Pending →
  nodes s !! c_to cl = Some nd → RequestVote now a (nd_raft nd) = Ret (rf, r) →
  ∃ g', cm n (mkSys (<[c_to cl := set_raft rf nd]> (nodes s))
                    (alter (with_status (Answered (RsVote r))) c (calls s))) g' ∧ gext g g'.
Proof.
  intros Hcm Hc Hrq Hst Hi Hrun.
  pose proof (deliver_vote _ _ _ _ _ _ _ _ _ _ (cm_inv _ _ _ Hcm) Hc Hrq Hst Hi Hrun) as Hinv.
  pose proof (inv_nodes _ _ _ (cm_inv _ _ _ Hcm) _ _ Hi) as Hok.
  pose proof (inv_tlog _ _ _ (cm_inv _ _ _ Hcm)) as Htl.
  pose proof (cm_nodes _ _ _ Hcm _ _ Hi) as Hnc. pose proof (cm_hist _ _ _ Hcm) as Hh.
  pose proof (list_elem_of_lookup_2 _ _ _ Hc) as Hin.
  destruct (inv_calls _ _ _ (cm_inv _ _ _ Hcm)) as [Hcalls _].
  destruct (Hcalls _ Hin) as (Hne & _ & Hreq & _). rewrite Hrq in Hreq. destruct Hreq as [Hcand _].
  destruct (cm_calls _ _ _ Hcm _ Hin) as [Hcl Hlive].
  assert (call_cm n g (with_status (Answered (RsVote r)) cl)) as Hcl'.
  { unfold call_cm in *. cbn. by rewrite Hrq in *. }
  unfold call_cm in Hcl. rewrite Hrq in Hcl. destruct Hcl as (L & e & HL & HLI & He & HLT).
  assert (onward (nd_raft nd) (nd_raft (set_raft rf nd))) as Hon.
  { by eapply RequestVote_onward. }
  pose proof (status_calls n s g (c_to cl) nd (set_raft rf nd) c cl _ Hcm Hc Hi Hon Hcl') as Hcs.
  pose proof (RequestVote_vol _ _ _ _ _ Hrun) as Hvol.
  apply RequestVote_spec in Hrun as (_ & _ & _ & Hli & _ & Ht & Hr).
  assert (node_cm n g (c_to cl) (set_raft rf nd) (h_flog (g_h g) (c_to cl))) as Hnc'.
  { eapply node_cm_moves; [exact Hnc|cbn; lia| |done..]. cbn.
    destruct (rvr_VoteGranted r); [left; tauto|]. destruct Hr as [_ ->].
    case_decide; [by left|right]. split; [lia|done]. }
  destruct (rvr_VoteGranted r).
  2: { eexists. split; [by eapply cm_quiet|apply gext_move]. }
  destruct Hr as (HtT & _ & _ & _ & Hfree & Hup). rewrite Hcand in Hfree.
  assert (CurrentTerm (nd_raft nd) ≤ rv_Term a) as Hle by lia.
  pose proof (vote_free _ _ _ _ _ _ _ _ Hok Hle Hfree) as Hold.
  destruct (h_votes (g_h g) !! (c_to cl, rv_Term a)) as [c'|] eqn:Ev.
  - rewrite (Hold c') in Ev by done. rewrite with_vote_same in Hinv by done.
    exists g. split; [|apply gext_refl]. apply (cm_frame n s g g (c_to cl) nd); try done.
    apply only_refl.
  - set (fl := h_flog (g_h g) (c_to cl)) in *.
    exists (cast_vote (c_to cl) (rv_Term a) (c_from cl) fl g).
    assert (gext g (cast_vote (c_to cl) (rv_Term a) (c_from cl) fl g)) as Hg by (by eapply gext_cast).
    split; [|done]. apply (cm_frame n s g _ (c_to cl) nd); try done.
    + apply (hist_cast n _ _ _ _ L); [done..|apply Hok| |by right|].
      * eapply locked_raise; [apply Hnc|apply Hnc|]. done.
      * by eapply upToDate_newer.
    + destruct Hnc'. split; try done.
      * by eapply (locked_mono n g).
      * intros [Hv|?]%nc_cand0; [left|by right]. eapply lookup_weaken; [exact Hv|apply Hg].
    + intros cl' [?|[? ?]]%Hcs; [by left|right]. split; [|done]. by eapply call_cm_mono.
Qed.

(** ** Replication to a follower *)

Lemma locked_ack n g v T k l tl fl B :
  hist_cm n g → h_tlog (g_h g) !! T = Some (l, tl) → agree k fl tl →
  locked g v fl B B → locked (add_ack v T k g) v fl B B.
Proof.
  intros Hh Ht Ha H T0 k0 l0 tl0 HT0 [Hk|(_ & -> & Hk)]%add_ack_acked Ht0.
  - destruct (H _ _ _ _ HT0 Hk Ht0) as [?|(T1 & ? & ?)]; [by left|right]. exists T1.
    split; [done|]. eapply broken_mono; [apply gext_ack|done].
  - left. cbn in Ht0. rewrite Ht in Ht0. injection Ht0 as <- <-. by eapply agree_le.
Qed.

Lemma only_ack i T k g : only i g (add_ack i T k g).
Proof. split; [apply gext_ack| |done]. by intros v T' k' Hv [?|(-> & _)]%add_ack_acked. Qed.

(** A peer may acknowledge to the leader of its term what its log has of it. *)
Lemma cm_ack n s g i nd k l tl :
  cm n s g → nodes s !! i = Some nd →
  h_tlog (g_h g) !! CurrentTerm (nd_raft nd) = Some (l, tl) → agree k (h_flog (g_h g) i) tl →
  cm n s (add_ack i (CurrentTerm (nd_raft nd)) k g).
Proof.
  intros [Hinv Hh Hnds Hcs] Hi Ht Ha. set (T := CurrentTerm (nd_raft nd)) in *.
  pose proof (only_ack i T k g) as Ho. split; [done| | |].
  - eapply hist_ack; [done|done|by eapply agree_length|]. intros T' c. by eapply nk_past, Hinv.
  - intros j ndj Hj. destruct (decide (j = i)) as [->|Hne].
    2: { eapply node_cm_other; [done|exact Ho|done|]. by apply Hnds. }
    rewrite Hi in Hj. injection Hj as <-. destruct (Hnds _ _ Hi). split; try done.
    + intros T' k' [?%nc_acks0|(_ & -> & _)]%add_ack_acked; done.
    + by eapply locked_ack.
    + intros. apply Ho. auto.
    + intros. apply Ho. eauto.
    + eapply committed_mono; [apply Ho|reflexivity|done].
    + eapply applier_ok_mono; [apply Ho|done].
  - intros cl Hcl. destruct (Hcs _ Hcl). split; [|done]. eapply call_cm_mono; [apply Ho|done].
Qed.

Lemma cm_status n s g c cl st :
  cm n s g → calls s !! c = Some cl → c_status cl ≠ Finished → vote_key cl = None →
  call_cm n g (with_status st cl) → cm n (mkSys (nodes s) (alter (with_status st) c (calls s))) g.
Proof.
  intros [Hinv Hh Hnds Hcs] Hc Hst Hk Hcl.
  split; [|done|done|].
  - split; cbn; try apply Hinv.
    + intros i nd Hi. eapply node_ok_counted; [by eapply counted_status|]. by apply Hinv.
    + eapply calls_ok_status; [apply Hinv|done|]. unfold vote_key in Hk. by destruct (c_req cl).
  - cbn. intros cl' [?| ->]%(alter_status_elem _ _ cl); [by apply Hcs| |done].
    split; [done|]. apply live_ok_status, Hcs. by eapply list_elem_of_lookup_2.
Qed.

(** The commit index of a peer that is not leader moves up. *)
Lemma applier_ok_commit n g nd nd' :
  LastIncludedIndex (nd_raft nd') = LastIncludedIndex (nd_raft nd) →
  lastApplied (nd_raft nd') = lastApplied (nd_raft nd) →
  snapshotPending (nd_raft nd') = snapshotPending (nd_raft nd) →
  nd_inflight nd' = nd_inflight nd → commitIndex (nd_raft nd) ≤ commitIndex (nd_raft nd') →
  applier_ok n g nd → applier_ok n g nd'.
Proof.
  unfold applier_ok. intros -> -> -> -> Hle (? & ? & ? & H). split_and!; [lia..|done|].
  destruct (nd_inflight nd) as [[]|]; intuition lia.
Qed.

Lemma append_onward now a rf rf' r : AppendEntries now a rf = Ret (rf', r) → onward rf rf'.
Proof.
  intros (_ & _ & _ & _ & _ & Ht & _ & Hs & _)%AppendEntries_spec.
  destruct (decide (CurrentTerm rf < ae_Term a)); [left; lia|right]. split; [lia|].
  intros Hl. rewrite Hs. rewrite decide_False; [done|]. rewrite Hl. intros [?|[_ ?]]; done.
Qed.

Lemma follows_terms n g Ta l tl fl fl' B :
  tlog_ok n (g_h g) → hist_cm n g → h_tlog (g_h g) !! Ta = Some (l, tl) → follows tl fl fl' →
  (∀ e, e ∈ fl → Term e ≤ B) → B ≤ Ta → ∀ e, e ∈ fl' → Term e ≤ Ta.
Proof.
  intros Hok Hh Ht [->|(N & q & -> & _)] Hfl HB e He; [apply Hfl in He; lia|].
  eapply tlog_terms; [exact Hok|exact Hh|exact Ht|].
  by apply elem_of_take in He as (? & ?%list_elem_of_lookup_2 & _).
Qed.

(** A follower whose log follows the leader of its (new) term. *)
Lemma node_cm_follows n g i nd nd' Ta l tl fl fl' :
  tlog_ok n (g_h g) → hist_cm n g → valid (h_tlog (g_h g)) fl →
  node_cm n g i nd fl → h_tlog (g_h g) !! Ta = Some (l, tl) → follows tl fl fl' →
  CurrentTerm (nd_raft nd) ≤ Ta → CurrentTerm (nd_raft nd') = Ta →
  state (nd_raft nd') ≠ leader →
  committed n g fl' (Z.to_nat (commitIndex (nd_raft nd'))) Ta →
  applier_ok n g nd' → node_cm n g i nd' fl'.
Proof.
  intros Hok Hh Hv [] Ht Hfo Hle HT Hs Hc Ha. split; rewrite ?HT; try done.
  - intros T k ?%nc_acks0. lia.
  - eapply locked_follows; [done|done|exact Ht|exact Hfo|]. by eapply locked_raise.
  - by eapply follows_terms.
  - intros _. right. by rewrite Ht.
Qed.

(** Not the leader of a term whose entries come from someone else. *)
Lemma append_not_leader n h cs i nd fl now a rf r (from : nat) tl :
  node_ok n h cs i nd fl → h_tlog h !! ae_Term a = Some (from, tl) → from ≠ i →
  AppendEntries now a (nd_raft nd) = Ret (rf, r) → CurrentTerm (nd_raft nd) ≤ ae_Term a →
  state rf ≠ leader.
Proof.
  intros Hok Ht Hne Hrun Hle. apply AppendEntries_spec in Hrun as (_ & _ & _ & _ & _ & _ & _ & Hs & _).
  rewrite Hs. case_decide as Hd; [done|]. eapply not_own_leader; [exact Hok|exact Ht|done|].
  destruct (decide (CurrentTerm (nd_raft nd) < ae_Term a)); [tauto|lia].
Qed.

(** The log and the commit index of a follower that accepted entries. *)
Lemma append_node_cm n s g i nd fl' now a rf r from pre e rest :
  let tl := pre ++ e :: ae_Entries a ++ rest in
  let fl := h_flog (g_h g) i in
  cm n s g → nodes s !! i = Some nd → from ≠ i → h_tlog (g_h g) !! ae_Term a = Some (from, tl) →
  ae_PrevLogIndex a = Z.of_nat (length pre) →
  0 ≤ ae_LeaderCommit a ≤ ae_PrevLogIndex a + zlen (ae_Entries a) →
  committed n g tl (Z.to_nat (ae_LeaderCommit a)) (ae_Term a) →
  AppendEntries now a (nd_raft nd) = Ret (rf, r) → aer_Success r = true →
  lastLogIndex rf = zlen fl' - 1 →
  CurrentTerm (nd_raft nd) ≤ ae_Term a → follows tl fl fl' →
  agree (length pre + length (ae_Entries a)) fl' tl → node_cm n g i (set_raft rf nd) fl'.
Proof.
  cbn zeta. intros Hcm Hi Hne Ht Hp Hlc Hcom Hrun Hsuc Hlast Hle Hfo Hag.
  pose proof (inv_nodes _ _ _ (cm_inv _ _ _ Hcm) _ _ Hi) as Hok.
  pose proof (inv_tlog _ _ _ (cm_inv _ _ _ Hcm)) as Htl.
  pose proof (cm_nodes _ _ _ Hcm _ _ Hi) as Hnc. pose proof (cm_hist _ _ _ Hcm) as Hh.
  pose proof (append_not_leader _ _ _ _ _ _ _ _ _ _ _ _ Hok Ht Hne Hrun Hle) as Hs.
  pose proof (AppendEntries_vol _ _ _ _ _ Hrun) as Hvol. rewrite Hsuc in Hvol. unfold vol in Hvol.
  injection Hvol as Hci Hla Hsp _.
  apply AppendEntries_spec in Hrun as (_ & _ & Hli & _ & _ & HT & _).
  assert (commitIndex rf = Z.max (commitIndex (nd_raft nd)) (ae_LeaderCommit a)) as Hci'.
  { rewrite Hci, Hlast. destruct Hag as [Hlen _]. unfold zlen in *. case_decide; lia. }
  eapply node_cm_follows; [done|done|apply Hok|exact Hnc|exact Ht|exact Hfo|done|cbn; lia|done| |].
  - cbn. rewrite Hci'. destruct (Z.max_spec (commitIndex (nd_raft nd)) (ae_LeaderCommit a))
      as [[_ ->]|[_ ->]].
    + eapply committed_agree; [|exact Hcom]. eapply agree_le; [exact Hag|]. unfold zlen in *. lia.
    + eapply committed_follows; [done|done|apply Hok|apply Hnc|done|exact Ht|done].
  - eapply applier_ok_commit; [..|apply Hnc]; cbn; try done. lia.
Qed.

Lemma answered_append n g cl a r :
  call_cm n g cl → c_req cl = RqAppend a →
  (aer_Success r = true →
   acked g (c_to cl) (ae_Term a) (Z.to_nat (ae_PrevLogIndex a + zlen (ae_Entries a)))) →
  call_cm n g (with_status (Answered (RsAppend r)) cl).
Proof. unfold call_cm. cbn. intros H Hrq Ha. rewrite Hrq in *. by destruct H as (? & ? & _). Qed.

Lemma answered_snap n g cl a r :
  call_cm n g cl → c_req cl = RqSnap a →
  (isr_Term r ≤ is_Term a →
   acked g (c_to cl) (is_Term a) (Z.to_nat (is_LastIncludedIndex a))) →
  call_cm n g (with_status (Answered (RsSnap r)) cl).
Proof. unfold call_cm. cbn. intros H Hrq Ha. rewrite Hrq in *. by destruct H as (? & _). Qed.

Lemma deliver_append_cm n s g now c cl nd rf a r :
  cm n s g → calls s !! c = Some cl → c_req cl = RqAppend a → c_status cl = Pending →
  nodes s !! c_to cl = Some nd → AppendEntries now a (nd_raft nd) = Ret (rf, r) →
  ∃ g', cm n (mkSys (<[c_to cl := set_raft rf nd]> (nodes s))
                    (alter (with_status (Answered (RsAppend r))) c (calls s))) g' ∧ gext g g'.
Proof.
  intros Hcm Hc Hrq Hst Hi Hrun. pose proof (cm_inv _ _ _ Hcm) as Hinv.
  pose proof (list_elem_of_lookup_2 _ _ _ Hc) as Hin.
  destruct (inv_calls _ _ _ Hinv) as [Hcalls _].
  destruct (Hcalls _ Hin) as (Hne & _ & Hreq & _). rewrite Hrq in Hreq.
  destruct Hreq as (pre & e & rest & Ht & Hp & HpT).
  destruct (cm_calls _ _ _ Hcm _ Hin) as [Hcl _].
  unfold call_cm in Hcl. rewrite Hrq in Hcl. destruct Hcl as (Hlc & (l & tl & Ht' & Hcom) & _).
  rewrite Ht in Ht'. injection Ht' as <- <-.
  destruct (deliver_append n s (g_h g) now (c_to cl) nd rf a r (c_from cl) (calls s) pre e rest
    Hinv Hi Hne Ht Hp HpT Hrun (counted_refl _) (inv_calls _ _ _ Hinv)) as (fl' & Hinv' & Hfl').
  set (s1 := mkSys (<[c_to cl := set_raft rf nd]> (nodes s)) (calls s)) in *.
  assert (nodes s1 !! c_to cl = Some (set_raft rf nd)) as Hi1.
  { apply list_lookup_insert_eq. by eapply lookup_lt_Some. }
  assert (cm n s1 (move_log (c_to cl) fl' g)) as Hcm1.
  { apply (cm_frame n s g _ (c_to cl) nd); try done.
    - apply only_move.
    - by eapply append_onward.
    - by apply hist_move, Hcm.
    - pose proof (inv_nodes _ _ _ Hinv' _ _ Hi1) as Hok1. cbn in Hok1 |- *.
      rewrite fn_lookup_insert in Hok1 |- *. apply node_cm_move. destruct (aer_Success r) eqn:Hsuc.
      + destruct Hfl' as (Hle & Hfo & Hag).
        by eapply append_node_cm; [..|exact Hag]; try done; apply (last_log _ _ _ _ _ _ Hok1).
      + subst fl'. pose proof (AppendEntries_vol _ _ _ _ _ Hrun) as Hvol. rewrite Hsuc in Hvol.
        apply append_moves in Hrun as Hmv. destruct Hmv as [_ _ _ HT Hs].
        apply AppendEntries_spec in Hrun as (_ & _ & Hli & _).
        eapply node_cm_moves; [by apply Hcm|cbn; lia|done..].
    - by left. }
  assert (c_status cl ≠ Finished) as Hfin by (by rewrite Hst).
  assert (vote_key cl = None) as Hkey by (unfold vote_key; by rewrite Hrq).
  destruct (aer_Success r) eqn:Hsuc.
  - destruct Hfl' as (Hle & Hfo & Hag). pose proof Hrun as Hsp.
    apply AppendEntries_spec in Hsp as (_ & _ & _ & _ & _ & HT & _).
    assert (CurrentTerm (nd_raft (set_raft rf nd)) = ae_Term a) as HT' by (cbn; lia).
    exists (add_ack (c_to cl) (CurrentTerm (nd_raft (set_raft rf nd)))
              (length pre + length (ae_Entries a)) (move_log (c_to cl) fl' g)).
    assert (cm n s1 (add_ack (c_to cl) (CurrentTerm (nd_raft (set_raft rf nd)))
              (length pre + length (ae_Entries a)) (move_log (c_to cl) fl' g))) as Hcm2.
    { eapply cm_ack; [done..|by rewrite HT'|]. cbn. by rewrite fn_lookup_insert. }
    split; [|eapply gext_trans; [apply gext_move|apply gext_ack]].
    eapply (cm_status n s1); [exact Hcm2|exact Hc|done..|].
    eapply answered_append; [by apply Hcm2|done|]. intros _. apply add_ack_acked. right.
    split_and!; [done..|]. unfold zlen. lia.
  - exists (move_log (c_to cl) fl' g). split; [|apply gext_move].
    eapply (cm_status n s1); [done..|]. eapply answered_append; [by apply Hcm1|done|]. congruence.
Qed.

Lemma snap_onward now a rf rf' r : InstallSnapshot now a rf = Ret (rf', r) → onward rf rf'.
Proof.
  intros (_ & _ & _ & _ & Ht & _ & Hs & _)%InstallSnapshot_spec.
  destruct (decide (CurrentTerm rf < is_Term a)); [left; lia|right]. by split; [lia|congruence].
Qed.

(** The snapshot point of the leader is committed, so a peer that refuses the
    snapshot because its own is newer has the leader's log up to that point. *)
Lemma snap_covered n s g i nd l tl (m : nat) T :
  cm n s g → nodes s !! i = Some nd → h_tlog (g_h g) !! T = Some (l, tl) →
  CurrentTerm (nd_raft nd) ≤ T → Z.of_nat m ≤ LastIncludedIndex (nd_raft nd) →
  agree m (h_flog (g_h g) i) tl.
Proof.
  intros Hcm Hi Ht Hle Hm. pose proof (inv_nodes _ _ _ (cm_inv _ _ _ Hcm) _ _ Hi) as Hok.
  pose proof (cm_nodes _ _ _ Hcm _ _ Hi) as Hnc. destruct (nc_applier _ _ _ _ _ Hnc) as (Hli & _).
  eapply agree_le; [|shelve].
  eapply committed_leader; [by apply Hcm|by apply Hcm|apply Hok|apply Hnc|exact Hle|exact Ht].
  Unshelve. lia.
Qed.

Lemma snap_node_cm n s g i nd fl' now a rf r from tl (m : nat) :
  let fl := h_flog (g_h g) i in
  cm n s g → nodes s !! i = Some nd → from ≠ i → h_tlog (g_h g) !! is_Term a = Some (from, tl) →
  is_LastIncludedIndex a = Z.of_nat m → committed n g tl m (is_Term a) →
  InstallSnapshot now a (nd_raft nd) = Ret (rf, r) →
  (fl' = fl ∧ LastIncludedIndex rf = LastIncludedIndex (nd_raft nd)) ∨
  (CurrentTerm (nd_raft nd) ≤ is_Term a ∧
   LastIncludedIndex (nd_raft nd) < is_LastIncludedIndex a ∧
   LastIncludedIndex rf = is_LastIncludedIndex a ∧ follows tl fl fl' ∧ agree m fl' tl) →
  node_cm n g i (set_raft rf nd) fl'.
Proof.
  cbn zeta. intros Hcm Hi Hne Ht HI Hcom Hrun Hcase.
  pose proof (inv_nodes _ _ _ (cm_inv _ _ _ Hcm) _ _ Hi) as Hok.
  pose proof (inv_tlog _ _ _ (cm_inv _ _ _ Hcm)) as Htl.
  pose proof (cm_nodes _ _ _ Hcm _ _ Hi) as Hnc. pose proof (cm_hist _ _ _ Hcm) as Hh.
  pose proof (snap_moves _ _ _ _ _ Hrun) as [_ _ _ HTm Hsm].
  pose proof (InstallSnapshot_spec _ _ _ _ _ Hrun) as (_ & _ & _ & _ & HT & _ & Hs & _).
  destruct (InstallSnapshot_vol _ _ _ _ _ Hrun) as (Hmi & Hla & Hvol).
  destruct Hcase as [[-> Hli]|(Hle & Hlt & Hli & Hfo & Hag)].
  - destruct Hvol as [(Hvol & _)|(_ & ? & ? & _)]; [|lia].
    eapply node_cm_moves; [exact Hnc|cbn; lia|done..].
  - destruct Hvol as [(_ & ? & _)|(_ & _ & _ & Hvol)]; [lia|].
    assert (committed n g fl' m (is_Term a)) as Hm by (by eapply committed_agree).
    assert (committed n g fl' (Z.to_nat (commitIndex (nd_raft nd))) (is_Term a)) as Hci.
    { eapply committed_follows; [done|done|apply Hok|apply Hnc|done|exact Ht|done]. }
    eapply node_cm_follows; [done|done|apply Hok|exact Hnc|exact Ht|exact Hfo|done|cbn; lia| | |].
    + cbn. rewrite Hs. destruct (decide (CurrentTerm (nd_raft nd) < is_Term a)); [done|].
      eapply not_own_leader; [exact Hok|exact Ht|done|lia].
    + cbn. case_decide; destruct Hvol as [-> _]; [|done].
      destruct (Z.max_spec (is_LastIncludedIndex a) (commitIndex (nd_raft nd))) as [[_ ->]|[_ ->]];
        [done|]. by rewrite HI, Nat2Z.id.
    + destruct (nc_applier _ _ _ _ _ Hnc) as (A1 & A2 & A3 & A4). unfold applier_ok. cbn.
      rewrite Hla, Hli. case_decide; destruct Hvol as [-> ->].
      * split_and!; [lia..|]. destruct (nd_inflight nd) as [[]|]; intuition lia.
      * assert (snapshotPending (nd_raft nd) = false) as Hsp.
        { destruct (snapshotPending (nd_raft nd)); [|done]. specialize (A3 eq_refl). lia. }
        rewrite Hsp in *. split_and!; [lia..|done|]. destruct (nd_inflight nd) as [[]|]; intuition lia.
Qed.

Lemma deliver_snap_cm n s g now c cl nd rf a r :
  cm n s g → calls s !! c = Some cl → c_req cl = RqSnap a → c_status cl = Pending →
  nodes s !! c_to cl = Some nd → InstallSnapshot now a (nd_raft nd) = Ret (rf, r) →
  ∃ g', cm n (mkSys (<[c_to cl := set_raft rf nd]> (nodes s))
                    (alter (with_status (Answered (RsSnap r))) c (calls s))) g' ∧ gext g g'.
Proof.
  intros Hcm Hc Hrq Hst Hi Hrun. pose proof (cm_inv _ _ _ Hcm) as Hinv.
  pose proof (list_elem_of_lookup_2 _ _ _ Hc) as Hin.
  destruct (inv_calls _ _ _ Hinv) as [Hcalls _].
  destruct (Hcalls _ Hin) as (Hne & _ & Hreq & _). rewrite Hrq in Hreq.
  destruct Hreq as (tl & m & e & Ht & HI & He & HeT).
  destruct (cm_calls _ _ _ Hcm _ Hin) as [Hcl _].
  unfold call_cm in Hcl. rewrite Hrq in Hcl. destruct Hcl as ((l & tl' & Ht' & Hcom) & _).
  rewrite Ht in Ht'. injection Ht' as <- <-. rewrite HI, Nat2Z.id in Hcom.
  destruct (deliver_snap n s (g_h g) now (c_to cl) nd rf a r (c_from cl) (calls s) tl m e
    Hinv Hi Hne Ht HI He HeT Hrun (counted_refl _) (inv_calls _ _ _ Hinv)) as (fl' & Hinv' & Hfl').
  set (s1 := mkSys (<[c_to cl := set_raft rf nd]> (nodes s)) (calls s)) in *.
  assert (nodes s1 !! c_to cl = Some (set_raft rf nd)) as Hi1.
  { apply list_lookup_insert_eq. by eapply lookup_lt_Some. }
  assert (cm n s1 (move_log (c_to cl) fl' g)) as Hcm1.
  { apply (cm_frame n s g _ (c_to cl) nd); try done.
    - apply only_move.
    - by eapply snap_onward.
    - by apply hist_move, Hcm.
    - cbn. rewrite fn_lookup_insert. apply node_cm_move. by eapply snap_node_cm.
    - by left. }
  assert (c_status cl ≠ Finished) as Hfin by (by rewrite Hst).
  assert (vote_key cl = None) as Hkey by (unfold vote_key; by rewrite Hrq).
  pose proof (InstallSnapshot_spec _ _ _ _ _ Hrun) as (_ & _ & _ & HrT & HT & _).
  destruct (decide (isr_Term r ≤ is_Term a)) as [Hack|Hack].
  - assert (CurrentTerm (nd_raft (set_raft rf nd)) = is_Term a) as HT' by (cbn; lia).
    assert (agree m fl' tl) as Hag.
    { destruct Hfl' as [[-> Hli]|(_ & _ & _ & _ & ?)]; [|done].
      destruct (InstallSnapshot_vol _ _ _ _ _ Hrun) as (_ & _ & [(_ & _ & _ & Hor)|(_ & ? & ? & _)]); [|lia].
      eapply snap_covered; [done|exact Hi|exact Ht|lia|lia]. }
    exists (add_ack (c_to cl) (CurrentTerm (nd_raft (set_raft rf nd))) m (move_log (c_to cl) fl' g)).
    assert (cm n s1 (add_ack (c_to cl) (CurrentTerm (nd_raft (set_raft rf nd))) m
              (move_log (c_to cl) fl' g))) as Hcm2.
    { eapply cm_ack; [done..|by rewrite HT'|]. cbn. by rewrite fn_lookup_insert. }
    split; [|eapply gext_trans; [apply gext_move|apply gext_ack]].
    eapply (cm_status n s1); [exact Hcm2|exact Hc|done..|].
    eapply answered_snap; [by apply Hcm2|done|]. intros _. apply add_ack_acked. right.
    split_and!; [done..|]. lia.
  - exists (move_log (c_to cl) fl' g). split; [|apply gext_move].
    eapply (cm_status n s1); [done..|]. by eapply answered_snap; [by apply Hcm1|done|].
Qed.

(** ** Leaders *)

Lemma committed_app n g L x c B : committed n g L c B → committed n g (L ++ x) c B.
Proof.
  intros [->|(T & k & tl & ? & ? & ? & Ha)]; [by left|]. right. exists T, k, tl. split_and!; try done.
  eapply agree_trans; [apply agree_app, Ha|done].
Qed.

(** The leader of [T] has the log [fl ++ x] and acknowledges it to itself. *)
Definition lead_ack i T fl g : Ghost := add_ack i T (length fl - 1) (lead i T fl g).

Lemma only_lead i T fl g :
  (∀ l tl, h_tlog (g_h g) !! T = Some (l, tl) → l = i ∧ ∃ ext, fl = tl ++ ext) →
  only i g (lead_ack i T fl g).
Proof.
  intros Hold. split.
  - eapply gext_trans; [by apply gext_lead|apply gext_ack].
  - by intros v T' k Hv [?|(-> & _)]%add_ack_acked.
  - intros v Hv. cbn. by rewrite fn_lookup_insert_ne.
Qed.

Lemma node_cm_lead n g i nd nd' fl x :
  let T := CurrentTerm (nd_raft nd) in
  hist_cm n g → hist_cm n (lead i T (fl ++ x) g) → only i g (lead_ack i T (fl ++ x) g) →
  gext g (lead i T (fl ++ x) g) → node_cm n g i nd fl → fl ≠ [] →
  CurrentTerm (nd_raft nd') = T → (∀ e, e ∈ x → Term e = T) → state (nd_raft nd') = leader →
  commitIndex (nd_raft nd') = commitIndex (nd_raft nd) →
  (∀ j m, matchIndex (nd_raft nd') !! j = Some m → 0 < m → acked g j T (Z.to_nat m)) →
  applier_ok n g nd' → node_cm n (lead_ack i T (fl ++ x) g) i nd' (fl ++ x).
Proof.
  cbn zeta. set (T := CurrentTerm (nd_raft nd)).
  intros Hh Hh' Ho Hgl [] Hne HT Hx Hs Hci Hm Ha. split; rewrite ?HT; try done.
  - intros T' k [?%nc_acks0|(_ & -> & _)]%add_ack_acked; done.
  - eapply locked_ack; [done|cbn; by rewrite lookup_insert_eq| |].
    + apply agree_refl. rewrite length_app. destruct fl; [done|cbn; lia].
    + eapply (locked_mono n g); [done..|]. intros T0 k l tl HT0 Hk Ht.
      destruct (nc_lock0 _ _ _ _ HT0 Hk Ht) as [Hag|?]; [left|by right].
      eapply agree_trans; [apply agree_app, Hag|done].
  - intros e [He|He]%elem_of_app; [by apply nc_terms0|]. apply Hx in He. lia.
  - by rewrite Hs.
  - intros _. apply add_ack_acked. right. done.
  - intros. apply Ho. eauto.
  - rewrite Hci. eapply committed_mono; [apply Ho|reflexivity|]. by apply committed_app.
  - eapply applier_ok_mono; [apply Ho|done].
Qed.

Lemma flog_nonempty n h cs i nd fl : node_ok n h cs i nd fl → fl ≠ [].
Proof. intros Hok ->. by destruct (nk_valid _ _ _ _ _ _ Hok). Qed.

Lemma client_cm n s g i nd cmd rf r :
  cm n s g → nodes s !! i = Some nd → Start cmd (nd_raft nd) = (rf, r) →
  ∃ g', cm n (mkSys (<[i := set_raft rf nd]> (nodes s)) (calls s)) g' ∧ gext g g'.
Proof.
  intros Hcm Hi Hrun. pose proof (client_inv _ _ _ _ _ _ _ _ (cm_inv _ _ _ Hcm) Hi Hrun) as Hinv.
  pose proof (inv_nodes _ _ _ (cm_inv _ _ _ Hcm) _ _ Hi) as Hok.
  pose proof (cm_nodes _ _ _ Hcm _ _ Hi) as Hnc. pose proof (cm_hist _ _ _ Hcm) as Hh.
  pose proof (Start_vol _ _ _ _ Hrun) as Hvol.
  apply Start_spec in Hrun as (_ & _ & Ht & _ & Hs & Hli & _ & _).
  assert (onward (nd_raft nd) (nd_raft (set_raft rf nd))) as Hon by (right; cbn; split; [done|congruence]).
  destruct (decide (state (nd_raft nd) = leader)) as [Hl|Hl].
  2: { eexists. split; [|apply gext_move]. eapply cm_quiet; try done; [|by left].
       eapply node_cm_moves; [exact Hnc|cbn; lia|by right|done..]. }
  set (T := CurrentTerm (nd_raft nd)) in *. set (fl := h_flog (g_h g) i) in *.
  set (x := [mkEntry T (Some cmd)]) in *.
  pose proof (nk_leader _ _ _ _ _ _ Hok Hl) as Htl. fold T fl in Htl.
  assert (∀ l tl, h_tlog (g_h g) !! T = Some (l, tl) → l = i ∧ ∃ ext, fl ++ x = tl ++ ext) as Hold.
  { intros l tl. rewrite Htl. intros [= <- <-]. eauto. }
  pose proof (only_lead _ _ _ _ Hold) as Ho. pose proof (gext_lead _ _ _ _ Hold) as Hgl.
  assert (hist_cm n (lead i T (fl ++ x) g)) as Hhl.
  { destruct (hc_tlog _ _ Hh _ _ _ Htl) as (L & ext & HL & Hfl & Hext & Q & HQ & Hv).
    eapply (hist_lead n i T _ L (ext ++ x) Q); try done.
    - by rewrite Hfl, app_assoc.
    - intros e [?|He]%elem_of_app; [auto|]. apply list_elem_of_singleton in He as ->. done. }
  exists (lead_ack i T (fl ++ x) g). split; [|apply Ho].
  apply (cm_frame n s g _ i nd); try done; [| |by left].
  - eapply hist_ack; [done|cbn; by rewrite lookup_insert_eq| |].
    + rewrite length_app. cbn. lia.
    + intros T' c. apply (nk_past _ _ _ _ _ _ Hok).
  - cbn. rewrite fn_lookup_insert. unfold vol in Hvol. injection Hvol as Hci Hla Hsp Hmi.
    apply node_cm_lead; try done.
    + by eapply flog_nonempty.
    + intros e He. by apply list_elem_of_singleton in He as ->.
    + cbn. congruence.
    + cbn. rewrite Hmi. intros j m. by apply Hnc.
    + eapply applier_ok_vol; [..|apply Hnc]; cbn; unfold vol; congruence.
Qed.

(** What a leader sends. *)
Lemma replicate_cm n s g i j s' :
  cm n s g → replicateTo i j s = Some s' → cm n s' g.
Proof.
  intros Hcm Hrun. pose proof (replicate_inv _ _ _ _ _ _ (cm_inv _ _ _ Hcm) Hrun) as Hinv.
  apply replicateTo_Some in Hrun as (_ & _ & nd & out & Hi & Hrun%send_spec & ->).
  pose proof (inv_nodes _ _ _ (cm_inv _ _ _ Hcm) _ _ Hi) as Hok.
  pose proof (cm_nodes _ _ _ Hcm _ _ Hi) as Hnc.
  destruct (nc_applier _ _ _ _ _ Hnc) as (Hli & Hla & _).
  destruct (nk_log _ _ _ _ _ _ Hok) as (b & Hb & Hr). pose proof (log_rel_length _ _ _ Hr) as Hlen.
  assert (∀ rq, call_cm n g (mkCall i j rq Pending true) → state (nd_raft nd) = leader →
    leaderTerm rq = Some (CurrentTerm (nd_raft nd)) →
    inv n (mkSys (nodes s) (calls s ++ [mkCall i j rq Pending true])) (g_h g) →
    cm n (mkSys (nodes s) (calls s ++ [mkCall i j rq Pending true])) g) as Hadd.
  { intros rq Hrq Hl HT Hinv'. split; try done; try apply Hcm.
    intros cl [?| ->%list_elem_of_singleton]%elem_of_app; [by apply Hcm|]. split; [done|].
    intros _ T nd' HT' Hnd'. cbn in HT', Hnd'. rewrite Hi in Hnd'. injection Hnd' as <-.
    rewrite HT in HT'. injection HT' as <-. by right. }
  assert (committed n g (h_flog (g_h g) i) (Z.to_nat (commitIndex (nd_raft nd)))
            (CurrentTerm (nd_raft nd))) as Hcom by apply Hnc.
  destruct out as [|a|a]; [done| |].
  - destruct Hrun as (Hl & HT & _ & HI & _). pose proof (nk_leader _ _ _ _ _ _ Hok Hl) as Htl.
    apply Hadd; [|done|by cbn; rewrite HT|done]. split; [|done]. cbn. rewrite HT, HI.
    exists i, (h_flog (g_h g) i). split; [done|]. eapply committed_le; [exact Hcom|]. lia.
  - destruct Hrun as (Hl & HT & _ & Hlo & HLC & (e & He & _) & Hes).
    pose proof (nk_leader _ _ _ _ _ _ Hok Hl) as Htl.
    apply Hadd; [|done|by cbn; rewrite HT|done]. split_and!; cbn; try done; rewrite ?HT, ?HLC; [lia| |].
    + apply (f_equal zlen) in Hes. unfold zlen in *. rewrite length_drop in Hes.
      apply lookup_lt_Some in He.
      assert (Z.to_nat (commitIndex (nd_raft nd)) < length (h_flog (g_h g) i))%nat; [|lia].
      destruct Hcom as [->|(T & k & tl & _ & _ & _ & [? _])]; [|done].
      pose proof (flog_nonempty _ _ _ _ _ _ Hok). destruct (h_flog (g_h g) i); [done|cbn; lia].
    + by exists i, (h_flog (g_h g) i).
Qed.

(** ** Replies *)

Lemma stepDown_cm n s g i nd nd' T now c cl :
  cm n s g → calls s !! c = Some cl → c_status cl ≠ Finished → vote_key cl = None →
  nodes s !! i = Some nd → CurrentTerm (nd_raft nd) < T →
  nd' = set_raft (becomeFollowerWithTerm now T (nd_raft nd)) nd →
  cm n (mkSys (<[i := nd']> (nodes s)) (alter (with_status Finished) c (calls s)))
    (move_log i (h_flog (g_h g) i) g).
Proof.
  intros Hcm Hc Hst Hk Hi Hlt ->. pose proof (cm_inv _ _ _ Hcm) as Hinv.
  pose proof (list_elem_of_lookup_2 _ _ _ Hc) as Hin.
  destruct (stepDown_moves now T (nd_raft nd) Hlt) as (Hmv & Hl & Hli).
  assert (onward (nd_raft nd) (becomeFollowerWithTerm now T (nd_raft nd))) as Hon by (by left).
  eapply cm_quiet; try done.
  - eapply inv_same_log; try done; [by eapply counted_status|].
    eapply calls_ok_status; [apply Hinv|done|]. unfold vote_key in Hk. by destruct (c_req cl).
  - eapply node_cm_moves; [by apply Hcm|cbn; lia|by left|done..].
  - eapply status_calls; try done. by apply call_cm_finished, Hcm.
Qed.

Lemma keeps_cm n s g i nd rf c cl :
  cm n s g → calls s !! c = Some cl → c_status cl ≠ Finished → vote_key cl = None →
  nodes s !! i = Some nd → keeps (nd_raft nd) rf →
  node_cm n g i (set_raft rf nd) (h_flog (g_h g) i) →
  cm n (mkSys (<[i := set_raft rf nd]> (nodes s)) (alter (with_status Finished) c (calls s)))
    (move_log i (h_flog (g_h g) i) g).
Proof.
  intros Hcm Hc Hst Hk Hi Hke Hnc. pose proof (cm_inv _ _ _ Hcm) as Hinv.
  pose proof (list_elem_of_lookup_2 _ _ _ Hc) as Hin.
  pose proof (keeps_moves _ _ Hke) as (Hmv & Hl & Hli).
  assert (onward (nd_raft nd) rf) as Hon.
  { destruct Hke as (Hco & _ & Hs). unfold core in Hco. injection Hco as _ _ HT _ _ _ _.
    right. split; [done|congruence]. }
  eapply cm_quiet; try done.
  - eapply inv_same_log; try done; [by eapply counted_status|].
    eapply calls_ok_status; [apply Hinv|done|]. unfold vote_key in Hk. by destruct (c_req cl).
  - eapply status_calls; try done. by apply call_cm_finished, Hcm.
Qed.

(** The entry a leader counts on a majority is chosen. *)
Lemma counted_chosen n h cs g i nd rf fl N c :
  node_ok n h cs i nd fl → h = g_h g → state (nd_raft nd) = leader →
  acked g i (CurrentTerm (nd_raft nd)) (length fl - 1) →
  keeps (nd_raft nd) rf → 0 < N →
  (∀ j m, matchIndex rf !! j = Some m → 0 < m → acked g j (CurrentTerm (nd_raft nd)) (Z.to_nat m)) →
  termAt (nd_raft nd) N = Ret (CurrentTerm (nd_raft nd)) →
  countMatching rf N = Ret c → npeers (nd_raft nd) `quot` 2 < c → (i < n)%nat →
  chosen n g (CurrentTerm (nd_raft nd)) (Z.to_nat N) fl.
Proof.
  intros Hok -> Hl Hown Hke HN Hm Ht Hcount Hmaj Hin.
  destruct (nk_log _ _ _ _ _ _ Hok) as (b & Hb & Hr).
  apply termAt_Ret in Ht as (Hlo & e & He & HeT).
  destruct (log_rel_lookup _ _ _ _ _ Hr He) as (e' & He' & HeT').
  replace (b + Z.to_nat (N - LastIncludedIndex (nd_raft nd)))%nat with (Z.to_nat N) in He' by lia.
  destruct Hke as (Hco & _). unfold core in Hco. injection Hco as Hn Hme _ _ _ _ _.
  rewrite (nk_me _ _ _ _ _ _ Hok) in Hme. rewrite (nk_npeers _ _ _ _ _ _ Hok) in Hn, Hmaj.
  unfold countMatching in Hcount. rewrite Hn, Nat2Z.id in Hcount.
  destruct (countFrom_set _ _ i _ _ Hme (NoDup_seq _ _) Hcount) as (Q & -> & HiQ & HQ).
  exists i, e', ({[i]} ∪ Q). split_and!; try done.
  - by apply (nk_leader _ _ _ _ _ _ Hok).
  - congruence.
  - split.
    + intros v [->%elem_of_singleton|[Hv _]%HQ]%elem_of_union; [done|]. apply elem_of_seq in Hv. lia.
    + rewrite size_union by set_solver. rewrite size_singleton. lia.
  - intros v [->%elem_of_singleton|(_ & m & Hvm & HNm)%HQ]%elem_of_union.
    + eapply acked_le; [exact Hown|]. apply lookup_lt_Some in He'. lia.
    + eapply acked_le; [by apply (Hm v m); [|lia]|]. lia.
Qed.

Lemma counts_node_cm n s g i nd rf j m :
  cm n s g → nodes s !! i = Some nd → state (nd_raft nd) = leader → counts j m (nd_raft nd) rf →
  (0 < m → acked g j (CurrentTerm (nd_raft nd)) (Z.to_nat m)) →
  node_cm n g i (set_raft rf nd) (h_flog (g_h g) i).
Proof.
  intros Hcm Hi Hl (Hke & Hla & Hsp & Hj & Hmi & Hci) Hack.
  pose proof (inv_nodes _ _ _ (cm_inv _ _ _ Hcm) _ _ Hi) as Hok.
  pose proof (cm_nodes _ _ _ Hcm _ _ Hi) as Hnc.
  assert (i < n)%nat as Hin.
  { rewrite <-(inv_length _ _ _ (cm_inv _ _ _ Hcm)). by eapply lookup_lt_Some. }
  assert (∀ j' m', matchIndex rf !! j' = Some m' → 0 < m' →
            acked g j' (CurrentTerm (nd_raft nd)) (Z.to_nat m')) as Hm.
  { intros j' m'. rewrite Hmi. intros [(<- & <- & _)|[_ Hlk]]%list_lookup_insert_Some; [done|].
    by apply Hnc. }
  pose proof Hke as (Hco & _ & Hs). unfold core in Hco. injection Hco as _ _ HT _ _ _ Hli.
  destruct (nc_applier _ _ _ _ _ Hnc) as (A1 & A2 & _).
  destruct Hnc. split; cbn; rewrite ?HT, ?Hs; try done.
  - intros j' m' _. by apply Hm.
  - destruct Hci as [->|(Hlt & Ht & c & Hc & Hmaj)]; [done|]. right.
    exists (CurrentTerm (nd_raft nd)), (Z.to_nat (commitIndex rf)), (h_flog (g_h g) i).
    assert (chosen n g (CurrentTerm (nd_raft nd)) (Z.to_nat (commitIndex rf)) (h_flog (g_h g) i)) as Hch.
    { eapply counted_chosen; try done; [auto|lia]. }
    split_and!; try done. apply agree_refl. destruct Hch as (_ & e & _ & _ & He & _).
    by eapply lookup_lt_Some.
  - eapply applier_ok_commit; [..|done]; cbn; try done. destruct Hci as [->|[? _]]; lia.
Qed.

Lemma reply_append_cm n s g now c cl nd rf a r :
  cm n s g → calls s !! c = Some cl → c_req cl = RqAppend a →
  c_status cl = Answered (RsAppend r) → c_live cl = true → fresh_reply cl s = true →
  nodes s !! c_from cl = Some nd →
  onEntriesReply now (Z.of_nat (c_to cl)) a r (nd_raft nd) = Ret rf →
  cm n (mkSys (<[c_from cl := set_raft rf nd]> (nodes s)) (alter (with_status Finished) c (calls s)))
    (move_log (c_from cl) (h_flog (g_h g) (c_from cl)) g).
Proof.
  intros Hcm Hc Hrq Hst Hlive Hfresh Hi Hrun.
  assert (c_status cl ≠ Finished) as Hfin by (by rewrite Hst).
  assert (vote_key cl = None) as Hkey by (unfold vote_key; by rewrite Hrq).
  destruct (cm_calls _ _ _ Hcm cl) as [Hcl Hlv]; [by eapply list_elem_of_lookup_2|].
  unfold call_cm in Hcl. rewrite Hrq, Hst in Hcl. destruct Hcl as (_ & _ & Hack).
  unfold fresh_reply in Hfresh. rewrite Hst, Hrq, Hi in Hfresh.
  apply bool_decide_eq_true in Hfresh. cbn in Hfresh.
  destruct (decide (CurrentTerm (nd_raft nd) < aer_Term r)) as [Hlt|Hge].
  - unfold onEntriesReply in Hrun. rewrite decide_True in Hrun by done. injection Hrun as <-.
    by eapply stepDown_cm.
  - assert (ae_Term a = CurrentTerm (nd_raft nd)) as HT by lia.
    destruct (Hlv Hlive (ae_Term a) nd) as [?|[_ Hl]]; [by rewrite Hrq|done|lia|].
    apply onEntriesReply_vol in Hrun as [[Hke Hvol]|[Hsuc Hcnt]]; [| |lia].
    + eapply keeps_cm; try done. destruct Hke as (Hco & _ & Hs). unfold core in Hco.
      injection Hco as _ _ HT' _ _ _ Hli.
      eapply node_cm_moves; [by apply Hcm|cbn; lia|by right|done..].
    + eapply keeps_cm; try done; [by apply Hcnt|]. eapply counts_node_cm; try done.
      intros _. rewrite <-HT. auto.
Qed.

Lemma reply_snap_cm n s g now c cl nd rf a r :
  cm n s g → calls s !! c = Some cl → c_req cl = RqSnap a →
  c_status cl = Answered (RsSnap r) → c_live cl = true → fresh_reply cl s = true →
  nodes s !! c_from cl = Some nd →
  onSnapshotReply now (Z.of_nat (c_to cl)) a r (nd_raft nd) = Ret rf →
  cm n (mkSys (<[c_from cl := set_raft rf nd]> (nodes s)) (alter (with_status Finished) c (calls s)))
    (move_log (c_from cl) (h_flog (g_h g) (c_from cl)) g).
Proof.
  intros Hcm Hc Hrq Hst Hlive Hfresh Hi Hrun.
  assert (c_status cl ≠ Finished) as Hfin by (by rewrite Hst).
  assert (vote_key cl = None) as Hkey by (unfold vote_key; by rewrite Hrq).
  destruct (cm_calls _ _ _ Hcm cl) as [Hcl Hlv]; [by eapply list_elem_of_lookup_2|].
  unfold call_cm in Hcl. rewrite Hrq, Hst in Hcl. destruct Hcl as (_ & Hack).
  unfold fresh_reply in Hfresh. rewrite Hst, Hrq, Hi in Hfresh.
  apply bool_decide_eq_true in Hfresh. cbn in Hfresh.
  destruct (decide (CurrentTerm (nd_raft nd) < isr_Term r)) as [Hlt|Hge].
  - unfold onSnapshotReply in Hrun. rewrite decide_True in Hrun by done. injection Hrun as <-.
    by eapply stepDown_cm.
  - assert (is_Term a = CurrentTerm (nd_raft nd)) as HT by lia.
    destruct (Hlv Hlive (is_Term a) nd) as [?|[_ Hl]]; [by rewrite Hrq|done|lia|].
    apply onSnapshotReply_vol in Hrun as [[Hke Hvol]|Hcnt]; [| |lia].
    + eapply keeps_cm; try done. destruct Hke as (Hco & _ & Hs). unfold core in Hco.
      injection Hco as _ _ HT' _ _ _ Hli.
      eapply node_cm_moves; [by apply Hcm|cbn; lia|by right|done..].
    + eapply keeps_cm; try done; [by apply Hcnt|]. eapply counts_node_cm; try done.
      intros _. rewrite <-HT. apply Hack. lia.
Qed.

(** The voters of a winner had what they acknowledged, as far as earlier
    leaders kept it. *)
Lemma winner_voters n g T (i : nat) Q :
  hist_cm n g → h_tlog (g_h g) !! T = None → votedAll (g_h g) T i Q →
  ∀ v, v ∈ Q → h_votes (g_h g) !! (v, T) = Some i ∧
    ∃ Lv, g_vlog g !! (v, T) = Some Lv ∧ locked g v Lv (T - 1) (T - 1).
Proof.
  intros Hh Hnone Hvoted v Hv. apply Hvoted in Hv. split; [done|].
  destruct (hc_vote _ _ Hh _ _ _ Hv) as (Lv & _ & HLv & _ & _ & Hlock). exists Lv. split; [done|].
  intros T0 k l tl HT0 Hk Ht. destruct (Hlock _ _ _ _ HT0 Hk Ht) as [?|(T1 & HT1 & Hbr)]; [by left|].
  right. exists T1. split; [|done]. destruct (decide (T1 = T)) as [->|]; [|lia].
  destruct Hbr as (? & ? & ? & ? & ? & Ht1 & _). congruence.
Qed.

Lemma win_cm n s g i nd nd' cs Q :
  let T := CurrentTerm (nd_raft nd) in let fl := h_flog (g_h g) i in
  cm n s g → nodes s !! i = Some nd → state (nd_raft nd) = candidate →
  state (nd_raft nd') = leader → CurrentTerm (nd_raft nd') = T →
  h_tlog (g_h g) !! T = None → majority n Q → votedAll (g_h g) T i Q →
  commitIndex (nd_raft nd') = commitIndex (nd_raft nd) →
  matchIndex (nd_raft nd') = (λ _, 0) <$> matchIndex (nd_raft nd) →
  applier_ok n g nd' →
  inv n (mkSys (<[i := nd']> (nodes s)) cs) (with_tlog i T fl (g_h g)) →
  (∀ cl, cl ∈ cs → cl ∈ calls s ∨ (call_cm n g cl ∧ live_ok (<[i := nd']> (nodes s)) cl)) →
  cm n (mkSys (<[i := nd']> (nodes s)) cs) (lead_ack i T fl g) ∧ gext g (lead_ack i T fl g).
Proof.
  cbn zeta. intros Hcm Hi Hcand Hl HT Hnone HQ Hvoted Hci Hmi Happ Hinv Hcs.
  pose proof (inv_nodes _ _ _ (cm_inv _ _ _ Hcm) _ _ Hi) as Hok.
  pose proof (cm_nodes _ _ _ Hcm _ _ Hi) as Hnc. pose proof (cm_hist _ _ _ Hcm) as Hh.
  set (T := CurrentTerm (nd_raft nd)) in *. set (fl := h_flog (g_h g) i) in *.
  assert (∀ l tl, h_tlog (g_h g) !! T = Some (l, tl) → l = i ∧ ∃ ext, fl = tl ++ ext) as Hold.
  { intros l tl. congruence. }
  assert (g_vlog g !! (i, T) = Some fl) as Hvlog.
  { destruct (nc_cand _ _ _ _ _ Hnc Hcand) as [?|Hs]; [done|]. fold T in Hs. rewrite Hnone in Hs.
    by destruct Hs. }
  pose proof (only_lead _ _ _ _ Hold) as Ho. pose proof (gext_lead _ _ _ _ Hold) as Hgl.
  assert (hist_cm n (lead i T fl g)) as Hhl.
  { eapply (hist_lead n i T _ fl [] Q); try done; [by rewrite app_nil_r|set_solver|].
    by eapply winner_voters. }
  pose proof (flog_nonempty _ _ _ _ _ _ Hok) as Hne. fold fl in Hne.
  split; [|apply Ho]. apply (cm_frame n s g _ i nd); try done.
  - right. by split.
  - eapply hist_ack; [done|cbn; by rewrite lookup_insert_eq| |].
    + destruct fl; [done|cbn; lia].
    + intros T' c. apply (nk_past _ _ _ _ _ _ Hok).
  - cbn. rewrite fn_lookup_insert. rewrite <-(app_nil_r fl). rewrite <-(app_nil_r fl) in Hhl, Ho, Hgl.
    apply node_cm_lead; try done.
    + intros e He. by apply elem_of_nil in He.
    + rewrite Hmi. intros j m. rewrite list_lookup_fmap.
      intros (? & _ & ->)%fmap_Some. lia.
  - intros cl [?|[? ?]]%Hcs; [by left|right]. split; [|done].
    eapply call_cm_mono; [apply Ho|done].
Qed.

Lemma reply_vote_cm n s g now c cl nd a r el el' rf :
  cm n s g → calls s !! c = Some cl → c_req cl = RqVote a → c_status cl = Answered (RsVote r) →
  nodes s !! c_from cl = Some nd → nd_elections nd !! rv_Term a = Some el →
  handleVote now r el (nd_raft nd) = (el', rf) →
  ∃ g', cm n (mkSys (<[c_from cl := mkNode rf (<[rv_Term a := el']> (nd_elections nd))
                                       (nd_inflight nd)]> (nodes s))
                    (alter (with_status Finished) c (calls s))) g' ∧ gext g g'.
Proof.
  intros Hcm Hc Hrq Hst Hi Hel Hrun.
  pose proof (reply_vote _ _ _ _ _ _ _ _ _ _ _ _ (cm_inv _ _ _ Hcm) Hc Hrq Hst Hi Hel Hrun) as Hinv.
  cbn zeta in Hinv. pose proof (cm_nodes _ _ _ Hcm _ _ Hi) as Hnc.
  pose proof (handleVote_vol _ _ _ _ _ _ Hrun) as Hvol.
  apply handleVote_spec in Hrun as (_ & _ & _ & Hli & _ & Hcases).
  set (nd' := mkNode rf (<[rv_Term a := el']> (nd_elections nd)) (nd_inflight nd)) in *.
  assert (onward (nd_raft nd) (nd_raft nd')) as Hon.
  { cbn. destruct Hcases as [(? & _)|[(? & _ & ? & _)|(? & _ & ? & ? & _)]];
      [left; lia|right; split; [done|congruence]..]. }
  assert (call_cm n g (with_status Finished cl)) as Hcl.
  { apply call_cm_finished, (cm_calls _ _ _ Hcm). by eapply list_elem_of_lookup_2. }
  pose proof (status_calls n s g _ nd nd' c cl _ Hcm Hc Hi Hon Hcl) as Hcs.
  destruct Hinv as [[Hns Hinv]|(Hcand & Hl & HT & Hnone & (Q & HQ & Hvoted) & Hinv)].
  - assert (vol rf = vol (nd_raft nd)) as Hv.
    { destruct Hvol as [[? _]|(Hc' & Hl' & _)]; [done|]. destruct Hns as [?|[? _]]; congruence. }
    eexists. split; [eapply cm_quiet; try done|apply gext_move].
    eapply node_cm_moves; [exact Hnc| | |done..]; cbn.
    + destruct Hcases as [(? & _)|[(? & _)|(? & _)]]; lia.
    + destruct Hcases as [(_ & _ & ? & _)|[(? & _ & ? & _)|(? & _ & ? & ? & _)]]; [by left|by right|].
      destruct Hns as [?|[? _]]; congruence.
  - assert (commitIndex rf = commitIndex (nd_raft nd) ∧ lastApplied rf = lastApplied (nd_raft nd) ∧
            snapshotPending rf = snapshotPending (nd_raft nd) ∧
            matchIndex rf = (λ _, 0) <$> matchIndex (nd_raft nd)) as (Hci & Hla & Hsp & Hmi).
    { destruct Hvol as [[_ [?|?]]|(_ & _ & ? & ? & ? & ?)]; [congruence..|done]. }
    eexists. eapply (win_cm n s g _ nd nd' _ Q); try done.
    eapply applier_ok_commit; [..|apply Hnc]; cbn; try done. lia.
Qed.

(** ** The applier, snapshots and restarts *)

(** A peer moves without a message or a change of term and log. *)
Lemma local_cm n s g i nd nd' :
  cm n s g → nodes s !! i = Some nd → keeps (nd_raft nd) (nd_raft nd') →
  nd_elections nd' = nd_elections nd → matchIndex (nd_raft nd') = matchIndex (nd_raft nd) →
  commitIndex (nd_raft nd') = commitIndex (nd_raft nd) → applier_ok n g nd' →
  cm n (mkSys (<[i := nd']> (nodes s)) (calls s)) (move_log i (h_flog (g_h g) i) g).
Proof.
  intros Hcm Hi Hke Hel Hmi Hci Happ. pose proof (cm_nodes _ _ _ Hcm _ _ Hi) as Hnc.
  pose proof (keeps_inv _ _ _ _ _ _ (cm_inv _ _ _ Hcm) Hi Hke Hel) as Hinv.
  destruct Hke as (Hco & _ & Hs). unfold core in Hco. injection Hco as _ _ HT _ _ _ _.
  eapply cm_quiet; try done; [right; split; [done|congruence]| |by left].
  destruct Hnc. split; rewrite ?HT, ?Hs, ?Hmi, ?Hci; done.
Qed.

Lemma take_cm n s g i nd rf msg :
  cm n s g → nodes s !! i = Some nd → nd_inflight nd = None →
  applier_take (nd_raft nd) = Ret (rf, msg) →
  cm n (mkSys (<[i := mkNode rf (nd_elections nd) msg]> (nodes s)) (calls s))
    (move_log i (h_flog (g_h g) i) g).
Proof.
  intros Hcm Hi Hnone (Hke & Hci & Hla & Hmi & Hsp & Hmsg)%applier_take_spec.
  pose proof (cm_nodes _ _ _ Hcm _ _ Hi) as Hnc.
  pose proof (inv_nodes _ _ _ (cm_inv _ _ _ Hcm) _ _ Hi) as Hok.
  destruct (nc_applier _ _ _ _ _ Hnc) as (A1 & A2 & A3 & A4). rewrite Hnone in A4.
  pose proof Hke as (Hco & _). unfold core in Hco. injection Hco as _ _ _ _ _ _ Hli.
  eapply local_cm; try done. unfold applier_ok. cbn. rewrite Hli, Hci, Hla, Hsp.
  destruct Hmsg as [(Hp & t & ->)|[(Hp & Hlt & e & He & ->)|(Hp & ->)]]; rewrite Hp in *.
  - specialize (A3 eq_refl). split_and!; try done; [lia..|by right].
  - destruct A4 as [?|A4]; [done|]. split_and!; try done; [lia..| |right; split; [done|lia]].
    destruct (nk_log _ _ _ _ _ _ Hok) as (b & Hb & Hr). apply index_Ret in He as [_ He].
    unfold sliceIndex in He. rewrite (log_rel_tail _ _ _ _ Hr) in He by lia.
    replace (b + Z.to_nat (lastApplied (nd_raft nd) + 1 - LastIncludedIndex (nd_raft nd)))%nat
      with (Z.to_nat (lastApplied (nd_raft nd) + 1)) in He by lia.
    eapply committed_decided; [apply Hnc| |exact He]. lia.
  - destruct A4 as [?|A4]; [done|]. split_and!; try done; [lia..|by right].
Qed.

Lemma done_cm n s g i nd msg :
  cm n s g → nodes s !! i = Some nd → nd_inflight nd = Some msg →
  cm n (mkSys (<[i := mkNode (applier_done msg (nd_raft nd)) (nd_elections nd) None]> (nodes s))
          (calls s)) (move_log i (h_flog (g_h g) i) g).
Proof.
  intros Hcm Hi Hmsg. pose proof (cm_nodes _ _ _ Hcm _ _ Hi) as Hnc.
  destruct (nc_applier _ _ _ _ _ Hnc) as (A1 & A2 & A3 & A4). rewrite Hmsg in A4.
  eapply local_cm; try done; [apply applier_done_keeps|by destruct msg..|].
  unfold applier_ok. destruct msg as [c k|d t idx]; cbn;
    destruct (snapshotPending (nd_raft nd)); intuition (try done; lia).
Qed.

Lemma snapshot_cm n s g i nd idx data rf :
  cm n s g → nodes s !! i = Some nd → may_snapshot nd idx → Snapshot idx data (nd_raft nd) = Ret rf →
  cm n (mkSys (<[i := set_raft rf nd]> (nodes s)) (calls s)) (move_log i (h_flog (g_h g) i) g).
Proof.
  intros Hcm Hi Hmay Hrun. pose proof (cm_nodes _ _ _ Hcm _ _ Hi) as Hnc.
  pose proof (snapshot_inv _ _ _ _ _ _ _ _ (cm_inv _ _ _ Hcm) Hi Hrun) as Hinv.
  pose proof (Snapshot_vol _ _ _ _ Hrun) as Hvol. unfold vol in Hvol. injection Hvol as Hci Hla Hsp Hmi.
  apply Snapshot_spec in Hrun as (Hf & _ & Hlog). injection Hf as _ _ HT _ Hs _ _.
  eapply cm_quiet; try done; [right; split; [done|cbn; congruence]| |by left].
  assert (applier_ok n g (set_raft rf nd)) as Happ.
  2: { destruct Hnc. split; cbn; rewrite ?HT, ?Hs, ?Hmi, ?Hci; done. }
  destruct (nc_applier _ _ _ _ _ Hnc) as (A1 & A2 & A3 & A4).
  destruct Hlog as [[_ ->]|(Hlt & Hli & _)]; [by apply Hnc|].
  unfold applier_ok. cbn. rewrite Hci, Hla, Hsp, Hli. unfold may_snapshot in Hmay.
  destruct (snapshotPending (nd_raft nd)); [specialize (A3 eq_refl)|];
    destruct (nd_inflight nd) as [[]|]; intuition (try done; lia).
Qed.

Lemma restart_cm n s g i nd now rf :
  cm n s g → nodes s !! i = Some nd →
  Make (Z.of_nat n) (Z.of_nat i) now (persister (nd_raft nd)) = Ret rf →
  cm n (mkSys (<[i := mkNode rf ∅ None]> (nodes s)) (orphan i <$> calls s))
    (move_log i (h_flog (g_h g) i) g).
Proof.
  intros Hcm Hi Hrun. pose proof (cm_nodes _ _ _ Hcm _ _ Hi) as Hnc.
  pose proof (inv_nodes _ _ _ (cm_inv _ _ _ Hcm) _ _ Hi) as Hok.
  pose proof (restart_inv _ _ _ _ _ _ _ (cm_inv _ _ _ Hcm) Hi Hrun) as Hinv.
  destruct (Make_durable (nd_raft nd) now (Z.of_nat n) (Z.of_nat i)) as
    (rf' & Hmk & Hco & _ & _ & Hs & Hci & Hla & Hsp); [by apply Hok..|].
  rewrite Hrun in Hmk. injection Hmk as <-. unfold core in Hco. injection Hco as _ _ HT _ _ _ Hli.
  destruct (nc_applier _ _ _ _ _ Hnc) as (A1 & A2 & A3 & A4).
  destruct (nk_log _ _ _ _ _ _ Hok) as (b & Hb & _).
  apply (cm_frame_calls n s g); try done; [apply only_move|by apply hist_move, Hcm| |].
  - cbn. rewrite fn_lookup_insert. apply node_cm_move.
    destruct Hnc. split; cbn; rewrite ?HT, ?Hs; try done.
    + rewrite Hci. eapply committed_le; [done|]. lia.
    + unfold applier_ok. cbn. rewrite Hci, Hla, Hsp, Hli. split_and!; [lia..|done|right; lia].
  - intros cl (cl0 & -> & Hin)%list_elem_of_fmap. destruct (cm_calls _ _ _ Hcm _ Hin) as [Hcl Hlive].
    unfold orphan. case_decide as Hf; [split; [|by intros ?]|split].
    + unfold call_cm in *. cbn. by apply (call_cm_mono _ _ _ _ (gext_move i (h_flog (g_h g) i) g)) in Hcl.
    + eapply call_cm_mono; [apply gext_move|done].
    + intros Hl T nd' HT' Hnd'. rewrite list_lookup_insert_ne in Hnd' by done. by eapply Hlive.
Qed.

(** ** Every fresh step *)

Lemma deliver_cm n s g c now s' :
  cm n s g → deliver c now s = Some s' → ∃ g', cm n s' g' ∧ gext g g'.
Proof.
  intros Hcm (cl & nd & rf & r & Hc & Hst & Hi & Hrun & ->)%deliver_Some.
  destruct (c_req cl) as [a|a|a] eqn:Hrq; cbn in Hrun;
    apply bind_ret_inv in Hrun as ([rf1 r1] & Hrun & [= <- <-]).
  - by eapply deliver_vote_cm.
  - by eapply deliver_append_cm.
  - by eapply deliver_snap_cm.
Qed.

Lemma reply_cm n s g c now s' :
  cm n s g → fresh_label (LReply c now) s = true → replyTo c now s = Some s' →
  ∃ g', cm n s' g' ∧ gext g g'.
Proof.
  intros Hcm Hfresh (cl & nd & nd' & r & Hc & Hst & Hlive & Hi & Hh & ->)%replyTo_Some.
  cbn in Hfresh. rewrite Hc in Hfresh. unfold handleResponse in Hh.
  destruct (c_req cl) as [a|a|a] eqn:Hrq, r as [r|r|r]; try done.
  - apply bind_Some in Hh as (el & Hel & Hh).
    destruct (handleVote now r el (nd_raft nd)) as [el' rf] eqn:Hhv. injection Hh as <-.
    by eapply reply_vote_cm.
  - apply bind_Some in Hh as (rf & Hrun%ok_Some & [= <-]).
    eexists. split; [by eapply reply_append_cm|apply gext_move].
  - apply bind_Some in Hh as (rf & Hrun%ok_Some & [= <-]).
    eexists. split; [by eapply reply_snap_cm|apply gext_move].
Qed.

Lemma fresh_step_cm n s g s' : cm n s g → fresh_step s s' → ∃ g', cm n s' g' ∧ gext g g'.
Proof.
  intros Hcm (l & Hfresh & Hl).
  assert (∀ s' i fl, cm n s' (move_log i fl g) → ∃ g', cm n s' g' ∧ gext g g') as Hmove.
  { intros s0 i fl ?. eexists. split; [done|apply gext_move]. }
  destruct l as [i now|i cmd|i j|c now|c now|i|i|i idx data|i now]; cbn in Hl.
  - apply elect_Some in Hl as (nd & rf & a & Hi & Hrun & ->).
    rewrite (inv_length _ _ _ (cm_inv _ _ _ Hcm)). by eapply elect_cm.
  - apply client_Some in Hl as (nd & rf & r & Hi & Hrun & ->). by eapply client_cm.
  - exists g. split; [by eapply replicate_cm|apply gext_refl].
  - by eapply deliver_cm.
  - by eapply reply_cm.
  - apply applyTake_Some in Hl as (nd & rf & msg & Hi & Hn & Hrun & ->). by eapply Hmove, take_cm.
  - apply applyDone_Some in Hl as (nd & msg & Hi & Hm & ->). by eapply Hmove, done_cm.
  - apply takeSnapshot_Some in Hl as (nd & rf & Hi & Hm & Hrun & ->). by eapply Hmove, snapshot_cm.
  - apply restart_Some in Hl as (nd & rf & Hi & Hrun & ->).
    rewrite (inv_length _ _ _ (cm_inv _ _ _ Hcm)) in Hrun. by eapply Hmove, restart_cm.
Qed.

Lemma init_cm n : cm n (sys_init n) (mkGhost (mkHistory ∅ ∅ (λ _, [dummy])) ∅ ∅).
Proof.
  assert (∀ v T k, ¬ acked (mkGhost (mkHistory ∅ ∅ (λ _, [@dummy Cmd])) ∅ ∅) v T k) as Hna.
  { intros v T k (m & Hm & _). cbn in Hm. by rewrite lookup_empty in Hm. }
  split.
  - apply init_inv.
  - split; cbn; try by intros; rewrite ?lookup_empty in *.
    intros v T k Hk. by apply Hna in Hk.
  - intros i nd. cbn. rewrite list_lookup_fmap. intros (j & _ & ->)%fmap_Some. split; cbn; try done.
    + intros T k Hk. by apply Hna in Hk.
    + by intros e ->%list_elem_of_singleton.
    + by left.
    + split_and!; cbn; try done; [lia..|by right].
  - intros cl Hcl. cbn in Hcl. by apply elem_of_nil in Hcl.
Qed.

Lemma fresh_run_cm n s g s' :
  cm n s g → rtc fresh_step s s' → ∃ g', cm n s' g' ∧ gext g g'.
Proof.
  intros Hcm Hrun. revert g Hcm. induction Hrun as [s|s1 s2 s3 Hstep _ IH]; intros g Hcm.
  - exists g. split; [done|apply gext_refl].
  - destruct (fresh_step_cm _ _ _ _ Hcm Hstep) as (g2 & Hcm2 & Hg2).
    destruct (IH g2 Hcm2) as (g3 & ? & ?). exists g3. split; [done|by eapply gext_trans].
Qed.

Definition fresh_reachable n s : Prop := rtc fresh_step (sys_init n) s.

(** C1: State Machine Safety.  In an execution in which no reply of an older
    term is processed, with any number of servers, lost, delayed and reordered
    messages, repeated requests, crashes, restarts and snapshots: whatever command a
    server hands to its service at index [k], no server ever hands over
    another command at index [k], at that moment or later. *)
Theorem state_machine_safety n s1 s2 i j nd1 nd2 c c' k :
  fresh_reachable n s1 → rtc fresh_step s1 s2 →
  nodes s1 !! i = Some nd1 → nodes s2 !! j = Some nd2 →
  nd_inflight nd1 = Some (CommandMsg c k) → nd_inflight nd2 = Some (CommandMsg c' k) → c = c'.
Proof.
  intros H1 H2 Hi Hj Hc Hc'.
  destruct (fresh_run_cm _ _ _ _ (init_cm n) H1) as (g1 & Hcm1 & _).
  destruct (fresh_run_cm _ _ _ _ Hcm1 H2) as (g2 & Hcm2 & Hg).
  destruct (nc_applier _ _ _ _ _ (cm_nodes _ _ _ Hcm1 _ _ Hi)) as (_ & _ & _ & A1).
  destruct (nc_applier _ _ _ _ _ (cm_nodes _ _ _ Hcm2 _ _ Hj)) as (_ & _ & _ & A2).
  rewrite Hc in A1. rewrite Hc' in A2. destruct A1 as (_ & _ & D1 & _), A2 as (_ & _ & D2 & _).
  eapply decided_unique; [apply Hcm2|apply Hcm2|by eapply decided_mono|exact D2].
Qed.

(** C7: Leader Completeness.  In such an execution, an entry a server holds at
    an index it considers committed is held at that index by every server that
    leads then or later in a term at least the first server's (unless a
    snapshot has replaced it there). *)
Theorem leader_completeness n s1 s2 i j nd1 nd2 k e :
  let rf1 := nd_raft nd1 in let rf2 := nd_raft nd2 in
  fresh_reachable n s1 → rtc fresh_step s1 s2 →
  nodes s1 !! i = Some nd1 → nodes s2 !! j = Some nd2 →
  LastIncludedIndex rf1 < k ≤ commitIndex rf1 → index (Log rf1) (sliceIndex rf1 k) = Ret e →
  state rf2 = leader → CurrentTerm rf1 ≤ CurrentTerm rf2 → LastIncludedIndex rf2 < k →
  index (Log rf2) (sliceIndex rf2 k) = Ret e.
Proof.
  cbn zeta. intros H1 H2 Hi Hj Hk He Hl HT Hk2.
  destruct (fresh_run_cm _ _ _ _ (init_cm n) H1) as (g1 & Hcm1 & _).
  destruct (fresh_run_cm _ _ _ _ Hcm1 H2) as (g2 & Hcm2 & Hg).
  pose proof (inv_nodes _ _ _ (cm_inv _ _ _ Hcm1) _ _ Hi) as Hok1.
  pose proof (inv_nodes _ _ _ (cm_inv _ _ _ Hcm2) _ _ Hj) as Hok2.
  pose proof (nk_leader _ _ _ _ _ _ Hok2 Hl) as Htl.
  assert (agree (Z.to_nat (commitIndex (nd_raft nd1))) (h_flog (g_h g1) i) (h_flog (g_h g2) j)) as Ha.
  { eapply committed_leader; [apply Hcm2|apply Hcm2| | |exact HT|exact Htl].
    - eapply valid_mono; [apply Hg|apply Hok1].
    - eapply committed_mono; [exact Hg|reflexivity|]. by apply (cm_nodes _ _ _ Hcm1 _ _ Hi). }
  destruct (nk_log _ _ _ _ _ _ Hok1) as (b1 & B1 & R1).
  destruct (nk_log _ _ _ _ _ _ Hok2) as (b2 & B2 & R2).
  unfold sliceIndex in *. apply index_Ret in He as [_ He]. apply index_Ret. split; [lia|].
  rewrite (log_rel_tail _ _ _ _ R1) in He by lia. rewrite (log_rel_tail _ _ _ _ R2) by lia.
  rewrite <-He. replace (b1 + Z.to_nat (k - LastIncludedIndex (nd_raft nd1)))%nat with (Z.to_nat k) by lia.
  replace (b2 + Z.to_nat (k - LastIncludedIndex (nd_raft nd2)))%nat with (Z.to_nat k) by lia.
  symmetry. eapply agree_lookup; [exact Ha|lia].
Qed.
End commit.

(** ** The theorems at work: a command on two servers *)

Section runs.
Context {Cmd : Type} `{!Codec (PersistedState Cmd)}.

(** Runs the labels, refusing a stale reply. *)
Fixpoint run_fresh (ls : list (@Label Cmd)) (s : Sys) : option Sys :=
  match ls with
  | [] => Some s
  | l :: ls => guard (fresh_label l s = true);; s ← sys_step l s; run_fresh ls s
  end.

Lemma run_fresh_rtc ls s s' : run_fresh ls s = Some s' → rtc fresh_step s s'.
Proof.
  revert s. induction ls as [|l ls IH]; intros s; cbn.
  - by intros [= ->].
  - intros (Hf & _ & H)%bind_Some. apply bind_Some in H as (s1 & Hs & H).
    eapply rtc_l; [by exists l|]. by apply IH.
Qed.
End runs.

#[local] Instance nat_fresh_codec : Codec (PersistedState nat) := countable_codec.

(** Server 0 is elected and commits a command; it is handing it over in the
    first state, server 1 in the second. *)
Definition handing_over : list (@Label nat) :=
  [LElect 0 0; LDeliver 0 0; LReply 0 0; LClient 0 7%nat; LReplicate 0 1; LDeliver 2 0; LReply 2 0;
   LApplyTake 0].
Definition handing_over_next : list (@Label nat) := [LReplicate 0 1; LDeliver 3 0; LApplyTake 1].

Lemma handing_over_runs :
  (s1 ← run_fresh handing_over (sys_init 3); s2 ← run_fresh handing_over_next s1;
   nd0 ← nodes s1 !! 0%nat; nd1 ← nodes s2 !! 1%nat;
   Some (nd_inflight nd0, nd_inflight nd1, LastIncludedIndex (nd_raft nd0), commitIndex (nd_raft nd0),
         index (Log (nd_raft nd0)) (sliceIndex (nd_raft nd0) 1), state (nd_raft nd0))) =
  Some (Some (CommandMsg (Some 7%nat) 1), Some (CommandMsg (Some 7%nat) 1), 0, 1,
        Ret (mkEntry 1 (Some 7%nat)), leader).
Proof. vm_compute. reflexivity. Qed.

Lemma handing_over_facts : ∃ s1 s2 nd0 nd1,
  fresh_reachable 3 s1 ∧ rtc fresh_step s1 s2 ∧ nodes s1 !! 0%nat = Some nd0 ∧
  nodes s2 !! 1%nat = Some nd1 ∧ nd_inflight nd0 = Some (CommandMsg (Some 7%nat) 1) ∧
  nd_inflight nd1 = Some (CommandMsg (Some 7%nat) 1) ∧ LastIncludedIndex (nd_raft nd0) = 0 ∧
  commitIndex (nd_raft nd0) = 1 ∧
  index (Log (nd_raft nd0)) (sliceIndex (nd_raft nd0) 1) = Ret (mkEntry 1 (Some 7%nat)) ∧
  state (nd_raft nd0) = leader.
Proof.
  pose proof handing_over_runs as H. apply bind_Some in H as (s1 & H1 & H).
  apply bind_Some in H as (s2 & H2 & H). apply bind_Some in H as (nd0 & E0 & H).
  apply bind_Some in H as (nd1 & E1 & H). injection H as ? ? ? ? ? ?.
  apply run_fresh_rtc in H1, H2. exists s1, s2, nd0, nd1. split_and!; assumption.
Qed.

Lemma state_machine_safety_witness : ∃ s1 s2 nd0 nd1,
  fresh_reachable 3 s1 ∧ rtc fresh_step s1 s2 ∧ nodes s1 !! 0%nat = Some nd0 ∧
  nodes s2 !! 1%nat = Some nd1 ∧ nd_inflight nd0 = Some (CommandMsg (Some 7%nat) 1) ∧
  nd_inflight nd1 = Some (CommandMsg (Some 7%nat) 1) ∧ Some 7%nat = Some 7%nat.
Proof.
  destruct handing_over_facts as (s1 & s2 & nd0 & nd1 & H1 & H2 & E0 & E1 & C0 & C1 & _).
  exists s1, s2, nd0, nd1. do 6 (split; [assumption|]).
  exact (state_machine_safety 3 s1 s2 0 1 nd0 nd1 _ _ 1 H1 H2 E0 E1 C0 C1).
Defined.

Lemma leader_completeness_witness : ∃ s1 nd0,
  fresh_reachable 3 s1 ∧ nodes s1 !! 0%nat = Some nd0 ∧ commitIndex (nd_raft nd0) = 1 ∧
  index (Log (nd_raft nd0)) (sliceIndex (nd_raft nd0) 1) = Ret (mkEntry 1 (Some 7%nat)).
Proof.
  destruct handing_over_facts as (s1 & _ & nd0 & _ & H1 & _ & E0 & _ & _ & _ & L0 & C0 & I0 & S0).
  exists s1, nd0. do 3 (split; [assumption|]).
  refine (leader_completeness 3 s1 s1 0 0 nd0 nd0 1 _ H1 (rtc_refl _ _) E0 E0 _ I0 S0 _ _); lia.
Defined.
