(* ===== verification/RaftSources.v ===== *)
(** * RaftSources: where snapshots and commands come from

    Raft invents nothing: every snapshot a peer stores, sends or hands to its
    service is one that a service gave to [Snapshot], with the index it came
    with, and every command in a log, in a request or on its way to a service
    was given to [Start].  [P] and [Q] stand for what is known of what the
    services give; [sources_step] is the invariant.  [net_step_frame] says which
    steps of the cluster move the applier. *)

From S2P Require Import Prelude Persister Raft RaftFacts RaftVolatile RaftNet RaftSafety RaftQuorum RaftCommit.

Section snap.
Context {Cmd : Type} `{!Codec (PersistedState Cmd)}.
Implicit Types (rf : Raft Cmd).

(** The snapshot a peer stores, and whether the applier has to hand it over. *)
Definition snap rf := (LastIncludedIndex rf, SnapshotData rf, snapshotPending rf).

Lemma core_snap rf rf' :
  core rf' = core rf → snapshotPending rf' = snapshotPending rf → snap rf' = snap rf.
Proof. unfold core, snap. intros [= _ _ _ _ _ -> ->] ->. done. Qed.

Lemma bumpTerm_snap now term rf0 rf rf1 :
  rf1 = (if decide (CurrentTerm rf < term) then becomeFollowerWithTerm now term rf0 else rf0) →
  snap rf0 = snap rf → snap rf1 = snap rf.
Proof. intros -> Hv. by case_decide. Qed.

Lemma AppendEntries_snap now args rf rf' reply :
  AppendEntries now args rf = Ret (rf', reply) → snap rf' = snap rf.
Proof.
  unfold AppendEntries.
  assert (snap (observeLeader now args rf) = snap rf) as Ho.
  { unfold observeLeader. cbn zeta. repeat case_decide; done. }
  set (rf1 := observeLeader now args rf) in *. clearbody rf1. rewrite <-Ho. clear Ho.
  case_decide as Hst; [by intros [= <- <-]|].
  intros ([[su ct] ci] & Hc & H)%bind_ret_inv. destruct su.
  - rewrite decide_False in H by done. apply bind_ret_inv in H as (rf2 & Hacc & [= <- <-]).
    unfold acceptEntries in Hacc. apply bind_ret_inv in Hacc as ([rem l] & _ & [= <-]).
    destruct rem; case_decide; done.
  - rewrite decide_True in H by done. by injection H as <- <-.
Qed.

Lemma InstallSnapshot_snap now args rf rf' reply :
  InstallSnapshot now args rf = Ret (rf', reply) →
  snap rf' = snap rf ∨
  LastIncludedIndex rf < is_LastIncludedIndex args ∧
  LastIncludedIndex rf' = is_LastIncludedIndex args ∧ SnapshotData rf' = is_Data args.
Proof.
  unfold InstallSnapshot.
  destruct (decide (is_Term args < CurrentTerm rf)) as [Hstale|Hstale]; [intros [= <- <-]; by left|].
  cbn [CurrentTerm set_lastHeardTime].
  remember (if decide (CurrentTerm rf < is_Term args) then _ else _) as rf1 eqn:Erf1.
  apply bumpTerm_snap in Erf1; [|done]. unfold snap in *. injection Erf1 as <- <- <-.
  destruct (decide (LastIncludedIndex rf1 < is_LastIncludedIndex args)) as [HL|HL].
  - intros (rf2 & Had & [= <- <-])%bind_ret_inv. unfold adoptSnapshot in Had. right. split; [done|].
    apply bind_ret_inv in Had as (keep & _ & Had). apply bind_ret_inv in Had as (rf3 & Hrf3 & [= <-]).
    destruct keep; [apply bind_ret_inv in Hrf3 as (l & _ & [= <-])|injection Hrf3 as <-];
      case_decide; done.
  - intros [= <- <-]. by left.
Qed.

Lemma RequestVote_snap now args rf rf' reply :
  RequestVote now args rf = Ret (rf', reply) → snap rf' = snap rf.
Proof.
  unfold RequestVote.
  remember (if decide (CurrentTerm rf < rv_Term args) then _ else _) as rf1 eqn:Erf1.
  apply bumpTerm_snap in Erf1 as <-; [|done].
  case_decide as Hfree; [|by intros [= <- <-]].
  intros (up & _ & H)%bind_ret_inv. destruct up; by injection H as <- <-.
Qed.

Lemma startElection_snap now rf rf' args :
  startElection now rf = Ret (rf', args) → snap rf' = snap rf.
Proof. unfold startElection. by intros (t & Ht & [= <- <-])%bind_ret_inv. Qed.

Lemma handleVote_snap now reply el rf el' rf' :
  handleVote now reply el rf = (el', rf') → snap rf' = snap rf.
Proof. unfold handleVote. repeat case_match; by intros [= <- <-]. Qed.

Lemma Start_snap cmd rf rf' r : Start cmd rf = (rf', r) → snap rf' = snap rf.
Proof. unfold Start. case_decide; by intros [= <- <-]. Qed.

Lemma onEntriesReply_snap now i args reply rf rf' :
  onEntriesReply now i args reply rf = Ret rf' →
  snap rf' = snap rf ∧ Log rf' = Log rf ∧ lastApplied rf' = lastApplied rf.
Proof.
  intros H. assert (snapshotPending rf' = snapshotPending rf ∧ lastApplied rf' = lastApplied rf) as [Hp Hla].
  - unfold onEntriesReply in H. case_decide; [by injection H as <-|].
    apply bind_ret_inv in H as (mi & _ & H). destruct (aer_Success reply); case_decide;
      [by injection H as <-| |by injection H as <-|].
    + apply bind_ret_inv in H as (mis & _ & H). apply bind_ret_inv in H as (nis & _ & H).
      pose proof (advanceFrom_pending _ _ _ H). apply advanceFrom_spec in H as (_ & ? & _). done.
    + apply bind_ret_inv in H as (ni & _ & H). by apply bind_ret_inv in H as (nis & _ & [= <-]).
  - apply onEntriesReply_spec in H as [[_ ->]|(Hco & _)]; [done|]. split_and!; [by apply core_snap| |done].
    unfold core in Hco. congruence.
Qed.

Lemma onSnapshotReply_snap now i args reply rf rf' :
  onSnapshotReply now i args reply rf = Ret rf' →
  snap rf' = snap rf ∧ Log rf' = Log rf ∧ lastApplied rf' = lastApplied rf.
Proof.
  intros H. assert (snapshotPending rf' = snapshotPending rf ∧ lastApplied rf' = lastApplied rf) as [Hp Hla].
  - unfold onSnapshotReply in H. case_decide; [by injection H as <-|].
    apply bind_ret_inv in H as (mi & _ & H). case_decide; [|by injection H as <-].
    apply bind_ret_inv in H as (mis & _ & H). apply bind_ret_inv in H as (nis & _ & H).
    pose proof (advanceFrom_pending _ _ _ H). apply advanceFrom_spec in H as (_ & ? & _). done.
  - apply onSnapshotReply_spec in H as [[_ ->]|(Hco & _)]; [done|]. split_and!; [by apply core_snap| |done].
    unfold core in Hco. congruence.
Qed.

(** Requests do not move the applier; neither do replies. *)
Lemma handleRequest_applied now rq rf rf' r :
  handleRequest now rq rf = Ret (rf', r) → lastApplied rf' = lastApplied rf.
Proof.
  destruct rq as [a|a|a]; cbn; intros ([rf1 r1] & H & [= <- <-])%bind_ret_inv.
  - apply RequestVote_vol in H. unfold vol in H. congruence.
  - apply AppendEntries_vol in H. unfold vol in H. congruence.
  - by apply InstallSnapshot_vol in H as (_ & ? & _).
Qed.

Lemma handleResponse_local now j rq rs (nd nd' : @Node Cmd) :
  handleResponse now j rq rs nd = Some nd' →
  nd_inflight nd' = nd_inflight nd ∧ snap (nd_raft nd') = snap (nd_raft nd) ∧
  Log (nd_raft nd') = Log (nd_raft nd) ∧ lastApplied (nd_raft nd') = lastApplied (nd_raft nd).
Proof.
  unfold handleResponse. destruct rq as [a|a|a], rs as [r|r|r]; try done.
  - intros (el & _ & H)%bind_Some. destruct (handleVote now r el (nd_raft nd)) as [el' rf] eqn:Hv.
    injection H as <-. cbn. pose proof (handleVote_snap _ _ _ _ _ _ Hv) as Hs.
    pose proof (handleVote_spec _ _ _ _ _ _ Hv) as (_ & _ & Hl & _).
    apply handleVote_vol in Hv as [[Hv _]|(_ & _ & _ & Hla & _)]; [unfold vol in Hv|]; split_and!; congruence.
  - intros (rf & H%ok_Some & [= <-])%bind_Some. split; [done|by eapply onEntriesReply_snap].
  - intros (rf & H%ok_Some & [= <-])%bind_Some. split; [done|by eapply onSnapshotReply_snap].
Qed.
End snap.

(** ** Provenance *)

Section sources.
Context {Cmd : Type} `{!Codec (PersistedState Cmd)}.
Context (P : Z → bytes → Prop) (Q : Cmd → Prop).
Implicit Types (rf : Raft Cmd) (nd : @Node Cmd) (cl : @Call Cmd) (s : @Sys Cmd) (n i j : nat).

Definition entry_src (e : LogEntry Cmd) : Prop := ∃ c, Command e = Some c ∧ Q c.

(** The first entry of a log stands for what the snapshot covers. *)
Definition log_src (L : list (LogEntry Cmd)) : Prop := ∀ k e, L !! S k = Some e → entry_src e.

Record raft_src rf : Prop := {
  rs_snap : P (LastIncludedIndex rf) (SnapshotData rf);
  rs_log : log_src (Log rf);
  rs_index : 0 ≤ LastIncludedIndex rf;
  rs_pending : snapshotPending rf = true → 0 < LastIncludedIndex rf;
}.

Definition msg_src (m : ApplyMsg Cmd) : Prop :=
  match m with
  | CommandMsg c _ => ∃ c', c = Some c' ∧ Q c'
  | SnapshotMsg data _ idx => P idx data ∧ 0 < idx
  end.

Definition request_src (rq : @Request Cmd) : Prop :=
  match rq with
  | RqVote _ => True
  | RqAppend a => ∀ e, e ∈ ae_Entries a → entry_src e
  | RqSnap a => P (is_LastIncludedIndex a) (is_Data a)
  end.

Record sources s : Prop := {
  so_raft i nd : nodes s !! i = Some nd → raft_src (nd_raft nd);
  so_msg i nd m : nodes s !! i = Some nd → nd_inflight nd = Some m → msg_src m;
  so_calls cl : cl ∈ calls s → request_src (c_req cl);
}.

Lemma raft_src_same rf rf' :
  snap rf' = snap rf → Log rf' = Log rf → raft_src rf → raft_src rf'.
Proof. unfold snap. intros [= E1 E2 E3] E4 []. split; by rewrite ?E1, ?E2, ?E3, ?E4. Qed.

Lemma log_src_drop L k : log_src L → log_src (drop k L).
Proof. intros H j e. rewrite lookup_drop, Nat.add_succ_r. apply H. Qed.

Lemma log_src_merged L b a L' :
  merged L b a L' → log_src L → (∀ e, e ∈ ae_Entries a → entry_src e) → log_src L'.
Proof.
  intros (_ & _ & _ & k & _ & _ & [[_ ->]|(_ & Hlen & _ & ->)]) HL He; [done|].
  intros j e [Hj|[_ Hj]]%lookup_app_Some.
  - apply lookup_take_Some in Hj as [Hj _]. by eapply HL.
  - apply He. rewrite lookup_drop in Hj. by eapply list_elem_of_lookup_2.
Qed.

Lemma log_src_rebased L b a L' : rebased L b a L' → log_src L → log_src L'.
Proof.
  intros [(e & _ & _ & ->)|[_ ->]] HL; [by apply log_src_drop|]. intros k e Hk. by destruct k.
Qed.

Lemma handleRequest_src now rq rf rf' r :
  handleRequest now rq rf = Ret (rf', r) → raft_src rf → request_src rq → raft_src rf'.
Proof.
  intros H Hrf Hrq. destruct rq as [a|a|a]; cbn in H, Hrq;
    apply bind_ret_inv in H as ([rf1 r1] & H & [= <- <-]).
  - eapply raft_src_same; [by eapply RequestVote_snap| |done].
    by apply RequestVote_spec in H as (_ & _ & ? & _).
  - pose proof (AppendEntries_snap _ _ _ _ _ H) as Hs. unfold snap in Hs. injection Hs as E1 E2 E3.
    apply AppendEntries_spec in H as (_ & _ & _ & _ & _ & _ & _ & _ & H).
    assert (log_src (Log rf1)) as HL.
    { destruct (aer_Success r1); [destruct H as [_ H]|rewrite H; apply Hrf].
      eapply log_src_merged; [done|apply Hrf|done]. }
    destruct Hrf. split; by rewrite ?E1, ?E2, ?E3.
  - pose proof (InstallSnapshot_spec _ _ _ _ _ H) as (_ & _ & _ & _ & _ & _ & _ & HL).
    assert (log_src (Log rf1)) as HL'.
    { destruct HL as [[-> _]|(_ & _ & _ & HL)]; [apply Hrf|]. eapply log_src_rebased; [done|apply Hrf]. }
    destruct Hrf as [? ? ? ?].
    apply InstallSnapshot_snap in H as [Hs|(Hlt & E1 & E2)].
    + unfold snap in Hs. injection Hs as E1 E2 E3. split; by rewrite ?E1, ?E2, ?E3.
    + split; rewrite ?E1, ?E2; try done; lia.
Qed.

(** One peer and the calls change. *)
Lemma sources_frame s i nd' cs :
  sources s → raft_src (nd_raft nd') → (∀ m, nd_inflight nd' = Some m → msg_src m) →
  (∀ cl, cl ∈ cs → cl ∈ calls s ∨ request_src (c_req cl)) →
  sources (mkSys (<[i := nd']> (nodes s)) cs).
Proof.
  intros [] Hr Hm Hc. split; cbn.
  - intros j nd [(-> & <- & _)|[_ Hj]]%list_lookup_insert_Some; [done|by eapply so_raft0].
  - intros j nd m [(-> & <- & _)|[_ Hj]]%list_lookup_insert_Some ?; [by apply Hm|by eapply so_msg0].
  - intros cl [?%so_calls0|?]%Hc; done.
Qed.

Lemma alter_status_src s c st cl :
  sources s → cl ∈ alter (with_status st) c (calls s) → request_src (c_req cl).
Proof.
  intros Hs (k & Hk)%list_elem_of_lookup. rewrite list_lookup_alter in Hk. case_decide; subst.
  - apply fmap_Some in Hk as (cl0 & Hk & ->). apply (so_calls _ Hs cl0), (list_elem_of_lookup_2 _ _ _ Hk).
  - eapply (so_calls _ Hs), list_elem_of_lookup_2, Hk.
Qed.

Lemma replicate_sources s i j s' : replicateTo i j s = Some s' → sources s → sources s'.
Proof.
  intros (_ & _ & nd & out & Hi & Hout & ->)%replicateTo_Some Hs.
  pose proof (so_raft _ Hs _ _ Hi) as Hrf. apply send_spec in Hout.
  assert (∀ rq, request_src rq → sources (mkSys (nodes s) (calls s ++ [mkCall i j rq Pending true]))) as Hadd.
  { intros rq Hrq. destruct Hs. split; cbn; try done.
    intros cl [?| ->%list_elem_of_singleton]%elem_of_app; [by apply so_calls0|done]. }
  destruct out as [|a|a]; [done|..]; apply Hadd; cbn.
  - destruct Hout as (_ & _ & _ & -> & -> & _). apply Hrf.
  - destruct Hout as (_ & _ & _ & _ & _ & _ & ->). intros e (k & Hk)%list_elem_of_lookup.
    rewrite lookup_drop in Hk. by eapply Hrf.
Qed.

Lemma take_sources n s g i s' :
  cm n s g → applyTake i s = Some s' → sources s → sources s'.
Proof.
  intros Hcm (nd & rf & msg & Hi & Hno & Hrun & ->)%applyTake_Some Hs.
  pose proof (so_raft _ Hs _ _ Hi) as Hrf.
  apply applier_take_spec in Hrun as ((Hco & _) & _ & _ & _ & Hsp & Hmsg).
  unfold core in Hco. injection Hco as _ _ _ _ EL ED EI.
  destruct (nc_applier _ _ _ _ _ (cm_nodes _ _ _ Hcm _ _ Hi)) as (_ & _ & _ & A). rewrite Hno in A.
  apply sources_frame; [done| | |by left].
  - destruct Hrf. cbn. split; rewrite ?EL, ?ED, ?EI, ?Hsp; done.
  - cbn. intros m ->. destruct Hmsg as [(Hp & t & [= ->])|[(Hp & _ & e & He & [= ->])|[_ ?]]]; [..|done].
    + split; [apply Hrf|by apply Hrf].
    + destruct A as [?|A]; [congruence|]. apply index_Ret in He as [_ He]. unfold sliceIndex in He.
      replace (Z.to_nat (lastApplied (nd_raft nd) + 1 - LastIncludedIndex (nd_raft nd)))
        with (S (Z.to_nat (lastApplied (nd_raft nd) - LastIncludedIndex (nd_raft nd)))) in He by lia.
      by apply Hrf in He.
Qed.

Lemma snapshot_src idx data rf rf' :
  Snapshot idx data rf = Ret rf' → P idx data → raft_src rf → raft_src rf'.
Proof.
  intros H HP Hrf. pose proof (Snapshot_vol _ _ _ _ H) as Hv. unfold vol in Hv. injection Hv as _ _ Hp _.
  apply Snapshot_spec in H as (_ & _ & [[_ ->]|(Hlt & EI & ED & _ & EL)]); [done|].
  destruct Hrf. split; rewrite ?EI, ?ED, ?EL, ?Hp; try done; [by apply log_src_drop|lia..].
Qed.

Lemma start_src cmd rf rf' r : Start cmd rf = (rf', r) → Q cmd → raft_src rf → raft_src rf'.
Proof.
  intros H HQ Hrf. pose proof (Start_snap _ _ _ _ H) as Hs. unfold snap in Hs. injection Hs as EI ED Ep.
  apply Start_spec in H as (_ & _ & _ & _ & _ & _ & _ & [(_ & EL & _)|(_ & -> & _)]); [|done].
  destruct Hrf. split; rewrite ?EI, ?ED, ?Ep, ?EL; try done.
  intros k e [?|[_ Hk]]%lookup_app_Some; [by eapply rs_log0|].
  apply list_lookup_singleton_Some in Hk as [_ <-]. by exists cmd.
Qed.

Lemma restart_sources n s g i now s' :
  cm n s g → restart i now s = Some s' → sources s → sources s'.
Proof.
  intros Hcm (nd & rf & Hi & Hrun & ->)%restart_Some Hs.
  pose proof (inv_nodes _ _ _ (cm_inv _ _ _ Hcm) _ _ Hi) as Hok.
  rewrite (inv_length _ _ _ (cm_inv _ _ _ Hcm)) in Hrun.
  destruct (Make_durable (nd_raft nd) now (Z.of_nat n) (Z.of_nat i)) as
    (rf' & Hmk & Hco & _ & _ & _ & _ & _ & Hsp); [by apply Hok..|].
  rewrite Hrun in Hmk. injection Hmk as <-. unfold core in Hco. injection Hco as _ _ _ _ EL ED EI.
  apply sources_frame; [done| |done|].
  - pose proof (so_raft _ Hs _ _ Hi) as []. cbn. split; rewrite ?EL, ?ED, ?EI, ?Hsp; done.
  - intros cl (cl0 & -> & Hin)%list_elem_of_fmap. right. apply (so_calls _ Hs) in Hin.
    unfold orphan. by case_decide.
Qed.

(** The invariant: only [Start] and [Snapshot] bring in something new. *)
Lemma sources_step n s g l s' :
  cm n s g → sys_step l s = Some s' →
  match l with LClient _ cmd => Q cmd | LSnapshot _ idx data => P idx data | _ => True end →
  sources s → sources s'.
Proof.
  intros Hcm Hl Hnew Hs.
  destruct l as [i now|i cmd|i j|c now|c now|i|i|i idx data|i now]; cbn in Hl.
  - apply elect_Some in Hl as (nd & rf & a & Hi & Hrun & ->).
    apply sources_frame; [done|..|by intros; eapply (so_msg _ Hs)|].
    + eapply raft_src_same; [by eapply startElection_snap| |by eapply (so_raft _ Hs)].
      by apply startElection_spec in Hrun as (_ & _ & ? & _).
    + intros cl [?|Hcl]%elem_of_app; [by left|]. right. apply list_elem_of_fmap in Hcl as (? & -> & _). done.
  - apply client_Some in Hl as (nd & rf & r & Hi & Hrun & ->).
    apply sources_frame; [done|..|by intros; eapply (so_msg _ Hs)|by left].
    eapply start_src; [done..|by eapply (so_raft _ Hs)].
  - by eapply replicate_sources.
  - apply deliver_Some in Hl as (cl & nd & rf & r & Hc & _ & Hi & Hrun & ->).
    apply sources_frame; [done|..|by intros; eapply (so_msg _ Hs)|by right; eapply alter_status_src].
    eapply handleRequest_src; [done|by eapply (so_raft _ Hs)|].
    by eapply (so_calls _ Hs), list_elem_of_lookup_2.
  - apply replyTo_Some in Hl as (cl & nd & nd' & r & Hc & _ & _ & Hi & Hh & ->).
    apply handleResponse_local in Hh as (Hm & Hsn & HL & _).
    apply sources_frame; [done|..|by right; eapply alter_status_src].
    + eapply raft_src_same; [done..|by eapply (so_raft _ Hs)].
    + rewrite Hm. intros. by eapply (so_msg _ Hs).
  - by eapply take_sources.
  - apply applyDone_Some in Hl as (nd & msg & Hi & Hm & ->).
    apply sources_frame; [done|..|done|by left]. cbn.
    eapply raft_src_same; [| |by eapply (so_raft _ Hs)]; by destruct msg.
  - apply takeSnapshot_Some in Hl as (nd & rf & Hi & _ & Hrun & ->).
    apply sources_frame; [done|..|by intros; eapply (so_msg _ Hs)|by left].
    eapply snapshot_src; [done..|by eapply (so_raft _ Hs)].
  - by eapply restart_sources.
Qed.

Lemma sources_init n : P 0 [] → sources (sys_init n).
Proof.
  intros HP. split; cbn.
  - intros i nd. rewrite list_lookup_fmap. intros (j & _ & ->)%fmap_Some. split; cbn; try done.
  - intros i nd m. rewrite list_lookup_fmap. intros (j & _ & ->)%fmap_Some. done.
  - intros cl Hcl. by apply elem_of_nil in Hcl.
Qed.
End sources.

Lemma sources_weaken {Cmd} (P P' : Z → bytes → Prop) (Q Q' : Cmd → Prop) (s : @Sys Cmd) :
  (∀ i d, P i d → P' i d) → (∀ c, Q c → Q' c) → sources P Q s → sources P' Q' s.
Proof.
  intros HP HQ [].
  assert (∀ e, entry_src Q e → entry_src Q' e) as He by (intros e (c & ? & ?); exists c; auto).
  split.
  - intros i nd []%so_raft0. split; auto. intros k e ?. eauto.
  - intros i nd [|] Hi Hm; specialize (so_msg0 _ _ _ Hi Hm); cbn in *; naive_solver.
  - intros cl Hcl%so_calls0. destruct (c_req cl); cbn in *; auto.
Qed.

Lemma sources_mono {Cmd} (P P' : Z → bytes → Prop) (Q : Cmd → Prop) (s : @Sys Cmd) :
  (∀ i d, P i d → P' i d) → sources P Q s → sources P' Q s.
Proof. intros HP. by apply sources_weaken. Qed.

(** ** The applier *)

Section frame.
Context {Cmd : Type} `{!Codec (PersistedState Cmd)}.
Implicit Types (nd : @Node Cmd) (s : @Sys Cmd).

(** What a peer tells its service: how far it is, and what it is sending. *)
Definition applier (nd : @Node Cmd) := (lastApplied (nd_raft nd), nd_inflight nd).

(** The server at which a step changes that. *)
Definition moves_applier (l : @Label Cmd) : option nat :=
  match l with
  | LApplyTake i | LApplyDone i | LRestart i _ => Some i
  | _ => None
  end.

Lemma insert_frame s i nd nd' j nd1 :
  nodes s !! i = Some nd → applier nd' = applier nd → <[i := nd']> (nodes s) !! j = Some nd1 →
  ∃ nd0, nodes s !! j = Some nd0 ∧ applier nd1 = applier nd0.
Proof.
  intros Hi Ha [(-> & <- & _)|[_ Hj]]%list_lookup_insert_Some; [by exists nd|by exists nd1].
Qed.

Lemma net_step_frame l s s' j nd' :
  sys_step l s = Some s' → nodes s' !! j = Some nd' → moves_applier l ≠ Some j →
  ∃ nd, nodes s !! j = Some nd ∧ applier nd' = applier nd.
Proof.
  unfold applier. intros Hl Hj Hm.
  destruct l as [i now|i cmd|i k|c now|c now|i|i|i idx data|i now]; cbn in Hl, Hm.
  - apply elect_Some in Hl as (nd & rf & a & Hi & Hrun & ->). eapply insert_frame; [done| |done].
    apply startElection_vol in Hrun as [Hv _]. unfold vol, applier in *. cbn. congruence.
  - apply client_Some in Hl as (nd & rf & r & Hi & Hrun & ->). eapply insert_frame; [done| |done].
    apply Start_vol in Hrun. unfold vol, applier in *. cbn. congruence.
  - apply replicateTo_Some in Hl as (_ & _ & nd & out & _ & _ & ->). destruct out; by exists nd'.
  - apply deliver_Some in Hl as (cl & nd & rf & r & _ & _ & Hi & Hrun & ->).
    eapply insert_frame; [done| |done]. apply handleRequest_applied in Hrun. unfold applier. cbn. congruence.
  - apply replyTo_Some in Hl as (cl & nd & nd1 & r & _ & _ & _ & Hi & Hh & ->).
    eapply insert_frame; [done| |done]. apply handleResponse_local in Hh as (? & _ & _ & ?).
    unfold applier. congruence.
  - apply applyTake_Some in Hl as (nd & rf & msg & Hi & _ & _ & ->). cbn in Hj.
    rewrite list_lookup_insert_ne in Hj by congruence. by exists nd'.
  - apply applyDone_Some in Hl as (nd & msg & Hi & _ & ->). cbn in Hj.
    rewrite list_lookup_insert_ne in Hj by congruence. by exists nd'.
  - apply takeSnapshot_Some in Hl as (nd & rf & Hi & _ & Hrun & ->). eapply insert_frame; [done| |done].
    apply Snapshot_vol in Hrun. unfold vol, applier in *. cbn. congruence.
  - apply restart_Some in Hl as (nd & rf & Hi & _ & ->). cbn in Hj.
    rewrite list_lookup_insert_ne in Hj by congruence. by exists nd'.
Qed.
End frame.
