(* ===== verification/RaftApply.v ===== *)
(** * RaftApply: the receiving side of applyCh

    What a process that reads a peer's [applyCh] can rely on, whatever it does
    with the messages.  [applyCh] is unbuffered: a message goes over in one step,
    after which the applier and the reader go on independently.  The reader is
    described by three values: whether the applier's message has gone over
    ([got]), the message it has received and not yet processed ([mail]), and the
    index it has reached ([idx]).  [inbox_inv] is the invariant: the messages
    continue, without gap or repetition, where the reader is, and their commands
    and snapshots are what was decided; it is proved for executions in which no
    reply of an older term is processed.  [Replicas] and [RaftTestNet] build on
    it. *)

From S2P Require Import Prelude Persister Raft RaftFacts RaftVolatile RaftNet RaftSafety RaftQuorum RaftCommit RaftSources.

Section apply.
Context {Cmd : Type} `{!Codec (PersistedState Cmd)}.
Notation Sys := (@Sys Cmd).
Notation Node := (@Node Cmd).
Implicit Types (nd : Node) (net : Sys) (g : @Ghost Cmd) (m : ApplyMsg Cmd).

Definition msgIdx m : Z :=
  match m with CommandMsg _ k => k | SnapshotMsg _ _ k => k end.

(** The steps of the peers that the readers have no part in. *)
Definition is_net (l : @Label Cmd) : bool :=
  match l with
  | LElect _ _ | LReplicate _ _ | LDeliver _ _ | LReply _ _ | LApplyTake _ => true
  | _ => false
  end.

(** ** The invariant *)

(** [P] is what is known of the readers' snapshots, [Q] of their commands. *)
Context (n : nat) (P : @Ghost Cmd → Z → bytes → Prop) (Q : Cmd → Prop).
Context (P_mono : ∀ g g' k data, gext g g' → P g k data → P g' k data).

Record net_ok g net : Prop := {
  no_cm : cm n net g;
  no_src : sources (P g) Q net;
}.

(** How far the peer thinks its reader is, and how far the reader will be. *)
Definition handed nd (got : bool) : Z :=
  match got, nd_inflight nd with true, Some m => msgIdx m | _, _ => lastApplied (nd_raft nd) end.
Definition reached (mail : option (ApplyMsg Cmd)) (idx : Z) : Z :=
  match mail with Some m => msgIdx m | None => idx end.

(** A received message continues where the reader is. *)
Definition mail_ok g (idx : Z) m : Prop :=
  match m with
  | CommandMsg c k => k = idx + 1 ∧ 0 < k ∧ ∃ cmd, c = Some cmd ∧ Q cmd ∧ decided n g (Z.to_nat k) (Some cmd)
  | SnapshotMsg data _ k => 0 < k ∧ P g k data
  end.

Record inbox_inv g nd (got : bool) (mail : option (ApplyMsg Cmd)) (idx : Z) : Prop := {
  ib_got : got = true → is_Some (nd_inflight nd);
  ib_reached : reached mail idx = handed nd got;
  ib_mail m : mail = Some m → mail_ok g idx m ∧ (got = true → nd_inflight nd = Some m);
}.

(** ** The peers move *)

(** What a step brings in from outside. *)
Definition new_ok g (l : @Label Cmd) : Prop :=
  match l with LClient _ cmd => Q cmd | LSnapshot _ idx data => P g idx data | _ => True end.

Lemma net_ok_step g net l net' :
  net_ok g net → fresh_label l net = true → sys_step l net = Some net' → new_ok g l →
  ∃ g', gext g g' ∧ net_ok g' net'.
Proof.
  intros [Hcm Hso] Hf Hl Hnew. destruct (fresh_step_cm n net g net') as (g' & Hcm' & Hg); [done|by exists l|].
  exists g'. split; [done|]. split; [done|].
  apply (sources_mono (P g)); [intros i d HP; exact (P_mono g g' i d Hg HP)|]. exact (sources_step _ _ _ _ _ _ _ Hcm Hl Hnew Hso).
Qed.

Lemma net_ok_init : (∀ g, P g 0 []) → ∃ g, net_ok g (sys_init n).
Proof. intros HP. eexists. split; [apply init_cm|by apply sources_init]. Qed.

Lemma mail_ok_mono g g' idx m : gext g g' → mail_ok g idx m → mail_ok g' idx m.
Proof.
  intros Hg. destruct m as [c k|data t k]; cbn.
  - intros (? & ? & cmd & ? & ? & Hd). split_and!; [done..|]. exists cmd. split_and!; [done..|].
    by eapply decided_mono.
  - intros [? ?]. split; [done|by eapply P_mono].
Qed.

Lemma inbox_mono g g' nd nd' got mail idx :
  gext g g' → applier nd' = applier nd → inbox_inv g nd got mail idx → inbox_inv g' nd' got mail idx.
Proof.
  unfold applier. intros Hg [= Ela Ein] []. split; rewrite ?Ein; try done.
  - unfold handed. rewrite Ein, Ela. done.
  - intros m (? & ?)%ib_mail0. split; [by eapply mail_ok_mono|done].
Qed.

Lemma node_at (i : nat) nd nd' net : nodes (set_node i nd net) !! i = Some nd' → nd' = nd.
Proof. cbn. by intros [(_ & -> & _)|[? _]]%list_lookup_insert_Some. Qed.

Lemma other_nodes i nd' net j nd1 :
  j ≠ i → nodes (set_node i nd' net) !! j = Some nd1 → ∃ nd, nodes net !! j = Some nd ∧ applier nd1 = applier nd.
Proof. intros Hne. cbn. rewrite list_lookup_insert_ne by done. eauto. Qed.

Lemma set_same nd i net : nodes net !! i = Some nd → set_node i (set_raft (nd_raft nd) nd) net = net.
Proof.
  intros Hi. destruct net as [nds cs], nd as [r el m]. unfold set_node, set_raft. cbn in *.
  by rewrite list_insert_id.
Qed.

(** A step of the peers, seen from a reader. *)
Lemma inbox_net g net l net' j nd' :
  is_net l = true → sys_step l net = Some net' → nodes net' !! j = Some nd' →
  ∃ nd, nodes net !! j = Some nd ∧
    ∀ got mail idx, inbox_inv g nd got mail idx → inbox_inv g nd' got mail idx.
Proof.
  intros Hnl Hnet Hj. destruct (decide (moves_applier l = Some j)) as [Hmv|Hmv].
  - destruct l; try done. cbn in Hmv, Hnet. injection Hmv as ->.
    apply applyTake_Some in Hnet as (nd & rf' & msg & Hi & Hnone & Hrun & ->).
    apply (node_at j (mkNode rf' (nd_elections nd) msg) nd' net) in Hj as ->.
    apply applier_take_spec in Hrun as (_ & _ & Hla & _).
    exists nd. split; [done|]. intros got mail idx [Hgot Hreach Hmail].
    assert (got = false) as ->.
    { destruct got; [|done]. destruct Hgot; [done|congruence]. }
    split; [done| |].
    + rewrite Hreach. unfold handed. cbn. congruence.
    + by intros m [? _]%Hmail.
  - destruct (net_step_frame _ _ _ _ _ Hnet Hj Hmv) as (nd & Hi & Ha).
    exists nd. split; [done|]. intros got mail idx. apply inbox_mono; [apply gext_refl|done].
Qed.

(** ** A message goes over *)

Lemma inbox_hand g net i nd m idx :
  net_ok g net → nodes net !! i = Some nd → nd_inflight nd = Some m →
  inbox_inv g nd false None idx → inbox_inv g nd true (Some m) idx.
Proof.
  intros [Hcm Hso] Hi Hmsg [_ Hreach _]. cbn in Hreach. split; [done|cbn; by rewrite Hmsg|].
  intros m' [= <-]. split; [|done]. rewrite Hreach.
  pose proof (so_msg _ _ _ Hso _ _ _ Hi Hmsg) as Hsrc.
  destruct (nc_applier _ _ _ _ _ (cm_nodes _ _ _ Hcm _ _ Hi)) as (_ & ? & _ & A).
  rewrite Hmsg in A. destruct m as [c k|data t k]; cbn in *.
  - destruct A as (-> & _ & Hd & _), Hsrc as (cmd & -> & ?). split_and!; [done|lia|]. by exists cmd.
  - by destruct Hsrc.
Qed.

Lemma inbox_done g net i nd m mail idx :
  net_ok g net → nodes net !! i = Some nd → nd_inflight nd = Some m →
  inbox_inv g nd true mail idx →
  inbox_inv g (mkNode (applier_done m (nd_raft nd)) (nd_elections nd) None) false mail idx.
Proof.
  intros [Hcm _] Hi Hmsg [_ Hreach Hmail].
  destruct (nc_applier _ _ _ _ _ (cm_nodes _ _ _ Hcm _ _ Hi)) as (_ & _ & _ & A). rewrite Hmsg in A.
  split; [done| |by intros m' [? _]%Hmail].
  rewrite Hreach. unfold handed. cbn. rewrite Hmsg. destruct m; [|done]. cbn in *. by destruct A as (-> & _).
Qed.

(** The reader has processed its message; it may take a snapshot at it. *)
Lemma inbox_process g nd got m idx :
  inbox_inv g nd got (Some m) idx → inbox_inv g nd got None (msgIdx m).
Proof. by intros [? ? _]. Qed.

Lemma inbox_may_snapshot g nd got c k idx :
  inbox_inv g nd got (Some (CommandMsg c k)) idx → may_snapshot nd k.
Proof.
  intros [_ Hreach Hmail]. destruct (Hmail _ eq_refl) as [_ Hsame]. unfold may_snapshot.
  cbn in Hreach. unfold handed in Hreach. destruct got; [right; by rewrite Hsame|left; lia].
Qed.

Lemma inbox_new g nd : nd_inflight nd = None → inbox_inv g nd false None (lastApplied (nd_raft nd)).
Proof. by intros. Qed.

(** The reader's calls of [Start] and [Snapshot] as steps of the cluster. *)
Lemma peer_step g net i nd rf' :
  net_ok g net → nodes net !! i = Some nd →
  rf' = nd_raft nd ∨ (∃ cmd r, Q cmd ∧ Start cmd (nd_raft nd) = (rf', r)) ∨
  (∃ k data, may_snapshot nd k ∧ P g k data ∧ Snapshot k data (nd_raft nd) = Ret rf') →
  ∃ g', gext g g' ∧ net_ok g' (set_node i (set_raft rf' nd) net) ∧ applier (set_raft rf' nd) = applier nd.
Proof.
  intros Hn Hi [->|[(cmd & r & Hop & Hs)|(k & data & Hm & Hd & Hs)]].
  - exists g. rewrite set_same by done. split_and!; [apply gext_refl|done..].
  - destruct (net_ok_step g net (LClient i cmd) (set_node i (set_raft rf' nd) net)) as (g' & ? & ?); try done.
    { cbn. unfold client. rewrite Hi. cbn. by rewrite Hs. }
    exists g'. split_and!; try done. apply Start_vol in Hs. unfold vol, applier in *. cbn. congruence.
  - destruct (net_ok_step g net (LSnapshot i k data) (set_node i (set_raft rf' nd) net)) as (g' & ? & ?); try done.
    { cbn. unfold takeSnapshot. rewrite Hi. cbn. rewrite option_guard_True by done. cbn. by rewrite Hs. }
    exists g'. split_and!; try done. apply Snapshot_vol in Hs. unfold vol, applier in *. cbn. congruence.
Qed.

(** A reader may always take the snapshot it wants. *)
Lemma Snapshot_returns g net i nd k data :
  net_ok g net → nodes net !! i = Some nd → may_snapshot nd k → returns (Snapshot k data (nd_raft nd)).
Proof.
  intros [Hcm _] Hi Hmay. unfold Snapshot. case_decide; [apply returns_ret|].
  apply returns_bind; [|intros; apply returns_ret]. apply slice_from_returns. unfold sliceIndex.
  destruct (nc_applier _ _ _ _ _ (cm_nodes _ _ _ Hcm _ _ Hi)) as (_ & A & _ & B).
  assert (k ≤ commitIndex (nd_raft nd)) as Hk.
  { destruct Hmay as [?|Hin]; [lia|]. destruct (nd_inflight nd) as [[]|]; [subst; lia|done..]. }
  destruct (nk_log _ _ _ _ _ _ (inv_nodes _ _ _ (cm_inv _ _ _ Hcm) _ _ Hi)) as (b & Hb & Hlen%log_rel_length).
  pose proof (nc_commit _ _ _ _ _ (cm_nodes _ _ _ Hcm _ _ Hi)) as [?|(T & k' & tl & _ & _ & _ & [? _])];
    unfold zlen; lia.
Qed.

(** ** Restart *)

(** A restarted peer is where the snapshot in its persister is. *)
Lemma restart_at g net i nd rf :
  net_ok g net → nodes net !! i = Some nd →
  Make (Z.of_nat n) (Z.of_nat i) 0 (persister (nd_raft nd)) = Ret rf →
  P g (lastApplied rf) (ReadSnapshot (persister (nd_raft nd))).
Proof.
  intros [Hcm Hso] Hi Hrun. pose proof (inv_nodes _ _ _ (cm_inv _ _ _ Hcm) _ _ Hi) as Hok.
  destruct (Make_durable (nd_raft nd) 0 (Z.of_nat n) (Z.of_nat i)) as
    (rf2 & Hmk & _ & _ & _ & _ & _ & Hla & _); [by apply Hok..|].
  rewrite Hrun in Hmk. injection Hmk as <-. rewrite Hla.
  assert (durable (nd_raft nd)) as Hd by apply Hok.
  replace (ReadSnapshot (persister (nd_raft nd))) with (SnapshotData (nd_raft nd)).
  - apply (so_raft _ _ _ Hso _ _ Hi).
  - unfold ReadSnapshot. rewrite clone_id. destruct Hd as [(Hp & Hs & _)|[_ Hs]]; [by rewrite Hp, Hs|done].
Qed.
End apply.

(** Less may be known of snapshots and commands. *)
Section weaken.
Context {Cmd : Type} `{!Codec (PersistedState Cmd)} (n : nat).
Context (P P' : @Ghost Cmd → Z → bytes → Prop) (Q Q' : Cmd → Prop) (g : @Ghost Cmd).
Context (HP : ∀ k data, P g k data → P' g k data) (HQ : ∀ cmd, Q cmd → Q' cmd).

Lemma net_ok_weaken net : net_ok n P Q g net → net_ok n P' Q' g net.
Proof. intros []. split; [done|]. by eapply sources_weaken. Qed.

Lemma inbox_weaken nd got mail idx : inbox_inv n P Q g nd got mail idx → inbox_inv n P' Q' g nd got mail idx.
Proof.
  intros []. split; [done..|]. intros m (Hm & ?)%ib_mail0. split; [|done].
  destruct m as [c k|data t k]; cbn in *; [|naive_solver].
  destruct Hm as (? & ? & cmd & ? & ? & ?). split_and!; [done..|]. exists cmd. auto.
Qed.
End weaken.
