(* ===== verification/RaftRuns.v ===== *)
(** * RaftRuns: concrete executions of the cluster

    Executions of [RaftNet] computed by the kernel, with natural numbers as
    commands.  They show where the peer of [raft.go] departs from Raft: the
    continuation of an AppendEntries call ([replicateToFollower] after the call
    returned) checks neither that the peer is still leader nor that the term
    is still the one of the request, so a reply of an old term counts as a
    replica of the log of the new term. *)

From S2P Require Import Prelude Persister Raft RaftNet.

#[local] Instance nat_codec : Codec (PersistedState nat) := countable_codec.

(** Request [c] arrives, then its reply does. *)
Definition roundtrip (c : nat) : list (@Label nat) := [LDeliver c 0; LReply c 0].

(** Five servers.  Server 0 leads term 1 and sends its entries 11, 12, 13 to
    server 1, whose reply (call 4) is delayed.  Server 2 leads term 2 and
    overwrites them on servers 0 and 1; server 0 comes back as the leader of
    term 3. *)
Definition until_term3 : list (@Label nat) :=
  [LElect 0 0] ++ roundtrip 0 ++ roundtrip 1 ++
  [LClient 0 11%nat; LClient 0 12%nat; LClient 0 13%nat; LReplicate 0 1; LDeliver 4 0; LElect 2 0] ++
  roundtrip 7 ++ roundtrip 8 ++
  [LClient 2 21%nat; LReplicate 2 0; LReplicate 2 1; LDeliver 9 0; LDeliver 10 0; LElect 0 0] ++
  roundtrip 11 ++ roundtrip 13.

(** The delayed reply of term 1 arrives in term 3. *)
Definition stale_reply : list (@Label nat) := until_term3 ++ [LReply 4 0].

(** As above with two entries of term 3 in the leader's log: the stale reply
    and server 3 make a majority of servers 0, 1 and 3, although server 1 does
    not have the entries.  Server 2 then wins term 5 with the votes of servers
    1 and 4 and commits another command at the same index. *)
Definition two_commits : list (@Label nat) :=
  until_term3 ++ [LClient 0 31%nat; LClient 0 32%nat; LReply 4 0; LReplicate 0 3] ++
  roundtrip 15 ++ [LReplicate 0 3] ++ roundtrip 16 ++ [LElect 2 0; LElect 2 0] ++
  roundtrip 22 ++ roundtrip 24 ++ [LClient 2 41%nat; LReplicate 2 1] ++ roundtrip 25 ++
  [LReplicate 2 4] ++ roundtrip 26 ++ [LReplicate 2 4] ++ roundtrip 27 ++
  [LApplyTake 0; LApplyDone 0; LApplyTake 0; LApplyTake 2; LApplyDone 2; LApplyTake 2].

Definition inflight (s : @Sys nat) (i : nat) : option (ApplyMsg nat) :=
  nodes s !! i ≫= nd_inflight.

Lemma two_commits_run :
  (s ← run_labels two_commits (sys_init 5); Some (inflight s 0%nat, inflight s 2%nat)) =
  Some (Some (CommandMsg (Some 31%nat) 2), Some (CommandMsg (Some 41%nat) 2)).
Proof. vm_compute. reflexivity. Qed.

(** C25: State Machine Safety fails.  A cluster of five servers reaches, with
    delayed messages alone, a state in which two servers hand different
    commands to their services as the command of the same index: the reply of
    an AppendEntries of term 1 is counted by the leader of term 3. *)
Theorem state_machine_safety_violated :
  ∃ s, reachable 5 s ∧
    inflight s 0%nat = Some (CommandMsg (Some 31%nat) 2) ∧
    inflight s 2%nat = Some (CommandMsg (Some 41%nat) 2).
Proof.
  pose proof two_commits_run as H. apply bind_Some in H as (s & Hs & [= H0 H2]).
  exists s. split; [exact (run_labels_rtc _ _ _ Hs)|exact (conj H0 H2)].
Qed.

Lemma stale_reply_run :
  (s ← run_labels stale_reply (sys_init 5);
   nd ← nodes s !! 0%nat;
   Some (bool_decide (state (nd_raft nd) = leader), replicateToFollower_send (nd_raft nd) 1)) =
  Some (true, Panic SliceRange).
Proof. vm_compute. reflexivity. Qed.

(** A stale reply can stop the leader.  After the same delayed reply the
    leader's [nextIndex] for server 1 lies beyond its log, and the next
    heartbeat to server 1 panics with a slice bound out of range. *)
Theorem stale_reply_stops_leader :
  ∃ s nd, reachable 5 s ∧ nodes s !! 0%nat = Some nd ∧ state (nd_raft nd) = leader ∧
    replicateToFollower_send (nd_raft nd) 1 = Panic SliceRange.
Proof.
  pose proof stale_reply_run as H. apply bind_Some in H as (s & Hs & H).
  apply bind_Some in H as (nd & Hnd & H). injection H as Hl Hp.
  apply bool_decide_eq_true in Hl.
  exists s, nd. exact (conj (run_labels_rtc _ _ _ Hs) (conj Hnd (conj Hl Hp))).
Qed.
