(* ===== verification/Rsm.v ===== *)
(** * Rsm: the replicated state machine

    Models [src/src/kvraft/rsm/rsm.go].  The service ([StateMachine]) and the
    Raft peer below ([RaftApi], the interface of
    [src/src/raftapi/raftapi.go]) are type classes; [Raft] is an instance of
    the second, the key/value servers are instances of the first.

    [readApply] and the calls of [Submit] are threads.  They share
    [rsm.mu] and the result channels (capacity one), so each step below is the
    code between two points where a thread can wait: for the mutex, for a
    channel, or in [select].  Only one thread ever waits while it holds
    [rsm.mu], the loop of [readApply] that expires pending calls after a
    snapshot; the other critical sections are single steps that need the mutex
    to be free. *)

From S2P Require Import Prelude RpcApi Persister Raft.

(** ** Interfaces *)

Class StateMachine (St Req Rep : Type) := {
  DoOp : Req → St → outcome (St * Rep);
  sm_Snapshot : St → bytes;
  sm_Restore : bytes → St → outcome St;
  sm_ok : St → Prop;
  req_ok : Req → Prop;
  sm_equiv : relation St;
}.
Arguments sm_Snapshot {St} {Req Rep _}.
Arguments sm_Restore {St} {Req Rep _}.
Arguments sm_ok {St} {Req Rep _}.
Arguments req_ok {St Req Rep _}.
Arguments sm_equiv {St} {Req Rep _}.

(** What the service promises: on its well-formed states it executes every
    well-formed request; states that differ only in ways no request can observe
    ([sm_equiv]) give the same replies; and a snapshot restores, on any server,
    a well-formed state, the one it was taken of up to that equivalence. *)
Class StateMachineLaws (St Req Rep : Type) `{!StateMachine St Req Rep} := {
  sm_equivalence : Equivalence (sm_equiv (St := St));
  DoOp_ok req s : sm_ok s → req_ok (St := St) req → ∃ s' r, DoOp req s = Ret (s', r) ∧ sm_ok s';
  DoOp_equiv req s1 s2 s1' r : sm_equiv s1 s2 → DoOp req s1 = Ret (s1', r) →
    ∃ s2', DoOp req s2 = Ret (s2', r) ∧ sm_equiv s1' s2';
  sm_Snapshot_nonempty s : sm_ok s → sm_Snapshot s ≠ [];
  sm_Restore_Snapshot s s0 : sm_ok s →
    ∃ s', sm_Restore (sm_Snapshot s) s0 = Ret s' ∧ sm_ok s' ∧ sm_equiv s' s;
}.

Class RaftApi (R Cmd : Type) := {
  api_Make : Z → Z → Persister → outcome R;
  api_Start : Cmd → R → R * (Z * Z * bool);
  api_GetState : R → Z * bool;
  api_Snapshot : Z → bytes → R → outcome R;
  api_PersistBytes : R → Z;
}.

#[global] Instance Raft_api `{!Codec (PersistedState Cmd)} : RaftApi (Raft Cmd) Cmd := {
  api_Make n me p := Make n me 0 p;
  api_Start := Start;
  api_GetState := GetState;
  api_Snapshot := Snapshot;
  api_PersistBytes := PersistBytes;
}.

Record Op (Req : Type) := mkOp { op_Me : Z; op_Id : Z; op_Req : Req }.
Arguments mkOp {Req}.
Arguments op_Me {Req}.
Arguments op_Id {Req}.
Arguments op_Req {Req}.

#[global] Instance Op_eq_dec `{EqDecision Req} : EqDecision (Op Req).
Proof. solve_decision. Defined.

#[global] Instance Op_countable `{Countable Req} : Countable (Op Req).
Proof.
  by refine (inj_countable' (λ o, (op_Me o, op_Id o, op_Req o)) (λ '(m, i, r), mkOp m i r) _);
    intros [].
Defined.

(** [value] is nil in the message that tells a pending call it has expired. *)
Record applyResult (Rep : Type) := mkResult { ar_opId : Z; ar_value : option Rep }.
Arguments mkResult {Rep}.
Arguments ar_opId {Rep}.
Arguments ar_value {Rep}.

Section rsm.
Context {St Req Rep R : Type} `{!StateMachine St Req Rep, !RaftApi R (Op Req)}.

(** ** State *)

(** Where [readApply] is. *)
Inductive Reader :=
| Receiving                                         (* at the range loop *)
| Looking (commandId : Z) (res : applyResult Rep)   (* before mu.Lock, line 133 *)
| Sending (ch : nat) (res : applyResult Rep)        (* at ch <- applyRes, line 139 *)
| Expiring (chs : list nat)                         (* in the loop of line 151, holds mu *)
| Closed.                                           (* applyCh was closed *)

(** Where one call of [Submit] is. *)
Inductive Pc :=
| Created                                                (* line 185 *)
| Locking                                                (* line 190 *)
| Waiting (commandId term : Z) (ch : nat)                (* the select *)
| GivingUp (commandId : Z)                               (* before the delete, lines 252, 275 *)
| Received (commandId : Z) (res : applyResult Rep)       (* before the delete, line 259 *)
| Done (err : Err) (v : option Rep).

Record Call := mkSubmit { sb_op : Op Req; sb_pc : Pc }.

Record RSM := mkRSM {
  rsm_me : Z;
  rf : R;
  maxraftstate : Z;
  sm : St;
  resultByCommandId : gmap Z nat;
  opId : Z;
  stopSubmit : bool;
  chans : list (option (applyResult Rep));
  reader : Reader;
  submits : list Call;
}.

Definition set_rf (x : R) (s : RSM) : RSM :=
  mkRSM (rsm_me s) x (maxraftstate s) (sm s) (resultByCommandId s) (opId s) (stopSubmit s)
    (chans s) (reader s) (submits s).
Definition set_sm (x : St) (s : RSM) : RSM :=
  mkRSM (rsm_me s) (rf s) (maxraftstate s) x (resultByCommandId s) (opId s) (stopSubmit s)
    (chans s) (reader s) (submits s).
Definition set_results (x : gmap Z nat) (s : RSM) : RSM :=
  mkRSM (rsm_me s) (rf s) (maxraftstate s) (sm s) x (opId s) (stopSubmit s)
    (chans s) (reader s) (submits s).
Definition set_opId (x : Z) (s : RSM) : RSM :=
  mkRSM (rsm_me s) (rf s) (maxraftstate s) (sm s) (resultByCommandId s) x (stopSubmit s)
    (chans s) (reader s) (submits s).
Definition set_stop (x : bool) (s : RSM) : RSM :=
  mkRSM (rsm_me s) (rf s) (maxraftstate s) (sm s) (resultByCommandId s) (opId s) x
    (chans s) (reader s) (submits s).
Definition set_chans (x : list (option (applyResult Rep))) (s : RSM) : RSM :=
  mkRSM (rsm_me s) (rf s) (maxraftstate s) (sm s) (resultByCommandId s) (opId s) (stopSubmit s)
    x (reader s) (submits s).
Definition set_reader (x : Reader) (s : RSM) : RSM :=
  mkRSM (rsm_me s) (rf s) (maxraftstate s) (sm s) (resultByCommandId s) (opId s) (stopSubmit s)
    (chans s) x (submits s).
Definition set_submits (x : list Call) (s : RSM) : RSM :=
  mkRSM (rsm_me s) (rf s) (maxraftstate s) (sm s) (resultByCommandId s) (opId s) (stopSubmit s)
    (chans s) (reader s) x.

Definition set_pc (t : nat) (pc : Pc) (s : RSM) : RSM :=
  set_submits (alter (λ c, mkSubmit (sb_op c) pc) t (submits s)) s.

(** [rsm.mu] is free unless [readApply] is expiring calls. *)
Definition mu_free (s : RSM) : Prop :=
  match reader s with Expiring _ => False | _ => True end.
#[global] Instance mu_free_dec s : Decision (mu_free s).
Proof. unfold mu_free. destruct (reader s); apply _. Defined.

(** ** MakeRSM *)

Definition MakeRSM (n me : Z) (p : Persister) (maxraftstate : Z) (sm0 : St) : outcome RSM :=
  let snapshot := ReadSnapshot p in
  sm ← (if decide (0 < zlen snapshot) then sm_Restore snapshot sm0 else Ret sm0);
  rf ← api_Make n me p;
  Ret (mkRSM me rf maxraftstate sm ∅ 0 false [] Receiving []).

(** ** readApply *)

(** Lines 117-125: the snapshot after a command, if the log has grown. *)
Definition maybeSnapshot (commandId : Z) (s : RSM) : outcome RSM :=
  if decide (maxraftstate s ≠ -1 ∧ maxraftstate s ≤ api_PersistBytes (rf s)) then
    rf ← api_Snapshot commandId (sm_Snapshot (sm s)) (rf s); Ret (set_rf rf s)
  else Ret s.

Definition applyCommand (op : Op Req) (commandId : Z) (s : RSM) : outcome RSM :=
  '(sm', result) ← DoOp (op_Req op) (sm s);
  s ← maybeSnapshot commandId (set_sm sm' s);
  Ret (set_reader (Looking commandId (mkResult (op_Id op) (Some result))) s).

(** The calls waiting for an index up to [idx]. *)
Definition pendingUpTo (idx : Z) (s : RSM) : gmap Z nat :=
  filter (λ p, p.1 ≤ idx) (resultByCommandId s).

(** A snapshot message, up to the loop of line 151.  [order] is the order in
    which Go ranges over the map, which is arbitrary. *)
Definition applySnapshot (data : bytes) (idx : Z) (order : list Z) (s : RSM) : outcome RSM :=
  sm' ← sm_Restore data (sm s);
  Ret (set_reader (Expiring (omap (λ c, resultByCommandId s !! c) order)) (set_sm sm' s)).

(** The channel of index [commandId], if a call is waiting. *)
Definition lookupResultCh (commandId : Z) (res : applyResult Rep) (s : RSM) : RSM :=
  match resultByCommandId s !! commandId with
  | Some ch => set_reader (Sending ch res) s
  | None => set_reader Receiving s
  end.

(** A send on a channel of capacity one, possible when it is empty. *)
Definition send (ch : nat) (res : applyResult Rep) (s : RSM) : option RSM :=
  match chans s !! ch with
  | Some None => Some (set_chans (<[ch := Some res]> (chans s)) s)
  | _ => None
  end.

(** ** Submit *)

Definition nextOpId (s : RSM) : RSM := set_opId (opId s + 1) s.

(** Lines 182-183. *)
Definition submitCreate (req : Req) (s : RSM) : RSM :=
  let s := nextOpId s in
  set_submits (submits s ++ [mkSubmit (mkOp (rsm_me s) (opId s) req) Created]) s.

(** Lines 185-188. *)
Definition submitCheck (t : nat) (s : RSM) : RSM :=
  if (api_GetState (rf s)).2 then set_pc t Locking s else set_pc t (Done ErrWrongLeader None) s.

(** Lines 190-212. *)
Definition submitStart (t : nat) (op : Op Req) (s : RSM) : RSM :=
  let '(rf, (commandId, termAtStart, isLeader)) := api_Start op (rf s) in
  let s := set_rf rf s in
  if isLeader : bool then
    let ch := length (chans s) in
    let s := set_chans (chans s ++ [None]) s in
    let s := set_results (<[commandId := ch]> (resultByCommandId s)) s in
    set_pc t (Waiting commandId termAtStart ch) s
  else set_pc t (Done ErrWrongLeader None) s.

(** Lines 246-256, up to the lock: the poll every 100ms. *)
Definition submitPoll (t : nat) (commandId termAtStart : Z) (deadline : bool) (s : RSM) : RSM :=
  let '(currentTerm, isStillLeader) := api_GetState (rf s) in
  if decide (isStillLeader = false ∨ termAtStart ≠ currentTerm ∨ deadline = true)
  then set_pc t (GivingUp commandId) s else s.

(** Lines 252-255 and 275-278. *)
Definition submitGiveUp (t : nat) (commandId : Z) (s : RSM) : RSM :=
  set_pc t (Done ErrWrongLeader None) (set_results (delete commandId (resultByCommandId s)) s).

(** Lines 259-270. *)
Definition submitFinish (t : nat) (op : Op Req) (commandId : Z) (res : applyResult Rep) (s : RSM)
    : RSM :=
  let s := set_results (delete commandId (resultByCommandId s)) s in
  if decide (ar_opId res ≠ op_Id op) then set_pc t (Done ErrWrongLeader None) s
  else set_pc t (Done OK (ar_value res)) s.

(** ** Steps *)

Inductive Step :=
| SRaft (rf : R)                                  (* the Raft peer moves on its own *)
| SSubmit (req : Req)                             (* a handler calls Submit *)
| SCheck (t : nat)
| SStart (t : nat)
| SPoll (t : nat) (deadline : bool)
| SReceive (t : nat)                              (* case result := <-resultCh *)
| SStop (t : nat)                                 (* case <-stopSubmit *)
| SFinish (t : nat)                               (* the delete after the select *)
| SApply (msg : ApplyMsg (Op Req)) (order : list Z)
| SLookup
| SSend
| SClose.

Definition ok {A} (m : outcome A) : option A :=
  match m with Ret a => Some a | Panic _ => None end.

Definition thread (t : nat) (s : RSM) : option Call := submits s !! t.

Definition readerStep (st : Step) (s : RSM) : option RSM :=
  match st, reader s with
  | SApply (CommandMsg (Some op) idx) _, Receiving => ok (applyCommand op idx s)
  | SApply (SnapshotMsg data _ idx) order, Receiving =>
      guard (order ≡ₚ (map_to_list (pendingUpTo idx s)).*1);;
      ok (applySnapshot data idx order s)
  | SLookup, Looking c res => Some (lookupResultCh c res s)
  | SSend, Sending ch res => send ch res (set_reader Receiving s)
  | SSend, Expiring (ch :: chs) => send ch (mkResult (-1) None) (set_reader (Expiring chs) s)
  | SSend, Expiring [] => Some (set_reader Receiving s)
  | SClose, Receiving => Some (set_stop true (set_reader Closed s))
  | _, _ => None
  end.

Definition submitStep (st : Step) (s : RSM) : option RSM :=
  match st with
  | SCheck t =>
      c ← thread t s;
      match sb_pc c with Created => Some (submitCheck t s) | _ => None end
  | SStart t =>
      guard (mu_free s);; c ← thread t s;
      match sb_pc c with Locking => Some (submitStart t (sb_op c) s) | _ => None end
  | SPoll t deadline =>
      c ← thread t s;
      match sb_pc c with Waiting i term _ => Some (submitPoll t i term deadline s) | _ => None end
  | SReceive t =>
      c ← thread t s;
      match sb_pc c with
      | Waiting i _ ch =>
          match chans s !! ch with
          | Some (Some res) => Some (set_pc t (Received i res) (set_chans (<[ch := None]> (chans s)) s))
          | _ => None
          end
      | _ => None
      end
  | SStop t =>
      guard (stopSubmit s = true);; c ← thread t s;
      match sb_pc c with Waiting i _ _ => Some (set_pc t (GivingUp i) s) | _ => None end
  | SFinish t =>
      guard (mu_free s);; c ← thread t s;
      match sb_pc c with
      | GivingUp i => Some (submitGiveUp t i s)
      | Received i res => Some (submitFinish t (sb_op c) i res s)
      | _ => None
      end
  | _ => None
  end.

Definition rsm_step (st : Step) (s : RSM) : option RSM :=
  match st with
  | SRaft rf => Some (set_rf rf s)
  | SSubmit req => Some (submitCreate req s)
  | SApply _ _ | SLookup | SSend | SClose => readerStep st s
  | _ => submitStep st s
  end.

Fixpoint rsm_run (ls : list Step) (s : RSM) : option RSM :=
  match ls with
  | [] => Some s
  | st :: ls => s ← rsm_step st s; rsm_run ls s
  end.

End rsm.
