(* ===== verification/RsmFacts.v ===== *)
(** * RsmFacts: what the replicated state machine promises

    [replica_follows_log]: a server that is handed one log in order, with
    snapshots of that log in between, is in the state that executing the log
    gives.  [submit_ok_sound]: a call of [Submit] that returns OK returns the
    result of the operation applied at the index it waited for, and that
    operation has its operation id. *)

From S2P Require Import Prelude RpcApi Persister Raft Rsm.

Section facts.
Context {St Req Rep R : Type} `{!StateMachine St Req Rep, !RaftApi R (Op Req)}.
Notation RSM := (@RSM St Req Rep R).
Notation Step := (@Step Req R).
Implicit Types (s : RSM) (ls : list Step).

Lemma rsm_run_app ls1 ls2 s :
  rsm_run (ls1 ++ ls2) s = (s' ← rsm_run ls1 s; rsm_run ls2 s').
Proof.
  revert s. induction ls1 as [|l ls1 IH]; intros s; cbn; [done|].
  destruct (rsm_step l s); cbn; [apply IH|done].
Qed.

(** ** The log as a specification *)

(** Executing a log from a state of the service. *)
Fixpoint exec (log : list (Op Req)) (st : St) : outcome St :=
  match log with
  | [] => Ret st
  | op :: log => '(st, _) ← DoOp (op_Req op) st; exec log st
  end.

(** Raft hands [msgs] to a server that is at index [k] of [log] and leaves it
    at index [k']: commands in order, and snapshots of the state at an index
    further on. *)
Inductive delivers (log : list (Op Req)) (st0 : St)
    : nat → list (ApplyMsg (Op Req)) → nat → Prop :=
| del_nil k : delivers log st0 k [] k
| del_cmd k op msgs k' :
    log !! k = Some op → delivers log st0 (S k) msgs k' →
    delivers log st0 k (CommandMsg (Some op) (Z.of_nat (S k)) :: msgs) k'
| del_snap k m st t msgs k' :
    (k ≤ m)%nat → exec (take m log) st0 = Ret st → delivers log st0 m msgs k' →
    delivers log st0 k (SnapshotMsg (sm_Snapshot st) t (Z.of_nat m) :: msgs) k'.

(** The messages a run has read from [applyCh]. *)
Definition received ls : list (ApplyMsg (Op Req)) :=
  omap (λ l, match l with SApply msg _ => Some msg | _ => None end) ls.


Section laws.
Context `{!StateMachineLaws St Req Rep}.

Definition log_ok (log : list (Op Req)) : Prop := Forall (λ op, req_ok (St := St) (op_Req op)) log.

Lemma exec_ok log st : sm_ok st → log_ok log → ∃ st', exec log st = Ret st' ∧ sm_ok st'.
Proof.
  revert st. induction log as [|op log IH]; intros st Hok Hlog; cbn; [by eexists|].
  inversion Hlog; subst.
  destruct (DoOp_ok (op_Req op) st) as (st' & r & -> & Hok'); [done..|]. cbn. by apply IH.
Qed.

Lemma exec_app log1 log2 st : exec (log1 ++ log2) st = (st' ← exec log1 st; exec log2 st').
Proof.
  revert st. induction log1 as [|op log IH]; intros st; cbn; [done|].
  destruct (DoOp (op_Req op) st) as [[st' r]|]; cbn; [apply IH|done].
Qed.

Lemma exec_snoc log st0 k op st st' r :
  log !! k = Some op → exec (take k log) st0 = Ret st → DoOp (op_Req op) st = Ret (st', r) →
  exec (take (S k) log) st0 = Ret st'.
Proof.
  intros Hop Hst Hdo. rewrite (take_S_r _ _ _ Hop), exec_app, Hst. cbn. by rewrite Hdo.
Qed.

(** Only applying a message changes the service's state. *)
Lemma set_pc_sm t pc s : sm (set_pc t pc s) = sm s.
Proof. done. Qed.

Lemma submitStep_sm l s s' : submitStep l s = Some s' → sm s' = sm s.
Proof.
  unfold submitStep. intros H. destruct l; try done;
    repeat (apply bind_Some in H as (? & ? & H));
    destruct (sb_pc _); try done.
  - simplify_eq. unfold submitCheck. by destruct (api_GetState (rf s)).2.
  - simplify_eq. unfold submitStart. destruct (api_Start _ _) as [? [[? ?] []]]; done.
  - simplify_eq. unfold submitPoll. destruct (api_GetState _). by case_decide.
  - destruct (chans s !! ch) as [[]|]; by simplify_eq.
  - by simplify_eq.
  - by simplify_eq.
  - simplify_eq. unfold submitFinish. by case_decide.
Qed.

Lemma applyCommand_sm op idx s s' :
  applyCommand op idx s = Ret s' → ∃ r, DoOp (op_Req op) (sm s) = Ret (sm s', r) ∧
    reader s' = Looking idx (mkResult (op_Id op) (Some r)) ∧
    resultByCommandId s' = resultByCommandId s ∧ chans s' = chans s ∧ submits s' = submits s ∧
    opId s' = opId s.
Proof.
  unfold applyCommand. intros ([sm' r] & Hdo & H)%bind_ret_inv.
  apply bind_ret_inv in H as (s1 & Hs1 & [= <-]). exists r. cbn. rewrite Hdo.
  unfold maybeSnapshot in Hs1. case_decide; [apply bind_ret_inv in Hs1 as (? & _ & Hs1)|];
    simplify_eq; done.
Qed.

Lemma send_sm ch res s s' : send ch res s = Some s' → sm s' = sm s.
Proof. unfold send. destruct (chans s !! ch) as [[|]|]; intros; by simplify_eq. Qed.

Lemma rsm_step_sm l s s' :
  rsm_step l s = Some s' →
  match l with
  | SApply (CommandMsg (Some op) _) _ => ∃ r, DoOp (op_Req op) (sm s) = Ret (sm s', r)
  | SApply (SnapshotMsg data _ _) _ => sm_Restore data (sm s) = Ret (sm s')
  | _ => sm s' = sm s
  end.
Proof.
  destruct l as [| | | | | | | |msg order| | |]; cbn [rsm_step]; intros H;
    try (by simplify_eq); try (by apply submitStep_sm in H); cbn [readerStep] in H.
  - destruct msg as [[op|] idx|data t idx]; destruct (reader s); try done.
    + destruct (applyCommand op idx s) as [s1|] eqn:E; [|done]. injection H as ->.
      apply applyCommand_sm in E as (r & ? & _). by exists r.
    + apply bind_Some in H as (_ & _ & H).
      destruct (applySnapshot data idx order s) as [s1|] eqn:E; [|done]. injection H as ->.
      unfold applySnapshot in E. by apply bind_ret_inv in E as (sm' & Hr & [= <-]).
  - destruct (reader s); try done. simplify_eq. unfold lookupResultCh.
    by destruct (resultByCommandId s !! commandId).
  - destruct (reader s) as [| | |[]|]; try done; [|by simplify_eq|];
      by apply send_sm in H.
  - destruct (reader s); by simplify_eq.
Qed.

(** The service is, up to what requests can observe, where index [k] is. *)
Definition at_index (log : list (Op Req)) (st0 : St) (k : nat) (st : St) : Prop :=
  ∃ st', exec (take k log) st0 = Ret st' ∧ sm_equiv st st'.

Lemma run_follows_log log st0 ls s s' k k' :
  sm_ok st0 → log_ok log → at_index log st0 k (sm s) → rsm_run ls s = Some s' →
  delivers log st0 k (received ls) k' → at_index log st0 k' (sm s').
Proof.
  intros Hok Hlog. revert s k. induction ls as [|l ls IH]; intros s k Hst Hrun Hdel; cbn in *.
  { inversion Hdel; subst. by injection Hrun as <-. }
  apply bind_Some in Hrun as (s1 & Hs1 & Hrun). apply rsm_step_sm in Hs1.
  destruct l as [| | | | | | | |msg order| | |]; cbn in Hdel;
    try (eapply IH; [|exact Hrun|exact Hdel]; by rewrite Hs1).
  inversion Hdel as [|? op msgs ? Hop Hrest|? m st t msgs ? Hm Hex Hrest]; subst.
  - destruct Hs1 as [r Hdo], Hst as (st & Hst & Heq).
    destruct (DoOp_equiv _ _ _ _ _ Heq Hdo) as (st' & Hdo' & Heq').
    eapply IH; [|exact Hrun|exact Hrest]. exists st'. split; [by eapply exec_snoc|done].
  - eapply IH; [|exact Hrun|exact Hrest]. exists st. split; [done|].
    destruct (exec_ok (take m log) st0 Hok) as (st' & Hex' & Hok'); [by apply Forall_take|].
    rewrite Hex in Hex'. injection Hex' as <-.
    destruct (sm_Restore_Snapshot st (sm s) Hok') as (st' & Hr & _ & Heq).
    rewrite Hr in Hs1. by injection Hs1 as <-.
Qed.

(** The snapshot a server finds when it starts is of index [k]. *)
Definition starts_at (log : list (Op Req)) (st0 : St) (data : bytes) (k : nat) : Prop :=
  (k = 0%nat ∧ data = []) ∨ ∃ st, exec (take k log) st0 = Ret st ∧ data = sm_Snapshot st.

(** C11: Replicas follow the log.  A server started by MakeRSM, from an empty
    persister or from the snapshot of an index of the log, that is then handed
    the log in order (each command once, snapshots of the log in between), is,
    whatever its clients submit and however its threads interleave, in the
    state that executing the log up to that index gives, up to differences no
    request can observe.  So two servers at the same index answer alike. *)
Theorem replica_follows_log log st0 n me p max (s0 s : RSM) ls k k' :
  sm_ok st0 → log_ok log → starts_at log st0 (ReadSnapshot p) k → MakeRSM n me p max st0 = Ret s0 →
  rsm_run ls s0 = Some s → delivers log st0 k (received ls) k' →
  ∃ st, exec (take k' log) st0 = Ret st ∧ sm_equiv (sm s) st.
Proof.
  intros Hok Hlog Hstart Hmk. apply run_follows_log; [done..|].
  unfold MakeRSM in Hmk. apply bind_ret_inv in Hmk as (sm1 & Hsm & Hmk).
  apply bind_ret_inv in Hmk as (rf1 & _ & [= <-]). cbn.
  pose proof sm_equivalence as [Hrefl _ _].
  destruct Hstart as [[-> Hd]|(st & Hex & Hd)]; rewrite Hd in Hsm.
  - cbn in Hsm. injection Hsm as ->. exists sm1. by split.
  - destruct (exec_ok (take k log) st0 Hok) as (st' & Hex' & Hok'); [by apply Forall_take|].
    rewrite Hex in Hex'. injection Hex' as <-.
    assert (0 < zlen (sm_Snapshot st)).
    { pose proof (sm_Snapshot_nonempty st Hok'). destruct (sm_Snapshot st); [done|].
      unfold zlen. cbn. lia. }
    rewrite decide_True in Hsm by done.
    destruct (sm_Restore_Snapshot st st0 Hok') as (st' & Hr & _ & Heq).
    rewrite Hr in Hsm. injection Hsm as <-. by exists st.
Qed.
End laws.

(** ** What a waiting call may be told *)

(** In the run [ls] from [s0], the operation at index [c] was applied and gave
    the result [res]; or [res] only says that the call has expired. *)
Definition justified s0 ls (c : Z) (res : applyResult Rep) : Prop :=
  ar_opId res = -1 ∨
  ∃ ls1 op order ls2 s1 st v,
    ls = ls1 ++ SApply (CommandMsg (Some op) c) order :: ls2 ∧ rsm_run ls1 s0 = Some s1 ∧
    DoOp (op_Req op) (sm s1) = Ret (st, v) ∧ res = mkResult (op_Id op) (Some v).

Lemma justified_mono s0 ls ls' c res : justified s0 ls c res → justified s0 (ls ++ ls') c res.
Proof.
  intros [?|(ls1 & op & o & ls2 & s1 & st & v & -> & ?)]; [by left|right].
  exists ls1, op, o, (ls2 ++ ls'), s1, st, v. by rewrite <-app_assoc.
Qed.

(** The same for any account [J] of the results that may be reported; the
    message that a call has expired always may. *)
Definition expires (J : Z → applyResult Rep → Prop) : Prop := ∀ c res, ar_opId res = -1 → J c res.

Definition reader_ok (J : Z → applyResult Rep → Prop) (owner : list Z) (r : @Reader Rep) : Prop :=
  match r with
  | Looking c res => J c res
  | Sending ch res => ∃ c, owner !! ch = Some c ∧ J c res
  | Expiring chs => ∀ ch, ch ∈ chs → is_Some (owner !! ch)
  | _ => True
  end.

Definition call_ok (J : Z → applyResult Rep → Prop) (owner : list Z) (c : @Call Req Rep) : Prop :=
  1 ≤ op_Id (sb_op c) ∧
  match sb_pc c with
  | Waiting i _ ch => owner !! ch = Some i
  | Received i res => J i res
  | Done OK v => ∃ i res, J i res ∧ ar_opId res = op_Id (sb_op c) ∧ v = ar_value res
  | _ => True
  end.

(** [owner] is the index each channel was made for. *)
Record submit_inv (J : Z → applyResult Rep → Prop) (owner : list Z) s : Prop := {
  si_length : length owner = length (chans s);
  si_results c ch : resultByCommandId s !! c = Some ch → owner !! ch = Some c;
  si_chans ch res : chans s !! ch = Some (Some res) →
    ∃ c, owner !! ch = Some c ∧ J c res;
  si_reader : reader_ok J owner (reader s);
  si_calls t c : submits s !! t = Some c → call_ok J owner c;
  si_opId : 0 ≤ opId s;
}.

Lemma reader_ok_mono (J J' : Z → applyResult Rep → Prop) owner ext r :
  (∀ c res, J c res → J' c res) → reader_ok J owner r → reader_ok J' (owner ++ ext) r.
Proof.
  intros HJ. destruct r; cbn; try done; [by apply HJ|..].
  - intros (c & ? & ?). exists c. split; [by apply lookup_app_l_Some|by apply HJ].
  - intros H ch [c Hc]%H. exists c. by apply lookup_app_l_Some.
Qed.

Lemma rsm_call_ok_mono (J J' : Z → applyResult Rep → Prop) owner ext c :
  (∀ c res, J c res → J' c res) → call_ok J owner c → call_ok J' (owner ++ ext) c.
Proof.
  unfold call_ok. intros HJ [? H]. split; [done|]. destruct (sb_pc c) as [| | | | |err v]; try done.
  - by apply lookup_app_l_Some.
  - by apply HJ.
  - destruct err; try done. destruct H as (i & res & ? & ?). exists i, res.
    split; [by apply HJ|done].
Qed.

Lemma submit_inv_mono (J J' : Z → applyResult Rep → Prop) owner s :
  (∀ c res, J c res → J' c res) → submit_inv J owner s → submit_inv J' owner s.
Proof.
  intros HJ []. rewrite <-(app_nil_r owner). split; try done; rewrite app_nil_r; try done.
  - intros ch res (c & ? & ?)%si_chans0. exists c. split; [done|by apply HJ].
  - rewrite <-(app_nil_r owner). by apply (reader_ok_mono J).
  - intros t c H%si_calls0. rewrite <-(app_nil_r owner). by apply (rsm_call_ok_mono J).
Qed.

(** A thread moves to a program point that is justified. *)
Lemma submit_inv_set_pc J owner s t c pc :
  submit_inv J owner s → thread t s = Some c →
  call_ok J owner (mkSubmit (sb_op c) pc) → submit_inv J owner (set_pc t pc s).
Proof.
  intros [] Ht Hok. split; try done. intros t' c'. cbn.
  destruct (decide (t = t')) as [<-|Hne].
  - unfold thread in Ht. rewrite list_lookup_alter_eq, Ht. by intros [= <-].
  - rewrite list_lookup_alter_ne by done. apply si_calls0.
Qed.

Lemma submit_inv_delete J owner s i :
  submit_inv J owner s →
  submit_inv J owner (set_results (delete i (resultByCommandId s)) s).
Proof. intros []. split; try done. intros c ch. cbn. rewrite lookup_delete_Some. naive_solver. Qed.

Lemma submit_inv_send J owner s ch res c s' :
  submit_inv J owner s → owner !! ch = Some c → J c res →
  send ch res s = Some s' → submit_inv J owner s'.
Proof.
  intros [] Hc Hres. unfold send. destruct (chans s !! ch) as [[|]|] eqn:E; try done. intros [= <-].
  split; try done; cbn.
  - by rewrite length_insert.
  - intros ch' res' [(-> & [= ->] & _)|[_ ?]]%list_lookup_insert_Some; eauto.
Qed.

Lemma submit_inv_start J owner s t c :
  submit_inv J owner s → thread t s = Some c →
  ∃ ext, submit_inv J (owner ++ ext) (submitStart t (sb_op c) s).
Proof.
  intros Hinv Ht. pose proof (si_calls _ _ _ Hinv _ _ Ht) as [Hid _]. unfold submitStart.
  destruct (api_Start (sb_op c) (rf s)) as [rf' [[i term] []]].
  2: { exists []. rewrite app_nil_r. apply (submit_inv_set_pc _ _ _ _ c); [|done..].
       by destruct Hinv. }
  exists [i]. eapply submit_inv_set_pc; [|done|]; cbn.
  - destruct Hinv. split; cbn; try done.
    + rewrite !length_app. cbn. lia.
    + intros c' ch [[<- <-]|[_ H]]%lookup_insert_Some.
      * by rewrite <-si_length0, list_lookup_middle.
      * apply lookup_app_l_Some. eauto.
    + intros ch res [H|[_ H]]%lookup_app_Some.
      * destruct (si_chans0 _ _ H) as (c' & ? & ?). exists c'.
        split; [by apply lookup_app_l_Some|done].
      * by apply list_lookup_singleton_Some in H as [_ ?].
    + by apply (reader_ok_mono J).
    + intros t' c' H%si_calls0. by apply (rsm_call_ok_mono J).
  - split; [done|]. cbn. destruct Hinv. by rewrite <-si_length0, list_lookup_middle.
Qed.

Lemma submitStep_inv J owner s l s' :
  submit_inv J owner s → submitStep l s = Some s' →
  ∃ ext, submit_inv J (owner ++ ext) s'.
Proof.
  intros Hinv H.
  assert (∀ t c pc, thread t s = Some c → call_ok J owner (mkSubmit (sb_op c) pc) →
    ∃ ext, submit_inv J (owner ++ ext) (set_pc t pc s)) as Hpc.
  { intros t c pc ??. exists []. rewrite app_nil_r. by eapply submit_inv_set_pc. }
  assert (∀ t c, thread t s = Some c → call_ok J owner c) as Hcall by apply Hinv.
  destruct l as [| |t|t|t deadline|t|t|t|msg order| | |]; try done; cbn in H;
    repeat (apply bind_Some in H as (? & ? & H));
    match goal with Ht : thread t s = Some ?c |- _ =>
      pose proof (Hcall _ _ Ht) as Hc; destruct (sb_pc c) eqn:Epc; try done;
      unfold call_ok in Hc; rewrite Epc in Hc; destruct Hc as [Hid Hc] end.
  - simplify_eq. unfold submitCheck. destruct (api_GetState (rf s)).2; by eapply Hpc.
  - simplify_eq. by apply submit_inv_start.
  - simplify_eq. unfold submitPoll. destruct (api_GetState (rf s)). case_decide; [by eapply Hpc|].
    exists []. by rewrite app_nil_r.
  - destruct (chans s !! ch) as [[res|]|] eqn:Ech; try done. simplify_eq. exists [].
    rewrite app_nil_r. eapply submit_inv_set_pc; [|done|].
    + destruct Hinv. split; cbn; try done; [by rewrite length_insert|].
      intros ch' res' [(-> & [=] & _)|[_ ?]]%list_lookup_insert_Some; eauto.
    + split; [done|]. cbn. destruct (si_chans _ _ _ Hinv _ _ Ech) as (c' & Hc' & ?).
      rewrite Hc in Hc'. by injection Hc' as <-.
  - simplify_eq. by eapply Hpc.
  - simplify_eq. exists []. rewrite app_nil_r.
    eapply submit_inv_set_pc; [by apply submit_inv_delete|done|done].
  - simplify_eq. exists []. rewrite app_nil_r. unfold submitFinish. case_decide as Hne.
    + eapply submit_inv_set_pc; [by apply submit_inv_delete|done|done].
    + eapply submit_inv_set_pc; [by apply submit_inv_delete|done|].
      split; [done|]. cbn. by eexists _, _.
Qed.

(** What the result of an applied command has to satisfy. *)
Definition accounts (J : Z → applyResult Rep → Prop) (l : Step) s s' : Prop :=
  match l with
  | SApply (CommandMsg (Some op) idx) _ =>
      ∀ r, DoOp (op_Req op) (sm s) = Ret (sm s', r) → J idx (mkResult (op_Id op) (Some r))
  | _ => True
  end.

Lemma readerStep_inv J owner s l s' :
  expires J → submit_inv J owner s → readerStep l s = Some s' → accounts J l s s' → submit_inv J owner s'.
Proof.
  intros HJ Hinv H Hacc. pose proof (si_reader _ _ _ Hinv) as Hrd.
  destruct l as [| | | | | | | |msg order| | |]; cbn [readerStep] in H; try done.
  - destruct msg as [[op|] idx|data t idx]; destruct (reader s) eqn:Er; try done.
    + destruct (applyCommand op idx s) as [s1|] eqn:E; [|done]. injection H as ->.
      apply applyCommand_sm in E as (r & Hdo & Hr & H1 & H2 & H3 & H4).
      destruct Hinv. split; rewrite ?H1, ?H2, ?H3, ?H4; try done. rewrite Hr. by apply Hacc.
    + apply bind_Some in H as (Hperm & _ & H).
      destruct (applySnapshot data idx order s) as [s1|] eqn:E; [|done]. injection H as ->.
      unfold applySnapshot in E. apply bind_ret_inv in E as (sm' & _ & [= <-]).
      destruct Hinv. split; try done. cbn. intros ch (i & _ & Hi)%list_elem_of_omap.
      exists i. by apply si_results0.
  - destruct (reader s) eqn:Er; try done. simplify_eq. unfold lookupResultCh.
    destruct (resultByCommandId s !! commandId) as [ch|] eqn:Ec; destruct Hinv; split; try done.
    cbn. exists commandId. split; [by apply si_results0|done].
  - destruct (reader s) as [| |ch res|[|ch chs]|] eqn:Er; try done.
    + destruct Hrd as (c & Hc & Hj). eapply submit_inv_send; [|exact Hc|exact Hj|exact H].
      destruct Hinv. by split.
    + simplify_eq. destruct Hinv. by split.
    + destruct (Hrd ch) as [c Hc]; [by left|].
      eapply submit_inv_send; [|exact Hc| |exact H]; [|by apply HJ].
      destruct Hinv. split; try done. cbn. intros ch' ?. apply Hrd. by right.
  - destruct (reader s) eqn:Er; try done. simplify_eq. destruct Hinv. by split.
Qed.

Lemma rsm_step_inv J owner s l s' :
  expires J → submit_inv J owner s → rsm_step l s = Some s' → accounts J l s s' →
  ∃ owner', submit_inv J owner' s'.
Proof.
  intros HJ Hinv Hstep Hacc.
  assert (submitStep l s = Some s' → ∃ owner, submit_inv J owner s') as Hsubmit.
  { intros (ext & ?)%(submitStep_inv _ _ _ _ _ Hinv). by eexists. }
  destruct l as [rf'|req| | | | | | |msg order| | |]; cbn [rsm_step] in Hstep;
    try (by apply Hsubmit); try (exists owner; by eapply readerStep_inv).
  - simplify_eq. exists owner. destruct Hinv. by split.
  - simplify_eq. exists owner. destruct Hinv. split; try done; cbn; [|lia].
    intros t c [?|[_ Hc]]%lookup_app_Some; [eauto|].
    apply list_lookup_singleton_Some in Hc as [_ <-]. split; [cbn; lia|done].
Qed.

Lemma submit_inv_new J s0 :
  chans s0 = [] → resultByCommandId s0 = ∅ → submits s0 = [] → opId s0 = 0 →
  reader s0 = Receiving → submit_inv J [] s0.
Proof. intros Hch Hres Hsub Hid Hrd. split; rewrite ?Hch, ?Hres, ?Hsub, ?Hrd, ?Hid; try done. Qed.

Lemma run_submit_inv s0 ls s :
  chans s0 = [] → resultByCommandId s0 = ∅ → submits s0 = [] → opId s0 = 0 →
  reader s0 = Receiving → rsm_run ls s0 = Some s → ∃ owner, submit_inv (justified s0 ls) owner s.
Proof.
  intros Hch Hres Hsub Hid Hrd. revert s. induction ls as [|l ls IH] using rev_ind; intros s.
  - intros [= <-]. exists []. by apply submit_inv_new.
  - rewrite rsm_run_app. intros (s1 & Hrun & H)%bind_Some.
    apply bind_Some in H as (s2 & Hstep & [= ->]). destruct (IH _ Hrun) as (owner & Hinv).
    eapply (rsm_step_inv _ owner s1 l); [by left|by eapply submit_inv_mono, Hinv; intros; apply justified_mono|done|].
    unfold accounts. destruct l as [| | | | | | | |[[op|] idx|] order| | |]; try done.
    intros r Hdo. right. exists ls, op, order, [], s1, (sm s), r. done.
Qed.

(** A call of Submit that returns OK reports an operation that was applied
    on this server: at some moment readApply executed an operation with the
    call's operation id, and the value returned is the result of executing it
    in the state the service was in. *)
Theorem submit_ok_sound n me p max (st0 : St) (s0 s : RSM) ls t c v :
  MakeRSM n me p max st0 = Ret s0 → rsm_run ls s0 = Some s →
  submits s !! t = Some c → sb_pc c = Done OK v →
  ∃ ls1 op idx order ls2 s1 st r,
    ls = ls1 ++ SApply (CommandMsg (Some op) idx) order :: ls2 ∧ rsm_run ls1 s0 = Some s1 ∧
    op_Id op = op_Id (sb_op c) ∧ DoOp (op_Req op) (sm s1) = Ret (st, r) ∧ v = Some r.
Proof.
  intros Hmk Hrun Ht Hpc. unfold MakeRSM in Hmk. apply bind_ret_inv in Hmk as (sm1 & _ & Hmk).
  apply bind_ret_inv in Hmk as (rf1 & _ & Hs0). injection Hs0 as <-.
  apply run_submit_inv in Hrun as (owner & Hinv); [|done..].
  destruct (si_calls _ _ _ Hinv _ _ Ht) as [Hid H]. rewrite Hpc in H.
  destruct H as (i & res & [Hexp|Hj] & Hop & ->); [lia|].
  destruct Hj as (ls1 & op & order & ls2 & s1 & st & r & -> & Hrun1 & Hdo & ->).
  exists ls1, op, i, order, ls2, s1, st, r. split_and!; done.
Qed.

(** ** readApply returns to its loop *)

(** The steps in which [readApply] hands over results and the calls that wait
    for them take them; none needs [rsm.mu]. *)
Definition handover (l : Step) : Prop := match l with SReceive _ | SLookup | SSend => True | _ => False end.

(** A call is in its select, waiting for channel [ch]. *)
Definition waits s (ch : nat) : Prop :=
  ∃ t c i term, submits s !! t = Some c ∧ sb_pc c = Waiting i term ch.

(** The channel exists, and if it is full its call will empty it. *)
Definition drained s (ch : nat) : Prop :=
  ∃ o, chans s !! ch = Some o ∧ (o ≠ None → waits s ch).

(** No call has left its select, for the poll or the deadline, with a result in
    the channel and its entry still in the table. *)
Definition none_abandoned s : Prop :=
  ∀ c ch res, resultByCommandId s !! c = Some ch → chans s !! ch = Some (Some res) → waits s ch.

(** [s] gets to [s'] by handing over. *)
Definition hands_over s s' : Prop :=
  ∃ ls, Forall handover ls ∧ rsm_run ls s = Some s' ∧ sm s' = sm s ∧ rf s' = rf s.

Lemma hands_over_trans s1 s2 s3 : hands_over s1 s2 → hands_over s2 s3 → hands_over s1 s3.
Proof.
  intros (l1 & F1 & R1 & ? & ?) (l2 & F2 & R2 & ? & ?). exists (l1 ++ l2). split_and!; try congruence.
  - by apply Forall_app.
  - by rewrite rsm_run_app, R1.
Qed.

Lemma hands_over_step l s s' :
  handover l → rsm_step l s = Some s' → sm s' = sm s → rf s' = rf s → hands_over s s'.
Proof. intros Hl Hs ? ?. exists [l]. split_and!; [by repeat constructor|cbn; by rewrite Hs|done..]. Qed.

(** The channel is emptied; the other channels and who waits for them stay. *)
Lemma drains ch s :
  drained s ch → ∃ s', hands_over s s' ∧ reader s' = reader s ∧ chans s' !! ch = Some None ∧
    ∀ ch', ch' ≠ ch → drained s ch' → drained s' ch'.
Proof.
  intros ([res|] & Hch & Hw).
  - destruct Hw as (t & c & i & term & Ht & Hpc); [done|].
    exists (set_pc t (Received i res) (set_chans (<[ch := None]> (chans s)) s)).
    assert (rsm_step (SReceive t) s = Some (set_pc t (Received i res) (set_chans (<[ch := None]> (chans s)) s))) as Hs.
    { cbn. unfold thread. rewrite Ht. cbn. rewrite Hpc. by rewrite Hch. }
    split_and!; [apply (hands_over_step (SReceive t)); [exact I|exact Hs|reflexivity|reflexivity]|done| |].
    + cbn. apply list_lookup_insert_eq. by eapply lookup_lt_Some.
    + intros ch' Hne (o & Ho & Hw'). exists o. cbn. rewrite list_lookup_insert_ne by done. split; [done|].
      intros Hn. destruct (Hw' Hn) as (t' & c' & i' & term' & Ht' & Hpc'). exists t', c', i', term'. split; [|done].
      cbn. rewrite list_lookup_alter_ne; [done|]. intros <-. congruence.
  - exists s. split_and!; try done. exists []. by split_and!.
Qed.

Lemma send_empty ch res s s1 :
  chans s !! ch = Some None → s1 = set_reader (reader s1) s → rsm_step SSend s = send ch res s1 →
  let s' := set_chans (<[ch := Some res]> (chans s)) s1 in
  hands_over s s' ∧ ∀ ch', ch' ≠ ch → drained s ch' → drained s' ch'.
Proof.
  intros Hch E Hs. cbn zeta. split.
  - apply (hands_over_step SSend); [done| |by rewrite E..]. rewrite Hs, E. unfold send. cbn. by rewrite Hch.
  - intros ch' Hne (o & Ho & Hw). rewrite E. exists o. cbn. by rewrite list_lookup_insert_ne by done.
Qed.

(** The loop of line 151 ends. *)
Lemma expiring_ends chs s :
  reader s = Expiring chs → NoDup chs → (∀ ch, ch ∈ chs → drained s ch) →
  ∃ s', hands_over s s' ∧ reader s' = Receiving.
Proof.
  revert s. induction chs as [|ch chs IH]; intros s Hr Hnd Hdr.
  { exists (set_reader Receiving s). split; [|done]. apply (hands_over_step SSend); try done. cbn. by rewrite Hr. }
  apply NoDup_cons in Hnd as [Hch Hnd].
  destruct (drains ch s) as (s1 & H1 & Hr1 & He1 & Hd1); [apply Hdr; by left|]. rewrite Hr in Hr1.
  destruct (send_empty ch (mkResult (-1) None) s1 (set_reader (Expiring chs) s1) He1) as [H2 Hd2]; [done|cbn; by rewrite Hr1|].
  match type of H2 with hands_over _ ?s2 => destruct (IH s2 eq_refl Hnd) as (s' & H3 & Hr') end; [|exists s'; split; [|done]; do 2 (eapply hands_over_trans; [done|]); done].
  intros ch' Hin. assert (ch' ≠ ch) by congruence. apply Hd2, Hd1; [done..|]. apply Hdr. by right.
Qed.

(** A result is looked up and sent. *)
Lemma looking_ends c res s :
  reader s = Looking c res → (∀ ch, resultByCommandId s !! c = Some ch → drained s ch) →
  ∃ s', hands_over s s' ∧ reader s' = Receiving.
Proof.
  intros Hr Hdr. assert (hands_over s (lookupResultCh c res s)) as H1.
  { apply (hands_over_step SLookup); [done|cbn; by rewrite Hr|..]; unfold lookupResultCh; by case_match. }
  unfold lookupResultCh in H1. destruct (resultByCommandId s !! c) as [ch|] eqn:Ec; [|by exists (set_reader Receiving s)].
  set (s1 := set_reader (Sending ch res) s) in *.
  destruct (drains ch s1) as (s2 & H2 & Hr2 & He2 & _); [by apply Hdr|].
  destruct (send_empty ch res s2 (set_reader Receiving s2) He2) as [H3 _]; [done|cbn; by rewrite Hr2|].
  eexists. split; [eapply hands_over_trans; [exact H1|eapply hands_over_trans; [exact H2|exact H3]]|done].
Qed.

(** After a message was applied [readApply] can go on to the next one, as long
    as no call with a result has given up. *)
Lemma apply_ends J owner msg order s s1 :
  submit_inv J owner s → none_abandoned s → readerStep (SApply msg order) s = Some s1 →
  ∃ s', hands_over s1 s' ∧ reader s' = Receiving.
Proof.
  intros Hinv Hna H.
  assert (∀ c ch, resultByCommandId s !! c = Some ch → drained s ch) as Hdr.
  { intros c ch Hc. pose proof (si_results _ _ _ Hinv _ _ Hc) as Ho. apply lookup_lt_Some in Ho.
    rewrite (si_length _ _ _ Hinv) in Ho. apply lookup_lt_is_Some in Ho as [o Ho]. exists o. split; [done|].
    destruct o as [res|]; [|done]. intros _. by eapply Hna. }
  cbn in H. destruct msg as [[op|] k|data t k]; destruct (reader s); try done.
  - destruct (applyCommand op k s) as [s'|] eqn:E; [|done]. injection H as ->. unfold applyCommand in E.
    apply bind_ret_inv in E as ([sm' r] & _ & E). apply bind_ret_inv in E as (s2 & Hs2 & [= <-]).
    assert (resultByCommandId s2 = resultByCommandId s ∧ chans s2 = chans s ∧ submits s2 = submits s) as (E1 & E2 & E3).
    { unfold maybeSnapshot in Hs2. case_decide; [|by injection Hs2 as <-]. by apply bind_ret_inv in Hs2 as (rf' & _ & [= <-]). }
    eapply looking_ends; [done|]. cbn. rewrite E1. intros ch Hch. destruct (Hdr _ _ Hch) as (o & Ho & Hw). exists o. cbn.
    rewrite E2. split; [done|]. unfold waits in *. cbn. by rewrite E3.
  - apply bind_Some in H as (Hord & _ & H). unfold applySnapshot in H.
    destruct (sm_Restore data (sm s)) as [sm'|]; [|done]. cbn in H. injection H as <-.
    eapply expiring_ends; [done|..].
    + assert (NoDup order) as Hnd.
      { rewrite Hord. apply NoDup_fst_map_to_list. }
      clear Hord. induction Hnd as [|c order Hc Hnd IH]; cbn; [constructor|].
      destruct (resultByCommandId s !! c) as [ch|] eqn:Ec; [|done]. constructor; [|done].
      intros (c' & Hin & Hc')%list_elem_of_omap. pose proof (si_results _ _ _ Hinv _ _ Ec).
      pose proof (si_results _ _ _ Hinv _ _ Hc'). congruence.
    + intros ch (c & _ & Hc)%list_elem_of_omap. exact (Hdr _ _ Hc).
Qed.
End facts.
