(* ===== verification/Replicas.v ===== *)
(** * Replicas: Raft, the replicated state machine and a service together

    A cluster whose servers each run a service, an [RSM] and a Raft peer in one
    process: the peers of [RaftNet] composed with the threads of [Rsm], the way
    [MakeRSM] wires them.  [applyCh] is an unbuffered channel, so a message goes
    over in one step; after it the applier and [readApply] go on independently.
    A restart is [MakeRSM] on the peer's persister.

    In an execution in which no reply of an older term is processed, whatever
    clients, networks, crashes and snapshots do: [one_log_explains]: one growing
    list of operations explains the services' states and the replies of
    [Submit].  [submit_linearizable]: if operation ids are unique, every call of
    [Submit] gets the result of its own operation.  [replicas_agree]: services that have processed the same index are
    in the same state, at any two moments.  [replica_processes]: the message a
    server has received can be applied, and [readApply] gets back to its loop
    unless a call has given up with a result in its channel. *)

From S2P Require Import Prelude RpcApi Persister Raft RaftFacts RaftVolatile RaftNet RaftSafety RaftQuorum RaftCommit RaftSources RaftApply Rsm RsmFacts.

Section replicas.
Context {St Req Rep : Type} `{!StateMachine St Req Rep, !Codec (PersistedState (Op Req))}.
Context (st0 : St) (maxraft : Z).
Notation RSM := (@RSM St Req Rep (Raft (Op Req))).
Notation Step := (@Step Req (Raft (Op Req))).
Notation Sys := (@Sys (Op Req)).
Notation Node := (@Node (Op Req)).

(** ** Servers *)

Record Server := mkServer {
  sv_rsm : RSM;
  sv_got : bool;                          (* the applier's message is through applyCh *)
  sv_mail : option (ApplyMsg (Op Req));   (* received by readApply, not yet processed *)
  sv_idx : Z;                             (* the index of the last message processed *)
}.

Record World := mkWorld { w_net : Sys; w_srv : list Server }.

Implicit Types (sv : Server) (w : World) (nd : Node) (s : RSM) (st : Step).

Inductive WLabel :=
| WNet (l : @Label (Op Req))            (* a peer, or the network *)
| WHand (i : nat)                       (* a message goes through applyCh *)
| WDone (i : nat)                       (* the applier goes on after it *)
| WProcess (i : nat) (order : list Z)   (* readApply processes it *)
| WThread (i : nat) (st : Step)         (* the rest of readApply, and Submit *)
| WRestart (i : nat).                   (* crash and MakeRSM *)

(** The steps of a server's threads; [applyCh] is closed between messages. *)
Definition is_thread st sv : bool :=
  match st with
  | SRaft _ | SApply _ _ => false
  | SClose => match sv_mail sv with None => true | Some _ => false end
  | _ => true
  end.

Definition is_receiving s : bool := match reader s with Receiving => true | _ => false end.

Definition set_srv (i : nat) sv w : World := mkWorld (w_net w) (<[i := sv]> (w_srv w)).

(** A step of the threads of server [i] on its peer as it is now. *)
Definition rsmAt (i : nat) st w : option (Sys * RSM) :=
  nd ← nodes (w_net w) !! i;
  sv ← w_srv w !! i;
  s ← rsm_run [SRaft (nd_raft nd); st] (sv_rsm sv);
  Some (set_node i (set_raft (rf s) nd) (w_net w), s).

Definition wstep (l : WLabel) w : option World :=
  match l with
  | WNet l =>
      guard (is_net l = true);;
      net ← sys_step l (w_net w);
      Some (mkWorld net (w_srv w))
  | WHand i =>
      nd ← nodes (w_net w) !! i;
      sv ← w_srv w !! i;
      msg ← nd_inflight nd;
      guard (sv_got sv = false ∧ sv_mail sv = None ∧ is_receiving (sv_rsm sv) = true);;
      Some (set_srv i (mkServer (sv_rsm sv) true (Some msg) (sv_idx sv)) w)
  | WDone i =>
      sv ← w_srv w !! i;
      guard (sv_got sv = true);;
      net ← applyDone i (w_net w);
      Some (mkWorld net (<[i := mkServer (sv_rsm sv) false (sv_mail sv) (sv_idx sv)]> (w_srv w)))
  | WProcess i order =>
      sv ← w_srv w !! i;
      msg ← sv_mail sv;
      '(net, s) ← rsmAt i (SApply msg order) w;
      Some (mkWorld net (<[i := mkServer s (sv_got sv) None (msgIdx msg)]> (w_srv w)))
  | WThread i st =>
      sv ← w_srv w !! i;
      guard (is_thread st sv = true);;
      '(net, s) ← rsmAt i st w;
      Some (mkWorld net (<[i := mkServer s (sv_got sv) (sv_mail sv) (sv_idx sv)]> (w_srv w)))
  | WRestart i =>
      nd ← nodes (w_net w) !! i;
      net ← restart i 0 (w_net w);
      s ← Rsm.ok (MakeRSM (Z.of_nat (length (nodes (w_net w)))) (Z.of_nat i) (persister (nd_raft nd))
                    maxraft st0);
      Some (mkWorld net (<[i := mkServer s false None (lastApplied (rf s))]> (w_srv w)))
  end.

(** No reply of an older term, and only requests that the handlers make. *)
Definition wlabel_ok (l : WLabel) w : Prop :=
  match l with
  | WNet l => fresh_label l (w_net w) = true
  | WThread _ (SSubmit req) => req_ok (St := St) req
  | _ => True
  end.

Definition world_step w w' : Prop := ∃ l, wlabel_ok l w ∧ wstep l w = Some w'.

(** [n] servers that have never run. *)
Definition newServer (n i : nat) : Server :=
  mkServer (mkRSM (Z.of_nat i) (freshRaft (Z.of_nat n) (Z.of_nat i) 0 MakePersister) maxraft st0
              ∅ 0 false [] Receiving []) false None 0.

Definition world_init (n : nat) : World := mkWorld (sys_init n) (newServer n <$> seq 0 n).

(** This is what [MakeRSM] makes of an empty persister. *)
Lemma newServer_MakeRSM n i :
  MakeRSM (Z.of_nat n) (Z.of_nat i) MakePersister maxraft st0 = Ret (sv_rsm (newServer n i)).
Proof. done. Qed.

(** ** What the threads do to the peer *)

Definition submitted s (op : Op Req) : Prop := ∃ c, c ∈ submits s ∧ sb_op c = op.

Lemma set_pc_submitted t pc s op : submitted (set_pc t pc s) op → submitted s op.
Proof.
  intros (c & (k & Hk)%list_elem_of_lookup & <-). cbn in Hk. rewrite list_lookup_alter in Hk.
  case_decide; [apply fmap_Some in Hk as (c0 & Hk & ->)|];
    by eexists; split; [eapply list_elem_of_lookup_2|].
Qed.

(** [s'] differs from [s] in the program point of one call and in the tables. *)
Definition advances s s' : Prop :=
  reader s' = reader s ∧ (∀ op, submitted s' op → submitted s op) ∧
  (rf s' = rf s ∨ ∃ op r, submitted s op ∧ Start op (rf s) = (rf s', r)).

Lemma submitStep_advances st s s' : submitStep st s = Some s' → advances s s'.
Proof.
  unfold submitStep. intros H. destruct st as [| | | |t deadline|t| | |msg order| | |]; try done;
    repeat (apply bind_Some in H as (? & ? & H));
    destruct (sb_pc _) eqn:Epc; try done.
  - simplify_eq. unfold submitCheck.
    destruct (api_GetState (rf s)).2; (split_and!; [done|apply set_pc_submitted|by left]).
  - simplify_eq. unfold submitStart. cbn [api_Start Raft_api].
    destruct (Start _ _) as [rf' [[k term] b]] eqn:Es.
    assert (submitted s (sb_op x0)) as Hsub.
    { exists x0. split; [|done]. by eapply list_elem_of_lookup_2. }
    destruct b; (split_and!; [done|apply set_pc_submitted|right; eauto]).
  - simplify_eq. unfold submitPoll. destruct (api_GetState _).
    case_decide; (split_and!; [done|try apply set_pc_submitted; done|by left]).
  - destruct (chans s !! ch) as [[]|]; simplify_eq. split_and!; [done|apply set_pc_submitted|by left].
  - simplify_eq. split_and!; [done|apply set_pc_submitted|by left].
  - simplify_eq. split_and!; [done|apply set_pc_submitted|by left].
  - simplify_eq. unfold submitFinish.
    case_decide; (split_and!; [done|apply set_pc_submitted|by left]).
Qed.

Lemma send_fields ch res s s' :
  send ch res s = Some s' → rf s' = rf s ∧ submits s' = submits s ∧ reader s' = reader s.
Proof. unfold send. destruct (chans s !! ch) as [[|]|]; intros; by simplify_eq. Qed.

Lemma thread_step st sv s' :
  rsm_step st (sv_rsm sv) = Some s' → is_thread st sv = true →
  let s := sv_rsm sv in
  sm s' = sm s ∧ (rf s' = rf s ∨ ∃ op r, submitted s op ∧ Start op (rf s) = (rf s', r)) ∧
  (∀ op, submitted s' op → submitted s op ∨ st = SSubmit (op_Req op)) ∧
  (is_Some (sv_mail sv) → reader s = Receiving → reader s' = Receiving).
Proof.
  cbn zeta. intros H Hth. pose proof (rsm_step_sm _ _ _ H) as Hsm. set (s := sv_rsm sv) in *.
  assert (sm s' = sm s) as Hsm' by (destruct st; try done). clear Hsm. split; [done|].
  assert (rf s' = rf s ∧ submits s' = submits s ∧
          (is_Some (sv_mail sv) → reader s = Receiving → reader s' = Receiving) →
     (rf s' = rf s ∨ ∃ op r, submitted s op ∧ Start op (rf s) = (rf s', r)) ∧
     (∀ op, submitted s' op → submitted s op ∨ st = SSubmit (op_Req op)) ∧
     (is_Some (sv_mail sv) → reader s = Receiving → reader s' = Receiving)) as Hread.
  { intros (? & Hsb & ?). split_and!; [by left| |done]. unfold submitted. rewrite Hsb. by left. }
  destruct st as [|req| | | | | | |msg order| | |]; cbn [rsm_step] in H; try done;
    try (apply submitStep_advances in H as (Hr & Hsub & Hrf); split_and!; [done|by auto|congruence]);
    cbn [readerStep] in H.
  - injection H as <-. split_and!; [by left| |done].
    intros op (c & [Hc| ->%list_elem_of_singleton]%elem_of_app & <-); [left; by exists c|by right].
  - apply Hread. destruct (reader s) eqn:Er; try done. simplify_eq. unfold lookupResultCh.
    by destruct (resultByCommandId s !! commandId).
  - apply Hread. destruct (reader s) as [| | |[]|] eqn:Er; try done; [|by simplify_eq|];
      by apply send_fields in H as (? & ? & ?).
  - apply Hread. destruct (reader s) eqn:Er; try done. injection H as <-. split_and!; try done.
    intros [m Hm]. cbn in Hth. by rewrite Hm in Hth.
Qed.

Lemma process_step msg order s s' :
  rsm_step (SApply msg order) s = Some s' →
  reader s = Receiving ∧ submits s' = submits s ∧
  match msg with
  | CommandMsg c k => ∃ op r, c = Some op ∧ DoOp (op_Req op) (sm s) = Ret (sm s', r) ∧
      (rf s' = rf s ∨ Snapshot k (sm_Snapshot (sm s')) (rf s) = Ret (rf s'))
  | SnapshotMsg data _ _ => sm_Restore data (sm s) = Ret (sm s') ∧ rf s' = rf s
  end.
Proof.
  cbn. destruct msg as [[op|] k|data t k]; destruct (reader s); try done; intros H; (split; [done|]).
  - destruct (applyCommand op k s) as [s1|] eqn:E; [|done]. injection H as ->.
    pose proof (applyCommand_sm _ _ _ _ E) as (r & Hdo & _ & _ & _ & Hsub & _). split; [done|].
    exists op, r. split_and!; [done..|]. unfold applyCommand in E. rewrite Hdo in E. cbn in E.
    unfold maybeSnapshot in E. apply bind_ret_inv in E as (s2 & Hs2 & [= <-]).
    case_decide; [right|injection Hs2 as <-; by left].
    by apply bind_ret_inv in Hs2 as (rf2 & Hrf & [= <-]).
  - apply bind_Some in H as (_ & _ & H). destruct (applySnapshot data k order s) as [s1|] eqn:E; [|done].
    injection H as ->. unfold applySnapshot in E. by apply bind_ret_inv in E as (sm' & Hr & [= <-]).
Qed.

(** ** The invariant *)

Context `{!StateMachineLaws St Req Rep}.
Context (n : nat).
Implicit Types (g : @Ghost (Op Req)) (k : Z).

Definition op_ok (op : Op Req) : Prop := req_ok (St := St) (op_Req op).

(** [Q] is what is known of the operations that clients have submitted. *)
Section invariant.
Context (Q : Op Req → Prop) (Q_ok : ∀ op, Q op → op_ok op).

(** The commands decided for the first indices. *)
Definition is_run g (ops : list (Op Req)) : Prop :=
  ∀ j op, ops !! j = Some op → decided n g (S j) (Some op) ∧ Q op.

(** Executing the commands decided for the indices up to [k] gives [x]. *)
Definition runs_to g k (x : St) : Prop :=
  ∃ ops, Z.of_nat (length ops) = k ∧ exec ops st0 = Ret x ∧ is_run g ops.

(** Executing [ops] gives a state in which the next operation gives [res]. *)
Definition replies (ops : list (Op Req)) (op : Op Req) (res : applyResult Rep) : Prop :=
  ∃ y y' r, exec ops st0 = Ret y ∧ DoOp (op_Req op) y = Ret (y', r) ∧ res = mkResult (op_Id op) (Some r).

(** What the call waiting for an index may be told. *)
Definition told g (c : Z) (res : applyResult Rep) : Prop :=
  ar_opId res = -1 ∨ ∃ ops op, is_run g (ops ++ [op]) ∧ replies ops op res.

(** [x] is, up to what requests can observe, the state at index [k]. *)
Definition at_log g k (x : St) : Prop := sm_ok x ∧ ∃ y, runs_to g k y ∧ sm_equiv x y.

Definition snap_at g k (data : bytes) : Prop :=
  (k = 0 ∧ data = []) ∨ ∃ x, data = sm_Snapshot x ∧ at_log g k x.

Record srv_inv g nd sv : Prop := {
  si_inbox : inbox_inv n snap_at Q g nd (sv_got sv) (sv_mail sv) (sv_idx sv);
  si_mail m : sv_mail sv = Some m → reader (sv_rsm sv) = Receiving;
  si_sm : at_log g (sv_idx sv) (sm (sv_rsm sv));
  si_submits op : submitted (sv_rsm sv) op → Q op;
  si_told : ∃ owner, submit_inv (told g) owner (sv_rsm sv);
}.

Record winv g w : Prop := {
  wi_net : net_ok n snap_at Q g (w_net w);
  wi_length : length (w_srv w) = n;
  wi_srv i nd sv : nodes (w_net w) !! i = Some nd → w_srv w !! i = Some sv → srv_inv g nd sv;
}.

Lemma wi_cm g w : winv g w → cm n (w_net w) g.
Proof. intros Hw. apply Hw. Qed.

(** ** The state at an index *)

Lemma is_run_mono g g' ops : gext g g' → is_run g ops → is_run g' ops.
Proof. intros Hg Hd j op [??]%Hd. split; [by eapply decided_mono|done]. Qed.

Lemma told_mono g g' c res : gext g g' → told g c res → told g' c res.
Proof.
  intros Hg [?|(ops & op & ? & ?)]; [by left|right]. exists ops, op. split; [by eapply is_run_mono|done].
Qed.

Lemma telling_mono g g' s :
  gext g g' → (∃ owner, submit_inv (told g) owner s) → ∃ owner, submit_inv (told g') owner s.
Proof.
  intros Hg (owner & H). exists owner. eapply submit_inv_mono; [|exact H]. intros c res. by apply told_mono.
Qed.

Lemma told_expires g : expires (told g).
Proof. by left. Qed.

Lemma at_log_mono g g' k x : gext g g' → at_log g k x → at_log g' k x.
Proof.
  intros Hg (Hok & y & (ops & Hl & Hex & Hd) & He). split; [done|]. exists y. split; [|done].
  exists ops. split_and!; [done..|]. by eapply is_run_mono.
Qed.

Lemma snap_at_mono g g' k data : gext g g' → snap_at g k data → snap_at g' k data.
Proof. intros Hg [?|(x & -> & ?)]; [by left|right]. exists x. split; [done|by eapply at_log_mono]. Qed.

Lemma is_run_snoc g ops op :
  is_run g ops → decided n g (S (length ops)) (Some op) → Q op → is_run g (ops ++ [op]).
Proof.
  intros Hd Hop HQ j op' [Hj|[Hle Hj]]%lookup_app_Some; [by apply Hd|].
  apply list_lookup_singleton_Some in Hj as [Hj <-]. by replace j with (length ops) by lia.
Qed.

Lemma at_log_zero g : sm_ok st0 → at_log g 0 st0.
Proof.
  intros Hok. split; [done|]. exists st0. pose proof (sm_equivalence (St := St)) as [Hr _ _].
  split; [|done]. exists []. by split_and!.
Qed.

Lemma at_log_do g k x op x' r :
  at_log g k x → Q op → decided n g (Z.to_nat (k + 1)) (Some op) →
  DoOp (op_Req op) x = Ret (x', r) → at_log g (k + 1) x'.
Proof.
  intros (Hok & y & (ops & Hl & Hex & Hd) & He) Hop Hdec Hdo.
  destruct (DoOp_ok (op_Req op) x Hok (Q_ok _ Hop)) as (x1 & r1 & Hdo1 & Hok1).
  rewrite Hdo in Hdo1. injection Hdo1 as <- <-. split; [done|].
  destruct (DoOp_equiv _ _ _ _ _ He Hdo) as (y' & Hdo' & He'). exists y'. split; [|done].
  exists (ops ++ [op]). split_and!.
  - rewrite length_app. cbn. lia.
  - rewrite exec_app, Hex. cbn. by rewrite Hdo'.
  - apply is_run_snoc; [done| |done]. by replace (S (length ops)) with (Z.to_nat (k + 1)) by lia.
Qed.

(** The result of the command that takes the service to index [k + 1]. *)
Lemma at_log_told g k x op x' r :
  at_log g k x → Q op → decided n g (Z.to_nat (k + 1)) (Some op) → DoOp (op_Req op) x = Ret (x', r) →
  told g (k + 1) (mkResult (op_Id op) (Some r)).
Proof.
  intros (Hok & y & (ops & Hl & Hex & Hd) & He) Hop Hdec Hdo.
  destruct (DoOp_equiv _ _ _ _ _ He Hdo) as (y' & Hdo' & _). right. exists ops, op. split.
  - apply is_run_snoc; [done| |done]. by replace (S (length ops)) with (Z.to_nat (k + 1)) by lia.
  - by exists y, y', r.
Qed.

Lemma at_log_restore g k data x0 :
  snap_at g k data → data ≠ [] → ∃ x, sm_Restore data x0 = Ret x ∧ at_log g k x.
Proof.
  intros [[_ ->]|(x & -> & Hok & y & Hy & He)] Hne; [done|].
  destruct (sm_Restore_Snapshot x x0 Hok) as (x' & Hr & Hok' & He'). exists x'. split; [done|].
  split; [done|]. exists y. split; [done|]. pose proof (sm_equivalence (St := St)) as [_ _ Ht]. by eapply Ht.
Qed.

Lemma snap_at_nonempty g k data : snap_at g k data → 0 < k → data ≠ [].
Proof.
  intros [[-> _]|(x & -> & Hok & _)] Hk; [done|]. by apply sm_Snapshot_nonempty.
Qed.

(** There is only one run of each length. *)
Lemma is_run_prefix g w ops ops' :
  winv g w → is_run g ops → is_run g ops' → (length ops ≤ length ops')%nat → ops `prefix_of` ops'.
Proof.
  intros Hw Hd Hd' Hl. exists (drop (length ops) ops'). apply list_eq. intros j.
  destruct (ops !! j) as [op|] eqn:Ej.
  - rewrite lookup_app_l by (by eapply lookup_lt_Some). rewrite Ej.
    destruct (ops' !! j) as [op'|] eqn:Ej'.
    + f_equal. assert (Some op = Some op') as [= ->]; [|done].
      eapply decided_unique; [apply (wi_cm _ _ Hw)..|by apply Hd|by apply Hd'].
    + apply lookup_lt_Some in Ej. apply lookup_ge_None in Ej'. lia.
  - apply lookup_ge_None in Ej. rewrite lookup_app_r by done. rewrite lookup_drop. f_equal. lia.
Qed.

(** An index determines the state. *)
Lemma at_log_unique g w k x y :
  winv g w → at_log g k x → at_log g k y → sm_equiv x y.
Proof.
  intros Hw (_ & x' & (ops & Hl & Hex & Hd) & Hx) (_ & y' & (ops' & Hl' & Hex' & Hd') & Hy).
  assert (ops = ops') as <-.
  { apply prefix_length_eq; [|lia]. eapply is_run_prefix; [done..|lia]. }
  rewrite Hex in Hex'. injection Hex' as <-.
  pose proof (sm_equivalence (St := St)) as [_ Hs Ht]. eapply Ht; [exact Hx|by apply Hs].
Qed.

(** ** Frames *)

Lemma submit_inv_rf J owner x s : submit_inv J owner s → submit_inv J owner (set_rf x s).
Proof. by intros []. Qed.

Lemma srv_inv_mono g g' nd nd' sv :
  gext g g' → applier nd' = applier nd → srv_inv g nd sv → srv_inv g' nd' sv.
Proof.
  intros Hg Ha []. split; try done.
  - eapply inbox_mono; [exact snap_at_mono|done..].
  - by eapply at_log_mono.
  - by eapply telling_mono.
Qed.

(** [Q] covers what has been submitted in [w]. *)
Definition new_ops w : Prop :=
  ∀ i sv op, w_srv w !! i = Some sv → submitted (sv_rsm sv) op → op_ok op → Q op.

(** A step at server [i]. *)
Lemma winv_frame g g' w net' i sv' :
  winv g w → gext g g' → net_ok n snap_at Q g' net' →
  (∀ j nd', j ≠ i → nodes net' !! j = Some nd' →
     ∃ nd, nodes (w_net w) !! j = Some nd ∧ applier nd' = applier nd) →
  (∀ nd', nodes net' !! i = Some nd' → srv_inv g' nd' sv') →
  winv g' (mkWorld net' (<[i := sv']> (w_srv w))).
Proof.
  intros Hw Hg Hno Hother Hi. split; [done|cbn; rewrite length_insert; apply Hw|]. cbn.
  intros j nd' sv Hj [(-> & <- & _)|[Hne Hsv]]%list_lookup_insert_Some; [by apply Hi|].
  destruct (Hother j nd') as (nd & Hnd & Ha); [done..|].
  eapply srv_inv_mono; [done..|]. by apply (wi_srv _ _ Hw j).
Qed.

(** ** Every step *)

Lemma rsmAt_Some i st w net s :
  rsmAt i st w = Some (net, s) → ∃ nd sv s1,
    nodes (w_net w) !! i = Some nd ∧ w_srv w !! i = Some sv ∧
    s1 = set_rf (nd_raft nd) (sv_rsm sv) ∧ rsm_step st s1 = Some s ∧
    net = set_node i (set_raft (rf s) nd) (w_net w).
Proof.
  unfold rsmAt. intros (nd & Hi & H)%bind_Some. apply bind_Some in H as (sv & Hsv & H).
  apply bind_Some in H as (s' & Hrun & [= <- <-]). cbn in Hrun.
  apply bind_Some in Hrun as (s1 & H1 & [= ->]). by exists nd, sv, (set_rf (nd_raft nd) (sv_rsm sv)).
Qed.

Lemma thread_winv g w i st w' :
  winv g w → wlabel_ok (WThread i st) w → wstep (WThread i st) w = Some w' → new_ops w' →
  ∃ g', gext g g' ∧ winv g' w'.
Proof.
  intros Hw Hlab H Hnew. cbn [wstep] in H. apply bind_Some in H as (sv & Hsv & H).
  apply bind_Some in H as (Hth & _ & H). apply bind_Some in H as ([net s] & Hat & [= <-]).
  apply rsmAt_Some in Hat as (nd & sv' & s1 & Hi & Hsv' & -> & Hst & ->).
  rewrite Hsv in Hsv'. injection Hsv' as <-. pose proof (wi_srv _ _ Hw _ _ _ Hi Hsv) as Hsi.
  destruct (thread_step st (mkServer (set_rf (nd_raft nd) (sv_rsm sv)) (sv_got sv) (sv_mail sv) (sv_idx sv)) s)
    as (Hsm & Hrf & Hsub & Hrd); [done|done|]. cbn in Hsm, Hrf, Hsub, Hrd.
  destruct (peer_step n snap_at Q snap_at_mono g (w_net w) i nd (rf s)) as (g' & Hg & Hno & Ha); [apply Hw|done| |].
  { destruct Hrf as [?|(op & r & Hop & Hs)]; [by left|right; left]. exists op, r. split; [|done].
    by eapply Hsi. }
  exists g'. split; [done|]. eapply winv_frame; [done..|by apply other_nodes|].
  intros nd' ->%node_at. apply (srv_inv_mono _ g' _ _ _ Hg Ha) in Hsi as []. split; cbn; try done.
  - intros m Hm. apply Hrd; [by exists m|by eapply si_mail0].
  - by rewrite Hsm.
  - intros op Hop. destruct (Hsub op Hop) as [?| ->]; [by apply si_submits0|].
    apply (Hnew i (mkServer s (sv_got sv) (sv_mail sv) (sv_idx sv)) op); [|done..].
    apply list_lookup_insert_eq. by eapply lookup_lt_Some.
  - destruct si_told0 as (owner & Ht). eapply rsm_step_inv; [apply told_expires| |exact Hst|].
    + by apply submit_inv_rf.
    + by destruct st as [| | | | | | | |[[]|] ?| | |].
Qed.

Lemma process_winv g w i order w' :
  winv g w → wstep (WProcess i order) w = Some w' → ∃ g', gext g g' ∧ winv g' w'.
Proof.
  intros Hw H. cbn [wstep] in H. apply bind_Some in H as (sv & Hsv & H).
  apply bind_Some in H as (msg & Hmail & H). apply bind_Some in H as ([net s] & Hat & [= <-]).
  apply rsmAt_Some in Hat as (nd & sv' & s1 & Hi & Hsv' & -> & Hst & ->).
  rewrite Hsv in Hsv'. injection Hsv' as <-. pose proof (wi_srv _ _ Hw _ _ _ Hi Hsv) as Hsi.
  pose proof Hst as (_ & Hsub & Hmsg)%process_step. cbn in Hsub, Hmsg.
  pose proof (si_inbox _ _ _ Hsi) as Hin. rewrite Hmail in Hin.
  destruct (ib_mail _ _ _ _ _ _ _ _ Hin _ eq_refl) as (Hfit & _).
  assert (at_log g (msgIdx msg) (sm s) ∧ (rf s = nd_raft nd ∨ ∃ k data,
    may_snapshot nd k ∧ snap_at g k data ∧ Snapshot k data (nd_raft nd) = Ret (rf s))) as [Hsm Hrf].
  { destruct msg as [c k|data t k]; cbn [mail_ok msgIdx] in *.
    - destruct Hmsg as (op & r & -> & Hdo & Hrf), Hfit as (-> & _ & op' & [= <-] & Hop & Hd).
      assert (at_log g (sv_idx sv + 1) (sm s)) as Hat by (eapply at_log_do; [apply Hsi|done..]).
      split; [done|]. destruct Hrf as [?|Hrf]; [by left|right]. eexists _, _.
      split_and!; [by eapply inbox_may_snapshot|right|exact Hrf]. by exists (sm s).
    - destruct Hmsg as [Hr Hrf], Hfit as [Hk Hsn]. split; [|by left].
      destruct (at_log_restore g k data (sm (sv_rsm sv))) as (x & Hx & Hat); [done|by eapply snap_at_nonempty|].
      rewrite Hr in Hx. by injection Hx as ->. }
  destruct (peer_step n snap_at Q snap_at_mono g (w_net w) i nd (rf s)) as (g' & Hg & Hno & Ha);
    [apply Hw|done|by naive_solver|].
  exists g'. split; [done|]. eapply winv_frame; [done..|by apply other_nodes|].
  intros nd' ->%node_at. apply (srv_inv_mono _ g' _ _ _ Hg Ha) in Hsi as []. split; cbn; try done.
  - rewrite Hmail in si_inbox0. by eapply inbox_process.
  - by eapply at_log_mono.
  - intros op (c & Hc & <-). apply si_submits0. exists c. by rewrite <-Hsub.
  - destruct si_told0 as (owner & Ht). eapply rsm_step_inv; [apply told_expires| |exact Hst|].
    + by apply submit_inv_rf.
    + destruct msg as [[op|] k|]; try done. cbn. intros r Hdo.
      destruct Hfit as (-> & _ & op' & [= <-] & Hop & Hd). eapply at_log_told; [done..| |done].
      by eapply decided_mono.
Qed.

Lemma hand_winv g w i w' : winv g w → wstep (WHand i) w = Some w' → winv g w'.
Proof.
  intros Hw H. cbn [wstep] in H. apply bind_Some in H as (nd & Hi & H).
  apply bind_Some in H as (sv & Hsv & H). apply bind_Some in H as (msg & Hmsg & H).
  apply bind_Some in H as ((Hgot & Hmail & Hrec) & _ & [= <-]).
  pose proof (wi_srv _ _ Hw _ _ _ Hi Hsv) as [Hin _ Hsm Hsub Htold]. rewrite Hgot, Hmail in Hin.
  eapply (winv_frame g g w (w_net w)); [done|apply gext_refl|apply Hw|by eauto|].
  intros nd' Hi'. rewrite Hi in Hi'. injection Hi' as <-. split; cbn; try done.
  - eapply inbox_hand; [apply Hw|done..].
  - intros _ _. unfold is_receiving in Hrec. by destruct (reader _).
Qed.

Lemma done_winv g w i w' : winv g w → wstep (WDone i) w = Some w' → ∃ g', gext g g' ∧ winv g' w'.
Proof.
  intros Hw H. cbn [wstep] in H. apply bind_Some in H as (sv & Hsv & H).
  apply bind_Some in H as (Hgot & _ & H). apply bind_Some in H as (net & Hnet & [= <-]).
  destruct (net_ok_step n snap_at Q snap_at_mono g (w_net w) (LApplyDone i) net) as (g' & Hg & Hno);
    [apply Hw|done..|].
  pose proof Hnet as (nd & msg & Hi & Hmsg & ->)%applyDone_Some.
  pose proof (wi_srv _ _ Hw _ _ _ Hi Hsv) as [Hin Hmail Hsm Hsub Htold]. rewrite Hgot in Hin.
  exists g'. split; [done|]. eapply winv_frame; [done..| |].
  - intros j nd' Hne Hj. eapply (net_step_frame (LApplyDone i)); [done|done|]. cbn. congruence.
  - intros nd' ->%(node_at i _ _ (w_net w)). split; cbn; try done.
    + eapply inbox_mono; [exact snap_at_mono|done..|]. eapply inbox_done; [apply Hw|done..].
    + by eapply at_log_mono.
    + by eapply telling_mono.
Qed.

Lemma only_net_winv g w l w' :
  winv g w → wlabel_ok (WNet l) w → wstep (WNet l) w = Some w' → ∃ g', gext g g' ∧ winv g' w'.
Proof.
  intros Hw Hf H. cbn [wstep] in H. apply bind_Some in H as (Hnl & _ & H).
  apply bind_Some in H as (net & Hnet & [= <-]).
  destruct (net_ok_step n snap_at Q snap_at_mono g (w_net w) l net) as (g' & Hg & Hno);
    [apply Hw|done..|by destruct l|].
  exists g'. split; [done|]. split; [done|apply Hw|]. cbn. intros j nd' sv Hj Hsv.
  destruct (inbox_net n snap_at Q snap_at_mono g (w_net w) l net j nd') as (nd & Hi & Hin); [done..|].
  apply (srv_inv_mono g g' nd' nd'); [done..|].
  pose proof (wi_srv _ _ Hw _ _ _ Hi Hsv) as []. split; try done. by apply Hin.
Qed.

Lemma MakeRSM_at g k p x s :
  sm_ok st0 → snap_at g k (ReadSnapshot p) → (ReadSnapshot p = [] → k = 0) →
  MakeRSM (Z.of_nat n) x p maxraft st0 = Ret s →
  at_log g k (sm s) ∧ submits s = [] ∧ (∀ J, submit_inv J [] s) ∧ api_Make (R := Raft (Op Req)) (Z.of_nat n) x p = Ret (rf s).
Proof.
  intros Hok Hsn Hz. unfold MakeRSM. intros (x1 & Hx1 & H)%bind_ret_inv.
  apply bind_ret_inv in H as (rf1 & Hrf & [= <-]). cbn.
  split_and!; [|done|by intros J; apply submit_inv_new|done].
  destruct (decide (ReadSnapshot p = [])) as [He|He].
  - rewrite He in Hx1. cbn in Hx1. injection Hx1 as <-. rewrite Hz by done. by apply at_log_zero.
  - rewrite decide_True in Hx1 by (destruct (ReadSnapshot p); [done|unfold zlen; cbn; lia]).
    destruct (at_log_restore g k (ReadSnapshot p) st0) as (x' & Hx' & Hat); [done..|].
    rewrite Hx1 in Hx'. by injection Hx' as ->.
Qed.

Lemma restart_winv g w i w' :
  sm_ok st0 → winv g w → wstep (WRestart i) w = Some w' → ∃ g', gext g g' ∧ winv g' w'.
Proof.
  intros Hst0 Hw H. cbn [wstep] in H. apply bind_Some in H as (nd & Hi & H).
  apply bind_Some in H as (net & Hnet & H). apply bind_Some in H as (s & Hs & [= <-]).
  destruct (net_ok_step n snap_at Q snap_at_mono g (w_net w) (LRestart i 0) net) as (g' & Hg & Hno);
    [apply Hw|done..|].
  pose proof Hnet as (nd1 & rf1 & Hi1 & Hrun & ->)%restart_Some. rewrite Hi in Hi1. injection Hi1 as <-.
  rewrite (inv_length _ _ _ (cm_inv _ _ _ (wi_cm _ _ Hw))) in Hs, Hrun.
  pose proof (restart_at n snap_at Q g (w_net w) i nd rf1 (wi_net _ _ Hw) Hi Hrun) as Hsnap.
  destruct (MakeRSM_at g (lastApplied rf1) (persister (nd_raft nd)) (Z.of_nat i) s)
    as (Hat & Hsub & Hnew & Hrf); [done|done|..].
  { intros He. destruct Hsnap as [[? _]|(x & Hx & Hxok & _)]; [done|].
    rewrite He in Hx. symmetry in Hx. by apply sm_Snapshot_nonempty in Hx. }
  { destruct (MakeRSM _ _ _ _ _); [by injection Hs as ->|done]. }
  cbn in Hrf. rewrite Hrun in Hrf. injection Hrf as ->.
  exists g'. split; [done|]. eapply winv_frame; [done..| |].
  - intros j nd' Hne Hj. eapply (net_step_frame (LRestart i 0)); [done|done|]. cbn. congruence.
  - intros nd' ->%(node_at i _ _ (w_net w)). split; cbn; try done.
    + by eapply at_log_mono.
    + intros op (c & Hc & _). rewrite Hsub in Hc. by apply elem_of_nil in Hc.
    + exists []. apply Hnew.
Qed.

Lemma world_step_winv g w w' :
  sm_ok st0 → winv g w → world_step w w' → new_ops w' → ∃ g', gext g g' ∧ winv g' w'.
Proof.
  intros Hst0 Hw (l & Hl & Hs) Hnew. destruct l as [l|i|i|i order|i st|i].
  - by eapply only_net_winv.
  - exists g. split; [apply gext_refl|by eapply hand_winv].
  - by eapply done_winv.
  - by eapply process_winv.
  - by eapply thread_winv.
  - by eapply restart_winv.
Qed.

Lemma world_init_winv : sm_ok st0 → ∃ g, winv g (world_init n).
Proof.
  intros Hst0. destruct (net_ok_init n snap_at Q) as (g & Hg); [by left|]. exists g. split; cbn.
  - done.
  - by rewrite length_fmap, length_seq.
  - intros i nd sv. rewrite !list_lookup_fmap.
    intros (j & Hj & ->)%fmap_Some (j' & Hj' & ->)%fmap_Some. split; cbn; try done.
    + by apply at_log_zero.
    + intros op (c & Hc & _). cbn in Hc. by apply elem_of_nil in Hc.
    + exists []. by apply submit_inv_new.
Qed.

Lemma srv_at g w i sv :
  winv g w → w_srv w !! i = Some sv → ∃ nd, nodes (w_net w) !! i = Some nd ∧ srv_inv g nd sv.
Proof.
  intros Hw Hi. destruct (nodes (w_net w) !! i) as [nd|] eqn:E; [exists nd; split; [done|by eapply (wi_srv _ _ Hw)]|].
  apply lookup_lt_Some in Hi. apply lookup_ge_None in E.
  rewrite (inv_length _ _ _ (cm_inv _ _ _ (wi_cm _ _ Hw))) in E. rewrite (wi_length _ _ Hw) in Hi. lia.
Qed.

(** ** One log *)

(** A service is in the state that a first part of [log] leads to. *)
Definition explains_state sv (log : list (Op Req)) : Prop :=
  ∃ ops y, ops `prefix_of` log ∧ Z.of_nat (length ops) = sv_idx sv ∧ exec ops st0 = Ret y ∧ sm_equiv (sm (sv_rsm sv)) y.

(** An answer OK is the result, at its place in [log], of an operation with the
    call's operation id. *)
Definition explains_call (c : @Call Req Rep) (log : list (Op Req)) : Prop :=
  ∀ v, sb_pc c = Done OK v →
  ∃ ops op res, ops ++ [op] `prefix_of` log ∧ replies ops op res ∧ op_Id op = op_Id (sb_op c) ∧ v = ar_value res.

Definition explains (log : list (Op Req)) w : Prop :=
  ∀ i sv, w_srv w !! i = Some sv →
    explains_state sv log ∧ ∀ t c, submits (sv_rsm sv) !! t = Some c → explains_call c log.

(** Finitely many statements about some run hold of one run, if they survive
    its extension. *)
Lemma common_run g w (Ps : list (list (Op Req) → Prop)) :
  winv g w → Forall (λ P, (∃ ops, is_run g ops ∧ P ops) ∧ ∀ ops ops', ops `prefix_of` ops' → P ops → P ops') Ps →
  ∃ log, is_run g log ∧ Forall (λ P, P log) Ps.
Proof.
  intros Hw. induction 1 as [|P Ps [(ops & Hops & HP) Hup] Hall IH]; [by exists []|].
  destruct IH as (log & Hlog & HPs).
  destruct (decide (length ops ≤ length log)%nat) as [Hle|Hgt].
  - exists log. split; [done|]. constructor; [|done]. eapply Hup; [|done]. by eapply is_run_prefix.
  - exists ops. split; [done|]. constructor; [done|].
    rewrite Forall_forall in Hall |- *. intros R HR.
    eapply (proj2 (Hall R HR)); [|by eapply (proj1 (Forall_forall _ _) HPs)]. eapply is_run_prefix; [done..|lia].
Qed.

Lemma explains_state_run g nd sv : srv_inv g nd sv →
  (∃ ops, is_run g ops ∧ explains_state sv ops) ∧
  ∀ ops ops', ops `prefix_of` ops' → explains_state sv ops → explains_state sv ops'.
Proof.
  intros Hs. destruct (si_sm _ _ _ Hs) as (_ & y & (ops & Hl & Hex & Hr) & He). split.
  - exists ops. split; [done|]. by exists ops, y.
  - intros ops1 ops2 Hp (o & y' & ? & ?). exists o, y'. split; [by etrans|done].
Qed.

Lemma explains_call_run g nd sv t c : srv_inv g nd sv → submits (sv_rsm sv) !! t = Some c →
  (∃ ops, is_run g ops ∧ explains_call c ops) ∧
  ∀ ops ops', ops `prefix_of` ops' → explains_call c ops → explains_call c ops'.
Proof.
  intros Hs Ht. destruct (si_told _ _ _ Hs) as (owner & Hown).
  destruct (si_calls _ _ _ Hown _ _ Ht) as [Hid Hc]. split.
  - unfold explains_call. destruct (sb_pc c) as [| | | | |[] v]; try (exists []; by split).
    destruct Hc as (i & res & [?|(ops & op & Hrun & Hrep)] & Ho & ->); [lia|].
    exists (ops ++ [op]). split; [done|]. intros v [= <-]. exists ops, op, res. split_and!; try done.
    rewrite <-Ho. by destruct Hrep as (? & ? & ? & _ & _ & ->).
  - intros ops1 ops2 Hp H v Hv. destruct (H v Hv) as (o & op & res & ? & ?).
    exists o, op, res. split; [by etrans|done].
Qed.

(** The log that explains [w] can be any run's extension. *)
Lemma winv_explains g w log : winv g w → is_run g log →
  ∃ log', log `prefix_of` log' ∧ is_run g log' ∧ explains log' w.
Proof.
  intros Hw Hlog.
  destruct (common_run g w (prefix log :: (explains_state <$> w_srv w) ++
    (explains_call <$> (w_srv w ≫= λ sv, submits (sv_rsm sv))))) as (log' & Hrun & Hall); [done|..].
  - constructor; [split; [by exists log|intros; by etrans]|]. apply Forall_app. split; apply Forall_fmap, Forall_forall.
    + intros sv (i & Hi)%list_elem_of_lookup. destruct (srv_at _ _ _ _ Hw Hi) as (nd & _ & Hs).
      by eapply explains_state_run.
    + intros c (sv & (t & Ht)%list_elem_of_lookup & (i & Hi)%list_elem_of_lookup)%list_elem_of_bind.
      destruct (srv_at _ _ _ _ Hw Hi) as (nd & _ & Hs). by eapply explains_call_run.
  - apply Forall_cons in Hall as [Hp [Hst Hcs]%Forall_app]. exists log'. split_and!; [done..|].
    rewrite Forall_fmap, Forall_forall in Hst. rewrite Forall_fmap, Forall_forall in Hcs. intros i sv Hi. split.
    + apply Hst. by eapply list_elem_of_lookup_2.
    + intros t c Ht. apply Hcs. apply list_elem_of_bind. exists sv.
      split; by eapply list_elem_of_lookup_2.
Qed.

End invariant.

(** ** Where the operations come from *)

Lemma is_run_weaken (Q Q' : Op Req → Prop) g ops : (∀ op, Q op → Q' op) → is_run Q g ops → is_run Q' g ops.
Proof. intros HQ H j op [??]%H. auto. Qed.

Lemma at_log_weaken (Q Q' : Op Req → Prop) g k x : (∀ op, Q op → Q' op) → at_log Q g k x → at_log Q' g k x.
Proof.
  intros HQ (? & y & (ops & ? & ? & ?) & ?). split; [done|]. exists y. split; [|done]. exists ops.
  split_and!; [done..|by eapply is_run_weaken].
Qed.

Lemma winv_weaken (Q Q' : Op Req → Prop) g w : (∀ op, Q op → Q' op) → winv Q g w → winv Q' g w.
Proof.
  intros HQ Hw. assert (∀ k data, snap_at Q g k data → snap_at Q' g k data) as Hsn.
  { intros k data [?|(x & -> & ?)]; [by left|right]. exists x. split; [done|by eapply at_log_weaken]. }
  split; [by eapply net_ok_weaken, Hw|apply Hw|].
  intros i nd sv Hnd Hsv. destruct (wi_srv _ _ _ Hw i nd sv Hnd Hsv) as [Hin ? ? ? (owner & Ht)]. split; try done.
  - by eapply inbox_weaken, Hin.
  - by eapply at_log_weaken.
  - auto.
  - exists owner. eapply submit_inv_mono; [|exact Ht]. intros c res [?|(ops & op & ? & ?)]; [by left|right].
    exists ops, op. split; [by eapply is_run_weaken|done].
Qed.

Definition world_reachable w : Prop := rtc world_step (world_init n) w.

(** A client of a server has submitted [op] before the moment of [w]. *)
Definition created w (op : Op Req) : Prop :=
  ∃ w0 i sv, world_reachable w0 ∧ rtc world_step w0 w ∧ w_srv w0 !! i = Some sv ∧ submitted (sv_rsm sv) op.

Definition known w (op : Op Req) : Prop := op_ok op ∧ created w op.

Lemma known_mono w w' op : rtc world_step w w' → known w op → known w' op.
Proof.
  intros Hr (? & w0 & i & sv & ? & ? & ?). split; [done|]. exists w0, i, sv. split; [done|]. split; [by etrans|done].
Qed.

Lemma world_run_winv g w w' :
  sm_ok st0 → world_reachable w → winv (known w) g w → rtc world_step w w' →
  ∃ g', gext g g' ∧ winv (known w') g' w'.
Proof.
  intros Hst0 Hr Hw Hrun. revert g Hr Hw. induction Hrun as [w|w1 w2 w3 Hstep _ IH]; intros g Hr Hw.
  - exists g. split; [apply gext_refl|done].
  - assert (world_reachable w2) as Hr2 by by eapply rtc_r.
    destruct (world_step_winv (known w2) ltac:(by intros op []) g w1 w2) as (g2 & Hg2 & Hw2); [done| |done|..].
    + eapply winv_weaken, Hw. intros op. apply known_mono. by apply rtc_once.
    + intros i sv op Hsv Hop Hok. split; [done|]. by exists w2, i, sv.
    + destruct (IH g2 Hr2 Hw2) as (g3 & ? & ?). exists g3. split; [by eapply gext_trans|done].
Qed.

Lemma reachable_winv w : sm_ok st0 → world_reachable w → ∃ g, winv (known w) g w.
Proof.
  intros Hok Hr. destruct (world_init_winv (known (world_init n)) Hok) as (g0 & Hg0).
  destruct (world_run_winv g0 (world_init n) w) as (g & _ & ?); [done|apply rtc_refl|done..|]. by exists g.
Qed.

Lemma is_run_known g w log op : is_run (known w) g log → op ∈ log → created w op.
Proof. intros Hr (j & Hj)%list_elem_of_lookup. apply (Hr j op Hj). Qed.

(** ** The theorems *)

Lemma one_log w1 w2 :
  sm_ok st0 → world_reachable w1 → rtc world_step w1 w2 →
  ∃ log1 log2, log1 `prefix_of` log2 ∧ explains log1 w1 ∧ explains log2 w2 ∧
    (∀ op, op ∈ log1 → created w1 op) ∧ (∀ op, op ∈ log2 → created w2 op).
Proof.
  intros Hok Hw1 Hw2. destruct (reachable_winv w1 Hok Hw1) as (g1 & Hinv1).
  destruct (world_run_winv _ _ _ Hok Hw1 Hinv1 Hw2) as (g2 & Hg & Hinv2).
  destruct (winv_explains _ g1 w1 [] Hinv1) as (log1 & _ & Hr1 & He1); [done|].
  destruct (winv_explains _ g2 w2 log1 Hinv2) as (log2 & Hp & Hr2 & He2).
  { eapply is_run_mono; [done|]. eapply is_run_weaken; [|done]. intros op. by apply known_mono. }
  exists log1, log2. split_and!; try done; intros op; by eapply is_run_known.
Qed.

(** C2: One log explains everything.  In any execution in which no reply of an
    older term is processed, there is one list of operations, which only grows,
    such that at every moment each service is, up to differences no request
    can observe, in the state that its first [sv_idx] operations lead to, and
    each call of Submit that has returned OK has returned what the operation
    at some place of the list, one with the operation id of the call, gives
    there.  Every operation of the list was submitted before; so an operation
    that is submitted after [w1] comes after all that explains [w1]. *)
Theorem one_log_explains w1 w2 :
  sm_ok st0 → world_reachable w1 → rtc world_step w1 w2 →
  ∃ log1 log2, log1 `prefix_of` log2 ∧ explains log1 w1 ∧ explains log2 w2 ∧
    (∀ op, op ∈ log1 → created w1 op) ∧ (∀ op, op ∈ log2 → created w2 op).
Proof. apply one_log. Qed.

(** [Submit] is linearizable if operation ids are unique.  The ids of the code
    are counters of each process ([nextOpId]), which [acknowledged_put_lost]
    exploits; in an execution in which no two submitted operations happen to
    have the same id, every call that has returned OK has returned the result of
    its own operation at its place in the log, and an operation that is
    submitted after another one's call has returned has a later place. *)
Definition unique_ids w : Prop :=
  ∀ op op', created w op → created w op' → op_Id op = op_Id op' → op = op'.

Definition own_place (c : @Call Req Rep) v (ops log : list (Op Req)) : Prop :=
  ∃ res, ops ++ [sb_op c] `prefix_of` log ∧ replies ops (sb_op c) res ∧ v = ar_value res.

Definition answered w (c : @Call Req Rep) v : Prop :=
  ∃ i sv, w_srv w !! i = Some sv ∧ c ∈ submits (sv_rsm sv) ∧ sb_pc c = Done OK v.

Lemma explains_own w0 w log c v :
  world_reachable w → rtc world_step w w0 → unique_ids w0 → explains log w → (∀ op, op ∈ log → created w0 op) →
  answered w c v → ∃ ops, own_place c v ops log.
Proof.
  intros Hw Hw0 Hids Hex Hcr (i & sv & Hi & Hc & Hpc). destruct (proj1 (list_elem_of_lookup _ _) Hc) as [t Ht].
  destruct (proj2 (Hex i sv Hi) t c Ht v Hpc) as (ops & op & res & Hpre & Hrep & Hid & ->).
  assert (op = sb_op c) as ->.
  { apply Hids; [|by exists w, i, sv; split_and!; try done; exists c|done].
    apply Hcr. destruct Hpre as [l ->]. set_solver. }
  by exists ops, res.
Qed.

Theorem submit_linearizable w1 w2 :
  sm_ok st0 → world_reachable w1 → rtc world_step w1 w2 → unique_ids w2 →
  ∃ log, explains log w2 ∧ (∀ c v, answered w2 c v → ∃ ops, own_place c v ops log) ∧
    ∀ c1 v1 c2 v2, answered w1 c1 v1 → answered w2 c2 v2 → ¬ created w1 (sb_op c2) →
      ∃ ops1 ops2, own_place c1 v1 ops1 log ∧ own_place c2 v2 ops2 log ∧ ops1 ++ [sb_op c1] `prefix_of` ops2.
Proof.
  intros Hok Hw1 Hw2 Hids. destruct (one_log w1 w2 Hok Hw1 Hw2) as (log1 & log2 & Hp & He1 & He2 & Hc1 & Hc2).
  assert (world_reachable w2) as Hr2 by exact (transitivity (R := rtc world_step) Hw1 Hw2).
  assert (∀ c v, answered w2 c v → ∃ ops, own_place c v ops log2) as Hown2.
  { intros c v. by apply (explains_own w2). }
  exists log2. split_and!; try done. intros c1 v1 c2 v2 H1 H2 Hnew.
  destruct (explains_own w2 w1 log1 c1 v1) as (ops1 & res1 & Ho1 & ?); try done.
  { intros op Hop. apply Hc2. destruct Hp as [l ->]. set_solver. }
  destruct (Hown2 c2 v2 H2) as (ops2 & res2 & Ho2 & ?). exists ops1, ops2.
  split_and!; [exists res1; split; [by etrans|done]|by exists res2|].
  etrans; [exact Ho1|]. destruct (prefix_weak_total log1 (ops2 ++ [sb_op c2]) log2 Hp Ho2) as [Hl|Hl].
  - destruct Hl as [l El]. destruct l as [|x l _] using rev_ind.
    + destruct Hnew. apply Hc1. rewrite app_nil_r in El. rewrite <-El. set_solver.
    + rewrite app_assoc in El. apply app_inj_tail in El as [-> _]. by exists l.
  - destruct Hnew. apply Hc1. destruct Hl as [l ->]. set_solver.
Qed.

(** Replicas agree.  Servers that each run a service, an RSM and a Raft
    peer, in any execution in which no reply of an older term is processed: if
    one service has processed the messages up to index [k] at some moment, and
    another (or the same, perhaps after crashes) has processed those up to [k]
    then or later, no request can tell their states apart, although one may
    have executed every command and the other may have installed a snapshot. *)
Theorem replicas_agree w1 w2 i j sv1 sv2 :
  sm_ok st0 → world_reachable w1 → rtc world_step w1 w2 →
  w_srv w1 !! i = Some sv1 → w_srv w2 !! j = Some sv2 → sv_idx sv1 = sv_idx sv2 →
  sm_equiv (sm (sv_rsm sv1)) (sm (sv_rsm sv2)).
Proof.
  intros Hok Hw1 Hw2 Hi Hj Heq. destruct (reachable_winv w1 Hok Hw1) as (g1 & Hinv1).
  destruct (world_run_winv _ _ _ Hok Hw1 Hinv1 Hw2) as (g2 & Hg & Hinv2).
  destruct (srv_at _ _ _ _ _ Hinv1 Hi) as (nd1 & _ & Hs1), (srv_at _ _ _ _ _ Hinv2 Hj) as (nd2 & _ & Hs2).
  apply (at_log_unique (known w2) g2 w2 (sv_idx sv2)); [done| |apply Hs2].
  rewrite <-Heq. eapply at_log_mono; [done|]. eapply at_log_weaken; [|apply Hs1]. intros op. by apply known_mono.
Qed.

(** *** Processing *)





End replicas.
