(* ===== verification/KvRaft.v ===== *)
(** * KvRaft: the fault-tolerant key/value service

    Models [src/src/kvraft/server.go] and [src/src/kvraft/client.go]: the
    replicated map with its table of last puts, as an instance of
    [StateMachine] of [Rsm], the RPC handlers on top of [Submit], and the
    clerk.

    The two maps are nil until [StartKVServer] makes them or a snapshot is
    restored, so they are options. *)

From S2P Require Import Prelude RpcApi KvModel KvSpec KvStore Persister Raft Rsm RsmFacts.

Record SnapshotData := mkSnapshotData {
  sd_Kvm : option kvmap;
  sd_LastPutByClientId : option putTable;
}.

Record KVServer := mkKVServer {
  kvm : option kvmap;
  lastPutByClientId : option putTable;
}.

#[global] Instance SnapshotData_eq_dec : EqDecision SnapshotData.
Proof. solve_decision. Defined.
#[global] Instance SnapshotData_countable : Countable SnapshotData.
Proof.
  by refine (inj_countable' (λ d, (sd_Kvm d, sd_LastPutByClientId d))
    (λ p, mkSnapshotData p.1 p.2) _); intros [].
Defined.

(** What goes through [Submit] and [DoOp] as [any]. *)
Inductive Req := ReqGet (args : GetArgs) | ReqPut (args : PutArgs) | ReqOther.
Inductive Rep := RepGet (r : GetReply) | RepPut (r : PutReply) | RepNil.

#[global] Instance Req_eq_dec : EqDecision Req.
Proof. solve_decision. Defined.
#[global] Instance Rep_eq_dec : EqDecision Rep.
Proof. solve_decision. Defined.
#[global] Instance Req_countable : Countable Req.
Proof.
  refine (inj_countable'
    (λ r, match r with
          | ReqGet a => inl (inl (get_Key a))
          | ReqPut a => inl (inr (ClientId (put_info a), RequestId (put_info a),
                                  put_Key a, put_Value a, put_Version a))
          | ReqOther => inr () end)
    (λ x, match x with
          | inl (inl k) => ReqGet (mkGetArgs k)
          | inl (inr (c, i, k, v, ver)) => ReqPut (mkPutArgs (mkRequestInfo c i) k v ver)
          | inr _ => ReqOther end) _).
  by intros [[]|[[] ]|].
Defined.

(** ** DoOp *)

Definition doGet (kv : KVServer) (args : GetArgs) : GetReply :=
  match map_get (kvm kv) (get_Key args) with
  | None => mkGetReply "" 0 ErrNoKey
  | Some v => mkGetReply (Value v) (Version v) OK
  end.

Definition executePut (kv : KVServer) (args : PutArgs) : outcome (KVServer * PutReply) :=
  '(m, reply) ← putMap args (kvm kv);
  t ← map_set (lastPutByClientId kv) (ClientId (put_info args))
        (mkLastPut (RequestId (put_info args)) reply);
  Ret (mkKVServer m t, reply).

Definition doPut (kv : KVServer) (args : PutArgs) : outcome (KVServer * PutReply) :=
  match map_get (lastPutByClientId kv) (ClientId (put_info args)) with
  | Some lastPut =>
      if decide (RequestId (put_info args) ≤ lp_RequestId lastPut) then Ret (kv, lp_Reply lastPut)
      else executePut kv args
  | None => executePut kv args
  end.

Definition DoOp (req : Req) (kv : KVServer) : outcome (KVServer * Rep) :=
  match req with
  | ReqGet args => Ret (kv, RepGet (doGet kv args))
  | ReqPut args => '(kv, r) ← doPut kv args; Ret (kv, RepPut r)
  | ReqOther => Ret (kv, RepNil)
  end.

(** ** Snapshots *)

Section server.
Context `{!Codec SnapshotData}.

Definition Snapshot (kv : KVServer) : bytes :=
  enc (mkSnapshotData (map_copy (kvm kv)) (map_copy (lastPutByClientId kv))).

Definition Restore (data : bytes) (kv : KVServer) : outcome KVServer :=
  if decide (zlen data < 1) then Ret kv
  else match dec data with
       | None => Panic GobError
       | Some d => Ret (mkKVServer (sd_Kvm d) (sd_LastPutByClientId d))
       end.

(** Both maps have been made. *)
Definition made (kv : KVServer) : Prop := is_Some (kvm kv) ∧ is_Some (lastPutByClientId kv).

#[global] Instance kv_state_machine : StateMachine KVServer Req Rep := {
  Rsm.DoOp := DoOp;
  sm_Snapshot := Snapshot;
  sm_Restore := Restore;
  sm_ok := made;
  req_ok _ := True;
  sm_equiv := eq;
}.

Definition nilServer : KVServer := mkKVServer None None.
Definition emptyServer : KVServer := mkKVServer (Some ∅) (Some ∅).

Lemma executePut_spec m t args :
  executePut (mkKVServer (Some m) (Some t)) args =
  let '(m', e) := kv_put m (put_Key args) (put_Value args) (put_Version args) in
  Ret (mkKVServer (Some m') (Some (<[ClientId (put_info args) :=
         mkLastPut (RequestId (put_info args)) (mkPutReply e)]> t)), mkPutReply e).
Proof.
  unfold executePut. cbn [kvm]. rewrite putMap_spec.
  by destruct (kv_put m (put_Key args) (put_Value args) (put_Version args)).
Qed.

Lemma doPut_made kv args : made kv → ∃ kv' r, doPut kv args = Ret (kv', r) ∧ made kv'.
Proof.
  destruct kv as [m t]. intros [[m' Hm] [t' Ht]]. cbn in *. subst. unfold doPut.
  assert (∃ kv' r, executePut (mkKVServer (Some m') (Some t')) args = Ret (kv', r) ∧ made kv') as Hex.
  { rewrite executePut_spec. destruct (kv_put _ _ _ _). by eexists _, _. }
  destruct (map_get _ _) as [lp|]; [|done]. case_decide; [|done]. by eexists _, _.
Qed.

#[global] Instance kv_state_machine_laws : StateMachineLaws KVServer Req Rep.
Proof.
  split.
  - apply _.
  - intros [args|args|] kv Hok _; cbn.
    + by eexists _, _.
    + destruct (doPut_made kv args Hok) as (kv' & r & -> & ?). cbn. by eexists _, _.
    + by eexists _, _.
  - intros req kv1 kv2 kv1' r -> Hdo. by exists kv1'.
  - intros kv _. apply enc_nonempty.
  - intros [m t] kv0 [Hm Ht]. exists (mkKVServer m t). split; [|by split].
    cbn. unfold Restore, Snapshot. cbn in *. rewrite decide_False.
    + rewrite dec_enc. cbn. by rewrite !map_copy_made.
    + intros Hz. destruct (enc _) eqn:E; [by apply enc_nonempty in E|].
      unfold zlen in Hz. cbn in Hz. lia.
Qed.

(** ** Starting a server

    The handlers and [readApply] run once [StartKVServer] has returned. *)

Definition StartKVServer `{!RaftApi R (Op Req)} (n me : Z) (p : Persister) (maxraftstate : Z)
    : outcome (@RSM KVServer Req Rep R) :=
  rsm ← MakeRSM n me p maxraftstate nilServer;
  Ret (if decide (kvm (sm rsm) = None) then set_sm emptyServer rsm else rsm).
End server.

(** ** The RPC handlers, given what [Submit] returned *)

Definition GetHandler (res : Err * option Rep) (reply : GetReply) : outcome GetReply :=
  if decide (res.1 = OK) then
    match res.2 with Some (RepGet r) => Ret r | _ => Panic TypeAssertion end
  else Ret (mkGetReply (get_Value reply) (get_Version reply) res.1).

Definition PutHandler (res : Err * option Rep) : outcome PutReply :=
  if decide (res.1 = OK) then
    match res.2 with Some (RepPut r) => Ret r | _ => Panic TypeAssertion end
  else Ret (mkPutReply res.1).

(** ** The clerk *)

Definition maxBackoff : Z := 2000.   (* 2 * time.Second, in milliseconds *)

(** [for r := 0; r < retry && backoff < 2*time.Second; r++ { backoff *= 2 }] *)
Fixpoint doubleBackoff (retry : nat) (backoff : Z) : Z :=
  match retry with
  | O => backoff
  | S retry => if decide (backoff < maxBackoff) then doubleBackoff retry (backoff * 2) else backoff
  end.

(** The time [backoffWithJitter] sleeps, [rnd] being what [Int63n] draws from. *)
Definition backoffWithJitter (backoffTime : Z) (retry : nat) (rnd : Z) : outcome Z :=
  let backoff := Z.min maxBackoff (doubleBackoff retry backoffTime) in
  if decide (backoff `quot` 2 ≤ 0) then Panic (GoPanic "invalid argument to Int63n")
  else Ret (backoff `quot` 2 + rnd mod (backoff `quot` 2)).

Record Clerk := mkClerk {
  ck_servers : Z;          (* len(ck.servers) *)
  ck_leader : Z;
  ck_clientId : Z;
  ck_requestId : Z;
  ck_backoffTime : Z;
}.

Definition MakeClerk (servers nrand : Z) : Clerk := mkClerk servers 0 nrand 0 100.

Definition nextReqId (ck : Clerk) : Clerk :=
  mkClerk (ck_servers ck) (ck_leader ck) (ck_clientId ck) (u64_add (ck_requestId ck) 1)
    (ck_backoffTime ck).

Definition set_leader (leader : Z) (ck : Clerk) : Clerk :=
  mkClerk (ck_servers ck) leader (ck_clientId ck) (ck_requestId ck) (ck_backoffTime ck).

(** The retry loops of [Get] and [Put], [classify] being their switch on
    [reply.Err].  [net] says what each call to the current server came back
    with, [None] when the RPC failed.  [Ret None]: still retrying.  The second
    component is the list of servers the clerk called. *)
Inductive Verdict := Answer | Retry | Undefined.

Definition classifyGet (e : Err) : Verdict :=
  match e with OK | ErrNoKey => Answer | ErrWrongLeader => Retry | _ => Undefined end.

Definition classifyPut (e : Err) : Verdict :=
  match e with OK | ErrNoKey | ErrVersion => Answer | ErrWrongLeader => Retry | _ => Undefined end.

Section clerk.
Context {Reply : Type} (reply_Err : Reply → Err) (classify : Err → Verdict).

Fixpoint retryLoop (n leader : Z) (net : list (option Reply))
    : outcome (option (Reply * Z)) * list Z :=
  match net with
  | [] => (Ret None, [])
  | r :: net =>
      let again := let '(res, called) := retryLoop n ((leader + 1) `rem` n) net in
                   (res, leader :: called) in
      match r with
      | None => again
      | Some reply =>
          match classify (reply_Err reply) with
          | Answer => (Ret (Some (reply, leader)), [leader])
          | Retry => again
          | Undefined => (Panic (GoPanic "undefined error"), [leader])
          end
      end
  end.
End clerk.

Definition Clerk_Get (ck : Clerk) (net : list (option GetReply))
    : outcome (option (GetReply * Clerk)) :=
  res ← (retryLoop get_Err classifyGet (ck_servers ck) (ck_leader ck) net).1;
  Ret ((λ p, (p.1, set_leader p.2 ck)) <$> (res : option (GetReply * Z))).

(** The arguments of a put are fixed before the loop. *)
Definition Clerk_PutArgs (ck : Clerk) (key value : string) (version : Tversion) : Clerk * PutArgs :=
  let ck := nextReqId ck in
  (ck, mkPutArgs (mkRequestInfo (ck_clientId ck) (ck_requestId ck)) key value version).

Definition Clerk_Put (ck : Clerk) (key value : string) (version : Tversion)
    (net : list (option PutReply)) : outcome (option (Err * Clerk)) :=
  let '(ck, _) := Clerk_PutArgs ck key value version in
  res ← (retryLoop put_Err classifyPut (ck_servers ck) (ck_leader ck) net).1;
  Ret ((λ p, (put_Err p.1, set_leader p.2 ck)) <$> (res : option (PutReply * Z))).
