(* ===== verification/KvRaftFacts.v ===== *)
(** * KvRaftFacts: what the fault-tolerant key/value service promises

    Puts take effect exactly once although clerks and servers repeat them, a
    retry gets the reply of the execution, snapshots and restarts keep the
    state, the clerk's loop; and two executions of [Rsm] under this service in
    which the replicated state machine departs from its contract. *)

From S2P Require Import Prelude RpcApi KvModel KvSpec KvStore Persister Raft Rsm RsmFacts KvRaft.

Implicit Types (p : PutArgs) (kv : KVServer).

(** ** Exactly once *)

Definition logPuts (log : list Req) : list PutArgs :=
  omap (λ r, match r with ReqPut p => Some p | _ => None end) log.

(** The first occurrence of every request, by client and request id. *)
Fixpoint firsts (seen : list RequestInfo) (ps : list PutArgs) : list PutArgs :=
  match ps with
  | [] => []
  | p :: ps => if decide (put_info p ∈ seen) then firsts seen ps
               else p :: firsts (put_info p :: seen) ps
  end.

(** Clerks number their puts upwards and wait for the reply before the next
    one: a request seen for the first time is newer than all requests of its
    client seen before. *)
Fixpoint serial (seen : list RequestInfo) (ps : list PutArgs) : Prop :=
  match ps with
  | [] => True
  | p :: ps =>
      (put_info p ∈ seen ∨
       ∀ q, q ∈ seen → ClientId q = ClientId (put_info p) → RequestId q < RequestId (put_info p)) ∧
      serial (put_info p :: seen) ps
  end.

Definition putAll (m : kvmap) (ps : list PutArgs) : kvmap :=
  foldl (λ m p, (kv_put m (put_Key p) (put_Value p) (put_Version p)).1) m ps.

Fixpoint doAll (log : list Req) kv : outcome KVServer :=
  match log with
  | [] => Ret kv
  | r :: log => '(kv, _) ← DoOp r kv; doAll log kv
  end.

(** The table of last puts knows the newest request of every client seen. *)
Definition table_ok (seen : list RequestInfo) (t : putTable) : Prop :=
  (∀ c lp, t !! c = Some lp → mkRequestInfo c (lp_RequestId lp) ∈ seen) ∧
  (∀ q, q ∈ seen → ∃ lp, t !! ClientId q = Some lp ∧ RequestId q ≤ lp_RequestId lp).

Lemma table_ok_dup seen t q : table_ok seen t → q ∈ seen → table_ok (q :: seen) t.
Proof.
  intros [H1 H2] Hq. split.
  - intros c lp Hlp. right. by apply H1.
  - intros q' [->|?]%elem_of_cons; auto.
Qed.

Lemma table_ok_new seen t q r :
  table_ok seen t → (∀ q', q' ∈ seen → ClientId q' = ClientId q → RequestId q' < RequestId q) →
  table_ok (q :: seen) (<[ClientId q := mkLastPut (RequestId q) r]> t).
Proof.
  intros [H1 H2] Hnew. split.
  - intros c lp [[<- <-]|[_ Hlp]]%lookup_insert_Some; [by destruct q; left|right; by apply H1].
  - intros q' [->|Hq']%elem_of_cons.
    + rewrite lookup_insert_eq. eexists. split; [done|]. cbn. lia.
    + destruct (H2 q' Hq') as (lp & Hlp & Hle).
      destruct (decide (ClientId q' = ClientId q)) as [E|E].
      * rewrite E, lookup_insert_eq. eexists. split; [done|]. cbn.
        specialize (Hnew q' Hq' E). lia.
      * rewrite lookup_insert_ne by done. eauto.
Qed.

(** One put: a repeated request changes nothing, a new one is executed. *)
Lemma doPut_dup seen m t p :
  table_ok seen t → put_info p ∈ seen →
  ∃ lp, t !! ClientId (put_info p) = Some lp ∧
        doPut (mkKVServer (Some m) (Some t)) p = Ret (mkKVServer (Some m) (Some t), lp_Reply lp).
Proof.
  intros [_ H2] Hin. destruct (H2 _ Hin) as (lp & Hlp & Hle). exists lp. split; [done|].
  unfold doPut. cbn. rewrite Hlp. by rewrite decide_True.
Qed.

Lemma doPut_new seen m t p :
  table_ok seen t →
  (∀ q, q ∈ seen → ClientId q = ClientId (put_info p) → RequestId q < RequestId (put_info p)) →
  doPut (mkKVServer (Some m) (Some t)) p = executePut (mkKVServer (Some m) (Some t)) p.
Proof.
  intros [H1 _] Hnew. unfold doPut. cbn. destruct (t !! ClientId (put_info p)) as [lp|] eqn:E; [|done].
  apply H1 in E. apply Hnew in E; [|done]. cbn in E. by rewrite decide_False by lia.
Qed.

Lemma firsts_ext ps seen seen' :
  (∀ q, q ∈ seen' ↔ q ∈ seen) → firsts seen' ps = firsts seen ps.
Proof.
  revert seen seen'. induction ps as [|x ps IH]; intros seen seen' Hsn; [done|].
  cbn. rewrite (decide_ext _ _ _ _ (Hsn (put_info x))). case_decide; [by apply IH|].
  f_equal. apply IH. intros q. by rewrite !elem_of_cons, Hsn.
Qed.

Lemma doAll_exactly_once log seen m t :
  table_ok seen t → serial seen (logPuts log) →
  ∃ t', doAll log (mkKVServer (Some m) (Some t)) =
        Ret (mkKVServer (Some (putAll m (firsts seen (logPuts log)))) (Some t')).
Proof.
  revert seen m t. induction log as [|r log IH]; intros seen m t Ht Hs; cbn [doAll]; [by exists t|].
  destruct r as [a|p|]; [by apply (IH seen)| |by apply (IH seen)].
  cbn -[doPut putAll]. cbn in Hs. destruct Hs as [Hp Hs].
  destruct (decide (put_info p ∈ seen)) as [Hin|Hin].
  - destruct (doPut_dup seen m t p Ht Hin) as (lp & _ & ->). cbn -[putAll].
    destruct (IH (put_info p :: seen) m t) as (t' & Heq); [by apply table_ok_dup|done|].
    exists t'. rewrite Heq. do 4 f_equal. apply firsts_ext. set_solver.
  - destruct Hp as [?|Hnew]; [done|].
    rewrite (doPut_new seen) by done. rewrite executePut_spec.
    destruct (kv_put m (put_Key p) (put_Value p) (put_Version p)) as [m' e] eqn:E.
    cbn -[putAll]. destruct (IH (put_info p :: seen) m' (<[ClientId (put_info p) :=
      mkLastPut (RequestId (put_info p)) (mkPutReply e)]> t)) as (t' & Heq); [|done|].
    { by apply table_ok_new. }
    exists t'. rewrite Heq. do 3 f_equal. unfold putAll. cbn [foldl]. by rewrite E.
Qed.

(** C15: Exactly once.  Whatever the log, however often clerks and leaders have
    repeated requests in it, as long as every client numbers its puts upwards
    and starts one only after the previous: executing the log does not panic,
    and the map it leaves is the one that executing each client's request once,
    at its first occurrence, leaves. *)
Theorem kv_exactly_once log :
  serial [] (logPuts log) →
  ∃ kv, doAll log emptyServer = Ret kv ∧ kvm kv = Some (putAll ∅ (firsts [] (logPuts log))).
Proof.
  intros Hs. destruct (doAll_exactly_once log [] ∅ ∅) as (t' & H); [|done|].
  - split; [intros c lp; by rewrite lookup_empty|intros q; set_solver].
  - eexists. split; [exact H|done].
Qed.

Definition put1 : PutArgs := mkPutArgs (mkRequestInfo 7 1) "k" "a" 0.
Definition put2 : PutArgs := mkPutArgs (mkRequestInfo 7 2) "k" "b" 1.
Definition sample_log : list Req :=
  [ReqPut put1; ReqPut put1; ReqGet (mkGetArgs "k"); ReqPut put2; ReqPut put1; ReqPut put2].

Lemma kv_exactly_once_witness : ∃ kv,
  doAll sample_log emptyServer = Ret kv ∧ kvm kv = Some (putAll ∅ [put1; put2]).
Proof.
  destruct (kv_exactly_once sample_log) as (kv & H1 & H2).
  - cbn. split_and!; try done; first [left; set_solver | right; set_solver by lia | idtac].
  - exists kv. split; [exact H1|]. rewrite H2. reflexivity.
Defined.

(** ** Retries *)

(** No newer put of client [c] in [log]. *)
Definition quiet (p : PutArgs) (log : list Req) : Prop :=
  ∀ q, q ∈ logPuts log → ClientId (put_info q) = ClientId (put_info p) →
    RequestId (put_info q) ≤ RequestId (put_info p).

Lemma DoOp_keeps_last p r rq kv kv' rep :
  map_get (lastPutByClientId kv) (ClientId (put_info p)) = Some (mkLastPut (RequestId (put_info p)) r) →
  quiet p [rq] → DoOp rq kv = Ret (kv', rep) →
  map_get (lastPutByClientId kv') (ClientId (put_info p)) = Some (mkLastPut (RequestId (put_info p)) r).
Proof.
  intros Hl Hq H. destruct rq as [a|q|]; cbn in H; [by simplify_eq| |by simplify_eq].
  apply bind_ret_inv in H as ([kv1 r1] & H & [= <- <-]). unfold doPut in H.
  assert (ClientId (put_info q) = ClientId (put_info p) →
    RequestId (put_info q) ≤ RequestId (put_info p)) as Hle by (apply Hq; set_solver).
  destruct (decide (ClientId (put_info q) = ClientId (put_info p))) as [E|E].
  - rewrite E, Hl, decide_True in H by (cbn; lia). by simplify_eq.
  - assert (executePut kv q = Ret (kv1, r1) ∨ kv1 = kv) as [Hex| ->]; [| |done].
    { destruct (map_get _ (ClientId (put_info q))); [case_decide|]; [right|left|left]; congruence. }
    unfold executePut in Hex. apply bind_ret_inv in Hex as ([m' r'] & _ & Hex).
    apply bind_ret_inv in Hex as (t & Ht & [= <- <-]). cbn.
    destruct (lastPutByClientId kv) as [t0|]; [|done]. injection Ht as <-.
    cbn in *. by rewrite lookup_insert_ne.
Qed.

Lemma doAll_keeps_last p r log kv kv' :
  map_get (lastPutByClientId kv) (ClientId (put_info p)) = Some (mkLastPut (RequestId (put_info p)) r) →
  quiet p log → doAll log kv = Ret kv' →
  map_get (lastPutByClientId kv') (ClientId (put_info p)) = Some (mkLastPut (RequestId (put_info p)) r).
Proof.
  revert kv. induction log as [|rq log IH]; intros kv Hl Hq H; cbn in H; [by simplify_eq|].
  apply bind_ret_inv in H as ([kv1 rep] & Hdo & H).
  assert (quiet p [rq] ∧ quiet p log) as [Hq1 Hq2].
  { unfold quiet, logPuts in *. destruct rq; cbn in *; split; intros x Hx; apply Hq; set_solver. }
  eapply IH; [|exact Hq2|exact H]. by eapply DoOp_keeps_last.
Qed.

Lemma doPut_new_last kv p kv' r :
  (∀ lp, map_get (lastPutByClientId kv) (ClientId (put_info p)) = Some lp →
     lp_RequestId lp < RequestId (put_info p)) →
  doPut kv p = Ret (kv', r) →
  map_get (lastPutByClientId kv') (ClientId (put_info p)) = Some (mkLastPut (RequestId (put_info p)) r).
Proof.
  intros Hnew H. assert (executePut kv p = Ret (kv', r)) as Hex.
  { unfold doPut in H. destruct (map_get _ (ClientId (put_info p))) as [lp|]; [|done]. specialize (Hnew lp eq_refl).
    by rewrite decide_False in H by lia. }
  unfold executePut in Hex. apply bind_ret_inv in Hex as ([m' r'] & _ & Hex).
  apply bind_ret_inv in Hex as (t & Ht & [= <- <-]). cbn.
  destruct (lastPutByClientId kv) as [t0|]; [|done]. injection Ht as <-. apply lookup_insert_eq.
Qed.

(** A retry gets the reply of the execution.  If a put newer than its
    client's previous ones is executed with reply [r], then after any further
    requests, as long as the client has not started another put, executing the
    same put again returns [r] and changes nothing. *)
Theorem kv_retry_same_reply kv p kv1 r log kv2 :
  (∀ lp, map_get (lastPutByClientId kv) (ClientId (put_info p)) = Some lp →
     lp_RequestId lp < RequestId (put_info p)) →
  DoOp (ReqPut p) kv = Ret (kv1, RepPut r) → quiet p log → doAll log kv1 = Ret kv2 →
  DoOp (ReqPut p) kv2 = Ret (kv2, RepPut r).
Proof.
  intros Hnew H Hq Hall. cbn in H. apply bind_ret_inv in H as ([kv' r'] & H & [= <- <-]).
  pose proof (doAll_keeps_last _ _ _ _ _ (doPut_new_last _ _ _ _ Hnew H) Hq Hall) as Hl.
  cbn. unfold doPut. rewrite Hl. rewrite decide_True by (cbn; lia). done.
Qed.

Lemma kv_retry_same_reply_witness : ∃ kv1 kv2,
  DoOp (ReqPut put1) emptyServer = Ret (kv1, RepPut (mkPutReply OK)) ∧
  doAll [ReqPut (mkPutArgs (mkRequestInfo 8 1) "k" "z" 1); ReqPut put1] kv1 = Ret kv2 ∧
  DoOp (ReqPut put1) kv2 = Ret (kv2, RepPut (mkPutReply OK)).
Proof.
  eexists _, _. split; [reflexivity|]. split; [vm_compute; reflexivity|].
  refine (kv_retry_same_reply emptyServer put1 _ (mkPutReply OK)
    [ReqPut (mkPutArgs (mkRequestInfo 8 1) "k" "z" 1); ReqPut put1] _ _ eq_refl _ _).
  - intros lp H. discriminate H.
  - intros q [->|[->|Hq]%elem_of_cons]%elem_of_cons; cbn; try lia. set_solver.
  - vm_compute. reflexivity.
Defined.

(** ** Restarts *)

Section restarts.
Context `{!Codec SnapshotData, !RaftApi R (Op Req)}.

(** The snapshot was taken of a running server, or there is none. *)
Definition savedServer (data : bytes) kv : Prop :=
  (data = [] ∧ kv = emptyServer) ∨ (made kv ∧ data = Snapshot kv).

Lemma Restore_saved kv kv0 : made kv → Restore (Snapshot kv) kv0 = Ret kv.
Proof.
  intros Hm. destruct (sm_Restore_Snapshot (StateMachineLaws := kv_state_machine_laws) kv kv0 Hm)
    as (kv' & Hr & _ & Heq). cbn in Heq. by subst.
Qed.

(** A restarted server has its state back.  If the persister holds no
    snapshot, StartKVServer makes a server with empty maps; if it holds the
    snapshot of a server, the new server has that server's map and table of
    last puts.  In both cases both maps are made, so that no later write can
    hit a nil map. *)
Theorem StartKVServer_restores n me ps max (rf1 : R) kv :
  savedServer (ReadSnapshot ps) kv → api_Make n me ps = Ret rf1 →
  ∃ rsm, StartKVServer n me ps max = Ret rsm ∧ sm rsm = kv ∧ made (sm rsm) ∧
         submits rsm = [] ∧ resultByCommandId rsm = ∅.
Proof.
  intros Hs Hrf. unfold StartKVServer, MakeRSM. rewrite Hrf.
  destruct Hs as [[Hd ->]|[[[m Hm] [t Ht]] Hd]]; rewrite Hd.
  - cbn. eexists. split_and!; try done.
  - rewrite decide_True.
    + change (sm_Restore (Snapshot kv) nilServer) with (Restore (Snapshot kv) nilServer).
      rewrite Restore_saved by (split; by eexists). cbn.
      rewrite decide_False by (rewrite Hm; done).
      eexists. split_and!; try done; by eexists.
    + pose proof (enc_nonempty (mkSnapshotData (map_copy (kvm kv)) (map_copy (lastPutByClientId kv)))) as Hne.
      unfold Snapshot. destruct (enc _); [done|]. unfold zlen. cbn. lia.
Qed.
End restarts.

(** ** The clerk *)

Section clerk.
Context {Reply : Type} (reply_Err : Reply → Err) (classify : Err → Verdict).

(** Servers are tried in turn from [leader]; an answer comes from the last one
    tried; the loop panics only on an error outside the protocol, and goes on
    only while it has been told nothing but to retry. *)
Record loop_ok (n leader : Z) (net : list (option Reply))
    (res : outcome (option (Reply * Z))) (called : list Z) : Prop := {
  lo_called k i : called !! k = Some i → i = (leader + Z.of_nat k) mod n;
  lo_answer reply l : res = Ret (Some (reply, l)) →
    0 ≤ l < n ∧ Some reply ∈ net ∧ classify (reply_Err reply) = Answer ∧ last called = Some l;
  lo_panic f : res = Panic f →
    ∃ reply, Some reply ∈ net ∧ classify (reply_Err reply) = Undefined;
  lo_running : res = Ret None → length called = length net ∧
    ∀ reply, Some reply ∈ net → classify (reply_Err reply) = Retry;
}.

Lemma loop_ok_again n leader net r res called :
  0 ≤ leader < n → (∀ reply, r = Some reply → classify (reply_Err reply) = Retry) →
  loop_ok n ((leader + 1) `rem` n) net res called →
  loop_ok n leader (r :: net) res (leader :: called).
Proof.
  intros Hl Hr []. split.
  - intros [|k] i Hk; cbn in Hk.
    + injection Hk as <-. rewrite Z.add_0_r, Z.mod_small; lia.
    + apply lo_called0 in Hk. rewrite Hk, Z.rem_mod_nonneg, Zplus_mod_idemp_l by lia.
      f_equal. lia.
  - intros reply l (? & ? & ? & Hlast)%lo_answer0. split_and!; try lia; try done; [by right|].
    by rewrite last_cons, Hlast.
  - intros f (reply & ? & ?)%lo_panic0. exists reply. split; [by right|done].
  - intros [Hlen Hall]%lo_running0. split; [cbn; lia|].
    intros reply [<-|?]%elem_of_cons; auto.
Qed.

Lemma retryLoop_ok n leader net :
  0 ≤ leader < n →
  let '(res, called) := retryLoop reply_Err classify n leader net in
  loop_ok n leader net res called.
Proof.
  revert leader. induction net as [|r net IH]; intros leader Hl; cbn.
  { split; try done. intros _. split; [done|]. intros reply. set_solver. }
  assert (0 ≤ (leader + 1) `rem` n < n) as Hl'.
  { rewrite Z.rem_mod_nonneg by lia. apply Z.mod_pos_bound. lia. }
  specialize (IH _ Hl'). destruct (retryLoop _ _ n _ net) as [res called].
  assert (∀ k i, [leader] !! k = Some i → i = (leader + Z.of_nat k) mod n) as Hone.
  { intros [|k] i Hk; [|done]. cbn in Hk. injection Hk as <-. rewrite Z.add_0_r, Z.mod_small; lia. }
  destruct r as [reply|]; [|by apply loop_ok_again].
  destruct (classify (reply_Err reply)) eqn:Ec.
  - split; try done. intros reply' l [= <- <-]. split_and!; try done; try lia. by left.
  - apply loop_ok_again; [done| |done]. by intros ? [= <-].
  - split; try done. intros f _. exists reply. split; [by left|done].
Qed.
End clerk.

(** The clerk's Put.  Given replies of the errors the server's Put handler
    produces, the retry loop never panics; it goes on exactly as long as it is
    told ErrWrongLeader or nothing; it returns the error of a reply it got,
    never ErrWrongLeader, and remembers a server index in range; the request id
    went up by one (modulo 2^64), and the k-th call goes to the k-th server
    after the remembered leader, so any run of as many attempts as there are
    servers reaches all of them. *)
Theorem clerk_put_answers ck key value version (net : list (option PutReply)) :
  0 ≤ ck_leader ck < ck_servers ck →
  (∀ r, Some r ∈ net → put_Err r ∈ [OK; ErrNoKey; ErrVersion; ErrWrongLeader]) →
  (∀ k i, (retryLoop put_Err classifyPut (ck_servers ck) (ck_leader ck) net).2 !! k = Some i →
     i = (ck_leader ck + Z.of_nat k) mod ck_servers ck) ∧
  match Clerk_Put ck key value version net with
  | Panic _ => False
  | Ret None => ∀ r, Some r ∈ net → put_Err r = ErrWrongLeader
  | Ret (Some (e, ck')) =>
      e ≠ ErrWrongLeader ∧ (∃ r, Some r ∈ net ∧ put_Err r = e) ∧
      0 ≤ ck_leader ck' < ck_servers ck' ∧ ck_clientId ck' = ck_clientId ck ∧
      ck_requestId ck' = u64_add (ck_requestId ck) 1
  end.
Proof.
  intros Hl Herr. unfold Clerk_Put. cbn -[retryLoop].
  pose proof (retryLoop_ok put_Err classifyPut (ck_servers ck) (ck_leader ck) net Hl) as H.
  destruct (retryLoop put_Err classifyPut (ck_servers ck) (ck_leader ck) net) as [res called].
  destruct H. split; [done|]. cbn. destruct res as [[[r l]|]|f]; cbn.
  - destruct (lo_answer0 r l eq_refl) as (? & Hin & Hc & _). split_and!; try done; try lia.
    + by destruct (put_Err r).
    + by exists r.
  - intros r Hin. destruct (lo_running0 eq_refl) as [_ Hall]. specialize (Hall r Hin).
    by destruct (put_Err r).
  - destruct (lo_panic0 f eq_refl) as (r & Hin & Hu). apply Herr in Hin.
    destruct (put_Err r); try done; set_solver.
Qed.

Lemma clerk_put_answers_witness :
  match Clerk_Put (MakeClerk 3 99) "k" "v" 0 [None; Some (mkPutReply ErrWrongLeader); Some (mkPutReply OK)] with
  | Ret (Some (e, ck')) => e = OK ∧ 0 ≤ ck_leader ck' < ck_servers ck'
  | _ => False
  end.
Proof.
  pose proof (clerk_put_answers (MakeClerk 3 99) "k" "v" 0
    [None; Some (mkPutReply ErrWrongLeader); Some (mkPutReply OK)]) as H.
  destruct H as [_ H]; [cbn; lia|set_solver|]. cbn in H |- *.
  split; [reflexivity|]. apply H.
Defined.

Lemma backoff_returns b retry rnd :
  2 ≤ b ≤ maxBackoff →
  ∃ ms, backoffWithJitter b retry rnd = Ret ms ∧ b `div` 2 ≤ ms < maxBackoff.
Proof.
  intros Hb. assert (∀ c, b ≤ c → b ≤ doubleBackoff retry c) as Hd.
  { induction retry as [|retry IH]; intros c Hc; cbn; [done|]. case_decide; [apply IH; lia|done]. }
  specialize (Hd b ltac:(lia)). unfold backoffWithJitter, maxBackoff in *.
  set (bo := Z.min 2000 (doubleBackoff retry b)) in *.
  assert (1 ≤ b `div` 2 ≤ bo `quot` 2 ∧ bo `quot` 2 ≤ 1000) as Hq.
  { rewrite Z.quot_div_nonneg by lia. split_and!; [apply Z.div_le_lower_bound; lia|
      apply Z.div_le_mono; lia|apply Z.div_le_upper_bound; lia]. }
  rewrite decide_False by lia. eexists. split; [done|].
  pose proof (Z.mod_pos_bound rnd (bo `quot` 2)). lia.
Qed.

(** The clerk's backoff is bounded.  After any number of retries the sleep
    is between half of the backoff time and two seconds, and the call to Int63n
    never gets a non-positive bound. *)
Theorem backoff_bounded retry rnd :
  ∃ ms, backoffWithJitter 100 retry rnd = Ret ms ∧ 50 ≤ ms < maxBackoff.
Proof. apply (backoff_returns 100). unfold maxBackoff. lia. Qed.
