(* ===== verification/RsmRuns.v ===== *)
(** * RsmRuns: executions of the replicated state machine under the key/value
    service

    [Submit] recognises its operation by the operation id alone, a counter
    every server starts at 0, so the operation of another server at the same
    index can pass for its own.  [readApply] sends to the result channels
    while it holds [rsm.mu], so it can wait for a call of [Submit] that waits
    for the mutex.  Both are shown on the service of [KvRaft] over a Raft peer
    of [Raft]. *)

From S2P Require Import Prelude RpcApi KvSpec KvStore Persister Raft Rsm RsmFacts KvRaft KvRaftFacts.

#[local] Instance snapshot_codec : Codec SnapshotData := countable_codec.
#[local] Instance op_codec : Codec (PersistedState (Op Req)) := countable_codec.

Abbreviation Server := (@RSM KVServer Req Rep (Raft (Op Req))).
Abbreviation ServerStep := (@Step Req (Raft (Op Req))).

(** The Raft peer of server [me] of three, as leader of term 1, as follower of
    term 2. *)
Definition leading (me : Z) (l : list (LogEntry (Op Req))) : Raft (Op Req) :=
  set_state leader (set_CurrentTerm 1 (set_Log l (freshRaft 3 me 0 MakePersister))).
Definition following (me : Z) (l : list (LogEntry (Op Req))) : Raft (Op Req) :=
  set_CurrentTerm 2 (set_Log l (freshRaft 3 me 0 MakePersister)).
Definition dummyEntry : LogEntry (Op Req) := mkEntry 0 None.

Definition runServer (me : Z) (ls : list ServerStep) : option Server :=
  s ← Rsm.ok (StartKVServer 3 me MakePersister (-1)); rsm_run ls s.

(** ** Another server's operation *)

Definition myPut : PutArgs := mkPutArgs (mkRequestInfo 100 1) "x" "mine" 0.
Definition otherPut : PutArgs := mkPutArgs (mkRequestInfo 200 1) "y" "other" 0.

(** Server 1's first operation, which replaced server 0's at index 1. *)
Definition otherOp : Op Req := mkOp 1 1 (ReqPut otherPut).

(** Server 0 leads term 1 and starts the request at index 1, loses leadership,
    and is handed the operation that server 1 committed there. *)
Definition overtaken (req : Req) : list ServerStep :=
  [SRaft (leading 0 [dummyEntry]); SSubmit req; SCheck 0; SStart 0;
   SRaft (following 0 [dummyEntry; mkEntry 2 (Some otherOp)]);
   SApply (CommandMsg (Some otherOp) 1) []; SLookup; SSend; SReceive 0; SFinish 0].

Definition verdict (s : Server) : option (Op Req * Err * option Rep) :=
  c ← submits s !! 0%nat;
  match sb_pc c with Done e v => Some (sb_op c, e, v) | _ => None end.

(** Submit can report another server's operation as its own.  Server 0
    starts a put of key x at index 1; server 1's put of key y is committed at
    that index instead, and the log server 0 is handed is exactly that one
    operation.  Submit on server 0 returns OK with the result of the other put,
    and its handler tells the client OK although its put is not in the log. *)
Theorem submit_confuses_operations :
  ∃ s, runServer 0 (overtaken (ReqPut myPut)) = Some s ∧
    delivers [otherOp] emptyServer 0 (received (overtaken (ReqPut myPut))) 1 ∧
    verdict s = Some (mkOp 0 1 (ReqPut myPut), OK, Some (RepPut (mkPutReply OK))) ∧
    PutHandler (OK, Some (RepPut (mkPutReply OK))) = Ret (mkPutReply OK) ∧
    map_get (kvm (sm s)) "x" = None.
Proof.
  destruct (runServer 0 (overtaken (ReqPut myPut))) as [s|] eqn:E; [|vm_compute in E; discriminate E].
  exists s. vm_compute in E. injection E as <-.
  split; [reflexivity|]. split; [|split; [|split]; reflexivity].
  by apply (del_cmd [otherOp] emptyServer 0 otherOp [] 1); [|apply del_nil].
Qed.

(** ... and stop the server.  If the call waiting at that index is a Get,
    its handler's type assertion fails on the other server's put reply. *)
Theorem confused_get_panics :
  ∃ s, runServer 0 (overtaken (ReqGet (mkGetArgs "x"))) = Some s ∧
    ∃ op v, verdict s = Some (op, OK, v) ∧ GetHandler (OK, v) zeroGetReply = Panic TypeAssertion.
Proof.
  destruct (runServer 0 (overtaken (ReqGet (mkGetArgs "x")))) as [s|] eqn:E;
    [|vm_compute in E; discriminate E].
  exists s. vm_compute in E. injection E as <-. split; [reflexivity|].
  eexists _, _. split; vm_compute; reflexivity.
Qed.

(** ** A deadlock *)

(** [readApply] waits on the full channel [ch] with the mutex, and no call
    receives from it. *)
Definition stuck (s : Server) : Prop :=
  ∃ ch chs res, reader s = Expiring (ch :: chs) ∧ chans s !! ch = Some (Some res) ∧
    ∀ t c i term, submits s !! t = Some c → sb_pc c ≠ Waiting i term ch.

Lemma stuck_pc ch t pc (s : Server) :
  (∀ i term, pc ≠ Waiting i term ch) →
  (∀ t c i term, submits s !! t = Some c → sb_pc c ≠ Waiting i term ch) →
  ∀ t' c i term, submits (set_pc t pc s) !! t' = Some c → sb_pc c ≠ Waiting i term ch.
Proof.
  intros Hpc H t' c i term. cbn. destruct (decide (t = t')) as [<-|].
  - rewrite list_lookup_alter_eq. intros (c0 & _ & ->)%fmap_Some. apply Hpc.
  - rewrite list_lookup_alter_ne by done. apply H.
Qed.

Lemma stuck_step l s s' :
  stuck s → rsm_step l s = Some s' → stuck s' ∧ reader s' = reader s ∧ sm s' = sm s.
Proof.
  intros (ch & chs & res & Hr & Hch & Hw) H.
  assert (¬ mu_free s) as Hmu by (unfold mu_free; rewrite Hr; tauto).
  assert (∀ t pc, (∀ i term, pc ≠ Waiting i term ch) → set_pc t pc s = s' →
    stuck s' ∧ reader s' = reader s ∧ sm s' = sm s) as Hpc.
  { intros t pc Hp <-. split; [|done]. exists ch, chs, res. split_and!; try done.
    by apply stuck_pc. }
  destruct l as [rf'|req|t|t|t deadline|t|t|t|msg order| | |]; cbn [rsm_step] in H.
  - simplify_eq. split; [|done]. by exists ch, chs, res.
  - simplify_eq. split; [|done]. exists ch, chs, res. split_and!; try done.
    intros t c i term [Hc|[_ Hc]]%lookup_app_Some; [by eapply Hw|].
    apply list_lookup_singleton_Some in Hc as [_ <-]. done.
  - apply bind_Some in H as (c & Hc & H). destruct (sb_pc c); try done. injection H as H.
    unfold submitCheck in H. destruct (api_GetState (rf s)).2; eapply Hpc, H; done.
  - by apply bind_Some in H as (? & _ & H).
  - apply bind_Some in H as (c & Hc & H). destruct (sb_pc c); try done. injection H as H.
    unfold submitPoll in H. destruct (api_GetState (rf s)). case_decide; [eapply Hpc, H; done|].
    simplify_eq. split; [|done]. by exists ch, chs, res.
  - apply bind_Some in H as (c & Hc & H). destruct (sb_pc c) as [| |i term ch'| | |] eqn:Ep; try done.
    destruct (chans s !! ch') as [[r|]|] eqn:Ec; try done. simplify_eq. split; [|done].
    assert (ch' ≠ ch) by (intros ->; by eapply Hw).
    exists ch, chs, res. split_and!; try done; cbn.
    + by rewrite list_lookup_insert_ne.
    + by apply (stuck_pc ch t (Received i r) (set_chans (<[ch':=None]> (chans s)) s)).
  - apply bind_Some in H as (? & _ & H). apply bind_Some in H as (c & Hc & H).
    destruct (sb_pc c); try done. injection H as H. eapply Hpc, H; done.
  - by apply bind_Some in H as (? & _ & H).
  - cbn in H. rewrite Hr in H. by destruct msg as [[]|].
  - cbn in H. by rewrite Hr in H.
  - cbn in H. rewrite Hr in H. unfold send in H. cbn in H. by rewrite Hch in H.
  - cbn in H. by rewrite Hr in H.
Qed.

(** Server 0 submits a put at index 1.  It is applied and its result is in the
    channel when the poll of [Submit] finds leadership lost and goes for the
    mutex; a snapshot for index 4 arrives and takes the mutex first. *)
Definition deadlocking : list ServerStep :=
  [SRaft (leading 0 [dummyEntry]); SSubmit (ReqPut myPut); SCheck 0; SStart 0;
   SRaft (following 0 [dummyEntry; mkEntry 1 (Some (mkOp 0 1 (ReqPut myPut)))]);
   SApply (CommandMsg (Some (mkOp 0 1 (ReqPut myPut))) 1) []; SLookup; SSend; SPoll 0 false;
   SApply (SnapshotMsg (Snapshot emptyServer) 2 4) [1]].

Definition deadlock_view (s : Server) :=
  (match reader s with Expiring [0%nat] => true | _ => false end,
   match chans s with [Some _] => true | _ => false end,
   match submits s with [c] => match sb_pc c with GivingUp _ => true | _ => false end | _ => false end).

(** A snapshot can deadlock the server.  An execution reaches a state in
    which readApply holds the mutex and waits to send to a full result channel,
    while the only call that would empty it waits for the mutex: from then on,
    whatever happens, readApply stays where it is and the service applies no
    further operation. *)
Theorem rsm_can_deadlock :
  ∃ s, runServer 0 deadlocking = Some s ∧
    (∃ ch chs, reader s = Expiring (ch :: chs)) ∧
    ∀ ls s', rsm_run ls s = Some s' → reader s' = reader s ∧ sm s' = sm s.
Proof.
  assert (deadlock_view <$> runServer 0 deadlocking = Some (true, true, true)) as H
    by (vm_compute; reflexivity).
  destruct (runServer 0 deadlocking) as [s|]; [|discriminate H].
  injection H as Hr Hc Hs. exists s. split; [reflexivity|].
  assert (stuck s) as Hstuck.
  { destruct (reader s) as [| | |[|[|] []]|] eqn:Er; try discriminate Hr.
    destruct (chans s) as [|[res|] []] eqn:Ec; try discriminate Hc.
    destruct (submits s) as [|c []] eqn:Es; try discriminate Hs.
    exists 0%nat, [], res. rewrite Er, Ec, Es. split_and!; try done.
    intros [|t] c' i term; [|done]. intros [= <-] Hpc. by rewrite Hpc in Hs. }
  split; [by destruct Hstuck as (ch & chs & _ & ? & _); eauto|].
  intros ls. clear Hr Hc Hs. revert s Hstuck.
  induction ls as [|l ls IH]; intros s Hstuck s'; cbn.
  - by intros [= <-].
  - intros (s1 & Hs1 & Hrun)%bind_Some. destruct (stuck_step _ _ _ Hstuck Hs1) as (Hst & Hr1 & Hsm1).
    destruct (IH _ Hst _ Hrun). by rewrite <-Hr1, <-Hsm1.
Qed.

(** ** The contracts of RsmFacts at work *)

Definition startServer (me : Z) : outcome Server := MakeRSM 3 me MakePersister (-1) emptyServer.

Definition myOp : Op Req := mkOp 0 1 (ReqPut myPut).

(** Server 0 commits its own put. *)
Definition committed : list ServerStep :=
  [SRaft (leading 0 [dummyEntry]); SSubmit (ReqPut myPut); SCheck 0; SStart 0;
   SApply (CommandMsg (Some myOp) 1) []; SLookup; SSend; SReceive 0; SFinish 0].

Lemma replica_follows_log_witness :
  ∃ s0 s, startServer 0 = Ret s0 ∧ rsm_run committed s0 = Some s ∧
    ∃ st, exec [myOp] emptyServer = Ret st ∧ sm s = st.
Proof.
  destruct (startServer 0) as [s0|] eqn:E0; [|discriminate E0].
  destruct (rsm_run committed s0) as [s|] eqn:E.
  2: { vm_compute in E0. injection E0 as <-. vm_compute in E. discriminate E. }
  exists s0, s. split; [reflexivity|]. split; [exact E|].
  refine (replica_follows_log [myOp] emptyServer 3 0 MakePersister (-1) s0 s committed 0 1 _ _ _ E0 E _).
  - split; eexists; reflexivity.
  - repeat constructor.
  - left. split; reflexivity.
  - apply (del_cmd [myOp] emptyServer 0 myOp [] 1); [reflexivity|apply del_nil].
Defined.

Lemma submit_ok_sound_witness :
  ∃ s0 s c, startServer 0 = Ret s0 ∧ rsm_run committed s0 = Some s ∧ submits s !! 0%nat = Some c ∧
    ∃ ls1 op idx order ls2, committed = ls1 ++ SApply (CommandMsg (Some op) idx) order :: ls2 ∧
      op_Id op = op_Id (sb_op c).
Proof.
  destruct (startServer 0) as [s0|] eqn:E0; [|discriminate E0].
  destruct (rsm_run committed s0) as [s|] eqn:E.
  2: { vm_compute in E0. injection E0 as <-. vm_compute in E. discriminate E. }
  assert (submits s = [mkSubmit myOp (Done OK (Some (RepPut (mkPutReply OK))))]) as Hs.
  { vm_compute in E0. injection E0 as <-. vm_compute in E. injection E as <-. reflexivity. }
  exists s0, s, (mkSubmit myOp (Done OK (Some (RepPut (mkPutReply OK))))). rewrite Hs.
  split; [reflexivity|]. split; [exact E|]. split; [reflexivity|].
  destruct (submit_ok_sound 3 0 MakePersister (-1) emptyServer s0 s committed 0
    (mkSubmit myOp (Done OK (Some (RepPut (mkPutReply OK))))) (Some (RepPut (mkPutReply OK))) E0 E)
    as (ls1 & op & idx & order & ls2 & _ & _ & _ & H1 & _ & H2 & _).
  - rewrite Hs. reflexivity.
  - reflexivity.
  - exists ls1, op, idx, order, ls2. split; assumption.
Defined.

Lemma StartKVServer_restores_witness :
  ∃ rsm : Server, StartKVServer 3 0 (mkPersister [] (Snapshot emptyServer)) (-1) = Ret rsm ∧
    sm rsm = emptyServer.
Proof.
  destruct (StartKVServer_restores (R := Raft (Op Req)) 3 0 (mkPersister [] (Snapshot emptyServer)) (-1)
    (freshRaft 3 0 0 (mkPersister [] (Snapshot emptyServer))) emptyServer) as (rsm & H1 & H2 & _).
  - right. split; [split; eexists; reflexivity|]. vm_compute. reflexivity.
  - vm_compute. reflexivity.
  - exists rsm. split; assumption.
Defined.
