(* ===== verification/ReplicaRuns.v ===== *)
(** * ReplicaRuns: executions of three replicated key/value servers

    The composition of [Replicas] with the service of [KvRaft], from servers
    that have never run: one server executes a command and another one installs
    the snapshot of it; and a put that is acknowledged and lost. *)

From S2P Require Import Prelude RpcApi KvSpec KvStore Persister Raft RaftNet RaftCommit Rsm KvRaft Replicas.

#[local] Instance rr_snapshot_codec : Codec SnapshotData := countable_codec.
#[local] Instance rr_op_codec : Codec (PersistedState (Op Req)) := countable_codec.

Abbreviation KvWorld := (@World KVServer Req Rep).
Abbreviation KvLabel := (@WLabel Req).

Section runs.
Context (maxraft : Z).

(** Runs the labels, refusing a stale reply. *)
Fixpoint wrun (ls : list KvLabel) (w : KvWorld) : option KvWorld :=
  match ls with
  | [] => Some w
  | l :: ls =>
      guard (match l with WNet l => fresh_label l (w_net w) | _ => true end = true);;
      w ← wstep emptyServer maxraft l w; wrun ls w
  end.

Lemma wrun_rtc ls w w' : wrun ls w = Some w' → rtc (world_step emptyServer maxraft) w w'.
Proof.
  revert w. induction ls as [|l ls IH]; intros w; cbn.
  - by intros [= ->].
  - intros (Hf & _ & H)%bind_Some. apply bind_Some in H as (w1 & Hs & H).
    eapply rtc_l; [|by apply IH]. exists l. split; [|done]. destruct l as [| | | |i st|]; try done.
    by destruct st.
Qed.
End runs.

(** What is seen of server [i]: the index it is at, its map, and its calls. *)
Definition seen (i : nat) (w : KvWorld) :=
  sv ← w_srv w !! i;
  Some (sv_idx sv, sm (sv_rsm sv), (λ c, (op_Req (sb_op c), match sb_pc c with Done e v => Some (e, v) | _ => None end))
          <$> submits (sv_rsm sv)).

Definition peer (ls : list (@Label (Op Req))) : list KvLabel := WNet <$> ls.
Definition threads (i : nat) (sts : list (@Step Req (Raft (Op Req)))) : list KvLabel := WThread i <$> sts.

(** ** A snapshot overtakes a command *)

Definition putX : PutArgs := mkPutArgs (mkRequestInfo 100 1) "x" "one" 0.

(** Server 0 is elected, commits a put with server 1, executes it and takes a
    snapshot (every state is large enough with a limit of one byte). *)
Definition executes : list KvLabel :=
  peer [LElect 0 0; LDeliver 0 0; LReply 0 0] ++
  threads 0 [SSubmit (ReqPut putX); SCheck 0; SStart 0] ++
  peer [LReplicate 0 1; LDeliver 2 0; LReply 2 0; LApplyTake 0] ++ [WHand 0; WProcess 0 []; WDone 0].

(** Server 2 missed the put and gets the snapshot. *)
Definition installs : list KvLabel :=
  peer [LReplicate 0 2; LDeliver 3 0; LApplyTake 2] ++ [WHand 2; WProcess 2 []].

Definition serverX : KVServer :=
  mkKVServer (Some {["x" := mkVV "one" 1]}) (Some {[100 := mkLastPut 1 (mkPutReply OK)]}).

Lemma snapshot_run :
  (w1 ← wrun 1 executes (world_init emptyServer 1 3); w2 ← wrun 1 installs w1;
   Some (seen 0 w1, seen 2 w2)) =
  Some (Some (1, serverX, [(ReqPut putX, None)]), Some (1, serverX, [])).
Proof. vm_compute. reflexivity. Qed.

Lemma snapshot_worlds : ∃ w1 w2 sv0 sv2,
  world_reachable emptyServer 1 3 w1 ∧ rtc (world_step emptyServer 1) w1 w2 ∧
  w_srv w1 !! 0%nat = Some sv0 ∧ w_srv w2 !! 2%nat = Some sv2 ∧
  sv_idx sv0 = 1 ∧ sv_idx sv2 = 1 ∧ sm (sv_rsm sv0) = serverX.
Proof.
  pose proof snapshot_run as H. apply bind_Some in H as (w1 & H1 & H).
  apply bind_Some in H as (w2 & H2 & H). unfold seen in H.
  destruct (w_srv w1 !! 0%nat) as [sv0|] eqn:E0; [|discriminate H].
  destruct (w_srv w2 !! 2%nat) as [sv2|] eqn:E2; [|discriminate H].
  cbn [mbind option_bind] in H. injection H as I0 S0 _ I2 _ _.
  apply wrun_rtc in H1, H2. exists w1, w2, sv0, sv2. split_and!; assumption.
Qed.

Lemma replicas_agree_witness : ∃ w1 w2 sv0 sv2,
  world_reachable emptyServer 1 3 w1 ∧ rtc (world_step emptyServer 1) w1 w2 ∧
  w_srv w1 !! 0%nat = Some sv0 ∧ w_srv w2 !! 2%nat = Some sv2 ∧ sm (sv_rsm sv0) = serverX ∧
  sm (sv_rsm sv0) = sm (sv_rsm sv2).
Proof.
  destruct snapshot_worlds as (w1 & w2 & sv0 & sv2 & H1 & H2 & E0 & E2 & I0 & I2 & S0).
  exists w1, w2, sv0, sv2. do 5 (split; [assumption|]).
  refine (replicas_agree emptyServer 1 3 w1 w2 0 2 sv0 sv2 _ H1 H2 E0 E2 _).
  - split; eexists; reflexivity.
  - rewrite I0, I2. reflexivity.
Defined.

(** Server 0 then answers its client. *)
Definition answers : list KvLabel := threads 0 [SLookup; SSend; SReceive 0; SFinish 0].

Lemma answered_run :
  (w1 ← wrun 1 (executes ++ answers) (world_init emptyServer 1 3); w2 ← wrun 1 installs w1;
   Some (seen 0 w1, seen 2 w2)) =
  Some (Some (1, serverX, [(ReqPut putX, Some (OK, Some (RepPut (mkPutReply OK))))]), Some (1, serverX, [])).
Proof. vm_compute. reflexivity. Qed.

Lemma one_log_explains_witness : ∃ w1 w2 log1 log2,
  seen 0 w1 = Some (1, serverX, [(ReqPut putX, Some (OK, Some (RepPut (mkPutReply OK))))]) ∧
  seen 2 w2 = Some (1, serverX, []) ∧
  log1 `prefix_of` log2 ∧ explains emptyServer log1 w1 ∧ explains emptyServer log2 w2.
Proof.
  pose proof answered_run as H. apply bind_Some in H as (w1 & H1 & H).
  apply bind_Some in H as (w2 & H2 & H). injection H as S1 S2. apply wrun_rtc in H1, H2.
  assert (sm_ok (Req := Req) (Rep := Rep) emptyServer) as Hok by (split; eexists; reflexivity).
  destruct (one_log_explains emptyServer 1 3 w1 w2 Hok H1 H2) as (log1 & log2 & Hp & He1 & He2 & _).
  exists w1, w2, log1, log2. split_and!; assumption.
Defined.




(** ** An acknowledged put is lost *)

Definition putY : PutArgs := mkPutArgs (mkRequestInfo 200 1) "y" "two" 0.

(** Server 0 starts a put at index 1 and is cut off; server 1 is elected and
    commits another put there with server 2, which server 0 then receives. *)
Definition loses : list KvLabel :=
  peer [LElect 0 0; LDeliver 0 0; LReply 0 0] ++
  threads 0 [SSubmit (ReqPut putX); SCheck 0; SStart 0] ++
  peer [LElect 1 0; LDeliver 3 0; LReply 3 0] ++
  threads 1 [SSubmit (ReqPut putY); SCheck 0; SStart 0] ++
  peer [LReplicate 1 2; LDeliver 4 0; LReply 4 0; LReplicate 1 0; LDeliver 5 0; LApplyTake 0] ++
  [WHand 0; WProcess 0 []] ++ threads 0 [SLookup; SSend; SReceive 0; SFinish 0] ++
  peer [LApplyTake 1] ++ [WHand 1; WProcess 1 []].

Definition serverY : KVServer :=
  mkKVServer (Some {["y" := mkVV "two" 1]}) (Some {[200 := mkLastPut 1 (mkPutReply OK)]}).

Definition logged (w : KvWorld) : list (list (option (Op Req))) :=
  (λ nd, Command <$> Log (nd_raft nd)) <$> nodes (w_net w).

(** C12: An acknowledged put can be lost.  Three servers that start from scratch,
    with messages lost but none stale, and no crash: the client of server 0
    is told OK for its put of key x, and no server has that put in its log or
    key x in its map. *)
Theorem acknowledged_put_lost : ∃ w,
  world_reachable emptyServer (-1) 3 w ∧
  seen 0 w = Some (1, serverY, [(ReqPut putX, Some (OK, Some (RepPut (mkPutReply OK))))]) ∧
  seen 1 w = Some (1, serverY, [(ReqPut putY, None)]) ∧
  logged w = replicate 3 [None; Some (mkOp 1 1 (ReqPut putY))].
Proof.
  assert ((w ← wrun (-1) loses (world_init emptyServer (-1) 3); Some (seen 0 w, seen 1 w, logged w)) =
    Some (Some (1, serverY, [(ReqPut putX, Some (OK, Some (RepPut (mkPutReply OK))))]),
          Some (1, serverY, [(ReqPut putY, None)]),
          replicate 3 [None; Some (mkOp 1 1 (ReqPut putY))])) as H by (vm_compute; reflexivity).
  apply bind_Some in H as (w & Hw & H). injection H as H0 H1 H2. apply wrun_rtc in Hw.
  exists w. split_and!; assumption.
Qed.
