(* ===== verification/ShardGrp.v ===== *)
(** * ShardGrp: one replica of a shard group

    Models [src/src/shardkv/shardgrp/server.go] and the messages of
    [src/src/shardkv/shardgrp/shardrpc/shardrpc.go].  The service is an
    instance of [StateMachine] of [Rsm].

    Every shard is a small state machine: [Absent], [Serving] or [Frozen], with
    the number of the last configuration that moved it.  The Go arrays of
    length [NShards] are lists indexed by a shard id; maps that may be nil are
    options, as in [KvStore]; a set of clients is a map to empty structs.
    gob encodes a map in an arbitrary order; what the code relies on is that
    the bytes decode to the same value, which is [Codec]. *)

From S2P Require Import Prelude RpcApi KvModel KvSpec KvStore ShardCfg Persister Raft Rsm RsmFacts.

Inductive ShardStatus := Absent | Serving | Frozen.

#[global] Instance ShardStatus_eq_dec : EqDecision ShardStatus.
Proof. solve_decision. Defined.
#[global] Instance ShardStatus_countable : Countable ShardStatus.
Proof.
  refine (inj_countable' (λ s, match s with Absent => 0%nat | Serving => 1%nat | Frozen => 2%nat end)
    (λ n, match n with 0%nat => Absent | 1%nat => Serving | _ => Frozen end) _). by intros [].
Defined.

Record ShardState := mkShardState {
  ss_Kv : option kvmap;
  ss_LastPutByClientId : option putTable;
}.

Record KVServer := mkKVServer {
  kvm : list (option kvmap);
  lastPutByClientId : option putTable;
  cfgNumByShid : option (gmap Tshid Tnum);
  shardStatuses : list ShardStatus;
  shardClients : list (option (gset Z));
}.

(** [SnapshotData] has the same five fields. *)
Record SnapshotData := mkSnapshotData { sd_server : KVServer }.

Record FreezeShardArgs := mkFreezeArgs { fz_Shard : Tshid; fz_Num : Tnum }.
Record FreezeShardReply := mkFreezeReply { fzr_State : bytes; fzr_Num : Tnum; fzr_Err : Err }.
Record InstallShardArgs := mkInstallArgs { in_Shard : Tshid; in_State : bytes; in_Num : Tnum }.
Record InstallShardReply := mkInstallReply { inr_Err : Err }.
Record DeleteShardArgs := mkDeleteArgs { dl_Shard : Tshid; dl_Num : Tnum }.
Record DeleteShardReply := mkDeleteReply { dlr_Err : Err }.

Inductive Req :=
| ReqGet (args : GetArgs) | ReqPut (args : PutArgs) | ReqFreeze (args : FreezeShardArgs)
| ReqInstall (args : InstallShardArgs) | ReqDelete (args : DeleteShardArgs) | ReqOther.

Inductive Rep :=
| RepGet (r : GetReply) | RepPut (r : PutReply) | RepFreeze (r : FreezeShardReply)
| RepInstall (r : InstallShardReply) | RepDelete (r : DeleteShardReply) | RepNil.

#[global] Instance ShardState_eq_dec : EqDecision ShardState.
Proof. solve_decision. Defined.
#[global] Instance ShardState_countable : Countable ShardState.
Proof.
  by refine (inj_countable' (λ s, (ss_Kv s, ss_LastPutByClientId s))
    (λ p, mkShardState p.1 p.2) _); intros [].
Defined.
#[global] Instance KVServer_eq_dec : EqDecision KVServer.
Proof. solve_decision. Defined.
#[global] Instance SnapshotData_eq_dec : EqDecision SnapshotData.
Proof. solve_decision. Defined.
#[global] Instance SnapshotData_countable : Countable SnapshotData.
Proof.
  by refine (inj_countable'
    (λ d, let s := sd_server d in
       (kvm s, lastPutByClientId s, cfgNumByShid s, shardStatuses s, shardClients s))
    (λ '(k, l, c, st, cl), mkSnapshotData (mkKVServer k l c st cl)) _); intros [[]].
Defined.

Definition set_kvm (x : list (option kvmap)) (kv : KVServer) : KVServer :=
  mkKVServer x (lastPutByClientId kv) (cfgNumByShid kv) (shardStatuses kv) (shardClients kv).
Definition set_last (x : option putTable) (kv : KVServer) : KVServer :=
  mkKVServer (kvm kv) x (cfgNumByShid kv) (shardStatuses kv) (shardClients kv).
Definition set_cfgNum (x : option (gmap Tshid Tnum)) (kv : KVServer) : KVServer :=
  mkKVServer (kvm kv) (lastPutByClientId kv) x (shardStatuses kv) (shardClients kv).
Definition set_statuses (x : list ShardStatus) (kv : KVServer) : KVServer :=
  mkKVServer (kvm kv) (lastPutByClientId kv) (cfgNumByShid kv) x (shardClients kv).
Definition set_clients (x : list (option (gset Z))) (kv : KVServer) : KVServer :=
  mkKVServer (kvm kv) (lastPutByClientId kv) (cfgNumByShid kv) (shardStatuses kv) x.

(** [kv.cfgNumByShid[shid]], 0 when there is no entry. *)
Definition cfgNum (kv : KVServer) (shid : Tshid) : Tnum :=
  default 0 (map_get (cfgNumByShid kv) shid).

(** [kv.shardClients[shid][c] = struct{}{}]. *)
Definition addClient (cs : option (gset Z)) (c : Z) : outcome (option (gset Z)) :=
  match cs with Some cs => Ret (Some ({[c]} ∪ cs)) | None => Panic NilMapWrite end.

(** ** Get and Put *)

Definition doGet (kv : KVServer) (args : GetArgs) : outcome GetReply :=
  let shid := Key2Shard (get_Key args) in
  st ← index (shardStatuses kv) shid;
  if decide (st ≠ Serving) then Ret (mkGetReply "" 0 ErrWrongGroup)
  else
    m ← index (kvm kv) shid;
    Ret (match map_get m (get_Key args) with
         | None => mkGetReply "" 0 ErrNoKey
         | Some v => mkGetReply (Value v) (Version v) OK
         end).

(** Lines 161-193. *)
Definition executePut (kv : KVServer) (shid : Tshid) (args : PutArgs)
    : outcome (KVServer * PutReply) :=
  kvshard ← index (kvm kv) shid;
  '(kvshard, reply) ← putMap args kvshard;
  ms ← store (kvm kv) shid kvshard;
  t ← map_set (lastPutByClientId kv) (ClientId (put_info args))
        (mkLastPut (RequestId (put_info args)) reply);
  cs ← index (shardClients kv) shid;
  cs ← addClient cs (ClientId (put_info args));
  css ← store (shardClients kv) shid cs;
  Ret (set_clients css (set_last t (set_kvm ms kv)), reply).

Definition doPut (kv : KVServer) (args : PutArgs) : outcome (KVServer * PutReply) :=
  let shid := Key2Shard (put_Key args) in
  st ← index (shardStatuses kv) shid;
  if decide (st ≠ Serving) then Ret (kv, mkPutReply ErrWrongGroup)
  else
    match map_get (lastPutByClientId kv) (ClientId (put_info args)) with
    | Some lastPut =>
        if decide (RequestId (put_info args) ≤ lp_RequestId lastPut) then Ret (kv, lp_Reply lastPut)
        else executePut kv shid args
    | None => executePut kv shid args
    end.

(** ** Moving shards *)

Section server.
Context `{!Codec ShardState, !Codec SnapshotData}.

(** The last puts of the clients of a shard.  A client without one is a nil
    pointer, on which encoding fails. *)
Definition clientPuts (cs : option (gset Z)) (t : option putTable) : outcome putTable :=
  let cs := default ∅ cs in let t := default ∅ t in
  if decide (cs ⊆ dom t) then Ret (filter (λ p, p.1 ∈ cs) t) else Panic GobError.

Definition marshallShardState (kv : KVServer) (shid : Tshid) : outcome bytes :=
  Clnts ← index (shardClients kv) shid;
  puts ← clientPuts Clnts (lastPutByClientId kv);
  m ← index (kvm kv) shid;
  Ret (enc (mkShardState (map_copy m) (Some puts))).

(** The loop over the incoming table: keep the put with the larger request id. *)
Fixpoint mergePuts (l : list (Z * LastPut)) (t : option putTable) : outcome (option putTable) :=
  match l with
  | [] => Ret t
  | (c, lp) :: l =>
      t ← (match map_get t c with
           | Some old => if decide (lp_RequestId old < lp_RequestId lp) then map_set t c lp else Ret t
           | None => map_set t c lp
           end);
      mergePuts l t
  end.

Definition installShardState (shid : Tshid) (data : bytes) (kv : KVServer) : outcome KVServer :=
  match dec data with
  | None => Panic GobError
  | Some ss =>
      ms ← store (kvm kv) shid (map_copy (ss_Kv ss));
      let incoming := default ∅ (ss_LastPutByClientId ss) in
      css ← store (shardClients kv) shid (Some (dom incoming));
      t ← mergePuts (map_to_list incoming) (lastPutByClientId kv);
      Ret (set_last t (set_clients css (set_kvm ms kv)))
  end.

Definition FreezeShard (args : FreezeShardArgs) (kv : KVServer)
    : outcome (KVServer * FreezeShardReply) :=
  let shid := fz_Shard args in
  let localCfgNum := cfgNum kv shid in
  let reqCfgNum := fz_Num args in
  if decide (localCfgNum < reqCfgNum) then
    st ← index (shardStatuses kv) shid;
    match st with
    | Serving =>
        sts ← store (shardStatuses kv) shid Frozen;
        cfg ← map_set (cfgNumByShid kv) shid reqCfgNum;
        let kv := set_cfgNum cfg (set_statuses sts kv) in
        data ← marshallShardState kv shid;
        Ret (kv, mkFreezeReply data reqCfgNum OK)
    | Absent | Frozen => Ret (kv, mkFreezeReply [] localCfgNum ErrIllegalOperation)
    end
  else if decide (reqCfgNum = localCfgNum) then
    st ← index (shardStatuses kv) shid;
    match st with
    | Frozen | Absent =>
        data ← marshallShardState kv shid;
        Ret (kv, mkFreezeReply data reqCfgNum OK)
    | Serving => Ret (kv, mkFreezeReply [] reqCfgNum ErrIllegalOperation)
    end
  else Ret (kv, mkFreezeReply [] localCfgNum OK).

Definition InstallShard (args : InstallShardArgs) (kv : KVServer)
    : outcome (KVServer * InstallShardReply) :=
  let shid := in_Shard args in
  let localCfgNum := cfgNum kv shid in
  if decide (localCfgNum < in_Num args) then
    st ← index (shardStatuses kv) shid;
    match st with
    | Absent =>
        kv ← installShardState shid (in_State args) kv;
        sts ← store (shardStatuses kv) shid Serving;
        cfg ← map_set (cfgNumByShid kv) shid (in_Num args);
        Ret (set_cfgNum cfg (set_statuses sts kv), mkInstallReply OK)
    | Frozen | Serving => Ret (kv, mkInstallReply ErrIllegalOperation)
    end
  else if decide (in_Num args = localCfgNum) then
    st ← index (shardStatuses kv) shid;
    Ret (kv, mkInstallReply (match st with Serving => OK | _ => ErrIllegalOperation end))
  else Ret (kv, mkInstallReply OK).

Definition DeleteShard (args : DeleteShardArgs) (kv : KVServer)
    : outcome (KVServer * DeleteShardReply) :=
  let shid := dl_Shard args in
  let localCfgNum := cfgNum kv shid in
  if decide (dl_Num args = localCfgNum) then
    st ← index (shardStatuses kv) shid;
    match st with
    | Frozen =>
        ms ← store (kvm kv) shid None;
        css ← store (shardClients kv) shid None;
        sts ← store (shardStatuses kv) shid Absent;
        cfg ← map_set (cfgNumByShid kv) shid (dl_Num args);
        Ret (set_cfgNum cfg (set_statuses sts (set_clients css (set_kvm ms kv))), mkDeleteReply OK)
    | Absent => Ret (kv, mkDeleteReply OK)
    | Serving => Ret (kv, mkDeleteReply ErrIllegalOperation)
    end
  else if decide (localCfgNum < dl_Num args) then Ret (kv, mkDeleteReply ErrIllegalOperation)
  else Ret (kv, mkDeleteReply OK).

Definition DoOp (req : Req) (kv : KVServer) : outcome (KVServer * Rep) :=
  match req with
  | ReqGet args => r ← doGet kv args; Ret (kv, RepGet r)
  | ReqPut args => '(kv, r) ← doPut kv args; Ret (kv, RepPut r)
  | ReqFreeze args => '(kv, r) ← FreezeShard args kv; Ret (kv, RepFreeze r)
  | ReqInstall args => '(kv, r) ← InstallShard args kv; Ret (kv, RepInstall r)
  | ReqDelete args => '(kv, r) ← DeleteShard args kv; Ret (kv, RepDelete r)
  | ReqOther => Ret (kv, RepNil)
  end.

(** ** Snapshots *)

(** The copy that [Snapshot] makes: nil maps become empty ones. *)
Definition copyServer (kv : KVServer) : KVServer :=
  mkKVServer (map_copy <$> kvm kv) (map_copy (lastPutByClientId kv)) (map_copy (cfgNumByShid kv))
    (shardStatuses kv) ((λ cs, Some (default ∅ cs)) <$> shardClients kv).

Definition Snapshot (kv : KVServer) : bytes := enc (mkSnapshotData (copyServer kv)).

Definition Restore (data : bytes) (kv : KVServer) : outcome KVServer :=
  if decide (zlen data < 1) then Ret kv
  else match dec data with
       | None => Panic GobError
       | Some d => Ret (sd_server d)
       end.

(** ** Starting a replica *)

Definition initialServer (gid : Tgid) : KVServer :=
  let n := Z.to_nat NShards in
  mkKVServer (replicate n (Some ∅)) (Some ∅)
    (Some (list_to_map ((λ i, (Z.of_nat i, if decide (gid = Gid1) then 1 else 0)) <$> seq 0 n)))
    (replicate n (if decide (gid = Gid1) then Serving else Absent))
    (replicate n (Some ∅)).

(** ** The handlers, given what [Submit] returned *)

Definition GetHandler (res : Err * option Rep) : outcome GetReply :=
  if decide (res.1 = OK) then
    match res.2 with Some (RepGet r) => Ret r | _ => Panic TypeAssertion end
  else Ret (mkGetReply "" 0 res.1).
Definition PutHandler (res : Err * option Rep) : outcome PutReply :=
  if decide (res.1 = OK) then
    match res.2 with Some (RepPut r) => Ret r | _ => Panic TypeAssertion end
  else Ret (mkPutReply res.1).
Definition FreezeShardHandler (res : Err * option Rep) : outcome FreezeShardReply :=
  if decide (res.1 = OK) then
    match res.2 with Some (RepFreeze r) => Ret r | _ => Panic TypeAssertion end
  else Ret (mkFreezeReply [] 0 res.1).
Definition InstallShardHandler (res : Err * option Rep) : outcome InstallShardReply :=
  if decide (res.1 = OK) then
    match res.2 with Some (RepInstall r) => Ret r | _ => Panic TypeAssertion end
  else Ret (mkInstallReply res.1).
Definition DeleteShardHandler (res : Err * option Rep) : outcome DeleteShardReply :=
  if decide (res.1 = OK) then
    match res.2 with Some (RepDelete r) => Ret r | _ => Panic TypeAssertion end
  else Ret (mkDeleteReply res.1).
End server.
