(* ===== verification/ShardGrpFacts.v ===== *)
(** * ShardGrpFacts: a shard group's replica is a state machine

    The well-formedness invariant of a replica, that every operation preserves
    it and none of them panics on it; the equivalence of states up to nil maps
    of shards that are not served; and the laws of [StateMachine]. *)

From S2P Require Import Prelude RpcApi KvModel KvSpec KvStore ShardCfg Persister Raft Rsm RsmFacts ShardGrp.

Definition nshards : nat := Z.to_nat NShards.
Definition in_range (sh : Tshid) : Prop := 0 ≤ sh < NShards.

Lemma in_range_nat sh : in_range sh → (Z.to_nat sh < nshards)%nat.
Proof. unfold in_range, nshards. lia. Qed.

(** Accesses to arrays of length [NShards] at a shard id. *)
Section arrays.
Context {A : Type}.
Implicit Types (l : list A).

Lemma index_shard l sh :
  length l = nshards → in_range sh → ∃ x, index l sh = Ret x ∧ l !! Z.to_nat sh = Some x.
Proof.
  intros Hl Hsh. destruct (lookup_lt_is_Some_2 l (Z.to_nat sh)) as [x Hx].
  { rewrite Hl. by apply in_range_nat. }
  exists x. split; [|done]. apply index_Ret. split; [apply Hsh|done].
Qed.

Lemma store_shard l sh x :
  length l = nshards → in_range sh → store l sh x = Ret (<[Z.to_nat sh := x]> l).
Proof.
  intros Hl Hsh. apply store_Ret. split; [|done]. pose proof (in_range_nat sh Hsh).
  unfold zlen, in_range in *. lia.
Qed.

Lemma insert_shard l sh x i y :
  <[Z.to_nat sh := x]> l !! i = Some y →
  (i = Z.to_nat sh ∧ y = x) ∨ (i ≠ Z.to_nat sh ∧ l !! i = Some y).
Proof. intros [(-> & -> & _)|[? ?]]%list_lookup_insert_Some; auto. Qed.
End arrays.

(** ** The invariant *)

Record server_ok (kv : KVServer) : Prop := {
  ok_kvm : length (kvm kv) = nshards;
  ok_statuses : length (shardStatuses kv) = nshards;
  ok_shardClients : length (shardClients kv) = nshards;
  ok_last : is_Some (lastPutByClientId kv);
  ok_cfg : is_Some (cfgNumByShid kv);
  ok_serving i : shardStatuses kv !! i = Some Serving →
    ∃ m cs, kvm kv !! i = Some (Some m) ∧ shardClients kv !! i = Some (Some cs);
  ok_clients i cs : shardClients kv !! i = Some (Some cs) →
    cs ⊆ dom (default ∅ (lastPutByClientId kv));
}.

Section facts.
Context `{!Codec ShardState, !Codec SnapshotData}.

Definition request_ok (req : Req) : Prop :=
  match req with
  | ReqFreeze a => in_range (fz_Shard a)
  | ReqInstall a => in_range (in_Shard a) ∧ is_Some (dec (A := ShardState) (in_State a))
  | ReqDelete a => in_range (dl_Shard a)
  | _ => True
  end.

(** *** Puts *)

Lemma shard_executePut_spec kv shid args m t cs :
  server_ok kv → in_range shid →
  kvm kv !! Z.to_nat shid = Some (Some m) → lastPutByClientId kv = Some t →
  shardClients kv !! Z.to_nat shid = Some (Some cs) →
  let '(m', e) := kv_put m (put_Key args) (put_Value args) (put_Version args) in
  executePut kv shid args =
  Ret (mkKVServer (<[Z.to_nat shid := Some m']> (kvm kv))
         (Some (<[ClientId (put_info args) := mkLastPut (RequestId (put_info args)) (mkPutReply e)]> t))
         (cfgNumByShid kv) (shardStatuses kv)
         (<[Z.to_nat shid := Some ({[ClientId (put_info args)]} ∪ cs)]> (shardClients kv)),
       mkPutReply e).
Proof.
  intros [] Hsh Hm Ht Hcs.
  destruct (kv_put m (put_Key args) (put_Value args) (put_Version args)) as [m' e] eqn:E.
  unfold executePut.
  assert (index (kvm kv) shid = Ret (Some m)) as -> by (apply index_Ret; split; [apply Hsh|done]).
  cbn -[putMap store]. rewrite putMap_spec, E. cbn -[store]. rewrite store_shard by done.
  cbn -[store index]. rewrite Ht. cbn -[store index].
  assert (index (shardClients kv) shid = Ret (Some cs)) as ->
    by (apply index_Ret; split; [apply Hsh|done]).
  cbn -[store]. rewrite store_shard by done. done.
Qed.

Lemma executePut_ok kv shid args :
  server_ok kv → in_range shid → shardStatuses kv !! Z.to_nat shid = Some Serving →
  ∃ kv' r, executePut kv shid args = Ret (kv', r) ∧ server_ok kv'.
Proof.
  intros Hok Hsh Hst. destruct (ok_serving _ Hok _ Hst) as (m & cs & Hm & Hcs).
  destruct (ok_last _ Hok) as [t Ht].
  pose proof (shard_executePut_spec kv shid args m t cs Hok Hsh Hm Ht Hcs) as H.
  destruct (kv_put m (put_Key args) (put_Value args) (put_Version args)) as [m' e].
  rewrite H. eexists _, _. split; [done|]. destruct Hok. split; cbn; try done.
  - by rewrite length_insert.
  - by rewrite length_insert.
  - intros i Hi. destruct (ok_serving0 i Hi) as (mi & ci & Hmi & Hci).
    destruct (decide (i = Z.to_nat shid)) as [->|Hne].
    + rewrite !list_lookup_insert_eq by (by eapply lookup_lt_Some). by eexists _, _.
    + rewrite !list_lookup_insert_ne by done. by eexists _, _.
  - intros i cs' Hi. rewrite dom_insert_L.
    apply insert_shard in Hi as [[-> [= ->]]|[_ Hi]].
    + apply ok_clients0 in Hcs. rewrite Ht in Hcs. cbn in Hcs. set_solver.
    + apply ok_clients0 in Hi. rewrite Ht in Hi. cbn in Hi. set_solver.
Qed.

Lemma doGet_returns kv args : server_ok kv → returns (doGet kv args).
Proof.
  intros []. unfold doGet. pose proof (Key2Shard_range (get_Key args)).
  destruct (index_shard (shardStatuses kv) (Key2Shard (get_Key args))) as (st & -> & _); [done..|].
  cbn -[index]. case_decide; [eauto with go|].
  destruct (index_shard (kvm kv) (Key2Shard (get_Key args))) as (m & -> & _); [done..|].
  cbn. eauto with go.
Qed.

Lemma doPut_ok kv args : server_ok kv → ∃ kv' r, doPut kv args = Ret (kv', r) ∧ server_ok kv'.
Proof.
  intros Hok. unfold doPut. pose proof (Key2Shard_range (put_Key args)) as Hsh.
  destruct (index_shard (shardStatuses kv) (Key2Shard (put_Key args))) as (st & -> & Hst);
    [apply Hok|done|].
  cbn -[executePut]. destruct (decide (st ≠ Serving)) as [|Hs]; [by eexists _, _|].
  assert (st = Serving) as -> by (destruct (decide (st = Serving)); tauto).
  destruct (executePut_ok kv (Key2Shard (put_Key args)) args Hok Hsh Hst) as (kv' & r & Hex & Hok').
  destruct (map_get _ _) as [lp|]; [case_decide|]; eauto.
Qed.

(** *** Moving shards *)

Lemma clientPuts_ok kv cs :
  server_ok kv → (∃ i, shardClients kv !! i = Some cs) →
  clientPuts cs (lastPutByClientId kv) =
  Ret (filter (λ p, p.1 ∈ default ∅ cs) (default ∅ (lastPutByClientId kv))).
Proof.
  intros Hok [i Hi]. unfold clientPuts. rewrite decide_True; [done|].
  destruct cs as [cs|]; cbn; [|set_solver]. by eapply ok_clients.
Qed.

(** What is sent to the other group. *)
Definition shardState (kv : KVServer) (sh : nat) : ShardState :=
  mkShardState (Some (default ∅ (default None (kvm kv !! sh))))
    (Some (filter (λ p, p.1 ∈ default ∅ (default None (shardClients kv !! sh)))
             (default ∅ (lastPutByClientId kv)))).

Lemma marshall_ok kv sh :
  server_ok kv → in_range sh →
  marshallShardState kv sh = Ret (enc (shardState kv (Z.to_nat sh))).
Proof.
  intros Hok Hsh. unfold marshallShardState.
  destruct (index_shard (shardClients kv) sh) as (cs & -> & Hcs); [apply Hok|done|].
  cbn -[clientPuts index]. rewrite clientPuts_ok by eauto. cbn -[index].
  destruct (index_shard (kvm kv) sh) as (m & -> & Hm); [apply Hok|done|].
  cbn. unfold shardState. by rewrite Hm, Hcs.
Qed.

(** The put the client's table ends up with. *)
Definition newer (old : option LastPut) (lp : LastPut) : LastPut :=
  match old with
  | Some o => if decide (lp_RequestId o < lp_RequestId lp) then lp else o
  | None => lp
  end.

Lemma mergePuts_spec l (t : putTable) :
  NoDup l.*1 →
  ∃ t', mergePuts l (Some t) = Ret (Some t') ∧
    ∀ c, t' !! c = match (list_to_map l : putTable) !! c with
                   | Some lp => Some (newer (t !! c) lp)
                   | None => t !! c
                   end.
Proof.
  revert t. induction l as [|[c lp] l IH]; intros t Hnd; cbn; [by exists t|].
  inversion Hnd as [|? ? Hc Hnd']; subst.
  assert (∃ t1, (match t !! c with
      | Some old => if decide (lp_RequestId old < lp_RequestId lp)
                    then Ret (Some (<[c:=lp]> t)) else Ret (Some t)
      | None => Ret (Some (<[c:=lp]> t)) end) = Ret (Some t1) ∧
    ∀ c', t1 !! c' = if decide (c' = c) then Some (newer (t !! c) lp) else t !! c') as (t1 & -> & Ht1).
  { unfold newer. destruct (t !! c) as [old|] eqn:E; [case_decide|]; eexists; (split; [done|]);
      intros c'; destruct (decide (c' = c)) as [->|]; rewrite ?lookup_insert_eq, ?lookup_insert_ne; done. }
  cbn. destruct (IH t1 Hnd') as (t' & -> & Ht'). exists t'. split; [done|].
  intros c'. rewrite Ht', Ht1. destruct (decide (c' = c)) as [->|Hne].
  - rewrite lookup_insert_eq. rewrite not_elem_of_list_to_map_1; done.
  - by rewrite lookup_insert_ne.
Qed.

(** The table after installing a shard's state. *)
Definition merged_table (t incoming t' : putTable) : Prop :=
  ∀ c, t' !! c = match incoming !! c with
                 | Some lp => Some (newer (t !! c) lp)
                 | None => t !! c
                 end.

Lemma mergePuts_map (t incoming : putTable) :
  ∃ t', mergePuts (map_to_list incoming) (Some t) = Ret (Some t') ∧ merged_table t incoming t'.
Proof.
  destruct (mergePuts_spec (map_to_list incoming) t) as (t' & ? & H).
  { apply NoDup_fst_map_to_list. }
  exists t'. split; [done|]. intros c. by rewrite H, list_to_map_to_list.
Qed.

Lemma merged_table_dom t incoming t' :
  merged_table t incoming t' → dom t ⊆ dom t' ∧ dom incoming ⊆ dom t'.
Proof.
  intros H. split; intros c Hc; apply elem_of_dom; rewrite H; apply elem_of_dom in Hc as [x Hx];
    rewrite Hx; [|by eexists]. destruct (incoming !! c); by eexists.
Qed.

Lemma installShardState_spec kv sh data ss t :
  server_ok kv → in_range sh → dec data = Some ss → lastPutByClientId kv = Some t →
  ∃ t', merged_table t (default ∅ (ss_LastPutByClientId ss)) t' ∧
    installShardState sh data kv = Ret (mkKVServer
      (<[Z.to_nat sh := Some (default ∅ (ss_Kv ss))]> (kvm kv)) (Some t') (cfgNumByShid kv)
      (shardStatuses kv)
      (<[Z.to_nat sh := Some (dom (default ∅ (ss_LastPutByClientId ss)))]> (shardClients kv))).
Proof.
  intros [] Hsh Hd Ht. unfold installShardState. rewrite Hd.
  destruct (mergePuts_map t (default ∅ (ss_LastPutByClientId ss))) as (t' & Hm & Hmt).
  exists t'. split; [done|]. rewrite store_shard by done. cbn -[store mergePuts].
  rewrite store_shard by done. cbn -[mergePuts]. by rewrite Ht, Hm.
Qed.

Definition status (kv : KVServer) (sh : Tshid) : ShardStatus :=
  default Absent (shardStatuses kv !! Z.to_nat sh).

Lemma index_status kv sh :
  server_ok kv → in_range sh →
  index (shardStatuses kv) sh = Ret (status kv sh) ∧
  shardStatuses kv !! Z.to_nat sh = Some (status kv sh).
Proof.
  intros Hok Hsh. destruct (index_shard (shardStatuses kv) sh) as (st & Hi & Hl); [apply Hok|done|].
  unfold status. by rewrite Hl.
Qed.

(** The three transitions of a shard. *)
Definition frozen (kv : KVServer) (sh : Tshid) (num : Tnum) : KVServer :=
  mkKVServer (kvm kv) (lastPutByClientId kv) (Some (<[sh := num]> (default ∅ (cfgNumByShid kv))))
    (<[Z.to_nat sh := Frozen]> (shardStatuses kv)) (shardClients kv).

Definition installed (kv : KVServer) (sh : Tshid) (num : Tnum) (ss : ShardState) (t' : putTable)
    : KVServer :=
  mkKVServer (<[Z.to_nat sh := Some (default ∅ (ss_Kv ss))]> (kvm kv)) (Some t')
    (Some (<[sh := num]> (default ∅ (cfgNumByShid kv))))
    (<[Z.to_nat sh := Serving]> (shardStatuses kv))
    (<[Z.to_nat sh := Some (dom (default ∅ (ss_LastPutByClientId ss)))]> (shardClients kv)).

Definition deleted (kv : KVServer) (sh : Tshid) (num : Tnum) : KVServer :=
  mkKVServer (<[Z.to_nat sh := None]> (kvm kv)) (lastPutByClientId kv)
    (Some (<[sh := num]> (default ∅ (cfgNumByShid kv))))
    (<[Z.to_nat sh := Absent]> (shardStatuses kv)) (<[Z.to_nat sh := None]> (shardClients kv)).

Lemma frozen_ok kv sh num : server_ok kv → server_ok (frozen kv sh num).
Proof.
  intros []. split; cbn; try done.
  - by rewrite length_insert.
  - intros i [[_ [=]]|[_ Hi]]%insert_shard. by apply ok_serving0.
Qed.

Lemma deleted_ok kv sh num : server_ok kv → server_ok (deleted kv sh num).
Proof.
  intros []. split; cbn; rewrite ?length_insert; try done.
  - intros i [[_ [=]]|[Hne Hi]]%insert_shard. rewrite !list_lookup_insert_ne by done.
    by apply ok_serving0.
  - intros i cs [[_ [=]]|[_ Hi]]%insert_shard. by eapply ok_clients0.
Qed.

Lemma installed_ok kv sh num ss t t' :
  server_ok kv → in_range sh → lastPutByClientId kv = Some t →
  merged_table t (default ∅ (ss_LastPutByClientId ss)) t' → server_ok (installed kv sh num ss t').
Proof.
  intros [] Hsh Ht Hm. destruct (merged_table_dom _ _ _ Hm) as [Hd1 Hd2].
  split; cbn; rewrite ?length_insert; try done.
  - intros i Hi. destruct (decide (i = Z.to_nat sh)) as [->|Hne].
    + rewrite !list_lookup_insert_eq by (rewrite ?ok_kvm0, ?ok_shardClients0; by apply in_range_nat).
      by eexists _, _.
    + rewrite list_lookup_insert_ne in Hi by done. rewrite !list_lookup_insert_ne by done.
      by apply ok_serving0.
  - intros i cs [[_ [= ->]]|[_ Hi]]%insert_shard; [done|].
    apply ok_clients0 in Hi. rewrite Ht in Hi. cbn in Hi. set_solver.
Qed.

Lemma FreezeShard_spec kv a :
  server_ok kv → in_range (fz_Shard a) →
  let sh := fz_Shard a in let num := fz_Num a in
  FreezeShard a kv =
  if decide (cfgNum kv sh < num) then
    match status kv sh with
    | Serving => Ret (frozen kv sh num, mkFreezeReply (enc (shardState kv (Z.to_nat sh))) num OK)
    | _ => Ret (kv, mkFreezeReply [] (cfgNum kv sh) ErrIllegalOperation)
    end
  else if decide (num = cfgNum kv sh) then
    match status kv sh with
    | Serving => Ret (kv, mkFreezeReply [] num ErrIllegalOperation)
    | _ => Ret (kv, mkFreezeReply (enc (shardState kv (Z.to_nat sh))) num OK)
    end
  else Ret (kv, mkFreezeReply [] (cfgNum kv sh) OK).
Proof.
  intros Hok Hsh. cbn zeta. unfold FreezeShard. destruct (index_status kv _ Hok Hsh) as [-> _].
  destruct (ok_cfg _ Hok) as [cfg Hcfg].
  assert (marshallShardState (frozen kv (fz_Shard a) (fz_Num a)) (fz_Shard a) =
    Ret (enc (shardState kv (Z.to_nat (fz_Shard a))))) as Hm.
  { rewrite marshall_ok; [done|by apply frozen_ok|done]. }
  case_decide; cbn -[marshallShardState store].
  - destruct (status kv (fz_Shard a)); try done.
    rewrite store_shard by (done || apply Hok). rewrite Hcfg. cbn -[marshallShardState].
    unfold frozen in Hm. rewrite Hcfg in Hm. cbn -[marshallShardState] in Hm.
    unfold set_cfgNum, set_statuses. cbn -[marshallShardState]. rewrite Hm. cbn.
    unfold frozen. by rewrite Hcfg.
  - case_decide; [|done]. by destruct (status kv (fz_Shard a)); rewrite ?marshall_ok.
Qed.

Lemma InstallShard_spec kv a ss t :
  server_ok kv → in_range (in_Shard a) → dec (in_State a) = Some ss → lastPutByClientId kv = Some t →
  let sh := in_Shard a in let num := in_Num a in
  ∃ t', merged_table t (default ∅ (ss_LastPutByClientId ss)) t' ∧
  InstallShard a kv =
  if decide (cfgNum kv sh < num) then
    match status kv sh with
    | Absent => Ret (installed kv sh num ss t', mkInstallReply OK)
    | _ => Ret (kv, mkInstallReply ErrIllegalOperation)
    end
  else if decide (num = cfgNum kv sh) then
    Ret (kv, mkInstallReply (match status kv sh with Serving => OK | _ => ErrIllegalOperation end))
  else Ret (kv, mkInstallReply OK).
Proof.
  intros Hok Hsh Hd Ht. cbn zeta.
  destruct (installShardState_spec kv (in_Shard a) (in_State a) ss t Hok Hsh Hd Ht)
    as (t' & Hm & Hinst).
  exists t'. split; [done|]. unfold InstallShard. destruct (index_status kv _ Hok Hsh) as [-> _].
  destruct (ok_cfg _ Hok) as [cfg Hcfg].
  case_decide; cbn -[installShardState store].
  - destruct (status kv (in_Shard a)); try done. rewrite Hinst. cbn -[store].
    rewrite store_shard by (done || apply Hok). rewrite Hcfg. cbn. unfold installed. by rewrite Hcfg.
  - by case_decide.
Qed.

Lemma DeleteShard_spec kv a :
  server_ok kv → in_range (dl_Shard a) →
  let sh := dl_Shard a in let num := dl_Num a in
  DeleteShard a kv =
  if decide (num = cfgNum kv sh) then
    match status kv sh with
    | Frozen => Ret (deleted kv sh num, mkDeleteReply OK)
    | Absent => Ret (kv, mkDeleteReply OK)
    | Serving => Ret (kv, mkDeleteReply ErrIllegalOperation)
    end
  else if decide (cfgNum kv sh < num) then Ret (kv, mkDeleteReply ErrIllegalOperation)
  else Ret (kv, mkDeleteReply OK).
Proof.
  intros Hok Hsh. cbn zeta. unfold DeleteShard. destruct (index_status kv _ Hok Hsh) as [-> _].
  destruct (ok_cfg _ Hok) as [cfg Hcfg]. case_decide; [|done]. cbn -[store].
  destruct (status kv (dl_Shard a)); try done.
  rewrite store_shard by (done || apply Hok). cbn -[store].
  rewrite store_shard by (done || apply Hok). cbn -[store].
  rewrite store_shard by (done || apply Hok). rewrite Hcfg. cbn. unfold deleted. by rewrite Hcfg.
Qed.

Lemma DoOp_server_ok req kv :
  server_ok kv → request_ok req → ∃ kv' r, DoOp req kv = Ret (kv', r) ∧ server_ok kv'.
Proof.
  intros Hok Hreq. destruct req as [a|a|a|a|a|]; cbn in Hreq |- *.
  - destruct (doGet_returns kv a Hok) as [r ->]. by eexists _, _.
  - destruct (doPut_ok kv a Hok) as (kv' & r & -> & ?). by eexists _, _.
  - rewrite FreezeShard_spec by done.
    repeat case_decide; try destruct (status kv (fz_Shard a)); cbn;
      eexists _, _; (split; [done|]); try done; by apply frozen_ok.
  - destruct Hreq as [Hsh [ss Hd]]. destruct (ok_last _ Hok) as [t Ht].
    destruct (InstallShard_spec kv a ss t Hok Hsh Hd Ht) as (t' & Hm & ->).
    repeat case_decide; try destruct (status kv (in_Shard a)); cbn;
      eexists _, _; (split; [done|]); try done; by eapply installed_ok.
  - rewrite DeleteShard_spec by done.
    repeat case_decide; try destruct (status kv (dl_Shard a)); cbn;
      eexists _, _; (split; [done|]); try done; by apply deleted_ok.
  - by eexists _, _.
Qed.

(** ** Equivalent states *)

(** Nil and empty maps of a shard that is not served cannot be told apart. *)
Definition alike {A} `{Empty A} (st : option ShardStatus) (x y : option (option A)) : Prop :=
  (st = Some Serving → x = y) ∧ default ∅ <$> x = default ∅ <$> y.

Record equivalent (kv1 kv2 : KVServer) : Prop := {
  eqv_last : lastPutByClientId kv1 = lastPutByClientId kv2;
  eqv_cfg : cfgNumByShid kv1 = cfgNumByShid kv2;
  eqv_statuses : shardStatuses kv1 = shardStatuses kv2;
  eqv_kvm i : alike (shardStatuses kv1 !! i) (kvm kv1 !! i) (kvm kv2 !! i);
  eqv_clients i : alike (shardStatuses kv1 !! i) (shardClients kv1 !! i) (shardClients kv2 !! i);
}.

#[global] Instance equivalent_equivalence : Equivalence equivalent.
Proof.
  split.
  - intros kv. split; try done; intros i; by split.
  - intros kv1 kv2 [H1 H2 H3 H4 H5]. split; try done; intros i; rewrite <-H3;
      (split; [intros Hi; symmetry; by apply H4 || by apply H5|symmetry; apply H4 || apply H5]).
  - intros kv1 kv2 kv3 [H1 H2 H3 H4 H5] [K1 K2 K3 K4 K5]. split; try congruence; intros i.
    + specialize (K4 i). rewrite <-H3 in K4. destruct (H4 i), K4.
      split; [intros Hi; etrans; auto|congruence].
    + specialize (K5 i). rewrite <-H3 in K5. destruct (H5 i), K5.
      split; [intros Hi; etrans; auto|congruence].
Qed.

Lemma alike_index {A} `{Empty A} (l1 l2 : list (option A)) (sts : list ShardStatus) sh m1 :
  (∀ i, alike (sts !! i) (l1 !! i) (l2 !! i)) → index l1 sh = Ret m1 →
  ∃ m2, index l2 sh = Ret m2 ∧ default ∅ m2 = default ∅ m1 ∧
        (index sts sh = Ret Serving → m2 = m1).
Proof.
  intros Hal [Hsh H1]%index_Ret. destruct (Hal (Z.to_nat sh)) as [Hs Hd]. rewrite H1 in Hs, Hd.
  destruct (l2 !! Z.to_nat sh) as [m2|] eqn:H2; [|done]. injection Hd as Hd. exists m2.
  split_and!; [by apply index_Ret|done|].
  intros [_ Hst]%index_Ret. specialize (Hs Hst). congruence.
Qed.

Lemma alike_store {A} `{Empty A} (l1 l2 : list (option A)) (sts sts' : list ShardStatus) sh x l1' :
  (∀ i, alike (sts !! i) (l1 !! i) (l2 !! i)) → store l1 sh x = Ret l1' →
  (∀ i, i ≠ Z.to_nat sh → sts' !! i = sts !! i) →
  ∃ l2', store l2 sh x = Ret l2' ∧ ∀ i, alike (sts' !! i) (l1' !! i) (l2' !! i).
Proof.
  intros Hal [Hsh ->]%store_Ret Hsts. unfold zlen in Hsh.
  assert (Z.to_nat sh < length l2)%nat as Hlt.
  { destruct (Hal (Z.to_nat sh)) as [_ Hd].
    destruct (lookup_lt_is_Some_2 l1 (Z.to_nat sh)) as [y Hy]; [lia|]. rewrite Hy in Hd.
    destruct (l2 !! Z.to_nat sh) eqn:E; [|done]. by eapply lookup_lt_Some. }
  exists (<[Z.to_nat sh := x]> l2). split; [apply store_Ret; unfold zlen; split; [lia|done]|].
  intros i. destruct (decide (i = Z.to_nat sh)) as [->|Hne].
  - rewrite !list_lookup_insert_eq by lia. by split.
  - rewrite !list_lookup_insert_ne, Hsts by done. apply Hal.
Qed.

Lemma store_other {A} (l l' : list A) sh x :
  store l sh x = Ret l' → ∀ i, i ≠ Z.to_nat sh → l' !! i = l !! i.
Proof. intros [_ ->]%store_Ret i Hi. by apply list_lookup_insert_ne. Qed.

Lemma doGet_equiv kv1 kv2 a : equivalent kv1 kv2 → ∀ r, doGet kv1 a = Ret r → doGet kv2 a = Ret r.
Proof.
  intros [] r. unfold doGet. rewrite <-eqv_statuses0.
  intros (st & Hst & H)%bind_ret_inv. rewrite Hst. cbn -[index].
  destruct (decide (st ≠ Serving)) as [|Hs]; [done|].
  assert (st = Serving) as -> by (destruct (decide (st = Serving)); tauto).
  apply bind_ret_inv in H as (m1 & Hm1 & H).
  destruct (alike_index _ _ _ _ _ eqv_kvm0 Hm1) as (m2 & -> & _ & Heq). by rewrite (Heq Hst).
Qed.

Lemma executePut_equiv kv1 kv2 sh a kv1' r :
  equivalent kv1 kv2 → index (shardStatuses kv1) sh = Ret Serving →
  executePut kv1 sh a = Ret (kv1', r) →
  ∃ kv2', executePut kv2 sh a = Ret (kv2', r) ∧ equivalent kv1' kv2'.
Proof.
  intros [] Hst H. unfold executePut in *.
  apply bind_ret_inv in H as (m & Hm & H). apply bind_ret_inv in H as ([m' r'] & Hput & H).
  apply bind_ret_inv in H as (ms & Hms & H). apply bind_ret_inv in H as (t & Ht & H).
  apply bind_ret_inv in H as (cs & Hcs & H). apply bind_ret_inv in H as (cs' & Hcs' & H).
  apply bind_ret_inv in H as (css & Hcss & H). injection H as <- <-.
  destruct (alike_index _ _ _ _ _ eqv_kvm0 Hm) as (m2 & -> & _ & Hm2). rewrite (Hm2 Hst).
  cbn -[putMap store index]. rewrite Hput. cbn -[store index].
  destruct (alike_store _ _ _ (shardStatuses kv1) _ _ _ eqv_kvm0 Hms) as (ms2 & -> & Hal); [done|].
  cbn -[store index]. rewrite <-eqv_last0, Ht. cbn -[store index].
  destruct (alike_index _ _ _ _ _ eqv_clients0 Hcs) as (cs2 & -> & _ & Hcs2). rewrite (Hcs2 Hst).
  cbn -[store]. rewrite Hcs'. cbn -[store].
  destruct (alike_store _ _ _ (shardStatuses kv1) _ _ _ eqv_clients0 Hcss) as (css2 & -> & Hal2); [done|].
  eexists. split; [done|]. by split.
Qed.

Lemma doPut_equiv kv1 kv2 a kv1' r :
  equivalent kv1 kv2 → doPut kv1 a = Ret (kv1', r) →
  ∃ kv2', doPut kv2 a = Ret (kv2', r) ∧ equivalent kv1' kv2'.
Proof.
  intros Heq H. unfold doPut in *. rewrite <-(eqv_statuses _ _ Heq), <-(eqv_last _ _ Heq).
  apply bind_ret_inv in H as (st & Hst & H). rewrite Hst. cbn -[executePut].
  destruct (decide (st ≠ Serving)) as [|Hs]; [simplify_eq; by eexists|].
  assert (st = Serving) as -> by (destruct (decide (st = Serving)); tauto).
  destruct (map_get _ _) as [lp|]; [case_decide|].
  - simplify_eq. by eexists.
  - by eapply executePut_equiv.
  - by eapply executePut_equiv.
Qed.

Lemma marshall_equiv kv1 kv2 sh data :
  equivalent kv1 kv2 → marshallShardState kv1 sh = Ret data → marshallShardState kv2 sh = Ret data.
Proof.
  intros [] H. unfold marshallShardState in *. rewrite <-eqv_last0.
  apply bind_ret_inv in H as (cs & Hcs & H). apply bind_ret_inv in H as (puts & Hputs & H).
  apply bind_ret_inv in H as (m & Hm & H). injection H as <-.
  destruct (alike_index _ _ _ _ _ eqv_clients0 Hcs) as (cs2 & -> & Hc2 & _).
  cbn -[clientPuts index]. assert (clientPuts cs2 (lastPutByClientId kv1) = Ret puts) as ->.
  { unfold clientPuts in *. by rewrite Hc2. }
  cbn -[index]. destruct (alike_index _ _ _ _ _ eqv_kvm0 Hm) as (m2 & -> & Hm2 & _).
  cbn. unfold map_copy. by rewrite Hm2.
Qed.

Lemma FreezeShard_equiv kv1 kv2 a kv1' r :
  equivalent kv1 kv2 → FreezeShard a kv1 = Ret (kv1', r) →
  ∃ kv2', FreezeShard a kv2 = Ret (kv2', r) ∧ equivalent kv1' kv2'.
Proof.
  intros Heq H. unfold FreezeShard in *. unfold cfgNum in *.
  rewrite <-(eqv_statuses _ _ Heq), <-(eqv_cfg _ _ Heq). case_decide.
  - apply bind_ret_inv in H as (st & Hst & H). rewrite Hst. cbn -[marshallShardState store].
    destruct st; [simplify_eq; by eexists| |simplify_eq; by eexists].
    apply bind_ret_inv in H as (sts & Hsts & H). rewrite Hsts. cbn -[marshallShardState].
    apply bind_ret_inv in H as (cfg & Hcfg & H). rewrite Hcfg. cbn -[marshallShardState].
    apply bind_ret_inv in H as (data & Hd & H). injection H as <- <-.
    assert (equivalent (set_cfgNum cfg (set_statuses sts kv1)) (set_cfgNum cfg (set_statuses sts kv2)))
      as Heq'.
    { apply store_Ret in Hsts as [? ->]. apply index_Ret in Hst as [_ Hst]. destruct Heq.
      split; cbn; try done; intros i; destruct (decide (i = Z.to_nat (fz_Shard a))) as [->|Hne].
      - rewrite list_lookup_insert_eq by (unfold zlen in *; lia). split; [done|apply eqv_kvm0].
      - rewrite list_lookup_insert_ne by done. apply eqv_kvm0.
      - rewrite list_lookup_insert_eq by (unfold zlen in *; lia). split; [done|apply eqv_clients0].
      - rewrite list_lookup_insert_ne by done. apply eqv_clients0. }
    rewrite (marshall_equiv _ _ _ _ Heq' Hd). cbn. by eexists.
  - case_decide; [|simplify_eq; by eexists].
    apply bind_ret_inv in H as (st & Hst & H). rewrite Hst. cbn -[marshallShardState].
    destruct st; [|simplify_eq; by eexists|];
      apply bind_ret_inv in H as (data & Hd & H); simplify_eq;
      rewrite (marshall_equiv _ _ _ _ Heq Hd); by eexists.
Qed.

Lemma installShardState_equiv kv1 kv2 sh data kv1' :
  equivalent kv1 kv2 → installShardState sh data kv1 = Ret kv1' →
  ∃ kv2', installShardState sh data kv2 = Ret kv2' ∧ equivalent kv1' kv2' ∧
    shardStatuses kv1' = shardStatuses kv1 ∧ cfgNumByShid kv1' = cfgNumByShid kv1 ∧
    (∀ i, i = Z.to_nat sh → kvm kv1' !! i = kvm kv2' !! i ∧
                            shardClients kv1' !! i = shardClients kv2' !! i).
Proof.
  intros [] H. unfold installShardState in *. destruct (dec data) as [ss|]; [|done].
  apply bind_ret_inv in H as (ms & Hms & H). apply bind_ret_inv in H as (css & Hcss & H).
  apply bind_ret_inv in H as (t & Ht & H). injection H as <-. rewrite <-eqv_last0.
  destruct (alike_store _ _ _ (shardStatuses kv1) _ _ _ eqv_kvm0 Hms) as (ms2 & Hms2 & Hal); [done|].
  destruct (alike_store _ _ _ (shardStatuses kv1) _ _ _ eqv_clients0 Hcss) as (cs2 & Hcs2 & Hal2); [done|].
  rewrite Hms2. cbn -[store mergePuts]. rewrite Hcs2. cbn -[mergePuts]. rewrite Ht. cbn.
  eexists. split; [done|]. split_and!; try done.
  apply store_Ret in Hms as [? ->], Hms2 as [? ->], Hcss as [? ->], Hcs2 as [? ->].
  unfold zlen in *. cbn. intros i ->. by rewrite !list_lookup_insert_eq by lia.
Qed.

Lemma InstallShard_equiv kv1 kv2 a kv1' r :
  equivalent kv1 kv2 → InstallShard a kv1 = Ret (kv1', r) →
  ∃ kv2', InstallShard a kv2 = Ret (kv2', r) ∧ equivalent kv1' kv2'.
Proof.
  intros Heq H. unfold InstallShard in *. unfold cfgNum in *.
  rewrite <-(eqv_statuses _ _ Heq), <-(eqv_cfg _ _ Heq). case_decide.
  - apply bind_ret_inv in H as (st & Hst & H). rewrite Hst. cbn -[installShardState store].
    destruct st; [|simplify_eq; by eexists..].
    apply bind_ret_inv in H as (k1 & Hk1 & H).
    destruct (installShardState_equiv _ _ _ _ _ Heq Hk1) as (k2 & -> & Hk & _ & _ & Hsame).
    cbn -[store]. rewrite <-(eqv_statuses _ _ Hk), <-(eqv_cfg _ _ Hk).
    apply bind_ret_inv in H as (sts & Hsts & H). rewrite Hsts. cbn.
    apply bind_ret_inv in H as (cfg & Hcfg & H). rewrite Hcfg. cbn. injection H as <- <-.
    eexists. split; [done|]. apply store_Ret in Hsts as [? ->]. destruct Hk.
    split; cbn; try done; intros i; destruct (decide (i = Z.to_nat (in_Shard a))) as [Hi|Hne];
      try (destruct (Hsame i Hi) as [Hs1 Hs2]; rewrite ?Hs1, ?Hs2; by split);
      rewrite list_lookup_insert_ne by done; done.
  - case_decide; [|simplify_eq; by eexists].
    apply bind_ret_inv in H as (st & Hst & H). rewrite Hst. simplify_eq. by eexists.
Qed.

Lemma DeleteShard_equiv kv1 kv2 a kv1' r :
  equivalent kv1 kv2 → DeleteShard a kv1 = Ret (kv1', r) →
  ∃ kv2', DeleteShard a kv2 = Ret (kv2', r) ∧ equivalent kv1' kv2'.
Proof.
  intros Heq H. unfold DeleteShard in *. unfold cfgNum in *.
  rewrite <-(eqv_statuses _ _ Heq), <-(eqv_cfg _ _ Heq).
  case_decide; [|case_decide; simplify_eq; by eexists].
  apply bind_ret_inv in H as (st & Hst & H). rewrite Hst. cbn -[store].
  destruct st; [simplify_eq; by eexists..|].
  apply bind_ret_inv in H as (ms & Hms & H). apply bind_ret_inv in H as (css & Hcss & H).
  apply bind_ret_inv in H as (sts & Hsts & H). apply bind_ret_inv in H as (cfg & Hcfg & H).
  injection H as <- <-. pose proof (store_other _ _ _ _ Hsts) as Hoth. destruct Heq.
  destruct (alike_store _ _ _ sts _ _ _ eqv_kvm0 Hms Hoth) as (ms2 & -> & Hal).
  cbn -[store].
  destruct (alike_store _ _ _ sts _ _ _ eqv_clients0 Hcss Hoth) as (cs2 & -> & Hal2).
  cbn -[store]. rewrite Hsts. cbn. rewrite Hcfg. cbn. eexists. split; [done|]. by split.
Qed.

Lemma DoOp_equivalent req kv1 kv2 kv1' r :
  equivalent kv1 kv2 → DoOp req kv1 = Ret (kv1', r) →
  ∃ kv2', DoOp req kv2 = Ret (kv2', r) ∧ equivalent kv1' kv2'.
Proof.
  intros Heq H. destruct req as [a|a|a|a|a|]; cbn in H |- *.
  - apply bind_ret_inv in H as (r' & Hg & [= <- <-]). rewrite (doGet_equiv _ _ _ Heq _ Hg).
    by eexists.
  - apply bind_ret_inv in H as ([k r'] & Hg & [= <- <-]).
    destruct (doPut_equiv _ _ _ _ _ Heq Hg) as (k2 & -> & ?). by eexists.
  - apply bind_ret_inv in H as ([k r'] & Hg & [= <- <-]).
    destruct (FreezeShard_equiv _ _ _ _ _ Heq Hg) as (k2 & -> & ?). by eexists.
  - apply bind_ret_inv in H as ([k r'] & Hg & [= <- <-]).
    destruct (InstallShard_equiv _ _ _ _ _ Heq Hg) as (k2 & -> & ?). by eexists.
  - apply bind_ret_inv in H as ([k r'] & Hg & [= <- <-]).
    destruct (DeleteShard_equiv _ _ _ _ _ Heq Hg) as (k2 & -> & ?). by eexists.
  - injection H as <- <-. by eexists.
Qed.

(** ** Snapshots and the StateMachine instance *)

Lemma copyServer_equivalent kv : server_ok kv → equivalent (copyServer kv) kv.
Proof.
  intros []. split; cbn; try done.
  - by apply map_copy_made.
  - by apply map_copy_made.
  - intros i. rewrite list_lookup_fmap. split.
    + intros (m & cs & -> & _)%ok_serving0. done.
    + by destruct (kvm kv !! i) as [[]|].
  - intros i. rewrite list_lookup_fmap. split.
    + intros (m & cs & _ & ->)%ok_serving0. done.
    + by destruct (shardClients kv !! i) as [[]|].
Qed.

Lemma copyServer_ok kv : server_ok kv → server_ok (copyServer kv).
Proof.
  intros []. split; cbn; rewrite ?length_fmap; try done.
  - intros i (m & cs & Hm & Hcs)%ok_serving0. exists m, cs. by rewrite !list_lookup_fmap, Hm, Hcs.
  - intros i cs. rewrite list_lookup_fmap. destruct (shardClients kv !! i) as [[cs'|]|] eqn:E; try done.
    + intros [= <-]. by eapply ok_clients0.
    + intros [= <-]. cbn. set_solver.
Qed.

Lemma Restore_Snapshot kv kv0 : Restore (Snapshot kv) kv0 = Ret (copyServer kv).
Proof.
  unfold Restore, Snapshot. rewrite decide_False.
  - by rewrite dec_enc.
  - intros Hz. destruct (enc _) eqn:E; [by apply enc_nonempty in E|].
    unfold zlen in Hz. cbn in Hz. lia.
Qed.

#[global] Instance shardgrp_state_machine : StateMachine KVServer Req Rep := {
  Rsm.DoOp := DoOp;
  sm_Snapshot := Snapshot;
  sm_Restore := Restore;
  sm_ok := server_ok;
  req_ok := request_ok;
  sm_equiv := equivalent;
}.

#[global] Instance shardgrp_state_machine_laws : StateMachineLaws KVServer Req Rep.
Proof.
  split.
  - apply _.
  - intros req kv. apply DoOp_server_ok.
  - intros req kv1 kv2 kv1' r. apply DoOp_equivalent.
  - intros kv _. apply enc_nonempty.
  - intros kv kv0 Hok. exists (copyServer kv). split; [apply Restore_Snapshot|].
    split; [by apply copyServer_ok|by apply copyServer_equivalent].
Qed.

Lemma initialServer_ok gid : server_ok (initialServer gid).
Proof.
  split; cbn -[replicate NShards]; rewrite ?length_replicate; try done.
  - intros i [_ Hi]%lookup_replicate. exists ∅, ∅. by rewrite !lookup_replicate_2.
  - intros i cs [[= ->] Hi]%lookup_replicate. set_solver.
Qed.

(** [StartServerShardGrp]: the initial state, which a snapshot in the persister
    replaces. *)
Definition StartServerShardGrp `{!RaftApi R (Op Req)} (n : Z) (gid : Tgid) (me : Z) (p : Persister)
    (maxraftstate : Z) : outcome (@RSM KVServer Req Rep R) :=
  MakeRSM n me p maxraftstate (initialServer gid).

(** C27: A shard group's replica never panics.  From the state it starts in,
    executing any log of requests that name existing shards and install states
    another group marshalled, a replica reaches a state in which every served
    shard has its maps and every client of a shard has an entry in the table of
    last puts; no operation on the way writes to a nil map, indexes out of
    range or fails to encode. *)
Theorem shardgrp_never_panics gid (log : list (Op Req)) :
  Forall (λ op, request_ok (op_Req op)) log →
  ∃ kv, exec log (initialServer gid) = Ret kv ∧ server_ok kv.
Proof. intros H. exact (exec_ok log (initialServer gid) (initialServer_ok gid) H). Qed.

(** ** What a client sees *)

Definition shardMap (kv : KVServer) (sh : Tshid) : kvmap :=
  default ∅ (default None (kvm kv !! Z.to_nat sh)).

Definition lastOf (kv : KVServer) (c : Z) : option LastPut := map_get (lastPutByClientId kv) c.

Lemma doGet_spec kv a :
  server_ok kv → let sh := Key2Shard (get_Key a) in
  doGet kv a = Ret (if decide (status kv sh = Serving) then kv_get (shardMap kv sh) (get_Key a)
                    else mkGetReply "" 0 ErrWrongGroup).
Proof.
  intros Hok. cbn zeta. pose proof (Key2Shard_range (get_Key a)) as Hsh. unfold doGet.
  destruct (index_status kv _ Hok Hsh) as [-> Hst]. cbn -[index].
  destruct (decide (status kv (Key2Shard (get_Key a)) = Serving)) as [E|E].
  - rewrite decide_False by tauto. rewrite E in Hst.
    destruct (ok_serving _ Hok _ Hst) as (m & cs & Hm & _).
    assert (index (kvm kv) (Key2Shard (get_Key a)) = Ret (Some m)) as ->
      by (apply index_Ret; split; [apply Hsh|done]).
    cbn. unfold kv_get, shardMap. by rewrite Hm.
  - by rewrite decide_True.
Qed.

(** What a put leaves of another shard, and of this one. *)
Lemma executePut_maps kv a kv' r :
  server_ok kv → let sh := Key2Shard (put_Key a) in
  status kv sh = Serving → executePut kv sh a = Ret (kv', r) →
  (shardMap kv' sh, put_Err r) =
    kv_put (shardMap kv sh) (put_Key a) (put_Value a) (put_Version a) ∧
  lastOf kv' (ClientId (put_info a)) = Some (mkLastPut (RequestId (put_info a)) r) ∧
  (∀ c, c ≠ ClientId (put_info a) → lastOf kv' c = lastOf kv c) ∧
  (∀ sh', in_range sh' → sh' ≠ sh → shardMap kv' sh' = shardMap kv sh') ∧
  cfgNumByShid kv' = cfgNumByShid kv ∧ shardStatuses kv' = shardStatuses kv.
Proof.
  intros Hok. cbn zeta. pose proof (Key2Shard_range (put_Key a)) as Hsh.
  set (sh := Key2Shard (put_Key a)) in *. intros E Hex.
  destruct (index_status kv _ Hok Hsh) as [_ Hst]. rewrite E in Hst.
  destruct (ok_serving _ Hok _ Hst) as (m & cs & Hm & Hcs). destruct (ok_last _ Hok) as [t Ht].
  pose proof (shard_executePut_spec kv sh a m t cs Hok Hsh Hm Ht Hcs) as Hspec.
  assert (shardMap kv sh = m) as Hmap by (unfold shardMap; by rewrite Hm).
  destruct (kv_put m (put_Key a) (put_Value a) (put_Version a)) as [m' e] eqn:Ep.
  rewrite Hspec in Hex. injection Hex as <- <-. rewrite Hmap, Ep. unfold shardMap, lastOf. cbn.
  assert (Z.to_nat sh < length (kvm kv))%nat by (by eapply lookup_lt_Some).
  rewrite list_lookup_insert_eq by done. cbn. rewrite lookup_insert_eq, Ht. split_and!; try done.
  - intros c Hc. cbn. by rewrite lookup_insert_ne.
  - intros sh' Hr Hne. rewrite list_lookup_insert_ne; [done|]. unfold in_range in *. lia.
Qed.

(** A group answers for a shard only while it serves it.  A Get or Put for
    a key whose shard the replica does not serve gets ErrWrongGroup and changes
    nothing.  A Get of a served shard reads its map.  A Put of a served shard
    that its client's last put makes a duplicate returns that put's reply and
    changes nothing; any other one is the conditional put on the shard's map,
    recorded as the client's last put, and touches no other shard. *)
Theorem shardgrp_client_ops kv :
  server_ok kv →
  (∀ a, let sh := Key2Shard (get_Key a) in
     DoOp (ReqGet a) kv =
     Ret (kv, RepGet (if decide (status kv sh = Serving) then kv_get (shardMap kv sh) (get_Key a)
                      else mkGetReply "" 0 ErrWrongGroup))) ∧
  (∀ a, let sh := Key2Shard (put_Key a) in
     (status kv sh ≠ Serving → DoOp (ReqPut a) kv = Ret (kv, RepPut (mkPutReply ErrWrongGroup))) ∧
     (∀ lp, status kv sh = Serving → lastOf kv (ClientId (put_info a)) = Some lp →
        RequestId (put_info a) ≤ lp_RequestId lp → DoOp (ReqPut a) kv = Ret (kv, RepPut (lp_Reply lp))) ∧
     (status kv sh = Serving →
        (∀ lp, lastOf kv (ClientId (put_info a)) = Some lp → lp_RequestId lp < RequestId (put_info a)) →
        ∃ kv' r, DoOp (ReqPut a) kv = Ret (kv', RepPut r) ∧
          (shardMap kv' sh, put_Err r) =
            kv_put (shardMap kv sh) (put_Key a) (put_Value a) (put_Version a) ∧
          lastOf kv' (ClientId (put_info a)) = Some (mkLastPut (RequestId (put_info a)) r) ∧
          (∀ sh', in_range sh' → sh' ≠ sh → shardMap kv' sh' = shardMap kv sh'))).
Proof.
  intros Hok. split.
  { intros a. cbn. by rewrite doGet_spec. }
  intros a. cbn zeta. pose proof (Key2Shard_range (put_Key a)) as Hsh.
  destruct (index_status kv _ Hok Hsh) as [Hi Hst]. cbn. unfold doPut, lastOf. rewrite Hi.
  cbn -[executePut]. split_and!.
  - intros Hs. by rewrite decide_True.
  - intros lp Hs Hlp Hle. rewrite decide_False by tauto. rewrite Hlp, decide_True by done. done.
  - intros Hs Hnew. rewrite decide_False by tauto. rewrite Hs in Hst.
    destruct (executePut_ok kv _ a Hok Hsh Hst) as (kv' & r & Hex & _).
    assert (doPut kv a = Ret (kv', r)) as Hput.
    { unfold doPut. rewrite Hi. cbn -[executePut]. rewrite decide_False by tauto.
      destruct (map_get _ _) as [lp|]; [|done]. specialize (Hnew lp eq_refl).
      by rewrite decide_False by lia. }
    unfold doPut in Hput. rewrite Hi in Hput. cbn -[executePut] in Hput.
    rewrite decide_False in Hput by tauto. rewrite Hput. exists kv', r.
    destruct (executePut_maps kv a kv' r Hok Hs Hex) as (? & ? & _ & ? & _). by split_and!.
Qed.

(** ** The life of a shard *)

Lemma status_insert kv k l c cl sh st sh' :
  server_ok kv → in_range sh → in_range sh' →
  status (mkKVServer k l c (<[Z.to_nat sh := st]> (shardStatuses kv)) cl) sh' =
  if decide (sh' = sh) then st else status kv sh'.
Proof.
  intros Hok Hsh Hsh'. unfold status. cbn. case_decide as E.
  - subst. by rewrite list_lookup_insert_eq by (rewrite (ok_statuses _ Hok); by apply in_range_nat).
  - rewrite list_lookup_insert_ne; [done|]. unfold in_range in *. lia.
Qed.

Lemma cfgNum_insert kv k l st cl sh num sh' :
  cfgNum (mkKVServer k l (Some (<[sh := num]> (default ∅ (cfgNumByShid kv)))) st cl) sh' =
  if decide (sh' = sh) then num else cfgNum kv sh'.
Proof.
  unfold cfgNum. cbn. case_decide as E.
  - subst. by rewrite lookup_insert_eq.
  - rewrite lookup_insert_ne by done. destruct (cfgNumByShid kv); cbn; [done|]. by rewrite lookup_empty.
Qed.

Lemma doPut_frame kv a kv' r :
  server_ok kv → doPut kv a = Ret (kv', r) →
  cfgNumByShid kv' = cfgNumByShid kv ∧ shardStatuses kv' = shardStatuses kv.
Proof.
  intros Hok H. unfold doPut in H. pose proof (Key2Shard_range (put_Key a)) as Hsh.
  destruct (index_status kv _ Hok Hsh) as [Hi _]. rewrite Hi in H. cbn -[executePut] in H.
  destruct (decide (status kv (Key2Shard (put_Key a)) ≠ Serving)) as [|Hs]; [by simplify_eq|].
  assert (status kv (Key2Shard (put_Key a)) = Serving) as E
    by (destruct (decide (status kv (Key2Shard (put_Key a)) = Serving)); tauto).
  assert (kv' = kv ∨ executePut kv (Key2Shard (put_Key a)) a = Ret (kv', r)) as [->|Hex]; [| done |].
  { destruct (map_get _ _); [case_decide|]; [left|right..]; congruence. }
  by destruct (executePut_maps kv a kv' r Hok E Hex) as (_ & _ & _ & _ & ? & ?).
Qed.

(** The life of a shard.  Whatever operation a replica executes, the
    configuration number of every shard never goes down, and a shard's status
    changes only from Absent to Serving or from Serving to Frozen, each time
    with a strictly larger configuration number, or from Frozen to Absent under
    the same one.  So a delayed message of an old configuration cannot revive,
    freeze or delete a shard. *)
Theorem shard_lifecycle req kv kv' r sh :
  server_ok kv → request_ok req → in_range sh → DoOp req kv = Ret (kv', r) →
  (status kv' sh = status kv sh ∧ cfgNum kv' sh = cfgNum kv sh) ∨
  (status kv sh = Absent ∧ status kv' sh = Serving ∧ cfgNum kv sh < cfgNum kv' sh) ∨
  (status kv sh = Serving ∧ status kv' sh = Frozen ∧ cfgNum kv sh < cfgNum kv' sh) ∨
  (status kv sh = Frozen ∧ status kv' sh = Absent ∧ cfgNum kv' sh = cfgNum kv sh).
Proof.
  intros Hok Hreq Hsh H. destruct req as [a|a|a|a|a|]; cbn in Hreq, H.
  - apply bind_ret_inv in H as (? & _ & [= <- _]). by left.
  - apply bind_ret_inv in H as ([k ?] & Hput & [= <- _]). left.
    apply doPut_frame in Hput as [Hc Hs]; [|done]. unfold status, cfgNum. by rewrite Hc, Hs.
  - rewrite FreezeShard_spec in H by done.
    destruct (decide (cfgNum kv (fz_Shard a) < fz_Num a)) as [Hlt|Hge].
    + destruct (status kv (fz_Shard a)) eqn:E; cbn in H; injection H as <- _; try (by left).
      unfold frozen. rewrite status_insert, cfgNum_insert by done.
      destruct (decide (sh = fz_Shard a)) as [->|]; [|by left]. right. right. left. auto.
    + left. case_decide; [destruct (status kv (fz_Shard a))|]; cbn in H; by injection H as <- _.
  - destruct Hreq as [Hr [ss Hd]]. destruct (ok_last _ Hok) as [t Ht].
    destruct (InstallShard_spec kv a ss t Hok Hr Hd Ht) as (t' & Hm & Heq). rewrite Heq in H.
    destruct (decide (cfgNum kv (in_Shard a) < in_Num a)) as [Hlt|Hge].
    + destruct (status kv (in_Shard a)) eqn:E; cbn in H; injection H as <- _; try (by left).
      unfold installed. rewrite status_insert, cfgNum_insert by done.
      destruct (decide (sh = in_Shard a)) as [->|]; [|by left]. right. left. auto.
    + left. case_decide; cbn in H; by injection H as <- _.
  - rewrite DeleteShard_spec in H by done.
    destruct (decide (dl_Num a = cfgNum kv (dl_Shard a))) as [He|Hne].
    + destruct (status kv (dl_Shard a)) eqn:E; cbn in H; injection H as <- _; try (by left).
      unfold deleted. rewrite status_insert, cfgNum_insert by done.
      destruct (decide (sh = dl_Shard a)) as [->|]; [|by left]. right. right. right. auto.
    + left. case_decide; cbn in H; by injection H as <- _.
  - injection H as <- _. by left.
Qed.

(** C28: Snapshots of a replica.  Restoring a snapshot on any server returns and
    gives a state that answers every further request exactly as the state the
    snapshot was taken of (only nil maps of shards that are not served become
    empty maps). *)
Theorem shardgrp_snapshot_restores kv kv0 req kv1 r :
  server_ok kv → DoOp req kv = Ret (kv1, r) →
  ∃ kv' kv1', Restore (Snapshot kv) kv0 = Ret kv' ∧ server_ok kv' ∧
    DoOp req kv' = Ret (kv1', r) ∧ equivalent kv1 kv1'.
Proof.
  intros Hok Hdo. pose proof (copyServer_equivalent kv Hok) as Heq. symmetry in Heq.
  destruct (DoOp_equivalent _ _ _ _ _ Heq Hdo) as (kv1' & Hdo' & Heq').
  exists (copyServer kv), kv1'. split_and!; try done; [apply Restore_Snapshot|].
  by apply copyServer_ok.
Qed.
End facts.

(** ** The theorems on the first group *)

Section examples.
#[local] Instance shard_state_codec : Codec ShardState := countable_codec.
#[local] Instance snapshot_data_codec : Codec SnapshotData := countable_codec.

Definition group1 : KVServer := initialServer Gid1.
Definition aPut : PutArgs := mkPutArgs (mkRequestInfo 5 1) "a" "v" 0.
Definition aFreeze : FreezeShardArgs := mkFreezeArgs 3 2.

Lemma shardgrp_never_panics_witness : ∃ kv,
  exec [mkOp 0 1 (ReqPut aPut); mkOp 0 2 (ReqFreeze aFreeze)] group1 = Ret kv ∧ server_ok kv.
Proof.
  apply (shardgrp_never_panics Gid1 [mkOp 0 1 (ReqPut aPut); mkOp 0 2 (ReqFreeze aFreeze)]).
  repeat constructor; vm_compute; congruence.
Defined.

Lemma shardgrp_client_ops_witness :
  DoOp (ReqGet (mkGetArgs "a")) group1 = Ret (group1, RepGet (mkGetReply "" 0 ErrNoKey)).
Proof.
  destruct (shardgrp_client_ops group1 (initialServer_ok Gid1)) as [H _].
  rewrite H. vm_compute. reflexivity.
Defined.

Lemma shard_lifecycle_witness : ∃ kv' r,
  DoOp (ReqFreeze aFreeze) group1 = Ret (kv', r) ∧
  (cfgNum kv' 3 = cfgNum group1 3 ∨ cfgNum group1 3 < cfgNum kv' 3).
Proof.
  destruct (DoOp (ReqFreeze aFreeze) group1) as [[kv' r]|] eqn:E; [|vm_compute in E; discriminate E].
  exists kv', r. split; [reflexivity|].
  destruct (shard_lifecycle (ReqFreeze aFreeze) group1 kv' r 3 (initialServer_ok Gid1)) as
    [[_ H]|[(_ & _ & H)|[(_ & _ & H)|(_ & _ & H)]]]; auto.
  - vm_compute; split; congruence.
  - vm_compute; split; congruence.
Defined.

(** The group after a put; a server restored from its snapshot answers the get. *)
Definition group1_put : KVServer := match DoOp (ReqPut aPut) group1 with Ret (kv, _) => kv | _ => group1 end.

Lemma group1_put_ok : server_ok group1_put.
Proof.
  destruct (doPut_ok group1 aPut (initialServer_ok Gid1)) as (kv & r & H & Hok).
  unfold group1_put, DoOp. rewrite H. exact Hok.
Qed.

Lemma shardgrp_snapshot_restores_witness : ∃ kv' kv1',
  Restore (Snapshot group1_put) group1 = Ret kv' ∧
  DoOp (ReqGet (mkGetArgs "a")) kv' = Ret (kv1', RepGet (mkGetReply "v" 1 OK)).
Proof.
  destruct (shardgrp_snapshot_restores group1_put group1 (ReqGet (mkGetArgs "a")) group1_put
    (RepGet (mkGetReply "v" 1 OK)) group1_put_ok) as (kv' & kv1' & H1 & _ & H2 & _); [vm_compute; reflexivity|].
  exists kv', kv1'. split; assumption.
Defined.
End examples.
