(* ===== verification/ShardEquiv.v ===== *)
(** * ShardEquiv: a group that owns every shard is the unsharded store

    The sharded server ([ShardGrp]) keeps twelve maps and checks at every request
    that it serves the shard of the key; the unsharded one ([KvRaft]) keeps one
    map.  To clients they are the same server as long as no shard moves. *)

From S2P Require Import Prelude RpcApi KvModel KvSpec KvStore ShardCfg Persister Raft Rsm RsmFacts KvRaft KvRaftFacts ShardGrp ShardGrpFacts.

Section equiv.
Context `{!Codec ShardState, !Codec ShardGrp.SnapshotData}.

(** What clients send, and the answers of either server. *)
Inductive ClientOp := COpGet (a : GetArgs) | COpPut (a : PutArgs).
Inductive ClientRep := CRepGet (r : GetReply) | CRepPut (r : PutReply).

Definition kvAnswer (op : ClientOp) (kv : KvRaft.KVServer) : outcome (KvRaft.KVServer * option ClientRep) :=
  match op with
  | COpGet a => r ← KvRaft.DoOp (KvRaft.ReqGet a) kv;
      Ret (r.1, match r.2 with KvRaft.RepGet x => Some (CRepGet x) | _ => None end)
  | COpPut a => r ← KvRaft.DoOp (KvRaft.ReqPut a) kv;
      Ret (r.1, match r.2 with KvRaft.RepPut x => Some (CRepPut x) | _ => None end)
  end.

Definition grpAnswer (op : ClientOp) (kv : ShardGrp.KVServer) : outcome (ShardGrp.KVServer * option ClientRep) :=
  match op with
  | COpGet a => r ← ShardGrp.DoOp (ShardGrp.ReqGet a) kv;
      Ret (r.1, match r.2 with ShardGrp.RepGet x => Some (CRepGet x) | _ => None end)
  | COpPut a => r ← ShardGrp.DoOp (ShardGrp.ReqPut a) kv;
      Ret (r.1, match r.2 with ShardGrp.RepPut x => Some (CRepPut x) | _ => None end)
  end.

Fixpoint answersOf {S} (f : ClientOp → S → outcome (S * option ClientRep)) (log : list ClientOp) (s : S)
    : outcome (list (option ClientRep)) :=
  match log with
  | [] => Ret []
  | op :: log => r ← f op s; rs ← answersOf f log r.1; Ret (r.2 :: rs)
  end.

(** The group's maps together are the one map. *)
Record same_store (kv : KvRaft.KVServer) (g : ShardGrp.KVServer) : Prop := {
  ss_ok : server_ok g;
  ss_serving sh : in_range sh → status g sh = Serving;
  ss_made : KvRaft.made kv;
  ss_last : KvRaft.lastPutByClientId kv = lastPutByClientId g;
  ss_maps k : map_get (KvRaft.kvm kv) k = shardMap g (Key2Shard k) !! k;
}.

(** A conditional put looks at and changes its own key only. *)
Lemma kv_put_local m1 m2 k v ver :
  m1 !! k = m2 !! k →
  (kv_put m1 k v ver).2 = (kv_put m2 k v ver).2 ∧
  (kv_put m1 k v ver).1 !! k = (kv_put m2 k v ver).1 !! k ∧
  (∀ k', k' ≠ k → (kv_put m1 k v ver).1 !! k' = m1 !! k').
Proof.
  intros Hk. unfold kv_put, kv_put_err. rewrite Hk. cbn [fst snd].
  destruct (m2 !! k) eqn:E; repeat case_decide; split_and!; try done;
    rewrite ?lookup_insert_eq, ?Hk, ?E; try done; intros; by apply lookup_insert_ne.
Qed.

Lemma same_get kv g a :
  same_store kv g → ShardGrp.doGet g a = Ret (KvRaft.doGet kv a).
Proof.
  intros [Hok Hs Hm Hl Hk]. rewrite doGet_spec by done.
  rewrite decide_True by apply Hs, Key2Shard_range. unfold KvRaft.doGet, kv_get. rewrite Hk. done.
Qed.

Lemma same_executePut kv g a :
  same_store kv g →
  ∃ kv' g' r, KvRaft.executePut kv a = Ret (kv', r) ∧
    ShardGrp.executePut g (Key2Shard (put_Key a)) a = Ret (g', r) ∧ same_store kv' g'.
Proof.
  intros [Hok Hs Hm Hl Hk]. set (sh := Key2Shard (put_Key a)) in *.
  assert (in_range sh) as Hsh by apply Key2Shard_range.
  destruct (index_status g sh Hok Hsh) as [_ Hst]. rewrite (Hs sh Hsh) in Hst.
  destruct (executePut_ok g sh a Hok Hsh Hst) as (g' & r & Hex & Hok').
  destruct (executePut_maps g a g' r Hok (Hs sh Hsh) Hex) as (Hput & Hlast & Hother & Hmaps & _ & Hsts).
  fold sh in Hput, Hmaps.
  destruct kv as [m t]. destruct Hm as [[m' Hm] [t' Ht]]. cbn in *. subst m t.
  pose proof (Hk (put_Key a)) as Hkk. cbn in Hkk. fold sh in Hkk.
  destruct (kv_put_local m' (shardMap g sh) (put_Key a) (put_Value a) (put_Version a) Hkk) as (He & Hv & Hfr).
  destruct (kv_put_local (shardMap g sh) m' (put_Key a) (put_Value a) (put_Version a) (eq_sym Hkk)) as (_ & _ & Hfr2).
  rewrite <-Hput in He, Hv, Hfr2. cbn [fst snd] in He, Hv, Hfr2.
  destruct (kv_put m' (put_Key a) (put_Value a) (put_Version a)) as [m1 e] eqn:E. cbn [fst snd] in He, Hv, Hfr.
  subst e.
  eexists _, g', r. split; [|split; [exact Hex|]].
  - rewrite executePut_spec, E. by destruct r.
  - split; cbn.
    + done.
    + intros sh' Hsh'. unfold status in *. rewrite Hsts. by apply Hs.
    + by split; eexists.
    + destruct (ok_last _ Hok') as [t1 Ht1]. rewrite Ht1. f_equal. apply map_eq. intros c.
      unfold lastOf in *. rewrite Ht1 in Hlast, Hother. rewrite <-Hl in Hother. cbn in Hlast, Hother.
      destruct (decide (c = ClientId (put_info a))) as [->|Hne].
      * by rewrite lookup_insert_eq, Hlast.
      * by rewrite lookup_insert_ne, Hother.
    + intros k. destruct (decide (k = put_Key a)) as [->|Hne]; [by rewrite Hv|].
      rewrite Hfr by done. specialize (Hk k). cbn in Hk. rewrite Hk.
      destruct (decide (Key2Shard k = sh)) as [Heq|Hshne].
      * by rewrite Heq, Hfr2.
      * by rewrite Hmaps by (done || apply Key2Shard_range).
Qed.

Lemma same_answer op kv g :
  same_store kv g →
  ∃ kv' g' r, kvAnswer op kv = Ret (kv', r) ∧ grpAnswer op g = Ret (g', r) ∧ same_store kv' g'.
Proof.
  intros H. destruct op as [a|a].
  - exists kv, g, (Some (CRepGet (KvRaft.doGet kv a))). unfold kvAnswer, grpAnswer. cbn.
    rewrite (same_get kv g a H). done.
  - assert (∃ kv' g' r, KvRaft.doPut kv a = Ret (kv', r) ∧ ShardGrp.doPut g a = Ret (g', r) ∧ same_store kv' g')
      as (kv' & g' & r & H1 & H2 & H3).
    { unfold KvRaft.doPut, ShardGrp.doPut. cbv zeta.
      destruct (index_status g (Key2Shard (put_Key a)) (ss_ok _ _ H)) as [-> _]; [apply Key2Shard_range|].
      cbn [mbind outcome_bind]. rewrite (ss_serving _ _ H) by apply Key2Shard_range.
      rewrite decide_False by tauto. rewrite <-(ss_last _ _ H).
      destruct (map_get (KvRaft.lastPutByClientId kv) (ClientId (put_info a))) as [lp|];
        [case_decide|]; [by exists kv, g, (lp_Reply lp)|by apply same_executePut..]. }
    exists kv', g', (Some (CRepPut r)). unfold kvAnswer, grpAnswer. cbn. by rewrite H1, H2.
Qed.

(** C20: Sharding is invisible.  On every log of Get and Put requests, from any
    clients and with any repetitions, a fresh shard group that owns all shards
    and a fresh unsharded server both execute every request, and give the same
    answers. *)
Theorem unsharded_equivalent log :
  ∃ rs, answersOf kvAnswer log emptyServer = Ret rs ∧
        answersOf grpAnswer log (initialServer Gid1) = Ret rs.
Proof.
  assert (∀ kv g, same_store kv g → ∃ rs, answersOf kvAnswer log kv = Ret rs ∧ answersOf grpAnswer log g = Ret rs)
    as Hgen.
  { induction log as [|op log IH]; intros kv g H; [by exists []|]. cbn [answersOf].
    destruct (same_answer op kv g H) as (kv' & g' & r & -> & -> & H'). cbn [mbind outcome_bind fst snd].
    destruct (IH kv' g' H') as (rs & -> & ->). by exists (r :: rs). }
  apply Hgen. split; [apply initialServer_ok| |by split; eexists|done|].
  - intros sh Hsh. unfold status. cbn -[replicate NShards]. rewrite lookup_replicate_2; [done|].
    by apply in_range_nat.
  - intros k. unfold shardMap. cbn -[replicate NShards Key2Shard].
    rewrite lookup_replicate_2 by (apply in_range_nat, Key2Shard_range). done.
Qed.
End equiv.
