(* ===== verification/ShardClerk.v ===== *)
(** * ShardClerk: the clerk of one shard group

    Models [src/src/shardkv/shardgrp/client.go].  Unlike the clerk of [KvRaft]
    its loops give up after two rounds over the servers, with
    [ErrRetryExhausted], so that the caller can ask for the configuration
    again.  [net k] is what the [k]-th call came back with, [None] when the RPC
    failed. *)

From S2P Require Import Prelude RpcApi KvSpec KvStore ShardCfg Persister Raft Rsm KvRaft ShardGrp.

(** [backoffWithJitter(round)]: the exponential backoff is cut at one second. *)
Definition backoffWithJitter (backoffTime : Z) (round : nat) (rnd : Z) : outcome Z :=
  let backoff := Z.min 1000 (doubleBackoff round backoffTime) in
  if decide (backoff `quot` 2 ≤ 0) then Panic (GoPanic "invalid argument to Int63n")
  else Ret (backoff `quot` 2 + rnd mod (backoff `quot` 2)).

Record Clerk := mkClerk {
  ck_servers : Z;        (* len(ck.servers) *)
  ck_leader : Z;
  ck_clientId : Z;
  ck_maxAttempts : Z;
  ck_backoffTime : Z;
}.

Definition MakeClerk (servers clientId : Z) : Clerk :=
  mkClerk servers 0 clientId (servers * 2) 100.

Definition set_leader (leader : Z) (ck : Clerk) : Clerk :=
  mkClerk (ck_servers ck) leader (ck_clientId ck) (ck_maxAttempts ck) (ck_backoffTime ck).

(** The five switches on [reply.Err]. *)
Definition classifyGet (e : Err) : Verdict :=
  match e with OK | ErrNoKey | ErrWrongGroup => Answer | ErrWrongLeader => Retry | _ => Undefined end.
Definition classifyPut (e : Err) : Verdict :=
  match e with
  | OK | ErrNoKey | ErrWrongGroup | ErrVersion => Answer
  | ErrWrongLeader => Retry
  | _ => Undefined
  end.
Definition classifyShard (e : Err) : Verdict :=
  match e with OK | ErrWrongGroup => Answer | ErrWrongLeader => Retry | _ => Undefined end.

Section loop.
Context {Reply : Type} (reply_Err : Reply → Err) (classify : Err → Verdict).

(** [for attempts < maxAttempt], with [tries = maxAttempt - attempts].
    [Ret None]: attempts exhausted. *)
Fixpoint tryLoop (n leader : Z) (tries : nat) (net : nat → option Reply)
    : outcome (option (Reply * Z)) :=
  match tries with
  | O => Ret None
  | S tries =>
      let again := tryLoop n ((leader + 1) `rem` n) tries (λ k, net (S k)) in
      match net 0%nat with
      | None => again
      | Some reply =>
          match classify (reply_Err reply) with
          | Answer => Ret (Some (reply, leader))
          | Retry => again
          | Undefined => Panic (GoPanic "undefined rpc error type")
          end
      end
  end.

Definition call (ck : Clerk) (net : nat → option Reply) : outcome (option Reply * Clerk) :=
  res ← tryLoop (ck_servers ck) (ck_leader ck) (Z.to_nat (ck_maxAttempts ck)) net;
  Ret (match res : option (Reply * Z) with
       | Some (reply, l) => (Some reply, set_leader l ck)
       | None => (None, ck)
       end).
End loop.

Definition Get (ck : Clerk) (net : nat → option GetReply) : outcome (GetReply * Clerk) :=
  '(r, ck) ← call get_Err classifyGet ck net;
  Ret (default (mkGetReply "" 0 ErrRetryExhausted) r, ck).

Definition putArgs (ck : Clerk) (requestId : Z) (key value : string) (version : Tversion) : PutArgs :=
  mkPutArgs (mkRequestInfo (ck_clientId ck) requestId) key value version.

Definition Put (ck : Clerk) (net : nat → option PutReply) : outcome (Err * Clerk) :=
  '(r, ck) ← call put_Err classifyPut ck net;
  Ret (default ErrRetryExhausted (put_Err <$> (r : option PutReply)), ck).

Definition FreezeShard (ck : Clerk) (net : nat → option FreezeShardReply)
    : outcome (bytes * Err * Clerk) :=
  '(r, ck) ← call fzr_Err classifyShard ck net;
  Ret (match r : option FreezeShardReply with
       | Some r => (fzr_State r, fzr_Err r)
       | None => ([], ErrRetryExhausted)
       end, ck).

Definition InstallShard (ck : Clerk) (net : nat → option InstallShardReply) : outcome (Err * Clerk) :=
  '(r, ck) ← call inr_Err classifyShard ck net;
  Ret (default ErrRetryExhausted (inr_Err <$> (r : option InstallShardReply)), ck).

Definition DeleteShard (ck : Clerk) (net : nat → option DeleteShardReply) : outcome (Err * Clerk) :=
  '(r, ck) ← call dlr_Err classifyShard ck net;
  Ret (default ErrRetryExhausted (dlr_Err <$> (r : option DeleteShardReply)), ck).

(** ** Facts *)

Section facts.
Context {Reply : Type} (reply_Err : Reply → Err) (classify : Err → Verdict).

Lemma tryLoop_spec n leader tries net :
  0 ≤ leader < n →
  match tryLoop reply_Err classify n leader tries net with
  | Ret (Some (reply, l)) => 0 ≤ l < n ∧ classify (reply_Err reply) = Answer ∧
      ∃ k, (k < tries)%nat ∧ net k = Some reply ∧ l = (leader + Z.of_nat k) mod n
  | Ret None => ∀ k reply, (k < tries)%nat → net k = Some reply → classify (reply_Err reply) = Retry
  | Panic _ => ∃ k reply, (k < tries)%nat ∧ net k = Some reply ∧
                 classify (reply_Err reply) = Undefined
  end.
Proof.
  revert leader net. induction tries as [|tries IH]; intros leader net Hl; cbn; [intros; lia|].
  assert (0 ≤ (leader + 1) `rem` n < n) as Hl'.
  { rewrite Z.rem_mod_nonneg by lia. apply Z.mod_pos_bound. lia. }
  specialize (IH _ (λ k, net (S k)) Hl').
  assert ((∀ r, net 0%nat = Some r → classify (reply_Err r) = Retry) →
    match tryLoop reply_Err classify n ((leader + 1) `rem` n) tries (λ k, net (S k)) with
    | Ret (Some (reply, l)) => 0 ≤ l < n ∧ classify (reply_Err reply) = Answer ∧
        ∃ k, (k < S tries)%nat ∧ net k = Some reply ∧ l = (leader + Z.of_nat k) mod n
    | Ret None => ∀ k reply, (k < S tries)%nat → net k = Some reply → classify (reply_Err reply) = Retry
    | Panic _ => ∃ k reply, (k < S tries)%nat ∧ net k = Some reply ∧
                   classify (reply_Err reply) = Undefined
    end) as Hagain.
  { intros Hr. destruct (tryLoop _ _ n _ tries _) as [[[reply l]|]|].
    - destruct IH as (? & ? & k & ? & ? & ->). split_and!; try done; try lia. exists (S k).
      split_and!; try done; [lia|]. rewrite Z.rem_mod_nonneg, Zplus_mod_idemp_l by lia. f_equal. lia.
    - intros [|k] reply ??; [by apply Hr|]. apply (IH k); [lia|done].
    - destruct IH as (k & reply & ? & ? & ?). exists (S k), reply. split_and!; try done. lia. }
  destruct (net 0%nat) as [r|] eqn:E; [|by apply Hagain].
  destruct (classify (reply_Err r)) eqn:Ec.
  - split_and!; try done; try lia. exists 0%nat. split_and!; try done; [lia|].
    rewrite Z.add_0_r, Z.mod_small; lia.
  - apply Hagain. by intros ? [= <-].
  - exists 0%nat, r. split_and!; try done. lia.
Qed.
End facts.

(** The group clerk's Put gives up in time and reports truthfully.  After at
    most two calls to every server it returns an error of the protocol: one that
    a server of the group replied, or ErrRetryExhausted when every reply it got
    was ErrWrongLeader.  It panics only on an error the Put handler never
    produces, and the leader it remembers is a server index. *)
Theorem shard_clerk_put_bounded n clientId (net : nat → option PutReply) :
  0 < n →
  (∀ k r, net k = Some r → put_Err r ∈ [OK; ErrNoKey; ErrVersion; ErrWrongGroup; ErrWrongLeader]) →
  ∃ e ck', Put (MakeClerk n clientId) net = Ret (e, ck') ∧ 0 ≤ ck_leader ck' < n ∧
    ((e = ErrRetryExhausted ∧
      ∀ k r, Z.of_nat k < 2 * n → net k = Some r → put_Err r = ErrWrongLeader) ∨
     (e ∈ [OK; ErrNoKey; ErrVersion; ErrWrongGroup] ∧
      ∃ k r, Z.of_nat k < 2 * n ∧ net k = Some r ∧ put_Err r = e)).
Proof.
  intros Hn Herr. unfold Put, call. cbn -[tryLoop].
  pose proof (tryLoop_spec put_Err classifyPut n 0 (Z.to_nat (n * 2)) net ltac:(lia)) as H.
  destruct (tryLoop put_Err classifyPut n 0 (Z.to_nat (n * 2)) net) as [[[r l]|]|]; cbn.
  - destruct H as (Hl & Hc & k & Hk & Hnet & _). eexists _, _. split; [done|]. cbn.
    split; [lia|]. right. split.
    + destruct (put_Err r); try done; set_solver.
    + exists k, r. split_and!; try done. lia.
  - eexists _, _. split; [done|]. cbn. split; [lia|]. left. split; [done|].
    intros k r Hk Hnet. specialize (H k r ltac:(lia) Hnet). by destruct (put_Err r).
  - exfalso. destruct H as (k & r & _ & Hnet & Hu). specialize (Herr k r Hnet).
    destruct (put_Err r); try done; set_solver.
Qed.

Lemma shard_clerk_put_bounded_witness : ∃ e ck',
  Put (MakeClerk 3 9) (λ k, if decide (k = 4%nat) then Some (mkPutReply OK) else None) = Ret (e, ck') ∧
  0 ≤ ck_leader ck' < 3.
Proof.
  destruct (shard_clerk_put_bounded 3 9
    (λ k, if decide (k = 4%nat) then Some (mkPutReply OK) else None)) as (e & ck' & H1 & H2 & _).
  - lia.
  - intros k r. destruct (decide (k = 4%nat)); [|discriminate]. intros [= <-]. cbn. set_solver.
  - exists e, ck'. split; assumption.
Defined.
