(* ===== verification/Migration.v ===== *)
(** * Migration: moving one shard between two groups

    The per-shard goroutine of [migrateShards] in
    [src/src/shardkv/shardctrler/shardctrler.go] (lines 177-230), run by any
    number of controllers for the same configuration at the same time, against
    the two groups of [ShardGrp].  A group is one logical server here, which is
    what [RsmFacts.replica_follows_log] is for.  RPCs fail before or after the
    group has executed them, and clients keep reading and writing both groups. *)

From S2P Require Import Prelude RpcApi KvModel KvSpec KvStore ShardCfg Persister Raft Rsm RsmFacts KvRaft ShardGrp ShardGrpFacts ShardClerk.

(** Where a worker is: in the loop of step 1, 2 or 3, done, stopped because the
    configuration is superseded, or ended by a panic of the group's clerk. *)
Inductive Worker :=
| WFreeze | WInstall (data : bytes) | WDelete | WDone | WSuperseded | WCrashed.

(** One iteration of a loop [for err == ErrRetryExhausted]: [e] is the error the
    clerk returned, [None] if it panicked. *)
Definition afterCall (e : option Err) (superseded : bool) (stay next : Worker) : Worker :=
  match e with
  | None => WCrashed
  | Some ErrRetryExhausted => if superseded then WSuperseded else stay
  | Some _ => next
  end.

(** What the group's clerk makes of the error a server replied. *)
Definition clerkErr (e : Err) : option Err :=
  match classifyShard e with
  | Answer => Some e
  | Retry => Some ErrRetryExhausted
  | Undefined => None
  end.

Section migration.
Context `{!Codec ShardState, !Codec SnapshotData}.
Context (sh : Tshid) (num : Tnum).

Record State := mkState { src : KVServer; dst : KVServer; workers : list Worker }.

Definition ok {A} (m : outcome A) : option A :=
  match m with Ret a => Some a | Panic _ => None end.

(** A worker's RPC: [executed] says whether a server of the group executed it,
    [heard] whether the reply came back. *)
Definition workerStep (w : nat) (executed heard superseded : bool) (s : State) : option State :=
  pc ← workers s !! w;
  let seen (e : Err) := if heard then clerkErr e else Some ErrRetryExhausted in
  let silent := Some (mkState (src s) (dst s)
    (<[w := afterCall (Some ErrRetryExhausted) superseded pc pc]> (workers s))) in
  match pc with
  | WFreeze =>
      if executed then
        '(kv, r) ← ok (ShardGrp.FreezeShard (mkFreezeArgs sh num) (src s));
        Some (mkState kv (dst s) (<[w := afterCall (seen (fzr_Err r)) superseded WFreeze
                                           (WInstall (fzr_State r))]> (workers s)))
      else silent
  | WInstall data =>
      if executed then
        '(kv, r) ← ok (ShardGrp.InstallShard (mkInstallArgs sh data num) (dst s));
        Some (mkState (src s) kv (<[w := afterCall (seen (inr_Err r)) superseded (WInstall data)
                                           WDelete]> (workers s)))
      else silent
  | WDelete =>
      if executed then
        '(kv, r) ← ok (ShardGrp.DeleteShard (mkDeleteArgs sh num) (src s));
        Some (mkState kv (dst s) (<[w := afterCall (seen (dlr_Err r)) superseded WDelete
                                           WDone]> (workers s)))
      else silent
  | _ => None
  end.

(** A client's Get or Put at one of the groups. *)
Definition clientStep (atDst : bool) (req : Req) (s : State) : option State :=
  match req with
  | ReqGet _ | ReqPut _ =>
      '(kv, _) ← ok (ShardGrp.DoOp req (if atDst then dst s else src s));
      Some (if atDst then mkState (src s) kv (workers s) else mkState kv (dst s) (workers s))
  | _ => None
  end.

Inductive step : State → State → Prop :=
| step_worker w ex he su s s' : workerStep w ex he su s = Some s' → step s s'
| step_client d req s s' : clientStep d req s = Some s' → step s s'.

(** Before the migration: the source serves the shard, the destination does
    not have it, and the controllers are about to start. *)
Definition initial (s : State) : Prop :=
  server_ok (src s) ∧ server_ok (dst s) ∧ status (src s) sh = Serving ∧
  status (dst s) sh = Absent ∧ cfgNum (src s) sh < num ∧ cfgNum (dst s) sh < num ∧
  ∀ w pc, workers s !! w = Some pc → pc = WFreeze.

(** The shard's data, wherever it is. *)
Definition view (s : State) : kvmap :=
  if decide (status (dst s) sh = Serving) then shardMap (dst s) sh else shardMap (src s) sh.

(** ** The phases *)

Definition worker_ok (m : kvmap) (phase : nat) (pc : Worker) : Prop :=
  match pc with
  | WFreeze | WSuperseded => True
  | WInstall data => (phase = 1%nat ∧ ∃ ss, dec data = Some ss ∧ ss_Kv ss = Some m) ∨ phase = 2%nat
  | WDelete | WDone => phase = 2%nat
  | WCrashed => False
  end.

Record phase_ok (s : State) (phase : nat) : Prop := {
  ph_src : server_ok (src s);
  ph_dst : server_ok (dst s);
  ph_workers w pc : workers s !! w = Some pc → worker_ok (shardMap (src s) sh) phase pc;
  ph_status : match phase with
    | 0%nat => status (src s) sh = Serving ∧ cfgNum (src s) sh < num ∧
               status (dst s) sh = Absent ∧ cfgNum (dst s) sh < num
    | 1%nat => status (src s) sh = Frozen ∧ cfgNum (src s) sh = num ∧
               status (dst s) sh = Absent ∧ cfgNum (dst s) sh < num
    | _ => phase = 2%nat ∧ status (src s) sh ≠ Serving ∧ cfgNum (src s) sh = num ∧
           status (dst s) sh = Serving ∧ cfgNum (dst s) sh = num
    end;
  ph_done w : workers s !! w = Some WDone → status (src s) sh = Absent;
}.

Hypothesis Hsh : in_range sh.

Lemma initial_phase s : initial s → phase_ok s 0.
Proof.
  intros (? & ? & ? & ? & ? & ? & Hw). split; try done.
  - intros w pc Hpc. by rewrite (Hw _ _ Hpc).
  - intros w Hpc. by apply Hw in Hpc.
Qed.

(** The map a group holds of the shard after each transition. *)
Lemma shardMap_frozen kv : shardMap (frozen kv sh num) sh = shardMap kv sh.
Proof. done. Qed.

Lemma shardMap_installed kv ss t :
  server_ok kv → shardMap (installed kv sh num ss t) sh = default ∅ (ss_Kv ss).
Proof.
  intros Hok. unfold shardMap. cbn. rewrite list_lookup_insert_eq; [done|].
  rewrite (ok_kvm _ Hok). by apply in_range_nat.
Qed.

Lemma status_after kv ss t :
  server_ok kv →
  (status (frozen kv sh num) sh = Frozen ∧ cfgNum (frozen kv sh num) sh = num) ∧
  (status (installed kv sh num ss t) sh = Serving ∧ cfgNum (installed kv sh num ss t) sh = num) ∧
  (status (deleted kv sh num) sh = Absent ∧ cfgNum (deleted kv sh num) sh = num).
Proof.
  intros Hok. unfold frozen, installed, deleted.
  rewrite !status_insert, !cfgNum_insert by done. by rewrite !decide_True.
Qed.

(** Recording a worker's next program point. *)
Lemma workers_insert (P : Worker → Prop) (l : list Worker) w pc :
  (∀ v x, l !! v = Some x → P x) → P pc → ∀ v x, <[w := pc]> l !! v = Some x → P x.
Proof. intros Hl Hp v x [(_ & -> & _)|[_ ?]]%list_lookup_insert_Some; eauto. Qed.

Lemma worker_ok_later m m' phase phase' pc :
  worker_ok m phase pc → (phase' = 1%nat → m = m') → (phase ≤ phase')%nat → (phase' ≤ 2)%nat →
  (phase = 1%nat → phase' = 1%nat ∨ phase' = 2%nat) → worker_ok m' phase' pc.
Proof.
  destruct pc; cbn; try done; try lia. intros [[-> Hd]| -> ] Hm H1 H2 H3.
  - destruct (H3 eq_refl) as [->| ->]; [left|by right]. by rewrite <-Hm.
  - right. lia.
Qed.

(** An RPC that nobody executed leaves everything as it was. *)
Lemma phase_silent s phase w pc su :
  phase_ok s phase → workers s !! w = Some pc → pc ≠ WDone →
  phase_ok (mkState (src s) (dst s)
    (<[w := afterCall (Some ErrRetryExhausted) su pc pc]> (workers s))) phase.
Proof.
  intros [] Hpc Hnd. split; cbn [src dst workers]; try done.
  - apply (workers_insert (worker_ok _ phase)); [done|]. destruct su; [done|]. by eapply ph_workers0.
  - intros v [(_ & He & _)|[_ ?]]%list_lookup_insert_Some; [|by eapply ph_done0].
    destruct su; cbn in He; congruence.
Qed.

(** After a reply of OK, heard or not. *)
Lemma afterCall_OK (P : Worker → Prop) (heard su : bool) stay next :
  P stay → P next → P WSuperseded →
  P (afterCall (if heard then clerkErr OK else Some ErrRetryExhausted) su stay next).
Proof. by destruct heard, su. Qed.

Definition freezeData (kv : KVServer) : bytes := enc (shardState kv (Z.to_nat sh)).

Lemma freezeData_ok kv : ∃ ss, dec (freezeData kv) = Some ss ∧ ss_Kv ss = Some (shardMap kv sh).
Proof. eexists. split; [apply dec_enc|done]. Qed.

Lemma phase_freeze s phase w he su s' :
  phase_ok s phase → workers s !! w = Some WFreeze → workerStep w true he su s = Some s' →
  ∃ phase', phase_ok s' phase' ∧ view s' = view s.
Proof.
  intros [] Hpc H. unfold workerStep in H. rewrite Hpc in H. cbn -[ShardGrp.FreezeShard] in H.
  rewrite FreezeShard_spec in H by done. cbn -[enc] in H.
  assert (worker_ok (shardMap (src s) sh) 1 (WInstall (freezeData (src s)))) as Hinst.
  { left. split; [done|]. apply freezeData_ok. }
  destruct phase as [|[|phase]].
  - destruct ph_status0 as (Hs & Hn & Hd & Hdn). rewrite decide_True, Hs in H by done.
    injection H as <-. exists 1%nat. split.
    + split; cbn [src dst workers]; try done.
      * by apply frozen_ok.
      * apply (workers_insert (worker_ok _ 1)).
        -- intros v x Hx%ph_workers0. eapply worker_ok_later; [exact Hx|done|lia..].
        -- apply afterCall_OK; [done|exact Hinst|done].
      * destruct (status_after (src s) (mkShardState None None) ∅ ph_src0) as ([] & _). by split_and!.
      * intros v [(_ & He & _)|[_ Hv]]%list_lookup_insert_Some.
        -- exfalso. revert He. by destruct he, su.
        -- apply ph_workers0 in Hv. done.
    + unfold view. cbn [src dst]. by rewrite Hd, !decide_False.
  - destruct ph_status0 as (Hs & Hn & Hd & Hdn).
    rewrite decide_False, decide_True, Hs in H by lia. injection H as <-. exists 1%nat.
    split; [|done]. split; cbn [src dst workers]; try done.
    + apply (workers_insert (worker_ok _ 1)); [done|]. apply afterCall_OK; [done|exact Hinst|done].
    + intros v [(_ & He & _)|[_ Hv]]%list_lookup_insert_Some; [revert He; by destruct he, su|].
      by eapply ph_done0.
  - destruct ph_status0 as (Eph & Hs & Hn & Hd & Hdn). assert (phase = 0%nat) as -> by lia.
    rewrite decide_False, decide_True in H by lia.
    assert (s' = mkState (src s) (dst s) (<[w := afterCall (if he then clerkErr OK else Some ErrRetryExhausted)
      su WFreeze (WInstall (freezeData (src s)))]> (workers s))) as ->.
    { destruct (status (src s) sh); [|done|]; by injection H as <-. }
    exists 2%nat. split; [|done]. split; cbn [src dst workers]; try done.
    + apply (workers_insert (worker_ok _ 2)); [done|]. apply afterCall_OK; [done|by right|done].
    + intros v [(_ & He & _)|[_ Hv]]%list_lookup_insert_Some; [revert He; by destruct he, su|].
      by eapply ph_done0.
Qed.

Lemma phase_install s phase w data he su s' :
  phase_ok s phase → workers s !! w = Some (WInstall data) → workerStep w true he su s = Some s' →
  ∃ phase', phase_ok s' phase' ∧ view s' = view s.
Proof.
  intros [] Hpc H. pose proof (ph_workers0 _ _ Hpc) as Hw.
  unfold workerStep in H. rewrite Hpc in H. cbn -[ShardGrp.InstallShard] in H.
  destruct Hw as [[-> (ss & Hdec & Hkv)]| ->].
  - destruct ph_status0 as (Hs & Hn & Hd & Hdn). destruct (ok_last _ ph_dst0) as [t Ht].
    destruct (InstallShard_spec (dst s) (mkInstallArgs sh data num) ss t ph_dst0 Hsh Hdec Ht)
      as (t' & Hm & Heq). cbn in Heq. rewrite Heq in H.
    rewrite decide_True, Hd in H by done. injection H as <-. exists 2%nat. split.
    + split; cbn [src dst workers]; try done.
      * by eapply installed_ok.
      * apply (workers_insert (worker_ok _ 2)).
        -- intros v x Hx%ph_workers0. eapply worker_ok_later; [exact Hx|lia..].
        -- apply afterCall_OK; [by right|done|done].
      * destruct (status_after (dst s) ss t' ph_dst0) as (_ & [] & _). rewrite Hs. by split_and!.
      * intros v [(_ & He & _)|[_ Hv]]%list_lookup_insert_Some; [revert He; by destruct he, su|].
        by apply ph_workers0 in Hv.
    + destruct (status_after (dst s) ss t' ph_dst0) as (_ & [Hst' _] & _).
      unfold view. cbn [src dst]. rewrite Hd, Hst'.
      rewrite decide_True, decide_False by done. rewrite shardMap_installed by done. by rewrite Hkv.
  - destruct ph_status0 as (_ & Hs & Hn & Hd & Hdn).
    unfold ShardGrp.InstallShard in H. cbn -[enc] in H. rewrite decide_False, decide_True in H by lia.
    destruct (index_status (dst s) sh ph_dst0 Hsh) as [Hi _]. rewrite Hi, Hd in H. cbn in H.
    injection H as <-. exists 2%nat. split; [|done]. split; cbn [src dst workers]; try done.
    + apply (workers_insert (worker_ok _ 2)); [done|]. apply afterCall_OK; [by right|done|done].
    + intros v [(_ & He & _)|[_ Hv]]%list_lookup_insert_Some; [revert He; by destruct he, su|].
      by eapply ph_done0.
Qed.

Lemma phase_delete s phase w he su s' :
  phase_ok s phase → workers s !! w = Some WDelete → workerStep w true he su s = Some s' →
  ∃ phase', phase_ok s' phase' ∧ view s' = view s.
Proof.
  intros [] Hpc H. pose proof (ph_workers0 _ _ Hpc) as Hw. cbn in Hw. subst phase.
  destruct ph_status0 as (_ & Hs & Hn & Hd & Hdn).
  unfold workerStep in H. rewrite Hpc in H. cbn -[ShardGrp.DeleteShard] in H.
  rewrite DeleteShard_spec in H by done. cbn in H. rewrite decide_True in H by done.
  assert (∃ kv, server_ok kv ∧ status kv sh = Absent ∧ cfgNum kv sh = num ∧
    s' = mkState kv (dst s) (<[w := afterCall (if he then clerkErr OK else Some ErrRetryExhausted)
           su WDelete WDone]> (workers s))) as (kv & Hok & Hst & Hcfg & ->).
  { destruct (status (src s) sh) eqn:E; cbn in H; [|done|]; injection H as <-.
    - by exists (src s).
    - destruct (status_after (src s) (mkShardState None None) ∅ ph_src0) as (_ & _ & []).
      exists (deleted (src s) sh num). split_and!; try done. by apply deleted_ok. }
  exists 2%nat. split.
  - split; cbn [src dst workers]; try done.
    + apply (workers_insert (worker_ok _ 2)).
      * intros v x Hx%ph_workers0. eapply worker_ok_later; [exact Hx|lia..].
      * by apply afterCall_OK.
    + by rewrite Hst.
  - unfold view. cbn [src dst]. by rewrite Hd, !decide_True.
Qed.

(** ** Clients *)

(** What a client's request does to a group: nothing, or a conditional put on
    the shard of its key, if the group serves that shard. *)
Lemma client_effect kv req kv' r :
  server_ok kv → match req with ReqGet _ | ReqPut _ => True | _ => False end →
  ShardGrp.DoOp req kv = Ret (kv', r) →
  server_ok kv' ∧ shardStatuses kv' = shardStatuses kv ∧ cfgNumByShid kv' = cfgNumByShid kv ∧
  (shardMap kv' sh = shardMap kv sh ∨
   status kv sh = Serving ∧ ∃ a e, req = ReqPut a ∧ Key2Shard (put_Key a) = sh ∧
     (shardMap kv' sh, e) = kv_put (shardMap kv sh) (put_Key a) (put_Value a) (put_Version a)).
Proof.
  intros Hok Hreq Hdo.
  destruct (DoOp_server_ok req kv Hok) as (kv1 & r1 & Hdo1 & Hok1); [by destruct req|].
  rewrite Hdo in Hdo1. injection Hdo1 as <- <-. split; [done|].
  destruct req as [a|a| | | |]; try done; cbn in Hdo.
  - apply bind_ret_inv in Hdo as (? & _ & [= <- _]). split_and!; try done. by left.
  - apply bind_ret_inv in Hdo as ([kv1 r1] & Hput & [= <- _]).
    destruct (doPut_frame _ _ _ _ Hok Hput) as [? ?]. split_and!; try done.
    pose proof (Key2Shard_range (put_Key a)) as Hr. unfold doPut in Hput.
    destruct (index_status kv _ Hok Hr) as [Hi _]. rewrite Hi in Hput. cbn -[executePut] in Hput.
    destruct (decide (status kv (Key2Shard (put_Key a)) ≠ Serving)) as [|Hs];
      [simplify_eq; by left|].
    assert (status kv (Key2Shard (put_Key a)) = Serving) as E
      by (destruct (decide (status kv (Key2Shard (put_Key a)) = Serving)); tauto).
    assert (kv1 = kv ∨ executePut kv (Key2Shard (put_Key a)) a = Ret (kv1, r1)) as [->|Hex];
      [|by left|].
    { destruct (map_get _ _); [case_decide|]; [left|right..]; congruence. }
    destruct (executePut_maps kv a kv1 r1 Hok E Hex) as (Hm & _ & _ & Hoth & _).
    destruct (decide (Key2Shard (put_Key a) = sh)) as [<-|Hne]; [|left; by apply Hoth].
    right. split; [done|]. by exists a, (put_Err r1).
Qed.

Lemma phase_client s phase d req s' :
  phase_ok s phase → clientStep d req s = Some s' →
  phase_ok s' phase ∧
  (view s' = view s ∨ ∃ a e, req = ReqPut a ∧ Key2Shard (put_Key a) = sh ∧
     (view s', e) = kv_put (view s) (put_Key a) (put_Value a) (put_Version a)).
Proof.
  intros [] H.
  assert (match req with ReqGet _ | ReqPut _ => True | _ => False end) as Hreq by (by destruct req).
  set (kv := if d then dst s else src s).
  assert (∃ kv' r, ShardGrp.DoOp req kv = Ret (kv', r) ∧
    s' = if d then mkState (src s) kv' (workers s) else mkState kv' (dst s) (workers s))
    as (kv' & r & Hdo & ->).
  { unfold clientStep in H. destruct req; try done;
      apply bind_Some in H as ([kv' r] & Hdo & [= <-]); exists kv', r; (split; [|done]);
      fold kv in Hdo; destruct (ShardGrp.DoOp _ kv) as [[]|]; try done; by injection Hdo as -> ->. }
  assert (server_ok kv) as Hkv by (by destruct d).
  destruct (client_effect kv req kv' r Hkv Hreq Hdo) as (Hok' & Hst & Hcfg & Heff).
  assert (status kv' sh = status kv sh ∧ cfgNum kv' sh = cfgNum kv sh) as [Hs' Hc'].
  { unfold status, cfgNum. by rewrite Hst, Hcfg. }
  destruct d; subst kv.
  - split.
    + split; cbn [src dst workers]; try done. destruct phase as [|[|]]; by rewrite Hs', Hc'.
    + unfold view. cbn [src dst]. rewrite Hs'. case_decide as Hd; [|by left].
      destruct Heff as [?|(_ & a & e & ?)]; [by left|right]. by exists a, e.
  - assert (phase ≠ 0%nat → shardMap kv' sh = shardMap (src s) sh) as Hsame.
    { intros Hp. destruct Heff as [?|(Hsv & _)]; [done|]. exfalso.
      destruct phase as [|[|]]; [done| |]; destruct ph_status0 as (? & ? & ?); congruence. }
    split.
    + split; cbn [src dst workers]; try done.
      * intros w pc Hpc%ph_workers0. destruct (decide (phase = 0%nat)) as [->|Hp].
        -- by destruct pc; try done; destruct Hpc as [[? _]|?].
        -- by rewrite Hsame.
      * destruct phase as [|[|]]; by rewrite Hs', Hc'.
      * intros w Hw. rewrite Hs'. by eapply ph_done0.
    + unfold view. cbn [src dst]. case_decide as Hd; [by left|].
      destruct Heff as [?|(_ & a & e & ?)]; [by left|right]. by exists a, e.
Qed.

Lemma phase_step s phase s' :
  phase_ok s phase → step s s' →
  ∃ phase', phase_ok s' phase' ∧
    (view s' = view s ∨ ∃ a e, Key2Shard (put_Key a) = sh ∧
       (view s', e) = kv_put (view s) (put_Key a) (put_Value a) (put_Version a)).
Proof.
  intros Hph Hstep. revert Hph.
  destruct Hstep as [w ex he su s1 s1' H|d req s1 s1' H]; intros Hph.
  - pose proof H as H0. unfold workerStep in H0. apply bind_Some in H0 as (pc & Hpc & H0).
    destruct ex.
    + assert (∃ phase', phase_ok s1' phase' ∧ view s1' = view s1) as (p & ? & ?); [|eauto].
      destruct pc; try done;
        [eapply phase_freeze|eapply phase_install|eapply phase_delete];
        first [exact Hph|exact Hpc|exact H].
    + exists phase. destruct pc; try done; injection H0 as <-;
        (split; [by apply phase_silent|by left]).
  - apply (phase_client _ phase) in H as [? Hv]; [|done]. exists phase. split; [done|].
    destruct Hv as [?|(a & e & _ & ? & ?)]; [by left|right]. by exists a, e.
Qed.

Lemma reachable_phase s s' phase : phase_ok s phase → rtc step s s' → ∃ phase', phase_ok s' phase'.
Proof.
  intros Hp H. revert phase Hp. induction H as [|s s1 s' Hstep _ IH]; intros phase Hp; [by exists phase|].
  destruct (phase_step _ _ _ Hp Hstep) as (p & ? & _). by eapply IH.
Qed.

(** C16: A shard is never served twice.  However many controllers migrate the
    shard at the same time, whatever RPCs are lost before or after execution
    and whatever clients do: at no moment do both groups serve the shard, no
    controller is made to panic, and when a controller has finished, the
    destination serves the shard under the new configuration and the source has
    deleted it. *)
Theorem migration_single_owner s0 s :
  initial s0 → rtc step s0 s →
  ¬ (status (src s) sh = Serving ∧ status (dst s) sh = Serving) ∧
  (∀ w, workers s !! w ≠ Some WCrashed) ∧
  (∀ w, workers s !! w = Some WDone →
     status (dst s) sh = Serving ∧ cfgNum (dst s) sh = num ∧ status (src s) sh = Absent).
Proof.
  intros Hi H. destruct (reachable_phase _ _ _ (initial_phase _ Hi) H) as (phase & []).
  split_and!.
  - intros [Hs Hd]. destruct phase as [|[|]]; destruct ph_status0 as (H1 & H2 & H3 & H4);
      [congruence..|by apply H2].
  - intros w Hw. by apply ph_workers0 in Hw.
  - intros w Hw. pose proof (ph_workers0 _ _ Hw) as ->. destruct ph_status0 as (_ & _ & _ & ? & ?).
    split_and!; try done. by eapply ph_done0.
Qed.

(** A migration loses and invents nothing.  Read the shard's map at the
    destination once that serves it and at the source before: every step of
    every execution leaves this map unchanged, or applies to it one client's
    conditional put for a key of the shard. *)
Theorem migration_preserves_data s0 s s' :
  initial s0 → rtc step s0 s → step s s' →
  view s' = view s ∨
  ∃ a e, Key2Shard (put_Key a) = sh ∧
    (view s', e) = kv_put (view s) (put_Key a) (put_Value a) (put_Version a).
Proof.
  intros Hi H Hstep. destruct (reachable_phase _ _ _ (initial_phase _ Hi) H) as (phase & Hp).
  destruct (phase_step _ _ _ Hp Hstep) as (_ & _ & ?). done.
Qed.

(** C17: Duplicate detection moves with the shard.  Installing, on a group that
    does not have the shard, the state a source froze gives that group the
    source's map of the shard, leaves its other shards alone, and for every
    client that has put into the shard a last put that is the newer of the two
    groups' records; so a put the source executed is a duplicate at the
    destination too. *)
Theorem migration_keeps_dedup kv1 kv1' r1 kv2 :
  server_ok kv1 → server_ok kv2 → status kv1 sh = Serving → cfgNum kv1 sh < num →
  status kv2 sh = Absent → cfgNum kv2 sh < num →
  ShardGrp.FreezeShard (mkFreezeArgs sh num) kv1 = Ret (kv1', r1) →
  ∃ kv2', ShardGrp.InstallShard (mkInstallArgs sh (fzr_State r1) num) kv2 = Ret (kv2', mkInstallReply OK) ∧
    status kv2' sh = Serving ∧ shardMap kv2' sh = shardMap kv1 sh ∧
    (∀ sh', in_range sh' → sh' ≠ sh → shardMap kv2' sh' = shardMap kv2 sh') ∧
    (∀ cs c lp, shardClients kv1 !! Z.to_nat sh = Some (Some cs) → c ∈ cs → lastOf kv1 c = Some lp →
       lastOf kv2' c = Some (newer (lastOf kv2 c) lp)).
Proof.
  intros Hok1 Hok2 Hs1 Hn1 Hs2 Hn2 Hf. rewrite FreezeShard_spec in Hf by done. cbn -[enc] in Hf.
  rewrite decide_True, Hs1 in Hf by done. injection Hf as <- <-. cbn [fzr_State].
  destruct (ok_last _ Hok2) as [t Ht].
  destruct (InstallShard_spec kv2 (mkInstallArgs sh (enc (shardState kv1 (Z.to_nat sh))) num)
    (shardState kv1 (Z.to_nat sh)) t Hok2 Hsh (dec_enc _) Ht) as (t' & Hm & Heq).
  cbn in Heq. rewrite decide_True, Hs2 in Heq by done. exists (installed kv2 sh num (shardState kv1 (Z.to_nat sh)) t').
  split; [exact Heq|]. split; [by apply (status_after kv2)|]. split.
  { rewrite shardMap_installed by done. done. }
  split.
  { intros sh' Hr Hne. unfold shardMap. cbn. rewrite list_lookup_insert_ne; [done|].
    unfold in_range in *. lia. }
  intros cs c lp Hcs Hc Hlp. unfold lastOf in *. cbn. rewrite Hm, Ht. cbn.
  destruct (lastPutByClientId kv1) as [t1|]; [|done]. cbn in *.
  assert (filter (λ p, p.1 ∈ default ∅ (default None (shardClients kv1 !! Z.to_nat sh))) t1 !! c
            = Some lp) as ->; [|done].
  apply map_lookup_filter_Some. rewrite Hcs. done.
Qed.
End migration.

(** ** A migration of shard 3 from group 1 to group 2 *)

Section example.
#[local] Instance shard_codec : Codec ShardState := countable_codec.
#[local] Instance snap_codec : Codec SnapshotData := countable_codec.

Definition before : State := mkState (initialServer 1) (initialServer 2) [WFreeze; WFreeze].

Definition next (w : nat) (heard : bool) (s : State) : State :=
  default s (workerStep 3 2 w true heard false s).

(** The first controller freezes and hears it; the second freezes as well; the
    first installs without hearing it, installs again and deletes. *)
Definition after : State :=
  next 0 true (next 0 true (next 0 false (next 1 true (next 0 true before)))).

Lemma before_initial : initial 3 2 before.
Proof.
  split_and!; try apply initialServer_ok; try (vm_compute; reflexivity).
  intros [|[|w]] pc H; [by injection H as <-..|done].
Qed.

Lemma next_step w heard s s' :
  workerStep 3 2 w true heard false s = Some s' → step 3 2 s (next w heard s).
Proof. intros H. unfold next. rewrite H. by eapply step_worker. Qed.

Lemma is_step {A} (o : option A) : is_Some o → ∃ x, o = Some x.
Proof. by intros [x ->]; exists x. Qed.

Lemma after_reachable : rtc (step 3 2) before after.
Proof.
  unfold after.
  repeat match goal with
  | |- rtc _ _ (next ?w ?h ?s) => apply rtc_r with s;
      [|destruct (is_step (workerStep 3 2 w true h false s)) as [s' H];
        [vm_compute; by eexists|exact (next_step _ _ _ _ H)]]
  end.
  apply rtc_refl.
Qed.

Lemma migration_single_owner_witness :
  workers after !! 0%nat = Some WDone ∧ status (dst after) 3 = Serving ∧
  status (src after) 3 = Absent.
Proof.
  destruct (migration_single_owner 3 2 ltac:(split; [discriminate|reflexivity]) before after
    before_initial after_reachable) as (_ & _ & H).
  assert (workers after !! 0%nat = Some WDone) as Hw by (vm_compute; reflexivity).
  destruct (H 0%nat Hw) as (? & _ & ?). split_and!; assumption.
Defined.

Lemma migration_preserves_data_witness :
  view 3 (next 1 true after) = view 3 after ∨
  ∃ a e, Key2Shard (put_Key a) = 3 ∧
    (view 3 (next 1 true after), e) = kv_put (view 3 after) (put_Key a) (put_Value a) (put_Version a).
Proof.
  apply (migration_preserves_data 3 2 ltac:(split; [discriminate|reflexivity]) before after
    (next 1 true after) before_initial after_reachable).
  destruct (is_step (workerStep 3 2 1 true true false after)) as [s' H];
    [vm_compute; by eexists|exact (next_step _ _ _ _ H)].
Defined.

(** A key of shard 3 is put at group 1 before the shard moves. *)
Definition put3 : PutArgs := mkPutArgs (mkRequestInfo 5 1) "x" "v" 0.
Definition source : KVServer :=
  match ShardGrp.DoOp (ReqPut put3) (initialServer 1) with Ret (kv, _) => kv | _ => initialServer 1 end.

Lemma source_ok : server_ok source.
Proof.
  destruct (doPut_ok (initialServer 1) put3 (initialServer_ok 1)) as (kv & r & H & Hok).
  unfold source, ShardGrp.DoOp. rewrite H. exact Hok.
Qed.

Lemma migration_keeps_dedup_witness : ∃ kv2',
  status kv2' 3 = Serving ∧ shardMap kv2' 3 = {["x" := mkVV "v" 1]} ∧
  lastOf kv2' 5 = Some (mkLastPut 1 (mkPutReply OK)).
Proof.
  destruct (ShardGrp.FreezeShard (mkFreezeArgs 3 2) source) as [[kv1' r1]|] eqn:E;
    [|vm_compute in E; discriminate E].
  destruct (migration_keeps_dedup 3 2 ltac:(split; [discriminate|reflexivity])
    source kv1' r1 (initialServer 2) source_ok (initialServer_ok 2))
    as (kv2' & _ & H1 & H2 & _ & H3); try (vm_compute; reflexivity); [exact E|].
  exists kv2'. split; [exact H1|]. split; [rewrite H2; vm_compute; reflexivity|].
  apply (H3 {[5]}); [vm_compute; reflexivity|apply (bool_decide_unpack _); vm_compute; exact I|vm_compute; reflexivity].
Defined.
End example.
