(* ===== verification/ShardCtrler.v ===== *)
(** * ShardCtrler: the shard controller

    Models [src/src/shardkv/shardctrler/shardctrler.go].  Controllers keep the
    current and the next configuration in a versioned key/value store and are
    threads here: each step is one operation on the store, or the end of the
    per-shard work of [migrateShards], which [Migration] models.  A Put of the
    store's clerk may be executed without its reply arriving, after which the
    clerk sends it again and in the end reports [ErrMaybe], as in [KvSrv].

    The configuration as text (JSON in the code) is a class: what the code
    relies on is that reading back what was written gives the same value. *)

From Stdlib Require Import Sorted Ascii.
From S2P Require Import Prelude RpcApi KvModel KvSpec ShardCfg.

Class ConfigText := {
  cfg_String : ShardConfig → string;
  FromString : string → option ShardConfig;
  FromString_String c : FromString (cfg_String c) = Some c;
}.

Section ctrler.
Context {CT : ConfigText}.

Definition currentKey : string := "currentConfig".
Definition nextKey : string := "nextConfig".

(** [queryCurrentConfig], [queryNextConfig]. *)
Definition queryConfig (key : string) (m : kvmap) : outcome (ShardConfig * Tversion) :=
  let r := kv_get m key in
  if decide (get_Err r = ErrNoKey) then Panic (Fatal "config doesn't exist")
  else match FromString (get_Value r) with
       | Some cfg => Ret (cfg, get_Version r)
       | None => Panic (Fatal "Unmarshall err")
       end.

(** [Query], [QueryNext]. *)
Definition Query (key : string) (m : kvmap) : outcome ShardConfig :=
  let r := kv_get m key in
  if decide (get_Err r ≠ OK) then Panic (Fatal "configStore get err")
  else match FromString (get_Value r) with
       | Some cfg => Ret cfg
       | None => Panic (Fatal "Unmarshall err")
       end.

Definition HasPendingMigration (m : kvmap) : outcome bool :=
  cur ← Query currentKey m; next ← Query nextKey m; Ret (bool_decide (Num cur < Num next)).

(** [InitConfig], when both puts are executed. *)
Definition InitConfig (cfg : ShardConfig) (m : kvmap) : kvmap :=
  let m := (kv_put m currentKey (cfg_String cfg) 0).1 in
  (kv_put m nextKey (cfg_String cfg) 0).1.

(** The shards [migrateShards] moves: shard, old group, new group. *)
Definition shardMoves (oldCfg newCfg : ShardConfig) : list (nat * Tgid * Tgid) :=
  omap (λ i, oldGid ← Shards oldCfg !! i; newGid ← Shards newCfg !! i;
             if decide (newGid = oldGid) then None else Some (i, oldGid, newGid))
       (seq 0 (length (Shards oldCfg))).

Definition isSuperseded (newCfg : ShardConfig) (m : kvmap) : outcome bool :=
  '(cur, _) ← queryConfig currentKey m; Ret (bool_decide (Num newCfg ≤ Num cur)).

(** Where a controller is. *)
Inductive Ctrl :=
| ChangeConfigTo (newCfg : ShardConfig)                                (* about to query *)
| SaveQuery (newCfg oldCfg : ShardConfig) (ver : Tversion)             (* in saveNextConfig *)
| SavePut (newCfg oldCfg : ShardConfig) (ver nver : Tversion) (resend : bool)
| SaveVerify (newCfg oldCfg : ShardConfig) (ver : Tversion)            (* after ErrMaybe *)
| InitController                                                       (* about to query *)
| InitNext (cur : ShardConfig) (ver : Tversion)
| Migrating (newCfg oldCfg : ShardConfig) (ver : Tversion)             (* wg.Wait *)
| PutCurrent (newCfg oldCfg : ShardConfig) (ver : Tversion) (resend : bool)
| Finished (newCfg oldCfg : ShardConfig) (ver : Tversion)              (* returned true *)
| Returned                                                             (* returned false or nothing *)
| Dead.                                                                (* log.Fatal *)

(** The clerk's Put: executed or not, heard or not.  [Some e]: it returned [e]. *)
Definition storePut (key : string) (cfg : ShardConfig) (ver : Tversion) (executed heard resend : bool)
    (m : kvmap) : kvmap * option Err :=
  if executed then
    let '(m', e) := kv_put m key (cfg_String cfg) ver in
    (m', if heard then Some (if resend then ErrMaybe else e) else None)
  else (m, None).

Definition orDead {A} (x : outcome A) (k : A → Ctrl) : Ctrl :=
  match x with Ret a => k a | Panic _ => Dead end.

(** One step of a controller on the store.  [superseded] is what a worker of
    [migrateShards] reported, if one did. *)
Definition ctrlStep (executed heard superseded : bool) (c : Ctrl) (m : kvmap) : option (Ctrl * kvmap) :=
  match c with
  | ChangeConfigTo newCfg =>
      Some (orDead (queryConfig currentKey m) (λ '(oldCfg, ver),
        if decide (Num newCfg ≤ Num oldCfg) then Returned else SaveQuery newCfg oldCfg ver), m)
  | SaveQuery newCfg oldCfg ver =>
      Some (orDead (queryConfig nextKey m) (λ '(existing, nver),
        if decide (Num newCfg ≤ Num existing) then Returned
        else SavePut newCfg oldCfg ver nver false), m)
  | SavePut newCfg oldCfg ver nver resend =>
      let '(m', res) := storePut nextKey newCfg nver executed heard resend m in
      Some (match res with
            | None => SavePut newCfg oldCfg ver nver true
            | Some OK => Migrating newCfg oldCfg ver
            | Some ErrVersion => Returned
            | Some ErrMaybe => SaveVerify newCfg oldCfg ver
            | Some _ => Dead
            end, m')
  | SaveVerify newCfg oldCfg ver =>
      Some (orDead (queryConfig nextKey m) (λ '(written, _),
        if EqualTo written newCfg then Migrating newCfg oldCfg ver else Returned), m)
  | InitController =>
      Some (orDead (queryConfig currentKey m) (λ '(cur, ver), InitNext cur ver), m)
  | InitNext cur ver =>
      Some (orDead (queryConfig nextKey m) (λ '(next, _),
        if decide (Num cur < Num next) then Migrating next cur ver else Returned), m)
  | Migrating newCfg oldCfg ver =>
      if superseded then
        Some (orDead (isSuperseded newCfg m) (λ b : bool,
          if b then Returned else Migrating newCfg oldCfg ver), m)
      else Some (PutCurrent newCfg oldCfg ver false, m)
  | PutCurrent newCfg oldCfg ver resend =>
      let '(m', res) := storePut currentKey newCfg ver executed heard resend m in
      Some (match res with
            | None => PutCurrent newCfg oldCfg ver true
            | Some _ => Finished newCfg oldCfg ver
            end, m')
  | Finished _ _ _ | Returned | Dead => None
  end.

Record System := mkSystem { store : kvmap; ctrls : list Ctrl }.

(** A key's version must not wrap around: the model stops after 2^64 - 2 writes
    of a configuration. *)
Definition room (m : kvmap) : Prop :=
  kv_version m currentKey < u64_mod - 1 ∧ kv_version m nextKey < u64_mod - 1.

Inductive sys_step : System → System → Prop :=
| sys_ctrl i ex he su s c c' m' :
    ctrls s !! i = Some c → room (store s) → ctrlStep ex he su c (store s) = Some (c', m') →
    sys_step s (mkSystem m' (<[i := c']> (ctrls s)))
| sys_new s c : (c = InitController ∨ ∃ cfg, c = ChangeConfigTo cfg) →
    sys_step s (mkSystem (store s) (ctrls s ++ [c])).

(** ** The store's configurations only go up *)

(** The configuration stored under [key]. *)
Definition stored (m : kvmap) (key : string) : option ShardConfig :=
  m !! key ≫= λ v, FromString (Value v).

Definition num_of (m : kvmap) (key : string) : option Tnum := Num <$> stored m key.

(** What a read of [currentConfig] that gave [old] at [ver] still says: nobody
    wrote since, or somebody wrote a newer configuration. *)
Definition read_ok (m : kvmap) (key : string) (old : ShardConfig) (ver : Tversion) : Prop :=
  ver ≤ kv_version m key ∧ (kv_version m key = ver → stored m key = Some old) ∧
  (ver < kv_version m key → ∃ cur, stored m key = Some cur ∧ Num old < Num cur).

Definition ctrl_ok (m : kvmap) (c : Ctrl) : Prop :=
  match c with
  | SaveQuery n o v | SaveVerify n o v | Migrating n o v | PutCurrent n o v _ =>
      read_ok m currentKey o v ∧ Num o < Num n
  | SavePut n o v nv _ => read_ok m currentKey o v ∧ Num o < Num n ∧
      ∃ ex, read_ok m nextKey ex nv ∧ Num ex < Num n
  | InitNext cur v => read_ok m currentKey cur v
  | Finished n o v => read_ok m currentKey o v ∧ v < kv_version m currentKey
  | _ => True
  end.

Definition store_ok (m : kvmap) : Prop :=
  is_Some (stored m currentKey) ∧ is_Some (stored m nextKey) ∧
  0 ≤ kv_version m currentKey ∧ 0 ≤ kv_version m nextKey.

(** [hist] lists the configurations ever written to [nextConfig], the last
    first.  A configuration is published when it is in [hist], up to the
    servers of its groups, which [EqualTo] does not compare. *)
Definition published (hist : list ShardConfig) (cfg : ShardConfig) : Prop :=
  ∃ h, h ∈ hist ∧ Num h = Num cfg ∧ Shards h = Shards cfg.

Definition hist_ok (m : kvmap) (hist : list ShardConfig) : Prop :=
  StronglySorted (λ a b, Num b < Num a) hist ∧ head hist = stored m nextKey ∧
  ∃ cur, stored m currentKey = Some cur ∧ published hist cur.

Definition ctrl_published (hist : list ShardConfig) (c : Ctrl) : Prop :=
  match c with
  | Migrating n _ _ | PutCurrent n _ _ _ | Finished n _ _ => published hist n
  | _ => True
  end.

Definition system_ok (hist : list ShardConfig) (s : System) : Prop :=
  store_ok (store s) ∧ hist_ok (store s) hist ∧
  ∀ i c, ctrls s !! i = Some c → ctrl_ok (store s) c ∧ ctrl_published hist c.

(** [m'] is [m] after a successful write of a newer configuration. *)
Definition wrote (m m' : kvmap) (key : string) (cfg : ShardConfig) : Prop :=
  ∃ old, stored m key = Some old ∧ Num old < Num cfg ∧ stored m' key = Some cfg ∧
    kv_version m' key = kv_version m key + 1 ∧ ∀ k, k ≠ key → m' !! k = m !! k.

Definition advances (m m' : kvmap) : Prop :=
  m' = m ∨ ∃ key cfg, (key = currentKey ∨ key = nextKey) ∧ wrote m m' key cfg.

Lemma queryConfig_stored key m cfg ver :
  queryConfig key m = Ret (cfg, ver) → stored m key = Some cfg ∧ ver = kv_version m key.
Proof.
  unfold queryConfig, stored, kv_get, kv_version. destruct (m !! key) as [v|]; cbn.
  - destruct (FromString (Value v)); [|done]. by intros [= -> ->].
  - by rewrite decide_True.
Qed.

Lemma queryConfig_read key m cfg ver : queryConfig key m = Ret (cfg, ver) → read_ok m key cfg ver.
Proof. intros [Hs ->]%queryConfig_stored. split_and!; [lia|done|lia]. Qed.

(** A key of the store that is not the one written keeps its value. *)
Lemma wrote_other m m' key cfg k :
  wrote m m' key cfg → k ≠ key → stored m' k = stored m k ∧ kv_version m' k = kv_version m k.
Proof. intros (? & _ & _ & _ & _ & Ho) Hk. unfold stored, kv_version. by rewrite (Ho k Hk). Qed.

Lemma store_ok_mono m m' : advances m m' → store_ok m → store_ok m'.
Proof.
  intros [->|(key & cfg & Hkey & Hw)] (Hc & Hn & Hc0 & Hn0); [done|].
  assert (currentKey ≠ nextKey) as Hne by done.
  pose proof Hw as (old & _ & _ & Hst & Hv & _). destruct Hkey as [-> | ->].
  - destruct (wrote_other _ _ _ _ nextKey Hw (not_eq_sym Hne)) as [E1 E2].
    rewrite <- E1 in Hn. split_and!; [by eexists|done|lia..].
  - destruct (wrote_other _ _ _ _ currentKey Hw Hne) as [E1 E2].
    rewrite <- E1 in Hc. split_and!; [done|by eexists|lia..].
Qed.

Lemma read_ok_mono m m' key old ver :
  advances m m' → is_Some (stored m key) → read_ok m key old ver → read_ok m' key old ver.
Proof.
  intros [->|(k & cfg & _ & Hw)] [cur Hcur] (Hle & Heq & Hlt); [done|].
  destruct (decide (key = k)) as [->|Hne].
  - destruct Hw as (o & Ho & Hn & Hst & Hv & _). split_and!; [lia|lia|]. intros _.
    exists cfg. split; [done|]. destruct (decide (kv_version m k = ver)) as [E|E].
    + specialize (Heq E). congruence.
    + destruct Hlt as (c & Hc & Hoc); [lia|]. assert (c = o) as -> by congruence. lia.
  - destruct (wrote_other _ _ _ _ key Hw Hne) as [E1 E2]. unfold read_ok. by rewrite E1, E2.
Qed.

Lemma ctrl_ok_mono m m' c : advances m m' → store_ok m → ctrl_ok m c → ctrl_ok m' c.
Proof.
  intros Ha Hok. pose proof Hok as (Hc & Hn & _).
  assert (∀ o v, read_ok m currentKey o v → read_ok m' currentKey o v) as Hr
    by (intros; by eapply read_ok_mono).
  destruct c; cbn; try done; try naive_solver.
  - intros (H1 & H2 & ex & H3 & H4). split_and!; [auto|done|]. exists ex.
    split; [by eapply read_ok_mono|done].
  - intros [H1 H2]. split; [auto|]. destruct (Hr _ _ H1) as (Hle & Heq & _).
    destruct H1 as (_ & _ & Hlt). destruct Ha as [->|(k & cfg & _ & Hw)]; [done|].
    destruct (decide (currentKey = k)) as [<-|Hne].
    + destruct Hw as (_ & _ & _ & _ & Hv & _). lia.
    + destruct (wrote_other _ _ _ _ currentKey Hw Hne) as [_ E]. lia.
Qed.

(** A put of the store's clerk with a version that was read: it writes a newer
    configuration or nothing, and when the clerk hears back, the version has
    moved. *)
Lemma storePut_spec key cfg old ver ex he re m m' res :
  key = currentKey ∨ key = nextKey → kv_version m key < u64_mod - 1 → 0 ≤ kv_version m key →
  is_Some (stored m key) → read_ok m key old ver → Num old < Num cfg →
  storePut key cfg ver ex he re m = (m', res) →
  (m' = m ∨ wrote m m' key cfg) ∧ (is_Some res → ver < kv_version m' key) ∧
  (res = Some OK → stored m' key = Some cfg).
Proof.
  intros Hk Hroom H0 [cur Hcur] (Hle & Heq & _) Hnum H. unfold storePut in H. destruct ex.
  2: { injection H as <- <-. split_and!; [by left|by intros [? [=]]|done]. }
  destruct (kv_put_cases m key (cfg_String cfg) ver) as [[E Hv]|[(E & Hv & _)|(E & Hn & _)]];
    rewrite E in H; cbn in H; injection H as <- <-.
  - assert (kv_version (<[key := mkVV (cfg_String cfg) (u64_add ver 1)]> m) key = kv_version m key + 1) as Hnew.
    { unfold kv_version at 1. rewrite lookup_insert_eq. cbn. rewrite Hv.
      apply u64_add_small. unfold u64_mod in *. lia. }
    assert (stored (<[key := mkVV (cfg_String cfg) (u64_add ver 1)]> m) key = Some cfg) as Hst.
    { unfold stored. rewrite lookup_insert_eq. cbn. apply FromString_String. }
    split_and!; [|lia|done]. right. exists old. split_and!; auto.
    intros k Hne. by apply lookup_insert_ne.
  - split_and!; [by left|intros _; lia|]. by destruct he, re.
  - unfold stored in Hcur. by rewrite Hn in Hcur.
Qed.

Lemma put_advances m m' key cfg :
  key = currentKey ∨ key = nextKey → m' = m ∨ wrote m m' key cfg → advances m m'.
Proof. intros Hk [->|Hw]; [by left|right; eauto]. Qed.

Lemma ctrlStep_ok ex he su c m c' m' :
  store_ok m → room m → ctrl_ok m c → ctrlStep ex he su c m = Some (c', m') →
  advances m m' ∧ ctrl_ok m' c'.
Proof.
  intros Hok [Hrc Hrn] Hc H. pose proof Hok as (Hcs & Hns & Hc0 & Hn0).
  destruct c as [n|n o v|n o v nv re|n o v| |cur v|n o v|n o v re| | |]; cbn in H; try done.
  - injection H as <- <-. split; [by left|].
    destruct (queryConfig currentKey m) as [[old ver]|] eqn:E; cbn; [|done].
    apply queryConfig_read in E. case_decide; [done|]. cbn. split; [done|lia].
  - injection H as <- <-. split; [by left|].
    destruct (queryConfig nextKey m) as [[ex' nver]|] eqn:E; cbn; [|done].
    apply queryConfig_read in E. destruct Hc. case_decide; [done|]. cbn.
    split_and!; [done..|]. exists ex'. split; [done|lia].
  - destruct Hc as (H1 & H2 & e & H3 & H4).
    destruct (storePut nextKey n nv ex he re m) as [m1 res] eqn:E. injection H as <- <-.
    eapply storePut_spec in E as (Ha & _); [|by right|done..].
    apply put_advances in Ha; [|by right]. split; [done|].
    assert (read_ok m1 currentKey o v) by (by eapply read_ok_mono).
    destruct res as [[]|]; cbn; try done.
    split_and!; [done..|]. exists e. split; [by eapply read_ok_mono|done].
  - injection H as <- <-. split; [by left|].
    destruct (queryConfig nextKey m) as [[w nver]|] eqn:E; cbn; [|done].
    by destruct (EqualTo w n).
  - injection H as <- <-. split; [by left|].
    destruct (queryConfig currentKey m) as [[old ver]|] eqn:E; cbn; [|done].
    by apply queryConfig_read in E.
  - injection H as <- <-. split; [by left|].
    destruct (queryConfig nextKey m) as [[nx nver]|] eqn:E; cbn; [|done].
    case_decide as Hlt; [|done]. by split.
  - destruct su; injection H as <- <-; (split; [by left|]); [|done].
    destruct (isSuperseded n m) as [[]|]; done.
  - destruct Hc as [H1 H2].
    destruct (storePut currentKey n v ex he re m) as [m1 res] eqn:E. injection H as <- <-.
    eapply storePut_spec in E as (Ha & Hv & _); [|by left|done..].
    apply put_advances in Ha; [|by left]. split; [done|].
    assert (read_ok m1 currentKey o v) by (by eapply read_ok_mono).
    destruct res as [e|]; cbn; [|done]. split; [done|]. apply Hv. by eexists.
Qed.

(** ** Configurations with the same number are the same *)

Lemma published_weaken hist hist' cfg :
  hist' = hist ∨ (∃ c, hist' = c :: hist) → published hist cfg → published hist' cfg.
Proof. intros [->|[c ->]] (h & Hh & ?); [by exists h|]. exists h. split; [by right|done]. Qed.

Lemma published_next m hist cfg :
  hist_ok m hist → stored m nextKey = Some cfg → published hist cfg.
Proof.
  intros (_ & Hhd & _) Hs. rewrite Hs in Hhd. destruct hist as [|h hist]; [done|].
  injection Hhd as ->. exists cfg. split; [by left|done].
Qed.

Lemma EqualTo_true c1 c2 : EqualTo c1 c2 = true ↔ Num c1 = Num c2 ∧ Shards c1 = Shards c2.
Proof. unfold EqualTo. case_decide; [rewrite bool_decide_eq_true|]; naive_solver. Qed.

Lemma hist_ok_put_next m m' hist cfg :
  hist_ok m hist → wrote m m' nextKey cfg → hist_ok m' (cfg :: hist).
Proof.
  intros (Hs & Hhd & cur & Hcur & Hp) Hw. pose proof Hw as (old & Ho & Hn & Hst & _).
  split_and!; [|done|].
  - constructor; [done|]. rewrite Ho in Hhd. destruct hist as [|h hist]; [done|].
    injection Hhd as ->. apply StronglySorted_inv in Hs as [_ Hs]. constructor; [done|].
    eapply Forall_impl; [exact Hs|]. cbn. lia.
  - destruct (wrote_other _ _ _ _ currentKey Hw) as [-> _]; [done|]. exists cur.
    split; [done|]. eapply published_weaken; [right; by eexists|done].
Qed.

Lemma hist_ok_put_current m m' hist cfg :
  hist_ok m hist → published hist cfg → wrote m m' currentKey cfg → hist_ok m' hist.
Proof.
  intros (Hs & Hhd & _) Hp Hw. pose proof Hw as (_ & _ & _ & Hst & _).
  destruct (wrote_other _ _ _ _ nextKey Hw) as [E _]; [done|].
  split_and!; [done|by rewrite E|]. by exists cfg.
Qed.

Lemma ctrlStep_published hist ex he su c m c' m' :
  store_ok m → room m → hist_ok m hist → ctrl_ok m c → ctrl_published hist c →
  ctrlStep ex he su c m = Some (c', m') →
  ∃ hist', (hist' = hist ∨ ∃ cfg, hist' = cfg :: hist) ∧ hist_ok m' hist' ∧ ctrl_published hist' c'.
Proof.
  intros Hok [Hrc Hrn] Hh Hc Hp H. pose proof Hok as (Hcs & Hns & Hc0 & Hn0).
  destruct c as [n|n o v|n o v nv re|n o v| |cur v|n o v|n o v re| | |]; cbn in H; try done.
  1,2,4,5,6,7: exists hist; split; [by left|].
  - injection H as <- <-. split; [done|]. destruct (queryConfig currentKey m) as [[]|]; [|done].
    cbn. by case_decide.
  - injection H as <- <-. split; [done|]. destruct (queryConfig nextKey m) as [[]|]; [|done].
    cbn. by case_decide.
  - injection H as <- <-. split; [done|].
    destruct (queryConfig nextKey m) as [[w nver]|] eqn:E; [|done]. cbn.
    destruct (EqualTo w n) eqn:Eq; [|done]. apply queryConfig_stored in E as [E _].
    apply EqualTo_true in Eq as [E1 E2].
    destruct (published_next _ _ _ Hh E) as (h & Hin & H1 & H2). exists h. split_and!; congruence.
  - injection H as <- <-. split; [done|]. by destruct (queryConfig currentKey m) as [[]|].
  - injection H as <- <-. split; [done|].
    destruct (queryConfig nextKey m) as [[w nver]|] eqn:E; [|done]. cbn.
    apply queryConfig_stored in E as [E _]. case_decide; [|done]. by eapply published_next.
  - destruct su; injection H as <- <-; (split; [done|]); [|done].
    by destruct (isSuperseded n m) as [[]|].
  - destruct Hc as (H1 & H2 & e & H3 & H4).
    destruct (storePut nextKey n nv ex he re m) as [m1 res] eqn:E. injection H as <- <-.
    eapply storePut_spec in E as (Ha & _ & HOK); [|by right|done..].
    assert (∃ hist', (hist' = hist ∨ ∃ cfg, hist' = cfg :: hist) ∧ hist_ok m1 hist') as (hist' & Hw & Hh').
    { destruct Ha as [->|Ha]; [by exists hist; auto|]. exists (n :: hist). split; [by right; eexists|].
      by eapply hist_ok_put_next. }
    exists hist'. split_and!; [done..|]. destruct res as [[]|]; try done.
    eapply published_next; [done|by apply HOK].
  - destruct Hc as [H1 H2].
    destruct (storePut currentKey n v ex he re m) as [m1 res] eqn:E. injection H as <- <-.
    eapply storePut_spec in E as (Ha & _); [|by left|done..].
    exists hist. split_and!; [by left| |by destruct res].
    destruct Ha as [->|Ha]; [done|by eapply hist_ok_put_current].
Qed.

Lemma sys_step_ok hist s s' :
  system_ok hist s → sys_step s s' → advances (store s) (store s') ∧ ∃ hist', system_ok hist' s'.
Proof.
  intros (Hok & Hh & Hcs) Hstep. destruct Hstep as [i ex he su s c c' m' Hi Hr Hc|s c Hc]; cbn.
  - destruct (Hcs i c Hi) as [Hco Hp].
    destruct (ctrlStep_ok _ _ _ _ _ _ _ Hok Hr Hco Hc) as [Ha Hco'].
    destruct (ctrlStep_published _ _ _ _ _ _ _ _ Hok Hr Hh Hco Hp Hc) as (hist' & Hw & Hh' & Hp').
    split; [done|]. exists hist'. split_and!; [by eapply store_ok_mono|done|]. cbn. intros j d Hd.
    destruct (decide (i = j)) as [<-|Hne].
    + rewrite list_lookup_insert_eq in Hd by (by eapply lookup_lt_Some). by injection Hd as <-.
    + rewrite list_lookup_insert_ne in Hd by done. destruct (Hcs j d Hd) as [Hd1 Hd2].
      split; [by eapply ctrl_ok_mono|]. destruct d; cbn in *; try done; by eapply published_weaken.
  - split; [by left|]. exists hist. split_and!; [done..|]. cbn. intros j d [Hd|[_ Hd]]%lookup_app_Some.
    + by apply Hcs in Hd.
    + apply list_lookup_singleton_Some in Hd as [_ <-]. by destruct Hc as [->|[cfg ->]].
Qed.

(** Every system that starts with [InitConfig] on an empty store. *)
Definition initSystem (cfg : ShardConfig) : System := mkSystem (InitConfig cfg ∅) [].

Definition reachable (cfg : ShardConfig) : System → Prop := rtc sys_step (initSystem cfg).

Lemma InitConfig_store cfg key :
  key = currentKey ∨ key = nextKey →
  InitConfig cfg ∅ !! key = Some (mkVV (cfg_String cfg) 1).
Proof. intros [-> | ->]; vm_compute; reflexivity. Qed.

Lemma initSystem_ok cfg : system_ok [cfg] (initSystem cfg).
Proof.
  assert (∀ key, key = currentKey ∨ key = nextKey → stored (InitConfig cfg ∅) key = Some cfg ∧
    kv_version (InitConfig cfg ∅) key = 1) as Hs.
  { intros key Hk. unfold stored, kv_version. rewrite (InitConfig_store cfg key Hk). cbn.
    by rewrite FromString_String. }
  destruct (Hs currentKey (or_introl eq_refl)) as [C1 C2].
  destruct (Hs nextKey (or_intror eq_refl)) as [N1 N2].
  unfold system_ok, store_ok, hist_ok, initSystem. cbn [store ctrls head]. rewrite C1, C2, N1, N2.
  split_and!; try done; try (by eexists); [repeat constructor|].
  exists cfg. split; [done|]. exists cfg. split; [by left|done].
Qed.

Lemma reachable_ok cfg s : reachable cfg s → ∃ hist, system_ok hist s.
Proof.
  intros Hr. unfold reachable in Hr. apply rtc_ind_r with (P := λ s, ∃ hist, system_ok hist s) in Hr;
    [done|by exists [cfg]; apply initSystem_ok|].
  intros y z _ Hyz [hist Hy]. by apply (sys_step_ok hist y z).
Qed.

Lemma sorted_same_num (hist : list ShardConfig) a b :
  StronglySorted (λ a b, Num b < Num a) hist → a ∈ hist → b ∈ hist → Num a = Num b → a = b.
Proof.
  intros Hs. induction Hs as [|x l Hs IH Hall]; [by intros ?%not_elem_of_nil|].
  rewrite !elem_of_cons. rewrite Forall_forall in Hall.
  intros [->|Ha] [->|Hb] E; [done|apply Hall in Hb; lia|apply Hall in Ha; lia|auto].
Qed.

Lemma sorted_head_max (hist : list ShardConfig) h a :
  StronglySorted (λ a b, Num b < Num a) hist → head hist = Some h → a ∈ hist → Num a ≤ Num h.
Proof.
  intros Hs Hh Ha. destruct hist as [|x l]; [done|]. injection Hh as ->.
  apply StronglySorted_inv in Hs as [_ Hall]. rewrite Forall_forall in Hall.
  apply elem_of_cons in Ha as [->|Ha]; [lia|]. apply Hall in Ha. lia.
Qed.

(** ** What the store promises *)

Lemma wrote_nums m m' key cfg k old new :
  wrote m m' key cfg → stored m k = Some old → stored m' k = Some new → Num old ≤ Num new.
Proof.
  intros Hw Ho Hn. destruct (decide (k = key)) as [->|Hne].
  - destruct Hw as (o & E1 & E2 & E3 & _). assert (o = old) as -> by congruence.
    assert (new = cfg) as -> by congruence. lia.
  - destruct (wrote_other _ _ _ _ k Hw Hne) as [E _]. assert (old = new) as -> by congruence. done.
Qed.

Lemma Query_stored m key cfg : stored m key = Some cfg → Query key m = Ret cfg.
Proof.
  unfold stored, Query, kv_get. destruct (m !! key) as [v|]; [cbn|done]. by intros ->.
Qed.

Lemma published_le_next m hist cfg next :
  hist_ok m hist → stored m nextKey = Some next → published hist cfg → Num cfg ≤ Num next.
Proof.
  intros (Hs & Hhd & _) Hn (h & Hin & <- & _). rewrite Hn in Hhd. by eapply sorted_head_max.
Qed.

(** C18: whatever controllers run, start, stop and overtake each other, the two
    configurations of the store are always readable, their numbers never go
    down, [currentConfig] is never ahead of [nextConfig], and
    [HasPendingMigration] says exactly whether it is behind. *)
Theorem config_numbers_monotone (cfg : ShardConfig) (s s' : System) :
  reachable cfg s → sys_step s s' →
  ∃ cur next cur' next',
    stored (store s) currentKey = Some cur ∧ stored (store s) nextKey = Some next ∧
    stored (store s') currentKey = Some cur' ∧ stored (store s') nextKey = Some next' ∧
    Num cur ≤ Num cur' ∧ Num next ≤ Num next' ∧ Num cur ≤ Num next ∧
    HasPendingMigration (store s) = Ret (bool_decide (Num cur < Num next)).
Proof.
  intros Hr Hstep. destruct (reachable_ok _ _ Hr) as [hist Hok].
  destruct (sys_step_ok _ _ _ Hok Hstep) as (Ha & hist' & Hok' & _).
  destruct Hok as (([cur Hc] & [next Hn] & _) & Hh & _).
  destruct Hok' as ([cur' Hc'] & [next' Hn'] & _).
  pose proof Hh as (_ & _ & c & Hc2 & Hp). assert (c = cur) as -> by congruence.
  exists cur, next, cur', next'. split_and!; try done.
  - destruct Ha as [E|(k & n & _ & Hw)]; [|by eapply wrote_nums].
    rewrite E in Hc'. assert (cur = cur') as -> by congruence. done.
  - destruct Ha as [E|(k & n & _ & Hw)]; [|by eapply wrote_nums].
    rewrite E in Hn'. assert (next = next') as -> by congruence. done.
  - by eapply published_le_next.
  - unfold HasPendingMigration. by rewrite (Query_stored _ _ _ Hc), (Query_stored _ _ _ Hn).
Qed.

(** The configuration a controller is moving shards to, or has put. *)
Definition target (c : Ctrl) : option ShardConfig :=
  match c with
  | Migrating n _ _ | PutCurrent n _ _ _ | Finished n _ _ => Some n
  | _ => None
  end.

(** C19: "configs of the same Num are identical": controllers that move shards
    to configurations with the same number agree on every shard, so from a
    given old configuration they make the same moves; and when that number is
    the one of [currentConfig] or [nextConfig], they agree with it too. *)
Theorem same_number_same_shards (cfg : ShardConfig) (s : System) (i : nat) (c : Ctrl) (n1 n2 : ShardConfig) :
  reachable cfg s → ctrls s !! i = Some c → target c = Some n1 →
  (∃ j d, ctrls s !! j = Some d ∧ target d = Some n2) ∨
    stored (store s) currentKey = Some n2 ∨ stored (store s) nextKey = Some n2 →
  Num n1 = Num n2 →
  EqualTo n1 n2 = true ∧ ∀ old, shardMoves old n1 = shardMoves old n2.
Proof.
  intros Hr Hi Ht H2 E. destruct (reachable_ok _ _ Hr) as (hist & _ & Hh & Hcs).
  assert (∀ i c n, ctrls s !! i = Some c → target c = Some n → published hist n) as Hpub.
  { intros k d n Hk Hd. apply Hcs in Hk as [_ Hk]. destruct d; try done; injection Hd as <-; exact Hk. }
  destruct (Hpub _ _ _ Hi Ht) as (h1 & Hin1 & N1 & S1).
  assert (published hist n2) as (h2 & Hin2 & N2 & S2).
  { destruct H2 as [(j & d & Hj & Hd)|[Hst|Hst]].
    - by eapply Hpub.
    - destruct Hh as (_ & _ & c' & Hc' & Hp). assert (c' = n2) as -> by congruence. done.
    - by eapply published_next. }
  assert (h1 = h2) as -> by (eapply sorted_same_num; [apply Hh|done|done|congruence]).
  assert (Shards n1 = Shards n2) as ES by congruence.
  split; [by apply EqualTo_true|]. intros old. unfold shardMoves. by rewrite ES.
Qed.

(** when [ChangeConfigTo] has returned true, [currentConfig] holds a newer
    configuration than the one the controller read, whatever the last Put of
    the clerk answered. *)
Theorem change_config_updates (cfg : ShardConfig) (s : System) (i : nat) (n o : ShardConfig) (v : Tversion) :
  reachable cfg s → ctrls s !! i = Some (Finished n o v) →
  ∃ cur, stored (store s) currentKey = Some cur ∧ Num o < Num cur.
Proof.
  intros Hr Hi. destruct (reachable_ok _ _ Hr) as (hist & _ & _ & Hcs).
  destruct (Hcs _ _ Hi) as [[(_ & _ & Hlt) Hv] _]. exact (Hlt Hv).
Qed.
End ctrler.

(** ** Concrete runs *)

Fixpoint text_of_pos (p : positive) : string :=
  match p with
  | xH => "1"
  | xO p => String "0"%char (text_of_pos p)
  | xI p => String "1"%char (text_of_pos p)
  end.

Fixpoint pos_of_text (t : string) : option positive :=
  match t with
  | EmptyString => None
  | String _ EmptyString => Some xH
  | String a t => (if decide (a = "0"%char) then xO else xI) <$> pos_of_text t
  end.

Lemma text_of_pos_nonempty p : ∃ a t, text_of_pos p = String a t.
Proof. destruct p; cbn; eauto. Qed.

Lemma pos_of_text_of_pos p : pos_of_text (text_of_pos p) = Some p.
Proof.
  induction p as [p IH|p IH|]; [| |done]; destruct (text_of_pos_nonempty p) as (a & t & E);
    cbn -[decide]; rewrite E in *; rewrite IH; done.
Qed.

Definition config_of_parts (p : Tnum * list Tgid * gmap Tgid (list string)) : ShardConfig :=
  mkShardConfig p.1.1 p.1.2 p.2.

(** A configuration as text: the digits of its number in an enumeration. *)
Definition digits_String (c : ShardConfig) : string := text_of_pos (encode (Num c, Shards c, Groups c)).

Definition digits_FromString (t : string) : option ShardConfig :=
  p ← pos_of_text t; config_of_parts <$> decode p.

Lemma digits_roundtrip c : digits_FromString (digits_String c) = Some c.
Proof.
  unfold digits_FromString, digits_String. rewrite pos_of_text_of_pos. cbn [mbind option_bind].
  rewrite decode_encode. by destruct c.
Qed.

Definition digits : ConfigText := Build_ConfigText digits_String digits_FromString digits_roundtrip.

(** Three configurations over groups 1 and 2. *)
Definition conf1 : ShardConfig := mkShardConfig 1 (replicate 12 1) ∅.
Definition conf2 : ShardConfig := mkShardConfig 2 (2 :: replicate 11 1) ∅.
Definition conf3 : ShardConfig := mkShardConfig 3 (1 :: 2 :: replicate 10 1) ∅.

Section runs.
Context {CT : ConfigText}.

(** An action of a run: a new controller, or a step of controller [i]. *)
Inductive Act := New (c : Ctrl) | Do (i : nat) (executed heard superseded : bool).

Definition act (s : System) (a : Act) : option System :=
  match a with
  | New (InitController as c) | New (ChangeConfigTo _ as c) => Some (mkSystem (store s) (ctrls s ++ [c]))
  | New _ => None
  | Do i ex he su =>
      c ← ctrls s !! i;
      if decide (kv_version (store s) currentKey < u64_mod - 1 ∧ kv_version (store s) nextKey < u64_mod - 1)
      then '(c', m') ← ctrlStep ex he su c (store s); Some (mkSystem m' (<[i := c']> (ctrls s)))
      else None
  end.

Fixpoint acts (s : System) (l : list Act) : option System :=
  match l with [] => Some s | a :: l => s' ← act s a; acts s' l end.

Lemma act_step s a s' : act s a = Some s' → sys_step s s'.
Proof.
  destruct a as [c|i ex he su]; cbn -[decide kv_version u64_mod].
  - destruct c; try done; intros [= <-]; apply sys_new; eauto.
  - destruct (ctrls s !! i) as [c|] eqn:Hi; [|done]. cbn -[decide kv_version u64_mod].
    case_decide as Hr; [|done]. destruct (ctrlStep ex he su c (store s)) as [[c' m']|] eqn:E; [|done].
    intros [= <-]. by eapply sys_ctrl.
Qed.

Lemma acts_steps s l s' : acts s l = Some s' → rtc sys_step s s'.
Proof.
  revert s. induction l as [|a l IH]; intros s; [by intros [= ->]|]. cbn.
  destruct (act s a) as [s1|] eqn:E; [|done]. intros H. eapply rtc_l; [by eapply act_step|by apply IH].
Qed.
End runs.

Arguments acts {_} _ _.

(** A controller changes to configuration 2 while a second one, which read
    configuration 1 as well, is asked for configuration 3 and is overtaken. *)
Definition overtaken_acts : list Act :=
  [New (ChangeConfigTo conf2); Do 0 true true false; Do 0 true true false; Do 0 true true false;
   New (ChangeConfigTo conf3); Do 1 true true false; Do 1 true true false; Do 1 true true false;
   Do 0 true true false; Do 0 true true false; Do 1 true true false; Do 1 true true false].

Definition overtaken : System :=
  default (mkSystem ∅ []) (@acts digits (@initSystem digits conf1) overtaken_acts).

Lemma overtaken_run :
  @acts digits (@initSystem digits conf1) overtaken_acts = Some overtaken ∧
  ctrls overtaken = [Finished conf2 conf1 1; Finished conf3 conf1 1] ∧
  @stored digits (store overtaken) currentKey = Some conf2 ∧
  @stored digits (store overtaken) nextKey = Some conf3.
Proof. split_and!; vm_compute; reflexivity. Qed.

(** the comment on the last Put of [migrateShards] says that it does not
    matter which controller wrote [currentConfig], "because currentConfig comes
    from nextConfig".  But a controller asked for configuration 3 that read
    configuration 1 returns true although another one made configuration 2
    current: configuration 3 is not in force, and remains pending. *)
Theorem change_config_true_not_current :
  ∃ s, @reachable digits conf1 s ∧
    ctrls s !! 1%nat = Some (Finished conf3 conf1 1) ∧
    @stored digits (store s) currentKey = Some conf2 ∧
    @HasPendingMigration digits (store s) = Ret true.
Proof.
  exists overtaken. destruct overtaken_run as (Hr & Hc & Hcur & _).
  split_and!; [exact (acts_steps _ _ _ Hr)|by rewrite Hc|exact Hcur|vm_compute; reflexivity].
Qed.

Lemma overtaken_reachable : @reachable digits conf1 overtaken.
Proof. destruct overtaken_run as (Hr & _). exact (acts_steps _ _ _ Hr). Qed.

Lemma config_numbers_monotone_witness :
  ∃ cur next cur' next',
    @stored digits (store overtaken) currentKey = Some cur ∧
    @stored digits (store overtaken) nextKey = Some next ∧
    @stored digits (store overtaken) currentKey = Some cur' ∧
    @stored digits (store overtaken) nextKey = Some next' ∧
    Num cur ≤ Num cur' ∧ Num next ≤ Num next' ∧ Num cur ≤ Num next ∧
    @HasPendingMigration digits (store overtaken) = Ret (bool_decide (Num cur < Num next)).
Proof.
  apply (@config_numbers_monotone digits conf1 overtaken
           (mkSystem (store overtaken) (ctrls overtaken ++ [InitController]))).
  - exact overtaken_reachable.
  - apply sys_new. by left.
Defined.

Lemma same_number_same_shards_witness :
  EqualTo conf3 conf3 = true ∧ ∀ old, shardMoves old conf3 = shardMoves old conf3.
Proof.
  destruct overtaken_run as (_ & Hc & _ & Hn).
  apply (@same_number_same_shards digits conf1 overtaken 1 (Finished conf3 conf1 1) conf3 conf3).
  - exact overtaken_reachable.
  - by rewrite Hc.
  - reflexivity.
  - right. right. exact Hn.
  - reflexivity.
Defined.

Lemma change_config_updates_witness :
  ∃ cur, @stored digits (store overtaken) currentKey = Some cur ∧ Num conf1 < Num cur.
Proof.
  destruct overtaken_run as (_ & Hc & _ & _).
  apply (@change_config_updates digits conf1 overtaken 1 conf3 conf1 1).
  - exact overtaken_reachable.
  - by rewrite Hc.
Defined.
