(* ===== verification/ShardKvClient.v ===== *)
(** * ShardKvClient: the client of the sharded key/value service

    Models [src/src/shardkv/client.go].  [Get] and [Put] ask [getConfig] for a
    configuration, call the clerk of the group it names and start again, after
    refreshing the configuration and a pause, when that group is not the right
    one or does not answer.  An attempt is given by what happened around it: the
    configuration [getConfig] returned, the replies of the group's servers and
    the random number drawn for the pause.

    [getConfig] and [refreshConfig] are modelled apart, as threads that share
    the cached configuration: only one query of the configuration store is in
    flight at a time, and the other callers wait on a channel that is closed
    when it is done. *)

From S2P Require Import Prelude RpcApi KvSpec KvStore ShardCfg Persister Raft Rsm KvRaft KvRaftFacts ShardGrp ShardClerk.

Record SClerk := mkSClerk {
  rcks : gmap Tgid ShardClerk.Clerk;
  clerkId : Z;
  requestId : Z;
  backoffTime : Z;
}.

Definition SMakeClerk (rand : Z) : SClerk := mkSClerk ∅ rand 0 50.

Definition SnextReqId (ck : SClerk) : SClerk :=
  mkSClerk (rcks ck) (clerkId ck) (u64_add (requestId ck) 1) (backoffTime ck).

Definition set_rck (gid : Tgid) (g : ShardClerk.Clerk) (ck : SClerk) : SClerk :=
  mkSClerk (<[gid := g]> (rcks ck)) (clerkId ck) (requestId ck) (backoffTime ck).

(** The group of [key] in [cfg] and its clerk, made when there is none. *)
Definition groupClerk (ck : SClerk) (cfg : ShardConfig) (key : string)
    : outcome (Tgid * ShardClerk.Clerk) :=
  '(gid, servers, ok) ← GidServers cfg (Key2Shard key);
  if negb ok then Panic (Fatal "group doesn't exist")
  else Ret (gid, default (ShardClerk.MakeClerk (zlen servers) (clerkId ck)) (rcks ck !! gid)).

Record Attempt (Reply : Type) := mkAttempt {
  at_cfg : ShardConfig;
  at_net : nat → option Reply;
  at_rand : Z;
}.
Arguments mkAttempt {_} _ _ _.
Arguments at_cfg {_} _.
Arguments at_net {_} _ _.
Arguments at_rand {_} _.

(** The switches on [rpcErr]. *)
Definition SclassifyGet (e : Err) : Verdict :=
  match e with ErrWrongGroup | ErrRetryExhausted => Retry | _ => Answer end.
Definition SclassifyPut (e : Err) : Verdict :=
  match e with
  | ErrWrongGroup | ErrRetryExhausted => Retry
  | OK | ErrVersion | ErrNoKey => Answer
  | _ => Undefined
  end.

Section loop.
Context {Reply R : Type} (groupCall : ShardClerk.Clerk → (nat → option Reply) → outcome (R * ShardClerk.Clerk))
  (r_Err : R → Err) (classify : Err → Verdict) (key : string).

(** [Ret (None, _)]: still retrying after these attempts.  The last component
    is the sequence of group clerks called. *)
Fixpoint serveLoop (ck : SClerk) (retry : nat) (attempts : list (Attempt Reply))
    : outcome (option R * SClerk * list (Tgid * ShardClerk.Clerk)) :=
  match attempts with
  | [] => Ret (None, ck, [])
  | a :: attempts =>
      '(gid, g) ← groupClerk ck (at_cfg a) key;
      '(r, g') ← groupCall g (at_net a);
      let ck := set_rck gid g' ck in
      match classify (r_Err r) with
      | Answer => Ret (Some r, ck, [(gid, g)])
      | Undefined => Panic (Fatal "undefined rpc Err")
      | Retry =>
          _ ← KvRaft.backoffWithJitter (backoffTime ck) retry (at_rand a);
          '(res, ck, called) ← serveLoop ck (S retry) attempts;
          Ret (res, ck, (gid, g) :: called)
      end
  end.
End loop.

Definition SGet (ck : SClerk) (key : string) (attempts : list (Attempt GetReply))
    : outcome (option GetReply * SClerk * list (Tgid * ShardClerk.Clerk)) :=
  serveLoop ShardClerk.Get get_Err SclassifyGet key ck 0 attempts.

(** [Put] also says which requests went to which group. *)
Definition SPut (ck : SClerk) (key value : string) (version : Tversion) (attempts : list (Attempt PutReply))
    : outcome (option Err * SClerk * list (Tgid * PutArgs)) :=
  let ck := SnextReqId ck in
  '(res, ck', called) ← serveLoop ShardClerk.Put (λ e, e) SclassifyPut key ck 0 attempts;
  Ret (res, ck', map (λ c : Tgid * ShardClerk.Clerk, (c.1, ShardClerk.putArgs c.2 (requestId ck) key value version)) called).

(** ** The cached configuration *)

(** Where a caller of [getConfig] or [refreshConfig] is.  [Some ch]: it is in
    [getConfig] and holds the channel [fetchingDone] it read. *)
Inductive Thread :=
| GetConfig                                        (* about to take the read lock *)
| Refresh (wait : option nat)                      (* about to take the lock of refreshConfig *)
| Querying (wait : option nat)                     (* in sck.Query() *)
| Storing (cfg : ShardConfig) (wait : option nat)  (* about to take the lock again *)
| Waiting (ch : nat)                               (* <-fetchingDone *)
| Reading                                          (* about to read cachedConfig *)
| Done (cfg : option (option ShardConfig)).        (* getConfig returned / refreshConfig returned *)

(** [fetchingDone] counts the channels made: those before it are closed. *)
Record Shared := mkShared {
  cachedConfig : option ShardConfig;   (* nil at first *)
  fetching : bool;
  fetchingDone : nat;
}.

(** What the end of [refreshConfig] returns to. *)
Definition afterRefresh (wait : option nat) : Thread :=
  match wait with Some ch => Waiting ch | None => Done None end.

(** [query] is what [Query] returns when it returns now. *)
Definition threadStep (query : ShardConfig) (t : Thread) (s : Shared) : option (Thread * Shared) :=
  match t with
  | GetConfig =>
      match cachedConfig s with
      | Some cfg => if fetching s then Some (Refresh (Some (fetchingDone s)), s)
                    else Some (Done (Some (Some cfg)), s)
      | None => Some (Refresh (Some (fetchingDone s)), s)
      end
  | Refresh wait =>
      if fetching s then Some (afterRefresh wait, s)
      else Some (Querying wait, mkShared (cachedConfig s) true (fetchingDone s))
  | Querying wait => Some (Storing query wait, s)
  | Storing cfg wait => Some (afterRefresh wait, mkShared (Some cfg) false (S (fetchingDone s)))
  | Waiting ch => if decide (ch < fetchingDone s)%nat then Some (Reading, s) else None
  | Reading => Some (Done (Some (cachedConfig s)), s)
  | Done _ => None
  end.

Record Client := mkClient { shared : Shared; threads : list Thread }.

Inductive client_step : Client → Client → Prop :=
| cl_thread i query t t' s s' ts :
    ts !! i = Some t → threadStep query t s = Some (t', s') →
    client_step (mkClient s ts) (mkClient s' (<[i := t']> ts))
| cl_call s ts t : t = GetConfig ∨ t = Refresh None → client_step (mkClient s ts) (mkClient s (ts ++ [t])).

Definition newClient : Client := mkClient (mkShared None false 0) [].

Definition client_reachable : Client → Prop := rtc client_step newClient.

(** ** One query at a time, and nobody waits for nothing *)

Definition inflight (t : Thread) : Prop :=
  match t with Querying _ | Storing _ _ => True | _ => False end.

Definition thread_ok (s : Shared) (t : Thread) : Prop :=
  match t with
  | Refresh (Some ch) | Querying (Some ch) | Storing _ (Some ch) => (ch ≤ fetchingDone s)%nat
  | Waiting ch => (ch < fetchingDone s)%nat ∨ (ch = fetchingDone s ∧ fetching s = true)
  | Reading => (0 < fetchingDone s)%nat
  | Done (Some c) => is_Some c
  | _ => True
  end.

Record client_ok (c : Client) : Prop := {
  ok_flying : ∀ i t, threads c !! i = Some t → inflight t → fetching (shared c) = true;
  ok_single : ∀ i j t u, threads c !! i = Some t → threads c !! j = Some u →
                inflight t → inflight u → i = j;
  ok_some : fetching (shared c) = true → ∃ i t, threads c !! i = Some t ∧ inflight t;
  ok_cached : (0 < fetchingDone (shared c))%nat → is_Some (cachedConfig (shared c));
  ok_thread : ∀ i t, threads c !! i = Some t → thread_ok (shared c) t;
}.

(** What a step of one thread does to the shared state. *)
Lemma threadStep_spec q t s t' s' :
  thread_ok s t → ((0 < fetchingDone s)%nat → is_Some (cachedConfig s)) →
  (inflight t → fetching s = true) → threadStep q t s = Some (t', s') →
  thread_ok s' t' ∧ ((0 < fetchingDone s')%nat → is_Some (cachedConfig s')) ∧
  (inflight t' → fetching s' = true) ∧
  ((s' = s ∧ (inflight t' ↔ inflight t)) ∨
   (fetching s = false ∧ fetching s' = true ∧ inflight t' ∧ fetchingDone s' = fetchingDone s) ∨
   (fetching s' = false ∧ inflight t ∧ ¬ inflight t' ∧ fetchingDone s' = S (fetchingDone s))).
Proof.
  intros Hok Hc Hf H. destruct t as [|w|w|c w|ch| |r]; cbn in *; try done.
  - destruct (cachedConfig s) as [c|] eqn:Ec; [destruct (fetching s) eqn:Ef|];
      injection H as <- <-; cbn; rewrite ?Ec; naive_solver.
  - destruct (fetching s) eqn:Ef; injection H as <- <-; destruct w as [ch|]; cbn in *;
      try naive_solver.
    apply Nat.le_lteq in Hok. naive_solver.
  - injection H as <- <-. destruct w; cbn in *; naive_solver.
  - injection H as <- <-. destruct w; cbn in *; split_and!; try naive_solver; naive_solver lia.
  - case_decide; [|done]. injection H as <- <-. cbn. split_and!; try naive_solver. lia.
  - injection H as <- <-. cbn. naive_solver.
Qed.

Lemma thread_ok_mono s s' u :
  thread_ok s u →
  s' = s ∨ (fetching s = false ∧ fetching s' = true ∧ fetchingDone s' = fetchingDone s) ∨
  fetchingDone s' = S (fetchingDone s) →
  thread_ok s' u.
Proof.
  intros Hok [->|[(H1 & H2 & H3)|H3]]; [done|..];
    destruct u as [|[]|[]|? []|?| |[]]; cbn in *; rewrite ?H3; naive_solver lia.
Qed.

Lemma client_step_ok c c' : client_ok c → client_step c c' → client_ok c'.
Proof.
  intros Hok Hstep. destruct Hstep as [i q t t' s s' ts Hi Hs|s ts t Ht].
  - destruct (threadStep_spec q t s t' s') as (H1 & H2 & H3 & H4);
      [exact (ok_thread _ Hok i t Hi)|exact (ok_cached _ Hok)|exact (ok_flying _ Hok i t Hi)|done|].
    assert (∀ j u, <[i := t']> ts !! j = Some u → (j = i ∧ u = t') ∨ (j ≠ i ∧ ts !! j = Some u)) as Hj.
    { intros j u. destruct (decide (i = j)) as [<-|Hne].
      - rewrite list_lookup_insert_eq by (by eapply lookup_lt_Some). naive_solver.
      - rewrite list_lookup_insert_ne by done. naive_solver. }
    pose proof (lookup_lt_Some _ _ _ Hi) as Hlt.
    destruct Hok as [O1 O2 O3 O4 O5]. cbn in *. split; cbn.
    + intros j u [[-> ->]|[Hne Hu]]%Hj Hf; [auto|].
      destruct H4 as [[-> _]|[(_ & ? & _)|(_ & Ht & _)]]; [by eapply O1|done|].
      destruct Hne. by eapply O2.
    + intros j k u v [[-> ->]|[Hne Hu]]%Hj [[-> ->]|[Hne' Hv]]%Hj Hfu Hfv; [done| | |by eapply O2].
      * destruct H4 as [[-> E]|[(E & _)|(_ & _ & E & _)]]; [|specialize (O1 _ _ Hv Hfv); congruence|done].
        eapply O2; [done..|by apply E|done].
      * destruct H4 as [[-> E]|[(E & _)|(_ & _ & E & _)]]; [|specialize (O1 _ _ Hu Hfu); congruence|done].
        eapply O2; [done..|by apply E].
    + intros Hf. destruct H4 as [[-> E]|[(_ & _ & E & _)|(E & _)]]; [| |congruence].
      * destruct (O3 Hf) as (j & u & Hu & Hfu). destruct (decide (i = j)) as [<-|Hne].
        -- exists i, t'. rewrite list_lookup_insert_eq by done. split; [done|].
           apply E. assert (u = t) as -> by congruence. done.
        -- exists j, u. by rewrite list_lookup_insert_ne.
      * exists i, t'. by rewrite list_lookup_insert_eq.
    + done.
    + intros j u [[-> ->]|[Hne Hu]]%Hj; [done|]. eapply thread_ok_mono; [by eapply O5|]. tauto.
  - destruct Hok as [O1 O2 O3 O4 O5]. cbn in *.
    assert (∀ j u, (ts ++ [t]) !! j = Some u → ts !! j = Some u ∨ u = t) as Hj.
    { intros j u [Hu|[_ Hu]]%lookup_app_Some; [by left|].
      apply list_lookup_singleton_Some in Hu as [_ <-]. by right. }
    assert (¬ inflight t ∧ thread_ok s t) as [Hnf Hto] by (destruct Ht as [-> | ->]; naive_solver).
    split; cbn.
    + intros j u [Hu| ->]%Hj Hf; [by eapply O1|done].
    + intros j k u v [Hu| ->]%Hj [Hv| ->]%Hj Hfu Hfv; try done. by eapply O2.
    + intros Hf. destruct (O3 Hf) as (j & u & Hu & Hfu). exists j, u.
      split; [by apply lookup_app_l_Some|done].
    + done.
    + intros j u [Hu| ->]%Hj; [by eapply O5|done].
Qed.

Lemma client_reachable_ok c : client_reachable c → client_ok c.
Proof.
  intros Hr. unfold client_reachable in Hr.
  apply rtc_ind_r with (P := client_ok) in Hr; [done| |].
  - split; cbn; try done. intros Hlt. lia.
  - intros y z _ Hyz Hy. by eapply client_step_ok.
Qed.

(** Thread [i] can be brought to its end. *)
Definition can_finish (c : Client) (i : nat) : Prop :=
  ∃ c' r, rtc client_step c c' ∧ threads c' !! i = Some (Done r).

Lemma can_finish_step c c' i : client_step c c' → can_finish c' i → can_finish c i.
Proof. intros Hs (d & r & Hd & Hr). exists d, r. split; [by eapply rtc_l|done]. Qed.

(** Thread [i] takes its next step and can go on from there. *)
Lemma can_finish_thread q c i t t' s' :
  client_ok c → threads c !! i = Some t → threadStep q t (shared c) = Some (t', s') →
  (∀ c', client_ok c' → shared c' = s' → threads c' !! i = Some t' → can_finish c' i) →
  can_finish c i.
Proof.
  intros Hok Hi Hs Hk. destruct c as [s ts]. cbn in *.
  assert (client_step (mkClient s ts) (mkClient s' (<[i := t']> ts))) as Hstep by (by eapply cl_thread).
  eapply can_finish_step; [exact Hstep|]. apply Hk; [by eapply client_step_ok|done|].
  cbn. by rewrite list_lookup_insert_eq by (by eapply lookup_lt_Some).
Qed.

Lemma done_finishes c i r : threads c !! i = Some (Done r) → can_finish c i.
Proof. intros H. by exists c, r. Qed.

Lemma reading_finishes c i : client_ok c → threads c !! i = Some Reading → can_finish c i.
Proof.
  intros Hok Hi. eapply (can_finish_thread MakeShardConfig); [done..|]. intros c' _ _ H.
  by eapply done_finishes.
Qed.

Lemma closed_finishes c i ch :
  client_ok c → threads c !! i = Some (Waiting ch) → (ch < fetchingDone (shared c))%nat → can_finish c i.
Proof.
  intros Hok Hi Hlt. eapply (can_finish_thread MakeShardConfig); [done..| |].
  - cbn. by rewrite decide_True.
  - intros c' Hok' _ H. by apply reading_finishes.
Qed.

(** The thread in flight wakes up the waiting one. *)
Lemma waiting_finishes c i ch :
  client_ok c → threads c !! i = Some (Waiting ch) → can_finish c i.
Proof.
  assert (∀ c j cfg w, client_ok c → threads c !! i = Some (Waiting ch) →
    threads c !! j = Some (Storing cfg w) → can_finish c i) as Hstore.
  { intros c0 j cfg w Hok Hi Hj. destruct c0 as [s ts]. cbn in *.
    assert (j ≠ i) by (intros ->; congruence).
    assert (client_step (mkClient s ts)
      (mkClient (mkShared (Some cfg) false (S (fetchingDone s))) (<[j := afterRefresh w]> ts))) as Hs.
    { eapply (cl_thread j MakeShardConfig); [exact Hj|done]. }
    eapply can_finish_step; [exact Hs|]. apply (closed_finishes _ _ ch); [by eapply client_step_ok| |].
    - cbn. by rewrite list_lookup_insert_ne.
    - pose proof (ok_thread _ Hok i _ Hi) as Hw. cbn in *. lia. }
  intros Hok Hi. destruct (ok_thread _ Hok i _ Hi) as [Hlt|[_ Hf]]; [by eapply closed_finishes|].
  destruct (ok_some _ Hok Hf) as (j & u & Hj & Hfl). destruct u as [| |w|cfg w| | |]; try done;
    [|by eapply Hstore].
  destruct c as [s ts]. cbn in *. assert (j ≠ i) by (intros ->; congruence).
  assert (client_step (mkClient s ts) (mkClient s (<[j := Storing MakeShardConfig w]> ts))) as Hs.
  { eapply (cl_thread j MakeShardConfig); [exact Hj|done]. }
  eapply can_finish_step; [exact Hs|].
  apply (Hstore _ j MakeShardConfig w); [by eapply client_step_ok|..]; cbn.
  - by rewrite list_lookup_insert_ne.
  - by rewrite list_lookup_insert_eq by (by eapply lookup_lt_Some).
Qed.

Lemma afterRefresh_finishes c i w :
  client_ok c → threads c !! i = Some (afterRefresh w) → can_finish c i.
Proof. destruct w; [apply waiting_finishes|intros _; apply done_finishes]. Qed.

Lemma storing_finishes c i cfg w :
  client_ok c → threads c !! i = Some (Storing cfg w) → can_finish c i.
Proof.
  intros Hok Hi. eapply (can_finish_thread MakeShardConfig); [done..|]. intros c' Hok' _ H.
  by eapply afterRefresh_finishes.
Qed.

Lemma querying_finishes c i w :
  client_ok c → threads c !! i = Some (Querying w) → can_finish c i.
Proof.
  intros Hok Hi. eapply (can_finish_thread MakeShardConfig); [done..|]. intros c' Hok' _ H.
  by eapply storing_finishes.
Qed.

Lemma refresh_finishes c i w :
  client_ok c → threads c !! i = Some (Refresh w) → can_finish c i.
Proof.
  intros Hok Hi. destruct (fetching (shared c)) eqn:Hf;
    (eapply (can_finish_thread MakeShardConfig); [done..|cbn; by rewrite Hf|]); intros c' Hok' _ H.
  - by eapply afterRefresh_finishes.
  - by eapply querying_finishes.
Qed.

(** C29: the configuration cache of the client is single-flight and loses no
    wake-up.  At most one query of the configuration store is in flight, a
    [getConfig] that returned gave a configuration and never nil, and no caller
    of [getConfig] or [refreshConfig] can be left waiting on a channel that
    nobody will close: from every state it can still return. *)
Theorem config_cache_single_flight (c : Client) :
  client_reachable c →
  (∀ i j t u, threads c !! i = Some t → threads c !! j = Some u → inflight t → inflight u → i = j) ∧
  (∀ i r, threads c !! i = Some (Done (Some r)) → is_Some r) ∧
  (∀ i t, threads c !! i = Some t → ∃ c' r, rtc client_step c c' ∧ threads c' !! i = Some (Done r)).
Proof.
  intros Hok%client_reachable_ok. split_and!.
  - exact (ok_single _ Hok).
  - intros i r Hi. exact (ok_thread _ Hok i _ Hi).
  - intros i t Hi. change (can_finish c i). destruct t as [|w|w|cfg w|ch| |r].
    + destruct (cachedConfig (shared c)) as [cfg|] eqn:Ec; [destruct (fetching (shared c)) eqn:Ef|];
        (eapply (can_finish_thread MakeShardConfig); [done..|cbn; rewrite Ec, ?Ef; reflexivity|]);
        intros c' Hok' _ H; [by eapply refresh_finishes|by eapply done_finishes|by eapply refresh_finishes].
    + by eapply refresh_finishes.
    + by eapply querying_finishes.
    + by eapply storing_finishes.
    + by eapply waiting_finishes.
    + by apply reading_finishes.
    + by eapply done_finishes.
Qed.

(** Two callers: the first is in [Query], the second waits for it. *)
Definition two_callers : Client :=
  mkClient (mkShared None true 0) [Querying (Some 0%nat); Waiting 0].

Lemma two_callers_reachable : client_reachable two_callers.
Proof.
  assert (∀ s ts, client_step (mkClient s ts) (mkClient s (ts ++ [GetConfig]))) as Hcall
    by (intros; apply cl_call; by left).
  assert (∀ i t t' s s' ts, ts !! i = Some t → threadStep MakeShardConfig t s = Some (t', s') →
    client_step (mkClient s ts) (mkClient s' (<[i := t']> ts))) as Hthr by (intros; by eapply cl_thread).
  unfold client_reachable, newClient.
  eapply rtc_l; [apply Hcall|]. eapply rtc_l; [apply Hcall|]. cbn [app].
  eapply rtc_l; [apply (Hthr 0%nat GetConfig); reflexivity|]. cbn.
  eapply rtc_l; [apply (Hthr 1%nat GetConfig); reflexivity|]. cbn.
  eapply rtc_l; [eapply (Hthr 0%nat (Refresh _)); reflexivity|]. cbn.
  eapply rtc_l; [eapply (Hthr 1%nat (Refresh _)); reflexivity|]. cbn. apply rtc_refl.
Qed.

Lemma config_cache_single_flight_witness :
  ∃ c' r, rtc client_step two_callers c' ∧ threads c' !! 1%nat = Some (Done r).
Proof.
  destruct (config_cache_single_flight two_callers two_callers_reachable) as (_ & _ & H).
  apply (H 1%nat (Waiting 0)). reflexivity.
Defined.

(** ** Put keeps trying with the same request *)

Definition group_clerk_ok (id : Z) (g : ShardClerk.Clerk) : Prop :=
  ShardClerk.ck_clientId g = id ∧ 0 ≤ ShardClerk.ck_leader g < ShardClerk.ck_servers g ∧
  ck_maxAttempts g = ShardClerk.ck_servers g * 2.

Definition clerk_ok (ck : SClerk) : Prop :=
  backoffTime ck = 50 ∧ ∀ gid g, rcks ck !! gid = Some g → group_clerk_ok (clerkId ck) g.

#[global] Instance Verdict_eq_dec : EqDecision Verdict.
Proof. solve_decision. Defined.

(** A configuration that gives every shard to a group that has servers. *)
Definition serves (cfg : ShardConfig) : Prop :=
  zlen (Shards cfg) = NShards ∧
  ∀ gid, gid ∈ Shards cfg → ∃ srv srvs, Groups cfg !! gid = Some (srv :: srvs).

(** An attempt around which the servers answer what [ShardGrp] answers. *)
Definition put_attempt_ok (a : Attempt PutReply) : Prop :=
  serves (at_cfg a) ∧
  ∀ k r, at_net a k = Some r →
    put_Err r ∈ [OK; ErrNoKey; ErrVersion; ErrWrongGroup; ErrWrongLeader].

Lemma groupClerk_spec ck cfg key :
  clerk_ok ck → serves cfg →
  ∃ gid g, groupClerk ck cfg key = Ret (gid, g) ∧
    Shards cfg !! Z.to_nat (Key2Shard key) = Some gid ∧ group_clerk_ok (clerkId ck) g.
Proof.
  intros [_ Hck] [Hlen Hgrp]. destruct (Key2Shard_range key) as [Hlo Hhi].
  destruct (index_returns (Shards cfg) (Key2Shard key)) as [gid Hg]; [by rewrite Hlen|].
  pose proof Hg as [_ Hl]%index_Ret.
  destruct (Hgrp gid) as (srv & srvs & Hs); [by eapply list_elem_of_lookup_2|].
  unfold groupClerk, GidServers. rewrite Hg. cbn. rewrite Hs. cbn.
  eexists gid, _. split_and!; [done..|]. destruct (rcks ck !! gid) as [g|] eqn:E; cbn; [by eapply Hck|].
  split_and!; [done|cbn; unfold zlen; cbn; lia..|done].
Qed.

Lemma set_rck_ok gid g ck : clerk_ok ck → group_clerk_ok (clerkId ck) g → clerk_ok (set_rck gid g ck).
Proof.
  intros [Hb Hr] Hg. split; [done|]. intros gid' g' H. cbn in *.
  apply lookup_insert_Some in H as [[_ <-]|[_ H]]; [done|by eapply Hr].
Qed.

Lemma group_Put_spec id g net :
  group_clerk_ok id g →
  (∀ k r, net k = Some r → put_Err r ∈ [OK; ErrNoKey; ErrVersion; ErrWrongGroup; ErrWrongLeader]) →
  ∃ e g', ShardClerk.Put g net = Ret (e, g') ∧ group_clerk_ok id g' ∧
    (e = ErrRetryExhausted ∨ (e ∈ [OK; ErrNoKey; ErrVersion; ErrWrongGroup] ∧
                              ∃ k r, net k = Some r ∧ put_Err r = e)) ∧
    (∀ r, net 0%nat = Some r → put_Err r ≠ ErrWrongLeader → e = put_Err r).
Proof.
  intros (Hid & Hl & Hm) Herr. unfold ShardClerk.Put, ShardClerk.call. rewrite Hm.
  set (n := ShardClerk.ck_servers g) in *.
  pose proof (tryLoop_spec put_Err ShardClerk.classifyPut n (ShardClerk.ck_leader g) (Z.to_nat (n * 2)) net Hl) as H.
  assert (∀ r, net 0%nat = Some r → put_Err r ≠ ErrWrongLeader →
    tryLoop put_Err ShardClerk.classifyPut n (ShardClerk.ck_leader g) (Z.to_nat (n * 2)) net =
      Ret (Some (r, ShardClerk.ck_leader g))) as H0.
  { intros r Hr Hne. destruct (Z.to_nat (n * 2)) eqn:E; [lia|]. cbn. rewrite Hr.
    specialize (Herr _ _ Hr). destruct (put_Err r); try done; set_solver. }
  destruct (tryLoop _ _ n _ _ net) as [[[r l]|]|]; cbn.
  - destruct H as (Hl' & Hc & k & Hk & Hnet & _). eexists _, _. split_and!; [done..| |].
    + right. specialize (Herr k r Hnet). destruct (put_Err r) eqn:E; try done; (split; [set_solver|eauto]).
    + intros r' Hr' Hne. specialize (H0 _ Hr' Hne). congruence.
  - eexists _, _. split_and!; [done..|by left|]. intros r' Hr' Hne. by specialize (H0 _ Hr' Hne).
  - exfalso. destruct H as (k & r & _ & Hnet & Hu). specialize (Herr k r Hnet).
    destruct (put_Err r); try done; set_solver.
Qed.

(** The outcome of a sequence of attempts, [k] attempts of which were made. *)
Definition put_outcome (attempts : list (Attempt PutReply)) (made : nat) (res : option Err) : Prop :=
  match res with
  | Some e => e ∈ [OK; ErrVersion; ErrNoKey] ∧ (0 < made)%nat ∧
      ∃ a k r, attempts !! (made - 1)%nat = Some a ∧ at_net a k = Some r ∧ put_Err r = e
  | None => made = length attempts ∧
      ∀ a r, a ∈ attempts → at_net a 0%nat = Some r → put_Err r ∉ [OK; ErrVersion; ErrNoKey]
  end.

Lemma put_outcome_cons a attempts made res :
  put_outcome attempts made res →
  (res = None → ∀ r, at_net a 0%nat = Some r → put_Err r ∉ [OK; ErrVersion; ErrNoKey]) →
  put_outcome (a :: attempts) (S made) res.
Proof.
  intros H Ha. destruct res as [e|]; cbn in *.
  - destruct H as (? & Hm & b & k & r & Hb & ?). split_and!; [done|lia|].
    exists b, k, r. split; [|done]. by destruct made; [lia|]; rewrite <- Hb; cbn; rewrite Nat.sub_0_r.
  - destruct H as [-> H]. split; [done|]. intros b r [->|Hb]%elem_of_cons; [by apply Ha|by apply H].
Qed.

Lemma serveLoop_Put_spec key ck retry attempts :
  clerk_ok ck → Forall put_attempt_ok attempts →
  ∃ res ck' called,
    serveLoop ShardClerk.Put (λ e, e) SclassifyPut key ck retry attempts = Ret (res, ck', called) ∧
    clerk_ok ck' ∧ clerkId ck' = clerkId ck ∧ requestId ck' = requestId ck ∧
    Forall (λ c, ShardClerk.ck_clientId c.2 = clerkId ck) called ∧
    (∀ k c, called !! k = Some c → ∃ a, attempts !! k = Some a ∧
       Shards (at_cfg a) !! Z.to_nat (Key2Shard key) = Some c.1) ∧
    put_outcome attempts (length called) res.
Proof.
  revert ck retry. induction attempts as [|a attempts IH]; intros ck retry Hck Hat.
  { exists None, ck, []. split_and!; try done. by split; [|intros b r ?%elem_of_nil]. }
  apply Forall_cons in Hat as [[Hserve Hnet] Hat].
  destruct (groupClerk_spec ck (at_cfg a) key Hck Hserve) as (gid & g & Hg & Hsh & Hgok).
  destruct (group_Put_spec _ _ _ Hgok Hnet) as (e & g' & Hp & Hg'ok & He & Hfirst).
  cbn [serveLoop]. rewrite Hg. cbn [mbind outcome_bind]. rewrite Hp. cbn [mbind outcome_bind].
  pose proof (set_rck_ok gid g' ck Hck Hg'ok) as Hck'.
  destruct (decide (SclassifyPut e = Retry)) as [Hre|Hre].
  - rewrite Hre. destruct (backoff_returns 50 retry (at_rand a)) as (ms & Hms & _).
    { unfold maxBackoff. lia. }
    assert (backoffTime (set_rck gid g' ck) = 50) as -> by apply Hck'. rewrite Hms. cbn [mbind outcome_bind].
    destruct (IH (set_rck gid g' ck) (S retry) Hck' Hat)
      as (res & ck2 & called & E & H1 & H2 & H3 & H4 & H5 & H6).
    rewrite E. cbn [mbind outcome_bind]. exists res, ck2, ((gid, g) :: called). split_and!; try done.
    + constructor; [apply Hgok|done].
    + intros [|k] c Hc; [injection Hc as <-; by exists a|]. by apply H5.
    + cbn [length]. apply put_outcome_cons; [done|]. intros _ r Hr Hin.
      rewrite (Hfirst r Hr) in Hre; [|intros Hw; rewrite Hw in Hin; set_solver].
      destruct (put_Err r); try done; set_solver.
  - assert (e ∈ [OK; ErrVersion; ErrNoKey] ∧ SclassifyPut e = Answer ∧
      ∃ k r, at_net a k = Some r ∧ put_Err r = e) as (Hin & Han & k & r & Hk & Hr).
    { destruct He as [->|[Hin ?]]; [done|]. destruct e; try done; set_solver. }
    rewrite Han. exists (Some e), (set_rck gid g' ck), [(gid, g)]. split_and!; try done.
    + constructor; [apply Hgok|done].
    + intros [|j] c Hc; [injection Hc as <-; by exists a|done].
    + cbn. split_and!; [done|lia|]. exists a, k, r. by split_and!.
Qed.

(** [Put] of the sharded client never panics and keeps one identity.  All
    the requests of one [Put] carry the client's id and one new request id,
    whichever groups and retries it takes, so that servers can recognise them;
    each goes to the group its configuration gives the key's shard to; [Put]
    returns only OK, ErrVersion or ErrNoKey, which the last group called
    replied; and it does return as soon as the first server it calls in some
    attempt replies one of them. *)
Theorem shardkv_put_answers (ck : SClerk) (key value : string) (version : Tversion)
    (attempts : list (Attempt PutReply)) :
  clerk_ok ck → Forall put_attempt_ok attempts →
  ∃ res ck' sent,
    SPut ck key value version attempts = Ret (res, ck', sent) ∧
    clerk_ok ck' ∧ clerkId ck' = clerkId ck ∧ requestId ck' = u64_add (requestId ck) 1 ∧
    (∀ k gid args, sent !! k = Some (gid, args) →
       args = mkPutArgs (mkRequestInfo (clerkId ck) (requestId ck')) key value version ∧
       ∃ a, attempts !! k = Some a ∧ Shards (at_cfg a) !! Z.to_nat (Key2Shard key) = Some gid) ∧
    put_outcome attempts (length sent) res.
Proof.
  intros Hck Hat. assert (clerk_ok (SnextReqId ck)) as Hck' by exact Hck.
  destruct (serveLoop_Put_spec key (SnextReqId ck) 0 attempts Hck' Hat)
    as (res & ck2 & called & E & H1 & H2 & H3 & H4 & H5 & H6).
  unfold SPut. rewrite E. cbn [mbind outcome_bind]. eexists res, ck2, _. split_and!; try done.
  - intros k gid args Hk. rewrite list_lookup_fmap in Hk.
    destruct (called !! k) as [c|] eqn:Ec; [|done]. cbn in Hk. injection Hk as <- <-.
    split; [|by apply H5]. unfold ShardClerk.putArgs.
    rewrite Forall_lookup in H4. by rewrite (H4 _ _ Ec), H3.
  - by rewrite length_map.
Qed.

(** The first group does not have the shard any more; the next configuration
    names the second, which answers. *)
Definition moved_cfg (gid : Tgid) : ShardConfig :=
  mkShardConfig gid (replicate 12 gid) {[ gid := ["a"; "b"; "c"] ]}.

Definition moved_attempts : list (Attempt PutReply) :=
  [mkAttempt (moved_cfg 1) (λ _, Some (mkPutReply ErrWrongGroup)) 7;
   mkAttempt (moved_cfg 2) (λ _, Some (mkPutReply OK)) 7].

Lemma moved_cfg_serves gid : serves (moved_cfg gid).
Proof.
  split; [done|]. intros g [-> _]%elem_of_replicate. exists "a", ["b"; "c"]. apply lookup_singleton_eq.
Qed.

Lemma moved_attempts_ok : Forall put_attempt_ok moved_attempts.
Proof.
  apply Forall_cons_2; [|apply Forall_cons_2; [|apply Forall_nil_2]];
    (split; [apply moved_cfg_serves|]); intros k r [= <-]; cbn; set_solver.
Qed.

Lemma shardkv_put_answers_witness :
  ∃ ck' sent, SPut (SMakeClerk 9) "x" "v" 0 moved_attempts = Ret (Some OK, ck', sent) ∧
    length sent = 2%nat ∧ clerkId ck' = 9 ∧ requestId ck' = 1.
Proof.
  destruct (shardkv_put_answers (SMakeClerk 9) "x" "v" 0 moved_attempts)
    as (res & ck' & sent & E & _ & H2 & H3 & _ & H5).
  - split; [reflexivity|]. intros gid g H. cbn in H. by rewrite lookup_empty in H.
  - exact moved_attempts_ok.
  - assert (sent = [(1, mkPutArgs (mkRequestInfo 9 1) "x" "v" 0); (2, mkPutArgs (mkRequestInfo 9 1) "x" "v" 0)]
      ∧ res = Some OK) as [-> ->] by (vm_compute in E; injection E as <- _ <-; split; reflexivity).
    exists ck'. eexists. split; [exact E|]. split; [reflexivity|]. split; [exact H2|exact H3].
Defined.
