(* ===== verification/Observe.v ===== *)
(** * Observe: the observation log of the demonstration

    Models [src/src/debug/observe.go] and
    [src/shardkv-demo/web/observe_handler.go].  Every server prints lines with
    a tag; the main process keeps the lines whose tag is switched on in a ring
    buffer of 500 entries and hands each to the callback that publishes it.  A
    page polls the buffer with a cursor.

    A write takes its number in one atomic step and fills its slot in another
    ([claim] and [fill]); [observeWrite] is the two without a step of another
    goroutine in between, and [ostep] interleaves them with polls.

    [observe_window]: when writes do not overlap polls, a poll returns exactly
    the newest 500 lines with a number from the cursor on, in order;
    [observe_poll_complete]: a page that polls before 500 further lines have
    been written gets every line once.  [observe_poll_loses_line]: a poll
    between the two steps of a write returns an empty line in its place, and
    the page's cursor is past the line when it is there. *)

From S2P Require Import Prelude.

(** ** Switches and tags *)

Definition TagElection : string := "Election".
Definition TagMigration : string := "Migration".
Definition TagKVSubmit : string := "KVSubmit".
Definition TagSnapshot : string := "Snapshot".
Definition TagReplication : string := "Replication".

Record Toggles := mkToggles {
  observeElection : bool; observeMigration : bool; observeKVSubmit : bool;
  observeSnapshot : bool; observeReplication : bool }.

Definition SetObserveElection v (t : Toggles) := mkToggles v (observeMigration t) (observeKVSubmit t) (observeSnapshot t) (observeReplication t).
Definition SetObserveMigration v (t : Toggles) := mkToggles (observeElection t) v (observeKVSubmit t) (observeSnapshot t) (observeReplication t).
Definition SetObserveKVSubmit v (t : Toggles) := mkToggles (observeElection t) (observeMigration t) v (observeSnapshot t) (observeReplication t).
Definition SetObserveSnapshot v (t : Toggles) := mkToggles (observeElection t) (observeMigration t) (observeKVSubmit t) v (observeReplication t).
Definition SetObserveReplication v (t : Toggles) := mkToggles (observeElection t) (observeMigration t) (observeKVSubmit t) (observeSnapshot t) v.

(** ** The ring buffer *)

Record ObserveLine := mkLine {
  Tag : string; Text : string; Id : Z; UnixMilli : Z; Style : string }.

#[global] Instance ObserveLine_eq_dec : EqDecision ObserveLine.
Proof. solve_decision. Defined.

Definition observeBufSize : Z := 500.
Definition observeSinkSize : Z := 1000.

(** The zero value that fills the array at first. *)
Definition zeroLine : ObserveLine := mkLine "" "" 0 0 "".

Record observeItem := mkItem { tag : string; text : string; style : string }.

(** The process's variables; [observeLogCallback] is the registered function
    (if any), and [pushed] the lines it has been called with. *)
Record Observe := mkObserve {
  toggles : Toggles;
  observeBuf : list ObserveLine;
  observeIdx : Z;
  observeSinkCh : list observeItem;
  observeLogCallback : bool;
  pushed : list ObserveLine }.

Definition observe_init : Observe :=
  mkObserve (mkToggles false false false false false)
    (replicate (Z.to_nat observeBufSize) zeroLine) 0 [] false [].

(** [observeIdx.Add(1) - 1] *)
Definition claim (o : Observe) : Z * Observe :=
  let n := i64 (observeIdx o + 1) in
  (i64 (n - 1), mkObserve (toggles o) (observeBuf o) n (observeSinkCh o) (observeLogCallback o) (pushed o)).

(** The slot is filled and the callback runs. *)
Definition fill (idx now : Z) (it : observeItem) (o : Observe) : outcome Observe :=
  let line := mkLine (tag it) (text it) idx now (style it) in
  buf ← store (observeBuf o) (Z.rem idx observeBufSize) line;
  Ret (mkObserve (toggles o) buf (observeIdx o) (observeSinkCh o) (observeLogCallback o)
    (if observeLogCallback o then pushed o ++ [line] else pushed o)).

Definition observeWrite (now : Z) (it : observeItem) (o : Observe) : outcome Observe :=
  let '(idx, o) := claim o in fill idx now it o.

(** The switch of a tag; a tag without a switch is on. *)
Definition enabled (t : Toggles) (tg : string) : bool :=
  if decide (tg = TagElection) then observeElection t
  else if decide (tg = TagMigration) then observeMigration t
  else if decide (tg = TagKVSubmit) then observeKVSubmit t
  else if decide (tg = TagSnapshot) then observeSnapshot t
  else if decide (tg = TagReplication) then observeReplication t
  else true.

Definition ObservePushTagged (now : Z) (it : observeItem) (o : Observe) : outcome Observe :=
  if enabled (toggles o) (tag it) then observeWrite now it o else Ret o.

(** The loop [for i := start; i < current; i++]. *)
Fixpoint scanLines (n : nat) (i sinceId : Z) (buf : list ObserveLine) : outcome (list ObserveLine) :=
  match n with
  | O => Ret []
  | S n =>
      line ← index buf (Z.rem i observeBufSize);
      rest ← scanLines n (i + 1) sinceId buf;
      Ret (if decide (sinceId ≤ Id line) then line :: rest else rest)
  end.

Definition GetObserveLinesSince (sinceId : Z) (o : Observe) : outcome (list ObserveLine * Z) :=
  let current := observeIdx o in
  if decide (current = 0) then Ret ([], 0)
  else
    let start := Z.max 0 (current - observeBufSize) in
    all ← scanLines (Z.to_nat (current - start)) start sinceId (observeBuf o);
    Ret (all, current).

(** ** The queue in front of it *)

Definition set_sink q (o : Observe) : Observe :=
  mkObserve (toggles o) (observeBuf o) (observeIdx o) q (observeLogCallback o) (pushed o).

(** A full queue drops the line. *)
Definition EnqueueObserve (it : observeItem) (o : Observe) : Observe :=
  if decide (zlen (observeSinkCh o) < observeSinkSize) then set_sink (observeSinkCh o ++ [it]) o else o.

(** One round of [observeSinkDrain]; [None] while the queue is empty. *)
Definition observeSinkDrain (now : Z) (o : Observe) : option (outcome Observe) :=
  match observeSinkCh o with
  | [] => None
  | it :: q => Some (ObservePushTagged now it (set_sink q o))
  end.

Definition SetObserveLogCallback (o : Observe) : Observe :=
  mkObserve (toggles o) (observeBuf o) (observeIdx o) (observeSinkCh o) true (pushed o).

Definition set_toggles t (o : Observe) : Observe :=
  mkObserve t (observeBuf o) (observeIdx o) (observeSinkCh o) (observeLogCallback o) (pushed o).

(** ** The web interface's handlers *)

(** [POST /api/observe]; [None] is the answer 400. *)
Definition HandleObserveSet (scene : string) (on : bool) (o : Observe) : option Observe :=
  if decide (scene = "election"%string) then Some (set_toggles (SetObserveElection on (toggles o)) o)
  else if decide (scene = "migration"%string) then Some (set_toggles (SetObserveMigration on (toggles o)) o)
  else if decide (scene = "kvsubmit"%string) then Some (set_toggles (SetObserveKVSubmit on (toggles o)) o)
  else if decide (scene = "snapshot"%string) then Some (set_toggles (SetObserveSnapshot on (toggles o)) o)
  else if decide (scene = "replication"%string) then Some (set_toggles (SetObserveReplication on (toggles o)) o)
  else None.

(** [GET /api/observe/logs]: [parsed] is what [strconv.ParseInt] makes of the
    parameter; without a number the cursor is 0. *)
Definition HandleObserveLogs (parsed : option Z) (o : Observe) : outcome (list ObserveLine * Z) :=
  GetObserveLinesSince (default 0 parsed) o.

(** ** Runs of the main process

    The steps that change the variables; the goroutine that drains the queue
    and those that print locally each write without interruption. *)

Inductive OLabel :=
| OEnqueue (it : observeItem)             (* TesterRPC.PostObserveLog *)
| ODrain (now : Z)
| OPush (now : Z) (it : observeItem)      (* a print of the main process *)
| OSet (scene : string) (on : bool)
| OCallback.

Definition obs_step (l : OLabel) (o : Observe) : outcome Observe :=
  match l with
  | OEnqueue it => Ret (EnqueueObserve it o)
  | ODrain now => default (Ret o) (observeSinkDrain now o)
  | OPush now it => ObservePushTagged now it o
  | OSet scene on => Ret (default o (HandleObserveSet scene on o))
  | OCallback => Ret (SetObserveLogCallback o)
  end.

Fixpoint obs_run (ls : list OLabel) (o : Observe) : outcome Observe :=
  match ls with
  | [] => Ret o
  | l :: ls => o ← obs_step l o; obs_run ls o
  end.

(** The same with writes in two steps: [OClaim] takes a number, which the
    goroutine keeps in [claimed] until [OFill]. *)
Record Racing := mkRacing { obs : Observe; claimed : list (Z * observeItem) }.

Inductive RLabel :=
| RClaim (it : observeItem)
| RFill (w : nat) (now : Z).

Definition ostep (l : RLabel) (r : Racing) : option (outcome Racing) :=
  match l with
  | RClaim it =>
      if enabled (toggles (obs r)) (tag it) then
        let '(idx, o) := claim (obs r) in Some (Ret (mkRacing o (claimed r ++ [(idx, it)])))
      else None
  | RFill w now =>
      match claimed r !! w with
      | Some (idx, it) =>
          Some (o ← fill idx now it (obs r); Ret (mkRacing o (delete w (claimed r))))
      | None => None
      end
  end.

(** ** The buffer holds the newest lines *)

(** [ws] are the lines written so far. *)
Record represents (ws : list ObserveLine) (o : Observe) : Prop := {
  rp_idx : observeIdx o = zlen ws;
  rp_len : length (observeBuf o) = Z.to_nat observeBufSize;
  rp_slot i x : ws !! i = Some x → Id x = Z.of_nat i ∧
    (zlen ws ≤ Z.of_nat i + observeBufSize →
     observeBuf o !! Z.to_nat (Z.of_nat i mod observeBufSize) = Some x) }.

Definition fits (ws : list ObserveLine) : Prop := zlen ws < 2 ^ 63.

Lemma rem_slot i : 0 ≤ i → Z.rem i observeBufSize = i mod observeBufSize.
Proof. intros. by rewrite Z.rem_mod_nonneg. Qed.

Lemma slot_bound i : 0 ≤ i mod observeBufSize < observeBufSize.
Proof. by apply Z.mod_pos_bound. Qed.

(** Two of the newest 500 lines never share a slot. *)
Lemma slot_inj i j : i < j → j < i + observeBufSize → i mod observeBufSize ≠ j mod observeBufSize.
Proof.
  unfold observeBufSize. intros H1 H2 E.
  pose proof (Z.div_mod i 500). pose proof (Z.div_mod j 500). lia.
Qed.

Lemma observeWrite_represents ws o now it :
  represents ws o → fits (ws ++ [zeroLine]) →
  let line := mkLine (tag it) (text it) (zlen ws) now (style it) in
  ∃ o', observeWrite now it o = Ret o' ∧ represents (ws ++ [line]) o' ∧
    observeLogCallback o' = observeLogCallback o ∧ toggles o' = toggles o ∧
    pushed o' = (if observeLogCallback o then pushed o ++ [line] else pushed o).
Proof.
  intros [Hidx Hlen Hslot] Hfit line. unfold fits in Hfit. rewrite zlen_app in Hfit.
  change (zlen [zeroLine]) with 1 in Hfit. pose proof (zlen_nonneg ws) as Hn.
  unfold observeWrite, claim, fill. rewrite Hidx.
  rewrite (i64_small (zlen ws + 1)), (i64_small (zlen ws + 1 - 1)) by lia.
  replace (zlen ws + 1 - 1) with (zlen ws) by lia. cbn [observeBuf].
  rewrite rem_slot by done. pose proof (slot_bound (zlen ws)) as Hb.
  destruct (store_returns (observeBuf o) (zlen ws mod observeBufSize) line) as [buf Hbuf].
  { change (zlen (observeBuf o)) with (Z.of_nat (length (observeBuf o))). rewrite Hlen. unfold observeBufSize in *. lia. }
  fold line. rewrite Hbuf. cbn. eexists. split_and!; [done| |done..].
  apply store_Ret in Hbuf as [_ ->]. split; cbn.
  - by rewrite zlen_app.
  - by rewrite length_insert.
  - intros i x Hx. rewrite zlen_app. change (zlen [line]) with 1.
    apply lookup_app_Some in Hx as [Hx|[Hge Hx]].
    + destruct (Hslot _ _ Hx) as [HId Hsl]. split; [done|]. intros Hw.
      apply lookup_lt_Some in Hx. rewrite list_lookup_insert_ne; [apply Hsl; lia|].
      pose proof (slot_bound (Z.of_nat i)). unfold zlen in *.
      pose proof (slot_inj (Z.of_nat i) (Z.of_nat (length ws))). lia.
    + apply list_lookup_singleton_Some in Hx as [Hi <-]. assert (i = length ws) as -> by lia.
      split; [done|]. intros _. apply list_lookup_insert_eq. rewrite Hlen. fold (zlen ws).
      unfold observeBufSize in *. lia.
Qed.

Lemma scanLines_window n i since buf ws :
  (∀ k, (i ≤ k < i + n)%nat → ∃ x, ws !! k = Some x ∧
     buf !! Z.to_nat (Z.of_nat k mod observeBufSize) = Some x) →
  scanLines n (Z.of_nat i) since buf = Ret (filter (λ l, since ≤ Id l) (take n (drop i ws))).
Proof.
  revert i. induction n as [|n IH]; intros i H; cbn [scanLines]; [done|].
  destruct (H i) as (x & Hx & Hb); [lia|]. rewrite rem_slot by lia.
  rewrite (proj2 (index_Ret _ _ x)) by (split; [apply slot_bound|done]). cbn.
  replace (Z.of_nat i + 1) with (Z.of_nat (S i)) by lia.
  rewrite IH by (intros k Hk; apply H; lia). cbn.
  rewrite (drop_S _ _ _ Hx). cbn. by case_decide.
Qed.

(** The newest 500. *)
Definition newest (ws : list ObserveLine) : list ObserveLine :=
  drop (length ws - Z.to_nat observeBufSize) ws.

Lemma GetObserveLinesSince_represents ws o since :
  represents ws o →
  GetObserveLinesSince since o = Ret (filter (λ l, since ≤ Id l) (newest ws), zlen ws).
Proof.
  intros [Hidx Hlen Hslot]. unfold GetObserveLinesSince. rewrite Hidx.
  case_decide as H0; [by destruct ws; [|unfold zlen in H0; cbn in H0; lia]|].
  set (m := (length ws - Z.to_nat observeBufSize)%nat).
  assert (Z.max 0 (zlen ws - observeBufSize) = Z.of_nat m) as ->
    by (unfold m, zlen, observeBufSize; lia).
  assert (Z.to_nat (zlen ws - Z.of_nat m) = (length ws - m)%nat) as -> by (unfold zlen; lia).
  rewrite (scanLines_window _ _ _ _ ws).
  - cbn. fold m. rewrite take_ge; [done|]. by rewrite length_drop.
  - intros k Hk. destruct (lookup_lt_is_Some_2 ws k) as [x Hx]; [lia|]. exists x. split; [done|].
    apply Hslot; [done|]. unfold m, zlen, observeBufSize in *. lia.
Qed.

(** ** Runs *)

Lemma represents_eq ws o o' :
  observeIdx o' = observeIdx o → observeBuf o' = observeBuf o → represents ws o → represents ws o'.
Proof. intros E1 E2 []. split; [by rewrite E1|by rewrite E2|by rewrite E2]. Qed.

(** What the callback has been given is what the buffer is the end of. *)
Definition published (o : Observe) : Prop := observeLogCallback o = true ∧ represents (pushed o) o.

Lemma ObservePushTagged_published now it o :
  published o → zlen (pushed o) + 1 < 2 ^ 63 →
  ∃ o' new, ObservePushTagged now it o = Ret o' ∧ published o' ∧
    pushed o' = pushed o ++ new ∧ (length new ≤ 1)%nat ∧
    new = if enabled (toggles o) (tag it)
          then [mkLine (tag it) (text it) (zlen (pushed o)) now (style it)] else [].
Proof.
  intros [Hcb Hrep] Hfit. unfold ObservePushTagged.
  destruct (enabled _ _).
  - destruct (observeWrite_represents _ _ now it Hrep) as (o' & -> & Hrep' & Hcb' & _ & Hp).
    { unfold fits. rewrite zlen_app. done. }
    rewrite Hcb in *. eexists o', _. split_and!; [done| |exact Hp|done|done].
    split; [congruence|by rewrite Hp].
  - exists o, []. split_and!; [done|done|by rewrite app_nil_r|cbn; lia|done].
Qed.

Lemma obs_step_published l o :
  published o → zlen (pushed o) + 1 < 2 ^ 63 →
  ∃ o' new, obs_step l o = Ret o' ∧ published o' ∧ pushed o' = pushed o ++ new ∧ (length new ≤ 1)%nat.
Proof.
  intros Hp Hfit. assert (∀ o', pushed o' = pushed o → published o' →
    ∃ o'' new, Ret o' = Ret o'' ∧ published o'' ∧ pushed o'' = pushed o ++ new ∧ (length new ≤ 1)%nat) as Hsame.
  { intros o' E H. exists o', []. rewrite app_nil_r. split_and!; [done..|cbn; lia]. }
  destruct l as [it|now|now it|scene on|]; cbn [obs_step].
  - apply Hsame; unfold EnqueueObserve; case_decide; [done..| |done].
    destruct Hp as [? Hr]. split; [done|]. by eapply represents_eq; [..|exact Hr].
  - unfold observeSinkDrain. destruct (observeSinkCh o) as [|it q]; cbn; [by apply Hsame|].
    destruct (ObservePushTagged_published now it (set_sink q o)) as (o' & new & ? & ? & ? & ? & _);
      [|done|by exists o', new].
    destruct Hp as [? Hr]. split; [done|]. by eapply represents_eq; [..|exact Hr].
  - destruct (ObservePushTagged_published now it o Hp Hfit) as (o' & new & ? & ? & ? & ? & _).
    by exists o', new.
  - apply Hsame; unfold HandleObserveSet; repeat case_decide; try done;
      (destruct Hp as [? Hr]; split; [done|]; by eapply represents_eq; [..|exact Hr]).
  - apply Hsame; [done|]. destruct Hp as [? Hr]. split; [done|]. by eapply represents_eq; [..|exact Hr].
Qed.

Lemma obs_run_published ls o :
  published o → zlen (pushed o) + zlen ls < 2 ^ 63 →
  ∃ o' new, obs_run ls o = Ret o' ∧ published o' ∧ pushed o' = pushed o ++ new ∧ zlen new ≤ zlen ls.
Proof.
  revert o. induction ls as [|l ls IH]; intros o Hp Hfit.
  - exists o, []. rewrite app_nil_r. done.
  - rewrite zlen_cons in *. pose proof (zlen_nonneg ls).
    destruct (obs_step_published l o Hp) as (o1 & n1 & E1 & Hp1 & Hn1 & Hl1); [lia|].
    destruct (IH o1 Hp1) as (o2 & n2 & E2 & Hp2 & Hn2 & Hl2).
    { rewrite Hn1, zlen_app. unfold zlen at 2. lia. }
    exists o2, (n1 ++ n2). cbn [obs_run]. rewrite E1. split_and!; [done..| |].
    + by rewrite Hn2, Hn1, (assoc_L (++)).
    + rewrite zlen_app. unfold zlen at 1. lia.
Qed.

Lemma init_published : published (SetObserveLogCallback observe_init).
Proof. split; [done|]. split; [done|by vm_compute|]. intros i x H. done. Qed.

(** The observation log is the end of the published stream.  Once the
    callback is registered, no sequence of fewer than 2^63 steps stops the
    process; a poll then returns, of the newest 500 lines handed to the
    callback, those with a number from the cursor on, in the order they were
    published, and as the next cursor the number of lines published; the lines
    are numbered 0, 1, 2, ... *)
Theorem observe_window ls since :
  zlen ls < 2 ^ 63 →
  ∃ o, obs_run ls (SetObserveLogCallback observe_init) = Ret o ∧
    HandleObserveLogs (Some since) o =
      Ret (filter (λ l, since ≤ Id l) (newest (pushed o)), zlen (pushed o)) ∧
    (∀ i x, pushed o !! i = Some x → Id x = Z.of_nat i).
Proof.
  intros Hfit. destruct (obs_run_published ls _ init_published) as (o & new & E & [_ Hrep] & _); [done|].
  exists o. split_and!; [done|by apply GetObserveLinesSince_represents|].
  intros i x Hx. by eapply rp_slot.
Qed.

Lemma newest_app ws new :
  zlen new ≤ observeBufSize → ∃ old, newest (ws ++ new) = old ++ new ∧
    ∀ x, x ∈ old → x ∈ ws.
Proof.
  intros Hn. unfold newest. rewrite length_app.
  exists (drop (length ws + length new - Z.to_nat observeBufSize) ws). split.
  - rewrite drop_app_le; [done|]. unfold zlen in Hn. lia.
  - intros x. by apply subseteq_drop.
Qed.

(** Polling misses nothing.  A page that polls with the cursor of its last
    poll before more than 500 further lines were published gets exactly the
    lines published in between. *)
Theorem observe_poll_complete ls1 ls2 since o1 o2 old cur new :
  zlen ls1 + zlen ls2 < 2 ^ 63 →
  obs_run ls1 (SetObserveLogCallback observe_init) = Ret o1 → obs_run ls2 o1 = Ret o2 →
  HandleObserveLogs (Some since) o1 = Ret (old, cur) →
  pushed o2 = pushed o1 ++ new → zlen new ≤ observeBufSize →
  HandleObserveLogs (Some cur) o2 = Ret (new, zlen (pushed o2)).
Proof.
  intros Hfit H1 H2 Hpoll Hnew Hn. pose proof (zlen_nonneg ls2).
  destruct (obs_run_published ls1 _ init_published) as (? & n1 & E1 & Hp1 & Hn1 & Hl1).
  { change (0 + zlen ls1 < 2 ^ 63). lia. }
  rewrite H1 in E1. injection E1 as <-. cbn in Hn1.
  destruct (obs_run_published ls2 o1 Hp1) as (? & ? & E2 & [_ Hr2] & _); [rewrite Hn1; lia|].
  rewrite H2 in E2. injection E2 as <-. destruct Hp1 as [_ Hr1]. unfold HandleObserveLogs in *.
  cbn [default id] in *.
  rewrite (GetObserveLinesSince_represents _ _ _ Hr1) in Hpoll. injection Hpoll as _ <-.
  rewrite (GetObserveLinesSince_represents _ _ _ Hr2), Hnew. f_equal. f_equal.
  destruct (newest_app (pushed o1) new Hn) as (olds & -> & Holds).
  assert (∀ x, x ∈ new → zlen (pushed o1) ≤ Id x) as Hge.
  { intros x (i & Hi)%list_elem_of_lookup.
    destruct (rp_slot _ _ Hr2 (length (pushed o1) + i) x) as [-> _]; [|unfold zlen; lia].
    rewrite Hnew, lookup_app_r by lia. by replace (_ + i - _)%nat with i by lia. }
  assert (∀ x, x ∈ olds → ¬ zlen (pushed o1) ≤ Id x) as Hlt.
  { intros x Hx. apply Holds, list_elem_of_lookup in Hx as (i & Hi).
    destruct (rp_slot _ _ Hr1 i x Hi) as [-> _]. apply lookup_lt_Some in Hi. unfold zlen. lia. }
  rewrite filter_app, (filter_keep _ new), (filter_drop _ olds); done.
Qed.

(** The hypotheses hold: three lines of a tag that is switched on, with a poll
    after the first. *)
Definition sample_line (t : string) : observeItem := mkItem TagElection t "".

Definition sample_first : list OLabel :=
  [OSet "election" true; OPush 7 (sample_line "a"); OPush 8 (mkItem TagSnapshot "off" "")].
Definition sample_second : list OLabel :=
  [OEnqueue (sample_line "b"); ODrain 9; OPush 10 (sample_line "c")].

Definition sample_state (ls : list OLabel) : Observe :=
  match obs_run ls (SetObserveLogCallback observe_init) with Ret o => o | Panic _ => observe_init end.

Lemma observe_window_witness :
  zlen (sample_first ++ sample_second) < 2 ^ 63 ∧
  ∃ o, obs_run (sample_first ++ sample_second) (SetObserveLogCallback observe_init) = Ret o ∧
    HandleObserveLogs (Some 1) o = Ret (filter (λ l, 1 ≤ Id l) (newest (pushed o)), zlen (pushed o)) ∧
    (∀ i x, pushed o !! i = Some x → Id x = Z.of_nat i).
Proof. split; [done|]. apply (observe_window (sample_first ++ sample_second) 1). done. Defined.

Lemma observe_poll_complete_witness :
  HandleObserveLogs (Some 1) (sample_state (sample_first ++ sample_second)) =
    Ret ([mkLine TagElection "b" 1 9 ""; mkLine TagElection "c" 2 10 ""], 3).
Proof.
  apply (observe_poll_complete sample_first sample_second 0 (sample_state sample_first)
    (sample_state (sample_first ++ sample_second)) [mkLine TagElection "a" 0 7 ""] 1);
    vm_compute; done.
Defined.

(** ** Polls between the two steps of a write *)

Definition race_start : Racing :=
  mkRacing (SetObserveLogCallback (set_toggles (SetObserveElection true (toggles observe_init)) observe_init)) [].

(** A goroutine has taken number 0 and not yet filled its slot. *)
Definition race_claimed : Racing :=
  match ostep (RClaim (sample_line "elected")) race_start with Some (Ret r) => r | _ => race_start end.
Definition race_filled : Racing :=
  match ostep (RFill 0 5) race_claimed with Some (Ret r) => r | _ => race_start end.

(** A poll can lose a line.  A poll between the two steps of a write
    returns an empty line in its place and a cursor behind it: the poll with
    that cursor does not return the line either, although it is published and
    in the buffer.  The mutex of [GetObserveLinesSince] does not prevent it,
    because writers do not take it. *)
Theorem observe_poll_loses_line :
  ostep (RClaim (sample_line "elected")) race_start = Some (Ret race_claimed) ∧
  HandleObserveLogs (Some 0) (obs race_claimed) = Ret ([zeroLine], 1) ∧
  ostep (RFill 0 5) race_claimed = Some (Ret race_filled) ∧
  pushed (obs race_filled) = [mkLine TagElection "elected" 0 5 ""] ∧
  HandleObserveLogs (Some 1) (obs race_filled) = Ret ([], 1).
Proof. split_and!; vm_compute; reflexivity. Qed.
