(* ===== verification/Sse.v ===== *)
(** * Sse: the event stream of the web interface

    Models [src/shardkv-demo/web/sse.go].  Results of tasks, changes of leaders
    and of nodes, and observation lines are published to every open page.  A
    page has a queue for the events that must not be lost and one for those
    that may; a new page is first sent the results of the last fifty tasks.

    Publishers and pages are goroutines: every step between two operations on
    the broker's mutex or on a channel is a label of [sstep].  A result is
    first stored and then sent to the pages subscribed at that moment; a page
    first subscribes and then reads the stored results.  [task_done_delivered]
    shows that this order loses no result. *)

From S2P Require Import Prelude.

Definition taskDoneCacheSize : nat := 50.
Definition priorityChanSize : nat := 500.
Definition normalChanSize : nat := 3000.

Section sse.
(** The payload of an event and what [json.Marshal] makes of it. *)
Context {D : Type} (marshal : D → option string).

Record sseEvent := mkEvent { Type_ : string; Data : D }.
Implicit Types (e ev : sseEvent).

Definition isPriorityEvent (t : string) : bool :=
  bool_decide (t = "task-done"%string ∨ t = "leader-change"%string ∨ t = "cluster-change"%string).

(** A subscriber is known by the number of its subscription. *)
Record subscribePair := mkPair { priority : list sseEvent; normal : list sseEvent; done : bool }.

(** A publisher: before [storeTaskDone], before the copy of the subscribers,
    and sending to the subscribers that are left. *)
Inductive PubPc := PStore | PCopy | PSend (subs : list nat).
#[global] Instance PubPc_eq_dec : EqDecision PubPc.
Proof. solve_decision. Defined.
Record Publisher := mkPublisher { p_ev : sseEvent; p_pc : PubPc }.

(** A page: [HandleSSE] before [subscribe], before [getRecentTaskDone], writing
    the stored results, in its loop, before the deferred [unsubscribe], over. *)
Inductive ConnPc :=
| HConnect
| HCache (sp : nat)
| HReplay (sp : nat) (cached : list sseEvent)
| HLoop (sp : nat)
| HLeave (sp : nat)
| HGone.
Record Conn := mkConn { h_pc : ConnPc; h_out : list sseEvent }.

Record SSEBroker := mkBroker {
  pairs : list subscribePair;
  subscribers : gset nat;
  recentTaskDone : list sseEvent;
  publishers : list Publisher;
  conns : list Conn }.
Implicit Types (s : SSEBroker).

Definition NewSSEBroker : SSEBroker := mkBroker [] ∅ [] [] [].

Definition set_pairs x s := mkBroker x (subscribers s) (recentTaskDone s) (publishers s) (conns s).
Definition set_recent x s := mkBroker (pairs s) (subscribers s) x (publishers s) (conns s).
Definition set_pub p x s := mkBroker (pairs s) (subscribers s) (recentTaskDone s) (<[p := x]> (publishers s)) (conns s).
Definition set_conn h x s := mkBroker (pairs s) (subscribers s) (recentTaskDone s) (publishers s) (<[h := x]> (conns s)).

(** ** Operations on the broker *)

Definition subscribe s : nat * SSEBroker :=
  let sp := length (pairs s) in
  (sp, mkBroker (pairs s ++ [mkPair [] [] false]) ({[sp]} ∪ subscribers s)
         (recentTaskDone s) (publishers s) (conns s)).

Definition unsubscribe (sp : nat) s : SSEBroker :=
  if decide (sp ∈ subscribers s) then
    mkBroker (alter (λ q, mkPair (priority q) (normal q) true) sp (pairs s))
      (subscribers s ∖ {[sp]}) (recentTaskDone s) (publishers s) (conns s)
  else s.

Definition storeTaskDone ev s : SSEBroker :=
  let l := recentTaskDone s ++ [ev] in
  set_recent (if decide (taskDoneCacheSize < length l)%nat then drop (length l - taskDoneCacheSize) l else l) s.

Definition getRecentTaskDone s : list sseEvent := recentTaskDone s.

(** One send of [publish]'s loop; [None] while it blocks.  With [gone] the
    select takes the closed channel. *)
Definition sendTo (gone : bool) ev (q : subscribePair) : option subscribePair :=
  if isPriorityEvent (Type_ ev) then
    if gone then (if done q then Some q else None)
    else if decide (length (priority q) < priorityChanSize)%nat
         then Some (mkPair (priority q ++ [ev]) (normal q) (done q)) else None
  else if decide (length (normal q) < normalChanSize)%nat
       then Some (mkPair (priority q) (normal q ++ [ev]) (done q)) else Some q.

Definition pubStep (p : nat) (order : list nat) (gone : bool) s : option SSEBroker :=
  pb ← publishers s !! p;
  match p_pc pb with
  | PStore => Some (set_pub p (mkPublisher (p_ev pb) PCopy) (storeTaskDone (p_ev pb) s))
  | PCopy =>
      guard (NoDup order ∧ list_to_set order = subscribers s);;
      Some (set_pub p (mkPublisher (p_ev pb) (PSend order)) s)
  | PSend [] => None
  | PSend (sp :: rest) =>
      q ← pairs s !! sp;
      q ← sendTo gone (p_ev pb) q;
      Some (set_pub p (mkPublisher (p_ev pb) (PSend rest)) (set_pairs (<[sp := q]> (pairs s)) s))
  end.

(** ** A page *)

(** [writeSSEEvent]: [ok] says whether the connection takes the write. *)
Definition writeSSEEvent (ok : bool) ev (out : list sseEvent) : bool * list sseEvent :=
  match marshal (Data ev) with
  | None => (true, out)
  | Some _ => if ok then (true, out ++ [ev]) else (false, out)
  end.

(** The text of an event on the wire. *)
Definition eventText ev : option string :=
  data ← marshal (Data ev);
  Some ("event: " +:+ Type_ ev +:+ String (Ascii.ascii_of_nat 10) ("data: " +:+ data +:+ String (Ascii.ascii_of_nat 10) (String (Ascii.ascii_of_nat 10) "")))%string.

Inductive Choice := CGo (ok : bool) | CPrio (ok : bool) | CNorm (ok : bool) | CDone.

Definition afterWrite (sp : nat) (r : bool * list sseEvent) (next : ConnPc) : Conn :=
  mkConn (if r.1 : bool then next else HLeave sp) r.2.

Definition connStep (h : nat) (c : Choice) s : option SSEBroker :=
  cn ← conns s !! h;
  match h_pc cn, c with
  | HConnect, CGo _ => let '(sp, s) := subscribe s in Some (set_conn h (mkConn (HCache sp) (h_out cn)) s)
  | HCache sp, CGo _ => Some (set_conn h (mkConn (HReplay sp (getRecentTaskDone s)) (h_out cn)) s)
  | HReplay sp [], CGo _ => Some (set_conn h (mkConn (HLoop sp) (h_out cn)) s)
  | HReplay sp (ev :: cached), CGo ok =>
      Some (set_conn h (afterWrite sp (writeSSEEvent ok ev (h_out cn)) (HReplay sp cached)) s)
  | HLoop sp, CDone => Some (set_conn h (mkConn (HLeave sp) (h_out cn)) s)
  | HLoop sp, CPrio ok =>
      q ← pairs s !! sp;
      match priority q with
      | [] => None
      | ev :: rest =>
          Some (set_conn h (afterWrite sp (writeSSEEvent ok ev (h_out cn)) (HLoop sp))
            (set_pairs (<[sp := mkPair rest (normal q) (done q)]> (pairs s)) s))
      end
  | HLoop sp, CNorm ok =>
      q ← pairs s !! sp;
      match normal q with
      | [] => None
      | ev :: rest =>
          Some (set_conn h (afterWrite sp (writeSSEEvent ok ev (h_out cn)) (HLoop sp))
            (set_pairs (<[sp := mkPair (priority q) rest (done q)]> (pairs s)) s))
      end
  | HLeave sp, CGo _ => Some (set_conn h (mkConn HGone (h_out cn)) (unsubscribe sp s))
  | _, _ => None
  end.

(** ** Executions *)

Inductive SLabel :=
| LPublish ev                                         (* one of the Publish... methods *)
| LPub (p : nat) (order : list nat) (gone : bool)
| LConnect                                            (* GET /api/events *)
| LConn (h : nat) (c : Choice).

(** Results of tasks are stored before they are published. *)
Definition startPublish ev : Publisher :=
  mkPublisher ev (if decide (Type_ ev = "task-done"%string) then PStore else PCopy).

Definition sstep (l : SLabel) s : option SSEBroker :=
  match l with
  | LPublish ev => Some (mkBroker (pairs s) (subscribers s) (recentTaskDone s) (publishers s ++ [startPublish ev]) (conns s))
  | LPub p order gone => pubStep p order gone s
  | LConnect => Some (mkBroker (pairs s) (subscribers s) (recentTaskDone s) (publishers s) (conns s ++ [mkConn HConnect []]))
  | LConn h c => connStep h c s
  end.

Fixpoint srun (ls : list SLabel) s : option SSEBroker :=
  match ls with
  | [] => Some s
  | l :: ls => s ← sstep l s; srun ls s
  end.

Definition is_store (l : SLabel) s : bool :=
  match l with
  | LPub p _ _ => match publishers s !! p with Some (mkPublisher _ PStore) => true | _ => false end
  | _ => false
  end.

(** How many results an execution stores. *)
Fixpoint stores (ls : list SLabel) s : nat :=
  match ls with
  | [] => 0
  | l :: ls => (if is_store l s then 1 else 0) +
      match sstep l s with Some s' => stores ls s' | None => 0 end
  end.

(** The subscription of a page that has not left. *)
Definition conn_pair (cn : Conn) : option nat :=
  match h_pc cn with
  | HCache sp | HReplay sp _ | HLoop sp | HLeave sp => Some sp
  | _ => None
  end.

(** ** The broker's invariant *)

Record sse_ok s : Prop := {
  so_subs sp : sp ∈ subscribers s → (sp < length (pairs s))%nat;
  so_conn h cn sp : conns s !! h = Some cn → conn_pair cn = Some sp →
    sp ∈ subscribers s ∧ ∃ q, pairs s !! sp = Some q ∧ done q = false;
  so_own h1 h2 cn1 cn2 sp : conns s !! h1 = Some cn1 → conns s !! h2 = Some cn2 →
    conn_pair cn1 = Some sp → conn_pair cn2 = Some sp → h1 = h2;
  so_bound sp q : pairs s !! sp = Some q →
    (length (priority q) ≤ priorityChanSize ∧ length (normal q) ≤ normalChanSize)%nat;
  so_done sp q : pairs s !! sp = Some q → done q = false → sp ∈ subscribers s;
  so_pub p ev subs : publishers s !! p = Some (mkPublisher ev (PSend subs)) →
    Forall (λ sp, sp < length (pairs s))%nat subs;
  so_recent : (length (recentTaskDone s) ≤ taskDoneCacheSize)%nat }.

Lemma ok_pairs s sp q q' :
  sse_ok s → pairs s !! sp = Some q → done q' = done q →
  (length (priority q') ≤ priorityChanSize ∧ length (normal q') ≤ normalChanSize)%nat →
  sse_ok (set_pairs (<[sp := q']> (pairs s)) s).
Proof.
  intros [H1 H2 H3 H4 H6 H7 H5] Hq Hd Hb. split; cbn; [|..|done].
  - intros x Hx. rewrite length_insert. by apply H1.
  - intros h cn x Hh Hx. destruct (H2 _ _ _ Hh Hx) as (? & q0 & Hq0 & ?). split; [done|].
    destruct (decide (x = sp)) as [->|Hne].
    + exists q'. rewrite list_lookup_insert_eq by (by eapply lookup_lt_Some). split; [done|].
      rewrite Hd. congruence.
    + exists q0. by rewrite list_lookup_insert_ne.
  - done.
  - intros x y [(-> & -> & _)|[_ Hy]]%list_lookup_insert_Some; [done|by eapply H4].
  - intros x y [(-> & -> & _)|[_ Hy]]%list_lookup_insert_Some; [|by eapply H6].
    rewrite Hd. by apply H6.
  - intros p ev subs Hp. rewrite length_insert. by eapply H7.
Qed.

Lemma ok_conn s h cn cn' :
  sse_ok s → conns s !! h = Some cn → conn_pair cn' = conn_pair cn → sse_ok (set_conn h cn' s).
Proof.
  intros [H1 H2 H3 H4 H6 H7 H5] Hh Hp.
  assert (∀ g c sp, <[h:=cn']> (conns s) !! g = Some c → conn_pair c = Some sp →
    ∃ c0, conns s !! g = Some c0 ∧ conn_pair c0 = Some sp) as Hback.
  { intros g c sp [(-> & -> & _)|[_ Hc]]%list_lookup_insert_Some Hsp; [exists cn|exists c];
      split; congruence. }
  split; cbn; [done| | |done..].
  - intros g c sp Hg Hsp. destruct (Hback _ _ _ Hg Hsp) as (c0 & ? & ?). by eapply H2.
  - intros g1 g2 c1 c2 sp Hg1 Hg2 Hs1 Hs2.
    destruct (Hback _ _ _ Hg1 Hs1) as (? & ? & ?), (Hback _ _ _ Hg2 Hs2) as (? & ? & ?).
    by eapply H3.
Qed.

Lemma ok_pub s p x :
  sse_ok s → (∀ subs, p_pc x = PSend subs → Forall (λ sp, sp < length (pairs s))%nat subs) →
  sse_ok (set_pub p x s).
Proof.
  intros [H1 H2 H3 H4 H6 H7 H5] Hx. split; cbn; try done.
  intros p' ev subs [(-> & E & _)|[_ Hp]]%list_lookup_insert_Some; [|by eapply H7].
  apply Hx. by subst.
Qed.

Lemma ok_store s ev : sse_ok s → sse_ok (storeTaskDone ev s).
Proof.
  intros [H1 H2 H3 H4 H6 H7 H5]. split; cbn; try done.
  case_decide; [rewrite length_drop|]; lia.
Qed.

Lemma ok_subscribe s h cn :
  sse_ok s → conns s !! h = Some cn → conn_pair cn = None →
  sse_ok (set_conn h (mkConn (HCache (length (pairs s))) (h_out cn)) (subscribe s).2).
Proof.
  intros [H1 H2 H3 H4 H6 H7 H5] Hh Hp. split; cbn; [| | | | | |done].
  - intros sp. rewrite length_app. cbn. intros [->%elem_of_singleton|Hs]%elem_of_union; [lia|].
    apply H1 in Hs. lia.
  - intros g c sp [(-> & <- & _)|[Hne Hc]]%list_lookup_insert_Some Hsp; cbn in *.
    + simplify_eq. split; [set_solver|]. exists (mkPair [] [] false).
      split; [|done]. by rewrite list_lookup_middle.
    + destruct (H2 _ _ _ Hc Hsp) as (? & q & ? & ?). split; [set_solver|]. exists q.
      by rewrite lookup_app_l by (by eapply lookup_lt_Some).
  - intros g1 g2 c1 c2 sp [(-> & <- & _)|[? Hc1]]%list_lookup_insert_Some
      [(-> & <- & _)|[? Hc2]]%list_lookup_insert_Some Hs1 Hs2; cbn in *; simplify_eq; try done.
    + destruct (H2 _ _ _ Hc2 Hs2) as (Hin & _). apply H1 in Hin. lia.
    + destruct (H2 _ _ _ Hc1 Hs1) as (Hin & _). apply H1 in Hin. lia.
    + by eapply H3.
  - intros sp q [Hq|[_ [_ <-]%list_lookup_singleton_Some]]%lookup_app_Some; [by eapply H4|].
    cbn. unfold priorityChanSize, normalChanSize. lia.
  - intros sp q [Hq|[Hge [Hi _]%list_lookup_singleton_Some]]%lookup_app_Some Hd.
    + apply elem_of_union_r. by eapply H6.
    + apply elem_of_union_l, elem_of_singleton. lia.
  - intros p ev subs Hs. eapply Forall_impl; [by eapply H7|]. cbn. intros x Hx. rewrite length_app. lia.
Qed.

Lemma ok_unsubscribe s h cn sp :
  sse_ok s → conns s !! h = Some cn → conn_pair cn = Some sp →
  sse_ok (set_conn h (mkConn HGone (h_out cn)) (unsubscribe sp s)).
Proof.
  intros [H1 H2 H3 H4 H6 H7 H5] Hh Hp. destruct (H2 _ _ _ Hh Hp) as [Hin (q & Hq & Hd)].
  unfold unsubscribe. rewrite decide_True by done.
  assert (∀ g c x, <[h:=mkConn HGone (h_out cn)]> (conns s) !! g = Some c → conn_pair c = Some x →
    conns s !! g = Some c ∧ x ≠ sp) as Hback.
  { intros g c x [(-> & <- & _)|[Hne Hc]]%list_lookup_insert_Some Hx; [done|]. split; [done|].
    intros ->. by apply Hne, (H3 _ _ _ _ _ Hh Hc Hp Hx). }
  split; cbn; [| | | | | |done].
  - intros x Hx. rewrite length_alter. apply H1. set_solver.
  - intros g c x Hg Hx. destruct (Hback _ _ _ Hg Hx) as [Hc Hne].
    destruct (H2 _ _ _ Hc Hx) as (? & q0 & ? & ?). split; [set_solver|]. exists q0.
    by rewrite list_lookup_alter_ne.
  - intros g1 g2 c1 c2 x Hg1 Hg2 Hs1 Hs2.
    destruct (Hback _ _ _ Hg1 Hs1) as [? _], (Hback _ _ _ Hg2 Hs2) as [? _]. by eapply H3.
  - intros x y Hy. destruct (decide (x = sp)) as [->|Hne].
    + rewrite list_lookup_alter_eq, Hq in Hy. injection Hy as <-. by apply (H4 sp q).
    + rewrite list_lookup_alter_ne in Hy by done. by eapply H4.
  - intros x y Hy Hyd. destruct (decide (x = sp)) as [->|Hne].
    + rewrite list_lookup_alter_eq, Hq in Hy. by injection Hy as <-.
    + rewrite list_lookup_alter_ne in Hy by done.
      apply elem_of_difference. split; [by eapply H6|set_solver].
  - intros p ev subs Hp'. rewrite length_alter. by eapply H7.
Qed.

Lemma sendTo_ok gone ev q q' :
  sendTo gone ev q = Some q' →
  (length (priority q) ≤ priorityChanSize ∧ length (normal q) ≤ normalChanSize)%nat →
  done q' = done q ∧ (length (priority q') ≤ priorityChanSize ∧ length (normal q') ≤ normalChanSize)%nat.
Proof.
  unfold sendTo. intros H Hb. repeat case_match; simplify_eq; cbn; rewrite ?length_app; cbn;
    split; try done; lia.
Qed.

Lemma afterWrite_pair sp r next :
  conn_pair (mkConn next r.2) = Some sp → conn_pair (afterWrite sp r next) = Some sp.
Proof. unfold afterWrite. by destruct (r.1). Qed.

Lemma sstep_ok l s s' : sse_ok s → sstep l s = Some s' → sse_ok s'.
Proof.
  intros Hok. destruct l as [ev|p order gone| |h c]; cbn [sstep]; intros H.
  - simplify_eq. destruct Hok as [H1 H2 H3 H4 H6 H7 H5]. split; cbn; try done.
    intros p e subs [Hp|[_ [_ Hp]%list_lookup_singleton_Some]]%lookup_app_Some; [by eapply H7|].
    unfold startPublish in Hp. case_decide; simplify_eq.
  - apply bind_Some in H as (pb & Hp & H). destruct (p_pc pb) as [| |[|sp rest]] eqn:Epc; [..|done|].
    + simplify_eq. apply ok_pub; [by apply ok_store|done].
    + case_guard as Ho; [|done]. cbn in H. simplify_eq. apply ok_pub; [done|]. intros subs [= <-].
      apply Forall_forall. intros sp Hsp. apply (so_subs _ Hok). destruct Ho as [_ <-]. set_solver.
    + apply bind_Some in H as (q & Hq & H). apply bind_Some in H as (q' & Hq' & H). simplify_eq.
      destruct (sendTo_ok _ _ _ _ Hq') as [Hd Hb]; [by eapply so_bound|].
      apply ok_pub; [by eapply ok_pairs|]. intros subs [= <-]. cbn. rewrite length_insert.
      destruct pb as [ev pc]. cbn in *. subst pc.
      by eapply Forall_inv_tail, (so_pub _ Hok).
  - simplify_eq. destruct Hok as [H1 H2 H3 H4 H6 H7 H5].
    assert (∀ g c sp, (conns s ++ [mkConn HConnect []]) !! g = Some c → conn_pair c = Some sp →
      conns s !! g = Some c) as Hback.
    { intros g c sp [Hc|[_ [_ <-]%list_lookup_singleton_Some]]%lookup_app_Some ?; done. }
    split; cbn; [done| | |done..]; eauto.
  - apply bind_Some in H as (cn & Hh & H).
    destruct cn as [pc out]; cbn [h_pc h_out] in H.
    destruct pc as [|sp|sp [|ev cached]|sp|sp|]; destruct c as [ok|ok|ok|]; try done.
    + cbn in H. simplify_eq. by apply (ok_subscribe s h (mkConn HConnect out)).
    + simplify_eq. by eapply ok_conn.
    + simplify_eq. by eapply ok_conn.
    + simplify_eq. eapply ok_conn; [done..|]. by apply afterWrite_pair.
    + apply bind_Some in H as (q & Hq & H). destruct (priority q) as [|ev rest] eqn:Eq; simplify_eq.
      eapply ok_conn; [|done|by apply afterWrite_pair]. eapply ok_pairs; [done..|].
      pose proof (so_bound _ Hok _ _ Hq) as Hb. rewrite Eq in Hb. cbn in *. lia.
    + apply bind_Some in H as (q & Hq & H). destruct (normal q) as [|ev rest] eqn:Eq; simplify_eq.
      eapply ok_conn; [|done|by apply afterWrite_pair]. eapply ok_pairs; [done..|].
      pose proof (so_bound _ Hok _ _ Hq) as Hb. rewrite Eq in Hb. cbn in *. lia.
    + simplify_eq. by eapply ok_conn.
    + simplify_eq. by apply (ok_unsubscribe s h (mkConn (HLeave sp) out)).
Qed.

(** ** No result is lost *)

Definition pending (pc : PubPc) (sp : nat) : Prop :=
  match pc with PStore | PCopy => True | PSend subs => sp ∈ subs end.

Definition prioOf s (sp : nat) : list sseEvent := default [] (priority <$> pairs s !! sp).

Section tracked.
(** One result [e], published by [p], and one page [h].  [late] says that the
    page had not read the stored results at first. *)
Context (e : sseEvent) (p h : nat) (late : Prop).
Hypothesis He : Type_ e = "task-done"%string.
Hypothesis Hm : is_Some (marshal (Data e)).

(** The result is among the [n] stored last. *)
Definition stored_within (n : nat) (l : list sseEvent) : Prop :=
  ∃ pre post, l = pre ++ e :: post ∧ (length post < n)%nat.

Definition reaches (n : nat) pc (todo out : list sseEvent) sp s : Prop :=
  pending pc sp ∨ e ∈ todo ∨ e ∈ out ∨ e ∈ prioOf s sp ∨ (late ∧ taskDoneCacheSize < n)%nat.

Definition page_ok (n : nat) pc (cn : Conn) s : Prop :=
  match h_pc cn with
  | HConnect | HCache _ => late
  | HReplay sp todo => reaches n pc todo (h_out cn) sp s
  | HLoop sp => reaches n pc [] (h_out cn) sp s
  | _ => True
  end.

Record tracked (n : nat) pc s : Prop := {
  tk_pub : publishers s !! p = Some (mkPublisher e pc);
  tk_recent : pc = PStore ∨ (taskDoneCacheSize < n)%nat ∨ stored_within n (recentTaskDone s);
  tk_page : match conns s !! h with None => late | Some cn => page_ok n pc cn s end }.

Lemma e_priority : isPriorityEvent (Type_ e) = true.
Proof. rewrite He. by apply bool_decide_eq_true; left. Qed.

Lemma stored_within_store n ev s :
  stored_within n (recentTaskDone s) → (taskDoneCacheSize < S n)%nat ∨
  stored_within (S n) (recentTaskDone (storeTaskDone ev s)).
Proof.
  intros (pre & post & E & Hl). destruct (decide (taskDoneCacheSize < S n)%nat); [by left|right].
  unfold storeTaskDone. cbn. rewrite E. case_decide as Hd.
  - rewrite !length_app in *. cbn in *.
    exists (drop (length pre + S (length post) + 1 - taskDoneCacheSize) pre), (post ++ [ev]).
    rewrite length_app. cbn. split; [|lia].
    rewrite <-(assoc_L (++)). by rewrite drop_app_le by lia.
  - exists pre, (post ++ [ev]). rewrite length_app, <-(assoc_L (++)). cbn. split; [done|lia].
Qed.

Lemma stored_now n s : stored_within (S n) (recentTaskDone (storeTaskDone e s)).
Proof.
  unfold storeTaskDone. cbn. case_decide as Hd.
  - exists (drop (length (recentTaskDone s ++ [e]) - taskDoneCacheSize) (recentTaskDone s)), [].
    rewrite length_app in *. cbn in *. split; [|lia].
    rewrite drop_app_le; [done|]. unfold taskDoneCacheSize in *. lia.
  - exists (recentTaskDone s), []. cbn. split; [done|lia].
Qed.

Lemma page_mono n n' pc pc' cn s s' :
  (n ≤ n')%nat →
  (∀ sp, conn_pair cn = Some sp → pending pc sp → pending pc' sp ∨ e ∈ prioOf s' sp) →
  (∀ sp, conn_pair cn = Some sp → e ∈ prioOf s sp → e ∈ prioOf s' sp) →
  page_ok n pc cn s → page_ok n' pc' cn s'.
Proof.
  intros Hn Hp Hq. unfold page_ok, reaches, conn_pair in *.
  destruct (h_pc cn) as [|sp|sp todo|sp|sp|]; try done;
    intros [Hr|[Hr|[Hr|[Hr|[Hl Hr]]]]]; try (by auto 6);
    try (destruct (Hp sp) as [?|?]; by auto 6); do 4 right; (split; [done|lia]).
Qed.

Lemma prioOf_insert s sp q x :
  (sp < length (pairs s))%nat → prioOf (set_pairs (<[sp := q]> (pairs s)) s) x =
    if decide (x = sp) then priority q else prioOf s x.
Proof.
  intros Hlt. unfold prioOf. cbn. case_decide as E; [subst|].
  - by rewrite list_lookup_insert_eq.
  - by rewrite list_lookup_insert_ne.
Qed.

(** The publisher's own steps. *)
Lemma tracked_self n pc order gone s s' :
  sse_ok s → tracked n pc s → pubStep p order gone s = Some s' →
  ∃ pc', tracked (n + if decide (pc = PStore) then 1 else 0) pc' s'.
Proof.
  intros Hok [Hpub Hrec Hpage] H. apply bind_Some in H as (pb & Hp & H).
  rewrite Hpub in Hp. injection Hp as <-. cbn [p_pc p_ev] in H.
  assert (p < length (publishers s))%nat as Hlt by (by eapply lookup_lt_Some).
  destruct pc as [| |[|sp rest]]; [| |done|]; cbn in H.
  - injection H as <-. exists PCopy. split; cbn.
    + by apply list_lookup_insert_eq.
    + right; right. rewrite Nat.add_1_r. apply stored_now.
    + destruct (conns s !! h) as [cn|]; [|done]. eapply page_mono; [| | |exact Hpage]; [lia|by left|done].
  - case_guard as Ho; [|done]. cbn in H. injection H as <-. exists (PSend order). split; cbn.
    + by apply list_lookup_insert_eq.
    + destruct Hrec as [?|[?|?]]; [done|right; left; lia|right; right]. by rewrite Nat.add_0_r.
    + destruct (conns s !! h) as [cn|] eqn:Hh; [|done]. eapply page_mono; [| | |exact Hpage]; [lia| |done].
      intros sp Hsp _. left. cbn. destruct Ho as [_ Hset].
      destruct (so_conn _ Hok _ _ _ Hh Hsp) as [Hin _]. rewrite <-Hset in Hin. set_solver.
  - apply bind_Some in H as (q & Hq & H). apply bind_Some in H as (q' & Hq' & H). injection H as <-.
    exists (PSend rest). split; cbn.
    + by apply list_lookup_insert_eq.
    + destruct Hrec as [?|[?|?]]; [done|right; left; lia|right; right]. by rewrite Nat.add_0_r.
    + destruct (conns s !! h) as [cn|] eqn:Hh; [|done].
      assert (Hsp0 : (sp < length (pairs s))%nat) by (by eapply lookup_lt_Some).
      eapply page_mono; [| | |exact Hpage]; [lia| |].
      * intros x Hx [->|Hr]%elem_of_cons; [right|by left].
        change (e ∈ prioOf (set_pairs (<[sp := q']> (pairs s)) s) sp).
        rewrite prioOf_insert, decide_True by done.
        destruct (so_conn _ Hok _ _ _ Hh Hx) as (_ & q0 & Hq0 & Hd).
        assert (q0 = q) as -> by congruence.
        unfold sendTo in Hq'. rewrite e_priority, Hd in Hq'.
        destruct gone; [done|]. case_decide; [|done]. simplify_eq. cbn. set_solver.
      * intros x Hx Hin.
        change (e ∈ prioOf (set_pairs (<[sp := q']> (pairs s)) s) x).
        rewrite prioOf_insert by done. case_decide; [subst|done].
        unfold prioOf in Hin. rewrite Hq in Hin. cbn in Hin.
        unfold sendTo in Hq'. repeat case_match; simplify_eq; cbn; set_solver.
Qed.

(** The steps of another publisher. *)
Lemma tracked_other n pc p' order gone s s' :
  tracked n pc s → p' ≠ p → pubStep p' order gone s = Some s' →
  tracked (n + if is_store (LPub p' order gone) s then 1 else 0) pc s'.
Proof.
  intros [Hpub Hrec Hpage] Hne H. apply bind_Some in H as ([ev pc'] & Hp & H).
  unfold is_store. rewrite Hp. cbn [p_pc p_ev] in H.
  destruct pc' as [| |[|sp rest]]; [| |done|]; cbn in H.
  - injection H as <-. split; cbn.
    + by rewrite list_lookup_insert_ne.
    + rewrite Nat.add_1_r. destruct Hrec as [?|[?|?]]; [by left|right; left; lia|right].
      by apply (stored_within_store n ev).
    + destruct (conns s !! h) as [cn|]; [|done]. eapply page_mono; [| | |exact Hpage]; [lia|by left|done].
  - case_guard; [|done]. cbn in H. injection H as <-. rewrite Nat.add_0_r. split; cbn; [|done|done].
    by rewrite list_lookup_insert_ne.
  - apply bind_Some in H as (q & Hq & H). apply bind_Some in H as (q' & Hq' & H). injection H as <-.
    rewrite Nat.add_0_r. split; cbn; [by rewrite list_lookup_insert_ne|done|].
    destruct (conns s !! h) as [cn|] eqn:Hh; [|done].
    assert (Hsp0 : (sp < length (pairs s))%nat) by (by eapply lookup_lt_Some).
    eapply page_mono; [| | |exact Hpage]; [lia|by left|].
    intros x Hx Hin. change (e ∈ prioOf (set_pairs (<[sp := q']> (pairs s)) s) x).
    rewrite prioOf_insert by done. case_decide; [subst|done].
    unfold prioOf in Hin. rewrite Hq in Hin. cbn in Hin.
    unfold sendTo in Hq'. repeat case_match; simplify_eq; cbn; set_solver.
Qed.

(** A step of a page leaves the other pages' channels alone. *)
Lemma connStep_frame h' c s s' :
  sse_ok s → connStep h' c s = Some s' →
  publishers s' = publishers s ∧ recentTaskDone s' = recentTaskDone s ∧
  (∀ g, g ≠ h' → conns s' !! g = conns s !! g) ∧
  (∀ cn sp, h ≠ h' → conns s !! h = Some cn → conn_pair cn = Some sp → prioOf s' sp = prioOf s sp).
Proof.
  intros Hok H. apply bind_Some in H as ([pc out] & Hh & H). cbn [h_pc h_out] in H.
  assert (∀ x g, g ≠ h' → conns (set_conn h' x s) !! g = conns s !! g) as Hset.
  { intros x g Hg. cbn. by rewrite list_lookup_insert_ne. }
  assert (∀ sp q cn x, pairs s !! sp = Some q → conn_pair (mkConn pc out) = Some sp → h ≠ h' →
    conns s !! h = Some cn → conn_pair cn = Some x → x ≠ sp) as Hother.
  { intros sp q cn x _ Hsp Hne Hcn Hx ->. by apply Hne, (so_own _ Hok _ _ _ _ _ Hcn Hh Hx Hsp). }
  destruct pc as [|sp|sp [|ev cached]|sp|sp|]; destruct c as [ok|ok|ok|]; try done.
  - cbn in H. injection H as <-. split_and!; [done..|by intros; apply Hset|].
    intros cn sp _ Hcn Hsp. destruct (so_conn _ Hok _ _ _ Hcn Hsp) as (_ & q & Hq & _).
    unfold prioOf. cbn. by rewrite lookup_app_l by (by eapply lookup_lt_Some).
  - injection H as <-. by split_and!; [..|intros; apply Hset|].
  - injection H as <-. by split_and!; [..|intros; apply Hset|].
  - injection H as <-. by split_and!; [..|intros; apply Hset|].
  - apply bind_Some in H as (q & Hq & H). destruct (priority q) as [|ev rest]; [done|]. injection H as <-.
    split_and!; [done..|by intros; apply Hset|]. intros cn x Hne Hcn Hx.
    unfold prioOf. cbn. rewrite list_lookup_insert_ne; [done|]. intros ->. by eapply Hother.
  - apply bind_Some in H as (q & Hq & H). destruct (normal q) as [|ev rest]; [done|]. injection H as <-.
    split_and!; [done..|by intros; apply Hset|]. intros cn x Hne Hcn Hx.
    unfold prioOf. cbn. rewrite list_lookup_insert_ne; [done|]. intros ->. by eapply Hother.
  - injection H as <-. by split_and!; [..|intros; apply Hset|].
  - injection H as <-. unfold unsubscribe. case_decide; [|by split_and!; [..|intros; apply Hset|]].
    split_and!; [done..|by intros; apply Hset|]. intros cn x Hne Hcn Hx.
    destruct (so_conn _ Hok _ _ _ Hh eq_refl) as (_ & q & Hq & _).
    unfold prioOf. cbn. rewrite list_lookup_alter_ne; [done|]. intros ->. by eapply Hother.
Qed.

Lemma write_keeps ok ev out x : x ∈ out → x ∈ (writeSSEEvent ok ev out).2.
Proof. unfold writeSSEEvent. destruct (marshal (Data ev)); [destruct ok|]; cbn; [|done..].
  intros H. apply elem_of_app. by left.
Qed.

Lemma write_e ok out : (writeSSEEvent ok e out).1 = true → e ∈ (writeSSEEvent ok e out).2.
Proof. unfold writeSSEEvent. destruct Hm as [? ->]. destruct ok; cbn; [|done].
  intros _. apply elem_of_app. right. by left.
Qed.

(** The page's own steps. *)
Lemma page_self n pc c s s' cn :
  tracked n pc s → conns s !! h = Some cn → connStep h c s = Some s' →
  ∃ cn', conns s' !! h = Some cn' ∧ page_ok n pc cn' s'.
Proof.
  intros [_ Hrec Hpage] Hh H. rewrite Hh in Hpage. apply bind_Some in H as (cn0 & Hcn & H).
  rewrite Hh in Hcn. injection Hcn as <-.
  assert (h < length (conns s))%nat as Hlt by (by eapply lookup_lt_Some).
  destruct cn as [cpc out]; cbn [h_pc h_out] in *.
  destruct cpc as [|sp|sp [|ev cached]|sp|sp|]; destruct c as [ok|ok|ok|]; try done.
  - cbn in H. injection H as <-. eexists. split; [by apply list_lookup_insert_eq|done].
  - injection H as <-. eexists. split; [by apply list_lookup_insert_eq|]. cbn in Hpage |- *.
    unfold reaches, getRecentTaskDone. destruct Hrec as [->|[Hn|(pre & post & -> & _)]];
      [by left|by do 4 right|right; left]. apply elem_of_app. right. by left.
  - injection H as <-. eexists. split; [by apply list_lookup_insert_eq|]. done.
  - injection H as <-. eexists. split; [by apply list_lookup_insert_eq|].
    unfold afterWrite, page_ok. cbn in Hpage. cbn [h_pc h_out].
    destruct (writeSSEEvent ok ev out).1 eqn:Ew; [|done]. unfold reaches in *.
    destruct Hpage as [?|[[<-|?]%elem_of_cons|[?|?]]]; [by left| |by right; left| |by do 3 right].
    + right; right; left. by apply write_e.
    + right; right; left. by apply write_keeps.
  - apply bind_Some in H as (q & Hq & H). destruct (priority q) as [|ev rest] eqn:Eq; [done|].
    injection H as <-. eexists. split; [by apply list_lookup_insert_eq|].
    unfold afterWrite, page_ok. cbn in Hpage. cbn [h_pc h_out].
    destruct (writeSSEEvent ok ev out).1 eqn:Ew; [|done]. unfold reaches in *.
    destruct Hpage as [?|[?|[?|[Hin|?]]]]; [by left|by right; left| | |by do 4 right].
    + right; right; left. by apply write_keeps.
    + unfold prioOf in Hin. rewrite Hq in Hin. cbn in Hin. rewrite Eq in Hin.
      apply elem_of_cons in Hin as [<-|Hin]; [right; right; left; by apply write_e|].
      do 3 right. left. unfold prioOf. cbn.
      by rewrite list_lookup_insert_eq by (by eapply lookup_lt_Some).
  - apply bind_Some in H as (q & Hq & H). destruct (normal q) as [|ev rest] eqn:Eq; [done|].
    injection H as <-. eexists. split; [by apply list_lookup_insert_eq|].
    unfold afterWrite, page_ok. cbn in Hpage. cbn [h_pc h_out].
    destruct (writeSSEEvent ok ev out).1 eqn:Ew; [|done]. unfold reaches in *.
    destruct Hpage as [?|[?|[?|[Hin|?]]]]; [by left|by right; left| | |by do 4 right].
    + right; right; left. by apply write_keeps.
    + do 3 right. left. unfold prioOf in *. rewrite Hq in Hin. cbn in *.
      by rewrite list_lookup_insert_eq by (by eapply lookup_lt_Some).
  - injection H as <-. eexists. split; [by apply list_lookup_insert_eq|done].
  - injection H as <-. eexists. unfold unsubscribe. case_decide;
      (split; [by apply list_lookup_insert_eq|done]).
Qed.

Lemma tracked_step n pc l s s' :
  sse_ok s → tracked n pc s → sstep l s = Some s' →
  ∃ pc', tracked (n + if is_store l s then 1 else 0) pc' s'.
Proof.
  intros Hok Ht H. destruct l as [ev|p' order gone| |h' c]; cbn [sstep] in H.
  - injection H as <-. exists pc. rewrite Nat.add_0_r. destruct Ht as [Hpub Hrec Hpage].
    split; [|done|done]. cbn. by apply lookup_app_l_Some.
  - destruct (decide (p' = p)) as [->|Hne]; [|exists pc; by eapply tracked_other].
    destruct (tracked_self _ _ _ _ _ _ Hok Ht H) as [pc' Ht']. exists pc'.
    cbn. rewrite (tk_pub _ _ _ Ht). destruct pc; done.
  - injection H as <-. exists pc. rewrite Nat.add_0_r. destruct Ht as [Hpub Hrec Hpage].
    split; [done|done|]. cbn. destruct (conns s !! h) as [cn|] eqn:Hh.
    + by rewrite lookup_app_l by (by eapply lookup_lt_Some); rewrite Hh.
    + rewrite lookup_app_r by (by apply lookup_ge_None_1). by destruct (h - _)%nat.
  - exists pc. rewrite Nat.add_0_r.
    destruct (connStep_frame _ _ _ _ Hok H) as (Ep & Er & Hc & Hp).
    destruct (decide (h' = h)) as [->|Hne].
    + assert (∃ cn, conns s !! h = Some cn) as [cn Hcn] by (apply bind_Some in H as (cn & ? & _); eauto).
      destruct (page_self _ _ _ _ _ _ Ht Hcn H) as (cn' & Hcn' & Hpg). destruct Ht.
      split; [by rewrite Ep|by rewrite Er|by rewrite Hcn'].
    + destruct Ht as [Hpub Hrec Hpage]. split; [by rewrite Ep|by rewrite Er|].
      rewrite Hc by done. destruct (conns s !! h) as [cn|] eqn:Hh; [|done].
      eapply page_mono; [| | |exact Hpage]; [lia|by left|]. intros sp Hsp.
      by rewrite (Hp cn) by done.
Qed.

Lemma tracked_run ls n pc s s' :
  sse_ok s → tracked n pc s → srun ls s = Some s' → ∃ pc', tracked (n + stores ls s) pc' s'.
Proof.
  revert n pc s. induction ls as [|l ls IH]; intros n pc s Hok Ht H; cbn in *.
  - injection H as <-. exists pc. by rewrite Nat.add_0_r.
  - apply bind_Some in H as (s1 & H1 & H). rewrite H1.
    destruct (tracked_step _ _ _ _ _ Hok Ht H1) as [pc1 Ht1].
    destruct (IH _ _ _ (sstep_ok _ _ _ Hok H1) Ht1 H) as [pc' Ht']. exists pc'.
    by rewrite (assoc_L Nat.add).
Qed.
End tracked.

Lemma init_ok : sse_ok NewSSEBroker.
Proof. split; cbn; try done. unfold taskDoneCacheSize; lia. Qed.

Lemma srun_ok ls s s' : sse_ok s → srun ls s = Some s' → sse_ok s'.
Proof.
  revert s. induction ls as [|l ls IH]; intros s Hok H; cbn in H; [by simplify_eq|].
  apply bind_Some in H as (s1 & H1 & H). by eapply IH, H; eapply sstep_ok.
Qed.

(** The page has read the stored results and is still connected. *)
Definition has_read (h : nat) s : bool :=
  match conns s !! h with
  | Some (mkConn (HReplay _ _) _) | Some (mkConn (HLoop _) _) => true
  | _ => false
  end.

(** C33: No result of a task is lost.  Take any moment before a result is
    stored and any later moment when its publisher has finished.  A page that
    is in its loop then has written the result or has it in its queue, if it
    was open at the first moment, or if it was opened later and at most fifty
    results were stored in between: whatever other publishers and pages did. *)
Theorem task_done_delivered ls0 ls s1 s2 p h e cn sp :
  srun ls0 NewSSEBroker = Some s1 →
  publishers s1 !! p = Some (mkPublisher e PStore) → Type_ e = "task-done"%string →
  is_Some (marshal (Data e)) →
  srun ls s1 = Some s2 → publishers s2 !! p = Some (mkPublisher e (PSend [])) →
  conns s2 !! h = Some cn → h_pc cn = HLoop sp →
  has_read h s1 = true ∨ (stores ls s1 ≤ taskDoneCacheSize)%nat →
  e ∈ h_out cn ∨ e ∈ prioOf s2 sp.
Proof.
  intros Hr Hp He Hm H2 Hp2 Hh Hpc Hlate.
  pose proof (srun_ok _ _ _ init_ok Hr) as Hok.
  assert (tracked e p h (has_read h s1 = false) 0 PStore s1) as Ht.
  { split; [done|by left|]. unfold has_read. destruct (conns s1 !! h) as [[[] out]|]; try done; by left. }
  destruct (tracked_run _ _ _ _ He Hm _ _ _ _ _ Hok Ht H2) as [pc [Hpub _ Hpage]].
  rewrite Hp2 in Hpub. injection Hpub as <-. rewrite Hh in Hpage. unfold page_ok, reaches in Hpage.
  rewrite Hpc in Hpage. cbn [pending] in Hpage.
  destruct Hpage as [[]%not_elem_of_nil|[[]%not_elem_of_nil|[?|[?|[Hf Hn]]]]]; [by left|by right|].
  destruct Hlate as [Ht'|Hle]; [by rewrite Ht' in Hf|cbn in Hn; lia].
Qed.

(** C40: Publishing blocks on full pages only, and an event stream uses bounded
    memory.  At every moment the queues and the stored results are within their
    bounds; a publisher can send to the next page, unless the event must not
    be lost and that page is subscribed with a full queue, and then it can as
    soon as the page leaves. *)
Theorem publish_blocks_only_on_full ls s p ev sp rest :
  srun ls NewSSEBroker = Some s →
  publishers s !! p = Some (mkPublisher ev (PSend (sp :: rest))) →
  (∀ x q, pairs s !! x = Some q →
     length (priority q) ≤ priorityChanSize ∧ length (normal q) ≤ normalChanSize)%nat ∧
  (length (recentTaskDone s) ≤ taskDoneCacheSize)%nat ∧
  (is_Some (pubStep p [] false s) ∨
   isPriorityEvent (Type_ ev) = true ∧ sp ∈ subscribers s ∧ length (prioOf s sp) = priorityChanSize ∧
   is_Some (pubStep p [] true (unsubscribe sp s)) ∨
   is_Some (pubStep p [] true s)).
Proof.
  intros Hr Hp. pose proof (srun_ok _ _ _ init_ok Hr) as Hok.
  split_and!; [apply (so_bound _ Hok)|apply (so_recent _ Hok)|].
  pose proof (so_pub _ Hok _ _ _ Hp) as [Hlt _]%Forall_cons.
  apply lookup_lt_is_Some_2 in Hlt as [q Hq]. pose proof (so_bound _ Hok _ _ Hq) as [Hb _].
  unfold pubStep, prioOf. rewrite Hp. cbn. rewrite Hq. cbn. unfold sendTo.
  destruct (isPriorityEvent (Type_ ev)) eqn:Epr; [|left; case_decide; by eexists].
  case_decide as Hlen; [left; by eexists|right].
  destruct (done q) eqn:Hd; [right; by eexists|left].
  pose proof (so_done _ Hok _ _ Hq Hd) as Hin. split_and!; [done|done|lia|].
  unfold unsubscribe. rewrite decide_True by done. cbn. rewrite Hp. cbn.
  rewrite list_lookup_alter_eq, Hq. cbn. rewrite Epr. by eexists.
Qed.
End sse.

(** ** A run: a page opens, a result is published, another page opens *)

Definition sample_event : sseEvent (D := string) := mkEvent "task-done" "{}".

Definition sample_before : list (SLabel (D := string)) :=
  [LConnect; LConn 0 (CGo true); LConn 0 (CGo true); LConn 0 (CGo true); LPublish sample_event].
Definition sample_after : list (SLabel (D := string)) :=
  [LPub 0 [] true; LPub 0 [0%nat] true; LConnect; LConn 1 (CGo true); LPub 0 [] false;
   LConn 1 (CGo true); LConn 1 (CGo true); LConn 1 (CGo true); LConn 0 (CPrio true)].

Definition sse_state (ls : list SLabel) (s : SSEBroker) : SSEBroker :=
  default s (srun (D := string) Some ls s).

Definition sample_s1 : SSEBroker := sse_state sample_before NewSSEBroker.
Definition sample_s2 : SSEBroker := sse_state sample_after sample_s1.

Lemma task_done_delivered_witness :
  sample_event ∈ [sample_event] ∨ sample_event ∈ prioOf sample_s2 1.
Proof.
  apply (task_done_delivered (D := string) Some sample_before sample_after sample_s1 sample_s2
    0 1 sample_event (mkConn (HLoop 1) [sample_event]) 1); try (vm_compute; reflexivity).
  - by eexists.
  - right. vm_compute. lia.
Defined.

Lemma publish_blocks_only_on_full_witness :
  let s := sse_state [LPub 0 [] true; LPub 0 [0%nat] true] sample_s1 in
  is_Some (pubStep 0 [] false s) ∨
   isPriorityEvent "task-done" = true ∧ (0 ∈ subscribers s)%nat ∧ length (prioOf s 0) = priorityChanSize ∧
   is_Some (pubStep 0 [] true (unsubscribe 0 s)) ∨
   is_Some (pubStep 0 [] true s).
Proof.
  apply (publish_blocks_only_on_full (D := string) Some
    (sample_before ++ [LPub 0 [] true; LPub 0 [0%nat] true]) _ 0 sample_event 0 []);
    vm_compute; reflexivity.
Defined.
