(* ===== verification/Web.v ===== *)
(** * Web: the tasks of the web interface

    Models [src/shardkv-demo/web]: the handlers of [kv_handler.go] and
    [startTask] of [handler.go].
    A handler checks the request, takes a number for its task and answers at
    once; the work runs in a goroutine whose result is published on the event
    stream ([Sse]).  Operations on keys go to the sharded store, which stands
    here as the versioned map of [KvSpec]; [ShardSystem] has the store itself. *)

From Stdlib Require Import Ascii.
From stdpp Require Import pretty.
From S2P Require Import Prelude RpcApi KvModel KvSpec ShardCfg RpcNet Persister TestGroup TestConfig Cluster.

(** ** Requests, answers and events *)

Record putRequest := mkPutRequest { pr_Key : string; pr_Value : string }.
Record casRaceRequest := mkCasRaceRequest { cr_Key : string; cr_NClient : Z }.
Record batchPutRequest := mkBatchPutRequest { bp_Count : Z; bp_Shard : option Z }.

Record TaskAccepted := mkAccepted {
  ta_TaskID : string; ta_Action : string; ta_Key : string; ta_GID : Z; ta_Count : Z; ta_NClient : Z }.

(** The payloads of an event; the elapsed time is left out. *)
Inductive Payload :=
| NoData
| PutResult (key value : string) (shard : Z) (reqVer : Z)
| GetResult (key value : string) (version : Z)
| BatchPutResult (success fail : nat)
| CasRaceResult (key : string) (version nClient : Z) (success versionErr : nat) (final : string).

Record TaskDoneEvent := mkTaskDone {
  td_TaskID : string; td_Success : bool; td_Action : string; td_GID : Z;
  td_Message : string; td_Error : string; td_Data : Payload }.

Definition task_ok (id action : string) (d : Payload) : TaskDoneEvent := mkTaskDone id true action 0 "" "" d.
Definition task_fail (id action err : string) : TaskDoneEvent := mkTaskDone id false action 0 "" err NoData.

(** What a handler answers: an error status, or a task that was started. *)
Inductive Response (Work : Type) :=
| BadRequest (msg : string)
| MethodNotAllowed
| Accepted (immediate : TaskAccepted) (work : Work).
Arguments BadRequest {Work} msg.
Arguments MethodNotAllowed {Work}.
Arguments Accepted {Work} immediate work.

(** [startTask]'s goroutine: the events it publishes.  A panic is recovered and
    published as an event without a task. *)
Definition runTask (work : outcome TaskDoneEvent) : list TaskDoneEvent :=
  match work with
  | Ret ev => [ev]
  | Panic _ => [mkTaskDone "" false "" 0 "" "internal error" NoData]
  end.

(** ** Task numbers *)

(** [h.taskSeq.Add(1)] *)
Definition nextTask (taskSeq : Z) : Z * Z := (i64 (taskSeq + 1), i64 (taskSeq + 1)).

Inductive TaskKind := KPut (key : string) | KGet (key : string) | KBatch | KCas | KJoin (gid : Z) | KLeave (gid : Z).

(** The formats of the [fmt.Sprintf] calls. *)
Definition taskPrefix (k : TaskKind) : string :=
  match k with
  | KPut key => "put-" +:+ key
  | KGet key => "get-" +:+ key
  | KBatch => "batch"
  | KCas => "cas"
  | KJoin gid => "join-" +:+ pretty gid
  | KLeave gid => "leave-" +:+ pretty gid
  end.

Definition taskID (k : TaskKind) (n : Z) : string := taskPrefix k +:+ "-" +:+ pretty n.

(** The handlers take their numbers one after another. *)
Fixpoint issueIds (ks : list TaskKind) (taskSeq : Z) : list string :=
  match ks with
  | [] => []
  | k :: ks => let '(n, taskSeq) := nextTask taskSeq in taskID k n :: issueIds ks taskSeq
  end.

(** ** Put and Get *)

(** The work of a put: [getR] is the answer of [h.cm.Get], [put] what [h.cm.Put]
    answers for a version. *)
Definition putWork (id : string) (req : putRequest) (getR : GetReply) (put : Tversion → Err) : TaskDoneEvent :=
  let e := get_Err getR in
  if decide (e ≠ OK ∧ e ≠ ErrNoKey) then task_fail id "put" (err_string e)
  else
    let version := get_Version getR in
    let putErr := put version in
    if decide (putErr = OK) then
      task_ok id "put" (PutResult (pr_Key req) (pr_Value req) (Key2Shard (pr_Key req)) version)
    else task_fail id "put" (err_string putErr).

Definition handlePut (taskSeq : Z) (req : putRequest)
    : Z * Response (GetReply → (Tversion → Err) → TaskDoneEvent) :=
  if decide (pr_Key req = ""%string) then (taskSeq, BadRequest "key is required")
  else
    let '(n, taskSeq) := nextTask taskSeq in
    let id := taskID (KPut (pr_Key req)) n in
    (taskSeq, Accepted (mkAccepted id "put" (pr_Key req) 0 0 0) (putWork id req)).

Definition getWork (id key : string) (r : GetReply) : TaskDoneEvent :=
  if decide (get_Err r = OK) then task_ok id "get" (GetResult key (get_Value r) (get_Version r))
  else if decide (get_Err r = ErrNoKey) then task_fail id "get" "ErrNoKey"
  else task_fail id "get" (err_string (get_Err r)).

Definition handleGet (taskSeq : Z) (key : string) : Z * Response (GetReply → TaskDoneEvent) :=
  if decide (key = ""%string) then (taskSeq, BadRequest "key is required")
  else
    let '(n, taskSeq) := nextTask taskSeq in
    let id := taskID (KGet key) n in
    (taskSeq, Accepted (mkAccepted id "get" key 0 0 0) (getWork id key)).

(** ** Batches of random puts *)

(** The loop that makes the pairs: [rands] are the keys and values the random
    numbers give, [None] while the loop has not ended. *)
Fixpoint batchPairs (rands : list (string * string)) (shard : option Z) (count : nat)
    : option (list (string * string)) :=
  match count, rands with
  | O, _ => Some []
  | S _, [] => None
  | S count', (key, value) :: rands =>
      let skip := match shard with Some s => bool_decide (Key2Shard key ≠ s) | None => false end in
      if skip then batchPairs rands shard count
      else rest ← batchPairs rands shard count'; Some ((key, value) :: rest)
  end.

(** The goroutine of one pair. *)
Definition batchPut (getR : GetReply) (put : Tversion → Err) : Err :=
  if decide (get_Err getR ≠ OK ∧ get_Err getR ≠ ErrNoKey) then get_Err getR
  else put (get_Version getR).

(** The results counted as they arrive. *)
Definition countOK (res : list Err) : nat := length (filter (λ e, e = OK) res).
Definition countOther (res : list Err) : nat := length (filter (λ e, e ≠ OK) res).

Definition batchWork (id : string) (res : list Err) : TaskDoneEvent :=
  task_ok id "batch-put" (BatchPutResult (countOK res) (countOther res)).

Definition HandleBatchPut (post : bool) (taskSeq : Z) (req : batchPutRequest)
    : Z * Response (list (string * string) → option (list (string * string))) :=
  if post then
    if decide (bp_Count req ≤ 0 ∨ 10000 < bp_Count req) then (taskSeq, BadRequest "count must be 1~10000")
    else
      let '(n, taskSeq) := nextTask taskSeq in
      let id := taskID KBatch n in
      (taskSeq, Accepted (mkAccepted id "batch-put" "" 0 (bp_Count req) 0)
        (λ rands, batchPairs rands (bp_Shard req) (Z.to_nat (bp_Count req))))
  else (taskSeq, MethodNotAllowed).

(** ** The race of conditional puts *)

(** A racer: before [Borrow], before [ck.Put], before the deferred [Return]. *)
Inductive RacerPc := RBorrow | RPut (ck : nat) | RReturn (ck : nat) | RDone.

#[global] Instance RacerPc_eq_dec : EqDecision RacerPc.
Proof. solve_decision. Defined.

Record Race := mkRace {
  r_store : kvmap;             (* the store *)
  r_pool : ClerkPool;
  racers : list (string * RacerPc);   (* with the value each one puts *)
  resultCh : list Err }.

Inductive RaceLabel :=
| ABorrow (i : nat)
| APut (i : nat)
| AReturn (i : nat)
| AOther (key value : string) (ver : Tversion).  (* another client's put *)

Definition set_racer (i : nat) (v : string) (pc : RacerPc) (r : Race) : Race :=
  mkRace (r_store r) (r_pool r) (<[i := (v, pc)]> (racers r)) (resultCh r).

Definition raceStep (key : string) (curVer : Tversion) (l : RaceLabel) (r : Race) : option Race :=
  match l with
  | ABorrow i =>
      '(v, pc) ← racers r !! i;
      match pc with
      | RBorrow =>
          '(p, ck) ← Borrow (r_pool r);
          Some (set_racer i v (RPut ck) (mkRace (r_store r) p (racers r) (resultCh r)))
      | _ => None
      end
  | APut i =>
      '(v, pc) ← racers r !! i;
      match pc with
      | RPut ck =>
          let '(m, e) := kv_put (r_store r) key v curVer in
          Some (set_racer i v (RReturn ck) (mkRace m (r_pool r) (racers r) (resultCh r ++ [e])))
      | _ => None
      end
  | AReturn i =>
      '(v, pc) ← racers r !! i;
      match pc with
      | RReturn ck =>
          p ← Return ck (r_pool r);
          Some (set_racer i v RDone (mkRace (r_store r) p (racers r) (resultCh r)))
      | _ => None
      end
  | AOther k v ver => Some (mkRace (kv_put (r_store r) k v ver).1 (r_pool r) (racers r) (resultCh r))
  end.

Fixpoint raceRun key curVer (ls : list RaceLabel) (r : Race) : option Race :=
  match ls with
  | [] => Some r
  | l :: ls => r ← raceStep key curVer l r; raceRun key curVer ls r
  end.

Definition raceStart (m : kvmap) (p : ClerkPool) (values : list string) : Race :=
  mkRace m p ((λ v, (v, RBorrow)) <$> values) [].

(** The event after the first Get, given the results and the final Get. *)
Definition casWork (id : string) (req : casRaceRequest) (getR : GetReply) (res : list Err) (final : GetReply)
    : TaskDoneEvent :=
  let e := get_Err getR in
  if decide (e ≠ OK ∧ e ≠ ErrNoKey) then task_fail id "cas-race" (err_string e)
  else task_ok id "cas-race"
    (CasRaceResult (cr_Key req) (get_Version getR) (cr_NClient req) (countOK res) (countOther res) (get_Value final)).

Definition HandleCasRace (post : bool) (taskSeq : Z) (poolSize : Z) (req : casRaceRequest)
    : Z * Response (GetReply → list Err → GetReply → TaskDoneEvent) :=
  if post then
    if decide (cr_Key req = ""%string) then (taskSeq, BadRequest "key is required")
    else if decide (cr_NClient req < 1 ∨ poolSize < cr_NClient req) then
      (taskSeq, BadRequest ("nClient must be 1~" +:+ pretty poolSize))
    else
      let '(n, taskSeq) := nextTask taskSeq in
      let id := taskID KCas n in
      (taskSeq, Accepted (mkAccepted id "cas-race" (cr_Key req) 0 0 (cr_NClient req)) (casWork id req))
  else (taskSeq, MethodNotAllowed).

(** ** Task numbers: proofs *)

Lemma ascii_app s t :
  String.list_ascii_of_string (s +:+ t) = String.list_ascii_of_string s ++ String.list_ascii_of_string t.
Proof.
  induction s as [|c s IH]; [done|]. change (String c s +:+ t) with (String c (s +:+ t)). cbn. by rewrite IH.
Qed.

Lemma ascii_inj s t : String.list_ascii_of_string s = String.list_ascii_of_string t → s = t.
Proof.
  intros H. rewrite <-(String.string_of_list_ascii_of_string s), H. apply String.string_of_list_ascii_of_string.
Qed.

(** What follows the last occurrence of [c] is determined. *)
Lemma after_last {A} (c : A) l1 l2 d1 d2 :
  c ∉ d1 → c ∉ d2 → l1 ++ c :: d1 = l2 ++ c :: d2 → d1 = d2.
Proof.
  revert l2. induction l1 as [|x l1 IH]; intros [|y l2] H1 H2 E; cbn in E; simplify_eq; try done.
  - set_solver.
  - set_solver.
  - by eapply IH.
Qed.

Lemma pretty_N_no_dash n : "-"%char ∉ String.list_ascii_of_string (pretty (n : N)).
Proof.
  cut (∀ s, "-"%char ∉ String.list_ascii_of_string s → "-"%char ∉ String.list_ascii_of_string (pretty_N_go n s)).
  { intros H. unfold pretty, pretty_N. case_decide; [cbn; set_solver|]. apply H. cbn. set_solver. }
  induction (N.lt_wf_0 n) as [n _ IH]; intros s Hs.
  destruct (decide (n = 0)%N) as [->|Hn]; [by rewrite pretty_N_go_0|].
  rewrite pretty_N_go_step by lia. apply IH; [apply N.div_lt; lia|]. cbn.
  apply not_elem_of_cons. split; [|done]. unfold pretty_N_char. by repeat case_match.
Qed.

Lemma pretty_no_dash n : 0 ≤ n → "-"%char ∉ String.list_ascii_of_string (pretty n).
Proof.
  intros Hn. destruct n as [|x|x]; [cbn; set_solver|apply (pretty_N_no_dash (N.pos x))|lia].
Qed.

Lemma taskID_inj k1 k2 n1 n2 : 0 ≤ n1 → 0 ≤ n2 → taskID k1 n1 = taskID k2 n2 → n1 = n2.
Proof.
  intros H1 H2 E. unfold taskID in E. apply (f_equal String.list_ascii_of_string) in E.
  rewrite !ascii_app in E. cbn in E.
  apply after_last, ascii_inj in E; [|by apply pretty_no_dash..]. by apply (inj pretty).
Qed.

Lemma issueIds_lookup ks seq i id :
  0 ≤ seq → seq + zlen ks < 2 ^ 63 → issueIds ks seq !! i = Some id →
  ∃ k, ks !! i = Some k ∧ id = taskID k (seq + 1 + Z.of_nat i).
Proof.
  revert seq i. induction ks as [|k ks IH]; intros seq i H0 Hb H; [done|].
  rewrite zlen_cons in Hb. pose proof (zlen_nonneg ks). cbn [issueIds nextTask] in H.
  unfold nextTask in H. rewrite i64_small in H by lia. destruct i as [|i]; cbn in H.
  - injection H as <-. exists k. split; [done|]. f_equal. lia.
  - destruct (IH (seq + 1) i) as (k' & Hk & ->); [lia..|done|]. exists k'. split; [done|]. f_equal. lia.
Qed.

Lemma issueIds_nonempty ks i id :
  zlen ks < 2 ^ 63 → issueIds ks 0 !! i = Some id → id ≠ ""%string.
Proof. intros Hb Hi. apply issueIds_lookup in Hi as (k & _ & ->); [|lia..]. by destruct k. Qed.

(** Task identifiers are unique.  Whatever handlers run and whatever keys
    and groups they are about, no two of the first 2^63 tasks get the same
    identifier, and none is empty: every event that carries an identifier
    belongs to one task. *)
Theorem task_ids_unique ks :
  zlen ks < 2 ^ 63 → NoDup (issueIds ks 0) ∧ Forall (λ id, id ≠ ""%string) (issueIds ks 0).
Proof.
  intros Hb. split.
  - apply NoDup_alt. intros i j id Hi Hj.
    apply issueIds_lookup in Hi as (k1 & _ & ->); [|lia..].
    apply issueIds_lookup in Hj as (k2 & _ & E); [|lia..]. apply taskID_inj in E; lia.
  - apply Forall_lookup. intros i id. by apply issueIds_nonempty.
Qed.

Lemma task_ids_unique_witness :
  let ids := issueIds [KPut "a-1"; KPut "a"; KCas; KBatch; KJoin (-1)] 0 in
  ids = ["put-a-1-1"; "put-a-2"; "cas-3"; "batch-4"; "join--1-5"]%string ∧ NoDup ids.
Proof. split; [done|]. apply (task_ids_unique [KPut "a-1"; KPut "a"; KCas; KBatch; KJoin (-1)]). done. Defined.

(** A task that panics cannot be recognised: the event that is published for it
    has no identifier, so no accepted task is ever answered by it. *)
Theorem panicked_task_unanswered f ks i id :
  zlen ks < 2 ^ 63 → issueIds ks 0 !! i = Some id →
  Forall (λ ev, td_TaskID ev ≠ id) (runTask (Panic f)).
Proof.
  intros Hb Hi%issueIds_nonempty; [|done]. by apply Forall_singleton.
Qed.

(** ** Batches: proofs *)

(** A batch for a shard that does not exist never ends.  The handler
    accepts every number as the shard; if it is not one of the shards, the loop
    that draws keys goes on whatever keys it draws. *)
Theorem batch_of_no_shard_diverges taskSeq count s rands :
  0 < count ≤ 10000 → ¬ 0 ≤ s < NShards →
  ∃ acc work, HandleBatchPut true taskSeq (mkBatchPutRequest count (Some s)) =
    (i64 (taskSeq + 1), Accepted acc work) ∧ work rands = None.
Proof.
  intros Hc Hs. unfold HandleBatchPut. cbn. rewrite decide_False by lia. do 2 eexists. split; [done|].
  destruct (Z.to_nat count) as [|n] eqn:En; [lia|]. clear -Hs.
  induction rands as [|[k v] rands IH]; cbn; [done|].
  rewrite bool_decide_eq_true_2; [done|]. pose proof (Key2Shard_range k). lia.
Qed.

Lemma batch_of_no_shard_diverges_witness :
  ∃ acc work, HandleBatchPut true 0 (mkBatchPutRequest 1 (Some 12)) = (1, Accepted acc work) ∧
    work [("a", "x"); ("b", "y")]%string = None.
Proof. apply (batch_of_no_shard_diverges 0 1 12); [lia|unfold NShards; lia]. Defined.

(** Otherwise it makes the requested number of pairs, all in the shard, as soon
    as enough of the drawn keys are. *)
Definition in_shard (shard : option Z) (kv : string * string) : Prop :=
  match shard with Some s => Key2Shard kv.1 = s | None => True end.

#[global] Instance in_shard_dec shard kv : Decision (in_shard shard kv).
Proof. unfold in_shard. destruct shard; apply _. Defined.

Theorem batchPairs_complete rands shard n :
  (n ≤ length (filter (in_shard shard) rands))%nat →
  batchPairs rands shard n = Some (take n (filter (in_shard shard) rands)).
Proof.
  revert n. induction rands as [|[k v] rands IH]; intros [|n] Hn; [done|cbn in Hn; lia|done|].
  cbn [batchPairs]. rewrite filter_cons in Hn |- *. destruct shard as [s|].
  - destruct (decide (in_shard (Some s) (k, v))) as [Hd|Hd]; cbn in Hd.
    + rewrite bool_decide_eq_false_2 by (by intros []). cbn in Hn. rewrite IH by lia. done.
    + rewrite bool_decide_eq_true_2 by done. by apply IH.
  - rewrite decide_True in Hn |- * by done. cbn in Hn. rewrite IH by lia. done.
Qed.

(** ** The race: proofs *)

Lemma kv_version_other m k v ver key :
  kv_version (kv_put m k v ver).1 key = kv_version m key ∨
  kv_version (kv_put m k v ver).1 key = u64_add (kv_version m key) 1.
Proof.
  destruct (decide (k = key)) as [->|Hne].
  - rewrite kv_put_version. case_decide; [by right|by left].
  - left. unfold kv_version. by rewrite kv_put_other.
Qed.

Lemma counts_add res : (countOK res + countOther res = length res)%nat.
Proof.
  unfold countOK, countOther. induction res as [|e res IH]; [done|]. rewrite !filter_cons.
  destruct (decide (e = OK)) as [->|H]; [rewrite decide_False by (by intros [])|
    rewrite (decide_True (P := e ≠ OK)) by done]; cbn; lia.
Qed.

Lemma countOK_snoc res e : countOK (res ++ [e]) = (countOK res + if decide (e = OK) then 1 else 0)%nat.
Proof.
  unfold countOK. rewrite filter_app, length_app, filter_cons, filter_nil. by case_decide.
Qed.

Definition holds (x : string * RacerPc) : option nat :=
  match x.2 with RPut ck | RReturn ck => Some ck | _ => None end.
Definition waiting (x : string * RacerPc) : Prop :=
  match x.2 with RBorrow | RPut _ => True | _ => False end.
#[global] Instance waiting_dec x : Decision (waiting x).
Proof. unfold waiting. destruct x.2; apply _. Defined.

Definition borrowed (rs : list (string * RacerPc)) : list nat := omap holds rs.

Lemma borrowed_insert rs i x y :
  rs !! i = Some x →
  option_list (holds y) ++ borrowed rs ≡ₚ option_list (holds x) ++ borrowed (<[i := y]> rs).
Proof.
  unfold borrowed. revert i. induction rs as [|z rs IH]; intros [|i] Hi; cbn in Hi; simplify_eq.
  - cbn. destruct (holds x), (holds y); cbn; [constructor|done..].
  - specialize (IH i Hi). cbn. destruct (holds z) as [ck|]; [|done].
    rewrite <-!Permutation_middle. by rewrite IH.
Qed.

Section race.
Context (key : string) (curVer : Tversion) (m0 : kvmap) (p0 : ClerkPool) (values : list string).
Hypothesis Hver : kv_version m0 key = curVer.
Hypothesis Hu : 0 ≤ curVer.

Record race_inv (k : nat) (r : Race) : Prop := {
  ri_version : curVer ≤ kv_version (r_store r) key ≤ curVer + Z.of_nat k;
  ri_one : (countOK (resultCh r) ≤ if decide (kv_version (r_store r) key = curVer) then 0 else 1)%nat;
  ri_count : (length (resultCh r) + length (filter waiting (racers r)) = length values)%nat;
  ri_len : length (racers r) = length values;
  ri_cap : cap (r_pool r) = cap p0;
  ri_pool : pool (r_pool r) ++ borrowed (racers r) ≡ₚ pool p0 }.

Lemma race_inv_start : race_inv 0 (raceStart m0 p0 values).
Proof.
  assert (filter waiting ((λ v, (v, RBorrow)) <$> values) = (λ v, (v, RBorrow)) <$> values) as Hw.
  { apply filter_keep. by intros x (v & -> & _)%list_elem_of_fmap. }
  assert (borrowed ((λ v, (v, RBorrow)) <$> values) = []) as Hb.
  { unfold borrowed. clear. by induction values. }
  split; unfold raceStart; cbn [r_store r_pool racers resultCh]; rewrite ?Hver; [lia|by rewrite decide_True|by rewrite Hw, length_fmap|
    by rewrite length_fmap|done|by rewrite Hb, app_nil_r].
Qed.

Lemma race_store_mono k m m' n :
  curVer ≤ kv_version m key ≤ curVer + Z.of_nat k → curVer + Z.of_nat (S k) < u64_mod →
  kv_version m' key = kv_version m key ∨ kv_version m' key = u64_add (kv_version m key) 1 →
  (n ≤ if decide (kv_version m key = curVer) then 0 else 1)%nat →
  curVer ≤ kv_version m' key ≤ curVer + Z.of_nat (S k) ∧
  (n ≤ if decide (kv_version m' key = curVer) then 0 else 1)%nat.
Proof.
  intros Hv Hb Hm Hn. rewrite u64_add_small in Hm by lia. split; [lia|].
  destruct (decide (kv_version m key = curVer)), (decide (kv_version m' key = curVer)); lia.
Qed.

Lemma racer_step k r i v pc pc' m p res :
  race_inv k r → racers r !! i = Some (v, pc) →
  curVer ≤ kv_version m key ≤ curVer + Z.of_nat (S k) →
  (countOK res ≤ if decide (kv_version m key = curVer) then 0 else 1)%nat →
  (length res + (if decide (waiting (v, pc')) then 1 else 0) =
   length (resultCh r) + if decide (waiting (v, pc)) then 1 else 0)%nat →
  cap p = cap (r_pool r) →
  pool p ++ option_list (holds (v, pc')) ≡ₚ pool (r_pool r) ++ option_list (holds (v, pc)) →
  race_inv (S k) (set_racer i v pc' (mkRace m p (racers r) res)).
Proof.
  intros [H1 H2 H3 H4 H5 H6] Hi Hm Hn Hc Hcap Hp. split; cbn; [done|done| |by rewrite length_insert|congruence|].
  - pose proof (filter_insert_length waiting _ _ _ (v, pc') Hi). lia.
  - pose proof (borrowed_insert _ _ _ (v, pc') Hi) as Hb.
    apply (Permutation_app_inv_l (option_list (holds (v, pc)))).
    rewrite <-H6. transitivity (pool p ++ (option_list (holds (v, pc')) ++ borrowed (racers r))).
    { rewrite Hb. rewrite !(assoc_L (++)). apply Permutation_app_tail, Permutation_app_comm. }
    rewrite (assoc_L (++)), Hp, <-(assoc_L (++)). apply Permutation_app_swap_app.
Qed.

Lemma race_inv_step k l r r' :
  race_inv k r → curVer + Z.of_nat (S k) < u64_mod →
  raceStep key curVer l r = Some r' → race_inv (S k) r'.
Proof.
  intros Hi Hb H. pose proof Hi as [H1 H2 H3 H4 H5 H6].
  destruct l as [i|i|i|k' v' ver]; cbn [raceStep] in H.
  - apply bind_Some in H as ([v pc] & Hr & H). destruct pc; try discriminate.
    apply bind_Some in H as ([p ck] & Hp & H). injection H as <-.
    unfold Borrow in Hp. destruct (pool (r_pool r)) as [|ck' rest] eqn:Ep; [done|]. simplify_eq.
    eapply racer_step; try done; [lia|]. cbn. rewrite Ep, app_nil_r. apply Permutation_app_comm.
  - apply bind_Some in H as ([v pc] & Hr & H). destruct pc as [|ck| |]; try discriminate.
    destruct (kv_put (r_store r) key v curVer) as [m e] eqn:Ek. injection H as <-.
    assert (kv_version m key = kv_version (r_store r) key ∨
            kv_version m key = u64_add (kv_version (r_store r) key) 1) as Hm.
    { pose proof (kv_version_other (r_store r) key v curVer key) as Hm. by rewrite Ek in Hm. }
    destruct (race_store_mono k _ m _ H1 Hb Hm H2) as [Hm1 Hm2].
    eapply racer_step; [done..| | | | |]; cbn; rewrite ?length_app; cbn; try done; try lia.
    rewrite countOK_snoc. destruct (decide (e = OK)) as [->|He]; [|by rewrite Nat.add_0_r].
    apply kv_put_OK in Ek as [-> Hv]. rewrite Hv in H2. rewrite decide_True in H2 by done.
    rewrite decide_False; [lia|]. unfold kv_version. rewrite lookup_insert_eq. cbn. rewrite u64_add_small; lia.
  - apply bind_Some in H as ([v pc] & Hr & H). destruct pc as [| |ck|]; try discriminate.
    apply bind_Some in H as (p & Hp & H). injection H as <-.
    unfold Return in Hp. destruct (decide (length (pool (r_pool r)) < cap (r_pool r))%nat); [|done].
    injection Hp as <-.
    eapply racer_step; try done; [lia|]. cbn. by rewrite app_nil_r.
  - injection H as <-.
    destruct (race_store_mono k _ _ _ H1 Hb (kv_version_other (r_store r) k' v' ver key) H2) as [? ?].
    by split.
Qed.

Lemma race_inv_run ls k r r' :
  race_inv k r → curVer + Z.of_nat (k + length ls) < u64_mod →
  raceRun key curVer ls r = Some r' → race_inv (k + length ls) r'.
Proof.
  revert k r. induction ls as [|l ls IH]; intros k r Hi Hb H; cbn in *.
  - injection H as <-. by rewrite Nat.add_0_r.
  - apply bind_Some in H as (r1 & H1 & H). rewrite <-Nat.add_succ_comm in *.
    eapply IH; [|done|done]. eapply race_inv_step; [done| |done]. lia.
Qed.

(** No other client writes the key. *)
Definition undisturbed (l : RaceLabel) : Prop :=
  match l with AOther k _ _ => k ≠ key | _ => True end.

Record race_clean (r : Race) : Prop := {
  rc_one : countOK (resultCh r) = if decide (kv_version (r_store r) key = curVer) then 0%nat else 1%nat;
  rc_open : kv_version (r_store r) key = curVer → resultCh r = [];
  rc_vals x : x ∈ racers r → x.1 ∈ values;
  rc_value : kv_version (r_store r) key ≠ curVer → kv_value (r_store r) key ∈ values }.

Lemma set_racer_vals r i v pc pc' m p res x :
  (∀ x, x ∈ racers r → x.1 ∈ values) → racers r !! i = Some (v, pc) →
  x ∈ racers (set_racer i v pc' (mkRace m p (racers r) res)) → x.1 ∈ values.
Proof.
  intros Hv Hi Hx. cbn in Hx. apply list_elem_of_lookup in Hx as (j & Hj).
  apply list_lookup_insert_Some in Hj as [(-> & <- & _)|[_ Hj]].
  - apply (Hv (v, pc)). by eapply list_elem_of_lookup_2.
  - apply Hv. by eapply list_elem_of_lookup_2.
Qed.

Lemma race_clean_step k l r r' :
  race_inv k r → curVer + Z.of_nat (S k) < u64_mod → race_clean r → undisturbed l →
  raceStep key curVer l r = Some r' → race_clean r'.
Proof.
  intros [Hv0 _ _ _ _ _] Hb [H1 H2 H3 H4] Hl H.
  destruct l as [i|i|i|k' v' ver]; cbn [raceStep] in H; cbn in Hl.
  - apply bind_Some in H as ([v pc] & Hr & H). destruct pc; try discriminate.
    apply bind_Some in H as ([p ck] & Hp & H). injection H as <-. split; try done.
    intros x. by eapply set_racer_vals.
  - apply bind_Some in H as ([v pc] & Hr & H). destruct pc as [|ck| |]; try discriminate.
    destruct (kv_put (r_store r) key v curVer) as [m e] eqn:Ek. injection H as <-.
    assert (∀ x, x ∈ racers (set_racer i v (RReturn ck) (mkRace m (r_pool r) (racers r) (resultCh r ++ [e])))
      → x.1 ∈ values) as Hvals by (intros x; by eapply set_racer_vals).
    destruct (kv_put_cases (r_store r) key v curVer) as [[E Hv]|[(E & Hv & _)|(E & Hn & Hc)]];
      rewrite Ek in E; injection E as -> ->.
    + rewrite H2 by done. assert (u64_add curVer 1 ≠ curVer) as Hne by (rewrite u64_add_small; lia).
      split; [| |exact Hvals|]; cbn [set_racer r_store resultCh]; unfold kv_version, kv_value;
        rewrite lookup_insert_eq; cbn [Version Value].
      * by rewrite decide_False by done.
      * done.
      * intros _. apply (H3 (v, RPut ck)). by eapply list_elem_of_lookup_2.
    + split; [| |exact Hvals|]; cbn [set_racer r_store resultCh]; [|done|done]. rewrite countOK_snoc, H1. cbn. by rewrite Nat.add_0_r.
    + unfold kv_version in Hv0. rewrite Hn in Hv0. lia.
  - apply bind_Some in H as ([v pc] & Hr & H). destruct pc as [| |ck|]; try discriminate.
    apply bind_Some in H as (p & Hp & H). injection H as <-. split; try done.
    intros x. by eapply set_racer_vals.
  - assert (∀ m, m !! key = r_store r !! key →
      race_clean (mkRace m (r_pool r) (racers r) (resultCh r))) as Hsame.
    { intros m E. split; cbn; unfold kv_version, kv_value in *; by rewrite ?E. }
    injection H as <-. apply Hsame. by apply (kv_put_other (r_store r) k' v' ver).
Qed.

Lemma race_clean_run ls k r r' :
  race_inv k r → curVer + Z.of_nat (k + length ls) < u64_mod → race_clean r → Forall undisturbed ls →
  raceRun key curVer ls r = Some r' → race_clean r'.
Proof.
  revert k r. induction ls as [|l ls IH]; intros k r Hi Hb Hc Hl H; cbn in *.
  - by injection H as <-.
  - apply bind_Some in H as (r1 & H1 & H). apply Forall_cons in Hl as [Hl1 Hl].
    rewrite <-Nat.add_succ_comm in *.
    eapply (IH (S k)); [|done| |done|done].
    + eapply race_inv_step; [done| |done]. lia.
    + eapply race_clean_step; [done| |done..]. lia.
Qed.

Lemma race_clean_start : race_clean (raceStart m0 p0 values).
Proof.
  split; cbn; [by rewrite decide_True|done| |done].
  by intros x (v & -> & ?)%list_elem_of_fmap.
Qed.
End race.

Definition all_done (r : Race) : Prop := Forall (λ x, x.2 = RDone) (racers r).

Definition can_move key curVer (i : nat) (r : Race) : Prop :=
  is_Some (raceStep key curVer (ABorrow i) r) ∨ is_Some (raceStep key curVer (APut i) r) ∨
  is_Some (raceStep key curVer (AReturn i) r).

Lemma all_done_waiting r : all_done r → filter waiting (racers r) = [] ∧ borrowed (racers r) = [].
Proof.
  unfold all_done, borrowed. intros Hd. split.
  - apply filter_drop. intros [v pc] Hx. rewrite Forall_forall in Hd. specialize (Hd _ Hx). cbn in Hd. subst pc. by intros [].
  - induction Hd as [|[v pc] l Hx _ IH]; [done|]. cbn in Hx. by subst pc.
Qed.

(** The clerks that are out are held by racers, which can go on. *)
Lemma race_progress key curVer size values k r :
  (0 < size)%nat → race_inv key curVer (NewClerkPool size) values k r → ¬ all_done r →
  ∃ i, can_move key curVer i r.
Proof.
  intros Hs [_ _ _ _ Hcap Hpool] Hnd. unfold all_done in Hnd.
  apply Permutation_length in Hpool as Hlen. rewrite length_app in Hlen. cbn in Hlen.
  rewrite length_seq in Hlen. cbn in Hcap.
  assert (∀ i v pc, racers r !! i = Some (v, pc) → is_Some (holds (v, pc)) → can_move key curVer i r) as Hmove.
  { intros i v pc Hi [ck Hck]. assert (0 < length (borrowed (racers r)))%nat as Hb.
    { destruct (borrowed (racers r)) eqn:E; [|cbn; lia]. exfalso.
      assert (ck ∈ borrowed (racers r)) as Hin.
      { apply list_elem_of_omap. exists (v, pc). split; [by eapply list_elem_of_lookup_2|done]. }
      rewrite E in Hin. by apply not_elem_of_nil in Hin. }
    unfold can_move, raceStep. rewrite Hi. cbn. destruct pc; cbn in Hck; try discriminate.
    - right; left. by eexists.
    - right; right. unfold Return. rewrite decide_True by lia. by eexists. }
  apply not_Forall_Exists, Exists_exists in Hnd as ([v pc] & (i & Hi)%list_elem_of_lookup & Hpc); [|apply _].
  destruct (decide (is_Some (holds (v, pc)))) as [Hh|Hh]; [exists i; by eapply Hmove|].
  destruct pc as [|ck|ck|]; [|by destruct Hh; eexists..|by destruct Hpc].
  destruct (pool (r_pool r)) as [|ck rest] eqn:Ep.
  - destruct (borrowed (racers r)) as [|ck ?] eqn:Eb; [cbn in Hlen; lia|].
    assert (ck ∈ borrowed (racers r)) as Hin by (rewrite Eb; by left).
    apply list_elem_of_omap in Hin as ([v' pc'] & (j & Hj)%list_elem_of_lookup & Hck).
    exists j. eapply Hmove; [exact Hj|by eexists].
  - exists i. left. unfold raceStep. rewrite Hi. cbn. unfold Borrow. rewrite Ep. by eexists.
Qed.

(** The racers of a race, when the store performs every put once and answers it
    with its own result.  However the racers and other clients' puts interleave:
    at most one racer is told that its put succeeded; some racer can always go
    on until all are done; then every racer is counted once, all clerks are back
    in the pool, and if nobody else wrote the key exactly one racer won and the
    key has the value of a racer.  (Versions are assumed not to wrap around.)
    [ShardSystem.race_one_winner] has the race on the sharded service itself. *)
Theorem cas_race_counts m size values key ls r :
  let ver := get_Version (kv_get m key) in
  0 ≤ ver → ver + zlen ls < u64_mod → (0 < size)%nat →
  raceRun key ver ls (raceStart m (NewClerkPool size) values) = Some r →
  (countOK (resultCh r) ≤ 1)%nat ∧
  (¬ all_done r → ∃ i, can_move key ver i r) ∧
  (all_done r →
     (countOK (resultCh r) + countOther (resultCh r) = length values)%nat ∧
     pool (r_pool r) ≡ₚ seq 0 size ∧
     (values ≠ [] → Forall (undisturbed key) ls →
        countOK (resultCh r) = 1%nat ∧ kv_value (r_store r) key ∈ values)).
Proof.
  intros ver H0 Hb Hs Hrun.
  assert (kv_version m key = ver) as Hv by (unfold ver, kv_get, kv_version; by destruct (m !! key)).
  pose proof (race_inv_start key ver m (NewClerkPool size) values Hv) as Hst.
  pose proof (race_inv_run _ _ _ _ H0 ls 0 _ _ Hst Hb Hrun) as Hinv. pose proof Hinv as [_ H1 Hc _ _ Hp].
  split_and!.
  - destruct (decide (kv_version (r_store r) key = ver)); lia.
  - intros Hnd. by eapply race_progress.
  - intros Hd. destruct (all_done_waiting r Hd) as [Hw Hbr]. rewrite Hw in Hc. rewrite Hbr in Hp.
    rewrite counts_add. cbn in Hc. rewrite app_nil_r in Hp. split_and!; [lia|done|].
    intros Hne Hl.
    pose proof (race_clean_run key ver _ values H0 ls 0 _ _ Hst Hb
      (race_clean_start key ver m _ values Hv) Hl Hrun) as [C1 C2 C3 C4].
    destruct (decide (kv_version (r_store r) key = ver)) as [E|E].
    + rewrite C2 in Hc by done. destruct values; [done|cbn in Hc; lia].
    + split; [done|by apply C4].
Qed.

(** Two racers for an absent key; the second one's clerk is the first one's. *)
Definition sample_race : list RaceLabel :=
  [ABorrow 0; APut 0; AReturn 0; ABorrow 1; APut 1; AReturn 1].

Definition sample_race_end : Race :=
  default (raceStart ∅ (NewClerkPool 1) []) (raceRun "k" 0 sample_race (raceStart ∅ (NewClerkPool 1) ["x"; "y"]%string)).

Lemma cas_race_counts_witness :
  countOK (resultCh sample_race_end) = 1%nat ∧ kv_value (r_store sample_race_end) "k" ∈ ["x"; "y"]%string.
Proof.
  apply (cas_race_counts ∅ 1 ["x"; "y"]%string "k" sample_race sample_race_end);
    [vm_compute; discriminate|vm_compute; reflexivity|lia|vm_compute; reflexivity|..|discriminate|].
  - repeat constructor.
  - repeat constructor; discriminate.
Defined.

(** A put of the web interface overwrites only what it has read: if it reports
    success, the key was at the version of its Get when the put was executed,
    and it has the new value. *)
Theorem putWork_success id req m1 m2 ev :
  putWork id req (kv_get m1 (pr_Key req)) (λ ver, (kv_put m2 (pr_Key req) (pr_Value req) ver).2) = ev →
  td_Success ev = true →
  kv_version m2 (pr_Key req) = kv_version m1 (pr_Key req) ∧
  (kv_put m2 (pr_Key req) (pr_Value req) (kv_version m1 (pr_Key req))).1 !! pr_Key req =
    Some (mkVV (pr_Value req) (u64_add (kv_version m1 (pr_Key req)) 1)).
Proof.
  unfold putWork. assert (get_Version (kv_get m1 (pr_Key req)) = kv_version m1 (pr_Key req)) as ->
    by (unfold kv_get, kv_version; by destruct (m1 !! pr_Key req)).
  case_decide; [by intros <-|].
  destruct (kv_put_cases m2 (pr_Key req) (pr_Value req) (kv_version m1 (pr_Key req)))
    as [[-> Hv]|[[-> _]|[-> _]]]; cbn; intros <- Hs; try done.
  by rewrite lookup_insert_eq.
Qed.
