(* ===== verification/WebAdmin.v ===== *)
(** * WebAdmin: the handlers that operate the cluster

    Models the handlers of [src/shardkv-demo/web] that act on the manager:
    [node_handler.go], [group_handler.go], [network_handler.go],
    [chaos_handler.go] and [status_handler.go].  Every handler checks the
    method, decodes the body and calls the manager ([Cluster]); the answer is
    what it writes.  Error texts are reduced to whether there is an error.

    [admin_keeps_books]: no sequence of requests breaks the manager's invariant,
    and requests that are refused or only ask change nothing.
    [network_answers_true]: the answers of the network handlers are the
    parameters in force.  [status_tree_complete]: the status tree shows every
    shard with its group, and the numbers of shards it shows add up. *)

From S2P Require Import Prelude ShardCfg RpcNet RpcNetFacts Persister TestGroup TestConfig Cluster ClusterMembers ClusterSetup.

(** ** Requests *)

Inductive Method := GET | POST | OtherMethod.
#[global] Instance Method_eq_dec : EqDecision Method.
Proof. solve_decision. Defined.

Record nodeOpRequest := mkNodeOp { no_GID : Z; no_Srv : Z }.
Record groupOpRequest := mkGroupOp { go_GID : Z }.
Record reliableRequest := mkReliable { rq_Reliable : option bool }.
Record netParamsRequest := mkNetParams {
  np_DropRate : option Z; np_ShortDelayMs : option Z; np_LongDelayMs : option Z }.
Record longReorderingRequest := mkLongReordering { lr_On : option bool }.

(** ** Answers *)

Record GroupNode := mkGroupNode { gn_GID : Z; gn_Servers : list ServerState; gn_NShards : Z }.
Record ShardNode := mkShardNode { sn_Shard : nat; sn_GID : Z }.
Record StatusTree := mkTree {
  tr_ConfigNum : Z; tr_HasPending : bool; tr_PendingConfigNum : Z; tr_ConfigCached : bool;
  tr_PoolSize : Z; tr_Groups : list GroupNode; tr_Shards : list ShardNode }.

Inductive Answer :=
| NotAllowed                                   (* 405 *)
| InvalidJSON                                  (* 400 *)
| GroupActionResult (success : bool) (action : string) (gid : Z)
| NodeActionResult (success : bool) (action : string) (gid srv : Z)
| NodeKillResult (gid srv : Z) (alive total : nat)
| ChaosActionResult (success : bool) (action : string) (gid : Z)
| ChaosStatusResult (states : list ChaosState)
| NetworkStatus (reliable longReordering longDelays : bool)
| ReliableSetResult (reliable : bool)
| NetParams (dropRate shortDelayMs longDelayMs : Z)
| NetParamsSetResult (dropRate shortDelayMs longDelayMs : Z)
| LongReorderingResult (success : bool) (longReordering : bool)
| Tree (t : StatusTree).

Section admin.
Context (SN : Z → nat → string).
Implicit Types (cm : ClusterManager).

Notation Handled := (outcome (ClusterManager * Answer)).

(** The method check and [decodeJSON]; [body] is what the decoder gives. *)
Definition postOf {A} (m : Method) (body : option A) cm (k : A → Handled) : Handled :=
  if decide (m = POST) then
    match body with None => Ret (cm, InvalidJSON) | Some req => k req end
  else Ret (cm, NotAllowed).

(** ** Nodes *)

Definition HandleKillNode (p : nat → Persister) m (body : option nodeOpRequest) cm : Handled :=
  postOf m body cm (λ req,
    cm ← KillServer SN p (no_GID req) (no_Srv req) cm;
    let '(alive, total) := match Group (no_GID req) (infra cm) with
      | None => (0, 0)%nat
      | Some sg => (length (filter (λ c, c = true) (connected sg)), grpN sg)
      end in
    Ret (cm, NodeKillResult (no_GID req) (no_Srv req) alive total)).

Definition HandleStartNode (env : StartEnv) m (body : option nodeOpRequest) cm : Handled :=
  postOf m body cm (λ req,
    r ← cmStartServer SN env (no_GID req) (no_Srv req) cm;
    Ret (r.1, NodeActionResult r.2 "start" (no_GID req) (no_Srv req))).

Definition HandleIsolateNode m (body : option nodeOpRequest) cm : Handled :=
  postOf m body cm (λ req,
    cm ← IsolateNode (no_GID req) (no_Srv req) cm;
    Ret (cm, NodeActionResult true "isolate" (no_GID req) (no_Srv req))).

Definition HandleRecoverNode m (body : option nodeOpRequest) cm : Handled :=
  postOf m body cm (λ req,
    cm ← RecoverNode (no_GID req) (no_Srv req) cm;
    Ret (cm, NodeActionResult true "recover-node" (no_GID req) (no_Srv req))).

(** ** Groups *)

Definition HandleKillGroup (p : nat → Persister) m (body : option groupOpRequest) cm : Handled :=
  postOf m body cm (λ req,
    cm ← KillGroup SN p (go_GID req) cm;
    Ret (cm, GroupActionResult true "kill-group" (go_GID req))).

Definition HandleStartGroup (env : nat → StartEnv) m (body : option groupOpRequest) cm : Handled :=
  postOf m body cm (λ req,
    r ← StartGroup SN env (go_GID req) cm;
    Ret (r.1, GroupActionResult r.2 "start-group" (go_GID req))).

(** ** Network *)

Definition netOf cm : Network := cfg_net (infra cm).

Definition HandleReliable m (body : option reliableRequest) cm : Handled :=
  if decide (m = GET) then
    Ret (cm, NetworkStatus (IsReliable (netOf cm)) (IsLongReordering (netOf cm)) (IsLongDelays (netOf cm)))
  else postOf m body cm (λ req,
    let cm := match rq_Reliable req with Some yes => cmSetReliable yes cm | None => cm end in
    Ret (cm, ReliableSetResult (IsReliable (netOf cm)))).

Definition HandleNetParams m (body : option netParamsRequest) cm : Handled :=
  if decide (m = GET) then
    Ret (cm, NetParams (GetDropRate (netOf cm)) (GetShortDelayMs (netOf cm)) (GetLongDelayMs (netOf cm)))
  else postOf m body cm (λ req,
    let cm := match np_DropRate req with Some r => cmSetDropRate r cm | None => cm end in
    let cm := match np_ShortDelayMs req with Some ms => cmSetShortDelayMs ms cm | None => cm end in
    let cm := match np_LongDelayMs req with Some ms => cmSetLongDelayMs ms cm | None => cm end in
    Ret (cm, NetParamsSetResult (GetDropRate (netOf cm)) (GetShortDelayMs (netOf cm)) (GetLongDelayMs (netOf cm)))).

Definition HandleLongReordering m (body : option longReorderingRequest) cm : Handled :=
  if decide (m = GET) then Ret (cm, LongReorderingResult false (IsLongReordering (netOf cm)))
  else postOf m body cm (λ req,
    let cm := match lr_On req with Some yes => cmSetLongReordering yes cm | None => cm end in
    Ret (cm, LongReorderingResult true (IsLongReordering (netOf cm)))).

(** ** Chaos *)

Definition HandleChaosStart m (body : option groupOpRequest) cm : Handled :=
  postOf m body cm (λ req,
    let '(cm, ok) := StartChaos (go_GID req) cm in
    Ret (cm, if ok : bool then ChaosActionResult true "chaos-start" (go_GID req)
             else ChaosActionResult false "" 0)).

Definition HandleChaosStop m (body : option groupOpRequest) cm : Handled :=
  postOf m body cm (λ req,
    Ret (StopChaos (go_GID req) cm, ChaosActionResult true "chaos-stop" (go_GID req))).

Definition HandleChaosStatus (order : list Z) m cm : Handled :=
  if decide (m = GET) then Ret (cm, ChaosStatusResult (ChaosStatus order cm)) else Ret (cm, NotAllowed).

(** ** Status *)

(** [for i, gid := range state.Config.Shards] *)
Definition shardNodes (shards : list Z) : list ShardNode := imap mkShardNode shards.

Definition HandleStatusTree (now : Z) (order : list Z) m cm : Handled :=
  if decide (m = GET) then
    st ← Status now order cm;
    Ret (cm, Tree (mkTree (Num (st_Config st)) (HasPending st) (PendingConfigNum st) (ConfigCached st)
      (ClerkPoolSize (dcfg cm))
      ((λ gs, mkGroupNode (GID gs) (Servers gs) (gs_NShards gs)) <$> st_Groups st)
      (shardNodes (Shards (st_Config st)))))
  else Ret (cm, NotAllowed).

(** ** Any request *)

Inductive AdminReq :=
| QKillNode (p : nat → Persister) (m : Method) (b : option nodeOpRequest)
| QStartNode (env : StartEnv) (m : Method) (b : option nodeOpRequest)
| QIsolateNode (m : Method) (b : option nodeOpRequest)
| QRecoverNode (m : Method) (b : option nodeOpRequest)
| QKillGroup (p : nat → Persister) (m : Method) (b : option groupOpRequest)
| QStartGroup (env : nat → StartEnv) (m : Method) (b : option groupOpRequest)
| QReliable (m : Method) (b : option reliableRequest)
| QNetParams (m : Method) (b : option netParamsRequest)
| QLongReordering (m : Method) (b : option longReorderingRequest)
| QChaosStart (m : Method) (b : option groupOpRequest)
| QChaosStop (m : Method) (b : option groupOpRequest)
| QChaosStatus (order : list Z) (m : Method)
| QStatusTree (now : Z) (order : list Z) (m : Method).

Definition serve (q : AdminReq) : ClusterManager → Handled :=
  match q with
  | QKillNode p m b => HandleKillNode p m b
  | QStartNode env m b => HandleStartNode env m b
  | QIsolateNode m b => HandleIsolateNode m b
  | QRecoverNode m b => HandleRecoverNode m b
  | QKillGroup p m b => HandleKillGroup p m b
  | QStartGroup env m b => HandleStartGroup env m b
  | QReliable m b => HandleReliable m b
  | QNetParams m b => HandleNetParams m b
  | QLongReordering m b => HandleLongReordering m b
  | QChaosStart m b => HandleChaosStart m b
  | QChaosStop m b => HandleChaosStop m b
  | QChaosStatus order m => HandleChaosStatus order m
  | QStatusTree now order m => HandleStatusTree now order m
  end.

Definition methodOf (q : AdminReq) : Method :=
  match q with
  | QKillNode _ m _ | QStartNode _ m _ | QIsolateNode m _ | QRecoverNode m _ | QKillGroup _ m _
  | QStartGroup _ m _ | QReliable m _ | QNetParams m _ | QLongReordering m _ | QChaosStart m _
  | QChaosStop m _ | QChaosStatus _ m | QStatusTree _ _ m => m
  end.

(** Requests one after another. *)
Fixpoint serveAll (qs : list AdminReq) cm : outcome (ClusterManager * list Answer) :=
  match qs with
  | [] => Ret (cm, [])
  | q :: qs => r ← serve q cm; rs ← serveAll qs r.1; Ret (rs.1, r.2 :: rs.2)
  end.

(** ** The manager's books *)

Lemma postOf_inv {A} m (body : option A) cm k r :
  postOf m body cm k = Ret r →
  (m ≠ POST ∧ r = (cm, NotAllowed)) ∨ (m = POST ∧ body = None ∧ r = (cm, InvalidJSON)) ∨
  ∃ req, m = POST ∧ body = Some req ∧ k req = Ret r.
Proof.
  unfold postOf. case_decide; [|intros [= <-]; by left].
  destruct body as [req|]; [|intros [= <-]; right; by left]. right; right. by exists req.
Qed.

Lemma run_op d op cm cm' : cm_run SN d cm → cmOp SN op cm = Ret (Some cm') → cm_run SN d cm'.
Proof. apply cm_next. Qed.

(** A POST runs at most three operations of the manager. *)
Lemma serve_run d q cm r : cm_run SN d cm → serve q cm = Ret r → cm_run SN d r.1.
Proof.
  intros Hr H. destruct q; cbn [serve] in H; unfold HandleReliable, HandleNetParams, HandleLongReordering in H;
    try (destruct (decide (m = GET)) as [Hm|Hm]; [by injection H as <-|]);
    try (apply postOf_inv in H as [[_ ->]|[(_ & _ & ->)|(req & _ & _ & H)]]; [done|done|]).
  - apply bind_ret_inv in H as (cm1 & H1 & H).
    assert (cm_run SN d cm1) by (eapply (run_op d (OKill p (no_GID req) (no_Srv req))); [done|]; cbn; by rewrite H1).
    destruct (match Group _ _ with Some sg => _ | None => _ end). by injection H as <-.
  - apply bind_ret_inv in H as (r1 & H1 & [= <-]).
    eapply (run_op d (OStart env (no_GID req) (no_Srv req))); [done|]. cbn. by rewrite H1.
  - apply bind_ret_inv in H as (cm1 & H1 & [= <-]).
    eapply (run_op d (OIsolate (no_GID req) (no_Srv req))); [done|]. cbn. by rewrite H1.
  - apply bind_ret_inv in H as (cm1 & H1 & [= <-]).
    eapply (run_op d (ORecover (no_GID req) (no_Srv req))); [done|]. cbn. by rewrite H1.
  - apply bind_ret_inv in H as (cm1 & H1 & [= <-]).
    eapply (run_op d (OKillGroup p (go_GID req))); [done|]. cbn. by rewrite H1.
  - apply bind_ret_inv in H as (r1 & H1 & [= <-]).
    eapply (run_op d (OStartGroup env (go_GID req))); [done|]. cbn. by rewrite H1.
  - injection H as <-. destruct (rq_Reliable req) as [yes|]; [|done]. by apply (run_op d (OReliable yes) cm).
  - injection H as <-. cbn [fst].
    assert (cm_run SN d (match np_DropRate req with Some r => cmSetDropRate r cm | None => cm end)) as H1.
    { destruct (np_DropRate req) as [x|]; [|done]. by apply (run_op d (ODropRate x) cm). }
    revert H1. generalize (match np_DropRate req with Some r => cmSetDropRate r cm | None => cm end). intros cm1 H1.
    assert (cm_run SN d (match np_ShortDelayMs req with Some r => cmSetShortDelayMs r cm1 | None => cm1 end)) as H2.
    { destruct (np_ShortDelayMs req) as [x|]; [|done]. by apply (run_op d (OShortDelayMs x) cm1). }
    revert H2. generalize (match np_ShortDelayMs req with Some r => cmSetShortDelayMs r cm1 | None => cm1 end).
    intros cm2 H2. destruct (np_LongDelayMs req) as [x|]; [|done]. by apply (run_op d (OLongDelayMs x) cm2).
  - injection H as <-. destruct (lr_On req) as [yes|]; [|done]. by apply (run_op d (OLongReordering yes) cm).
  - destruct (StartChaos (go_GID req) cm) as [cm1 ok] eqn:E. injection H as <-.
    eapply (run_op d (OStartChaos (go_GID req))); [done|]. cbn. by rewrite E.
  - injection H as <-. by apply (run_op d (OStopChaos (go_GID req)) cm).
  - unfold HandleChaosStatus in H. case_decide; by injection H as <-.
  - unfold HandleStatusTree in H. case_decide; [|by injection H as <-].
    by apply bind_ret_inv in H as (st & _ & [= <-]).
Qed.

Definition refused (a : Answer) : Prop := a = NotAllowed ∨ a = InvalidJSON.

Lemma serve_unchanged q cm r :
  serve q cm = Ret r → methodOf q ≠ POST ∨ refused r.2 → r.1 = cm.
Proof.
  intros H Hq. unfold refused in Hq.
  destruct q; cbn [serve methodOf] in *; unfold HandleReliable, HandleNetParams, HandleLongReordering in H;
    try (destruct (decide (m = GET)) as [Hm|Hm]; [by injection H as <-|]);
    try (apply postOf_inv in H as [[_ ->]|[(_ & _ & ->)|(req & -> & _ & H)]]; [done|done|];
         destruct Hq as [[]|Hq]; [done|]; exfalso).
  - apply bind_ret_inv in H as (cm1 & _ & H).
    destruct (match Group _ _ with Some sg => _ | None => _ end). injection H as <-. by destruct Hq.
  - apply bind_ret_inv in H as (r1 & _ & [= <-]). by destruct Hq.
  - apply bind_ret_inv in H as (r1 & _ & [= <-]). by destruct Hq.
  - apply bind_ret_inv in H as (r1 & _ & [= <-]). by destruct Hq.
  - apply bind_ret_inv in H as (r1 & _ & [= <-]). by destruct Hq.
  - apply bind_ret_inv in H as (r1 & _ & [= <-]). by destruct Hq.
  - injection H as <-. by destruct Hq.
  - injection H as <-. by destruct Hq.
  - injection H as <-. by destruct Hq.
  - destruct (StartChaos (go_GID req) cm) as [cm1 ok]. injection H as <-. destruct ok; by destruct Hq.
  - injection H as <-. by destruct Hq.
  - unfold HandleChaosStatus in H. case_decide; by injection H as <-.
  - unfold HandleStatusTree in H. case_decide; [|by injection H as <-].
    by apply bind_ret_inv in H as (st & _ & [= <-]).
Qed.

Lemma serveAll_run d qs cm cm' ans :
  cm_run SN d cm → serveAll qs cm = Ret (cm', ans) → cm_run SN d cm' ∧ length ans = length qs.
Proof.
  revert cm ans. induction qs as [|q qs IH]; intros cm ans Hr H; cbn in H; [by injection H as <- <-|].
  apply bind_ret_inv in H as (r & Hq & H). apply bind_ret_inv in H as ([cm2 rs] & Hqs & [= <- <-]).
  destruct (IH r.1 rs) as [? Hl]; [by eapply serve_run|done|]. split; [done|]. cbn. by rewrite Hl.
Qed.

(** The web interface keeps the manager's books.  However requests to the
    handlers follow each other, after them every group the manager lists has its
    processes, no group has two chaos monkeys, replies are only reordered on an
    unreliable network, and every request was answered; a request with another
    method than POST, or one that was refused, changed nothing. *)
Theorem admin_keeps_books d qs cm cm' ans :
  cm_run SN d cm → serveAll qs cm = Ret (cm', ans) →
  (∀ g, g ∈ cgroups cm' → is_Some (Group g (infra cm'))) ∧
  NoDup (mk_gid <$> chaosMonkeys cm') ∧
  (IsLongReordering (netOf cm') = true → IsReliable (netOf cm') = false) ∧
  length ans = length qs ∧
  (∀ q cm r, serve q cm = Ret r → methodOf q ≠ POST ∨ refused r.2 → r.1 = cm).
Proof.
  intros Hr H. destruct (serveAll_run _ _ _ _ _ Hr H) as [Hr' Hl].
  destruct (cm_run_inv SN d cm' Hr') as [H1 H2 H3]. split_and!; try done. apply serve_unchanged.
Qed.

(** ** The network's parameters *)

(** What the network uses. *)
Definition in_force cm : Z * Z * Z :=
  (GetDropRate (netOf cm), GetShortDelayMs (netOf cm), GetLongDelayMs (netOf cm)).

Definition clampRate (r : Z) : Z := Z.max 0 (Z.min 1000 r).

(** The network handlers answer what is in force.  A POST to
    [/api/network/params] sets the parameters that were given, the drop rate
    clamped to 0..1000 and delays (below 2^31) to at least 0, leaves the others,
    and answers with the values now in force, which a GET then answers too. *)
Theorem network_answers_true req cm cm' a :
  (∀ ms, np_ShortDelayMs req = Some ms ∨ np_LongDelayMs req = Some ms → ms < 2 ^ 31) →
  HandleNetParams POST (Some req) cm = Ret (cm', a) →
  let '(d, s, l) := in_force cm' in
  a = NetParamsSetResult d s l ∧
  HandleNetParams GET None cm' = Ret (cm', NetParams d s l) ∧
  d = from_option clampRate (GetDropRate (netOf cm)) (np_DropRate req) ∧
  s = from_option (Z.max 0) (GetShortDelayMs (netOf cm)) (np_ShortDelayMs req) ∧
  l = from_option (Z.max 0) (GetLongDelayMs (netOf cm)) (np_LongDelayMs req).
Proof.
  intros Hms [= <- <-]. unfold in_force. split; [done|]. split; [done|].
  assert (∀ r, i32 (if decide (1000 < (if decide (r < 0) then 0 else r)) then 1000
    else if decide (r < 0) then 0 else r) = clampRate r) as Hrate.
  { intros r. unfold clampRate. rewrite i32_small; repeat case_decide; lia. }
  assert (∀ ms, ms < 2 ^ 31 → i32 (if decide (ms < 0) then 0 else ms) = Z.max 0 ms) as Hdelay.
  { intros ms Hlt. rewrite i32_small; case_decide; lia. }
  destruct req as [[r|] [sd|] [ld|]]; cbn in *; rewrite ?Hrate, ?Hdelay by eauto; done.
Qed.

(** ** The status tree *)

Lemma shardNodes_gids l : sn_GID <$> shardNodes l = l.
Proof.
  apply list_eq. intros i. unfold shardNodes. rewrite list_lookup_fmap, list_lookup_imap.
  by destruct (l !! i).
Qed.

Lemma shardNodes_ids l : sn_Shard <$> shardNodes l = seq 0 (length l).
Proof.
  apply list_eq. intros i. unfold shardNodes. rewrite list_lookup_fmap, list_lookup_imap.
  destruct (l !! i) as [x|] eqn:E; cbn.
  - symmetry. apply lookup_seq. split; [done|by eapply lookup_lt_Some].
  - symmetry. apply lookup_seq_ge. by apply lookup_ge_None_1.
Qed.

Lemma countShards_rows cfg g :
  countShards cfg g = zlen (filter (λ r, sn_GID r = g) (shardNodes (Shards cfg))).
Proof.
  assert (∀ rows, zlen (filter (λ r, sn_GID r = g) rows) =
    foldr (λ x n, if decide (x = g) then n + 1 else n) 0 (sn_GID <$> rows)) as Hrows.
  { induction rows as [|r rows IH]; [done|]. rewrite filter_cons. cbn.
    destruct (decide (sn_GID r = g)); [rewrite zlen_cons|]; lia. }
  by rewrite Hrows, shardNodes_gids.
Qed.

(** The status tree is complete.  It has one row per shard, in order, with
    the shard's group; the number of shards it shows for a group is the number of
    rows with that group, and together these are at most all rows. *)
Theorem status_tree_complete now order cm cm' t :
  NoDup order → HandleStatusTree now order GET cm = Ret (cm', Tree t) →
  let shards := Shards (default MakeShardConfig (cachedConfig cm)) in
  sn_GID <$> tr_Shards t = shards ∧ sn_Shard <$> tr_Shards t = seq 0 (length shards) ∧
  (∀ gn, gn ∈ tr_Groups t →
     gn_NShards gn = zlen (filter (λ r, sn_GID r = gn_GID gn) (tr_Shards t))) ∧
  foldr (λ gn n, gn_NShards gn + n) 0 (tr_Groups t) ≤ zlen (tr_Shards t).
Proof.
  intros Hnd H. unfold HandleStatusTree in H. rewrite decide_True in H by done.
  apply bind_ret_inv in H as (st & Hst & [= <- <-]).
  destruct (Status_faithful now order cm st Hnd Hst) as (Hgs & Hsum & _).
  assert (st_Config st = default MakeShardConfig (cachedConfig cm)) as Hcfg.
  { unfold Status in Hst. destruct (cachedNextConfig cm); [|done].
    by apply bind_ret_inv in Hst as (gs & _ & [= <-]). }
  rewrite <-Hcfg. cbn. split_and!.
  - apply shardNodes_gids.
  - apply shardNodes_ids.
  - intros gn (gs & -> & Hin)%list_elem_of_fmap. cbn. destruct (Hgs gs Hin) as (_ & _ & _ & ->).
    apply countShards_rows.
  - unfold zlen, shardNodes. rewrite length_imap. fold (zlen (Shards (st_Config st))).
    clear Hgs. revert Hsum. generalize (zlen (Shards (st_Config st))). intros z.
    by rewrite foldr_fmap.
Qed.
End admin.

(** ** The hypotheses hold *)

Definition sample_requests : list AdminReq :=
  [QNetParams POST (Some (mkNetParams (Some 5000) None (Some (-1)))); QIsolateNode POST None;
   QChaosStop POST (Some (mkGroupOp 2)); QKillGroup (λ _, MakePersister) OtherMethod None;
   QLongReordering POST (Some (mkLongReordering (Some true)))].

Definition sample_served : outcome (ClusterManager * list Answer) := serveAll SN0 sample_requests joined.

Lemma admin_keeps_books_witness :
  ∃ cm, sample_served = Ret (cm, [NetParamsSetResult 1000 (GetShortDelayMs (netOf joined)) 0; InvalidJSON;
      ChaosActionResult true "chaos-stop" 2; NotAllowed; LongReorderingResult true true]) ∧
    NoDup (mk_gid <$> chaosMonkeys cm) ∧ IsReliable (netOf cm) = false.
Proof.
  destruct sample_served as [[cm ans]|f] eqn:E; [|vm_compute in E; discriminate E].
  destruct (admin_keeps_books SN0 small sample_requests joined cm ans joined_run E) as (_ & Hm & Hf & _).
  assert (IsLongReordering (netOf cm) = true) as Hl by (vm_compute in E; injection E as <- _; reflexivity).
  exists cm. split; [|split; [exact Hm|exact (Hf Hl)]].
  f_equal. f_equal. vm_compute in E. injection E as _ <-. vm_compute. reflexivity.
Defined.

Lemma network_answers_true_witness :
  ∃ cm' a, HandleNetParams POST (Some (mkNetParams (Some 5000) (Some 7) None)) joined = Ret (cm', a) ∧
    GetDropRate (netOf cm') = 1000 ∧ GetShortDelayMs (netOf cm') = 7.
Proof.
  do 2 eexists. split; [reflexivity|].
  edestruct (network_answers_true (mkNetParams (Some 5000) (Some 7) None) joined) as (_ & _ & Hd & Hs & _);
    [|reflexivity|].
  - cbn. intros ms [[= <-]|[=]]. lia.
  - split; [exact Hd|exact Hs].
Defined.

Lemma status_tree_complete_witness :
  ∃ cm' t, HandleStatusTree 0 [1; 2] GET joined = Ret (cm', Tree t) ∧ sn_GID <$> tr_Shards t = replicate 12 1.
Proof.
  destruct (HandleStatusTree 0 [1; 2] GET joined) as [[cm' a]|] eqn:E; [|vm_compute in E; discriminate E].
  assert (∃ t, a = Tree t) as [t ->] by (vm_compute in E; injection E as _ <-; by eexists).
  exists cm', t. split; [done|].
  apply (status_tree_complete 0 [1; 2] joined cm' t); [|done].
  by apply (bool_decide_unpack _).
Defined.
