(* ===== verification/Daemon.v ===== *)
(** * Daemon: servers in processes of their own

    Models [src/src/tester/daemonclnt.go], [daemonsrv.go] and [testsrv.go]: the
    command line a daemon is started with, the hand-over of the persister when
    a server is stopped and started again, and the queues that carry changes of
    leader and observation lines to the main process.

    [command_line_round_trip]: a daemon reads from its command line what the
    tester put there.  [shutdown_keeps_promises]: stopping a server loses no
    state that a message delivered by the network depends on;
    [direct_reply_after_checkpoint]: replies to the tester's own calls are not
    covered.  [leader_events_kept]: changes
    of leader are never lost; [leader_events_reordered] shows that they can be
    swapped. *)

From Stdlib Require Import Ascii.
From stdpp Require Import pretty.
From S2P Require Import Prelude Persister RpcNet ShardCfg TestGroup TestConfig Cluster Observe.

(** ** The command line *)

(** [strconv.Atoi] on digits with an optional sign, within [int64]. *)
Fixpoint atoiDigits (acc : Z) (s : string) : option Z :=
  match s with
  | EmptyString => Some acc
  | String c s =>
      let d := Z.of_nat (nat_of_ascii c) - 48 in
      if decide (0 ≤ d ≤ 9) then atoiDigits (acc * 10 + d) s else None
  end.

Definition inInt (n : Z) : option Z := if decide (- 2 ^ 63 ≤ n < 2 ^ 63) then Some n else None.

Definition Atoi (s : string) : option Z :=
  match s with
  | EmptyString => None
  | String "-" EmptyString | String "+" EmptyString => None
  | String "-" s => n ← atoiDigits 0 s; inInt (- n)
  | String "+" s => n ← atoiDigits 0 s; inInt n
  | s => n ← atoiDigits 0 s; inInt n
  end%char.

Definition isOption (s : string) : bool :=
  match s with String "-"%char _ => true | _ => false end.

(** [options]; the flag says whether another Raft was chosen. *)
Definition options (useRaftStateMachine : bool) : list string :=
  if useRaftStateMachine then ["--raft-state-machine"%string] else [].

(** The arguments that [runDaemon] passes. *)
Definition daemonArgs (pargs : list string) (useRaftStateMachine : bool) (gid : Z) (srv : Z)
    (endName : string) (endNames : list string) : list string :=
  pargs ++ options useRaftStateMachine ++ [pretty gid; pretty srv; pretty (zlen endNames); endName] ++ endNames.

(** [serverArgs] of the manager. *)
Definition serverArgs (maxRaftState : Z) : list string :=
  if decide (0 < maxRaftState) then ["--max-raft-state=" +:+ pretty maxRaftState] else [].

(** The loop that skips the options; the empty string has no first character. *)
Fixpoint skipOptions (args : list string) (i s : Z) : outcome Z :=
  match args with
  | [] => Ret s
  | EmptyString :: _ => Panic IndexRange
  | a :: args => if isOption a then skipOptions args (i + 1) (i + 1) else Ret s
  end.

Record DaemonCfg := mkDaemonCfg {
  dg_gid : Z; dg_sid : Z; testerEndName : string; dg_endNames : list string; dg_endName : string }.

(** [InitDaemon] up to the making of the ends; [None] is an error of [Atoi]. *)
Definition parseArgs (args : list string) : outcome (option DaemonCfg) :=
  s ← skipOptions args 0 0;
  a ← index args s;
  match Atoi a with
  | None => Ret None
  | Some gid =>
      a ← index args (s + 1);
      match Atoi a with
      | None => Ret None
      | Some sid =>
          a ← index args (s + 2);
          match Atoi a with
          | None => Ret None
          | Some nsrv =>
              tester ← index args (s + 3);
              rest ← slice_to args (s + 4 + nsrv);
              ends ← slice_from rest (s + 4);
              name ← index ends sid;
              Ret (Some (mkDaemonCfg gid sid tester ends name))
          end
      end
  end.

(** ** Stopping and starting a server *)

(** What can be observed of a daemon: a value saved, a request sent to the
    tester, a reply sent (and whether the network still took replies of this
    server), a reply to a call that the tester makes itself, past the network
    ([DaemonClnt.Call], which the proxies of the Raft tests use), and the copy
    of the persister. *)
Inductive Act := ASave (p : Persister) | ARequest | AReply (taken : bool) | ADirect | ACopy (p : Persister).

(** The handler [CheckpointPersister]. *)
Inductive CkptPc := KIdle | KNoRequests | KNoListener | KCopied (p : Persister).

(** [ServerGrp.ShutdownServer], [DaemonClnt.checkpointPersister], [kill]. *)
Inductive TesterPc := TRunning | TDeleted | TAsked | TSaved (p : Persister) | TKilled (p : Persister).

Record Daemon := mkDaemon {
  persister : Persister;
  rpccOpen : bool;               (* the connection to the tester *)
  listening : bool;              (* the listener for new connections *)
  ckpt : CkptPc;
  tester : TesterPc;
  acts : list Act }.

(** [DaemonClnt.init] and the handler [Init]: the values are sent, and saved
    into a new persister. *)
Definition InitPersister (saved : Persister) : Persister :=
  Save (ReadRaftState saved) (ReadSnapshot saved) MakePersister.

Definition startDaemon (saved : Persister) : Daemon :=
  mkDaemon (InitPersister saved) true true KIdle TRunning [].

Definition log (a : Act) (d : Daemon) : Daemon :=
  mkDaemon (persister d) (rpccOpen d) (listening d) (ckpt d) (tester d) (acts d ++ [a]).
Definition set_ckpt k (d : Daemon) : Daemon :=
  mkDaemon (persister d) (rpccOpen d) (listening d) k (tester d) (acts d).
Definition set_tester t (d : Daemon) : Daemon :=
  mkDaemon (persister d) (rpccOpen d) (listening d) (ckpt d) t (acts d).

Inductive DLabel :=
| DSave (rs snap : bytes)     (* the server persists *)
| DRequest                    (* [DaemonSrv.forward] *)
| DReply                      (* a serving goroutine writes its reply to a request of the network *)
| DDirect                     (* or to a call of [DaemonClnt.Call] *)
| DCkpt                       (* the next line of [CheckpointPersister] *)
| DTester.                    (* the next line of the tester *)

(** [RPCSrv.Close] closes the listener only: connections that were accepted
    stay open, and replies are written to them.  The network drops the reply of
    a server that was deleted; the replies to direct calls do not pass it. *)
Definition runStep (l : DLabel) (d : Daemon) : option Daemon :=
  match l with
  | DSave rs snap =>
      let p := Save rs snap (persister d) in
      Some (log (ASave p) (mkDaemon p (rpccOpen d) (listening d) (ckpt d) (tester d) (acts d)))
  | DRequest => if rpccOpen d then Some (log ARequest d) else Some d
  | DReply => Some (log (AReply (match tester d with TRunning => true | _ => false end)) d)
  | DDirect => Some (log ADirect d)
  | DCkpt =>
      match ckpt d, tester d with
      | KIdle, TAsked => Some (mkDaemon (persister d) false (listening d) KNoRequests (tester d) (acts d))
      | KNoRequests, _ => Some (mkDaemon (persister d) (rpccOpen d) false KNoListener (tester d) (acts d))
      | KNoListener, _ =>
          let p := Checkpoint (persister d) in Some (log (ACopy p) (set_ckpt (KCopied p) d))
      | _, _ => None
      end
  | DTester =>
      match tester d, ckpt d with
      | TRunning, _ => Some (set_tester TDeleted d)
      | TDeleted, _ => Some (set_tester TAsked d)
      | TAsked, KCopied p =>
          Some (set_tester (TSaved (Save (ReadRaftState p) (ReadSnapshot p) MakePersister)) d)
      | TSaved p, _ => Some (set_tester (TKilled p) d)
      | _, _ => None
      end
  end.

(** A killed process does nothing. *)
Definition dstep (l : DLabel) (d : Daemon) : option Daemon :=
  match tester d with TKilled _ => None | _ => runStep l d end.

Fixpoint drun (ls : list DLabel) (d : Daemon) : option Daemon :=
  match ls with
  | [] => Some d
  | l :: ls => d ← dstep l d; drun ls d
  end.

(** The value saved last. *)
Definition lastSaved (p : Persister) (t : list Act) : Persister :=
  foldl (λ p a, match a with ASave p' => p' | _ => p end) p t.

(** A message to the rest of the system that the network delivers. *)
Definition delivered (a : Act) : Prop := match a with ARequest | AReply true => True | _ => False end.

(** ** Forwarding to the main process *)

Definition observeFwdChanSize : nat := 500.
Definition leaderFwdChanSize : nat := 50.

(** The two queues, the goroutines that wait for room in the first one, and
    what the forwarding goroutine has sent. *)
Record Forward := mkForward {
  leaderCh : list bool;
  blocked : list bool;
  fwdCh : list observeItem;
  sentLeader : list bool;
  sentLog : list observeItem }.

Definition newForward : Forward := mkForward [] [] [] [] [].

Inductive FLabel :=
| FLeader (isLeader : bool)   (* the callback of [ReportLeaderChange] *)
| FLog (it : observeItem)     (* the callback of the print functions *)
| FUnblock (g : nat)          (* a waiting goroutine finds room *)
| FTakeLeader | FTakeLog.     (* the forwarding goroutine *)

Definition fwdStep (l : FLabel) (f : Forward) : option Forward :=
  match l with
  | FLeader b =>
      Some (if decide (length (leaderCh f) < leaderFwdChanSize)%nat
            then mkForward (leaderCh f ++ [b]) (blocked f) (fwdCh f) (sentLeader f) (sentLog f)
            else mkForward (leaderCh f) (blocked f ++ [b]) (fwdCh f) (sentLeader f) (sentLog f))
  | FLog it =>
      Some (if decide (length (fwdCh f) < observeFwdChanSize)%nat
            then mkForward (leaderCh f) (blocked f) (fwdCh f ++ [it]) (sentLeader f) (sentLog f)
            else f)
  | FUnblock g =>
      b ← blocked f !! g;
      guard (length (leaderCh f) < leaderFwdChanSize)%nat;;
      Some (mkForward (leaderCh f ++ [b]) (delete g (blocked f)) (fwdCh f) (sentLeader f) (sentLog f))
  | FTakeLeader =>
      match leaderCh f with
      | [] => None
      | b :: q => Some (mkForward q (blocked f) (fwdCh f) (sentLeader f ++ [b]) (sentLog f))
      end
  | FTakeLog =>
      match fwdCh f with
      | [] => None
      | it :: q => Some (mkForward (leaderCh f) (blocked f) q (sentLeader f) (sentLog f ++ [it]))
      end
  end.

Fixpoint fwdRun (ls : list FLabel) (f : Forward) : option Forward :=
  match ls with
  | [] => Some f
  | l :: ls => f ← fwdStep l f; fwdRun ls f
  end.

Definition reported (ls : list FLabel) : list bool :=
  omap (λ l, match l with FLeader b => Some b | _ => None end) ls.
Definition printed (ls : list FLabel) : list observeItem :=
  omap (λ l, match l with FLog it => Some it | _ => None end) ls.

(** ** The command line: proofs *)

Lemma digit_char x : (x < 10)%N →
  Z.of_nat (nat_of_ascii (pretty_N_char x)) - 48 = Z.of_N x ∧ pretty_N_char x ≠ "-"%char ∧ pretty_N_char x ≠ "+"%char.
Proof.
  intros H. assert (x ∈ [0; 1; 2; 3; 4; 5; 6; 7; 8; 9]%N) as Hx by (rewrite !elem_of_cons; lia).
  repeat (apply elem_of_cons in Hx as [->|Hx]; [done|]). by apply not_elem_of_nil in Hx.
Qed.

Lemma atoiDigits_go n : ∃ k, ∀ acc s, atoiDigits acc (pretty_N_go n s) = atoiDigits (acc * 10 ^ Z.of_nat k + Z.of_N n) s.
Proof.
  induction (N.lt_wf_0 n) as [n _ IH]. destruct (decide (n = 0)%N) as [->|Hn].
  - exists 0%nat. intros acc s. rewrite pretty_N_go_0. f_equal. lia.
  - destruct (IH (n / 10)%N) as [k Hk]; [apply N.div_lt; lia|]. exists (S k). intros acc s.
    rewrite pretty_N_go_step, Hk by lia. cbn [atoiDigits].
    assert (n mod 10 < 10)%N as Hm by (by apply N.mod_lt).
    assert (n = 10 * (n / 10) + n mod 10)%N as Hdm by (by apply N.div_mod).
    destruct (digit_char (n mod 10)%N Hm) as (-> & _).
    generalize dependent (n mod 10)%N. intros d Hd Hdm. rewrite decide_True by lia. f_equal.
    rewrite Nat2Z.inj_succ, Z.pow_succ_r by lia.
    generalize dependent (n / 10)%N. intros q _ Hq. subst n. nia.
Qed.

(** A number starts with a digit. *)
Lemma pretty_N_go_head n s : (0 < n)%N → ∃ x t, (x < 10)%N ∧ pretty_N_go n s = String (pretty_N_char x) t.
Proof.
  revert s. induction (N.lt_wf_0 n) as [n _ IH]; intros s Hn. rewrite pretty_N_go_step by done.
  destruct (decide (n / 10 = 0)%N) as [E|E].
  - rewrite E, pretty_N_go_0. exists (n mod 10)%N, s. split; [by apply N.mod_lt|done].
  - apply IH; [apply N.div_lt; lia|]. by apply N.neq_0_lt_0.
Qed.

Lemma Atoi_digit x t :
  (x < 10)%N → let s := String (pretty_N_char x) t in Atoi s = (n ← atoiDigits 0 s; inInt n) ∧ isOption s = false.
Proof.
  intros H. assert (x ∈ [0; 1; 2; 3; 4; 5; 6; 7; 8; 9]%N) as Hx by (rewrite !elem_of_cons; lia).
  repeat (apply elem_of_cons in Hx as [->|Hx]; [done|]). by apply not_elem_of_nil in Hx.
Qed.

Lemma Atoi_pretty n :
  0 ≤ n < 2 ^ 63 → Atoi (pretty n) = Some n ∧ isOption (pretty n) = false ∧ pretty n ≠ ""%string.
Proof.
  intros Hn. destruct n as [|x|x]; [done| |lia].
  change (pretty (Z.pos x)) with (pretty_N_go (N.pos x) "").
  destruct (pretty_N_go_head (N.pos x) "") as (d & t & Hd & E); [lia|].
  destruct (Atoi_digit d t Hd) as [HA HO]. rewrite <-E in HA, HO. split_and!; [|done|by rewrite E].
  rewrite HA. destruct (atoiDigits_go (N.pos x)) as [k ->]. cbn. unfold inInt.
  by rewrite decide_True by lia.
Qed.

Lemma skipOptions_app opts a rest i :
  Forall (λ o, isOption o = true) opts → isOption a = false → a ≠ ""%string →
  skipOptions (opts ++ a :: rest) i i = Ret (i + zlen opts).
Proof.
  intros Ho Ha Hne. revert i. induction Ho as [|o opts Hoo _ IH]; intros i; cbn [app skipOptions].
  - rewrite Z.add_0_r. destruct a; [done|]. by rewrite Ha.
  - rewrite zlen_cons. destruct o as [|c o]; [done|]. rewrite Hoo, IH. f_equal. lia.
Qed.

Lemma index_app_r {A} (l1 l2 : list A) i x : index l2 i = Ret x → index (l1 ++ l2) (zlen l1 + i) = Ret x.
Proof.
  intros [H0 H]%index_Ret. apply index_Ret. unfold zlen. split; [lia|].
  rewrite lookup_app_r by lia. by replace (_ - _)%nat with (Z.to_nat i) by lia.
Qed.

(** A daemon reads what the tester wrote.  Given options that start with a
    dash, group and server numbers that are not negative and a server number
    within the group, [InitDaemon] recovers from the arguments of [runDaemon] the
    group, the server, the tester's end, the ends of the group and its own. *)
Theorem command_line_round_trip pargs raft gid srv endName endNames name :
  Forall (λ o, isOption o = true) pargs →
  0 ≤ gid < 2 ^ 63 → 0 ≤ srv < 2 ^ 63 → zlen endNames < 2 ^ 63 → index endNames srv = Ret name →
  parseArgs (daemonArgs pargs raft gid srv endName endNames) =
    Ret (Some (mkDaemonCfg gid srv endName endNames name)).
Proof.
  intros Hp Hg Hs Hn Hname. unfold daemonArgs, parseArgs. rewrite (assoc_L (++) pargs).
  set (opts := pargs ++ options raft).
  assert (Forall (λ o, isOption o = true) opts) as Ho.
  { apply Forall_app. split; [done|]. destruct raft; repeat constructor. }
  destruct (Atoi_pretty gid Hg) as (Ag & Og & Ng), (Atoi_pretty srv Hs) as (As & _).
  destruct (Atoi_pretty (zlen endNames)) as (An & _); [by split; [apply zlen_nonneg|]|].
  cbn [app]. rewrite (skipOptions_app opts) by done. rewrite Z.add_0_l. cbn [mbind outcome_bind].
  set (tl := pretty gid :: pretty srv :: pretty (zlen endNames) :: endName :: endNames).
  rewrite <-(Z.add_0_r (zlen opts)) at 1.
  rewrite (index_app_r opts tl 0 (pretty gid)) by done. cbn [mbind outcome_bind]. rewrite Ag.
  rewrite (index_app_r opts tl 1 (pretty srv)) by done. cbn [mbind outcome_bind]. rewrite As.
  rewrite (index_app_r opts tl 2 (pretty (zlen endNames))) by done. cbn [mbind outcome_bind]. rewrite An.
  rewrite (index_app_r opts tl 3 endName) by done. cbn [mbind outcome_bind].
  assert (zlen (opts ++ tl) = zlen opts + 4 + zlen endNames) as Hlen.
  { rewrite zlen_app. unfold tl. rewrite !zlen_cons. lia. }
  unfold slice_to. rewrite decide_True by (pose proof (zlen_nonneg opts); pose proof (zlen_nonneg endNames); lia).
  cbn [mbind outcome_bind]. rewrite take_ge by (unfold zlen in *; lia).
  unfold slice_from. rewrite decide_True by (pose proof (zlen_nonneg opts); pose proof (zlen_nonneg endNames); lia).
  cbn [mbind outcome_bind].
  replace (drop (Z.to_nat (zlen opts + 4)) (opts ++ tl)) with endNames; [by rewrite Hname|].
  replace (Z.to_nat (zlen opts + 4)) with (length opts + 4)%nat by (unfold zlen; lia).
  by rewrite <-drop_drop, drop_app_length.
Qed.

Lemma command_line_round_trip_witness :
  parseArgs (daemonArgs (serverArgs 1000) true 101 1 "t" ["x"; "y"]%string) =
    Ret (Some (mkDaemonCfg 101 1 "t" ["x"; "y"]%string "y")).
Proof.
  apply (command_line_round_trip (serverArgs 1000) true 101 1 "t" ["x"; "y"]%string "y");
    [repeat constructor|lia|lia|done|done].
Defined.

(** ** Stopping a server: proofs *)

Lemma Init_id saved : InitPersister saved = saved.
Proof. unfold InitPersister, Save, ReadRaftState, ReadSnapshot. rewrite !clone_id. by destruct saved. Qed.

Lemma lastSaved_snoc p t a :
  lastSaved p (t ++ [a]) = match a with ASave p' => p' | _ => lastSaved p t end.
Proof. unfold lastSaved. by rewrite foldl_app. Qed.

Section shutdown.
Context (saved : Persister).

(** The copy was made once, of the value saved last, and nothing that was sent
    after it is delivered. *)
Definition copied (p : Persister) (t : list Act) : Prop :=
  ∃ t1 t2, t = t1 ++ ACopy p :: t2 ∧ p = lastSaved saved t1 ∧
    Forall (λ a, ¬ delivered a) t2 ∧ (∀ q, ACopy q ∉ t1) ∧ (∀ q, ACopy q ∉ t2).

Record daemon_inv (d : Daemon) : Prop := {
  di_last : persister d = lastSaved saved (acts d);
  di_copy : match ckpt d with KCopied p => copied p (acts d) | _ => ∀ q, ACopy q ∉ acts d end;
  di_closed : ckpt d ≠ KIdle → rpccOpen d = false ∧ tester d ≠ TRunning ∧ tester d ≠ TDeleted;
  di_saved q : tester d = TSaved q ∨ tester d = TKilled q → ckpt d = KCopied q }.

Lemma not_elem_snoc q a (t : list Act) : ACopy q ∉ t → a ≠ ACopy q → ACopy q ∉ t ++ [a].
Proof. intros H1 H2. rewrite elem_of_app, list_elem_of_singleton. naive_solver. Qed.

Lemma copied_snoc p t a : copied p t → ¬ delivered a → (∀ q, a ≠ ACopy q) → copied p (t ++ [a]).
Proof.
  intros (t1 & t2 & -> & Hp & Hd & H1 & H2) Ha Hc. exists t1, (t2 ++ [a]). split_and!; [|done| |done|].
  - by rewrite <-(assoc_L (++)).
  - apply Forall_app. split; [done|]. by apply Forall_singleton.
  - intros q. by apply not_elem_snoc.
Qed.

(** Appending anything but a copy, and nothing that is delivered once the
    requests are closed. *)
Lemma inv_log d a p :
  daemon_inv d → (∀ q, a ≠ ACopy q) → (ckpt d ≠ KIdle → ¬ delivered a) →
  p = lastSaved saved (acts d ++ [a]) →
  daemon_inv (mkDaemon p (rpccOpen d) (listening d) (ckpt d) (tester d) (acts d ++ [a])).
Proof.
  intros [H1 H2 H3 H4] Hc Hd Hp. split; cbn; [done| |done|done].
  destruct (ckpt d) eqn:E; try (intros q; apply not_elem_snoc; [apply H2|apply Hc]).
  apply copied_snoc; [done| |done]. by apply Hd.
Qed.

Lemma runStep_inv l d d' : daemon_inv d → runStep l d = Some d' → daemon_inv d'.
Proof.
  intros Hinv H. pose proof Hinv as [H1 H2 H3 H4]. destruct l as [rs snap| | | | |]; cbn [runStep] in H.
  - injection H as <-. apply (inv_log d); [done|done|by intros _ []|by rewrite lastSaved_snoc].
  - destruct (rpccOpen d) eqn:Er; injection H as <-; [|done].
    apply (inv_log d); [done|done| |by rewrite lastSaved_snoc]. intros [? _]%H3. congruence.
  - injection H as <-. apply (inv_log d); [done|done| |by rewrite lastSaved_snoc].
    intros (_ & Ht & _)%H3. destruct (tester d); [done|by intros []..].
  - injection H as <-. apply (inv_log d); [done|done|by intros _ []|by rewrite lastSaved_snoc].
  - destruct (ckpt d) as [| | |p] eqn:Ek; [|..|done].
    + destruct (tester d) eqn:Et; try discriminate. injection H as <-. split; cbn; naive_solver.
    + injection H as <-. destruct H3 as (? & ? & ?); [done|]. split; cbn; [done..|naive_solver|naive_solver].
    + injection H as <-. destruct H3 as (? & ? & ?); [done|]. rewrite Checkpoint_id.
      split; cbn; [by rewrite lastSaved_snoc| |done|naive_solver].
      exists (acts d), []. split_and!; [done|done|done|done|]. intros q. apply not_elem_of_nil.
  - destruct (tester d) as [| | |p|p] eqn:Et; [..|done].
    + injection H as <-. split; cbn; [done|done|naive_solver|naive_solver].
    + injection H as <-. split; cbn; [done|done|naive_solver|naive_solver].
    + destruct (ckpt d) as [| | |p] eqn:Ek; try discriminate. injection H as <-.
      assert (Save (ReadRaftState p) (ReadSnapshot p) MakePersister = p) as -> by apply Init_id.
      split; cbn; rewrite ?Ek; [done|done|naive_solver|naive_solver].
    + injection H as <-. split; cbn; [done|done|naive_solver|naive_solver].
Qed.

Lemma drun_inv ls d d' : daemon_inv d → drun ls d = Some d' → daemon_inv d'.
Proof.
  revert d. induction ls as [|l ls IH]; intros d Hi H; cbn in H; [by injection H as <-|].
  apply bind_Some in H as (d1 & H1 & H). eapply IH; [|exact H]. eapply runStep_inv; [exact Hi|].
  unfold dstep in H1. by destruct (tester d).
Qed.

Lemma daemon_inv_start : daemon_inv (startDaemon saved).
Proof.
  split; cbn; [apply Init_id|intros q; apply not_elem_of_nil|done|naive_solver].
Qed.
End shutdown.

(** C32: Stopping a server keeps what it promised over the network.  Whatever a
    daemon does while it is being stopped: once the tester has its persister,
    this is the value saved last before the copy, every request of the daemon
    that left it and every reply to a request of the network that was passed on
    was sent before the copy, and a daemon started from it has that value.
    Replies to the calls that the tester makes directly
    ([direct_reply_after_checkpoint]) are not covered. *)
Theorem shutdown_keeps_promises saved ls d q :
  drun ls (startDaemon saved) = Some d → tester d = TSaved q ∨ tester d = TKilled q →
  persister (startDaemon q) = q ∧
  ∃ t1 t2, acts d = t1 ++ ACopy q :: t2 ∧ q = lastSaved saved t1 ∧ Forall (λ a, ¬ delivered a) t2.
Proof.
  intros Hr Hq. split; [apply Init_id|].
  pose proof (drun_inv saved _ _ _ (daemon_inv_start saved) Hr) as [_ Hc _ Hs].
  rewrite (Hs q Hq) in Hc. destruct Hc as (t1 & t2 & ? & ? & ? & _). by exists t1, t2.
Qed.

Definition sample_shutdown (extra : list DLabel) : list DLabel :=
  [DSave [] [Byte.x01]; DRequest; DReply; DTester; DTester; DCkpt; DCkpt; DCkpt] ++ extra ++ [DTester].

Definition daemon_end (ls : list DLabel) : Daemon :=
  default (startDaemon MakePersister) (drun ls (startDaemon MakePersister)).

Lemma shutdown_keeps_promises_witness :
  tester (daemon_end (sample_shutdown [])) = TSaved (mkPersister [] [Byte.x01]) ∧
  persister (startDaemon (mkPersister [] [Byte.x01])) = mkPersister [] [Byte.x01].
Proof.
  split; [vm_compute; reflexivity|].
  apply (shutdown_keeps_promises MakePersister (sample_shutdown []) (daemon_end (sample_shutdown [])));
    [vm_compute; reflexivity|left; vm_compute; reflexivity].
Defined.

(** Replies are sent after the copy.  [CheckpointPersister] closes the listener,
    but a goroutine that serves an accepted connection still saves a value and
    replies after the copy; only the deletion of the server from the network
    keeps the reply from being delivered. *)
Theorem reply_after_checkpoint :
  let d := daemon_end (sample_shutdown [DSave [] [Byte.x02]; DReply]) in
  let p := mkPersister [] [Byte.x01] in
  tester d = TSaved p ∧
  acts d = [ASave p; ARequest; AReply true; ACopy p; ASave (mkPersister [] [Byte.x02]); AReply false].
Proof. split; vm_compute; reflexivity. Qed.

(** Nothing keeps a reply to a direct call from the tester: a [Start] that the
    proxy of the Raft tests calls can be accepted, persisted and answered after
    the copy, and the restarted server does not know the command. *)
Theorem direct_reply_after_checkpoint :
  let d := daemon_end (sample_shutdown [DSave [] [Byte.x02]; DDirect]) in
  let p := mkPersister [] [Byte.x01] in
  tester d = TSaved p ∧ persister (startDaemon p) = p ∧
  acts d = [ASave p; ARequest; AReply true; ACopy p; ASave (mkPersister [] [Byte.x02]); ADirect].
Proof. split_and!; vm_compute; reflexivity. Qed.

(** ** Forwarding: proofs *)

Record fwd_inv (ls : list FLabel) (f : Forward) : Prop := {
  fi_leader : sentLeader f ++ leaderCh f ++ blocked f ≡ₚ reported ls;
  fi_order : blocked f = [] → Forall (λ l, ∀ g, l ≠ FUnblock g) ls → sentLeader f ++ leaderCh f = reported ls;
  fi_log : sentLog f ++ fwdCh f `sublist_of` printed ls;
  fi_bounds : (length (leaderCh f) ≤ leaderFwdChanSize ∧ length (fwdCh f) ≤ observeFwdChanSize)%nat }.

Lemma reported_snoc ls l : reported (ls ++ [l]) = reported ls ++ match l with FLeader b => [b] | _ => [] end.
Proof. unfold reported. rewrite omap_app. by destruct l. Qed.
Lemma printed_snoc ls l : printed (ls ++ [l]) = printed ls ++ match l with FLog it => [it] | _ => [] end.
Proof. unfold printed. rewrite omap_app. by destruct l. Qed.

Lemma fwdStep_inv ls l f f' : fwd_inv ls f → fwdStep l f = Some f' → fwd_inv (ls ++ [l]) f'.
Proof.
  intros [H1 H2 H3 [H4 H5]] H.
  destruct l as [b|it|g| |]; cbn in H.
  - injection H as <-. destruct (decide (length (leaderCh f) < leaderFwdChanSize)%nat) as [Hlt|Hge].
    + split; cbn [leaderCh blocked fwdCh sentLeader sentLog]; rewrite ?reported_snoc, ?printed_snoc, ?app_nil_r.
      * rewrite <-H1. rewrite !(assoc_L (++)). solve_Permutation.
      * intros Hb [Hu _]%Forall_app. by rewrite (assoc_L (++)), H2.
      * done.
      * rewrite length_app. cbn. lia.
    + split; cbn [leaderCh blocked fwdCh sentLeader sentLog]; rewrite ?reported_snoc, ?printed_snoc, ?app_nil_r.
      * rewrite <-H1. by rewrite !(assoc_L (++)).
      * intros Hb. by destruct (blocked f).
      * done.
      * done.
  - injection H as <-. destruct (decide (length (fwdCh f) < observeFwdChanSize)%nat) as [Hlt|Hge].
    + split; cbn [leaderCh blocked fwdCh sentLeader sentLog]; rewrite ?reported_snoc, ?printed_snoc, ?app_nil_r; [done| | |rewrite length_app; cbn; lia].
      * intros Hb [Hu _]%Forall_app. by apply H2.
      * rewrite (assoc_L (++)). by apply sublist_app.
    + split; cbn [leaderCh blocked fwdCh sentLeader sentLog]; rewrite ?reported_snoc, ?printed_snoc, ?app_nil_r; [done| | |done].
      * intros Hb [Hu _]%Forall_app. by apply H2.
      * by apply sublist_inserts_r.
  - apply bind_Some in H as (b & Hb & H). case_guard; [|done]. cbn in H. injection H as <-.
    split; cbn [leaderCh blocked fwdCh sentLeader sentLog]; rewrite ?reported_snoc, ?printed_snoc, ?app_nil_r; [|..|done|].
    + rewrite <-H1. rewrite (delete_Permutation _ _ _ Hb) at 2. rewrite !(assoc_L (++)). solve_Permutation.
    + intros _ [_ Hu]%Forall_app. inversion Hu as [|? ? Hg _]; subst. by destruct (Hg g).
    + rewrite length_app. cbn. lia.
  - destruct (leaderCh f) as [|b q] eqn:E; [done|]. injection H as <-.
    split; cbn [leaderCh blocked fwdCh sentLeader sentLog]; rewrite ?reported_snoc, ?printed_snoc, ?app_nil_r.
    + rewrite <-H1. by rewrite <-!(assoc_L (++)).
    + intros Hb [Hu _]%Forall_app. rewrite <-H2 by done. by rewrite <-(assoc_L (++)).
    + done.
    + cbn in H4. lia.
  - destruct (fwdCh f) as [|it q] eqn:E; [done|]. injection H as <-.
    split; cbn [leaderCh blocked fwdCh sentLeader sentLog]; rewrite ?reported_snoc, ?printed_snoc, ?app_nil_r; [done| | |cbn in H5; lia].
    + intros Hb [Hu _]%Forall_app. by apply H2.
    + by rewrite <-(assoc_L (++)).
Qed.

Lemma fwdRun_inv ls0 ls f f' : fwd_inv ls0 f → fwdRun ls f = Some f' → fwd_inv (ls0 ++ ls) f'.
Proof.
  revert ls0 f. induction ls as [|l ls IH]; intros ls0 f Hi H; cbn in H.
  - injection H as <-. by rewrite app_nil_r.
  - apply bind_Some in H as (f1 & H1 & H). rewrite cons_middle, (assoc_L (++)).
    eapply IH; [|exact H]. by eapply fwdStep_inv.
Qed.

(** Changes of leader are not lost.  At every moment each change that Raft
    reported has been sent or is queued, once; in the order reported as long as
    no goroutine had to wait for room.  Observation lines may be dropped, but
    those that are sent are sent in order and once; both queues are bounded. *)
Theorem leader_events_kept ls f :
  fwdRun ls newForward = Some f →
  sentLeader f ++ leaderCh f ++ blocked f ≡ₚ reported ls ∧
  (blocked f = [] → Forall (λ l, ∀ g, l ≠ FUnblock g) ls → sentLeader f ++ leaderCh f = reported ls) ∧
  sentLog f ++ fwdCh f `sublist_of` printed ls ∧
  (length (leaderCh f) ≤ leaderFwdChanSize ∧ length (fwdCh f) ≤ observeFwdChanSize)%nat.
Proof.
  intros H. assert (fwd_inv [] newForward) as H0 by (split; cbn; [done..|lia]).
  by destruct (fwdRun_inv [] ls _ _ H0 H).
Qed.

(** A queue full of changes; the server wins the leadership again, which is left
    to a goroutine, the queue gets room, and the server loses the leadership
    before the goroutine runs. *)
Definition full_queue : list FLabel := concat (replicate 25 [FLeader true; FLeader false]).
Definition overtaken : list FLabel :=
  full_queue ++ [FLeader true; FTakeLeader; FLeader false; FTakeLeader; FUnblock 0] ++ replicate 50 FTakeLeader.

Definition forward_end (ls : list FLabel) : Forward := default newForward (fwdRun ls newForward).

Lemma leader_events_kept_witness :
  sentLeader (forward_end overtaken) ++ leaderCh (forward_end overtaken) ++ blocked (forward_end overtaken)
    ≡ₚ reported overtaken.
Proof. apply (leader_events_kept overtaken). vm_compute. reflexivity. Defined.

(** The manager's view of one server after these notifications. *)
Definition viewOf (gid sid : Z) (bs : list bool) : gset Z :=
  default ∅ (leaders (foldl (λ cm b, leaderChange gid sid b cm) (NewClusterManager DefaultConfig) bs) !! gid).

(** Changes of leader can be swapped.  When the queue is full the change is
    left to a goroutine, and a later change can take the place that becomes
    free: the server reported last that it is not leader, everything was
    delivered, and the manager believes that it is. *)
Theorem leader_events_reordered :
  let f := forward_end overtaken in
  fwdRun overtaken newForward = Some f ∧ leaderCh f = [] ∧ blocked f = [] ∧
  last (reported overtaken) = Some false ∧
  viewOf 1 0 (reported overtaken) = ∅ ∧ viewOf 1 0 (sentLeader f) = {[0]}.
Proof. split_and!; vm_compute; reflexivity. Qed.
