(* ===== verification/KvTest.v ===== *)
(** * KvTest: the tests' clients and what their checks accept

    Models [src/src/kvtest/kvtest.go]: the clients that append to one key or put
    to it until they are told to stop, as threads on a key/value store, and the
    checks of what they leave behind.  A put is sent by the clerk of
    [src/src/kvsrv/client.go]: request or reply may be lost, the clerk sends
    again, and after a resend it answers ErrMaybe whatever the reply is.

    [CheckAppends_exact]: what the check of the appends accepts.
    [appends_pass], [puts_pass]: on a store that executes conditional puts, the
    checks never fail, whatever the network loses and however the clients
    interleave. *)

From stdpp Require Import pretty.
From S2P Require Import Prelude RpcApi KvModel KvSpec ShardCfg ShardCtrler.

(** [encoding/json] on the values of the tests. *)
Class Json (A : Type) := {
  Marshal : A → string;
  Unmarshal : string → option A;
  Unmarshal_Marshal a : Unmarshal (Marshal a) = Some a;
}.

Record ClntRes := mkRes { Nok : Z; Nmaybe : Z }.
Record EntryN := mkEntryN { Id : Z; N : Z }.
Record EntryV := mkEntryV { EId : Z; EV : Tversion }.

Section workload.
Context `{!Json (list EntryN), !Json EntryV}.
Implicit Types (m : kvmap) (es cur : list EntryN) (res : ClntRes).

(** [Test.GetJson]; [Fatalf] ends the test. *)
Definition GetJson `{!Json A} (key : string) m : outcome (A * Tversion) :=
  let r := kv_get m key in
  if decide (get_Err r = OK) then
    match Unmarshal (get_Value r) with
    | Some v => Ret (v, get_Version r)
    | None => Panic (Fatal "Unmarshal err")
    end
  else Panic (Fatal "Get err").

(** One RPC of a put: [executed] says whether the request arrived, [heard]
    whether the reply did; [None] when the clerk has to send again. *)
Definition sendPut (key v : string) (ver : Tversion) (resend executed heard : bool) m
    : kvmap * option Err :=
  if executed then
    let '(m', e) := kv_put m key v ver in
    (m', if heard then Some (if resend then ErrMaybe else e) else None)
  else (m, None).

(** ** Appends *)

Inductive APc :=
| ASelect                                                      (* the select on done *)
| AGet                                                         (* the top of the inner loop *)
| APut (ver : Tversion) (es : list EntryN) (resend : bool)     (* in PutJson *)
| AStopped | AFailed.

Record AClient := mkAClient { ac_i : Z; ac_res : ClntRes; ac_pc : APc }.

Inductive ALabel := ADone | ARun | ARead | ASend (executed heard : bool).

(** After [PutJson] returned [err]. *)
Definition afterAppend (err : Err) (c : AClient) : AClient :=
  let r := ac_res c in
  if decide (err = OK) then mkAClient (ac_i c + 1) (mkRes (Nok r + 1) (Nmaybe r)) ASelect
  else if decide (err = ErrMaybe) then mkAClient (ac_i c + 1) (mkRes (Nok r) (Nmaybe r + 1)) ASelect
  else mkAClient (ac_i c) r AGet.

(** [OneClientAppend] of client [me]. *)
Definition appendStep (me : Z) (l : ALabel) (c : AClient) m : option (AClient * kvmap) :=
  match ac_pc c, l with
  | ASelect, ADone => Some (mkAClient (ac_i c) (ac_res c) AStopped, m)
  | ASelect, ARun => Some (mkAClient (ac_i c) (ac_res c) AGet, m)
  | AGet, ARead =>
      match GetJson "k" m with
      | Ret (es, ver) =>
          Some (mkAClient (ac_i c) (ac_res c) (APut ver (es ++ [mkEntryN me (ac_i c)]) false), m)
      | Panic _ => Some (mkAClient (ac_i c) (ac_res c) AFailed, m)
      end
  | APut ver es resend, ASend executed heard =>
      let '(m, r) := sendPut "k" (Marshal es) ver resend executed heard m in
      match r with
      | Some err => Some (afterAppend err c, m)
      | None => Some (mkAClient (ac_i c) (ac_res c) (APut ver es true), m)
      end
  | _, _ => None
  end.

Record ATest := mkATest { at_map : kvmap; at_clients : list AClient }.

Definition atStep (i : nat) (l : ALabel) (t : ATest) : option ATest :=
  c ← at_clients t !! i;
  '(c, m) ← appendStep (Z.of_nat i) l c (at_map t);
  Some (mkATest m (<[i := c]> (at_clients t))).

Fixpoint atRun (ls : list (nat * ALabel)) (t : ATest) : option ATest :=
  match ls with
  | [] => Some t
  | (i, l) :: ls => t ← atStep i l t; atRun ls t
  end.

(** The clients of [SpawnClientsAndWait], after the key was made. *)
Definition atStart (nclnt : nat) : ATest :=
  mkATest {["k" := mkVV (Marshal ([] : list EntryN)) 1]} (replicate nclnt (mkAClient 0 (mkRes 0 0) ASelect)).

(** ** CheckAppends *)

Definition at_key (m : gmap Z Z) (c : Z) : Z := default 0 (m !! c).

Fixpoint scanAppends es (expect skipped : gmap Z Z) : outcome (gmap Z Z * gmap Z Z) :=
  match es with
  | [] => Ret (expect, skipped)
  | e :: es =>
      let x := at_key expect (Id e) in
      if decide (N e < x) then Panic (Fatal "wrong expecting")
      else if decide (x = N e) then scanAppends es (<[Id e := x + 1]> expect) skipped
      else scanAppends es (<[Id e := N e + 1]> expect)
             (<[Id e := at_key skipped (Id e) + (N e - x)]> skipped)
  end.

Fixpoint checkCounts (order : list (Z * Z)) (skipped : gmap Z Z) (rs : list ClntRes) : outcome unit :=
  match order with
  | [] => Ret tt
  | (c, n) :: order =>
      r ← index rs c;
      if decide (Nmaybe r < at_key skipped c) then Panic (Fatal "skipped puts on server > maybe")
      else if decide (Nok r + Nmaybe r < n) then Panic (Fatal "puts on server > ok+maybe")
      else checkCounts order skipped rs
  end.

Definition zeros (nclnt : nat) : gmap Z Z := list_to_map ((λ i, (Z.of_nat i, 0)) <$> seq 0 nclnt).

(** [order] is the order in which Go ranges over a map. *)
Definition CheckAppends (order : gmap Z Z → list (Z * Z)) es (nclnt : nat) (rs : list ClntRes)
    (ver : Tversion) : outcome unit :=
  '(expect, skipped) ← scanAppends es (zeros nclnt) (zeros nclnt);
  if decide (zlen es + 1 ≠ i64 ver) then Panic (Fatal "appends in val != puts on server")
  else checkCounts (order expect) skipped rs.

(** ** What the check accepts *)

(** The numbers of client [c]'s entries, in order. *)
Definition mine (c : Z) es : list Z := N <$> filter (λ e, Id e = c) es.

(** Strictly increasing, and from [x] on. *)
Fixpoint rising (x : Z) (l : list Z) : Prop :=
  match l with [] => True | y :: l => x ≤ y ∧ rising (y + 1) l end.

Definition top (x : Z) (l : list Z) : Z := foldl (λ _ y, y + 1) x l.

Lemma rising_app x l1 l2 : rising x (l1 ++ l2) ↔ rising x l1 ∧ rising (top x l1) l2.
Proof. revert x. induction l1 as [|y l IH]; intros x; cbn; [tauto|]. rewrite IH. unfold top. tauto. Qed.

Lemma top_snoc x l y : top x (l ++ [y]) = y + 1.
Proof. unfold top. by rewrite foldl_app. Qed.

Lemma mine_cons (c : Z) e es : mine c (e :: es) = if decide (Id e = c) then N e :: mine c es else mine c es.
Proof. unfold mine. rewrite filter_cons. by case_decide. Qed.

Lemma mine_snoc (c : Z) es e : mine c (es ++ [e]) = if decide (Id e = c) then mine c es ++ [N e] else mine c es.
Proof.
  unfold mine. rewrite filter_app, fmap_app, filter_cons, filter_nil.
  case_decide; [done|]. cbn. by rewrite app_nil_r.
Qed.

Lemma at_key_insert (m : gmap Z Z) c x c' : at_key (<[c := x]> m) c' = if decide (c = c') then x else at_key m c'.
Proof. unfold at_key. rewrite lookup_insert. by case_decide. Qed.

Lemma scanAppends_spec es ex sk :
  match scanAppends es ex sk with
  | Ret (ex', sk') => ∀ c,
      rising (at_key ex c) (mine c es) ∧ at_key ex' c = top (at_key ex c) (mine c es) ∧
      at_key sk' c = at_key sk c + (at_key ex' c - at_key ex c) - zlen (mine c es) ∧
      (is_Some (ex' !! c) ↔ is_Some (ex !! c) ∨ mine c es ≠ [])
  | Panic _ => ∃ c, ¬ rising (at_key ex c) (mine c es)
  end.
Proof.
  revert ex sk. induction es as [|e es IH]; intros ex sk; cbn [scanAppends].
  { intros c. cbn. unfold zlen. cbn. split_and!; [done..|lia|]. naive_solver. }
  case_decide as Hlt.
  { exists (Id e). rewrite mine_cons, decide_True by done. cbn. lia. }
  assert (∀ sk', at_key sk' (Id e) = at_key sk (Id e) + (N e - at_key ex (Id e)) →
    (∀ c, c ≠ Id e → at_key sk' c = at_key sk c) →
    match scanAppends es (<[Id e := N e + 1]> ex) sk' with
    | Ret (ex', sk') => ∀ c,
      rising (at_key ex c) (mine c (e :: es)) ∧ at_key ex' c = top (at_key ex c) (mine c (e :: es)) ∧
      at_key sk' c = at_key sk c + (at_key ex' c - at_key ex c) - zlen (mine c (e :: es)) ∧
      (is_Some (ex' !! c) ↔ is_Some (ex !! c) ∨ mine c (e :: es) ≠ [])
    | Panic _ => ∃ c, ¬ rising (at_key ex c) (mine c (e :: es))
    end) as Hgo.
  { intros sk1 Hs1 Hs2. specialize (IH (<[Id e := N e + 1]> ex) sk1).
    destruct (scanAppends es _ sk1) as [[ex' sk']|f].
    - intros c. destruct (IH c) as (H1 & H2 & H3 & H4). rewrite at_key_insert in H1, H2, H3.
      rewrite lookup_insert in H4. rewrite mine_cons. case_decide as Hc.
      + subst c. split_and!; [cbn; split; [lia|done]|done| |].
        * rewrite zlen_cons. lia.
        * rewrite H4. split; intros _; [by right|left; by eexists].
      + rewrite Hs2 in H3 by congruence. split_and!; [done..|]. by rewrite H4.
    - destruct IH as (c & Hc). exists c. rewrite at_key_insert in Hc. rewrite mine_cons.
      case_decide; [subst c; cbn; tauto|done]. }
  case_decide as Heq.
  - rewrite Heq. apply Hgo; [lia|done].
  - apply Hgo; [by rewrite at_key_insert, decide_True by done|].
    intros c Hc. by rewrite at_key_insert, decide_False by done.
Qed.

Lemma checkCounts_spec order sk rs :
  checkCounts order sk rs = Ret tt ↔
  ∀ c n, (c, n) ∈ order → ∃ r, index rs c = Ret r ∧ at_key sk c ≤ Nmaybe r ∧ n ≤ Nok r + Nmaybe r.
Proof.
  induction order as [|[c n] order IH]; cbn; [split; [set_solver|done]|].
  assert ((∀ c' n', (c', n') ∈ (c, n) :: order → ∃ r, index rs c' = Ret r ∧ at_key sk c' ≤ Nmaybe r ∧ n' ≤ Nok r + Nmaybe r)
    ↔ (∃ r, index rs c = Ret r ∧ at_key sk c ≤ Nmaybe r ∧ n ≤ Nok r + Nmaybe r) ∧ checkCounts order sk rs = Ret tt) as ->.
  { rewrite IH. setoid_rewrite elem_of_cons. naive_solver. }
  destruct (index rs c) as [r|f] eqn:E; cbn; [|naive_solver].
  repeat case_decide; naive_solver lia.
Qed.

Lemma zeros_lookup nclnt c : is_Some (zeros nclnt !! c) ↔ 0 ≤ c < Z.of_nat nclnt.
Proof.
  unfold zeros. rewrite <-not_eq_None_Some, <-not_elem_of_list_to_map.
  rewrite <-list_fmap_compose. split.
  - intros H. destruct (decide (0 ≤ c < Z.of_nat nclnt)) as [?|Hc]; [done|]. destruct H.
    intros (i & -> & Hi%elem_of_seq)%list_elem_of_fmap. cbn in Hc. lia.
  - intros Hc H. apply H, list_elem_of_fmap. exists (Z.to_nat c). split; [cbn; lia|].
    apply elem_of_seq. lia.
Qed.

Lemma zeros_at_key nclnt c : at_key (zeros nclnt) c = 0.
Proof.
  unfold at_key. destruct (zeros nclnt !! c) as [x|] eqn:E; [|done]. unfold zeros in E.
  apply elem_of_list_to_map_2, list_elem_of_fmap in E as (i & [= _ ->] & _). done.
Qed.

Lemma mine_nonempty c es : mine c es ≠ [] → ∃ e, e ∈ es ∧ Id e = c.
Proof.
  unfold mine. intros H. destruct (filter (λ e, Id e = c) es) as [|e es'] eqn:E; [done|].
  assert (e ∈ filter (λ e, Id e = c) es) as [? ?]%list_elem_of_filter by (rewrite E; by left). by exists e.
Qed.

(** The entries are those of the clients. *)
Definition ids_ok (nclnt : nat) es : Prop := ∀ e, e ∈ es → 0 ≤ Id e < Z.of_nat nclnt.

(** What the results allow: each client's numbers go up, no more of them than
    it tried, and no more missing than it was unsure of. *)
Definition allowed es (c : Z) res : Prop :=
  rising 0 (mine c es) ∧ top 0 (mine c es) ≤ Nok res + Nmaybe res ∧
  top 0 (mine c es) - zlen (mine c es) ≤ Nmaybe res.

(** The check of the appends is exact.  CheckAppends lets a value pass if and
    only if the version is one more than the number of entries and for every
    client the entries with its id have strictly increasing numbers, below the
    number of appends it tried, with at most as many left out as it got
    ErrMaybe for; in whatever order Go ranges over the maps. *)
Theorem CheckAppends_exact order es nclnt rs ver :
  (∀ x, order x ≡ₚ map_to_list x) → length rs = nclnt → ids_ok nclnt es →
  CheckAppends order es nclnt rs ver = Ret tt ↔
  i64 ver = zlen es + 1 ∧ ∀ c res, rs !! c = Some res → allowed es (Z.of_nat c) res.
Proof.
  intros Horder Hlen Hids. unfold CheckAppends.
  pose proof (scanAppends_spec es (zeros nclnt) (zeros nclnt)) as Hscan.
  destruct (scanAppends es (zeros nclnt) (zeros nclnt)) as [[ex sk]|f]; cbn.
  2: { split; [done|]. intros [_ H]. destruct Hscan as (c & Hc). rewrite zeros_at_key in Hc. destruct Hc.
       destruct (decide (mine c es = [])) as [->|Hne]; [done|].
       apply mine_nonempty in Hne as (e & He%Hids & <-).
       destruct (rs !! Z.to_nat (Id e)) as [res|] eqn:E; [|apply lookup_ge_None in E; lia].
       apply H in E as (? & _). by rewrite Z2Nat.id in * by lia. }
  assert (checkCounts (order ex) sk rs = Ret tt ↔ ∀ c res, rs !! c = Some res → allowed es (Z.of_nat c) res) as Hcc.
  2: { case_decide; [|rewrite Hcc]; naive_solver. }
  rewrite checkCounts_spec. setoid_rewrite Horder. setoid_rewrite elem_of_map_to_list. split.
  - intros H c res Hc. destruct (Hscan (Z.of_nat c)) as (H1 & H2 & H3 & H4). rewrite !zeros_at_key in *.
    assert (is_Some (ex !! Z.of_nat c)) as [n Hn].
    { apply H4. left. apply zeros_lookup. apply lookup_lt_Some in Hc. lia. }
    destruct (H _ _ Hn) as (r & [_ Hr]%index_Ret & ? & ?). rewrite Nat2Z.id, Hc in Hr. injection Hr as <-.
    assert (n = at_key ex (Z.of_nat c)) as -> by (unfold at_key; by rewrite Hn).
    split_and!; [done|lia..].
  - intros H c n Hn. destruct (Hscan c) as (H1 & H2 & H3 & H4). rewrite !zeros_at_key in *.
    assert (0 ≤ c < Z.of_nat nclnt) as Hc.
    { assert (is_Some (ex !! c)) as [?%zeros_lookup|(e & He%Hids & <-)%mine_nonempty]%H4 by (by eexists); lia. }
    destruct (rs !! Z.to_nat c) as [res|] eqn:E; [|apply lookup_ge_None in E; lia].
    exists res. split; [apply index_Ret; split; [lia|done]|].
    apply H in E as (_ & ? & ?). rewrite Z2Nat.id in * by lia.
    assert (n = at_key ex c) as -> by (unfold at_key; by rewrite Hn). lia.
Qed.

(** ** The appends on a correct store *)

(** [landed]: a request of the put under way was executed, which the client
    does not know. *)
Definition append_ok cur (me : Z) (c : AClient) : Prop :=
  ∃ landed : bool, let extra := if landed then 1 else 0 in
    ac_i c = Nok (ac_res c) + Nmaybe (ac_res c) ∧ rising 0 (mine me cur) ∧
    top 0 (mine me cur) ≤ ac_i c + extra ∧ Nok (ac_res c) + extra ≤ zlen (mine me cur) ∧
    match ac_pc c with
    | APut ver es resend => ∃ h, es = h ++ [mkEntryN me (ac_i c)] ∧ ver = zlen h + 1 ∧
        h `prefix_of` cur ∧ (landed = true → resend = true ∧ zlen h < zlen cur)
    | AFailed => False
    | _ => landed = false
    end.

Record appends_inv (nclnt : nat) (k : Z) (t : ATest) cur : Prop := {
  ai_map : at_map t !! "k" = Some (mkVV (Marshal cur) (zlen cur + 1));
  ai_bound : zlen cur ≤ k;
  ai_ids : ids_ok nclnt cur;
  ai_length : length (at_clients t) = nclnt;
  ai_clients i c : at_clients t !! i = Some c → append_ok cur (Z.of_nat i) c;
}.

(** Another client's entry. *)
Lemma append_ok_other cur me c e : Id e ≠ me → append_ok cur me c → append_ok (cur ++ [e]) me c.
Proof.
  intros Hne (landed & H1 & H2 & H3 & H4 & H5). exists landed. rewrite mine_snoc, decide_False by done.
  split_and!; try done. destruct (ac_pc c) as [| |ver es resend| |]; try done.
  destruct H5 as (h & ? & ? & Hp & Hl). exists h. split_and!; [done..|by apply prefix_app_r|].
  intros [? ?]%Hl. rewrite zlen_app. change (zlen [e]) with 1. split; [done|lia].
Qed.

(** What one RPC of an append does to the map. *)
Lemma append_sent cur h me i m m' e :
  m !! "k" = Some (mkVV (Marshal cur) (zlen cur + 1)) → h `prefix_of` cur → zlen cur + 2 < 2 ^ 63 →
  kv_put m "k" (Marshal (h ++ [mkEntryN me i])) (zlen h + 1) = (m', e) →
  (e = OK ∧ h = cur ∧ m' !! "k" = Some (mkVV (Marshal (cur ++ [mkEntryN me i])) (zlen (cur ++ [mkEntryN me i]) + 1))) ∨
  (e = ErrVersion ∧ zlen h < zlen cur ∧ m' = m).
Proof.
  intros Hm [x ->] Hb. unfold kv_put, kv_put_err. rewrite Hm. cbn [Version]. rewrite zlen_app in *.
  pose proof (zlen_nonneg h). pose proof (zlen_nonneg x).
  destruct (decide (zlen h + zlen x + 1 = zlen h + 1)) as [Hv|Hv].
  - rewrite decide_True by done. intros [= <- <-]. left.
    assert (x = []) as -> by (destruct x; [done|rewrite zlen_cons in *; pose proof (zlen_nonneg x); lia]).
    rewrite !app_nil_r. split_and!; [done..|]. rewrite lookup_insert_eq, zlen_app.
    change (zlen [_]) with 1. rewrite u64_add_small by (unfold u64_mod; lia). done.
  - rewrite decide_False by done. intros [= <- <-]. right. split_and!; [done|lia|done].
Qed.

Lemma append_step_ok cur me l c m c' m' :
  m !! "k" = Some (mkVV (Marshal cur) (zlen cur + 1)) → zlen cur + 2 < 2 ^ 63 →
  append_ok cur me c → appendStep me l c m = Some (c', m') →
  ∃ cur', m' !! "k" = Some (mkVV (Marshal cur') (zlen cur' + 1)) ∧ append_ok cur' me c' ∧
          (cur' = cur ∨ ∃ i, cur' = cur ++ [mkEntryN me i]).
Proof.
  intros Hm Hb Hok Hs. destruct c as [i res pc]. unfold appendStep in Hs. cbn [ac_pc ac_i ac_res] in Hs.
  destruct Hok as (landed & H1 & H2 & H3 & H4 & H5). cbn [ac_pc ac_i ac_res] in *.
  destruct pc as [| |ver es resend| |], l as [| | |executed heard]; try done.
  - injection Hs as <- <-. exists cur. split_and!; [done|exists landed|by left]. by split_and!.
  - injection Hs as <- <-. exists cur. split_and!; [done|exists landed|by left]. by split_and!.
  - unfold GetJson, kv_get in Hs. rewrite Hm in Hs. cbn in Hs. rewrite Unmarshal_Marshal in Hs.
    injection Hs as <- <-. exists cur. split_and!; [done|exists landed|by left]. cbn.
    split_and!; try done. exists cur. split_and!; [done..|]. by subst landed.
  - destruct H5 as (h & -> & -> & Hp & Hl). unfold sendPut in Hs.
    destruct executed.
    2: { injection Hs as <- <-. exists cur. split_and!; [done|exists landed|by left]. cbn.
         split_and!; try done. exists h. split_and!; [done..|]. intros [_ ?]%Hl. done. }
    destruct (kv_put m "k" _ (zlen h + 1)) as [m1 e] eqn:Eput.
    destruct (append_sent _ _ _ _ _ _ _ Hm Hp Hb Eput) as [(-> & -> & Hm1)|(-> & Hlt & ->)].
    + (* the put is executed *)
      assert (landed = false) as -> by (destruct landed; [destruct Hl; [done|lia]|done]).
      cbn in H3, H4.
      assert (zlen (mine me (cur ++ [mkEntryN me i])) = zlen (mine me cur) + 1 ∧
              top 0 (mine me (cur ++ [mkEntryN me i])) = i + 1 ∧ rising 0 (mine me (cur ++ [mkEntryN me i])))
        as (Hz & Ht & Hr).
      { rewrite mine_snoc, decide_True by done. cbn [N]. rewrite zlen_app, top_snoc, rising_app.
        split_and!; try done. split; [lia|done]. }
      exists (cur ++ [mkEntryN me i]). destruct heard; injection Hs as <- <-; cbn; (split_and!; [done| |by eauto]).
      * exists false. unfold afterAppend. destruct resend; repeat case_decide; try done;
          cbn; split_and!; try done; lia.
      * exists true. cbn. split_and!; try done; [lia..|]. exists cur. split_and!; [done..|by apply prefix_app_r|].
        intros _. split; [done|]. rewrite zlen_app. change (zlen [_]) with 1. lia.
    + (* it is refused *)
      exists cur. destruct heard; injection Hs as <- <-; (split_and!; [done| |by left]).
      * destruct resend.
        -- exists false. unfold afterAppend. repeat case_decide; try done. cbn.
           destruct landed; split_and!; try done; lia.
        -- exists landed. unfold afterAppend. repeat case_decide; try done. cbn.
           split_and!; try done. destruct landed; [by destruct Hl|done].
      * exists landed. cbn. split_and!; try done. exists h. split_and!; [done..|]. intros [_ ?]%Hl. done.
Qed.

Lemma atStep_inv nclnt k t cur i l t' :
  appends_inv nclnt k t cur → k + 2 < 2 ^ 63 → atStep i l t = Some t' →
  ∃ cur', appends_inv nclnt (k + 1) t' cur'.
Proof.
  intros [] Hk H. unfold atStep in H. apply bind_Some in H as (c & Hc & H).
  apply bind_Some in H as ([c' m'] & Hs & [= <-]).
  destruct (append_step_ok cur (Z.of_nat i) l c (at_map t) c' m') as (cur' & Hm & Hok & Hcur);
    [done|lia|by apply ai_clients0|done|].
  exists cur'. split; cbn; [done|..].
  - destruct Hcur as [->|[x ->]]; [lia|]. rewrite zlen_app. change (zlen [_]) with 1. lia.
  - apply lookup_lt_Some in Hc. destruct Hcur as [->|[x ->]]; [done|].
    intros e [?%ai_ids0| ->%list_elem_of_singleton]%elem_of_app; [done|]. cbn. lia.
  - by rewrite length_insert.
  - intros j c1 [(-> & <- & _)|[Hne Hj]]%list_lookup_insert_Some; [done|].
    apply ai_clients0 in Hj. destruct Hcur as [->|[x ->]]; [done|]. apply append_ok_other; [cbn; lia|done].
Qed.

Lemma atRun_inv nclnt k t cur ls t' :
  appends_inv nclnt k t cur → k + Z.of_nat (length ls) + 2 < 2 ^ 63 → atRun ls t = Some t' →
  ∃ cur', appends_inv nclnt (k + Z.of_nat (length ls)) t' cur'.
Proof.
  revert k t cur. induction ls as [|[i l] ls IH]; intros k t cur Hinv Hk; cbn.
  - intros [= <-]. exists cur. by rewrite Z.add_0_r.
  - cbn in Hk. intros (t1 & Ht1 & H)%bind_Some.
    destruct (atStep_inv _ _ _ _ _ _ _ Hinv ltac:(lia) Ht1) as (cur1 & Hinv1).
    apply (IH _ _ _ Hinv1) in H; [|lia]. replace (k + Z.of_nat (S (length ls))) with (k + 1 + Z.of_nat (length ls)) by lia.
    done.
Qed.

Lemma atStart_inv nclnt : appends_inv nclnt 0 (atStart nclnt) [].
Proof.
  split; cbn; [done..|by intros e He; apply elem_of_nil in He|by rewrite length_replicate|].
  intros i c [-> _]%lookup_replicate. exists false. cbn. by split_and!.
Qed.

(** C36: The appends pass.  Any number of clients that append to one key until they
    are told to stop, through clerks that resend whatever the network loses:
    no client fails on the way, and when all have stopped, CheckAppends accepts
    what they left on the store. *)
Theorem appends_pass order nclnt ls t :
  (∀ x, order x ≡ₚ map_to_list x) → Z.of_nat (length ls) + 2 < 2 ^ 63 →
  atRun ls (atStart nclnt) = Some t →
  (∀ i c, at_clients t !! i = Some c → ac_pc c ≠ AFailed) ∧
  ((∀ i c, at_clients t !! i = Some c → ac_pc c = AStopped) →
   ∃ es ver, GetJson "k" (at_map t) = Ret (es, ver) ∧
     CheckAppends order es nclnt (ac_res <$> at_clients t) ver = Ret tt).
Proof.
  intros Horder Hk Hrun. apply (atRun_inv _ _ _ _ _ _ (atStart_inv nclnt)) in Hrun as (cur & []); [|lia]. split.
  - intros i c (landed & _ & _ & _ & _ & H)%ai_clients0 Hpc. by rewrite Hpc in H.
  - intros Hstop. exists cur, (zlen cur + 1). unfold GetJson, kv_get. rewrite ai_map0. cbn.
    rewrite Unmarshal_Marshal. split; [done|]. pose proof (zlen_nonneg cur).
    apply CheckAppends_exact; [done|by rewrite length_fmap|done|]. split; [rewrite i64_small by lia; lia|].
    intros i res. rewrite list_lookup_fmap. intros (c & Hc & ->)%fmap_Some.
    destruct (ai_clients0 _ _ Hc) as (landed & H1 & H2 & H3 & H4 & H5). rewrite (Hstop _ _ Hc) in H5.
    subst landed. split_and!; [done|lia..].
Qed.

(** ** Puts to one key *)

Inductive PPc :=
| PSelect
| PPut (ver : Tversion) (resend : bool)   (* in PutJson of OnePut *)
| PGet (ver : Tversion) (err : Err)       (* at the GetJson after it *)
| PStopped | PFailed.

Record PClient := mkPClient { pv_ver : Tversion; pv_res : ClntRes; pv_pc : PPc }.

Inductive PLabel := PDone | PRun | PSend (executed heard : bool) | PRead.

(** [OneClientPut] and [OnePut] of client [me] on the key [ka[0]]. *)
Definition putStep (key : string) (me : Z) (l : PLabel) (c : PClient) m : option (PClient * kvmap) :=
  let at_pc pc := mkPClient (pv_ver c) (pv_res c) pc in
  match pv_pc c, l with
  | PSelect, PDone => Some (at_pc PStopped, m)
  | PSelect, PRun => Some (at_pc (PPut (pv_ver c) false), m)
  | PPut ver resend, PSend executed heard =>
      let '(m, r) := sendPut key (Marshal (mkEntryV me ver)) ver resend executed heard m in
      match r with
      | Some err =>
          if decide (err = OK ∨ err = ErrVersion ∨ err = ErrMaybe) then Some (at_pc (PGet ver err), m)
          else Some (at_pc PFailed, m)
      | None => Some (at_pc (PPut ver true), m)
      end
  | PGet ver err, PRead =>
      match GetJson key m with
      | Panic _ => Some (at_pc PFailed, m)
      | Ret (e, ver0) =>
          let r := pv_res c in
          if decide (err = OK ∧ ver0 = u64_add ver 1 ∧ EId e ≠ me ∧ EV e ≠ ver) then Some (at_pc PFailed, m)
          else if decide (err = OK) then Some (mkPClient ver0 (mkRes (Nok r + 1) (Nmaybe r)) PSelect, m)
          else if decide (err = ErrMaybe) then Some (mkPClient ver0 (mkRes (Nok r) (Nmaybe r + 1)) PSelect, m)
          else Some (at_pc (PPut ver0 false), m)
      end
  | _, _ => None
  end.

Record PTest := mkPTest { pt_map : kvmap; pt_clients : list PClient }.

Definition ptStep (key : string) (i : nat) (l : PLabel) (t : PTest) : option PTest :=
  c ← pt_clients t !! i;
  '(c, m) ← putStep key (Z.of_nat i) l c (pt_map t);
  Some (mkPTest m (<[i := c]> (pt_clients t))).

Fixpoint ptRun (key : string) (ls : list (nat * PLabel)) (t : PTest) : option PTest :=
  match ls with
  | [] => Some t
  | (i, l) :: ls => t ← ptStep key i l t; ptRun key ls t
  end.

Definition ptStart (nclnt : nat) : PTest :=
  mkPTest ∅ (replicate nclnt (mkPClient 0 (mkRes 0 0) PSelect)).

Definition total (rs : list ClntRes) res : ClntRes :=
  foldl (λ res r, mkRes (Nok res + Nok r) (Nmaybe res + Nmaybe r)) res rs.

Definition CheckPutConcurrent (key : string) (rs : list ClntRes) res (reliable : bool) m : outcome ClntRes :=
  '(_, ver0) ← (GetJson key m : outcome (EntryV * Tversion));
  let res := total rs res in
  if reliable then
    if decide (ver0 ≠ u64_add (Nok res) 0) then Panic (Fatal "Reliable: Wrong number of puts") else Ret res
  else if decide (u64_add (Nok res + Nmaybe res) 0 < ver0)
       then Panic (Fatal "Unreliable: Wrong number of puts") else Ret res.

(** Nothing is lost on a reliable network. *)
Definition reliable_label (l : PLabel) : Prop :=
  match l with PSend executed heard => executed = true ∧ heard = true | _ => True end.

(** *** The puts on a correct store *)

(** [w] is the number of puts of this client that were executed, [v] the
    version of the key. *)
Definition put_ok (rel : bool) (v : Z) (c : PClient) (w : Z) : Prop :=
  let r := pv_res c in
  0 ≤ Nok r ∧ 0 ≤ Nmaybe r ∧ 0 ≤ pv_ver c ≤ v ∧ (0 < Nok r + Nmaybe r → 0 < v) ∧
  (rel = true → Nmaybe r = 0) ∧
  match pv_pc c with
  | PPut ver resend => 0 ≤ ver ≤ v ∧ Nok r ≤ w ∧ (rel = true → resend = false) ∧
      (w ≤ Nok r + Nmaybe r ∨ w ≤ Nok r + Nmaybe r + 1 ∧ resend = true ∧ ver < v)
  | PGet ver err => 0 ≤ ver ≤ v ∧ 0 < v ∧ (rel = true → err ≠ ErrMaybe) ∧
      match err with
      | OK => Nok r + 1 ≤ w ≤ Nok r + Nmaybe r + 1
      | ErrMaybe => Nok r ≤ w ≤ Nok r + Nmaybe r + 1
      | _ => Nok r ≤ w ≤ Nok r + Nmaybe r
      end
  | PFailed => False
  | _ => Nok r ≤ w ≤ Nok r + Nmaybe r
  end.

(** The key is at version [v], written by a put for the version before. *)
Definition key_at (key : string) (v : Z) m : Prop :=
  if decide (v = 0) then m !! key = None
  else ∃ e, m !! key = Some (mkVV (Marshal e) v) ∧ EV e = v - 1.

Lemma put_ok_later rel v v' c w : v ≤ v' → put_ok rel v c w → put_ok rel v' c w.
Proof.
  intros Hle. unfold put_ok. intros (? & ? & ? & ? & ? & H). split_and!; try done; [lia..|].
  destruct (pv_pc c) as [|ver resend|ver err| |]; try done.
  - destruct H as (? & ? & ? & H). split_and!; try done; try lia.
    destruct H as [?|(? & ? & ?)]; [by left|right]. split_and!; [done..|lia].
  - destruct H as (? & ? & ? & ?). split_and!; try done; lia.
Qed.

Lemma sendPut_at key (e : EntryV) v ver m :
  key_at key v m → 0 ≤ ver ≤ v → v + 2 < 2 ^ 63 → EV e = ver →
  (kv_put m key (Marshal e) ver).2 = OK ∧ ver = v ∧ key_at key (v + 1) (kv_put m key (Marshal e) ver).1 ∨
  (kv_put m key (Marshal e) ver) = (m, ErrVersion) ∧ ver < v.
Proof.
  unfold key_at. intros Hk Hver Hb He. rewrite decide_False by lia.
  destruct (kv_put_cases m key (Marshal e) ver) as [[-> E]|[(-> & E & Hs)|(-> & E & Hne)]]; unfold kv_version in E.
  - left. cbn. assert (ver = v) as ->.
    { case_decide; [rewrite Hk in E; lia|]. destruct Hk as (e0 & Hk & _). by rewrite Hk in E. }
    split_and!; [done..|]. exists e. rewrite lookup_insert_eq, u64_add_small by (unfold u64_mod; lia).
    split; [done|lia].
  - right. split; [done|]. case_decide; [by rewrite Hk in Hs; destruct Hs|].
    destruct Hk as (e0 & Hk & _). rewrite Hk in E. cbn in E. lia.
  - case_decide; [lia|]. destruct Hk as (e0 & Hk & _). congruence.
Qed.

(** The step of one client: the version, and what it counts. *)
Lemma put_step_ok rel key v w me l c m c' m' :
  key_at key v m → v + 2 < 2 ^ 63 → put_ok rel v c w → (rel = true → reliable_label l) →
  putStep key me l c m = Some (c', m') →
  ∃ d, (d = 0 ∨ d = 1) ∧ key_at key (v + d) m' ∧ put_ok rel (v + d) c' (w + d).
Proof.
  intros Hk Hb Hok Hrel Hs. destruct c as [ver0 r pc]. unfold putStep in Hs. cbn [pv_pc pv_ver pv_res] in Hs.
  destruct pc as [|ver resend|ver err| |], l as [| |executed heard|]; try done.
  - injection Hs as <- <-. exists 0. rewrite !Z.add_0_r. auto.
  - injection Hs as <- <-. exists 0. rewrite !Z.add_0_r. split_and!; [by left|done|].
    destruct Hok as (? & ? & ? & ? & ? & ?). unfold put_ok. cbn in *. split_and!; try done; try lia; by left.
  - destruct Hok as (H1 & H2 & H3 & H4 & H5 & Hver & H6 & H7 & H8). cbn in *. unfold sendPut in Hs.
    destruct executed.
    2: { injection Hs as <- <-. exists 0. rewrite !Z.add_0_r. split_and!; [by left|done|].
         unfold put_ok. cbn. destruct rel; [by destruct Hrel|]. split_and!; try done; try lia; naive_solver. }
    destruct (sendPut_at key (mkEntryV me ver) v ver m) as [(He & -> & Hk')|(Hput & Hlt)]; [done..| |].
    + destruct (kv_put m key _ v) as [m1 e]. cbn in He, Hk'. subst e. exists 1.
      destruct heard; [case_decide as Hd; [|by destruct resend; naive_solver]|];
        injection Hs as <- <-; (split_and!; [by right|done|]); unfold put_ok; cbn.
      * destruct resend; split_and!; try done; try lia; naive_solver lia.
      * destruct rel; [by destruct Hrel|]. split_and!; try done; try lia; naive_solver lia.
    + rewrite Hput in Hs. exists 0. rewrite !Z.add_0_r.
      destruct heard; [case_decide as Hd; [|by destruct resend; naive_solver]|];
        injection Hs as <- <-; (split_and!; [by left|done|]); unfold put_ok; cbn.
      * destruct resend; split_and!; try done; try lia; naive_solver lia.
      * destruct rel; [by destruct Hrel|]. split_and!; try done; try lia; naive_solver lia.
  - destruct Hok as (H1 & H2 & H3 & H4 & H5 & Hver & H6 & H7 & H8). cbn in *.
    pose proof Hk as Hk0. unfold key_at in Hk. rewrite decide_False in Hk by lia.
    destruct Hk as (e & Hm & He). unfold GetJson, kv_get in Hs. rewrite Hm in Hs. cbn in Hs.
    rewrite Unmarshal_Marshal in Hs. exists 0. rewrite !Z.add_0_r.
    destruct (decide (OK = OK)) in Hs; [|done]. case_decide as Hbad.
    { destruct Hbad as (_ & Hv & _ & Hne). rewrite u64_add_small in Hv by (unfold u64_mod; lia). lia. }
    case_decide; [subst|case_decide; [subst|]]; injection Hs as <- <-; (split_and!; [by left|done|]);
      unfold put_ok; cbn; split_and!; try done; try lia.
    + intros ?. exfalso. by apply H7.
    + destruct err; try done; lia.
    + left. destruct err; try done; lia.
Qed.

Definition tried (c : PClient) : Z := Nok (pv_res c) + Nmaybe (pv_res c).

Lemma putStep_tried key me l c m c' m' :
  putStep key me l c m = Some (c', m') → tried c ≤ tried c' ≤ tried c + 1.
Proof.
  unfold putStep, tried. destruct c as [ver0 r pc]. cbn [pv_pc pv_ver pv_res].
  destruct pc as [|ver resend|ver err| |], l as [| |executed heard|]; try done;
    try (intros [= <- <-]; cbn; lia).
  - destruct (sendPut _ _ _ _ _ _ _) as [m1 [e|]]; [case_decide|]; intros [= <- <-]; cbn; lia.
  - destruct (GetJson key m) as [[e v]|]; [|intros [= <- <-]; cbn; lia].
    repeat case_decide; intros [= <- <-]; cbn; lia.
Qed.

Definition zsum (l : list Z) : Z := foldr Z.add 0 l.

Lemma zsum_insert l i x y : l !! i = Some x → zsum (<[i := y]> l) = zsum l - x + y.
Proof.
  revert i. induction l as [|z l IH]; intros [|i] Hi; [done..| |].
  - injection Hi as ->. cbn. lia.
  - change (zsum (<[S i := y]> (z :: l))) with (z + zsum (<[i := y]> l)).
    change (zsum (z :: l)) with (z + zsum l). rewrite (IH i) by done. lia.
Qed.

Lemma zsum_cons x l : zsum (x :: l) = x + zsum l.
Proof. done. Qed.

Lemma zsum_between cs ws :
  length ws = length cs →
  (∀ i c w, cs !! i = Some c → ws !! i = Some w → Nok (pv_res c) ≤ w ≤ tried c) →
  zsum (Nok <$> (pv_res <$> cs)) ≤ zsum ws ≤ zsum (tried <$> cs).
Proof.
  revert ws. induction cs as [|c cs IH]; intros [|w ws] Hlen H; try done.
  rewrite !fmap_cons, !zsum_cons. specialize (H 0%nat c w eq_refl eq_refl) as H0.
  assert (zsum (Nok <$> (pv_res <$> cs)) ≤ zsum ws ≤ zsum (tried <$> cs)); [|lia].
  apply IH; [by injection Hlen|]. intros i c' w'. apply (H (S i)).
Qed.

Lemma zsum_tried cs :
  zsum (tried <$> cs) = zsum (Nok <$> (pv_res <$> cs)) + zsum (Nmaybe <$> (pv_res <$> cs)).
Proof.
  induction cs as [|c cs IH]; [done|]. rewrite !fmap_cons, !zsum_cons, IH. unfold tried. lia.
Qed.

(** [ws] are the numbers of puts executed, by client. *)
Record puts_inv (rel : bool) (key : string) (k : Z) (t : PTest) (ws : list Z) : Prop := {
  pi_map : key_at key (zsum ws) (pt_map t);
  pi_version : 0 ≤ zsum ws ≤ k;
  pi_tried : zsum (tried <$> pt_clients t) ≤ k;
  pi_length : length ws = length (pt_clients t);
  pi_clients i c w : pt_clients t !! i = Some c → ws !! i = Some w → put_ok rel (zsum ws) c w;
}.

Lemma ptStep_inv rel key k t ws i l t' :
  puts_inv rel key k t ws → k + 2 < 2 ^ 63 → (rel = true → reliable_label l) →
  ptStep key i l t = Some t' → ∃ ws', puts_inv rel key (k + 1) t' ws'.
Proof.
  intros [] Hk Hrel H. unfold ptStep in H. apply bind_Some in H as (c & Hc & H).
  apply bind_Some in H as ([c' m'] & Hs & [= <-]).
  destruct (ws !! i) as [w|] eqn:Hw.
  2: { apply lookup_ge_None in Hw. apply lookup_lt_Some in Hc. lia. }
  destruct (put_step_ok rel key (zsum ws) w (Z.of_nat i) l c (pt_map t) c' m') as (d & Hd & Hm & Hok);
    [done|lia|by eapply pi_clients0|done..|].
  apply putStep_tried in Hs. exists (<[i := w + d]> ws).
  assert (zsum (<[i := w + d]> ws) = zsum ws + d) as Hsum by (rewrite (zsum_insert _ _ _ _ Hw); lia).
  split; rewrite ?Hsum; cbn; [done|lia|..].
  - rewrite list_fmap_insert, (zsum_insert _ _ (tried c)); [lia|]. by rewrite list_lookup_fmap, Hc.
  - by rewrite !length_insert.
  - intros j c1 w1 Hj Hj'. apply list_lookup_insert_Some in Hj as [(-> & <- & _)|[Hne Hj]].
    + rewrite list_lookup_insert_eq in Hj' by (by eapply lookup_lt_Some). by injection Hj' as <-.
    + rewrite list_lookup_insert_ne in Hj' by done. eapply put_ok_later; [|by eapply pi_clients0]. lia.
Qed.

Lemma ptRun_inv rel key k t ws ls t' :
  puts_inv rel key k t ws → k + Z.of_nat (length ls) + 2 < 2 ^ 63 →
  (rel = true → Forall (λ p, reliable_label p.2) ls) → ptRun key ls t = Some t' →
  ∃ ws', puts_inv rel key (k + Z.of_nat (length ls)) t' ws'.
Proof.
  revert k t ws. induction ls as [|[i l] ls IH]; intros k t ws Hinv Hk Hrel; cbn.
  - intros [= <-]. exists ws. by rewrite Z.add_0_r.
  - cbn in Hk. intros (t1 & Ht1 & H)%bind_Some.
    assert (rel = true → reliable_label l ∧ Forall (λ p, reliable_label p.2) ls) as Hr.
    { intros Hr. apply Hrel in Hr. by inversion Hr. }
    destruct (ptStep_inv _ _ _ _ _ _ _ _ Hinv ltac:(lia) ltac:(naive_solver) Ht1) as (ws1 & Hinv1).
    apply (IH _ _ _ Hinv1) in H; [|lia|naive_solver].
    by replace (k + Z.of_nat (S (length ls))) with (k + 1 + Z.of_nat (length ls)) by lia.
Qed.

Lemma ptStart_inv rel key nclnt : puts_inv rel key 0 (ptStart nclnt) (replicate nclnt 0).
Proof.
  assert (zsum (replicate nclnt 0) = 0) as Hz.
  { induction nclnt as [|n IH]; [done|]. change (0 + zsum (replicate n 0) = 0). lia. }
  split; rewrite ?Hz; cbn.
  - unfold key_at. by rewrite decide_True.
  - done.
  - rewrite fmap_replicate. change (zsum (replicate nclnt 0) ≤ 0). by rewrite Hz.
  - by rewrite !length_replicate.
  - intros i c w [-> _]%lookup_replicate [-> _]%lookup_replicate. unfold put_ok. cbn. split_and!; try done; lia.
Qed.

Lemma total_sum rs res :
  Nok (total rs res) = Nok res + zsum (Nok <$> rs) ∧ Nmaybe (total rs res) = Nmaybe res + zsum (Nmaybe <$> rs).
Proof.
  revert res. induction rs as [|r rs IH]; intros res; cbn; [lia|].
  destruct (IH (mkRes (Nok res + Nok r) (Nmaybe res + Nmaybe r))) as [E1 E2].
  unfold total in *. rewrite E1, E2. cbn. unfold zsum in *. lia.
Qed.

(** The puts pass.  Any number of clients that put to one key until they are
    told to stop: no client fails on the way, and when all have stopped and at
    least one has finished a put, CheckPutConcurrent accepts the store: the
    version is the number of OKs when the network is reliable, and at most the
    number of OKs and ErrMaybes otherwise. *)
Theorem puts_pass (reliable : bool) key nclnt ls t :
  Z.of_nat (length ls) + 2 < 2 ^ 63 →
  (reliable = true → Forall (λ p, reliable_label p.2) ls) → ptRun key ls (ptStart nclnt) = Some t →
  (∀ i c, pt_clients t !! i = Some c → pv_pc c ≠ PFailed) ∧
  ((∀ i c, pt_clients t !! i = Some c → pv_pc c = PStopped) →
   (∃ i c, pt_clients t !! i = Some c ∧ 0 < tried c) →
   returns (CheckPutConcurrent key (pv_res <$> pt_clients t) (mkRes 0 0) reliable (pt_map t))).
Proof.
  intros Hk Hrel Hrun.
  apply (ptRun_inv _ _ _ _ _ _ _ (ptStart_inv reliable key nclnt)) in Hrun as (ws & []); [|lia|done].
  assert (∀ i c, pt_clients t !! i = Some c → ∃ w, ws !! i = Some w ∧ put_ok reliable (zsum ws) c w) as Hcl.
  { intros i c Hc. destruct (ws !! i) as [w|] eqn:Hw; [eauto|].
    apply lookup_ge_None in Hw. apply lookup_lt_Some in Hc. lia. }
  split.
  { intros i c (w & _ & _ & _ & _ & _ & _ & H)%Hcl Hpc. by rewrite Hpc in H. }
  intros Hstop (i0 & c0 & Hc0 & Htr).
  destruct (Hcl _ _ Hc0) as (w0 & _ & _ & _ & _ & Hpos & _). specialize (Hpos Htr).
  assert (zsum (Nok <$> (pv_res <$> pt_clients t)) ≤ zsum ws ≤ zsum (tried <$> pt_clients t)) as Hb.
  { apply zsum_between; [done|]. intros i c w Hc Hw. destruct (Hcl _ _ Hc) as (w' & Hw' & _ & _ & _ & _ & _ & H).
    rewrite Hw in Hw'. injection Hw' as <-. by rewrite (Hstop _ _ Hc) in H. }
  destruct (total_sum (pv_res <$> pt_clients t) (mkRes 0 0)) as [E1 E2]. cbn in E1, E2.
  unfold key_at in pi_map0. rewrite decide_False in pi_map0 by lia. destruct pi_map0 as (e & Hm & _).
  unfold CheckPutConcurrent, GetJson, kv_get. rewrite Hm. cbn.
  destruct (decide (OK = OK)); [|done]. rewrite Unmarshal_Marshal. cbn. rewrite E1, E2.
  rewrite zsum_tried in *.
  assert (reliable = true → zsum (Nmaybe <$> (pv_res <$> pt_clients t)) = 0) as Hz.
  { intros Hr. assert (∀ cs, (∀ i c, cs !! i = Some c → Nmaybe (pv_res c) = 0) →
      zsum (Nmaybe <$> (pv_res <$> cs)) = 0) as Hall.
    { induction cs as [|c cs IH]; intros H; [done|]. rewrite !fmap_cons, zsum_cons.
      rewrite (H 0%nat c eq_refl), IH; [done|]. intros i. apply (H (S i)). }
    apply Hall. intros i c (w & _ & _ & _ & _ & _ & H & _)%Hcl. auto. }
  destruct reliable.
  - specialize (Hz eq_refl). rewrite u64_add_small by (unfold u64_mod; lia). rewrite decide_False by lia. by eexists.
  - rewrite u64_add_small by (unfold u64_mod; lia). rewrite decide_False by lia. by eexists.
Qed.

(** ** Put at least once *)

(** [PutAtLeastOnce], by the RPCs of its clerk; [None] while it is still going. *)
Fixpoint PutAtLeastOnce (key value : string) (rpcs : list (bool * bool)) (ver : Tversion) (resend : bool) m
    : option (outcome (Tversion * kvmap)) :=
  match rpcs with
  | [] => None
  | (executed, heard) :: rpcs =>
      let '(m, r) := sendPut key value ver resend executed heard m in
      match r with
      | None => PutAtLeastOnce key value rpcs ver true m
      | Some err =>
          if decide (err = OK) then Some (Ret (u64_add ver 1, m))
          else if decide (err = ErrMaybe ∨ err = ErrVersion)
               then PutAtLeastOnce key value rpcs (u64_add ver 1) false m
          else if decide (ver ≠ 0) then Some (Panic (Fatal "Put err"))
          else PutAtLeastOnce key value rpcs ver false m
      end
  end.

(** One executed RPC leaves the key beyond the version it asked for. *)
Lemma kv_put_beyond key value ver m :
  0 ≤ ver ≤ kv_version m key → kv_version m key + 1 < u64_mod →
  let '(m', e) := kv_put m key value ver in
  kv_version m' key = (if decide (e = OK) then ver + 1 else kv_version m key) ∧
  (e = OK ∧ kv_version m key = ver ∧ kv_value m' key = value ∨
   e = ErrVersion ∧ ver < kv_version m key).
Proof.
  intros Hver Hb. destruct (kv_put_cases m key value ver) as [[-> E]|[(-> & E & Hs)|(-> & E & Hne)]].
  - unfold kv_version, kv_value. rewrite lookup_insert_eq. cbn. rewrite u64_add_small by (unfold u64_mod in *; lia).
    split; [by rewrite decide_True|]. left. done.
  - rewrite decide_False by done. split; [done|]. right. split; [done|lia].
  - unfold kv_version in Hver. rewrite E in Hver. lia.
Qed.

(** A put that is repeated until it is answered.  PutAtLeastOnce with a version
    up to the server's, on a key that nobody else writes: it never ends the
    test, and when it returns, the key has the value and the version returned.
    Once nothing is lost it returns within as many RPCs as the server is ahead,
    and one more. *)
Theorem put_at_least_once key value rpcs ver resend m :
  0 ≤ ver ≤ kv_version m key → kv_version m key + Z.of_nat (length rpcs) < u64_mod →
  (∀ r, PutAtLeastOnce key value rpcs ver resend m = Some r →
     ∃ ver' m', r = Ret (ver', m') ∧ kv_version m' key = ver' ∧ kv_value m' key = value) ∧
  (resend = false → kv_version m key - ver < Z.of_nat (length rpcs) → Forall (λ p, p = (true, true)) rpcs →
   is_Some (PutAtLeastOnce key value rpcs ver resend m)).
Proof.
  revert ver resend m. induction rpcs as [|[executed heard] rpcs IH]; intros ver resend m Hver Hb.
  { split; [done|]. cbn. lia. }
  cbn [length] in Hb. cbn [PutAtLeastOnce]. unfold sendPut. destruct executed.
  2: { destruct (IH ver true m) as [IH1 _]; [done|lia|]. split; [done|]. intros _ _ Hall. by inversion Hall. }
  pose proof (kv_put_beyond key value ver m Hver) as Hput. specialize (Hput ltac:(unfold u64_mod in *; lia)).
  destruct (kv_put m key value ver) as [m' e]. destruct Hput as [Hv He].
  assert (ver + 1 ≤ kv_version m' key ≤ kv_version m key + 1 ∧
          kv_version m' key - ver ≤ Z.max 1 (kv_version m key - ver)) as Hv'.
  { destruct He as [(-> & ? & _)|(-> & ?)]; [rewrite decide_True in Hv by done|rewrite decide_False in Hv by done]; lia. }
  assert (u64_add ver 1 = ver + 1) as Hadd by (apply u64_add_small; unfold u64_mod in *; lia).
  destruct heard.
  - destruct (IH (ver + 1) false m') as [IH1 IH2]; [lia..|]. destruct resend.
    + destruct (decide (ErrMaybe = OK)); [done|]. rewrite decide_True by auto. rewrite Hadd. done.
    + destruct He as [(-> & _ & Hval)|(-> & Hlt)].
      * rewrite decide_True in Hv by done. destruct (decide (OK = OK)); [|done]. rewrite Hadd. split; [|done].
        intros ? [= <-]. by exists (ver + 1), m'.
      * destruct (decide (ErrVersion = OK)); [done|]. rewrite decide_True by auto. rewrite Hadd.
        split; [done|]. intros _ Hlen Hall. apply IH2; [done| |by inversion Hall].
        cbn [length] in Hlen. lia.
  - destruct (IH ver true m') as [IH1 _]; [lia..|]. split; [done|]. intros _ _ Hall. by inversion Hall.
Qed.

(** [PutAtLeastOnceJson]: every put asks for version 0. *)
Fixpoint PutAtLeastOnceJson `{!Json A} (key : string) (value : A) (rpcs : list (bool * bool)) (ver : Tversion)
    (resend : bool) m : option (Tversion * kvmap) :=
  match rpcs with
  | [] => None
  | (executed, heard) :: rpcs =>
      let '(m, r) := sendPut key (Marshal value) 0 resend executed heard m in
      match r with
      | None => PutAtLeastOnceJson key value rpcs ver true m
      | Some err =>
          if decide (err = ErrMaybe) then PutAtLeastOnceJson key value rpcs (u64_add ver 1) false m
          else Some (ver, m)
      end
  end.

(** PutAtLeastOnceJson does not put to a key that exists: it asks for version 0
    whatever version it was called with, and takes the refusal for an answer. *)
Theorem PutAtLeastOnceJson_keeps_old `{!Json A} key (value : A) rpcs ver resend m w ver' m' :
  m !! key = Some w → 0 < Version w →
  PutAtLeastOnceJson key value rpcs ver resend m = Some (ver', m') → m' = m.
Proof.
  intros Hm Hw. revert ver resend. induction rpcs as [|[executed heard] rpcs IH]; intros ver resend; [done|].
  cbn [PutAtLeastOnceJson]. unfold sendPut. destruct executed; [|apply IH].
  assert (kv_put m key (Marshal value) 0 = (m, ErrVersion)) as ->.
  { destruct (kv_put_cases m key (Marshal value) 0) as [[_ E]|[(-> & _)|(_ & E & _)]]; [|done|congruence].
    unfold kv_version in E. rewrite Hm in E. lia. }
  destruct heard; [|apply IH]. case_decide; [apply IH|by intros [= _ <-]].
Qed.

(** ** Keys spread over the shards *)

Definition CheckGet (key value : string) (version : Tversion) m : outcome unit :=
  let r := kv_get m key in
  if decide (get_Err r ≠ OK) then Panic (Fatal "Get returns error")
  else if decide (get_Value r ≠ value ∨ get_Version r ≠ version) then Panic (Fatal "Get returns another value")
  else Ret tt.

Definition MakeKeys (n : nat) : list string := (λ i, "k" +:+ pretty i) <$> seq 0 n.

(** [SpreadPutsSize] with the random values [va]. *)
Definition spreadPuts (kvs : list (string * string)) m : kvmap :=
  foldl (λ m p, (kv_put m p.1 p.2 0).1) m kvs.

Fixpoint checkAll (kvs : list (string * string)) m : outcome unit :=
  match kvs with
  | [] => Ret tt
  | (k, v) :: kvs => _ ← CheckGet k v 1 m; checkAll kvs m
  end.

Definition SpreadPutsSize (va : list string) m : outcome (list string * list string * kvmap) :=
  let ka := MakeKeys (length va) in
  let m := spreadPuts (zip ka va) m in
  _ ← checkAll (zip ka va) m;
  Ret (ka, va, m).

Lemma MakeKeys_NoDup n : NoDup (MakeKeys n).
Proof.
  unfold MakeKeys. apply NoDup_fmap_2; [|apply NoDup_seq].
  intros i j H. apply (inj (String.append "k")) in H. by apply (inj pretty) in H.
Qed.

Lemma spreadPuts_spec kvs m k v :
  NoDup kvs.*1 → (∀ k, k ∈ kvs.*1 → m !! k = None) → (k, v) ∈ kvs →
  spreadPuts kvs m !! k = Some (mkVV v 1).
Proof.
  assert (∀ kvs m k, k ∉ kvs.*1 → spreadPuts kvs m !! k = m !! k) as Hother.
  { clear. intros kvs. induction kvs as [|[k0 v0] kvs IH]; intros m k Hk; [done|].
    change (spreadPuts kvs (kv_put m k0 v0 0).1 !! k = m !! k). cbn in Hk.
    rewrite IH, kv_put_other; [done| |]; set_solver. }
  revert m. induction kvs as [|[k0 v0] kvs IH]; intros m Hnd Hm Hin; [by apply elem_of_nil in Hin|].
  change (spreadPuts kvs (kv_put m k0 v0 0).1 !! k = Some (mkVV v 1)).
  cbn in Hnd. apply NoDup_cons in Hnd as [Hk0 Hnd].
  assert (m !! k0 = None) as Hm0 by (apply Hm; by left).
  apply elem_of_cons in Hin as [[= -> ->]|Hin].
  - rewrite Hother by done. unfold kv_put, kv_put_err. rewrite Hm0. cbn. apply lookup_insert_eq.
  - apply IH; [done| |done]. intros k1 Hk1. rewrite kv_put_other; [apply Hm; by right|]. intros ->. done.
Qed.

(** Spread puts pass: on a store without these keys, putting a value to each of
    them and reading them back never ends the test. *)
Theorem SpreadPuts_pass va m :
  (∀ k, k ∈ MakeKeys (length va) → m !! k = None) →
  ∃ m', SpreadPutsSize va m = Ret (MakeKeys (length va), va, m') ∧
    ∀ k v, (k, v) ∈ zip (MakeKeys (length va)) va → m' !! k = Some (mkVV v 1).
Proof.
  intros Hm. unfold SpreadPutsSize.
  assert ((zip (MakeKeys (length va)) va).*1 = MakeKeys (length va)) as Hfst.
  { apply fst_zip. unfold MakeKeys. rewrite length_fmap, length_seq. done. }
  set (kvs := zip (MakeKeys (length va)) va) in *.
  assert (∀ k v, (k, v) ∈ kvs → spreadPuts kvs m !! k = Some (mkVV v 1)) as Hget.
  { intros k v. apply spreadPuts_spec; rewrite Hfst; [apply MakeKeys_NoDup|done]. }
  assert (∀ l, (∀ k v, (k, v) ∈ l → spreadPuts kvs m !! k = Some (mkVV v 1)) →
    checkAll l (spreadPuts kvs m) = Ret tt) as Hall.
  { induction l as [|[k v] l IH]; intros H; [done|]. cbn [checkAll]. unfold CheckGet, kv_get.
    rewrite (H k v) by (by left). cbn. destruct (decide (OK ≠ OK)); [done|].
    destruct (decide (v ≠ v ∨ 1 ≠ 1)) as [[?|?]|_]; [done..|]. cbn. apply IH. intros k' v' ?. apply H. by right. }
  rewrite Hall by done. cbn. eexists. split; [done|done].
Qed.
End workload.

(** ** The checks at work *)

#[global] Instance EntryN_eq_dec : EqDecision EntryN.
Proof. solve_decision. Defined.
#[global] Instance EntryN_countable : Countable EntryN.
Proof. by refine (inj_countable' (λ e, (Id e, N e)) (λ p, mkEntryN p.1 p.2) _); intros []. Defined.
#[global] Instance EntryV_eq_dec : EqDecision EntryV.
Proof. solve_decision. Defined.
#[global] Instance EntryV_countable : Countable EntryV.
Proof. by refine (inj_countable' (λ e, (EId e, EV e)) (λ p, mkEntryV p.1 p.2) _); intros []. Defined.

(** Text of any countable value: the digits of its number. *)
Definition digits_Unmarshal `{Countable A} (t : string) : option A := p ← pos_of_text t; decode p.

Lemma digits_Unmarshal_Marshal `{Countable A} (a : A) : digits_Unmarshal (text_of_pos (encode a)) = Some a.
Proof. unfold digits_Unmarshal. rewrite pos_of_text_of_pos. apply decode_encode. Qed.

#[local] Instance digits_json `{Countable A} : Json A :=
  Build_Json A (λ a, text_of_pos (encode a)) digits_Unmarshal digits_Unmarshal_Marshal.

(** Client 0's first append is executed but its reply is lost; client 1 reads
    before that and is refused. *)
Definition append_labels : list (nat * ALabel) :=
  [(0%nat, ARun); (1%nat, ARun); (0%nat, ARead); (1%nat, ARead); (0%nat, ASend true false);
   (1%nat, ASend true true); (0%nat, ASend true true); (1%nat, ARead); (1%nat, ASend true true);
   (0%nat, ARun); (0%nat, ARead); (0%nat, ASend true true); (0%nat, ADone); (1%nat, ADone)].

Lemma append_run :
  (t ← atRun append_labels (atStart 2); Some (at_clients t)) =
  Some [mkAClient 2 (mkRes 1 1) AStopped; mkAClient 1 (mkRes 1 0) AStopped].
Proof. vm_compute. reflexivity. Qed.

Lemma CheckAppends_exact_witness :
  CheckAppends map_to_list [mkEntryN 0 0; mkEntryN 1 0; mkEntryN 0 1] 2 [mkRes 1 1; mkRes 1 0] 4 = Ret tt ↔
  i64 4 = 4 ∧ ∀ c res, [mkRes 1 1; mkRes 1 0] !! c = Some res →
    allowed [mkEntryN 0 0; mkEntryN 1 0; mkEntryN 0 1] (Z.of_nat c) res.
Proof.
  apply (CheckAppends_exact map_to_list [mkEntryN 0 0; mkEntryN 1 0; mkEntryN 0 1] 2 [mkRes 1 1; mkRes 1 0] 4).
  - reflexivity.
  - reflexivity.
  - intros e He. rewrite !elem_of_cons in He.
    destruct He as [->|[->|[->|He]]]; [cbn; lia..|by apply elem_of_nil in He].
Defined.

Lemma appends_pass_witness : ∃ t es ver, atRun append_labels (atStart 2) = Some t ∧
  GetJson "k" (at_map t) = Ret (es, ver) ∧
  CheckAppends map_to_list es 2 (ac_res <$> at_clients t) ver = Ret tt.
Proof.
  pose proof append_run as H. apply bind_Some in H as (t & Ht & H). injection H as H.
  destruct (appends_pass map_to_list 2 append_labels t (λ x, reflexivity _) ltac:(vm_compute; reflexivity) Ht)
    as [_ Hpass].
  destruct Hpass as (es & ver & H1 & H2).
  - rewrite H. intros [|[|i]] c Hc; [injection Hc as <-; reflexivity..|discriminate Hc].
  - exists t, es, ver. split_and!; assumption.
Defined.

Definition put_labels : list (nat * PLabel) :=
  [(0%nat, PRun); (1%nat, PRun); (0%nat, PSend true true); (1%nat, PSend true true); (0%nat, PRead);
   (1%nat, PRead); (1%nat, PSend true true); (1%nat, PRead); (0%nat, PDone); (1%nat, PDone)].

Lemma put_run :
  (t ← ptRun "k" put_labels (ptStart 2); Some (pt_clients t)) =
  Some [mkPClient 1 (mkRes 1 0) PStopped; mkPClient 2 (mkRes 1 0) PStopped].
Proof. vm_compute. reflexivity. Qed.

Lemma puts_pass_witness : ∃ t, ptRun "k" put_labels (ptStart 2) = Some t ∧
  returns (CheckPutConcurrent "k" (pv_res <$> pt_clients t) (mkRes 0 0) true (pt_map t)).
Proof.
  pose proof put_run as H. apply bind_Some in H as (t & Ht & H). injection H as H.
  destruct (puts_pass true "k" 2 put_labels t ltac:(vm_compute; reflexivity)) as [_ Hpass].
  - intros _. repeat constructor.
  - exact Ht.
  - exists t. split; [assumption|]. apply Hpass.
    + rewrite H. intros [|[|i]] c Hc; [injection Hc as <-; reflexivity..|discriminate Hc].
    + rewrite H. exists 0%nat. eexists. split; [reflexivity|]. vm_compute. reflexivity.
Defined.

Lemma put_at_least_once_witness :
  is_Some (PutAtLeastOnce "x" "new" [(true, true); (true, true)] 1 false {["x" := mkVV "old" 2]}).
Proof.
  apply (put_at_least_once "x" "new" [(true, true); (true, true)] 1 false {["x" := mkVV "old" 2]}).
  - vm_compute. split; discriminate.
  - vm_compute. reflexivity.
  - reflexivity.
  - vm_compute. reflexivity.
  - repeat constructor.
Defined.

(** The check of the value read back passes a value of another client.  [OnePut]
    that got OK for version 0 and reads version 1 back fails only if both the
    client and the version of the value are wrong, so that a server that stored
    client 7's value for client 0's put is not noticed. *)
Theorem OnePut_accepts_foreign_value :
  putStep "k" 0 PRead (mkPClient 0 (mkRes 0 0) (PGet 0 OK)) {["k" := mkVV (Marshal (mkEntryV 7 0)) 1]} =
  Some (mkPClient 1 (mkRes 1 0) PSelect, {["k" := mkVV (Marshal (mkEntryV 7 0)) 1]}).
Proof. vm_compute. reflexivity. Qed.
