(* ===== verification/Annotate.v ===== *)
(** * Annotate: annotations of a test run

    Models [src/src/tester/annotation.go] and the end of a test in
    [src/src/kvtest/porcupine.go]: the annotations that the tester collects for
    the picture of a run, the faults it knows of, and when a picture is drawn.
    Times are arguments; files and the environment variables too.

    [fault_annotation_current]: the annotation of faults always shows the faults
    that were reported last.  [continuous_tiles]: continuous annotations of a
    tag follow each other without gap or overlap.  [cleanup_draws]: when the
    end of a test draws a picture.  [end_without_begin], [checker_not_reset] and
    [passing_history_not_drawn] are places where the code does not do what its
    comments say. *)

From stdpp Require Import pretty.
From S2P Require Import Prelude.

#[local] Open Scope string_scope.
#[local] Open Scope list_scope.
#[local] Open Scope Z_scope.

(** ** State *)

(** [porcupine.Annotation]; a point has no end. *)
Record Ann := mkAnn {
  Tag : string; Start : Z; End_ : Z; Description : string; Details : string; BackgroundColor : string }.

Record Continuous := mkContinuous { ct_start : Z; ct_desp : string; ct_details : string; ct_bgcolor : string }.

Record Annotation := mkAnnotation_ {
  annotations : list Ann; continuous : gmap string Continuous; finalized : bool }.

Record CheckerBegin := mkCheckerBegin { cb_ts : Z; cb_details : string }.

Record FrameworkInfo := mkFinfo {
  nservers : nat; connected : list bool; crashed : list bool; ckbegin : CheckerBegin }.

(** The two global variables; [finfo] is nil until [AnnotateTest]. *)
Record AnnState := mkAnnState { annotation : Annotation; finfo : option FrameworkInfo }.

Implicit Types (an : Annotation) (f : FrameworkInfo) (s : AnnState) (t : Z) (tag desp details bgcolor : string).

Definition COLOR_INFO : string := "#FAFAFA".
Definition COLOR_NEUTRAL : string := "#FFECB3".
Definition COLOR_SUCCESS : string := "#C8E6C9".
Definition COLOR_FAILURE : string := "#FFCDD2".
Definition COLOR_FAULT : string := "#B3E5FC".
Definition TAG_CHECKER : string := "$ Checker".
Definition TAG_PARTITION : string := "$ Failure".
Definition TAG_INFO : string := "$ Test Info".

Definition mkAnnotation : Annotation := mkAnnotation_ [] ∅ false.
Definition mkFrameworkInfo (n : nat) : FrameworkInfo :=
  mkFinfo n (replicate n true) (replicate n false) (mkCheckerBegin 0 "").

Definition set_an (g : Annotation → Annotation) s : AnnState := mkAnnState (g (annotation s)) (finfo s).
Definition set_finfo f s : AnnState := mkAnnState (annotation s) (Some f).
Definition set_faults (conn cr : list bool) f : FrameworkInfo := mkFinfo (nservers f) conn cr (ckbegin f).

(** [finfo.mu.Lock()] on a nil pointer panics. *)
Definition get_finfo s : outcome FrameworkInfo :=
  match finfo s with Some f => Ret f | None => Panic NilDeref end.

(** ** Annotations *)

Definition clear an : Annotation := mkAnnotation.

Definition add (a : Ann) an : Annotation := mkAnnotation_ (annotations an ++ [a]) (continuous an) (finalized an).

Definition annotatePointColor t tag desp details bgcolor an : Annotation :=
  add (mkAnn tag t 0 desp details bgcolor) an.

Definition annotateIntervalColor t tag (start : Z) desp details bgcolor an : Annotation :=
  add (mkAnn tag start t desp details bgcolor) an.

(** The annotation a continuous one becomes at its end. *)
Definition concretize tag t (c : Continuous) : Ann :=
  mkAnn tag (ct_start c) t (ct_desp c) (ct_details c) (ct_bgcolor c).

Definition set_continuous (m : gmap string Continuous) an : Annotation :=
  mkAnnotation_ (annotations an) m (finalized an).

Definition annotateContinuousColor t tag desp details bgcolor an : Annotation :=
  match continuous an !! tag with
  | None => set_continuous (<[tag := mkContinuous t desp details bgcolor]> (continuous an)) an
  | Some cont =>
      let an := add (concretize tag t cont) an in
      set_continuous (<[tag := mkContinuous t desp details bgcolor]> (continuous an)) an
  end.

(** A missing entry is read as the zero value. *)
Definition annotateContinuousEnd t tag an : Annotation :=
  let cont := default (mkContinuous 0 "" "" "") (continuous an !! tag) in
  let an := add (concretize tag t cont) an in
  set_continuous (delete tag (continuous an)) an.

(** [order] is the order in which Go ranges over the map. *)
Definition finalize t (order : list (string * Continuous)) an : list Ann * Annotation :=
  (annotations an ++ ((λ p, concretize p.1 t p.2) <$> order),
   mkAnnotation_ (annotations an) (continuous an) true).

Definition FinalizeAnnotations t order (end_ : string) s : list Ann * AnnState :=
  let '(x, an) := finalize t order (annotation s) in
  (x ++ [mkAnn TAG_INFO t 0 end_ end_ COLOR_INFO], mkAnnState an (finfo s)).

Definition SetAnnotationFinalized s : AnnState :=
  set_an (λ an, mkAnnotation_ (annotations an) (continuous an) true) s.

Definition GetAnnotationFinalized s : bool := finalized (annotation s).

(** ** The test framework *)

Definition AnnotateInfo t desp details s : AnnState :=
  set_an (annotatePointColor t TAG_INFO desp details COLOR_INFO) s.

Definition AnnotateTest t desp (n : nat) s : AnnState :=
  let details := desp +:+ " (" +:+ pretty (Z.of_nat n) +:+ " servers)" in
  let s := mkAnnState (clear (annotation s)) (Some (mkFrameworkInfo n)) in
  AnnotateInfo t details details s.

Definition AnnotateCheckerBegin t details s : outcome AnnState :=
  f ← get_finfo s;
  Ret (set_finfo (mkFinfo (nservers f) (connected f) (crashed f) (mkCheckerBegin t details)) s).

(** The last statement of the code resets its local copy only. *)
Definition AnnotateCheckerEnd t desp details color s : outcome AnnState :=
  f ← get_finfo s;
  let ckbegin := ckbegin f in
  if decide (cb_ts ckbegin = 0) then
    Ret (set_an (annotatePointColor t TAG_CHECKER desp details color) s)
  else
    let d := cb_details ckbegin +:+ ": " +:+ details in
    Ret (set_an (annotateIntervalColor t TAG_CHECKER (cb_ts ckbegin) desp d color) s).

(** ** Faults *)

(** [%v] of a slice of numbers. *)
Fixpoint spaced (l : list nat) : string :=
  match l with
  | [] => ""
  | [x] => pretty x
  | x :: l => pretty x +:+ " " +:+ spaced l
  end.
Definition bracketed (l : list nat) : string := "[" +:+ spaced l +:+ "]".

(** The loop over [finfo.connected]: who is connected, who has crashed, and the
    text of the servers that are cut off. *)
Fixpoint scanFaults (id : nat) (conn cr : list bool) : outcome (list nat * list nat * string) :=
  match conn with
  | [] => Ret ([], [], "")
  | c :: conn =>
      x ← index cr (Z.of_nat id);
      '(cs, xs, txt) ← scanFaults (S id) conn cr;
      Ret (if x : bool then (cs, id :: xs, txt)
           else if c : bool then (id :: cs, xs, txt)
           else (cs, xs, "[" +:+ pretty id +:+ "] " +:+ txt))
  end.

Definition faultText f : outcome string :=
  '(cs, xs, txt) ← scanFaults 0 (connected f) (crashed f);
  let b := "partition = " +:+ txt in
  let b := if decide (cs = []) then b else b +:+ bracketed cs in
  Ret (if decide (xs = []) then b else b +:+ " / crash = " +:+ bracketed xs).

Definition healthy f : bool :=
  bool_decide (replicate (nservers f) true = connected f) &&
  bool_decide (replicate (nservers f) false = crashed f).

Definition annotateFault t s : outcome AnnState :=
  f ← get_finfo s;
  if healthy f then Ret (set_an (annotateContinuousEnd t TAG_PARTITION) s)
  else
    text ← faultText f;
    Ret (set_an (annotateContinuousColor t TAG_PARTITION text text COLOR_FAULT) s).

(** Go's [copy]: as much as fits. *)
Definition copyBools (dst src : list bool) : list bool :=
  take (length dst) src ++ drop (length src) dst.

Definition AnnotateConnection t (connection : list bool) s : outcome AnnState :=
  f ← get_finfo s;
  if decide (connected f = connection) then Ret s
  else annotateFault t (set_finfo (set_faults (copyBools (connected f) connection) (crashed f) f) s).

Definition AnnotateTwoPartitions t (p1 p2 : list nat) s : AnnState :=
  let text := "partition = " +:+ bracketed p1 +:+ " " +:+ bracketed p2 in
  set_an (annotateContinuousColor t TAG_PARTITION text text COLOR_FAULT) s.

Definition AnnotateClearFailure t s : outcome AnnState :=
  f ← get_finfo s;
  let f := set_faults ((λ _, true) <$> connected f) ((λ _, false) <$> crashed f) f in
  Ret (set_an (annotateContinuousEnd t TAG_PARTITION) (set_finfo f s)).

(** The loop of [AnnotateShutdown] and [AnnotateRestart]. *)
Fixpoint markCrashed (v : bool) (servers : list Z) (changed : bool) (cr : list bool) : outcome (bool * list bool) :=
  match servers with
  | [] => Ret (changed, cr)
  | id :: servers =>
      x ← index cr id;
      cr ← store cr id v;
      markCrashed v servers (changed || bool_decide (x ≠ v)) cr
  end.

Definition markServers (v : bool) t (servers : list Z) s : outcome AnnState :=
  f ← get_finfo s;
  '(changed, cr) ← markCrashed v servers false (crashed f);
  let s := set_finfo (set_faults (connected f) cr f) s in
  if changed : bool then annotateFault t s else Ret s.

Definition AnnotateShutdown := markServers true.
Definition AnnotateRestart := markServers false.

Definition allServers f : list Z := Z.of_nat <$> seq 0 (nservers f).
Definition AnnotateShutdownAll t s : outcome AnnState := f ← get_finfo s; AnnotateShutdown t (allServers f) s.
Definition AnnotateRestartAll t s : outcome AnnState := f ← get_finfo s; AnnotateRestart t (allServers f) s.

(** ** The end of a test *)

(** [cleanup], when the file can be opened: what is drawn. *)
Definition cleanup t order (failed : bool) (end_ enabled : string) s : option (list Ann) * AnnState :=
  if decide (enabled = "never" ∨ (failed = false ∧ enabled ≠ "always") ∨ GetAnnotationFinalized s = true)
  then (None, set_an clear s)
  else
    let '(x, an) := finalize t order (annotation s) in
    let s := mkAnnState an (finfo s) in
    if decide (x = []) then (None, s) else (Some (x ++ [mkAnn TAG_INFO t 0 end_ end_ COLOR_INFO]), s).

Inductive CheckResult := Legal | Illegal | Unknown.

(** [checkPorcupine], with whether the file for the picture can be opened:
    whether the test fails, and the annotations drawn with the history.  An
    error of the visualiser is only printed. *)
Definition checkPorcupine t order (res : CheckResult) (enabled : string) (opens : bool) s
    : bool * option (list Ann) * AnnState :=
  match res with
  | Illegal =>
      if negb opens then (true, None, s)
      else if decide (enabled = "never") then (true, None, s)
      else let '(x, s) := FinalizeAnnotations t order "test failed" s in (true, Some x, s)
  | _ =>
      if decide (enabled = "always" ∧ GetAnnotationFinalized s = true) then
        if negb opens then (false, None, s)
        else let '(x, s) := FinalizeAnnotations t order "test passed" s in (false, Some x, s)
      else (false, None, s)
  end.

(** ** Faults are shown as they are *)

Inductive FaultOp :=
| FConnection (connection : list bool)
| FShutdown (servers : list Z)
| FRestart (servers : list Z)
| FShutdownAll
| FRestartAll
| FClear.

Definition faultOp t (op : FaultOp) s : outcome AnnState :=
  match op with
  | FConnection connection => AnnotateConnection t connection s
  | FShutdown servers => AnnotateShutdown t servers s
  | FRestart servers => AnnotateRestart t servers s
  | FShutdownAll => AnnotateShutdownAll t s
  | FRestartAll => AnnotateRestartAll t s
  | FClear => AnnotateClearFailure t s
  end.

Fixpoint faultRun (ops : list (Z * FaultOp)) s : outcome AnnState :=
  match ops with
  | [] => Ret s
  | (t, op) :: ops => s ← faultOp t op s; faultRun ops s
  end.

(** Reports about the servers of the test. *)
Definition op_in (n : nat) (op : FaultOp) : Prop :=
  match op with
  | FConnection connection => length connection = n
  | FShutdown servers | FRestart servers => Forall (λ id, 0 ≤ id < Z.of_nat n) servers
  | _ => True
  end.

(** What the operation reports, on who is connected and who has crashed. *)
Definition report (v : bool) (servers : list Z) (cr : list bool) : list bool :=
  foldl (λ cr id, <[Z.to_nat id := v]> cr) cr servers.

Definition reported (n : nat) (op : FaultOp) (p : list bool * list bool) : list bool * list bool :=
  match op with
  | FConnection connection => (connection, p.2)
  | FShutdown servers => (p.1, report true servers p.2)
  | FRestart servers => (p.1, report false servers p.2)
  | FShutdownAll => (p.1, replicate n true)
  | FRestartAll => (p.1, replicate n false)
  | FClear => (replicate n true, replicate n false)
  end.

(** The text shown for faults, if any is shown. *)
Definition shown s : option string := ct_desp <$> continuous (annotation s) !! TAG_PARTITION.

Definition faults_ok (n : nat) (p : list bool * list bool) s : Prop :=
  length p.1 = n ∧ length p.2 = n ∧ ∃ f, finfo s = Some f ∧ nservers f = n ∧
    connected f = p.1 ∧ crashed f = p.2 ∧
    if healthy f then shown s = None else ∃ text, faultText f = Ret text ∧ shown s = Some text.

Lemma scanFaults_returns id conn cr :
  (id + length conn ≤ length cr)%nat → returns (scanFaults id conn cr).
Proof.
  revert id. induction conn as [|c conn IH]; intros id H; cbn in *; [apply returns_ret|].
  apply returns_bind; [apply index_returns; unfold zlen; lia|]. intros x _.
  apply returns_bind; [apply IH; lia|]. intros [[? ?] ?] _. apply returns_ret.
Qed.

Lemma faultText_returns f : length (connected f) = length (crashed f) → returns (faultText f).
Proof.
  intros H. unfold faultText. apply returns_bind; [apply scanFaults_returns; lia|].
  intros [[? ?] ?] _. apply returns_ret.
Qed.

Lemma annotateFault_ok n p t s f :
  finfo s = Some f → length p.1 = n → length p.2 = n → nservers f = n → connected f = p.1 →
  crashed f = p.2 → ∃ s', annotateFault t s = Ret s' ∧ faults_ok n p s'.
Proof.
  intros Hf H1 H2 Hn Hc Hx. unfold annotateFault, get_finfo. rewrite Hf. cbn.
  unfold faults_ok, shown. destruct (healthy f) eqn:Hh.
  - eexists. split; [done|]. split_and!; [done..|]. exists f. cbn. rewrite Hh. split_and!; [done..|].
    by rewrite lookup_delete_eq.
  - destruct (faultText_returns f) as [text Ht]; [congruence|]. rewrite Ht. cbn. eexists. split; [done|].
    split_and!; [done..|]. exists f. cbn. rewrite Hh. split_and!; [done..|]. exists text. split; [done|].
    unfold annotateContinuousColor. destruct (continuous (annotation s) !! TAG_PARTITION); cbn;
      by rewrite lookup_insert_eq.
Qed.

Lemma length_report v servers cr : length (report v servers cr) = length cr.
Proof.
  revert cr. induction servers as [|id servers IH]; intros cr; [done|].
  change (length (report v servers (<[Z.to_nat id := v]> cr)) = length cr). rewrite IH. apply length_insert.
Qed.

Lemma markCrashed_spec v servers changed cr :
  Forall (λ id, 0 ≤ id < zlen cr) servers → ∃ ch,
  markCrashed v servers changed cr = Ret (ch, report v servers cr) ∧
  (ch = false → changed = false ∧ report v servers cr = cr).
Proof.
  revert changed cr. induction servers as [|id servers IH]; intros changed cr H; cbn [markCrashed].
  { exists changed. auto. }
  inversion H as [|? ? Hid Hrest]; subst. destruct (index_returns cr id Hid) as [x Hx]. rewrite Hx. cbn.
  unfold store. rewrite decide_True by done. cbn.
  destruct (IH (changed || bool_decide (x ≠ v)) (<[Z.to_nat id := v]> cr)) as (ch & -> & Hch).
  { unfold zlen. by rewrite length_insert. }
  exists ch. split; [done|]. intros [Hor Heq]%Hch. apply orb_false_iff in Hor as [-> Hxv].
  split; [done|]. apply bool_decide_eq_false in Hxv. apply dec_stable in Hxv. subst v.
  unfold report in *. cbn. rewrite Heq. apply list_insert_id. by apply index_Ret in Hx as [_ ?].
Qed.

Lemma markServers_ok v n p t servers s :
  faults_ok n p s → Forall (λ id, 0 ≤ id < Z.of_nat n) servers →
  ∃ s', markServers v t servers s = Ret s' ∧ faults_ok n (p.1, report v servers p.2) s'.
Proof.
  intros (H1 & H2 & f & Hf & Hn & Hc & Hx & Hsh) Hin. unfold markServers, get_finfo. rewrite Hf. cbn [mbind outcome_bind].
  destruct (markCrashed_spec v servers false (crashed f)) as (ch & -> & Hch).
  { rewrite Hx. unfold zlen. by rewrite H2. }
  cbn [mbind outcome_bind]. destruct ch.
  - apply (annotateFault_ok n (p.1, report v servers p.2) t _ (set_faults (connected f) (report v servers (crashed f)) f));
      cbn; rewrite ?length_report, ?Hx; done.
  - destruct (Hch eq_refl) as [_ Heq]. rewrite Hx in Heq. rewrite Hx, Heq. eexists. split; [done|].
    split_and!; [done..|]. exists (set_faults (connected f) p.2 f). cbn.
    rewrite <-Hx. destruct f; cbn in *. by split_and!.
Qed.

Lemma report_all v n cr : length cr = n → report v (Z.of_nat <$> seq 0 n) cr = replicate n v.
Proof.
  intros Hlen. assert (∀ k cr, (k ≤ length cr)%nat → report v (Z.of_nat <$> seq 0 k) cr = replicate k v ++ drop k cr) as H.
  { clear. intros k. induction k as [|k IH]; intros cr Hk; [done|].
    rewrite seq_S, fmap_app. unfold report in *. rewrite foldl_app, IH by lia.
    rewrite replicate_S_end, <-app_assoc. cbn [foldl fmap list_fmap]. rewrite Nat2Z.id.
    rewrite insert_app_r_alt by (rewrite length_replicate; lia). rewrite length_replicate, Nat.sub_diag.
    f_equal. destruct (lookup_lt_is_Some_2 cr k) as [x Hx]; [lia|]. by rewrite (drop_S _ _ _ Hx). }
  rewrite H by lia. by rewrite drop_ge, app_nil_r by lia.
Qed.

Lemma faultOp_ok n p t op s :
  faults_ok n p s → op_in n op → ∃ s', faultOp t op s = Ret s' ∧ faults_ok n (reported n op p) s'.
Proof.
  intros Hok Hin. pose proof Hok as (H1 & H2 & f & Hf & Hn & Hc & Hx & Hsh).
  destruct op as [connection|servers|servers| | |]; cbn [faultOp reported op_in] in *.
  - unfold AnnotateConnection, get_finfo. rewrite Hf. cbn [mbind outcome_bind]. case_decide as He.
    + exists s. split; [done|]. rewrite <-He, Hc. by destruct p.
    + apply (annotateFault_ok n (connection, p.2) t _ (set_faults (copyBools (connected f) connection) (crashed f) f));
        cbn; try done. unfold copyBools. rewrite Hc, H1, <-Hin. by rewrite firstn_all, drop_ge, app_nil_r by lia.
  - by apply markServers_ok.
  - by apply markServers_ok.
  - unfold AnnotateShutdownAll, get_finfo. rewrite Hf. cbn [mbind outcome_bind]. unfold allServers. rewrite Hn.
    rewrite <-(report_all true n p.2) by done. apply markServers_ok; [done|].
    apply Forall_fmap, Forall_seq. intros j Hj. cbn. lia.
  - unfold AnnotateRestartAll, get_finfo. rewrite Hf. cbn [mbind outcome_bind]. unfold allServers. rewrite Hn.
    rewrite <-(report_all false n p.2) by done. apply markServers_ok; [done|].
    apply Forall_fmap, Forall_seq. intros j Hj. cbn. lia.
  - unfold AnnotateClearFailure, get_finfo. rewrite Hf. cbn [mbind outcome_bind]. eexists. split; [done|].
    assert (∀ (b : bool) (l : list bool), (λ _, b) <$> l = replicate (length l) b) as Hrep.
    { intros b l. induction l as [|x l IH]; [done|]. cbn. by rewrite IH. }
    split_and!; [apply length_replicate..|]. eexists. split; [done|]. cbn.
    rewrite !Hrep, Hc, Hx, H1, H2. split_and!; [done..|]. unfold healthy, shown. cbn. rewrite Hn.
    rewrite !bool_decide_eq_true_2 by done. cbn. by rewrite lookup_delete_eq.
Qed.

(** Faults are shown as they are.  Whatever is reported of the servers of a
    test after AnnotateTest (connections, shutdowns, restarts, the end of all
    failures), no report panics, and the continuous annotation of failures shows
    the faults in force: none exactly when all servers are connected and none
    has crashed, and otherwise the text of who is connected and who has crashed,
    as the last reports said. *)
Theorem fault_annotation_current n t0 desp s0 ops :
  Forall (λ o, op_in n o.2) ops →
  ∃ s f text, faultRun ops (AnnotateTest t0 desp n s0) = Ret s ∧ finfo s = Some f ∧
    (connected f, crashed f) = foldl (λ p o, reported n o.2 p) (replicate n true, replicate n false) ops ∧
    faultText f = Ret text ∧
    shown s = if decide (connected f = replicate n true ∧ crashed f = replicate n false) then None else Some text.
Proof.
  intros Hops.
  assert (∀ p s, faults_ok n p s → ∃ s', faultRun ops s = Ret s' ∧ faults_ok n (foldl (λ p o, reported n o.2 p) p ops) s') as Hrun.
  { induction Hops as [|[t op] ops Hin _ IH]; intros p s Hok; cbn; [by exists s|].
    destruct (faultOp_ok n p t op s Hok Hin) as (s1 & -> & Hok1). cbn. by apply IH. }
  destruct (Hrun (replicate n true, replicate n false) (AnnotateTest t0 desp n s0)) as (s & Hs & H1 & H2 & f & Hf & Hn & Hc & Hx & Hsh).
  { split_and!; [apply length_replicate..|]. eexists. split_and!; [done..|]. unfold healthy. cbn.
    by rewrite !bool_decide_eq_true_2 by done. }
  destruct (faultText_returns f) as [text Ht]; [congruence|]. exists s, f, text.
  rewrite Hc, Hx, <-surjective_pairing. split_and!; [done..|]. unfold healthy in Hsh. rewrite Hn, Hc, Hx in Hsh.
  set (p := foldl _ _ ops) in *. clearbody p.
  destruct (decide (p.1 = replicate n true ∧ p.2 = replicate n false)) as [[Hd1 Hd2]|Hd].
  - rewrite Hd1, Hd2, !bool_decide_eq_true_2 in Hsh by done. done.
  - assert (bool_decide (replicate n true = p.1) && bool_decide (replicate n false = p.2) = false) as Hh.
    { apply andb_false_iff. rewrite !bool_decide_eq_false.
      destruct (decide (replicate n true = p.1)); [right|by left]. intros ?. by apply Hd. }
    rewrite Hh in Hsh. destruct Hsh as (text' & Ht' & ->). congruence.
Qed.

(** ** Continuous annotations *)

(** A call of [AnnotateContinuousColor]: when, for which tag, and what. *)
Record ContCall := mkContCall { cc_time : Z; cc_tag : string; cc_desp : string; cc_details : string; cc_color : string }.

Definition contRun (calls : list ContCall) an : Annotation :=
  foldl (λ an c, annotateContinuousColor (cc_time c) (cc_tag c) (cc_desp c) (cc_details c) (cc_color c) an) an calls.

Definition cont_of (c : ContCall) : Continuous := mkContinuous (cc_time c) (cc_desp c) (cc_details c) (cc_color c).

(** Each one lasts until the next. *)
Definition closed tag (l : list ContCall) : list Ann :=
  zip_with (λ c c', concretize tag (cc_time c') (cont_of c)) l (tail l).

Definition tiles tag (l : list ContCall) t : list Ann :=
  closed tag l ++ match last l with Some c => [concretize tag t (cont_of c)] | None => [] end.

Lemma closed_snoc tag l c : closed tag (l ++ [c]) = tiles tag l (cc_time c).
Proof.
  unfold tiles, closed. destruct l as [|x l]; [done|]. set (g := λ c c', concretize _ _ _).
  change (zip_with g (x :: l ++ [c]) (l ++ [c]) = zip_with g (x :: l) l ++
    match last (x :: l) with Some c0 => [g c0 c] | None => [] end).
  revert x. induction l as [|y l IH]; intros x; [done|]. rewrite last_cons_cons.
  change (g x y :: zip_with g (y :: l ++ [c]) (l ++ [c]) = g x y :: (zip_with g (y :: l) l ++
    match last (y :: l) with Some c0 => [g c0 c] | None => [] end)). f_equal. apply IH.
Qed.

Lemma contRun_spec tag calls :
  let an := contRun calls mkAnnotation in let l := filter (λ c, cc_tag c = tag) calls in
  filter (λ a, Tag a = tag) (annotations an) = closed tag l ∧ continuous an !! tag = cont_of <$> last l.
Proof.
  induction calls as [|c calls IH] using rev_ind; [done|]. cbn zeta in *. destruct IH as [IH1 IH2].
  unfold contRun in *. rewrite foldl_app, filter_app. cbn [foldl].
  set (an := foldl _ mkAnnotation calls) in *. unfold annotateContinuousColor.
  rewrite (filter_cons _ c []). destruct (decide (cc_tag c = tag)) as [Ht|Ht].
  - rewrite filter_nil. rewrite closed_snoc, last_snoc. unfold tiles. rewrite Ht, IH2.
    destruct (last (filter _ calls)) as [c0|]; cbn [fmap option_fmap option_map].
    + cbn. rewrite lookup_insert_eq, filter_app, filter_cons, decide_True by done. by rewrite IH1.
    + cbn. rewrite lookup_insert_eq. by rewrite IH1, app_nil_r.
  - rewrite filter_nil, app_nil_r. destruct (continuous an !! cc_tag c) as [cont|]; cbn.
    + rewrite lookup_insert_ne, filter_app, filter_cons, decide_False by done. by rewrite filter_nil, app_nil_r.
    + by rewrite lookup_insert_ne by done.
Qed.

Lemma filter_order tag t (m : gmap string Continuous) order :
  order ≡ₚ map_to_list m →
  filter (λ a, Tag a = tag) ((λ p, concretize p.1 t p.2) <$> order) =
  match m !! tag with Some c => [concretize tag t c] | None => [] end.
Proof.
  intros Hperm. assert (filter (λ p, p.1 = tag) order = match m !! tag with Some c => [(tag, c)] | None => [] end) as H.
  { assert (NoDup order.*1) as Hnd by (rewrite Hperm; apply NoDup_fst_map_to_list).
    assert (∀ p, p ∈ order ↔ m !! p.1 = Some p.2) as Hin.
    { intros [k c]. by rewrite Hperm, elem_of_map_to_list. }
    destruct (m !! tag) as [c|] eqn:E.
    - assert ((tag, c) ∈ order) as (l1 & l2 & ->)%list_elem_of_split by by apply Hin.
      rewrite fmap_app, fmap_cons in Hnd. apply NoDup_app in Hnd as (_ & Hd & Hnd). apply NoDup_cons in Hnd as [Hn2 _].
      cbn in *. rewrite filter_app, filter_cons, decide_True by done.
      rewrite !filter_drop; [done|..].
      + intros [k c'] Hk Heq. cbn in Heq. subst k. apply Hn2, list_elem_of_fmap. by exists (tag, c').
      + intros [k c'] Hk Heq. cbn in Heq. subst k. apply (Hd tag); [apply list_elem_of_fmap; by exists (tag, c')|by left].
    - apply filter_drop. intros [k c] Hk Heq. cbn in Heq. subst k. apply Hin in Hk. cbn in *. congruence. }
  assert (∀ l : list (string * Continuous), filter (λ a, Tag a = tag) ((λ p, concretize p.1 t p.2) <$> l) =
    (λ p, concretize p.1 t p.2) <$> filter (λ p, p.1 = tag) l) as ->.
  { induction l as [|p l IH]; [done|]. rewrite fmap_cons, !filter_cons, IH. cbn. by destruct (decide (p.1 = tag)). }
  rewrite H. by destruct (m !! tag).
Qed.

(** Continuous annotations tile the time.  After any calls of
    AnnotateContinuousColor, on this tag and on others, the annotations of a
    finalized run that carry the tag are the calls for it in order, each lasting
    until the next, and the last one until the end: without gap or overlap, and
    whatever the order in which Go ranges over the map. *)
Theorem continuous_tiles tag calls t order :
  order ≡ₚ map_to_list (continuous (contRun calls mkAnnotation)) →
  filter (λ a, Tag a = tag) (finalize t order (contRun calls mkAnnotation)).1 =
  tiles tag (filter (λ c, cc_tag c = tag) calls) t.
Proof.
  intros Hperm. unfold finalize, tiles. cbn. destruct (contRun_spec tag calls) as [H1 H2].
  rewrite filter_app, H1, (filter_order _ _ _ _ Hperm), H2. by destruct (last _).
Qed.

(** ** The end of a test *)

(** When the end of a test draws a picture.  cleanup draws exactly when drawing
    is not switched off, the test failed or drawing is always wanted, nothing was
    drawn before, and there is something to draw; it then draws every annotation
    made, and no later cleanup draws again. *)
Theorem cleanup_draws t order failed end_ enabled s :
  order ≡ₚ map_to_list (continuous (annotation s)) →
  let '(drawn, s') := cleanup t order failed end_ enabled s in
  (is_Some drawn ↔ enabled ≠ "never" ∧ (failed = true ∨ enabled = "always") ∧ GetAnnotationFinalized s = false ∧
     (annotations (annotation s) ≠ [] ∨ continuous (annotation s) ≠ ∅)) ∧
  ∀ x, drawn = Some x → (∀ a, a ∈ annotations (annotation s) → a ∈ x) ∧
    ∀ t' order' failed' end' enabled', (cleanup t' order' failed' end' enabled' s').1 = None.
Proof.
  intros Hperm. unfold cleanup. case_decide as Hd.
  - split; [|done]. split; [by intros [? ?]|]. intros (? & ? & Hf & _). exfalso.
    destruct Hd as [?|[[? ?]|?]]; [done|naive_solver|congruence].
  - cbn. set (x := annotations (annotation s) ++ _).
    assert (x = [] ↔ annotations (annotation s) = [] ∧ continuous (annotation s) = ∅) as Hx.
    { unfold x. rewrite app_nil. split; intros [-> H]; (split; [done|]).
      - apply fmap_nil_inv in H. rewrite H in Hperm. symmetry in Hperm.
        by apply Permutation_nil_r, map_to_list_empty_iff in Hperm.
      - rewrite H, map_to_list_empty in Hperm. apply Permutation_nil_r in Hperm. by rewrite Hperm. }
    destruct (decide (x = [])) as [He|He].
    + split; [|done]. split; [by intros [? ?]|]. apply Hx in He as [-> ->]. naive_solver.
    + split.
      * split; [intros _|by eexists]. destruct (GetAnnotationFinalized s) eqn:Hf; [destruct Hd; naive_solver|].
        split_and!; [intros ?; destruct Hd; by left| |done|].
        -- destruct failed; [by left|right]. destruct (decide (enabled = "always")); [done|]. destruct Hd. auto.
        -- destruct (decide (annotations (annotation s) = [])) as [Ha|Ha]; [right|by left]. intros ?. by apply He, Hx.
      * intros y [= <-]. split.
        -- intros a Ha. apply elem_of_app. left. apply elem_of_app. by left.
        -- intros. rewrite decide_True by auto. done.
Qed.

(** ** Where the code differs from its comments *)

(** Ending what was not begun.  annotateContinuousEnd says that there is nothing
    to end when a tag has no annotation going on, but goes on and records an
    empty annotation that begins at time 0: on a test without any failure,
    AnnotateClearFailure leaves one. *)
Theorem end_without_begin n t0 t1 desp s0 : ∃ s,
  AnnotateClearFailure t1 (AnnotateTest t0 desp n s0) = Ret s ∧
  last (annotations (annotation s)) = Some (mkAnn TAG_PARTITION 0 t1 "" "" "").
Proof. eexists. split; [done|]. done. Qed.

(** The begin of a checker is not reset.  AnnotateCheckerEnd resets its own copy
    of the begin: a later end without a begin of its own is recorded as an
    interval from the old begin, not as a point. *)
Theorem checker_not_reset t1 t2 t3 n desp s0 d1 e2 d2 e3 d3 : t1 ≠ 0 → ∃ s,
  (s ← AnnotateCheckerBegin t1 d1 (AnnotateTest 0 desp n s0);
   s ← AnnotateCheckerEnd t2 e2 d2 COLOR_SUCCESS s;
   AnnotateCheckerEnd t3 e3 d3 COLOR_SUCCESS s) = Ret s ∧
  last (annotations (annotation s)) = Some (mkAnn TAG_CHECKER t1 t3 e3 (d1 +:+ ": " +:+ d3) COLOR_SUCCESS).
Proof.
  intros H. unfold AnnotateCheckerBegin, AnnotateCheckerEnd. cbn. destruct (decide (t1 = 0)); [done|]. cbn.
  destruct (decide (t1 = 0)); [done|]. eexists. split; [done|]. done.
Qed.

(** A history that passes is never drawn.  checkPorcupine draws a history that
    is not refused only when a picture was made before, although VIS_ENABLE asks
    for a picture of every test; what cleanup draws later has no operations. *)
Theorem passing_history_not_drawn t order res enabled opens s :
  res ≠ Illegal → GetAnnotationFinalized s = false → checkPorcupine t order res enabled opens s = (false, None, s).
Proof. intros Hres Hf. destruct res; [|done|]; cbn; by rewrite decide_False by (rewrite Hf; naive_solver). Qed.

(** ** The theorems at work *)

Definition annEmpty : AnnState := mkAnnState mkAnnotation None.

Definition sample_faults : list (Z * FaultOp) :=
  [(1, FShutdown [2]); (2, FConnection [true; false; true]); (3, FRestartAll)].

Lemma fault_annotation_current_witness : ∃ s,
  faultRun sample_faults (AnnotateTest 0 "demo" 3 annEmpty) = Ret s ∧ shown s = Some "partition = [1] [0 2]".
Proof.
  destruct (fault_annotation_current 3 0 "demo" annEmpty sample_faults) as (s & f & text & Hs & Hf & Hc & Ht & Hsh).
  - repeat constructor; cbn; lia.
  - exists s. split; [exact Hs|].
    assert (connected f = [true; false; true]) as Hcon by exact (f_equal fst Hc).
    assert (crashed f = [false; false; false]) as Hcr by exact (f_equal snd Hc).
    rewrite Hsh, Hcon, Hcr. unfold faultText in Ht. rewrite Hcon, Hcr in Ht. vm_compute in Ht. injection Ht as <-.
    vm_compute. reflexivity.
Defined.

Definition sample_calls : list ContCall :=
  [mkContCall 1 "a" "x" "" ""; mkContCall 2 "b" "y" "" ""; mkContCall 5 "a" "z" "" ""].

Lemma continuous_tiles_witness :
  filter (λ a, Tag a = "a") (finalize 9 (map_to_list (continuous (contRun sample_calls mkAnnotation)))
    (contRun sample_calls mkAnnotation)).1 = [mkAnn "a" 1 5 "x" "" ""; mkAnn "a" 5 9 "z" "" ""].
Proof. rewrite (continuous_tiles "a" sample_calls 9); [vm_compute; reflexivity|reflexivity]. Defined.

Lemma cleanup_draws_witness :
  is_Some (cleanup 9 [] true "failed" "" (AnnotateTest 0 "demo" 3 annEmpty)).1.
Proof.
  pose proof (cleanup_draws 9 [] true "failed" "" (AnnotateTest 0 "demo" 3 annEmpty)
    ltac:(vm_compute; reflexivity)) as H.
  destruct (cleanup 9 [] true "failed" "" (AnnotateTest 0 "demo" 3 annEmpty)) as [drawn s'].
  apply H. split; [discriminate|]. split; [left; reflexivity|]. split; [reflexivity|]. left. discriminate.
Defined.

Lemma checker_not_reset_witness : ∃ s,
  last (annotations (annotation s)) = Some (mkAnn TAG_CHECKER 1 3 "later" ("first: " +:+ "OK") COLOR_SUCCESS).
Proof.
  destruct (checker_not_reset 1 2 3 3 "demo" annEmpty "first" "done" "OK" "later" "OK" ltac:(lia)) as (s & _ & H).
  exists s. exact H.
Defined.

Lemma passing_history_not_drawn_witness :
  checkPorcupine 9 [] Legal "always" true (AnnotateTest 0 "demo" 3 annEmpty) =
  (false, None, AnnotateTest 0 "demo" 3 annEmpty).
Proof. apply passing_history_not_drawn; [discriminate|reflexivity]. Defined.
