(* ===== verification/Labgob.v ===== *)
(** * Labgob: the checks around the encoder

    Models [src/src/labgob/gob.go]: before a value is encoded or registered, its
    type is searched for fields that the encoder would silently skip; before one
    is decoded into a variable, the variable is searched for values that the
    decoder would silently keep.  Types form a graph, which is cyclic for
    recursive types; [checked] marks the types that were searched.  The encoder
    itself is the class [Codec] of [Prelude].

    [checkType_correct]: the search ends, looks at every type that can be reached
    and was not searched before, and counts each lower-case field once.
    [checkDefault_exact]: which variables are reported. *)

From S2P Require Import Prelude.

Section labgob.
(** Go's [unicode.IsUpper] on the first character of a name. *)
Context (IsUpper : string → bool).

(** ** Types *)

Abbreviation Tid := positive.

(** [reflect.Kind] as the code tells kinds apart. *)
Inductive Kind :=
| KStruct (fields : list (string * Tid))
| KElem (t : Tid)                (* slice, array, pointer *)
| KMap (elem key : Tid)
| KOther.

Context (kind : Tid → Kind).

(** [checked] and [errorCount]. *)
Record Lab := mkLab { checked : gset Tid; errorCount : Z }.
Implicit Types (l : Lab) (t u : Tid) (fs : list (string * Tid)) (c : gset Tid).

Definition complain (name : string) l : Lab :=
  if IsUpper name then l else mkLab (checked l) (errorCount l + 1).

(** The loop over the fields, given the recursive call. *)
Fixpoint checkFields (check : Tid → Lab → option Lab) fs l : option Lab :=
  match fs with
  | [] => Some l
  | (name, t) :: fs => l ← check t (complain name l); checkFields check fs l
  end.

Fixpoint checkType (fuel : nat) t l : option Lab :=
  match fuel with
  | O => None
  | S fuel =>
      if decide (t ∈ checked l) then Some l
      else
        let l := mkLab ({[t]} ∪ checked l) (errorCount l) in
        match kind t with
        | KStruct fields => checkFields (checkType fuel) fields l
        | KElem e => checkType fuel e l
        | KMap e k => l ← checkType fuel e l; checkType fuel k l
        | KOther => Some l
        end
  end.

(** ** The search *)

Definition succs t : list Tid :=
  match kind t with
  | KStruct fields => fields.*2
  | KElem e => [e]
  | KMap e k => [e; k]
  | KOther => []
  end.

Definition lowerFields fs : Z := Z.of_nat (length (filter (λ f, IsUpper f.1 = false) fs)).

(** The lower-case fields of one type, and of a set of types. *)
Definition lower t : Z := match kind t with KStruct fields => lowerFields fields | _ => 0 end.
Definition lowerSum (ts : list Tid) : Z := foldr (λ t z, lower t + z) 0 ts.
Definition lowers (X : gset Tid) : Z := lowerSum (elements X).

Lemma lowerSum_app ts us : lowerSum (ts ++ us) = lowerSum ts + lowerSum us.
Proof. induction ts as [|t ts IH]; cbn; [done|]. unfold lowerSum in *. lia. Qed.

#[local] Instance lowerSum_perm : Proper ((≡ₚ) ==> (=)) lowerSum.
Proof. intros ts us H. induction H; cbn; unfold lowerSum in *; lia. Qed.

Lemma lowers_union X Y : X ## Y → lowers (X ∪ Y) = lowers X + lowers Y.
Proof. intros H. unfold lowers. by rewrite elements_disj_union, lowerSum_app. Qed.

Lemma lowers_empty : lowers ∅ = 0.
Proof. unfold lowers. by rewrite elements_empty. Qed.

Lemma lowers_singleton t : lowers {[t]} = lower t.
Proof. unfold lowers. rewrite elements_singleton. cbn. lia. Qed.

(** [l'] has searched all of [ts] and what they lead to. *)
Record searched (ts : list Tid) (extra : Z) l l' : Prop := {
  sd_grows : checked l ⊆ checked l';
  sd_roots t : t ∈ ts → t ∈ checked l';
  sd_closed t u : t ∈ checked l' → t ∉ checked l → u ∈ succs t → u ∈ checked l';
  sd_reached t : t ∈ checked l' → t ∉ checked l →
    ∃ r, r ∈ ts ∧ rtc (λ t u, u ∈ succs t) r t;
  sd_count : errorCount l' = errorCount l + extra + lowers (checked l' ∖ checked l);
}.

Lemma searched_none x l : searched [] x l (mkLab (checked l) (errorCount l + x)).
Proof.
  split; cbn; [done|by intros t ?%elem_of_nil|done..|].
  rewrite difference_diag_L, lowers_empty. lia.
Qed.

Lemma searched_trans ts1 ts2 x1 x2 l1 l2 l3 :
  searched ts1 x1 l1 l2 → searched ts2 x2 l2 l3 → searched (ts1 ++ ts2) (x1 + x2) l1 l3.
Proof.
  intros [G1 R1 C1 D1 E1] [G2 R2 C2 D2 E2]. split.
  - set_solver.
  - intros t [?%R1|?%R2]%elem_of_app; set_solver.
  - intros t u Ht Hn Hu. destruct (decide (t ∈ checked l2)); [|by eapply C2]. eapply G2, C1; done.
  - intros t Ht Hn. setoid_rewrite elem_of_app. destruct (decide (t ∈ checked l2)) as [H2|H2].
    + destruct (D1 t H2 Hn) as (r & ? & ?). eauto.
    + destruct (D2 t Ht H2) as (r & ? & ?). eauto.
  - rewrite E2, E1. replace (checked l3 ∖ checked l1)
      with ((checked l2 ∖ checked l1) ∪ (checked l3 ∖ checked l2)).
    + rewrite lowers_union by set_solver. lia.
    + apply set_eq. intros t. rewrite elem_of_union, !elem_of_difference.
      destruct (decide (t ∈ checked l2)); set_solver.
Qed.

(** Marking a type and searching what it leads to. *)
Lemma searched_mark t l l' :
  t ∉ checked l → searched (succs t) (lower t) (mkLab ({[t]} ∪ checked l) (errorCount l)) l' →
  searched [t] 0 l l'.
Proof.
  intros Ht [G R C D E]. cbn in *. split.
  - set_solver.
  - intros u ->%list_elem_of_singleton. set_solver.
  - intros u v Hu Hn Hv. destruct (decide (u = t)) as [->|]; [by apply R|]. eapply C; set_solver.
  - intros u Hu Hn. exists t. split; [by left|]. destruct (decide (u = t)) as [->|]; [done|].
    destruct (D u) as (r & Hr & ?); [set_solver..|]. by eapply rtc_l.
  - rewrite E. replace (checked l' ∖ checked l) with ({[t]} ∪ (checked l' ∖ ({[t]} ∪ checked l))).
    + rewrite lowers_union, lowers_singleton by set_solver. lia.
    + apply set_eq. intros u. rewrite elem_of_union, !elem_of_difference, elem_of_union, elem_of_singleton.
      destruct (decide (u = t)) as [->|]; set_solver.
Qed.

Lemma searched_old t l : t ∈ checked l → searched [t] 0 l l.
Proof.
  intros Ht. split; [done|by intros u ->%list_elem_of_singleton|done..|].
  rewrite difference_diag_L, lowers_empty. lia.
Qed.

Lemma complain_searched name l : searched [] (lowerFields [(name, 1%positive)]) l (complain name l).
Proof.
  unfold complain, lowerFields. rewrite filter_cons. cbn. destruct (IsUpper name) eqn:E.
  - rewrite decide_False by done. destruct l as [c e]. pose proof (searched_none 0 (mkLab c e)) as H. cbn in H.
    by rewrite Z.add_0_r in H.
  - rewrite decide_True by done. apply (searched_none 1).
Qed.

Lemma lowerFields_cons name t fs :
  lowerFields ((name, t) :: fs) = lowerFields [(name, 1%positive)] + lowerFields fs.
Proof. unfold lowerFields. rewrite !filter_cons. cbn. case_decide; cbn; lia. Qed.

Lemma checkFields_searched check fs l l' :
  (∀ t l l', check t l = Some l' → searched [t] 0 l l') → checkFields check fs l = Some l' →
  searched fs.*2 (lowerFields fs) l l'.
Proof.
  intros Hcheck. revert l. induction fs as [|[name t] fs IH]; intros l; cbn [checkFields].
  - intros [= <-]. destruct l as [c e]. pose proof (searched_none 0 (mkLab c e)) as H. cbn in H.
    by rewrite Z.add_0_r in H.
  - intros (l1 & H1%Hcheck & H)%bind_Some. apply IH in H. rewrite lowerFields_cons.
    pose proof (searched_trans _ _ _ _ _ _ _ (complain_searched name l) H1) as H2.
    pose proof (searched_trans _ _ _ _ _ _ _ H2 H) as H3. cbn in H3. by rewrite Z.add_0_r in H3.
Qed.

Lemma checkType_searched fuel t l l' : checkType fuel t l = Some l' → searched [t] 0 l l'.
Proof.
  revert t l l'. induction fuel as [|fuel IH]; intros t l l'; cbn [checkType]; [done|].
  case_decide as Ht; [intros [= <-]; by apply searched_old|].
  intros H. apply searched_mark; [done|]. unfold succs, lower. destruct (kind t) as [fs|e|e k|].
  - by eapply checkFields_searched.
  - by apply IH.
  - apply bind_Some in H as (l1 & H1%IH & H2%IH). pose proof (searched_trans _ _ _ _ _ _ _ H1 H2) as H3. done.
  - injection H as <-. pose proof (searched_none 0 (mkLab ({[t]} ∪ checked l) (errorCount l))) as H. cbn in H.
    by rewrite Z.add_0_r in H.
Qed.

(** Enough fuel: one unit for each type that is not marked, and one more. *)
Lemma checkType_terminates (U : gset Tid) fuel t l :
  (∀ t u, t ∈ U → u ∈ succs t → u ∈ U) → t ∈ U → (size (U ∖ checked l) < fuel)%nat →
  is_Some (checkType fuel t l).
Proof.
  intros HU. revert t l. induction fuel as [|fuel IH]; intros t l Ht Hf; [lia|]. cbn [checkType].
  case_decide as Hc; [done|]. set (l1 := mkLab ({[t]} ∪ checked l) (errorCount l)).
  assert (size (U ∖ checked l1) < fuel)%nat as Hl1.
  { assert (U ∖ checked l = {[t]} ∪ (U ∖ checked l1)) as Heq.
    { apply set_eq. intros u. cbn. rewrite elem_of_union, !elem_of_difference, elem_of_union, elem_of_singleton.
      destruct (decide (u = t)) as [->|]; set_solver. }
    rewrite Heq, size_union, size_singleton in Hf by (cbn; set_solver). lia. }
  assert (∀ l2, checked l1 ⊆ checked l2 → (size (U ∖ checked l2) < fuel)%nat) as Hlater.
  { intros l2 Hsub. eapply Nat.le_lt_trans; [|exact Hl1]. apply subseteq_size. set_solver. }
  assert (∀ u, u ∈ succs t → u ∈ U) as Hsucc by (intros; by eapply HU). unfold succs in Hsucc.
  destruct (kind t) as [fs|e|e k|].
  - clearbody l1. assert (∀ fs l2, checked l1 ⊆ checked l2 → (∀ u, u ∈ fs.*2 → u ∈ U) →
      is_Some (checkFields (checkType fuel) fs l2)) as Hgo; [|by apply Hgo].
    clear fs Hsucc. induction fs as [|[name u] fs IHfs]; intros l2 Hsub Hin; cbn [checkFields]; [done|].
    assert (checked (complain name l2) = checked l2) as Hco by (unfold complain; by destruct (IsUpper name)).
    destruct (IH u (complain name l2)) as (l3 & Hl3); [apply Hin; by left|rewrite Hco; by apply Hlater|].
    rewrite Hl3. cbn. apply IHfs; [|intros v ?; apply Hin; by right].
    apply checkType_searched, sd_grows in Hl3. rewrite Hco in Hl3. set_solver.
  - apply IH; [apply Hsucc; by left|done].
  - destruct (IH e l1) as (l2 & Hl2); [apply Hsucc; by left|done|]. rewrite Hl2. cbn.
    apply IH; [apply Hsucc; right; by left|]. apply Hlater. by apply checkType_searched, sd_grows in Hl2.
  - done.
Qed.

(** The search of a type is right.  From a state in which everything that the
    searched types lead to was searched too (as at the start, with none), with
    finitely many types to be found, checkType ends, also on recursive types; it
    marks exactly the types that can be reached, and counts every lower-case
    field of a type it had not searched, once. *)
Theorem checkType_correct (U : gset Tid) t l :
  (∀ t u, t ∈ U → u ∈ succs t → u ∈ U) → t ∈ U →
  (∀ t u, t ∈ checked l → u ∈ succs t → u ∈ checked l) →
  ∃ l', checkType (S (size U)) t l = Some l' ∧
    (∀ u, u ∈ checked l' ↔ u ∈ checked l ∨ rtc (λ t u, u ∈ succs t) t u) ∧
    errorCount l' = errorCount l + lowers (checked l' ∖ checked l) ∧
    checkType (S (size U)) t l' = Some l'.
Proof.
  intros HU Ht Hcl. destruct (checkType_terminates U (S (size U)) t l) as (l' & Hl'); [done..| |].
  { apply Nat.lt_succ_r, subseteq_size. set_solver. }
  exists l'. pose proof (checkType_searched _ _ _ _ Hl') as [G R C D E]. split_and!; [done| |lia|].
  - intros u. split.
    + intros Hu. destruct (decide (u ∈ checked l)) as [|Hn]; [by left|right].
      destruct (D u Hu Hn) as (r & ->%list_elem_of_singleton & ?). done.
    + assert (∀ a b, a ∈ checked l' → b ∈ succs a → b ∈ checked l') as Hcl'.
      { intros a b Ha Hb. destruct (decide (a ∈ checked l)) as [Hl|Hl]; [by eapply G, Hcl|by eapply C]. }
      intros [?|Hr]; [by apply G|]. assert (t ∈ checked l') as Hin by (apply R; by left).
      clear -Hr Hin Hcl'. induction Hr as [|a b d Hab _ IH]; [done|]. apply IH. by eapply Hcl'.
  - cbn [checkType]. rewrite decide_True; [done|]. apply R. by left.
Qed.
End labgob.

(** ** Variables to decode into *)

(** [reflect.Value] as the code tells kinds apart; of a basic value, its type's
    name and whether it is the zero value. *)
Inductive Value :=
| VStruct (fields : list (string * Value))
| VPtr (v : option Value)
| VBasic (tname : string) (zero : bool)
| VOther.

(** [checkDefault1] with [d] levels left ([depth] is [4 - d]): the names of the
    values that are reported, in order. *)
Fixpoint checkDefault1 (d : nat) (name : string) (v : Value) : list string :=
  match d with
  | O => []
  | S d =>
      match v with
      | VStruct fields =>
          mjoin ((λ f, checkDefault1 d (if decide (name = ""%string) then f.1 else name +:+ "." +:+ f.1) f.2) <$> fields)
      | VPtr None => []
      | VPtr (Some v) => checkDefault1 d name v
      | VBasic tname zero => if zero then [] else [if decide (name = ""%string) then tname else name]
      | VOther => []
      end
  end.

(** [checkDefault]: the count, and the lines printed: only the first report is,
    and none when there was one before. *)
Definition checkDefault (v : Value) (errors : Z) : Z * list string :=
  let ws := checkDefault1 3 "" v in
  (errors + zlen ws, if decide (errors < 1) then take 1 ws else []).

(** A basic value other than zero, reached over at most [d] levels of structs and
    pointers. *)
Inductive holds_value : nat → Value → Prop :=
| hv_basic d tname : holds_value (S d) (VBasic tname false)
| hv_field d name v fields : (name, v) ∈ fields → holds_value d v → holds_value (S d) (VStruct fields)
| hv_ptr d v : holds_value d v → holds_value (S d) (VPtr (Some v)).

Lemma checkDefault1_spec d name v : checkDefault1 d name v ≠ [] ↔ holds_value d v.
Proof.
  revert name v. induction d as [|d IH]; intros name v; cbn [checkDefault1].
  { split; [done|]. intros H. inversion H. }
  destruct v as [fields|[v|]|tname zero|].
  - split.
    + intros Hne. destruct (mjoin _) as [|w ws] eqn:E; [done|].
      assert (w ∈ mjoin ((λ f, checkDefault1 d (if decide (name = ""%string) then f.1 else name +:+ "." +:+ f.1) f.2) <$> fields))
        as (l & Hl & Hw)%list_elem_of_join by (rewrite E; by left).
      apply list_elem_of_fmap in Hw as ([fname v] & -> & Hf).
      apply (hv_field d fname v); [done|]. apply (IH (if decide (name = ""%string) then fname else name +:+ "." +:+ fname)).
      intros Hnil. cbn in Hl. rewrite Hnil in Hl. by apply elem_of_nil in Hl.
    + intros H. inversion H as [|? fname v ? Hin Hv|]; subst.
      apply list_elem_of_split in Hin as (l1 & l2 & ->). rewrite fmap_app, join_app, fmap_cons. cbn.
      apply (IH (if decide (name = ""%string) then fname else name +:+ "." +:+ fname)) in Hv.
      intros [_ [H1 _]%app_nil]%app_nil. done.
  - rewrite IH. split; [by constructor|]. intros H. by inversion H.
  - split; [done|]. intros H. inversion H.
  - destruct zero; (split; [|intros H; by inversion H]); [done|]. intros _. constructor.
  - split; [done|]. intros H. inversion H.
Qed.

(** Which variables are reported.  checkDefault counts something exactly when the
    variable holds a value other than zero within three levels of structs and
    pointers, and prints the first report of the process only. *)
Theorem checkDefault_exact v errors :
  let '(errors', printed) := checkDefault v errors in
  errors ≤ errors' ∧ (errors < errors' ↔ holds_value 3 v) ∧
  (printed ≠ [] ↔ errors < 1 ∧ holds_value 3 v) ∧ (length printed ≤ 1)%nat.
Proof.
  unfold checkDefault. pose proof (checkDefault1_spec 3 "" v) as H.
  destruct (checkDefault1 3 "" v) as [|w ws].
  - change (zlen (@nil string)) with 0. split_and!; [lia|naive_solver lia| |case_decide; cbn; lia].
    case_decide; cbn; naive_solver.
  - rewrite zlen_cons. pose proof (zlen_nonneg ws). split_and!; [lia|naive_solver lia| |case_decide; cbn; rewrite ?firstn_O; cbn; lia].
    case_decide; cbn; naive_solver.
Qed.

(** A value below the third level is missed: the comment promises a warning if
    the variable contains values other than the default. *)
Theorem checkDefault_misses_deep :
  let v := VPtr (Some (VStruct [("Outer"%string, VStruct [("Inner"%string, VBasic "int" false)])])) in
  checkDefault v 0 = (0, []).
Proof. reflexivity. Qed.

(** ** A recursive type *)

(** [type Node struct { Next *Node; val int }] as types 1 (Node), 2 (pointer) and
    3 (int). *)
Definition node_kind (t : positive) : Kind :=
  match t with
  | 1%positive => KStruct [("Next"%string, 2%positive); ("val"%string, 3%positive)]
  | 2%positive => KElem 1
  | _ => KOther
  end.

Definition starts_upper (s : string) : bool :=
  match s with
  | String.String a _ => let n := Ascii.nat_of_ascii a in (65 <=? n)%nat && (n <=? 90)%nat
  | _ => false
  end.

Lemma checkType_correct_witness : ∃ l',
  checkType starts_upper node_kind 4 1 (mkLab ∅ 0) = Some l' ∧ errorCount l' = 1 ∧
  checkType starts_upper node_kind 4 1 l' = Some l'.
Proof.
  destruct (checkType_correct starts_upper node_kind {[1%positive; 2%positive; 3%positive]} 1 (mkLab ∅ 0))
    as (l' & H1 & _ & _ & H2).
  - intros t u Ht Hu. rewrite !elem_of_union, !elem_of_singleton in Ht.
    destruct Ht as [[->| ->]| ->]; cbn in Hu; set_solver.
  - set_solver.
  - cbn. set_solver.
  - exists l'. split; [exact H1|]. split; [|exact H2]. vm_compute in H1. injection H1 as <-. reflexivity.
Defined.
