(* ===== verification/RaftTest.v ===== *)
(** * RaftTest: the servers and the checks of Raft's own tests

    Models [src/src/raft/server.go] (the server that the tests run around a Raft
    peer), [proxy.go] (its calls to the tester) and [test.go] (what the tester
    records of the servers, and the checks it makes).  [RaftTestNet] composes
    them with a cluster of peers.

    Messages of errors are constructors here, without the numbers they print.
    What GetState and Start answer, which may be asked at different moments, are
    arguments. *)

From S2P Require Import Prelude Persister Raft.

(** ** Error messages *)

Inductive errMsg :=
| NoErr                       (* the empty string *)
| ErrRPC                      (* the tester did not answer *)
| NilSnapshot
| UndecodableSnapshot
| SnapshotIndexMismatch
| ApplyOutOfOrder
| CommitMismatch.

#[global] Instance errMsg_eq_dec : EqDecision errMsg.
Proof. solve_decision. Defined.

Section raft_test.
Context {Cmd : Type} `{!EqDecision Cmd, !Codec (Z * list (option Cmd))}.

(** Commands by index.  [None] is Go's nil, the command of index 0. *)
Abbreviation CmdMap := (gmap Z (option Cmd)).

(** ** The server of the tests *)

Record rfsrv := mkRfsrv { rfs_lastApplied : Z; rfs_log : CmdMap }.
Implicit Types (rs : rfsrv).

Definition SnapShotInterval : Z := 10.

(** Where a server is.  The order of [applierSnap] is: CheckLogs, then its own
    log and the snapshot, then ApplyErr. *)
Inductive SrvPc :=
| Starting (sn : bytes)                            (* newRfsrv, after Make *)
| AtRange                                          (* at the range loop *)
| Holding (m : ApplyMsg Cmd)                       (* a message is received *)
| Checked (c : option Cmd) (k : Z) (err : errMsg)  (* CheckLogs has answered *)
| Reporting (err : errMsg)                         (* before the test of err_msg *)
| Exited.                                          (* log.Fatalf *)

(** What became of a call to the tester. *)
Inductive Fate := Served | Unanswered | Undelivered.

(** [err_msg] after CheckLogs in [applier] and in [applierSnap]. *)
Definition applierErr (k : Z) (r : errMsg * bool) : errMsg :=
  if decide (1 < k ∧ r.2 = false) then ApplyOutOfOrder else r.1.

Definition applierSnapErr (k : Z) (r : errMsg * bool) : errMsg :=
  if decide (r.1 ≠ ErrRPC ∧ 1 < k ∧ r.2 = false) then ApplyOutOfOrder else r.1.

Definition recordCommand (c : option Cmd) (k : Z) rs : rfsrv := mkRfsrv k (<[k := c]> (rfs_log rs)).

(** [xlog]: the commands of the indices [0] to [idx]; a missing one is nil. *)
Definition xlog (idx : Z) (log : CmdMap) : list (option Cmd) :=
  (λ j, default None (log !! Z.of_nat j)) <$> seq 0 (Z.to_nat (idx + 1)).

(** The snapshot that is due after a command, every tenth index. *)
Definition dueSnapshot (k : Z) rs : option bytes :=
  if decide (Z.rem (k + 1) SnapShotInterval = 0) then Some (enc (k, xlog k (rfs_log rs))) else None.

Fixpoint logOf (j : Z) (xs : list (option Cmd)) (log : CmdMap) : CmdMap :=
  match xs with [] => log | x :: xs => logOf (j + 1) xs (<[j := x]> log) end.

(** Go's nil and empty slice are the same list of bytes. *)
Definition ingestSnap (snapshot : bytes) (index : Z) rs : rfsrv * errMsg :=
  if decide (snapshot = []) then (rs, NilSnapshot)
  else match dec (A := Z * list (option Cmd)) snapshot with
  | None => (rs, UndecodableSnapshot)
  | Some (lastIncludedIndex, xs) =>
      if decide (index ≠ -1 ∧ index ≠ lastIncludedIndex) then (rs, SnapshotIndexMismatch)
      else (mkRfsrv lastIncludedIndex (logOf 0 xs ∅), NoErr)
  end.

(** [StartRPC] and [GetStateRPC]: the peer is missing (nil) when the server was
    started without one; [Start] looks for that, [GetState] does not. *)
Definition rfsrv_Start `{!Codec (PersistedState Cmd)} (cmd : Cmd) (raft : option (Raft Cmd))
    : option (Raft Cmd) * (Z * Z * bool) :=
  match raft with
  | None => (None, (0, 0, false))
  | Some rf => let '(rf, r) := Start cmd rf in (Some rf, r)
  end.

Definition rfsrv_GetState (raft : option (Raft Cmd)) : outcome (Z * bool) :=
  match raft with Some rf => Ret (GetState rf) | None => Panic NilDeref end.

(** [Rfproxy]: a call that fails leaves the reply as it was made, zero. *)
Definition proxyStart (reply : option (Z * Z * bool)) : Z * Z * bool := default (0, 0, false) reply.
Definition proxyGetState (reply : option (Z * bool)) : Z * bool := default (0, false) reply.

(** ** What the tester records *)

Record raftServer := mkRaftServer { proxy : bool; applyErr : errMsg; logs : CmdMap }.

(** A server that has not been made is a nil pointer. *)
Record Test := mkTest { t_srvs : list (option raftServer); maxIndex : Z; finished : bool }.
Implicit Types (ts : Test) (s : raftServer).

Definition newRaftServer : raftServer := mkRaftServer true NoErr ∅.

Definition entry (i : Z) s : option (option Cmd) := logs s !! i.

Definition set_srvs (l : list (option raftServer)) ts : Test := mkTest l (maxIndex ts) (finished ts).

(** [ts.srvs[i]], used as a pointer. *)
Definition srvAt (i : nat) ts : outcome raftServer :=
  p ← index (t_srvs ts) (Z.of_nat i);
  match p with Some s => Ret s | None => Panic NilDeref end.

Definition putSrv (i : nat) s ts : Test := set_srvs (<[i := Some s]> (t_srvs ts)) ts.

Definition mksrv (i : nat) ts : outcome Test :=
  p ← index (t_srvs ts) (Z.of_nat i);
  Ret (putSrv i (match p with Some s => mkRaftServer true (applyErr s) (logs s) | None => newRaftServer end) ts).

Fixpoint mksrvs (ids : list nat) ts : outcome Test :=
  match ids with [] => Ret ts | i :: ids => ts ← mksrv i ts; mksrvs ids ts end.

Definition makeTest (n : nat) : outcome Test := mksrvs (seq 0 n) (mkTest (replicate n None) 0 false).

Definition cleanup ts : Test := mkTest (t_srvs ts) (maxIndex ts) true.

(** The loops of [kill] and of [restart]. *)
Fixpoint kill (ids : list nat) ts : outcome Test :=
  match ids with
  | [] => Ret ts
  | i :: ids => s ← srvAt i ts; kill ids (putSrv i (mkRaftServer false (applyErr s) (logs s)) ts)
  end.

Definition restart (ids : list nat) ts : outcome Test := mksrvs ids ts.

(** ** The calls of the servers *)

(** The loop over the servers: the last server with another command counts. *)
Fixpoint compareLogs (k : Z) (v : option Cmd) (l : list (option raftServer)) (err : errMsg) : outcome errMsg :=
  match l with
  | [] => Ret err
  | None :: _ => Panic NilDeref
  | Some s :: l =>
      compareLogs k v l
        (match entry k s with Some old => if decide (old ≠ v) then CommitMismatch else err | None => err end)
  end.

Definition CheckLogs (i : nat) (v : option Cmd) (k : Z) ts : outcome (Test * (errMsg * bool)) :=
  p ← index (t_srvs ts) (Z.of_nat i);
  err ← compareLogs k v (t_srvs ts) NoErr;
  me ← match p with Some s => Ret s | None => Panic NilDeref end;
  let prevok := bool_decide (is_Some (entry (k - 1) me)) in
  let ts := putSrv i (mkRaftServer (proxy me) (applyErr me) (<[k := v]> (logs me))) ts in
  Ret (mkTest (t_srvs ts) (if decide (maxIndex ts < k) then k else maxIndex ts) (finished ts), (err, prevok)).

Definition IngestLog (i : nat) (xlog : CmdMap) ts : outcome Test :=
  me ← srvAt i ts; Ret (putSrv i (mkRaftServer (proxy me) (applyErr me) xlog) ts).

Definition ApplyErr (i : nat) (err : errMsg) ts : outcome Test :=
  me ← srvAt i ts; Ret (putSrv i (mkRaftServer (proxy me) err (logs me)) ts).

(** [TesterProxy]: the caller's view of a call. *)
Definition proxyCheckLogs (f : Fate) (i : nat) (v : option Cmd) (k : Z) ts : outcome (Test * (errMsg * bool)) :=
  match f with
  | Served => CheckLogs i v k ts
  | Unanswered => '(ts, _) ← CheckLogs i v k ts; Ret (ts, (ErrRPC, false))
  | Undelivered => Ret (ts, (ErrRPC, false))
  end.

Definition proxyIngestLog (f : Fate) (i : nat) (xlog : CmdMap) ts : outcome Test :=
  match f with Undelivered => Ret ts | _ => IngestLog i xlog ts end.

Definition proxyApplyErr (f : Fate) (i : nat) (err : errMsg) ts : outcome Test :=
  match f with Undelivered => Ret ts | _ => ApplyErr i err ts end.

(** ** The checks of the tests *)

(** [nCommitted]'s loop: servers that hold an entry at [k], and its command. *)
Fixpoint countCommitted (k : Z) (l : list (option raftServer)) (count : Z) (cmd : option Cmd)
    : outcome (Z * option Cmd) :=
  match l with
  | [] => Ret (count, cmd)
  | None :: _ => Panic NilDeref
  | Some s :: l =>
      if decide (applyErr s ≠ NoErr) then Panic (Fatal "apply error")
      else match entry k s with
      | Some cmd1 =>
          if decide (0 < count ∧ cmd ≠ cmd1) then Panic (Fatal "committed values do not match")
          else countCommitted k l (count + 1) cmd1
      | None => countCommitted k l count cmd
      end
  end.

Definition nCommitted (k : Z) ts : outcome (Z * option Cmd) := countCommitted k (t_srvs ts) 0 None.

Definition checkNoAgreement (k : Z) ts : outcome unit :=
  '(n, _) ← nCommitted k ts;
  if decide (0 < n) then Panic (Fatal "committed but no majority") else Ret tt.

(** The servers asked: those that are connected; [ask i] is what [GetState] of
    server [i] answers, (0, false) if the call fails. *)
Section ask.
Context (connected : nat → bool) (ask : nat → Z * bool).

Definition askState (i : nat) ts : outcome (Z * bool) :=
  s ← srvAt i ts; if proxy s then Ret (ask i) else Panic NilDeref.

(** The leaders by term, each term's in the order they were asked. *)
Fixpoint collectLeaders (ids : list nat) ts (leaders : gmap Z (list nat)) : outcome (gmap Z (list nat)) :=
  match ids with
  | [] => Ret leaders
  | i :: ids =>
      if connected i then
        '(term, isLeader) ← askState i ts;
        collectLeaders ids ts
          (if isLeader : bool then <[term := default [] (leaders !! term) ++ [i]]> leaders else leaders)
      else collectLeaders ids ts leaders
  end.

(** One round of [checkOneLeader]: none found, or the leader of the last term. *)
Definition leaderRound (n : nat) ts : outcome (option nat) :=
  leaders ← collectLeaders (seq 0 n) ts ∅;
  if decide (map_Forall (λ _ l, (length l ≤ 1)%nat) leaders) then
    let last := map_fold (λ term _ acc, Z.max term acc) (-1) leaders in
    match map_to_list leaders with
    | [] => Ret None
    | _ => match leaders !! last ≫= head with Some l => Ret (Some l) | None => Panic IndexRange end
    end
  else Panic (Fatal "more than one leader").

Fixpoint termLoop (ids : list nat) ts (term : Z) : outcome Z :=
  match ids with
  | [] => Ret term
  | i :: ids =>
      if connected i then
        '(xterm, _) ← askState i ts;
        if decide (term = -1) then termLoop ids ts xterm
        else if decide (term ≠ xterm) then Panic (Fatal "servers disagree on term")
        else termLoop ids ts term
      else termLoop ids ts term
  end.

Definition checkTerms (n : nat) ts : outcome Z := termLoop (seq 0 n) ts (-1).

Fixpoint noLeaderLoop (ids : list nat) ts : outcome unit :=
  match ids with
  | [] => Ret tt
  | i :: ids =>
      if connected i then
        '(_, isLeader) ← askState i ts;
        if isLeader : bool then Panic (Fatal "unexpected leader") else noLeaderLoop ids ts
      else noLeaderLoop ids ts
  end.

Definition checkNoLeader (n : nat) ts : outcome unit := noLeaderLoop (seq 0 n) ts.
End ask.

(** [checkOneLeader] tries ten rounds; each round finds its own answers. *)
Fixpoint leaderRounds (n : nat) (rounds : list ((nat → bool) * (nat → Z * bool) * Test)) : outcome nat :=
  match rounds with
  | [] => Panic (Fatal "expected one leader, got none")
  | (connected, ask, ts) :: rounds =>
      r ← leaderRound connected ask n ts;
      match r with Some l => Ret l | None => leaderRounds n rounds end
  end.

Definition checkOneLeader (n : nat) rounds : outcome nat := leaderRounds n (take 10 rounds).

(** ** one *)

(** One round of the loop of [one]: what [Start] answers at each server from
    [starts + 1] on ([None]: not connected or no proxy), and what the tester has
    recorded at each poll of the next two seconds. *)
Record Round := mkRound { rd_start : nat → option (Z * bool); rd_polls : list Test }.

Fixpoint tryServers (n todo : nat) (start : nat → option (Z * bool)) (starts : nat) : nat * option Z :=
  match todo with
  | O => (starts, None)
  | S todo =>
      let starts := ((starts + 1) mod n)%nat in
      match start starts with
      | Some (idx, true) => (starts, Some idx)
      | _ => tryServers n todo start starts
      end
  end.

Fixpoint pollCommitted (cmd : Cmd) (expected : Z) (k : Z) (polls : list Test) : outcome bool :=
  match polls with
  | [] => Ret false
  | ts :: polls =>
      '(nd, cmd1) ← nCommitted k ts;
      if decide (0 < nd ∧ expected ≤ nd ∧ cmd1 = Some cmd) then Ret true
      else pollCommitted cmd expected k polls
  end.

(** The rounds that begin before ten seconds are over and the test finished. *)
Fixpoint oneLoop (n : nat) (cmd : Cmd) (expected : Z) (retry : bool) (starts : nat) (rounds : list Round)
    (isFinished : bool) : outcome Z :=
  match rounds with
  | [] => if isFinished then Ret (-1) else Panic (Fatal "failed to reach agreement")
  | r :: rounds =>
      let '(starts, found) := tryServers n n (rd_start r) starts in
      match found with
      | Some k =>
          if decide (k ≠ -1) then
            ok ← pollCommitted cmd expected k (rd_polls r);
            if ok : bool then Ret k
            else if retry then oneLoop n cmd expected retry starts rounds isFinished
            else Panic (Fatal "failed to reach agreement")
          else oneLoop n cmd expected retry starts rounds isFinished
      | None => oneLoop n cmd expected retry starts rounds isFinished
      end
  end.

Definition one (n : nat) (cmd : Cmd) (expected : Z) (retry : bool) (rounds : list Round) (isFinished : bool)
    : outcome Z :=
  oneLoop n cmd expected retry 0 rounds isFinished.

(** ** wait *)

(** The at most thirty polls of [wait]: what is recorded, and the terms that the
    servers give afterwards.  [None] is a server that is past [startTerm]. *)
Fixpoint waitLoop (k expected startTerm : Z) (polls : list (Test * list Z)) : outcome bool :=
  match polls with
  | [] => Ret true
  | (ts, terms) :: polls =>
      '(nd, _) ← nCommitted k ts;
      if decide (expected ≤ nd) then Ret true
      else if decide (-1 < startTerm ∧ Exists (λ t, startTerm < t) terms) then Ret false
      else waitLoop k expected startTerm polls
  end.

(** [None] stands for the answer -1: a server has moved on. *)
Definition wait (k expected startTerm : Z) (polls : list (Test * list Z)) (final : Test)
    : outcome (option (option Cmd)) :=
  go ← waitLoop k expected startTerm (take 30 polls);
  if go : bool then
    '(nd, cmd) ← nCommitted k final;
    if decide (nd < expected) then Panic (Fatal "too few servers decided") else Ret (Some cmd)
  else Ret None.

(** ** Facts *)

Lemma srvAt_Ret i ts s : srvAt i ts = Ret s ↔ t_srvs ts !! i = Some (Some s).
Proof.
  unfold srvAt. split.
  - intros (p & [_ Hp]%index_Ret & H)%bind_ret_inv. rewrite Nat2Z.id in Hp. destruct p; [by injection H as ->|done].
  - intros H. replace (index (t_srvs ts) (Z.of_nat i)) with (Ret (Some s)); [done|].
    symmetry. apply index_Ret. rewrite Nat2Z.id. split; [lia|done].
Qed.

Lemma mksrvs_new (n m : nat) k fin :
  mksrvs (seq m n) (mkTest (replicate m (Some newRaftServer) ++ replicate n None) k fin) =
  Ret (mkTest (replicate (m + n) (Some newRaftServer)) k fin).
Proof.
  revert m. induction n as [|n IH]; intros m; [cbn; by rewrite app_nil_r, Nat.add_0_r|].
  cbn [seq mksrvs]. unfold mksrv.
  assert (index (replicate m (Some newRaftServer) ++ replicate (S n) None) (Z.of_nat m) = Ret None) as E.
  { apply index_Ret. split; [lia|]. rewrite Nat2Z.id, lookup_app_r by (rewrite length_replicate; lia).
    by rewrite length_replicate, Nat.sub_diag. }
  cbn [t_srvs]. rewrite E. cbn [mbind outcome_bind]. unfold putSrv, set_srvs. cbn [t_srvs maxIndex finished].
  rewrite insert_app_r_alt by (rewrite length_replicate; lia).
  rewrite length_replicate, Nat.sub_diag. cbn [replicate insert list_insert].
  specialize (IH (S m)). rewrite replicate_S_end, <-app_assoc in IH. cbn in IH. rewrite IH. by rewrite Nat.add_succ_r.
Qed.

Lemma makeTest_new n : makeTest n = Ret (mkTest (replicate n (Some newRaftServer)) 0 false).
Proof. apply (mksrvs_new n 0). Qed.

(** What [nCommitted] counts. *)
Lemma countCommitted_spec k l count cmd c cmd' :
  0 ≤ count → countCommitted k l count cmd = Ret (c, cmd') →
  ∃ ss, l = Some <$> ss ∧ c = count + zlen (filter (λ s, is_Some (entry k s)) ss) ∧
    (∀ s, s ∈ ss → applyErr s = NoErr ∧ ∀ v, entry k s = Some v → v = cmd') ∧ (0 < count → cmd' = cmd).
Proof.
  revert count cmd. induction l as [|[s|] l IH]; intros count cmd H0 H; cbn in H; [|case_decide as He; [done|]|done].
  - injection H as <- <-. exists []. split_and!; [done|unfold zlen; cbn; lia| |done].
    intros s Hs. by apply elem_of_nil in Hs.
  - destruct (entry k s) as [v|] eqn:Ev.
    + case_decide as Hm; [done|]. apply IH in H as (ss & -> & -> & Hall & Hc); [|lia].
      exists (s :: ss). rewrite filter_cons_True by by exists v. unfold zlen. cbn. split_and!; [done|lia| |].
      * intros s' [->|Hs]%elem_of_cons; [|by apply Hall]. split; [done|]. intros v' Hv'.
        rewrite Hc by lia. congruence.
      * intros Hpos. rewrite Hc by lia. destruct (decide (v = cmd)) as [->|]; [done|]. exfalso.
        apply Hm. done.
    + apply IH in H as (ss & -> & -> & Hall & Hc); [|done]. exists (s :: ss).
      rewrite filter_cons_False by (rewrite Ev; by intros [? ?]). split_and!; [done..| |done].
      intros s' [->|Hs]%elem_of_cons; [|by apply Hall]. split; [done|]. intros v. by rewrite Ev.
Qed.

Lemma countCommitted_ok (R : option Cmd → Prop) k l count cmd :
  (∀ v v', R v → R v' → v = v') →
  (∀ p, p ∈ l → ∃ s, p = Some s ∧ applyErr s = NoErr ∧ ∀ v, entry k s = Some v → R v) →
  (0 < count → R cmd) → returns (countCommitted k l count cmd).
Proof.
  intros HR. revert count cmd. induction l as [|p l IH]; intros count cmd Hall Hc; [apply returns_ret|].
  destruct (Hall p) as (s & -> & He & Hv); [by left|]. cbn. rewrite decide_False by (by intros ?).
  assert (∀ p, p ∈ l → ∃ s, p = Some s ∧ applyErr s = NoErr ∧ ∀ v, entry k s = Some v → R v) as Hl.
  { intros p Hp. apply Hall. by right. }
  destruct (entry k s) as [v|] eqn:Ev; [|by apply IH].
  rewrite decide_False by (intros [Hpos Hne]; apply Hne; apply HR; auto). apply IH; auto.
Qed.

(** Two commands at an index are never both reported. *)
Lemma compareLogs_ok k v l :
  (∀ p, p ∈ l → ∃ s, p = Some s ∧ ∀ v', entry k s = Some v' → v' = v) → compareLogs k v l NoErr = Ret NoErr.
Proof.
  induction l as [|p l IH]; intros Hall; [done|]. destruct (Hall p) as (s & -> & Hv); [by left|]. cbn.
  assert (match entry k s with Some old => if decide (old ≠ v) then CommitMismatch else NoErr | None => NoErr end
          = NoErr) as ->.
  { destruct (entry k s) as [v'|]; [|done]. by rewrite (Hv v'), decide_False by naive_solver. }
  apply IH. intros q Hq. apply Hall. by right.
Qed.

Lemma pollCommitted_true cmd e k polls :
  pollCommitted cmd e k polls = Ret true →
  ∃ ts nd, ts ∈ polls ∧ nCommitted k ts = Ret (nd, Some cmd) ∧ 0 < nd ∧ e ≤ nd.
Proof.
  induction polls as [|ts polls IH]; [done|]. cbn. intros ([nd cmd1] & Hn & H)%bind_ret_inv.
  case_decide as Hd.
  - destruct Hd as (? & ? & ->). exists ts, nd. split_and!; [by left|done..].
  - apply IH in H as (ts' & nd' & ? & ?). exists ts', nd'. split; [by right|done].
Qed.

Lemma tryServers_found n todo start starts starts' k :
  tryServers n todo start starts = (starts', Some k) → start starts' = Some (k, true).
Proof.
  revert starts. induction todo as [|todo IH]; intros starts; [done|]. cbn.
  destruct (start ((starts + 1) mod n)%nat) as [[k' []]|] eqn:E; [by intros [= <- <-]|apply IH..].
Qed.

(** If [one] returns an index, a server that claimed to lead gave that index for
    the command, and at one of the polls at least the expected number of
    servers, and one at least, had committed the command there. *)
Lemma one_sound n cmd e retry rounds fin k :
  one n cmd e retry rounds fin = Ret k → k ≠ -1 →
  ∃ r i ts nd, r ∈ rounds ∧ rd_start r i = Some (k, true) ∧ ts ∈ rd_polls r ∧
    nCommitted k ts = Ret (nd, Some cmd) ∧ 0 < nd ∧ e ≤ nd.
Proof.
  unfold one. generalize 0%nat. intros starts H Hk. revert starts H.
  induction rounds as [|r rounds IH]; intros starts H; cbn in H.
  { destruct fin; [injection H as <-; done|done]. }
  assert (∀ starts, oneLoop n cmd e retry starts rounds fin = Ret k → ∃ r' i ts nd, r' ∈ r :: rounds ∧
    rd_start r' i = Some (k, true) ∧ ts ∈ rd_polls r' ∧ nCommitted k ts = Ret (nd, Some cmd) ∧ 0 < nd ∧ e ≤ nd) as Hrec.
  { intros st (r' & i & ts & nd & ? & ?)%IH. exists r', i, ts, nd. split; [by right|done]. }
  destruct (tryServers n n (rd_start r) starts) as [starts' [k'|]] eqn:Et; [|by eapply Hrec].
  case_decide; [|by eapply Hrec]. apply bind_ret_inv in H as (b & Hp & H). destruct b.
  - injection H as ->. apply pollCommitted_true in Hp as (ts & nd & ? & ?). apply tryServers_found in Et.
    exists r, starts', ts, nd. split; [by left|]. split; [done|]. naive_solver.
  - destruct retry; [by eapply Hrec|done].
Qed.

(** ** Asking for the leader *)

Section leaders.
Context (connected : nat → bool) (ask : nat → Z * bool).

(** The servers among [ids] that say they lead [term]. *)
Definition claimants (term : Z) (ids : list nat) : list nat :=
  filter (λ i, connected i = true ∧ ask i = (term, true)) ids.

(** Every server that is asked has been made and not killed. *)
Definition askable (ids : list nat) ts : Prop :=
  ∀ i, i ∈ ids → connected i = true → ∃ s, t_srvs ts !! i = Some (Some s) ∧ proxy s = true.

Lemma collectLeaders_spec ids ts leaders0 :
  askable ids ts → (∀ term, leaders0 !! term ≠ Some []) →
  ∃ leaders, collectLeaders connected ask ids ts leaders0 = Ret leaders ∧
    (∀ term, leaders !! term ≠ Some []) ∧
    ∀ term, default [] (leaders !! term) = default [] (leaders0 !! term) ++ claimants term ids.
Proof.
  revert leaders0. induction ids as [|i ids IH]; intros leaders0 Ha H0.
  { exists leaders0. split_and!; [done..|]. intros term. by rewrite app_nil_r. }
  assert (askable ids ts) as Ha' by (intros j ?; apply Ha; by right). cbn [collectLeaders].
  destruct (connected i) eqn:Ec.
  2: { destruct (IH leaders0) as (l & Hl & ? & Hspec); [done..|]. exists l. split_and!; [done..|].
       intros term. rewrite Hspec. unfold claimants. by rewrite filter_cons_False by (intros [? ?]; congruence). }
  destruct (Ha i) as (s & Hs & Hp); [by left|done|]. unfold askState.
  assert (srvAt i ts = Ret s) as -> by by apply srvAt_Ret. cbn [mbind outcome_bind]. rewrite Hp.
  destruct (ask i) as [term0 []] eqn:Ea.
  - destruct (IH (<[term0 := default [] (leaders0 !! term0) ++ [i]]> leaders0)) as (l & Hl & ? & Hspec); [done|..].
    { intros term [[_ Hn]|[_ ?]]%lookup_insert_Some; [by destruct (default [] (leaders0 !! term0))|by eapply H0]. }
    exists l. split_and!; [done..|]. intros term. rewrite Hspec. unfold claimants.
    destruct (decide (term = term0)) as [->|Hne].
    + rewrite lookup_insert_eq, filter_cons_True by done. cbn. by rewrite <-app_assoc.
    + rewrite lookup_insert_ne by done. by rewrite filter_cons_False by (intros [? ?]; congruence).
  - destruct (IH leaders0) as (l & Hl & ? & Hspec); [done..|]. exists l. split_and!; [done..|].
    intros term. rewrite Hspec. unfold claimants. by rewrite filter_cons_False by (intros [? ?]; congruence).
Qed.

Lemma last_term (leaders : gmap Z (list nat)) :
  let last := map_fold (λ term _ acc, Z.max term acc) (-1) leaders in
  (∀ term, is_Some (leaders !! term) → term ≤ last) ∧ (last = -1 ∨ is_Some (leaders !! last)).
Proof.
  apply (map_fold_weak_ind (λ last m,
    (∀ term, is_Some (m !! term) → term ≤ last) ∧ (last = -1 ∨ is_Some (m !! last)))).
  - split; [|by left]. intros term [? Ht]. by rewrite lookup_empty in Ht.
  - intros term l m last Hm [Hle Hin]. split.
    + intros term' Ht. destruct (decide (term' = term)) as [->|Hne]; [lia|].
      rewrite lookup_insert_ne in Ht by done. specialize (Hle _ Ht). lia.
    + destruct (decide (term = Z.max term last)) as [<-|Hne]; [right; by rewrite lookup_insert_eq|].
      replace (Z.max term last) with last by lia.
      destruct Hin as [?|?]; [by left|right]. by rewrite lookup_insert_ne by lia.
Qed.

(** If no term has two claimants, a round does not fail the test, and what it
    finds is a claimant of the last term. *)
Lemma leaderRound_spec n ts :
  askable (seq 0 n) ts → (∀ term, (length (claimants term (seq 0 n)) ≤ 1)%nat) →
  (∀ term i, i ∈ claimants term (seq 0 n) → 0 ≤ term) →
  ∃ r, leaderRound connected ask n ts = Ret r ∧
    match r with
    | Some l => ∃ term, l ∈ claimants term (seq 0 n) ∧
        ∀ term' j, j ∈ claimants term' (seq 0 n) → term' ≤ term
    | None => ∀ term, claimants term (seq 0 n) = []
    end.
Proof.
  intros Ha Hone Hpos.
  destruct (collectLeaders_spec (seq 0 n) ts ∅) as (leaders & Hl & Hne & Hspec); [done|..].
  { intros term. by rewrite lookup_empty. }
  assert (∀ term l, leaders !! term = Some l → l = claimants term (seq 0 n) ∧ l ≠ []) as Hin.
  { intros term l Hterm. specialize (Hspec term). rewrite Hterm, lookup_empty in Hspec. cbn in Hspec.
    split; [done|]. intros ->. by eapply Hne. }
  assert (∀ term i, i ∈ claimants term (seq 0 n) → is_Some (leaders !! term)) as Hsome.
  { intros term i Hi. specialize (Hspec term). rewrite lookup_empty in Hspec. cbn in Hspec. rewrite <-Hspec in Hi.
    destruct (leaders !! term); [by eexists|]. by apply elem_of_nil in Hi. }
  unfold leaderRound. rewrite Hl. cbn [mbind outcome_bind].
  rewrite decide_True by (intros term l [-> _]%Hin; apply Hone).
  pose proof (last_term leaders) as [Hle Hlast]. cbn zeta in Hle, Hlast |- *.
  set (last := map_fold _ _ _) in *.
  destruct (map_to_list leaders) as [|[term0 l0] rest] eqn:Em.
  - exists None. split; [done|]. intros term. apply map_to_list_empty_iff in Em. subst leaders.
    specialize (Hspec term). by rewrite !lookup_empty in Hspec.
  - assert (leaders !! term0 = Some l0) as Ht0 by (apply elem_of_map_to_list; rewrite Em; by left).
    assert (is_Some (leaders !! last)) as [l Hll].
    { destruct Hlast as [Hl1|?]; [|done]. exfalso. destruct (Hin _ _ Ht0) as [-> Hn].
      specialize (Hle term0 (ex_intro _ _ Ht0)). destruct (claimants term0 (seq 0 n)) as [|x xs] eqn:Ec; [done|].
      specialize (Hpos term0 x). rewrite Ec in Hpos. specialize (Hpos ltac:(by left)). lia. }
    rewrite Hll. cbn. destruct (Hin _ _ Hll) as [Hlc Hn]. destruct l as [|x xs]; [done|].
    exists (Some x). split; [done|]. exists last. rewrite <-Hlc. split; [by left|].
    intros term' j Hj%Hsome. by apply Hle.
Qed.
End leaders.
End raft_test.
