(* ===== verification/RaftTestNet.v ===== *)
(** * RaftTestNet: Raft's tests on a cluster of Raft peers

    The servers of [RaftTest], each around a peer of [RaftNet], and the tester
    they report to.  A server is a thread: it receives a message of its peer,
    calls the tester, keeps its own log, takes snapshots and reports errors, with
    a step for each of these, so that peers, other servers and crashes come in
    between.

    In executions in which no reply of an older term is processed and the tester
    answers its servers: [raft_tests_pass]: no server ever reports an error and
    the tester's checks of committed values do not fail; [one_agrees]: a command
    that [one] saw committed is the only one ever committed at its index;
    [one_leader_passes]: [checkOneLeader], which asks the servers one after the
    other, never finds two leaders of a term.  [lost_check_fails_test]: the
    second condition is needed. *)

From S2P Require Import Prelude Persister Raft RaftTest RaftFacts RaftVolatile RaftNet RaftSafety RaftQuorum RaftCommit RaftSources RaftApply.

Section raft_test_net.
Context {Cmd : Type} `{!EqDecision Cmd, !Codec (Z * list (option Cmd)), !Codec (PersistedState Cmd)}.
Context (snapshot : bool).
Notation Sys := (@Sys Cmd).
Notation Node := (@Node Cmd).

(** ** Steps *)

(** A server process; [s_idx] is the index of the last message processed. *)
Record TSrv := mkTSrv { s_pc : @SrvPc Cmd; s_got : bool; s_idx : Z; s_rf : @rfsrv Cmd }.

Record TWorld := mkTWorld { tw_net : Sys; tw_srv : list TSrv; tw_test : @Test Cmd }.
Implicit Types (w : TWorld) (s : TSrv) (t : @raftServer Cmd) (ts : @Test Cmd) (nd : Node) (g : @Ghost Cmd).

Inductive TLabel :=
| TNet (l : @Label Cmd)          (* a peer, or the network *)
| TStart (i : nat) (cmd : Cmd)   (* the tester calls StartRPC *)
| THand (i : nat)                (* a message goes through applyCh *)
| TDone (i : nat)                (* the peer's applier goes on after it *)
| TBegin (i : nat) (f : Fate)    (* newRfsrv, after Make *)
| TMsg (i : nat) (f : Fate)      (* a message, up to its call of the tester *)
| TApply (i : nat)               (* the server's own log and its snapshot *)
| TReport (i : nat) (f : Fate)   (* the test of err_msg *)
| TRestart (i : nat).            (* crash and newRfsrv *)

Definition mail (pc : @SrvPc Cmd) : option (ApplyMsg Cmd) :=
  match pc with Holding m => Some m | Checked c k _ => Some (CommandMsg c k) | _ => None end.

Definition set_pc pc s : TSrv := mkTSrv pc (s_got s) (s_idx s) (s_rf s).

(** [newRfsrv] after [Make]: the snapshot the server starts with. *)
Definition begin (i : nat) (f : Fate) (sn : bytes) s ts : outcome (TSrv * Test) :=
  if decide (snapshot = true ∧ 0 < zlen sn) then
    let '(rf, err) := ingestSnap sn (-1) (s_rf s) in
    if decide (err ≠ NoErr) then
      ts ← proxyApplyErr f i err ts; Ret (mkTSrv Exited (s_got s) (s_idx s) rf, ts)
    else
      ts ← proxyIngestLog f i (rfs_log rf) ts; Ret (mkTSrv AtRange (s_got s) (s_idx s) rf, ts)
  else Ret (set_pc AtRange s, ts).

(** A message in [applier]. *)
Definition applierMsg (i : nat) (f : Fate) (m : ApplyMsg Cmd) s ts : outcome (TSrv * Test) :=
  match m with
  | CommandMsg c k =>
      '(ts, r) ← proxyCheckLogs f i c k ts;
      Ret (mkTSrv (Reporting (applierErr k r)) (s_got s) k (s_rf s), ts)
  | SnapshotMsg _ _ k => Ret (mkTSrv AtRange (s_got s) k (s_rf s), ts)
  end.

(** A message in [applierSnap], up to the answer of the tester. *)
Definition applierSnapMsg (i : nat) (f : Fate) (m : ApplyMsg Cmd) s ts : outcome (TSrv * Test) :=
  match m with
  | SnapshotMsg data _ k =>
      let '(rf, err) := ingestSnap data k (s_rf s) in
      ts ← proxyIngestLog f i (rfs_log rf) ts;
      Ret (mkTSrv (Reporting err) (s_got s) k rf, ts)
  | CommandMsg c k =>
      if decide (k ≠ rfs_lastApplied (s_rf s) + 1) then Ret (set_pc (Checked c k ApplyOutOfOrder) s, ts)
      else '(ts, r) ← proxyCheckLogs f i c k ts; Ret (set_pc (Checked c k (applierSnapErr k r)) s, ts)
  end.

(** The rest of it: the server's log, and the snapshot that may be due. *)
Definition applyLocal (c : option Cmd) (k : Z) (err : errMsg) s (rf : Raft Cmd) : outcome (TSrv * Raft Cmd) :=
  let rs := recordCommand c k (s_rf s) in
  rf ← match dueSnapshot k rs with Some data => Snapshot k data rf | None => Ret rf end;
  Ret (mkTSrv (Reporting err) (s_got s) k rs, rf).

Definition report (i : nat) (f : Fate) (err : errMsg) s ts : outcome (TSrv * Test) :=
  ts ← (if decide (err ≠ NoErr) then proxyApplyErr f i err ts else Ret ts);
  Ret (set_pc AtRange s, ts).

(** A step of server [i] that only concerns the server and the tester. *)
Definition srvStep (i : nat) (r : outcome (TSrv * Test)) w : option TWorld :=
  '(s, ts) ← ok r; Some (mkTWorld (tw_net w) (<[i := s]> (tw_srv w)) ts).

Definition tstep (l : TLabel) w : option TWorld :=
  match l with
  | TNet l =>
      guard (is_net l = true);;
      net ← sys_step l (tw_net w);
      Some (mkTWorld net (tw_srv w) (tw_test w))
  | TStart i cmd =>
      net ← sys_step (LClient i cmd) (tw_net w);
      Some (mkTWorld net (tw_srv w) (tw_test w))
  | THand i =>
      nd ← nodes (tw_net w) !! i;
      s ← tw_srv w !! i;
      msg ← nd_inflight nd;
      match s_pc s, s_got s with
      | AtRange, false => srvStep i (Ret (mkTSrv (Holding msg) true (s_idx s) (s_rf s), tw_test w)) w
      | _, _ => None
      end
  | TDone i =>
      s ← tw_srv w !! i;
      guard (s_got s = true);;
      net ← applyDone i (tw_net w);
      Some (mkTWorld net (<[i := mkTSrv (s_pc s) false (s_idx s) (s_rf s)]> (tw_srv w)) (tw_test w))
  | TBegin i f =>
      s ← tw_srv w !! i;
      match s_pc s with Starting sn => srvStep i (begin i f sn s (tw_test w)) w | _ => None end
  | TMsg i f =>
      s ← tw_srv w !! i;
      match s_pc s with
      | Holding m =>
          srvStep i ((if snapshot then applierSnapMsg else applierMsg) i f m s (tw_test w)) w
      | _ => None
      end
  | TApply i =>
      s ← tw_srv w !! i;
      nd ← nodes (tw_net w) !! i;
      match s_pc s with
      | Checked c k err =>
          '(s, rf) ← ok (applyLocal c k err s (nd_raft nd));
          Some (mkTWorld (set_node i (set_raft rf nd) (tw_net w)) (<[i := s]> (tw_srv w)) (tw_test w))
      | _ => None
      end
  | TReport i f =>
      s ← tw_srv w !! i;
      match s_pc s with Reporting err => srvStep i (report i f err s (tw_test w)) w | _ => None end
  | TRestart i =>
      nd ← nodes (tw_net w) !! i;
      net ← RaftNet.restart i 0 (tw_net w);
      nd' ← nodes net !! i;
      Some (mkTWorld net
        (<[i := mkTSrv (Starting (ReadSnapshot (persister (nd_raft nd)))) false (lastApplied (nd_raft nd'))
                  (mkRfsrv 0 ∅)]> (tw_srv w)) (tw_test w))
  end.

(** No reply of an older term, and the tester answers. *)
Definition tlabel_ok (l : TLabel) w : Prop :=
  match l with
  | TNet l => fresh_label l (tw_net w) = true
  | TBegin _ f | TMsg _ f | TReport _ f => f = Served
  | _ => True
  end.

Definition test_step w w' : Prop := ∃ l, tlabel_ok l w ∧ tstep l w = Some w'.

(** [n] servers that have never run, and a new test. *)
Definition test_init (n : nat) : TWorld :=
  mkTWorld (sys_init n) (replicate n (mkTSrv (Starting []) false 0 (mkRfsrv 0 ∅)))
    (mkTest (replicate n (Some newRaftServer)) 0 false).

Lemma test_init_makeTest n : makeTest n = Ret (tw_test (test_init n)).
Proof. apply makeTest_new. Qed.

(** ** The invariant *)

Context (n : nat).

(** The command [v] belongs at index [k]. *)
Definition slot_ok g (k : Z) (v : option Cmd) : Prop :=
  (k = 0 ∧ v = None) ∨ (0 < k ∧ decided n g (Z.to_nat k) v).

Definition map_ok g (log : gmap Z (option Cmd)) : Prop := ∀ k v, log !! k = Some v → slot_ok g k v.
Definition covers (log : gmap Z (option Cmd)) (idx : Z) : Prop := ∀ k, 0 < k ≤ idx → is_Some (log !! k).

Definition test_snap g (k : Z) (data : bytes) : Prop :=
  (k = 0 ∧ data = []) ∨
  (snapshot = true ∧ 0 ≤ k ∧ ∃ log, data = enc (k, xlog k log) ∧ map_ok g log ∧ covers log k).

Abbreviation any_cmd := (λ _ : Cmd, True).

Definition pc_ok g s t : Prop :=
  match s_pc s with
  | Starting sn => test_snap g (s_idx s) sn ∧ s_rf s = mkRfsrv 0 ∅
  | Exited => False
  | Checked _ k err => snapshot = true ∧ err = NoErr ∧ is_Some (logs t !! k)
  | Reporting err => err = NoErr
  | AtRange | Holding _ => True
  end.

Definition is_starting (pc : @SrvPc Cmd) : bool := match pc with Starting _ => true | _ => false end.

Record tsrv_inv g nd s t : Prop := {
  ti_inbox : inbox_inv n test_snap any_cmd g nd (s_got s) (mail (s_pc s)) (s_idx s);
  ti_pc : pc_ok g s t;
  ti_local : snapshot = true → is_starting (s_pc s) = false →
    rfs_lastApplied (s_rf s) = s_idx s ∧ map_ok g (rfs_log (s_rf s)) ∧ covers (rfs_log (s_rf s)) (s_idx s);
  ti_covers : is_starting (s_pc s) = false → covers (logs t) (s_idx s);
}.

(** What the tester has recorded of a server is no error and was decided. *)
Definition rec_ok g t : Prop := applyErr t = NoErr ∧ map_ok g (logs t).

Record tinv g w : Prop := {
  tv_net : net_ok n test_snap any_cmd g (tw_net w);
  tv_srvs : length (tw_srv w) = n;
  tv_recs : length (t_srvs (tw_test w)) = n;
  tv_rec i p : t_srvs (tw_test w) !! i = Some p → ∃ t, p = Some t ∧ rec_ok g t;
  tv_srv i nd s t : nodes (tw_net w) !! i = Some nd → tw_srv w !! i = Some s →
    t_srvs (tw_test w) !! i = Some (Some t) → tsrv_inv g nd s t;
}.

(** ** Logs *)

Lemma slot_ok_mono g g' k v : gext g g' → slot_ok g k v → slot_ok g' k v.
Proof. intros Hg [?|[? ?]]; [by left|right]. split; [done|by eapply decided_mono]. Qed.

Lemma map_ok_mono g g' log : gext g g' → map_ok g log → map_ok g' log.
Proof. intros Hg H k v Hk. by eapply slot_ok_mono, H. Qed.

Lemma map_ok_insert g k v log : slot_ok g k v → map_ok g log → map_ok g (<[k := v]> log).
Proof. intros Hs H k' v' [[<- <-]|[_ ?]]%lookup_insert_Some; [done|by apply H]. Qed.

Lemma covers_insert log k v idx : covers log idx → k = idx + 1 → covers (<[k := v]> log) k.
Proof.
  intros H -> k' Hk. destruct (decide (k' = idx + 1)) as [->|Hne]; [by rewrite lookup_insert_eq|].
  rewrite lookup_insert_ne by done. apply H. lia.
Qed.

(** Inserting elsewhere keeps what is covered. *)
Lemma covers_insert_keep log k v idx : covers log idx → covers (<[k := v]> log) idx.
Proof.
  intros H k' Hk. destruct (decide (k' = k)) as [->|Hne]; [by rewrite lookup_insert_eq|].
  rewrite lookup_insert_ne by done. by apply H.
Qed.

Lemma slot_unique g w k v v' : tinv g w → slot_ok g k v → slot_ok g k v' → v = v'.
Proof.
  intros Hw [[-> ->]|[Hk H]] [[? ->]|[Hk' H']]; [done|lia..|].
  eapply decided_unique; [apply (no_cm _ _ _ _ _ (tv_net _ _ Hw))..|done|done].
Qed.

Lemma test_snap_mono g g' k data : gext g g' → test_snap g k data → test_snap g' k data.
Proof.
  intros Hg [?|(? & ? & log & -> & Hm & Hc)]; [by left|right]. split_and!; [done..|]. exists log.
  split_and!; [done|by eapply map_ok_mono|done].
Qed.

Lemma logOf_lookup j xs (log : gmap Z (option Cmd)) k :
  logOf j xs log !! k = if decide (j ≤ k < j + zlen xs) then xs !! Z.to_nat (k - j) else log !! k.
Proof.
  revert j log. induction xs as [|x xs IH]; intros j log; cbn [logOf]; unfold zlen in *.
  - rewrite decide_False by (cbn; lia). done.
  - rewrite IH. cbn [length]. destruct (decide (k = j)) as [->|Hne].
    + rewrite decide_False, decide_True, lookup_insert_eq, Z.sub_diag by lia. done.
    + case_decide; [rewrite decide_True by lia|rewrite decide_False by lia; by rewrite lookup_insert_ne].
      by replace (Z.to_nat (k - j)) with (S (Z.to_nat (k - (j + 1)))) by lia.
Qed.

(** A snapshot gives a server the log it was taken of. *)
Lemma ingest_ok g k log idx rs :
  0 ≤ k → map_ok g log → covers log k → idx = -1 ∨ idx = k →
  ∃ log', ingestSnap (enc (k, xlog k log)) idx rs = (mkRfsrv k log', NoErr) ∧ map_ok g log' ∧ covers log' k.
Proof.
  intros Hk Hm Hc Hidx. unfold ingestSnap. rewrite decide_False by apply enc_nonempty.
  rewrite dec_enc, decide_False by lia. eexists. split; [done|].
  assert (∀ j, logOf 0 (xlog k log) ∅ !! j = if decide (0 ≤ j ≤ k) then Some (default None (log !! j)) else None) as Hl.
  { intros j. rewrite logOf_lookup. unfold xlog, zlen. rewrite length_fmap, length_seq.
    destruct (decide (0 ≤ j ≤ k)); [rewrite decide_True by lia|by rewrite decide_False by lia].
    rewrite list_lookup_fmap, lookup_seq_lt by lia. cbn. do 3 f_equal. lia. }
  split.
  - intros j v. rewrite Hl. case_decide; [|done]. intros [= <-].
    destruct (log !! j) as [v|] eqn:Ej; [by apply Hm|]. destruct (decide (j = 0)) as [->|]; [by left|].
    destruct (Hc j) as [v Hv]; [lia|congruence].
  - intros j Hj. rewrite Hl, decide_True by lia. by eexists.
Qed.

(** ** Frames *)

Lemma tsrv_mono g g' nd nd' s t :
  gext g g' → applier nd' = applier nd → tsrv_inv g nd s t → tsrv_inv g' nd' s t.
Proof.
  intros Hg Ha []. split.
  - eapply inbox_mono; [exact test_snap_mono|done..].
  - unfold pc_ok in *. destruct (s_pc s); try done. destruct ti_pc0. split; [by eapply test_snap_mono|done].
  - intros H1 H2. destruct (ti_local0 H1 H2) as (? & ? & ?). split_and!; [done|by eapply map_ok_mono|done].
  - done.
Qed.

Lemma rec_ok_mono g g' t : gext g g' → rec_ok g t → rec_ok g' t.
Proof. intros Hg [? ?]. split; [done|by eapply map_ok_mono]. Qed.

(** A step at server [i]. *)
Lemma tinv_frame g g' w net' i s' t' ts' :
  tinv g w → gext g g' → net_ok n test_snap any_cmd g' net' →
  (∀ j nd', j ≠ i → nodes net' !! j = Some nd' →
     ∃ nd, nodes (tw_net w) !! j = Some nd ∧ applier nd' = applier nd) →
  t_srvs ts' = <[i := Some t']> (t_srvs (tw_test w)) → rec_ok g' t' →
  (∀ nd', nodes net' !! i = Some nd' → tsrv_inv g' nd' s' t') →
  tinv g' (mkTWorld net' (<[i := s']> (tw_srv w)) ts').
Proof.
  intros Hw Hg Hno Hother Hts Hrec Hi.
  split; cbn; rewrite ?Hts, ?length_insert; [done|apply Hw..| |].
  - intros j p [(-> & <- & _)|[_ Hj]]%list_lookup_insert_Some; [by exists t'|].
    destruct (tv_rec _ _ Hw _ _ Hj) as (t & -> & ?). exists t. split; [done|by eapply rec_ok_mono].
  - intros j nd' s t Hj Hs Ht. destruct (decide (j = i)) as [->|Hne].
    + apply list_lookup_insert_Some in Hs as [(_ & <- & _)|[? _]]; [|done].
      apply list_lookup_insert_Some in Ht as [(_ & [= <-] & _)|[? _]]; [|done]. by apply Hi.
    + rewrite list_lookup_insert_ne in Hs by done. rewrite list_lookup_insert_ne in Ht by done.
      destruct (Hother j nd') as (nd & Hnd & Ha); [done..|]. eapply tsrv_mono; [done..|].
      by eapply (tv_srv _ _ Hw).
Qed.

Lemma tinv_at g w i s : tinv g w → tw_srv w !! i = Some s →
  ∃ nd t, nodes (tw_net w) !! i = Some nd ∧ t_srvs (tw_test w) !! i = Some (Some t) ∧
    rec_ok g t ∧ tsrv_inv g nd s t.
Proof.
  intros Hw Hi. pose proof (lookup_lt_Some _ _ _ Hi) as Hlt. rewrite (tv_srvs _ _ Hw) in Hlt.
  destruct (lookup_lt_is_Some_2 (nodes (tw_net w)) i) as [nd Hnd].
  { by rewrite (inv_length _ _ _ (cm_inv _ _ _ (no_cm _ _ _ _ _ (tv_net _ _ Hw)))). }
  destruct (lookup_lt_is_Some_2 (t_srvs (tw_test w)) i) as [p Hp]; [by rewrite (tv_recs _ _ Hw)|].
  destruct (tv_rec _ _ Hw _ _ Hp) as (t & -> & Hr). exists nd, t. split_and!; [done..|].
  by eapply (tv_srv _ _ Hw).
Qed.

(** A step of a server and the tester only. *)
Lemma tinv_srv g w i nd s' t' ts' :
  tinv g w → nodes (tw_net w) !! i = Some nd →
  t_srvs ts' = <[i := Some t']> (t_srvs (tw_test w)) → rec_ok g t' → tsrv_inv g nd s' t' →
  tinv g (mkTWorld (tw_net w) (<[i := s']> (tw_srv w)) ts').
Proof.
  intros Hw Hi Hts Hrec Hs. eapply tinv_frame; [done|apply gext_refl|apply Hw|by eauto|done..|].
  intros nd'. rewrite Hi. by intros [= <-].
Qed.

(** ** The tester *)

Lemma CheckLogs_ok g w i t v k :
  tinv g w → t_srvs (tw_test w) !! i = Some (Some t) → 0 < k → slot_ok g k v →
  ∃ ts', CheckLogs i v k (tw_test w) = Ret (ts', (NoErr, bool_decide (is_Some (logs t !! (k - 1))))) ∧
    t_srvs ts' = <[i := Some (mkRaftServer (proxy t) (applyErr t) (<[k := v]> (logs t)))]> (t_srvs (tw_test w)).
Proof.
  intros Hw Hi Hk Hv. unfold CheckLogs.
  assert (index (t_srvs (tw_test w)) (Z.of_nat i) = Ret (Some t)) as ->.
  { apply index_Ret. rewrite Nat2Z.id. split; [lia|done]. }
  cbn [mbind outcome_bind]. rewrite compareLogs_ok; [by eexists|].
  intros p (j & Hj)%list_elem_of_lookup. destruct (tv_rec _ _ Hw _ _ Hj) as (s & -> & _ & Hm).
  exists s. split; [done|]. intros v' Hv'%Hm. by eapply slot_unique.
Qed.

Lemma IngestLog_ok i t log ts :
  t_srvs ts !! i = Some (Some t) →
  ∃ ts', IngestLog i log ts = Ret ts' ∧
    t_srvs ts' = <[i := Some (mkRaftServer (proxy t) (applyErr t) log)]> (t_srvs ts).
Proof.
  intros Hi. unfold IngestLog. assert (srvAt i ts = Ret t) as -> by by apply srvAt_Ret. by eexists.
Qed.

(** What a check tells a server whose record is complete. *)
Lemma prev_ok k t : covers (logs t) (k - 1) → ¬ (1 < k ∧ bool_decide (is_Some (logs t !! (k - 1))) = false).
Proof. intros Hc [Hk Hb%bool_decide_eq_false]. apply Hb, Hc. lia. Qed.

(** ** The steps of a server return, and keep the invariant *)

Definition keeps_tinv g w i (r : outcome (TSrv * Test)) : Prop :=
  ∃ s' ts', r = Ret (s', ts') ∧ tinv g (mkTWorld (tw_net w) (<[i := s']> (tw_srv w)) ts').

Lemma begin_ok g w i s sn :
  tinv g w → tw_srv w !! i = Some s → s_pc s = Starting sn → keeps_tinv g w i (begin i Served sn s (tw_test w)).
Proof.
  intros Hw Hi Hpc. destruct (tinv_at _ _ _ _ Hw Hi) as (nd & t & Hnd & Ht & Hr & Hs).
  pose proof Hs as [Hin Hp _ _]. unfold pc_ok in Hp. rewrite Hpc in Hp. rewrite Hpc in Hin.
  destruct Hp as [Hp Hrf]. unfold begin. case_decide as Hd.
  - destruct Hp as [[_ ->]|(Hsn & Hk & log & -> & Hm & Hc)]; [unfold zlen in Hd; cbn in Hd; lia|].
    destruct (ingest_ok g (s_idx s) log (-1) (s_rf s)) as (log' & -> & Hm' & Hc'); [by auto..|].
    rewrite decide_False by (by intros ?). cbn [proxyIngestLog rfs_log].
    destruct (IngestLog_ok i t log' _ Ht) as (ts' & -> & Hts). eexists _, _. split; [done|].
    eapply tinv_srv; [done..|by destruct Hr|]. by split.
  - exists (set_pc AtRange s), (tw_test w). split; [done|].
    eapply tinv_srv; [done..|by rewrite list_insert_id|done|].
    destruct Hp as [[Hz _]|(Hsn & _ & log & -> & _)].
    2: { exfalso. apply Hd. split; [done|]. pose proof (enc_nonempty (s_idx s, xlog (s_idx s) log)).
         destruct (enc _); [done|]. unfold zlen. cbn. lia. }
    split; cbn; try done.
    + intros _ _. rewrite Hrf, Hz. split_and!; [done|by intros ? ?|intros k; lia].
    + intros _ k. rewrite Hz. lia.
Qed.

Lemma applier_ok g w i s m :
  snapshot = false → tinv g w → tw_srv w !! i = Some s → s_pc s = Holding m →
  keeps_tinv g w i (applierMsg i Served m s (tw_test w)).
Proof.
  intros Hsn Hw Hi Hpc. destruct (tinv_at _ _ _ _ Hw Hi) as (nd & t & Hnd & Ht & [He Hm] & [Hin _ _ Hc]).
  rewrite Hpc in Hin, Hc. destruct (ib_mail _ _ _ _ _ _ _ _ Hin _ eq_refl) as (Hok & _).
  destruct m as [c k|data tm k]; cbn in Hok.
  2: { destruct Hok as [? [[? _]|(? & _)]]; [lia|congruence]. }
  destruct Hok as (Hk & Hpos & cmd & -> & _ & Hd). cbn [applierMsg proxyCheckLogs].
  assert (slot_ok g k (Some cmd)) as Hslot by by right.
  destruct (CheckLogs_ok g w i t (Some cmd) k) as (ts' & -> & Hts); [done..|]. cbn [mbind outcome_bind].
  specialize (Hc eq_refl). eexists _, _. split; [done|]. eapply tinv_srv; [done..|split; [done|by apply map_ok_insert]|].
  split; cbn.
  - by eapply inbox_process in Hin.
  - unfold pc_ok, applierErr. cbn. rewrite decide_False; [done|]. apply prev_ok.
    by replace (k - 1) with (s_idx s) by lia.
  - congruence.
  - intros _. eapply covers_insert; [done|lia].
Qed.

Lemma applierSnap_ok g w i s m :
  snapshot = true → tinv g w → tw_srv w !! i = Some s → s_pc s = Holding m →
  keeps_tinv g w i (applierSnapMsg i Served m s (tw_test w)).
Proof.
  intros Hsn Hw Hi Hpc. destruct (tinv_at _ _ _ _ Hw Hi) as (nd & t & Hnd & Ht & [He Hm] & [Hin _ Hl Hc]).
  rewrite Hpc in Hin, Hc, Hl. destruct (ib_mail _ _ _ _ _ _ _ _ Hin _ eq_refl) as (Hok & _).
  specialize (Hc eq_refl). destruct (Hl Hsn eq_refl) as (Hla & Hlm & Hlc).
  destruct m as [c k|data tm k]; cbn in Hok; cbn [applierSnapMsg].
  - destruct Hok as (Hk & Hpos & cmd & -> & _ & Hd). rewrite decide_False by lia. cbn [proxyCheckLogs].
    assert (slot_ok g k (Some cmd)) as Hslot by by right.
    destruct (CheckLogs_ok g w i t (Some cmd) k) as (ts' & -> & Hts); [done..|]. cbn [mbind outcome_bind].
    eexists _, _. split; [done|]. eapply tinv_srv; [done..|split; [done|by apply map_ok_insert]|].
    split; cbn; try done.
    + unfold pc_ok, applierSnapErr. cbn. rewrite decide_False, lookup_insert_eq; [done|].
      intros [_ ?]. eapply prev_ok; [|done]. by replace (k - 1) with (s_idx s) by lia.
    + intros _. by apply covers_insert_keep.
  - destruct Hok as [Hpos [[? _]|(_ & Hk & log & -> & Hsm & Hsc)]]; [lia|].
    destruct (ingest_ok g k log k (s_rf s)) as (log' & -> & Hm' & Hc'); [by auto..|].
    cbn [proxyIngestLog rfs_log]. destruct (IngestLog_ok i t log' _ Ht) as (ts' & -> & Hts).
    eexists _, _. split; [done|]. eapply tinv_srv; [done..|]. split; cbn; try done.
    by eapply inbox_process in Hin.
Qed.

Lemma report_ok g w i s err :
  tinv g w → tw_srv w !! i = Some s → s_pc s = Reporting err →
  keeps_tinv g w i (report i Served err s (tw_test w)).
Proof.
  intros Hw Hi Hpc. destruct (tinv_at _ _ _ _ Hw Hi) as (nd & t & Hnd & Ht & Hr & [Hin Hp Hl Hc]).
  unfold pc_ok in Hp. rewrite Hpc in Hin, Hp, Hl, Hc. unfold report. rewrite decide_False by (intros Hne; by apply Hne).
  eexists _, _. split; [done|]. eapply tinv_srv; [done..|by rewrite list_insert_id|done|]. by split.
Qed.

Lemma msg_ok g w i s m :
  tinv g w → tw_srv w !! i = Some s → s_pc s = Holding m →
  keeps_tinv g w i ((if snapshot then applierSnapMsg else applierMsg) i Served m s (tw_test w)).
Proof.
  intros. destruct snapshot eqn:E; [by apply applierSnap_ok|by apply applier_ok].
Qed.

(** The server's own log, and its snapshot. *)
Lemma apply_ok g w i nd s c k err :
  tinv g w → nodes (tw_net w) !! i = Some nd → tw_srv w !! i = Some s → s_pc s = Checked c k err →
  ∃ s' rf g', applyLocal c k err s (nd_raft nd) = Ret (s', rf) ∧ gext g g' ∧
    tinv g' (mkTWorld (set_node i (set_raft rf nd) (tw_net w)) (<[i := s']> (tw_srv w)) (tw_test w)).
Proof.
  intros Hw Hnd Hi Hpc. destruct (tinv_at _ _ _ _ Hw Hi) as (nd1 & t & Hnd1 & Ht & Hr & [Hin Hp Hl Hc]).
  rewrite Hnd in Hnd1. injection Hnd1 as <-. unfold pc_ok in Hp. rewrite Hpc in Hin, Hp, Hl, Hc.
  destruct Hp as (Hsn & -> & Hk), (Hl Hsn eq_refl) as (Hla & Hlm & Hlc).
  destruct (ib_mail _ _ _ _ _ _ _ _ Hin _ eq_refl) as ((-> & Hpos & cmd & -> & _ & Hd) & _).
  set (rs := recordCommand (Some cmd) (s_idx s + 1) (s_rf s)).
  assert (map_ok g (rfs_log rs)) as Hrm by (apply map_ok_insert; [by right|done]).
  assert (covers (rfs_log rs) (s_idx s + 1)) as Hrc by (by eapply covers_insert).
  assert (∃ rf, match dueSnapshot (s_idx s + 1) rs with Some data => Snapshot (s_idx s + 1) data (nd_raft nd) | None => Ret (nd_raft nd) end = Ret rf ∧
    (rf = nd_raft nd ∨ ∃ k data, may_snapshot nd k ∧ test_snap g k data ∧ Snapshot k data (nd_raft nd) = Ret rf))
    as (rf & Hrf & Hcase).
  { unfold dueSnapshot. case_decide; [|by exists (nd_raft nd); auto].
    apply inbox_may_snapshot in Hin as Hmay.
    destruct (Snapshot_returns n test_snap any_cmd g (tw_net w) i nd (s_idx s + 1)
      (enc (s_idx s + 1, xlog (s_idx s + 1) (rfs_log rs)))) as (rf & Hrf); [apply Hw|done..|].
    exists rf. split; [done|right]. eexists _, _. split_and!; [done| |done]. right. split_and!; [done|lia|].
    by exists (rfs_log rs). }
  destruct (peer_step n test_snap any_cmd test_snap_mono g (tw_net w) i nd rf) as (g' & Hg & Hno & Ha);
    [apply Hw|done|by naive_solver|].
  exists (mkTSrv (Reporting NoErr) (s_got s) (s_idx s + 1) rs), rf, g'.
  split_and!; [unfold applyLocal; fold rs; by rewrite Hrf|done|].
  eapply tinv_frame; [done..|by apply other_nodes|by rewrite list_insert_id|by eapply rec_ok_mono|].
  intros nd' ->%node_at. apply (tsrv_mono g g' nd); [done..|]. split; cbn; try done.
  - by eapply inbox_process in Hin.
  - intros _ j Hj. destruct (decide (j = s_idx s + 1)) as [->|]; [done|apply Hc; [done|lia]].
Qed.

(** ** Every step *)

Lemma net_tinv g w l net' :
  tinv g w → fresh_label l (tw_net w) = true → sys_step l (tw_net w) = Some net' →
  is_net l = true ∨ (∃ i cmd, l = LClient i cmd) →
  ∃ g', gext g g' ∧ tinv g' (mkTWorld net' (tw_srv w) (tw_test w)).
Proof.
  intros Hw Hf Hnet Hl.
  destruct (net_ok_step n test_snap any_cmd test_snap_mono g (tw_net w) l net') as (g' & Hg & Hno);
    [apply Hw|done..|by destruct Hl as [?|(? & ? & ->)]; [destruct l|]|].
  exists g'. split; [done|]. split; cbn; [done|apply Hw|apply Hw|..].
  - intros i p (t & -> & ?)%(tv_rec _ _ Hw). exists t. split; [done|by eapply rec_ok_mono].
  - intros j nd' s t Hj Hs Ht. apply (tsrv_mono g g' nd' nd'); [done..|].
    assert (∃ nd, nodes (tw_net w) !! j = Some nd ∧ ∀ got mail idx,
      inbox_inv n test_snap any_cmd g nd got mail idx → inbox_inv n test_snap any_cmd g nd' got mail idx)
      as (nd & Hnd & Hin).
    { destruct Hl as [Hl|(i & cmd & ->)]; [by eapply inbox_net; [exact test_snap_mono|..]|].
      destruct (net_step_frame _ _ _ _ _ Hnet Hj) as (nd & Hnd & Ha); [done|]. exists nd. split; [done|].
      intros ? ? ?. eapply inbox_mono; [exact test_snap_mono|apply gext_refl|done]. }
    destruct (tv_srv _ _ Hw _ _ _ _ Hnd Hs Ht). split; try done. by apply Hin.
Qed.

Lemma restart_tinv g w i nd net nd' :
  tinv g w → nodes (tw_net w) !! i = Some nd → RaftNet.restart i 0 (tw_net w) = Some net → nodes net !! i = Some nd' →
  ∃ g', gext g g' ∧ tinv g' (mkTWorld net
    (<[i := mkTSrv (Starting (ReadSnapshot (persister (nd_raft nd)))) false (lastApplied (nd_raft nd')) (mkRfsrv 0 ∅)]>
      (tw_srv w)) (tw_test w)).
Proof.
  intros Hw Hi Hnet Hi'.
  destruct (net_ok_step n test_snap any_cmd test_snap_mono g (tw_net w) (LRestart i 0) net) as (g' & Hg & Hno);
    [apply Hw|done..|].
  pose proof Hnet as (nd1 & rf1 & Hi1 & Hrun & ->)%restart_Some. rewrite Hi in Hi1. injection Hi1 as <-.
  rewrite (inv_length _ _ _ (cm_inv _ _ _ (no_cm _ _ _ _ _ (tv_net _ _ Hw)))) in Hrun.
  pose proof (restart_at n test_snap any_cmd g (tw_net w) i nd rf1 (tv_net _ _ Hw) Hi Hrun) as Hsnap.
  apply (node_at i (mkNode rf1 ∅ None) nd' (tw_net w)) in Hi' as ->.
  destruct (lookup_lt_is_Some_2 (t_srvs (tw_test w)) i) as [p Hp].
  { rewrite (tv_recs _ _ Hw). apply lookup_lt_Some in Hi.
    by rewrite (inv_length _ _ _ (cm_inv _ _ _ (no_cm _ _ _ _ _ (tv_net _ _ Hw)))) in Hi. }
  destruct (tv_rec _ _ Hw _ _ Hp) as (t & -> & Hr).
  exists g'. split; [done|]. eapply (tinv_frame g); [done..| |by rewrite list_insert_id|by eapply rec_ok_mono|].
  - intros j nd' Hne Hj. eapply (net_step_frame (LRestart i 0)); [done|done|]. cbn. congruence.
  - intros nd' ->%(node_at i _ _ (tw_net w)). split; cbn; try done.
    split; [by eapply test_snap_mono|done].
Qed.

Lemma hand_tinv g w i w' : tinv g w → tstep (THand i) w = Some w' → tinv g w'.
Proof.
  intros Hw H. cbn [tstep] in H. apply bind_Some in H as (nd & Hnd & H).
  apply bind_Some in H as (s & Hi & H). apply bind_Some in H as (msg & Hmsg & H).
  destruct (s_pc s) eqn:Hpc; try done. destruct (s_got s) eqn:Hgot; try done. injection H as <-.
  destruct (tinv_at _ _ _ _ Hw Hi) as (nd1 & t & Hnd1 & Ht & Hr & [Hin Hp Hl Hc]).
  rewrite Hnd in Hnd1. injection Hnd1 as <-. rewrite Hpc in Hin, Hl, Hc. rewrite Hgot in Hin.
  eapply tinv_srv; [done..|by rewrite list_insert_id|done|]. split; cbn; try done.
  eapply inbox_hand; [apply Hw|done..].
Qed.

Lemma done_tinv g w i w' : tinv g w → tstep (TDone i) w = Some w' → ∃ g', gext g g' ∧ tinv g' w'.
Proof.
  intros Hw H. cbn [tstep] in H. apply bind_Some in H as (s & Hi & H).
  apply bind_Some in H as (Hgot & _ & H). apply bind_Some in H as (net & Hnet & [= <-]).
  destruct (net_ok_step n test_snap any_cmd test_snap_mono g (tw_net w) (LApplyDone i) net) as (g' & Hg & Hno);
    [apply Hw|done..|].
  destruct (tinv_at _ _ _ _ Hw Hi) as (nd1 & t & Hnd1 & Ht & Hr & [Hin Hp Hl Hc]).
  pose proof Hnet as (nd & msg & Hnd & Hmsg & ->)%applyDone_Some.
  rewrite Hnd in Hnd1. injection Hnd1 as <-. rewrite Hgot in Hin. exists g'. split; [done|].
  eapply (tinv_frame g); [done..| |by rewrite list_insert_id|by eapply rec_ok_mono|].
  - intros j nd' Hne Hj. eapply (net_step_frame (LApplyDone i)); [done|done|]. cbn. congruence.
  - intros nd' ->%(node_at i _ _ (tw_net w)). eapply (tsrv_mono g); [done..|]. split; try done.
    eapply inbox_done; [apply Hw|done..].
Qed.

Lemma test_step_tinv g w w' : tinv g w → test_step w w' → ∃ g', gext g g' ∧ tinv g' w'.
Proof.
  intros Hw (l & Hl & H).
  assert (∀ i r, keeps_tinv g w i r → srvStep i r w = Some w' → ∃ g', gext g g' ∧ tinv g' w') as Hsrv.
  { intros i r (s' & ts' & -> & ?) [= <-]. exists g. split; [apply gext_refl|done]. }
  destruct l as [l|i cmd|i|i|i f|i f|i|i f|i]; cbn [tlabel_ok] in Hl; subst.
  - cbn [tstep] in H. apply bind_Some in H as (Hnl & _ & H). apply bind_Some in H as (net & Hnet & [= <-]).
    eapply net_tinv; [done..|by left].
  - cbn [tstep] in H. apply bind_Some in H as (net & Hnet & [= <-]).
    eapply net_tinv; [done| |done|]; eauto.
  - exists g. split; [apply gext_refl|by eapply hand_tinv].
  - by eapply done_tinv.
  - cbn [tstep] in H. apply bind_Some in H as (s & Hi & H). destruct (s_pc s) eqn:Hpc; try done.
    eapply Hsrv; [|exact H]. by apply begin_ok.
  - cbn [tstep] in H. apply bind_Some in H as (s & Hi & H). destruct (s_pc s) eqn:Hpc; try done.
    eapply Hsrv; [|exact H]. by apply msg_ok.
  - cbn [tstep] in H. apply bind_Some in H as (s & Hi & H). apply bind_Some in H as (nd & Hnd & H).
    destruct (s_pc s) eqn:Hpc; try done.
    destruct (apply_ok g w i nd s c k err) as (s' & rf & g' & Hrun & Hg & Hw'); [done..|].
    rewrite Hrun in H. injection H as <-. by exists g'.
  - cbn [tstep] in H. apply bind_Some in H as (s & Hi & H). destruct (s_pc s) eqn:Hpc; try done.
    eapply Hsrv; [|exact H]. by apply report_ok.
  - cbn [tstep] in H. apply bind_Some in H as (nd & Hnd & H). apply bind_Some in H as (net & Hnet & H).
    apply bind_Some in H as (nd' & Hnd' & [= <-]). by eapply restart_tinv.
Qed.

Lemma test_run_tinv g w w' : tinv g w → rtc test_step w w' → ∃ g', gext g g' ∧ tinv g' w'.
Proof.
  intros Hw Hrun. revert g Hw. induction Hrun as [w|w1 w2 w3 Hstep _ IH]; intros g Hw.
  - exists g. split; [apply gext_refl|done].
  - destruct (test_step_tinv _ _ _ Hw Hstep) as (g2 & Hg2 & Hw2).
    destruct (IH g2 Hw2) as (g3 & ? & ?). exists g3. split; [by eapply gext_trans|done].
Qed.

Lemma test_init_tinv : ∃ g, tinv g (test_init n).
Proof.
  destruct (net_ok_init n test_snap any_cmd) as (g & Hg); [by left|]. exists g.
  split; cbn; rewrite ?length_replicate; try done.
  - intros i p [-> _]%lookup_replicate. exists newRaftServer. split; [done|]. split; [done|by intros ? ?].
  - intros i nd s t Hnd [-> _]%lookup_replicate [[= ->] _]%lookup_replicate.
    rewrite list_lookup_fmap in Hnd. apply fmap_Some in Hnd as (j & _ & ->). split; cbn; try done.
    split; [by left|done].
Qed.

(** ** Executions *)

Definition test_reachable w : Prop := rtc test_step (test_init n) w.

(** The worlds of an execution, in order. *)
Inductive execution : list TWorld → Prop :=
| exec_init : execution [test_init n]
| exec_step ws w w' : execution (ws ++ [w]) → test_step w w' → execution (ws ++ [w; w']).

(** One history for all of them. *)
Lemma execution_tinv ws : execution ws →
  ∃ g, (∃ w, last ws = Some w ∧ tinv g w) ∧ ∀ w, w ∈ ws → ∃ g1, gext g1 g ∧ tinv g1 w.
Proof.
  induction 1 as [|ws w w' _ (g & (w1 & Hlast & Hw1) & Hall) Hstep].
  - destruct test_init_tinv as (g & Hg). exists g. split; [by exists (test_init n)|].
    intros w ->%list_elem_of_singleton. exists g. split; [apply gext_refl|done].
  - rewrite last_snoc in Hlast. injection Hlast as <-.
    destruct (test_step_tinv _ _ _ Hw1 Hstep) as (g' & Hg & Hw').
    exists g'. split; [exists w'; split; [|done]; change [w; w'] with ([w] ++ [w']); by rewrite (assoc_L (++)), last_snoc|].
    intros w1 Hin. change [w; w'] with ([w] ++ [w']) in Hin. rewrite (assoc_L (++)) in Hin.
    apply elem_of_app in Hin as [(g1 & ? & ?)%Hall| ->%list_elem_of_singleton].
    + exists g1. split; [by eapply gext_trans|done].
    + exists g'. split; [apply gext_refl|done].
Qed.

(** A server that has something to do. *)
Definition busyStep (i : nat) (pc : @SrvPc Cmd) : option TLabel :=
  match pc with
  | Starting _ => Some (TBegin i Served)
  | Holding _ => Some (TMsg i Served)
  | Checked _ _ _ => Some (TApply i)
  | Reporting _ => Some (TReport i Served)
  | AtRange | Exited => None
  end.

(** ** The theorems *)

(** C9: Raft passes its own tests' checks.  Servers of the tests around Raft
    peers, with or without snapshots, in any execution in which no reply of an
    older term is processed and the tester answers every call of its servers (not
    otherwise, by [state_machine_safety_violated] and [lost_check_fails_test]):
    at every moment no server has
    reported an error (a command applied out of order, a command that differs
    from what another server applied at the index, a snapshot that cannot be
    decoded or is of another index) and none has exited; nCommitted does not
    fail the test, for any index; and a server that is not waiting for its peer
    can go on. *)
Theorem raft_tests_pass w :
  test_reachable w →
  (∀ i p, t_srvs (tw_test w) !! i = Some p → ∃ t, p = Some t ∧ applyErr t = NoErr) ∧
  (∀ i s, tw_srv w !! i = Some s → s_pc s ≠ Exited) ∧
  (∀ k, returns (nCommitted k (tw_test w))) ∧
  (∀ i s, tw_srv w !! i = Some s → s_pc s ≠ AtRange →
     ∃ l w', busyStep i (s_pc s) = Some l ∧ tstep l w = Some w').
Proof.
  intros Hr. destruct test_init_tinv as (g0 & Hg0). destruct (test_run_tinv _ _ _ Hg0 Hr) as (g & _ & Hw).
  split_and!.
  - intros i p (t & -> & ? & _)%(tv_rec _ _ Hw). by exists t.
  - intros i s Hi Hpc. destruct (tinv_at _ _ _ _ Hw Hi) as (nd & t & _ & _ & _ & [_ Hp _ _]).
    unfold pc_ok in Hp. by rewrite Hpc in Hp.
  - intros k. apply (countCommitted_ok (slot_ok g k)); [by intros; eapply slot_unique| |done].
    intros p (i & Hi)%list_elem_of_lookup. destruct (tv_rec _ _ Hw _ _ Hi) as (t & -> & He & Hm).
    exists t. split_and!; [done..|]. intros v. apply Hm.
  - intros i s Hi Hne. destruct (tinv_at _ _ _ _ Hw Hi) as (nd & t & Hnd & _ & _ & [_ Hp _ _]).
    unfold pc_ok in Hp. destruct (s_pc s) as [sn| |m|c k err|err|] eqn:Hpc; try done;
      (eexists _; cbn [busyStep tstep]).
    + destruct (begin_ok g w i s sn) as (s' & ts' & Hrun & _); [done..|].
      eexists. split; [done|]. cbn [tstep]. rewrite Hi. cbn. rewrite Hpc. unfold srvStep. by rewrite Hrun.
    + destruct (msg_ok g w i s m) as (s' & ts' & Hrun & _); [done..|].
      eexists. split; [done|]. cbn [tstep]. rewrite Hi. cbn. rewrite Hpc. unfold srvStep. by rewrite Hrun.
    + destruct (apply_ok g w i nd s c k err) as (s' & rf & g' & Hrun & _); [done..|].
      eexists. split; [done|]. cbn [tstep]. rewrite Hi. cbn. rewrite Hnd. cbn. rewrite Hpc. by rewrite Hrun.
    + destruct (report_ok g w i s err) as (s' & ts' & Hrun & _); [done..|].
      eexists. split; [done|]. cbn [tstep]. rewrite Hi. cbn. rewrite Hpc. unfold srvStep. by rewrite Hrun.
Qed.

(** The servers that the tester knows to have committed [cmd] at [k]. *)
Definition committedAt (k : Z) (cmd : Cmd) ts : list (option (@raftServer Cmd)) :=
  filter (λ p, p ≫= entry k = Some (Some cmd)) (t_srvs ts).

(** C10: What [one] reports is final.  In an execution in which no reply of an
    older term is processed and the tester answers every call of its servers: if
    [one], polling the tester's records at moments of it, returns an index, then at one of these moments at
    least the expected number of servers, and at least one, had committed the
    command there, and at every moment of the execution, before and after,
    whatever server has committed something at that index has committed this
    command. *)
Theorem one_agrees ws m cmd e retry rounds fin k :
  execution ws → one m cmd e retry rounds fin = Ret k → k ≠ -1 →
  (∀ r ts, r ∈ rounds → ts ∈ rd_polls r → ∃ w, w ∈ ws ∧ ts = tw_test w) →
  (∃ w, w ∈ ws ∧ Z.max 1 e ≤ zlen (committedAt k cmd (tw_test w))) ∧
  ∀ w i t v, w ∈ ws → t_srvs (tw_test w) !! i = Some (Some t) → entry k t = Some v → v = Some cmd.
Proof.
  intros Hex Hone Hk Hpolls. destruct (one_sound _ _ _ _ _ _ _ Hone Hk) as (r & i & ts & nd & Hr & _ & Hts & Hn & Hpos & He).
  destruct (Hpolls r ts Hr Hts) as (w1 & Hw1 & ->).
  apply countCommitted_spec in Hn as (ss & Hss & Hcount & Hall & _); [|done].
  assert (committedAt k cmd (tw_test w1) = Some <$> filter (λ t, is_Some (entry k t)) ss) as Hcom.
  { unfold committedAt. rewrite Hss. clear -Hall. induction ss as [|s ss IH]; [done|]. rewrite fmap_cons.
    destruct (Hall s) as [_ Hs]; [by left|]. assert (∀ t, t ∈ ss → applyErr t = NoErr ∧ ∀ v, entry k t = Some v → v = Some cmd) as Hss.
    { intros t ?. apply Hall. by right. }
    destruct (entry k s) as [v|] eqn:Ev.
    - rewrite (filter_cons_True _ (Some s)) by (cbn; by rewrite Ev, (Hs v)).
      rewrite (filter_cons_True _ s) by (by rewrite Ev). rewrite fmap_cons. f_equal. by apply IH.
    - rewrite (filter_cons_False _ (Some s)) by (cbn; by rewrite Ev).
      rewrite (filter_cons_False _ s) by (rewrite Ev; by intros [? ?]). by apply IH. }
  split.
  - exists w1. split; [done|]. rewrite Hcom. unfold zlen in *. rewrite length_fmap. lia.
  - destruct (execution_tinv _ Hex) as (g & (wl & _ & Hwl) & Hg).
    destruct (filter (λ t, is_Some (entry k t)) ss) as [|s rest] eqn:Ef; [unfold zlen in Hcount; cbn in Hcount; lia|].
    assert (s ∈ filter (λ t, is_Some (entry k t)) ss) as [[v0 Hv0] Hs]%list_elem_of_filter by (rewrite Ef; by left).
    destruct (Hall s Hs) as [_ Hv]. pose proof (Hv _ Hv0) as ->.
    destruct (Hg _ Hw1) as (g1 & Hg1 & Hi1).
    assert (slot_ok g k (Some cmd)) as Hslot.
    { eapply slot_ok_mono; [done|]. apply list_elem_of_lookup in Hs as (j & Hj).
      destruct (tv_rec _ _ Hi1 j (Some s)) as (t & [= <-] & _ & Hm); [by rewrite Hss, list_lookup_fmap, Hj|].
      by apply Hm. }
    intros w j t v Hw Ht Hv'. destruct (Hg _ Hw) as (g2 & Hg2 & Hi2).
    destruct (tv_rec _ _ Hi2 _ _ Ht) as (t' & [= <-] & _ & Hm).
    eapply (slot_unique g wl); [done| |done]. eapply slot_ok_mono; [done|]. by apply Hm.
Qed.

(** Every answer that claims leadership was given at a moment of [ws]. *)
Definition answers (ws : list TWorld) (ask : nat → Z * bool) : Prop :=
  ∀ i term, ask i = (term, true) →
  ∃ w nd, w ∈ ws ∧ nodes (tw_net w) !! i = Some nd ∧ GetState (nd_raft nd) = (term, true).

Lemma answer_history (ws : list TWorld) g i term w nd :
  (∀ w, w ∈ ws → ∃ g1, gext g1 g ∧ tinv g1 w) → w ∈ ws → nodes (tw_net w) !! i = Some nd →
  GetState (nd_raft nd) = (term, true) → 0 ≤ term ∧ ∃ tl, h_tlog (g_h g) !! term = Some (i, tl).
Proof.
  intros Hall Hw Hi [= <- Hl%bool_decide_eq_true]. destruct (Hall _ Hw) as (g1 & Hg & Hinv).
  pose proof (no_cm _ _ _ _ _ (tv_net _ _ Hinv)) as Hcm.
  pose proof (inv_nodes _ _ _ (cm_inv _ _ _ Hcm) _ _ Hi) as Hok. split.
  - destruct (nk_valid _ _ _ _ _ _ Hok) as [Hd _].
    apply (nc_terms _ _ _ _ _ (cm_nodes _ _ _ Hcm _ _ Hi) dummy). by eapply list_elem_of_lookup_2.
  - destruct (ge_tlog _ _ Hg _ _ _ (nk_leader _ _ _ _ _ _ Hok Hl)) as (ext & Htl). by eexists.
Qed.

Lemma leaderRound_passes ws connected ask ts :
  execution ws → answers ws ask → askable connected (seq 0 n) ts →
  ∃ r, leaderRound connected ask n ts = Ret r ∧
    ∀ l, r = Some l → connected l = true ∧ ∃ term, ask l = (term, true) ∧
      ∀ j term', (j < n)%nat → connected j = true → ask j = (term', true) → term' ≤ term.
Proof.
  intros Hex Hans Hask. destruct (execution_tinv _ Hex) as (g & _ & Hall).
  assert (∀ term i, i ∈ claimants connected ask term (seq 0 n) → 0 ≤ term ∧ ∃ tl, h_tlog (g_h g) !! term = Some (i, tl)) as Hc.
  { intros term i [[_ Hi] _]%list_elem_of_filter. destruct (Hans _ _ Hi) as (w & nd & ? & ? & ?).
    by eapply answer_history. }
  destruct (leaderRound_spec connected ask n ts) as (r & Hr & Hspec); [done|..].
  - intros term. assert (NoDup (claimants connected ask term (seq 0 n))) as Hnd by apply NoDup_filter, NoDup_seq.
    destruct (claimants connected ask term (seq 0 n)) as [|x [|y l]] eqn:E; cbn; [lia..|exfalso].
    destruct (Hc term x) as (_ & tl & Hx); [rewrite E; by left|].
    destruct (Hc term y) as (_ & tl' & Hy); [rewrite E; by right; left|].
    rewrite Hx in Hy. injection Hy as -> _. apply NoDup_cons in Hnd as [Hnx _]. apply Hnx. by left.
  - intros term i Hi. by apply (Hc term i).
  - exists r. split; [done|]. intros l ->. destruct Hspec as (term & [[? ?] _]%list_elem_of_filter & Hmax).
    split; [done|]. exists term. split; [done|]. intros j term' Hj ? ?. apply (Hmax term' j).
    apply list_elem_of_filter. split; [done|]. apply elem_of_seq. lia.
Qed.

(** C35: checkOneLeader never finds two leaders, in an execution in which no
    reply of an older term is processed and the tester answers every call of its
    servers.  It asks the servers one after the other, while elections go on; if every claim of leadership it hears was
    true at some moment of the execution, it does not fail with two leaders of a
    term: it fails only if no round heard of a leader, and what it returns is a
    connected server that claimed the highest term heard in its round. *)
Theorem one_leader_passes ws rounds :
  execution ws →
  (∀ connected ask ts, (connected, ask, ts) ∈ rounds → answers ws ask ∧ askable connected (seq 0 n) ts) →
  checkOneLeader n rounds = Panic (Fatal "expected one leader, got none") ∨
  ∃ l connected ask ts, checkOneLeader n rounds = Ret l ∧ (connected, ask, ts) ∈ rounds ∧ connected l = true ∧
    ∃ term, ask l = (term, true) ∧
      ∀ j term', (j < n)%nat → connected j = true → ask j = (term', true) → term' ≤ term.
Proof.
  intros Hex Hrounds. unfold checkOneLeader.
  assert (∀ r, r ∈ take 10 rounds → r ∈ rounds) as Hsub by (intros r; apply subseteq_take).
  induction (take 10 rounds) as [|[[connected ask] ts] rs IH]; [by left|]. cbn [leaderRounds].
  destruct (Hrounds connected ask ts) as [Hans Hask]; [apply Hsub; by left|].
  destruct (leaderRound_passes ws connected ask ts) as (r & -> & Hr); [done..|]. cbn [mbind outcome_bind].
  destruct r as [l|].
  - destruct (Hr l eq_refl) as (? & term & ? & ?). right. exists l, connected, ask, ts.
    split_and!; [done|apply Hsub; by left|done|by exists term].
  - apply IH. intros r ?. apply Hsub. by right.
Qed.
End raft_test_net.
