(* ===== verification/RaftTestRuns.v ===== *)
(** * RaftTestRuns: executions of Raft's tests

    Three servers of the tests with commands that are numbers: with snapshots, a
    server that restarts from its own snapshot and one that gets it from the
    leader; without snapshots, what [one] and [checkOneLeader] find; and a check
    whose call to the tester is lost. *)

From S2P Require Import Prelude Persister Raft RaftTest RaftNet RaftCommit RaftApply RaftTestNet.

#[local] Instance rt_log_codec : Codec (Z * list (option nat)) := countable_codec.
#[local] Instance rt_state_codec : Codec (PersistedState nat) := countable_codec.

Abbreviation NatWorld := (@TWorld nat).
Abbreviation NatLabel := (@TLabel nat).

Section runs.
Context (snapshot : bool).

(** No reply of an older term, and the tester answers. *)
Definition good (l : NatLabel) (w : NatWorld) : bool :=
  match l with
  | TNet l => fresh_label l (tw_net w)
  | TBegin _ f | TMsg _ f | TReport _ f => match f with Served => true | _ => false end
  | _ => true
  end.

(** The worlds of a run, the first one included. *)
Fixpoint worlds (ls : list NatLabel) (w : NatWorld) : option (list NatWorld) :=
  match ls with
  | [] => Some [w]
  | l :: ls =>
      guard (good l w = true);;
      w' ← tstep snapshot l w;
      ws ← worlds ls w';
      Some (w :: ws)
  end.

Lemma good_step l w w' : good l w = true → tstep snapshot l w = Some w' → test_step snapshot w w'.
Proof. intros Hg Hs. exists l. split; [|done]. by destruct l as [| | | |i []|i []| |i []|]. Qed.

Lemma worlds_execution n ls w ws pre :
  worlds ls w = Some ws → execution snapshot n (pre ++ [w]) → execution snapshot n (pre ++ ws).
Proof.
  revert w ws pre. induction ls as [|l ls IH]; intros w ws pre H Hex; cbn in H.
  - by injection H as <-.
  - apply bind_Some in H as (Hg & _ & H). apply bind_Some in H as (w' & Hs & H).
    apply bind_Some in H as (ws' & Hws & [= <-]).
    replace (pre ++ w :: ws') with ((pre ++ [w]) ++ ws') by (by rewrite <-app_assoc).
    eapply IH; [done|]. rewrite <-app_assoc. cbn. apply exec_step; [done|by eapply good_step].
Qed.

Lemma worlds_reachable n ls w ws w' :
  worlds ls w = Some ws → last ws = Some w' → test_reachable snapshot n w → test_reachable snapshot n w'.
Proof.
  revert w ws. induction ls as [|l ls IH]; intros w ws H Hl Hr; cbn in H.
  - injection H as <-. by injection Hl as <-.
  - apply bind_Some in H as (Hg & _ & H). apply bind_Some in H as (w1 & Hs & H).
    apply bind_Some in H as (ws' & Hws & [= <-]). eapply (IH w1); [done| |].
    + destruct ws'; [|done]. by destruct ls; cbn in Hws; [|repeat (apply bind_Some in Hws as (? & _ & Hws))].
    + eapply rtc_r; [done|by eapply good_step].
Qed.
End runs.

Definition peers (ls : list (@Label nat)) : list NatLabel := TNet <$> ls.
Definition begins : list NatLabel := (λ i, TBegin i Served) <$> [0; 1; 2]%nat.
Definition elects : list NatLabel := peers [LElect 0 0; LDeliver 0 0; LReply 0 0].

(** Server [i] takes a command, with and without snapshots. *)
Definition takes (i : nat) : list NatLabel :=
  peers [LApplyTake i] ++ [THand i; TMsg i Served; TReport i Served; TDone i].
Definition takesSnap (i : nat) : list NatLabel :=
  peers [LApplyTake i] ++ [THand i; TDone i; TMsg i Served; TApply i; TReport i Served].

(** ** With snapshots *)

(** Nine commands are committed by servers 0 and 1, which take a snapshot after
    the ninth; server 2 gets it from the leader, which then restarts. *)
Definition nineCommands : list NatLabel :=
  begins ++ elects ++ (TStart 0 <$> seq 1 9) ++ peers [LReplicate 0 1; LDeliver 2 0; LReply 2 0] ++
  mjoin (replicate 9 (takesSnap 0)) ++
  peers [LReplicate 0 2; LDeliver 3 0; LApplyTake 2] ++ [THand 2; TMsg 2 Served; TReport 2 Served] ++
  [TRestart 0; TBegin 0 Served].

Definition recorded (w : NatWorld) : list (option (errMsg * list (option (option nat)))) :=
  let seen (t : @raftServer nat) := (applyErr t, (λ k, entry (Z.of_nat k) t) <$> seq 0 10) in
  (λ p : option raftServer, seen <$> p) <$> t_srvs (tw_test w).

Lemma nineCommands_run :
  (ws ← worlds true nineCommands (test_init 3); w ← last ws; Some (recorded w, (λ s, rfs_lastApplied (s_rf s)) <$> tw_srv w)) =
  Some ([Some (NoErr, Some <$> (None :: (Some <$> seq 1 9)));
         Some (NoErr, replicate 10 None);
         Some (NoErr, Some <$> (None :: (Some <$> seq 1 9)))], [9; 0; 9]).
Proof. vm_compute. reflexivity. Qed.

Lemma raft_tests_pass_witness : ∃ w,
  test_reachable true 3 w ∧ recorded w = [Some (NoErr, Some <$> (None :: (Some <$> seq 1 9)));
    Some (NoErr, replicate 10 None); Some (NoErr, Some <$> (None :: (Some <$> seq 1 9)))] ∧
  ∀ k, returns (nCommitted k (tw_test w)).
Proof.
  pose proof nineCommands_run as H. apply bind_Some in H as (ws & Hws & H). apply bind_Some in H as (w & Hl & H).
  injection H as H _. exists w.
  assert (test_reachable true 3 w) as Hr by (eapply worlds_reachable; [exact Hws|exact Hl|apply rtc_refl]).
  split; [exact Hr|]. split; [exact H|]. exact (proj1 (proj2 (proj2 (raft_tests_pass true 3 w Hr)))).
Defined.

(** ** Without snapshots *)

Definition oneCommand : list NatLabel :=
  begins ++ elects ++ [TStart 0 7%nat] ++ peers [LReplicate 0 1; LDeliver 2 0; LReply 2 0] ++
  takes 0 ++ peers [LReplicate 0 1; LDeliver 3 0] ++ takes 1.

(** [one] asks server 1, which is no leader, then 2, then 0, and polls. *)
Definition askedOne (polls : list (@Test nat)) : list (@Round nat) :=
  [mkRound (λ i, if decide (i = 0%nat) then Some (1, true) else Some (0, false)) polls].

Lemma oneCommand_run :
  (ws ← worlds false oneCommand (test_init 3);
   w ← last ws; Some (one 3 7%nat 2 false (askedOne (tw_test <$> ws)) false, recorded w)) =
  Some (Ret 1, [Some (NoErr, None :: Some (Some 7%nat) :: replicate 8 None);
                Some (NoErr, None :: Some (Some 7%nat) :: replicate 8 None); Some (NoErr, replicate 10 None)]).
Proof. vm_compute. reflexivity. Qed.

Lemma one_agrees_witness : ∃ ws, execution false 3 ws ∧
  one 3 7%nat 2 false (askedOne (tw_test <$> ws)) false = Ret 1 ∧
  (∃ w, w ∈ ws ∧ 2 ≤ zlen (committedAt 1 7%nat (tw_test w))) ∧
  ∀ w i t v, w ∈ ws → t_srvs (tw_test w) !! i = Some (Some t) → entry 1 t = Some v → v = Some 7%nat.
Proof.
  pose proof oneCommand_run as H. apply bind_Some in H as (ws & Hws & H). apply bind_Some in H as (w & Hl & H).
  injection H as Hone _. exists ws.
  assert (execution false 3 ws) as Hex.
  { apply (worlds_execution false 3 oneCommand (test_init 3) ws []); [exact Hws|apply exec_init]. }
  split; [exact Hex|]. split; [exact Hone|].
  apply (one_agrees false 3 ws 3 7%nat 2 false (askedOne (tw_test <$> ws)) false 1 Hex Hone); [lia|].
  intros r ts Hr Hts. apply list_elem_of_singleton in Hr as ->. cbn in Hts.
  apply list_elem_of_fmap in Hts as (w1 & -> & Hw1). exists w1. split; [exact Hw1|reflexivity].
Defined.

(** The tester asks after the election; server 2 is disconnected. *)
Definition connected01 (i : nat) : bool := bool_decide (i < 2)%nat.
Definition asked01 (i : nat) : Z * bool := if decide (i = 0%nat) then (1, true) else (1, false).

Lemma elected_run :
  (ws ← worlds false (begins ++ elects) (test_init 3); w ← last ws; nd ← nodes (tw_net w) !! 0%nat;
   Some (GetState (nd_raft nd), tw_test w)) = Some ((1, true), tw_test (test_init 3)).
Proof. vm_compute. reflexivity. Qed.

Lemma one_leader_passes_witness : ∃ ws, execution false 3 ws ∧ answers ws asked01 ∧
  checkOneLeader 3 [(connected01, asked01, tw_test (test_init (Cmd := nat) 3))] = Ret 0%nat.
Proof.
  pose proof elected_run as H. apply bind_Some in H as (ws & Hws & H). apply bind_Some in H as (w & Hl & H).
  apply bind_Some in H as (nd & Hnd & H). assert (GetState (nd_raft nd) = (1, true)) as Hget by congruence. exists ws.
  assert (execution false 3 ws) as Hex.
  { apply (worlds_execution false 3 (begins ++ elects) (test_init 3) ws []); [exact Hws|apply exec_init]. }
  assert (answers ws asked01) as Hans.
  { intros i term. unfold asked01. case_decide as Hi; [intros [= <-]|intros [=]]. subst i. exists w, nd.
    split; [by apply last_Some_elem_of|]. split; [exact Hnd|exact Hget]. }
  split; [exact Hex|]. split; [exact Hans|].
  destruct (one_leader_passes false 3 ws [(connected01, asked01, tw_test (test_init (Cmd := nat) 3))] Hex)
    as [Hno|(l & c & a & ts & Hl' & _)].
  - intros c a ts Hin. apply list_elem_of_singleton in Hin. injection Hin as -> -> ->. split; [exact Hans|].
    intros i Hi _. apply elem_of_seq in Hi. exists newRaftServer. split; [|reflexivity].
    assert (i < 3)%nat as Hlt by lia.
    exact (proj2 (lookup_replicate 3 (Some newRaftServer) (Some newRaftServer) i) (conj eq_refl Hlt)).
  - vm_compute in Hno. discriminate Hno.
  - rewrite Hl'. vm_compute in Hl'. congruence.
Defined.

(** ** A lost check *)

(** The call with which server 0 reports its first command is lost. *)
Definition lostCheck : list NatLabel :=
  begins ++ elects ++ [TStart 0 7%nat] ++ peers [LReplicate 0 1; LDeliver 2 0; LReply 2 0; LApplyTake 0] ++ [THand 0].

(** A call to the tester that fails is taken for an error of Raft: the server
    reports it, and the test fails, although nothing was applied wrongly. *)
Lemma lost_check_fails_test : ∃ w w1 w2,
  test_reachable false 3 w ∧ tstep false (TMsg 0 Undelivered) w = Some w1 ∧
  tstep false (TReport 0 Served) w1 = Some w2 ∧ nCommitted 1 (tw_test w2) = Panic (Fatal "apply error").
Proof.
  assert ((ws ← worlds false lostCheck (test_init 3); w ← last ws;
    w1 ← tstep false (TMsg 0 Undelivered) w; w2 ← tstep false (TReport 0 Served) w1;
    Some (nCommitted 1 (tw_test w2))) = Some (Panic (Fatal "apply error"))) as H by (vm_compute; reflexivity).
  apply bind_Some in H as (ws & Hws & H). apply bind_Some in H as (w & Hl & H).
  apply bind_Some in H as (w1 & H1 & H). apply bind_Some in H as (w2 & H2 & H). injection H as H.
  exists w, w1, w2. split_and!; [|done..]. eapply worlds_reachable; [done..|apply rtc_refl].
Qed.
