(* ===== verification/ShardTest.v ===== *)
(** * ShardTest: how the tests change a sharded cluster

    Models the part of [src/src/shardkv/test.go] that makes groups, lets them
    join and leave through a shard controller, and judges whether a second
    controller has finished what a partitioned one had begun.

    The functions are given what [ChangeConfigTo] does to the configuration
    store, because other controllers may run meanwhile; [changeAlone] is a
    controller that runs alone, by the steps of [ShardCtrler].

    [join_leave_alone]: alone, groups that join and leave again bring every group
    back and the checks of the tests succeed; [recovery_passes]: what
    [partitionCtrler] expects of the second controller holds as soon as the first
    one has stored its next configuration; [thirteenth_group_not_member]: the
    tests' notion of a member needs a shard. *)

From stdpp Require Import pretty.
From S2P Require Import Prelude RpcApi KvModel KvSpec ShardCfg ShardCtrler.

Section shard_test.
Context {CT : ConfigText}.
Context (ServerName : Tgid → nat → string).

Definition NSRV : nat := 3.

(** [ts.ngid] starts after the group that is in use. *)
Definition firstGid : Tgid := Gid1 + 1.

Definition newGid (ngid : Tgid) : Tgid * Tgid := (ngid, ngid + 1).

Fixpoint groups (n : nat) (ngid : Tgid) : list Tgid * Tgid :=
  match n with
  | O => ([], ngid)
  | S n => let '(gid, ngid) := newGid ngid in let '(grps, ngid) := groups n ngid in (gid :: grps, ngid)
  end.

Definition SrvNames (gid : Tgid) : list string := ServerName gid <$> seq 0 NSRV.

(** The store of the configurations, and the groups whose servers run. *)
Record Cluster := mkCluster { c_store : kvmap; c_running : gset Tgid }.
Implicit Types (cl : Cluster) (m : kvmap) (cfg : ShardConfig).

Definition MakeGroupStart (gid : Tgid) cl : Cluster := mkCluster (c_store cl) ({[gid]} ∪ c_running cl).
Definition ExitGroup (gid : Tgid) cl : Cluster := mkCluster (c_store cl) (c_running cl ∖ {[gid]}).

(** The new configuration, if rebalancing ends. *)
Definition newConfig (r : option ShardConfig) : outcome ShardConfig :=
  match r with Some cfg => Ret cfg | None => Panic (GoPanic "rebalancing does not end") end.

Definition setupKVService cl : outcome Cluster :=
  let cl := MakeGroupStart Gid1 cl in
  '(r, _) ← JoinBalance MakeShardConfig [(Gid1, SrvNames Gid1)];
  scfg ← newConfig r;
  Ret (mkCluster (InitConfig scfg (c_store cl)) (c_running cl)).

Definition checkMember (gid : Tgid) cl : outcome bool :=
  cfg ← Query currentKey (c_store cl); Ret (IsMember cfg gid).

Section change.
Context (change : ShardConfig → kvmap → outcome kvmap).

Definition changeTo (cfg : ShardConfig) cl : outcome Cluster :=
  m ← change cfg (c_store cl); Ret (mkCluster m (c_running cl)).

Definition join (gid : Tgid) (srvs : list string) cl : outcome Cluster :=
  cfg ← Query currentKey (c_store cl);
  '(r, ok) ← JoinBalance (Copy cfg) [(gid, srvs)];
  if ok : bool then newcfg ← newConfig r; changeTo newcfg cl
  else Panic (Fatal "join: group is already present").

Fixpoint joinGroups (gids : list Tgid) cl : outcome (Cluster * bool) :=
  match gids with
  | [] => Ret (cl, true)
  | gid :: gids =>
      cl ← join gid (SrvNames gid) (MakeGroupStart gid cl);
      ok ← checkMember gid cl;
      if ok : bool then joinGroups gids cl else Ret (cl, false)
  end.

Definition leave (gid : Tgid) cl : outcome Cluster :=
  cfg ← Query currentKey (c_store cl);
  '(r, ok) ← LeaveBalance (Copy cfg) [gid];
  if ok : bool then newcfg ← newConfig r; changeTo newcfg cl
  else Panic (Fatal "leave: group is already not present").

Fixpoint leaveGroups (gids : list Tgid) cl : outcome (Cluster * bool) :=
  match gids with
  | [] => Ret (cl, true)
  | gid :: gids =>
      cl ← leave gid cl;
      still ← checkMember gid cl;
      if still : bool then Ret (cl, false) else leaveGroups gids (ExitGroup gid cl)
  end.
End change.

(** ** A controller alone *)

(** Its puts are executed and answered, and no worker finds it superseded. *)
Fixpoint alone (fuel : nat) (c : Ctrl) m : Ctrl * kvmap :=
  match fuel with
  | O => (c, m)
  | S fuel => match ctrlStep true true false c m with Some (c, m) => alone fuel c m | None => (c, m) end
  end.

(** Five steps at most: two reads, two puts and the migration. *)
Definition runAlone (c : Ctrl) m : outcome kvmap :=
  match alone 5 c m with
  | (Finished _ _ _, m) | (Returned, m) => Ret m
  | _ => Panic (Fatal "controller")
  end.

Definition changeAlone (cfg : ShardConfig) m : outcome kvmap := runAlone (ChangeConfigTo cfg) m.

(** ** The verdict of partitionCtrler *)

Inductive Phase := Joining | Leaving.

(** What the second controller must have left behind, if the configuration had
    number [num] before and the first controller was in [phase] with [gid]. *)
Definition recovered (num : Tnum) (phase : Phase) (gid : Tgid) cfg : outcome unit :=
  if decide (Num cfg ≤ num) then Panic (Fatal "didn't recover")
  else match phase, IsMember cfg gid with
  | Joining, false | Leaving, true => Panic (Fatal "didn't recover correctly")
  | _, _ => Ret tt
  end.

(** The second controller and the check. *)
Definition recover (num : Tnum) (phase : Phase) (gid : Tgid) m : outcome kvmap :=
  m ← runAlone InitController m;
  cfg ← Query currentKey m;
  _ ← recovered num phase gid cfg;
  Ret m.

(** ** Members *)

Lemma groups_spec n g : groups n g = ((λ i, g + Z.of_nat i) <$> seq 0 n, g + Z.of_nat n).
Proof.
  revert g. induction n as [|n IH]; intros g; cbn; [f_equal; lia|]. rewrite IH.
  f_equal; [|lia]. f_equal; [lia|]. rewrite <-fmap_S_seq, <-list_fmap_compose. apply list_fmap_ext.
  intros i x _. cbn. lia.
Qed.

Lemma count_le_1_NoDup (sh : list Tgid) : (∀ g, count_of sh g ≤ 1) → NoDup sh.
Proof.
  induction sh as [|x sh IH]; intros H; [constructor|]. apply NoDup_cons. split.
  - intros Hin. specialize (H x). rewrite count_of_cons in H. rewrite decide_True in H by done.
    enough (0 < count_of sh x) by lia. rewrite count_of_filter.
    assert (x ∈ filter (λ y, y = x) sh) as Hf by by apply list_elem_of_filter.
    destruct (filter _ sh); [by apply elem_of_nil in Hf|]. unfold zlen. cbn. lia.
  - apply IH. intros g. specialize (H g). rewrite count_of_cons in H. case_decide; lia.
Qed.

(** With at most as many groups as shards every group has a shard. *)
Lemma balanced_members cfg g :
  cfg_wf cfg → assigned cfg → balanced cfg → Z.of_nat (size (dom (Groups cfg))) ≤ NShards →
  g ∈ dom (Groups cfg) → IsMember cfg g = true.
Proof.
  unfold assigned. rewrite Forall_forall. intros Hwf Has Hb Hsz Hg. unfold IsMember. apply bool_decide_eq_true.
  destruct (decide (g ∈ Shards cfg)) as [|Hn]; [done|exfalso].
  assert (count_of (Shards cfg) g = 0) as Hz.
  { pose proof (count_of_nonneg (Shards cfg) g). destruct (decide (0 < count_of (Shards cfg) g)) as [Hp|]; [|lia].
    by apply count_of_pos in Hp. }
  assert (NoDup (Shards cfg)) as Hnd.
  { apply count_le_1_NoDup. intros g'. destruct (decide (0 < count_of (Shards cfg) g')) as [Hp|]; [|lia].
    apply count_of_pos in Hp as Hin. specialize (Hb g' g (Has _ Hin) Hg). lia. }
  assert (size (list_to_set (Shards cfg) : gset Tgid) ≤ size (dom (Groups cfg) ∖ {[g]}))%nat as Hle.
  { apply subseteq_size. intros x Hx%elem_of_list_to_set.
    apply elem_of_difference. split; [by apply Has|]. intros ->%elem_of_singleton. done. }
  rewrite size_list_to_set in Hle by done. rewrite size_difference, size_singleton in Hle by set_solver.
  assert (0 < size (dom (Groups cfg)))%nat.
  { destruct (size (dom (Groups cfg))) eqn:E; [|lia]. apply size_empty_inv in E. set_solver. }
  unfold cfg_wf, zlen in Hwf. lia.
Qed.

(** ** Alone, a change takes effect *)

(** Both keys of the store hold [cfg]. *)
Definition settled m cfg : Prop := stored m currentKey = Some cfg ∧ stored m nextKey = Some cfg.

Lemma storePut_fresh key cfg m :
  ∃ m', storePut key cfg (kv_version m key) true true false m = (m', Some OK) ∧
    stored m' key = Some cfg ∧ ∀ k, k ≠ key → m' !! k = m !! k.
Proof.
  unfold storePut. destruct (kv_put_cases m key (cfg_String cfg) (kv_version m key)) as [[-> _]|[(_ & ? & _)|(_ & Hno & ?)]];
    [|done|unfold kv_version in *; by rewrite Hno in *].
  eexists. split; [done|]. split.
  - unfold stored. rewrite lookup_insert_eq. cbn. apply FromString_String.
  - intros k Hk. by rewrite lookup_insert_ne.
Qed.

Lemma queryConfig_some key m cfg :
  stored m key = Some cfg → queryConfig key m = Ret (cfg, kv_version m key).
Proof.
  unfold stored, queryConfig, kv_get, kv_version. destruct (m !! key) as [v|]; [|done]. cbn. by intros ->.
Qed.

Lemma stored_other m m' key : m' !! key = m !! key → stored m' key = stored m key ∧ kv_version m' key = kv_version m key.
Proof. intros H. unfold stored, kv_version. by rewrite H. Qed.

Lemma alone_step f c m c' m' :
  ctrlStep true true false c m = Some (c', m') → alone (S f) c m = alone f c' m'.
Proof. cbn. by intros ->. Qed.

(** From the migration on. *)
Lemma finish_alone f m cfg old :
  stored m nextKey = Some cfg →
  ∃ m', alone (S (S f)) (Migrating cfg old (kv_version m currentKey)) m =
    (Finished cfg old (kv_version m currentKey), m') ∧ settled m' cfg.
Proof.
  intros Hn. destruct (storePut_fresh currentKey cfg m) as (m' & Hp & Hc & Ho).
  exists m'. split.
  - erewrite alone_step by done. erewrite alone_step by (cbn [ctrlStep]; rewrite Hp; done). by destruct f.
  - split; [done|]. destruct (stored_other m m' nextKey) as [-> _]; [|done]. by apply Ho.
Qed.

Lemma changeAlone_settled m cfg new :
  settled m cfg → Num cfg < Num new → ∃ m', changeAlone new m = Ret m' ∧ settled m' new.
Proof.
  intros [Hc Hn] Hlt. destruct (storePut_fresh nextKey new m) as (m1 & Hp & Hn1 & Ho).
  destruct (stored_other m m1 currentKey) as [Ec Ev]; [by apply Ho|].
  destruct (finish_alone 0 m1 new cfg Hn1) as (m' & Hf & Hs).
  exists m'. split; [|done]. unfold changeAlone, runAlone.
  erewrite alone_step by (cbn [ctrlStep]; rewrite (queryConfig_some _ _ _ Hc); cbn [orDead]; by rewrite decide_False by lia).
  erewrite alone_step by (cbn [ctrlStep]; rewrite (queryConfig_some _ _ _ Hn); cbn [orDead]; by rewrite decide_False by lia).
  erewrite alone_step by (cbn [ctrlStep]; rewrite Hp; done). rewrite <-Ev. by rewrite Hf.
Qed.

Lemma recover_settled m cfg next :
  stored m currentKey = Some cfg → stored m nextKey = Some next → Num cfg < Num next →
  ∃ m', runAlone InitController m = Ret m' ∧ settled m' next.
Proof.
  intros Hc Hn Hlt. destruct (finish_alone 1 m next cfg Hn) as (m' & Hf & Hs).
  exists m'. split; [|done]. unfold runAlone.
  erewrite alone_step by (cbn [ctrlStep]; rewrite (queryConfig_some _ _ _ Hc); cbn [orDead]; done).
  erewrite alone_step by (cbn [ctrlStep]; rewrite (queryConfig_some _ _ _ Hn); cbn [orDead]; by rewrite decide_True).
  by rewrite Hf.
Qed.

(** ** Joining and leaving *)

Lemma Copy_id cfg : Copy cfg = cfg.
Proof.
  destruct cfg as [num sh grps]. unfold Copy. cbn. f_equal.
  apply (map_fold_weak_ind (λ acc grps : gmap Tgid (list string), acc = grps)); [done|]. by intros i x gs r _ ->.
Qed.

(** Servers of different groups have different names. *)
Context (ServerName_inj : ∀ g g' i i', ServerName g i = ServerName g' i' → g = g').

(** A configuration as the tests make them. *)
Record test_cfg cfg : Prop := {
  tc_wf : cfg_wf cfg;
  tc_assigned : assigned cfg;
  tc_balanced : balanced cfg;
  tc_names g srvs : Groups cfg !! g = Some srvs → srvs = SrvNames g;
}.

Lemma no_clash cfg gid : test_cfg cfg → Groups cfg !! gid = None → clashes (SrvNames gid) (Groups cfg) = false.
Proof.
  intros Hc Hno. unfold clashes. apply bool_decide_eq_false. intros (g & xs & Hg & Hx).
  rewrite (tc_names _ Hc _ _ Hg) in Hx. apply Exists_exists in Hx as (s1 & Hs1 & Hs2).
  unfold SrvNames in *. apply list_elem_of_fmap in Hs1 as (i & -> & _), Hs2 as (j & Heq & _).
  apply ServerName_inj in Heq as ->. congruence.
Qed.

(** The configuration after rebalancing. *)
Lemma rebalanced_cfg num sh grps :
  zlen sh = NShards → grps ≠ ∅ → (∀ g srvs, grps !! g = Some srvs → srvs = SrvNames g) →
  ∃ cfg, Rebalance (mkShardConfig num sh grps) = Some cfg ∧ Num cfg = num ∧ Groups cfg = grps ∧ test_cfg cfg.
Proof.
  intros Hwf Hne Hn. destruct (Rebalance_spec (mkShardConfig num sh grps)) as (cfg & -> & HN & HG & ? & ? & ?); [done..|].
  exists cfg. split_and!; [done..|]. split; try done. by rewrite HG.
Qed.

Lemma changeTo_alone cl cfg new :
  settled (c_store cl) cfg → Num cfg < Num new →
  ∃ m, changeTo changeAlone new cl = Ret (mkCluster m (c_running cl)) ∧ settled m new.
Proof.
  intros Hs Hlt. destruct (changeAlone_settled (c_store cl) cfg new Hs Hlt) as (m & Hm & Hs').
  exists m. unfold changeTo. by rewrite Hm.
Qed.

Lemma join_alone cl cfg gid :
  settled (c_store cl) cfg → test_cfg cfg → Groups cfg !! gid = None →
  ∃ m cfg', join changeAlone gid (SrvNames gid) cl = Ret (mkCluster m (c_running cl)) ∧ settled m cfg' ∧
    test_cfg cfg' ∧ Groups cfg' = <[gid := SrvNames gid]> (Groups cfg) ∧ Num cfg' = Num cfg + 1.
Proof.
  intros Hs Hc Hno. unfold join. rewrite (Query_stored _ _ _ (proj1 Hs)). cbn [mbind outcome_bind].
  rewrite Copy_id. unfold JoinBalance, Join. cbn [Join_loop]. rewrite Hno, no_clash by done.
  destruct (rebalanced_cfg (Num cfg + 1) (Shards cfg) (<[gid := SrvNames gid]> (Groups cfg))) as (cfg' & Hr & HN & HG & Hc').
  - apply Hc.
  - apply insert_non_empty.
  - intros g srvs [[<- <-]|[_ ?]]%lookup_insert_Some; [done|by apply Hc].
  - destruct (changeTo_alone cl cfg cfg' Hs) as (m & Hm & Hs'); [lia|].
    exists m, cfg'. split_and!; try done. cbn -[changeTo Rebalance SrvNames]. rewrite Hr. done.
Qed.

Lemma leave_alone cl cfg gid :
  settled (c_store cl) cfg → test_cfg cfg → is_Some (Groups cfg !! gid) → delete gid (Groups cfg) ≠ ∅ →
  ∃ m cfg', leave changeAlone gid cl = Ret (mkCluster m (c_running cl)) ∧ settled m cfg' ∧
    test_cfg cfg' ∧ Groups cfg' = delete gid (Groups cfg) ∧ Num cfg' = Num cfg + 1.
Proof.
  intros Hs Hc [srvs Hin] Hne. unfold leave. rewrite (Query_stored _ _ _ (proj1 Hs)). cbn [mbind outcome_bind].
  rewrite Copy_id. unfold LeaveBalance, Leave. cbn [Leave_loop]. rewrite Hin.
  destruct (rebalanced_cfg (Num cfg + 1) (Shards cfg) (delete gid (Groups cfg))) as (cfg' & Hr & HN & HG & Hc').
  - apply Hc.
  - done.
  - intros g srvs' [_ ?]%lookup_delete_Some. by apply Hc.
  - destruct (changeTo_alone cl cfg cfg' Hs) as (m & Hm & Hs'); [lia|].
    exists m, cfg'. split_and!; try done. cbn -[changeTo Rebalance SrvNames]. rewrite Hr. done.
Qed.

Lemma checkMember_settled cl cfg gid :
  settled (c_store cl) cfg → checkMember gid cl = Ret (IsMember cfg gid).
Proof. intros [Hc _]. unfold checkMember. by rewrite (Query_stored _ _ _ Hc). Qed.

(** A group that is not in the configuration has no shard. *)
Lemma not_member cfg gid : test_cfg cfg → Groups cfg !! gid = None → IsMember cfg gid = false.
Proof.
  intros Hc Hno. apply bool_decide_eq_false. intros Hin. pose proof (tc_assigned _ Hc) as Ha.
  unfold assigned in Ha. rewrite Forall_forall in Ha. specialize (Ha _ Hin). apply elem_of_dom in Ha as [? ?]. congruence.
Qed.

(** The groups of [gids], with their servers. *)
Fixpoint withGroups (gids : list Tgid) (grps : gmap Tgid (list string)) : gmap Tgid (list string) :=
  match gids with [] => grps | g :: gids => withGroups gids (<[g := SrvNames g]> grps) end.

Lemma joinGroups_alone gids cl cfg :
  settled (c_store cl) cfg → test_cfg cfg → NoDup gids → (∀ g, g ∈ gids → Groups cfg !! g = None) →
  Z.of_nat (size (dom (Groups cfg)) + length gids) ≤ NShards →
  ∃ m cfg', joinGroups changeAlone gids cl = Ret (mkCluster m (list_to_set gids ∪ c_running cl), true) ∧
    settled m cfg' ∧ test_cfg cfg' ∧ Groups cfg' = withGroups gids (Groups cfg) ∧
    Num cfg' = Num cfg + Z.of_nat (length gids).
Proof.
  revert cl cfg. induction gids as [|g gids IH]; intros cl cfg Hs Hc Hnd Hno Hsz.
  - exists (c_store cl), cfg. cbn. rewrite (left_id_L ∅ (∪)). destruct cl. split_and!; try done. lia.
  - apply NoDup_cons in Hnd as [Hg Hnd]. cbn [joinGroups].
    destruct (join_alone (MakeGroupStart g cl) cfg g) as (m & cfg1 & -> & Hs1 & Hc1 & HG1 & HN1);
      [done..|by apply Hno; left|]. cbn [mbind outcome_bind].
    assert (size (dom (Groups cfg1)) = S (size (dom (Groups cfg)))) as Hsz1.
    { rewrite HG1, dom_insert_L, size_union, size_singleton; [done|].
      intros x ->%elem_of_singleton Hx%elem_of_dom. destruct Hx as [? Hx]. rewrite Hno in Hx; [done|by left]. }
    cbn [length] in Hsz. erewrite (checkMember_settled _ cfg1) by done. cbn [mbind outcome_bind].
    rewrite balanced_members; [|apply Hc1..|lia|rewrite HG1; by apply elem_of_dom_2 with (SrvNames g), lookup_insert_eq].
    destruct (IH (mkCluster m (c_running (MakeGroupStart g cl))) cfg1) as (m2 & cfg2 & -> & Hs2 & Hc2 & HG2 & HN2);
      [done..| |lia|].
    + intros g' Hin. rewrite HG1, lookup_insert_ne by (intros ->; done). apply Hno. by right.
    + exists m2, cfg2. cbn [c_running MakeGroupStart]. split_and!; [|done..|by rewrite HG2, HG1|cbn; lia].
      do 3 f_equal. set_solver.
Qed.

Lemma leaveGroups_alone gids cl cfg :
  settled (c_store cl) cfg → test_cfg cfg → NoDup gids → (∀ g, g ∈ gids → is_Some (Groups cfg !! g)) →
  (∃ g, g ∉ gids ∧ is_Some (Groups cfg !! g)) →
  ∃ m cfg', leaveGroups changeAlone gids cl = Ret (mkCluster m (c_running cl ∖ list_to_set gids), true) ∧
    settled m cfg' ∧ test_cfg cfg' ∧
    (∀ g, Groups cfg' !! g = if decide (g ∈ gids) then None else Groups cfg !! g) ∧
    Num cfg' = Num cfg + Z.of_nat (length gids).
Proof.
  revert cl cfg. induction gids as [|g gids IH]; intros cl cfg Hs Hc Hnd Hin (g0 & Hg0 & Hstay).
  - exists (c_store cl), cfg. cbn. rewrite difference_empty_L. destruct cl.
    split_and!; [done..|lia].
  - apply NoDup_cons in Hnd as [Hg Hnd]. apply not_elem_of_cons in Hg0 as [Hne Hg0]. cbn [leaveGroups].
    assert (∀ x, x ≠ g → delete g (Groups cfg) !! x = Groups cfg !! x) as Hdel by (intros; by apply lookup_delete_ne).
    destruct (leave_alone cl cfg g) as (m & cfg1 & -> & Hs1 & Hc1 & HG1 & HN1); [done..|by apply Hin; left| |].
    { intros He. rewrite <-Hdel, He, lookup_empty in Hstay by done. by destruct Hstay. }
    cbn [mbind outcome_bind]. erewrite (checkMember_settled _ cfg1) by done. cbn [mbind outcome_bind].
    rewrite not_member by (try done; by rewrite HG1, lookup_delete_eq).
    destruct (IH (ExitGroup g (mkCluster m (c_running cl))) cfg1) as (m2 & cfg2 & -> & Hs2 & Hc2 & HG2 & HN2); [done..| | |].
    + intros x Hx. rewrite HG1, Hdel by (intros ->; done). apply Hin. by right.
    + exists g0. by rewrite HG1, Hdel.
    + exists m2, cfg2. cbn [c_running ExitGroup]. split_and!; [|done..| |cbn; lia].
      * do 3 f_equal. set_solver.
      * intros x. rewrite HG2, HG1. destruct (decide (x = g)) as [->|Hx].
        -- rewrite lookup_delete_eq, (decide_True (P := g ∈ g :: gids)) by (by left). by case_decide.
        -- rewrite Hdel by done. destruct (decide (x ∈ gids)) as [?|Hnx].
           ++ by rewrite decide_True by (by right).
           ++ by rewrite decide_False by (by apply not_elem_of_cons).
Qed.

Lemma withGroups_lookup gids grps g :
  withGroups gids grps !! g = if decide (g ∈ gids) then Some (SrvNames g) else grps !! g.
Proof.
  revert grps. induction gids as [|x gids IH]; intros grps; cbn.
  - rewrite decide_False; [done|apply not_elem_of_nil].
  - rewrite IH. destruct (decide (g ∈ gids)) as [?|Hn]; [by rewrite decide_True by (by right)|].
    destruct (decide (g = x)) as [->|Hne].
    + by rewrite lookup_insert_eq, decide_True by (by left).
    + by rewrite lookup_insert_ne, decide_False by (try apply not_elem_of_cons; done).
Qed.

(** ** The theorems *)

(** What the tests do with groups works with one controller.  From a settled
    configuration the groups [gids], new and not too many for the shards, join
    and then leave: both functions report success, after the first all groups
    are members, after the second the groups, their servers and what runs are as
    before, and the configurations passed have consecutive numbers. *)
Theorem join_leave_alone gids cl cfg :
  settled (c_store cl) cfg → test_cfg cfg → NoDup gids → (∀ g, g ∈ gids → Groups cfg !! g = None) →
  Z.of_nat (size (dom (Groups cfg)) + length gids) ≤ NShards → c_running cl ## list_to_set gids →
  ∃ m1 m2 cfg1 cfg2,
    joinGroups changeAlone gids cl = Ret (mkCluster m1 (list_to_set gids ∪ c_running cl), true) ∧
    settled m1 cfg1 ∧ test_cfg cfg1 ∧ (∀ g, g ∈ gids → IsMember cfg1 g = true) ∧
    leaveGroups changeAlone gids (mkCluster m1 (list_to_set gids ∪ c_running cl)) =
      Ret (mkCluster m2 (c_running cl), true) ∧
    settled m2 cfg2 ∧ test_cfg cfg2 ∧ Groups cfg2 = Groups cfg ∧
    Num cfg2 = Num cfg + 2 * Z.of_nat (length gids).
Proof.
  intros Hs Hc Hnd Hno Hsz Hrun.
  destruct (joinGroups_alone gids cl cfg) as (m1 & cfg1 & Hj & Hs1 & Hc1 & HG1 & HN1); [done..|].
  assert (∃ g, g ∈ dom (Groups cfg)) as (g0 & Hg0).
  { pose proof (tc_wf _ Hc) as Hwf. pose proof (tc_assigned _ Hc) as Ha. unfold cfg_wf, zlen, NShards, assigned in *.
    destruct (Shards cfg) as [|x xs]; [done|]. apply Forall_cons in Ha as [? _]. by exists x. }
  destruct (leaveGroups_alone gids (mkCluster m1 (list_to_set gids ∪ c_running cl)) cfg1)
    as (m2 & cfg2 & Hl & Hs2 & Hc2 & HG2 & HN2); [done..| | |].
  - intros g Hg. by rewrite HG1, withGroups_lookup, decide_True.
  - exists g0. apply elem_of_dom in Hg0 as [v Hv].
    assert (g0 ∉ gids) as Hn by (intros H%Hno; congruence). rewrite HG1, withGroups_lookup, decide_False by done. by eexists.
  - exists m1, m2, cfg1, cfg2. split_and!; try done.
    + intros g Hg. apply balanced_members; [apply Hc1..| |].
      * rewrite HG1. transitivity (Z.of_nat (size (dom (Groups cfg)) + length gids)); [|done].
        assert (dom (withGroups gids (Groups cfg)) ⊆ dom (Groups cfg) ∪ list_to_set gids) as Hsub.
        { intros x [v Hx]%elem_of_dom. rewrite withGroups_lookup in Hx. case_decide; [set_solver|].
          apply elem_of_union_l, elem_of_dom. by eexists. }
        apply subseteq_size in Hsub. pose proof (size_union_alt (dom (Groups cfg)) (list_to_set gids)).
        assert (size (list_to_set gids ∖ dom (Groups cfg)) ≤ length gids)%nat; [|lia].
        rewrite <-(size_list_to_set gids (C := gset Tgid)) by done. apply subseteq_size. set_solver.
      * apply elem_of_dom. rewrite HG1, withGroups_lookup, decide_True by done. by eexists.
    + rewrite Hl. cbn. do 3 f_equal. set_solver.
    + apply map_eq. intros g. rewrite HG2, HG1, withGroups_lookup. case_decide as Hg; [|done]. by rewrite Hno.
    + lia.
Qed.

(** The second controller of [partitionCtrler] recovers.  The first one was
    stopped while a group joins or leaves, after it had stored the next
    configuration and before it was done; then the second controller finishes
    it and the test accepts the result. *)
Theorem recovery_passes m cfg phase gid new :
  stored m currentKey = Some cfg → test_cfg cfg → stored m nextKey = Some new →
  match phase with
  | Joining => JoinBalance (Copy cfg) [(gid, SrvNames gid)] = Ret (Some new, true) ∧
      Z.of_nat (size (dom (Groups cfg))) < NShards
  | Leaving => LeaveBalance (Copy cfg) [gid] = Ret (Some new, true) ∧ delete gid (Groups cfg) ≠ ∅
  end →
  ∃ m', recover (Num cfg) phase gid m = Ret m' ∧ settled m' new.
Proof.
  intros Hcur Hc Hnext Hphase. rewrite Copy_id in Hphase.
  assert (Num new = Num cfg + 1 ∧ IsMember new gid = match phase with Joining => true | Leaving => false end) as [HN HM].
  { destruct phase, Hphase as [Hb Hside]; revert Hb.
    - unfold JoinBalance, Join. cbn [Join_loop]. destruct (Groups cfg !! gid) as [|] eqn:Hno; [done|].
      rewrite no_clash by done. cbn -[Rebalance SrvNames].
      destruct (rebalanced_cfg (Num cfg + 1) (Shards cfg) (<[gid := SrvNames gid]> (Groups cfg))) as (c & -> & HN & HG & Hc');
        [apply Hc|apply insert_non_empty| |].
      { intros g srvs [[<- <-]|[_ ?]]%lookup_insert_Some; [done|by apply Hc]. }
      intros [= <-]. split; [done|]. apply balanced_members; [apply Hc'..| |].
      + rewrite HG, dom_insert_L. pose proof (size_union_alt {[gid]} (dom (Groups cfg))) as Hu.
        rewrite size_singleton in Hu. assert (size (dom (Groups cfg) ∖ {[gid]}) ≤ size (dom (Groups cfg)))%nat
          by (apply subseteq_size; set_solver). lia.
      + apply elem_of_dom. rewrite HG, lookup_insert_eq. by eexists.
    - unfold LeaveBalance, Leave. cbn [Leave_loop]. destruct (Groups cfg !! gid) as [|] eqn:Hin; [|done].
      cbn -[Rebalance SrvNames].
      destruct (rebalanced_cfg (Num cfg + 1) (Shards cfg) (delete gid (Groups cfg))) as (c & -> & HN & HG & Hc');
        [apply Hc|done| |].
      { intros g srvs [_ ?]%lookup_delete_Some. by apply Hc. }
      intros [= <-]. split; [done|]. apply not_member; [done|]. by rewrite HG, lookup_delete_eq. }
  destruct (recover_settled m cfg new) as (m' & Hr & Hs'); [done..|lia|].
  exists m'. split; [|done]. unfold recover. rewrite Hr. cbn [mbind outcome_bind].
  rewrite (Query_stored _ _ _ (proj1 Hs')). cbn [mbind outcome_bind]. unfold recovered.
  rewrite decide_False by lia. rewrite HM. by destruct phase.
Qed.
End shard_test.

(** ** Runs *)

#[local] Existing Instance digits.

Definition serverName (gid : Tgid) (i : nat) : string :=
  ("server-" +:+ pretty gid +:+ "-" +:+ pretty i)%string.

(** The service is set up, [n] groups join and leave: what the functions report,
    and the numbers of the groups' shards in between. *)
Definition joinLeaveRun (n : nat) : outcome (bool * gmap Tgid Z * bool * gset Tgid) :=
  cl ← setupKVService serverName (mkCluster ∅ ∅);
  let gids := (groups n firstGid).1 in
  '(cl, joined) ← joinGroups serverName changeAlone gids cl;
  cfg ← Query currentKey (c_store cl);
  '(cl, gone) ← leaveGroups changeAlone gids cl;
  Ret (joined, counts (Shards cfg), gone, c_running cl).

Lemma join_leave_run : joinLeaveRun 3 = Ret (true, {[1 := 3; 2 := 3; 3 := 3; 4 := 3]}, true, {[1]}).
Proof. vm_compute. reflexivity. Qed.

(** The tests take a group for a member only if it has a shard: with twelve
    groups there before, the thirteenth is in the configuration, joins no shard,
    and the function reports failure. *)
Lemma thirteenth_group_not_member :
  (cl ← setupKVService serverName (mkCluster ∅ ∅);
   '(cl, joined) ← joinGroups serverName changeAlone (groups 12 firstGid).1 cl;
   cfg ← Query currentKey (c_store cl);
   Ret (joined, bool_decide (is_Some (Groups cfg !! 13)), IsMember cfg 13, Num cfg)) = Ret (false, true, false, 13).
Proof. vm_compute. reflexivity. Qed.
