(* ===== verification/Linear.v ===== *)
(** * Linear: building a linearization while a history is recorded

    The histories that [src/src/kvtest/porcupine.go] records, and two notions of
    linearizability for them: by the model of [src/src/models/kv.go], which is
    what Porcupine checks ([linearizable]), and by a sequential store that
    answers gets with value, version and error and puts with their error
    ([seq_linearizable]).  The second is stronger, except that the model has no
    transition for a put refused with [ErrNoKey] ([seq_linearizable_checker]).

    How to prove it: an order of the operations is built as they take effect,
    with slots for the calls that are still running.  [KvLin] and [ClerkLin]
    build it for the servers. *)

From stdpp Require Import sorting.
From S2P Require Import Prelude RpcApi KvModel KvSpec.

(** ** The log of the tests *)

Record OpLog := mkOpLog { operations : list Operation }.

Definition OpLog_Len (log : OpLog) : nat := length (operations log).
Definition OpLog_Append (op : Operation) (log : OpLog) : OpLog := mkOpLog (operations log ++ [op]).
Definition OpLog_Read (log : OpLog) : list Operation := operations log.

(** ** Linearizability, as Porcupine defines it *)

(** [a] returned before [b] was called. *)
Definition precedes (a b : Operation) : Prop := op_Return a < op_Call b.

(** An order of the operations of one key. *)
Definition linearization (part lin : list Operation) : Prop :=
  lin ≡ₚ part ∧ accepts Init lin = true ∧ StronglySorted (λ a b, ¬ precedes b a) lin.

Definition linearizable (history : list Operation) : Prop :=
  ∀ part, part ∈ Partition history → ∃ lin, linearization part lin.

(** ** A sequential store *)

(** What a key holds, and what a request makes of it. *)
Abbreviation cell := (option VersionedValue).

Definition cell_get (v : cell) : GetReply :=
  match v with Some v => mkGetReply (Value v) (Version v) OK | None => mkGetReply "" 0 ErrNoKey end.

Definition put_cell (value : string) (version : Z) (v : cell) : cell * Err :=
  match v with
  | Some w =>
      if decide (Version w = version) then (Some (mkVV value (u64_add version 1)), OK) else (v, ErrVersion)
  | None =>
      if decide (version = 0) then (Some (mkVV value (u64_add version 1)), OK) else (v, ErrNoKey)
  end.

Definition cell_put (a : PutArgs) (v : cell) : cell * Err := put_cell (put_Value a) (put_Version a) v.

#[global] Instance KvOutput_eq_dec : EqDecision KvOutput.
Proof. solve_decision. Defined.

(** Whether the store may answer the operation so, and what it holds then: a
    get is answered with what the key holds, a put with its error or with
    [ErrMaybe]. *)
Definition SeqStep (v : cell) (inp : KvInput) (out : KvOutput) : bool * cell :=
  match in_Op inp with
  | 0 => (bool_decide (out = get_output (cell_get v)), v)
  | 1 =>
      let '(v', e) := put_cell (in_Value inp) (in_Version inp) v in
      (bool_decide (out = put_output e) || bool_decide (out = put_output ErrMaybe), v')
  | _ => (false, v)
  end.

Fixpoint seq_accepts (v : cell) (ops : list Operation) : bool :=
  match ops with
  | [] => true
  | op :: ops => let '(ok, v') := SeqStep v (op_Input op) (op_Output op) in ok && seq_accepts v' ops
  end.

(** The whole history, refused puts included, is one of the store. *)
Definition seq_linearizable (history : list Operation) : Prop :=
  ∀ part, part ∈ Partition history → ∃ lin,
    lin ≡ₚ part ∧ seq_accepts None lin = true ∧ StronglySorted (λ a b, ¬ precedes b a) lin.

Lemma SeqStep_put_maybe v v1 k x ver out :
  SeqStep v (put_input k x ver) out = (true, v1) →
  SeqStep v (put_input k x ver) (put_output ErrMaybe) = (true, v1).
Proof.
  unfold SeqStep. cbn. destruct (put_cell x ver v) as [v' e]. intros [= _ <-].
  by rewrite (bool_decide_eq_true_2 (put_output ErrMaybe = put_output ErrMaybe)), orb_true_r.
Qed.

Lemma SeqStep_get v k : SeqStep v (get_input k) (get_output (cell_get v)) = (true, v).
Proof. unfold SeqStep. cbn. by rewrite bool_decide_eq_true_2. Qed.

Lemma SeqStep_put v a : SeqStep v (req_input (RPut a)) (put_output (cell_put a v).2) = (true, (cell_put a v).1).
Proof.
  unfold SeqStep, cell_put. cbn. destruct (put_cell _ _ v) as [v' e]. cbn.
  by rewrite (bool_decide_eq_true_2 (put_output e = put_output e)).
Qed.

Lemma cell_put_cases a v :
  (cell_put a v).2 ∈ [OK; ErrVersion; ErrNoKey] ∧ ((cell_put a v).2 ≠ OK → (cell_put a v).1 = v).
Proof. unfold cell_put, put_cell. destruct v; case_decide; cbn; (split; [set_solver|done]). Qed.

(** The same of the map of the specification. *)
Lemma kv_put_cell m a :
  kv_put m (put_Key a) (put_Value a) (put_Version a) =
    (match (cell_put a (m !! put_Key a)).1 with Some v => <[put_Key a := v]> m | None => m end,
     (cell_put a (m !! put_Key a)).2).
Proof.
  unfold kv_put, kv_put_err, cell_put, put_cell.
  destruct (m !! put_Key a) as [v|] eqn:E; repeat case_decide; cbn; try done. by rewrite insert_id.
Qed.

Lemma kv_put_lookup m a :
  (kv_put m (put_Key a) (put_Value a) (put_Version a)).1 !! put_Key a = (cell_put a (m !! put_Key a)).1.
Proof.
  rewrite kv_put_cell. cbn. destruct (cell_put a (m !! put_Key a)).1 eqn:Ec; [apply lookup_insert_eq|].
  unfold cell_put, put_cell in Ec. destruct (m !! put_Key a); by case_decide.
Qed.

(** ** The store and the checker's model *)

Definition cell_state (v : cell) : KvState :=
  match v with Some v => mkKvState (Value v) (Version v) | None => Init end.

Lemma SeqStep_Step v v' op :
  SeqStep v (op_Input op) (op_Output op) = (true, v') →
  (not_NoKey_put op → Step (cell_state v) (op_Input op) (op_Output op) = (true, cell_state v')) ∧
  (¬ not_NoKey_put op → v' = v).
Proof.
  unfold SeqStep, Step, not_NoKey_put. destruct (op_Input op) as [o k x ver]. cbn.
  destruct o as [|[]|]; intros H; try discriminate H.
  - injection H as Ho%bool_decide_eq_true <-. split; [|done]. intros _. rewrite Ho.
    destruct v; cbn; by rewrite bool_decide_eq_true_2.
  - destruct (put_cell x ver v) as [v1 e] eqn:Ep. injection H as Ho <-. apply orb_true_iff in Ho.
    rewrite !bool_decide_eq_true in Ho. split.
    + intros Hn. assert (op_Output op = put_output ErrMaybe ∨ op_Output op = put_output e ∧ e ≠ ErrNoKey) as Ho'.
      { destruct Ho as [Ho|Ho]; [right|by left]. split; [done|]. intros ->. apply Hn; [done|]. by rewrite Ho. }
      unfold put_cell in Ep. destruct v as [w|]; case_decide as E; injection Ep as <- <-; cbn.
      * rewrite decide_True by done. destruct Ho' as [-> |[-> _]]; cbn; by rewrite E.
      * rewrite decide_False by done. by destruct Ho' as [-> |[-> _]].
      * subst ver. by destruct Ho' as [-> |[-> _]].
      * rewrite decide_False by congruence. by destruct Ho' as [-> |[_ ?]].
    + intros Hn. unfold put_cell in Ep. destruct v as [w|]; case_decide; injection Ep as <- <-; try done;
        exfalso; apply Hn; intros _; by destruct Ho as [-> | ->].
Qed.

Lemma seq_accepts_checker v lin :
  seq_accepts v lin = true → accepts (cell_state v) (filter not_NoKey_put lin) = true.
Proof.
  revert v. induction lin as [|op lin IH]; intros v; [done|]. cbn [seq_accepts].
  destruct (SeqStep v (op_Input op) (op_Output op)) as [ok v'] eqn:Hs. intros [-> H]%andb_true_iff.
  apply SeqStep_Step in Hs as [Hs1 Hs2]. rewrite filter_cons. case_decide; cbn [accepts].
  - rewrite Hs1 by done. by apply IH.
  - rewrite Hs2 in H by done. by apply IH.
Qed.

(** What the store explains passes the check, without the puts that the model
    does not know. *)
Lemma seq_linearizable_checker history :
  seq_linearizable history → linearizable (filter not_NoKey_put history).
Proof.
  intros H part Hpart. apply Partition_part in Hpart as (k & -> & Hne).
  destruct (H (filter (λ op, op_key op = k) history)) as (lin & Hp & Ha & Hs).
  { rewrite Partition_unfold. apply list_elem_of_fmap. exists k. split; [done|].
    rewrite merge_sort_Permutation, elem_of_elements. apply partition_map_dom.
    destruct (filter _ (filter _ history)) as [|op l] eqn:E; [done|]. exists op.
    assert (op ∈ op :: l) as Hin by (by left). rewrite <-E in Hin.
    by apply list_elem_of_filter in Hin as [? [_ ?]%list_elem_of_filter]. }
  exists (filter not_NoKey_put lin). split; [|split].
  - rewrite Hp, !list_filter_filter. apply Permutation_refl'. apply list_filter_iff. tauto.
  - by apply (seq_accepts_checker None).
  - clear -Hs. induction Hs as [|op lin Hl IH Hop]; [constructor|]. rewrite filter_cons. case_decide; [|done].
    constructor; [done|]. apply Forall_forall. intros x [_ Hx]%list_elem_of_filter. by eapply Forall_forall in Hop.
Qed.

(** ** Slots

    A slot is an operation that has taken its place in the order: of a call
    that is still running ([Some t], its output is provisional and its return
    time unknown) or of one that has returned.  [s_wrote]: a put that was
    performed. *)
Record Slot := mkSlot { s_thread : option Z; s_op : Operation; s_wrote : bool }.

Definition slot_key (s : Slot) : string := op_key (s_op s).

(** The slots of key [k] lead the model from one state to another, and only
    performed puts change it. *)
Inductive runs (k : string) : cell → list Slot → cell → Prop :=
| runs_nil st : runs k st [] st
| runs_other s L st st' : slot_key s ≠ k → runs k st L st' → runs k st (s :: L) st'
| runs_own s L st st1 st' :
    slot_key s = k → SeqStep st (op_Input (s_op s)) (op_Output (s_op s)) = (true, st1) →
    (s_wrote s = false → st1 = st) → runs k st1 L st' → runs k st (s :: L) st'.
#[local] Hint Constructors runs : core.

Section runs_facts.
Context (k : string).
Implicit Types (st : cell) (L : list Slot) (s : Slot).

Lemma runs_app st L1 L2 st' :
  runs k st (L1 ++ L2) st' ↔ ∃ st1, runs k st L1 st1 ∧ runs k st1 L2 st'.
Proof.
  split.
  - revert st. induction L1 as [|s L1 IH]; intros st; cbn; [eauto|].
    inversion 1; subst; destruct (IH _ ltac:(eassumption)) as (? & ? & ?); eauto.
  - intros (st1 & H1 & H2). induction H1; cbn; eauto.
Qed.

Lemma runs_filter P `{Pdec : ∀ s, Decision (P s)} st L st' :
  (∀ s, s ∈ L → ¬ P s → s_wrote s = false) → runs k st L st' → runs k st (filter P L) st'.
Proof.
  intros Hw Hrun. induction Hrun as [st|s L st st' Hk H IH|s L st st1 st' Hk Hs Hn H IH]; [constructor|..];
    rewrite filter_cons; (destruct (decide (P s)) as [HP|HP]).
  - apply runs_other; [done|]. apply IH. set_solver.
  - apply IH. set_solver.
  - eapply runs_own; eauto. apply IH. set_solver.
  - rewrite Hn in IH by (apply Hw; [by left|done]). apply IH. set_solver.
Qed.

(** A slot whose output is replaced by one the model accepts as well. *)
Lemma runs_replace st L1 s s' L2 st' :
  op_Input (s_op s') = op_Input (s_op s) → s_wrote s' = s_wrote s →
  (∀ st st1, SeqStep st (op_Input (s_op s)) (op_Output (s_op s)) = (true, st1) →
     SeqStep st (op_Input (s_op s)) (op_Output (s_op s')) = (true, st1)) →
  runs k st (L1 ++ s :: L2) st' → runs k st (L1 ++ s' :: L2) st'.
Proof.
  intros Hi Hw Ho. rewrite !runs_app. intros (st1 & H1 & H2). exists st1. split; [done|].
  assert (slot_key s' = slot_key s) as Hk by (unfold slot_key, op_key; by rewrite Hi).
  inversion H2; subst.
  - apply runs_other; [by rewrite Hk|done].
  - eapply runs_own; [by rewrite Hk|rewrite Hi; by apply Ho|by rewrite Hw|done].
Qed.

Lemma runs_accepts st L st' :
  runs k st L st' → seq_accepts st (filter (λ op, op_key op = k) (s_op <$> L)) = true.
Proof.
  induction 1 as [st|s L st st' Hk H IH|s L st st1 st' Hk Hs Hn H IH]; [done|..]; rewrite fmap_cons, filter_cons.
  - by rewrite decide_False.
  - rewrite decide_True by done. cbn. by rewrite Hs.
Qed.
End runs_facts.

(** ** The order under construction *)

Section order.
Implicit Types (t now : Z) (L : list Slot) (s x y : Slot) (σ : string → cell) (recs : list Operation).

Definition real_time s1 s2 : Prop := s_thread s2 = None → ¬ precedes (s_op s2) (s_op s1).

(** The operations of the calls that have returned. *)
Definition done L : list Operation := omap (λ s, match s_thread s with None => Some (s_op s) | _ => None end) L.

(** [L] orders the recorded operations [recs] and leads every key to what it
    holds in [σ]. *)
Record lin_ok σ now recs L : Prop := {
  lo_runs : ∀ k, runs k None L (σ k);
  lo_done : done L ≡ₚ recs;
  lo_call : ∀ s, s ∈ L → op_Call (s_op s) ≤ now;
  lo_order : StronglySorted real_time L;
  lo_uniq : NoDup (omap s_thread L) }.

(** The slot of a running call. *)
Definition slot_of L t s : Prop := s ∈ L ∧ s_thread s = Some t.

Definition not_of t s : Prop := s_thread s ≠ Some t.
#[global] Instance not_of_dec t s : Decision (not_of t s).
Proof. unfold not_of. apply _. Defined.

Lemma done_filter t L : done (filter (not_of t) L) = done L.
Proof.
  induction L as [|s L IH]; [done|]. rewrite filter_cons. case_decide as H; unfold done in *; cbn; [by rewrite IH|].
  apply dec_stable in H. by rewrite H.
Qed.

Lemma done_app L1 L2 : done (L1 ++ L2) = done L1 ++ done L2.
Proof. apply omap_app. Qed.

Lemma threads_filter t L : omap s_thread (filter (not_of t) L) = filter (λ u : Z, u ≠ t) (omap s_thread L).
Proof.
  induction L as [|s L IH]; [done|]. rewrite filter_cons. cbn.
  destruct (s_thread s) as [x|] eqn:E; unfold not_of in *; cbn.
  - destruct (decide (x = t)) as [->|Hne].
    + rewrite !decide_False by (rewrite ?E; naive_solver). done.
    + rewrite !decide_True by (rewrite ?E; naive_solver). cbn. by rewrite E, IH.
  - rewrite decide_True by naive_solver. cbn. by rewrite E.
Qed.

Lemma StronglySorted_filter' (R : Slot → Slot → Prop) t L :
  StronglySorted R L → StronglySorted R (filter (not_of t) L).
Proof.
  induction 1 as [|s L H IH Hs]; [constructor|]. rewrite filter_cons. case_decide; [|done].
  constructor; [done|]. apply Forall_forall. intros x [_ Hx]%list_elem_of_filter.
  by eapply Forall_forall in Hs.
Qed.

Lemma slot_of_filter L t t' x : slot_of (filter (not_of t) L) t' x ↔ t' ≠ t ∧ slot_of L t' x.
Proof. unfold slot_of. rewrite list_elem_of_filter. unfold not_of. naive_solver. Qed.

(** The list around the slot of a running call holds no other slot of it. *)
Lemma slot_split σ now recs L t s :
  lin_ok σ now recs L → slot_of L t s →
  ∃ L1 L2, L = L1 ++ s :: L2 ∧ (∀ x, x ∈ L1 ++ L2 → s_thread x ≠ Some t).
Proof.
  intros HI [Hs Ht]. apply list_elem_of_split in Hs as (L1 & L2 & ->). exists L1, L2. split; [done|].
  pose proof (lo_uniq _ _ _ _ HI) as Hu. rewrite omap_app in Hu. cbn in Hu. rewrite Ht in Hu.
  apply NoDup_app in Hu as (_ & Hd & [Hn _]%NoDup_cons).
  intros x [Hx|Hx]%elem_of_app E.
  - apply (Hd t); [|by left]. apply list_elem_of_omap. eauto.
  - apply Hn, list_elem_of_omap. eauto.
Qed.

Lemma slot_of_unique σ now recs L t x y :
  lin_ok σ now recs L → slot_of L t x → slot_of L t y → x = y.
Proof.
  intros HI Hx [Hy Ht]. destruct (slot_split _ _ _ _ _ _ HI Hx) as (L1 & L2 & -> & Hno).
  rewrite elem_of_app, elem_of_cons in Hy. specialize (Hno y). rewrite elem_of_app in Hno. naive_solver.
Qed.

Lemma lin_ok_init : lin_ok (λ _, None) 0 [] [].
Proof. split; try done; try set_solver; constructor. Qed.

Lemma lin_ok_mono σ now now' recs recs' L :
  now ≤ now' → recs ≡ₚ recs' →
  lin_ok σ now recs L → lin_ok σ now' recs' L.
Proof.
  intros Hn Hr []. split; try done; [by rewrite <-Hr|]. intros s Hs. specialize (lo_call0 s Hs). lia.
Qed.

(** A running call that has not written leaves its place. *)
Lemma lin_ok_drop σ now recs L t :
  lin_ok σ now recs L → (∀ s, slot_of L t s → s_wrote s = false) →
  lin_ok σ now recs (filter (not_of t) L).
Proof.
  intros [Hr Hd Hc Ho Hu] Hw. split.
  - intros k. apply runs_filter; [|apply Hr]. intros s Hs Hn. apply Hw. split; [done|]. by apply dec_stable in Hn.
  - by rewrite done_filter.
  - intros s [_ Hs]%list_elem_of_filter. by apply Hc.
  - by apply StronglySorted_filter'.
  - rewrite threads_filter. by apply NoDup_filter.
Qed.

(** A request takes effect: the slot of its call is put at the end. *)
Lemma lin_ok_exec σ σ' now recs L t s' :
  lin_ok σ now recs L → (∀ s, slot_of L t s → s_wrote s = false) →
  s_thread s' = Some t → op_Call (s_op s') ≤ now →
  SeqStep (σ (slot_key s')) (op_Input (s_op s')) (op_Output (s_op s')) = (true, σ' (slot_key s')) →
  (s_wrote s' = false → σ' (slot_key s') = σ (slot_key s')) →
  (∀ k, k ≠ slot_key s' → σ' k = σ k) →
  lin_ok σ' now recs (filter (not_of t) L ++ [s']) ∧
  ∀ t' x, slot_of (filter (not_of t) L ++ [s']) t' x ↔ if decide (t' = t) then x = s' else slot_of L t' x.
Proof.
  intros HI Hw Hth Hcall Hstep Hsame Hother.
  pose proof (lin_ok_drop _ _ _ _ _ HI Hw) as [Hr Hd Hc Ho Hu]. split; [split|].
  - intros k. apply runs_app. exists (σ k). split; [apply Hr|].
    destruct (decide (slot_key s' = k)) as [<-|Hne].
    + eapply runs_own; [done|done|done|constructor].
    + apply runs_other; [done|]. rewrite Hother by done. constructor.
  - rewrite done_app. cbn. by rewrite Hth, app_nil_r.
  - intros s [Hs| ->%list_elem_of_singleton]%elem_of_app; [by apply Hc|done].
  - apply StronglySorted_app. split; [|split; [done|repeat constructor]].
    intros s1 s2 _ ->%list_elem_of_singleton. intros E. by rewrite Hth in E.
  - rewrite omap_app. cbn. rewrite Hth. apply NoDup_app. split; [done|]. split; [|apply NoDup_singleton].
    rewrite threads_filter. intros x [Hx _]%list_elem_of_filter. set_solver.
  - intros t' x. unfold slot_of at 1. rewrite elem_of_app, list_elem_of_singleton.
    pose proof (slot_of_filter L t t' x) as Hf. unfold slot_of in *. case_decide as E; [subst t'|]; split.
    + intros [[Hx| ->] Ht]; [|done]. by destruct (proj1 Hf (conj Hx Ht)).
    + intros ->. split; [by right|done].
    + intros [[Hx| ->] Ht]; [by apply Hf|]. congruence.
    + intros Hx. destruct (proj2 Hf (conj E Hx)). auto.
Qed.

(** A call returns and its slot becomes final. *)
Lemma lin_ok_finish σ now recs L t s o :
  lin_ok σ now recs L → slot_of L t s →
  op_Input o = op_Input (s_op s) → op_Call o = op_Call (s_op s) → op_Return o = now →
  (∀ st st1, SeqStep st (op_Input o) (op_Output (s_op s)) = (true, st1) →
     SeqStep st (op_Input o) (op_Output o) = (true, st1)) →
  ∃ L', lin_ok σ now (recs ++ [o]) L' ∧ ∀ t' x, slot_of L' t' x ↔ t' ≠ t ∧ slot_of L t' x.
Proof.
  intros HI Hs Hin Hcall Hret Hout. destruct (slot_split _ _ _ _ _ _ HI Hs) as (L1 & L2 & -> & Hno).
  destruct Hs as [_ Ht]. destruct HI as [Hr Hd Hc Ho Hu].
  set (s' := mkSlot None o (s_wrote s)). exists (L1 ++ s' :: L2).
  assert (∀ x, x ∈ L1 ++ s' :: L2 ↔ x = s' ∨ x ∈ L1 ++ L2) as Hmem by set_solver.
  split; [split|].
  - intros k. eapply runs_replace; [| | |apply Hr]; [done|done|]. rewrite <-Hin. exact Hout.
  - rewrite done_app in Hd |- *. cbn in Hd |- *. rewrite Ht in Hd. fold (done L2) in *.
    rewrite <-Permutation_middle, Hd. apply Permutation_cons_append.
  - intros x [->|Hx]%Hmem; [|apply Hc; set_solver]. cbn. rewrite Hcall. apply Hc. set_solver.
  - apply StronglySorted_app in Ho as (Ho12 & Ho1 & Ho2). apply StronglySorted_inv in Ho2 as [Ho2 Hos].
    apply StronglySorted_app. split; [|split; [done|constructor; [done|]]].
    + intros x y Hx [->|Hy]%elem_of_cons; [|apply Ho12; set_solver].
      intros _ Hp. unfold precedes in Hp. cbn in Hp. specialize (Hc x ltac:(set_solver)). lia.
    + apply Forall_forall. intros y Hy Hn. eapply Forall_forall in Hos; [|done]. specialize (Hos Hn).
      unfold precedes in *. cbn. by rewrite <-Hcall in Hos.
  - rewrite omap_app in Hu |- *. cbn in Hu |- *. rewrite Ht in Hu.
    apply NoDup_app in Hu as (? & Hdis & [? ?]%NoDup_cons). apply NoDup_app. split; [done|]. split; [set_solver|done].
  - intros t' x. unfold slot_of. rewrite Hmem. split.
    + intros [[->|Hx] Ht']; [done|]. split; [|set_solver]. intros ->. by eapply Hno.
    + intros (Hne & Hx & Ht'). split; [|done]. right. rewrite elem_of_app, elem_of_cons in Hx.
      assert (x ≠ s) by congruence. set_solver.
Qed.

(** When no call is running, the order is one of the whole recorded history. *)
Lemma lin_ok_end σ now recs L :
  lin_ok σ now recs L → (∀ t s, ¬ slot_of L t s) → seq_linearizable recs.
Proof.
  intros [Hr Hd Hc Ho Hu] Hnil part Hpart. apply Partition_part in Hpart as (k & -> & _).
  assert (∀ s, s ∈ L → s_thread s = None) as Hall.
  { intros s Hs. destruct (s_thread s) as [t|] eqn:E; [|done]. exfalso. by eapply Hnil. }
  assert (done L = s_op <$> L) as HdL.
  { clear -Hall. induction L as [|s L IH]; [done|]. unfold done in *. cbn. rewrite (Hall s) by (by left).
    rewrite IH; [done|]. intros x Hx. apply Hall. by right. }
  exists (filter (λ op, op_key op = k) (s_op <$> L)). split; [|split].
  - by rewrite <-HdL, Hd.
  - eapply runs_accepts, Hr.
  - clear -Ho Hall. induction Ho as [|s L H IH Hs]; [constructor|].
    assert (∀ x, x ∈ L → s_thread x = None) as HL by (intros x ?; apply Hall; by right).
    rewrite fmap_cons, filter_cons. case_decide; [|by apply IH]. constructor; [by apply IH|].
    apply Forall_forall. intros o [_ (x & -> & Hx)%list_elem_of_fmap]%list_elem_of_filter.
    eapply Forall_forall in Hs; [|done]. apply Hs. by apply HL.
Qed.
End order.

(** ** Operations that have returned and are not yet in the log *)

Section logging.
Context {T : Type} (th_ops : T → list Operation).
Implicit Types (ths : gmap Z T) (t : Z) (th : T).

Definition logging ths : list Operation := map_to_list ths ≫= λ p, th_ops p.2.

Lemma logging_insert ths t th :
  logging (<[t := th]> ths) ≡ₚ th_ops th ++ logging (delete t ths).
Proof.
  unfold logging. rewrite <-insert_delete_eq, map_to_list_insert by apply lookup_delete_eq. done.
Qed.

Lemma logging_delete ths t th : ths !! t = Some th → logging ths ≡ₚ th_ops th ++ logging (delete t ths).
Proof. intros H. rewrite <-logging_insert. by rewrite insert_id. Qed.
End logging.

(** ** Races of conditional puts *)

(** A put to key [k] that asks for version [ver]; a put that was told it
    succeeded. *)
Definition asks (k : string) (ver : Z) (o : Operation) : Prop :=
  in_Op (op_Input o) = 1 ∧ op_key o = k ∧ in_Version (op_Input o) = ver.
#[global] Instance asks_dec k ver o : Decision (asks k ver o).
Proof. unfold asks. apply _. Defined.

Definition wins (o : Operation) : Prop := out_Err (op_Output o) = err_string OK.
#[global] Instance wins_dec o : Decision (wins o).
Proof. unfold wins. apply _. Defined.

Definition winners (k : string) (ver : Z) (history : list Operation) : list Operation :=
  filter wins (filter (asks k ver) history).

Definition reads (k : string) (o : Operation) : Prop := in_Op (op_Input o) = 0 ∧ op_key o = k.

Section races.
Context (k : string) (ver : Z).
Implicit Types (v : cell) (o g : Operation) (lin : list Operation).

Definition cell_ver v : Z := match v with Some w => Version w | None => 0 end.

(** A put that asks for the version of the cell moves it on; all else leaves it. *)
Lemma SeqStep_ver v v' o :
  SeqStep v (op_Input o) (op_Output o) = (true, v') → 0 ≤ cell_ver v → cell_ver v + 1 < u64_mod →
  (in_Op (op_Input o) = 1 ∧ in_Version (op_Input o) = cell_ver v ∧ cell_ver v' = cell_ver v + 1 ∧
     (wins o ∨ out_Err (op_Output o) = err_string ErrMaybe)) ∨
  (v' = v ∧ (in_Op (op_Input o) = 1 → in_Version (op_Input o) ≠ cell_ver v ∧ ¬ wins o) ∧
     (in_Op (op_Input o) = 0 → out_Version (op_Output o) = cell_ver v)).
Proof.
  unfold SeqStep, wins. destruct (op_Input o) as [op ky x vr]. cbn. intros H H0 H1.
  destruct op as [|[]|]; try discriminate H.
  - right. injection H as Ho%bool_decide_eq_true <-. rewrite Ho. split_and!; try done. by destruct v.
  - destruct (put_cell x vr v) as [v1 e] eqn:Ep. injection H as Ho <-. apply orb_true_iff in Ho.
    rewrite !bool_decide_eq_true in Ho. unfold put_cell in Ep.
    destruct v as [w|]; case_decide as E; injection Ep as <- <-; cbn in *.
    + left. rewrite u64_add_small by lia. split_and!; [done..|lia|]. destruct Ho as [-> | ->]; auto.
    + right. split_and!; try done. intros _. split; [done|]. by destruct Ho as [-> | ->].
    + left. rewrite u64_add_small by lia. split_and!; [done..|lia|]. destruct Ho as [-> | ->]; auto.
    + right. split_and!; try done. intros _. split; [done|]. by destruct Ho as [-> | ->].
Qed.

Lemma seq_accepts_cons v o lin :
  seq_accepts v (o :: lin) = true →
  ∃ v', SeqStep v (op_Input o) (op_Output o) = (true, v') ∧ seq_accepts v' lin = true.
Proof.
  cbn [seq_accepts]. destruct (SeqStep v _ _) as [ok v']. intros [-> H]%andb_true_iff. by exists v'.
Qed.

Lemma seq_accepts_ver v o lin :
  seq_accepts v (o :: lin) = true → 0 ≤ cell_ver v → cell_ver v + zlen (o :: lin) < u64_mod →
  ∃ v', SeqStep v (op_Input o) (op_Output o) = (true, v') ∧ seq_accepts v' lin = true ∧
    cell_ver v ≤ cell_ver v' ∧ 0 ≤ cell_ver v' ∧ cell_ver v' + zlen lin < u64_mod ∧ cell_ver v + 1 < u64_mod.
Proof.
  intros (v' & Hs & Ha)%seq_accepts_cons H0 Hb. rewrite zlen_cons in Hb. pose proof (zlen_nonneg lin).
  exists v'. split; [done|]. split; [done|].
  destruct (SeqStep_ver v v' o Hs) as [(_ & _ & -> & _)|(-> & _)]; lia.
Qed.

Lemma seq_accepts_app v l1 l2 :
  seq_accepts v (l1 ++ l2) = true → 0 ≤ cell_ver v → cell_ver v + zlen (l1 ++ l2) < u64_mod →
  ∃ v', seq_accepts v' l2 = true ∧ 0 ≤ cell_ver v' ∧ cell_ver v' + zlen l2 < u64_mod.
Proof.
  revert v. induction l1 as [|o l1 IH]; intros v Ha H0 Hb; [by exists v|].
  destruct (seq_accepts_ver _ _ _ Ha H0 Hb) as (v' & _ & Ha' & _ & ? & ? & _). by apply (IH v').
Qed.

(** Once the version has passed, nobody wins. *)
Lemma no_late_winner v lin :
  seq_accepts v lin = true → 0 ≤ cell_ver v → cell_ver v + zlen lin < u64_mod → ver < cell_ver v →
  winners k ver lin = [].
Proof.
  unfold winners. revert v. induction lin as [|o lin IH]; intros v Ha H0 Hb Hv; [done|].
  destruct (seq_accepts_ver _ _ _ Ha H0 Hb) as (v' & Hs & Ha' & ? & ? & ? & Hb1).
  specialize (IH v' Ha' ltac:(done) ltac:(done) ltac:(lia)). rewrite filter_cons. case_decide as Hk; [|done].
  rewrite filter_cons. case_decide as Hw; [|done]. destruct Hk as (Hop & _ & Hver).
  destruct (SeqStep_ver v v' o Hs) as [(_ & Hv1 & _)|(_ & Hn & _)]; [done..|lia|]. by destruct (Hn Hop).
Qed.

Lemma one_winner v lin :
  seq_accepts v lin = true → 0 ≤ cell_ver v → cell_ver v + zlen lin < u64_mod →
  (length (winners k ver lin) ≤ 1)%nat.
Proof.
  revert v. induction lin as [|o lin IH]; intros v Ha H0 Hb; [cbn; lia|].
  destruct (seq_accepts_ver _ _ _ Ha H0 Hb) as (v' & Hs & Ha' & ? & ? & ? & Hb1).
  specialize (IH v' Ha' ltac:(done) ltac:(done)). unfold winners in *. rewrite filter_cons. case_decide as Hk; [|done].
  rewrite filter_cons. case_decide as Hw; [|done]. destruct Hk as (Hop & _ & Hver).
  destruct (SeqStep_ver v v' o Hs) as [(_ & Hv1 & Hv2 & _)|(_ & Hn & _)]; [done..| |by destruct (Hn Hop)].
  pose proof (no_late_winner v' lin Ha') as Hno. unfold winners in Hno. rewrite Hno by lia. cbn. lia.
Qed.

(** While the version is at [ver], the next put that asks for it succeeds. *)
Lemma some_winner v lin :
  seq_accepts v lin = true → 0 ≤ cell_ver v → cell_ver v + zlen lin < u64_mod → cell_ver v = ver →
  (∀ o, o ∈ lin → op_key o = k ∧ out_Err (op_Output o) ≠ err_string ErrMaybe) →
  filter (asks k ver) lin ≠ [] → winners k ver lin ≠ [].
Proof.
  unfold winners. revert v. induction lin as [|o lin IH]; intros v Ha H0 Hb Hv Hall Hne; [done|].
  destruct (seq_accepts_ver _ _ _ Ha H0 Hb) as (v' & Hs & Ha' & ? & ? & ? & Hb1).
  destruct (Hall o) as [Hko Hmo]; [by left|]. rewrite filter_cons in Hne |- *.
  destruct (SeqStep_ver v v' o Hs) as [(Hop & Hv1 & _ & Hw)|(-> & Hn & _)]; [done..| |].
  - rewrite decide_True by (split_and!; [done|done|lia]). rewrite filter_cons, decide_True by (by destruct Hw). done.
  - assert (¬ asks k ver o) as Hno. { intros (Hop & _ & Hver). destruct (Hn Hop). lia. }
    rewrite decide_False in Hne |- * by done. eapply IH; try done. intros x Hx. apply Hall. by right.
Qed.

(** After somebody has read version [ver], the next put that asks for it succeeds. *)
Lemma winner_after_read l1 g l2 :
  seq_accepts None (l1 ++ g :: l2) = true → zlen (l1 ++ g :: l2) < u64_mod →
  reads k g → out_Version (op_Output g) = ver →
  (∀ x, x ∈ l1 ++ g :: l2 → op_key x = k ∧ out_Err (op_Output x) ≠ err_string ErrMaybe) →
  filter (asks k ver) l1 = [] → filter (asks k ver) (l1 ++ g :: l2) ≠ [] →
  winners k ver (l1 ++ g :: l2) ≠ [].
Proof.
  intros Ha Hb [Hgo Hgk] Hgv Hall Hl1 Hask.
  destruct (seq_accepts_app None l1 (g :: l2) Ha) as (v & Hav & Hv0 & Hvb); [unfold cell_ver; lia..|].
  destruct (seq_accepts_ver _ _ _ Hav Hv0 Hvb) as (v' & Hstep & Hav' & ? & ? & ? & ?).
  destruct (SeqStep_ver v v' g Hstep) as [(Hop & _)|(-> & _ & Hgv')]; [done|done|congruence|].
  assert (filter (asks k ver) (l1 ++ g :: l2) = filter (asks k ver) l2) as Hgl.
  { rewrite filter_app, Hl1, app_nil_l, filter_cons, decide_False; [done|]. intros [Hop _]. congruence. }
  unfold winners. rewrite Hgl in *. eapply some_winner; [exact Hav'|done|done| |..].
  - rewrite <-Hgv. symmetry. by apply Hgv'.
  - intros o Ho. apply Hall. set_solver.
  - done.
Qed.

Lemma Partition_key history :
  filter (λ o, op_key o = k) history ≠ [] → filter (λ o, op_key o = k) history ∈ Partition history.
Proof.
  intros Hne. rewrite Partition_unfold. apply list_elem_of_fmap. exists k. split; [done|].
  rewrite merge_sort_Permutation, elem_of_elements. apply partition_map_dom.
  destruct (filter _ history) as [|o l] eqn:E; [done|]. exists o.
  assert (o ∈ o :: l) as Ho by (by left). rewrite <-E in Ho. by apply list_elem_of_filter in Ho as [? ?].
Qed.

(** Of the puts that ask for one version of a key at most one succeeds, and
    exactly one if somebody read this version before they were all called. *)
Lemma race_winners history :
  seq_linearizable history → zlen history < u64_mod →
  (length (winners k ver history) ≤ 1)%nat ∧
  ∀ g, g ∈ history → reads k g → out_Version (op_Output g) = ver →
    (∀ o, o ∈ history → out_Err (op_Output o) ≠ err_string ErrMaybe) →
    (∀ o, o ∈ history → asks k ver o → precedes g o) →
    filter (asks k ver) history ≠ [] → length (winners k ver history) = 1%nat.
Proof.
  intros Hlin Hlen. set (part := filter (λ o, op_key o = k) history).
  assert (filter (asks k ver) part = filter (asks k ver) history) as Hpart.
  { unfold part. rewrite list_filter_filter. apply list_filter_iff. intros o. unfold asks. tauto. }
  destruct (decide (part = [])) as [Hnil|Hne].
  { rewrite Hnil in Hpart. unfold winners. rewrite <-Hpart. split; [cbn; lia|]. intros g _ _ _ _ _. done. }
  destruct (Hlin part (Partition_key _ Hne)) as (lin & Hp & Ha & Hs).
  assert (zlen lin < u64_mod) as Hle.
  { unfold zlen in *. rewrite Hp. unfold part. pose proof (length_filter (λ o, op_key o = k) history). lia. }
  assert (winners k ver lin ≡ₚ winners k ver history) as Hw by (unfold winners; by rewrite <-Hpart, Hp).
  assert (length (winners k ver history) ≤ 1)%nat as Hone by (rewrite <-Hw; by eapply one_winner).
  split; [done|]. intros g Hg Hgr Hgv Hmaybe Hprec Hask.
  assert (g ∈ lin) as (l1 & l2 & ->)%list_elem_of_split. { rewrite Hp. apply list_elem_of_filter. by split; [apply Hgr|]. }
  assert (∀ x, x ∈ l1 ++ g :: l2 → op_key x = k ∧ x ∈ history) as Hin.
  { intros x. rewrite Hp. unfold part. by intros [? ?]%list_elem_of_filter. }
  assert (winners k ver (l1 ++ g :: l2) ≠ []) as Hsome.
  { apply winner_after_read; try done.
    - intros x Hx. destruct (Hin x Hx). split; [done|by apply Hmaybe].
    - apply filter_drop. intros x Hx Hax. rewrite StronglySorted_app in Hs. destruct Hs as [Hs _].
      apply (Hs x g); [done|by left|]. apply Hprec; [|done]. apply Hin. set_solver.
    - intros E. apply Hask. apply Permutation_nil_r. by rewrite <-Hpart, <-Hp, E. }
  destruct (winners k ver history); [by apply Permutation_nil_r in Hw|]. cbn in *. lia.
Qed.
End races.
