(* ===== verification/KvLin.v ===== *)
(** * KvLin: what the test clients record of the key/value server is linearizable

    Models the recording half of [src/src/kvtest/porcupine.go] ([OpLog], [Get],
    [Put], [Test.Get], [Test.Put], [CheckPorcupine]) around the clerk and the
    server of [src/src/kvsrv].  Any number of threads run the two wrappers at
    once: a thread reads the clock, runs the clerk's call, reads the clock
    again and appends the operation to the shared log.  During one [Call] the
    server executes the request at most once, and the call fails when the
    request or the reply is lost, or while the request is still under way: then
    the server may execute it at any later time, even after the clerk has
    returned.

    [history_linearizable]: once the threads are done, the recorded history has,
    for every key, an order of its operations that a sequential store explains
    and that respects real time; and so has, with the checker's model, the
    history without the puts refused with [ErrNoKey], which the model does not
    know.  [CheckPorcupine_passes]: without such puts the check at the end of a
    test does not fail it; [NoKey_put_fails_check]: with one it does.  A put
    that stays under way has to ask for a version the key has reached, as one
    whose version comes from a Get does; [late_put_breaks_check]: otherwise it
    can take effect after it was refused. *)

From S2P Require Import Prelude RpcApi KvModel KvSpec KvSrv Linear Annotate.

(** ** The threads *)

Inductive Reply := GotGet (r : GetReply) | GotPut (r : PutReply).

(** A call of the clerk in progress: its arguments, the client's number and the
    time it began at, whether an earlier [Call] of it failed, and the reply the
    server computed in the current [Call]. *)
Record Calling := mkCalling {
  c_req : Request; c_cli : Z; c_start : Z; c_resend : bool; c_reply : option Reply }.

(** A thread inside [Get] or [Put] of the test: the clerk is called, or has
    returned and the operation is about to be appended. *)
Inductive Thread := TCalling (c : Calling) | TLogging (o : Operation).

Record World := mkWorld {
  w_now : Z; w_srv : KVServer; w_threads : gmap Z Thread; w_oplog : OpLog;
  w_late : list Request   (* requests of failed calls that are still under way *) }.

Definition MakeWorld : World := mkWorld 0 MakeKVServer ∅ (mkOpLog []) [].

(** What happens next: time passes, a thread begins an operation, the server
    executes the request of a thread's current [Call], that [Call] returns
    false (and its request may stay under way), the server executes a request
    of a failed call, a [Call] returns true, a thread appends what it
    recorded. *)
Inductive Event :=
| Tick (d : Z)
| Invoke (t cli : Z) (r : Request)
| Exec (t : Z)
| Lose (t : Z) (under_way : bool)
| ExecLate (i : nat)
| Return (t : Z)
| Append (t : Z).

(** The handler of the request. *)
Definition srv_handle (kv : KVServer) (r : Request) : KVServer * Reply :=
  match r with
  | RGet a => (kv, GotGet (Get kv a))
  | RPut a => let '(kv', rep) := Put kv a in (kv', GotPut rep)
  end.

(** What the clerk returns when a [Call] of it returned true: [Clerk.Get] goes
    on calling unless the reply is [OK] or [ErrNoKey], [Clerk.Put] answers
    [ErrMaybe] in its loop. *)
Definition clerk_answer (resend : bool) (rep : Reply) : option KvOutput :=
  match rep with
  | GotGet r =>
      match get_Err r with
      | ErrNoKey => Some (get_output r)
      | OK => Some (get_output r)
      | _ => None
      end
  | GotPut r => Some (put_output (if resend then ErrMaybe else put_Err r))
  end.

(** The operation the wrapper appends. *)
Definition recorded (c : Calling) (out : KvOutput) (end_ : Z) : Operation :=
  mkOperation (c_cli c) (req_input (c_req c)) (c_start c) out end_.

Definition set_thread (t : Z) (th : Thread) (w : World) : World :=
  mkWorld (w_now w) (w_srv w) (<[t := th]> (w_threads w)) (w_oplog w) (w_late w).

Definition calling (t : Z) (w : World) : option Calling :=
  match w_threads w !! t with Some (TCalling c) => Some c | _ => None end.

Definition set_server (kv : KVServer) (w : World) : World :=
  mkWorld (w_now w) kv (w_threads w) (w_oplog w) (w_late w).

Definition set_late (l : list Request) (w : World) : World :=
  mkWorld (w_now w) (w_srv w) (w_threads w) (w_oplog w) l.

(** [None]: the event cannot happen now.  A request that is under way may be
    executed more than once. *)
Definition lstep (ev : Event) (w : World) : option World :=
  match ev with
  | Tick d =>
      if decide (0 ≤ d) then Some (mkWorld (w_now w + d) (w_srv w) (w_threads w) (w_oplog w) (w_late w)) else None
  | Invoke t cli r =>
      match w_threads w !! t with
      | None => Some (set_thread t (TCalling (mkCalling r cli (w_now w) false None)) w)
      | Some _ => None
      end
  | Exec t =>
      c ← calling t w;
      match c_reply c with
      | None =>
          let '(kv, rep) := srv_handle (w_srv w) (c_req c) in
          Some (set_thread t (TCalling (mkCalling (c_req c) (c_cli c) (c_start c) (c_resend c) (Some rep)))
                  (set_server kv w))
      | Some _ => None
      end
  | Lose t under_way =>
      c ← calling t w;
      Some (set_thread t (TCalling (mkCalling (c_req c) (c_cli c) (c_start c) true None))
              (set_late (if under_way : bool then w_late w ++ [c_req c] else w_late w) w))
  | ExecLate i =>
      r ← w_late w !! i;
      Some (set_server (srv_handle (w_srv w) r).1 w)
  | Return t =>
      c ← calling t w;
      rep ← c_reply c;
      match clerk_answer (c_resend c) rep with
      | Some out => Some (set_thread t (TLogging (recorded c out (w_now w))) w)
      | None => Some (set_thread t (TCalling (mkCalling (c_req c) (c_cli c) (c_start c) true None)) w)
      end
  | Append t =>
      match w_threads w !! t with
      | Some (TLogging o) =>
          Some (mkWorld (w_now w) (w_srv w) (delete t (w_threads w)) (OpLog_Append o (w_oplog w)) (w_late w))
      | _ => None
      end
  end.

Fixpoint lrun (evs : list Event) (w : World) : option World :=
  match evs with [] => Some w | ev :: evs => w ← lstep ev w; lrun evs w end.

(** The puts that stay under way ask for a version their key has reached. *)
Definition informed_event (ev : Event) (w : World) : bool :=
  match ev with
  | Lose t true =>
      match calling t w with
      | Some (mkCalling (RPut a) _ _ _ _) =>
          bool_decide (put_Version a ≤ kv_version (kvm (w_srv w)) (put_Key a))
      | _ => true
      end
  | _ => true
  end.

Fixpoint informed (evs : list Event) (w : World) : bool :=
  match evs with
  | [] => true
  | ev :: evs => informed_event ev w && match lstep ev w with Some w => informed evs w | None => true end
  end.

(** [Test.CheckPorcupine] with Porcupine's [CheckOperationsVerbose] as a
    parameter. *)
Definition CheckPorcupine (CheckOperations : list Operation → CheckResult) t order (enabled : string) (opens : bool)
    (s : AnnState) (log : OpLog) : bool * option (list Ann) * AnnState :=
  checkPorcupine t order (CheckOperations (OpLog_Read log)) enabled opens s.

(** ** The invariant *)

Section invariant.
Implicit Types (t n now : Z) (L : list Slot) (s : Slot) (c : Calling) (kv : KVServer).

(** The slot of a running call. *)
Record slot_ok kv c s : Prop := {
  so_input : op_Input (s_op s) = req_input (c_req c);
  so_call : op_Call (s_op s) = c_start c;
  so_resend : c_reply c = None → c_resend c = true;
  so_req :
    match c_req c with
    | RGet a =>
        s_wrote s = false ∧
        ∀ rep, c_reply c = Some rep → ∃ kv', rep = GotGet (Get kv' a) ∧ op_Output (s_op s) = get_output (Get kv' a)
    | RPut a =>
        (s_wrote s = true → put_Version a < kv_version (kvm kv) (put_Key a)) ∧
        ∀ rep, c_reply c = Some rep → ∃ r, rep = GotPut r ∧
          (c_resend c = false → op_Output (s_op s) = put_output (put_Err r))
    end }.

(** A call has its slot once the server has executed it. *)
Definition call_inv kv now L t (oc : option Calling) : Prop :=
  match oc with
  | None => ∀ s, ¬ slot_of L t s
  | Some c => c_start c ≤ now ∧ ((∀ s, ¬ slot_of L t s) ∧ c_reply c = None ∨ ∃ s, slot_of L t s ∧ slot_ok kv c s)
  end.

(** A put that is under way can no longer succeed, or a call that waits for an
    answer to this put, which it sent again, stands for it. *)
Definition late_inv (w : World) (a : PutArgs) : Prop :=
  put_Version a < kv_version (kvm (w_srv w)) (put_Key a) ∨
  put_Version a = kv_version (kvm (w_srv w)) (put_Key a) ∧
  ∃ t c, calling t w = Some c ∧ c_req c = RPut a ∧ c_resend c = true ∧ c_reply c = None.

Definition th_ops (th : Thread) : list Operation :=
  match th with TCalling _ => [] | TLogging o => [o] end.

Definition all_ops (w : World) : list Operation := operations (w_oplog w) ++ logging th_ops (w_threads w).

(** What every key holds. *)
Definition holding (kv : KVServer) : string → cell := λ k, kvm kv !! k.

Record lin_inv n (w : World) L : Prop := {
  li_ok : lin_ok (holding (w_srv w)) (w_now w) (all_ops w) L;
  li_version : ∀ k, 0 ≤ kv_version (kvm (w_srv w)) k ≤ n;
  li_calls : ∀ t, call_inv (w_srv w) (w_now w) L t (calling t w);
  li_late : ∀ a, RPut a ∈ w_late w → late_inv w a }.

Lemma calling_set t t' th w :
  calling t' (set_thread t th w) =
    if decide (t' = t) then match th with TCalling c => Some c | TLogging _ => None end else calling t' w.
Proof.
  unfold calling, set_thread. cbn. case_decide as E.
  - subst. by rewrite lookup_insert_eq.
  - by rewrite lookup_insert_ne.
Qed.

(** What is recorded when a running call goes on as [th]. *)
Lemma all_ops_set t c th w :
  calling t w = Some c → all_ops (set_thread t th w) ≡ₚ all_ops w ++ th_ops th.
Proof.
  unfold calling, all_ops. intros H. cbn. rewrite logging_insert.
  destruct (w_threads w !! t) as [[c0|]|] eqn:E; try done.
  rewrite (logging_delete _ _ _ _ E). cbn. rewrite <-app_assoc. by rewrite (Permutation_app_comm (th_ops th)).
Qed.

Lemma call_inv_mono kv kv' now now' L L' t oc :
  call_inv kv now L t oc → now ≤ now' → (∀ k, kv_version (kvm kv) k ≤ kv_version (kvm kv') k) →
  (∀ s, slot_of L' t s ↔ slot_of L t s) → call_inv kv' now' L' t oc.
Proof.
  intros HI Hn Hv HL. destruct oc as [c|]; cbn in *; [|intros s; by rewrite HL].
  destruct HI as [Hst HI]. split; [lia|]. destruct HI as [[H1 H2]|(s & Hs & [H1 H2 H3 H4])].
  - left. split; [|done]. intros s. by rewrite HL.
  - right. exists s. split; [by apply HL|]. split; try done. destruct (c_req c) as [a|a]; [done|].
    destruct H4 as [H4 H5]. split; [|done]. intros E. specialize (H4 E). specialize (Hv (put_Key a)). lia.
Qed.

(** The call that stands for a late put goes on waiting, or the put has become
    impossible. *)
Lemma late_inv_mono w w' a :
  late_inv w a → kv_version (kvm (w_srv w)) (put_Key a) ≤ kv_version (kvm (w_srv w')) (put_Key a) →
  (∀ t c, calling t w = Some c → c_req c = RPut a → c_resend c = true → c_reply c = None →
     put_Version a < kv_version (kvm (w_srv w')) (put_Key a) ∨ calling t w' = Some c) →
  late_inv w' a.
Proof.
  unfold late_inv. intros [?|(Heq & t & c & H1 & H2 & H3 & H4)] Hv Hc; [left; lia|].
  destruct (Hc t c H1 H2 H3 H4) as [?|?]; [by left|].
  destruct (decide (kv_version (kvm (w_srv w')) (put_Key a) = put_Version a)); [right; eauto 10|left; lia].
Qed.

Lemma lin_inv_weaken n n' w L : n ≤ n' → lin_inv n w L → lin_inv n' w L.
Proof. intros Hn []. split; try done. intros k. specialize (li_version0 k). lia. Qed.

(** A thread goes on calling, the server and the slots stay. *)
Lemma lin_inv_call n w L t c c' :
  lin_inv n w L → calling t w = Some c → call_inv (w_srv w) (w_now w) L t (Some c') →
  (∀ a, RPut a ∈ w_late w → late_inv (set_thread t (TCalling c') w) a) →
  lin_inv n (set_thread t (TCalling c') w) L.
Proof.
  intros [Hok Hv Hcal Hlt] Hct Hc' Hlate. split; try done.
  - eapply lin_ok_mono; [| |exact Hok]; [done|]. by rewrite (all_ops_set _ c), app_nil_r.
  - intros t'. rewrite calling_set. case_decide as E; [by subst|apply Hcal].
Qed.

(** A call that has its reply returns: its slot becomes final. *)
Lemma lin_inv_return n w L t c s out :
  lin_inv n w L → calling t w = Some c → c_reply c ≠ None → slot_of L t s → slot_ok (w_srv w) c s →
  (∀ v v1, SeqStep v (req_input (c_req c)) (op_Output (s_op s)) = (true, v1) →
     SeqStep v (req_input (c_req c)) out = (true, v1)) →
  ∃ L', lin_inv n (set_thread t (TLogging (recorded c out (w_now w))) w) L'.
Proof.
  intros [Hlin Hv Hcal Hlt] Hct Hrep Hs Hok Hacc. set (o := recorded c out (w_now w)) in *.
  destruct (lin_ok_finish (holding (w_srv w)) (w_now w) (all_ops w) L t s o) as (L' & HL' & Hsl);
    [done|done|symmetry; apply Hok|symmetry; apply Hok|done|exact Hacc|].
  exists L'. split; try done.
  - eapply lin_ok_mono; [| |exact HL']; [done|]. by rewrite (all_ops_set _ c).
  - intros t'. rewrite calling_set. case_decide as E.
    + subst t'. intros x. rewrite Hsl. naive_solver.
    + eapply call_inv_mono; [apply Hcal|done|done|]. intros x. rewrite Hsl. naive_solver.
  - intros a Ha. eapply late_inv_mono; [by apply Hlt|done|]. intros t' c' Hc' _ _ Hr. right.
    rewrite calling_set, decide_False; [done|]. congruence.
Qed.

(** The slot a request takes when the server executes it. *)
Definition exec_slot t c kv : Slot :=
  match c_req c with
  | RGet a => mkSlot (Some t) (recorded c (get_output (Get kv a)) 0) false
  | RPut a =>
      let e := put_Err (Put kv a).2 in
      mkSlot (Some t) (recorded c (put_output e) 0) (bool_decide (e = OK))
  end.

Definition exec_call c (rep : Reply) : Calling :=
  mkCalling (c_req c) (c_cli c) (c_start c) (c_resend c) (Some rep).

(** A put that is answered with [OK] moves the version past its own. *)
Lemma Put_passes kv a :
  (∀ k, 0 ≤ kv_version (kvm kv) k ∧ kv_version (kvm kv) k + 1 < u64_mod) →
  put_Err (Put kv a).2 = OK → put_Version a < kv_version (kvm (Put kv a).1) (put_Key a).
Proof.
  intros Hv E. destruct (Put_version_mono kv a (put_Key a)) as [_ HOK]; [apply Hv..|].
  destruct (HOK E eq_refl). lia.
Qed.

(** The slot is one for the call, whether it gets the reply or sent the request
    before. *)
Lemma exec_slot_ok t c c' kv :
  (∀ k, 0 ≤ kv_version (kvm kv) k ∧ kv_version (kvm kv) k + 1 < u64_mod) →
  c' = exec_call c (srv_handle kv (c_req c)).2 ∨ (c' = c ∧ c_resend c = true ∧ c_reply c = None) →
  slot_ok (srv_handle kv (c_req c)).1 c' (exec_slot t c kv).
Proof.
  intros Hv Hc'. assert (c_req c' = c_req c ∧ c_start c' = c_start c) as [Er Es] by (by destruct Hc' as [-> |[-> _]]).
  split.
  - rewrite Er. unfold exec_slot. by destruct (c_req c) eqn:E; cbn; rewrite E.
  - rewrite Es. unfold exec_slot. by destruct (c_req c).
  - by destruct Hc' as [-> |(-> & ? & ?)].
  - rewrite Er. unfold exec_slot. destruct (c_req c) as [a|a] eqn:E; cbn.
    + split; [done|]. intros rep Hrep. destruct Hc' as [-> |(-> & _ & Hn)]; [|congruence].
      cbn in Hrep. injection Hrep as <-. eauto.
    + rewrite (surjective_pairing (Put kv a)). cbn. split.
      * intros Ho%bool_decide_eq_true. by apply Put_passes.
      * intros rep Hrep. destruct Hc' as [-> |(-> & _ & Hn)]; [|congruence]. cbn in Hrep.
        rewrite (surjective_pairing (Put kv a)) in Hrep. injection Hrep as <-. by eexists.
Qed.

Lemma srv_handle_versions kv r k :
  0 ≤ kv_version (kvm kv) k → kv_version (kvm kv) k + 1 < u64_mod →
  kv_version (kvm kv) k ≤ kv_version (kvm (srv_handle kv r).1) k ≤ kv_version (kvm kv) k + 1.
Proof.
  intros H0 H1. destruct r as [a|a]; cbn; [lia|].
  rewrite (surjective_pairing (Put kv a)). cbn. by apply Put_version_mono.
Qed.

Lemma srv_handle_other kv r k :
  k ≠ req_key r → holding (srv_handle kv r).1 k = holding kv k.
Proof.
  intros Hne. destruct r as [a|a]; cbn; [done|].
  rewrite (surjective_pairing (Put kv a)). unfold holding. cbn. rewrite Put_kvm. by rewrite kv_put_other.
Qed.

Lemma exec_slot_key t c kv : slot_key (exec_slot t c kv) = req_key (c_req c).
Proof. unfold exec_slot, slot_key, op_key. destruct (c_req c) eqn:E; cbn; by rewrite E. Qed.

Lemma exec_slot_step t c kv :
  SeqStep (holding kv (req_key (c_req c))) (op_Input (s_op (exec_slot t c kv))) (op_Output (s_op (exec_slot t c kv)))
    = (true, holding (srv_handle kv (c_req c)).1 (req_key (c_req c))).
Proof.
  unfold exec_slot. destruct (c_req c) as [a|a] eqn:E; cbn [s_op recorded op_Input op_Output srv_handle fst req_key].
  - rewrite E. cbn [req_input]. rewrite Get_spec. unfold holding.
    replace (kv_get (kvm kv) (get_Key a)) with (cell_get (kvm kv !! get_Key a)); [apply SeqStep_get|].
    unfold kv_get. by destruct (kvm kv !! get_Key a).
  - rewrite E. rewrite (surjective_pairing (Put kv a)). cbn [fst snd]. unfold holding.
    rewrite Put_err, Put_kvm, kv_put_lookup, kv_put_cell. apply SeqStep_put.
Qed.

(** A put that is not answered with [OK] leaves the server as it was. *)
Lemma Put_fails kv a : put_Err (Put kv a).2 ≠ OK → (Put kv a).1 = kv.
Proof.
  rewrite Put_err. intros H. destruct kv as [m]. rewrite Put_spec. cbn in *. by rewrite decide_False.
Qed.

Lemma exec_slot_same t c kv : s_wrote (exec_slot t c kv) = false → (srv_handle kv (c_req c)).1 = kv.
Proof.
  unfold exec_slot. destruct (c_req c) as [a|a]; cbn; [done|].
  intros H%bool_decide_eq_false%Put_fails. by rewrite (surjective_pairing (Put kv a)).
Qed.

(** A put that was performed before is refused. *)
Lemma Put_again kv a :
  put_Version a < kv_version (kvm kv) (put_Key a) → (Put kv a).1 = kv.
Proof.
  intros H. apply Put_fails. rewrite Put_err. intros E.
  destruct (kv_put (kvm kv) (put_Key a) (put_Value a) (put_Version a)) as [m e] eqn:Ek.
  cbn in E. subst e. apply kv_put_OK in Ek as [_ ?]. lia.
Qed.

(** A put that asks for the version the key has is performed. *)
Lemma Put_now kv a :
  put_Version a = kv_version (kvm kv) (put_Key a) → put_Err (Put kv a).2 = OK.
Proof.
  rewrite Put_err. intros H. unfold kv_put, kv_put_err, kv_version in *.
  cbn [snd]. destruct (kvm kv !! put_Key a); by rewrite decide_True.
Qed.

(** The request of thread [t] takes effect now, and its slot goes to the end. *)
Lemma exec_takes_place n w L t c c' :
  lin_inv n w L → n + 1 < u64_mod → calling t w = Some c →
  c' = exec_call c (srv_handle (w_srv w) (c_req c)).2 ∨ (c' = c ∧ c_resend c = true ∧ c_reply c = None) →
  (∀ s, slot_of L t s → s_wrote s = false) →
  ∃ L', lin_inv (n + 1) (set_thread t (TCalling c') (set_server (srv_handle (w_srv w) (c_req c)).1 w)) L'.
Proof.
  intros HI Hn Hct Hc' Hw. destruct (HI) as [Hlin Hv Hcal Hlt].
  assert (∀ k, 0 ≤ kv_version (kvm (w_srv w)) k ∧ kv_version (kvm (w_srv w)) k + 1 < u64_mod) as Hv'
    by (intros k; specialize (Hv k); lia).
  pose proof (Hcal t) as Hc. rewrite Hct in Hc. destruct Hc as [Hst Hc].
  set (r := c_req c) in *. set (s' := exec_slot t c (w_srv w)).
  pose proof (exec_slot_ok t c c' (w_srv w) Hv' Hc') as Hok. fold r s' in Hok.
  assert (c_start c' = c_start c) as Es by (by destruct Hc' as [-> |[-> _]]).
  destruct (lin_ok_exec (holding (w_srv w)) (holding (srv_handle (w_srv w) r).1) (w_now w) (all_ops w) L t s')
    as [HL Hsl]; [done|done|..].
  - unfold s', exec_slot. by destruct (c_req c).
  - rewrite (so_call _ _ _ Hok). by rewrite Es.
  - unfold s'. rewrite exec_slot_key. apply exec_slot_step.
  - intros E. unfold r. by rewrite (exec_slot_same _ _ _ E).
  - intros k. unfold s'. rewrite exec_slot_key. apply srv_handle_other.
  - eexists. split.
    + eapply lin_ok_mono; [| |exact HL]; [done|]. by rewrite (all_ops_set t c), app_nil_r.
    + intros k. cbn. pose proof (srv_handle_versions (w_srv w) r k (proj1 (Hv' k)) (proj2 (Hv' k))). specialize (Hv k). lia.
    + intros t'. rewrite calling_set. case_decide as E.
      * split; [cbn; lia|]. right. exists s'. split; [|done]. apply Hsl. by rewrite decide_True.
      * eapply call_inv_mono; [apply Hcal|done|..].
        -- intros k. apply srv_handle_versions; apply Hv'.
        -- intros x. rewrite Hsl. by rewrite decide_False.
    + intros a Ha. pose proof (Hlt a Ha) as Hla.
      pose proof (srv_handle_versions (w_srv w) r (put_Key a) (proj1 (Hv' _)) (proj2 (Hv' _))) as Hmono.
      destruct Hla as [?|(Heq & t0 & c0 & H1 & H2 & H3 & H4)]; [left; cbn; lia|].
      destruct (decide (t0 = t)) as [->|Hne].
      * assert (c0 = c) as -> by congruence. left. cbn. unfold r. rewrite H2. cbn.
        rewrite (surjective_pairing (Put (w_srv w) a)). cbn. apply Put_passes; [done|]. by apply Put_now.
      * eapply (late_inv_mono w); [right; eauto 10|cbn; lia|]. intros t1 c1 G1 G2 G3 G4.
        destruct (decide (t1 = t)) as [->|Hne1]; [|right; by rewrite calling_set, decide_False].
        assert (c1 = c) as -> by congruence. left. cbn. unfold r. rewrite G2. cbn.
        rewrite (surjective_pairing (Put (w_srv w) a)). cbn. apply Put_passes; [done|]. by apply Put_now.
Qed.

Lemma exec_preserves n w L t c :
  lin_inv n w L → n + 1 < u64_mod → calling t w = Some c → c_reply c = None →
  ∃ L', lin_inv (n + 1) (set_thread t (TCalling (exec_call c (srv_handle (w_srv w) (c_req c)).2))
          (set_server (srv_handle (w_srv w) (c_req c)).1 w)) L'.
Proof.
  intros HI Hn Hct Hrep.
  destruct (decide (Exists (λ s, s_thread s = Some t ∧ s_wrote s = true) L)) as [Hw|Hw].
  - destruct (HI) as [Hlin Hv Hcal Hlt]. apply Exists_exists in Hw as (s & Hs & Ht & Hwr).
    pose proof (Hcal t) as Hc. rewrite Hct in Hc. destruct Hc as [Hst Hc].
    destruct Hc as [[Hno _]|(s' & Hs' & Hok)]; [by destruct (Hno s)|].
    assert (s' = s) as -> by (by eapply slot_of_unique).
    exists L. apply (lin_inv_weaken n); [lia|].
    pose proof (so_req _ _ _ Hok) as Hreq. pose proof (so_resend _ _ _ Hok Hrep) as Hres.
    destruct (c_req c) as [a|a] eqn:Er; [destruct Hreq; congruence|]. destruct Hreq as [Hlt' _]. specialize (Hlt' Hwr).
    pose proof (Put_again (w_srv w) a Hlt') as Hsame. cbn.
    destruct (Put (w_srv w) a) as [kv' r] eqn:Ep. cbn in Hsame |- *. subst kv'.
    destruct w as [now srv ths log late]. eapply (lin_inv_call n _ L t c); [done..| |].
    + cbn. split; [done|]. right. exists s. split; [done|].
      destruct Hok as [H1 H2 H3 H4]. split; cbn; rewrite ?Er in *; try done.
      destruct H4 as [H4 H5]. split; [done|]. intros rep [= <-]. eexists. split; [done|]. by rewrite Hres.
    + intros a' Ha'. eapply late_inv_mono; [by apply Hlt|done|]. intros t1 c1 G1 G2 _ _.
      destruct (decide (t1 = t)) as [->|]; [|right; by rewrite calling_set, decide_False].
      left. assert (a' = a) as -> by congruence. exact Hlt'.
  - eapply (exec_takes_place n w L); [done..|by left|].
    intros s [Hs Ht]. apply not_true_is_false. intros E. apply Hw, Exists_exists. eauto.
Qed.

(** A request that is under way is executed: a get changes nothing, nor does a
    put that cannot succeed any more; otherwise the put takes effect within the
    call that stands for it. *)
Lemma execLate_preserves n w L r :
  lin_inv n w L → n + 1 < u64_mod → r ∈ w_late w →
  ∃ L', lin_inv (n + 1) (set_server (srv_handle (w_srv w) r).1 w) L'.
Proof.
  intros HI Hn Hr. assert ((srv_handle (w_srv w) r).1 = w_srv w → ∃ L', lin_inv (n + 1) (set_server (srv_handle (w_srv w) r).1 w) L') as Hsame.
  { intros ->. exists L. destruct w. apply (lin_inv_weaken n); [lia|done]. }
  destruct r as [a|a]; [by apply Hsame|].
  destruct (li_late _ _ _ HI a Hr) as [Hlt|(Heq & t & c & H1 & H2 & H3 & H4)].
  { apply Hsame. cbn. rewrite (surjective_pairing (Put (w_srv w) a)). by apply Put_again. }
  destruct (exec_takes_place n w L t c c HI Hn H1) as [L' HL']; [by right|..].
  - intros s Hs. destruct (s_wrote s) eqn:Ew; [|done]. exfalso.
    pose proof (li_calls _ _ _ HI t) as Hc. rewrite H1 in Hc. destruct Hc as [_ [[Hno _]|(s' & Hs' & Hok)]]; [by destruct (Hno s)|].
    assert (s' = s) as -> by (eapply slot_of_unique; [apply HI|done..]).
    pose proof (so_req _ _ _ Hok) as Hreq. rewrite H2 in Hreq. destruct Hreq as [Hreq _]. specialize (Hreq Ew). lia.
  - exists L'. rewrite H2 in HL'. revert HL'. unfold set_thread, set_server. cbn.
    rewrite insert_id; [done|]. unfold calling in H1. destruct (w_threads w !! t) as [[]|]; congruence.
Qed.

Lemma return_preserves n w L t c rep w' :
  lin_inv n w L → calling t w = Some c → c_reply c = Some rep →
  match clerk_answer (c_resend c) rep with
  | Some out => Some (set_thread t (TLogging (recorded c out (w_now w))) w)
  | None => Some (set_thread t (TCalling (mkCalling (c_req c) (c_cli c) (c_start c) true None)) w)
  end = Some w' →
  ∃ L', lin_inv n w' L'.
Proof.
  intros HI Hct Hrep Hw'. pose proof (li_calls _ _ _ HI t) as Hc. rewrite Hct in Hc.
  destruct Hc as [_ [[_ ?]|(s & Hs & Hok)]]; [congruence|].
  pose proof (so_req _ _ _ Hok) as Hreq. destruct (c_req c) as [a|a] eqn:Er; destruct Hreq as [Hwr H].
  - destruct (H rep Hrep) as (kv' & -> & Hout).
    assert (clerk_answer (c_resend c) (GotGet (Get kv' a)) = Some (get_output (Get kv' a))) as Ha.
    { cbn. rewrite Get_spec. unfold kv_get. by destruct (kvm kv' !! get_Key a). }
    rewrite Ha in Hw'. injection Hw' as <-. eapply lin_inv_return; [done|done|congruence|done|done|by rewrite Hout].
  - destruct (H rep Hrep) as (r & -> & Hout). cbn in Hw'. injection Hw' as <-.
    eapply lin_inv_return; [done|done|congruence|done|done|]. rewrite Er. destruct (c_resend c).
    + intros v v1. cbn [req_input]. apply SeqStep_put_maybe.
    + by rewrite Hout.
Qed.

Lemma append_preserves n w L t o :
  lin_inv n w L → w_threads w !! t = Some (TLogging o) →
  lin_inv n (mkWorld (w_now w) (w_srv w) (delete t (w_threads w)) (OpLog_Append o (w_oplog w)) (w_late w)) L.
Proof.
  intros [Hlin Hv Hcal Hlt] Ht. set (w' := mkWorld _ _ _ _ _).
  assert (∀ t', calling t' w' = calling t' w) as Hc.
  { intros t'. unfold calling. cbn. destruct (decide (t' = t)) as [->|E].
    - by rewrite lookup_delete_eq, Ht.
    - by rewrite lookup_delete_ne. }
  split; try done.
  - eapply lin_ok_mono; [| |exact Hlin]; [done|]. unfold all_ops. cbn.
    by rewrite (logging_delete _ _ _ _ Ht), <-app_assoc.
  - intros t'. rewrite Hc. apply Hcal.
  - intros a Ha. eapply late_inv_mono; [by apply Hlt|done|]. intros t1 c1 ? _ _ _. right. by rewrite Hc.
Qed.

Lemma invoke_preserves n w L t cli r :
  lin_inv n w L → w_threads w !! t = None →
  lin_inv n (set_thread t (TCalling (mkCalling r cli (w_now w) false None)) w) L.
Proof.
  intros [Hlin Hv Hcal Hlt] Ht. assert (calling t w = None) as Hn by (unfold calling; by rewrite Ht). split; try done.
  - eapply lin_ok_mono; [| |exact Hlin]; [done|]. unfold all_ops. cbn. by rewrite logging_insert, delete_id.
  - intros t'. rewrite calling_set. case_decide as E; [|apply Hcal]. subst t'. split; [done|]. left. split; [|done].
    specialize (Hcal t). by rewrite Hn in Hcal.
  - intros a Ha. eapply late_inv_mono; [by apply Hlt|done|]. intros t1 c1 Hc1 _ _ _. right.
    rewrite calling_set, decide_False; [done|]. congruence.
Qed.

Lemma tick_preserves n w L d :
  lin_inv n w L → 0 ≤ d → lin_inv n (mkWorld (w_now w + d) (w_srv w) (w_threads w) (w_oplog w) (w_late w)) L.
Proof.
  intros [Hlin Hv Hcal Hlt] Hd. split; try done; cbn.
  - eapply lin_ok_mono; [| |exact Hlin]; [lia|done].
  - intros t. eapply call_inv_mono; [apply Hcal|lia|done|done].
Qed.

Lemma lose_preserves n w L t c under_way :
  lin_inv n w L → calling t w = Some c → informed_event (Lose t under_way) w = true →
  lin_inv n (set_thread t (TCalling (mkCalling (c_req c) (c_cli c) (c_start c) true None))
    (set_late (if under_way then w_late w ++ [c_req c] else w_late w) w)) L.
Proof.
  intros [Hlin Hv Hcal Hlt] Hct Hinf. set (c' := mkCalling _ _ _ true None). set (w' := set_thread t _ _).
  assert (∀ t', calling t' w' = if decide (t' = t) then Some c' else calling t' w) as Hc
    by (intros t'; exact (calling_set t t' (TCalling c') (set_late _ w))).
  split; try done.
  - eapply lin_ok_mono; [| |exact Hlin]; [done|]. unfold w'. rewrite (all_ops_set _ c), app_nil_r by done. done.
  - intros t'. rewrite Hc. case_decide as E; [|apply Hcal]. subst t'. specialize (Hcal t). rewrite Hct in Hcal.
    destruct Hcal as [Hst Hcal]. split; [done|]. destruct Hcal as [[? _]|(s & Hs & [H1 H2 H3 H4])]; [by left|].
    right. exists s. split; [done|]. split; try done. cbn. destruct (c_req c); naive_solver.
  - intros a Ha. assert (RPut a ∈ w_late w ∨ under_way = true ∧ c_req c = RPut a) as [Hin|[-> Hreq]].
    { cbn in Ha. destruct under_way; [|by left]. rewrite elem_of_app, list_elem_of_singleton in Ha. naive_solver. }
    + destruct (Hlt a Hin) as [?|(Heq & t1 & c1 & G1 & G2 & G3 & G4)]; [by left|right]. split; [done|].
      destruct (decide (t1 = t)) as [->|Hne].
      * exists t, c'. rewrite Hc, decide_True by done. cbn. naive_solver.
      * exists t1, c1. by rewrite Hc, decide_False.
    + cbn in Hinf. rewrite Hct in Hinf. destruct c as [cr cc cs ce crep]. cbn in Hreq. subst cr.
      apply bool_decide_eq_true in Hinf. unfold late_inv. cbn [w' w_srv set_thread set_late].
      destruct (decide (put_Version a = kv_version (kvm (w_srv w)) (put_Key a))); [right|left; lia].
      split; [done|]. exists t, c'. by rewrite Hc, decide_True.
Qed.

Lemma lstep_preserves n w L ev w' :
  lin_inv n w L → n + 1 < u64_mod → informed_event ev w = true → lstep ev w = Some w' → ∃ L', lin_inv (n + 1) w' L'.
Proof.
  intros HI Hn Hinf Hst. assert (∀ w L, lin_inv n w L → ∃ L', lin_inv (n + 1) w L') as Hup.
  { intros w0 L0 H0. exists L0. eapply lin_inv_weaken; [|done]. lia. }
  destruct ev as [d|t cli r|t|t u|i|t|t]; cbn [lstep] in Hst.
  - case_decide; [|done]. injection Hst as <-. eapply Hup, tick_preserves; done.
  - destruct (w_threads w !! t) eqn:E; [done|]. injection Hst as <-. eapply Hup, invoke_preserves; done.
  - destruct (calling t w) as [c|] eqn:Ec; [|done]. cbn in Hst. destruct (c_reply c) eqn:Er; [done|].
    destruct (exec_preserves n w L t c HI Hn Ec Er) as [L' HL']. exists L'.
    destruct (srv_handle (w_srv w) (c_req c)) as [kv rep]. injection Hst as <-. exact HL'.
  - destruct (calling t w) as [c|] eqn:Ec; [|done]. injection Hst as <-. eapply Hup, lose_preserves; done.
  - destruct (w_late w !! i) as [r|] eqn:Er; [|done]. injection Hst as <-.
    eapply execLate_preserves; [done..|]. by eapply list_elem_of_lookup_2.
  - destruct (calling t w) as [c|] eqn:Ec; [|done]. cbn in Hst. destruct (c_reply c) as [rep|] eqn:Er; [|done].
    cbn in Hst. destruct (return_preserves n w L t c rep w' HI Ec Er Hst) as [L' HL']. by eapply Hup.
  - destruct (w_threads w !! t) as [[|o]|] eqn:E; try done. injection Hst as <-. eapply Hup, append_preserves; done.
Qed.

Lemma lrun_preserves evs n w L w' :
  lin_inv n w L → n + zlen evs < u64_mod → informed evs w = true → lrun evs w = Some w' →
  ∃ L', lin_inv (n + zlen evs) w' L'.
Proof.
  revert n w L. induction evs as [|ev evs IH]; intros n w L HI Hn Hinf Hrun.
  - injection Hrun as <-. exists L. apply (lin_inv_weaken n); [|done]. change (zlen []) with 0. lia.
  - rewrite zlen_cons in *. pose proof (zlen_nonneg evs). cbn in Hrun, Hinf. apply andb_true_iff in Hinf as [Hi Hinf].
    destruct (lstep ev w) as [w1|] eqn:E; [|done].
    destruct (lstep_preserves n w L ev w1) as [L1 H1]; [done|lia|done|done|].
    replace (n + (zlen evs + 1)) with ((n + 1) + zlen evs) by lia. eapply IH; [done|lia|done|done].
Qed.

Lemma lin_inv_init : lin_inv 0 MakeWorld [].
Proof.
  split; [apply lin_ok_init|done| |set_solver]. intros t. unfold calling. cbn [w_threads MakeWorld].
  rewrite lookup_empty. intros s [Hs _]. set_solver.
Qed.

(** When no thread is left, the order is one of the whole recorded history. *)
Lemma lin_inv_end n w L :
  lin_inv n w L → w_threads w = ∅ → seq_linearizable (OpLog_Read (w_oplog w)).
Proof.
  intros [Hlin Hv Hcal _] Hnil. unfold all_ops in Hlin. rewrite Hnil in Hlin.
  change (logging th_ops ∅) with (@nil Operation) in Hlin. rewrite app_nil_r in Hlin.
  eapply lin_ok_end; [exact Hlin|]. intros t. specialize (Hcal t). unfold calling in Hcal.
  by rewrite Hnil, lookup_empty in Hcal.
Qed.
End invariant.

(** ** The theorems *)

(** C14: the recorded history is linearizable.  However the threads interleave,
    whatever requests and replies the network loses and however late requests
    of failed calls are executed, once every thread has appended what it
    recorded the history splits by key into parts that each have an order which
    is a permutation of the part, is one of a sequential store (gets answered
    with the key's value, version and error, puts with their error or
    [ErrMaybe], refused puts included) and places no operation before one that
    returned before it was called.  The checker's model accepts the history as
    well, once the puts refused with [ErrNoKey] are left out, for which it has
    no transition.  Assumed are fewer events than versions, and that a put whose
    failed call leaves it under way asks for a version the key has reached. *)
Theorem history_linearizable evs w :
  lrun evs MakeWorld = Some w → w_threads w = ∅ → zlen evs < u64_mod → informed evs MakeWorld = true →
  seq_linearizable (OpLog_Read (w_oplog w)) ∧ linearizable (filter not_NoKey_put (OpLog_Read (w_oplog w))).
Proof.
  intros Hrun Hnil Hlen Hinf. destruct (lrun_preserves evs 0 _ _ w lin_inv_init ltac:(lia) Hinf Hrun) as [L HL].
  pose proof (lin_inv_end _ _ _ HL Hnil) as Hseq. split; [done|]. by apply seq_linearizable_checker.
Qed.

(** What the code relies on of Porcupine: it rejects only what has no
    linearization. *)
Definition porcupine_sound (CheckOperations : list Operation → CheckResult) : Prop :=
  ∀ history, CheckOperations history = Illegal → ¬ linearizable history.

(** The check at the end of a test does not fail it, unless a put was refused
    with [ErrNoKey]. *)
Theorem CheckPorcupine_passes CheckOperations t order enabled opens s evs w :
  porcupine_sound CheckOperations →
  lrun evs MakeWorld = Some w → w_threads w = ∅ → zlen evs < u64_mod → informed evs MakeWorld = true →
  Forall not_NoKey_put (OpLog_Read (w_oplog w)) →
  (CheckPorcupine CheckOperations t order enabled opens s (w_oplog w)).1.1 = false.
Proof.
  intros Hsound Hrun Hnil Hlen Hinf Hall. unfold CheckPorcupine, checkPorcupine.
  destruct (CheckOperations _) eqn:E.
  - case_decide; [|done]. destruct opens; [|done]. cbn [negb]. by destruct (FinalizeAnnotations _ _ _ _).
  - exfalso. apply (Hsound _ E).
    destruct (lrun_preserves evs 0 _ _ w lin_inv_init ltac:(lia) Hinf Hrun) as [L HL].
    pose proof (seq_linearizable_checker _ (lin_inv_end _ _ _ HL Hnil)) as Hlin. unfold OpLog_Read in *.
    rewrite filter_keep in Hlin by (by apply Forall_forall). done.
  - case_decide; [|done]. destruct opens; [|done]. cbn [negb]. by destruct (FinalizeAnnotations _ _ _ _).
Qed.

(** Two clients put to one key at once while a third reads it: the first one's
    call fails while its request is under way, so it sends again and is answered
    ErrMaybe; a put is refused with ErrNoKey; the late request is executed after
    all have returned, and once more. *)
Definition sample_events : list Event :=
  [Invoke 1 1 (RPut (kv_args "k" "a" 0)); Tick 2; Lose 1 true; Invoke 2 2 (RPut (kv_args "k" "b" 0)); ExecLate 0;
   Invoke 3 3 (RGet (mkGetArgs "k")); Exec 2; Lose 1 false; Tick 1; Exec 3; Exec 1; Return 2; Lose 3 true; Tick 4;
   Exec 3; Return 1; Append 2; Return 3; Append 3; Tick 1; Append 1;
   Invoke 2 2 (RPut (kv_args "k" "c" 1)); Tick 1; Exec 2; Return 2; Append 2;
   Invoke 2 2 (RPut (kv_args "j" "d" 7)); Exec 2; Return 2; Append 2; ExecLate 0; ExecLate 1].

Definition sample_end : World := default MakeWorld (lrun sample_events MakeWorld).

Lemma history_linearizable_witness :
  seq_linearizable (OpLog_Read (w_oplog sample_end)) ∧
  (λ o, (op_ClientId o, op_Call o, op_Return o, (out_Value (op_Output o), out_Err (op_Output o))))
    <$> OpLog_Read (w_oplog sample_end) =
    [(2, 2, 3, ("", "ErrVersion")); (3, 2, 7, ("a", "OK")); (1, 0, 7, ("", "ErrMaybe")); (2, 8, 9, ("", "OK"));
     (2, 9, 9, ("", "ErrNoKey"))]%string.
Proof.
  split; [|vm_compute; reflexivity].
  refine (proj1 (history_linearizable sample_events sample_end _ _ _ _)); vm_compute; reflexivity.
Defined.

(** A put that asks for a version of a key the server does not have is refused
    with [ErrNoKey], and no order of the history is accepted. *)
Definition NoKey_events : list Event :=
  [Invoke 1 1 (RPut (kv_args "k" "a" 5)); Exec 1; Return 1; Append 1].

Theorem NoKey_put_fails_check w :
  lrun NoKey_events MakeWorld = Some w → ¬ linearizable (OpLog_Read (w_oplog w)).
Proof.
  intros Hrun. vm_compute in Hrun. injection Hrun as <-. intros Hlin.
  destruct (Hlin _ ltac:(vm_compute; by left)) as (lin & Hp & Ha & _).
  apply Permutation_singleton_r in Hp as ->. vm_compute in Ha. done.
Qed.

(** A put asks for version 1 of an absent key.  Its first call fails while the
    request is under way, the second is refused, and the clerk answers ErrMaybe.
    Then another client puts version 0 and reads its value; the request that is
    still under way succeeds; the next read returns its value.  No order that
    respects real time explains this. *)
Definition late_put : list Event :=
  [Invoke 1 1 (RPut (kv_args "k" "a" 1)); Lose 1 true; Exec 1; Return 1; Append 1; Tick 1;
   Invoke 2 2 (RPut (kv_args "k" "b" 0)); Exec 2; Return 2; Append 2; Tick 1; ExecLate 0;
   Invoke 2 2 (RGet (mkGetArgs "k")); Exec 2; Return 2; Append 2].

Definition late_end : World := default MakeWorld (lrun late_put MakeWorld).

Theorem late_put_breaks_check :
  lrun late_put MakeWorld = Some late_end ∧ w_threads late_end = ∅ ∧ ¬ linearizable (OpLog_Read (w_oplog late_end)).
Proof.
  split_and!; [vm_compute; reflexivity..|]. intros Hlin.
  destruct (Hlin (OpLog_Read (w_oplog late_end))) as (lin & Hp & Ha & Hs).
  { vm_compute. by left. }
  apply (Permutation_sym) in Hp. apply (proj2 (permutations_Permutation _ _)) in Hp.
  assert (forallb (λ lin, negb (accepts Init lin) ||
      match lin with a :: b :: _ => bool_decide (op_Return b < op_Call a) | _ => false end)
    (permutations (OpLog_Read (w_oplog late_end))) = true) as Hall by (vm_compute; reflexivity).
  rewrite forallb_forall in Hall. apply list_elem_of_In, Hall in Hp. rewrite Ha in Hp. cbn [negb orb] in Hp.
  destruct lin as [|a [|b lin]]; try discriminate Hp. apply bool_decide_eq_true in Hp.
  inversion Hs as [|? ? _ Hf]. by apply Forall_cons in Hf as [Hf _].
Qed.
