(* ===== verification/ClerkLin.v ===== *)
(** * ClerkLin: clients whose requests are executed late, and the service they need

    The wrappers of [src/src/kvtest/porcupine.go] around the clerks of the two
    replicated services ([src/src/kvraft/client.go], [src/src/shardkv/client.go])
    as threads, on any service that keeps the promises of [ServiceLaws].  A
    request that reaches a leader is proposed and is executed at any later time,
    or never; the [Call] may fail meanwhile, the clerk tries elsewhere, and
    requests of failed calls are still executed long after, even after the
    clerk has returned.

    What the service promises: it executes a put at most once, and answers a
    repetition with the result of the execution as long as the client has not
    begun another put.  The replicas of the service are not modelled here: it
    executes committed requests one after the other, and [Submit] gives each
    call the result of its own operation.  The second is an assumption about the
    execution ([own_result]), because [Submit] recognises its operation by an id
    that is not unique (rsm.go:264); [Confuse] is the event in which it takes
    another one's result.

    [clients_linearizable]: without such an event what the clients record is
    linearizable and no modelled step panics.  [KvRaftLin] and [ShardLin] are
    the two services; [KvRaftLin] shows what such an event does. *)

From S2P Require Import Prelude RpcApi KvModel KvSpec Linear.

Abbreviation cidOf a := (ClientId (put_info a)).
Abbreviation ridOf a := (RequestId (put_info a)).

#[global] Instance Ret_inj A : Inj eq eq (Ret (A := A)).
Proof. by intros ? ? [= ->]. Qed.

(** ** The interface *)

(** A service: executing a request at a place (a group of servers), what the
    clerk makes of the result ([None]: it calls again), and steps of its own. *)
Class Service (St Rep Ck BEv : Type) := {
  sv_init : St;
  sv_exec : Z → Request → St → outcome (St * Rep);
  sv_answer : Request → Rep → outcome (option KvOutput);
  sv_back : BEv → St → option (outcome St);
  ck_make : Z → Ck;
  ck_args : Ck → string → string → Tversion → Ck * PutArgs;
}.

Abbreviation cells := (string → cell).
(** The puts executed so far, by client and request, with their results. *)
Abbreviation puts := (gmap (Z * Z) (PutArgs * Err)).

Definition cells_put (a : PutArgs) (V : cells) : cells :=
  λ k, if decide (k = put_Key a) then (cell_put a (V k)).1 else V k.

(** How the execution of a put may go: it is not for this place; it is a
    repetition of a put of its client, or older; it is executed. *)
Inductive put_case (inv : cells → puts → Prop) (V : cells) (X : puts) (a : PutArgs) (ans : option KvOutput) : Prop :=
| put_elsewhere : ans = None → inv V X → put_case inv V X a ans
| put_repeated rid a' e : ridOf a ≤ rid → X !! (cidOf a, rid) = Some (a', e) →
    ans = Some (put_output e) → inv V X → put_case inv V X a ans
| put_executed : X !! (cidOf a, ridOf a) = None →
    ans = Some (put_output (cell_put a (V (put_Key a))).2) →
    inv (cells_put a V) (<[(cidOf a, ridOf a) := (a, (cell_put a (V (put_Key a))).2)]> X) →
    put_case inv V X a ans.

Class ServiceLaws (St Rep Ck BEv : Type) `{!Service St Rep Ck BEv} := {
  sv_inv : St → cells → puts → Prop;
  sv_inv_init : sv_inv sv_init (λ _, None) ∅;
  sv_get s V X g a : sv_inv s V X →
    ∃ s' rep ans, sv_exec g (RGet a) s = Ret (s', rep) ∧ sv_inv s' V X ∧ sv_answer (RGet a) rep = Ret ans ∧
      (ans = None ∨ ans = Some (get_output (cell_get (V (get_Key a)))));
  sv_put s V X g a : sv_inv s V X →
    (∀ a' e, X !! (cidOf a, ridOf a) = Some (a', e) → a' = a) →
    ∃ s' rep ans, sv_exec g (RPut a) s = Ret (s', rep) ∧ sv_answer (RPut a) rep = Ret ans ∧
      put_case (sv_inv s') V X a ans;
  sv_back_inv s V X b o : sv_inv s V X → sv_back b s = Some o → ∃ s', o = Ret s' ∧ sv_inv s' V X;
  ck_id : Ck → Z;
  ck_rid : Ck → Z;
  ck_make_ok cid : ck_id (ck_make cid) = cid ∧ ck_rid (ck_make cid) = 0;
  ck_args_ok ck k v ver :
    ck_id (ck_args ck k v ver).1 = ck_id ck ∧ ck_rid (ck_args ck k v ver).1 = u64_add (ck_rid ck) 1 ∧
    (ck_args ck k v ver).2 = mkPutArgs (mkRequestInfo (ck_id ck) (u64_add (ck_rid ck) 1)) k v ver;
}.

Lemma kv_put_cells m V a :
  V (put_Key a) = m !! put_Key a →
  (kv_put m (put_Key a) (put_Value a) (put_Version a)).1 !! put_Key a = cells_put a V (put_Key a).
Proof. intros HV. rewrite kv_put_lookup. unfold cells_put. by rewrite HV, decide_True. Qed.

Lemma cells_put_other V a k : k ≠ put_Key a → cells_put a V k = V k.
Proof. intros Hne. unfold cells_put. by rewrite decide_False. Qed.

(** ** Clerks, threads and the service *)

Section clients.
Context {St Rep Ck BEv : Type} `{!Service St Rep Ck BEv}.

(** The clerk's loop: the request it sends, the number of the current [Call],
    whether a leader has proposed the request in this [Call], and what its
    execution gave. *)
Record Calling := mkCalling {
  c_req : Request; c_cli : Z; c_start : Z; c_attempt : Z; c_sent : bool; c_reply : option Rep }.

(** A thread inside the wrappers: waiting for the clerk's [putMutex], in the
    clerk's loop, or about to append. *)
Inductive Thread :=
| TLocking (cid cli start : Z) (key value : string) (version : Tversion)
| TCalling (c : Calling)
| TLogging (o : Operation).

(** A request that a leader of group [p_place] has put into its log. *)
Record Proposal := mkProposal { p_thread : Z; p_attempt : Z; p_place : Z; p_req : Request }.

(** A clerk, and whether its [putMutex] is held. *)
Record TClerk := mkTClerk { tc_clerk : Ck; tc_locked : bool }.

Record World := mkWorld {
  w_now : Z;
  w_srv : St;                     (* after the executed requests *)
  w_proposed : list Proposal;     (* not executed yet *)
  w_clerks : gmap Z TClerk;       (* by client id *)
  w_next : Z;                     (* calls made so far *)
  w_threads : gmap Z Thread;
  w_oplog : OpLog }.

Definition MakeWorld : World := mkWorld 0 sv_init [] ∅ 0 ∅ (mkOpLog []).

Definition set_thread (t : Z) (th : Thread) (w : World) : World :=
  mkWorld (w_now w) (w_srv w) (w_proposed w) (w_clerks w) (w_next w) (<[t := th]> (w_threads w)) (w_oplog w).
Definition set_clerk (cid : Z) (ck : TClerk) (w : World) : World :=
  mkWorld (w_now w) (w_srv w) (w_proposed w) (<[cid := ck]> (w_clerks w)) (w_next w) (w_threads w) (w_oplog w).
Definition set_proposed (ps : list Proposal) (w : World) : World :=
  mkWorld (w_now w) (w_srv w) ps (w_clerks w) (w_next w) (w_threads w) (w_oplog w).
Definition set_srv (s : St) (w : World) : World :=
  mkWorld (w_now w) s (w_proposed w) (w_clerks w) (w_next w) (w_threads w) (w_oplog w).
Definition set_next (w : World) : World :=
  mkWorld (w_now w) (w_srv w) (w_proposed w) (w_clerks w) (w_next w + 1) (w_threads w) (w_oplog w).

Definition calling (t : Z) (w : World) : option Calling :=
  match w_threads w !! t with Some (TCalling c) => Some c | _ => None end.

(** A thread makes the next [Call] of its loop. *)
Definition nextCall (t : Z) (r : Request) (cli start : Z) (w : World) : World :=
  set_next (set_thread t (TCalling (mkCalling r cli start (w_next w) false None)) w).

(** The operation the wrapper appends. *)
Definition recorded (c : Calling) (out : KvOutput) (end_ : Z) : Operation :=
  mkOperation (c_cli c) (req_input (c_req c)) (c_start c) out end_.

(** [defer ck.putMutex.Unlock()] of [Put]. *)
Definition unlock (r : Request) (w : World) : World :=
  match r with
  | RGet _ => w
  | RPut a =>
      match w_clerks w !! cidOf a with
      | Some ck => set_clerk (cidOf a) (mkTClerk (tc_clerk ck) false) w
      | None => w
      end
  end.

(** The result of an executed request goes to the [Call] that waits for it. *)
Definition deliver (p : Proposal) (rep : Rep) (w : World) : World :=
  match calling (p_thread p) w with
  | Some c =>
      if decide (c_attempt c = p_attempt p) then
        set_thread (p_thread p) (TCalling (mkCalling (c_req c) (c_cli c) (c_start c) (c_attempt c) (c_sent c) (Some rep))) w
      else w
  | None => w
  end.

(** Time passes; a clerk is made; a thread begins a get or a put; it gets the
    clerk's mutex; its request is proposed in a group; the [i]th proposed
    request is committed and executed; the same, and [Submit] of a call of
    another thread takes the result for its own (rsm.go:264 compares operation
    ids, which servers count separately); a [Call] fails or is told of a wrong
    leader; it returns; a thread appends what it recorded; the service takes a
    step of its own. *)
Inductive Event :=
| Tick (d : Z)
| NewClerk (cid : Z)
| InvokeGet (t cli : Z) (key : string)
| InvokePut (t cli cid : Z) (key value : string) (version : Tversion)
| Lock (t : Z)
| Propose (t g : Z)
| Commit (i : nat)
| Confuse (i : nat) (t : Z)
| CallFails (t : Z)
| Return (t : Z)
| Append (t : Z)
| Back (b : BEv).

(** [None]: the event cannot happen now; a panic is one of a server or of a
    clerk. *)
Definition kstep (ev : Event) (w : World) : option (outcome World) :=
  match ev with
  | Tick d =>
      if decide (0 ≤ d) then
        Some (Ret (mkWorld (w_now w + d) (w_srv w) (w_proposed w) (w_clerks w) (w_next w) (w_threads w) (w_oplog w)))
      else None
  | NewClerk cid =>
      match w_clerks w !! cid with
      | None => Some (Ret (set_clerk cid (mkTClerk (ck_make cid) false) w))
      | Some _ => None
      end
  | InvokeGet t cli key =>
      match w_threads w !! t with
      | None => Some (Ret (nextCall t (RGet (mkGetArgs key)) cli (w_now w) w))
      | Some _ => None
      end
  | InvokePut t cli cid key value version =>
      match w_threads w !! t, w_clerks w !! cid with
      | None, Some _ => Some (Ret (set_thread t (TLocking cid cli (w_now w) key value version) w))
      | _, _ => None
      end
  | Lock t =>
      match w_threads w !! t with
      | Some (TLocking cid cli start key value version) =>
          ck ← w_clerks w !! cid;
          if tc_locked ck then None
          else let '(ck, args) := ck_args (tc_clerk ck) key value version in
               Some (Ret (nextCall t (RPut args) cli start (set_clerk cid (mkTClerk ck true) w)))
      | _ => None
      end
  | Propose t g =>
      c ← calling t w;
      if c_sent c then None
      else Some (Ret (set_proposed (w_proposed w ++ [mkProposal t (c_attempt c) g (c_req c)])
                  (set_thread t (TCalling (mkCalling (c_req c) (c_cli c) (c_start c) (c_attempt c) true (c_reply c))) w)))
  | Commit i =>
      p ← w_proposed w !! i;
      Some ('(s, rep) ← sv_exec (p_place p) (p_req p) (w_srv w);
            Ret (deliver p rep (set_srv s (set_proposed (delete i (w_proposed w)) w))))
  | Confuse i t =>
      p ← w_proposed w !! i;
      c ← calling t w;
      guard (c_sent c = true ∧ t ≠ p_thread p);;
      Some ('(s, rep) ← sv_exec (p_place p) (p_req p) (w_srv w);
            Ret (set_thread t (TCalling (mkCalling (c_req c) (c_cli c) (c_start c) (c_attempt c) true (Some rep)))
                   (deliver p rep (set_srv s (set_proposed (delete i (w_proposed w)) w)))))
  | CallFails t =>
      c ← calling t w; Some (Ret (nextCall t (c_req c) (c_cli c) (c_start c) w))
  | Return t =>
      c ← calling t w;
      rep ← c_reply c;
      Some (ans ← sv_answer (c_req c) rep;
            Ret (match ans with
                 | Some out => unlock (c_req c) (set_thread t (TLogging (recorded c out (w_now w))) w)
                 | None => nextCall t (c_req c) (c_cli c) (c_start c) w
                 end))
  | Append t =>
      match w_threads w !! t with
      | Some (TLogging o) =>
          Some (Ret (mkWorld (w_now w) (w_srv w) (w_proposed w) (w_clerks w) (w_next w) (delete t (w_threads w))
                  (OpLog_Append o (w_oplog w))))
      | _ => None
      end
  | Back b =>
      match sv_back b (w_srv w) with
      | Some o => Some (s ← o; Ret (set_srv s w))
      | None => None
      end
  end.

Fixpoint krun (evs : list Event) (w : World) : option (outcome World) :=
  match evs with
  | [] => Some (Ret w)
  | ev :: evs =>
      match kstep ev w with
      | Some (Ret w) => krun evs w
      | o => o
      end
  end.

(** What the clients rely on of [Submit]: no call is given the result of
    another one's operation. *)
Definition own_result (ev : Event) : Prop := match ev with Confuse _ _ => False | _ => True end.

(** ** What is recorded is what a clerk answered *)

Definition answered (o : Operation) : Prop :=
  ∃ r rep, op_Input o = req_input r ∧ sv_answer r rep = Ret (Some (op_Output o)).

Definition recording (w : World) (o : Operation) : Prop :=
  o ∈ operations (w_oplog w) ∨ ∃ t, w_threads w !! t = Some (TLogging o).

Lemma recording_move t th w w' o :
  w_oplog w' = w_oplog w → w_threads w' = <[t := th]> (w_threads w) → recording w' o →
  recording w o ∨ th = TLogging o.
Proof.
  intros El Et [?|(t' & Ht)]; [left; left; by rewrite <-El|]. rewrite Et in Ht.
  apply lookup_insert_Some in Ht as [[_ ?]|[_ ?]]; [by right|]. left. right. by exists t'.
Qed.

Lemma recording_calls t c w w' o :
  w_oplog w' = w_oplog w → w_threads w' = <[t := TCalling c]> (w_threads w) → recording w' o → recording w o.
Proof. intros El Et Ho. by destruct (recording_move _ _ _ _ _ El Et Ho). Qed.

Lemma recording_deliver p rep w o : recording (deliver p rep w) o → recording w o.
Proof.
  unfold deliver. destruct (calling (p_thread p) w); [|done]. case_decide; [|done]. by eapply recording_calls.
Qed.

Lemma kstep_recording ev w w' o :
  kstep ev w = Some (Ret w') → recording w' o → recording w o ∨ answered o.
Proof.
  intros Hst Ho. destruct ev as [d|cid|t cli key|t cli cid key value version|t|t g|i|i t|t|t|t|b]; cbn [kstep] in Hst.
  - case_decide; [|done]. injection Hst as <-. by left.
  - destruct (w_clerks w !! cid); [done|]. injection Hst as <-. by left.
  - destruct (w_threads w !! t); [done|]. injection Hst as <-. left. eapply recording_calls; [..|exact Ho]; done.
  - destruct (w_threads w !! t); [done|]. destruct (w_clerks w !! cid); [|done]. injection Hst as <-. left.
    by destruct (recording_move t (TLocking cid cli (w_now w) key value version) w (set_thread _ _ w) o eq_refl eq_refl Ho).
  - destruct (w_threads w !! t) as [[]|]; try done. apply bind_Some in Hst as (ck & _ & Hst).
    destruct (tc_locked ck); [done|]. destruct (ck_args _ _ _ _) as [ck' a]. injection Hst as <-. left.
    eapply recording_calls; [..|exact Ho]; done.
  - apply bind_Some in Hst as (c & _ & Hst). destruct (c_sent c); [done|]. injection Hst as <-. left. eapply recording_calls; [..|exact Ho]; done.
  - apply bind_Some in Hst as (p & _ & [= Hst]). apply bind_ret_inv in Hst as ([s rep] & _ & [= <-]).
    left. by apply recording_deliver in Ho.
  - apply bind_Some in Hst as (p & _ & Hst). apply bind_Some in Hst as (c & _ & Hst).
    apply bind_Some in Hst as (_ & _ & [= Hst]). apply bind_ret_inv in Hst as ([s rep] & _ & [= <-]).
    left. eapply (recording_deliver p rep (set_srv s (set_proposed (delete i (w_proposed w)) w))).
    eapply recording_calls; [..|exact Ho]; done.
  - apply bind_Some in Hst as (c & _ & [= <-]). left. eapply recording_calls; [..|exact Ho]; done.
  - apply bind_Some in Hst as (c & _ & Hst). apply bind_Some in Hst as (rep & _ & [= Hst]).
    apply bind_ret_inv in Hst as (ans & Hans & [= <-]). destruct ans as [out|]; [|left; eapply recording_calls; [..|exact Ho]; done].
    assert (recording (set_thread t (TLogging (recorded c out (w_now w))) w) o) as Ho'.
    { revert Ho. unfold unlock. destruct (c_req c); [done|]. by case_match. }
    destruct (recording_move t (TLogging (recorded c out (w_now w))) w (set_thread _ _ w) o eq_refl eq_refl Ho') as [?|[= <-]]; [by left|right].
    by exists (c_req c), rep.
  - destruct (w_threads w !! t) as [[| |o']|] eqn:Et; try done. injection Hst as <-. left.
    destruct Ho as [Ho|(t' & Ht')]; cbn in *.
    + apply elem_of_app in Ho as [?| ->%list_elem_of_singleton]; [by left|]. right. by exists t.
    + right. exists t'. by apply lookup_delete_Some in Ht' as [_ ?].
  - destruct (sv_back b (w_srv w)) as [o'|]; [|done]. injection Hst as Hst.
    apply bind_ret_inv in Hst as (s & _ & [= <-]). by left.
Qed.

Lemma krun_answered evs w w' :
  krun evs w = Some (Ret w') → (∀ o, recording w o → answered o) → ∀ o, recording w' o → answered o.
Proof.
  revert w. induction evs as [|ev evs IH]; intros w Hrun Hw; cbn in Hrun; [by injection Hrun as <-|].
  destruct (kstep ev w) as [[w1|]|] eqn:E; try done. apply (IH w1); [done|]. intros o Ho.
  destruct (kstep_recording _ _ _ _ E Ho); [by apply Hw|done].
Qed.

(** No more operations are recorded than events happen. *)
Lemma krun_oplog evs w w' :
  krun evs w = Some (Ret w') → zlen (operations (w_oplog w')) ≤ zlen (operations (w_oplog w)) + zlen evs.
Proof.
  revert w. induction evs as [|ev evs IH]; intros w Hrun; cbn in Hrun.
  { injection Hrun as <-. change (zlen []) with 0. lia. }
  destruct (kstep ev w) as [[w1|]|] eqn:E; try done. specialize (IH w1 Hrun). rewrite zlen_cons.
  enough (zlen (operations (w_oplog w1)) ≤ zlen (operations (w_oplog w)) + 1) by lia.
  assert (w_oplog w1 = w_oplog w ∨ ∃ o, w_oplog w1 = OpLog_Append o (w_oplog w)) as [->|(o & ->)];
    [|lia|unfold OpLog_Append; cbn; rewrite zlen_app; unfold zlen; cbn; lia].
  assert (∀ p rep w0, w_oplog (deliver p rep w0) = w_oplog w0) as Hdel.
  { intros p rep w0. unfold deliver. destruct (calling _ _); [|done]. by case_decide. }
  clear IH Hrun. destruct ev; cbn [kstep] in E; repeat case_match; simplify_eq; try (by left); try (right; by eexists);
    repeat (apply bind_Some in E as (? & ? & E)); repeat case_match; simplify_eq; try (by left).
  all: left; apply bind_ret_inv in E as (? & ? & E); repeat case_match; simplify_eq; cbn [set_thread w_oplog]; rewrite ?Hdel; try done.
  unfold unlock. by repeat case_match.
Qed.

(** ** The invariant *)

Context `{!ServiceLaws St Rep Ck BEv}.
Implicit Types (t n now next cid : Z) (L : list Slot) (s : Slot) (c : Calling) (a : PutArgs) (w : World)
  (V : cells) (X : puts) (clerks : gmap Z TClerk) (th : Thread).

(** The put has been executed. *)
Definition settled X a : Prop := ∃ e, X !! (cidOf a, ridOf a) = Some (a, e).

Definition slot_for c s : Prop :=
  op_Input (s_op s) = req_input (c_req c) ∧ op_Call (s_op s) = c_start c.

(** A get has a slot while it holds an answer. *)
Definition get_inv L t c : Prop :=
  match c_reply c with
  | None => ∀ s, ¬ slot_of L t s
  | Some rep => ∃ ans, sv_answer (c_req c) rep = Ret ans ∧
      match ans with
      | None => ∀ s, ¬ slot_of L t s
      | Some out => ∃ s, slot_of L t s ∧ slot_for c s ∧ s_wrote s = false ∧ op_Output (s_op s) = out
      end
  end.

(** A put has a slot once it is executed. *)
Definition put_inv clerks X L t c a : Prop :=
  (∃ ck, clerks !! cidOf a = Some (mkTClerk ck true) ∧ ck_rid ck = ridOf a) ∧
  (∀ rep, c_reply c = Some rep → ∃ ans, sv_answer (c_req c) rep = Ret ans ∧
     (ans = None ∨ ∃ e, X !! (cidOf a, ridOf a) = Some (a, e) ∧ ans = Some (put_output e))) ∧
  match X !! (cidOf a, ridOf a) with
  | None => ∀ s, ¬ slot_of L t s
  | Some (a', e) => a' = a ∧ ∃ s, slot_of L t s ∧ slot_for c s ∧
      op_Output (s_op s) = put_output e
  end.

Definition thread_inv clerks X now next L t (oth : option Thread) : Prop :=
  match oth with
  | None | Some (TLogging _) => ∀ s, ¬ slot_of L t s
  | Some (TLocking _ _ start _ _ _) => start ≤ now ∧ ∀ s, ¬ slot_of L t s
  | Some (TCalling c) =>
      c_start c ≤ now ∧ c_attempt c < next ∧
      match c_req c with RGet _ => get_inv L t c | RPut a => put_inv clerks X L t c a end
  end.

Definition clerk_inv n X cid (otc : option TClerk) : Prop :=
  match otc with
  | None => ∀ rid, X !! (cid, rid) = None
  | Some tc =>
      ck_id (tc_clerk tc) = cid ∧ 0 ≤ ck_rid (tc_clerk tc) ≤ n ∧
      ∀ rid, is_Some (X !! (cid, rid)) → rid ≤ ck_rid (tc_clerk tc)
  end.

(** Thread [t] is in a put of client [cid]. *)
Definition putting w t cid : Prop := ∃ c a, calling t w = Some c ∧ c_req c = RPut a ∧ cidOf a = cid.

Record proposal_inv X w (p : Proposal) : Prop := {
  pi_attempt : p_attempt p < w_next w;
  pi_req c : calling (p_thread p) w = Some c → c_attempt c = p_attempt p → c_req c = p_req p;
  pi_put a : p_req p = RPut a → settled X a ∨ ∃ t c, calling t w = Some c ∧ c_req c = RPut a }.

Definition th_ops th : list Operation := match th with TLogging o => [o] | _ => [] end.

Definition all_ops w : list Operation := operations (w_oplog w) ++ logging th_ops (w_threads w).

Record kinv n w V X L : Prop := {
  ki_srv : sv_inv (w_srv w) V X;
  ki_lin : lin_ok V (w_now w) (all_ops w) L;
  ki_thread t : thread_inv (w_clerks w) X (w_now w) (w_next w) L t (w_threads w !! t);
  ki_clerk cid : clerk_inv n X cid (w_clerks w !! cid);
  ki_mutex t1 t2 cid : putting w t1 cid → putting w t2 cid → t1 = t2;
  ki_proposed p : p ∈ w_proposed w → proposal_inv X w p }.

Lemma thread_inv_mono clerks clerks' X X' now now' next next' L L' t oth :
  thread_inv clerks X now next L t oth → now ≤ now' → next ≤ next' →
  (∀ s, slot_of L' t s ↔ slot_of L t s) →
  (∀ c a, oth = Some (TCalling c) → c_req c = RPut a →
     clerks' !! cidOf a = clerks !! cidOf a ∧ X' !! (cidOf a, ridOf a) = X !! (cidOf a, ridOf a)) →
  thread_inv clerks' X' now' next' L' t oth.
Proof.
  intros HI Hn Hx HL Hput. destruct oth as [[? ? start ? ? ?|c|o]|]; cbn in *.
  - destruct HI as [? Hs]. split; [lia|]. intros s. by rewrite HL.
  - destruct HI as (Hst & Hat & HI). split; [lia|]. split; [lia|].
    destruct (c_req c) as [g|a] eqn:Er.
    + unfold get_inv in *. destruct (c_reply c) as [rep|]; [|intros s; by rewrite HL].
      destruct HI as (ans & Ha & HI). exists ans. split; [done|].
      destruct ans as [out|]; [|intros s; by rewrite HL].
      destruct HI as (s & Hs & HI). exists s. by rewrite HL.
    + destruct (Hput c a eq_refl Er) as [Hck HX]. destruct HI as ((ck & Hk & Hid) & Hrep & HI).
      split; [exists ck; by rewrite Hck|]. rewrite HX. split; [done|].
      destruct (X !! (cidOf a, ridOf a)) as [[a' e]|]; [|intros s; by rewrite HL].
      destruct HI as (Ha & s & Hs & HI). split; [done|]. exists s. by rewrite HL.
  - intros s. by rewrite HL.
  - intros s. by rewrite HL.
Qed.

Lemma clerk_inv_weaken n n' X cid otc : n ≤ n' → clerk_inv n X cid otc → clerk_inv n' X cid otc.
Proof. destruct otc as [tc|]; cbn; [|done]. intros ? (? & ? & ?). split_and!; try done; lia. Qed.

Lemma calling_lookup t w c : calling t w = Some c ↔ w_threads w !! t = Some (TCalling c).
Proof. unfold calling. destruct (w_threads w !! t) as [[]|]; naive_solver. Qed.

Lemma calling_insert t t' th w w' :
  w_threads w' = <[t := th]> (w_threads w) →
  calling t' w' = if decide (t' = t) then match th with TCalling c => Some c | _ => None end else calling t' w.
Proof.
  unfold calling. intros ->. case_decide as E.
  - subst. by rewrite lookup_insert_eq.
  - by rewrite lookup_insert_ne.
Qed.

(** One thread moves; the service stays.  [L'] keeps the slots of the others. *)
Lemma kinv_move n n' w w' V X L L' t th :
  kinv n w V X L →
  w_srv w' = w_srv w → w_now w' = w_now w → w_next w ≤ w_next w' →
  w_threads w' = <[t := th]> (w_threads w) →
  lin_ok V (w_now w) (all_ops w') L' →
  (∀ t' x, t' ≠ t → slot_of L' t' x ↔ slot_of L t' x) →
  thread_inv (w_clerks w') X (w_now w) (w_next w') L' t (Some th) →
  (∀ cid, clerk_inv n' X cid (w_clerks w' !! cid)) →
  (∀ t' cid, t' ≠ t → putting w t' cid → w_clerks w' !! cid = w_clerks w !! cid) →
  (∀ t' cid, t' ≠ t → putting w' t cid → ¬ putting w t' cid) →
  (∀ p, p ∈ w_proposed w' → proposal_inv X w' p) →
  kinv n' w' V X L'.
Proof.
  intros [Hsv Hlin Hth Hck Hmu Hpr] Ekv Enow Hnext Ethr Hlin' Hsl Hown Hck' Hoth Hmut Hpr'.
  assert (∀ t' cid, t' ≠ t → putting w' t' cid → putting w t' cid) as Hput.
  { intros t' cid Hne (c & a & Hc & H). exists c, a. split; [|done]. by rewrite (calling_insert _ _ _ _ _ Ethr), decide_False in Hc. }
  split; [by rewrite Ekv|by rewrite Enow| |done| |done].
  - intros t'. rewrite Ethr, Enow. destruct (decide (t' = t)) as [->|Hne].
    + by rewrite lookup_insert_eq.
    + rewrite lookup_insert_ne by done.
      eapply thread_inv_mono; [apply Hth|done|done|intros x; by apply Hsl|].
      intros c a Hc Hr. split; [|done]. apply (Hoth t'); [done|]. exists c, a. split; [by apply calling_lookup|done].
  - intros t1 t2 cid H1 H2. destruct (decide (t1 = t)) as [->|N1], (decide (t2 = t)) as [->|N2]; [done|..].
    + exfalso. eapply (Hmut t2); [done|exact H1|by apply Hput].
    + exfalso. eapply (Hmut t1); [done|exact H2|by apply Hput].
    + eapply Hmu; by apply Hput.
Qed.

Lemma proposal_move X w w' t th p :
  proposal_inv X w p → w_next w ≤ w_next w' → w_threads w' = <[t := th]> (w_threads w) →
  (∀ c', th = TCalling c' → p_thread p = t → c_attempt c' = p_attempt p → c_req c' = p_req p) →
  (∀ c a, calling t w = Some c → c_req c = RPut a → settled X a ∨ ∃ c', th = TCalling c' ∧ c_req c' = RPut a) →
  proposal_inv X w' p.
Proof.
  intros [Hat Hreq Hput] Hnext Ethr Hown Hset. split; [lia|..].
  - intros c. rewrite (calling_insert _ _ _ _ _ Ethr). case_decide as E; [|by apply Hreq].
    destruct th; try done. intros [= ->]. by apply Hown.
  - intros a Ha. destruct (Hput a Ha) as [?|(t' & c & Hc & Hr)]; [by left|].
    destruct (decide (t' = t)) as [->|Hne].
    + destruct (Hset c a Hc Hr) as [?|(c' & -> & Hr')]; [by left|]. right. exists t, c'. split; [|done].
      rewrite (calling_insert _ _ _ _ _ Ethr). by rewrite decide_True.
    + right. exists t', c. split; [|done]. rewrite (calling_insert _ _ _ _ _ Ethr). by rewrite decide_False.
Qed.

(** What is recorded while a thread that records nothing yet moves on. *)
Lemma all_ops_move t th w w' :
  w_threads w' = <[t := th]> (w_threads w) → w_oplog w' = w_oplog w →
  (∀ o, w_threads w !! t ≠ Some (TLogging o)) →
  all_ops w' ≡ₚ all_ops w ++ th_ops th.
Proof.
  intros Ethr Elog Hno. unfold all_ops. rewrite Ethr, Elog, logging_insert, <-app_assoc.
  rewrite (Permutation_app_comm (th_ops th)). f_equiv. f_equiv.
  destruct (w_threads w !! t) as [th'|] eqn:E; [|by rewrite delete_id].
  rewrite (logging_delete _ _ _ _ E). destruct th'; try done. exfalso. by eapply Hno.
Qed.

(** A thread begins or repeats a [Call]: the attempt is new. *)
Lemma kinv_nextCall n w w0 V X L L' t r cli start :
  kinv n w V X L → start ≤ w_now w →
  w_srv w0 = w_srv w → w_now w0 = w_now w → w_next w0 = w_next w → w_threads w0 = w_threads w →
  w_oplog w0 = w_oplog w → w_proposed w0 = w_proposed w →
  (∀ o, w_threads w !! t ≠ Some (TLogging o)) →
  lin_ok V (w_now w) (all_ops w) L' →
  (∀ t' x, t' ≠ t → slot_of L' t' x ↔ slot_of L t' x) →
  (∀ c, c_req c = r → c_start c = start → c_reply c = None →
     match r with RGet _ => get_inv L' t c | RPut a => put_inv (w_clerks w0) X L' t c a end) →
  (∀ cid, clerk_inv (n + 1) X cid (w_clerks w0 !! cid)) →
  (∀ t' cid, t' ≠ t → putting w t' cid → w_clerks w0 !! cid = w_clerks w !! cid) →
  (∀ a t', r = RPut a → t' ≠ t → ¬ putting w t' (cidOf a)) →
  (∀ c a, calling t w = Some c → c_req c = RPut a → r = RPut a) →
  kinv (n + 1) (nextCall t r cli start w0) V X L'.
Proof.
  intros HI Hst Ekv Enow Enext Ethr Elog Eprop Hno Hlin Hsl Hinv Hck Hoth Hmut Hsame.
  set (c' := mkCalling r cli start (w_next w0) false None).
  assert (w_threads (nextCall t r cli start w0) = <[t := TCalling c']> (w_threads w)) as Et by (cbn; by rewrite Ethr).
  eapply (kinv_move n (n + 1) w (nextCall t r cli start w0) V X L L' t (TCalling c'));
    [done|done|done|cbn; lia|done| |done| |done|done| |].
  - eapply lin_ok_mono; [| |exact Hlin]; [done|].
    rewrite (all_ops_move _ _ _ _ Et) by done. by rewrite app_nil_r.
  - split; [done|]. split; [cbn; lia|]. by apply (Hinv c').
  - intros t' cid Hne (c & a & Hc & Hr & <-). rewrite (calling_insert _ _ _ _ _ Et), decide_True in Hc by done.
    injection Hc as <-. by apply Hmut.
  - intros p Hp. cbn in Hp. rewrite Eprop in Hp. pose proof (ki_proposed _ _ _ _ _ HI p Hp) as Hpi.
    eapply (proposal_move X w); [done|cbn; lia|exact Et|..].
    + intros c [= <-] _ Ha. cbn in Ha. pose proof (pi_attempt _ _ _ Hpi). lia.
    + intros c a Hc Hr. right. exists c'. split; [done|]. cbn. by eapply Hsame.
Qed.

Lemma invokeGet_preserves n w V X L t cli key :
  kinv n w V X L → w_threads w !! t = None →
  kinv (n + 1) (nextCall t (RGet (mkGetArgs key)) cli (w_now w) w) V X L.
Proof.
  intros HI Ht. eapply (kinv_nextCall n w w); try done; [by rewrite Ht|apply HI|..].
  - intros c Hr Hs Hrep. unfold get_inv. rewrite Hrep. pose proof (ki_thread _ _ _ _ _ HI t) as H. by rewrite Ht in H.
  - intros cid. eapply clerk_inv_weaken; [|apply HI]. lia.
  - intros c a Hc. apply calling_lookup in Hc. congruence.
Qed.

Lemma invokePut_preserves n w V X L t cid cli key value version :
  kinv n w V X L → w_threads w !! t = None →
  kinv (n + 1) (set_thread t (TLocking cid cli (w_now w) key value version) w) V X L.
Proof.
  intros HI Ht. eapply (kinv_move n); try done; [| |..].
  - eapply lin_ok_mono; [| |apply HI]; [done|].
    rewrite (all_ops_move t _ w (set_thread t _ w) eq_refl eq_refl) by (by rewrite Ht). by rewrite app_nil_r.
  - cbn. split; [done|]. pose proof (ki_thread _ _ _ _ _ HI t) as H. by rewrite Ht in H.
  - intros cid'. eapply clerk_inv_weaken; [|apply HI]. lia.
  - intros t' cid' Hne (c & a & Hc & _). by rewrite (calling_insert t _ (TLocking cid cli (w_now w) key value version) w), decide_True in Hc.
  - intros p Hp. eapply (proposal_move X w); [by apply HI|done|done|done|].
    intros c a Hc. apply calling_lookup in Hc. congruence.
Qed.

Lemma lock_preserves n w V X L t cid cli start key value version tc ck args :
  kinv n w V X L → n + 1 < u64_mod →
  w_threads w !! t = Some (TLocking cid cli start key value version) →
  w_clerks w !! cid = Some tc → tc_locked tc = false → ck_args (tc_clerk tc) key value version = (ck, args) →
  kinv (n + 1) (nextCall t (RPut args) cli start (set_clerk cid (mkTClerk ck true) w)) V X L.
Proof.
  intros HI Hn Ht Hck Hun Hargs. pose proof (ki_thread _ _ _ _ _ HI t) as Hth. rewrite Ht in Hth. destruct Hth as [Hst Hns].
  pose proof (ki_clerk _ _ _ _ _ HI cid) as Hci. rewrite Hck in Hci. destruct Hci as (Hid & Hr & Hle).
  destruct (ck_args_ok (tc_clerk tc) key value version) as (Hid' & Hr' & Ha). rewrite Hargs in Hid', Hr', Ha. cbn in *.
  rewrite u64_add_small in Hr', Ha by lia.
  assert (∀ t', ¬ putting w t' cid) as Hfree.
  { intros t' (c & a & Hc & Hreq & <-). apply calling_lookup in Hc. pose proof (ki_thread _ _ _ _ _ HI t') as H.
    rewrite Hc in H. destruct H as (_ & _ & H). rewrite Hreq in H. destruct H as [(ck' & Hk & _) _].
    rewrite Hck in Hk. injection Hk as ->. done. }
  assert (X !! (cid, ck_rid (tc_clerk tc) + 1) = None) as HX.
  { apply eq_None_not_Some. intros H. specialize (Hle _ H). lia. }
  eapply (kinv_nextCall n w); try done; [by rewrite Ht|apply HI|..].
  - intros c Hreq Hs Hrep. subst args. split; [|split].
    + cbn. rewrite Hid, lookup_insert_eq. by eexists.
    + intros rep. by rewrite Hrep.
    + cbn. by rewrite Hid, HX.
  - intros cid'. cbn. destruct (decide (cid' = cid)) as [->|Hne].
    + rewrite lookup_insert_eq. cbn. split; [congruence|]. split; [lia|]. intros rid Hrid. specialize (Hle rid Hrid). lia.
    + rewrite lookup_insert_ne by done. eapply clerk_inv_weaken; [|apply HI]. lia.
  - intros t' cid' _ Hp. cbn. apply lookup_insert_ne. intros ->. by eapply Hfree.
  - intros a t' [= <-] _. subst args. cbn. rewrite Hid. apply Hfree.
  - intros c a Hc. apply calling_lookup in Hc. congruence.
Qed.

(** What the invariant says of a thread in the clerk's loop. *)
Lemma calling_inv n w V X L t c :
  kinv n w V X L → calling t w = Some c →
  c_start c ≤ w_now w ∧ c_attempt c < w_next w ∧
  match c_req c with RGet _ => get_inv L t c | RPut a => put_inv (w_clerks w) X L t c a end.
Proof.
  intros HI Hc%calling_lookup. pose proof (ki_thread _ _ _ _ _ HI t) as H. by rewrite Hc in H.
Qed.

Lemma not_logging t w c o : calling t w = Some c → w_threads w !! t ≠ Some (TLogging o).
Proof. intros H%calling_lookup. congruence. Qed.

(** A thread stays in its [Call]; its slot and its reply may be new. *)
Lemma kinv_stay n w w' V X L L' t c c' :
  kinv n w V X L → calling t w = Some c →
  c_req c' = c_req c → c_start c' = c_start c → c_attempt c' = c_attempt c →
  w_srv w' = w_srv w → w_now w' = w_now w → w_next w' = w_next w → w_clerks w' = w_clerks w →
  w_threads w' = <[t := TCalling c']> (w_threads w) → w_oplog w' = w_oplog w →
  lin_ok V (w_now w) (all_ops w) L' →
  (∀ t' x, t' ≠ t → slot_of L' t' x ↔ slot_of L t' x) →
  match c_req c with RGet _ => get_inv L' t c' | RPut a => put_inv (w_clerks w) X L' t c' a end →
  (∀ p, p ∈ w_proposed w' → p ∈ w_proposed w ∨ ∃ g, p = mkProposal t (c_attempt c) g (c_req c)) →
  kinv (n + 1) w' V X L'.
Proof.
  intros HI Hc Er Es Ea Ekv Enow Enext Eck Ethr Elog Hlin Hsl Hinv Hpr.
  destruct (calling_inv _ _ _ _ _ _ _ HI Hc) as (Hst & Hat & _).
  assert (calling t w' = Some c') as Hc' by (rewrite (calling_insert _ _ _ _ _ Ethr); by rewrite decide_True).
  eapply (kinv_move n (n + 1) w w' V X L L' t (TCalling c')); [done|done|done|lia|done| |done|..].
  - eapply lin_ok_mono; [| |exact Hlin]; [done|].
    rewrite (all_ops_move _ _ _ _ Ethr Elog) by (intros o; by eapply not_logging). by rewrite app_nil_r.
  - cbn. rewrite Es, Ea, Er, Eck, Enext. split_and!; done.
  - intros cid. rewrite Eck. eapply clerk_inv_weaken; [|apply HI]. lia.
  - intros t' cid _ _. by rewrite Eck.
  - intros t' cid Hne (c0 & a & Hc0 & Hr & Hcid) Hp. rewrite Hc' in Hc0. injection Hc0 as <-.
    apply Hne. eapply (ki_mutex _ _ _ _ _ HI); [exact Hp|]. exists c, a. by rewrite <-Er.
  - intros p Hp. assert (∀ a, c_req c = RPut a → ∃ c'', TCalling c' = TCalling c'' ∧ c_req c'' = RPut a) as Hself.
    { intros a Ha. exists c'. split; [done|]. by rewrite Er. }
    destruct (Hpr p Hp) as [Hold|[g ->]].
    + pose proof (ki_proposed _ _ _ _ _ HI p Hold) as Hpi.
      eapply (proposal_move X w); [exact Hpi|lia|exact Ethr|..].
      * intros c0 [= <-] <- Hat'. rewrite Er. eapply Hpi; [done|congruence].
      * intros c0 a Hc0 Hr. right. apply Hself. congruence.
    + split; cbn; [lia|..].
      * intros c0 Hc0 _. rewrite Hc' in Hc0. injection Hc0 as <-. done.
      * intros a Ha. right. exists t, c'. split; [done|]. congruence.
Qed.

Lemma propose_preserves n w V X L t c g :
  kinv n w V X L → calling t w = Some c →
  kinv (n + 1) (set_proposed (w_proposed w ++ [mkProposal t (c_attempt c) g (c_req c)])
    (set_thread t (TCalling (mkCalling (c_req c) (c_cli c) (c_start c) (c_attempt c) true (c_reply c))) w)) V X L.
Proof.
  intros HI Hc. destruct (calling_inv _ _ _ _ _ _ _ HI Hc) as (Hst & Hat & Hinv).
  eapply (kinv_stay n w _ V X L L t c (mkCalling (c_req c) (c_cli c) (c_start c) (c_attempt c) true (c_reply c)));
    try done; [apply HI|].
  intros p. cbn. rewrite elem_of_app, list_elem_of_singleton. intros [?| ->]; eauto.
Qed.

(** A get that is called again gives up its slot; a put keeps it. *)
Lemma get_not_wrote n w V X L t c g s :
  kinv n w V X L → calling t w = Some c → c_req c = RGet g → slot_of L t s → s_wrote s = false.
Proof.
  intros HI Hc Hr Hs. destruct (calling_inv _ _ _ _ _ _ _ HI Hc) as (_ & _ & Hinv). rewrite Hr in Hinv.
  unfold get_inv in Hinv. destruct (c_reply c) as [rep|]; [|by destruct (Hinv s)].
  destruct Hinv as (ans & _ & Hinv). destruct ans as [out|]; [|by destruct (Hinv s)].
  destruct Hinv as (s' & Hs' & _ & Hw & _). by rewrite (slot_of_unique _ _ _ _ _ _ _ (ki_lin _ _ _ _ _ HI) Hs Hs').
Qed.

Lemma again_preserves n w V X L t c :
  kinv n w V X L → calling t w = Some c →
  ∃ L', kinv (n + 1) (nextCall t (c_req c) (c_cli c) (c_start c) w) V X L'.
Proof.
  intros HI Hc. destruct (calling_inv _ _ _ _ _ _ _ HI Hc) as (Hst & Hat & Hinv).
  assert (∀ L', lin_ok V (w_now w) (all_ops w) L' →
    (∀ t' x, t' ≠ t → slot_of L' t' x ↔ slot_of L t' x) →
    (∀ c', c_req c' = c_req c → c_start c' = c_start c → c_reply c' = None →
     match c_req c with RGet _ => get_inv L' t c' | RPut a => put_inv (w_clerks w) X L' t c' a end) →
    kinv (n + 1) (nextCall t (c_req c) (c_cli c) (c_start c) w) V X L') as Hgen.
  { intros L' HL' Hsl Hc'. eapply (kinv_nextCall n w w); try done.
    - intros o. by eapply not_logging.
    - intros cid. eapply clerk_inv_weaken; [|apply HI]. lia.
    - intros a t' Hr Hne Hp. apply Hne. eapply (ki_mutex _ _ _ _ _ HI); [exact Hp|]. by exists c, a.
    - intros c0 a Hc0. congruence. }
  destruct (c_req c) as [g|a] eqn:Er.
  - exists (filter (not_of t) L). apply Hgen.
    + apply lin_ok_drop; [apply HI|]. intros s. by eapply get_not_wrote.
    + intros t' x Hne. rewrite slot_of_filter. naive_solver.
    + intros c' _ _ Hrep. unfold get_inv. rewrite Hrep. intros s. rewrite slot_of_filter. naive_solver.
  - exists L. apply Hgen; [apply HI|done|]. intros c' Hr' Hs' Hrep. destruct Hinv as (Hck & _ & Hinv).
    split; [done|]. split; [intros rep; by rewrite Hrep|].
    destruct (X !! (cidOf a, ridOf a)) as [[a' e]|]; [|done]. destruct Hinv as (? & s & H1 & H2 & H3).
    split; [done|]. exists s. split; [done|]. split; [|done]. unfold slot_for in *. by rewrite Hr', Hs', <-Er.
Qed.

Lemma kinv_proposed_sub n w V X L ps :
  kinv n w V X L → (∀ p, p ∈ ps → p ∈ w_proposed w) → kinv n (set_proposed ps w) V X L.
Proof.
  intros [Hsv Hlin Hth Hck Hmu Hpr] Hsub. split; try done.
  intros p Hp. destruct (Hpr p (Hsub p Hp)) as [H1 H2 H3]. by split.
Qed.

(** The service takes a step that no client sees. *)
Lemma kinv_srv n w V X L sv : kinv n w V X L → sv_inv sv V X → kinv n (set_srv sv w) V X L.
Proof.
  intros [Hsv Hlin Hth Hck Hmu Hpr] Hsv'. split; try done.
  intros p Hp. destruct (Hpr p Hp) as [H1 H2 H3]. by split.
Qed.

Lemma kinv_weaken n n' w V X L : n ≤ n' → kinv n w V X L → kinv n' w V X L.
Proof. intros Hn []. split; try done. intros cid. by eapply clerk_inv_weaken. Qed.

(** ** Executions *)

(** A put is executed for the first time. *)
Lemma first_put_preserves n w V X L a t c sv :
  kinv n w V X L → calling t w = Some c → c_req c = RPut a → X !! (cidOf a, ridOf a) = None →
  let e := (cell_put a (V (put_Key a))).2 in
  let X' := <[(cidOf a, ridOf a) := (a, e)]> X in
  sv_inv sv (cells_put a V) X' →
  ∃ L', kinv n (set_srv sv w) (cells_put a V) X' L'.
Proof.
  intros HI Hc Hr Hns e X' Hsv'. destruct (calling_inv _ _ _ _ _ _ _ HI Hc) as (Hst & Hat & Hinv). rewrite Hr in Hinv.
  destruct Hinv as ((ck & Hck & Hid) & Hrep & Hno). rewrite Hns in Hno.
  destruct (cell_put_cases a (V (put_Key a))) as [Herr Hfail]. fold e in Herr, Hfail.
  set (s' := mkSlot (Some t) (recorded c (put_output e) 0) (bool_decide (e = OK))).
  assert (slot_key s' = put_Key a) as Hkey by (unfold slot_key, op_key; cbn; by rewrite Hr).
  destruct (lin_ok_exec V (cells_put a V) (w_now w) (all_ops w) L t s') as [HL Hsl];
    [apply HI|intros s Hs; by destruct (Hno s)|done|done|..].
  - rewrite Hkey. cbn [s_op s' recorded op_Input op_Output]. rewrite Hr. unfold cells_put.
    rewrite decide_True by done. apply SeqStep_put.
  - cbn. intros E%bool_decide_eq_false. rewrite Hkey. unfold cells_put.
    rewrite decide_True by done. by rewrite Hfail.
  - rewrite Hkey. intros k Hk. unfold cells_put. by rewrite decide_False.
  - exists (filter (not_of t) L ++ [s']). destruct HI as [Hsv Hlin Hth Hcl Hmu Hpr]. split; try done.
    + intros t'. destruct (decide (t' = t)) as [->|Hne].
      * apply calling_lookup in Hc. cbn. rewrite Hc. split; [done|]. split; [done|]. rewrite Hr.
        split; [by exists ck|]. split.
        -- intros rep Hr0. destruct (Hrep rep Hr0) as (ans & Ha & [->|(e0 & He0 & _)]); [|congruence].
           exists None. split; [done|]. by left.
        -- unfold X'. rewrite lookup_insert_eq. split; [done|]. exists s'. split_and!; try done.
           apply Hsl. by rewrite decide_True.
      * eapply thread_inv_mono; [apply Hth|done|done|intros x; rewrite Hsl; by rewrite decide_False|].
        intros c0 a0 Hc0 Hr0. split; [done|]. unfold X'. apply lookup_insert_ne. intros [= E _]. apply Hne.
        apply (Hmu t' t (cidOf a0)); [exists c0, a0|exists c, a]; (split; [by (done || apply calling_lookup)|done]).
    + intros cid. specialize (Hcl cid). cbn. destruct (decide (cid = cidOf a)) as [->|Hne].
      * rewrite Hck in Hcl |- *. destruct Hcl as (? & ? & Hle). split; [done|]. split; [done|]. intros rid.
        unfold X'. destruct (decide (rid = ridOf a)) as [->|Hne]; [intros _; cbn; lia|].
        rewrite lookup_insert_ne by congruence. apply Hle.
      * assert (∀ rid, X' !! (cid, rid) = X !! (cid, rid)) as E by (intros rid; apply lookup_insert_ne; congruence).
        destruct (w_clerks w !! cid); cbn in *; [|intros rid; by rewrite E].
        destruct Hcl as (? & ? & Hle). split_and!; try done; try lia. intros rid. rewrite E. apply Hle.
    + intros p Hp. destruct (Hpr p Hp) as [H1 H2 H3]. split; [done|done|]. intros a0 Ha0.
      destruct (H3 a0 Ha0) as [(e0 & He0)|?]; [|by right]. left. exists e0. unfold X'.
      rewrite lookup_insert_ne; [done|]. intros E. rewrite <-E in He0. congruence.
Qed.

(** The result of a get is delivered: its call takes its place. *)
Lemma deliver_get n w V X L p g rep ans :
  kinv n w V X L → (∀ c, calling (p_thread p) w = Some c → c_attempt c = p_attempt p → c_req c = RGet g) →
  sv_answer (RGet g) rep = Ret ans → (ans = None ∨ ans = Some (get_output (cell_get (V (get_Key g))))) →
  ∃ L', kinv (n + 1) (deliver p rep w) V X L'.
Proof.
  intros HI Hreq Hans Hcase. unfold deliver.
  destruct (calling (p_thread p) w) as [c|] eqn:Hc; [|exists L; eapply kinv_weaken; [|done]; lia].
  case_decide as Ha; [|exists L; eapply kinv_weaken; [|done]; lia]. specialize (Hreq c eq_refl Ha).
  set (t := p_thread p) in *. destruct (calling_inv _ _ _ _ _ _ _ HI Hc) as (Hst & Hat & _).
  set (c' := mkCalling (c_req c) (c_cli c) (c_start c) (c_attempt c) (c_sent c) (Some rep)).
  assert (∀ L', lin_ok V (w_now w) (all_ops w) L' →
    (∀ t' x, t' ≠ t → slot_of L' t' x ↔ slot_of L t' x) → get_inv L' t c' →
    kinv (n + 1) (set_thread t (TCalling c') w) V X L') as Hgen.
  { intros L' HL' Hsl Hg. eapply (kinv_stay n w _ V X L L' t c c'); try done; [by rewrite Hreq|]. intros q Hq. by left. }
  destruct Hcase as [->| ->].
  - exists (filter (not_of t) L). apply Hgen.
    + apply lin_ok_drop; [apply HI|]. intros s. by eapply get_not_wrote.
    + intros t' x Hne. rewrite slot_of_filter. naive_solver.
    + exists None. cbn. rewrite Hreq. split; [done|]. intros s. rewrite slot_of_filter. naive_solver.
  - set (s' := mkSlot (Some t) (recorded c (get_output (cell_get (V (get_Key g)))) 0) false).
    destruct (lin_ok_exec V V (w_now w) (all_ops w) L t s') as [HL Hsl];
      [apply HI|intros s; by eapply get_not_wrote|done|done| |done|done|].
    { assert (slot_key s' = get_Key g) as -> by (unfold slot_key, op_key; cbn; by rewrite Hreq).
      cbn [s_op s' recorded op_Input op_Output]. rewrite Hreq. apply SeqStep_get. }
    exists (filter (not_of t) L ++ [s']). apply Hgen; [done|..].
    + intros t' x Hne. rewrite Hsl. by rewrite decide_False.
    + eexists. cbn. rewrite Hreq. split; [done|]. exists s'.
      split; [apply Hsl; by rewrite decide_True|]. split; [|done]. unfold slot_for. cbn. by rewrite ?Hreq.
Qed.

(** The result of a put is delivered. *)
Lemma deliver_put n w V X L p a rep ans :
  kinv n w V X L → (∀ c, calling (p_thread p) w = Some c → c_attempt c = p_attempt p → c_req c = RPut a) →
  sv_answer (RPut a) rep = Ret ans →
  (ans = None ∨ ∃ rid a' e, ridOf a ≤ rid ∧ X !! (cidOf a, rid) = Some (a', e) ∧ ans = Some (put_output e)) →
  kinv (n + 1) (deliver p rep w) V X L.
Proof.
  intros HI Hreq Hans Hcase. unfold deliver.
  destruct (calling (p_thread p) w) as [c|] eqn:Hc; [|eapply kinv_weaken; [|done]; lia].
  case_decide as Ha; [|eapply kinv_weaken; [|done]; lia]. specialize (Hreq c eq_refl Ha).
  destruct (calling_inv _ _ _ _ _ _ _ HI Hc) as (Hst & Hat & Hinv). rewrite Hreq in Hinv.
  destruct Hinv as ((ck & Hck & Hid) & Hrep & Hinv).
  eapply (kinv_stay n w _ V X L L _ c (mkCalling (c_req c) (c_cli c) (c_start c) (c_attempt c) (c_sent c) (Some rep)));
    try done; [apply HI| |intros q Hq; by left].
  rewrite Hreq. split; [by exists ck|]. split.
  - cbn. intros rep' [= <-]. exists ans. split; [done|].
    destruct Hcase as [->|(rid & a' & e & Hle & HX & ->)]; [by left|]. right. exists e. split; [|done].
    pose proof (ki_clerk _ _ _ _ _ HI (cidOf a)) as Hcl. rewrite Hck in Hcl. destruct Hcl as (_ & _ & Hcl).
    specialize (Hcl rid (ex_intro _ _ HX)). cbn in Hcl. assert (rid = ridOf a) as -> by lia.
    rewrite HX in Hinv. destruct Hinv as [-> _]. done.
  - destruct (X !! (cidOf a, ridOf a)) as [[a' e]|]; [|done]. destruct Hinv as (? & s & H1 & H2 & H3).
    split; [done|]. exists s. split; [done|]. split; [|done]. unfold slot_for in *. cbn. by rewrite Hreq in H2.
Qed.

Lemma commit_preserves n w V X L i p :
  kinv n w V X L → w_proposed w !! i = Some p →
  ∃ sv rep V' X' L', sv_exec (p_place p) (p_req p) (w_srv w) = Ret (sv, rep) ∧
    kinv (n + 1) (deliver p rep (set_srv sv (set_proposed (delete i (w_proposed w)) w))) V' X' L'.
Proof.
  intros HI Hi. assert (p ∈ w_proposed w) as Hp by (by eapply list_elem_of_lookup_2).
  set (w1 := set_proposed (delete i (w_proposed w)) w).
  assert (kinv n w1 V X L) as HI1.
  { apply kinv_proposed_sub; [done|]. intros q Hq. rewrite (delete_Permutation _ _ _ Hi). by right. }
  pose proof (ki_proposed _ _ _ _ _ HI p Hp) as [Hpa Hpr Hpp].
  assert (∀ sv c, calling (p_thread p) (set_srv sv w1) = Some c → c_attempt c = p_attempt p → c_req c = p_req p) as Hreq by done.
  destruct (p_req p) as [g|a] eqn:Er.
  - destruct (sv_get _ V X (p_place p) g (ki_srv _ _ _ _ _ HI)) as (sv & rep & ans & Hex & Hsv & Hans & Hcase).
    destruct (deliver_get n (set_srv sv w1) V X L p g rep ans) as [L' HL']; [by apply kinv_srv|by apply Hreq|done|done|].
    exists sv, rep, V, X, L'. done.
  - assert (∀ a' e, X !! (cidOf a, ridOf a) = Some (a', e) → a' = a) as Hsame.
    { intros a' e HX. destruct (Hpp a eq_refl) as [(e' & He')|(t & c & Hc & Hr)]; [congruence|].
      destruct (calling_inv _ _ _ _ _ _ _ HI Hc) as (_ & _ & Hinv). rewrite Hr in Hinv.
      destruct Hinv as (_ & _ & Hinv). rewrite HX in Hinv. apply Hinv. }
    destruct (sv_put _ V X (p_place p) a (ki_srv _ _ _ _ _ HI) Hsame) as (sv & rep & ans & Hex & Hans & Hcase).
    destruct Hcase as [-> Hsv|rid a' e Hle HX -> Hsv|Hnone -> Hsv].
    + exists sv, rep, V, X, L. split; [done|]. apply (deliver_put n _ V X L p a rep None); [by apply kinv_srv|by apply Hreq|done|by left].
    + exists sv, rep, V, X, L. split; [done|].
      apply (deliver_put n _ V X L p a rep (Some (put_output e))); [by apply kinv_srv|by apply Hreq|done|].
      right. by exists rid, a', e.
    + destruct (Hpp a eq_refl) as [(e' & He')|(t & c & Hc & Hr)]; [congruence|].
      destruct (first_put_preserves n w1 V X L a t c sv) as [L' HL']; [done..|].
      eexists sv, rep, _, _, L'. split; [done|].
      eapply (deliver_put n (set_srv sv w1) _ _ L' p a rep); [exact HL'|by apply Hreq|done|].
      right. eexists (ridOf a), a, _. split; [lia|]. split; [apply lookup_insert_eq|done].
Qed.

(** ** Returns *)

(** The slot of a call that returns becomes final. *)
Lemma slot_returns n w V X L t c s :
  kinv n w V X L → slot_of L t s → slot_for c s →
  ∃ L', lin_ok V (w_now w) (all_ops w ++ [recorded c (op_Output (s_op s)) (w_now w)]) L' ∧
    ∀ t' x, slot_of L' t' x ↔ t' ≠ t ∧ slot_of L t' x.
Proof. intros HI Hs [Hin Hcall]. by eapply lin_ok_finish; [apply HI|..]. Qed.

Lemma kinv_return n w w' V X L L' t c o :
  kinv n w V X L → calling t w = Some c →
  w_srv w' = w_srv w → w_now w' = w_now w → w_next w' = w_next w → w_oplog w' = w_oplog w →
  w_proposed w' = w_proposed w → w_threads w' = <[t := TLogging o]> (w_threads w) →
  lin_ok V (w_now w) (all_ops w ++ [o]) L' → (∀ t' x, slot_of L' t' x ↔ t' ≠ t ∧ slot_of L t' x) →
  (∀ cid, clerk_inv n X cid (w_clerks w' !! cid)) →
  (∀ t' cid, t' ≠ t → putting w t' cid → w_clerks w' !! cid = w_clerks w !! cid) →
  (∀ a, c_req c = RPut a → settled X a) →
  kinv n w' V X L'.
Proof.
  intros HI Hc Ekv Enow Enext Elog Eprop Ethr Hlin Hsl Hck Hoth Hset.
  eapply (kinv_move n n w w' V X L L' t (TLogging o)); [done|done|done|lia|done| | | |done|done|..].
  - eapply lin_ok_mono; [| |exact Hlin]; [done|].
    rewrite (all_ops_move _ _ _ _ Ethr Elog) by (intros o'; by eapply not_logging). done.
  - intros t' x Hne. rewrite Hsl. naive_solver.
  - intros x. rewrite Hsl. naive_solver.
  - intros t' cid _ (c0 & a & Hc0 & _). by rewrite (calling_insert _ _ _ _ _ Ethr), decide_True in Hc0.
  - intros p Hp. rewrite Eprop in Hp. eapply (proposal_move X w); [by apply HI|lia|exact Ethr|done|].
    intros c0 a Hc0 Hr. left. apply Hset. congruence.
Qed.

Lemma kreturn_preserves n w V X L t c rep :
  kinv n w V X L → calling t w = Some c → c_reply c = Some rep →
  ∃ ans L', sv_answer (c_req c) rep = Ret ans ∧
    kinv (n + 1) (match ans with
       | Some out => unlock (c_req c) (set_thread t (TLogging (recorded c out (w_now w))) w)
       | None => nextCall t (c_req c) (c_cli c) (c_start c) w
       end) V X L'.
Proof.
  intros HI Hc Hrep. destruct (calling_inv _ _ _ _ _ _ _ HI Hc) as (Hst & Hat & Hinv).
  destruct (again_preserves n w V X L t c HI Hc) as [La HLa].
  destruct (c_req c) as [g|a] eqn:Er.
  - unfold get_inv in Hinv. rewrite Hrep in Hinv. destruct Hinv as (ans & Hans & Hinv). rewrite Er in Hans. exists ans.
    destruct ans as [out|]; [|by exists La]. destruct Hinv as (s & Hs & Hfor & Hw & <-).
    destruct (slot_returns n w V X L t c s) as (L' & HL' & Hsl); try done.
    exists L'. split; [done|]. apply (kinv_weaken n); [lia|]. cbn [unlock].
    eapply (kinv_return n w); try done; [apply HI|]. intros a. by rewrite Er.
  - destruct Hinv as ((ck & Hck & Hid) & Hre & Hinv). destruct (Hre rep Hrep) as (ans & Hans & Hcase). rewrite Er in Hans.
    exists ans. destruct Hcase as [->|(e & HX & ->)]; [by exists La|]. rewrite HX in Hinv.
    destruct Hinv as (_ & s & Hs & Hfor & Hout).
    destruct (slot_returns n w V X L t c s) as (L' & HL' & Hsl); try done. rewrite Hout in HL'.
    exists L'. split; [done|]. apply (kinv_weaken n); [lia|]. cbn [unlock]. cbn. rewrite Hck.
    eapply (kinv_return n w); try done; cbn.
    + intros cid. pose proof (ki_clerk _ _ _ _ _ HI cid) as Hcl. destruct (decide (cid = cidOf a)) as [->|Hne].
      * rewrite lookup_insert_eq. by rewrite Hck in Hcl.
      * by rewrite lookup_insert_ne.
    + intros t' cid Hne Hp. apply lookup_insert_ne. intros <-. apply Hne.
      eapply (ki_mutex _ _ _ _ _ HI); [exact Hp|]. by exists c, a.
    + rewrite Er. intros a' [= <-]. by exists e.
Qed.

(** ** The other events *)

Lemma kappend_preserves n w V X L t o :
  kinv n w V X L → w_threads w !! t = Some (TLogging o) →
  kinv n (mkWorld (w_now w) (w_srv w) (w_proposed w) (w_clerks w) (w_next w) (delete t (w_threads w))
            (OpLog_Append o (w_oplog w))) V X L.
Proof.
  intros [Hsv Hlin Hth Hck Hmu Hpr] Ht. set (w' := mkWorld _ _ _ _ _ _ _).
  assert (∀ t', calling t' w' = calling t' w) as Hcal.
  { intros t'. unfold calling. cbn. destruct (decide (t' = t)) as [->|E].
    - by rewrite lookup_delete_eq, Ht.
    - by rewrite lookup_delete_ne. }
  assert (∀ t' cid, putting w' t' cid → putting w t' cid) as Hput
    by (intros t' cid (c & a & Hc & ?); exists c, a; by rewrite <-Hcal).
  split; try done.
  - eapply lin_ok_mono; [| |exact Hlin]; [done|]. unfold all_ops. cbn.
    by rewrite (logging_delete _ _ _ _ Ht), <-app_assoc.
  - intros t'. specialize (Hth t'). cbn. destruct (decide (t' = t)) as [->|E].
    + rewrite lookup_delete_eq. by rewrite Ht in Hth.
    + by rewrite lookup_delete_ne.
  - intros t1 t2 cid H1 H2. eapply Hmu; by apply Hput.
  - intros p Hp. destruct (Hpr p Hp) as [H1 H2 H3]. split; [done|intros c; rewrite Hcal; apply H2|].
    intros a Ha. destruct (H3 a Ha) as [?|(t' & c & ? & ?)]; [by left|right]. exists t', c. by rewrite Hcal.
Qed.

Lemma ktick_preserves n w V X L d :
  kinv n w V X L → 0 ≤ d →
  kinv n (mkWorld (w_now w + d) (w_srv w) (w_proposed w) (w_clerks w) (w_next w) (w_threads w) (w_oplog w)) V X L.
Proof.
  intros [Hsv Hlin Hth Hck Hmu Hpr] Hd. split; try done; cbn.
  - eapply lin_ok_mono; [| |exact Hlin]; [lia|done].
  - intros t. eapply thread_inv_mono; [apply Hth|lia|lia|done|done].
  - intros p Hp. destruct (Hpr p Hp) as [H1 H2 H3]. by split.
Qed.

Lemma newClerk_preserves n w V X L cid :
  kinv n w V X L → 0 ≤ n → w_clerks w !! cid = None →
  kinv n (set_clerk cid (mkTClerk (ck_make cid) false) w) V X L.
Proof.
  intros [Hsv Hlin Hth Hck Hmu Hpr] Hn Hnone. split; try done; cbn.
  - intros t. eapply thread_inv_mono; [apply Hth|lia|lia|done|]. intros c a Hc Hr. split; [|done].
    apply lookup_insert_ne. intros ->. specialize (Hth t). rewrite Hc in Hth. destruct Hth as (_ & _ & H).
    rewrite Hr in H. destruct H as [(ck & Hk & _) _]. congruence.
  - intros cid'. specialize (Hck cid'). destruct (decide (cid' = cid)) as [->|Hne].
    + rewrite lookup_insert_eq. rewrite Hnone in Hck. cbn in *. destruct (ck_make_ok cid) as [-> ->].
      split; [done|]. split; [lia|]. intros rid [x Hx]. by rewrite Hck in Hx.
    + by rewrite lookup_insert_ne.
  - intros p Hp. destruct (Hpr p Hp) as [H1 H2 H3]. by split.
Qed.

Lemma kstep_preserves n w V X L ev o :
  kinv n w V X L → 0 ≤ n → n + 1 < u64_mod → own_result ev → kstep ev w = Some o →
  ∃ w' V' X' L', o = Ret w' ∧ kinv (n + 1) w' V' X' L'.
Proof.
  intros HI H0 Hn Hown Hst. assert (∀ w V X L, kinv n w V X L → ∃ V' X' L', kinv (n + 1) w V' X' L') as Hup.
  { intros w0 V0 X0 L0 ?. exists V0, X0, L0. eapply kinv_weaken; [|done]. lia. }
  assert ((∃ w' V' X' L', o = Ret w' ∧ kinv n w' V' X' L') → ∃ w' V' X' L', o = Ret w' ∧ kinv (n + 1) w' V' X' L') as Hup'.
  { intros (w' & V' & X' & L' & -> & H). destruct (Hup _ _ _ _ H) as (? & ? & ? & ?). by eexists _, _, _, _. }
  destruct ev as [d|cid|t cli key|t cli cid key value version|t|t g|i|i t|t|t|t|b]; try done; cbn in Hst.
  - case_decide; [|done]. injection Hst as <-. apply Hup'. eexists _, _, _, _. split; [done|]. by apply ktick_preserves.
  - destruct (w_clerks w !! cid) eqn:E; [done|]. injection Hst as <-. apply Hup'. eexists _, _, _, _. split; [done|].
    by apply newClerk_preserves.
  - destruct (w_threads w !! t) eqn:E; [done|]. injection Hst as <-. eexists _, _, _, _. split; [done|].
    by apply invokeGet_preserves.
  - destruct (w_threads w !! t) eqn:E; [done|]. destruct (w_clerks w !! cid); [|done]. injection Hst as <-.
    eexists _, _, _, _. split; [done|]. by apply invokePut_preserves.
  - destruct (w_threads w !! t) as [[cid cli start key value version| |]|] eqn:E; try done.
    destruct (w_clerks w !! cid) as [tc|] eqn:Ec; [|done]. cbn in Hst. destruct (tc_locked tc) eqn:El; [done|].
    destruct (ck_args (tc_clerk tc) key value version) as [ck args] eqn:Ea.
    injection Hst as <-. eexists _, _, _, _. split; [done|]. by eapply lock_preserves.
  - destruct (calling t w) as [c|] eqn:Ec; [|done]. cbn in Hst. destruct (c_sent c); [done|]. injection Hst as <-.
    eexists _, _, _, _. split; [done|]. by apply propose_preserves.
  - destruct (w_proposed w !! i) as [p|] eqn:Ep; [|done]. cbn in Hst.
    destruct (commit_preserves n w V X L i p HI Ep) as (sv & rep & V' & X' & L' & Hex & HI').
    rewrite Hex in Hst. injection Hst as <-. by eexists _, _, _, _.
  - destruct (calling t w) as [c|] eqn:Ec; [|done]. injection Hst as <-.
    destruct (again_preserves n w V X L t c HI Ec) as [L' HL']. by eexists _, _, _, _.
  - destruct (calling t w) as [c|] eqn:Ec; [|done]. cbn in Hst. destruct (c_reply c) as [rep|] eqn:Er; [|done]. cbn in Hst.
    destruct (kreturn_preserves n w V X L t c rep HI Ec Er) as (ans & L' & Ha & HL'). rewrite Ha in Hst.
    injection Hst as <-. by eexists _, _, _, _.
  - destruct (w_threads w !! t) as [[| |o']|] eqn:E; try done. injection Hst as <-. apply Hup'. eexists _, _, _, _.
    split; [done|]. by apply kappend_preserves.
  - destruct (sv_back b (w_srv w)) as [o'|] eqn:E; [|done]. injection Hst as <-.
    destruct (sv_back_inv _ _ _ _ _ (ki_srv _ _ _ _ _ HI) E) as (sv & -> & Hsv). apply Hup'. eexists _, _, _, _.
    split; [done|]. by apply kinv_srv.
Qed.

Lemma krun_preserves evs n w V X L o :
  kinv n w V X L → 0 ≤ n → n + zlen evs < u64_mod → Forall own_result evs → krun evs w = Some o →
  ∃ w' V' X' L', o = Ret w' ∧ kinv (n + zlen evs) w' V' X' L'.
Proof.
  revert n w V X L. induction evs as [|ev evs IH]; intros n w V X L HI H0 Hn Hown Hrun.
  - injection Hrun as <-. exists w, V, X, L. split; [done|]. eapply kinv_weaken; [|done]. change (zlen []) with 0. lia.
  - rewrite zlen_cons in *. pose proof (zlen_nonneg evs). cbn in Hrun.
    apply Forall_cons in Hown as [Hev Hown]. destruct (kstep ev w) as [o1|] eqn:E; [|done].
    destruct (kstep_preserves n w V X L ev o1) as (w1 & V1 & X1 & L1 & -> & H1); [done|lia|lia|done|done|].
    replace (n + (zlen evs + 1)) with ((n + 1) + zlen evs) by lia. eapply IH; [done|lia|lia|done|done].
Qed.

Lemma kinv_init : kinv 0 MakeWorld (λ _, None) ∅ [].
Proof.
  split; [apply sv_inv_init|apply lin_ok_init|..]; cbn.
  - intros t. rewrite lookup_empty. intros s [Hs _]. set_solver.
  - intros cid. by rewrite lookup_empty.
  - intros t1 t2 cid (c & a & Hc & _). unfold calling in Hc. cbn in Hc. by rewrite lookup_empty in Hc.
  - set_solver.
Qed.

(** Clients of a service that keeps its promises, whose [Submit] gives every
    call the result of its own operation: no modelled step panics, and once
    every thread has appended what it recorded, the history is linearizable, for
    the sequential store and, without the puts refused with [ErrNoKey], for the
    checker's model. *)
Theorem clients_linearizable evs o :
  krun evs MakeWorld = Some o → Forall own_result evs → zlen evs < u64_mod →
  ∃ w, o = Ret w ∧ (w_threads w = ∅ → seq_linearizable (OpLog_Read (w_oplog w)) ∧
                     linearizable (filter not_NoKey_put (OpLog_Read (w_oplog w)))).
Proof.
  intros Hrun Hown Hlen.
  destruct (krun_preserves evs 0 _ _ _ _ o kinv_init ltac:(lia) ltac:(lia) Hown Hrun) as (w & V & X & L & -> & HI).
  exists w. split; [done|]. intros Hnil. pose proof (ki_lin _ _ _ _ _ HI) as Hlin. unfold all_ops in Hlin. rewrite Hnil in Hlin.
  change (logging th_ops ∅) with (@nil Operation) in Hlin. rewrite app_nil_r in Hlin.
  assert (seq_linearizable (OpLog_Read (w_oplog w))) as Hseq; [|split; [done|by apply seq_linearizable_checker]].
  eapply lin_ok_end; [exact Hlin|]. intros t. pose proof (ki_thread _ _ _ _ _ HI t) as H.
  by rewrite Hnil, lookup_empty in H.
Qed.

(** Of the puts that ask for one version of a key at most one was told that it
    succeeded; exactly one, if the clerks never answer [ErrMaybe] and somebody
    read the version before the first of them was called. *)
Lemma clients_race evs w k ver :
  (∀ r rep out, sv_answer r rep = Ret (Some out) → out_Err out ≠ err_string ErrMaybe) →
  krun evs MakeWorld = Some (Ret w) → Forall own_result evs → zlen evs < u64_mod → w_threads w = ∅ →
  let history := OpLog_Read (w_oplog w) in
  (length (winners k ver history) ≤ 1)%nat ∧
  ∀ g, g ∈ history → reads k g → out_Version (op_Output g) = ver →
    (∀ o, o ∈ history → asks k ver o → precedes g o) →
    filter (asks k ver) history ≠ [] → length (winners k ver history) = 1%nat.
Proof.
  intros Hmaybe Hrun Hown Hlen Hnil history.
  destruct (clients_linearizable evs _ Hrun Hown Hlen) as (w' & [= <-] & Hlin). destruct (Hlin Hnil) as [Hseq _].
  pose proof (krun_oplog _ _ _ Hrun) as Hle. change (zlen (operations (w_oplog MakeWorld))) with 0 in Hle.
  assert (zlen history < u64_mod) as Hhist by (unfold history, OpLog_Read; lia).
  destruct (race_winners k ver history Hseq Hhist) as [H1 H2].
  split; [done|]. intros g Hg Hr Hv Hp Hne. apply (H2 g); try done.
  intros o Ho. destruct (krun_answered _ _ _ Hrun) with o as (r & rep & _ & Ha); [..|by left|by eapply Hmaybe].
  intros o' [Ho'|(t & Ht)]; [by apply elem_of_nil in Ho'|]. cbn in Ht. by rewrite lookup_empty in Ht.
Qed.
End clients.

Arguments Event : clear implicits.
Arguments World : clear implicits.
