(* ===== verification/KvRaftLin.v ===== *)
(** * KvRaftLin: the key/value service on an ideal replicated state machine is linearizable

    The service of [src/src/kvraft/server.go] and the clerk of
    [src/src/kvraft/client.go] as an instance of [ClerkLin.Service]: committed
    requests are executed one after the other with [DoOp].  That the replicas
    behave like this is [Replicas.submit_linearizable] if operation ids are
    unique and no stale reply is processed; that every [Submit] gets the result
    of its own operation is assumed here, since the code does not ensure it
    ([ReplicaRuns.acknowledged_put_lost]). *)

From S2P Require Import Prelude RpcApi KvModel KvSpec KvStore Persister Raft Rsm RsmFacts KvRaft Linear ClerkLin.

Definition to_Req (r : Request) : Req := match r with RGet a => ReqGet a | RPut a => ReqPut a end.

(** What the clerk makes of the reply to a [Call] whose [Submit] returned OK:
    the handler's type assertion and the clerk's switch on the error. *)
Definition answer (r : Request) (rep : Rep) : outcome (option KvOutput) :=
  match r with
  | RGet _ =>
      reply ← GetHandler (OK, Some rep) zeroGetReply;
      match classifyGet (get_Err reply) with
      | Answer => Ret (Some (get_output reply))
      | Retry => Ret None
      | Undefined => Panic (GoPanic "undefined error")
      end
  | RPut _ =>
      reply ← PutHandler (OK, Some rep);
      match classifyPut (put_Err reply) with
      | Answer => Ret (Some (put_output (put_Err reply)))
      | Retry => Ret None
      | Undefined => Panic (GoPanic "undefined error")
      end
  end.

(** Clerks of a cluster of three servers; the service has no steps of its own. *)
#[global] Instance kv_service : Service KVServer Rep Clerk Empty_set := {
  sv_init := emptyServer;
  sv_exec _ r kv := DoOp (to_Req r) kv;
  sv_answer := answer;
  sv_back b _ := match b with end;
  ck_make := MakeClerk 3;
  ck_args := Clerk_PutArgs;
}.

(** ** The service keeps its promises *)

(** The table holds results of executed puts, and the newest of every client. *)
Record kv_ok (kv : KVServer) (V : cells) (X : puts) (m : kvmap) (tb : putTable) : Prop := {
  ko_kv : kv = mkKVServer (Some m) (Some tb);
  ko_map k : V k = m !! k;
  ko_entry c lp : tb !! c = Some lp → ∃ a, X !! (c, lp_RequestId lp) = Some (a, put_Err (lp_Reply lp));
  ko_newest c rid : is_Some (X !! (c, rid)) → ∃ lp, tb !! c = Some lp ∧ rid ≤ lp_RequestId lp;
  ko_err i a e : X !! i = Some (a, e) → e ∈ [OK; ErrVersion; ErrNoKey] }.

Definition kv_inv (kv : KVServer) (V : cells) (X : puts) : Prop := ∃ m tb, kv_ok kv V X m tb.

Lemma put_answered e a :
  e ∈ [OK; ErrVersion; ErrNoKey] → answer (RPut a) (RepPut (mkPutReply e)) = Ret (Some (put_output e)).
Proof. rewrite !elem_of_cons, elem_of_nil. by intros [->|[->|[->|[]]]]. Qed.

Lemma kv_get_law kv V X a :
  kv_inv kv V X →
  ∃ rep, DoOp (ReqGet a) kv = Ret (kv, rep) ∧ answer (RGet a) rep = Ret (Some (get_output (cell_get (V (get_Key a))))).
Proof.
  intros (m & tb & [-> HV _ _ _]). eexists. split; [done|]. rewrite HV. cbn. unfold doGet. cbn.
  by destruct (m !! get_Key a).
Qed.

(** A put that is newer than the last one of its client. *)
Lemma kv_execute_law V X m tb a :
  kv_ok (mkKVServer (Some m) (Some tb)) V X m tb →
  (∀ lp, tb !! cidOf a = Some lp → lp_RequestId lp < ridOf a) →
  let '(m', e) := kv_put m (put_Key a) (put_Value a) (put_Version a) in
  e = (cell_put a (V (put_Key a))).2 ∧ X !! (cidOf a, ridOf a) = None ∧
  kv_inv (mkKVServer (Some m') (Some (<[cidOf a := mkLastPut (ridOf a) (mkPutReply e)]> tb)))
    (cells_put a V) (<[(cidOf a, ridOf a) := (a, e)]> X).
Proof.
  intros [_ HV Hent Hnew Herr] Hgt. pose proof (kv_put_cell m a) as Hc.
  pose proof (kv_put_cells m V a (HV _)) as HV1. pose proof (kv_put_other m (put_Key a) (put_Value a) (put_Version a)) as HV2.
  destruct (cell_put_cases a (V (put_Key a))) as [He _].
  destruct (kv_put m (put_Key a) (put_Value a) (put_Version a)) as [m' e].
  injection Hc as _ He'. cbn in HV1, HV2. rewrite <-(HV (put_Key a)) in He'.
  assert (X !! (cidOf a, ridOf a) = None) as HX.
  { destruct (X !! (cidOf a, ridOf a)) eqn:E; [|done]. destruct (Hnew _ _ (ex_intro _ _ E)) as (lp & Hlp & ?).
    specialize (Hgt _ Hlp). lia. }
  split; [done|]. split; [done|]. eexists _, _. split; [done|..].
  - intros k. destruct (decide (k = put_Key a)) as [->|Hne]; [done|]. by rewrite cells_put_other, HV2, HV.
  - intros c lp. destruct (decide (c = cidOf a)) as [->|Hne].
    + rewrite lookup_insert_eq. intros [= <-]. exists a. apply lookup_insert_eq.
    + rewrite lookup_insert_ne by done. intros Hlp. destruct (Hent _ _ Hlp) as [a' Ha']. exists a'.
      rewrite lookup_insert_ne by congruence. done.
  - intros c rid Hs. destruct (decide (c = cidOf a)) as [->|Hne].
    + rewrite lookup_insert_eq. eexists. split; [done|]. cbn. destruct (decide (rid = ridOf a)) as [->|Hne]; [lia|].
      rewrite lookup_insert_ne in Hs by congruence. destruct (Hnew _ _ Hs) as (lp & Hlp & ?). specialize (Hgt _ Hlp). lia.
    + rewrite lookup_insert_ne by done. apply Hnew. by rewrite lookup_insert_ne in Hs by congruence.
  - intros i a' e'. destruct (decide (i = (cidOf a, ridOf a))) as [->|Hne].
    + rewrite lookup_insert_eq. intros [= <- <-]. by rewrite He'.
    + rewrite lookup_insert_ne by done. apply Herr.
Qed.

Lemma kv_put_law kv V X a :
  kv_inv kv V X →
  ∃ kv' rep ans, DoOp (ReqPut a) kv = Ret (kv', rep) ∧ answer (RPut a) rep = Ret ans ∧ put_case (kv_inv kv') V X a ans.
Proof.
  intros HI. destruct (HI) as (m & tb & Hok). pose proof Hok as [-> _ Hent _ Herr].
  assert (∀ lp, tb !! cidOf a = Some lp → ridOf a ≤ lp_RequestId lp →
    ∃ ans, answer (RPut a) (RepPut (lp_Reply lp)) = Ret ans ∧ put_case (kv_inv (mkKVServer (Some m) (Some tb))) V X a ans) as Hold.
  { intros lp Hlp Hle. destruct (Hent _ _ Hlp) as (a' & Ha'). destruct (lp_Reply lp) as [e]. exists (Some (put_output e)).
    split; [by eapply put_answered, Herr|]. by eapply put_repeated. }
  assert ((∀ lp, tb !! cidOf a = Some lp → lp_RequestId lp < ridOf a) →
    ∃ kv' rep ans, ('(kv, r) ← executePut (mkKVServer (Some m) (Some tb)) a; Ret (kv, RepPut r)) = Ret (kv', rep) ∧
      answer (RPut a) rep = Ret ans ∧ put_case (kv_inv kv') V X a ans) as Hnew.
  { intros Hgt. pose proof (kv_execute_law V X m tb a Hok Hgt) as H. rewrite executePut_spec.
    destruct (kv_put m (put_Key a) (put_Value a) (put_Version a)) as [m' e]. destruct H as (He & HX & Hinv).
    eexists _, _, _. split; [done|]. split; [apply put_answered; rewrite He; apply cell_put_cases|].
    subst e. by apply put_executed. }
  unfold DoOp, doPut. cbn -[executePut answer]. destruct (tb !! cidOf a) as [lp|] eqn:Elp; [|by apply Hnew].
  case_decide as Hle; [|apply Hnew; intros lp' [= <-]; lia].
  destruct (Hold lp eq_refl Hle) as (ans & ? & ?). by eexists _, _, ans.
Qed.

#[global] Instance kv_laws : ServiceLaws KVServer Rep Clerk Empty_set.
Proof.
  refine {| sv_inv := kv_inv; ck_id := ck_clientId; ck_rid := ck_requestId |}.
  - exists ∅, ∅. split; [done|..]; intros *; rewrite ?lookup_empty; try done; by intros [].
  - intros kv V X g a HI. destruct (kv_get_law kv V X a HI) as (rep & Hdo & Hans).
    eexists kv, rep, _. split; [done|]. split; [done|]. split; [done|by right].
  - intros kv V X g a HI _. by apply kv_put_law.
  - intros ? ? ? [].
  - done.
  - done.
Defined.

(** ** The theorem *)

(** C4: what clients record of the key/value service on an ideal replicated
    state machine is linearizable.  Committed requests are executed by [DoOp]
    one after the other, on one logical server, and [Submit] gives every call
    the result of its own operation ([own_result]; [confused_put_lost] and
    [confused_call_panics] show what happens otherwise).  Any number of threads
    share any number of clerks; calls fail and are repeated at other servers;
    requests of failed calls are committed at any later time, also after the
    clerk has returned or has begun another put.  Then no modelled step panics,
    and once every thread has appended what it recorded, the whole history is
    linearizable for the sequential store, and the history without the puts
    refused with [ErrNoKey] for the checker's model, although the clerk never
    answers [ErrMaybe]: a put is executed once, and every repetition is answered
    from the table. *)
Theorem kvraft_linearizable evs o :
  krun (BEv := Empty_set) evs (MakeWorld (St := KVServer)) = Some o → Forall own_result evs → zlen evs < u64_mod →
  ∃ w, o = Ret w ∧ (w_threads w = ∅ → seq_linearizable (OpLog_Read (w_oplog w)) ∧
                     linearizable (filter not_NoKey_put (OpLog_Read (w_oplog w)))).
Proof. apply clients_linearizable. Qed.

(** The first call of a put fails after it was proposed; the clerk repeats it
    and is answered; another client overwrites the value and a third reads it;
    then the first proposal is committed, without effect.  A put to an absent
    key is refused. *)
Definition sample_events : list (Event Empty_set) :=
  [NewClerk 7; NewClerk 8; InvokePut 1 1 7 "k" "a" 0; Lock 1; Propose 1 0; Tick 1; CallFails 1;
   InvokeGet 3 3 "k"; Propose 3 0; Propose 1 0; Commit 2; Tick 1; Return 1; Append 1;
   InvokePut 2 2 8 "k" "b" 1; Lock 2; Propose 2 0; Commit 2; Tick 1; Return 2; Commit 1; Commit 0; Append 2;
   Tick 1; Return 3; Append 3; InvokePut 2 2 8 "j" "c" 4; Lock 2; Propose 2 0; Commit 0; Return 2; Append 2].

Definition sample_end : World KVServer Rep Clerk :=
  match krun sample_events MakeWorld with Some (Ret w) => w | _ => MakeWorld end.

Lemma kvraft_linearizable_witness :
  seq_linearizable (OpLog_Read (w_oplog sample_end)) ∧
  (λ o, (op_ClientId o, op_Call o, op_Return o, (out_Value (op_Output o), out_Err (op_Output o))))
    <$> OpLog_Read (w_oplog sample_end) =
    [(1, 0, 2, ("", "OK")); (2, 2, 3, ("", "OK")); (3, 1, 4, ("b", "OK")); (2, 4, 4, ("", "ErrNoKey"))]%string.
Proof.
  split; [|vm_compute; reflexivity].
  destruct (kvraft_linearizable sample_events (Ret sample_end)) as (w & Hw & H);
    [vm_compute; reflexivity|repeat constructor|vm_compute; reflexivity|].
  apply (inj Ret) in Hw. rewrite <-Hw in H. refine (proj1 (H _)). vm_compute. reflexivity.
Defined.

(** ** Without the assumption *)

(** Thread 2's put of another key is committed, and thread 1's [Submit] takes
    its result: thread 1's put is answered OK and was not executed. *)
Definition confused_puts : list (Event Empty_set) :=
  [NewClerk 7; NewClerk 8; InvokePut 1 1 7 "k" "a" 0; Lock 1; Propose 1 0; InvokePut 2 2 8 "j" "b" 0; Lock 2; Propose 2 0;
   Confuse 1 1; Return 1; Append 1; Return 2; Append 2; Tick 1; InvokeGet 3 3 "k"; Propose 3 0; Commit 1; Return 3; Append 3].

Definition confused_end : World KVServer Rep Clerk :=
  match krun confused_puts MakeWorld with Some (Ret w) => w | _ => MakeWorld end.

Theorem confused_put_lost :
  krun confused_puts MakeWorld = Some (Ret confused_end) ∧ w_threads confused_end = ∅ ∧
  ¬ linearizable (filter not_NoKey_put (OpLog_Read (w_oplog confused_end))).
Proof.
  split_and!; [vm_compute; reflexivity..|]. intros Hlin.
  destruct (Hlin (filter (λ o, op_key o = "k"%string) (OpLog_Read (w_oplog confused_end)))) as (lin & Hp & Ha & Hs).
  { vm_compute. by right; left. }
  apply Permutation_sym, (proj2 (permutations_Permutation _ _)) in Hp.
  assert (forallb (λ lin, negb (accepts Init lin) ||
      match lin with a :: b :: _ => bool_decide (op_Return b < op_Call a) | _ => false end)
    (permutations (filter (λ o, op_key o = "k"%string) (OpLog_Read (w_oplog confused_end)))) = true) as Hall
    by (vm_compute; reflexivity).
  rewrite forallb_forall in Hall. apply list_elem_of_In, Hall in Hp. rewrite Ha in Hp. cbn [negb orb] in Hp.
  destruct lin as [|a [|b lin]]; try discriminate Hp. apply bool_decide_eq_true in Hp.
  inversion Hs as [|? ? _ Hf]. by apply Forall_cons in Hf as [Hf _].
Qed.

(** A get that takes the result of a put: the handler's type assertion panics. *)
Theorem confused_call_panics :
  krun [NewClerk 8; InvokeGet 1 1 "k"; Propose 1 0; InvokePut 2 2 8 "j" "b" 0; Lock 2; Propose 2 0;
        Confuse 1 1; Return 1] MakeWorld = Some (Panic TypeAssertion).
Proof. vm_compute. reflexivity. Qed.
