(* ===== verification/ShardMoves.v ===== *)
(** * ShardMoves: the shard groups and the moves of their shards

    All groups of the sharded service ([src/src/shardkv/shardgrp/server.go]) and
    the goroutines of [migrateShards] in
    [src/src/shardkv/shardctrler/shardctrler.go] (lines 171-230), for any number
    of configurations.  A shard is moved again and again; a move is carried out
    by any number of controllers; the requests they send are executed at any
    later time, also when the controller has gone on or the shard has been moved
    again, and any number of times.  A group is one logical server here, which
    is what [Replicas.one_log_explains] is for.

    A configuration is made from the current one, with the next number, and
    becomes current when a controller has moved its shards ([ShardCtrler]); so
    here a move of a shard begins when a worker has finished the move before it,
    and goes from the group that move led to. *)

From S2P Require Import Prelude RpcApi KvModel KvSpec KvStore ShardCfg Persister Raft Rsm RsmFacts ShardGrp ShardGrpFacts Migration Linear ClerkLin.

#[global] Instance Worker_eq_dec : EqDecision Worker.
Proof. solve_decision. Defined.
#[global] Instance FreezeShardArgs_eq_dec : EqDecision FreezeShardArgs.
Proof. solve_decision. Defined.
#[global] Instance InstallShardArgs_eq_dec : EqDecision InstallShardArgs.
Proof. solve_decision. Defined.
#[global] Instance DeleteShardArgs_eq_dec : EqDecision DeleteShardArgs.
Proof. solve_decision. Defined.
#[global] Instance ShardReq_eq_dec : EqDecision Req.
Proof. solve_decision. Defined.

(** A move of a shard to another group for a configuration, the goroutines of
    the controllers that work on it, and the requests that have been proposed in
    the two groups. *)
Record Move := mkMove {
  mv_shard : Tshid; mv_num : Tnum; mv_from : Tgid; mv_to : Tgid; mv_workers : list Worker; mv_sent : list Req }.

(** The groups, the last move of every shard, and the moves before. *)
Record Groups := mkGroups { g_servers : gmap Tgid KVServer; g_cur : gmap Tshid Move; g_old : list Move }.

Definition group (G : Groups) (g : Tgid) : KVServer := default (initialServer g) (g_servers G !! g).

Definition set_group (g : Tgid) (kv : KVServer) (G : Groups) : Groups :=
  mkGroups (<[g := kv]> (g_servers G)) (g_cur G) (g_old G).

Definition move (m : Tshid + nat) (G : Groups) : option Move :=
  match m with inl sh => g_cur G !! sh | inr i => g_old G !! i end.

Definition set_move (m : Tshid + nat) (mv : Move) (G : Groups) : Groups :=
  match m with
  | inl sh => mkGroups (g_servers G) (<[sh := mv]> (g_cur G)) (g_old G)
  | inr i => mkGroups (g_servers G) (g_cur G) (<[i := mv]> (g_old G))
  end.

Definition set_workers (ws : list Worker) (mv : Move) : Move :=
  mkMove (mv_shard mv) (mv_num mv) (mv_from mv) (mv_to mv) ws (mv_sent mv).
Definition set_sent (reqs : list Req) (mv : Move) : Move :=
  mkMove (mv_shard mv) (mv_num mv) (mv_from mv) (mv_to mv) (mv_workers mv) reqs.

(** The request of the loop a worker is in. *)
Definition requestOf (mv : Move) (pc : Worker) : option Req :=
  match pc with
  | WFreeze => Some (ReqFreeze (mkFreezeArgs (mv_shard mv) (mv_num mv)))
  | WInstall data => Some (ReqInstall (mkInstallArgs (mv_shard mv) data (mv_num mv)))
  | WDelete => Some (ReqDelete (mkDeleteArgs (mv_shard mv) (mv_num mv)))
  | _ => None
  end.

Definition placeOf (mv : Move) (req : Req) : Tgid :=
  match req with ReqInstall _ => mv_to mv | _ => mv_from mv end.

(** The worker hears the reply: the handler's type assertion, the clerk of the
    group, and the end of the loop. *)
Definition hears (pc : Worker) (rep : Rep) : outcome Worker :=
  match pc with
  | WFreeze =>
      r ← FreezeShardHandler (OK, Some rep); Ret (afterCall (clerkErr (fzr_Err r)) false WFreeze (WInstall (fzr_State r)))
  | WInstall data =>
      r ← InstallShardHandler (OK, Some rep); Ret (afterCall (clerkErr (inr_Err r)) false (WInstall data) WDelete)
  | WDelete =>
      r ← DeleteShardHandler (OK, Some rep); Ret (afterCall (clerkErr (dlr_Err r)) false WDelete WDone)
  | _ => Ret pc
  end.

(** A move begins; a controller begins to work on a move; a worker's request is
    proposed; the [i]th proposed request is executed, and a worker that is in
    the loop of this request may hear the reply. *)
Inductive MoveEvent :=
| StartMove (sh : Tshid) (num : Tnum) (from to : Tgid)
| Join (m : Tshid + nat)
| Send (m : Tshid + nat) (w : nat)
| Execute (m : Tshid + nat) (i : nat) (heard : option nat).

Section moves.
Context `{!Codec ShardState}.

(** The shard can be moved from [from]. *)
Definition startable (cur : option Move) (num : Tnum) (from : Tgid) : Prop :=
  match cur with
  | None => 1 < num ∧ from = Gid1
  | Some mv => WDone ∈ mv_workers mv ∧ mv_num mv < num ∧ from = mv_to mv
  end.

#[global] Instance startable_dec cur num from : Decision (startable cur num from).
Proof. destruct cur; cbn; apply _. Defined.

(** The worker in the loop of [req], when it hears [rep].  A panic of its clerk
    stops the controller. *)
Definition hear (mv : Move) (req : Req) (rep : Rep) (heard : option nat) : option (outcome Move) :=
  match heard with
  | None => Some (Ret mv)
  | Some w =>
      pc ← mv_workers mv !! w;
      if decide (requestOf mv pc = Some req) then
        Some (pc ← hears pc rep;
              match pc with
              | WCrashed => Panic (GoPanic "undefined rpc error type")
              | _ => Ret (set_workers (<[w := pc]> (mv_workers mv)) mv)
              end)
      else None
  end.

(** A worker starts to move the shard; the move before it is over. *)
Definition startMove (sh : Tshid) (num : Tnum) (from to : Tgid) (G : Groups) : Groups :=
  mkGroups (g_servers G) (<[sh := mkMove sh num from to [] []]> (g_cur G))
    (g_old G ++ match g_cur G !! sh with Some mv => [mv] | None => [] end).

Definition joinMove (m : Tshid + nat) (mv : Move) (G : Groups) : Groups :=
  set_move m (set_workers (mv_workers mv ++ [WFreeze]) mv) G.

Definition gstep (ev : MoveEvent) (G : Groups) : option (outcome Groups) :=
  match ev with
  | StartMove sh num from to =>
      if decide ((0 ≤ sh < NShards ∧ from ≠ to) ∧ startable (g_cur G !! sh) num from) then
        Some (Ret (startMove sh num from to G))
      else None
  | Join m =>
      mv ← move m G; Some (Ret (joinMove m mv G))
  | Send m w =>
      mv ← move m G;
      pc ← mv_workers mv !! w;
      req ← requestOf mv pc;
      Some (Ret (set_move m (set_sent (mv_sent mv ++ [req]) mv) G))
  | Execute m i heard =>
      mv ← move m G;
      req ← mv_sent mv !! i;
      match ShardGrp.DoOp req (group G (placeOf mv req)) with
      | Panic f => Some (Panic f)
      | Ret (kv, rep) =>
          match hear mv req rep heard with
          | None => None
          | Some o => Some (mv ← o; Ret (set_move m mv (set_group (placeOf mv req) kv G)))
          end
      end
  end.

(** ** The invariant *)

Implicit Types (V : cells) (X : puts) (G : Groups) (mv : Move) (kv : KVServer) (sh : Tshid) (g : Tgid).

Definition clientsOf kv sh : gset Z := default ∅ (default None (shardClients kv !! Z.to_nat sh)).

(** What a group sends of its table when the shard moves. *)
Definition tableOf kv sh (c : Z) : option LastPut := if decide (c ∈ clientsOf kv sh) then lastOf kv c else None.

(** The entry is the result of an executed put. *)
Definition entry_ok X (c : Z) (lp : LastPut) : Prop :=
  ∃ a, X !! (c, lp_RequestId lp) = Some (a, put_Err (lp_Reply lp)).

(** The map has the shard's data, and no put of the shard is newer than the
    client's entry of the table. *)
Definition has_shard V X sh (m : kvmap) (T : Z → option LastPut) : Prop :=
  (∀ k, Key2Shard k = sh → V k = m !! k) ∧
  (∀ c rid a e, X !! (c, rid) = Some (a, e) → Key2Shard (put_Key a) = sh → ∃ lp, T c = Some lp ∧ rid ≤ lp_RequestId lp).

Definition holds V X sh kv : Prop := has_shard V X sh (shardMap kv sh) (tableOf kv sh).

(** The state of the shard, as a worker carries it. *)
Definition data_ok V X sh (data : bytes) : Prop :=
  ∃ m t, dec data = Some (mkShardState (Some m) (Some t)) ∧ has_shard V X sh m (t !!.) ∧
    ∀ c lp, t !! c = Some lp → entry_ok X c lp.

(** Not begun; the source has frozen the shard; the destination serves it. *)
Inductive Phase := Ready | Moving | Moved.

(** A request of the move. *)
Definition of_move mv (req : Req) : Prop :=
  match req with
  | ReqFreeze a => a = mkFreezeArgs (mv_shard mv) (mv_num mv)
  | ReqInstall a => in_Shard a = mv_shard mv ∧ in_Num a = mv_num mv
  | ReqDelete a => a = mkDeleteArgs (mv_shard mv) (mv_num mv)
  | _ => False
  end.

(** It may be sent or under way in the phase. *)
Definition possible V X mv (ph : Phase) (req : Req) : Prop :=
  of_move mv req ∧
  match req with
  | ReqInstall a => ph = Moved ∨ ph = Moving ∧ data_ok V X (mv_shard mv) (in_State a)
  | ReqDelete _ => ph = Moved
  | _ => True
  end.

Record cur_ok G V X sh mv (ph : Phase) : Prop := {
  co_shard : mv_shard mv = sh;
  co_ne : mv_from mv ≠ mv_to mv;
  co_sent req : req ∈ mv_sent mv → possible V X mv ph req;
  co_worker pc : pc ∈ mv_workers mv →
    (∀ req, requestOf mv pc = Some req → possible V X mv ph req) ∧
    (pc = WDone → ph = Moved ∧ status (group G (mv_from mv)) sh = Absent);
  co_others g : g ≠ mv_from mv → g ≠ mv_to mv → status (group G g) sh = Absent ∧ cfgNum (group G g) sh < mv_num mv;
  co_phase :
    let src := group G (mv_from mv) in let dst := group G (mv_to mv) in
    match ph with
    | Ready => (status src sh = Serving ∧ cfgNum src sh < mv_num mv ∧ holds V X sh src) ∧
               status dst sh = Absent ∧ cfgNum dst sh < mv_num mv
    | Moving => (status src sh = Frozen ∧ cfgNum src sh = mv_num mv ∧ holds V X sh src) ∧
                status dst sh = Absent ∧ cfgNum dst sh < mv_num mv
    | Moved => (status dst sh = Serving ∧ cfgNum dst sh = mv_num mv ∧ holds V X sh dst) ∧
               status src sh ≠ Serving ∧ cfgNum src sh = mv_num mv
    end }.

Definition unmoved G V X sh : Prop :=
  (status (group G Gid1) sh = Serving ∧ cfgNum (group G Gid1) sh ≤ 1 ∧ holds V X sh (group G Gid1)) ∧
  ∀ g, g ≠ Gid1 → status (group G g) sh = Absent ∧ cfgNum (group G g) sh ≤ 1.

Definition shard_ok G V X sh : Prop :=
  match g_cur G !! sh with
  | None => unmoved G V X sh
  | Some mv => ∃ ph, cur_ok G V X sh mv ph
  end.

(** The groups have gone past the move. *)
Record stale G mv : Prop := {
  st_range : in_range (mv_shard mv);
  st_sent req : req ∈ mv_sent mv → of_move mv req;
  st_from : mv_num mv ≤ cfgNum (group G (mv_from mv)) (mv_shard mv);
  st_deleted : cfgNum (group G (mv_from mv)) (mv_shard mv) = mv_num mv → status (group G (mv_from mv)) (mv_shard mv) = Absent;
  st_to : mv_num mv ≤ cfgNum (group G (mv_to mv)) (mv_shard mv);
  st_installed : cfgNum (group G (mv_to mv)) (mv_shard mv) = mv_num mv → status (group G (mv_to mv)) (mv_shard mv) = Serving }.

Record groups_inv G V X : Prop := {
  gi_server g : server_ok (group G g);
  gi_entry g c lp : lastOf (group G g) c = Some lp → entry_ok X c lp;
  gi_err i a e : X !! i = Some (a, e) → e ∈ [OK; ErrVersion; ErrNoKey];
  gi_range sh : is_Some (g_cur G !! sh) → in_range sh;
  gi_shard sh : in_range sh → shard_ok G V X sh;
  gi_old mv : mv ∈ g_old G → stale G mv }.

(** ** What an operation leaves alone *)

(** The entries of a table only get newer. *)
Definition table_grows kv kv' : Prop :=
  ∀ c lp, lastOf kv c = Some lp → ∃ lp', lastOf kv' c = Some lp' ∧ lp_RequestId lp ≤ lp_RequestId lp'.

(** The shard is as before. *)
Record frame sh kv kv' : Prop := {
  fr_status : status kv' sh = status kv sh;
  fr_cfgNum : cfgNum kv' sh = cfgNum kv sh;
  fr_map : shardMap kv' sh = shardMap kv sh;
  fr_clients : clientsOf kv sh ⊆ clientsOf kv' sh;
  fr_table : table_grows kv kv' }.

(** Puts of other shards may have been executed. *)
Definition grow sh V X V' X' : Prop :=
  (∀ k, Key2Shard k = sh → V' k = V k) ∧ X ⊆ X' ∧
  ∀ i a e, X' !! i = Some (a, e) → X !! i = Some (a, e) ∨ Key2Shard (put_Key a) ≠ sh.

(** Its configuration number goes up, or its status changes at most from Frozen
    to Absent. *)
Definition moves_on sh kv kv' : Prop :=
  cfgNum kv sh < cfgNum kv' sh ∨
  cfgNum kv' sh = cfgNum kv sh ∧ (status kv' sh = status kv sh ∨ status kv sh = Frozen ∧ status kv' sh = Absent).

#[global] Instance table_grows_refl : Reflexive table_grows.
Proof. intros kv c lp H. by exists lp. Qed.
#[global] Instance frame_refl sh : Reflexive (frame sh).
Proof. intros kv. by split. Qed.
#[global] Instance moves_on_refl sh : Reflexive (moves_on sh).
Proof. intros kv. right. auto. Qed.

Lemma grow_refl sh V X : grow sh V X V X.
Proof. split; [done|]. split; [done|]. auto. Qed.

Lemma frame_moves_on sh kv kv' : frame sh kv kv' → moves_on sh kv kv'.
Proof. intros []. right. auto. Qed.

Lemma entry_ok_mono X X' c lp : X ⊆ X' → entry_ok X c lp → entry_ok X' c lp.
Proof. intros Hsub [a Ha]. exists a. by eapply lookup_weaken. Qed.

Lemma has_shard_grow V X V' X' sh m m' T T' :
  grow sh V X V' X' → m' = m → (∀ c lp, T c = Some lp → ∃ lp', T' c = Some lp' ∧ lp_RequestId lp ≤ lp_RequestId lp') →
  has_shard V X sh m T → has_shard V' X' sh m' T'.
Proof.
  intros (HV & HX & Hnew) -> HT [Hm Hc]. split.
  - intros k Hk. rewrite HV by done. by apply Hm.
  - intros c rid a e Ha Hk. destruct (Hnew _ _ _ Ha) as [Hold|?]; [|done].
    destruct (Hc _ _ _ _ Hold Hk) as (lp & Hlp & Hle). destruct (HT _ _ Hlp) as (lp' & ? & ?). exists lp'. split; [done|lia].
Qed.

Lemma holds_frame V X V' X' sh kv kv' :
  grow sh V X V' X' → frame sh kv kv' → holds V X sh kv → holds V' X' sh kv'.
Proof.
  intros Hg []. apply has_shard_grow; [done|done|]. intros c lp. unfold tableOf. case_decide as Hc; [|done].
  intros Hlp. rewrite decide_True by (by apply fr_clients0). by apply fr_table0.
Qed.

Lemma data_ok_grow V X V' X' sh data : grow sh V X V' X' → data_ok V X sh data → data_ok V' X' sh data.
Proof.
  intros Hg (m & t & Hd & Hs & He). exists m, t. split; [done|]. split.
  - eapply has_shard_grow; [done|done| |exact Hs]. intros c lp ?. by exists lp.
  - intros c lp Hlp. eapply entry_ok_mono; [apply Hg|by apply He].
Qed.

Lemma possible_grow V X V' X' mv ph req :
  grow (mv_shard mv) V X V' X' → possible V X mv ph req → possible V' X' mv ph req.
Proof.
  intros Hg [Ho Hp]. split; [done|]. destruct req; try done.
  destruct Hp as [?|[? ?]]; [by left|right]. split; [done|]. by eapply data_ok_grow.
Qed.

Lemma cur_ok_frame G G' V X V' X' sh mv ph :
  (∀ g, frame sh (group G g) (group G' g)) → grow sh V X V' X' →
  cur_ok G V X sh mv ph → cur_ok G' V' X' sh mv ph.
Proof.
  intros Hfr Hg [Hsh Hne Hsent Hwk Hoth Hph]. assert (grow (mv_shard mv) V X V' X') as Hg' by (by rewrite Hsh). split; try done.
  - intros req Hr. eapply possible_grow; [done|by apply Hsent].
  - intros pc Hpc. destruct (Hwk pc Hpc) as [H1 H2]. split.
    + intros req Hr. eapply possible_grow; [done|by apply H1].
    + by rewrite (fr_status _ _ _ (Hfr _)).
  - intros g. rewrite (fr_status _ _ _ (Hfr g)), (fr_cfgNum _ _ _ (Hfr g)). apply Hoth.
  - cbn zeta in *. rewrite !(fr_status _ _ _ (Hfr _)), !(fr_cfgNum _ _ _ (Hfr _)).
    assert (∀ g, holds V X sh (group G g) → holds V' X' sh (group G' g)) as Hh by (intros g; apply holds_frame; [done|apply Hfr]).
    destruct ph; naive_solver.
Qed.

Lemma shard_ok_frame G G' V X V' X' sh :
  (∀ g, frame sh (group G g) (group G' g)) → g_cur G' !! sh = g_cur G !! sh → grow sh V X V' X' →
  shard_ok G V X sh → shard_ok G' V' X' sh.
Proof.
  intros Hfr Hcur Hg. unfold shard_ok. rewrite Hcur. destruct (g_cur G !! sh) as [mv|].
  - intros [ph Hc]. exists ph. by eapply cur_ok_frame.
  - intros [(Hs & Hc & Hh) Hoth]. split.
    + rewrite (fr_status _ _ _ (Hfr _)), (fr_cfgNum _ _ _ (Hfr _)). split_and!; try done.
      eapply holds_frame; [exact Hg|apply Hfr|exact Hh].
    + intros g Hne. rewrite (fr_status _ _ _ (Hfr _)), (fr_cfgNum _ _ _ (Hfr _)). by apply Hoth.
Qed.

Lemma stale_moves_on G G' mv :
  (∀ g, moves_on (mv_shard mv) (group G g) (group G' g)) → stale G mv → stale G' mv.
Proof.
  intros Hmo [Hr Hs Hf Hd Ht Hi]. pose proof (Hmo (mv_from mv)) as Hmf. pose proof (Hmo (mv_to mv)) as Hmt.
  unfold moves_on in *. split; try done; try lia.
  - intros E. destruct Hmf as [?|[E' [->|[_ ?]]]]; [lia| |done]. apply Hd. lia.
  - intros E. destruct Hmt as [?|[E' [->|[Hfz _]]]]; [lia|apply Hi; lia|]. rewrite Hi in Hfz by lia. done.
Qed.

(** The invariant after an operation on shard [sh] at group [g]. *)
Lemma groups_inv_op G V X V' X' G' g kv' sh :
  groups_inv G V X → (∀ g', group G' g' = if decide (g' = g) then kv' else group G g') →
  (∀ sh', sh' ≠ sh → g_cur G' !! sh' = g_cur G !! sh') → (is_Some (g_cur G' !! sh) → in_range sh) →
  (∀ mv, mv ∈ g_old G' → mv ∈ g_old G ∨ stale G mv) →
  server_ok kv' → (∀ c lp, lastOf kv' c = Some lp → entry_ok X' c lp) →
  (∀ sh', in_range sh' → sh' ≠ sh → frame sh' (group G g) kv' ∧ grow sh' V X V' X') →
  (∀ sh', in_range sh' → moves_on sh' (group G g) kv') → X ⊆ X' →
  (∀ i a e, X' !! i = Some (a, e) → e ∈ [OK; ErrVersion; ErrNoKey]) →
  (in_range sh → shard_ok G' V' X' sh) → groups_inv G' V' X'.
Proof.
  intros [Hsv Hen Her Hra Hsh Hol] Hgr Hcur Hrg Hold Hok Hent Hfr Hmo Hsub Herr Hshard. split.
  - intros g'. rewrite Hgr. by case_decide.
  - intros g' c lp. rewrite Hgr. case_decide; [apply Hent|]. intros Hlp. eapply entry_ok_mono; [done|]. by eapply Hen.
  - done.
  - intros sh' Hs. destruct (decide (sh' = sh)) as [->|Hne]; [by apply Hrg|]. apply Hra. by rewrite <-Hcur.
  - intros sh' Hr. destruct (decide (sh' = sh)) as [->|Hne]; [by apply Hshard|].
    destruct (Hfr sh' Hr Hne) as [Hf Hg]. eapply (shard_ok_frame G); [|by apply Hcur|exact Hg|by apply Hsh].
    intros g'. rewrite Hgr. case_decide; [by subst|done].
  - intros mv Hmv. assert (stale G mv) as Hst by (destruct (Hold mv Hmv); auto).
    eapply (stale_moves_on G); [|done]. intros g'. rewrite Hgr. case_decide; [subst|done]. apply Hmo, Hst.
Qed.

(** ** The operations of a group *)

Lemma shard_nat sh sh' : in_range sh → in_range sh' → sh' ≠ sh → Z.to_nat sh ≠ Z.to_nat sh'.
Proof. unfold in_range. lia. Qed.

(** A put that is newer than the client's entry. *)
Lemma shard_put_effect kv a :
  server_ok kv → let sh := Key2Shard (put_Key a) in status kv sh = Serving →
  (∀ lp, lastOf kv (cidOf a) = Some lp → lp_RequestId lp < ridOf a) →
  ∃ kv' e, ShardGrp.DoOp (ReqPut a) kv = Ret (kv', RepPut (mkPutReply e)) ∧ server_ok kv' ∧
    (shardMap kv' sh, e) = kv_put (shardMap kv sh) (put_Key a) (put_Value a) (put_Version a) ∧
    (∀ c, lastOf kv' c = if decide (c = cidOf a) then Some (mkLastPut (ridOf a) (mkPutReply e)) else lastOf kv c) ∧
    clientsOf kv' sh = {[cidOf a]} ∪ clientsOf kv sh ∧ status kv' sh = Serving ∧ cfgNum kv' sh = cfgNum kv sh ∧
    ∀ sh', in_range sh' → sh' ≠ sh → frame sh' kv kv'.
Proof.
  intros Hok sh E Hnew. pose proof (Key2Shard_range (put_Key a)) as Hsh. fold sh in Hsh.
  destruct (index_status kv _ Hok Hsh) as [Hi Hst]. rewrite E in Hst.
  destruct (ok_serving _ Hok _ Hst) as (m & cs & Hm & Hcs). destruct (ok_last _ Hok) as [t Ht].
  destruct (executePut_ok kv sh a Hok Hsh Hst) as (kv1 & r1 & Hex1 & Hok1).
  pose proof (shard_executePut_spec kv sh a m t cs Hok Hsh Hm Ht Hcs) as Hspec.
  assert (shardMap kv sh = m) as Hmap by (unfold shardMap; by rewrite Hm).
  destruct (kv_put m (put_Key a) (put_Value a) (put_Version a)) as [m' e] eqn:Ep.
  rewrite Hspec in Hex1. injection Hex1 as <- <-. eexists _, e. split.
  { cbn. unfold doPut. fold sh. rewrite Hi, E. cbn -[executePut]. rewrite decide_False by tauto. unfold lastOf in Hnew.
    destruct (map_get (lastPutByClientId kv) (cidOf a)) as [lp|] eqn:El; [|by rewrite Hspec].
    specialize (Hnew lp eq_refl). rewrite decide_False by lia. by rewrite Hspec. }
  assert (∀ c, lastOf kv c = t !! c) as Hlast by (intros c; unfold lastOf; by rewrite Ht).
  split; [done|]. split; [|split; [|split; [|split_and!; [by rewrite <-E|done|]]]].
  - rewrite Hmap, Ep. unfold shardMap. cbn. by rewrite list_lookup_insert_eq by (by eapply lookup_lt_Some).
  - intros c. rewrite Hlast. unfold lastOf. cbn. case_decide as Ec; [subst; apply lookup_insert_eq|by apply lookup_insert_ne].
  - unfold clientsOf. cbn. rewrite Hcs, list_lookup_insert_eq by (by eapply lookup_lt_Some). done.
  - intros sh' Hr Hne. split; try done.
    + unfold shardMap. cbn. by rewrite list_lookup_insert_ne by (by apply shard_nat).
    + unfold clientsOf. cbn. by rewrite list_lookup_insert_ne by (by apply shard_nat).
    + intros c lp Hlp. rewrite Hlast in Hlp. unfold lastOf. cbn. destruct (decide (c = cidOf a)) as [->|Ec].
      * rewrite lookup_insert_eq. eexists. split; [done|]. cbn. rewrite Hlast in Hnew. specialize (Hnew lp Hlp). lia.
      * rewrite lookup_insert_ne by done. by exists lp.
Qed.

Lemma frozen_frame kv sh num sh' :
  server_ok kv → in_range sh → in_range sh' → sh' ≠ sh → frame sh' kv (frozen kv sh num).
Proof.
  intros Hok Hr Hr' Hne. split; [..|done|done|exact (table_grows_refl kv)]; unfold frozen;
    rewrite ?status_insert, ?cfgNum_insert by done; by rewrite decide_False.
Qed.

Lemma deleted_frame kv sh num sh' :
  server_ok kv → in_range sh → in_range sh' → sh' ≠ sh → frame sh' kv (deleted kv sh num).
Proof.
  intros Hok Hr Hr' Hne. split; [..|exact (table_grows_refl kv)]; unfold deleted;
    rewrite ?status_insert, ?cfgNum_insert by done; try (by rewrite decide_False).
  - unfold shardMap. cbn. by rewrite list_lookup_insert_ne by (by apply shard_nat).
  - unfold clientsOf. cbn. by rewrite list_lookup_insert_ne by (by apply shard_nat).
Qed.

Lemma newer_grows o lp : ∃ lp', Some (newer o lp) = Some lp' ∧
  lp_RequestId lp ≤ lp_RequestId lp' ∧ ∀ lo, o = Some lo → lp_RequestId lo ≤ lp_RequestId lp'.
Proof.
  eexists. split; [done|]. unfold newer. destruct o as [o|]; [case_decide|]; (split; [lia|]); intros lo [= <-]; lia.
Qed.

Lemma installed_frame kv sh num ss t t' sh' :
  server_ok kv → in_range sh → in_range sh' → sh' ≠ sh → lastPutByClientId kv = Some t →
  merged_table t (default ∅ (ss_LastPutByClientId ss)) t' → frame sh' kv (installed kv sh num ss t').
Proof.
  intros Hok Hr Hr' Hne Ht Hm. split; unfold installed; rewrite ?status_insert, ?cfgNum_insert by done;
    try (by rewrite decide_False).
  - unfold shardMap. cbn. by rewrite list_lookup_insert_ne by (by apply shard_nat).
  - unfold clientsOf. cbn. by rewrite list_lookup_insert_ne by (by apply shard_nat).
  - intros c lp. unfold lastOf. rewrite Ht. cbn. intros Hlp. rewrite Hm.
    destruct (default ∅ (ss_LastPutByClientId ss) !! c) as [lp1|]; [|by exists lp].
    destruct (newer_grows (t !! c) lp1) as (lp' & -> & _ & H). exists lp'. split; [done|]. by apply H.
Qed.

(** What is sent is what the group holds; what is installed is held. *)
Lemma sent_data_ok V X sh kv :
  in_range sh → server_ok kv → (∀ c lp, lastOf kv c = Some lp → entry_ok X c lp) → holds V X sh kv →
  data_ok V X sh (enc (shardState kv (Z.to_nat sh))).
Proof.
  intros Hr Hok Hent [Hm Hc]. eexists _, _. split; [apply dec_enc|].
  assert (∀ c, filter (λ p : Z * LastPut, p.1 ∈ clientsOf kv sh) (default ∅ (lastPutByClientId kv)) !! c = tableOf kv sh c) as Htb.
  { intros c. unfold tableOf, lastOf. destruct (ok_last _ Hok) as [t ->]. cbn. rewrite map_lookup_filter. case_decide as E.
    - destruct (t !! c); [|done]. cbn. by rewrite option_guard_True.
    - destruct (t !! c); [|done]. cbn. by rewrite option_guard_False. }
  split; [split; [done|]|].
  - intros c rid a e Ha Hk. rewrite Htb. by eapply Hc.
  - intros c lp. rewrite Htb. unfold tableOf. case_decide; [apply Hent|done].
Qed.

Lemma installed_holds V X sh num kv m t t0 t' :
  in_range sh → server_ok kv → lastPutByClientId kv = Some t0 → has_shard V X sh m (t !!.) → merged_table t0 t t' →
  holds V X sh (installed kv sh num (mkShardState (Some m) (Some t)) t').
Proof.
  intros Hr Hok Ht [Hm Hc] Hmt. split.
  - by rewrite shardMap_installed.
  - intros c rid a e Ha Hk. destruct (Hc _ _ _ _ Ha Hk) as (lp & Hlp & Hle). unfold tableOf, clientsOf. cbn.
    rewrite list_lookup_insert_eq by (rewrite (ok_shardClients _ Hok); by apply in_range_nat). cbn.
    rewrite decide_True by (by eapply elem_of_dom_2). unfold lastOf. cbn. rewrite Hmt, Hlp.
    destruct (newer_grows (t0 !! c) lp) as (lp' & -> & ? & _). exists lp'. split; [done|lia].
Qed.

Lemma installed_entries X sh num kv ss t0 t' :
  lastPutByClientId kv = Some t0 → merged_table t0 (default ∅ (ss_LastPutByClientId ss)) t' →
  (∀ c lp, lastOf kv c = Some lp → entry_ok X c lp) →
  (∀ c lp, default ∅ (ss_LastPutByClientId ss) !! c = Some lp → entry_ok X c lp) →
  ∀ c lp, lastOf (installed kv sh num ss t') c = Some lp → entry_ok X c lp.
Proof.
  intros Ht Hm H1 H2 c lp. unfold lastOf in *. rewrite Ht in H1. cbn in *. rewrite Hm.
  destruct (default ∅ (ss_LastPutByClientId ss) !! c) as [lp1|] eqn:E; [|apply H1]. intros [= <-].
  unfold newer. destruct (t0 !! c) as [o|] eqn:Eo; [case_decide|]; by eauto.
Qed.

(** ** Requests of a move *)

Definition replies_OK (req : Req) (rep : Rep) : Prop :=
  match req, rep with
  | ReqFreeze _, RepFreeze r => fzr_Err r = OK
  | ReqInstall _, RepInstall r => inr_Err r = OK
  | ReqDelete _, RepDelete r => dlr_Err r = OK
  | _, _ => False
  end.

(** Where the worker is after it has heard the reply. *)
Definition afterReply (pc : Worker) (rep : Rep) : Worker :=
  match pc, rep with
  | WFreeze, RepFreeze r => WInstall (fzr_State r)
  | WInstall _, _ => WDelete
  | WDelete, _ => WDone
  | _, _ => pc
  end.

Lemma hear_OK mv req rep heard o :
  replies_OK req rep → hear mv req rep heard = Some o →
  ∃ mv', o = Ret mv' ∧ (mv' = mv ∨ ∃ w pc, mv_workers mv !! w = Some pc ∧ requestOf mv pc = Some req ∧
    mv' = set_workers (<[w := afterReply pc rep]> (mv_workers mv)) mv).
Proof.
  intros Hrep. unfold hear. destruct heard as [w|]; [|intros [= <-]; exists mv; auto].
  destruct (mv_workers mv !! w) as [pc|] eqn:Ew; [|done]. cbn. case_decide as Er; [|done]. intros [= <-].
  eexists. split; [|right; exists w, pc; split_and!; done]. destruct pc; try done; cbn in Er; injection Er as <-;
    destruct rep as [| |r|r|r|]; try done; cbn in Hrep;
    unfold hears, FreezeShardHandler, InstallShardHandler, DeleteShardHandler; rewrite decide_True by done; cbn; by rewrite Hrep.
Qed.

(** A request of a move that is over changes nothing and is answered OK. *)
Lemma stale_exec G mv req :
  stale G mv → (∀ g, server_ok (group G g)) → of_move mv req →
  ∃ rep, ShardGrp.DoOp req (group G (placeOf mv req)) = Ret (group G (placeOf mv req), rep) ∧ replies_OK req rep.
Proof.
  intros [Hr _ Hf Hd Ht Hi] Hok Hof. destruct req as [| |a|a|a|]; try done; cbn in Hof |- *.
  - subst a. rewrite FreezeShard_spec by done. cbn. rewrite decide_False by lia. case_decide as E; [|by eexists].
    rewrite Hd by done. by eexists.
  - destruct Hof as [E1 E2]. unfold ShardGrp.InstallShard. rewrite E1, E2. rewrite decide_False by lia.
    case_decide as E; [|by eexists]. destruct (index_status (group G (mv_to mv)) (mv_shard mv)) as [-> _]; [done|done|].
    cbn. rewrite Hi by done. by eexists.
  - subst a. rewrite DeleteShard_spec by done. cbn. case_decide as E; [rewrite Hd by done; by eexists|].
    rewrite decide_False by lia. by eexists.
Qed.

(** An operation on shard [sh] at group [g], as [groups_inv_op] needs it. *)
Record op_ok G X sh g kv : Prop := {
  oo_server : server_ok kv;
  oo_entry c lp : lastOf kv c = Some lp → entry_ok X c lp;
  oo_frame sh' : in_range sh' → sh' ≠ sh → frame sh' (group G g) kv;
  oo_moves : moves_on sh (group G g) kv }.

Lemma op_ok_same G V X sh g : groups_inv G V X → op_ok G X sh g (group G g).
Proof. intros HI. split; [apply HI|apply HI|done|done]. Qed.

(** What is proved of executing a request of the current move. *)
Definition executes G V X sh mv req kv rep ph : Prop :=
  ShardGrp.DoOp req (group G (placeOf mv req)) = Ret (kv, rep) ∧ replies_OK req rep ∧ op_ok G X sh (placeOf mv req) kv ∧
  cur_ok (set_group (placeOf mv req) kv G) V X sh mv ph ∧
  ∀ pc, requestOf mv pc = Some req →
    (∀ req', requestOf mv (afterReply pc rep) = Some req' → possible V X mv ph req') ∧
    (afterReply pc rep = WDone → ph = Moved ∧ status (group (set_group (placeOf mv req) kv G) (mv_from mv)) sh = Absent).

Lemma group_set g kv G g' : group (set_group g kv G) g' = if decide (g' = g) then kv else group G g'.
Proof.
  unfold group. cbn. case_decide as E; [subst; by rewrite lookup_insert_eq|by rewrite lookup_insert_ne].
Qed.

Lemma group_set_same G g g' : group (set_group g (group G g) G) g' = group G g'.
Proof. rewrite group_set. by case_decide; subst. Qed.

Lemma cur_ok_same G V X sh mv ph g : cur_ok G V X sh mv ph → cur_ok (set_group g (group G g) G) V X sh mv ph.
Proof. apply cur_ok_frame; [|apply grow_refl]. intros g'. by rewrite group_set_same. Qed.

Section current.
Context G V X sh mv (HI : groups_inv G V X) (Hr : in_range sh).

(** The request changes nothing. *)
Lemma executes_same ph req rep :
  cur_ok G V X sh mv ph → ShardGrp.DoOp req (group G (placeOf mv req)) = Ret (group G (placeOf mv req), rep) →
  replies_OK req rep →
  (∀ pc, requestOf mv pc = Some req →
    (∀ req', requestOf mv (afterReply pc rep) = Some req' → possible V X mv ph req') ∧
    (afterReply pc rep = WDone → ph = Moved ∧ status (group G (mv_from mv)) sh = Absent)) →
  executes G V X sh mv req (group G (placeOf mv req)) rep ph.
Proof.
  intros Hc Hdo Hrep Hpc. split; [done|]. split; [done|]. split; [by eapply op_ok_same|].
  split; [by apply cur_ok_same|]. intros pc H. rewrite group_set_same. by apply Hpc.
Qed.

Lemma freeze_executes ph :
  cur_ok G V X sh mv ph → ∃ kv rep ph', executes G V X sh mv (ReqFreeze (mkFreezeArgs sh (mv_num mv))) kv rep ph'.
Proof.
  intros Hc. pose proof Hc as [Hs Hne Hsent Hwk Hoth Hph]. set (src := group G (mv_from mv)) in *.
  pose proof (gi_server _ _ _ HI (mv_from mv)) as Hok. fold src in Hok.
  assert (∀ ph' data, ph' = Moved ∨ ph' = Moving ∧ data_ok V X sh data →
    ∀ pc, requestOf mv pc = Some (ReqFreeze (mkFreezeArgs sh (mv_num mv))) →
    (∀ req', requestOf mv (afterReply pc (RepFreeze (mkFreezeReply data (mv_num mv) OK))) = Some req' → possible V X mv ph' req') ∧
    (afterReply pc (RepFreeze (mkFreezeReply data (mv_num mv) OK)) = WDone → False)) as Hafter.
  { intros ph' data Hd pc Hpc. destruct pc; try done. split; [|done]. intros req' [= <-]. split; [done|]. cbn. by rewrite Hs. }
  assert (holds V X sh src → data_ok V X sh (enc (shardState src (Z.to_nat sh)))) as Hdata.
  { intros Hh. apply sent_data_ok; [done|done|apply HI|done]. }
  pose proof (FreezeShard_spec src (mkFreezeArgs sh (mv_num mv)) Hok Hr) as Hf. cbn -[enc] in Hf.
  destruct ph; cbn zeta in Hph; fold src in Hph.
  - destruct Hph as ((Hst & Hn & Hh) & Hd). rewrite decide_True, Hst in Hf by done.
    eexists _, _, Moving. split; [cbn; fold src; rewrite Hf; done|]. split; [done|]. split; [|split].
    + split; cbn; [by apply frozen_ok|apply HI|intros; by apply frozen_frame|]. left. unfold frozen.
      rewrite cfgNum_insert, decide_True by done. done.
    + destruct (status_after sh (mv_num mv) Hr src (mkShardState None None) ∅ Hok) as ([Hst' Hn'] & _).
      split; try done.
      * intros req Hq. destruct (Hsent req Hq) as [? Hp]. split; [done|]. destruct req; try done. by destruct Hp as [|[? _]].
      * intros pc Hpc. destruct (Hwk pc Hpc) as [H1 H2]. split; [|intros E; by destruct (H2 E)].
        intros req Hq. destruct (H1 req Hq) as [? Hp]. split; [done|]. destruct req; try done. by destruct Hp as [|[? _]].
      * intros g Hg1 Hg2. rewrite group_set. cbn. rewrite decide_False by done. by apply Hoth.
      * cbn zeta. rewrite !group_set. cbn. rewrite decide_True, decide_False by done.
        split; [split; [done|split; [done|exact Hh]]|exact Hd].
    + intros pc Hpc. destruct (Hafter Moving (enc (shardState src (Z.to_nat sh))) ltac:(right; auto) pc Hpc) as [? H2].
      split; [done|]. intros E. by destruct (H2 E).
  - destruct Hph as ((Hst & Hn & Hh) & Hd). rewrite decide_False, decide_True, Hst in Hf by lia.
    eexists _, _, Moving. eapply executes_same; [done|cbn; fold src; by rewrite Hf|done|].
    intros pc Hpc. destruct (Hafter Moving (enc (shardState src (Z.to_nat sh))) ltac:(right; auto) pc Hpc) as [? H2].
    split; [done|]. intros E. by destruct (H2 E).
  - destruct Hph as (_ & Hst & Hn). rewrite decide_False, decide_True in Hf by lia.
    assert (∃ data, ShardGrp.FreezeShard (mkFreezeArgs sh (mv_num mv)) src = Ret (src, mkFreezeReply data (mv_num mv) OK))
      as [data Hf'] by (rewrite Hf; destruct (status src sh); [by eexists|done|by eexists]).
    eexists _, _, Moved. eapply executes_same; [done|cbn; fold src; by rewrite Hf'|done|].
    intros pc Hpc. destruct (Hafter Moved data ltac:(by left) pc Hpc) as [? H2]. split; [done|]. intros E. by destruct (H2 E).
Qed.

Lemma install_executes ph a :
  cur_ok G V X sh mv ph → possible V X mv ph (ReqInstall a) → ∃ kv rep ph', executes G V X sh mv (ReqInstall a) kv rep ph'.
Proof.
  intros Hc [[Ea En] Hp]. pose proof Hc as [Hs Hne Hsent Hwk Hoth Hph]. set (dst := group G (mv_to mv)) in *.
  pose proof (gi_server _ _ _ HI (mv_to mv)) as Hok. fold dst in Hok. rewrite Hs in Ea.
  assert (∀ pc rep, requestOf mv pc = Some (ReqInstall a) → afterReply pc rep = WDelete) as Hafter by (by intros []).
  assert (∀ kv rep, replies_OK (ReqInstall a) rep → ShardGrp.DoOp (ReqInstall a) dst = Ret (kv, rep) → op_ok G X sh (mv_to mv) kv →
    cur_ok (set_group (mv_to mv) kv G) V X sh mv Moved → executes G V X sh mv (ReqInstall a) kv rep Moved) as Hex.
  { intros kv rep Hrep Hdo Hop Hc'. do 4 (split; [done|]). intros pc Hpc. rewrite (Hafter pc rep Hpc). split; [|done].
    intros req' [= <-]. split; [done|]. done. }
  destruct ph; [by destruct Hp as [|[? _]]|..]; cbn zeta in Hph; fold dst in Hph.
  - destruct Hp as [|[_ (m & t & Hd & Hh & He)]]; [done|]. destruct Hph as ((Hst & Hn & _) & Hda & Hdn).
    destruct (ok_last _ Hok) as [t0 Ht0]. rewrite Hs in Hh.
    destruct (InstallShard_spec dst a _ t0 Hok ltac:(by rewrite Ea) Hd Ht0) as (t' & Hm & Hdo). cbn zeta in Hdo.
    rewrite Ea, En, decide_True, Hda in Hdo by done. eexists _, (RepInstall (mkInstallReply OK)), Moved. apply Hex; [done|cbn; by rewrite Hdo|..].
    + split; cbn; fold dst; [by eapply installed_ok| |intros; by eapply installed_frame|].
      * eapply (installed_entries X sh (mv_num mv)); [done|done|exact (gi_entry _ _ _ HI (mv_to mv))|done].
      * left. unfold installed. rewrite cfgNum_insert, decide_True by done. done.
    + destruct (status_after sh (mv_num mv) Hr dst (mkShardState (Some m) (Some t)) t' Hok) as (_ & [Hst' Hn'] & _).
      split; try done.
      * intros req Hq. destruct (Hsent req Hq) as [? Hp']. split; [done|]. destruct req; try done. by left.
      * intros pc Hpc. destruct (Hwk pc Hpc) as [H1 H2]. split; [|intros E; by destruct (H2 E)].
        intros req Hq. destruct (H1 req Hq) as [? Hp']. split; [done|]. destruct req; try done. by left.
      * intros g Hg1 Hg2. rewrite group_set, decide_False by done. by apply Hoth.
      * cbn zeta. rewrite !group_set, decide_True, decide_False by done. split; [|by rewrite Hst].
        split; [done|]. split; [done|]. by eapply installed_holds.
  - destruct Hph as ((Hst & Hn & _) & _). exists dst, (RepInstall (mkInstallReply OK)), Moved.
    apply Hex; [done|..|by eapply op_ok_same|by apply cur_ok_same].
    cbn. unfold ShardGrp.InstallShard. rewrite Ea, En, decide_False, decide_True by lia.
    destruct (index_status dst sh Hok Hr) as [-> _]. cbn. by rewrite Hst.
Qed.

Lemma delete_executes ph :
  cur_ok G V X sh mv ph → ph = Moved → ∃ kv rep ph', executes G V X sh mv (ReqDelete (mkDeleteArgs sh (mv_num mv))) kv rep ph'.
Proof.
  intros Hc ->. pose proof Hc as [Hs Hne Hsent Hwk Hoth Hph]. set (src := group G (mv_from mv)) in *.
  pose proof (gi_server _ _ _ HI (mv_from mv)) as Hok. fold src in Hok. cbn zeta in Hph. fold src in Hph.
  destruct Hph as (Hd & Hst & Hn).
  pose proof (DeleteShard_spec src (mkDeleteArgs sh (mv_num mv)) Hok Hr) as Hdo. cbn in Hdo. rewrite decide_True in Hdo by done.
  assert (∀ pc rep, requestOf mv pc = Some (ReqDelete (mkDeleteArgs sh (mv_num mv))) → afterReply pc rep = WDone) as Hafter by (by intros []).
  destruct (status src sh) eqn:Est; [|done|]; eexists _, _, Moved.
  - eapply executes_same; [done|cbn; fold src; by rewrite Hdo|done|]. intros pc Hpc. rewrite (Hafter pc _ Hpc). by split.
  - destruct (status_after sh (mv_num mv) Hr src (mkShardState None None) ∅ Hok) as (_ & _ & [Hst' Hn']).
    split; [cbn; fold src; rewrite Hdo; done|]. split; [done|]. split; [|split].
    + split; cbn; fold src; [by apply deleted_ok|apply HI|intros; by apply deleted_frame|]. right.
      rewrite Hst', Hn', Est. auto.
    + cbn. split; try done.
      * intros pc Hpc. destruct (Hwk pc Hpc) as [H1 H2]. split; [done|]. intros _. split; [done|]. by rewrite group_set, decide_True.
      * intros g Hg1 Hg2. rewrite group_set, decide_False by done. by apply Hoth.
      * cbn zeta. rewrite !group_set, decide_False, decide_True by done. by rewrite Hst'.
    + intros pc Hpc. rewrite (Hafter pc _ Hpc). split; [done|]. intros _. split; [done|]. cbn.
      by rewrite group_set, decide_True.
Qed.

Lemma current_executes ph req :
  cur_ok G V X sh mv ph → possible V X mv ph req → ∃ kv rep ph', executes G V X sh mv req kv rep ph'.
Proof.
  intros Hc Hp. pose proof Hp as [Hof Hp']. pose proof (co_shard _ _ _ _ _ _ Hc) as Hs.
  destruct req as [| |a|a|a|]; try done; cbn in Hof.
  - subst a. rewrite Hs. by eapply freeze_executes.
  - by eapply install_executes.
  - subst a. rewrite Hs. by eapply delete_executes.
Qed.
End current.

(** ** The events *)

Lemma elem_of_insert_inv {A} (l : list A) i x y : y ∈ <[i := x]> l → y = x ∨ y ∈ l.
Proof.
  intros [j Hj]%list_elem_of_lookup. apply list_lookup_insert_Some in Hj as [(_ & -> & _)|[_ Hj]]; [by left|right].
  by eapply list_elem_of_lookup_2.
Qed.

(** The groups do not change. *)
Lemma groups_inv_same G G' V X sh :
  groups_inv G V X → (∀ g, group G' g = group G g) → (∀ sh', sh' ≠ sh → g_cur G' !! sh' = g_cur G !! sh') →
  (is_Some (g_cur G' !! sh) → in_range sh) → (∀ mv, mv ∈ g_old G' → mv ∈ g_old G ∨ stale G mv) →
  (in_range sh → shard_ok G' V X sh) → groups_inv G' V X.
Proof.
  intros HI Hgr Hcur Hrg Hold Hs. eapply (groups_inv_op G V X V X _ Gid1 (group G Gid1) sh); try done; try apply HI.
  - intros g'. rewrite Hgr. by case_decide; subst.
  - intros sh' _ _. split; [done|apply grow_refl].
Qed.

Lemma groups_inv_cur G V X sh mv mv' ph :
  groups_inv G V X → g_cur G !! sh = Some mv → cur_ok G V X sh mv' ph → groups_inv (set_move (inl sh) mv' G) V X.
Proof.
  intros HI Hmv Hc. assert (in_range sh) as Hr by (apply HI; by rewrite Hmv).
  eapply (groups_inv_same G _ _ _ sh); try done; cbn.
  - intros sh' Hne. by apply lookup_insert_ne.
  - auto.
  - intros _. unfold shard_ok. cbn. rewrite lookup_insert_eq. exists ph. eapply cur_ok_frame; [|apply grow_refl|exact Hc]. done.
Qed.

Lemma groups_inv_old G V X i mv mv' :
  groups_inv G V X → g_old G !! i = Some mv → stale G mv' → groups_inv (set_move (inr i) mv' G) V X.
Proof.
  intros HI Hmv Hst. eapply (groups_inv_same G _ _ _ (-1)); try done; cbn.
  - apply HI.
  - intros mv0 [->|H]%elem_of_insert_inv; [by right|by left].
  - unfold in_range. lia.
Qed.

Lemma set_workers_cur G V X sh mv ph ws :
  cur_ok G V X sh mv ph →
  (∀ pc, pc ∈ ws → pc ∈ mv_workers mv ∨
    (∀ req, requestOf mv pc = Some req → possible V X mv ph req) ∧
    (pc = WDone → ph = Moved ∧ status (group G (mv_from mv)) sh = Absent)) →
  cur_ok G V X sh (set_workers ws mv) ph.
Proof.
  intros [Hs Hne Hsent Hwk Hoth Hph] Hws. split; try done. intros pc Hpc. destruct (Hws pc Hpc) as [H|H]; [by apply Hwk|done].
Qed.

Lemma set_sent_cur G V X sh mv ph reqs :
  cur_ok G V X sh mv ph → (∀ req, req ∈ reqs → possible V X mv ph req) → cur_ok G V X sh (set_sent reqs mv) ph.
Proof. intros [Hs Hne Hsent Hwk Hoth Hph] Hq. by split. Qed.

Lemma set_stale G mv mv' :
  stale G mv → mv_shard mv' = mv_shard mv → mv_num mv' = mv_num mv → mv_from mv' = mv_from mv → mv_to mv' = mv_to mv →
  (∀ req, req ∈ mv_sent mv' → of_move mv req) → stale G mv'.
Proof.
  intros [Hr Hs Hf Hd Ht Hi] E1 E2 E3 E4 Hq. split; rewrite ?E1, ?E2, ?E3, ?E4; try done.
  intros req H. specialize (Hq req H). destruct req; try done; cbn in *; by rewrite E1, E2.
Qed.

Lemma requestOf_move mv pc req : requestOf mv pc = Some req → of_move mv req.
Proof. by destruct pc; intros [= <-]. Qed.

(** The move is the current one of its shard, or it is over. *)
Lemma move_cases G V X m mv :
  groups_inv G V X → move m G = Some mv →
  (∃ sh ph, m = inl sh ∧ in_range sh ∧ g_cur G !! sh = Some mv ∧ cur_ok G V X sh mv ph) ∨
  (∃ i, m = inr i ∧ g_old G !! i = Some mv ∧ stale G mv).
Proof.
  intros HI. destruct m as [sh|i]; cbn; intros Hmv.
  - left. assert (in_range sh) as Hr by (apply HI; by rewrite Hmv).
    pose proof (gi_shard _ _ _ HI sh Hr) as Hs. unfold shard_ok in Hs. rewrite Hmv in Hs. destruct Hs as [ph Hc]. by exists sh, ph.
  - right. exists i. split; [done|]. split; [done|]. apply HI. by eapply list_elem_of_lookup_2.
Qed.

Lemma join_preserves G V X m mv :
  groups_inv G V X → move m G = Some mv → groups_inv (joinMove m mv G) V X.
Proof.
  intros HI Hmv. destruct (move_cases _ _ _ _ _ HI Hmv) as [(sh & ph & -> & Hr & Hcur & Hc)|(i & -> & Hold & Hst)].
  - eapply groups_inv_cur; [done|done|]. apply set_workers_cur; [exact Hc|]. intros pc [H|H]%elem_of_app; [by left|right].
    apply list_elem_of_singleton in H as ->. split; [|done]. intros req [= <-]. by split.
  - eapply groups_inv_old; [done|done|]. eapply set_stale; try done. by apply Hst.
Qed.

Lemma send_preserves G V X m mv w pc req :
  groups_inv G V X → move m G = Some mv → mv_workers mv !! w = Some pc → requestOf mv pc = Some req →
  groups_inv (set_move m (set_sent (mv_sent mv ++ [req]) mv) G) V X.
Proof.
  intros HI Hmv Hw Hreq. destruct (move_cases _ _ _ _ _ HI Hmv) as [(sh & ph & -> & Hr & Hcur & Hc)|(i & -> & Hold & Hst)].
  - eapply groups_inv_cur; [done|done|]. apply set_sent_cur; [exact Hc|]. intros q [H|H]%elem_of_app; [by eapply co_sent|].
    apply list_elem_of_singleton in H as ->. eapply (co_worker _ _ _ _ _ _ Hc pc); [by eapply list_elem_of_lookup_2|done].
  - eapply groups_inv_old; [done|done|]. eapply set_stale; try done. cbn. intros q [H|H]%elem_of_app; [by eapply st_sent|].
    apply list_elem_of_singleton in H as ->. by eapply requestOf_move.
Qed.

Lemma groups_inv_set_same G V X g : groups_inv G V X → groups_inv (set_group g (group G g) G) V X.
Proof.
  intros HI. eapply (groups_inv_same G _ _ _ (-1)); try done; [apply group_set_same|apply HI|auto|unfold in_range; lia].
Qed.

Lemma execute_preserves G V X m mv req heard :
  groups_inv G V X → move m G = Some mv → req ∈ mv_sent mv →
  ∃ kv rep, ShardGrp.DoOp req (group G (placeOf mv req)) = Ret (kv, rep) ∧
    ∀ o, hear mv req rep heard = Some o →
      ∃ mv', o = Ret mv' ∧ placeOf mv' req = placeOf mv req ∧ groups_inv (set_move m mv' (set_group (placeOf mv req) kv G)) V X.
Proof.
  intros HI Hmv Hreq. destruct (move_cases _ _ _ _ _ HI Hmv) as [(sh & ph & -> & Hr & Hcur & Hc)|(i & -> & Hold & Hst)].
  - destruct (current_executes G V X sh mv HI Hr ph req Hc (co_sent _ _ _ _ _ _ Hc req Hreq))
      as (kv & rep & ph' & Hdo & Hrep & [Hok Hent Hfr Hmo] & Hc' & Hpc).
    exists kv, rep. split; [done|]. intros o Ho. destruct (hear_OK _ _ _ _ _ Hrep Ho) as (mv' & -> & Hmv').
    exists mv'. split; [done|]. split; [destruct Hmv' as [->|(? & ? & _ & _ & ->)]; [done|by destruct req]|].
    eapply (groups_inv_op G V X V X _ (placeOf mv req) kv sh); try done; cbn.
    + intros g'. apply group_set.
    + intros sh' Hne. by apply lookup_insert_ne.
    + auto.
    + intros sh' Hr' Hne. split; [by apply Hfr|apply grow_refl].
    + intros sh' Hr'. destruct (decide (sh' = sh)) as [->|Hne]; [done|]. by apply frame_moves_on, Hfr.
    + apply HI.
    + intros _. unfold shard_ok. cbn. rewrite lookup_insert_eq. exists ph'.
      assert (cur_ok (set_group (placeOf mv req) kv G) V X sh mv' ph') as Hc1.
      { destruct Hmv' as [->|(w & pc & Hw & Hq & ->)]; [done|]. apply set_workers_cur; [done|].
        intros pc' [->|H]%elem_of_insert_inv; [right; by apply Hpc|by left]. }
      eapply cur_ok_frame; [|apply grow_refl|exact Hc1]. done.
  - destruct (stale_exec G mv req Hst (gi_server _ _ _ HI) (st_sent _ _ Hst req Hreq)) as (rep & Hdo & Hrep).
    eexists _, rep. split; [done|]. intros o Ho. destruct (hear_OK _ _ _ _ _ Hrep Ho) as (mv' & -> & Hmv').
    exists mv'. split; [done|]. split; [destruct Hmv' as [->|(? & ? & _ & _ & ->)]; [done|by destruct req]|].
    assert (stale G mv') as Hst' by (destruct Hmv' as [->|(w & pc & _ & _ & ->)]; [done|]; eapply set_stale; try done; by apply Hst).
    eapply groups_inv_old; [by apply groups_inv_set_same|done|]. eapply (stale_moves_on G); [|done]. intros g. by rewrite group_set_same.
Qed.

Lemma start_preserves G V X sh num from to :
  groups_inv G V X → in_range sh → from ≠ to → startable (g_cur G !! sh) num from →
  groups_inv (startMove sh num from to G) V X.
Proof.
  intros HI Hr Hne Hst. pose proof (gi_shard _ _ _ HI sh Hr) as Hs. unfold shard_ok in Hs.
  assert ((∀ mv, g_cur G !! sh = Some mv → stale G mv) ∧
    (status (group G from) sh = Serving ∧ cfgNum (group G from) sh < num ∧ holds V X sh (group G from)) ∧
    ∀ g, g ≠ from → status (group G g) sh = Absent ∧ cfgNum (group G g) sh < num) as (Hold & Hsrc & Hoth).
  { destruct (g_cur G !! sh) as [mv|]; cbn in Hst.
    - destruct Hst as (Hdone & Hn & ->). destruct Hs as [ph [Hs Hmne Hsent Hwk Hoth Hph]].
      destruct (Hwk WDone Hdone) as [_ Hd]. destruct (Hd eq_refl) as [-> Habs]. destruct Hph as ((H1 & H2 & H3) & H4 & H5).
      split; [|split; [split; [done|split; [lia|done]]|]].
      + intros mv0 [= <-]. split; rewrite ?Hs; try done; try lia. intros req Hq. by apply Hsent.
      + intros g Hg. destruct (decide (g = mv_from mv)) as [->|Hg']; [split; [done|lia]|]. destruct (Hoth g Hg' Hg). split; [done|lia].
    - destruct Hst as [Hn ->]. destruct Hs as [(H1 & H2 & H3) Hoth]. split; [done|].
      split; [split; [done|split; [lia|done]]|]. intros g Hg. destruct (Hoth g Hg). split; [done|lia]. }
  eapply (groups_inv_same G _ _ _ sh); try done; cbn.
  - intros sh' Hne'. by apply lookup_insert_ne.
  - intros mv [H|H]%elem_of_app; [by left|right]. destruct (g_cur G !! sh) as [mv0|]; [|by apply elem_of_nil in H].
    apply list_elem_of_singleton in H as ->. by apply Hold.
  - intros _. unfold shard_ok. cbn. rewrite lookup_insert_eq. exists Ready.
    eapply (cur_ok_frame G); [done|apply grow_refl|]. split; cbn; try done.
    + intros req H. by apply elem_of_nil in H.
    + intros pc H. by apply elem_of_nil in H.
    + intros g Hg _. by apply Hoth.
    + split; [done|]. by apply Hoth.
Qed.

Lemma gstep_preserves G V X ev o :
  groups_inv G V X → gstep ev G = Some o → ∃ G', o = Ret G' ∧ groups_inv G' V X.
Proof.
  intros HI H. destruct ev as [sh num from to|m|m w|m i heard]; cbn in H.
  - case_decide as Hc; [|done]. injection H as <-. destruct Hc as [[Hr Hne] Hst]. eexists. split; [done|]. by apply start_preserves.
  - destruct (move m G) as [mv|] eqn:Em; [|done]. injection H as <-. eexists. split; [done|]. by apply join_preserves.
  - destruct (move m G) as [mv|] eqn:Em; [|done]. cbn in H. destruct (mv_workers mv !! w) as [pc|] eqn:Ew; [|done]. cbn in H.
    destruct (requestOf mv pc) as [req|] eqn:Er; [|done]. injection H as <-. eexists. split; [done|]. by eapply send_preserves.
  - destruct (move m G) as [mv|] eqn:Em; [|done]. cbn in H. destruct (mv_sent mv !! i) as [req|] eqn:Er; [|done]. cbn in H.
    destruct (execute_preserves G V X m mv req heard HI Em) as (kv & rep & Hdo & Hh); [by eapply list_elem_of_lookup_2|].
    rewrite Hdo in H. destruct (hear mv req rep heard) as [o'|] eqn:Eh; [|done]. injection H as <-.
    destruct (Hh o' eq_refl) as (mv' & -> & Hpl & HI'). eexists. split; [done|]. by rewrite Hpl.
Qed.
End moves.
