(* ===== verification/ShardLin.v ===== *)
(** * ShardLin: what the test clients record of the sharded service is linearizable

    The groups and moves of [ShardMoves] with the clerk of
    [src/src/shardkv/client.go] as an instance of [ClerkLin.Service].  A clerk
    may propose its request in any group, whatever configuration it has read:
    a group that does not serve the shard refuses it. *)

From S2P Require Import Prelude RpcApi KvModel KvSpec KvStore ShardCfg Persister Raft Rsm RsmFacts KvRaft ShardGrp ShardGrpFacts ShardClerk ShardKvClient Migration Linear ClerkLin ShardMoves.

Definition shardReq (r : Request) : ShardGrp.Req :=
  match r with RGet a => ShardGrp.ReqGet a | RPut a => ShardGrp.ReqPut a end.

(** The reply to a [Call] whose [Submit] returned OK: the handler's type
    assertion, the switch of the group's clerk and the switch of the client. *)
Definition shardAnswer (r : Request) (rep : ShardGrp.Rep) : outcome (option KvOutput) :=
  match r with
  | RGet _ =>
      reply ← ShardGrp.GetHandler (OK, Some rep);
      match ShardClerk.classifyGet (get_Err reply) with
      | Retry => Ret None
      | Undefined => Panic (GoPanic "undefined rpc error type")
      | Answer =>
          match SclassifyGet (get_Err reply) with
          | Answer => Ret (Some (get_output reply))
          | Retry => Ret None
          | Undefined => Panic (Fatal "undefined rpc Err")
          end
      end
  | RPut _ =>
      reply ← ShardGrp.PutHandler (OK, Some rep);
      match ShardClerk.classifyPut (put_Err reply) with
      | Retry => Ret None
      | Undefined => Panic (GoPanic "undefined rpc error type")
      | Answer =>
          match SclassifyPut (put_Err reply) with
          | Answer => Ret (Some (put_output (put_Err reply)))
          | Retry => Ret None
          | Undefined => Panic (Fatal "undefined rpc Err")
          end
      end
  end.

(** The clerk never answers [ErrMaybe]. *)
Lemma shardAnswer_sure r rep out : shardAnswer r rep = Ret (Some out) → out_Err out ≠ err_string ErrMaybe.
Proof.
  unfold shardAnswer. intros H. destruct r as [a|a]; apply bind_ret_inv in H as (reply & _ & H).
  - destruct (get_Err reply) eqn:E; cbn in H; rewrite ?E in H; by simplify_eq; cbn; rewrite ?E.
  - destruct (put_Err reply) eqn:E; cbn in H; rewrite ?E in H; by simplify_eq; cbn; rewrite ?E.
Qed.

(** [Put] up to its loop; every group's clerk is made with the client's id. *)
Definition shardPutArgs (ck : SClerk) (key value : string) (version : Tversion) : SClerk * PutArgs :=
  let ck := SnextReqId ck in
  (ck, ShardClerk.putArgs (ShardClerk.MakeClerk 3 (clerkId ck)) (requestId ck) key value version).

Section service.
Context `{!Codec ShardState}.

Definition groupExec (g : Tgid) (r : Request) (G : Groups) : outcome (Groups * ShardGrp.Rep) :=
  '(kv, rep) ← ShardGrp.DoOp (shardReq r) (group G g); Ret (set_group g kv G, rep).

#[global] Instance shard_service : Service Groups ShardGrp.Rep SClerk MoveEvent := {
  sv_init := mkGroups ∅ ∅ [];
  sv_exec := groupExec;
  sv_answer := shardAnswer;
  sv_back := gstep;
  ck_make := SMakeClerk;
  ck_args := shardPutArgs;
}.

(** ** The service keeps its promises *)

Implicit Types (V : cells) (X : puts) (G : Groups) (kv : ShardGrp.KVServer) (sh : Tshid) (g : Tgid) (a : PutArgs).

Lemma initial_status g sh :
  in_range sh →
  status (initialServer g) sh = (if decide (g = Gid1) then Serving else Absent) ∧
  cfgNum (initialServer g) sh = if decide (g = Gid1) then 1 else 0.
Proof.
  intros Hr. split.
  - unfold status. cbn -[replicate]. rewrite lookup_replicate_2; [done|]. by apply in_range_nat.
  - unfold cfgNum. cbn -[list_to_map seq]. erewrite elem_of_list_to_map_1; [done| |].
    + rewrite <-list_fmap_compose. apply NoDup_fmap_2; [intros i j; cbn; lia|apply NoDup_seq].
    + apply list_elem_of_fmap. exists (Z.to_nat sh). unfold in_range in Hr. split; [f_equal; lia|]. apply elem_of_seq. unfold NShards in *. lia.
Qed.

Lemma groups_inv_init : groups_inv (mkGroups ∅ ∅ []) (λ _, None) ∅.
Proof.
  split.
  - intros g. apply initialServer_ok.
  - intros g c lp H. change (lastOf (initialServer g) c = Some lp) in H. unfold lastOf in H. cbn in H. by rewrite lookup_empty in H.
  - intros i a e. by rewrite lookup_empty.
  - intros sh [mv H]. cbn in H. by rewrite lookup_empty in H.
  - intros sh Hr. unfold shard_ok. cbn. rewrite lookup_empty. split.
    + destruct (initial_status Gid1 sh Hr) as [Hs Hc]. rewrite decide_True in Hs by done. rewrite decide_True in Hc by done.
      split; [done|]. split; [change (cfgNum (initialServer Gid1) sh ≤ 1); lia|]. split.
      * intros k _. change (None = shardMap (initialServer Gid1) sh !! k). unfold shardMap. cbn -[replicate]. rewrite lookup_replicate_2 by (by apply in_range_nat). done.
      * intros c rid a e. by rewrite lookup_empty.
    + intros g Hg. destruct (initial_status g sh Hr) as [Hs Hc]. rewrite decide_False in Hs by done. rewrite decide_False in Hc by done.
      split; [done|]. change (cfgNum (initialServer g) sh ≤ 1). lia.
  - intros mv H. by apply elem_of_nil in H.
Qed.

(** The group that serves a shard has its data. *)
Lemma serving_holds G V X g sh :
  groups_inv G V X → in_range sh → status (group G g) sh = Serving → holds V X sh (group G g).
Proof.
  intros HI Hr Hs. pose proof (gi_shard _ _ _ HI sh Hr) as H. unfold shard_ok in H. destruct (g_cur G !! sh) as [mv|].
  - destruct H as [ph [Hsh Hne _ _ Hoth Hph]]. destruct (decide (g = mv_from mv)) as [->|Hf]; [|destruct (decide (g = mv_to mv)) as [->|Ht]].
    + destruct ph; [by destruct Hph as ((_ & _ & ?) & _)|destruct Hph as ((? & _) & _); congruence|by destruct Hph as (_ & ? & _)].
    + destruct ph; [destruct Hph as (_ & ? & _); congruence..|by destruct Hph as ((_ & _ & ?) & _)].
    + destruct (Hoth g Hf Ht). congruence.
  - destruct H as [(_ & _ & Hh) Hoth]. destruct (decide (g = Gid1)) as [->|Hg]; [done|]. destruct (Hoth g Hg). congruence.
Qed.

(** The group that serves the shard executes a put. *)
Lemma serving_put_shard G V X V' X' g kv' sh :
  shard_ok G V X sh → status (group G g) sh = Serving → status kv' sh = Serving →
  cfgNum kv' sh = cfgNum (group G g) sh → holds V' X' sh kv' → shard_ok (set_group g kv' G) V' X' sh.
Proof.
  intros H Hs Hs' Hc' Hh'. unfold shard_ok in *. cbn. destruct (g_cur G !! sh) as [mv|].
  - destruct H as [ph [Hsh Hne Hsent Hwk Hoth Hph]]. exists ph.
    assert (ph = Ready ∧ g = mv_from mv ∨ ph = Moved ∧ g = mv_to mv) as Hcase.
    { destruct (decide (g = mv_from mv)) as [->|Hf]; [|destruct (decide (g = mv_to mv)) as [->|Ht]].
      - destruct ph; [by left|destruct Hph as ((? & _) & _); congruence|by destruct Hph as (_ & ? & _)].
      - destruct ph; [destruct Hph as (_ & ? & _); congruence..|by right].
      - destruct (Hoth g Hf Ht). congruence. }
    assert (∀ req, possible V X mv ph req → possible V' X' mv ph req) as Hposs.
    { intros req [Hof Hp]. split; [done|]. destruct req; try done. destruct Hp as [?|[-> _]]; [by left|].
      by destruct Hcase as [[? _]|[? _]]. }
    assert (∀ g', g' ≠ g → group (set_group g kv' G) g' = group G g') as Hgr by (intros; by rewrite group_set, decide_False).
    assert (group (set_group g kv' G) g = kv') as Hgr' by (by rewrite group_set, decide_True).
    split; try done.
    + intros req Hq. by apply Hposs, Hsent.
    + intros pc Hpc. destruct (Hwk pc Hpc) as [H1 H2]. split; [intros req Hq; by apply Hposs, H1|]. intros E.
      destruct (H2 E) as [-> Ha]. split; [done|]. destruct Hcase as [[? _]|[_ ->]]; [done|]. by rewrite Hgr.
    + intros g' Hf Ht. rewrite Hgr; [by apply Hoth|]. by destruct Hcase as [[_ ->]|[_ ->]].
    + cbn zeta. destruct Hcase as [[-> ->]|[-> ->]]; rewrite Hgr', Hgr by done.
      * destruct Hph as ((_ & ? & _) & ?). split; [split; [done|split; [lia|done]]|done].
      * destruct Hph as ((_ & ? & _) & ?). split; [split; [done|split; [lia|done]]|done].
  - destruct H as [(_ & Hc & _) Hoth]. assert (g = Gid1) as ->.
    { destruct (decide (g = Gid1)) as [|Hg]; [done|]. destruct (Hoth g Hg). congruence. }
    split.
    + rewrite group_set, decide_True by done. split; [done|]. split; [lia|done].
    + intros g Hg. rewrite group_set, decide_False by done. by apply Hoth.
Qed.

Lemma put_grow V X a e sh :
  X !! (cidOf a, ridOf a) = None → sh ≠ Key2Shard (put_Key a) →
  grow sh V X (cells_put a V) (<[(cidOf a, ridOf a) := (a, e)]> X).
Proof.
  intros HX Hne. split; [|split].
  - intros k Hk. apply cells_put_other. congruence.
  - by apply insert_subseteq.
  - intros i a' e' [[<- [= <- <-]]|[_ H]]%lookup_insert_Some; [by right|by left].
Qed.

(** A put that the serving group has not seen. *)
Lemma shard_execute_law G V X g a :
  groups_inv G V X → let sh := Key2Shard (put_Key a) in status (group G g) sh = Serving →
  (∀ a' e, X !! (cidOf a, ridOf a) = Some (a', e) → a' = a) →
  (∀ lp, lastOf (group G g) (cidOf a) = Some lp → lp_RequestId lp < ridOf a) →
  let e := (cell_put a (V (put_Key a))).2 in
  ∃ kv', ShardGrp.DoOp (ShardGrp.ReqPut a) (group G g) = Ret (kv', ShardGrp.RepPut (mkPutReply e)) ∧
    X !! (cidOf a, ridOf a) = None ∧
    groups_inv (set_group g kv' G) (cells_put a V) (<[(cidOf a, ridOf a) := (a, e)]> X).
Proof.
  intros HI sh Hs Hsame Hnew e. pose proof (Key2Shard_range (put_Key a)) as Hr. fold sh in Hr.
  pose proof (serving_holds G V X g sh HI Hr Hs) as [Hmap Hcov].
  assert (∀ rid a' e', X !! (cidOf a, rid) = Some (a', e') → Key2Shard (put_Key a') = sh → rid < ridOf a) as Holder.
  { intros rid a' e' Ha Hk. destruct (Hcov _ _ _ _ Ha Hk) as (lp & Hlp & Hle). unfold tableOf in Hlp. case_decide; [|done].
    specialize (Hnew lp Hlp). lia. }
  assert (X !! (cidOf a, ridOf a) = None) as HX.
  { destruct (X !! (cidOf a, ridOf a)) as [[a' e']|] eqn:E; [|done]. pose proof (Hsame _ _ eq_refl) as ->.
    specialize (Holder _ _ _ E eq_refl). lia. }
  destruct (shard_put_effect (group G g) a (gi_server _ _ _ HI g) Hs Hnew) as (kv' & e' & Hdo & Hok & Hput & Hlast & Hcl & Hst & Hcn & Hfr).
  fold sh in Hput, Hcl, Hst, Hcn, Hfr. pose proof (kv_put_cell (shardMap (group G g) sh) a) as Hc.
  pose proof (kv_put_cells (shardMap (group G g) sh) V a (Hmap _ eq_refl)) as Hc1.
  pose proof (kv_put_other (shardMap (group G g) sh) (put_Key a) (put_Value a) (put_Version a)) as Hc2.
  rewrite <-Hput in Hc, Hc1, Hc2. cbn in Hc1, Hc2. injection Hc as _ He. rewrite <-(Hmap _ eq_refl) in He. fold e in He. rewrite He in Hdo, Hlast.
  exists kv'. split; [done|]. split; [done|].
  eapply (groups_inv_op G V X _ _ _ g kv' sh); try done.
  - intros g'. apply group_set.
  - auto.
  - intros c lp. rewrite Hlast. case_decide as Ec.
    + intros [= <-]. subst c. exists a. apply lookup_insert_eq.
    + intros Hlp. eapply entry_ok_mono; [by apply insert_subseteq|]. by eapply (gi_entry _ _ _ HI g).
  - intros sh' Hr' Hne. split; [by apply Hfr|by apply put_grow].
  - intros sh' Hr'. destruct (decide (sh' = sh)) as [->|Hne]; [|by apply frame_moves_on, Hfr]. right. rewrite Hst, Hs. auto.
  - by apply insert_subseteq.
  - intros i a' e1 [[<- [= <- <-]]|[_ H]]%lookup_insert_Some; [apply cell_put_cases|by eapply gi_err].
  - intros _. eapply (serving_put_shard G V X); [by apply HI|done|done|done|]. split.
    + intros k Hk. destruct (decide (k = put_Key a)) as [->|Hne]; [done|]. rewrite cells_put_other, Hc2 by done. by apply Hmap.
    + intros c rid a' e1 H Hk. unfold tableOf. rewrite Hcl, Hlast. apply lookup_insert_Some in H as [[[= <- <-] [= <- <-]]|[Hne H]].
      * rewrite decide_True, decide_True by set_solver. eexists. split; [done|]. cbn. lia.
      * destruct (decide (c = cidOf a)) as [->|Hc].
        -- rewrite decide_True by set_solver. eexists. split; [done|]. cbn. specialize (Holder _ _ _ H Hk). lia.
        -- destruct (Hcov _ _ _ _ H Hk) as (lp & Hlp & Hle). unfold tableOf in Hlp. case_decide; [|done].
           rewrite decide_True by set_solver. by exists lp.
Qed.

Lemma shard_put_answered e a :
  e ∈ [OK; ErrVersion; ErrNoKey] → shardAnswer (RPut a) (ShardGrp.RepPut (mkPutReply e)) = Ret (Some (put_output e)).
Proof. rewrite !elem_of_cons, elem_of_nil. by intros [->|[->|[->|[]]]]. Qed.

Lemma shard_get_law G V X g (a : GetArgs) :
  groups_inv G V X →
  ∃ G' rep ans, groupExec g (RGet a) G = Ret (G', rep) ∧ groups_inv G' V X ∧ shardAnswer (RGet a) rep = Ret ans ∧
    (ans = None ∨ ans = Some (get_output (cell_get (V (get_Key a))))).
Proof.
  intros HI. pose proof (Key2Shard_range (get_Key a)) as Hr.
  assert (∀ rep, groupExec g (RGet a) G = Ret (set_group g (group G g) G, rep) →
    ∀ ans, shardAnswer (RGet a) rep = Ret ans → (ans = None ∨ ans = Some (get_output (cell_get (V (get_Key a))))) →
    ∃ G' rep ans, groupExec g (RGet a) G = Ret (G', rep) ∧ groups_inv G' V X ∧ shardAnswer (RGet a) rep = Ret ans ∧
      (ans = None ∨ ans = Some (get_output (cell_get (V (get_Key a)))))) as Hgoal.
  { intros rep H1 ans H2 H3. eexists _, rep, ans. split; [exact H1|]. split; [by apply groups_inv_set_same|done]. }
  assert (groupExec g (RGet a) G = Ret (set_group g (group G g) G,
    ShardGrp.RepGet (if decide (status (group G g) (Key2Shard (get_Key a)) = Serving)
                     then kv_get (shardMap (group G g) (Key2Shard (get_Key a))) (get_Key a)
                     else mkGetReply "" 0 ErrWrongGroup))) as Hex.
  { unfold groupExec. cbn. rewrite doGet_spec by apply HI. done. }
  case_decide as Hs; [|by eapply Hgoal; [exact Hex|done|left]].
  destruct (serving_holds G V X g _ HI Hr Hs) as [Hmap _].
  eapply Hgoal; [exact Hex| |right; reflexivity]. rewrite (Hmap _ eq_refl). unfold kv_get.
  by destruct (shardMap (group G g) (Key2Shard (get_Key a)) !! get_Key a).
Qed.

Lemma shard_put_law G V X g a :
  groups_inv G V X → (∀ a' e, X !! (cidOf a, ridOf a) = Some (a', e) → a' = a) →
  ∃ G' rep ans, groupExec g (RPut a) G = Ret (G', rep) ∧ shardAnswer (RPut a) rep = Ret ans ∧ put_case (groups_inv G') V X a ans.
Proof.
  intros HI Hsame. pose proof (Key2Shard_range (put_Key a)) as Hr. pose proof (gi_server _ _ _ HI g) as Hok.
  destruct (shardgrp_client_ops (group G g) Hok) as [_ Hops]. destruct (Hops a) as (Hwrong & Hdup & _).
  pose proof (groups_inv_set_same G V X g HI) as HI'. unfold groupExec. cbn [shardReq].
  destruct (decide (status (group G g) (Key2Shard (put_Key a)) = Serving)) as [Hs|Hs].
  - assert ((∃ lp, lastOf (group G g) (cidOf a) = Some lp ∧ ridOf a ≤ lp_RequestId lp) ∨
      ∀ lp, lastOf (group G g) (cidOf a) = Some lp → lp_RequestId lp < ridOf a) as [(lp & Hlp & Hle)|Hnew].
    { destruct (lastOf (group G g) (cidOf a)) as [lp|]; [|by right]. destruct (decide (ridOf a ≤ lp_RequestId lp)); [left; by eauto|].
      right. intros lp' [= <-]. lia. }
    + rewrite (Hdup lp Hs Hlp Hle). destruct (gi_entry _ _ _ HI g _ _ Hlp) as (a' & Ha').
      destruct (lp_Reply lp) as [e]. eexists _, _, _. split; [done|].
      split; [apply shard_put_answered; by eapply (gi_err _ _ _ HI)|]. by eapply put_repeated.
    + destruct (shard_execute_law G V X g a HI Hs Hsame Hnew) as (kv' & Hdo & HX & HI2). rewrite Hdo.
      eexists _, _, _. split; [done|]. split; [apply shard_put_answered, cell_put_cases|]. by apply put_executed.
  - rewrite (Hwrong Hs). eexists _, _, None. split; [done|]. split; [done|]. by apply put_elsewhere.
Qed.

#[global] Instance shard_laws : ServiceLaws Groups ShardGrp.Rep SClerk MoveEvent.
Proof.
  refine {| sv_inv := groups_inv; ck_id := clerkId; ck_rid := requestId |}.
  - apply groups_inv_init.
  - intros G V X g a HI. by apply shard_get_law.
  - intros G V X g a HI Hsame. by apply shard_put_law.
  - intros G V X b o HI H. exact (gstep_preserves G V X b o HI H).
  - done.
  - done.
Defined.

(** ** The theorem *)

(** the history recorded of the sharded service is linearizable, while its
    shards move between groups.  Any number of threads share any number of
    clerks; calls fail, are refused by groups that do not serve the shard, and
    are repeated at other groups; requests of failed calls are executed at any
    later time.  Meanwhile every shard is moved any number of times, each move
    by any number of controllers at once, whose requests are executed late and
    repeatedly, also after the shard has been moved on.  Every group executes
    its requests one after the other and gives every call the result of its own
    ([own_result]).  Then no modelled step panics, and once every thread has
    appended what it recorded, the history is linearizable for the sequential
    store, and without the puts refused with [ErrNoKey] for the checker's model: a shard is never served from old data, and no put is executed
    twice although the table that detects it travels with the shard. *)
Theorem shardkv_linearizable evs o :
  krun evs MakeWorld = Some o → Forall own_result evs → zlen evs < u64_mod →
  ∃ w, o = Ret w ∧ (w_threads w = ∅ → seq_linearizable (OpLog_Read (w_oplog w)) ∧
                     linearizable (filter not_NoKey_put (OpLog_Read (w_oplog w)))).
Proof. apply clients_linearizable. Qed.
End service.

(** ** A run with two moves *)

Section sample.
#[local] Instance sample_codec : Codec ShardState := countable_codec.

Definition sampleShard : Tshid := Key2Shard "k".

(** Client 7's first call of a put goes astray to group 2 and is left there;
    its second call is executed by group 1.  Then the shard is moved to group 2
    by two controllers; a read is refused by group 1, and answered by group 2
    before the source has deleted the shard; the misplaced first call is
    executed there, without effect.  Client 8 overwrites the value, the shard is
    moved back, and an install of the first move is repeated. *)
Definition sampleRun : list (Event MoveEvent) :=
  [NewClerk 7; NewClerk 8; InvokePut 1 1 7 "k" "a" 0; Lock 1; Propose 1 2; Tick 1; CallFails 1; Propose 1 1; Commit 1;
   Tick 1; Return 1; Append 1;
   Back (StartMove sampleShard 2 1 2); Back (Join (inl sampleShard)); Back (Join (inl sampleShard));
   Back (Send (inl sampleShard) 0); Back (Send (inl sampleShard) 1); Back (Execute (inl sampleShard) 0 (Some 0%nat));
   InvokeGet 3 3 "k"; Propose 3 1; Commit 1; Return 3;
   Back (Send (inl sampleShard) 0); Back (Execute (inl sampleShard) 2 None); Propose 3 2; Commit 1; Commit 0; Return 3; Append 3;
   Back (Execute (inl sampleShard) 1 (Some 1%nat)); Back (Execute (inl sampleShard) 2 (Some 0%nat));
   Back (Send (inl sampleShard) 0); Back (Execute (inl sampleShard) 3 (Some 0%nat)); Tick 1;
   InvokePut 2 2 8 "k" "b" 1; Lock 2; Propose 2 2; Commit 0; Return 2; Append 2;
   Back (StartMove sampleShard 3 2 1); Back (Join (inl sampleShard)); Back (Send (inl sampleShard) 0);
   Back (Execute (inl sampleShard) 0 (Some 0%nat)); Back (Execute (inr 0%nat) 2 (Some 1%nat));
   Back (Send (inl sampleShard) 0); Back (Execute (inl sampleShard) 1 (Some 0%nat));
   Tick 1; InvokeGet 4 4 "k"; Propose 4 1; Commit 0; Return 4; Append 4].

Definition sampleEnd : World Groups ShardGrp.Rep SClerk :=
  match krun sampleRun MakeWorld with Some (Ret w) => w | _ => MakeWorld end.

Lemma shardkv_linearizable_witness :
  seq_linearizable (OpLog_Read (w_oplog sampleEnd)) ∧
  (λ o, (op_ClientId o, op_Call o, op_Return o, (out_Value (op_Output o), out_Err (op_Output o))))
    <$> OpLog_Read (w_oplog sampleEnd) =
    [(1, 0, 2, ("", "OK")); (3, 2, 2, ("a", "OK")); (2, 3, 3, ("", "OK")); (4, 4, 4, ("b", "OK"))]%string.
Proof.
  split; [|vm_compute; reflexivity].
  destruct (shardkv_linearizable sampleRun (Ret sampleEnd)) as (w & Hw & H);
    [vm_compute; reflexivity|repeat constructor|vm_compute; reflexivity|].
  apply (inj Ret) in Hw. rewrite <-Hw in H. refine (proj1 (H _)). vm_compute. reflexivity.
Defined.
End sample.
