(* ===== verification/ShardSystem.v ===== *)
(** * ShardSystem: the sharded service with its controllers

    The controllers of [ShardCtrler] on the configuration store, the goroutines
    they start for the shards that move, and the groups of [ShardMoves], as an
    instance of [ClerkLin.Service]: the tests' clients, the clerks, the groups,
    the controllers and the store in one system.

    A configuration that a controller is asked for was made from the current one
    (with [Query] and [JoinBalance] or [LeaveBalance]), so its number is at most
    the next one.  [recovery_atomic]: [InitController] reads the two
    configurations without another controller's change of the current one in
    between.  With it the whole system, on groups that give every call the
    result of its own request, is linearizable and no modelled step panics
    ([sharded_system_linearizable]); without it a controller can be stopped
    ([stale_recovery_stops_controller]). *)

From S2P Require Import Prelude RpcApi KvModel KvSpec KvStore ShardCfg Persister Raft Rsm RsmFacts KvRaft ShardGrp ShardGrpFacts ShardClerk ShardKvClient Migration ShardCtrler Linear ClerkLin ShardMoves ShardLin.

(** ** The system *)

(** Which worker of its move a controller's goroutine for a shard is. *)
Record Full := mkFull { f_sys : System; f_groups : ShardMoves.Groups; f_work : gmap (nat * Tshid) nat }.

(** A controller is started; it takes a step on the store; it starts its
    goroutine for a shard; a worker sends or a request is executed. *)
Inductive FullEvent :=
| NewCtrl (c : Ctrl)
| CtrlDo (i : nat) (executed heard superseded : bool)
| Go (i : nat) (sh : Tshid)
| Work (ev : MoveEvent).

Definition is_move (sh : Tshid) (num : Tnum) (from to : Tgid) (mv : Move) : Prop :=
  mv_shard mv = sh ∧ mv_num mv = num ∧ mv_from mv = from ∧ mv_to mv = to.

#[global] Instance is_move_dec sh num from to mv : Decision (is_move sh num from to mv).
Proof. unfold is_move. apply _. Defined.

(** The move that controllers of this configuration work on, if one has begun. *)
Definition findMove (sh : Tshid) (num : Tnum) (from to : Tgid) (G : ShardMoves.Groups) : option (Tshid + nat) :=
  match g_cur G !! sh with
  | Some mv => if decide (is_move sh num from to mv) then Some (inl sh)
               else inr ∘ fst <$> list_find (is_move sh num from to) (g_old G)
  | None => inr ∘ fst <$> list_find (is_move sh num from to) (g_old G)
  end.

(** [wg.Wait]: the controller's goroutines are through. *)
Definition through (i : nat) (num : Tnum) (F : Full) (x : nat * Tgid * Tgid) : bool :=
  let '(k, from, to) := x in
  match findMove (Z.of_nat k) num from to (f_groups F) ≫= (λ m, move m (f_groups F)), f_work F !! (i, Z.of_nat k) with
  | Some mv, Some w => bool_decide (mv_workers mv !! w = Some WDone)
  | _, _ => false
  end.

Section system.
Context {CT : ConfigText} `{!Codec ShardState}.

(** May the controller take this step now? *)
Definition mayStep (atomic : bool) (i : nat) (superseded : bool) (c : Ctrl) (F : Full) : bool :=
  match c with
  | Migrating newCfg oldCfg _ =>
      if superseded then true else forallb (through i (Num newCfg) F) (shardMoves oldCfg newCfg)
  | InitNext _ ver => negb atomic || bool_decide (kv_version (store (f_sys F)) currentKey = ver)
  | _ => true
  end.

#[global] Instance room_dec m : Decision (room m).
Proof. unfold room. apply _. Defined.

(** A goroutine of controller [i] for shard [sh]: it works on the move that
    others have begun, or begins it. *)
Definition goShard (i : nat) (sh : Tshid) (num : Tnum) (from to : Tgid) (F : Full) : Full :=
  let G := f_groups F in
  match findMove sh num from to G ≫= (λ m, pair m <$> move m G) with
  | Some (m, mv) => mkFull (f_sys F) (joinMove m mv G) (<[(i, sh) := length (mv_workers mv)]> (f_work F))
  | None =>
      let G := startMove sh num from to G in
      mkFull (f_sys F) (joinMove (inl sh) (mkMove sh num from to [] []) G) (<[(i, sh) := 0%nat]> (f_work F))
  end.

(** The configuration a controller may be asked for. *)
Definition askable (cfg : ShardConfig) (F : Full) : bool :=
  match stored (store (f_sys F)) currentKey with
  | Some cur => bool_decide (Num cfg ≤ Num cur + 1 ∧ zlen (Shards cfg) = NShards)
  | None => false
  end.

Definition fstep (atomic : bool) (ev : FullEvent) (F : Full) : option (outcome Full) :=
  match ev with
  | NewCtrl c =>
      if match c with InitController => true | ChangeConfigTo cfg => askable cfg F | _ => false end
      then Some (Ret (mkFull (mkSystem (store (f_sys F)) (ctrls (f_sys F) ++ [c])) (f_groups F) (f_work F)))
      else None
  | CtrlDo i executed heard superseded =>
      c ← ctrls (f_sys F) !! i;
      if mayStep atomic i superseded c F then
        if decide (room (store (f_sys F))) then
          '(c', m') ← ctrlStep executed heard superseded c (store (f_sys F));
          Some (match c' with
                | Dead => Panic (Fatal "controller")
                | _ => Ret (mkFull (mkSystem m' (<[i := c']> (ctrls (f_sys F)))) (f_groups F) (f_work F))
                end)
        else None
      else None
  | Go i sh =>
      c ← ctrls (f_sys F) !! i;
      match c, f_work F !! (i, sh) with
      | Migrating newCfg oldCfg _, None =>
          '(_, from, to) ← list_find (λ x : nat * Tgid * Tgid, Z.of_nat x.1.1 = sh) (shardMoves oldCfg newCfg) ≫= (λ y, Some y.2);
          Some (Ret (goShard i sh (Num newCfg) from to F))
      | _, _ => None
      end
  | Work ev =>
      match ev with
      | Send _ _ | Execute _ _ _ =>
          match gstep ev (f_groups F) with
          | Some o => Some (G ← o; Ret (mkFull (f_sys F) G (f_work F)))
          | None => None
          end
      | _ => None
      end
  end.

(** [InitConfig] with the first configuration: every shard at the first group. *)
Definition firstConfig (servers : gmap Tgid (list string)) : ShardConfig :=
  mkShardConfig 1 (replicate (Z.to_nat NShards) Gid1) servers.

Definition systemExec (g : Tgid) (r : Request) (F : Full) : outcome (Full * ShardGrp.Rep) :=
  '(G, rep) ← groupExec g r (f_groups F); Ret (mkFull (f_sys F) G (f_work F), rep).

Definition system_service (servers : gmap Tgid (list string)) (atomic : bool) : Service Full ShardGrp.Rep SClerk FullEvent := {|
  sv_init := mkFull (initSystem (firstConfig servers)) (mkGroups ∅ ∅ []) ∅;
  sv_exec := systemExec;
  sv_answer := shardAnswer;
  sv_back := fstep atomic;
  ck_make := SMakeClerk;
  ck_args := shardPutArgs;
|}.

(** What happens in a run of the whole system from its start. *)
Definition systemRun (servers : gmap Tgid (list string)) (atomic : bool) (evs : list (Event FullEvent))
    : option (outcome (World Full ShardGrp.Rep SClerk)) :=
  krun (Service0 := system_service servers atomic) evs (MakeWorld (Service0 := system_service servers atomic)).
(** ** The invariant *)

Implicit Types (V : cells) (X : puts) (G : ShardMoves.Groups) (mv : Move) (sh : Tshid) (g : Tgid) (k : Tnum)
  (cfg cur nx n o : ShardConfig) (c : Ctrl) (C : gmap Tnum (list Tgid)) (F : Full).

(** [C]: the shards of every configuration so far.  The configuration is one of
    them. *)
Definition known C cfg : Prop := C !! Num cfg = Some (Shards cfg).

Definition shardOf C k sh : option Tgid := C !! k ≫= (λ l, l !! Z.to_nat sh).

Record confs_ok (m : kvmap) C cur nx : Prop := {
  cn_scur : stored m currentKey = Some cur;
  cn_snx : stored m nextKey = Some nx;
  cn_cur : known C cur;
  cn_nx : known C nx;
  cn_step : Num cur ≤ Num nx ≤ Num cur + 1;
  cn_dom k : is_Some (C !! k) ↔ 1 ≤ k ≤ Num nx;
  cn_len k l : C !! k = Some l → length l = nshards;
  cn_first : C !! 1 = Some (replicate nshards Gid1) }.

(** A worker has finished the move of the shard for configuration [k]. *)
Definition done_move G sh k : Prop :=
  ∃ m mv, move m G = Some mv ∧ mv_shard mv = sh ∧ mv_num mv = k ∧ WDone ∈ mv_workers mv.

Definition all_moved G n o : Prop :=
  ∀ sh f t, in_range sh → Shards o !! Z.to_nat sh = Some f → Shards n !! Z.to_nat sh = Some t → f ≠ t → done_move G sh (Num n).

Definition ctl C cur G c : Prop :=
  match c with
  | ChangeConfigTo n => Num n ≤ Num cur + 1 ∧ length (Shards n) = nshards
  | SaveQuery n o _ | SavePut n o _ _ _ | SaveVerify n o _ => known C o ∧ Num n = Num o + 1 ∧ length (Shards n) = nshards
  | InitNext o _ => known C o
  | Migrating n o _ => known C o ∧ known C n ∧ Num n = Num o + 1
  | PutCurrent n o _ _ => (known C o ∧ known C n ∧ Num n = Num o + 1) ∧ all_moved G n o
  | InitController | Finished _ _ _ | Returned => True
  | Dead => False
  end.

Record moves_ok C cur nx G : Prop := {
  mo_move m mv : move m G = Some mv → (1 < mv_num mv ≤ Num nx ∧ mv_from mv ≠ mv_to mv) ∧
    shardOf C (mv_num mv - 1) (mv_shard mv) = Some (mv_from mv) ∧ shardOf C (mv_num mv) (mv_shard mv) = Some (mv_to mv);
  mo_cur sh mv : g_cur G !! sh = Some mv → mv_shard mv = sh;
  mo_old i mv : g_old G !! i = Some mv → ∃ mv', g_cur G !! mv_shard mv = Some mv' ∧ mv_num mv < mv_num mv';
  mo_done sh k f t : in_range sh → 1 < k ≤ Num cur → shardOf C (k - 1) sh = Some f → shardOf C k sh = Some t → f ≠ t →
    done_move G sh k }.

Record full_ok C cur nx F V X : Prop := {
  fo_store : store_ok (store (f_sys F));
  fo_confs : confs_ok (store (f_sys F)) C cur nx;
  fo_ctrl i c : ctrls (f_sys F) !! i = Some c → ctrl_ok (store (f_sys F)) c ∧ ctl C cur (f_groups F) c;
  fo_moves : moves_ok C cur nx (f_groups F);
  fo_groups : groups_inv (f_groups F) V X }.

Definition full_inv F V X : Prop := ∃ C cur nx, full_ok C cur nx F V X.

(** ** Controllers on the store *)

Lemma queryConfig_ok m key cfg : stored m key = Some cfg → queryConfig key m = Ret (cfg, kv_version m key).
Proof.
  unfold stored, queryConfig, kv_get, kv_version. destruct (m !! key) as [v|]; [|done]. cbn. intros ->. done.
Qed.

Lemma read_num m key o v cur : read_ok m key o v → stored m key = Some cur → Num o ≤ Num cur.
Proof.
  intros (Hle & Heq & Hlt) Hs. destruct (decide (kv_version m key = v)) as [E|E].
  - specialize (Heq E). rewrite Hs in Heq. injection Heq as ->. lia.
  - destruct Hlt as (cur' & Hc & ?); [lia|]. rewrite Hs in Hc. injection Hc as <-. lia.
Qed.

Lemma storePut_errs key n ver ex he re m :
  is_Some (stored m key) → (storePut key n ver ex he re m).2 ∈ [None; Some OK; Some ErrVersion; Some ErrMaybe].
Proof.
  intros [cfg Hs]. unfold storePut. destruct ex; [|set_solver].
  destruct (kv_put_cases m key (cfg_String n) ver) as [[-> _]|[(-> & _ & _)|(-> & Hn & _)]];
    [destruct he, re; cbn; set_solver..|]. unfold stored in Hs. by rewrite Hn in Hs.
Qed.

Lemma known_weaken C C' cfg : C ⊆ C' → known C cfg → known C' cfg.
Proof. intros Hsub H. by eapply lookup_weaken. Qed.

Lemma ctl_mono C C' cur cur' G c : C ⊆ C' → Num cur ≤ Num cur' → ctl C cur G c → ctl C' cur' G c.
Proof.
  intros Hsub Hle. assert (∀ cfg, known C cfg → known C' cfg) as Hk by (intros; by eapply known_weaken).
  destruct c; cbn; try done; try naive_solver. intros [? ?]. split; [lia|done].
Qed.

Lemma shardOf_mono C C' k sh f : C ⊆ C' → shardOf C k sh = Some f → shardOf C' k sh = Some f.
Proof.
  intros Hsub. unfold shardOf. destruct (C !! k) as [l|] eqn:E; [|done]. by rewrite (lookup_weaken _ _ _ _ E Hsub).
Qed.

Lemma known_shardOf C cfg sh : known C cfg → shardOf C (Num cfg) sh = Shards cfg !! Z.to_nat sh.
Proof. unfold known, shardOf. by intros ->. Qed.

(** Another configuration is stored as the next one. *)
Lemma next_written m m' C cur nx n o v G :
  confs_ok m C cur nx → wrote m m' nextKey n → read_ok m currentKey o v → Num n = Num o + 1 → length (Shards n) = nshards →
  moves_ok C cur nx G →
  ∃ C', C ⊆ C' ∧ confs_ok m' C' cur n ∧ moves_ok C' cur n G.
Proof.
  intros [Hsc Hsn Hkc Hkn Hst Hdom Hlen Hfst] Hw Hr Hn Hl [Hmm Hmc Hmo Hmd].
  pose proof Hw as (old & Ho & Hlt & Hs' & _). rewrite Hsn in Ho. injection Ho as <-.
  pose proof (read_num _ _ _ _ _ Hr Hsc) as Hle.
  destruct (wrote_other _ _ _ _ currentKey Hw) as [Ec _]; [done|].
  assert (C !! Num n = None) as Hfresh.
  { destruct (C !! Num n) eqn:E; [|done]. assert (1 ≤ Num n ≤ Num nx) by (apply Hdom; by rewrite E). lia. }
  assert (C ⊆ <[Num n := Shards n]> C) as Hsub by (by apply insert_subseteq).
  assert (1 ≤ Num cur) as H1 by (apply Hdom; by rewrite Hkc).
  exists (<[Num n := Shards n]> C). split; [done|]. split.
  - split; try done.
    + by rewrite Ec.
    + by eapply known_weaken.
    + apply lookup_insert_eq.
    + lia.
    + intros k. destruct (decide (k = Num n)) as [->|Hne].
      * rewrite lookup_insert_eq. split; [lia|by eexists].
      * rewrite lookup_insert_ne by done. rewrite Hdom. lia.
    + intros k l [[<- <-]|[_ H]]%lookup_insert_Some; [done|by eapply Hlen].
    + rewrite lookup_insert_ne by lia. done.
  - split; try done.
    + intros i mv Hmv. destruct (Hmm i mv Hmv) as ([? ?] & H2 & H3). split; [split; [lia|done]|].
      split; by eapply shardOf_mono.
    + intros sh k f t Hr' Hk. assert (∀ j, 1 ≤ j ≤ Num cur → shardOf (<[Num n := Shards n]> C) j sh = shardOf C j sh) as E.
      { intros j Hj. unfold shardOf. rewrite lookup_insert_ne by lia. done. }
      rewrite !E by lia. by apply Hmd.
Qed.

(** A configuration becomes current. *)
Lemma current_written m m' C cur nx n o v G :
  confs_ok m C cur nx → wrote m m' currentKey n → read_ok m currentKey o v →
  known C o → known C n → Num n = Num o + 1 → all_moved G n o → moves_ok C cur nx G →
  confs_ok m' C n nx ∧ Num cur ≤ Num n ∧ moves_ok C n nx G.
Proof.
  intros [Hsc Hsn Hkc Hkn Hst Hdom Hlen Hfst] Hw Hr Hko Hknn Hn Hall [Hmm Hmc Hmo Hmd].
  pose proof Hw as (old & Ho & Hlt & Hs' & _). rewrite Hsc in Ho. injection Ho as <-.
  pose proof (read_num _ _ _ _ _ Hr Hsc) as Hle.
  destruct (wrote_other _ _ _ _ nextKey Hw) as [En _]; [done|].
  assert (1 ≤ Num n ≤ Num nx) as Hb by (apply Hdom; by rewrite Hknn).
  split; [|split; [lia|]].
  - split; try done; [by rewrite En|lia].
  - split; try done. intros sh k f t Hr' Hk Hf Ht Hne.
    destruct (decide (k = Num n)) as [->|]; [|apply (Hmd sh k f t); try done; lia].
    replace (Num n - 1) with (Num o) in Hf by lia. rewrite (known_shardOf C o sh Hko) in Hf.
    rewrite (known_shardOf C n sh Hknn) in Ht. by eapply Hall.
Qed.

Lemma findMove_spec sh num from to G m :
  findMove sh num from to G = Some m → ∃ mv, move m G = Some mv ∧ is_move sh num from to mv.
Proof.
  unfold findMove. assert (∀ r, inr ∘ fst <$> list_find (is_move sh num from to) (g_old G) = Some r →
    ∃ mv, move r G = Some mv ∧ is_move sh num from to mv) as Hold.
  { intros r. destruct (list_find _ _) as [[i mv]|] eqn:E; [|done]. cbn. intros [= <-]. cbn.
    apply list_find_Some in E as (? & ? & _). by exists mv. }
  destruct (g_cur G !! sh) as [mv|] eqn:E; [|apply Hold]. case_decide; [|apply Hold]. intros [= <-]. by exists mv.
Qed.

Lemma findMove_None sh num from to G m mv :
  findMove sh num from to G = None → move m G = Some mv → (∀ sh' mv', g_cur G !! sh' = Some mv' → mv_shard mv' = sh') →
  ¬ is_move sh num from to mv.
Proof.
  unfold findMove. intros H Hm Hcur Hmv.
  assert (∀ (d : option (nat * Move)), inr (A := Tshid) ∘ fst <$> d = None → d = None) as Hnone by (by intros []).
  destruct m as [sh'|i]; cbn in Hm.
  - pose proof (Hcur _ _ Hm) as E. destruct Hmv as (E' & Hrest). assert (sh' = sh) as -> by congruence.
    rewrite Hm, decide_True in H; [done|]. done.
  - assert (list_find (is_move sh num from to) (g_old G) = None) as Hl.
    { destruct (g_cur G !! sh); [case_decide; [done|]|]; by apply Hnone. }
    apply list_find_None in Hl. rewrite Forall_forall in Hl. eapply Hl; [|exact Hmv]. by eapply list_elem_of_lookup_2.
Qed.

Lemma shardMoves_elem o n i f t :
  Shards o !! i = Some f → Shards n !! i = Some t → f ≠ t → (i, f, t) ∈ shardMoves o n.
Proof.
  intros Ho Hn Hne. unfold shardMoves. apply list_elem_of_omap. exists i. split.
  - apply elem_of_seq. apply lookup_lt_Some in Ho. lia.
  - rewrite Ho, Hn. cbn. by rewrite decide_False.
Qed.

Lemma through_moved i n o F :
  forallb (through i (Num n) F) (shardMoves o n) = true → all_moved (f_groups F) n o.
Proof.
  intros H%Is_true_eq_left%forallb_True sh f t Hr Ho Hn Hne.
  rewrite Forall_forall in H. specialize (H _ (shardMoves_elem o n _ f t Ho Hn Hne)). cbn in H.
  rewrite Z2Nat.id in H by apply Hr. destruct (findMove sh (Num n) f t (f_groups F)) as [m|] eqn:Ef; [|done]. cbn in H.
  destruct (findMove_spec _ _ _ _ _ _ Ef) as (mv & Hmv & Hs & Hk & _). rewrite Hmv in H.
  destruct (f_work F !! (i, sh)) as [w|]; [|done]. apply bool_decide_unpack in H.
  exists m, mv. split_and!; try done. by eapply list_elem_of_lookup_2.
Qed.
(** One step of a controller. *)
Lemma ctrlStep_confs ex he su c m C cur nx G i F c' m' :
  store_ok m → room m → m = store (f_sys F) → G = f_groups F → confs_ok m C cur nx → ctrl_ok m c → ctl C cur G c →
  moves_ok C cur nx G → mayStep true i su c F = true → ctrlStep ex he su c m = Some (c', m') →
  ∃ C' cur' nx', C ⊆ C' ∧ Num cur ≤ Num cur' ∧ confs_ok m' C' cur' nx' ∧ moves_ok C' cur' nx' G ∧ ctl C' cur' G c'.
Proof.
  intros Hok [Hrc Hrn] Em EG Hcf Hco Hct Hmv Hmay H. pose proof Hok as (Hcs & Hns & Hc0 & Hn0).
  pose proof Hcf as [Hsc Hsn Hkc Hkn Hst Hdom Hlen Hfst].
  assert (∀ d, m' = m → c' = d → ctl C cur G d →
    ∃ C' cur' nx', C ⊆ C' ∧ Num cur ≤ Num cur' ∧ confs_ok m' C' cur' nx' ∧ moves_ok C' cur' nx' G ∧ ctl C' cur' G c') as Hread.
  { intros d -> -> Hd. exists C, cur, nx. split_and!; try done; lia. }
  destruct c as [n|n o v|n o v nv re|n o v| |o v|n o v|n o v re| | |]; cbn in H; try done.
  - rewrite (queryConfig_ok _ _ _ Hsc) in H. injection H as <- <-. eapply Hread; [done|done|]. cbn.
    case_decide; [done|]. cbn in *. split; [done|]. split; [lia|]. apply Hct.
  - rewrite (queryConfig_ok _ _ _ Hsn) in H. injection H as <- <-. eapply Hread; [done|done|]. cbn. by case_decide.
  - destruct Hco as (H1 & H2 & e & H3 & H4). destruct Hct as (K1 & K2 & K3).
    pose proof (storePut_errs nextKey n nv ex he re m Hns) as Hres.
    destruct (storePut nextKey n nv ex he re m) as [m1 res] eqn:E. injection H as <- <-. cbn in Hres.
    eapply storePut_spec in E as (Ha & _ & HOK); [|by right|done..].
    assert (∃ C' nx', C ⊆ C' ∧ confs_ok m1 C' cur nx' ∧ moves_ok C' cur nx' G) as (C' & nx' & Hsub & Hcf' & Hmv').
    { destruct Ha as [->|Ha]; [by exists C, nx|]. destruct (next_written _ _ _ _ _ _ _ _ _ Hcf Ha H1 K2 K3 Hmv) as (C' & ? & ? & ?).
      by exists C', n. }
    exists C', cur, nx'. split; [done|]. split; [lia|]. split; [done|]. split; [done|].
    assert (known C' o) by (by eapply known_weaken).
    rewrite !elem_of_cons, elem_of_nil in Hres. destruct Hres as [->|[->|[->|[->|[]]]]]; [done| |done|done].
    cbn. split; [done|]. split; [|done]. specialize (HOK eq_refl). rewrite (cn_snx _ _ _ _ Hcf') in HOK. injection HOK as <-.
    apply Hcf'.
  - rewrite (queryConfig_ok _ _ _ Hsn) in H. injection H as <- <-. eapply Hread; [done|done|]. cbn.
    destruct (EqualTo nx n) eqn:Eq; [|done]. apply EqualTo_true in Eq as [E1 E2]. destruct Hct as (K1 & K2 & _). cbn.
    split; [done|]. split; [|done]. unfold known. by rewrite <-E1, <-E2.
  - rewrite (queryConfig_ok _ _ _ Hsc) in H. injection H as <- <-. by eapply Hread.
  - rewrite (queryConfig_ok _ _ _ Hsn) in H. injection H as <- <-. eapply Hread; [done|done|]. cbn.
    case_decide as Hlt; [|done]. cbn in Hmay. apply bool_decide_eq_true in Hmay. rewrite <-Em in Hmay.
    destruct Hco as (_ & Heq & _). specialize (Heq Hmay). rewrite Hsc in Heq. injection Heq as <-. cbn. split; [done|]. split; [done|lia].
  - destruct su.
    + unfold isSuperseded in H. rewrite (queryConfig_ok _ _ _ Hsc) in H. cbn in H. injection H as <- <-.
      eapply Hread; [done|done|]. by case_bool_decide.
    + injection H as <- <-. eapply Hread; [done|done|]. split; [done|]. rewrite EG. by eapply through_moved.
  - destruct Hco as [H1 H2]. destruct Hct as [(K1 & K2 & K3) K4].
    destruct (storePut currentKey n v ex he re m) as [m1 res] eqn:E. injection H as <- <-.
    eapply storePut_spec in E as (Ha & _ & _); [|by left|done..].
    assert (∃ cur', Num cur ≤ Num cur' ∧ confs_ok m1 C cur' nx ∧ moves_ok C cur' nx G) as (cur' & Hle & Hcf' & Hmv').
    { destruct Ha as [->|Ha]; [by exists cur|].
      destruct (current_written _ _ _ _ _ _ _ _ _ Hcf Ha H1 K1 K2 K3 K4 Hmv) as (? & ? & ?). by exists n. }
    exists C, cur', nx. split_and!; try done. by destruct res.
Qed.

(** ** Moves *)

(** A move goes on. *)
Definition goes_on mv mv' : Prop :=
  (mv_shard mv' = mv_shard mv ∧ mv_num mv' = mv_num mv ∧ mv_from mv' = mv_from mv ∧ mv_to mv' = mv_to mv) ∧
  (WDone ∈ mv_workers mv → WDone ∈ mv_workers mv').

#[global] Instance goes_on_refl : Reflexive goes_on.
Proof. done. Qed.

Definition same_moves G G' : Prop :=
  (∀ m mv', move m G' = Some mv' → ∃ mv, move m G = Some mv ∧ goes_on mv mv') ∧
  (∀ m mv, move m G = Some mv → ∃ mv', move m G' = Some mv' ∧ goes_on mv mv').

Lemma same_moves_done G G' sh k : same_moves G G' → done_move G sh k → done_move G' sh k.
Proof.
  intros [_ H] (m & mv & Hm & Hs & Hk & Hd). destruct (H m mv Hm) as (mv' & Hm' & (E1 & E2 & _) & Hd').
  exists m, mv'. split_and!; try done; [congruence..|]. auto.
Qed.

Lemma same_moves_ctl G G' C cur c : (∀ sh k, done_move G sh k → done_move G' sh k) → ctl C cur G c → ctl C cur G' c.
Proof.
  intros Hd. destruct c; try done. intros [H1 H2]. split; [done|]. intros sh f t Hr Ho Hn Hne. apply Hd. by eapply H2.
Qed.

Lemma same_moves_ok G G' C cur nx : same_moves G G' → moves_ok C cur nx G → moves_ok C cur nx G'.
Proof.
  intros Hsm [H1 H2 H3 H4]. destruct (Hsm) as [Hb Hf]. split.
  - intros m mv' Hm. destruct (Hb m mv' Hm) as (mv & Hm0 & (E1 & E2 & E3 & E4) & _). rewrite E1, E2, E3, E4. by eapply H1.
  - intros sh mv' Hm. destruct (Hb (inl sh) mv' Hm) as (mv & Hm0 & (E1 & _) & _). rewrite E1. by apply H2.
  - intros i mv' Hm. destruct (Hb (inr i) mv' Hm) as (mv & Hm0 & (E1 & E2 & _) & _). destruct (H3 i mv Hm0) as (mv1 & Hc & Hlt).
    destruct (Hf (inl (mv_shard mv)) mv1 Hc) as (mv1' & Hc' & (_ & E2' & _) & _). exists mv1'. rewrite E1, E2, E2'. done.
  - intros sh k f t Hr Hk Hf' Ht Hne. eapply same_moves_done; [done|]. by eapply H4.
Qed.

Lemma set_move_same G servers m mv mv' :
  move m G = Some mv → goes_on mv mv' → same_moves G (set_move m mv' (mkGroups servers (g_cur G) (g_old G))).
Proof.
  intros Hm Hg. assert (∀ m', move m' (set_move m mv' (mkGroups servers (g_cur G) (g_old G))) =
    if decide (m' = m) then Some mv' else move m' G) as E.
  { intros m'. case_decide as Em.
    - subst. destruct m as [sh|i]; cbn in *; [apply lookup_insert_eq|]. apply list_lookup_insert_eq. by eapply lookup_lt_Some.
    - destruct m as [sh|i], m' as [sh'|i']; cbn in *; try done;
        [apply lookup_insert_ne|apply list_lookup_insert_ne]; congruence. }
  split.
  - intros m' mv1. rewrite E. case_decide; [intros [= <-]; subst; by exists mv|]. intros Hmv1. by exists mv1.
  - intros m' mv1 H. rewrite E. case_decide; [|by exists mv1]. subst. rewrite Hm in H. injection H as <-. by exists mv'.
Qed.

Lemma work_same ev G G' :
  (match ev with Send _ _ | Execute _ _ _ => True | _ => False end) → gstep ev G = Some (Ret G') → same_moves G G'.
Proof.
  intros Hev H. destruct ev as [| |m w|m i heard]; try done; cbn in H.
  - destruct (move m G) as [mv|] eqn:Em; [|done]. cbn in H. destruct (mv_workers mv !! w) as [pc|]; [|done]. cbn in H.
    destruct (requestOf mv pc); [|done]. injection H as <-. destruct G as [sv cu ol]. by apply (set_move_same (mkGroups sv cu ol) sv m mv).
  - destruct (move m G) as [mv|] eqn:Em; [|done]. cbn in H. destruct (mv_sent mv !! i) as [req|]; [|done]. cbn in H.
    destruct (ShardGrp.DoOp req (group G (placeOf mv req))) as [[kv rep]|]; [|done].
    destruct (hear mv req rep heard) as [[mv'|]|] eqn:Eh; [|done..]. injection H as <-.
    apply (set_move_same G (<[placeOf mv' req := kv]> (g_servers G)) m mv); [done|].
    unfold hear in Eh. destruct heard as [w|]; [|by injection Eh as <-].
    destruct (mv_workers mv !! w) as [pc|] eqn:Ew; [|done]. cbn in Eh. case_decide as Er; [|done].
    destruct (hears pc rep) as [pc'|]; [|done]. cbn in Eh. destruct pc'; try done; injection Eh as <-; (split; [done|]);
      cbn; (intros [j Hj]%list_elem_of_lookup; apply (list_elem_of_lookup_2 _ j); rewrite list_lookup_insert_ne; [done|];
      intros <-; rewrite Ew in Hj; injection Hj as ->; done).
Qed.
Lemma shardOf_Some m C cur nx k sh :
  confs_ok m C cur nx → 1 ≤ k ≤ Num nx → in_range sh → ∃ g, shardOf C k sh = Some g.
Proof.
  intros Hcf Hk Hr. destruct (proj2 (cn_dom _ _ _ _ Hcf k) Hk) as [l Hl]. unfold shardOf. rewrite Hl. cbn.
  apply lookup_lt_is_Some_2. rewrite (cn_len _ _ _ _ Hcf _ _ Hl). by apply in_range_nat.
Qed.

(** The last move of a shard. *)
Definition lastNum G sh : Tnum := match g_cur G !! sh with Some mv => mv_num mv | None => 1 end.

Lemma move_lastNum C cur nx G m mv : moves_ok C cur nx G → move m G = Some mv → mv_num mv ≤ lastNum G (mv_shard mv).
Proof.
  intros Hmo Hm. unfold lastNum. destruct m as [sh|i]; cbn in Hm.
  - rewrite (mo_cur _ _ _ _ Hmo _ _ Hm), Hm. lia.
  - destruct (mo_old _ _ _ _ Hmo _ _ Hm) as (mv' & -> & ?). lia.
Qed.

(** After it the configurations leave the shard where it is. *)
Lemma shardOf_stays m C cur nx G sh k :
  confs_ok m C cur nx → moves_ok C cur nx G → in_range sh → lastNum G sh ≤ k ≤ Num cur → 1 ≤ lastNum G sh →
  shardOf C k sh = shardOf C (lastNum G sh) sh.
Proof.
  intros Hcf Hmo Hr Hk H1. replace k with (lastNum G sh + Z.of_nat (Z.to_nat (k - lastNum G sh))) by lia.
  assert (Z.of_nat (Z.to_nat (k - lastNum G sh)) ≤ Num cur - lastNum G sh) as Hb by lia. revert Hb.
  induction (Z.to_nat (k - lastNum G sh)) as [|d IH]; intros Hb; [f_equal; lia|].
  rewrite <-IH by lia. set (j := lastNum G sh + Z.of_nat (S d)).
  pose proof (cn_step _ _ _ _ Hcf) as Hst.
  destruct (shardOf_Some _ _ _ _ j sh Hcf ltac:(lia) Hr) as [t Ht].
  destruct (shardOf_Some _ _ _ _ (j - 1) sh Hcf ltac:(lia) Hr) as [f Hf].
  replace (lastNum G sh + Z.of_nat d) with (j - 1) by lia. rewrite Ht, Hf. f_equal.
  destruct (decide (f = t)) as [->|Hne]; [done|]. exfalso.
  destruct (mo_done _ _ _ _ Hmo sh j f t Hr ltac:(lia) Hf Ht Hne) as (i & mv & Hm & Hs & Hn & _).
  pose proof (move_lastNum _ _ _ _ _ _ Hmo Hm) as Hle. rewrite Hs, Hn in Hle. lia.
Qed.

(** A controller that finds no move of the shard for its configuration: the
    move before is finished and led to where the shard is to be taken from. *)
Lemma go_startable m C cur nx G sh n o f t :
  confs_ok m C cur nx → moves_ok C cur nx G → in_range sh → known C o → known C n → Num n = Num o + 1 →
  Shards o !! Z.to_nat sh = Some f → Shards n !! Z.to_nat sh = Some t → f ≠ t → findMove sh (Num n) f t G = None →
  startable (g_cur G !! sh) (Num n) f ∧ lastNum G sh < Num n ≤ Num nx ∧ 1 < Num n.
Proof.
  intros Hcf Hmo Hr Ko Kn Hn Ho Hnn Hne Hnone. pose proof (cn_step _ _ _ _ Hcf) as Hst.
  assert (1 ≤ Num n ≤ Num nx) as Hb1 by (apply (cn_dom _ _ _ _ Hcf); by rewrite Kn).
  assert (1 ≤ Num o ≤ Num nx) as Hb2 by (apply (cn_dom _ _ _ _ Hcf); by rewrite Ko).
  assert (shardOf C (Num n - 1) sh = Some f) as Hf.
  { replace (Num n - 1) with (Num o) by lia. by rewrite known_shardOf. }
  assert (shardOf C (Num n) sh = Some t) as Ht by (by rewrite known_shardOf).
  assert (∀ i mv, move i G = Some mv → mv_shard mv = sh → mv_num mv ≠ Num n) as Hother.
  { intros i mv Hm Hs Hk. destruct (mo_move _ _ _ _ Hmo _ _ Hm) as (_ & H1 & H2). rewrite Hs, Hk in H1, H2.
    eapply findMove_None; [exact Hnone|exact Hm|apply Hmo|]. split_and!; try done; congruence. }
  assert (Num n = Num cur + 1) as Hnc.
  { destruct (decide (Num n ≤ Num cur)) as [Hle|]; [|lia]. exfalso.
    destruct (mo_done _ _ _ _ Hmo sh (Num n) f t Hr ltac:(lia) Hf Ht Hne) as (i & mv & Hm & Hs & Hk & _). by eapply Hother. }
  assert (1 ≤ lastNum G sh < Num n ∧ (g_cur G !! sh = None → lastNum G sh = 1)) as [Hlast Hl1].
  { unfold lastNum. destruct (g_cur G !! sh) as [mv|] eqn:Ec; [|split; [lia|done]].
    pose proof (mo_move _ _ _ _ Hmo (inl sh) mv Ec) as ([? _] & _).
    pose proof (Hother (inl sh) mv Ec (mo_cur _ _ _ _ Hmo _ _ Ec)). split; [lia|done]. }
  assert (shardOf C (lastNum G sh) sh = Some f) as Hfl.
  { rewrite <-(shardOf_stays m C cur nx G sh (Num cur)) by (done || lia). by replace (Num cur) with (Num n - 1) by lia. }
  split; [|lia]. unfold startable. destruct (g_cur G !! sh) as [mv|] eqn:Ec.
  - pose proof (mo_cur _ _ _ _ Hmo _ _ Ec) as Hs. unfold lastNum in *. rewrite Ec in *.
    pose proof (mo_move _ _ _ _ Hmo (inl sh) mv Ec) as ([Hb Hne'] & Hfrom & Hto).
    rewrite Hs in Hfrom, Hto. assert (mv_to mv = f) as <- by congruence. split; [|lia].
    destruct (mo_done _ _ _ _ Hmo sh (mv_num mv) _ _ Hr ltac:(lia) Hfrom Hto Hne') as (i & mv' & Hm & Hs' & Hk & Hd).
    assert (mv' = mv) as ->; [|done]. destruct i as [sh'|i]; cbn in Hm.
    + pose proof (mo_cur _ _ _ _ Hmo _ _ Hm). congruence.
    + destruct (mo_old _ _ _ _ Hmo _ _ Hm) as (mv1 & Hc1 & Hlt). rewrite Hs', Ec in Hc1. injection Hc1 as <-. lia.
  - rewrite Hl1 in Hfl by done. unfold shardOf in Hfl. rewrite (cn_first _ _ _ _ Hcf) in Hfl. cbn -[replicate] in Hfl.
    rewrite lookup_replicate_2 in Hfl by (by apply in_range_nat). split; [lia|congruence].
Qed.
Lemma startMove_done G sh num from to sh' k : done_move G sh' k → done_move (startMove sh num from to G) sh' k.
Proof.
  intros (m & mv & Hm & H). destruct m as [s|i]; cbn in Hm.
  - destruct (decide (s = sh)) as [->|Hne].
    + exists (inr (length (g_old G))), mv. split; [|done]. cbn. rewrite Hm, lookup_app_r, Nat.sub_diag by lia. done.
    + exists (inl s), mv. split; [|done]. cbn. by rewrite lookup_insert_ne.
  - exists (inr i), mv. split; [|done]. cbn. by apply lookup_app_l_Some.
Qed.

Lemma startMove_ok C cur nx G sh num from to :
  moves_ok C cur nx G → lastNum G sh < num ≤ Num nx → 1 < num → from ≠ to →
  shardOf C (num - 1) sh = Some from → shardOf C num sh = Some to → moves_ok C cur nx (startMove sh num from to G).
Proof.
  intros Hmo Hlast H1 Hne Hf Ht. split.
  - intros [s|i] mv; cbn.
    + intros [[<- <-]|[_ Hm]]%lookup_insert_Some; [cbn; split; [lia|done]|]. exact (mo_move _ _ _ _ Hmo (inl s) mv Hm).
    + intros [Hm|[_ Hm]]%lookup_app_Some; [exact (mo_move _ _ _ _ Hmo (inr i) mv Hm)|].
      destruct (g_cur G !! sh) as [mv0|] eqn:E; [|done]. apply list_lookup_singleton_Some in Hm as [_ <-].
      exact (mo_move _ _ _ _ Hmo (inl sh) mv0 E).
  - intros s mv. cbn. intros [[<- <-]|[_ Hm]]%lookup_insert_Some; [done|by eapply mo_cur].
  - intros i mv. cbn. intros Hi.
    assert (∃ m, move m G = Some mv ∧ ∀ s, m = inl s → s = sh) as (m & Hm & Hms).
    { apply lookup_app_Some in Hi as [Hm|[_ Hm]]; [by exists (inr i)|].
      destruct (g_cur G !! sh) as [mv0|] eqn:E; [|done]. apply list_lookup_singleton_Some in Hm as [_ <-].
      exists (inl sh). split; [done|]. by intros s [= <-]. }
    destruct (decide (mv_shard mv = sh)) as [Es|Es].
    + rewrite Es, lookup_insert_eq. eexists. split; [done|]. cbn.
      pose proof (move_lastNum _ _ _ _ _ _ Hmo Hm) as Hle. rewrite Es in Hle. lia.
    + rewrite lookup_insert_ne by done. destruct m as [s|j]; [|by eapply mo_old]. exfalso. apply Es. cbn in Hm.
      rewrite (mo_cur _ _ _ _ Hmo _ _ Hm). by apply Hms.
  - intros s k f t Hr Hk Hf' Ht' Hne'. apply startMove_done. by eapply mo_done.
Qed.

Lemma full_groups C cur nx F G' work V X :
  full_ok C cur nx F V X → (∀ sh k, done_move (f_groups F) sh k → done_move G' sh k) → moves_ok C cur nx G' → groups_inv G' V X →
  full_ok C cur nx (mkFull (f_sys F) G' work) V X.
Proof.
  intros [H1 H2 H3 H4 H5] Hd Hmo HI. split; try done. cbn. intros i c Hc. destruct (H3 i c Hc) as [? ?]. split; [done|].
  by eapply same_moves_ctl.
Qed.

Lemma goShard_preserves C cur nx F V X i sh n o v f t :
  full_ok C cur nx F V X → ctrls (f_sys F) !! i = Some (Migrating n o v) → in_range sh →
  Shards o !! Z.to_nat sh = Some f → Shards n !! Z.to_nat sh = Some t → f ≠ t →
  full_ok C cur nx (goShard i sh (Num n) f t F) V X.
Proof.
  intros HF Hi Hr Ho Hn Hne. destruct (fo_ctrl _ _ _ _ _ _ HF i _ Hi) as [_ (Ko & Kn & Hnum)].
  pose proof HF as [_ Hcf _ Hmo HI]. unfold goShard. cbn zeta.
  assert (∀ m mv G, groups_inv G V X → move m G = Some mv → moves_ok C cur nx G →
    (∀ sh k, done_move (f_groups F) sh k → done_move G sh k) → ∀ work, full_ok C cur nx (mkFull (f_sys F) (joinMove m mv G) work) V X) as Hjoin.
  { intros m mv G HG Hm HmG HdG work. assert (same_moves G (joinMove m mv G)) as Hsm.
    { destruct G as [sv cu ol]. apply (set_move_same (mkGroups sv cu ol) sv m mv); [done|]. split; [done|]. cbn. intros H.
      apply elem_of_app. by left. }
    apply full_groups; [done| |by eapply same_moves_ok|by apply join_preserves].
    intros s k H. eapply same_moves_done; [done|]. by apply HdG. }
  destruct (findMove sh (Num n) f t (f_groups F)) as [m|] eqn:Ef.
  - destruct (findMove_spec _ _ _ _ _ _ Ef) as (mv & Hmv & _). cbn. rewrite Hmv. cbn. by apply Hjoin.
  - cbn [mbind option_bind]. destruct (go_startable _ _ _ _ _ _ _ _ _ _ Hcf Hmo Hr Ko Kn Hnum Ho Hn Hne Ef) as (Hst & Hl & H1).
    apply Hjoin.
    + by apply start_preserves.
    + cbn. apply lookup_insert_eq.
    + apply startMove_ok; try done.
      * replace (Num n - 1) with (Num o) by lia. by rewrite known_shardOf.
      * by rewrite known_shardOf.
    + intros s k. apply startMove_done.
Qed.

Lemma fstep_preserves F V X ev (o : outcome Full) :
  full_inv F V X → fstep true ev F = Some o → ∃ F', o = Ret F' ∧ full_inv F' V X.
Proof.
  intros (C & cur & nx & HF) H. pose proof HF as [Hso Hcf Hct Hmo HI].
  destruct ev as [c|i ex he su|i sh|ev]; cbn in H.
  - match type of H with (if ?b then _ else _) = _ => destruct b eqn:Eb; [|done] end. injection H as <-. eexists. split; [done|].
    exists C, cur, nx. split; try done. cbn. intros j d [Hd|[_ Hd]]%lookup_app_Some; [by eapply Hct|].
    apply list_lookup_singleton_Some in Hd as [_ <-]. destruct c as [cfg| | | | | | | | | |]; try done. split; [done|].
    unfold askable in Eb. rewrite (cn_scur _ _ _ _ Hcf) in Eb. apply bool_decide_eq_true in Eb as [? Hl]. cbn. split; [done|].
    unfold zlen, nshards in *. lia.
  - destruct (ctrls (f_sys F) !! i) as [c|] eqn:Ei; [|done]. cbn in H. destruct (mayStep true i su c F) eqn:Em; [|done].
    case_decide as Hroom; [|done]. destruct (ctrlStep ex he su c (store (f_sys F))) as [[c' m']|] eqn:Es; [|done]. cbn in H.
    destruct (Hct i c Ei) as [Hco Hcl].
    destruct (ctrlStep_ok _ _ _ _ _ _ _ Hso Hroom Hco Es) as [Ha Hco'].
    destruct (ctrlStep_confs ex he su c _ C cur nx _ i F c' m' Hso Hroom eq_refl eq_refl Hcf Hco Hcl Hmo Em Es)
      as (C' & cur' & nx' & Hsub & Hle & Hcf' & Hmo' & Hcl').
    assert (full_ok C' cur' nx' (mkFull (mkSystem m' (<[i := c']> (ctrls (f_sys F)))) (f_groups F) (f_work F)) V X) as HF'.
    { split; try done; cbn; [by eapply store_ok_mono|]. intros j d Hd. apply list_lookup_insert_Some in Hd as [(_ & <- & _)|[_ Hd]]; [done|].
      destruct (Hct j d Hd) as [H1 H2]. split; [by eapply ctrl_ok_mono|by eapply ctl_mono]. }
    eexists. split; [|exists C', cur', nx'; exact HF']. destruct c'; injection H as <-; done.
  - destruct (ctrls (f_sys F) !! i) as [c|] eqn:Ei; [|done]. cbn in H. destruct c as [| | | | | |n old v| | | |]; try done.
    destruct (f_work F !! (i, sh)); [done|]. destruct (list_find _ _) as [[j [[k f] t]]|] eqn:El; [|done]. injection H as <-.
    apply list_find_Some in El as (Hj & Hk & _). cbn in Hk. subst sh.
    apply list_elem_of_lookup_2 in Hj. unfold shardMoves in Hj. apply list_elem_of_omap in Hj as (k' & _ & Hk').
    destruct (Shards old !! k') as [f'|] eqn:Eo; [|done]. destruct (Shards n !! k') as [t'|] eqn:En; [|done]. cbn in Hk'.
    case_decide; [done|]. injection Hk' as -> -> ->. eexists. split; [done|]. exists C, cur, nx.
    destruct (Hct i _ Ei) as [_ (Ko & _)]. pose proof (cn_len _ _ _ _ Hcf _ _ Ko) as Hlen.
    eapply goShard_preserves; [done|done|..]; rewrite ?Nat2Z.id; try done.
    apply lookup_lt_Some in Eo. unfold in_range, nshards in *. lia.
  - assert ((match ev with Send _ _ | Execute _ _ _ => True | _ => False end) ∧
      ∃ o' : outcome ShardMoves.Groups, gstep ev (f_groups F) = Some o' ∧ o = (G ← o'; Ret (mkFull (f_sys F) G (f_work F)))) as (Hev & o' & Hg & ->).
    { destruct ev; try done; (split; [done|]); destruct (gstep _ _) as [o'|]; try done; exists o'; split; congruence. }
    destruct (gstep_preserves _ _ _ _ _ HI Hg) as (G' & -> & HI'). eexists. split; [done|]. exists C, cur, nx.
    pose proof (work_same _ _ _ Hev Hg) as Hsm. apply full_groups; [done| |by eapply same_moves_ok|done].
    intros s k. by apply same_moves_done.
Qed.
(** ** The system keeps the promises of a service *)

Lemma put_case_mono (inv inv' : cells → puts → Prop) V X a ans :
  (∀ V X, inv V X → inv' V X) → put_case inv V X a ans → put_case inv' V X a ans.
Proof.
  intros Hi [Ha H|rid a' e Hle HX Ha H|HX Ha H]; [apply put_elsewhere|eapply put_repeated|apply put_executed]; by eauto.
Qed.

Lemma client_op F G' V X V' X' work :
  full_inv F V X → g_cur G' = g_cur (f_groups F) → g_old G' = g_old (f_groups F) → groups_inv G' V' X' →
  full_inv (mkFull (f_sys F) G' work) V' X'.
Proof.
  intros (C & cur & nx & HF) E1 E2 HI. exists C, cur, nx.
  assert (∀ m, move m G' = move m (f_groups F)) as Em by (intros [s|i]; cbn; by rewrite ?E1, ?E2).
  assert (same_moves (f_groups F) G') as Hsm by (split; intros m mv; rewrite Em; intros H; by exists mv).
  pose proof HF as [H1 H2 H3 H4 H5]. split; try done; cbn; [|by eapply same_moves_ok].
  intros i c Hc. destruct (H3 i c Hc) as [? ?]. split; [done|]. eapply same_moves_ctl; [|done]. intros s k. by apply same_moves_done.
Qed.

Lemma groupExec_moves g r G G' rep :
  groupExec g r G = Ret (G', rep) → g_cur G' = g_cur G ∧ g_old G' = g_old G.
Proof. unfold groupExec. destruct (ShardGrp.DoOp _ _) as [[kv rep']|]; [|done]. cbn. by intros [= <- <-]. Qed.

Lemma systemExec_ret g r F G' rep :
  groupExec g r (f_groups F) = Ret (G', rep) → systemExec g r F = Ret (mkFull (f_sys F) G' (f_work F), rep).
Proof. unfold systemExec. by intros ->. Qed.

Lemma full_init servers : full_inv (mkFull (initSystem (firstConfig servers)) (mkGroups ∅ ∅ []) ∅) (λ _, None) ∅.
Proof.
  set (c1 := firstConfig servers). destruct (initSystem_ok c1) as (Hso & (_ & Hhd & cur & Hcur & _) & _).
  assert (stored (store (initSystem c1)) currentKey = Some c1) as Hc.
  { unfold stored. cbn [store initSystem]. rewrite InitConfig_store by (by left). cbn. by rewrite FromString_String. }
  exists {[1 := Shards c1]}, c1, c1. split; cbn [f_sys f_groups].
  - done.
  - split; try done; cbn.
    + intros k. destruct (decide (k = 1)) as [->|Hne].
      * rewrite lookup_singleton_eq. split; [lia|by eexists].
      * rewrite lookup_singleton_ne by done. split; [by intros []|lia].
    + intros k l [<- <-]%lookup_singleton_Some. by rewrite length_replicate.
  - intros i c. cbn. by rewrite lookup_nil.
  - split.
    + intros [s|i] mv; cbn; rewrite ?lookup_empty; done.
    + intros s mv. cbn. by rewrite lookup_empty.
    + intros i mv. cbn. done.
    + cbn. intros. lia.
  - apply groups_inv_init.
Qed.

Lemma system_laws servers : @ServiceLaws Full ShardGrp.Rep SClerk FullEvent (system_service servers true).
Proof.
  refine {| sv_inv := full_inv; ck_id := clerkId; ck_rid := requestId |}.
  - apply full_init.
  - intros F V X g a HF. destruct (HF) as (C & cur & nx & HF').
    destruct (shard_get_law (f_groups F) V X g a (fo_groups _ _ _ _ _ _ HF')) as (G' & rep & ans & Hex & HI & Hans).
    destruct (groupExec_moves _ _ _ _ _ Hex) as [E1 E2]. eexists _, rep, ans.
    split; [exact (systemExec_ret _ _ _ _ _ Hex)|]. split; [by eapply client_op|done].
  - intros F V X g a HF Hsame. destruct (HF) as (C & cur & nx & HF').
    destruct (shard_put_law (f_groups F) V X g a (fo_groups _ _ _ _ _ _ HF') Hsame) as (G' & rep & ans & Hex & Hans & Hcase).
    destruct (groupExec_moves _ _ _ _ _ Hex) as [E1 E2]. eexists _, rep, ans.
    split; [exact (systemExec_ret _ _ _ _ _ Hex)|]. split; [done|]. eapply put_case_mono; [|exact Hcase]. intros V' X' HI. by eapply client_op.
  - intros F V X b o HF H. exact (fstep_preserves F V X b o HF H).
  - done.
  - done.
Defined.

(** C3: the sharded system with its controllers, on ideal replicated groups, is
    linearizable.  Each group is one logical server that executes committed
    requests one after the other and gives every call the result of its own
    ([own_result]).  Any number of threads share any number of clerks as in
    [shardkv_linearizable]; controllers are started at any time with
    configurations made from the current one, run concurrently on the
    configuration store, whose clerk loses replies, recover what others have
    left ([InitController], assumed to read both configurations at once), start
    a goroutine per shard to move, and make a configuration current when theirs
    are through; the requests of all are executed late and repeatedly.  Then no
    modelled step of a server, clerk or controller panics or exits, and once
    every thread has appended what it recorded, the whole history is
    linearizable for the sequential store, and the history without the puts
    refused with [ErrNoKey] for the checker's model. *)
Theorem sharded_system_linearizable servers evs out :
  systemRun servers true evs = Some out → Forall own_result evs → zlen evs < u64_mod →
  ∃ w, out = Ret w ∧ (w_threads w = ∅ → seq_linearizable (OpLog_Read (w_oplog w)) ∧
                     linearizable (filter not_NoKey_put (OpLog_Read (w_oplog w)))).
Proof. exact (@clients_linearizable _ _ _ _ (system_service servers true) (system_laws servers) evs out). Qed.

(** C34: a race of conditional puts has one winner.  In a completed execution of
    the sharded system as above, of all the puts that ask for one version of a
    key, whoever sends them through whatever clerks and while shards move, at
    most one is told that it succeeded; and exactly one, if somebody had read
    this version of the key before the first of them was called, as the race of
    the web interface does. *)
Theorem race_one_winner servers evs w key ver :
  systemRun servers true evs = Some (Ret w) → Forall own_result evs → zlen evs < u64_mod → w_threads w = ∅ →
  let history := OpLog_Read (w_oplog w) in
  (length (winners key ver history) ≤ 1)%nat ∧
  ∀ g : Operation, g ∈ history → reads key g → out_Version (op_Output g) = ver →
    (∀ o : Operation, o ∈ history → asks key ver o → precedes g o) →
    filter (asks key ver) history ≠ [] → length (winners key ver history) = 1%nat.
Proof.
  exact (@clients_race _ _ _ _ (system_service servers true) (system_laws servers) evs w key ver shardAnswer_sure).
Qed.
End system.

(** ** Runs *)

Section runs.
#[local] Instance runs_codec : Codec ShardState := countable_codec.
#[local] Existing Instance digits.

(** Configurations that take shard 6, where the key "k" is, to groups 2 and 3. *)
Definition movedTo (num : Tnum) (g : Tgid) : ShardConfig :=
  mkShardConfig num (replicate 6 1 ++ g :: replicate 5 1) ∅.

(** A controller's step on the store, heard at once. *)
Definition ctrl (i : nat) : Event FullEvent := Back (CtrlDo i true true false).

(** Worker [w] of the shard's move sends its request, the [k]th of the move,
    which is executed and answered. *)
Definition round (k w : nat) : list (Event FullEvent) :=
  [Back (Work (Send (inl 6) w)); Back (Work (Execute (inl 6) k (Some w)))].

(** A put; controller 0 stores configuration 2 and begins to move the shard,
    and stops; controller 1 recovers: it moves the shard and makes the
    configuration current; a second put and a read find it at group 2. *)
Definition systemSample : list (Event FullEvent) :=
  [NewClerk 7; InvokePut 1 1 7 "k" "a" 0; Lock 1; Propose 1 1; Commit 0; Tick 1; Return 1; Append 1;
   Back (NewCtrl (ChangeConfigTo (movedTo 2 2))); ctrl 0; ctrl 0; ctrl 0; Back (Go 0 6)] ++ round 0 0 ++
  [Back (NewCtrl InitController); ctrl 1; ctrl 1; Back (Go 1 6)] ++ round 1 1 ++ round 2 1 ++ round 3 1 ++
  [ctrl 1; ctrl 1; InvokePut 2 2 7 "k" "b" 1; Lock 2; Propose 2 1; Commit 0; Return 2; Propose 2 2; Commit 0; Tick 1; Return 2; Append 2;
   InvokeGet 3 3 "k"; Propose 3 2; Commit 0; Tick 1; Return 3; Append 3].

Definition systemSampleEnd : World Full ShardGrp.Rep SClerk :=
  match systemRun ∅ true systemSample with
  | Some (Ret w) => w
  | _ => MakeWorld (Service0 := system_service ∅ true)
  end.
Lemma sharded_system_linearizable_witness :
  seq_linearizable (OpLog_Read (w_oplog systemSampleEnd)) ∧
  ctrls (f_sys (w_srv systemSampleEnd)) !! 1%nat = Some (Finished (movedTo 2 2) (movedTo 1 1) 1) ∧
  (λ o, (op_ClientId o, op_Call o, op_Return o, (out_Value (op_Output o), out_Err (op_Output o))))
    <$> OpLog_Read (w_oplog systemSampleEnd) =
    [(1, 0, 1, ("", "OK")); (2, 1, 2, ("", "OK")); (3, 2, 3, ("b", "OK"))]%string.
Proof.
  split; [|split; vm_compute; reflexivity].
  destruct (sharded_system_linearizable ∅ systemSample (Ret systemSampleEnd)) as (w & Hw & H);
    [vm_compute; reflexivity|repeat constructor|vm_compute; reflexivity|].
  apply (inj Ret) in Hw. rewrite <-Hw in H. refine (proj1 (H _)). vm_compute. reflexivity.
Defined.

(** A client reads the absent key; three others race for it, one of them with a
    first call that goes astray to group 2. *)
Definition raceSample : list (Event FullEvent) :=
  [NewClerk 7; NewClerk 8; NewClerk 9; InvokeGet 1 1 "k"; Propose 1 1; Commit 0; Return 1; Append 1; Tick 1;
   InvokePut 1 1 7 "k" "a" 0; Lock 1; InvokePut 2 2 8 "k" "b" 0; Lock 2; InvokePut 3 3 9 "k" "c" 0; Lock 3;
   Propose 1 2; Commit 0; Return 1; Propose 2 1; Propose 1 1; Propose 3 1; Commit 2; Commit 0; Commit 0;
   Return 1; Return 2; Return 3; Append 2; Append 1; Append 3].

Definition raceSampleEnd : World Full ShardGrp.Rep SClerk :=
  match systemRun ∅ true raceSample with
  | Some (Ret w) => w
  | _ => MakeWorld (Service0 := system_service ∅ true)
  end.

Lemma race_one_winner_witness :
  length (winners "k" 0 (OpLog_Read (w_oplog raceSampleEnd))) = 1%nat ∧
  (λ o, (in_Value (op_Input o), out_Err (op_Output o))) <$> OpLog_Read (w_oplog raceSampleEnd) =
    [("", "ErrNoKey"); ("b", "ErrVersion"); ("a", "ErrVersion"); ("c", "OK")]%string.
Proof.
  split; [|vm_compute; reflexivity].
  destruct (race_one_winner ∅ raceSample raceSampleEnd "k" 0) as [_ H];
    [vm_compute; reflexivity|repeat constructor|vm_compute; reflexivity..|].
  set (h := OpLog_Read (w_oplog raceSampleEnd)) in *.
  destruct (h !! 0%nat) as [g|] eqn:Eg; [|vm_compute in Eg; discriminate Eg].
  assert (bool_decide (in_Op (op_Input g) = 0 ∧ op_key g = "k" ∧ out_Version (op_Output g) = 0)%string = true ∧
    forallb (λ o, bool_decide (asks "k" 0 o → op_Return g < op_Call o)) h = true ∧
    bool_decide (length (filter (asks "k" 0) h) = 0%nat) = false) as (Hg & Ho & Hn).
  { vm_compute in Eg. injection Eg as <-. vm_compute. done. }
  apply bool_decide_eq_true in Hg as (Hg1 & Hg2 & Hg3). rewrite forallb_forall in Ho.
  clearbody h. refine (H g (list_elem_of_lookup_2 _ _ _ Eg) (conj Hg1 Hg2) Hg3 _ _).
  - intros o Hin. apply list_elem_of_In, Ho, bool_decide_eq_true in Hin. exact Hin.
  - intros E. rewrite E in Hn. discriminate Hn.
Defined.

(** Controller 0 recovers and reads configuration 1; controller 1 changes to
    configuration 2; controller 2 has stored configuration 3 when controller 0
    goes on and reads it: it asks group 1 to freeze a shard that has left it. *)
Definition staleRun : list (Event FullEvent) :=
  [Back (NewCtrl InitController); ctrl 0;
   Back (NewCtrl (ChangeConfigTo (movedTo 2 2))); ctrl 1; ctrl 1; ctrl 1; Back (Go 1 6)] ++
  round 0 0 ++ round 1 0 ++ round 2 0 ++
  [ctrl 1; ctrl 1; Back (NewCtrl (ChangeConfigTo (movedTo 3 3))); ctrl 2; ctrl 2; ctrl 2; ctrl 0; Back (Go 0 6)] ++ round 0 0.

(** [InitController] reads [currentConfig] and [nextConfig] one after the other.
    When another controller has made the next configuration current in between
    and a third has stored one more, it takes shards from groups that no longer
    have them: the group answers [ErrIllegalOperation] and the clerk panics. *)
Theorem stale_recovery_stops_controller :
  systemRun ∅ false staleRun = Some (Panic (GoPanic "undefined rpc error type")).
Proof. vm_compute. reflexivity. Qed.
End runs.
